(* ===== verification/_CoqProject ===== *)
-Q . S2P
Prelude.v
Errors.v
Address.v
Transport.v
Wire.v
WireAndroid13.v
Profile.v
UnixSocket.v
RpcState.v
Parcel.v
ParcelSpec.v
Parcelable.v
Aidl.v
Status.v
Binders.v
Slots.v
Session.v
SessionSpec.v
Deadlines.v
RefCounter.v
Lifecycle.v
RpcDeath.v
ProxyCount.v
LazyService.v
Float.v
ConstExpr.v
ConstExprSpec.v
ConstMeaning.v
AidlGuard.v
AidlEnum.v
AidlCheck.v
Server.v
ProxyCache.v
Extension.v
Hub.v
HubSpec.v
Accessors.v
HubClient.v
HubWait.v
NativeTable.v
ThreadState.v
ThreadSpec.v
Permissions.v
Holder.v
ParcelObjects.v
ParcelOwnership.v
NativeDispatch.v
