(* ===== verification/Prelude.v ===== *)
(** * rsbinder: a verification library

    rsbinder is Android's binder in Rust: the IPC library (src/rsbinder), over the kernel driver and over
    sockets ("RPC binder"), the compiler of its interface language (src/rsbinder-aidl) and the service manager
    (src/rsbinder-tools). This library translates the parts of it that compute into Rocq definitions and proves
    what they guarantee.

    ** The program and its parts

    A call starts in a generated stub, which asks a proxy for a request parcel, writes its arguments and
    submits it. Over the kernel the proxy names a handle: the driver thread (thread_state.rs) queues a command,
    waits, and meanwhile dispatches calls that arrive for native binders of the process
    (native.rs), which the process has published under ids (process_state.rs) when their references were written to parcels
    (parcel.rs, binder_object.rs). Over RPC the proxy names an address of a session (rpc/session.rs): the session picks a
    connection of its pool, encodes a message (rpc/wire.rs, rpc/wire_android13.rs) in frames (rpc/transport), and
    serves what the peer sends while it waits; its object table (rpc/state.rs) counts the references each side has on the
    objects of the other. A server (rpc/server.rs) accepts connections and founds sessions or adds to them. Names
    become binders through the service manager (rsb_hub.rs) and its client (hub/), which also resolves accessors: services that
    live behind a socket.

    ** The files

    Shared: [Prelude] has outcomes of calls ([Ok], [Err], [Panic]), the state and error monad [M], machine
    integers on [Z] with their wrap-around, and lists of bytes; [Errors] has the status codes and the errors
    of RPC.

    Parcels: [Parcel] is the buffer of parcel.rs, operation by operation, and [ParcelSpec] what its operations
    promise ([writes], [decodes], [reads]). [Parcelable] has the values of parcelable.rs as codecs with laws,
    [Aidl] the types that generated code composes of them (generator.rs, macros.rs), [Status] the
    exceptions of status.rs, [Holder] the parcelable holder and stability. [ParcelObjects] has
    the binders and descriptors in parcels (binder_object.rs, file_descriptor.rs) over the process, and
    [ParcelOwnership] any number of parcels over one process.

    RPC: [Address] and [Transport] are addresses and frames; [Wire] has the messages, the codec interface
    [WireCodec] with its laws and the r34 codec, [WireAndroid13] the android-13+ codec and handshake, [Profile] the
    message loop of a session over either codec, [UnixSocket] messages with descriptors over a
    Unix socket. [RpcState] is the object table with the reference protocol, [Binders] how binders go through parcels and the table, [Slots] the connection pool, [Session] the calls
    and their dispatch, [SessionSpec] what they guarantee, [Deadlines] the timeouts of a connection under nested calls,
    [Lifecycle] the atomic word of a session's life,
    [RpcDeath] proxies with their death recipients and the end of a session, [Server] the server with its workers.

    Kernel: [NativeTable] is the table of published binders, [ProxyCache] the cache of proxies, [Extension] their
    extensions, [ProxyCount] their counters, [RefCounter] the counter of a native binder,
    [ThreadState] the driver thread and [ThreadSpec] its theorems, [NativeDispatch] what a native binder does with a request and how a proxy makes one, [Permissions] the
    checks of a caller's permissions (permission_controller.rs) and the guards that the compiler generates from them.

    Services: [LazyService] is the registrar of lazy services; [Hub] and [HubSpec] are the service
    manager, [HubClient] the lookups and requests of its client for every version, [HubWait] the wait for a service,
    [Accessors] accessors and the providers of a process.

    The AIDL compiler: [ConstExpr], [ConstExprSpec] and [ConstMeaning] are constant expressions (const_expr.rs) with
    [Float] for their floating point; [AidlGuard] is the nesting guard of the parser, [AidlEnum]
    the values of enums, [AidlCheck] the semantic checks.

    A file of the code is a file here or a few; a struct is a [Record], an enum an [Inductive] type, a function a
    [Definition] or [Fixpoint] under its own name, and each file's comment names its sources.

    ** What is proved

    - Values come back: every AIDL value, holder, status, binder and descriptor that is written is read
      back ([Aidl.value_roundtrip], [Holder.holder_roundtrip], [Binders.binder_identity],
      [ParcelOwnership.binder_returns_home]), newer and older versions of a parcelable understand each other
      ([Aidl.parcelable_version_compat]), and hostile bytes are refused without a panic
      ([Aidl.hostile_read_safe], [ParcelSpec.nested_read_bounded]).
    - Nothing leaks and nothing is given back twice: references of an RPC session
      ([RpcState.refcount_balanced], [SessionSpec.undelivered_reply_leaks_nothing]), of proxies and cache pins
      ([ProxyCache]), of published binders and parcels ([NativeTable], [ParcelOwnership]), and the replies and buffers of the
      driver thread ([ThreadSpec]); descriptors stay with their message and are closed once ([UnixSocket]); proxies and
      their extensions are freed unless the extensions form a cycle ([Extension]).
    - Calls are answered: a caller over RPC gets what the handler answered ([SessionSpec.call_returns_answer]), there is one reply
      per call next to what handlers send, a request made by a proxy reaches the service it is for ([NativeDispatch]), oneway
      calls that are numbered once run in order ([RpcState.oneway_in_order]), and the loops end. A wait is under the deadline of its
      own call, and a call in a session that keeps its deadline returns ([Deadlines]). Two ends finish their handshake at one version
      ([WireAndroid13.handshake_agreement]).
    - Callers are who they are: a handler sees one caller, whatever is dispatched inside it ([ThreadSpec]), and a guarded
      method runs only for a caller who was granted its permissions ([Permissions]).
    - Threads do not collide: connections are driven by one thread at a time ([Slots]), sessions die once and
      are not joined after that ([Server]), the lives of a reference counter end with
      its last reference and close once each ([RefCounter]).
    - Death is told: each link of a death recipient to an RPC proxy has one fate, and the end of a session reaches every proxy
      that is held ([RpcDeath]).
    - The service manager is a map from names to binders for the calls of its clients ([HubSpec]); a client that waits
      does not miss a registration ([HubWait]), and the lookups answer as their documentation says ([HubClient]).
    - The compiler computes constants exactly ([ConstMeaning], [ConstExprSpec], [AidlEnum]).

    ** Bounds and fuel

    Integers have the width of the source and wrap where the code wraps; [usize] is 32 or 64 bits
    ([PtrWidth]); hosts are little-endian. Errno values are a parameter with laws
    ([ErrnoTable], [ErrnoLaws]).

    Loops that are not structural have fuel that is proved to be enough. The loops of [Session] take it from the messages in
    the inbox, plus the parked oneway calls of the address, and [SessionSpec.session_loops_end] excludes its end; those of
    [Deadlines] one unit for each message. Sized
    blocks nest at most [MAX_NESTED_READ_DEPTH], after which the code fails by itself. The loops of [ThreadState] have
    the returns and ioctl outcomes that remain ([ThreadSpec.command_loops_end]). The evaluator of constants has a stack of
    [STACK] calls, which its depth limit keeps it from using up ([ConstExprSpec.constant_evaluation_total]).
    [AidlGuard] reads a byte per pass, so its fuel is the length of the text. The count of live
    workers in [Server] is below the mask of the lifecycle word.

    ** What the models assume

    Memory orderings are sequentially consistent and a section under a lock is one step; where threads interleave the state has
    every point at which another thread can observe it. [Session] and [Deadlines] have one connection
    and one thread, [Slots] the pool; [Server] has one accept loop. [ProxyCache] has a driver that
    carries out all commands but the releases it refuses, any of them.
    The handlers of a session are any functions on the call; what they send and do to the counts themselves is any
    predicate or order in [SessionSpec]. The handlers of [Hub] are atomic. The counters of [NativeTable] count objects in memory and do not overflow. [ThreadState]
    takes the driver as a script of ioctl outcomes with whole commands, and application code as any program over the
    operations of the thread; its theorems ask that giving back a dispatch reference succeeds, as it does for
    every [Binder<T>]. [ParcelObjects] runs one thread; [fcntl], the lookup of a proxy and the hooks of
    an RPC session are parameters, of which the theorems ask that a duplicate is a fresh descriptor and a lookup does not panic;
    ids are below 2^64. The kinds of [Holder] are a parameter with the laws of codecs. [NativeDispatch] takes the service as any
    computation on the dispatch, and the kernel as what delivers the bytes with its own descriptor
    in the place of the sender's. [UnixSocket] takes the socket as a script of what its calls take and give. [HubClient] and
    [Permissions] are over any remote manager and controller; [Permissions] asks that a call leaves the caller of the thread,
    which it proves for calls through the driver. [Extension] has one proxy in use per handle, as [ProxyCache] keeps it.

    ** Not modelled

    - System calls and their plumbing: connecting sockets, the vsock, TLS, TCP and in-memory transports
      (rpc/transport), binderfs.rs, shared_memory.rs, opening the driver, mapping its memory and starting threads
      (process_state.rs), the bindings of sys/.
    - Code that only forwards: binder_async.rs, rt/, lib.rs, service.rs, the per-version modules of hub/ where they
      only hand on a call, macros.rs apart from parcelables and unions, the accessors of
      binder.rs.
    - Text: the grammar and the tree of the AIDL parser, the templates of generated code, diagnostics, [Display]
      and log lines.
    - Time, other than the order in which a deadline and a message come; accept timeouts; the threads that send queued
      decrements and poll.
    - Tests, examples, fuzz targets and the device tool.
*)

From Stdlib Require Import ZArith Lia Strings.Byte.
From stdpp Require Import base gmap list strings countable.

Declare Scope rsb_scope.
Delimit Scope rsb_scope with rsb.
Global Open Scope rsb_scope.
Global Open Scope Z_scope.

Create HintDb rsb.

(** * Outcomes *)

(** What a Rust call does: return [Ok], return [Err], or panic (a failed
    [assert!], an [expect]/[unwrap] on the wrong variant, a slice index out of
    range). *)
Inductive outcome (E A : Type) : Type :=
| Ok (a : A)
| Err (e : E)
| Panic.
Arguments Ok {E A} a.
Arguments Err {E A} e.
Arguments Panic {E A}.

(** The [?] operator. *)
Notation "'let?' x := c 'in' k" :=
  (match c with
   | Ok x => k
   | Err e => Err e
   | Panic => Panic
   end)
  (at level 10, x pattern, c at level 150, k at level 200) : rsb_scope.

(** [Option::ok_or(e)?]. *)
Definition ok_or {E A} (o : option A) (e : E) : outcome E A :=
  match o with Some a => Ok a | None => Err e end.

(** [Option::expect] / [Option::unwrap]. *)
Definition expect {E A} (o : option A) : outcome E A :=
  match o with Some a => Ok a | None => Panic end.

Definition map_err {E F A} (f : E -> F) (o : outcome E A) : outcome F A :=
  match o with Ok a => Ok a | Err e => Err (f e) | Panic => Panic end.

Definition is_ok {E A} (o : outcome E A) : bool :=
  match o with Ok _ => true | _ => false end.

Definition is_panic {E A} (o : outcome E A) : bool :=
  match o with Panic => true | _ => false end.

(** * Stateful code *)

(** A computation that threads a state and may fail; the state reached is kept
    on every path, since Rust's [?] does not roll anything back. *)
Definition M (S E A : Type) : Type := S -> outcome E A * S.

Section StateError.
Context {S E : Type}.

Definition ret {A} (a : A) : M S E A := fun s => (Ok a, s).
Definition throw {A} (e : E) : M S E A := fun s => (Err e, s).
Definition panic {A} : M S E A := fun s => (Panic, s).
Definition lift {A} (o : outcome E A) : M S E A := fun s => (o, s).
Definition get : M S E S := fun s => (Ok s, s).
Definition put (s : S) : M S E unit := fun _ => (Ok tt, s).
Definition modify (f : S -> S) : M S E unit := fun s => (Ok tt, f s).

Definition bind {A B} (m : M S E A) (k : A -> M S E B) : M S E B :=
  fun s =>
    match m s with
    | (Ok a, s) => k a s
    | (Err e, s) => (Err e, s)
    | (Panic, s) => (Panic, s)
    end.

Lemma bind_ok {A B} (m : M S E A) (k : A -> M S E B) s a s' :
  m s = (Ok a, s') -> bind m k s = k a s'.
Proof. unfold bind. by intros ->. Qed.

Lemma bind_err {A B} (m : M S E A) (k : A -> M S E B) s e s' :
  m s = (Err e, s') -> bind m k s = (Err e, s').
Proof. unfold bind. by intros ->. Qed.

Lemma bind_inv_ok {A B} (m : M S E A) (k : A -> M S E B) s b s' :
  bind m k s = (Ok b, s') -> exists a s1, m s = (Ok a, s1) /\ k a s1 = (Ok b, s').
Proof. unfold bind. destruct (m s) as [[a | e |] s1]; naive_solver. Qed.

Lemma bind_safe {A B} (m : M S E A) (k : A -> M S E B) s :
  fst (m s) <> Panic -> (forall a s1, m s = (Ok a, s1) -> fst (k a s1) <> Panic) ->
  fst (bind m k s) <> Panic.
Proof. unfold bind. destruct (m s) as [[a | e |] s1]; naive_solver. Qed.
End StateError.

Notation "'let*' x := m 'in' k" := (bind m (fun x => k))
  (at level 10, x pattern, m at level 150, k at level 200) : rsb_scope.

(** * Machine integers *)

(** An unsigned or signed integer of [n] bits is a [Z] in its range; the
    casts [as u32], [as i32], ... are the two wrap functions. *)
Definition in_u (n z : Z) : Prop := 0 <= z < 2 ^ n.
Definition in_i (n z : Z) : Prop := - 2 ^ (n - 1) <= z < 2 ^ (n - 1).
Definition wrap_u (n z : Z) : Z := z mod 2 ^ n.
Definition wrap_i (n z : Z) : Z := (z + 2 ^ (n - 1)) mod 2 ^ n - 2 ^ (n - 1).

Definition i32_max : Z := 2147483647.
Definition i32_min : Z := -2147483648.
Definition u32_max : Z := 4294967295.

(** [usize] is 32 or 64 bits wide; the code is compiled for both. *)
Class PtrWidth := {
  ptr_bits : Z;
  ptr_bits_ok : ptr_bits = 32 \/ ptr_bits = 64
}.
Definition ptr64 : PtrWidth := {| ptr_bits := 64; ptr_bits_ok := or_intror eq_refl |}.
Definition ptr32 : PtrWidth := {| ptr_bits := 32; ptr_bits_ok := or_introl eq_refl |}.

Definition usize_max `{PtrWidth} : Z := 2 ^ ptr_bits - 1.

Definition checked_add `{PtrWidth} (a b : Z) : option Z :=
  if a + b <=? usize_max then Some (a + b) else None.
Definition checked_mul `{PtrWidth} (a b : Z) : option Z :=
  if a * b <=? usize_max then Some (a * b) else None.

Lemma usize_max_bounds `{PtrWidth} : u32_max <= usize_max.
Proof. unfold usize_max, u32_max. destruct ptr_bits_ok as [-> | ->]; lia. Qed.

Lemma checked_add_small `{PtrWidth} a b :
  a + b <= u32_max -> checked_add a b = Some (a + b).
Proof.
  intros Hs. unfold checked_add. pose proof usize_max_bounds.
  destruct (Z.leb_spec (a + b) usize_max); [done | lia].
Qed.

Lemma wrap_u_small n z : in_u n z -> wrap_u n z = z.
Proof. intros. by apply Z.mod_small. Qed.

Lemma wrap_u_range n z : 0 <= n -> in_u n (wrap_u n z).
Proof. intros. apply Z.mod_pos_bound. lia. Qed.

Lemma pow2_half n : 0 < n -> 2 ^ n = 2 * 2 ^ (n - 1).
Proof.
  intros. replace n with (Z.succ (n - 1)) at 1 by lia.
  rewrite Z.pow_succ_r; lia.
Qed.

Lemma wrap_i_small n z : 0 < n -> in_i n z -> wrap_i n z = z.
Proof.
  intros Hn Hz. unfold wrap_i, in_i in *. pose proof (pow2_half n Hn).
  rewrite Z.mod_small; lia.
Qed.

Lemma wrap_i_range n z : 0 < n -> in_i n (wrap_i n z).
Proof.
  intros Hn. unfold wrap_i, in_i. pose proof (pow2_half n Hn).
  pose proof (Z.mod_pos_bound (z + 2 ^ (n - 1)) (2 ^ n) ltac:(lia)). lia.
Qed.

Lemma wrap_i_wrap_u n z : 0 < n -> wrap_i n (wrap_u n z) = wrap_i n z.
Proof.
  intros Hn. unfold wrap_i, wrap_u. by rewrite Z.add_mod_idemp_l by lia.
Qed.

Lemma wrap_u_wrap_i n z : 0 < n -> wrap_u n (wrap_i n z) = wrap_u n z.
Proof.
  intros Hn. unfold wrap_i, wrap_u.
  rewrite Zminus_mod_idemp_l. f_equal. lia.
Qed.

#[export] Hint Resolve wrap_u_range wrap_i_range : rsb.

(** * Bytes *)

Definition byte_of_Z (z : Z) : byte :=
  match Byte.of_N (Z.to_N (z mod 256)) with
  | Some b => b
  | None => x00
  end.
Definition Z_of_byte (b : byte) : Z := Z.of_N (Byte.to_N b).

#[export] Instance byte_eq_dec : EqDecision byte := Byte.byte_eq_dec.
#[export] Instance byte_inhabited : Inhabited byte := populate x00.

Lemma Z_of_byte_range b : 0 <= Z_of_byte b < 256.
Proof. unfold Z_of_byte. pose proof (Byte.to_N_bounded b). lia. Qed.

Lemma Z_of_byte_of_Z z : Z_of_byte (byte_of_Z z) = z mod 256.
Proof.
  unfold Z_of_byte, byte_of_Z.
  pose proof (Z.mod_pos_bound z 256 ltac:(lia)).
  destruct (Byte.of_N (Z.to_N (z mod 256))) as [b |] eqn:E.
  - apply Byte.to_of_N in E. rewrite E. lia.
  - apply Byte.of_N_None_iff in E. lia.
Qed.

Lemma byte_of_Z_of_byte b : byte_of_Z (Z_of_byte b) = b.
Proof.
  unfold byte_of_Z, Z_of_byte. pose proof (Byte.to_N_bounded b).
  rewrite Z.mod_small by lia. by rewrite N2Z.id, Byte.of_to_N.
Qed.

Lemma Z_of_byte_inj a b : Z_of_byte a = Z_of_byte b -> a = b.
Proof.
  intros H. by rewrite <- (byte_of_Z_of_byte a), H, byte_of_Z_of_byte.
Qed.

Lemma byte_of_Z_inj_mod a b : byte_of_Z a = byte_of_Z b <-> a mod 256 = b mod 256.
Proof.
  split; intros H.
  - by rewrite <- !Z_of_byte_of_Z, H.
  - apply Z_of_byte_inj. by rewrite !Z_of_byte_of_Z.
Qed.

#[export] Instance byte_countable : Countable byte.
Proof.
  refine (inj_countable Byte.to_N Byte.of_N _). intros b. apply Byte.of_to_N.
Defined.

(** * Lists indexed by machine integers *)

Definition zlen {A} (l : list A) : Z := Z.of_nat (length l).
Definition ztake {A} (n : Z) (l : list A) : list A := take (Z.to_nat n) l.
Definition zdrop {A} (n : Z) (l : list A) : list A := drop (Z.to_nat n) l.
Definition zreplicate {A} (n : Z) (x : A) : list A := replicate (Z.to_nat n) x.
Definition zeros (n : Z) : list byte := zreplicate n x00.

(** [buf.get(a..b)]. *)
Definition get_range {A} (l : list A) (a b : Z) : option (list A) :=
  if (0 <=? a) && (a <=? b) && (b <=? zlen l)
  then Some (ztake (b - a) (zdrop a l)) else None.

(** [&buf[a..]]: panics when [a] is past the end. *)
Definition index_from {E A} (l : list A) (a : Z) : outcome E (list A) :=
  if (0 <=? a) && (a <=? zlen l) then Ok (zdrop a l) else Panic.

Section ZLists.
Context {A : Type}.
Implicit Types l : list A.

Lemma zlen_nonneg l : 0 <= zlen l.
Proof. unfold zlen. lia. Qed.
Lemma zlen_nil : zlen (@nil A) = 0.
Proof. done. Qed.
Lemma zlen_cons x l : zlen (x :: l) = 1 + zlen l.
Proof. unfold zlen. simpl length. lia. Qed.
Lemma zlen_app l k : zlen (l ++ k) = zlen l + zlen k.
Proof. unfold zlen. rewrite length_app. lia. Qed.
Lemma zlen_ztake n l : 0 <= n <= zlen l -> zlen (ztake n l) = n.
Proof. unfold zlen, ztake. rewrite length_take. lia. Qed.
Lemma zlen_zdrop n l : 0 <= n <= zlen l -> zlen (zdrop n l) = zlen l - n.
Proof. unfold zlen, zdrop. rewrite length_drop. lia. Qed.
Lemma zlen_zreplicate n (x : A) : 0 <= n -> zlen (zreplicate n x) = n.
Proof. unfold zlen, zreplicate. rewrite length_replicate. lia. Qed.

Lemma zlen_zero_nil l : zlen l = 0 -> l = [].
Proof. destruct l; [done |]. rewrite zlen_cons. pose proof (zlen_nonneg l). lia. Qed.

Lemma ztake_app_l n l k : n <= zlen l -> ztake n (l ++ k) = ztake n l.
Proof. intros. unfold ztake, zlen in *. apply take_app_le. lia. Qed.
Lemma ztake_app_r n l k :
  zlen l <= n -> ztake n (l ++ k) = l ++ ztake (n - zlen l) k.
Proof.
  intros. unfold ztake, zlen in *. rewrite take_app_ge by lia.
  do 2 f_equal. lia.
Qed.
Lemma zdrop_app_l n l k : n <= zlen l -> zdrop n (l ++ k) = zdrop n l ++ k.
Proof. intros. unfold zdrop, zlen in *. apply drop_app_le. lia. Qed.
Lemma zdrop_app_r n l k : zlen l <= n -> zdrop n (l ++ k) = zdrop (n - zlen l) k.
Proof.
  intros. unfold zdrop, zlen in *. rewrite drop_app_ge by lia. f_equal. lia.
Qed.
Lemma ztake_all n l : zlen l <= n -> ztake n l = l.
Proof. intros. unfold ztake, zlen in *. apply take_ge. lia. Qed.
Lemma zdrop_all n l : zlen l <= n -> zdrop n l = [].
Proof. intros. unfold zdrop, zlen in *. apply drop_ge. lia. Qed.
Lemma ztake_0 n l : n <= 0 -> ztake n l = [].
Proof. intros. unfold ztake. by replace (Z.to_nat n) with 0%nat by lia. Qed.
Lemma zdrop_0 n l : n <= 0 -> zdrop n l = l.
Proof. intros. unfold zdrop. by replace (Z.to_nat n) with 0%nat by lia. Qed.
Lemma ztake_zdrop n l : ztake n l ++ zdrop n l = l.
Proof. apply take_drop. Qed.
Lemma zdrop_zdrop a b l : 0 <= a -> 0 <= b -> zdrop a (zdrop b l) = zdrop (b + a) l.
Proof. intros. unfold zdrop. rewrite drop_drop. f_equal. lia. Qed.

Lemma get_range_Some l a b s :
  get_range l a b = Some s <->
  0 <= a <= b /\ b <= zlen l /\ s = ztake (b - a) (zdrop a l).
Proof.
  unfold get_range.
  destruct (Z.leb_spec 0 a), (Z.leb_spec a b), (Z.leb_spec b (zlen l)); simpl;
    (split; [intros [= <-] | intros (? & ? & ->)]); done || lia.
Qed.

Lemma get_range_None l a b :
  0 <= a <= b -> zlen l < b -> get_range l a b = None.
Proof.
  intros. unfold get_range.
  destruct (Z.leb_spec b (zlen l)); [lia |]. by rewrite andb_false_r.
Qed.

Lemma get_range_zlen l a b s : get_range l a b = Some s -> zlen s = b - a.
Proof.
  intros (? & ? & ->)%get_range_Some. rewrite zlen_ztake; [lia |].
  rewrite zlen_zdrop; lia.
Qed.

(** Reading past a prefix, and reading a prefix. *)
Lemma get_range_skip l k a b :
  zlen l <= a -> a <= b ->
  get_range (l ++ k) a b = get_range k (a - zlen l) (b - zlen l).
Proof.
  intros Ha Hab. unfold get_range. rewrite zlen_app.
  pose proof (zlen_nonneg l).
  rewrite (proj2 (Z.leb_le 0 a)), (proj2 (Z.leb_le a b)),
    (proj2 (Z.leb_le 0 (a - zlen l))), (proj2 (Z.leb_le (a - zlen l) (b - zlen l)))
    by lia.
  rewrite zdrop_app_r by lia.
  replace (b - zlen l - (a - zlen l)) with (b - a) by lia.
  by destruct (Z.leb_spec b (zlen l + zlen k)), (Z.leb_spec (b - zlen l) (zlen k));
    try lia.
Qed.

Lemma get_range_here l k b : zlen l = b -> get_range (l ++ k) 0 b = Some l.
Proof.
  intros <-. apply get_range_Some. rewrite zlen_app.
  pose proof (zlen_nonneg l). pose proof (zlen_nonneg k).
  split_and!; try lia.
  rewrite zdrop_0, ztake_app_l, ztake_all by lia. done.
Qed.
End ZLists.

Lemma zlen_zeros n : 0 <= n -> zlen (zeros n) = n.
Proof. apply zlen_zreplicate. Qed.

Lemma zeros_neg n : n <= 0 -> zeros n = [].
Proof. intros. unfold zeros, zreplicate. by replace (Z.to_nat n) with 0%nat by lia. Qed.

Lemma zlen_fmap {A B} (f : A -> B) l : zlen (f <$> l) = zlen l.
Proof. unfold zlen. by rewrite length_fmap. Qed.

(** * Counting *)

Fixpoint tally {A} (f : A -> bool) (l : list A) : Z :=
  match l with [] => 0 | x :: l => Z.b2z (f x) + tally f l end.

Section Tally.
Context {A : Type} (f : A -> bool).
Implicit Type l : list A.

Lemma tally_bounds l : 0 <= tally f l <= zlen l.
Proof.
  induction l as [| x l IH]; [done |]. rewrite zlen_cons. cbn [tally]. destruct (f x); cbn; lia.
Qed.

Lemma tally_app l k : tally f (l ++ k) = tally f l + tally f k.
Proof. induction l as [| x l IH]; [done |]. cbn. lia. Qed.

Lemma tally_insert l w x y :
  l !! w = Some x -> tally f (<[w := y]> l) = tally f l - Z.b2z (f x) + Z.b2z (f y).
Proof.
  revert w. induction l as [| z l IH]; intros [| w] E; simplify_eq/=; [lia |].
  rewrite (IH w E). lia.
Qed.

Lemma tally_pos l w x : l !! w = Some x -> f x = true -> 1 <= tally f l.
Proof.
  intros E Hf. rewrite <- (take_drop_middle l w x E), tally_app. cbn. rewrite Hf. cbn.
  pose proof (tally_bounds (take w l)). pose proof (tally_bounds (drop (S w) l)). lia.
Qed.

Lemma tally_none l : (forall x, x ∈ l -> f x = false) -> tally f l = 0.
Proof.
  induction l as [| x l IH]; intros Hl; [done |]. cbn. rewrite (Hl x) by left.
  rewrite IH; [done | intros y Hy; apply Hl; by right].
Qed.

Lemma tally_zero l x : tally f l = 0 -> x ∈ l -> f x = false.
Proof.
  intros Ht [w E]%list_elem_of_lookup. destruct (f x) eqn:Hf; [| done].
  pose proof (tally_pos l w x E Hf). lia.
Qed.

Lemma tally_some l : 1 <= tally f l -> exists x, x ∈ l /\ f x = true.
Proof.
  induction l as [| x l IH]; cbn; [lia |]. destruct (f x) eqn:Hf.
  - exists x. split; [left | done].
  - intros Ht. destruct IH as (y & Hy & Hfy); [cbn in Ht; lia |]. exists y. split; [by right | done].
Qed.
End Tally.

(** * Little-endian words *)

(** [to_le_bytes] of a [k]-byte word and [from_le_bytes]. *)
Fixpoint to_le (k : nat) (z : Z) : list byte :=
  match k with
  | O => []
  | S k => byte_of_Z z :: to_le k (z / 256)
  end.

Fixpoint of_le (bs : list byte) : Z :=
  match bs with
  | [] => 0
  | b :: bs => Z_of_byte b + 256 * of_le bs
  end.

(** [i32::from_le_bytes] and the like: the signed reading of a word. *)
Definition of_le_i (n : Z) (bs : list byte) : Z := wrap_i n (of_le bs).

Lemma length_to_le k z : length (to_le k z) = k.
Proof. revert z. induction k; intros; simpl; [done | by rewrite IHk]. Qed.

Lemma zlen_to_le k z : zlen (to_le k z) = Z.of_nat k.
Proof. unfold zlen. by rewrite length_to_le. Qed.

Lemma of_le_to_le k z : of_le (to_le k z) = z mod 2 ^ (8 * Z.of_nat k).
Proof.
  revert z. induction k as [| k IH]; intros z; [by rewrite Z.mod_1_r |].
  cbn [to_le of_le]. rewrite IH, Z_of_byte_of_Z.
  replace (8 * Z.of_nat (S k)) with (8 + 8 * Z.of_nat k) by lia.
  rewrite Z.pow_add_r by lia. change (2 ^ 8) with 256.
  symmetry. apply Z.rem_mul_r; lia.
Qed.

Lemma of_le_bound bs : 0 <= of_le bs < 2 ^ (8 * zlen bs).
Proof.
  induction bs as [| b bs IH]; [done |].
  cbn [of_le]. rewrite zlen_cons.
  replace (8 * (1 + zlen bs)) with (8 + 8 * zlen bs) by lia.
  rewrite Z.pow_add_r by (pose proof (zlen_nonneg bs); lia).
  change (2 ^ 8) with 256. pose proof (Z_of_byte_range b). lia.
Qed.

Lemma to_le_of_le bs : to_le (length bs) (of_le bs) = bs.
Proof.
  induction bs as [| b bs IH]; [done |].
  cbn [length to_le of_le]. pose proof (Z_of_byte_range b).
  replace ((Z_of_byte b + 256 * of_le bs) / 256) with (of_le bs).
  - rewrite IH. f_equal. rewrite <- (byte_of_Z_of_byte b) at 2.
    apply byte_of_Z_inj_mod. rewrite (Z.mul_comm 256), Z_mod_plus_full. done.
  - rewrite (Z.mul_comm 256), Z.div_add by lia.
    rewrite (Z.div_small (Z_of_byte b)); lia.
Qed.

Lemma of_le_to_le_u k z : in_u (8 * Z.of_nat k) z -> of_le (to_le k z) = z.
Proof. intros. rewrite of_le_to_le. by apply Z.mod_small. Qed.

Lemma of_le_to_le_i k n z :
  n = 8 * Z.of_nat k -> 0 < n -> in_i n z -> of_le_i n (to_le k z) = z.
Proof.
  intros -> Hn Hz. unfold of_le_i. rewrite of_le_to_le.
  fold (wrap_u (8 * Z.of_nat k) z). rewrite wrap_i_wrap_u by done.
  by apply wrap_i_small.
Qed.

Lemma to_le_inj_u k a b :
  in_u (8 * Z.of_nat k) a -> in_u (8 * Z.of_nat k) b ->
  to_le k a = to_le k b -> a = b.
Proof. intros Ha Hb H. by rewrite <- (of_le_to_le_u k a Ha), H, of_le_to_le_u. Qed.

Lemma to_le_mod k z : to_le k (z mod 2 ^ (8 * Z.of_nat k)) = to_le k z.
Proof.
  rewrite <- of_le_to_le. rewrite <- (length_to_le k z) at 1.
  apply to_le_of_le.
Qed.

Lemma to_le_S k z : to_le (S k) z = byte_of_Z z :: to_le k (z / 256).
Proof. done. Qed.

Lemma to_le_O z : to_le 0 z = [].
Proof. done. Qed.

Lemma to_le_app m n z : to_le (m + n) z = to_le m z ++ to_le n (z / 256 ^ Z.of_nat m).
Proof.
  revert z. induction m as [| m IH]; intros z.
  - by rewrite Z.div_1_r.
  - cbn [Nat.add to_le app]. rewrite IH. do 3 f_equal.
    rewrite Nat2Z.inj_succ, Z.pow_succ_r, Z.div_div by lia. done.
Qed.

Lemma to_le_0 n : to_le n 0 = zeros (Z.of_nat n).
Proof.
  unfold zeros, zreplicate. rewrite Nat2Z.id.
  induction n as [| n IH]; [done |]. cbn [to_le replicate].
  change (0 / 256) with 0. by rewrite IH.
Qed.

Lemma of_le_zeros n : of_le (zeros n) = 0.
Proof.
  unfold zeros, zreplicate. induction (Z.to_nat n) as [| m IH]; [done |].
  simpl. rewrite IH. done.
Qed.

Arguments to_le : simpl never.
Arguments of_le : simpl never.
Arguments zeros : simpl never.
Arguments zlen : simpl never.
Arguments ztake : simpl never.
Arguments zdrop : simpl never.
Arguments get_range : simpl never.
Arguments wrap_u : simpl never.
Arguments wrap_i : simpl never.

(** The byte layouts are used through their lemmas; evaluation ([vm_compute])
    still sees through them. *)
Global Opaque to_le zeros.

(** * Automation *)

(** Lengths of concrete concatenations, normalised to sums. *)
Create Rewrite HintDb zlen.
#[export] Hint Rewrite @zlen_nil @zlen_cons @zlen_app @zlen_fmap zlen_to_le : zlen.
#[export] Hint Rewrite zlen_zeros using lia : zlen.

Ltac zlens := autorewrite with zlen in *.

Ltac zlen_lia :=
  zlens;
  repeat match goal with
         | |- context [zlen ?l] =>
             lazymatch goal with
             | _ : 0 <= zlen l |- _ => fail
             | _ => pose proof (zlen_nonneg l)
             end
         | _ : context [zlen ?l] |- _ =>
             lazymatch goal with
             | _ : 0 <= zlen l |- _ => fail
             | _ => pose proof (zlen_nonneg l)
             end
         end;
  lia.

(** Split a boolean test of the model into its two readings. *)
Ltac case_leb :=
  match goal with
  | |- context [Z.leb ?a ?b] => destruct (Z.leb_spec a b)
  | |- context [Z.ltb ?a ?b] => destruct (Z.ltb_spec a b)
  | |- context [Z.eqb ?a ?b] => destruct (Z.eqb_spec a b)
  | H : context [Z.leb ?a ?b] |- _ => destruct (Z.leb_spec a b)
  | H : context [Z.ltb ?a ?b] |- _ => destruct (Z.ltb_spec a b)
  | H : context [Z.eqb ?a ?b] |- _ => destruct (Z.eqb_spec a b)
  end.

(** Invert an [Ok] result of a chain of [let?]. *)
Ltac inv_ok :=
  repeat (case_match || simplify_eq/=).
