(* ===== verification/Errors.v ===== *)
(** Error values of the crate: [StatusCode] and its projections to and from
    the wire [i32] (src/rsbinder/src/error.rs), and the RPC layer's [RpcError]
    with its conversions (src/rsbinder/src/rpc/mod.rs).

    The numeric errno constants come from the [rustix] crate: they are the
    fields of [ErrnoTable], and [ErrnoLaws] states what every platform's
    errno.h gives (positive, small, pairwise distinct). *)

From Stdlib Require Import ZArith Lia.
From stdpp Require Import base list strings.
From S2P Require Import Prelude.

(** * The platform's errno constants *)

Class ErrnoTable := {
  NOMEM : Z;
  NOSYS : Z;
  INVAL : Z;
  NOENT : Z;
  PERM : Z;
  NODEV : Z;
  EXIST : Z;
  PIPE : Z;
  BADMSG : Z;
  OVERFLOW : Z;
  NODATA : Z;
  WOULDBLOCK : Z;
  TIMEDOUT : Z;
  BADF : Z
}.

Definition errno_list `{ErrnoTable} : list Z :=
  [NOMEM; NOSYS; INVAL; NOENT; PERM; NODEV; EXIST; PIPE; BADMSG; OVERFLOW;
   NODATA; WOULDBLOCK; TIMEDOUT; BADF].

Class ErrnoLaws `{ErrnoTable} : Prop := {
  errno_range : Forall (fun e => 0 < e < 4096) errno_list;
  errno_distinct : NoDup errno_list
}.

(** asm-generic/errno.h, as Linux and Android have it. *)
Definition linux_errno : ErrnoTable := {|
  NOMEM := 12; NOSYS := 38; INVAL := 22; NOENT := 2; PERM := 1; NODEV := 19;
  EXIST := 17; PIPE := 32; BADMSG := 74; OVERFLOW := 75; NODATA := 61;
  WOULDBLOCK := 11; TIMEDOUT := 110; BADF := 9
|}.

(** * StatusCode *)

Inductive StatusCode : Type :=
| StOk
| StUnknown
| StNoMemory
| StInvalidOperation
| StBadValue
| StBadType
| StNameNotFound
| StPermissionDenied
| StNoInit
| StAlreadyExists
| StDeadObject
| StFailedTransaction
| StUnknownTransaction
| StBadIndex
| StFdsNotAllowed
| StUnexpectedNull
| StNotEnoughData
| StWouldBlock
| StTimedOut
| StBadFd
| StRpcError
| StErrno (errno : Z)
| StServiceSpecific (v : Z).

#[export] Instance StatusCode_eq_dec : EqDecision StatusCode.
Proof. solve_decision. Defined.

Definition UNKNOWN_ERROR : Z := -2147483647 - 1.

Definition status_to_i32 `{ErrnoTable} (code : StatusCode) : Z :=
  match code with
  | StOk => 0
  | StUnknown => UNKNOWN_ERROR
  | StNoMemory => - NOMEM
  | StInvalidOperation => - NOSYS
  | StBadValue => - INVAL
  | StBadType => UNKNOWN_ERROR + 1
  | StNameNotFound => - NOENT
  | StPermissionDenied => - PERM
  | StNoInit => - NODEV
  | StAlreadyExists => - EXIST
  | StDeadObject => - PIPE
  | StFailedTransaction => UNKNOWN_ERROR + 2
  | StUnknownTransaction => - BADMSG
  | StBadIndex => - OVERFLOW
  | StFdsNotAllowed => UNKNOWN_ERROR + 7
  | StUnexpectedNull => UNKNOWN_ERROR + 8
  | StRpcError => UNKNOWN_ERROR + 10
  | StNotEnoughData => - NODATA
  | StWouldBlock => - WOULDBLOCK
  | StTimedOut => - TIMEDOUT
  | StBadFd => - BADF
  | StServiceSpecific v => v
  | StErrno errno => errno
  end.

Definition status_of_i32 `{ErrnoTable} (code : Z) : StatusCode :=
  if code =? 0 then StOk
  else if code =? UNKNOWN_ERROR then StUnknown
  else if code =? - NOMEM then StNoMemory
  else if code =? - NOSYS then StInvalidOperation
  else if code =? - INVAL then StBadValue
  else if code =? UNKNOWN_ERROR + 1 then StBadType
  else if code =? - NOENT then StNameNotFound
  else if code =? - PERM then StPermissionDenied
  else if code =? - NODEV then StNoInit
  else if code =? - EXIST then StAlreadyExists
  else if code =? - PIPE then StDeadObject
  else if code =? UNKNOWN_ERROR + 2 then StFailedTransaction
  else if code =? - BADMSG then StUnknownTransaction
  else if code =? - OVERFLOW then StBadIndex
  else if code =? UNKNOWN_ERROR + 7 then StFdsNotAllowed
  else if code =? UNKNOWN_ERROR + 8 then StUnexpectedNull
  else if code =? UNKNOWN_ERROR + 10 then StRpcError
  else if code =? - NODATA then StNotEnoughData
  else if code =? - WOULDBLOCK then StWouldBlock
  else if code =? - TIMEDOUT then StTimedOut
  else if code =? - BADF then StBadFd
  else if code <? 0 then StErrno code
  else StServiceSpecific code.

(** [From<rustix::io::Errno> for StatusCode]; the argument is the raw (positive)
    errno. *)
Definition status_of_errno `{ErrnoTable} (errno : Z) : StatusCode :=
  if errno =? NOMEM then StNoMemory
  else if errno =? NOSYS then StInvalidOperation
  else if errno =? INVAL then StBadValue
  else if errno =? NOENT then StNameNotFound
  else if errno =? PERM then StPermissionDenied
  else if errno =? NODEV then StNoInit
  else if errno =? EXIST then StAlreadyExists
  else if errno =? PIPE then StDeadObject
  else if errno =? BADMSG then StUnknownTransaction
  else if errno =? OVERFLOW then StBadIndex
  else if errno =? NODATA then StNotEnoughData
  else if errno =? WOULDBLOCK then StWouldBlock
  else if errno =? TIMEDOUT then StTimedOut
  else if errno =? BADF then StBadFd
  else StErrno (- errno).

(** * io::Error and RpcError *)

(** The [std::io::ErrorKind]s the crate tells apart. *)
Inductive ErrorKind : Type :=
| UnexpectedEof
| BrokenPipe
| ConnectionReset
| ConnectionAborted
| Interrupted
| WouldBlockKind
| TimedOutKind
| PermissionDeniedKind
| OtherKind.

#[export] Instance ErrorKind_eq_dec : EqDecision ErrorKind.
Proof. solve_decision. Defined.

(** [std::io::Error]: its kind and, for an OS error, the raw errno. *)
Record io_error : Type := IoError {
  kind : ErrorKind;
  raw_os_error : option Z
}.

Definition io_error_of_kind (k : ErrorKind) : io_error := IoError k None.
(** [std::io::Error::other]. *)
Definition io_error_other : io_error := IoError OtherKind None.

Definition status_of_io `{ErrnoTable} (err : io_error) : StatusCode :=
  match raw_os_error err with
  | Some raw => status_of_errno raw
  | None => StUnknown
  end.

Inductive RpcError : Type :=
| PeerClosed
| Truncated
| FrameTooLarge (declared max : Z)
| Io (e : io_error)
| Protocol (why : string)
| Timeout.

#[export] Instance io_error_eq_dec : EqDecision io_error.
Proof. solve_decision. Defined.
#[export] Instance RpcError_eq_dec : EqDecision RpcError.
Proof. solve_decision. Defined.

Abbreviation RpcResult := (outcome RpcError).

Definition rpc_of_io (e : io_error) : RpcError :=
  match kind e with
  | UnexpectedEof | BrokenPipe | ConnectionReset | ConnectionAborted => PeerClosed
  | _ => Io e
  end.

Definition io_of_rpc (e : RpcError) : io_error :=
  match e with
  | Io io => io
  | _ => io_error_other
  end.

Definition status_of_rpc `{ErrnoTable} (e : RpcError) : StatusCode :=
  match e with
  | PeerClosed => StDeadObject
  | Truncated => StNotEnoughData
  | FrameTooLarge _ _ => StBadValue
  | Io io => status_of_io io
  | Protocol _ => StRpcError
  | Timeout => StTimedOut
  end.

(** * Properties *)

(** The codes that have their own wire value: everything but the two
    payload-carrying variants, which the decoder picks by sign. *)
Definition canonical `{ErrnoTable} (code : StatusCode) : Prop :=
  match code with
  | StErrno e =>
      e < 0 /\ (e ∉ (Z.opp <$> errno_list)) /\
      (e ∉ [UNKNOWN_ERROR; UNKNOWN_ERROR + 1; UNKNOWN_ERROR + 2; UNKNOWN_ERROR + 7;
           UNKNOWN_ERROR + 8; UNKNOWN_ERROR + 10])
  | StServiceSpecific v => 0 < v
  | _ => True
  end.

Ltac eqb_chain :=
  repeat match goal with
         | |- context [if Z.eqb ?a ?b then _ else _] =>
             destruct (Z.eqb_spec a b); subst
         | |- context [if Z.ltb ?a ?b then _ else _] =>
             destruct (Z.ltb_spec a b)
         end.

(** The laws of the table as flat hypotheses. *)
Ltac errno_facts :=
  let R := fresh "R" in let D := fresh "D" in
  pose proof errno_range as R; pose proof errno_distinct as D;
  unfold errno_list in R, D;
  repeat match goal with
         | H : Forall _ (_ :: _) |- _ => apply Forall_cons in H as [? H]
         | H : NoDup (_ :: _) |- _ => apply NoDup_cons in H as [? H]
         | H : _ ∉ (_ :: _) |- _ => apply not_elem_of_cons in H as [? H]
         end.

Lemma opp_eqb (a b : Z) : (- a =? - b) = (a =? b).
Proof. destruct (Z.eqb_spec a b), (Z.eqb_spec (- a) (- b)); lia. Qed.

(** Decide a test of the chain: equal terms, two distinct constants of the
    table, or two terms apart by their range. *)
Ltac eqb_decide :=
  rewrite ?opp_eqb;
  repeat match goal with
         | |- context [Z.eqb ?a ?a] => rewrite (Z.eqb_refl a)
         | |- context [Z.eqb ?a ?b] =>
             rewrite (proj2 (Z.eqb_neq a b))
               by first [ assumption
                        | apply not_eq_sym; assumption
                        | repeat match goal with H : _ <> _ |- _ => clear H end;
                          unfold UNKNOWN_ERROR; lia ]
         end.

Lemma status_of_i32_other `{ErrnoLaws} (n : Z) :
  canonical (StErrno n) -> status_of_i32 n = StErrno n.
Proof.
  intros (Hn & He & Hu). unfold errno_list in He. cbn [fmap list_fmap] in He.
  repeat match goal with
         | H : _ ∉ (_ :: _) |- _ => apply not_elem_of_cons in H as [? H]
         end.
  unfold status_of_i32.
  rewrite (proj2 (Z.eqb_neq n 0)), (proj2 (Z.ltb_lt n 0)) by lia.
  repeat (rewrite (proj2 (Z.eqb_neq n _)) by eassumption). reflexivity.
Qed.

(** The wire value of a decoded status is the value that was decoded, for
    every [i32] and on every platform's errno table: no status read from a
    parcel or a reply changes when it is forwarded. *)
Theorem status_i32_roundtrip `{ErrnoTable} (n : Z) :
  status_to_i32 (status_of_i32 n) = n.
Proof. unfold status_of_i32. eqb_chain; reflexivity. Qed.

Lemma status_decode `{ErrnoLaws} (code : StatusCode) :
  canonical code -> status_of_i32 (status_to_i32 code) = code.
Proof.
  intros Hc. destruct code as [| | | | | | | | | | | | | | | | | | | | | e | v];
    try (by apply status_of_i32_other); errno_facts;
    cbn [canonical status_to_i32] in *; unfold status_of_i32; eqb_decide;
    try reflexivity.
  by rewrite (proj2 (Z.ltb_ge v 0)) by lia.
Qed.

(** Decoding inverts encoding on every canonical status, so two statuses
    never share a wire value; the payload variants are canonical exactly when
    their payload is outside the fixed table and has their sign. *)
Theorem status_code_roundtrip `{ErrnoLaws} (code : StatusCode) :
  canonical code -> status_of_i32 (status_to_i32 code) = code.
Proof. apply status_decode. Qed.

(** An OS error maps to the same status whether it arrives as a positive
    errno (a failed syscall) or as a negative wire status. *)
Theorem status_of_errno_agrees `{ErrnoLaws} (e : Z) :
  0 < e < 4096 -> status_of_errno e = status_of_i32 (- e).
Proof.
  intros He. pose proof errno_range as R. unfold errno_list in R.
  repeat match goal with
         | H : Forall _ (_ :: _) |- _ => apply Forall_cons in H as [? H]
         end.
  unfold status_of_errno, status_of_i32. rewrite !opp_eqb.
  rewrite (proj2 (Z.ltb_lt (- e) 0)), (proj2 (Z.eqb_neq (- e) 0)) by lia.
  repeat match goal with
         | |- context [Z.eqb (- e) ?b] =>
             rewrite (proj2 (Z.eqb_neq (- e) b)) by (unfold UNKNOWN_ERROR; lia)
         end.
  reflexivity.
Qed.

(** * Witnesses *)

#[export] Instance linux_errno_laws : @ErrnoLaws linux_errno.
Proof. split; apply (bool_decide_unpack _); vm_compute; exact I. Qed.

Lemma status_code_roundtrip_witness :
  @canonical linux_errno (StErrno (-5)) /\
  @status_of_i32 linux_errno (-5) = StErrno (-5).
Proof.
  assert (H : @canonical linux_errno (StErrno (-5))).
  { split_and!; [done | |]; apply (bool_decide_unpack _); vm_compute; exact I. }
  split; [exact H | exact (@status_code_roundtrip linux_errno _ _ H)].
Defined.

Lemma status_of_errno_agrees_witness :
  @status_of_errno linux_errno 32 = StDeadObject /\
  @status_of_errno linux_errno 32 = @status_of_i32 linux_errno (-32).
Proof.
  split; [reflexivity |]. apply (@status_of_errno_agrees linux_errno _ 32). lia.
Defined.
