(* ===== verification/Address.v ===== *)
(** RPC object addresses (src/rsbinder/src/rpc/address.rs): the 32-byte
    [RpcAddress], its per-session allocation namespaced by connection role,
    and the special transactions of the reserved zero address. *)

From Stdlib Require Import ZArith Lia Strings.Byte.
From stdpp Require Import base list countable.
From S2P Require Import Prelude.

Definition RPC_ADDR_LEN : Z := 32.
Definition RPC_SESSION_ID_NEW : Z := -1.

(** [[u8; 32]] is a list whose length [addr_ok] fixes; every constructor of the
    source yields one. *)
Record RpcAddress : Type := mkAddr { addr_bytes : list byte }.

#[export] Instance RpcAddress_eq_dec : EqDecision RpcAddress.
Proof. solve_decision. Defined.
#[export] Instance RpcAddress_countable : Countable RpcAddress.
Proof. by apply (inj_countable' addr_bytes mkAddr); intros []. Defined.

Inductive AddressSpace : Type :=
| Initiator
| Acceptor.

#[export] Instance AddressSpace_eq_dec : EqDecision AddressSpace.
Proof. solve_decision. Defined.

Definition tag (s : AddressSpace) : byte :=
  match s with
  | Initiator => x01
  | Acceptor => x02
  end.

Definition addr_zero : RpcAddress := mkAddr (zeros RPC_ADDR_LEN).

Definition is_zero (a : RpcAddress) : bool :=
  bool_decide (addr_bytes a = zeros RPC_ADDR_LEN).

(** [RpcAddress::unique]: bump the session counter (wrapping [u64]) and lay out
    [counter:le_u64 | tag | zeros]. Returns the address and the new counter. *)
Definition unique (counter : Z) (space : AddressSpace) : RpcAddress * Z :=
  let counter := wrap_u 64 (counter + 1) in
  (mkAddr (to_le 8 counter ++ [tag space] ++ zeros 23), counter).

Definition as_wire_bytes (a : RpcAddress) : list byte := addr_bytes a.
Definition from_wire_bytes (bs : list byte) : RpcAddress := mkAddr bs.

Inductive SpecialTransaction : Type :=
| GetRoot
| GetMaxThreads
| GetSessionId
| GetFdMode.

#[export] Instance SpecialTransaction_eq_dec : EqDecision SpecialTransaction.
Proof. solve_decision. Defined.

Definition special_code (s : SpecialTransaction) : Z :=
  match s with
  | GetRoot => 0
  | GetMaxThreads => 1
  | GetSessionId => 2
  | GetFdMode => 3
  end.

Definition special_from_code (code : Z) : option SpecialTransaction :=
  if code =? 0 then Some GetRoot
  else if code =? 1 then Some GetMaxThreads
  else if code =? 2 then Some GetSessionId
  else if code =? 3 then Some GetFdMode
  else None.

(** The layout of a minted address. *)
Definition minted (c : Z) (s : AddressSpace) : RpcAddress :=
  mkAddr (to_le 8 c ++ [tag s] ++ zeros 23).

Definition addr_ok (a : RpcAddress) : Prop := zlen (addr_bytes a) = RPC_ADDR_LEN.

(** * Lemmas *)

Lemma addr_zero_ok : addr_ok addr_zero.
Proof. done. Qed.

Lemma minted_ok c s : addr_ok (minted c s).
Proof. unfold addr_ok, minted. simpl. zlens. reflexivity. Qed.

#[export] Hint Resolve addr_zero_ok minted_ok : rsb.

Lemma is_zero_true a : is_zero a = true <-> a = addr_zero.
Proof.
  unfold is_zero, addr_zero. rewrite bool_decide_eq_true.
  destruct a as [bs]. simpl. split; congruence.
Qed.

Lemma minted_byte8 c s : addr_bytes (minted c s) !! 8%nat = Some (tag s).
Proof.
  unfold minted. cbn [addr_bytes]. rewrite lookup_app_r by (rewrite length_to_le; lia).
  by rewrite length_to_le.
Qed.

Lemma minted_nonzero c s : is_zero (minted c s) = false.
Proof.
  apply not_true_iff_false. intros H%is_zero_true.
  pose proof (minted_byte8 c s) as H8. rewrite H in H8. by destruct s.
Qed.

Lemma minted_inj c1 c2 s1 s2 :
  in_u 64 c1 -> in_u 64 c2 -> minted c1 s1 = minted c2 s2 -> c1 = c2 /\ s1 = s2.
Proof.
  intros H1 H2 Heq. split.
  - apply (f_equal addr_bytes) in Heq. unfold minted in Heq. cbn [addr_bytes] in Heq.
    apply app_inj_1 in Heq as [Heq _]; [| by rewrite !length_to_le].
    by apply (to_le_inj_u 8).
  - pose proof (minted_byte8 c1 s1) as E. rewrite Heq, minted_byte8 in E.
    by destruct s1, s2.
Qed.

Lemma unique_minted counter space :
  in_u 64 (counter + 1) ->
  unique counter space = (minted (counter + 1) space, counter + 1).
Proof. intros. unfold unique. by rewrite wrap_u_small. Qed.

(** An address minted by either endpoint is 32 bytes, is never the reserved
    zero address (even when the counter wraps), and two mints give the same
    address only for the same counter value and the same role: the initiator's
    and the acceptor's addresses never collide on one connection. *)
Theorem unique_fresh (c1 c2 : Z) (s1 s2 : AddressSpace) :
  addr_ok (fst (unique c1 s1)) /\
  is_zero (fst (unique c1 s1)) = false /\
  (fst (unique c1 s1) = fst (unique c2 s2) ->
   wrap_u 64 (c1 + 1) = wrap_u 64 (c2 + 1) /\ s1 = s2).
Proof.
  unfold unique. simpl. fold (minted (wrap_u 64 (c1 + 1)) s1).
  fold (minted (wrap_u 64 (c2 + 1)) s2).
  split_and!; [apply minted_ok | apply minted_nonzero |].
  apply minted_inj; by apply wrap_u_range.
Qed.

(** The special-transaction codes decode to exactly the transaction they
    encode, and no other code decodes. *)
Theorem special_code_roundtrip (code : Z) (s : SpecialTransaction) :
  special_from_code code = Some s <-> code = special_code s.
Proof.
  split.
  - unfold special_from_code. intros H. by repeat (case_leb; [by simplify_eq |]).
  - intros ->. by destruct s.
Qed.
