(* ===== verification/Transport.v ===== *)
(** Length-prefixed framing over a blocking byte stream
    (src/rsbinder/src/rpc/transport/mod.rs): [write_frame], [read_header],
    [read_body] and [read_frame], with peer identities.

    The stream a reader sees is the list of the results its [read] calls will
    get: a chunk of bytes (possibly more than one call asks for), or an
    [io::Error]; an exhausted list is end of file. *)

From Stdlib Require Import ZArith Lia Strings.Byte.
From stdpp Require Import base list strings.
From S2P Require Import Prelude Errors.

Definition MAX_FRAME_LEN : Z := 64 * 1024 * 1024.

(** * Streams *)

Inductive read_event : Type :=
| RData (chunk : list byte)
| RErr (e : io_error).

Definition stream : Type := list read_event.

(** One [Read::read] into a buffer of [cap > 0] bytes. A chunk larger than the
    buffer is delivered in part and stays pending. *)
Definition read (cap : Z) (s : stream) : (list byte + io_error) * stream :=
  match s with
  | [] => (inl [], [])
  | RErr e :: s => (inr e, s)
  | RData c :: s =>
      if zlen c <=? cap then (inl c, s)
      else (inl (ztake cap c), RData (zdrop cap c) :: s)
  end.

(** The loop [while filled < buf.len() { match r.read(&mut buf[filled..]) .. }]
    that [read_header], [read_body] and [read_exact_raw] share. [on_eof] is the
    error for [Ok(0)] and [on_err] what an [Err(e)] does ([None] = continue),
    both told whether any byte was read. A pass over the stream per iteration:
    an event is used up unless it fills the buffer, which ends the loop. *)
Fixpoint fill_loop (on_eof : bool -> RpcError)
    (on_err : bool -> io_error -> option RpcError)
    (s : stream) (need : Z) (filled : list byte) : RpcResult (list byte) * stream :=
  if need <=? zlen filled then (Ok filled, s)
  else
    let none_yet := zlen filled =? 0 in
    let (r, s') := read (need - zlen filled) s in
    match r, s with
    | inl [], _ => (Err (on_eof none_yet), s')
    | inl c, _ :: tl =>
        if need <=? zlen filled + zlen c then (Ok (filled ++ c), s')
        else fill_loop on_eof on_err tl need (filled ++ c)
    | inr e, _ :: tl =>
        match on_err none_yet e with
        | Some err => (Err err, s')
        | None => fill_loop on_eof on_err tl need filled
        end
    | _, [] => (Err (on_eof none_yet), s')
    end.

(** * Framing *)

(** [WouldBlock]/[TimedOut] is how a socket read deadline surfaces. *)
Definition is_timeout (e : io_error) : bool :=
  match kind e with
  | WouldBlockKind | TimedOutKind => true
  | _ => false
  end.

Definition read_header (n : Z) (s : stream) : RpcResult (list byte) * stream :=
  fill_loop
    (fun none_yet => if none_yet then PeerClosed else Truncated)
    (fun none_yet e =>
       if decide (kind e = Interrupted) then None
       else if is_timeout e then Some (if none_yet then Timeout else Truncated)
       else Some (rpc_of_io e))
    s n [].

Definition read_body (n : Z) (s : stream) : RpcResult (list byte) * stream :=
  fill_loop
    (fun _ => Truncated)
    (fun _ e =>
       if decide (kind e = Interrupted) then None
       else if is_timeout e then Some Truncated
       else Some (rpc_of_io e))
    s n [].

Definition read_frame (s : stream) : RpcResult (list byte) * stream :=
  match read_header 4 s with
  | (Ok len_buf, s) =>
      let len := of_le len_buf in
      if MAX_FRAME_LEN <? len then (Err (FrameTooLarge len MAX_FRAME_LEN), s)
      else read_body len s
  | (Err e, s) => (Err e, s)
  | (Panic, s) => (Panic, s)
  end.

(** [write_frame]: [w] is what [write_all] + [flush] of the framed bytes give.
    The result is the bytes that went to the stream. *)
Definition write_frame (w : list byte -> option io_error) (buf : list byte)
  : RpcResult (list byte) :=
  if MAX_FRAME_LEN <? zlen buf then Err (FrameTooLarge (zlen buf) MAX_FRAME_LEN)
  else
    let framed := to_le 4 (wrap_u 32 (zlen buf)) ++ buf in
    match w framed with
    | Some e => Err (rpc_of_io e)
    | None => Ok framed
    end.

(** [recv_frame] called until it fails: the frames of a stream, with fuel for
    the number of frames. *)
Fixpoint read_frames (n : nat) (s : stream) : list (list byte) * stream :=
  match n with
  | O => ([], s)
  | S n =>
      match read_frame s with
      | (Ok b, s) => let (bs, s) := read_frames n s in (b :: bs, s)
      | (_, s) => ([], s)
      end
  end.

(** * Peer identities *)

Record CertId : Type := mkCertId { subject : string; fingerprint : list byte }.

Inductive PeerIdentity : Type :=
| Local (uid pid : Z)
| Vsock (cid : Z)
| Certificate (c : CertId)
| Anonymous.

Definition peer_is_local (p : PeerIdentity) : bool :=
  match p with Local _ _ => true | _ => false end.

Definition peer_uid (p : PeerIdentity) : option Z :=
  match p with Local uid _ => Some uid | _ => None end.

Definition peer_pid (p : PeerIdentity) : option Z :=
  match p with
  | Local _ pid => if 0 <=? pid then Some pid else None
  | _ => None
  end.

(** * What a stream delivers *)

(** [delivers_with skip s bs rest]: the reads of [s] give the bytes [bs] in some
    chunks, interleaved with calls that fail with an error of [skip], and then
    [rest]. *)
Inductive delivers_with (skip : io_error -> Prop)
  : stream -> list byte -> stream -> Prop :=
| del_done rest : delivers_with skip rest [] rest
| del_intr e s bs rest :
    skip e -> delivers_with skip s bs rest -> delivers_with skip (RErr e :: s) bs rest
| del_data c s bs rest :
    c <> [] -> delivers_with skip s bs rest ->
    delivers_with skip (RData c :: s) (c ++ bs) rest.
Arguments del_done {skip} rest.
Arguments del_intr {skip} e s bs rest.
Arguments del_data {skip} c s bs rest.

(** A stream with interrupted calls, and one without errors. *)
Definition interrupted (e : io_error) : Prop := kind e = Interrupted.
Definition no_error (e : io_error) : Prop := False.
Abbreviation delivers := (delivers_with interrupted).
Abbreviation delivers_clean := (delivers_with no_error).

(** [on_err] goes on after an error of [skip]. *)
Definition retries (skip : io_error -> Prop)
    (on_err : bool -> io_error -> option RpcError) : Prop :=
  forall b e, skip e -> on_err b e = None.

(** * Lemmas *)

Lemma fill_loop_full on_eof on_err s need filled :
  need <= zlen filled -> fill_loop on_eof on_err s need filled = (Ok filled, s).
Proof. intros H. destruct s; simpl; by rewrite (proj2 (Z.leb_le _ _)). Qed.

Lemma app_split_le {A} (c bs a b : list A) :
  c ++ bs = a ++ b -> zlen c <= zlen a -> exists a', a = c ++ a' /\ bs = a' ++ b.
Proof.
  intros Heq Hle. exists (drop (length c) a). unfold zlen in Hle.
  assert (Ha : c = take (length c) a).
  { apply (f_equal (take (length c))) in Heq.
    by rewrite take_app_length, take_app_le in Heq by lia. }
  split; [rewrite Ha at 1; by rewrite take_drop |].
  apply (f_equal (drop (length c))) in Heq.
  by rewrite drop_app_length, drop_app_le in Heq by lia.
Qed.

Lemma read_data_le cap c s : zlen c <= cap -> read cap (RData c :: s) = (inl c, s).
Proof. intros H. unfold read. by rewrite (proj2 (Z.leb_le _ _)). Qed.

Lemma read_data_gt cap c s :
  cap < zlen c -> read cap (RData c :: s) = (inl (ztake cap c), RData (zdrop cap c) :: s).
Proof. intros H. unfold read. by rewrite (proj2 (Z.leb_gt _ _)). Qed.

(** One iteration of the loop on a chunk, and on an error. *)
Lemma fill_loop_data on_eof on_err c s need filled :
  c <> [] -> zlen filled < need ->
  fill_loop on_eof on_err (RData c :: s) need filled =
  if need <=? zlen filled + zlen c
  then (Ok (filled ++ ztake (need - zlen filled) c),
        if zlen c <=? need - zlen filled then s
        else RData (zdrop (need - zlen filled) c) :: s)
  else fill_loop on_eof on_err s need (filled ++ c).
Proof.
  intros Hc Hn. cbn [fill_loop]. rewrite (proj2 (Z.leb_gt _ _)) by lia.
  destruct (Z.leb_spec (zlen c) (need - zlen filled)).
  - rewrite read_data_le by lia. rewrite ztake_all by lia.
    destruct c; [done |]. done.
  - rewrite read_data_gt by lia.
    assert (Hl : zlen (ztake (need - zlen filled) c) = need - zlen filled)
      by (apply zlen_ztake; lia).
    rewrite (proj2 (Z.leb_le need _)) by lia.
    destruct (ztake _ c) as [| x l] eqn:E; [rewrite zlen_nil in Hl; lia |].
    by rewrite (proj2 (Z.leb_le _ _)) by lia.
Qed.

Lemma fill_loop_err on_eof on_err e s need filled :
  zlen filled < need ->
  fill_loop on_eof on_err (RErr e :: s) need filled =
  match on_err (zlen filled =? 0) e with
  | Some err => (Err err, s)
  | None => fill_loop on_eof on_err s need filled
  end.
Proof. intros Hn. cbn [fill_loop]. by rewrite (proj2 (Z.leb_gt _ _)) by lia. Qed.

Lemma fill_loop_delivers skip on_eof on_err s bs rest :
  retries skip on_err -> delivers_with skip s bs rest ->
  forall a b need filled,
  bs = a ++ b -> need = zlen filled + zlen a ->
  exists s', fill_loop on_eof on_err s need filled = (Ok (filled ++ a), s') /\
             delivers_with skip s' b rest.
Proof.
  intros Hr Hd. induction Hd as [rest | e s bs rest He Hd IH | c s bs rest Hc Hd IH];
    intros a b need filled Heq Hneed.
  - symmetry in Heq. apply app_eq_nil in Heq as [-> ->].
    rewrite fill_loop_full, app_nil_r by zlen_lia. eauto using delivers_with.
  - destruct (decide (a = [])) as [-> | Hne].
    { simpl in Heq. subst bs. rewrite fill_loop_full, app_nil_r by zlen_lia.
      eauto using delivers_with. }
    assert (0 < zlen a) by (destruct a; [done | zlen_lia]).
    rewrite fill_loop_err, (Hr _ _ He) by lia. eauto.
  - destruct (decide (a = [])) as [-> | Hne].
    { simpl in Heq. subst b. rewrite fill_loop_full, app_nil_r by zlen_lia.
      eauto using delivers_with. }
    assert (0 < zlen a) by (destruct a; [done | zlen_lia]).
    rewrite fill_loop_data by (done || lia).
    replace (need - zlen filled) with (zlen a) by lia.
    destruct (Z.leb_spec (zlen c) (zlen a)) as [Hle | Hgt].
    + destruct (app_split_le _ _ _ _ Heq Hle) as (a' & -> & ->).
      rewrite ztake_all by lia. rewrite zlen_app in Hneed.
      case_leb.
      * assert (a' = []) as -> by (apply zlen_zero_nil; zlen_lia).
        rewrite app_nil_r. eauto.
      * edestruct (IH a' b need (filled ++ c)) as (s' & E & D); [done | zlen_lia |].
        rewrite <- app_assoc in E. eauto.
    + symmetry in Heq.
      destruct (app_split_le _ _ _ _ Heq ltac:(lia)) as (b' & -> & ->).
      rewrite (proj2 (Z.leb_le _ _)) by zlen_lia.
      rewrite ztake_app_l, ztake_all, zdrop_app_r, zdrop_0 by lia.
      eexists. split; [done |]. constructor; [| done].
      intros ->. rewrite app_nil_r in Hgt. lia.
Qed.

Lemma fill_loop_eof skip on_eof on_err s bs rest :
  retries skip on_err -> delivers_with skip s bs rest -> rest = [] ->
  forall need filled, zlen filled + zlen bs < need ->
  fst (fill_loop on_eof on_err s need filled) = Err (on_eof (zlen (filled ++ bs) =? 0)).
Proof.
  intros Hr Hd. induction Hd as [rest | e s bs rest He Hd IH | c s bs rest Hc Hd IH];
    intros Hrest need filled Hlt.
  - subst rest. rewrite zlen_nil in Hlt. rewrite app_nil_r. simpl.
    by rewrite (proj2 (Z.leb_gt _ _)) by lia.
  - rewrite fill_loop_err, (Hr _ _ He) by zlen_lia. by apply IH.
  - rewrite fill_loop_data by (done || zlen_lia).
    rewrite (proj2 (Z.leb_gt _ _)) by zlen_lia.
    rewrite IH by (done || zlen_lia). by rewrite app_assoc.
Qed.

Lemma fill_loop_length on_eof on_err s need filled bs s' :
  zlen filled <= need -> fill_loop on_eof on_err s need filled = (Ok bs, s') ->
  zlen bs = need.
Proof.
  revert filled. induction s as [| ev s IH]; intros filled Hf; cbn [fill_loop];
    (destruct (Z.leb_spec need (zlen filled)); [intros; simplify_eq; lia |]); [done |].
  destruct ev as [c | e]; cbn [read].
  - destruct (Z.leb_spec (zlen c) (need - zlen filled)).
    + destruct c as [| x c]; [done |]. set (d := x :: c) in *.
      destruct (Z.leb_spec need (zlen filled + zlen d)).
      * intros [= <- <-]. zlen_lia.
      * apply IH. zlen_lia.
    + assert (Hl : zlen (ztake (need - zlen filled) c) = need - zlen filled)
        by (apply zlen_ztake; zlen_lia).
      destruct (ztake _ c) as [| x d] eqn:E; [rewrite zlen_nil in Hl; lia |].
      rewrite Hl, (proj2 (Z.leb_le _ _)) by lia. intros [= <- <-].
      rewrite zlen_app, Hl. lia.
  - destruct (on_err _ e); [done |]. by apply IH.
Qed.

Lemma fill_loop_safe on_eof on_err s need filled :
  fst (fill_loop on_eof on_err s need filled) <> Panic.
Proof.
  revert filled. induction s as [| ev s IH]; intros filled; cbn [fill_loop];
    (case_leb; [done |]); [done |].
  destruct (read _ _) as [[[| x c] | e] s']; try done; case_match; try done; apply IH.
Qed.

Lemma delivers_app skip s bs mid cs rest :
  delivers_with skip s bs mid -> delivers_with skip mid cs rest ->
  delivers_with skip s (bs ++ cs) rest.
Proof.
  induction 1; intros; simpl; eauto using delivers_with.
  rewrite <- app_assoc. eauto using delivers_with.
Qed.

(** The bytes of one frame. *)
Definition frame_bytes (buf : list byte) : list byte :=
  to_le 4 (wrap_u 32 (zlen buf)) ++ buf.

Lemma write_frame_ok w buf framed :
  write_frame w buf = Ok framed ->
  zlen buf <= MAX_FRAME_LEN /\ framed = frame_bytes buf.
Proof.
  unfold write_frame. case_leb; [done |]. intros. case_match; by simplify_eq.
Qed.

Lemma frame_len_word (buf : list byte) :
  zlen buf <= MAX_FRAME_LEN -> of_le (to_le 4 (wrap_u 32 (zlen buf))) = zlen buf.
Proof.
  intros. pose proof (zlen_nonneg buf). unfold MAX_FRAME_LEN in *.
  rewrite of_le_to_le_u; [| by apply wrap_u_range].
  apply wrap_u_small. split; [lia |]. change (2 ^ 32) with 4294967296. lia.
Qed.

Lemma delivers_weaken skip1 skip2 s bs rest :
  (forall e, skip1 e -> skip2 e) ->
  delivers_with skip1 s bs rest -> delivers_with skip2 s bs rest.
Proof. intros Hs. induction 1; eauto using delivers_with. Qed.

Lemma read_header_delivers n s bs rest a b :
  delivers s bs rest -> bs = a ++ b -> n = zlen a ->
  exists s', read_header n s = (Ok a, s') /\ delivers s' b rest.
Proof.
  intros Hd Heq ->. refine (fill_loop_delivers interrupted _ _ s bs rest _ Hd a b _ [] Heq _); [| done].
  intros ? ? ?. by rewrite decide_True by done.
Qed.

Lemma read_body_delivers n s bs rest a b :
  delivers s bs rest -> bs = a ++ b -> n = zlen a ->
  exists s', read_body n s = (Ok a, s') /\ delivers s' b rest.
Proof.
  intros Hd Heq ->. refine (fill_loop_delivers interrupted _ _ s bs rest _ Hd a b _ [] Heq _); [| done].
  intros ? ? ?. by rewrite decide_True by done.
Qed.

Lemma read_header_eof n s bs :
  delivers s bs [] -> zlen bs < n ->
  fst (read_header n s) = Err (if zlen bs =? 0 then PeerClosed else Truncated).
Proof.
  intros Hd Hn. unfold read_header. rewrite (fill_loop_eof interrupted _ _ s bs []); try done.
  intros ? ? ?. by rewrite decide_True by done.
Qed.

Lemma read_body_eof n s bs :
  delivers s bs [] -> zlen bs < n -> fst (read_body n s) = Err Truncated.
Proof.
  intros Hd Hn. unfold read_body. rewrite (fill_loop_eof interrupted _ _ s bs []); try done.
  intros ? ? ?. by rewrite decide_True by done.
Qed.

Lemma read_frame_delivers s buf more rest :
  zlen buf <= MAX_FRAME_LEN -> delivers s (frame_bytes buf ++ more) rest ->
  exists s', read_frame s = (Ok buf, s') /\ delivers s' more rest.
Proof.
  intros Hlen Hd. unfold frame_bytes in Hd. rewrite <- app_assoc in Hd.
  destruct (read_header_delivers 4 _ _ _ _ _ Hd eq_refl) as (s1 & E1 & Hd1).
  { by zlens. }
  destruct (read_body_delivers (zlen buf) _ _ _ _ _ Hd1 eq_refl eq_refl)
    as (s2 & E2 & Hd2).
  exists s2. unfold read_frame. rewrite E1, frame_len_word by done.
  by rewrite (proj2 (Z.ltb_ge _ _)) by lia.
Qed.

(** Frames written one after the other are read back one by one, intact
    and in order, whatever chunks the stream delivers them in, wherever the
    chunks cross frame boundaries and whichever calls are interrupted; the
    stream is then exactly at what follows the last frame. *)
Theorem read_frames_written (w : list byte -> option io_error)
    (bufs frames : list (list byte)) (s : stream) (more : list byte) (rest : stream) :
  Forall2 (fun buf framed => write_frame w buf = Ok framed) bufs frames ->
  delivers s (concat frames ++ more) rest ->
  exists s', read_frames (length bufs) s = (bufs, s') /\ delivers s' more rest.
Proof.
  intros Hf. revert s. induction Hf as [| b fr bufs frames Hb Hf IH]; intros s Hd;
    [by eexists |].
  apply write_frame_ok in Hb as [Hb ->].
  cbn [concat] in Hd. rewrite <- app_assoc in Hd.
  destruct (read_frame_delivers _ _ _ _ Hb Hd) as (s1 & E1 & Hd1).
  destruct (IH _ Hd1) as (s2 & E2 & Hd2).
  exists s2. simpl. by rewrite E1, E2.
Qed.

(** Two frames in three chunks that cross the frame boundary, with an
    interrupted call in between. *)
Lemma read_frames_written_witness :
  exists s', read_frames 2
    [RData [x03; x00]; RErr (IoError Interrupted None);
     RData [x00; x00; x0a; x0b; x0c; x01; x00; x00]; RData [x00; xff; x77]]
    = ([[x0a; x0b; x0c]; [xff]], s') /\ delivers s' [x77] [].
Proof.
  apply (read_frames_written (fun _ => None) [[x0a; x0b; x0c]; [xff]]
    [[x03; x00; x00; x00; x0a; x0b; x0c]; [x01; x00; x00; x00; xff]]).
  - repeat constructor.
  - apply (del_data [x03; x00]); [done |]. apply del_intr; [done |].
    apply (del_data [x00; x00; x0a; x0b; x0c; x01; x00; x00]); [done |].
    apply (del_data [x00; xff; x77] [] []); [done |]. apply del_done.
Defined.

(** A frame cut short by the peer is never returned: end of file before any
    byte is a clean [PeerClosed], and after any strict prefix (of the header or
    of the body) it is [Truncated]. *)
Theorem read_frame_truncated (w : list byte -> option io_error)
    (buf pre cut : list byte) (s : stream) :
  write_frame w buf = Ok (pre ++ cut) -> cut <> [] -> delivers s pre [] ->
  fst (read_frame s) = Err (if zlen pre =? 0 then PeerClosed else Truncated).
Proof.
  intros [Hlen Hfb]%write_frame_ok Hcut Hd. symmetry in Hfb.
  assert (0 < zlen cut) by (destruct cut; [done | zlen_lia]).
  assert (Hl : zlen pre + zlen cut = 4 + zlen buf).
  { rewrite <- zlen_app, <- Hfb. unfold frame_bytes. by zlens. }
  unfold read_frame. destruct (Z.ltb_spec (zlen pre) 4) as [Hp | Hp].
  - pose proof (read_header_eof 4 s pre Hd Hp) as E.
    destruct (read_header 4 s) as [r s1]. simpl in E. by subst r.
  - unfold frame_bytes in Hfb.
    destruct (app_split_le _ _ _ _ Hfb) as (p2 & -> & ->); [by zlens |].
    destruct (read_header_delivers 4 _ _ _ _ _ Hd eq_refl) as (s1 & -> & Hd1);
      [by zlens |].
    rewrite frame_len_word by done. rewrite (proj2 (Z.ltb_ge _ _)) by lia.
    rewrite (read_body_eof _ _ p2) by (done || zlen_lia).
    by rewrite (proj2 (Z.eqb_neq _ _)) by zlen_lia.
Qed.

Lemma read_frame_truncated_witness :
  fst (read_frame [RData [x03; x00; x00; x00]; RData [x0a]]) = Err Truncated.
Proof.
  apply (read_frame_truncated (fun _ => None) [x0a; x0b; x0c]
    [x03; x00; x00; x00; x0a] [x0b; x0c]); [reflexivity | done |].
  apply (del_data [x03; x00; x00; x00]); [done |].
  apply (del_data [x0a] [] []); [done |]. apply del_done.
Defined.

(** A header that declares more than [MAX_FRAME_LEN] is rejected with the
    declared length, before a single body byte is read: the stream still holds
    everything after the header. *)
Theorem read_frame_oversize (len : Z) (s : stream) (more : list byte) (rest : stream) :
  in_u 32 len -> MAX_FRAME_LEN < len -> delivers s (to_le 4 len ++ more) rest ->
  exists s', read_frame s = (Err (FrameTooLarge len MAX_FRAME_LEN), s') /\
             delivers s' more rest.
Proof.
  intros Hu Hlen Hd.
  destruct (read_header_delivers 4 _ _ _ _ _ Hd eq_refl) as (s1 & E1 & Hd1);
    [by zlens |].
  exists s1. unfold read_frame.
  by rewrite E1, of_le_to_le_u, (proj2 (Z.ltb_lt _ _)) by done.
Qed.

Lemma read_frame_oversize_witness :
  exists s', read_frame [RData [xff; xff; xff; xff; x41]]
             = (Err (FrameTooLarge 4294967295 MAX_FRAME_LEN), s') /\
             delivers s' [x41] [].
Proof.
  apply (read_frame_oversize 4294967295 _ [x41] []).
  - unfold in_u. lia.
  - reflexivity.
  - apply (del_data [xff; xff; xff; xff; x41] [] []); [done |]. apply del_done.
Defined.
