(* ===== verification/Wire.v ===== *)
(** The RPC wire messages and the codec interface
    (src/rsbinder/src/rpc/wire.rs): [WireTransaction], [WireReply],
    [WireMessage], the trait [WireCodec] as a class of operations with the laws
    a codec promises a session, and the android-12 [R34Codec]. *)

From Stdlib Require Import ZArith Lia Strings.Byte.
From stdpp Require Import base list strings.
From S2P Require Import Prelude Errors Address Transport.

Definition WIRE_HEADER_LEN : Z := 16.
Definition WIRE_TXN_FIXED_LEN : Z := RPC_ADDR_LEN + 4 + 4 + 8 + 16.

Definition CMD_TRANSACT : Z := 0.
Definition CMD_REPLY : Z := 1.
Definition CMD_DEC_STRONG : Z := 2.

(** * Messages *)

Record WireTransaction : Type := mkTxn {
  address : RpcAddress;
  code : Z;
  flags : Z;
  async_number : Z;
  txn_data : list byte;
  txn_positions : list Z
}.

Record WireReply : Type := mkReply {
  status : Z;
  reply_data : list byte;
  reply_positions : list Z
}.

Inductive WireMessage : Type :=
| Transact (t : WireTransaction)
| Reply (r : WireReply)
| DecStrong (a : RpcAddress) (amount : Z).

(** The Rust field types. *)
Definition txn_typed (t : WireTransaction) : Prop :=
  addr_ok (address t) /\ in_u 32 (code t) /\ in_u 32 (flags t) /\
  in_u 64 (async_number t) /\ Forall (in_u 32) (txn_positions t).

Definition reply_typed (r : WireReply) : Prop :=
  in_i 32 (status r) /\ Forall (in_u 32) (reply_positions r).

Definition message_typed (m : WireMessage) : Prop :=
  match m with
  | Transact t => txn_typed t
  | Reply r => reply_typed r
  | DecStrong a amount => addr_ok a /\ in_u 32 amount
  end.

(** * Bounds-checked readers *)

(** [slice.try_into::<[u8; k]>().unwrap()]. *)
Definition as_array (k : Z) (s : list byte) : RpcResult (list byte) :=
  if zlen s =? k then Ok s else Panic.

Section Readers.
Context `{PtrWidth}.

Definition rd_u32 (buf : list byte) (off : Z) : RpcResult Z :=
  let? end_ := ok_or (checked_add off 4) (Protocol "offset overflow") in
  let? slice := ok_or (get_range buf off end_) (Protocol "truncated u32") in
  let? arr := as_array 4 slice in
  Ok (of_le arr).

Definition rd_i32 (buf : list byte) (off : Z) : RpcResult Z :=
  let? v := rd_u32 buf off in
  Ok (wrap_i 32 v).

Definition rd_u64 (buf : list byte) (off : Z) : RpcResult Z :=
  let? end_ := ok_or (checked_add off 8) (Protocol "offset overflow") in
  let? slice := ok_or (get_range buf off end_) (Protocol "truncated u64") in
  let? arr := as_array 8 slice in
  Ok (of_le arr).

(** [copy_from_slice] panics on a length mismatch. *)
Definition rd_addr (buf : list byte) (off : Z) : RpcResult RpcAddress :=
  let? end_ := ok_or (checked_add off RPC_ADDR_LEN) (Protocol "offset overflow") in
  let? slice := ok_or (get_range buf off end_) (Protocol "truncated address") in
  let? bytes := as_array RPC_ADDR_LEN slice in
  Ok (from_wire_bytes bytes).

(** The header checks both codecs' [decode_message] open with: the command and
    the body, which is exactly [bodySize] bytes. *)
Definition split_header (frame : list byte) : RpcResult (Z * list byte) :=
  if zlen frame <? WIRE_HEADER_LEN
  then Err (Protocol "frame shorter than RpcWireHeader")
  else
    let? command := rd_u32 frame 0 in
    let? body_size := rd_u32 frame 4 in
    if MAX_FRAME_LEN <? body_size then Err (FrameTooLarge body_size MAX_FRAME_LEN)
    else
      let? expected := ok_or (checked_add WIRE_HEADER_LEN body_size)
                             (Protocol "body size overflow") in
      if negb (zlen frame =? expected)
      then Err (Protocol "frame length != header + bodySize")
      else
        let? body := index_from frame WIRE_HEADER_LEN in
        Ok (command, body).
End Readers.

(** [header] of both codecs: [command | bodySize | reserved[2]]. *)
Definition header (command body_size : Z) : RpcResult (list byte) :=
  if MAX_FRAME_LEN <? body_size then Err (FrameTooLarge body_size MAX_FRAME_LEN)
  else Ok (to_le 4 command ++ to_le 4 (wrap_u 32 body_size) ++ zeros 8).

(** [Result::expect]. *)
Definition expect_ok {A} (r : RpcResult A) : RpcResult A :=
  match r with Ok a => Ok a | _ => Panic end.

(** * The codec interface *)

Class WireCodec := {
  encode_transact : WireTransaction -> RpcResult (list byte);
  encode_reply : WireReply -> RpcResult (list byte);
  encode_dec_strong : RpcAddress -> RpcResult (list byte);
  decode_message : list byte -> RpcResult WireMessage;
  encode_session_preamble : Z -> RpcResult (list byte);
  decode_session_preamble : list byte -> RpcResult Z
}.

(** A codec's encoder as one function of the message. *)
Definition encode_message `{WireCodec} (m : WireMessage) : RpcResult (list byte) :=
  match m with
  | Transact t => encode_transact t
  | Reply r => encode_reply r
  | DecStrong a _ => encode_dec_strong a
  end.

(** The header of [bs] announces exactly the body that follows. *)
Definition framed (bs : list byte) : Prop :=
  exists command body,
    bs = to_le 4 command ++ to_le 4 (zlen body) ++ zeros 8 ++ body /\
    in_u 32 command /\ zlen body <= MAX_FRAME_LEN.

(** What a codec promises a session, for the addresses [carries] it can put on
    the wire: messages survive the trip, encodings are framed, and neither side
    panics, whatever bytes the peer sends. *)
Class WireCodecLaws (C : WireCodec) (carries : RpcAddress -> Prop) := {
  codec_roundtrip m bs :
    message_typed m ->
    match m with
    | Transact t => carries (address t)
    | Reply _ => True
    | DecStrong a amount => carries a /\ amount = 1
    end ->
    encode_message m = Ok bs -> decode_message bs = Ok m;
  codec_framed m bs : message_typed m -> encode_message m = Ok bs -> framed bs;
  codec_encode_safe m : encode_message m <> Panic;
  codec_decode_safe bs : decode_message bs <> Panic;
  codec_decode_typed bs m : decode_message bs = Ok m -> message_typed m
}.

(** * The android-12 codec *)

Section R34.
Context `{PtrWidth}.

Definition r34_no_table : string :=
  "r34 wire has no object table (object_positions must be empty)".

Definition r34_encode_transact (txn : WireTransaction) : RpcResult (list byte) :=
  if negb (bool_decide (txn_positions txn = [])) then Err (Protocol r34_no_table)
  else
    let body_len := WIRE_TXN_FIXED_LEN + zlen (txn_data txn) in
    let? h := header CMD_TRANSACT body_len in
    Ok (h ++ as_wire_bytes (address txn) ++ to_le 4 (code txn)
          ++ to_le 4 (flags txn) ++ to_le 8 (async_number txn) ++ zeros 16
          ++ txn_data txn).

Definition r34_encode_reply (reply : WireReply) : RpcResult (list byte) :=
  if negb (bool_decide (reply_positions reply = [])) then Err (Protocol r34_no_table)
  else
    let body_len := 4 + zlen (reply_data reply) in
    let? h := header CMD_REPLY body_len in
    Ok (h ++ to_le 4 (status reply) ++ reply_data reply).

Definition r34_encode_dec_strong (addr : RpcAddress) : RpcResult (list byte) :=
  let? h := expect_ok (header CMD_DEC_STRONG RPC_ADDR_LEN) in
  Ok (h ++ as_wire_bytes addr).

Definition r34_decode_transact (body : list byte) : RpcResult WireMessage :=
  if zlen body <? WIRE_TXN_FIXED_LEN
  then Err (Protocol "RpcWireTransaction truncated")
  else
    let? address := rd_addr body 0 in
    let? code := rd_u32 body RPC_ADDR_LEN in
    let? flags := rd_u32 body (RPC_ADDR_LEN + 4) in
    let? async_number := rd_u64 body (RPC_ADDR_LEN + 8) in
    let? data := index_from body WIRE_TXN_FIXED_LEN in
    Ok (Transact (mkTxn address code flags async_number data [])).

Definition r34_decode_reply (body : list byte) : RpcResult WireMessage :=
  if zlen body <? 4 then Err (Protocol "RpcWireReply truncated")
  else
    let? status := rd_i32 body 0 in
    let? data := index_from body 4 in
    Ok (Reply (mkReply status data [])).

Definition r34_decode_dec_strong (body : list byte) : RpcResult WireMessage :=
  if negb (zlen body =? RPC_ADDR_LEN)
  then Err (Protocol "DEC_STRONG body != 32 bytes")
  else
    let? a := rd_addr body 0 in
    Ok (DecStrong a 1).

Definition r34_decode_message (frame : list byte) : RpcResult WireMessage :=
  let? (command, body) := split_header frame in
  if command =? CMD_TRANSACT then r34_decode_transact body
  else if command =? CMD_REPLY then r34_decode_reply body
  else if command =? CMD_DEC_STRONG then r34_decode_dec_strong body
  else Err (Protocol "unknown RpcWireHeader.command").

Definition r34_encode_session_preamble (session_id : Z) : RpcResult (list byte) :=
  Ok (to_le 4 session_id).

Definition r34_decode_session_preamble (buf : list byte) : RpcResult Z :=
  if negb (zlen buf =? 4)
  then Err (Protocol "session preamble must be exactly 4 bytes")
  else Ok (of_le_i 32 buf).
End R34.

Definition R34Codec `{PtrWidth} : WireCodec := {|
  encode_transact := r34_encode_transact;
  encode_reply := r34_encode_reply;
  encode_dec_strong := r34_encode_dec_strong;
  decode_message := r34_decode_message;
  encode_session_preamble := r34_encode_session_preamble;
  decode_session_preamble := r34_decode_session_preamble
|}.

(** * Lemmas of the readers *)

Section ReaderLemmas.
Context `{PtrWidth}.

Lemma rd_u32_here v k : in_u 32 v -> rd_u32 (to_le 4 v ++ k) 0 = Ok v.
Proof.
  intros Hv. unfold rd_u32. rewrite checked_add_small by (unfold u32_max; lia).
  cbn [ok_or]. rewrite get_range_here by (by zlens). cbn [ok_or].
  unfold as_array. zlens. cbn [Z.of_nat]. simpl. by rewrite of_le_to_le_u.
Qed.

Lemma rd_u64_here v k : in_u 64 v -> rd_u64 (to_le 8 v ++ k) 0 = Ok v.
Proof.
  intros Hv. unfold rd_u64. rewrite checked_add_small by (unfold u32_max; lia).
  cbn [ok_or]. rewrite get_range_here by (by zlens). cbn [ok_or].
  unfold as_array. zlens. simpl. by rewrite of_le_to_le_u.
Qed.

Lemma rd_addr_here a k : addr_ok a -> rd_addr (as_wire_bytes a ++ k) 0 = Ok a.
Proof.
  unfold addr_ok, as_wire_bytes. intros Ha. unfold rd_addr.
  rewrite checked_add_small by (unfold u32_max, RPC_ADDR_LEN; lia).
  cbn [ok_or]. rewrite get_range_here by done. cbn [ok_or].
  unfold as_array. rewrite Ha. by destruct a.
Qed.

Lemma rd_i32_here v k : in_i 32 v -> rd_i32 (to_le 4 v ++ k) 0 = Ok v.
Proof.
  intros Hv. unfold rd_i32. rewrite <- (to_le_mod 4 v).
  rewrite rd_u32_here by (by apply wrap_u_range).
  f_equal. change (v mod _) with (wrap_u 32 v). rewrite wrap_i_wrap_u by lia.
  by apply wrap_i_small.
Qed.

Lemma rd_u32_skip l k off :
  zlen l <= off -> off + 4 <= u32_max ->
  rd_u32 (l ++ k) off = rd_u32 k (off - zlen l).
Proof.
  intros. unfold rd_u32. pose proof (zlen_nonneg l).
  rewrite !checked_add_small by lia. cbn [ok_or]. rewrite get_range_skip by lia.
  by replace (off - zlen l + 4) with (off + 4 - zlen l) by lia.
Qed.

Lemma rd_u64_skip l k off :
  zlen l <= off -> off + 8 <= u32_max ->
  rd_u64 (l ++ k) off = rd_u64 k (off - zlen l).
Proof.
  intros. unfold rd_u64. pose proof (zlen_nonneg l).
  rewrite !checked_add_small by lia. cbn [ok_or]. rewrite get_range_skip by lia.
  by replace (off - zlen l + 8) with (off + 8 - zlen l) by lia.
Qed.

(** What a read that succeeds says of the buffer, and no read panics. *)
Lemma rd_u32_safe buf off : rd_u32 buf off <> Panic.
Proof.
  unfold rd_u32. destruct (checked_add off 4) as [e |] eqn:E; [| done]. simpl.
  destruct (get_range buf off e) as [s |] eqn:G; [| done]. simpl.
  apply get_range_zlen in G. unfold as_array, checked_add in *. case_match; simplify_eq.
  rewrite (proj2 (Z.eqb_eq _ _)) by lia. done.
Qed.

Lemma rd_u64_safe buf off : rd_u64 buf off <> Panic.
Proof.
  unfold rd_u64. destruct (checked_add off 8) as [e |] eqn:E; [| done]. simpl.
  destruct (get_range buf off e) as [s |] eqn:G; [| done]. simpl.
  apply get_range_zlen in G. unfold as_array, checked_add in *. case_match; simplify_eq.
  rewrite (proj2 (Z.eqb_eq _ _)) by lia. done.
Qed.

Lemma rd_addr_safe buf off : rd_addr buf off <> Panic.
Proof.
  unfold rd_addr. destruct (checked_add off RPC_ADDR_LEN) as [e |] eqn:E; [| done]. simpl.
  destruct (get_range buf off e) as [s |] eqn:G; [| done]. simpl.
  apply get_range_zlen in G. unfold as_array, checked_add in *. case_match; simplify_eq.
  rewrite (proj2 (Z.eqb_eq _ _)) by lia. done.
Qed.

Lemma rd_i32_safe buf off : rd_i32 buf off <> Panic.
Proof. unfold rd_i32. pose proof (rd_u32_safe buf off). by destruct (rd_u32 buf off). Qed.

Lemma rd_u32_range buf off v : rd_u32 buf off = Ok v -> in_u 32 v.
Proof.
  unfold rd_u32, as_array. intros E. inv_ok. case_leb; simplify_eq/=.
  match goal with H : zlen ?s = 4 |- _ => pose proof (of_le_bound s) as B; rewrite H in B end.
  exact B.
Qed.

Lemma rd_u64_range buf off v : rd_u64 buf off = Ok v -> in_u 64 v.
Proof.
  unfold rd_u64, as_array. intros E. inv_ok. case_leb; simplify_eq/=.
  match goal with H : zlen ?s = 8 |- _ => pose proof (of_le_bound s) as B; rewrite H in B end.
  exact B.
Qed.

Lemma rd_i32_range buf off v : rd_i32 buf off = Ok v -> in_i 32 v.
Proof. unfold rd_i32. intros E. inv_ok. by apply wrap_i_range. Qed.

Lemma rd_addr_range buf off a : rd_addr buf off = Ok a -> addr_ok a.
Proof.
  unfold rd_addr, as_array. intros E. inv_ok.
  by apply Z.eqb_eq.
Qed.

Lemma index_from_ok {E A} (l : list A) (n : Z) :
  0 <= n <= zlen l -> @index_from E A l n = Ok (zdrop n l).
Proof. intros. unfold index_from. by rewrite !(proj2 (Z.leb_le _ _)) by lia. Qed.

(** * Lemmas of the header *)

Lemma header_ok command n h :
  header command n = Ok h ->
  n <= MAX_FRAME_LEN /\ h = to_le 4 command ++ to_le 4 (wrap_u 32 n) ++ zeros 8.
Proof. unfold header. case_leb; intros; by simplify_eq. Qed.

Lemma split_header_framed command body :
  in_u 32 command -> zlen body <= MAX_FRAME_LEN ->
  split_header (to_le 4 command ++ to_le 4 (zlen body) ++ zeros 8 ++ body)
  = Ok (command, body).
Proof.
  intros Hc Hb. pose proof (zlen_nonneg body).
  assert (in_u 32 (zlen body)).
  { unfold in_u, MAX_FRAME_LEN in *. change (2 ^ 32) with 4294967296. lia. }
  unfold split_header, WIRE_HEADER_LEN. zlens.
  rewrite (proj2 (Z.ltb_ge _ _)) by lia. rewrite rd_u32_here by done.
  rewrite rd_u32_skip by (zlens; unfold u32_max; lia). zlens.
  change (4 - Z.of_nat 4) with 0. rewrite rd_u32_here by done.
  rewrite (proj2 (Z.ltb_ge _ _)) by lia.
  rewrite checked_add_small by (unfold u32_max, MAX_FRAME_LEN in *; lia). cbn [ok_or].
  rewrite (proj2 (Z.eqb_eq _ _)) by lia. cbn [negb].
  by rewrite index_from_ok by zlen_lia.
Qed.

Lemma split_header_ok frame command body :
  split_header frame = Ok (command, body) ->
  in_u 32 command /\ zlen body <= MAX_FRAME_LEN /\
  zlen frame = WIRE_HEADER_LEN + zlen body /\ body = zdrop WIRE_HEADER_LEN frame /\
  rd_u32 frame 4 = Ok (zlen body).
Proof.
  unfold split_header. case_leb; [done |].
  destruct (rd_u32 frame 0) as [c | |] eqn:E0; [| done | done].
  destruct (rd_u32 frame 4) as [n | |] eqn:E4; [| done | done].
  apply rd_u32_range in E0. pose proof (rd_u32_range _ _ _ E4) as Hn.
  destruct (Z.ltb_spec MAX_FRAME_LEN n); [done |].
  rewrite checked_add_small
    by (unfold u32_max, MAX_FRAME_LEN, WIRE_HEADER_LEN, in_u in *; lia).
  cbn [ok_or]. destruct (Z.eqb_spec (zlen frame) (WIRE_HEADER_LEN + n)); [| done].
  cbn [negb]. unfold in_u in Hn.
  rewrite index_from_ok by (unfold WIRE_HEADER_LEN in *; lia). intros [= <- <-].
  assert (Hz : zlen (zdrop WIRE_HEADER_LEN frame) = n).
  { rewrite zlen_zdrop; unfold WIRE_HEADER_LEN in *; lia. }
  rewrite Hz. auto.
Qed.

Lemma split_header_safe frame : split_header frame <> Panic.
Proof.
  unfold split_header. case_leb; [done |].
  pose proof (rd_u32_safe frame 0). destruct (rd_u32 frame 0); [| done | done].
  pose proof (rd_u32_safe frame 4).
  destruct (rd_u32 frame 4) as [n | |] eqn:E; [| done | done].
  case_leb; [done |]. destruct (checked_add _ _) as [e |] eqn:E2; [| done]. cbn [ok_or].
  case_leb; [| done]. cbn [negb]. rewrite index_from_ok; [done |].
  unfold WIRE_HEADER_LEN in *. lia.
Qed.
End ReaderLemmas.

Lemma framed_intro command n h body :
  in_u 32 command -> zlen body = n -> header command n = Ok h -> framed (h ++ body).
Proof.
  intros Hc Hn [Hm ->]%header_ok. exists command, body. split_and!; [| done | lia].
  rewrite wrap_u_small, Hn, <- !app_assoc; [done |].
  unfold in_u, MAX_FRAME_LEN in *. change (2 ^ 32) with 4294967296. zlen_lia.
Qed.

(** Walk a decoder: each read is settled by its safety and range lemmas. *)
Ltac rd_cases :=
  repeat
    (case_leb || case_bool_decide ||
     match goal with
     | |- context [match rd_u32 ?b ?o with _ => _ end] =>
         pose proof (rd_u32_safe b o); destruct (rd_u32 b o) eqn:?
     | |- context [match rd_u64 ?b ?o with _ => _ end] =>
         pose proof (rd_u64_safe b o); destruct (rd_u64 b o) eqn:?
     | |- context [match rd_i32 ?b ?o with _ => _ end] =>
         pose proof (rd_i32_safe b o); destruct (rd_i32 b o) eqn:?
     | |- context [match rd_addr ?b ?o with _ => _ end] =>
         pose proof (rd_addr_safe b o); destruct (rd_addr b o) eqn:?
     end; cbn [negb]; try done).

(** Take the branch of a known command. *)
Ltac cmd_branch :=
  rewrite ?Z.eqb_refl;
  change (CMD_REPLY =? CMD_TRANSACT) with false;
  change (CMD_DEC_STRONG =? CMD_TRANSACT) with false;
  change (CMD_DEC_STRONG =? CMD_REPLY) with false;
  cbv beta iota.

(** * The android-12 codec keeps the laws *)

Section R34Laws.
Context `{PtrWidth}.

(** The messages the r34 wire can carry: no object table, one decrement per
    [DEC_STRONG], a body within the frame cap. *)
Definition r34_fits (m : WireMessage) : Prop :=
  match m with
  | Transact t =>
      txn_positions t = [] /\ WIRE_TXN_FIXED_LEN + zlen (txn_data t) <= MAX_FRAME_LEN
  | Reply r => reply_positions r = [] /\ 4 + zlen (reply_data r) <= MAX_FRAME_LEN
  | DecStrong _ amount => amount = 1
  end.

Lemma header_fits command n :
  n <= MAX_FRAME_LEN ->
  header command n = Ok (to_le 4 command ++ to_le 4 (wrap_u 32 n) ++ zeros 8).
Proof. intros. unfold header. by rewrite (proj2 (Z.ltb_ge _ _)). Qed.

Lemma r34_body t :
  addr_ok (address t) -> in_u 32 (code t) -> in_u 32 (flags t) ->
  in_u 64 (async_number t) ->
  r34_decode_transact
    (as_wire_bytes (address t) ++ to_le 4 (code t) ++ to_le 4 (flags t)
       ++ to_le 8 (async_number t) ++ zeros 16 ++ txn_data t)
  = Ok (Transact (mkTxn (address t) (code t) (flags t) (async_number t) (txn_data t) [])).
Proof.
  intros Ha Hc Hf Hn. unfold r34_decode_transact.
  assert (Hl : zlen (as_wire_bytes (address t)) = 32) by done.
  rewrite (proj2 (Z.ltb_ge _ _))
    by (unfold WIRE_TXN_FIXED_LEN, RPC_ADDR_LEN; zlens; rewrite Hl; zlen_lia).
  rewrite rd_addr_here by done.
  rewrite !(rd_u32_skip (as_wire_bytes _)) by (unfold RPC_ADDR_LEN, u32_max; lia).
  rewrite (rd_u64_skip (as_wire_bytes _)) by (unfold RPC_ADDR_LEN, u32_max; lia).
  rewrite Hl. change (RPC_ADDR_LEN - 32) with 0. rewrite rd_u32_here by done.
  rewrite rd_u32_skip by (zlens; unfold RPC_ADDR_LEN, u32_max; lia).
  zlens. change (_ - 32 - _) with 0. rewrite rd_u32_here by done.
  rewrite !rd_u64_skip by (zlens; unfold RPC_ADDR_LEN, u32_max; lia).
  zlens. change (_ - 32 - _ - _) with 0. rewrite rd_u64_here by done.
  rewrite index_from_ok
    by (unfold WIRE_TXN_FIXED_LEN, RPC_ADDR_LEN; zlens; rewrite Hl; zlen_lia).
  rewrite !app_assoc, zdrop_app_r, zdrop_0; [done | |];
    zlens; rewrite ?Hl; unfold WIRE_TXN_FIXED_LEN, RPC_ADDR_LEN; lia.
Qed.

(** An encoded message splits back into its command and body. *)
Lemma split_header_header command n h body :
  in_u 32 command -> n = zlen body -> header command n = Ok h ->
  split_header (h ++ body) = Ok (command, body).
Proof.
  intros Hc -> [Hm ->]%header_ok. rewrite wrap_u_small, <- !app_assoc.
  - by apply split_header_framed.
  - unfold in_u, MAX_FRAME_LEN in *. change (2 ^ 32) with 4294967296. zlen_lia.
Qed.

Lemma r34_roundtrip_lemma m bs :
  message_typed m -> r34_fits m ->
  @encode_message R34Codec m = Ok bs -> r34_decode_message bs = Ok m.
Proof.
  unfold encode_message, r34_decode_message. simpl.
  destruct m as [t | r | a amount]; simpl.
  - intros (Ha & Hc & Hf & Hn & _) [Hp Hs]. unfold r34_encode_transact.
    rewrite bool_decide_true by done. cbn [negb].
    destruct (header _ _) as [h | |] eqn:Eh; intros; simplify_eq.
    erewrite (split_header_header CMD_TRANSACT _ h); [| by split | | exact Eh].
    2: { zlens. unfold as_wire_bytes. rewrite Ha. unfold WIRE_TXN_FIXED_LEN. lia. }
    cmd_branch. rewrite r34_body by done. destruct t. simpl in *. by subst.
  - intros [Hs _] [Hp Hl]. unfold r34_encode_reply.
    rewrite bool_decide_true by done. cbn [negb].
    destruct (header _ _) as [h | |] eqn:Eh; intros; simplify_eq.
    erewrite (split_header_header CMD_REPLY _ h); [| by split | | exact Eh].
    2: { zlens. lia. }
    cmd_branch. unfold r34_decode_reply. rewrite (proj2 (Z.ltb_ge _ _)) by zlen_lia.
    rewrite rd_i32_here by done. rewrite index_from_ok by zlen_lia.
    rewrite zdrop_app_r, zdrop_0 by (zlens; lia). destruct r. simpl in *. by subst.
  - intros [Ha _] ->. unfold r34_encode_dec_strong.
    destruct (header _ _) as [h | |] eqn:Eh; simpl; intros; simplify_eq.
    erewrite (split_header_header CMD_DEC_STRONG _ h); [| by split | done | exact Eh].
    cmd_branch. unfold r34_decode_dec_strong.
    rewrite (proj2 (Z.eqb_eq _ _)) by done. cbn [negb].
    rewrite <- (app_nil_r (as_wire_bytes a)). by rewrite rd_addr_here.
Qed.

Lemma r34_decode_safe frame : r34_decode_message frame <> Panic.
Proof.
  unfold r34_decode_message. pose proof (split_header_safe frame).
  destruct (split_header frame) as [[c b] | |]; [| done | done].
  unfold r34_decode_transact, r34_decode_reply, r34_decode_dec_strong. rd_cases.
  all: by rewrite index_from_ok by (unfold WIRE_TXN_FIXED_LEN, RPC_ADDR_LEN in *; lia).
Qed.

Lemma r34_decode_typed frame m : r34_decode_message frame = Ok m -> message_typed m.
Proof.
  unfold r34_decode_message. destruct (split_header frame) as [[c b] | |]; [| done | done].
  unfold r34_decode_transact, r34_decode_reply, r34_decode_dec_strong. rd_cases;
    intros E; inv_ok;
    repeat split; eauto using rd_u32_range, rd_u64_range, rd_i32_range, rd_addr_range;
    try (by eapply rd_addr_range);
    match goal with
    | E : rd_u32 _ _ = Ok ?v |- _ => by apply rd_u32_range in E as []
    | E : rd_u64 _ _ = Ok ?v |- _ => by apply rd_u64_range in E as []
    | E : rd_i32 _ _ = Ok ?v |- _ => by apply rd_i32_range in E as []
    | _ => done
    end.
Qed.
(** The frame length a message takes. *)
Definition r34_frame_len (m : WireMessage) : Z :=
  WIRE_HEADER_LEN +
  match m with
  | Transact t => WIRE_TXN_FIXED_LEN + zlen (txn_data t)
  | Reply r => 4 + zlen (reply_data r)
  | DecStrong _ _ => RPC_ADDR_LEN
  end.

Lemma r34_decode_fits frame m :
  r34_decode_message frame = Ok m -> r34_fits m /\ zlen frame = r34_frame_len m.
Proof.
  unfold r34_decode_message.
  destruct (split_header frame) as [[c b] | |] eqn:E; [| done | done].
  apply split_header_ok in E as (_ & Hm & Hl & _ & _). pose proof (zlen_nonneg b).
  unfold r34_decode_transact, r34_decode_reply, r34_decode_dec_strong, r34_frame_len.
  rd_cases; rewrite ?index_from_ok by (unfold WIRE_TXN_FIXED_LEN, RPC_ADDR_LEN in *; lia);
    intros; simplify_eq/=;
    rewrite ?zlen_zdrop by (unfold WIRE_TXN_FIXED_LEN, RPC_ADDR_LEN in *; lia);
    repeat split; lia.
Qed.

Lemma r34_encode_total m :
  message_typed m -> r34_fits m ->
  exists bs, @encode_message R34Codec m = Ok bs /\ zlen bs = r34_frame_len m.
Proof.
  destruct m as [t | r | a n]; simpl; unfold r34_frame_len, WIRE_HEADER_LEN.
  - intros [Ha _] [Hp Hl]. unfold r34_encode_transact. rewrite Hp, header_fits by done.
    simpl. eexists. split; [done |]. unfold as_wire_bytes. zlens. rewrite Ha.
    unfold WIRE_TXN_FIXED_LEN. lia.
  - intros _ [Hp Hl]. unfold r34_encode_reply. rewrite Hp, header_fits by done.
    simpl. eexists. split; [done |]. zlens. lia.
  - intros [Ha _] _. unfold r34_encode_dec_strong. rewrite header_fits by done.
    simpl. eexists. split; [done |]. unfold as_wire_bytes. zlens. rewrite Ha. done.
Qed.

Lemma r34_encode_fits m bs :
  @encode_message R34Codec m = Ok bs ->
  match m with
  | DecStrong _ _ => True
  | _ => r34_fits m
  end.
Proof.
  destruct m as [t | r | a n]; simpl; [| | done];
    [unfold r34_encode_transact | unfold r34_encode_reply];
    (case_bool_decide; [| done]); cbn [negb];
    destruct (header _ _) eqn:E; intros; simplify_eq; by apply header_ok in E as [].
Qed.

Lemma r34_encode_safe m : @encode_message R34Codec m <> Panic.
Proof.
  destruct m as [t | r | a n]; simpl; [| | done];
    [unfold r34_encode_transact | unfold r34_encode_reply];
    (case_bool_decide; [| done]); cbn [negb]; unfold header; by case_leb.
Qed.

Lemma r34_encode_framed m bs :
  match m with
  | Transact t => addr_ok (address t)
  | Reply _ => True
  | DecStrong a _ => addr_ok a
  end ->
  @encode_message R34Codec m = Ok bs -> framed bs.
Proof.
  destruct m as [t | r | a n]; simpl; intros Ha;
    unfold r34_encode_transact, r34_encode_reply, r34_encode_dec_strong;
    try (case_bool_decide; [| done]; cbn [negb]);
    destruct (header _ _) as [h | |] eqn:Eh; simpl; intros; simplify_eq;
    (eapply framed_intro; [| | exact Eh]; [by split |]);
    unfold as_wire_bytes, WIRE_TXN_FIXED_LEN; zlens; rewrite ?Ha; lia.
Qed.
End R34Laws.

#[export] Instance R34Codec_laws `{PtrWidth} : WireCodecLaws R34Codec addr_ok.
Proof.
  split.
  - intros m bs Ht Hc E. apply (r34_roundtrip_lemma m bs Ht); [| done].
    pose proof (r34_encode_fits m bs E). by destruct m; [| | destruct Hc].
  - intros m bs Ht. apply r34_encode_framed. destruct m; [| done |]; apply Ht.
  - apply r34_encode_safe.
  - apply r34_decode_safe.
  - apply r34_decode_typed.
Qed.

(** * Properties *)

(** Every typed message the r34 wire can carry is encoded, to the length
    the format prescribes, and decodes to itself. *)
Theorem r34_message_roundtrip `{PtrWidth} (m : WireMessage) :
  message_typed m -> r34_fits m ->
  exists bs, @encode_message R34Codec m = Ok bs /\ zlen bs = r34_frame_len m /\
             r34_decode_message bs = Ok m.
Proof.
  intros Ht Hf. destruct (r34_encode_total m Ht Hf) as (bs & E & Hl).
  exists bs. eauto using r34_roundtrip_lemma.
Qed.

(** The types of a concrete message, by evaluation. *)
Ltac eval_typed :=
  repeat match goal with
         | |- _ /\ _ => split
         | |- Forall _ [] => constructor
         | |- Forall _ (_ :: _) => constructor
         | |- in_u _ _ => vm_compute; split; congruence
         | |- in_i _ _ => vm_compute; split; congruence
         | |- addr_ok _ => vm_compute; reflexivity
         | |- message_typed ?m => let m' := eval hnf in m in change (message_typed m'); cbn [message_typed]
         | |- txn_typed _ => unfold txn_typed; cbn [address code flags async_number txn_positions]
         | |- reply_typed _ => unfold reply_typed; cbn [status reply_positions]
         end.

Definition r34_sample : WireMessage :=
  Transact (mkTxn (minted 7 Acceptor) 5 1 (2 ^ 40) [x01; x02; x03] []).

Lemma r34_message_roundtrip_witness :
  exists bs, @encode_message (@R34Codec ptr64) r34_sample = Ok bs /\ zlen bs = 83 /\
             @r34_decode_message ptr64 bs = Ok r34_sample.
Proof.
  apply (@r34_message_roundtrip ptr64 r34_sample).
  - eval_typed.
  - split; [done | vm_compute; congruence].
Defined.

(** Whatever bytes a peer sends, the r34 decoder returns (it never panics),
    and what it accepts is exactly one well-typed message: the frame is the
    header plus [bodySize] bytes with nothing left over, and encoding the
    message again gives a frame of the same length that decodes to it. *)
Theorem r34_decode_sound `{PtrWidth} (frame : list byte) :
  r34_decode_message frame <> Panic /\
  forall m, r34_decode_message frame = Ok m ->
    message_typed m /\ zlen frame = r34_frame_len m /\
    zlen frame <= WIRE_HEADER_LEN + MAX_FRAME_LEN /\
    exists bs, @encode_message R34Codec m = Ok bs /\ zlen bs = zlen frame /\
               r34_decode_message bs = Ok m.
Proof.
  split; [apply r34_decode_safe |]. intros m E.
  pose proof (r34_decode_typed _ _ E) as Ht.
  destruct (r34_decode_fits _ _ E) as [Hf Hl].
  destruct (r34_encode_total m Ht Hf) as (bs & Eb & Hb).
  split_and!; [done | done | | exists bs; split_and!; [done | lia |]].
  - rewrite Hl. unfold r34_frame_len. destruct m as [t | r | a n]; [apply Zplus_le_compat_l, Hf..|].
    done.
  - by eapply r34_roundtrip_lemma.
Qed.
