(* ===== verification/WireAndroid13.v ===== *)
(** The android-13+ versioned wire (src/rsbinder/src/rpc/wire_android13.rs):
    [Android13PlusCodec] for protocol versions 0, 1, 2 and EXPERIMENTAL, the
    AOSP framing without length prefix, and the connection handshake. *)

From Stdlib Require Import ZArith Lia Strings.Byte.
From stdpp Require Import base list strings.
From S2P Require Import Prelude Errors Address Transport Wire.

Definition A13_ADDR_LEN : Z := 8.
Definition A13_TXN_FIXED_LEN : Z := A13_ADDR_LEN + 4 + 4 + 8 + 16.
Definition A13_DEC_STRONG_LEN : Z := A13_ADDR_LEN + 4 + 4.
Definition A13_CONN_HEADER_LEN : Z := 16.
Definition A13_NEW_SESSION_RESP_LEN : Z := 8.
Definition A13_CONN_INIT_LEN : Z := 8.

Definition ADDR_OPTION_CREATED : Z := 1.
Definition ADDR_OPTION_FOR_SERVER : Z := 2.
Definition CONN_OPTION_INCOMING : Z := 1.
Definition CONN_INIT_OKAY : list byte := [x63; x63; x69; x00].

Definition PROTOCOL_V0 : Z := 0.
Definition PROTOCOL_V1 : Z := 1.
Definition PROTOCOL_V2 : Z := 2.
Definition SUPPORTED_MAX_VERSION : Z := PROTOCOL_V2.
Definition RPC_WIRE_PROTOCOL_VERSION_NEXT : Z := 3.
Definition RPC_WIRE_PROTOCOL_VERSION_EXPERIMENTAL : Z := 4026531840.

Definition FD_MODE_NONE : Z := 0.
Definition FD_MODE_UNIX : Z := 1.
Definition FD_MODE_TRUSTY : Z := 2.

Definition is_supported_protocol_version (version : Z) : bool :=
  (version <=? SUPPORTED_MAX_VERSION)
  || (version =? RPC_WIRE_PROTOCOL_VERSION_EXPERIMENTAL).

Definition reply_fixed_len (version : Z) : Z :=
  if version =? PROTOCOL_V0 then 4 else 20.

Definition has_object_table (version : Z) : bool := PROTOCOL_V1 <=? version.

(** [Android13PlusCodec { version }]. *)
Record Android13PlusCodec : Type := mkA13 { version : Z }.

Definition with_version (v : Z) : RpcResult Android13PlusCodec :=
  if negb (is_supported_protocol_version v)
  then Err (Protocol "unsupported RPC wire protocol version")
  else Ok (mkA13 v).

(** [buf[i]]. *)
Definition index_byte (buf : list byte) (i : nat) : RpcResult byte :=
  match buf !! i with Some b => Ok b | None => Panic end.

(** * Addresses *)

(** [addr] is a [[u8; 32]], so the constant indices are in range. *)
Definition encode_addr (addr : RpcAddress) : list byte :=
  if is_zero addr then zeros A13_ADDR_LEN
  else
    let raw := as_wire_bytes addr in
    let address := of_le (take 4 raw) in
    let options :=
      if decide (raw !! 8%nat = Some x02)
      then Z.lor ADDR_OPTION_CREATED ADDR_OPTION_FOR_SERVER
      else ADDR_OPTION_CREATED in
    to_le 4 options ++ to_le 4 address.

Definition decode_addr `{PtrWidth} (buf : list byte) (off : Z) : RpcResult RpcAddress :=
  let? options := rd_u32 buf off in
  let? address := rd_u32 buf (off + 4) in
  if (Z.land options ADDR_OPTION_CREATED =? 0) && (address =? 0) then Ok addr_zero
  else
    let tag := if negb (Z.land options ADDR_OPTION_FOR_SERVER =? 0) then x02 else x01 in
    Ok (from_wire_bytes (to_le 4 address ++ zeros 4 ++ [tag] ++ zeros 23)).

(** * Handshake structures *)

Definition fd_mode_known (fd_mode : Z) : bool :=
  (fd_mode =? FD_MODE_NONE) || (fd_mode =? FD_MODE_UNIX) || (fd_mode =? FD_MODE_TRUSTY).

Definition encode_connection_header (c : Android13PlusCodec) (incoming : bool)
    (fd_mode : Z) (session_id : list byte) : RpcResult (list byte) :=
  if negb (zlen session_id <? 2 ^ 16)
  then Err (Protocol "session_id length exceeds u16")
  else
    Ok (to_le 4 (version c)
          ++ to_le 1 (if incoming then CONN_OPTION_INCOMING else 0)
          ++ (if version c =? PROTOCOL_V0 then zeros 9
              else to_le 1 fd_mode ++ zeros 8)
          ++ to_le 2 (zlen session_id) ++ session_id).

Definition decode_connection_header `{PtrWidth} (buf : list byte)
  : RpcResult (Z * Z * Z * list byte) :=
  if zlen buf <? A13_CONN_HEADER_LEN
  then Err (Protocol "RpcConnectionHeader truncated")
  else
    let? version := rd_u32 buf 0 in
    let? options := index_byte buf 4 in
    let? fd_mode := if version =? PROTOCOL_V0 then Ok 0
                    else let? b := index_byte buf 5 in Ok (Z_of_byte b) in
    if negb (fd_mode_known fd_mode)
    then Err (Protocol "unknown RpcConnectionHeader.fileDescriptorTransportMode")
    else
      let? b14 := index_byte buf 14 in
      let? b15 := index_byte buf 15 in
      let id_size := of_le [b14; b15] in
      let? end_ := ok_or (checked_add A13_CONN_HEADER_LEN id_size)
                         (Protocol "sessionIdSize overflow") in
      let? session_id := ok_or (get_range buf A13_CONN_HEADER_LEN end_)
                               (Protocol "session id truncated") in
      if negb (zlen buf =? end_)
      then Err (Protocol "RpcConnectionHeader length mismatch")
      else Ok (version, Z_of_byte options, fd_mode, session_id).

Definition encode_new_session_response (v : Z) : list byte := to_le 4 v ++ zeros 4.

Definition decode_new_session_response `{PtrWidth} (buf : list byte) : RpcResult Z :=
  if zlen buf <? A13_NEW_SESSION_RESP_LEN
  then Err (Protocol "RpcNewSessionResponse truncated")
  else
    let? version := rd_u32 buf 0 in
    if negb (is_supported_protocol_version version)
    then Err (Protocol "unsupported RPC wire protocol version")
    else Ok version.

Definition encode_connection_init : list byte := CONN_INIT_OKAY ++ zeros 4.

Definition decode_connection_init (buf : list byte) : RpcResult unit :=
  if zlen buf <? A13_CONN_INIT_LEN
  then Err (Protocol "RpcOutgoingConnectionInit truncated")
  else
    if negb (bool_decide (take 4 buf = CONN_INIT_OKAY))
    then Err (Protocol "bad RpcOutgoingConnectionInit msg")
    else Ok tt.

(** * Parcel data and object table *)

Definition encode_data_and_table (v : Z) (data : list byte) (positions : list Z)
  : RpcResult (list byte) :=
  if negb (has_object_table v) then
    if negb (bool_decide (positions = []))
    then Err (Protocol "v0 wire has no object table (objects need protocol version >= 1)")
    else Ok data
  else Ok (data ++ concat (to_le 4 <$> positions)).

(** [chunks_exact(4).map(u32::from_le_bytes)]. *)
Fixpoint u32_table (bs : list byte) : list Z :=
  match bs with
  | a :: b :: c :: d :: tl => of_le [a; b; c; d] :: u32_table tl
  | _ => []
  end.

Definition split_data_and_table (v : Z) (rest : list byte) (parcel_data_size : Z)
  : RpcResult (list byte * list Z) :=
  if negb (has_object_table v) then Ok (rest, [])
  else if zlen rest <? parcel_data_size
  then Err (Protocol "parcelDataSize larger than available bytes")
  else
    let data := ztake parcel_data_size rest in
    let table_bytes := zdrop parcel_data_size rest in
    if negb (zlen table_bytes mod 4 =? 0)
    then Err (Protocol "object table byte size not a multiple of 4")
    else Ok (data, u32_table table_bytes).

(** * The codec *)

Section Codec.
Context `{PtrWidth}.

Definition a13_encode_transact (c : Android13PlusCodec) (txn : WireTransaction)
  : RpcResult (list byte) :=
  let table_bytes :=
    if has_object_table (version c) then 4 * zlen (txn_positions txn) else 0 in
  let body_len := A13_TXN_FIXED_LEN + zlen (txn_data txn) + table_bytes in
  let? h := header CMD_TRANSACT body_len in
  let parcel_size :=
    if version c =? PROTOCOL_V0 then 0 else wrap_u 32 (zlen (txn_data txn)) in
  let? tail := encode_data_and_table (version c) (txn_data txn) (txn_positions txn) in
  Ok (h ++ encode_addr (address txn) ++ to_le 4 (code txn) ++ to_le 4 (flags txn)
        ++ to_le 8 (async_number txn) ++ to_le 4 parcel_size ++ zeros 12 ++ tail).

Definition a13_encode_reply (c : Android13PlusCodec) (reply : WireReply)
  : RpcResult (list byte) :=
  let fixed := reply_fixed_len (version c) in
  let table_bytes :=
    if has_object_table (version c) then 4 * zlen (reply_positions reply) else 0 in
  let body_len := fixed + zlen (reply_data reply) + table_bytes in
  let? h := header CMD_REPLY body_len in
  let size :=
    if negb (version c =? PROTOCOL_V0)
    then to_le 4 (wrap_u 32 (zlen (reply_data reply))) ++ zeros 12 else [] in
  let? tail := encode_data_and_table (version c) (reply_data reply)
                                     (reply_positions reply) in
  Ok (h ++ to_le 4 (status reply) ++ size ++ tail).

Definition a13_encode_dec_strong (addr : RpcAddress) : RpcResult (list byte) :=
  let? h := expect_ok (header CMD_DEC_STRONG A13_DEC_STRONG_LEN) in
  Ok (h ++ encode_addr addr ++ to_le 4 1 ++ to_le 4 0).

Definition a13_decode_transact (c : Android13PlusCodec) (body : list byte)
  : RpcResult WireMessage :=
  if zlen body <? A13_TXN_FIXED_LEN
  then Err (Protocol "RpcWireTransaction truncated")
  else
    let? address := decode_addr body 0 in
    let? code := rd_u32 body A13_ADDR_LEN in
    let? flags := rd_u32 body (A13_ADDR_LEN + 4) in
    let? async_number := rd_u64 body (A13_ADDR_LEN + 8) in
    let? parcel_data_size := rd_u32 body (A13_ADDR_LEN + 16) in
    let? rest := index_from body A13_TXN_FIXED_LEN in
    let? (data, positions) := split_data_and_table (version c) rest parcel_data_size in
    Ok (Transact (mkTxn address code flags async_number data positions)).

Definition a13_decode_reply (c : Android13PlusCodec) (body : list byte)
  : RpcResult WireMessage :=
  let fixed := reply_fixed_len (version c) in
  if zlen body <? fixed then Err (Protocol "RpcWireReply truncated")
  else
    let? status := rd_u32 body 0 in
    let? parcel_data_size :=
      if has_object_table (version c) then rd_u32 body 4 else Ok 0 in
    let? rest := index_from body fixed in
    let? (data, positions) := split_data_and_table (version c) rest parcel_data_size in
    Ok (Reply (mkReply (wrap_i 32 status) data positions)).

Definition a13_decode_dec_strong (body : list byte) : RpcResult WireMessage :=
  if negb (zlen body =? A13_DEC_STRONG_LEN)
  then Err (Protocol "RpcDecStrong body != 16 bytes")
  else
    let? address := decode_addr body 0 in
    let? amount := rd_u32 body A13_ADDR_LEN in
    Ok (DecStrong address amount).

Definition a13_decode_message (c : Android13PlusCodec) (frame : list byte)
  : RpcResult WireMessage :=
  let? (command, body) := split_header frame in
  if command =? CMD_TRANSACT then a13_decode_transact c body
  else if command =? CMD_REPLY then a13_decode_reply c body
  else if command =? CMD_DEC_STRONG then a13_decode_dec_strong body
  else Err (Protocol "unknown RpcWireHeader.command").

Definition a13_encode_session_preamble (c : Android13PlusCodec) (session_id : Z)
  : RpcResult (list byte) :=
  expect_ok (encode_connection_header c false FD_MODE_NONE []).

Definition a13_decode_session_preamble (buf : list byte) : RpcResult Z :=
  let? v := decode_new_session_response buf in
  Ok (wrap_i 32 v).

Definition A13Codec (c : Android13PlusCodec) : WireCodec := {|
  encode_transact := a13_encode_transact c;
  encode_reply := a13_encode_reply c;
  encode_dec_strong := a13_encode_dec_strong;
  decode_message := a13_decode_message c;
  encode_session_preamble := a13_encode_session_preamble c;
  decode_session_preamble := a13_decode_session_preamble
|}.
End Codec.

(** * AOSP framing *)

(** [read_exact_raw]: unlike [read_header] it does not retry an interrupted
    call. *)
Definition read_exact_raw (n : Z) (s : stream) : RpcResult (list byte) * stream :=
  fill_loop
    (fun none_yet => if none_yet then PeerClosed else Truncated)
    (fun none_yet e =>
       Some (if decide (kind e = TimedOutKind)
             then (if none_yet then Timeout else Truncated)
             else rpc_of_io e))
    s n [].

(** [write_aosp_message]: the bytes that went to the stream. *)
Definition write_aosp_message (w : list byte -> option io_error) (msg : list byte)
  : RpcResult (list byte) :=
  if zlen msg <? WIRE_HEADER_LEN
  then Err (Protocol "message shorter than RpcWireHeader")
  else if MAX_FRAME_LEN <? zlen msg - WIRE_HEADER_LEN
  then Err (FrameTooLarge (zlen msg - WIRE_HEADER_LEN) MAX_FRAME_LEN)
  else match w msg with Some e => Err (rpc_of_io e) | None => Ok msg end.

Definition mid_message (e : RpcError) : RpcError :=
  match e with
  | Timeout | PeerClosed => Truncated
  | other => other
  end.

(** [header[4..8]]; the header is 16 bytes. *)
Definition body_size_of (header : list byte) : Z := of_le (take 4 (drop 4 header)).

Definition read_aosp_message : M stream RpcError (list byte) :=
  let* header := read_exact_raw WIRE_HEADER_LEN in
  let body_size := body_size_of header in
  if MAX_FRAME_LEN <? body_size then throw (FrameTooLarge body_size MAX_FRAME_LEN)
  else if 0 <? body_size then
    let* body := (fun s => let (r, s) := read_exact_raw body_size s in
                           (map_err mid_message r, s)) in
    ret (header ++ body)
  else ret header.

(** * The connection handshake *)

(** One end of a [Read + Write] stream: what its reads will give, what it has
    written, and the outcomes of its next writes (a success when the script is
    exhausted). *)
Record endpoint : Type := mkEnd {
  rx : stream;
  tx : list byte;
  tx_script : list (option io_error)
}.

Definition ep_read (n : Z) : M endpoint RpcError (list byte) :=
  fun ep =>
    let (r, s) := read_exact_raw n (rx ep) in
    (r, mkEnd s (tx ep) (tx_script ep)).

Definition write_all_raw (buf : list byte) : M endpoint RpcError unit :=
  fun ep =>
    match tx_script ep with
    | Some e :: script => (Err (rpc_of_io e), mkEnd (rx ep) (tx ep) script)
    | None :: script => (Ok tt, mkEnd (rx ep) (tx ep ++ buf) script)
    | [] => (Ok tt, mkEnd (rx ep) (tx ep ++ buf) [])
    end.

Section Handshake.
Context `{PtrWidth}.

Definition client_connect_with_id (max_version : Z) (incoming : bool) (fd_mode : Z)
    (session_id : list byte) : M endpoint RpcError Android13PlusCodec :=
  let* hdr_codec := lift (with_version max_version) in
  let* header := lift (encode_connection_header hdr_codec incoming fd_mode session_id) in
  let* _ := write_all_raw header in
  let requesting_new_session := bool_decide (session_id = []) in
  let* _ :=
    (if incoming then
       let* init := ep_read A13_CONN_INIT_LEN in
       lift (decode_connection_init init)
     else write_all_raw encode_connection_init) in
  if requesting_new_session then
    let* resp := ep_read A13_NEW_SESSION_RESP_LEN in
    let* negotiated := lift (decode_new_session_response resp) in
    if max_version <? negotiated
    then throw (Protocol "server upgraded the protocol version past the client cap")
    else if negotiated =? version hdr_codec then ret hdr_codec
    else lift (with_version negotiated)
  else ret hdr_codec.

Definition client_connect (max_version : Z) (incoming : bool) (fd_mode : Z)
  : M endpoint RpcError Android13PlusCodec :=
  client_connect_with_id max_version incoming fd_mode [].

Definition server_accept (server_max_version : Z)
  : M endpoint RpcError (Android13PlusCodec * Z * list byte * bool) :=
  let* head := ep_read A13_CONN_HEADER_LEN in
  let client_version := of_le (take 4 head) in
  let* options := lift (index_byte head 4) in
  let incoming := negb (Z.land (Z_of_byte options) CONN_OPTION_INCOMING =? 0) in
  let* b14 := lift (index_byte head 14) in
  let* b15 := lift (index_byte head 15) in
  let id_size := of_le [b14; b15] in
  let* session_id := (if 0 <? id_size then ep_read id_size else ret []) in
  let* fd_mode :=
    (if client_version =? PROTOCOL_V0 then ret FD_MODE_NONE
     else let* b := lift (index_byte head 5) in ret (Z_of_byte b)) in
  if negb (fd_mode_known fd_mode)
  then throw (Protocol "unknown RpcConnectionHeader.fileDescriptorTransportMode")
  else
    let negotiated := Z.min client_version server_max_version in
    let* codec := lift (with_version negotiated) in
    let requesting_new_session := bool_decide (session_id = []) in
    let* _ :=
      (if requesting_new_session
       then write_all_raw (encode_new_session_response negotiated) else ret tt) in
    if requesting_new_session && incoming
    then throw (Protocol "new-session request set RPC_CONNECTION_OPTION_INCOMING")
    else
      let* _ :=
        (if incoming then write_all_raw encode_connection_init
         else
           let* init := ep_read A13_CONN_INIT_LEN in
           lift (decode_connection_init init)) in
      ret (codec, fd_mode, session_id, incoming).
End Handshake.

(** * Lemmas of the codec *)

(** The addresses the 8-byte wire form carries: zero, and minted ones whose
    counter fits 32 bits. *)
Definition a13_carries (a : RpcAddress) : Prop :=
  a = addr_zero \/ exists c s, in_u 32 c /\ a = minted c s.

Lemma a13_carries_ok a : a13_carries a -> addr_ok a.
Proof. intros [-> | (c & s & _ & ->)]; auto with rsb. Qed.

Lemma zlen_encode_addr a : zlen (encode_addr a) = A13_ADDR_LEN.
Proof. unfold encode_addr, A13_ADDR_LEN. case_match; by zlens. Qed.

Lemma minted_low c s : in_u 32 c -> minted c s = mkAddr (to_le 4 c ++ zeros 4 ++ [tag s] ++ zeros 23).
Proof.
  intros Hc. unfold minted. rewrite (to_le_app 4 4).
  rewrite (Z.div_small c) by exact Hc. by rewrite to_le_0, <- app_assoc.
Qed.

Section Addr.
Context `{PtrWidth}.

Lemma decode_encode_addr a k :
  a13_carries a -> decode_addr (encode_addr a ++ k) 0 = Ok a.
Proof.
  unfold encode_addr. intros [-> | (c & s & Hc & ->)].
  - rewrite (proj2 (is_zero_true addr_zero) eq_refl).
    change (zeros A13_ADDR_LEN) with (to_le 4 0 ++ to_le 4 0).
    unfold decode_addr. rewrite <- app_assoc. rewrite rd_u32_here by done.
    rewrite rd_u32_skip by (zlens; unfold u32_max; lia).
    zlens. cbn [Z.of_nat Z.add Z.sub]. by rewrite rd_u32_here by done.
  - rewrite minted_nonzero. unfold as_wire_bytes. rewrite minted_byte8.
    assert (E : of_le (take 4 (addr_bytes (minted c s))) = c).
    { rewrite minted_low by done. cbn [addr_bytes].
      rewrite take_app_length' by (by rewrite length_to_le). by apply of_le_to_le_u. }
    rewrite E. unfold decode_addr. rewrite <- app_assoc.
    rewrite rd_u32_here by (destruct s; split; vm_compute; congruence).
    rewrite rd_u32_skip by (zlens; unfold u32_max; lia).
    zlens. change (0 + 4 - Z.of_nat 4) with 0. rewrite rd_u32_here by done.
    rewrite minted_low by done. by destruct s.
Qed.

Lemma decode_addr_safe buf off : decode_addr buf off <> Panic.
Proof. unfold decode_addr. by rd_cases. Qed.

Lemma decode_addr_range buf off a : decode_addr buf off = Ok a -> addr_ok a.
Proof.
  unfold decode_addr. intros E. inv_ok; try done; unfold addr_ok; cbn [addr_bytes];
    by zlens.
Qed.
End Addr.

Lemma u32_table_app w bs :
  length w = 4%nat -> u32_table (w ++ bs) = of_le w :: u32_table bs.
Proof. intros Hw. do 4 (destruct w as [| ? w]; [done |]). by destruct w. Qed.

Lemma u32_table_concat ps :
  Forall (in_u 32) ps -> u32_table (concat (to_le 4 <$> ps)) = ps.
Proof.
  induction 1 as [| p ps Hp _ IH]; [done |]. cbn [fmap list_fmap concat].
  rewrite u32_table_app by apply length_to_le. by rewrite IH, of_le_to_le_u.
Qed.

Lemma zlen_concat_le ps : zlen (concat (to_le 4 <$> ps)) = 4 * zlen ps.
Proof.
  induction ps as [| p ps IH]; [done |]. cbn [fmap list_fmap concat]. zlens. rewrite IH. lia.
Qed.

Lemma u32_table_typed bs : Forall (in_u 32) (u32_table bs).
Proof.
  induction bs as [bs IH] using (induction_ltof1 _ (@length byte)).
  destruct bs as [| a [| b [| c [| d bs]]]]; try constructor.
  - apply (of_le_bound [a; b; c; d]).
  - apply IH. unfold ltof. simpl. lia.
Qed.

Lemma split_encode v d ps tail n :
  Forall (in_u 32) ps -> (has_object_table v = true -> n = zlen d) ->
  encode_data_and_table v d ps = Ok tail -> split_data_and_table v tail n = Ok (d, ps).
Proof.
  intros Hps Hn. unfold encode_data_and_table, split_data_and_table.
  destruct (has_object_table v); cbn [negb].
  - intros [= <-]. rewrite Hn by done. rewrite (proj2 (Z.ltb_ge _ _)) by zlen_lia.
    rewrite zdrop_app_r, zdrop_0, ztake_app_l, ztake_all by lia.
    rewrite zlen_concat_le, (Z.mul_comm 4), Z_mod_mult. cbn [Z.eqb negb].
    by rewrite u32_table_concat.
  - case_bool_decide; cbn [negb]; [| done]. intros. by simplify_eq.
Qed.

Lemma split_table_typed v rest n d ps :
  split_data_and_table v rest n = Ok (d, ps) -> Forall (in_u 32) ps.
Proof.
  unfold split_data_and_table. intros. inv_ok; [constructor | apply u32_table_typed].
Qed.

Lemma zlen_u32_table bs : zlen bs mod 4 = 0 -> 4 * zlen (u32_table bs) = zlen bs.
Proof.
  induction bs as [bs IH] using (induction_ltof1 _ (@length byte)).
  destruct bs as [| a [| b [| c [| d bs]]]]; try done. intros Hm.
  change (u32_table _) with (of_le [a; b; c; d] :: u32_table bs). zlens.
  rewrite Z.mul_add_distr_l, IH; [lia | unfold ltof; simpl; lia |].
  replace (_ + _) with (zlen bs + 1 * 4) in Hm by lia. by rewrite Z_mod_plus_full in Hm.
Qed.

Lemma split_lengths v rest n d ps :
  0 <= n -> split_data_and_table v rest n = Ok (d, ps) ->
  zlen rest = zlen d + (if has_object_table v then 4 * zlen ps else 0) /\
  (has_object_table v = false -> ps = []).
Proof.
  intros Hn. unfold split_data_and_table. destruct (has_object_table v); cbn [negb].
  - case_leb; [done |]. case_leb; cbn [negb]; [| done]. intros [= <- <-].
    rewrite zlen_u32_table by done. rewrite zlen_ztake, zlen_zdrop by lia.
    split; [lia | done].
  - intros [= <- <-]. split; [lia | done].
Qed.

Lemma split_table_safe v rest n : split_data_and_table v rest n <> Panic.
Proof. unfold split_data_and_table. by repeat case_match. Qed.

Lemma zlen_encode_table v d ps tail :
  encode_data_and_table v d ps = Ok tail ->
  zlen tail = zlen d + (if has_object_table v then 4 * zlen ps else 0).
Proof.
  unfold encode_data_and_table. destruct (has_object_table v); cbn [negb].
  - intros [= <-]. zlens. by rewrite zlen_concat_le.
  - case_bool_decide; cbn [negb]; [| done]. intros. simplify_eq. lia.
Qed.

(** * The android-13+ codec keeps the laws *)

Section Laws.
Context `{PtrWidth} (c : Android13PlusCodec) (Hc : 0 <= version c).

Lemma table_version : has_object_table (version c) = negb (version c =? PROTOCOL_V0).
Proof.
  unfold has_object_table, PROTOCOL_V1, PROTOCOL_V0.
  destruct (Z.leb_spec 1 (version c)), (Z.eqb_spec (version c) 0); done || lia.
Qed.

Lemma parcel_size_word n fixed extra :
  0 <= n -> 0 <= fixed -> 0 <= extra -> fixed + n + extra <= MAX_FRAME_LEN ->
  in_u 32 n /\ wrap_u 32 n = n.
Proof.
  intros. assert (in_u 32 n).
  { unfold in_u, MAX_FRAME_LEN in *. change (2 ^ 32) with 4294967296. lia. }
  split; [done |]. by apply wrap_u_small.
Qed.

Lemma a13_body t tail n :
  a13_carries (address t) -> txn_typed t -> in_u 32 n ->
  (has_object_table (version c) = true -> n = zlen (txn_data t)) ->
  encode_data_and_table (version c) (txn_data t) (txn_positions t) = Ok tail ->
  a13_decode_transact c
    (encode_addr (address t) ++ to_le 4 (code t) ++ to_le 4 (flags t)
       ++ to_le 8 (async_number t) ++ to_le 4 n ++ zeros 12 ++ tail) = Ok (Transact t).
Proof.
  intros Ha (_ & Hco & Hf & Hn & Hps) Hu Hsz Etl. unfold a13_decode_transact.
  pose proof (zlen_encode_addr (address t)) as Hl. unfold A13_ADDR_LEN in Hl.
  unfold A13_TXN_FIXED_LEN, A13_ADDR_LEN.
  rewrite (proj2 (Z.ltb_ge _ _)) by (zlens; rewrite Hl; zlen_lia).
  rewrite decode_encode_addr by done.
  rewrite !(rd_u32_skip (encode_addr _)), (rd_u64_skip (encode_addr _))
    by (unfold u32_max; lia).
  rewrite Hl. change (8 - 8) with 0. rewrite rd_u32_here by done.
  rewrite !(rd_u32_skip (to_le 4 (code t))), (rd_u64_skip (to_le 4 (code t)))
    by (zlens; unfold u32_max; lia).
  zlens. change (8 + 4 - 8 - Z.of_nat 4) with 0. rewrite rd_u32_here by done.
  rewrite !rd_u64_skip by (zlens; unfold u32_max; lia).
  zlens. change (_ - _ - _ - _) with 0. rewrite rd_u64_here by done.
  rewrite !rd_u32_skip by (zlens; unfold u32_max; lia).
  zlens. change (_ - _ - _ - _ - _) with 0. rewrite rd_u32_here by done.
  rewrite index_from_ok by (zlens; rewrite Hl; zlen_lia).
  rewrite !app_assoc, zdrop_app_r, zdrop_0 by (zlens; rewrite ?Hl; lia).
  rewrite (split_encode _ _ _ _ _ Hps Hsz Etl). by destruct t.
Qed.

Lemma zlen_a13_body t tail n :
  encode_data_and_table (version c) (txn_data t) (txn_positions t) = Ok tail ->
  zlen (encode_addr (address t) ++ to_le 4 (code t) ++ to_le 4 (flags t)
       ++ to_le 8 (async_number t) ++ to_le 4 n ++ zeros 12 ++ tail)
  = A13_TXN_FIXED_LEN + zlen (txn_data t)
    + (if has_object_table (version c) then 4 * zlen (txn_positions t) else 0).
Proof.
  intros E%zlen_encode_table. zlens. rewrite E, zlen_encode_addr.
  unfold A13_TXN_FIXED_LEN, A13_ADDR_LEN. lia.
Qed.

(** The reply's size prefix, absent at v0. *)
Definition reply_size (r : WireReply) : list byte :=
  if negb (version c =? PROTOCOL_V0)
  then to_le 4 (wrap_u 32 (zlen (reply_data r))) ++ zeros 12 else [].

Lemma zlen_a13_reply r tail :
  encode_data_and_table (version c) (reply_data r) (reply_positions r) = Ok tail ->
  zlen (to_le 4 (status r) ++ reply_size r ++ tail)
  = reply_fixed_len (version c) + zlen (reply_data r)
    + (if has_object_table (version c) then 4 * zlen (reply_positions r) else 0).
Proof.
  intros E%zlen_encode_table. unfold reply_size, reply_fixed_len. zlens. rewrite E.
  destruct (version c =? PROTOCOL_V0); cbn [negb]; zlens; lia.
Qed.

Lemma a13_reply_body r tail :
  reply_typed r -> zlen (reply_data r) <= MAX_FRAME_LEN ->
  encode_data_and_table (version c) (reply_data r) (reply_positions r) = Ok tail ->
  a13_decode_reply c (to_le 4 (status r) ++ reply_size r ++ tail) = Ok (Reply r).
Proof.
  intros [Hs Hps] Hm Etl. pose proof (zlen_a13_reply r tail Etl) as Hl.
  unfold a13_decode_reply. pose proof (zlen_nonneg (reply_data r)).
  pose proof (zlen_nonneg (reply_positions r)).
  rewrite (proj2 (Z.ltb_ge _ _)) by (rewrite Hl; destruct (has_object_table _); lia).
  rewrite <- (to_le_mod 4 (status r)), rd_u32_here by (by apply wrap_u_range).
  change (_ mod _) with (wrap_u 32 (status r)).
  rewrite wrap_i_wrap_u, wrap_i_small by done.
  destruct (parcel_size_word (zlen (reply_data r)) 0 0) as [Hu Hw]; try lia.
  unfold reply_size, reply_fixed_len in *. rewrite table_version, Hw in *.
  destruct (version c =? PROTOCOL_V0) eqn:Ev; cbn [negb app] in *.
  - rewrite index_from_ok by zlen_lia.
    rewrite zdrop_app_r, zdrop_0 by (zlens; lia).
    rewrite (split_encode _ (reply_data r) (reply_positions r) tail _ Hps);
      [by destruct r | by rewrite table_version, Ev | done].
  - rewrite rd_u32_skip by (zlens; unfold u32_max; lia). zlens.
    change (4 - Z.of_nat 4) with 0. rewrite <- app_assoc, rd_u32_here by done.
    rewrite index_from_ok by zlen_lia.
    rewrite !app_assoc, zdrop_app_r, zdrop_0 by (zlens; lia).
    rewrite (split_encode _ (reply_data r) (reply_positions r) tail _ Hps);
      [by destruct r | done | done].
Qed.

Lemma a13_roundtrip_lemma m bs :
  message_typed m ->
  match m with
  | Transact t => a13_carries (address t)
  | Reply _ => True
  | DecStrong a amount => a13_carries a /\ amount = 1
  end ->
  @encode_message (A13Codec c) m = Ok bs -> a13_decode_message c bs = Ok m.
Proof.
  unfold encode_message, a13_decode_message.
  destruct m as [t | r | a amount]; cbn [encode_transact encode_reply encode_dec_strong A13Codec].
  - intros Ht Ha. unfold a13_encode_transact.
    destruct (header _ _) as [h | |] eqn:Eh; [| done | done].
    destruct (encode_data_and_table _ _ _) as [tl | |] eqn:Et; [| done | done].
    intros [= <-]. erewrite (split_header_header CMD_TRANSACT _ h); [| by split | | exact Eh].
    2: { by rewrite (zlen_a13_body t tl). }
    apply header_ok in Eh as [Hm _]. pose proof (zlen_nonneg (txn_data t)).
    pose proof (zlen_nonneg (txn_positions t)).
    destruct (parcel_size_word (zlen (txn_data t)) 0 0) as [Hu Hw]; try lia.
    { unfold A13_TXN_FIXED_LEN, A13_ADDR_LEN in Hm.
      destruct (has_object_table _); lia. }
    cmd_branch. rewrite Hw. apply a13_body; try done.
    + destruct (version c =? PROTOCOL_V0); [by split | done].
    + rewrite table_version. by destruct (version c =? PROTOCOL_V0).
  - intros Ht _. unfold a13_encode_reply. fold (reply_size r).
    destruct (header _ _) as [h | |] eqn:Eh; [| done | done].
    destruct (encode_data_and_table _ _ _) as [tl | |] eqn:Et; [| done | done].
    intros [= <-]. erewrite (split_header_header CMD_REPLY _ h); [| by split | | exact Eh].
    2: { by rewrite (zlen_a13_reply r tl). }
    apply header_ok in Eh as [Hm _]. cmd_branch. apply a13_reply_body; try done.
    pose proof (zlen_nonneg (reply_positions r)). unfold reply_fixed_len in Hm.
    destruct (has_object_table _), (_ =? _); lia.
  - intros [Ha _] [Hca ->]. unfold a13_encode_dec_strong.
    destruct (header _ _) as [h | |] eqn:Eh; cbn [expect_ok]; intros; simplify_eq.
    pose proof (zlen_encode_addr a) as Hl. unfold A13_ADDR_LEN in Hl.
    erewrite (split_header_header CMD_DEC_STRONG _ h); [| by split | | exact Eh].
    2: { zlens. by rewrite Hl. }
    cmd_branch. unfold a13_decode_dec_strong.
    rewrite (proj2 (Z.eqb_eq _ _)) by (zlens; by rewrite Hl). cbn [negb].
    rewrite decode_encode_addr by done. unfold A13_ADDR_LEN.
    rewrite rd_u32_skip by (unfold u32_max; lia). rewrite Hl. change (8 - 8) with 0.
    by rewrite rd_u32_here by done.
Qed.

Lemma a13_encode_safe m : @encode_message (A13Codec c) m <> Panic.
Proof.
  assert (Hh : forall a b, header a b <> Panic) by (intros; unfold header; by case_leb).
  assert (Ht : forall v d ps, encode_data_and_table v d ps <> Panic).
  { intros. unfold encode_data_and_table. by repeat case_match. }
  destruct m as [t | r | a n]; simpl; [| | done];
    [unfold a13_encode_transact | unfold a13_encode_reply];
    (destruct (header _ _) eqn:E; [| done | by eapply Hh in E]);
    (destruct (encode_data_and_table _ _ _) eqn:E2; [done | done | by eapply Ht in E2]).
Qed.

Lemma a13_encode_framed m bs : @encode_message (A13Codec c) m = Ok bs -> framed bs.
Proof.
  destruct m as [t | r | a n]; simpl.
  - unfold a13_encode_transact.
    destruct (header _ _) as [h | |] eqn:Eh; [| done | done].
    destruct (encode_data_and_table _ _ _) as [tl | |] eqn:Et; [| done | done].
    intros [= <-]. eapply framed_intro; [| | exact Eh]; [by split |].
    by rewrite (zlen_a13_body t tl).
  - unfold a13_encode_reply. fold (reply_size r).
    destruct (header _ _) as [h | |] eqn:Eh; [| done | done].
    destruct (encode_data_and_table _ _ _) as [tl | |] eqn:Et; [| done | done].
    intros [= <-]. eapply framed_intro; [| | exact Eh]; [by split |].
    by rewrite (zlen_a13_reply r tl).
  - unfold a13_encode_dec_strong.
    destruct (header _ _) as [h | |] eqn:Eh; cbn [expect_ok]; intros; simplify_eq.
    eapply framed_intro; [| | exact Eh]; [by split |].
    zlens. by rewrite zlen_encode_addr.
Qed.

Ltac a13_cases :=
  repeat
    (rd_cases;
     match goal with
     | |- context [match decode_addr ?b ?o with _ => _ end] =>
         pose proof (decode_addr_safe b o); destruct (decode_addr b o) eqn:?
     | |- context [match split_data_and_table ?v ?r ?n with _ => _ end] =>
         pose proof (split_table_safe v r n);
         destruct (split_data_and_table v r n) as [[? ?] | |] eqn:?
     | |- context [match index_from ?b ?n with _ => _ end] =>
         rewrite (index_from_ok b n)
           by (unfold A13_TXN_FIXED_LEN, A13_ADDR_LEN, reply_fixed_len in *;
               repeat case_leb; lia)
     | |- context [has_object_table ?v] => destruct (has_object_table v) eqn:?
     end; try done).

Lemma a13_decode_safe frame : a13_decode_message c frame <> Panic.
Proof.
  unfold a13_decode_message. pose proof (split_header_safe frame).
  destruct (split_header frame) as [[cmd b] | |]; [| done | done].
  unfold a13_decode_transact, a13_decode_reply, a13_decode_dec_strong. a13_cases.
Qed.

Lemma a13_decode_typed frame m : a13_decode_message c frame = Ok m -> message_typed m.
Proof.
  unfold a13_decode_message.
  destruct (split_header frame) as [[cmd b] | |]; [| done | done].
  unfold a13_decode_transact, a13_decode_reply, a13_decode_dec_strong. a13_cases;
    rd_cases; intros [= <-];
    repeat match goal with
           | |- message_typed _ => cbn [message_typed]
           | |- txn_typed _ =>
               unfold txn_typed; cbn [address code flags async_number txn_positions]
           | |- reply_typed _ => unfold reply_typed; cbn [status reply_positions]
           | |- _ /\ _ => split
           end;
    eauto using rd_u32_range, rd_u64_range, decode_addr_range, split_table_typed;
    by apply wrap_i_range.
Qed.

Lemma A13Codec_laws : WireCodecLaws (A13Codec c) a13_carries.
Proof.
  split.
  - apply a13_roundtrip_lemma.
  - intros m bs _. apply a13_encode_framed.
  - apply a13_encode_safe.
  - apply a13_decode_safe.
  - apply a13_decode_typed.
Qed.
End Laws.

(** * Lemmas of the framing *)

Lemma read_exact_raw_delivers n s bs rest a b :
  delivers_clean s bs rest -> bs = a ++ b -> n = zlen a ->
  exists s', read_exact_raw n s = (Ok a, s') /\ delivers_clean s' b rest.
Proof.
  intros Hd Heq ->. refine (fill_loop_delivers no_error _ _ s bs rest _ Hd a b _ [] Heq _);
    [by intros ? ? [] | done].
Qed.

Lemma read_exact_raw_eof n s bs :
  delivers_clean s bs [] -> zlen bs < n ->
  fst (read_exact_raw n s) = Err (if zlen bs =? 0 then PeerClosed else Truncated).
Proof.
  intros Hd Hn. unfold read_exact_raw. rewrite (fill_loop_eof no_error _ _ s bs []); try done.
  by intros ? ? [].
Qed.

Lemma read_exact_raw_length n s bs s' :
  0 <= n -> read_exact_raw n s = (Ok bs, s') -> zlen bs = n.
Proof.
  intros Hn E. eapply (fill_loop_length _ _ s n []); [by rewrite zlen_nil | exact E].
Qed.

Lemma body_size_framed cmd n tail : in_u 32 n ->
  body_size_of (to_le 4 cmd ++ to_le 4 n ++ tail) = n.
Proof.
  intros Hn. unfold body_size_of.
  rewrite drop_app_length' by (by rewrite length_to_le).
  rewrite take_app_length' by (by rewrite length_to_le). by apply of_le_to_le_u.
Qed.

(** A framed message, split the way the reader reads it. *)
Lemma framed_split msg :
  framed msg ->
  exists h body, msg = h ++ body /\ zlen h = WIRE_HEADER_LEN /\
    body_size_of h = zlen body /\ zlen body <= MAX_FRAME_LEN.
Proof.
  intros (cmd & body & -> & Hc & Hm).
  exists (to_le 4 cmd ++ to_le 4 (zlen body) ++ zeros 8), body.
  split_and!; [by rewrite <- !app_assoc | by zlens | | done].
  apply body_size_framed. unfold in_u, MAX_FRAME_LEN in *.
  change (2 ^ 32) with 4294967296. zlen_lia.
Qed.

Lemma read_aosp_delivers msg s more rest :
  framed msg -> delivers_clean s (msg ++ more) rest ->
  exists s', read_aosp_message s = (Ok msg, s') /\ delivers_clean s' more rest.
Proof.
  intros (h & body & -> & Hh & Hb & Hm)%framed_split Hd. rewrite <- app_assoc in Hd.
  destruct (read_exact_raw_delivers WIRE_HEADER_LEN _ _ _ _ _ Hd eq_refl)
    as (s1 & E1 & Hd1); [done |].
  unfold read_aosp_message. rewrite (bind_ok _ _ _ _ _ E1), Hb.
  rewrite (proj2 (Z.ltb_ge _ _)) by lia.
  destruct (Z.ltb_spec 0 (zlen body)) as [Hz | Hz].
  - destruct (read_exact_raw_delivers (zlen body) _ _ _ _ _ Hd1 eq_refl eq_refl)
      as (s2 & E2 & Hd2).
    unfold bind. rewrite E2. simpl. unfold ret. eauto.
  - assert (body = []) as -> by (apply zlen_zero_nil; zlen_lia).
    rewrite app_nil_r. unfold ret. eauto.
Qed.

(** * Lemmas of the handshake *)

Section HandshakeLemmas.
Context `{PtrWidth}.

Lemma delivers_clean_nil s : delivers_clean s [] [] -> s = [].
Proof.
  intros Hd. remember ([] : list byte) as bs eqn:E in Hd.
  destruct Hd as [| ? ? ? ? [] ? | c ? ? ? Hc ?]; [done |].
  by apply app_eq_nil in E as [-> _].
Qed.

Lemma ep_read_delivers n s a b t scr :
  delivers_clean s (a ++ b) [] -> n = zlen a ->
  exists s', ep_read n (mkEnd s t scr) = (Ok a, mkEnd s' t scr) /\ delivers_clean s' b [].
Proof.
  intros Hd Hn. destruct (read_exact_raw_delivers n s _ _ a b Hd eq_refl Hn) as (s' & E & Hd').
  exists s'. unfold ep_read. simpl. by rewrite E.
Qed.

(** The fixed 16 bytes of the connection header. *)
Definition conn_head (c : Android13PlusCodec) (incoming : bool) (fd_mode n : Z) : list byte :=
  to_le 4 (version c) ++ to_le 1 (if incoming then CONN_OPTION_INCOMING else 0)
    ++ (if version c =? PROTOCOL_V0 then zeros 9 else to_le 1 fd_mode ++ zeros 8)
    ++ to_le 2 n.

Lemma encode_connection_header_ok c incoming fd_mode id :
  zlen id < 2 ^ 16 ->
  encode_connection_header c incoming fd_mode id
  = Ok (conn_head c incoming fd_mode (zlen id) ++ id).
Proof.
  intros Hl. unfold encode_connection_header, conn_head.
  rewrite (proj2 (Z.ltb_lt _ _)) by done. cbn [negb]. by rewrite <- !app_assoc.
Qed.

Lemma zlen_conn_head c incoming fd_mode n : zlen (conn_head c incoming fd_mode n) = 16.
Proof. unfold conn_head. by destruct (version c =? PROTOCOL_V0); zlens. Qed.

Lemma conn_head_version c incoming fd_mode n :
  in_u 32 (version c) -> of_le (take 4 (conn_head c incoming fd_mode n)) = version c.
Proof.
  intros Hv. unfold conn_head. rewrite take_app_length' by (by rewrite length_to_le).
  by apply of_le_to_le_u.
Qed.

Lemma conn_head_bytes c incoming fd_mode n :
  exists b14 b15, index_byte (conn_head c incoming fd_mode n) 14 = Ok b14 /\
  index_byte (conn_head c incoming fd_mode n) 15 = Ok b15 /\ to_le 2 n = [b14; b15] /\
  index_byte (conn_head c incoming fd_mode n) 4
    = Ok (byte_of_Z (if incoming then CONN_OPTION_INCOMING else 0)) /\
  index_byte (conn_head c incoming fd_mode n) 5
    = Ok (if version c =? PROTOCOL_V0 then x00 else byte_of_Z fd_mode).
Proof.
  exists (byte_of_Z n), (byte_of_Z (n / 256)). unfold conn_head.
  rewrite !to_le_S, !to_le_O. change (zeros 9) with (replicate 9 x00).
  change (zeros 8) with (replicate 8 x00). by destruct (version c =? PROTOCOL_V0).
Qed.

Lemma supported_u32 v : 0 <= v -> is_supported_protocol_version v = true -> in_u 32 v.
Proof.
  unfold is_supported_protocol_version, in_u. intros Hv Hs.
  apply orb_true_iff in Hs as [Hs%Z.leb_le | Hs%Z.eqb_eq];
    unfold SUPPORTED_MAX_VERSION, PROTOCOL_V2,
      RPC_WIRE_PROTOCOL_VERSION_EXPERIMENTAL in *; lia.
Qed.

Lemma with_version_ok v : is_supported_protocol_version v = true -> with_version v = Ok (mkA13 v).
Proof. unfold with_version. by intros ->. Qed.

Lemma new_session_response_roundtrip v :
  0 <= v -> is_supported_protocol_version v = true ->
  decode_new_session_response (encode_new_session_response v) = Ok v.
Proof.
  intros Hv Hs. unfold decode_new_session_response, encode_new_session_response.
  rewrite (proj2 (Z.ltb_ge _ _)) by (by zlens).
  rewrite rd_u32_here by (by apply supported_u32). by rewrite Hs.
Qed.

Lemma connection_init_roundtrip : decode_connection_init encode_connection_init = Ok tt.
Proof. vm_compute. reflexivity. Qed.

(** What each side writes, by cell of the handshake. *)
Definition client_bytes (hdr : list byte) (incoming : bool) : list byte :=
  hdr ++ (if incoming then [] else encode_connection_init).
Definition server_bytes (v : Z) (new incoming : bool) : list byte :=
  (if new then encode_new_session_response v else [])
    ++ (if incoming then encode_connection_init else []).
End HandshakeLemmas.

Lemma exchange_init {A} (incoming : bool) s t (x : A) :
  delivers_clean s (if incoming then [] else encode_connection_init) [] ->
  (let* _ :=
     (if incoming then write_all_raw encode_connection_init
      else
        let* init := ep_read A13_CONN_INIT_LEN in
        lift (decode_connection_init init)) in
   ret x) (mkEnd s t [])
  = (Ok x, mkEnd [] (t ++ (if incoming then encode_connection_init else [])) []).
Proof.
  destruct incoming; intros Hd.
  - by apply delivers_clean_nil in Hd as ->.
  - rewrite <- (app_nil_r encode_connection_init) in Hd.
    destruct (ep_read_delivers A13_CONN_INIT_LEN _ _ _ t [] Hd) as (s' & E & Hd'); [done |].
    unfold bind at 1. rewrite (bind_ok _ _ _ _ _ E), connection_init_roundtrip.
    apply delivers_clean_nil in Hd' as ->. unfold lift, ret. by rewrite app_nil_r.
Qed.

Section HandshakeRuns.
Context `{PtrWidth} (cmax smax fd_mode : Z) (incoming : bool) (id : list byte).
Hypothesis cmax_ok : 0 <= cmax /\ is_supported_protocol_version cmax = true.
Hypothesis smax_ok : 0 <= smax.
Hypothesis negotiated_ok : is_supported_protocol_version (Z.min cmax smax) = true.
Hypothesis fd_ok : fd_mode_known fd_mode = true.
Hypothesis id_ok : zlen id < 2 ^ 16.
Hypothesis cell_ok : id = [] -> incoming = false.

Lemma fd_mode_byte : Z_of_byte (byte_of_Z fd_mode) = fd_mode.
Proof.
  rewrite Z_of_byte_of_Z. apply Z.mod_small. unfold fd_mode_known in fd_ok.
  unfold FD_MODE_NONE, FD_MODE_UNIX, FD_MODE_TRUSTY in *.
  destruct (Z.eqb_spec fd_mode 0), (Z.eqb_spec fd_mode 1), (Z.eqb_spec fd_mode 2);
    done || lia.
Qed.

Lemma client_run s :
  delivers_clean s (server_bytes (Z.min cmax smax) (bool_decide (id = [])) incoming) [] ->
  client_connect_with_id cmax incoming fd_mode id (mkEnd s [] []) =
  (Ok (mkA13 (if bool_decide (id = []) then Z.min cmax smax else cmax)),
   mkEnd [] (client_bytes (conn_head (mkA13 cmax) incoming fd_mode (zlen id) ++ id) incoming) []).
Proof.
  destruct cmax_ok as [Hc Hs]. unfold client_connect_with_id, client_bytes, server_bytes.
  intros Hd. rewrite with_version_ok by done.
  erewrite bind_ok by (unfold lift; reflexivity).
  rewrite encode_connection_header_ok by done.
  erewrite bind_ok by (unfold lift; reflexivity).
  erewrite bind_ok by reflexivity. cbn [rx tx app].
  destruct (bool_decide_reflect (id = [])) as [Hid | Hid].
  - rewrite (cell_ok Hid) in *. erewrite bind_ok by reflexivity. cbn [rx tx].
    destruct (ep_read_delivers A13_NEW_SESSION_RESP_LEN _ _ _
                ((conn_head (mkA13 cmax) false fd_mode (zlen id) ++ id)
                   ++ encode_connection_init) [] Hd)
      as (s' & E & Hd'); [by unfold encode_new_session_response; zlens |].
    rewrite (bind_ok _ _ _ _ _ E), new_session_response_roundtrip by (done || lia).
    erewrite bind_ok by (unfold lift; reflexivity).
    rewrite (proj2 (Z.ltb_ge _ _)) by lia. cbn [version].
    apply delivers_clean_nil in Hd' as ->.
    destruct (Z.eqb_spec (Z.min cmax smax) cmax) as [-> |]; [done |].
    by rewrite with_version_ok.
  - simpl in Hd. destruct incoming.
    + rewrite <- (app_nil_r encode_connection_init) in Hd.
      destruct (ep_read_delivers A13_CONN_INIT_LEN _ _ _
                  (conn_head (mkA13 cmax) true fd_mode (zlen id) ++ id) [] Hd)
        as (s' & E & Hd'); [done |].
      unfold bind at 1. rewrite (bind_ok _ _ _ _ _ E), connection_init_roundtrip.
      apply delivers_clean_nil in Hd' as ->. unfold lift, ret. by rewrite app_nil_r.
    + apply delivers_clean_nil in Hd as ->. reflexivity.
Qed.

Lemma read_session_id s t rest :
  delivers_clean s (id ++ rest) [] ->
  exists s', (if 0 <? zlen id then ep_read (zlen id) else ret []) (mkEnd s t [])
             = (Ok id, mkEnd s' t []) /\ delivers_clean s' rest [].
Proof.
  intros Hd. destruct (Z.ltb_spec 0 (zlen id)) as [Hz | Hz].
  - by apply (ep_read_delivers _ _ _ _ _ _ Hd).
  - exists s. assert (id = []) as Hid by (apply zlen_zero_nil; zlen_lia).
    rewrite Hid in Hd |- *. done.
Qed.

Lemma read_fd_mode ep :
  (if cmax =? PROTOCOL_V0 then ret FD_MODE_NONE
   else let* b := lift (Ok (if cmax =? PROTOCOL_V0 then x00 else byte_of_Z fd_mode)) in
        ret (Z_of_byte b)) ep
  = (@Ok RpcError Z (if cmax =? PROTOCOL_V0 then FD_MODE_NONE else fd_mode), ep : endpoint).
Proof. destruct (cmax =? PROTOCOL_V0); [done |]. unfold bind, lift, ret. by rewrite fd_mode_byte. Qed.

Lemma incoming_bit :
  negb (Z.land ((if incoming then CONN_OPTION_INCOMING else 0) mod 256)
               CONN_OPTION_INCOMING =? 0) = incoming.
Proof. by destruct incoming. Qed.

Lemma server_run s :
  delivers_clean s
    (client_bytes (conn_head (mkA13 cmax) incoming fd_mode (zlen id) ++ id) incoming) [] ->
  server_accept smax (mkEnd s [] []) =
  (Ok (mkA13 (Z.min cmax smax), if cmax =? PROTOCOL_V0 then FD_MODE_NONE else fd_mode,
       id, incoming),
   mkEnd [] (server_bytes (Z.min cmax smax) (bool_decide (id = [])) incoming) []).
Proof.
  destruct cmax_ok as [Hc Hs]. unfold server_accept, client_bytes, server_bytes.
  rewrite <- app_assoc. intros Hd. pose proof (zlen_nonneg id).
  destruct (ep_read_delivers A13_CONN_HEADER_LEN _ _ _ [] [] Hd) as (s1 & E1 & Hd1);
    [by rewrite zlen_conn_head |].
  rewrite (bind_ok _ _ _ _ _ E1). clear E1 Hd.
  destruct (conn_head_bytes (mkA13 cmax) incoming fd_mode (zlen id))
    as (b14 & b15 & E14 & E15 & En & E4 & E5).
  rewrite E4, E14, E15, E5, conn_head_version by (by apply supported_u32).
  cbn [version] in *. do 3 (erewrite bind_ok by (unfold lift; reflexivity)).
  rewrite <- En, of_le_to_le_u by (split; [lia | exact id_ok]).
  destruct (read_session_id _ [] _ Hd1) as (s2 & E2 & Hd2).
  rewrite (bind_ok _ _ _ _ _ E2), Z_of_byte_of_Z, incoming_bit.
  erewrite bind_ok by apply read_fd_mode.
  assert (fd_mode_known (if cmax =? PROTOCOL_V0 then FD_MODE_NONE else fd_mode) = true) as ->
    by (by destruct (cmax =? PROTOCOL_V0)).
  cbn [negb]. rewrite with_version_ok by done.
  erewrite bind_ok by (unfold lift; reflexivity).
  destruct (bool_decide_reflect (id = [])) as [Hid | Hid];
    (erewrite bind_ok by reflexivity); cbn [andb rx tx app].
  - rewrite (cell_ok Hid) in *. by apply (exchange_init false).
  - by rewrite exchange_init.
Qed.
End HandshakeRuns.

(** * Hostile peers *)

Section Hostile.
Context `{PtrWidth}.

(** A reader that never panics, and what its result is. *)
Lemma read_exact_raw_safe n s : fst (read_exact_raw n s) <> Panic.
Proof. apply fill_loop_safe. Qed.

Lemma ep_read_safe n ep : fst (ep_read n ep) <> Panic.
Proof.
  unfold ep_read. pose proof (read_exact_raw_safe n (rx ep)).
  by destruct (read_exact_raw n (rx ep)).
Qed.

Lemma ep_read_length n ep bs ep' : 0 <= n -> ep_read n ep = (Ok bs, ep') -> zlen bs = n.
Proof.
  unfold ep_read. intros Hn. destruct (read_exact_raw n (rx ep)) as [r s] eqn:E.
  intros [= -> <-]. by eapply read_exact_raw_length.
Qed.

Lemma write_all_raw_safe buf ep : fst (write_all_raw buf ep) <> Panic.
Proof. unfold write_all_raw. by repeat case_match. Qed.

Lemma index_byte_ok buf i : Z.of_nat i < zlen buf -> exists b, index_byte buf i = Ok b.
Proof.
  intros Hi. unfold index_byte. destruct (lookup_lt_is_Some_2 buf i) as [b ->]; [| eauto].
  unfold zlen in Hi. lia.
Qed.

Lemma with_version_inv v c : with_version v = Ok c -> c = mkA13 v /\ is_supported_protocol_version v = true.
Proof. unfold with_version. destruct (is_supported_protocol_version v); naive_solver. Qed.

Lemma with_version_safe v : with_version v <> Panic.
Proof. unfold with_version. by case_match. Qed.

Lemma decode_new_session_response_safe buf : decode_new_session_response buf <> Panic.
Proof. unfold decode_new_session_response. rd_cases. by case_match. Qed.

Lemma decode_connection_init_safe buf : decode_connection_init buf <> Panic.
Proof. unfold decode_connection_init. by repeat case_match. Qed.

Lemma lift_safe {S E A} (o : outcome E A) (s : S) : o <> Panic -> fst (lift o s) <> Panic.
Proof. done. Qed.
End Hostile.

#[export] Hint Resolve ep_read_safe write_all_raw_safe with_version_safe lift_safe
  decode_new_session_response_safe decode_connection_init_safe : rsb.
#[export] Hint Extern 1 (fst (ret _ _) <> Panic) => done : rsb.
#[export] Hint Extern 1 (fst (throw _ _) <> Panic) => done : rsb.

(** Walk a computation bind by bind: every part is safe. *)
Ltac bind_safe_walk :=
  repeat match goal with
         | |- fst (bind _ _ _) <> Panic =>
             apply bind_safe; [auto with rsb | intros ? ? ?]
         | |- fst ((if ?b then _ else _) _) <> Panic => destruct b eqn:?
         | _ => solve [auto with rsb]
         end.

(** Invert a computation that returned [Ok]. *)
Ltac bind_inv :=
  repeat match goal with
         | E : bind _ _ _ = (Ok _, _) |- _ =>
             apply bind_inv_ok in E as (? & ? & ? & E)
         | E : lift _ _ = (Ok _, _) |- _ => unfold lift in E; simplify_eq
         | E : ret _ _ = (Ok _, _) |- _ => unfold ret in E; simplify_eq
         | E : throw _ _ = (Ok _, _) |- _ => done
         | E : (if ?b then _ else _) _ = (Ok _, _) |- _ => destruct b eqn:?
         end.

Section HostileRuns.
Context `{PtrWidth}.

Lemma client_connect_safe cmax incoming fd_mode id ep :
  fst (client_connect_with_id cmax incoming fd_mode id ep) <> Panic.
Proof.
  unfold client_connect_with_id. bind_safe_walk.
  apply lift_safe. unfold encode_connection_header. by case_match.
Qed.

Lemma server_accept_safe smax ep : fst (server_accept smax ep) <> Panic.
Proof.
  unfold server_accept. apply bind_safe; [auto with rsb |]. intros head ep1 E.
  apply ep_read_length in E; [| done]. unfold A13_CONN_HEADER_LEN in E.
  destruct (index_byte_ok head 4) as [b4 ->]; [lia |].
  destruct (index_byte_ok head 5) as [b5 ->]; [lia |].
  destruct (index_byte_ok head 14) as [b14 ->]; [lia |].
  destruct (index_byte_ok head 15) as [b15 ->]; [lia |].
  bind_safe_walk.
Qed.
End HostileRuns.

(** * Properties *)

(** The body length of a message at a version. *)
Definition a13_body_len (c : Android13PlusCodec) (m : WireMessage) : Z :=
  match m with
  | Transact t =>
      A13_TXN_FIXED_LEN + zlen (txn_data t)
      + (if has_object_table (version c) then 4 * zlen (txn_positions t) else 0)
  | Reply r =>
      reply_fixed_len (version c) + zlen (reply_data r)
      + (if has_object_table (version c) then 4 * zlen (reply_positions r) else 0)
  | DecStrong _ _ => A13_DEC_STRONG_LEN
  end.

Definition positions_of (m : WireMessage) : list Z :=
  match m with
  | Transact t => txn_positions t
  | Reply r => reply_positions r
  | DecStrong _ _ => []
  end.

(** The messages the wire of version [version c] can carry: an address it can
    project, no object table at v0, one decrement, a body within the cap. *)
Definition a13_fits (c : Android13PlusCodec) (m : WireMessage) : Prop :=
  match m with
  | Transact t => a13_carries (address t)
  | Reply _ => True
  | DecStrong a amount => a13_carries a /\ amount = 1
  end /\
  (has_object_table (version c) = false -> positions_of m = []) /\
  a13_body_len c m <= MAX_FRAME_LEN.

Lemma encode_table_total v d ps :
  (has_object_table v = false -> ps = []) ->
  exists tail, encode_data_and_table v d ps = Ok tail.
Proof.
  intros Hp. unfold encode_data_and_table. destruct (has_object_table v); cbn [negb]; [eauto |].
  rewrite Hp by done. simpl. eauto.
Qed.

Lemma a13_encode_total `{PtrWidth} c m :
  a13_fits c m -> exists bs, @encode_message (A13Codec c) m = Ok bs.
Proof.
  intros (_ & Hp & Hl). destruct m as [t | r | a n]; simpl in *;
    unfold a13_encode_transact, a13_encode_reply, a13_encode_dec_strong;
    rewrite header_fits by (done || lia); cbn [expect_ok]; [| | by eexists].
  - destruct (encode_table_total _ (txn_data t) _ Hp) as [tl ->]. by eexists.
  - destruct (encode_table_total _ (reply_data r) _ Hp) as [tl ->]. by eexists.
Qed.

(** At every protocol version, a typed message that version can carry is
    encoded and decodes to itself: addresses, counters, payload and object
    table included. *)
Theorem a13_message_roundtrip `{PtrWidth} (c : Android13PlusCodec) (m : WireMessage) :
  0 <= version c -> message_typed m -> a13_fits c m ->
  exists bs, @encode_message (A13Codec c) m = Ok bs /\ framed bs /\
             a13_decode_message c bs = Ok m.
Proof.
  intros Hv Ht Hf. destruct (a13_encode_total c m Hf) as [bs E]. exists bs.
  split_and!; [done | by eapply a13_encode_framed |].
  apply a13_roundtrip_lemma; [done | done | | done]. apply Hf.
Qed.

Definition a13_sample : WireMessage :=
  Transact (mkTxn (minted 4294967295 Acceptor) 16777215 1 7 [x01; x02; x03; x04; x05; x06; x07; x08] [0; 4]).

Lemma a13_message_roundtrip_witness :
  exists bs, @encode_message (@A13Codec ptr32 (mkA13 2)) a13_sample = Ok bs /\ framed bs /\
             @a13_decode_message ptr32 (mkA13 2) bs = Ok a13_sample.
Proof.
  apply (@a13_message_roundtrip ptr32 (mkA13 2) a13_sample).
  - vm_compute. congruence.
  - eval_typed.
  - split_and!; [right; exists 4294967295, Acceptor; split; [split; vm_compute; congruence | done] | done |].
    vm_compute. congruence.
Defined.

Lemma a13_transact_len `{PtrWidth} c b m :
  a13_decode_transact c b = Ok m ->
  zlen b = a13_body_len c m /\ (has_object_table (version c) = false -> positions_of m = []).
Proof.
  unfold a13_decode_transact. case_leb; [done |].
  rewrite index_from_ok by (unfold A13_TXN_FIXED_LEN, A13_ADDR_LEN in *; lia).
  destruct (decode_addr b 0) as [a | |]; [| done | done].
  rd_cases. destruct (split_data_and_table _ _ _) as [[d ps] | |] eqn:Es; [| done | done].
  intros [= <-]. apply split_lengths in Es as [El Hp].
  - rewrite zlen_zdrop in El by (unfold A13_TXN_FIXED_LEN, A13_ADDR_LEN in *; lia).
    split; [simpl; lia | done].
  - match goal with E : rd_u32 b (_ + 16) = Ok _ |- _ => by apply rd_u32_range in E as [] end.
Qed.

Lemma a13_reply_len `{PtrWidth} c b m :
  a13_decode_reply c b = Ok m ->
  zlen b = a13_body_len c m /\ (has_object_table (version c) = false -> positions_of m = []).
Proof.
  unfold a13_decode_reply. case_leb; [done |].
  assert (0 <= reply_fixed_len (version c)) by (unfold reply_fixed_len; case_match; lia).
  rewrite index_from_ok by lia.
  destruct (rd_u32 b 0) as [st | |]; [| done | done].
  destruct (if has_object_table _ then _ else _) as [n | |] eqn:En; [| done | done].
  destruct (split_data_and_table _ _ _) as [[d ps] | |] eqn:Es; [| done | done].
  intros [= <-]. apply split_lengths in Es as [El Hp].
  - rewrite zlen_zdrop in El by lia. split; [simpl; lia | done].
  - destruct (has_object_table _); [by apply rd_u32_range in En as [] | by simplify_eq].
Qed.

(** Whatever bytes a peer sends, the android-13+ decoder returns without
    panicking, and what it accepts is well typed and exactly one frame: the
    header plus a body of the length the version prescribes for it. *)
Theorem a13_decode_sound `{PtrWidth} (c : Android13PlusCodec) (frame : list byte) :
  a13_decode_message c frame <> Panic /\
  forall m, a13_decode_message c frame = Ok m ->
    message_typed m /\ zlen frame = WIRE_HEADER_LEN + a13_body_len c m /\
    a13_body_len c m <= MAX_FRAME_LEN /\
    (has_object_table (version c) = false -> positions_of m = []).
Proof.
  split; [apply a13_decode_safe |]. intros m E.
  split; [by eapply a13_decode_typed |]. revert E. unfold a13_decode_message.
  destruct (split_header frame) as [[cmd b] | |] eqn:Eh; [| done | done].
  apply split_header_ok in Eh as (_ & Hm & Hl & _ & _).
  enough (Hb : forall m, (if cmd =? CMD_TRANSACT then a13_decode_transact c b
             else if cmd =? CMD_REPLY then a13_decode_reply c b
             else if cmd =? CMD_DEC_STRONG then a13_decode_dec_strong b
             else Err (Protocol "unknown RpcWireHeader.command")) = Ok m ->
           zlen b = a13_body_len c m /\
           (has_object_table (version c) = false -> positions_of m = [])).
  { intros E. destruct (Hb m E) as [<- Hp]. auto. }
  clear m. intros m. case_leb; [apply a13_transact_len |].
  case_leb; [apply a13_reply_len |]. case_leb; [| done].
  unfold a13_decode_dec_strong. case_leb; [| done]. cbn [negb].
  intros E. by inv_ok.
Qed.

(** Versions 1, 2 and EXPERIMENTAL share one framing: any two versions from
    1 up encode every message to the same bytes and decode every frame to the
    same message, so a v1 peer and a v2 peer understand each other. *)
Theorem a13_framing_stable `{PtrWidth} (c d : Android13PlusCodec)
    (m : WireMessage) (frame : list byte) :
  PROTOCOL_V1 <= version c -> PROTOCOL_V1 <= version d ->
  @encode_message (A13Codec c) m = @encode_message (A13Codec d) m /\
  a13_decode_message c frame = a13_decode_message d frame.
Proof.
  intros Hc Hd.
  assert (Ht : forall e, PROTOCOL_V1 <= version e -> has_object_table (version e) = true)
    by (intros; by apply Z.leb_le).
  assert (Hz : forall e, PROTOCOL_V1 <= version e -> (version e =? PROTOCOL_V0) = false)
    by (unfold PROTOCOL_V1, PROTOCOL_V0; intros; apply Z.eqb_neq; lia).
  unfold encode_message, a13_decode_message. simpl.
  unfold a13_encode_transact, a13_encode_reply, a13_decode_transact, a13_decode_reply,
    encode_data_and_table, split_data_and_table, reply_fixed_len.
  by rewrite !(Ht c), !(Ht d), !(Hz c), !(Hz d) by done.
Qed.

Lemma a13_framing_stable_witness :
  @encode_message (@A13Codec ptr64 (mkA13 1)) a13_sample
  = @encode_message (@A13Codec ptr64 (mkA13 RPC_WIRE_PROTOCOL_VERSION_EXPERIMENTAL)) a13_sample /\
  @a13_decode_message ptr64 (mkA13 1) []
  = @a13_decode_message ptr64 (mkA13 RPC_WIRE_PROTOCOL_VERSION_EXPERIMENTAL) [].
Proof.
  apply (@a13_framing_stable ptr64 (mkA13 1) (mkA13 RPC_WIRE_PROTOCOL_VERSION_EXPERIMENTAL));
    vm_compute; congruence.
Defined.

(** ** Two ends on one connection *)

(** What a side has written when it has read [bytes] and waits for more: it stops
    at the first read that wants a byte it does not have. *)
Definition wrote {A} (side : M endpoint RpcError A) (bytes : list byte) : list byte :=
  tx (snd (side (mkEnd (match bytes with [] => [] | _ => [RData bytes] end) [] []))).

(** One exchange: each side goes on with all the other has written so far. *)
Definition exchange {A B} (client : M endpoint RpcError A) (server : M endpoint RpcError B)
  (x : list byte * list byte) : list byte * list byte := (wrote client x.2, wrote server x.1).

Lemma delivered_whole bytes :
  delivers_clean (match bytes with [] => [] | _ => [RData bytes] end) bytes [].
Proof.
  destruct bytes as [| b l]; [apply del_done |].
  rewrite <- (app_nil_r (b :: l)) at 2. by apply (del_data (b :: l) [] []); [| apply del_done].
Qed.

(** The client writes all it has to say before it waits. *)
Lemma client_speaks_first `{PtrWidth} cmax fd_mode incoming id :
  is_supported_protocol_version cmax = true -> zlen id < 2 ^ 16 ->
  wrote (client_connect_with_id cmax incoming fd_mode id) []
  = client_bytes (conn_head (mkA13 cmax) incoming fd_mode (zlen id) ++ id) incoming.
Proof.
  intros Hs Hl. unfold wrote, client_connect_with_id, client_bytes. rewrite with_version_ok by done.
  erewrite bind_ok by (unfold lift; reflexivity).
  rewrite encode_connection_header_ok by done.
  erewrite bind_ok by (unfold lift; reflexivity).
  erewrite bind_ok by reflexivity. cbn [rx tx app]. destruct incoming; [by rewrite app_nil_r |].
  erewrite bind_ok by reflexivity. cbn [rx tx app]. by destruct (bool_decide _).
Qed.



(** Against any peer, any sequence of read results and any write failures,
    the client side of the handshake does not panic, and if it completes it runs
    a supported version no higher than the one it advertised, so a server can
    downgrade but never upgrade it. *)
Theorem client_never_upgraded `{PtrWidth} (cmax fd_mode : Z) (incoming : bool)
    (id : list byte) (ep : endpoint) :
  fst (client_connect_with_id cmax incoming fd_mode id ep) <> Panic /\
  forall c ep', client_connect_with_id cmax incoming fd_mode id ep = (Ok c, ep') ->
    is_supported_protocol_version (version c) = true /\ version c <= cmax.
Proof.
  split; [apply client_connect_safe |]. intros c ep' E.
  unfold client_connect_with_id in E. bind_inv;
    repeat match goal with
           | E : with_version _ = Ok _ |- _ => apply with_version_inv in E as [-> ?]
           | E : (_ <? _) = false |- _ => apply Z.ltb_ge in E
           end; by split.
Qed.

(** Against any peer the server side does not panic, and a connection it
    accepts has a supported version within its own limit and a known descriptor
    mode, and is never a new session on an incoming connection. *)
Theorem server_accept_sound `{PtrWidth} (smax : Z) (ep : endpoint) :
  fst (server_accept smax ep) <> Panic /\
  forall c fd_mode id incoming ep',
    server_accept smax ep = (Ok (c, fd_mode, id, incoming), ep') ->
    is_supported_protocol_version (version c) = true /\ version c <= smax /\
    fd_mode_known fd_mode = true /\ (id = [] -> incoming = false).
Proof.
  split; [apply server_accept_safe |]. intros c fd_mode id incoming ep' E.
  unfold server_accept in E. bind_inv;
    repeat match goal with
           | E : with_version _ = Ok _ |- _ => apply with_version_inv in E as [-> ?]
           | E : negb _ = false |- _ => apply negb_false_iff in E
           | E : _ && _ = false |- _ => apply andb_false_iff in E as [E | E]
           end; simplify_eq;
    (split_and!; [done | cbn [version]; lia | done |]); intros Hid;
    rewrite ?Hid in *; done.
Qed.
