(* ===== verification/Profile.v ===== *)
(** The wire profile of a session and its message loop
    (src/rsbinder/src/rpc/session.rs: [WireProfile], [send_msg], [recv_msg] and
    the encode and decode calls around them), for a connection that carries no
    descriptors: length-prefixed frames and the r34 codec, or AOSP framing and
    the android-13+ codec. The theorems use the codecs through their laws. *)

From Stdlib Require Import ZArith Lia Strings.Byte.
From stdpp Require Import base list strings.
From S2P Require Import Prelude Errors Address Transport Wire WireAndroid13.

Inductive WireProfile : Type :=
| ProfileR34
| ProfileAndroid13Plus (c : Android13PlusCodec).

Definition aosp_framing (p : WireProfile) : bool :=
  match p with ProfileR34 => false | ProfileAndroid13Plus _ => true end.

Definition wire_version (p : WireProfile) : option Z :=
  match p with ProfileR34 => None | ProfileAndroid13Plus c => Some (version c) end.

Definition records_binder_positions (p : WireProfile) : bool :=
  match wire_version p with Some v => PROTOCOL_V2 <=? v | None => false end.

Definition records_fd_positions (p : WireProfile) : bool :=
  match wire_version p with Some v => PROTOCOL_V1 <=? v | None => false end.

Section Profile.
Context `{PtrWidth}.

Definition codec (p : WireProfile) : WireCodec :=
  match p with
  | ProfileR34 => R34Codec
  | ProfileAndroid13Plus c => A13Codec c
  end.

(** [send_msg] with no descriptors: the bytes that went to the stream. *)
Definition send_msg (p : WireProfile) (w : list byte -> option io_error)
    (frame : list byte) : RpcResult (list byte) :=
  if aosp_framing p then write_aosp_message w frame else write_frame w frame.

Definition recv_msg (p : WireProfile) : M stream RpcError (list byte) :=
  if aosp_framing p then read_aosp_message else read_frame.

(** A message on its way out: encoded by the profile's codec, then sent. *)
Definition send_message (p : WireProfile) (w : list byte -> option io_error)
    (m : WireMessage) : RpcResult (list byte) :=
  let? frame := @encode_message (codec p) m in
  send_msg p w frame.

(** A message on its way in, as [serve_once_on_slot] and [client_transact]
    take one off the connection. *)
Definition recv_message (p : WireProfile) : M stream RpcError WireMessage :=
  let* frame := recv_msg p in
  lift (@decode_message (codec p) frame).

(** The receive loop, [n] times. *)
Fixpoint recv_messages (p : WireProfile) (n : nat) : M stream RpcError (list WireMessage) :=
  match n with
  | O => ret []
  | S n =>
      let* m := recv_message p in
      let* ms := recv_messages p n in
      ret (m :: ms)
  end.

(** * Lemmas *)

(** The addresses a profile carries, the errors its reads survive, and the
    profiles a session can have. *)
Definition profile_carries (p : WireProfile) : RpcAddress -> Prop :=
  match p with ProfileR34 => addr_ok | ProfileAndroid13Plus _ => a13_carries end.

Definition profile_skips (p : WireProfile) : io_error -> Prop :=
  match p with ProfileR34 => interrupted | ProfileAndroid13Plus _ => no_error end.

Definition profile_ok (p : WireProfile) : Prop :=
  match p with ProfileR34 => True | ProfileAndroid13Plus c => 0 <= version c end.

Lemma profile_laws p : profile_ok p -> WireCodecLaws (codec p) (profile_carries p).
Proof. destruct p; intros Hp; [apply R34Codec_laws | by apply A13Codec_laws]. Qed.

Definition sendable (p : WireProfile) (m : WireMessage) : Prop :=
  message_typed m /\
  match m with
  | Transact t => profile_carries p (address t)
  | Reply _ => True
  | DecStrong a amount => profile_carries p a /\ amount = 1
  end.

Lemma recv_msg_sent p w frame bs s more rest :
  framed frame -> send_msg p w frame = Ok bs ->
  delivers_with (profile_skips p) s (bs ++ more) rest ->
  exists s', recv_msg p s = (Ok frame, s') /\ delivers_with (profile_skips p) s' more rest.
Proof.
  intros Hf. unfold send_msg, recv_msg. destruct p as [| c]; cbn [aosp_framing profile_skips].
  - intros [Hl ->]%write_frame_ok Hd. by apply read_frame_delivers.
  - unfold write_aosp_message. intros E Hd. inv_ok. by apply read_aosp_delivers.
Qed.

Lemma recv_message_sent p w m bs s more rest :
  profile_ok p -> sendable p m -> send_message p w m = Ok bs ->
  delivers_with (profile_skips p) s (bs ++ more) rest ->
  exists s', recv_message p s = (Ok m, s') /\ delivers_with (profile_skips p) s' more rest.
Proof.
  intros Hp [Ht Hc]. pose proof (profile_laws p Hp) as L. unfold send_message.
  destruct (encode_message m) as [frame | |] eqn:Ee; [| done | done]. intros Es Hd.
  destruct (recv_msg_sent p w frame bs s more rest) as (s' & E & Hd'); try done.
  { exact (@codec_framed _ _ L m frame Ht Ee). }
  exists s'. split; [| done]. unfold recv_message. rewrite (bind_ok _ _ _ _ _ E).
  unfold lift. f_equal. exact (@codec_roundtrip _ _ L m frame Ht Hc Ee).
Qed.
End Profile.

(** * Properties *)

(** C40: On either profile, the messages a session sends (transactions, replies
    and reference drops, in any mix) come out of the peer's receive loop
    unchanged and in the order sent, however the byte stream is chunked, with
    the stream left exactly at what follows the last one. *)
Theorem session_messages_in_order `{PtrWidth} (p : WireProfile)
    (w : list byte -> option io_error) (ms : list WireMessage)
    (frames : list (list byte)) (s : stream) (more : list byte) (rest : stream) :
  profile_ok p -> Forall (sendable p) ms ->
  Forall2 (fun m f => send_message p w m = Ok f) ms frames ->
  delivers_with (profile_skips p) s (concat frames ++ more) rest ->
  exists s', recv_messages p (length ms) s = (Ok ms, s') /\
             delivers_with (profile_skips p) s' more rest.
Proof.
  intros Hp Hs Hf. revert s Hs.
  induction Hf as [| m f ms frames Hm Hf IH]; intros s Hs Hd; [by eexists |].
  apply Forall_cons in Hs as [Hs1 Hs2].
  cbn [concat] in Hd. rewrite <- app_assoc in Hd.
  destruct (recv_message_sent _ _ _ _ _ _ _ Hp Hs1 Hm Hd) as (s1 & E1 & Hd1).
  destruct (IH _ Hs2 Hd1) as (s2 & E2 & Hd2).
  exists s2. split; [| done]. cbn [length recv_messages].
  by rewrite (bind_ok _ _ _ _ _ E1), (bind_ok _ _ _ _ _ E2).
Qed.

Definition ok_bytes (r : RpcResult (list byte)) : list byte :=
  match r with Ok b => b | _ => [] end.

Lemma session_messages_in_order_witness :
  let p := ProfileAndroid13Plus (mkA13 PROTOCOL_V2) in
  let d := DecStrong (minted 3 Initiator) 1 in
  let f := ok_bytes (@send_message ptr64 p (fun _ => None) a13_sample) in
  let g := ok_bytes (@send_message ptr64 p (fun _ => None) d) in
  exists s', @recv_messages ptr64 p 2 [RData (f ++ take 5 g); RData (drop 5 g)] =
             (Ok [a13_sample; d], s') /\ delivers_clean s' [] [].
Proof.
  intros p d f g.
  apply (@session_messages_in_order ptr64 p (fun _ => None) [a13_sample; d] [f; g]).
  - vm_compute. congruence.
  - assert (forall c s, in_u 32 c -> a13_carries (minted c s)) as Hc
      by (intros; right; eauto).
    constructor; [split; [eval_typed | apply (Hc 4294967295); eval_typed] |].
    constructor; [split; [eval_typed | split; [apply (Hc 3); eval_typed | done]] | done].
  - constructor; [vm_compute; reflexivity |].
    constructor; [vm_compute; reflexivity | constructor].
  - cbn [concat]. rewrite !app_nil_r. rewrite <- (take_drop 5 g) at 3. rewrite app_assoc.
    apply (del_data (f ++ take 5 g)); [vm_compute; congruence |].
    rewrite <- (app_nil_r (drop 5 g)) at 2.
    apply (del_data (drop 5 g) [] [] []); [vm_compute; congruence | apply del_done].
Defined.

(** The object table is written only where the wire has one: a profile that
    records binder positions also records descriptor positions, and one that
    records any has a codec that carries them. *)
Lemma positions_only_with_table (p : WireProfile) :
  (records_binder_positions p = true -> records_fd_positions p = true) /\
  (records_fd_positions p = true ->
   exists v, wire_version p = Some v /\ has_object_table v = true).
Proof.
  unfold records_binder_positions, records_fd_positions, has_object_table.
  destruct p as [| c]; simpl; [done |]. unfold PROTOCOL_V2, PROTOCOL_V1. split.
  - intros E%Z.leb_le. apply Z.leb_le. lia.
  - eauto.
Qed.
