(* ===== verification/UnixSocket.v ===== *)
(** Messages with file descriptors over a Unix socket (src/rsbinder/src/rpc/transport/unix.rs: the sending and
    receiving halves of [UnixTransport]; src/rsbinder/src/rpc/wire_android13.rs:
    [write_aosp_message_with_fds], [read_aosp_message_with_fds]; src/rsbinder/src/rpc/session.rs: [send_msg] and
    [recv_msg] of a session that passes descriptors).

    A stream of the kernel is a list of bytes, and the descriptors of a [sendmsg] travel with its first byte.
    As unix(7) has it, a [recvmsg] returns bytes that were sent by several calls, but its bytes end before it would reach the descriptors
    of a second one. How much a call takes or gives is up to the kernel: the socket has a script with what each call
    will do, in order, and a call beyond the script is [Blocked]. *)

From Stdlib Require Import ZArith Lia Strings.Byte.
From stdpp Require Import base list strings.
From S2P Require Import Prelude Errors Transport Wire WireAndroid13 Profile.

(** * The socket *)

Definition MAX_FDS_PER_FRAME : Z := 64.

(** A byte and the descriptors that arrive with it. *)
Definition item : Type := byte * list Z.

(** What a [sendmsg] and a [recvmsg] do: take or give at most so many bytes, or fail. *)
Inductive SendEvent : Type :=
| Accepts (n : Z)
| SendErrno (e : io_error).

Inductive RecvEvent : Type :=
| Delivers (n : Z)
| RecvErrno (e : io_error).

(** One end: what is to come, what was sent, the scripts, the bytes read beyond a frame ([fd_recv_buf]), the descriptors this end has
    closed, and those the kernel had no room for. *)
Record Socket : Type := mkSocket {
  incoming : list item;
  outgoing : list item;
  sends : list SendEvent;
  recvs : list RecvEvent;
  fd_recv_buf : list byte;
  closed : list Z;
  lost : list Z
}.

(** Why a call has no result: an error, or it waits. *)
Inductive Stop : Type :=
| Failed (e : RpcError)
| Blocked.

Abbreviation N := (M Socket Stop).

Definition fail {A} (e : RpcError) : N A := throw (Failed e).

(** [OwnedFd::drop] of each. *)
Definition close_fds (fds : list Z) : N unit :=
  modify (fun s => mkSocket (incoming s) (outgoing s) (sends s) (recvs s) (fd_recv_buf s) (closed s ++ fds) (lost s)).

Definition set_leftover (b : list byte) (s : Socket) : Socket :=
  mkSocket (incoming s) (outgoing s) (sends s) (recvs s) b (closed s) (lost s).

(** The bytes of one [sendmsg], with its descriptors. *)
Definition attach (fds : list Z) (bs : list byte) : list item :=
  match bs with
  | [] => []
  | b :: bs => (b, fds) :: map (fun b => (b, [])) bs
  end.

(** At most [k] bytes, up to the descriptors of a second call. *)
Fixpoint grab (k : nat) (seen : bool) (s : list item) : list byte * list Z * list item :=
  match k, s with
  | S k, (b, f) :: s' =>
      if seen && negb (bool_decide (f = [])) then ([], [], s)
      else let '(bs, fs, r) := grab k (seen || negb (bool_decide (f = []))) s' in (b :: bs, f ++ fs, r)
  | _, _ => ([], [], s)
  end.

(** The loop around a call that was interrupted. *)
Fixpoint next_recv (l : list RecvEvent) : option RecvEvent * list RecvEvent :=
  match l with
  | [] => (None, [])
  | RecvErrno e :: l => if decide (kind e = Interrupted) then next_recv l else (Some (RecvErrno e), l)
  | ev :: l => (Some ev, l)
  end.

Definition set_in (i : list item) (l : list RecvEvent) (x : list Z) (s : Socket) : Socket :=
  mkSocket i (outgoing s) (sends s) l (fd_recv_buf s) (closed s) (lost s ++ x).

(** [recvmsg] into a buffer of [cap > 0] bytes with room for [MAX_FDS_PER_FRAME] descriptors: the bytes, the descriptors and
    [MSG_CTRUNC]. No byte at the end of the stream. *)
Definition recvmsg (cap : Z) : N ((list byte * list Z * bool) + io_error) := fun s =>
  match next_recv (recvs s) with
  | (None, l) => (Err Blocked, set_in (incoming s) l [] s)
  | (Some (RecvErrno e), l) => (Ok (inr e), set_in (incoming s) l [] s)
  | (Some (Delivers n), l) =>
      let '(bs, fs, r) := grab (Z.to_nat (Z.min (Z.max 1 n) cap)) false (incoming s) in
      (Ok (inl (bs, ztake MAX_FDS_PER_FRAME fs, MAX_FDS_PER_FRAME <? zlen fs)), set_in r l (zdrop MAX_FDS_PER_FRAME fs) s)
  end.

(** * Sending *)

Definition set_out (o : list item) (l : list SendEvent) (s : Socket) : Socket :=
  mkSocket (incoming s) o l (recvs s) (fd_recv_buf s) (closed s) (lost s).

(** The loop of the senders from byte [sent]: the descriptors go with the first byte. [on_zero] is what a call that takes
    nothing means. *)
Fixpoint send_loop (on_zero : RpcError) (fds : list Z) (buf : list byte) (sent : nat) (l : list SendEvent) (out : list item)
  : outcome Stop unit * (list SendEvent * list item) :=
  if (length buf <=? sent)%nat then (Ok tt, (l, out))
  else
    match l with
    | [] => (Err Blocked, ([], out))
    | SendErrno e :: l =>
        if decide (kind e = Interrupted) then send_loop on_zero fds buf sent l out
        else (Err (Failed (rpc_of_io e)), (l, out))
    | Accepts n :: l =>
        let part := take (Z.to_nat n) (drop sent buf) in
        if (length part =? 0)%nat then (Err (Failed on_zero), (l, out))
        else send_loop on_zero fds buf (sent + length part) l
               (out ++ attach (if (sent =? 0)%nat then fds else []) part)
    end.

Definition transmit (on_zero : RpcError) (fds : list Z) (buf : list byte) : N unit := fun s =>
  let '(r, (l, out)) := send_loop on_zero fds buf 0 (sends s) (outgoing s) in (r, set_out out l s).

(** [Write::write_all] and [flush] on a socket. *)
Definition stream_write_all : list byte -> N unit := transmit (Io io_error_other) [].

Definition send_raw (buf : list byte) : N unit := stream_write_all buf.

Definition frame_of (buf : list byte) : list byte := to_le 4 (wrap_u 32 (zlen buf)) ++ buf.

(** [write_frame] on the socket. *)
Definition send_frame (buf : list byte) : N unit :=
  if MAX_FRAME_LEN <? zlen buf then fail (FrameTooLarge (zlen buf) MAX_FRAME_LEN)
  else stream_write_all (frame_of buf).

Definition send_raw_with_fds (buf : list byte) (fds : list Z) : N unit :=
  if bool_decide (fds = []) then send_raw buf
  else if bool_decide (buf = []) then fail (Protocol "cannot attach fds to an empty RPC frame")
  else if MAX_FDS_PER_FRAME <? zlen fds then fail (Protocol "too many fds in one RPC frame")
  else if MAX_FRAME_LEN <? zlen buf then fail (FrameTooLarge (zlen buf) MAX_FRAME_LEN)
  else transmit PeerClosed fds buf.

Definition send_frame_with_fds (buf : list byte) (fds : list Z) : N unit :=
  if bool_decide (fds = []) then send_frame buf
  else if MAX_FDS_PER_FRAME <? zlen fds then fail (Protocol "too many fds in one RPC frame")
  else if MAX_FRAME_LEN <? zlen buf then fail (FrameTooLarge (zlen buf) MAX_FRAME_LEN)
  else transmit PeerClosed fds (frame_of buf).

Definition write_aosp_message_with_fds (msg : list byte) (fds : list Z) : N unit :=
  if zlen msg <? WIRE_HEADER_LEN then fail (Protocol "message shorter than RpcWireHeader")
  else if MAX_FRAME_LEN <? zlen msg - WIRE_HEADER_LEN
  then fail (FrameTooLarge (zlen msg - WIRE_HEADER_LEN) MAX_FRAME_LEN)
  else send_raw_with_fds msg fds.

(** * Receiving *)

Section Receiving.
(** [fcntl(F_SETFD, FD_CLOEXEC)] on a received descriptor. *)
Context (fcntl_setfd : Z -> option io_error).

Definition too_many : RpcError := Protocol "too many fds in one RPC frame".
Definition truncated_control : RpcError :=
  Protocol "SCM_RIGHTS control message truncated (too many fds in one message)".
Definition over_budget : RpcError :=
  Protocol "RPC message exceeded MAX_FDS_PER_FRAME (ancillary fd budget)".

(** The loop over the received descriptors: [fds] are kept so far, [more] is what the control message still has. An error drops
    both. *)
Fixpoint keep_fds (fds more : list Z) : N (list Z) :=
  match more with
  | [] => ret fds
  | fd :: more =>
      match fcntl_setfd fd with
      | Some e => let* _ := close_fds (fds ++ fd :: more) in fail (rpc_of_io e)
      | None =>
          let fds := fds ++ [fd] in
          if MAX_FDS_PER_FRAME <? zlen fds then let* _ := close_fds (fds ++ more) in fail too_many
          else keep_fds fds more
      end
  end.

Definition recv_raw_with_fds (cap : Z) : N (list byte * list Z) :=
  let* r := recvmsg cap in
  match r with
  | inr e => fail (if is_timeout e then Timeout else rpc_of_io e)
  | inl (bs, more, ctrunc) =>
      if ctrunc : bool then let* _ := close_fds more in fail truncated_control
      else let* fds := keep_fds [] more in ret (bs, fds)
  end.

(** The closure [fill]; [fds] and [total_read] are its captures, and an error drops the former. A pass makes one call, so
    the calls of the script are fuel enough. *)
Fixpoint fill (fuel : nat) (want : Z) (got : list byte) (fds : list Z) (total : Z) : N (list byte * list Z * Z) :=
  if want <=? zlen got then ret (got, fds, total)
  else
    match fuel with
    | O => panic
    | S fuel => fun s =>
        match recv_raw_with_fds (want - zlen got) s with
        | (Ok (bs, more), s) =>
            let fds := fds ++ more in
            if MAX_FDS_PER_FRAME <? zlen fds then bind (close_fds fds) (fun _ => fail over_budget) s
            else if bool_decide (bs = [])
            then bind (close_fds fds) (fun _ => fail (if total =? 0 then PeerClosed else Truncated)) s
            else fill fuel want (got ++ bs) fds (total + zlen bs) s
        | (Err (Failed Timeout), s) =>
            bind (close_fds fds) (fun _ => fail (if total =? 0 then Timeout else Truncated)) s
        | (Err (Failed e), s) => bind (close_fds fds) (fun _ => fail e) s
        | (Err Blocked, s) => (Err Blocked, s)
        | (Panic, s) => (Panic, s)
        end
    end.

Definition fill_now (want : Z) (fds : list Z) (total : Z) : N (list byte * list Z * Z) := fun s =>
  fill (S (length (recvs s))) want [] fds total s.

Definition read_aosp_message_with_fds : N (list byte * list Z) :=
  let* (header, fds, total) := fill_now WIRE_HEADER_LEN [] 0 in
  let body_size := body_size_of header in
  if MAX_FRAME_LEN <? body_size
  then let* _ := close_fds fds in fail (FrameTooLarge body_size MAX_FRAME_LEN)
  else if 0 <? body_size then
    let* (body, fds, _) := fill_now body_size fds total in
    ret (header ++ body, fds)
  else ret (header, fds).

Definition take_leftover : N (list byte) := fun s => (Ok (fd_recv_buf s), s).

(** One pass of the loop of [recv_frame_with_fds] and the rest. *)
Fixpoint frame_loop (fuel : nat) (fds : list Z) : N (list byte * list Z) :=
  let* leftover := take_leftover in
  let len := of_le (ztake 4 leftover) in
  if (4 <=? zlen leftover) && (MAX_FRAME_LEN <? len)
  then let* _ := close_fds fds in fail (FrameTooLarge len MAX_FRAME_LEN)
  else if (4 <=? zlen leftover) && (4 + len <=? zlen leftover)
  then
    let frame := ztake len (zdrop 4 leftover) in
    let* _ := modify (set_leftover (zdrop (4 + len) leftover)) in
    ret (frame, fds)
  else
    match fuel with
    | O => panic
    | S fuel =>
        let untouched := bool_decide (leftover = []) && bool_decide (fds = []) in
        let* r := recvmsg 8192 in
        match r with
        | inr e =>
            let* _ := close_fds fds in
            fail (if is_timeout e then (if untouched then Timeout else Truncated) else rpc_of_io e)
        | inl (bs, more, ctrunc) =>
            if ctrunc : bool then let* _ := close_fds (fds ++ more) in fail truncated_control
            else
              let* fds := keep_fds fds more in
              if bool_decide (bs = []) then
                let* _ := close_fds fds in
                fail (if bool_decide (leftover = []) && bool_decide (fds = []) then PeerClosed else Truncated)
              else
                let* _ := modify (set_leftover (leftover ++ bs)) in
                frame_loop fuel fds
        end
    end.

Definition recv_frame_with_fds : N (list byte * list Z) := fun s =>
  frame_loop (S (length (recvs s))) [] s.

(** ** A session that passes descriptors *)

Definition send_msg_with_fds (p : WireProfile) (frame : list byte) (fds : list Z) : N unit :=
  if aosp_framing p then write_aosp_message_with_fds frame fds else send_frame_with_fds frame fds.

Definition recv_msg_with_fds (p : WireProfile) : N (list byte * list Z) :=
  if aosp_framing p then read_aosp_message_with_fds else recv_frame_with_fds.

Fixpoint send_all (p : WireProfile) (ms : list (list byte * list Z)) : N unit :=
  match ms with
  | [] => ret tt
  | (frame, fds) :: ms => let* _ := send_msg_with_fds p frame fds in send_all p ms
  end.

Fixpoint recv_all (p : WireProfile) (n : nat) : N (list (list byte * list Z)) :=
  match n with
  | O => ret []
  | S n => let* m := recv_msg_with_fds p in let* ms := recv_all p n in ret (m :: ms)
  end.
End Receiving.

(** * What a read takes off the stream *)

Definition bytes_of (t : list item) : list byte := map fst t.
Definition fds_of (t : list item) : list Z := concat (map snd t).

Lemma bytes_of_app t u : bytes_of (t ++ u) = bytes_of t ++ bytes_of u.
Proof. apply map_app. Qed.

Lemma fds_of_app t u : fds_of (t ++ u) = fds_of t ++ fds_of u.
Proof. unfold fds_of. by rewrite map_app, concat_app. Qed.

Lemma zlen_bytes_of t : zlen (bytes_of t) = zlen t.
Proof. unfold bytes_of, zlen. by rewrite length_map. Qed.

Lemma grab_spec k seen s bs fs r : grab k seen s = (bs, fs, r) ->
  exists t, s = t ++ r /\ bs = bytes_of t /\ fs = fds_of t /\ (length t <= k)%nat /\
    (seen = false -> (0 < k)%nat -> s <> [] -> t <> []).
Proof.
  revert seen s bs fs r. induction k as [| k IH]; intros seen s bs fs r.
  { intros [= <- <- <-]. exists []. split_and!; try done; cbn; lia. }
  destruct s as [| [b f] s]; cbn [grab].
  { intros [= <- <- <-]. exists []. split_and!; try done; cbn; lia. }
  destruct (seen && _) eqn:Hs.
  { intros [= <- <- <-]. exists []. split_and!; try done; [cbn; lia | by intros ->]. }
  destruct (grab k _ s) as [[bs' fs'] r'] eqn:E. intros [= <- <- <-].
  destruct (IH _ _ _ _ _ E) as (t & -> & -> & -> & Hl & _). exists ((b, f) :: t).
  split_and!; try done. cbn. lia.
Qed.

(** One call passes the descriptors of one sender's call. *)
Lemma grab_batch k seen s bs fs r m : grab k seen s = (bs, fs, r) -> 0 <= m ->
  Forall (fun i : item => zlen i.2 <= m) s -> (if seen then fs = [] else zlen fs <= m).
Proof.
  revert seen s bs fs r. induction k as [| k IH]; intros seen s bs fs r.
  { intros [= <- <- <-]. by destruct seen. }
  destruct s as [| [b f] s]; cbn [grab]; [intros [= <- <- <-]; by destruct seen |].
  destruct (seen && _) eqn:Hs; [intros [= <- <- <-]; by destruct seen |].
  destruct (grab k _ s) as [[bs' fs'] r'] eqn:E. intros [= <- <- <-] Hm [Hf Hl]%Forall_cons.
  specialize (IH _ _ _ _ _ E Hm Hl). destruct seen; cbn in Hs.
  - apply negb_false_iff, bool_decide_eq_true in Hs. subst f. cbn in *. done.
  - cbn in *. case_bool_decide; subst; cbn in *; [done |]. by rewrite IH, app_nil_r.
Qed.

(** * Every descriptor has an owner *)

Definition occurs (fd : Z) : list Z -> Z := tally (Z.eqb fd).

Lemma occurs_app fd l k : occurs fd (l ++ k) = occurs fd l + occurs fd k.
Proof. apply tally_app. Qed.

Lemma occurs_split fd n l : occurs fd l = occurs fd (ztake n l) + occurs fd (zdrop n l).
Proof. by rewrite <- occurs_app, ztake_zdrop. Qed.

(** Between [s] and [s'] the descriptors that came off the stream, and those in [before], went to [after], were
    closed, or had no room in a control message; nothing else was closed. *)
Definition squared (before after : list Z) (s s' : Socket) : Prop :=
  exists t, incoming s = t ++ incoming s' /\
  forall fd, occurs fd (fds_of t) + occurs fd before + occurs fd (closed s) + occurs fd (lost s)
             = occurs fd after + occurs fd (closed s') + occurs fd (lost s').

(** What a call that owns [before] does with descriptors: its result owns [own] of them, and an error none. *)
Definition accounts {A} (before : list Z) (own : A -> list Z) (m : N A) : Prop :=
  forall s r s', m s = (r, s') ->
  match r with
  | Ok a => squared before (own a) s s'
  | Err (Failed _) => squared before [] s s'
  | _ => True
  end.

Lemma squared_refl x s : squared x x s s.
Proof. exists []. split; [done |]. intros fd. cbn. lia. Qed.

Lemma squared_trans x y z s s1 s2 : squared x y s s1 -> squared y z s1 s2 -> squared x z s s2.
Proof.
  intros (t & E & H) (u & F & G). exists (t ++ u). split; [by rewrite E, F, app_assoc |].
  intros fd. specialize (H fd). specialize (G fd). rewrite fds_of_app, occurs_app. lia.
Qed.

Lemma squared_frame x y z s s1 : squared x y s s1 -> squared (z ++ x) (z ++ y) s s1.
Proof. intros (t & E & H). exists t. split; [done |]. intros fd. rewrite !occurs_app. specialize (H fd). lia. Qed.

Lemma squared_perm x x' y y' s s1 :
  (forall fd, occurs fd x = occurs fd x') -> (forall fd, occurs fd y = occurs fd y') -> squared x y s s1 -> squared x' y' s s1.
Proof. intros Hx Hy (t & E & H). exists t. split; [done |]. intros fd. rewrite <- Hx, <- Hy. apply H. Qed.

Lemma squared_close x l s s' : close_fds l s = (Ok tt, s') -> squared (x ++ l) x s s'.
Proof. intros [= <-]. exists []. split; [done |]. intros fd. cbn. rewrite !occurs_app. lia. Qed.

Lemma accounts_ret {A} (own : A -> list Z) a : accounts (own a) own (ret a).
Proof. intros s r s' [= <- <-]. apply squared_refl. Qed.

Lemma accounts_bind {A B} x (own : A -> list Z) (own' : B -> list Z) (m : N A) (k : A -> N B) :
  accounts x own m -> (forall a, accounts (own a) own' (k a)) -> accounts x own' (bind m k).
Proof.
  intros Hm Hk s r s'. unfold bind. destruct (m s) as [[a | e |] s1] eqn:E; specialize (Hm _ _ _ E); cbn in Hm.
  - intros Ek. specialize (Hk _ _ _ _ Ek). destruct r as [b | [e |] |]; try done; by eapply squared_trans.
  - intros [= <- <-]. done.
  - by intros [= <- <-].
Qed.

Lemma accounts_drop {A} x (own : A -> list Z) e : accounts x own (let* _ := close_fds x in fail e).
Proof.
  intros s r s'. unfold bind. destruct (close_fds x s) as [q s1] eqn:E. pose proof E as [= <- _].
  intros [= <- <-]. by apply (squared_close []).
Qed.

Lemma accounts_keep {A} x (own : A -> list Z) f (k : unit -> N A) :
  (forall s, incoming (f s) = incoming s /\ closed (f s) = closed s /\ lost (f s) = lost s) ->
  accounts x own (k tt) -> accounts x own (bind (modify f) k).
Proof.
  intros Hf Hk s r s' E. specialize (Hk (f s) r s' E). destruct (Hf s) as (E1 & E2 & E3).
  assert (H : forall y, squared x y (f s) s' -> squared x y s s').
  { intros y (t & Et & H). exists t. rewrite E1 in Et. rewrite E2, E3 in H. done. }
  destruct r as [b | [e |] |]; auto.
Qed.

Section Accounts.
Context (fcntl_setfd : Z -> option io_error).

Lemma accounts_recvmsg cap : accounts [] (fun r => match r with inl (_, fs, _) => fs | inr _ => [] end) (recvmsg cap).
Proof.
  intros s r s'. unfold recvmsg. destruct (next_recv (recvs s)) as [[[n | e] |] l].
  - destruct (grab _ false (incoming s)) as [[bs fs] q] eqn:E. intros [= <- <-].
    destruct (grab_spec _ _ _ _ _ _ E) as (t & Et & -> & -> & _). exists t. split; [done |]. intros fd. cbn.
    rewrite occurs_app, (occurs_split fd MAX_FDS_PER_FRAME (fds_of t)). lia.
  - intros [= <- <-]. exists []. split; [done |]. intros fd. cbn. rewrite app_nil_r. lia.
  - by intros [= <- <-].
Qed.

Lemma recvmsg_returns cap s e s' : recvmsg cap s <> (Err (Failed e), s').
Proof.
  unfold recvmsg. destruct (next_recv (recvs s)) as [[[n | x] |] l]; [| done..]. by destruct (grab _ _ _) as [[? ?] ?].
Qed.

Lemma accounts_keep_fds fds more : accounts (fds ++ more) (fun l => l) (keep_fds fcntl_setfd fds more).
Proof.
  revert fds. induction more as [| fd more IH]; intros fds; cbn [keep_fds].
  - rewrite app_nil_r. apply (accounts_ret (fun l => l)).
  - destruct (fcntl_setfd fd); [apply accounts_drop |].
    replace (fds ++ fd :: more) with ((fds ++ [fd]) ++ more) by (by rewrite <- app_assoc).
    destruct (_ <? _); [apply accounts_drop | apply IH].
Qed.

Lemma accounts_recv_raw cap : accounts [] snd (recv_raw_with_fds fcntl_setfd cap).
Proof.
  eapply accounts_bind; [apply accounts_recvmsg |]. intros [[[bs fs] []] | e].
  - apply accounts_drop.
  - eapply accounts_bind; [apply (accounts_keep_fds [] fs) |]. intros l. apply (accounts_ret snd (bs, l)).
  - intros s r s' [= <- <-]. apply squared_refl.
Qed.

Lemma accounts_fill fuel want got fds total :
  accounts fds (fun r => r.1.2) (fill fcntl_setfd fuel want got fds total).
Proof.
  revert got fds total. induction fuel as [| fuel IH]; intros got fds total; cbn [fill].
  { destruct (_ <=? _); [apply (accounts_ret (fun r => r.1.2) (got, fds, total)) |]. by intros s r s' [= <- <-]. }
  destruct (_ <=? _); [apply (accounts_ret (fun r => r.1.2) (got, fds, total)) |].
  intros s r s'. destruct (recv_raw_with_fds _ _ s) as [[[bs more] | [e |] |] s1] eqn:E;
    pose proof (accounts_recv_raw _ _ _ _ E) as Ha; cbn in Ha; try apply (squared_frame _ _ fds) in Ha.
  - assert (H : forall m, accounts (fds ++ more) (fun q => q.1.2) m -> m s1 = (r, s') ->
              match r with Ok a => squared fds a.1.2 s s' | Err (Failed _) => squared fds [] s s' | _ => True end).
    { intros m Hm Em. specialize (Hm _ _ _ Em). rewrite app_nil_r in Ha. destruct r as [x | [e |] |]; try done; by eapply squared_trans. }
    destruct (_ <? _); [apply H, accounts_drop |]. case_bool_decide; [apply H, accounts_drop | apply H, IH].
  - intros Em. rewrite !app_nil_r in Ha.
    assert (exists e', bind (close_fds fds) (fun _ => fail e') s1 = (r, s')) as (e' & Ee) by (destruct e; by eexists).
    specialize (accounts_drop fds (fun q : list byte * list Z * Z => q.1.2) e' s1 r s' Ee).
    destruct r as [x | [q |] |]; try done; by eapply squared_trans.
  - by intros [= <- <-].
  - by intros [= <- <-].
Qed.

Lemma accounts_fill_now want fds total : accounts fds (fun r => r.1.2) (fill_now fcntl_setfd want fds total).
Proof. intros s r s' E. by apply (accounts_fill _ _ _ _ _ _ _ _ E). Qed.

Lemma accounts_read_aosp : accounts [] snd (read_aosp_message_with_fds fcntl_setfd).
Proof.
  eapply accounts_bind; [apply accounts_fill_now |]. intros [[h fds] total]. cbn [fst snd].
  destruct (_ <? _); [apply accounts_drop |]. destruct (_ <? _); [| apply (accounts_ret snd (h, fds))].
  eapply accounts_bind; [apply accounts_fill_now |]. intros [[b l] q]. apply (accounts_ret snd (h ++ b, l)).
Qed.

Lemma accounts_frame_loop fuel fds : accounts fds snd (frame_loop fcntl_setfd fuel fds).
Proof.
  revert fds. induction fuel as [| fuel IH]; intros fds; cbn [frame_loop];
    (apply (accounts_bind _ (fun _ => fds)); [intros s r s' [= <- <-]; apply squared_refl | intros left]).
  all: destruct (_ && _); [apply accounts_drop |]; destruct (_ && _);
    [apply accounts_keep; [done |]; apply (accounts_ret snd (_, fds)) |].
  { by intros s r s' [= <- <-]. }
  apply (accounts_bind _ (fun r => fds ++ match r with inl (_, fs, _) => fs | inr _ => [] end)).
  { intros s r s' E. pose proof (accounts_recvmsg _ _ _ _ E) as Ha. destruct r as [a | [e |] |]; try done.
    - apply (squared_frame _ _ fds) in Ha. by rewrite app_nil_r in Ha.
    - by apply recvmsg_returns in E. }
  intros [[[bs more] []] | e]; [apply accounts_drop | | rewrite app_nil_r; apply accounts_drop].
  eapply accounts_bind; [apply accounts_keep_fds |]. intros l.
  case_bool_decide; [apply accounts_drop |]. apply accounts_keep; [done | apply IH].
Qed.

Lemma accounts_recv_msg p : accounts [] snd (recv_msg_with_fds fcntl_setfd p).
Proof.
  unfold recv_msg_with_fds. destruct (aosp_framing p); [apply accounts_read_aosp |].
  intros s r s' E. by apply (accounts_frame_loop _ _ _ _ _ E).
Qed.

(** ** The loops end *)

(** With a call of the script for every pass, the fuel is not used up. *)
Definition ends {A} (m : N A) (s : Socket) : Prop := fst (m s) <> Panic.

Lemma next_recv_shorter l ev l' : next_recv l = (Some ev, l') -> (length l' < length l)%nat.
Proof.
  induction l as [| [n | e] l IH]; cbn; [done | by intros [= <- <-]; lia |].
  destruct (decide _); [intros E%IH; lia | intros [= <- <-]; lia].
Qed.

Lemma recvmsg_shorter cap s x s' : recvmsg cap s = (Ok x, s') -> (length (recvs s') < length (recvs s))%nat.
Proof.
  unfold recvmsg. destruct (next_recv (recvs s)) as [[ev |] l] eqn:E; [apply next_recv_shorter in E | done].
  destruct ev; [destruct (grab _ _ _) as [[? ?] ?] |]; intros [= <- <-]; cbn; lia.
Qed.

Lemma recvmsg_ends cap s : ends (recvmsg cap) s.
Proof.
  unfold ends, recvmsg. destruct (next_recv (recvs s)) as [[[n | e] |] l]; [| done..]. by destruct (grab _ _ _) as [[? ?] ?].
Qed.

Lemma keep_fds_ends fds more s : fst (keep_fds fcntl_setfd fds more s) <> Panic /\ recvs (snd (keep_fds fcntl_setfd fds more s)) = recvs s.
Proof.
  revert fds. induction more as [| fd more IH]; intros fds; cbn [keep_fds]; [done |].
  destruct (fcntl_setfd fd); [done |]. destruct (_ <? _); [done | apply IH].
Qed.

Lemma recv_raw_ends cap s : ends (recv_raw_with_fds fcntl_setfd cap) s.
Proof.
  unfold ends, recv_raw_with_fds, bind. pose proof (recvmsg_ends cap s) as He. unfold ends in He.
  destruct (recvmsg cap s) as [[[[[bs more] []] | e] | e |] s1]; try done.
  pose proof (keep_fds_ends [] more s1) as [Hk _]. by destruct (keep_fds _ _ _ s1) as [[] ?].
Qed.

Lemma recv_raw_shorter cap s x s' :
  recv_raw_with_fds fcntl_setfd cap s = (Ok x, s') -> (length (recvs s') < length (recvs s))%nat.
Proof.
  unfold recv_raw_with_fds, bind. destruct (recvmsg cap s) as [[[[[bs more] []] | e] | e |] s1] eqn:E; try done.
  pose proof (keep_fds_ends [] more s1) as [_ Hk]. apply recvmsg_shorter in E.
  destruct (keep_fds _ _ _ s1) as [[] ?]; try done. intros [= <- <-]. cbn in Hk. by rewrite Hk.
Qed.

Lemma fill_ends fuel want got fds total s :
  (length (recvs s) < fuel)%nat -> ends (fill fcntl_setfd fuel want got fds total) s.
Proof.
  unfold ends. revert got fds total s. induction fuel as [| fuel IH]; intros got fds total s Hf; [lia |]. cbn [fill].
  destruct (_ <=? _); [done |]. pose proof (recv_raw_ends (want - zlen got) s) as He. unfold ends in He.
  destruct (recv_raw_with_fds _ _ s) as [[[bs more] | [e |] |] s1] eqn:E; try done; [| by destruct e].
  destruct (_ <? _); [done |]. case_bool_decide; [done |]. apply IH. apply recv_raw_shorter in E. lia.
Qed.

Lemma frame_loop_ends fuel fds s : (length (recvs s) < fuel)%nat -> ends (frame_loop fcntl_setfd fuel fds) s.
Proof.
  unfold ends. revert fds s. induction fuel as [| fuel IH]; intros fds s Hf; [lia |]. cbn [frame_loop].
  unfold bind at 1, take_leftover at 1. cbn beta iota. destruct (_ && _); [done |]. destruct (_ && _); [done |].
  unfold bind at 1. pose proof (recvmsg_ends 8192 s) as He. unfold ends in He.
  destruct (recvmsg 8192 s) as [[[[[bs more] []] | e] | e |] s1] eqn:E; try done. apply recvmsg_shorter in E.
  unfold bind at 1. pose proof (keep_fds_ends fds more s1) as [Hk Hr].
  destruct (keep_fds _ _ _ s1) as [[l | |] s2]; try done. case_bool_decide; [done |]. apply IH. cbn in *. rewrite Hr. lia.
Qed.

Lemma recv_msg_ends p s : ends (recv_msg_with_fds fcntl_setfd p) s.
Proof.
  unfold recv_msg_with_fds, ends. destruct (aosp_framing p); [| apply frame_loop_ends; lia].
  unfold read_aosp_message_with_fds. unfold bind at 1. unfold fill_now at 1.
  pose proof (fill_ends (S (length (recvs s))) WIRE_HEADER_LEN [] [] 0 s ltac:(lia)) as H1. unfold ends in H1.
  destruct (fill _ _ _ _ _ _ s) as [[[[h fds] total] | |] s1]; try done. destruct (_ <? _); [done |].
  destruct (_ <? _); [| done]. unfold bind, fill_now.
  pose proof (fill_ends (S (length (recvs s1))) (body_size_of h) [] fds total s1 ltac:(lia)) as H2. unfold ends in H2.
  by destruct (fill _ _ _ _ _ _ s1) as [[[[b l] q] | |] s2].
Qed.

(** ** At most [MAX_FDS_PER_FRAME] *)

Lemma keep_fds_budget fds more s l s' : zlen fds <= MAX_FDS_PER_FRAME ->
  keep_fds fcntl_setfd fds more s = (Ok l, s') -> zlen l <= MAX_FDS_PER_FRAME.
Proof.
  revert fds. induction more as [| fd more IH]; intros fds Hf; cbn [keep_fds]; [by intros [= <- <-] |].
  destruct (fcntl_setfd fd); [done |]. destruct (Z.ltb_spec MAX_FDS_PER_FRAME (zlen (fds ++ [fd]))); [done |]. by apply IH.
Qed.

Lemma fill_budget fuel want got fds total s x s' : zlen fds <= MAX_FDS_PER_FRAME ->
  fill fcntl_setfd fuel want got fds total s = (Ok x, s') -> zlen x.1.2 <= MAX_FDS_PER_FRAME.
Proof.
  revert got fds total s. induction fuel as [| fuel IH]; intros got fds total s Hf; cbn [fill];
    (destruct (_ <=? _); [by intros [= <- <-] |]); [done |].
  destruct (recv_raw_with_fds _ _ s) as [[[bs more] | [e |] |] s1]; try done; [| by destruct e].
  destruct (Z.ltb_spec MAX_FDS_PER_FRAME (zlen (fds ++ more))); [done |]. case_bool_decide; [done |]. by apply IH.
Qed.

Lemma frame_loop_budget fuel fds s x s' : zlen fds <= MAX_FDS_PER_FRAME ->
  frame_loop fcntl_setfd fuel fds s = (Ok x, s') -> zlen x.2 <= MAX_FDS_PER_FRAME.
Proof.
  revert fds s. induction fuel as [| fuel IH]; intros fds s Hf; cbn [frame_loop];
    unfold bind at 1, take_leftover at 1; cbn beta iota;
    (destruct (_ && _); [done |]); (destruct (_ && _); [by intros [= <- <-] |]); [done |].
  unfold bind at 1. destruct (recvmsg 8192 s) as [[[[[bs more] []] | e] | e |] s1]; try done.
  unfold bind at 1. destruct (keep_fds _ _ _ s1) as [[l | |] s2] eqn:E; try done.
  case_bool_decide; [done |]. apply IH. by apply keep_fds_budget in E.
Qed.

Lemma recv_msg_budget p s x s' :
  recv_msg_with_fds fcntl_setfd p s = (Ok x, s') -> zlen x.2 <= MAX_FDS_PER_FRAME.
Proof.
  unfold recv_msg_with_fds. destruct (aosp_framing p); [| by apply frame_loop_budget].
  unfold read_aosp_message_with_fds. unfold bind at 1. unfold fill_now at 1.
  destruct (fill _ _ _ _ _ _ s) as [[[[h fds] total] | |] s1] eqn:E1; try done.
  apply fill_budget in E1; [| done]. cbn in E1. destruct (_ <? _); [done |]. destruct (_ <? _); [| by intros [= <- <-]].
  unfold bind, fill_now. destruct (fill _ _ _ _ _ _ s1) as [[[[b l] q] | |] s2] eqn:E2; try done.
  apply fill_budget in E2; [| done]. by intros [= <- <-].
Qed.

(** C30: Whatever the kernel does to the calls of a receiver, and whatever the peer sends, a receive of either wire ends, or
    waits for the kernel, without a panic; every descriptor that came off the stream is in the result, or closed, or was dropped by the kernel because the control
    message had no room for it, and it is so once; a result has at most 64. *)
Theorem descriptors_accounted p s r s' :
  recv_msg_with_fds fcntl_setfd p s = (r, s') -> r <> Err Blocked ->
  let result := match r with Ok (_, fds) => fds | _ => [] end in
  r <> Panic /\ zlen result <= MAX_FDS_PER_FRAME /\
  exists t, incoming s = t ++ incoming s' /\
  forall fd, occurs fd (fds_of t) + occurs fd (closed s) + occurs fd (lost s)
             = occurs fd result + occurs fd (closed s') + occurs fd (lost s').
Proof.
  intros E Hb result. pose proof (recv_msg_ends p s) as He. unfold ends in He. rewrite E in He. split; [done |].
  pose proof (accounts_recv_msg p _ _ _ E) as Ha. unfold result. destruct r as [[m fds] | [e |] |]; try done.
  - apply recv_msg_budget in E. split; [done |]. destruct Ha as (t & Et & H). exists t. split; [done |].
    intros fd. specialize (H fd). cbn in *. lia.
  - split; [done |]. destruct Ha as (t & Et & H). exists t. split; [done |]. intros fd. specialize (H fd). cbn in *. lia.
Qed.
End Accounts.

(** * What is sent *)

Lemma attach_app fds a b : a <> [] -> attach fds (a ++ b) = attach fds a ++ attach [] b.
Proof.
  destruct a as [| x a]; [done |]. intros _. cbn. rewrite map_app. f_equal. f_equal. by destruct b.
Qed.

Lemma bytes_of_attach fds bs : bytes_of (attach fds bs) = bs.
Proof. destruct bs as [| b bs]; [done |]. unfold bytes_of. cbn. rewrite map_map. cbn. by rewrite map_id. Qed.

Lemma fds_of_plain bs : fds_of (map (fun b => (b, [])) bs) = [].
Proof. induction bs as [| b bs IH]; [done |]. exact IH. Qed.

Lemma fds_of_attach fds bs : fds_of (attach fds bs) = if bool_decide (bs = []) then [] else fds.
Proof. destruct bs as [| b bs]; [done |]. unfold fds_of. cbn. change (concat (map snd _)) with (fds_of (map (fun b => (b, [])) bs)).
  by rewrite fds_of_plain, app_nil_r. Qed.

Lemma length_attach fds bs : length (attach fds bs) = length bs.
Proof. destruct bs; [done |]. cbn. by rewrite length_map. Qed.

(** The part that one call takes, as items. *)
Lemma attach_part fds buf sent k :
  attach (if (sent =? 0)%nat then fds else []) (take k (drop sent buf)) = take k (drop sent (attach fds buf)).
Proof.
  destruct (Nat.eqb_spec sent 0) as [-> | Hs].
  - rewrite !drop_0. destruct buf as [| b buf]; [by destruct k |]. destruct k; [done |]. cbn.
    f_equal. symmetry. apply firstn_map.
  - destruct sent as [| n]; [done |]. destruct buf as [| b buf]; [by destruct k |]. cbn [drop attach].
    rewrite skipn_map, firstn_map. by destruct (take k (drop n buf)).
Qed.

Lemma send_loop_spec on_zero fds buf l : forall sent out r l' out',
  (sent <= length buf)%nat ->
  send_loop on_zero fds buf sent l out = (r, (l', out')) ->
  exists k, (sent <= k <= length buf)%nat /\ out' = out ++ take (k - sent) (drop sent (attach fds buf)) /\
            (r = Ok tt -> k = length buf) /\ r <> Panic.
Proof.
  induction l as [| [n | e] l IH]; intros sent out r l' out' Hs; cbn [send_loop];
    destruct (Nat.leb_spec (length buf) sent) as [Hl | Hl].
  1, 3, 5: intros [= <- <- <-]; exists sent; rewrite Nat.sub_diag, take_0, app_nil_r; split_and!; try done; lia.
  - intros [= <- <- <-]. exists sent. rewrite Nat.sub_diag, take_0, app_nil_r. split_and!; try done; lia.
  - set (part := take (Z.to_nat n) (drop sent buf)).
    destruct (Nat.eqb_spec (length part) 0) as [Hz | Hz].
    { intros [= <- <- <-]. exists sent. rewrite Nat.sub_diag, take_0, app_nil_r. split_and!; try done; lia. }
    assert (Hp : (length part = min (Z.to_nat n) (length buf - sent))%nat) by (unfold part; by rewrite length_take, length_drop).
    intros E. apply IH in E as (k & Hk & -> & H1 & H2); [| lia]. exists k. split_and!; [lia | lia | | done | done].
    rewrite <- app_assoc. f_equal. unfold part at 1. rewrite attach_part.
    replace (take (Z.to_nat n) (drop sent (attach fds buf))) with (take (length part) (drop sent (attach fds buf))).
    + replace (k - sent)%nat with (length part + (k - (sent + length part)))%nat by lia.
      by rewrite <- (take_take_drop (drop sent (attach fds buf))), drop_drop.
    + rewrite Hp. destruct (Nat.le_ge_cases (Z.to_nat n) (length buf - sent)); [by rewrite Nat.min_l |].
      rewrite Nat.min_r by done. rewrite !take_ge by (rewrite length_drop, length_attach; lia). done.
  - destruct (decide _); [by apply IH |]. intros [= <- <- <-].
    exists sent. rewrite Nat.sub_diag, take_0, app_nil_r. split_and!; try done; lia.
Qed.

Lemma transmit_sent on_zero fds buf s s' :
  transmit on_zero fds buf s = (Ok tt, s') -> outgoing s' = outgoing s ++ attach fds buf.
Proof.
  unfold transmit. destruct (send_loop _ _ _ _ _ _) as [r [l out]] eqn:E. intros [= -> <-]. cbn.
  apply send_loop_spec in E as (k & _ & -> & Hk & _); [| lia]. rewrite (Hk eq_refl), Nat.sub_0_r, drop_0.
  by rewrite take_ge by (by rewrite length_attach).
Qed.

(** A message on the wire of a profile. *)
Definition wire_of (p : WireProfile) (m : list byte * list Z) : list item :=
  attach m.2 (if aosp_framing p then m.1 else frame_of m.1).

(** What the senders let through. *)
Definition passable (p : WireProfile) (m : list byte * list Z) : Prop :=
  zlen m.2 <= MAX_FDS_PER_FRAME /\ (aosp_framing p = false -> zlen m.1 <= MAX_FRAME_LEN).

Lemma send_msg_sent p frame fds s s' : send_msg_with_fds p frame fds s = (Ok tt, s') ->
  outgoing s' = outgoing s ++ wire_of p (frame, fds) /\ passable p (frame, fds).
Proof.
  unfold send_msg_with_fds, wire_of, passable. cbn [fst snd]. destruct (aosp_framing p).
  - unfold write_aosp_message_with_fds, send_raw_with_fds. destruct (_ <? _); [done |]. destruct (_ <? _); [done |].
    case_bool_decide; [subst; intros E%transmit_sent; by split |]. case_bool_decide; [done |].
    destruct (Z.ltb_spec MAX_FDS_PER_FRAME (zlen fds)); [done |]. destruct (_ <? _); [done |].
    intros E%transmit_sent. by split.
  - unfold send_frame_with_fds, send_frame. case_bool_decide.
    + subst. destruct (Z.ltb_spec MAX_FRAME_LEN (zlen frame)); [done |]. intros E%transmit_sent. by split.
    + destruct (Z.ltb_spec MAX_FDS_PER_FRAME (zlen fds)); [done |].
      destruct (Z.ltb_spec MAX_FRAME_LEN (zlen frame)); [done |]. intros E%transmit_sent. by split.
Qed.

Lemma send_all_sent p ms s s' : send_all p ms s = (Ok tt, s') ->
  outgoing s' = outgoing s ++ concat (map (wire_of p) ms) /\ Forall (passable p) ms.
Proof.
  revert s. induction ms as [| [frame fds] ms IH]; intros s; cbn [send_all map concat].
  { intros [= <-]. by rewrite app_nil_r. }
  unfold bind. destruct (send_msg_with_fds p frame fds s) as [[[] | |] s1] eqn:E; try done.
  apply send_msg_sent in E as [E Hp]. intros [E' Hf]%IH. split; [by rewrite E', E, <- app_assoc | by constructor].
Qed.

(** * What is received *)

(** A script without failures, and the calls of it that give something. *)
Definition quiet (ev : RecvEvent) : Prop :=
  match ev with Delivers _ => True | RecvErrno e => kind e = Interrupted end.
Definition ready (l : list RecvEvent) : Z := tally (fun ev => match ev with Delivers _ => true | _ => false end) l.

Lemma next_recv_quiet l : Forall quiet l ->
  (next_recv l = (None, []) /\ ready l = 0) \/
  exists n l', next_recv l = (Some (Delivers n), l') /\ Forall quiet l' /\ ready l = 1 + ready l'.
Proof.
  induction 1 as [| [n | e] l Hq Hl IH]; [by left | right; by exists n, l |].
  cbn [next_recv]. rewrite decide_True by done. exact IH.
Qed.

(** [t] was taken off the stream of [s], and nothing was closed or lost. *)
Definition took (t : list item) (s s' : Socket) : Prop :=
  incoming s = t ++ incoming s' /\ closed s' = closed s /\ lost s' = lost s /\ Forall quiet (recvs s') /\
  ready (recvs s) <= ready (recvs s') + zlen t /\ (length (recvs s') <= length (recvs s))%nat.

Lemma took_refl s : Forall quiet (recvs s) -> took [] s s.
Proof. intros Hq. unfold took. split_and!; try done. zlens. lia. Qed.

Lemma took_trans t u s s1 s2 : took t s s1 -> took u s1 s2 -> took (t ++ u) s s2.
Proof.
  intros (E1 & E2 & E3 & E4 & E5 & E6) (F1 & F2 & F3 & F4 & F5 & F6). unfold took.
  split_and!; [by rewrite E1, F1, app_assoc | congruence | congruence | done | zlens; lia | lia].
Qed.

Section Received.
Context (fcntl_setfd : Z -> option io_error) (setfd_ok : forall fd, fcntl_setfd fd = None).

(** A call on a stream that has not ended: it waits when the script is used up, or takes bytes with one call's descriptors. *)
Lemma recvmsg_quiet cap s : Forall quiet (recvs s) -> 0 < cap -> incoming s <> [] ->
  Forall (fun i : item => zlen i.2 <= MAX_FDS_PER_FRAME) (incoming s) ->
  exists s', (recvmsg cap s = (Err Blocked, s') /\ ready (recvs s) = 0) \/
  exists t, recvmsg cap s = (Ok (inl (bytes_of t, fds_of t, false)), s') /\ took t s s' /\ t <> [] /\
    zlen t <= cap /\ zlen (fds_of t) <= MAX_FDS_PER_FRAME /\ fd_recv_buf s' = fd_recv_buf s /\
    (length (recvs s') < length (recvs s))%nat.
Proof.
  intros Hq Hc Hi Hb. unfold recvmsg. destruct (next_recv_quiet _ Hq) as [[-> Hr] | (n & l & E & Hl & Hr)]; [eexists; by left |].
  rewrite E. destruct (grab _ false (incoming s)) as [[bs fs] r] eqn:Eg.
  pose proof (grab_batch _ _ _ _ _ _ MAX_FDS_PER_FRAME Eg ltac:(done) Hb) as Hm. cbn in Hm.
  destruct (grab_spec _ _ _ _ _ _ Eg) as (t & Et & -> & -> & Hlen & Hne).
  rewrite (proj2 (Z.ltb_ge _ _)), ztake_all, zdrop_all by lia. eexists. right. exists t. split; [done |].
  specialize (Hne eq_refl ltac:(lia) Hi). apply next_recv_shorter in E.
  assert (1 <= zlen t) by (destruct t; [done | zlen_lia]).
  split_and!; [| done | unfold zlen; lia | done | done | done]. unfold took. cbn [incoming closed lost recvs set_in]. rewrite app_nil_r.
  split_and!; try done; lia.
Qed.

Lemma keep_fds_ok fds more : zlen (fds ++ more) <= MAX_FDS_PER_FRAME -> keep_fds fcntl_setfd fds more = ret (fds ++ more).
Proof using setfd_ok.
  revert fds. induction more as [| fd more IH]; intros fds Hl; cbn [keep_fds]; [by rewrite app_nil_r |].
  rewrite setfd_ok, (proj2 (Z.ltb_ge _ _)) by zlen_lia. rewrite IH by (by rewrite <- app_assoc). by rewrite <- app_assoc.
Qed.

Lemma recv_raw_quiet cap s : Forall quiet (recvs s) -> 0 < cap -> incoming s <> [] ->
  Forall (fun i : item => zlen i.2 <= MAX_FDS_PER_FRAME) (incoming s) ->
  exists s', (recv_raw_with_fds fcntl_setfd cap s = (Err Blocked, s') /\ ready (recvs s) = 0) \/
  exists t, recv_raw_with_fds fcntl_setfd cap s = (Ok (bytes_of t, fds_of t), s') /\ took t s s' /\ t <> [] /\
    zlen t <= cap /\ fd_recv_buf s' = fd_recv_buf s /\ (length (recvs s') < length (recvs s))%nat.
Proof using setfd_ok.
  intros Hq Hc Hi Hb. unfold recv_raw_with_fds, bind.
  destruct (recvmsg_quiet cap s Hq Hc Hi Hb) as (s1 & [[E Hr] | (t & E & Ht & Hn & Hl & Hm & Hf & Hs)]); rewrite E.
  - eexists. by left.
  - cbn beta iota. rewrite keep_fds_ok by done. eexists. right. exists t. by split_and!.
Qed.

Lemma fill_quiet fuel want got fds total t rest s :
  Forall quiet (recvs s) -> incoming s = t ++ rest -> zlen got + zlen t = want ->
  Forall (fun i : item => zlen i.2 <= MAX_FDS_PER_FRAME) (incoming s) -> zlen (fds ++ fds_of t) <= MAX_FDS_PER_FRAME ->
  (length (recvs s) < fuel)%nat ->
  exists s', (fill fcntl_setfd fuel want got fds total s = (Err Blocked, s') /\ ready (recvs s) < zlen t) \/
    (fill fcntl_setfd fuel want got fds total s = (Ok (got ++ bytes_of t, fds ++ fds_of t, total + zlen t), s') /\
     took t s s' /\ fd_recv_buf s' = fd_recv_buf s).
Proof using setfd_ok.
  revert got fds total t s. induction fuel as [| fuel IH]; intros got fds total t s Hq Hi Hw Hb Hz Hf; [lia |].
  cbn [fill]. destruct (Z.leb_spec want (zlen got)) as [Hd | Hd].
  { assert (t = []) as -> by (apply zlen_zero_nil; pose proof (zlen_nonneg t); lia).
    exists s. right. rewrite !app_nil_r, zlen_nil, Z.add_0_r. split_and!; [done | by apply took_refl | done]. }
  destruct (recv_raw_quiet (want - zlen got) s Hq ltac:(lia)) as (s1 & [[E Hr] | (t1 & E & Ht & Hn & Hl & Hk & Hs)]);
    [rewrite Hi; destruct t; [zlens; lia | done] | done | rewrite E; exists s1; left; split; [done | lia] |].
  rewrite E. pose proof Ht as (E1 & _ & _ & Hq1 & Hr1 & _).
  destruct (app_split_le t1 (incoming s1) t rest) as (t2 & -> & Hi2); [by rewrite <- E1, <- Hi | lia |].
  rewrite fds_of_app, app_assoc in Hz. pose proof (zlen_nonneg (fds_of t2)).
  rewrite (proj2 (Z.ltb_ge _ _)) by (rewrite zlen_app in Hz; lia).
  rewrite bool_decide_false by (destruct t1; [done | by intros [=]]).
  destruct (IH (got ++ bytes_of t1) (fds ++ fds_of t1) (total + zlen (bytes_of t1)) t2 s1) as (s' & [[E2 Hb2] | (E2 & Ht2 & Hk2)]);
    [done | done | rewrite zlen_app, zlen_bytes_of; zlens; lia | rewrite E1 in Hb; by apply Forall_app in Hb as [_ ?] | done | lia | |].
  - exists s'. left. split; [done |]. zlens. lia.
  - exists s'. right. rewrite E2, bytes_of_app, fds_of_app, !app_assoc, zlen_bytes_of, zlen_app, Z.add_assoc.
    split_and!; [done | by eapply took_trans | congruence].
Qed.

Lemma small_message p m rest : passable p m ->
  Forall (fun i : item => zlen i.2 <= MAX_FDS_PER_FRAME) rest ->
  Forall (fun i : item => zlen i.2 <= MAX_FDS_PER_FRAME) (wire_of p m ++ rest).
Proof.
  intros [Hf _] Hr. apply Forall_app. split; [| done]. unfold wire_of, attach.
  destruct (if aosp_framing p then m.1 else frame_of m.1) as [| b bs]; constructor; [done |].
  apply Forall_map, Forall_true. intros x. done.
Qed.

(** A message of the android-13+ wire is read off the stream with its own descriptors. *)
Lemma read_aosp_quiet c msg fds rest s :
  let p := ProfileAndroid13Plus c in
  framed msg -> passable p (msg, fds) -> Forall quiet (recvs s) -> incoming s = wire_of p (msg, fds) ++ rest ->
  Forall (fun i : item => zlen i.2 <= MAX_FDS_PER_FRAME) rest ->
  exists s', (read_aosp_message_with_fds fcntl_setfd s = (Err Blocked, s') /\ ready (recvs s) < zlen msg) \/
    (read_aosp_message_with_fds fcntl_setfd s = (Ok (msg, fds), s') /\ took (wire_of p (msg, fds)) s s').
Proof using setfd_ok.
  intros p (h & body & -> & Hh & Hb & Hm)%framed_split Hp Hq Hi Hr.
  assert (Hn : h <> []) by (intros ->; by vm_compute in Hh).
  pose proof (small_message p (h ++ body, fds) rest Hp Hr) as Hs. rewrite <- Hi in Hs.
  unfold wire_of in *. cbn [fst snd aosp_framing p] in *. rewrite (attach_app fds h body Hn) in *.
  pose proof (fds_of_attach fds h) as F1. rewrite bool_decide_false in F1 by done.
  assert (F2 : fds_of (attach [] body) = []) by (rewrite fds_of_attach; by destruct (bool_decide _)).
  assert (L1 : zlen (attach fds h) = zlen h) by (unfold zlen; by rewrite length_attach).
  assert (L2 : zlen (attach [] body) = zlen body) by (unfold zlen; by rewrite length_attach).
  destruct Hp as [Hf _]. cbn in Hf. rewrite <- app_assoc in Hi.
  destruct (read_aosp_message_with_fds fcntl_setfd s) as [r s'] eqn:Eq. exists s'. revert Eq.
  unfold read_aosp_message_with_fds. unfold bind at 1, fill_now at 1.
  destruct (fill_quiet (S (length (recvs s))) WIRE_HEADER_LEN [] [] 0 (attach fds h) (attach [] body ++ rest) s)
    as (s1 & [[E Hk] | (E & Ht & _)]); try first [done | by rewrite L1 | by rewrite F1 | lia]; rewrite E.
  { intros [= <- <-]. left. split; [done |]. zlen_lia. }
  cbn [app]. rewrite bytes_of_attach, F1, Hb, (proj2 (Z.ltb_ge _ _)) by lia.
  pose proof Ht as (I1 & _ & _ & Hq1 & Hr1 & _). rewrite Hi in I1. apply app_inv_head in I1. symmetry in I1.
  destruct (Z.ltb_spec 0 (zlen body)) as [Hz | Hz].
  - unfold bind, fill_now.
    destruct (fill_quiet (S (length (recvs s1))) (zlen body) [] fds (0 + zlen (attach fds h)) (attach [] body) rest s1)
      as (s2 & [[E2 Hk] | (E2 & Ht2 & _)]); try first [done | by rewrite L2 | by rewrite F2, app_nil_r | lia].
    + rewrite Hi in Hs. apply Forall_app in Hs as [_ Hs]. by rewrite I1.
    + rewrite E2. intros [= <- <-]. left. split; [done |]. zlen_lia.
    + rewrite E2, F2, app_nil_r, bytes_of_attach. intros [= <- <-]. right. split; [done | by eapply took_trans].
  - assert (body = []) as -> by (apply zlen_zero_nil; pose proof (zlen_nonneg body); lia).
    intros [= <- <-]. right. cbn. by rewrite !app_nil_r.
Qed.

Lemma recv_all_quiet c ms rest s :
  let p := ProfileAndroid13Plus c in
  Forall (fun m => framed m.1) ms -> Forall (passable p) ms -> Forall quiet (recvs s) ->
  incoming s = concat (map (wire_of p) ms) ++ rest ->
  Forall (fun i : item => zlen i.2 <= MAX_FDS_PER_FRAME) rest ->
  exists s', (recv_all fcntl_setfd p (length ms) s = (Err Blocked, s') /\ ready (recvs s) < zlen (concat (map (wire_of p) ms))) \/
    (recv_all fcntl_setfd p (length ms) s = (Ok ms, s') /\ took (concat (map (wire_of p) ms)) s s').
Proof using setfd_ok.
  intros p Hf Hp Hq Hi Hr. revert s Hq Hi. induction ms as [| [msg fds] ms IH]; intros s Hq Hi.
  { exists s. right. split; [done | by apply took_refl]. }
  apply Forall_cons in Hf as [Hf1 Hf]. apply Forall_cons in Hp as [Hp1 Hp]. specialize (IH Hf Hp).
  cbn [map concat] in *. rewrite <- app_assoc in Hi.
  assert (Hs : Forall (fun i : item => zlen i.2 <= MAX_FDS_PER_FRAME) (concat (map (wire_of p) ms) ++ rest)).
  { clear -Hp Hr. induction ms as [| m ms IH]; [done |]. apply Forall_cons in Hp as [? ?]. cbn. rewrite <- app_assoc.
    apply small_message; auto. }
  destruct (recv_all fcntl_setfd p (length ((msg, fds) :: ms)) s) as [r s'] eqn:Eq. exists s'. revert Eq.
  cbn [length recv_all]. unfold bind. unfold recv_msg_with_fds at 1. cbn [aosp_framing p].
  assert (Lw : zlen (wire_of p (msg, fds)) = zlen msg) by (unfold wire_of, zlen; by rewrite length_attach).
  destruct (read_aosp_quiet c msg fds _ s Hf1 Hp1 Hq Hi Hs) as (s1 & [[E Hk] | (E & Ht)]); rewrite E.
  { intros [= <- <-]. left. split; [done |]. rewrite zlen_app, Lw. pose proof (zlen_nonneg (concat (map (wire_of p) ms))). lia. }
  fold p in Ht. pose proof Ht as (I1 & _ & _ & Hq1 & Hr1 & _). rewrite Hi in I1. apply app_inv_head in I1.
  destruct (IH s1 Hq1 (eq_sym I1)) as (s2 & [[E2 Hk] | (E2 & Ht2)]); rewrite E2.
  - intros [= <- <-]. left. split; [done |]. rewrite zlen_app, Lw in *. lia.
  - intros [= <- <-]. right. split; [done | by eapply took_trans].
Qed.

Lemma frame_head f L X R : zlen f <= MAX_FRAME_LEN -> L ++ X = frame_of f ++ R -> 4 <= zlen L -> of_le (ztake 4 L) = zlen f.
Proof.
  intros Hf E Hl. unfold frame_of in E. rewrite <- app_assoc in E. symmetry in E.
  assert (H4 : zlen (to_le 4 (wrap_u 32 (zlen f))) = 4) by apply zlen_to_le.
  destruct (app_split_le _ _ _ _ E ltac:(lia)) as (L' & -> & _).
  rewrite ztake_app_l, ztake_all by lia. pose proof (zlen_nonneg f). unfold MAX_FRAME_LEN in Hf.
  rewrite wrap_u_small, of_le_to_le_u by (try done; unfold in_u; simpl; lia). done.
Qed.

(** A frame is read off the bytes that were left over and the stream; with it come the descriptors of all bytes it took. *)
Lemma frame_loop_quiet fuel fds f R s :
  zlen f <= MAX_FRAME_LEN -> Forall quiet (recvs s) ->
  Forall (fun i : item => zlen i.2 <= MAX_FDS_PER_FRAME) (incoming s) ->
  fd_recv_buf s ++ bytes_of (incoming s) = frame_of f ++ R -> zlen (fds ++ fds_of (incoming s)) <= MAX_FDS_PER_FRAME ->
  (length (recvs s) < fuel)%nat ->
  exists s', (frame_loop fcntl_setfd fuel fds s = (Err Blocked, s') /\ ready (recvs s) < zlen (incoming s)) \/
  exists t, frame_loop fcntl_setfd fuel fds s = (Ok (f, fds ++ fds_of t), s') /\ took t s s' /\
    fd_recv_buf s ++ bytes_of t = frame_of f ++ fd_recv_buf s'.
Proof using setfd_ok.
  intros Hf. revert fds s. induction fuel as [| fuel IH]; intros fds s Hq Hb Hd Hz Hfu; [lia |].
  destruct (frame_loop fcntl_setfd (S fuel) fds s) as [r s'] eqn:Eq. exists s'. revert Eq.
  cbn [frame_loop]. unfold bind at 1, take_leftover at 1. cbn beta iota. set (L := fd_recv_buf s) in *.
  assert (Hlen : zlen (frame_of f) = 4 + zlen f) by (unfold frame_of; rewrite zlen_app; by rewrite zlen_to_le).
  assert (Hn : (4 <=? zlen L) && (MAX_FRAME_LEN <? of_le (ztake 4 L)) = false).
  { destruct (Z.leb_spec 4 (zlen L)) as [H4 | H4]; [| done]. rewrite (frame_head f L _ R) by done. cbn. apply Z.ltb_ge. lia. }
  rewrite Hn. destruct (decide (zlen (frame_of f) <= zlen L)) as [Hdone | Hmore].
  - symmetry in Hd. destruct (app_split_le _ _ _ _ Hd Hdone) as (L' & EL & ER). pose proof (zlen_nonneg f).
    rewrite (frame_head f L (bytes_of (incoming s)) R) by (done || lia).
    rewrite !(proj2 (Z.leb_le _ _)) by lia. intros [= <- <-]. right. exists [].
    assert (EF : ztake (zlen f) (zdrop 4 L) = f /\ zdrop (4 + zlen f) L = L').
    { rewrite EL. split.
      - unfold frame_of. rewrite <- !app_assoc, zdrop_app_r by (by rewrite zlen_to_le). rewrite zlen_to_le, zdrop_0 by done.
        by rewrite ztake_app_l, ztake_all by lia.
      - rewrite zdrop_app_r, Hlen, Z.sub_diag by lia. done. }
    destruct EF as [-> E2]. rewrite !app_nil_r. split_and!; [done | | by cbn; rewrite E2].
    destruct (took_refl s Hq) as (? & ? & ? & ? & ? & ?). by unfold took.
  - assert (Hn2 : (4 <=? zlen L) && (4 + of_le (ztake 4 L) <=? zlen L) = false).
    { destruct (Z.leb_spec 4 (zlen L)) as [H4 | H4]; [| done]. rewrite (frame_head f L _ R) by done. cbn. apply Z.leb_gt. lia. }
    rewrite Hn2. unfold bind at 1.
    assert (Hi : incoming s <> []).
    { intros Ei. rewrite Ei, app_nil_r in Hd. apply (f_equal zlen) in Hd. rewrite zlen_app in Hd. pose proof (zlen_nonneg R). lia. }
    destruct (recvmsg_quiet 8192 s Hq ltac:(lia) Hi Hb) as (s1 & [[E Hr] | (t & E & Ht & Hne & _ & Hm & Hk & Hs)]); rewrite E.
    { intros [= <- <-]. left. split; [done |]. destruct (incoming s); [done |]. zlens. pose proof (zlen_nonneg l). lia. }
    pose proof Ht as (I1 & C1 & C2 & Hq1 & Hr1 & _). rewrite I1, fds_of_app, app_assoc in Hz.
    unfold bind at 1. rewrite keep_fds_ok by (rewrite zlen_app in Hz; pose proof (zlen_nonneg (fds_of (incoming s1))); lia).
    cbn beta iota. rewrite bool_decide_false by (by destruct t).
    destruct (IH (fds ++ fds_of t) (set_leftover (L ++ bytes_of t) s1)) as (s2 & [[E2 Hr2] | (u & E2 & Hu & Hd2)]);
      try (cbn [recvs incoming fd_recv_buf set_leftover]; first [done | lia]).
    { rewrite I1 in Hb. by apply Forall_app in Hb as [_ Hb]. }
    { cbn [recvs incoming fd_recv_buf set_leftover]. by rewrite <- app_assoc, <- bytes_of_app, <- I1. }
    + unfold bind, ret, modify. rewrite E2. intros [= <- <-]. left. split; [done |]. cbn [recvs incoming set_leftover] in Hr2. rewrite I1, zlen_app. lia.
    + unfold bind, ret, modify. rewrite E2. intros [= <- <-]. right. exists (t ++ u).
      rewrite fds_of_app, bytes_of_app, !app_assoc. split_and!; [done | | exact Hd2].
      eapply took_trans; [done |]. destruct Hu as (? & ? & ? & ? & ? & ?). by unfold took.
Qed.

Lemma small_of_total (s : list item) m : zlen (fds_of s) <= m -> Forall (fun i : item => zlen i.2 <= m) s.
Proof.
  induction s as [| [b f] s IH]; intros H; [done |]. cbn in H. unfold fds_of in H. cbn in H. fold (fds_of s) in H.
  rewrite zlen_app in H. pose proof (zlen_nonneg f). pose proof (zlen_nonneg (fds_of s)).
  constructor; [cbn; lia | apply IH; lia].
Qed.

Lemma bytes_of_wire m : bytes_of (wire_of ProfileR34 m) = frame_of m.1.
Proof. apply bytes_of_attach. Qed.

Lemma fds_of_wire m : fds_of (wire_of ProfileR34 m) = m.2.
Proof.
  unfold wire_of. cbn [aosp_framing]. rewrite fds_of_attach, bool_decide_false; [done |].
  intros H%(f_equal zlen). unfold frame_of in H. rewrite zlen_app, zlen_to_le in H. pose proof (zlen_nonneg m.1). rewrite zlen_nil in H. lia.
Qed.

Lemma fds_of_wires ms : fds_of (concat (map (wire_of ProfileR34) ms)) = concat ms.*2.
Proof. induction ms as [| m ms IH]; [done |]. cbn [map concat fmap list_fmap]. by rewrite fds_of_app, fds_of_wire, IH. Qed.

(** Where the bytes read so far end a frame, its items are exactly those the frame was sent as. *)
Lemma frame_boundary x y m ws L : x ++ y = wire_of ProfileR34 m ++ ws -> bytes_of x = frame_of m.1 ++ L ->
  exists c, x = wire_of ProfileR34 m ++ c /\ c ++ y = ws /\ L = bytes_of c.
Proof.
  intros E Hx. symmetry in E. assert (Hle : zlen (wire_of ProfileR34 m) <= zlen x).
  { rewrite <- !zlen_bytes_of, bytes_of_wire, Hx, zlen_app. pose proof (zlen_nonneg L). lia. }
  destruct (app_split_le _ _ _ _ E Hle) as (c & -> & ->). exists c. split_and!; try done.
  rewrite bytes_of_app, bytes_of_wire in Hx. by apply app_inv_head in Hx.
Qed.

(** Frames come off in order; the descriptors of the first [k] are among those of the first [k] results, behind [fds_of c] of
    the bytes [c] that an earlier call read ahead. *)
Lemma recv_all_r34 ms s cs :
  Forall (passable ProfileR34) ms -> Forall quiet (recvs s) -> cs ++ incoming s = concat (map (wire_of ProfileR34) ms) ->
  fd_recv_buf s = bytes_of cs -> zlen (fds_of (incoming s)) <= MAX_FDS_PER_FRAME ->
  exists s', (recv_all fcntl_setfd ProfileR34 (length ms) s = (Err Blocked, s') /\ ready (recvs s) < zlen (incoming s)) \/
  exists rs, recv_all fcntl_setfd ProfileR34 (length ms) s = (Ok rs, s') /\ rs.*1 = ms.*1 /\ fds_of cs ++ concat rs.*2 = concat ms.*2 /\
    (forall k, concat (take k ms.*2) `prefix_of` fds_of cs ++ concat (take k rs.*2)) /\ took (incoming s) s s' /\ fd_recv_buf s' = [].
Proof using setfd_ok.
  intros Hp. revert s cs. induction ms as [| [f fds] ms IH]; intros s cs Hq Hi Hl Hz.
  { exists s. right. exists []. apply app_nil in Hi as [-> Hi]. rewrite Hi, Hl.
    split_and!; try done. all: first [by apply took_refl | intros k; by rewrite !take_nil]. }
  apply Forall_cons in Hp as [[Hp1 Hp2] Hp]. cbn [map concat] in Hi.
  destruct (recv_all fcntl_setfd ProfileR34 (length ((f, fds) :: ms)) s) as [r s'] eqn:Eq. exists s'. revert Eq.
  cbn [length recv_all]. unfold bind. unfold recv_msg_with_fds at 1, recv_frame_with_fds at 1. cbn [aosp_framing].
  assert (Hd : fd_recv_buf s ++ bytes_of (incoming s) = frame_of f ++ bytes_of (concat (map (wire_of ProfileR34) ms))).
  { by rewrite Hl, <- bytes_of_app, Hi, bytes_of_app, bytes_of_wire. }
  assert (Hb : Forall (fun i : item => zlen i.2 <= MAX_FDS_PER_FRAME) (incoming s)) by (by apply small_of_total).
  destruct (frame_loop_quiet (S (length (recvs s))) [] f _ s (Hp2 eq_refl) Hq Hb Hd Hz ltac:(lia)) as (s1 & [[E Hr] | (t & E & Ht & Hd1)]);
    rewrite E.
  { intros [= <- <-]. by left. }
  pose proof Ht as (I1 & C1 & C2 & Hq1 & Hr1 & _).
  rewrite I1, app_assoc in Hi. rewrite Hl, <- bytes_of_app in Hd1.
  destruct (frame_boundary _ _ (f, fds) _ _ Hi Hd1) as (c1 & Ex & Hi1 & Hl1).
  assert (Hz1 : zlen (fds_of (incoming s1)) <= MAX_FDS_PER_FRAME).
  { rewrite I1, fds_of_app, zlen_app in Hz. pose proof (zlen_nonneg (fds_of t)). lia. }
  assert (Ef : fds_of cs ++ fds_of t = fds ++ fds_of c1) by (by rewrite <- fds_of_app, Ex, fds_of_app, fds_of_wire).
  destruct (IH Hp s1 c1 Hq1 Hi1 Hl1 Hz1) as (s2 & [[E2 Hr2] | (rs & E2 & R1 & R2 & R3 & R4 & R5)]); rewrite E2.
  { intros [= <- <-]. left. split; [done |]. rewrite I1, zlen_app. lia. }
  intros [= <- <-]. right. exists ((f, fds_of t) :: rs). cbn [fmap list_fmap fst snd concat].
  split_and!; [done | by f_equal | by rewrite app_assoc, Ef, <- app_assoc; f_equal | | | done].
  - intros [| k]; cbn [take concat]; [apply prefix_nil |]. rewrite app_assoc, Ef, <- app_assoc. apply prefix_app, R3.
  - rewrite I1. by eapply took_trans.
Qed.

(** C19: Messages that one end of a socket sent in the AOSP framing reach the other end in order, each with exactly its
    own descriptors and with none closed or lost, however the kernel cuts the calls of either end and whatever is sent
    after them. A receiver that waits had fewer calls than the messages have bytes. *)
Theorem descriptors_stay_with_message c ms a a' b more :
  let p := ProfileAndroid13Plus c in
  send_all p ms a = (Ok tt, a') -> outgoing a = [] -> Forall (fun m => framed m.1) ms ->
  incoming b = outgoing a' ++ more -> Forall (fun i : item => zlen i.2 <= MAX_FDS_PER_FRAME) more ->
  Forall quiet (recvs b) ->
  exists b', (recv_all fcntl_setfd p (length ms) b = (Err Blocked, b') /\ ready (recvs b) < zlen (outgoing a')) \/
    (recv_all fcntl_setfd p (length ms) b = (Ok ms, b') /\ incoming b' = more /\ closed b' = closed b /\ lost b' = lost b).
Proof using setfd_ok.
  intros p [Eo Hp]%send_all_sent Ea Hf Hi Hm Hq. rewrite Ea in Eo. cbn in Eo. rewrite Eo in *.
  destruct (recv_all_quiet c ms more b Hf Hp Hq Hi Hm) as (b' & [H | (E & I & C & L & _)]); exists b'; [by left |].
  right. split_and!; try done. rewrite Hi in I. by apply app_inv_head in I.
Qed.

(** In the length-prefixed framing the frames also arrive in order and complete, with the descriptors of all of them in the
    order they were sent, and no descriptor arrives after its frame: those of the first [k] frames are among
    those of the first [k] results. This is for runs with at most 64 descriptors in all. *)
Theorem descriptors_never_late ms a a' b :
  send_all ProfileR34 ms a = (Ok tt, a') -> outgoing a = [] -> incoming b = outgoing a' -> fd_recv_buf b = [] ->
  zlen (concat ms.*2) <= MAX_FDS_PER_FRAME -> Forall quiet (recvs b) ->
  exists b', (recv_all fcntl_setfd ProfileR34 (length ms) b = (Err Blocked, b') /\ ready (recvs b) < zlen (incoming b)) \/
  exists rs, recv_all fcntl_setfd ProfileR34 (length ms) b = (Ok rs, b') /\
    rs.*1 = ms.*1 /\ concat rs.*2 = concat ms.*2 /\ (forall k, concat (take k ms.*2) `prefix_of` concat (take k rs.*2)) /\
    incoming b' = [] /\ fd_recv_buf b' = [] /\ closed b' = closed b /\ lost b' = lost b.
Proof using setfd_ok.
  intros [Eo Hp]%send_all_sent Ea Hi Hl Hz Hq. rewrite Ea in Eo. cbn in Eo. rewrite Eo in Hi.
  assert (Hz' : zlen (fds_of (incoming b)) <= MAX_FDS_PER_FRAME) by (by rewrite Hi, fds_of_wires).
  destruct (recv_all_r34 ms b [] Hp Hq Hi Hl Hz') as (b' & [H | (rs & E & R1 & R2 & R3 & (I & C & L & _) & R5)]);
    exists b'; [by left |].
  right. exists rs. split_and!; try done. rewrite <- (app_nil_r (incoming b)) in I at 1. by apply app_inv_head in I.
Qed.
End Received.

(** * Executed runs *)

Definition sample_fcntl (fd : Z) : option io_error := None.
Definition socket_of (i : list item) (sends : list SendEvent) (recvs : list RecvEvent) : Socket :=
  mkSocket i [] sends recvs [] [] [].

(** Two messages; the sender's calls take 3 bytes, are interrupted, and take the rest. *)
Definition sample_body : list byte := [x07; x08].
Definition sample_message : list byte := to_le 4 0 ++ to_le 4 2 ++ zeros 8 ++ sample_body.
Definition sample_messages : list (list byte * list Z) := [(sample_message, [10; 11]); (sample_message, [12])].
Definition sample_sender : Socket :=
  socket_of [] [Accepts 3; SendErrno (io_error_of_kind Interrupted); Accepts 100; Accepts 100] [].
Definition sample_receiver (i : list item) : Socket :=
  socket_of i [] (RecvErrno (io_error_of_kind Interrupted) :: repeat (Delivers 5) 20).

Lemma sample_framed : Forall (fun m : list byte * list Z => framed m.1) sample_messages.
Proof. repeat constructor; exists 0, sample_body; (split_and!; [done | split; done | by vm_compute]). Qed.

Lemma sample_quiet i : Forall quiet (recvs (sample_receiver i)).
Proof. repeat constructor. Qed.

Lemma descriptors_stay_with_message_witness :
  let p := ProfileAndroid13Plus (mkA13 2) in
  exists b', recv_all sample_fcntl p 2 (sample_receiver (snd (send_all p sample_messages sample_sender)).(outgoing))
             = (Ok sample_messages, b') /\ incoming b' = [] /\ closed b' = [] /\ lost b' = [].
Proof.
  intros p. destruct (send_all p sample_messages sample_sender) as [r a'] eqn:E.
  pose proof E as E0. vm_compute in E0. injection E0 as <- Ea.
  destruct (descriptors_stay_with_message sample_fcntl (fun _ => eq_refl) (mkA13 2) sample_messages sample_sender a'
    (sample_receiver (outgoing a')) [] E eq_refl sample_framed (eq_sym (app_nil_r _)) (Forall_nil_2 _) (sample_quiet _))
    as (b' & [[H _] | (H & I & C & L)]).
  - exfalso. clear E. subst a'. vm_compute in H. discriminate.
  - exists b'. done.
Defined.

Definition sample_frames : list (list byte * list Z) := [([x01], [10]); ([x02], []); ([x03], [11])].

Lemma descriptors_never_late_witness :
  exists rs b', recv_all sample_fcntl ProfileR34 3 (sample_receiver (snd (send_all ProfileR34 sample_frames
      (socket_of [] [Accepts 100; Accepts 2; Accepts 100; Accepts 100] []))).(outgoing)) = (Ok rs, b') /\
    rs.*1 = sample_frames.*1 /\ concat rs.*2 = [10; 11].
Proof.
  set (a := socket_of _ _ _). destruct (send_all ProfileR34 sample_frames a) as [r a'] eqn:E.
  pose proof E as E0. vm_compute in E0. injection E0 as <- Ea.
  destruct (descriptors_never_late sample_fcntl (fun _ => eq_refl) sample_frames a a'
    (sample_receiver (outgoing a')) E eq_refl eq_refl eq_refl ltac:(by vm_compute) (sample_quiet _))
    as (b' & [[H _] | (rs & H & R1 & R2 & _)]).
  - exfalso. clear E. subst a'. vm_compute in H. discriminate.
  - exists rs, b'. done.
Defined.

(** The second message has more descriptors than one control message holds room for: the receive fails, what the kernel passed is closed. *)
Definition crowded : list item := attach (map Z.of_nat (seq 0 70)) sample_message.

Lemma descriptors_accounted_witness : exists s',
  recv_msg_with_fds sample_fcntl (ProfileAndroid13Plus (mkA13 2)) (sample_receiver crowded) = (Err (Failed truncated_control), s') /\
  occurs 69 (lost s') = 1 /\ occurs 3 (closed s') = 1.
Proof.
  destruct (recv_msg_with_fds sample_fcntl (ProfileAndroid13Plus (mkA13 2)) (sample_receiver crowded)) as [r s'] eqn:E.
  pose proof E as E0. vm_compute in E0. injection E0 as <- Es. exists s'. split; [done |].
  destruct (descriptors_accounted sample_fcntl _ _ _ _ E ltac:(done)) as (_ & _ & t & Et & H). clear E.
  specialize (H 69) as H69. specialize (H 3) as H3. clear H. subst s'. by vm_compute.
Defined.

(** Two frames of the length-prefixed framing that one call delivers: the descriptor of the second is
    given to the first. The barrier of unix(7) is before a second set of descriptors only. *)
Lemma descriptor_arrives_early : exists b',
  let a := socket_of [] [Accepts 100; Accepts 100] [] in
  let sent := outgoing (snd (send_all ProfileR34 [([x01], []); ([x02], [10])] a)) in
  recv_all sample_fcntl ProfileR34 2 (socket_of sent [] [Delivers 8192]) = (Ok [([x01], [10]); ([x02], [])], b').
Proof. eexists. by vm_compute. Qed.

(** When a first call gave part of a frame, the next can give the rest with the descriptors of the next frame: two frames
    that each have a legal number of descriptors exceed the limit of one. *)
Lemma legal_frames_refused :
  let a := socket_of [] [Accepts 100; Accepts 100] [] in
  let fds := map Z.of_nat (seq 0 40) in
  let sent := outgoing (snd (send_all ProfileR34 [([x01], fds); ([x02], fds)] a)) in
  fst (recv_all sample_fcntl ProfileR34 2 (socket_of sent [] [Delivers 3; Delivers 8192])) = Err (Failed too_many).
Proof. by vm_compute. Qed.
