(* ===== verification/RpcState.v ===== *)
(** The per-session object table (src/rsbinder/src/rpc/state.rs): local nodes
    and their strong counts, remote proxies, and the per-node ordering of oneway
    calls; with the two protocols it takes part in, the reference counting
    between the owner and the holder of an object (session.rs [write_binder],
    [read_binder], [rollback_outgoing], rpc/proxy.rs [RpcProxy::drop]) and the
    ordered dispatch of oneway calls by several workers (session.rs
    [dispatch_oneway_ordered]), as step relations. *)

From Stdlib Require Import ZArith Lia Strings.Byte.
From stdpp Require Import base gmap list sorting.
From S2P Require Import Prelude Errors Address Wire WireAndroid13.

(** A binder is its allocation; [binder_ptr] is the data pointer. *)
Record SIBinder : Type := mkSib { binder_ptr : Z }.

#[export] Instance SIBinder_eq_dec : EqDecision SIBinder.
Proof. solve_decision. Defined.

Record AsyncTodo : Type := mkTodo {
  todo_number : Z;
  todo_txn : WireTransaction;
  todo_fds : list Z
}.

Inductive DropReason : Type :=
| UnknownAddress
| StaleAsyncNumber.

Inductive AsyncDecision : Type :=
| Dispatch (t : WireTransaction) (fds : list Z)
| Enqueued
| Drop (r : DropReason)
| Terminate (pending : Z).

Definition ASYNC_TODO_TERMINATE_LEVEL : Z := 10000.

(** [async_todo] is a min-heap by number: a list kept sorted, whose head is
    [peek]. Entries with equal numbers stay in order of arrival here; the heap
    leaves their order open. *)
Record LocalNode : Type := mkNode {
  node_binder : SIBinder;
  strong : Z;
  next_async_number : Z;
  async_todo : list AsyncTodo
}.

Record RpcState : Type := mkState {
  local_nodes : gmap RpcAddress LocalNode;
  local_by_ptr : gmap Z RpcAddress;
  remote_proxies : gmap RpcAddress Z;
  remote_send_async_counters : gmap RpcAddress Z;
  addr_counter : Z;
  space : AddressSpace
}.

Definition state_new (space : AddressSpace) : RpcState := mkState ∅ ∅ ∅ ∅ 0 space.

Definition set_nodes (s : RpcState) (nodes : gmap RpcAddress LocalNode) : RpcState :=
  mkState nodes (local_by_ptr s) (remote_proxies s) (remote_send_async_counters s)
          (addr_counter s) (space s).

Definition set_strong (n : LocalNode) (k : Z) : LocalNode :=
  mkNode (node_binder n) k (next_async_number n) (async_todo n).

Definition set_async (n : LocalNode) (next : Z) (todo : list AsyncTodo) : LocalNode :=
  mkNode (node_binder n) (strong n) next todo.

(** * Local nodes *)

Definition on_binder_leaving (binder : SIBinder) (s : RpcState)
  : outcome StatusCode RpcAddress * RpcState :=
  let ptr := binder_ptr binder in
  match local_by_ptr s !! ptr with
  | Some addr =>
      match local_nodes s !! addr with
      | Some node =>
          (Ok addr, set_nodes s (<[addr := set_strong node (strong node + 1)]> (local_nodes s)))
      | None => (Ok addr, s)
      end
  | None =>
      if u32_max <=? addr_counter s then (Err StFailedTransaction, s)
      else
        let (addr, counter) := unique (addr_counter s) (space s) in
        (Ok addr,
         mkState (<[addr := mkNode binder 1 0 []]> (local_nodes s))
                 (<[ptr := addr]> (local_by_ptr s))
                 (remote_proxies s) (remote_send_async_counters s) counter (space s))
  end.

Definition lookup_local (addr : RpcAddress) (s : RpcState) : option SIBinder :=
  node_binder <$> local_nodes s !! addr.

(** [local_nodes.remove(addr)] and [local_by_ptr.retain(|_, a| a != addr)]. *)
Definition remove_node (addr : RpcAddress) (s : RpcState) : RpcState :=
  mkState (delete addr (local_nodes s))
          (filter (fun kv => kv.2 <> addr) (local_by_ptr s))
          (remote_proxies s) (remote_send_async_counters s) (addr_counter s) (space s).

Definition cancel_binder_leaving (addr : RpcAddress) (s : RpcState) : RpcState :=
  match local_nodes s !! addr with
  | Some node =>
      let k := strong node - 1 in
      if k <=? 0 then remove_node addr s
      else set_nodes s (<[addr := set_strong node k]> (local_nodes s))
  | None => s
  end.

Definition dec_strong_local (addr : RpcAddress) (amount : Z) (s : RpcState)
  : bool * RpcState :=
  match local_nodes s !! addr with
  | Some node =>
      let k := strong node - amount in
      if k <=? 0 then (true, remove_node addr s)
      else (false, set_nodes s (<[addr := set_strong node k]> (local_nodes s)))
  | None => (false, s)
  end.

(** * Remote proxies *)

(** [alive] says whether a [Weak] upgrades; [make] is the allocation of the new
    proxy. *)
Definition remote_proxy (alive : Z -> bool) (addr : RpcAddress) (make : Z) (s : RpcState)
  : (Z * bool) * RpcState :=
  match remote_proxies s !! addr with
  | Some weak =>
      if alive weak then ((weak, true), s)
      else ((make, false),
            mkState (local_nodes s) (local_by_ptr s) (<[addr := make]> (remote_proxies s))
                    (remote_send_async_counters s) (addr_counter s) (space s))
  | None =>
      ((make, false),
       mkState (local_nodes s) (local_by_ptr s) (<[addr := make]> (remote_proxies s))
               (remote_send_async_counters s) (addr_counter s) (space s))
  end.

Definition forget_remote_if (addr : RpcAddress) (who : Z) (s : RpcState) : RpcState :=
  match remote_proxies s !! addr with
  | Some weak =>
      if weak =? who then
        mkState (local_nodes s) (local_by_ptr s) (delete addr (remote_proxies s))
                (delete addr (remote_send_async_counters s)) (addr_counter s) (space s)
      else s
  | None => s
  end.

Definition remote_proxy_snapshot (alive : Z -> bool) (s : RpcState) : list Z :=
  filter (fun w => alive w = true) (map_to_list (remote_proxies s)).*2.

(** * Oneway ordering *)

Definition set_counters (s : RpcState) (c : gmap RpcAddress Z) : RpcState :=
  mkState (local_nodes s) (local_by_ptr s) (remote_proxies s) c (addr_counter s) (space s).

Definition next_send_async_number (addr : RpcAddress) (s : RpcState) : Z * RpcState :=
  let n := default 0 (remote_send_async_counters s !! addr) in
  (n, set_counters s (<[addr := wrap_u 64 (n + 1)]> (remote_send_async_counters s))).

Definition cancel_send_async_number (addr : RpcAddress) (consumed : Z) (s : RpcState)
  : RpcState :=
  match remote_send_async_counters s !! addr with
  | Some counter =>
      if counter =? wrap_u 64 (consumed + 1)
      then set_counters s (<[addr := consumed]> (remote_send_async_counters s))
      else s
  | None => s
  end.

(** [BinaryHeap::push]. *)
Fixpoint heap_push (t : AsyncTodo) (h : list AsyncTodo) : list AsyncTodo :=
  match h with
  | [] => [t]
  | x :: h' => if todo_number x <=? todo_number t then x :: heap_push t h' else t :: h
  end.

Definition dispatch_async_or_enqueue (addr : RpcAddress) (wire_async : Z)
    (txn : WireTransaction) (in_fds : list Z) (s : RpcState) : AsyncDecision * RpcState :=
  match local_nodes s !! addr with
  | None => (Drop UnknownAddress, s)
  | Some node =>
      if wire_async =? next_async_number node then (Dispatch txn in_fds, s)
      else if next_async_number node <? wire_async then
        let todo := heap_push (mkTodo wire_async txn in_fds) (async_todo node) in
        let num_pending := zlen todo in
        if ASYNC_TODO_TERMINATE_LEVEL <=? num_pending then
          (Terminate num_pending,
           set_nodes s (<[addr := set_async node (next_async_number node) []]> (local_nodes s)))
        else
          (Enqueued,
           set_nodes s (<[addr := set_async node (next_async_number node) todo]> (local_nodes s)))
      else (Drop StaleAsyncNumber, s)
  end.

(** The loop that drops entries below the expected number. *)
Fixpoint drop_stale (next : Z) (h : list AsyncTodo) : list AsyncTodo :=
  match h with
  | [] => []
  | top :: h' => if next <=? todo_number top then h else drop_stale next h'
  end.

Definition advance_and_pop_async (addr : RpcAddress) (s : RpcState)
  : option (WireTransaction * list Z) * RpcState :=
  match local_nodes s !! addr with
  | None => (None, s)
  | Some node =>
      let next := wrap_u 64 (next_async_number node + 1) in
      let todo := drop_stale next (async_todo node) in
      match todo with
      | top :: rest =>
          if todo_number top =? next then
            (Some (todo_txn top, todo_fds top),
             set_nodes s (<[addr := set_async node next rest]> (local_nodes s)))
          else (None, set_nodes s (<[addr := set_async node next todo]> (local_nodes s)))
      | [] => (None, set_nodes s (<[addr := set_async node next todo]> (local_nodes s)))
      end
  end.

Definition local_node_count (s : RpcState) : Z := Z.of_nat (size (local_nodes s)).

(** * The invariant of the table *)

Definition todo_le (a b : AsyncTodo) : Prop := todo_number a <= todo_number b.

(** The queue of a node: sorted, nothing below the expected number, and below
    the watermark. *)
Definition todo_ok (n : LocalNode) : Prop :=
  in_u 64 (next_async_number n) /\
  StronglySorted todo_le (async_todo n) /\
  Forall (fun t => next_async_number n <= todo_number t) (async_todo n) /\
  zlen (async_todo n) < ASYNC_TODO_TERMINATE_LEVEL.

Record state_wf (s : RpcState) : Prop := {
  wf_inverse ptr addr :
    local_by_ptr s !! ptr = Some addr <->
    exists n, local_nodes s !! addr = Some n /\ binder_ptr (node_binder n) = ptr;
  wf_strong addr n : local_nodes s !! addr = Some n -> 1 <= strong n;
  wf_todo addr n : local_nodes s !! addr = Some n -> todo_ok n;
  wf_minted addr n :
    local_nodes s !! addr = Some n ->
    exists c, 0 < c <= addr_counter s /\ addr = minted c (space s);
  wf_counter : 0 <= addr_counter s <= u32_max
}.

(** Any call a session makes on the table, with any argument a peer can cause. *)
Inductive state_step : RpcState -> RpcState -> Prop :=
| st_leave b s : state_step s (snd (on_binder_leaving b s))
| st_cancel_leave a s : state_step s (cancel_binder_leaving a s)
| st_dec a amount s : in_u 32 amount -> state_step s (snd (dec_strong_local a amount s))
| st_proxy alive a p s : state_step s (snd (remote_proxy alive a p s))
| st_forget a p s : state_step s (forget_remote_if a p s)
| st_send a s : state_step s (snd (next_send_async_number a s))
| st_cancel_send a n s : state_step s (cancel_send_async_number a n s)
| st_arrive a n t fds s :
    in_u 64 n -> state_step s (snd (dispatch_async_or_enqueue a n t fds s))
| st_advance a s : state_step s (snd (advance_and_pop_async a s)).

Inductive reachable (sp : AddressSpace) : RpcState -> Prop :=
| reach_new : reachable sp (state_new sp)
| reach_step s s' : reachable sp s -> state_step s s' -> reachable sp s'.

(** ** Lemmas of the queue *)

Lemma heap_push_perm t h : heap_push t h ≡ₚ t :: h.
Proof.
  induction h as [| x h IH]; simpl; [done |]. case_leb; [| done].
  rewrite IH. apply Permutation_swap.
Qed.

Lemma heap_push_sorted t h :
  StronglySorted todo_le h -> StronglySorted todo_le (heap_push t h).
Proof.
  induction 1 as [| x h Hs IH Hx]; simpl; [by repeat constructor |].
  case_leb; constructor; try done.
  - rewrite heap_push_perm. by constructor.
  - by constructor.
  - constructor; [unfold todo_le; lia |].
    eapply Forall_impl; [exact Hx |]. unfold todo_le. intros; simpl in *; lia.
Qed.

Lemma drop_stale_suffix next h : exists pre,
  h = pre ++ drop_stale next h /\ Forall (fun t => todo_number t < next) pre.
Proof.
  induction h as [| x h (pre & E & Hp)]; simpl; [by exists [] |].
  case_leb; [by exists [] |]. exists (x :: pre). simpl. rewrite <- E. by split; [| constructor].
Qed.

Lemma drop_stale_ok next h :
  StronglySorted todo_le h ->
  StronglySorted todo_le (drop_stale next h) /\
  Forall (fun t => next <= todo_number t) (drop_stale next h).
Proof.
  induction 1 as [| x h Hs IH Hx]; simpl; [by repeat constructor |].
  case_leb; [| done]. split; [by constructor |]. constructor; [done |].
  eapply Forall_impl; [exact Hx |]. unfold todo_le. intros; simpl in *; lia.
Qed.

Lemma zlen_drop_stale next h : zlen (drop_stale next h) <= zlen h.
Proof. destruct (drop_stale_suffix next h) as (pre & E & _). rewrite E at 2. zlen_lia. Qed.

(** ** Lemmas of the table *)

Lemma wf_update s addr n n' :
  state_wf s -> local_nodes s !! addr = Some n ->
  node_binder n' = node_binder n -> 1 <= strong n' -> todo_ok n' ->
  state_wf (set_nodes s (<[addr := n']> (local_nodes s))).
Proof.
  intros [Hi Hst Ht Hm Hc] Hn Hb Hs' Ht'. split; simpl; try done.
  - intros ptr a. rewrite Hi. split; intros (m & Em & Hp).
    + destruct (decide (a = addr)) as [-> | Hne].
      * rewrite lookup_insert_eq. exists n'. split; [done |]. congruence.
      * rewrite lookup_insert_ne by done. eauto.
    + apply lookup_insert_Some in Em as [[<- <-] | [Hne Em]]; [| eauto].
      exists n. split; [done |]. congruence.
  - intros a m [[<- <-] | [_ Em]]%lookup_insert_Some; eauto.
  - intros a m [[<- <-] | [_ Em]]%lookup_insert_Some; eauto.
  - intros a m [[<- <-] | [_ Em]]%lookup_insert_Some; eauto.
Qed.

Lemma wf_remove s addr : state_wf s -> state_wf (remove_node addr s).
Proof.
  intros [Hi Hst Ht Hm Hc]. split; simpl; try done.
  - intros ptr a. rewrite map_lookup_filter_Some. simpl. rewrite Hi. split.
    + intros [(m & Em & Hp) Hne]. exists m. by rewrite lookup_delete_ne by done.
    + intros (m & [Hne Em]%lookup_delete_Some & Hp). split; [eauto | congruence].
  - intros a m [_ Em]%lookup_delete_Some. eauto.
  - intros a m [_ Em]%lookup_delete_Some. eauto.
  - intros a m [_ Em]%lookup_delete_Some. eauto.
Qed.

Lemma todo_ok_set_strong n k : todo_ok n -> todo_ok (set_strong n k).
Proof. done. Qed.

Lemma wf_fresh s c n :
  state_wf s -> addr_counter s < c <= u32_max -> local_nodes s !! minted c (space s) = Some n -> False.
Proof.
  intros Hw Hc Hn. destruct (wf_minted s Hw _ _ Hn) as (c' & Hc' & E).
  pose proof (wf_counter s Hw). unfold u32_max in *.
  apply minted_inj in E as [E _]; unfold in_u; lia.
Qed.

(** The state on a first send. *)
Lemma leave_new b s :
  state_wf s -> local_by_ptr s !! binder_ptr b = None -> addr_counter s < u32_max ->
  on_binder_leaving b s =
  (Ok (minted (addr_counter s + 1) (space s)),
   mkState (<[minted (addr_counter s + 1) (space s) := mkNode b 1 0 []]> (local_nodes s))
           (<[binder_ptr b := minted (addr_counter s + 1) (space s)]> (local_by_ptr s))
           (remote_proxies s) (remote_send_async_counters s) (addr_counter s + 1) (space s)).
Proof.
  intros Hw Hp Hc. unfold on_binder_leaving. rewrite Hp.
  rewrite (proj2 (Z.leb_gt _ _)) by done. rewrite unique_minted; [done |].
  pose proof (wf_counter s Hw). unfold in_u, u32_max in *. lia.
Qed.

Lemma todo_ok_fresh b k : todo_ok (mkNode b k 0 []).
Proof. by repeat constructor. Qed.

Lemma wf_leave b s : state_wf s -> state_wf (snd (on_binder_leaving b s)).
Proof.
  intros Hw. destruct (local_by_ptr s !! binder_ptr b) as [addr |] eqn:Ep.
  - unfold on_binder_leaving. rewrite Ep.
    destruct (local_nodes s !! addr) as [n |] eqn:En; [| done].
    apply (wf_update s addr n); [done | done | done | |].
    + pose proof (wf_strong s Hw _ _ En). simpl. lia.
    + exact (wf_todo s Hw _ _ En).
  - destruct (Z.ltb_spec (addr_counter s) u32_max) as [Hc | Hc].
    2: { unfold on_binder_leaving. rewrite Ep. by rewrite (proj2 (Z.leb_le _ _)). }
    rewrite leave_new by done. set (a := minted _ _).
    assert (Hfresh : local_nodes s !! a = None).
    { destruct (local_nodes s !! a) as [n |] eqn:En; [| done]. exfalso.
      eapply wf_fresh; [done | | exact En]. lia. }
    destruct Hw as [Hi Hst Ht Hm Hcn]. split; simpl.
    + intros ptr a'. rewrite !lookup_insert_Some, Hi. split.
      * intros [[<- <-] | [Hne (n & En & Hp)]].
        -- exists (mkNode b 1 0 []). by rewrite lookup_insert_eq.
        -- exists n. rewrite lookup_insert_ne by congruence. done.
      * intros (n & [[<- <-] | [Hne En]]%lookup_insert_Some & Hp); [by left |].
        right. split; [| eauto]. intros Heq.
        assert (local_by_ptr s !! ptr = Some a') by (apply Hi; eauto). congruence.
    + intros a' n [[<- <-] | [_ En]]%lookup_insert_Some; [simpl; lia | eauto].
    + intros a' n [[<- <-] | [_ En]]%lookup_insert_Some; [apply todo_ok_fresh | eauto].
    + intros a' n [[<- <-] | [_ En]]%lookup_insert_Some.
      * exists (addr_counter s + 1). split; [lia | done].
      * destruct (Hm _ _ En) as (c & Hc' & ->). exists c. split; [lia | done].
    + lia.
Qed.

Lemma wf_count addr k s n :
  state_wf s -> local_nodes s !! addr = Some n ->
  state_wf (if k <=? 0 then remove_node addr s
            else set_nodes s (<[addr := set_strong n k]> (local_nodes s))).
Proof.
  intros Hw En. case_leb; [by apply wf_remove |].
  apply (wf_update s addr n); [done | done | done | simpl; lia | exact (wf_todo s Hw _ _ En)].
Qed.

Lemma wf_arrive addr n t fds s :
  state_wf s -> in_u 64 n -> state_wf (snd (dispatch_async_or_enqueue addr n t fds s)).
Proof.
  intros Hw Hn. unfold dispatch_async_or_enqueue.
  destruct (local_nodes s !! addr) as [node |] eqn:En; [| done].
  destruct (wf_todo s Hw _ _ En) as (Hx & Hs & Hf & Hl).
  pose proof (wf_strong s Hw _ _ En).
  destruct (Z.eqb_spec n (next_async_number node)); [done |].
  destruct (Z.ltb_spec (next_async_number node) n); [| done]. case_leb; simpl;
    (apply (wf_update s addr node); [done | done | done | done |]).
  - by repeat constructor; destruct Hx.
  - split_and!; simpl; [done | by apply heap_push_sorted | | done].
    rewrite heap_push_perm. constructor; [simpl; lia | done].
Qed.

Lemma wf_advance addr s : state_wf s -> state_wf (snd (advance_and_pop_async addr s)).
Proof.
  intros Hw. unfold advance_and_pop_async.
  destruct (local_nodes s !! addr) as [node |] eqn:En; [| done].
  destruct (wf_todo s Hw _ _ En) as (Hx & Hs & Hf & Hl).
  pose proof (wf_strong s Hw _ _ En).
  set (next := wrap_u 64 (next_async_number node + 1)).
  assert (Hnx : in_u 64 next) by (by apply wrap_u_range).
  pose proof (zlen_drop_stale next (async_todo node)).
  destruct (drop_stale_ok next _ Hs) as [Hs' Hf'].
  destruct (drop_stale next (async_todo node)) as [| top rest] eqn:Ed; simpl.
  - apply (wf_update s addr node); [done | done | done | done | by repeat constructor; destruct Hnx].
  - apply StronglySorted_inv in Hs' as [Hs1 Hs2]. apply Forall_cons in Hf' as [Hf1 Hf2].
    case_leb; simpl; (apply (wf_update s addr node); [done | done | done | done |]);
      (split_and!; simpl; [done | | | zlen_lia]); try done; by constructor.
Qed.

Lemma state_step_wf s s' : state_wf s -> state_step s s' -> state_wf s'.
Proof.
  intros Hw Hst. destruct Hst as [| a s | a amount s Ha | alive a p s | a p s | a s | a n s | | ];
    [by apply wf_leave | | | | | | | by apply wf_arrive | by apply wf_advance].
  - unfold cancel_binder_leaving. destruct (local_nodes s !! a) as [n |] eqn:En; [| done].
    by apply wf_count.
  - unfold dec_strong_local. destruct (local_nodes s !! a) as [n |] eqn:En; [| done].
    pose proof (wf_count a (strong n - amount) s n Hw En). simpl. by case_leb.
  - unfold remote_proxy. destruct Hw. repeat case_match; by split.
  - unfold forget_remote_if. destruct Hw. repeat case_match; by split.
  - destruct Hw. by split.
  - unfold cancel_send_async_number. destruct Hw. repeat case_match; by split.
Qed.

Lemma state_new_wf sp : state_wf (state_new sp).
Proof.
  split; simpl; try (intros; by simplify_map_eq).
  intros ptr addr. rewrite lookup_empty. split; [done |].
  by intros (n & En%lookup_empty_Some & _).
Qed.

Lemma reachable_wf sp s : reachable sp s -> state_wf s /\ space s = sp.
Proof.
  induction 1 as [| s s' Hr [Hw Hsp] Hst]; [split; [apply state_new_wf | done] |].
  split; [by eapply state_step_wf |]. rewrite <- Hsp. destruct Hst;
    unfold on_binder_leaving, cancel_binder_leaving, dec_strong_local, remote_proxy,
      forget_remote_if, cancel_send_async_number, dispatch_async_or_enqueue,
      advance_and_pop_async, unique; by repeat case_match.
Qed.

(** * Reference counting between two endpoints *)

(** The life of one proxy allocation: referenced; its last reference gone but
    [Drop] not run; [DEC_STRONG] handed over but the table entry not yet
    forgotten. *)
Inductive phase : Type := Live | Dying | Sent.

#[export] Instance phase_eq_dec : EqDecision phase.
Proof. solve_decision. Defined.

(** The owner of some objects, the endpoint that holds proxies to them, and what
    travels between the two. The connections of a session are independent, so
    the messages in flight are unordered. *)
Record world : Type := mkWorld {
  owner : RpcState;
  holder : RpcState;
  reserved : list RpcAddress;   (* written to a parcel, not yet sent *)
  flight : list RpcAddress;     (* binders on the wire *)
  decs : list RpcAddress;       (* DEC_STRONG(1) on the wire *)
  proxies : gmap Z (RpcAddress * phase)
}.

Definition proxy_alive (w : world) (p : Z) : bool :=
  match proxies w !! p with Some (_, Live) => true | _ => false end.

(** [read_binder] of an object that is not its own. *)
Definition receive (a : RpcAddress) (p : Z) (f : list RpcAddress) (w : world) : world :=
  match remote_proxy (proxy_alive w) a p (holder w) with
  | ((_, true), h) => mkWorld (owner w) h (reserved w) f (a :: decs w) (proxies w)
  | ((q, false), h) =>
      mkWorld (owner w) h (reserved w) f (decs w) (<[q := (a, Live)]> (proxies w))
  end.

Inductive world_step : world -> world -> Prop :=
| ws_write b a o w :                       (* write_binder *)
    on_binder_leaving b (owner w) = (Ok a, o) ->
    world_step w (mkWorld o (holder w) (a :: reserved w) (flight w) (decs w) (proxies w))
| ws_send a r w :                          (* the transaction goes out *)
    reserved w ≡ₚ a :: r ->
    world_step w (mkWorld (owner w) (holder w) r (a :: flight w) (decs w) (proxies w))
| ws_rollback a r w :                      (* rollback_outgoing *)
    reserved w ≡ₚ a :: r ->
    world_step w (mkWorld (cancel_binder_leaving a (owner w)) (holder w) r (flight w)
                          (decs w) (proxies w))
| ws_receive a p f w :                     (* read_binder *)
    flight w ≡ₚ a :: f -> proxies w !! p = None -> world_step w (receive a p f w)
| ws_release p a w :                       (* last Arc dropped *)
    proxies w !! p = Some (a, Live) ->
    world_step w (mkWorld (owner w) (holder w) (reserved w) (flight w) (decs w)
                          (<[p := (a, Dying)]> (proxies w)))
| ws_drop p a w :                          (* Drop: queue_dec_strong *)
    proxies w !! p = Some (a, Dying) ->
    world_step w (mkWorld (owner w) (holder w) (reserved w) (flight w) (a :: decs w)
                          (<[p := (a, Sent)]> (proxies w)))
| ws_forget p a w :                        (* Drop: forget_remote_if *)
    proxies w !! p = Some (a, Sent) ->
    world_step w (mkWorld (owner w) (forget_remote_if a p (holder w)) (reserved w)
                          (flight w) (decs w) (delete p (proxies w)))
| ws_dec a d w :                           (* the owner applies a DEC_STRONG *)
    decs w ≡ₚ a :: d ->
    world_step w (mkWorld (snd (dec_strong_local a 1 (owner w))) (holder w) (reserved w)
                          (flight w) d (proxies w)).

Inductive world_reachable : world -> Prop :=
| wr_init so sh :
    world_reachable (mkWorld (state_new so) (state_new sh) [] [] [] ∅)
| wr_step w w' : world_reachable w -> world_step w w' -> world_reachable w'.

(** ** Counting *)

Definition cnt (a : RpcAddress) (l : list RpcAddress) : Z :=
  Z.of_nat (length (filter (fun x => x = a) l)).

Definition counted (a : RpcAddress) (kv : Z * (RpcAddress * phase)) : Prop :=
  kv.2.1 = a /\ kv.2.2 <> Sent.

#[export] Instance counted_dec a kv : Decision (counted a kv).
Proof. unfold counted. apply _. Defined.

(** The proxies of [a] that still owe their [DEC_STRONG]. *)
Definition held (a : RpcAddress) (m : gmap Z (RpcAddress * phase)) : Z :=
  Z.of_nat (size (filter (counted a) m)).

Definition strong_of (a : RpcAddress) (s : RpcState) : Z :=
  match local_nodes s !! a with Some n => strong n | None => 0 end.

Lemma cnt_cons a x l : cnt a (x :: l) = (if decide (x = a) then 1 else 0) + cnt a l.
Proof. unfold cnt. rewrite filter_cons. case_decide; simpl length; lia. Qed.

Lemma cnt_perm a l k : l ≡ₚ k -> cnt a l = cnt a k.
Proof. intros E. unfold cnt. by rewrite E. Qed.

Lemma cnt_nonneg a l : 0 <= cnt a l.
Proof. unfold cnt. lia. Qed.

Lemma held_insert_new a b p m :
  m !! p = None -> held a (<[p := (b, Live)]> m) = (if decide (b = a) then 1 else 0) + held a m.
Proof.
  intros Hp. unfold held. case_decide as Hd.
  - rewrite map_filter_insert_True by done.
    rewrite map_size_insert_None; [lia |]. apply map_lookup_filter_None. by left.
  - rewrite map_filter_insert_False by (intros [? ?]; done).
    by rewrite delete_id.
Qed.

Lemma held_release a b p m :
  m !! p = Some (b, Live) -> held a (<[p := (b, Dying)]> m) = held a m.
Proof.
  intros Hp. unfold held. destruct (decide (b = a)) as [-> | Hne].
  - rewrite map_filter_insert_True by done. rewrite map_size_insert_Some; [done |].
    exists (a, Live). by apply map_lookup_filter_Some.
  - rewrite map_filter_insert_False by (intros [? ?]; done). do 2 f_equal.
    apply map_filter_delete_not. intros v Hv [? ?]. by simplify_eq/=.
Qed.

Lemma held_drop a b p m :
  m !! p = Some (b, Dying) ->
  held a m = (if decide (b = a) then 1 else 0) + held a (<[p := (b, Sent)]> m).
Proof.
  intros Hp. unfold held. rewrite map_filter_insert_False by (intros [? ?]; done).
  case_decide as Hd.
  - rewrite map_filter_delete, map_size_delete_Some.
    + assert (is_Some (filter (counted a) m !! p)) as [v Hv].
      { exists (b, Dying). by apply map_lookup_filter_Some. }
      pose proof (map_size_ne_0_lookup_2 (filter (counted a) m) p ltac:(eauto)). lia.
    + exists (b, Dying). by apply map_lookup_filter_Some.
  - rewrite Z.add_0_l. do 2 f_equal. symmetry. apply map_filter_delete_not.
    intros v Hv [? ?]. by simplify_eq/=.
Qed.

Lemma held_forget a b p m :
  m !! p = Some (b, Sent) -> held a (delete p m) = held a m.
Proof.
  intros Hp. unfold held. do 2 f_equal. apply map_filter_delete_not.
  intros v Hv [? ?]. by simplify_eq/=.
Qed.

Lemma held_pos a p ph m : m !! p = Some (a, ph) -> ph <> Sent -> 0 < held a m.
Proof.
  intros Hp Hph. unfold held.
  assert (size (filter (counted a) m) <> 0%nat); [| lia].
  apply (map_size_ne_0_lookup_2 _ p). exists (a, ph). by apply map_lookup_filter_Some.
Qed.

(** ** The balance *)

Definition one_if (b a : RpcAddress) : Z := if decide (b = a) then 1 else 0.

Lemma strong_of_leave b s a o x :
  state_wf s -> on_binder_leaving b s = (Ok a, o) ->
  strong_of x o = one_if a x + strong_of x s.
Proof.
  intros Hw. unfold one_if, strong_of.
  destruct (local_by_ptr s !! binder_ptr b) as [addr |] eqn:Ep.
  - pose proof (proj1 (wf_inverse s Hw _ _) Ep) as (n & En & _).
    unfold on_binder_leaving. rewrite Ep, En. intros [= <- <-]. simpl.
    case_decide as Hd; [subst | by rewrite lookup_insert_ne].
    rewrite lookup_insert_eq, En. simpl. lia.
  - destruct (Z.ltb_spec (addr_counter s) u32_max) as [Hc | Hc].
    2: { unfold on_binder_leaving. by rewrite Ep, (proj2 (Z.leb_le _ _)). }
    rewrite leave_new by done. intros [= <- <-]. cbn [local_nodes].
    case_decide as Hd; [| by rewrite lookup_insert_ne].
    rewrite <- Hd, lookup_insert_eq. simpl.
    destruct (local_nodes s !! _) as [n |] eqn:En; [| done]. exfalso.
    eapply wf_fresh; [done | | exact En]. lia.
Qed.

(** Both ways a count goes down by one. *)
Definition lower (a : RpcAddress) (s : RpcState) (n : LocalNode) : RpcState :=
  if strong n - 1 <=? 0 then remove_node a s
  else set_nodes s (<[a := set_strong n (strong n - 1)]> (local_nodes s)).

Lemma cancel_lower a s n :
  local_nodes s !! a = Some n -> cancel_binder_leaving a s = lower a s n.
Proof. intros En. unfold cancel_binder_leaving. by rewrite En. Qed.

Lemma dec_lower a s n :
  local_nodes s !! a = Some n -> snd (dec_strong_local a 1 s) = lower a s n.
Proof. intros En. unfold dec_strong_local, lower. rewrite En. by case_leb. Qed.

Lemma strong_of_lower a s n x :
  state_wf s -> local_nodes s !! a = Some n ->
  strong_of x s = one_if a x + strong_of x (lower a s n).
Proof.
  intros Hw En. pose proof (wf_strong s Hw _ _ En). unfold one_if, strong_of, lower.
  case_decide as Hd; [subst x; rewrite En |]; case_leb; simpl.
  - rewrite lookup_delete_eq. lia.
  - rewrite lookup_insert_eq. simpl. lia.
  - by rewrite lookup_delete_ne.
  - by rewrite lookup_insert_ne.
Qed.

Lemma strong_of_node a s : 0 < strong_of a s -> exists n, local_nodes s !! a = Some n.
Proof. unfold strong_of. case_match; [eauto | lia]. Qed.

Record world_inv (w : world) : Prop := {
  wi_owner : state_wf (owner w);
  wi_balance a :
    strong_of a (owner w)
    = cnt a (reserved w) + cnt a (flight w) + cnt a (decs w) + held a (proxies w);
  wi_live p a : proxies w !! p = Some (a, Live) -> remote_proxies (holder w) !! a = Some p;
  wi_table a p :
    remote_proxies (holder w) !! a = Some p -> exists ph, proxies w !! p = Some (a, ph)
}.

Lemma held_nonneg a m : 0 <= held a m.
Proof. unfold held. lia. Qed.

(** The node of an address that appears in a list of the world. *)
Lemma listed_node w a l r :
  world_inv w -> l ≡ₚ a :: r ->
  (forall x, cnt x l <= strong_of x (owner w)) ->
  exists n, local_nodes (owner w) !! a = Some n.
Proof.
  intros Hw Hp Hle. apply strong_of_node. specialize (Hle a).
  rewrite (cnt_perm _ _ _ Hp), cnt_cons, decide_True in Hle by done.
  pose proof (cnt_nonneg a r). lia.
Qed.

(** A fresh proxy replaces whatever the table had, as long as that is not
    live. *)
Lemma receive_fresh w a p f h :
  world_inv w -> flight w ≡ₚ a :: f -> proxies w !! p = None ->
  (forall q, remote_proxies (holder w) !! a = Some q -> proxy_alive w q = false) ->
  remote_proxies h = <[a := p]> (remote_proxies (holder w)) ->
  world_inv (mkWorld (owner w) h (reserved w) f (decs w) (<[p := (a, Live)]> (proxies w))).
Proof.
  intros [Ho Hb Hl Ht] Hf Hp Hdead Hh. split; simpl; [done | | |].
  - intros x. rewrite Hb, (cnt_perm _ _ _ Hf), cnt_cons, held_insert_new by done. lia.
  - intros q b [[<- [= <-]] | [Hne Hq]]%lookup_insert_Some; rewrite Hh.
    + by rewrite lookup_insert_eq.
    + rewrite lookup_insert_ne; [by apply Hl |]. intros ->.
      specialize (Hdead q (Hl _ _ Hq)). unfold proxy_alive in Hdead. by rewrite Hq in Hdead.
  - intros b q. rewrite Hh. intros [[<- <-] | [Hne Hq]]%lookup_insert_Some.
    + exists Live. by rewrite lookup_insert_eq.
    + destruct (Ht _ _ Hq) as [ph Hph]. exists ph. rewrite lookup_insert_ne; [done |].
      intros ->. congruence.
Qed.

Lemma receive_inv w a p f :
  world_inv w -> flight w ≡ₚ a :: f -> proxies w !! p = None -> world_inv (receive a p f w).
Proof.
  intros Hw Hf Hp. unfold receive, remote_proxy.
  destruct (remote_proxies (holder w) !! a) as [q |] eqn:Eq;
    [destruct (proxy_alive w q) eqn:Ea |].
  - destruct Hw as [Ho Hb Hl Ht]. split; simpl; try done.
    intros x. rewrite Hb, (cnt_perm _ _ _ Hf), !cnt_cons. lia.
  - apply receive_fresh; try done. intros; congruence.
  - apply receive_fresh; try done. intros; congruence.
Qed.

Lemma forget_inv w p a :
  world_inv w -> proxies w !! p = Some (a, Sent) ->
  world_inv (mkWorld (owner w) (forget_remote_if a p (holder w)) (reserved w)
                     (flight w) (decs w) (delete p (proxies w))).
Proof.
  intros [Ho Hb Hl Ht] Hp.
  assert (Hr : forall b q, b <> a \/ q <> p ->
    remote_proxies (forget_remote_if a p (holder w)) !! b = Some q <->
    remote_proxies (holder w) !! b = Some q).
  { intros b q Hne. unfold forget_remote_if.
    destruct (remote_proxies (holder w) !! a) as [r |] eqn:Er; [| done].
    destruct (Z.eqb_spec r p) as [-> |]; [simpl | done].
    rewrite lookup_delete_Some. split; [by intros [] |].
    intros Hq. split; [| done]. intros ->. destruct Hne; congruence. }
  assert (Hn : remote_proxies (forget_remote_if a p (holder w)) !! a <> Some p).
  { unfold forget_remote_if. destruct (remote_proxies (holder w) !! a) as [r |] eqn:Er.
    - destruct (Z.eqb_spec r p) as [-> |]; simpl; [by rewrite lookup_delete_eq |]. congruence.
    - by rewrite Er. }
  split; simpl; [done | | |].
  - intros x. by rewrite (held_forget x a p).
  - intros q b [Hne Hq]%lookup_delete_Some. apply Hr; [auto | by apply Hl].
  - intros b q Hq. destruct (decide (q = p)) as [-> | Hne].
    + destruct (decide (b = a)) as [-> | Hba]; [done |].
      apply Hr, Ht in Hq as [ph Hq]; [| auto]. congruence.
    + apply Hr, Ht in Hq as [ph Hq]; [| auto]. exists ph. by rewrite lookup_delete_ne.
Qed.

(** Changing the phase of a proxy that is no longer live in the table's eyes. *)
Lemma retire_inv w p a ph ph' d :
  world_inv w -> proxies w !! p = Some (a, ph) -> ph' <> Live ->
  (forall x, cnt x (decs w) + held x (proxies w)
             = cnt x d + held x (<[p := (a, ph')]> (proxies w))) ->
  world_inv (mkWorld (owner w) (holder w) (reserved w) (flight w) d
                     (<[p := (a, ph')]> (proxies w))).
Proof.
  intros [Ho Hb Hl Ht] Hp Hnl Hbal. split; simpl; [done | | |].
  - intros x. rewrite Hb. specialize (Hbal x). lia.
  - intros q b [[<- ?] | [Hne Hq]]%lookup_insert_Some; [congruence | by apply Hl].
  - intros b q Hq. destruct (Ht _ _ Hq) as [ph0 H0]. destruct (decide (q = p)) as [-> | Hne].
    + exists ph'. rewrite lookup_insert_eq. congruence.
    + exists ph0. by rewrite lookup_insert_ne.
Qed.

Lemma lower_wf a s n : state_wf s -> local_nodes s !! a = Some n -> state_wf (lower a s n).
Proof. intros Hw En. by apply wf_count. Qed.

Lemma world_step_inv w w' : world_inv w -> world_step w w' -> world_inv w'.
Proof.
  intros Hw Hst. pose proof Hw as [Ho Hb Hl Ht].
  assert (Hle : forall x, cnt x (reserved w) <= strong_of x (owner w) /\
                          cnt x (decs w) <= strong_of x (owner w)).
  { intros x. rewrite Hb. pose proof (cnt_nonneg x (reserved w)).
    pose proof (cnt_nonneg x (flight w)). pose proof (cnt_nonneg x (decs w)).
    pose proof (held_nonneg x (proxies w)). lia. }
  destruct Hst as [b a o w E | a r w Hr | a r w Hr | a p f w Hf Hp | p a w Hp
                   | p a w Hp | p a w Hp | a d w Hd].
  - split; simpl; [| | done | done].
    + pose proof (wf_leave b _ Ho) as H. by rewrite E in H.
    + intros x. rewrite (strong_of_leave _ _ _ _ x Ho E), Hb, cnt_cons.
      unfold one_if. case_decide; lia.
  - split; simpl; try done. intros x. rewrite Hb, (cnt_perm _ _ _ Hr), !cnt_cons. lia.
  - destruct (listed_node w a _ _ Hw Hr) as [n En]; [intros; apply Hle |].
    rewrite (cancel_lower _ _ _ En). split; simpl; [by apply lower_wf | | done | done].
    intros x. pose proof (strong_of_lower _ _ _ x Ho En) as E. rewrite Hb in E.
    rewrite (cnt_perm _ _ _ Hr), cnt_cons in E. unfold one_if in E. case_decide; lia.
  - by apply receive_inv.
  - eapply retire_inv; [done | exact Hp | done |].
    intros x. by rewrite (held_release x a p).
  - eapply retire_inv; [done | exact Hp | done |].
    intros x. rewrite cnt_cons, (held_drop x a p) by done. lia.
  - by apply forget_inv.
  - destruct (listed_node w a _ _ Hw Hd) as [n En]; [intros; apply Hle |].
    rewrite (dec_lower _ _ _ En). split; simpl; [by apply lower_wf | | done | done].
    intros x. pose proof (strong_of_lower _ _ _ x Ho En) as E. rewrite Hb in E.
    rewrite (cnt_perm _ _ _ Hd), cnt_cons in E. unfold one_if in E. case_decide; lia.
Qed.

Lemma world_reachable_inv w : world_reachable w -> world_inv w.
Proof.
  induction 1 as [so sh | w w' _ IH Hst]; [| by eapply world_step_inv].
  split; simpl; [apply state_new_wf | | |]; intros; by simplify_map_eq.
Qed.

(** * Ordered dispatch of oneway calls *)

(** The workers that serve one node: the table, the call being executed by
    [execute_dispatched] (the lock is not held meanwhile), the numbers of the
    calls started so far, in order, and the numbers that have arrived. *)
Record workers : Type := mkWorkers {
  table : RpcState;
  running : option Z;
  started : list Z;
  arrived : list Z
}.

(** The number of a popped entry is the node's expected number. *)
Definition expected (addr : RpcAddress) (s : RpcState) : Z :=
  match local_nodes s !! addr with Some n => next_async_number n | None => 0 end.

Definition pending (addr : RpcAddress) (s : RpcState) : list AsyncTodo :=
  match local_nodes s !! addr with Some n => async_todo n | None => [] end.

(** A worker takes a call off its connection: the first half of
    [dispatch_oneway_ordered]. *)
Definition arrive (addr : RpcAddress) (t : WireTransaction) (fds : list Z) (w : workers)
  : workers :=
  let n := async_number t in
  match dispatch_async_or_enqueue addr n t fds (table w) with
  | (Dispatch _ _, s) => mkWorkers s (Some n) (started w ++ [n]) (n :: arrived w)
  | (_, s) => mkWorkers s (running w) (started w) (n :: arrived w)
  end.

(** A worker finishes a call and looks for the next one: the body of the drain
    loop. *)
Definition finish (addr : RpcAddress) (w : workers) : workers :=
  match advance_and_pop_async addr (table w) with
  | (Some _, s) =>
      mkWorkers s (Some (expected addr s)) (started w ++ [expected addr s]) (arrived w)
  | (None, s) => mkWorkers s None (started w) (arrived w)
  end.

(** Any interleaving of arrivals, each number at most once, on any connection,
    and completions, while the backlog stays below the watermark. *)
Inductive worker_step (addr : RpcAddress) : workers -> workers -> Prop :=
| wk_arrive t fds w :
    0 <= async_number t < 2 ^ 64 - 1 -> async_number t ∉ arrived w ->
    zlen (pending addr (table w)) + 1 < ASYNC_TODO_TERMINATE_LEVEL ->
    worker_step addr w (arrive addr t fds w)
| wk_finish n w : running w = Some n -> worker_step addr w (finish addr w).

Inductive worker_reachable (addr : RpcAddress) (s : RpcState) : workers -> Prop :=
| wkr_init : worker_reachable addr s (mkWorkers s None [] [])
| wkr_step w w' :
    worker_reachable addr s w -> worker_step addr w w' -> worker_reachable addr s w'.

(** [0; 1; ..; k-1]. *)
Definition upto (k : Z) : list Z := seqZ 0 k.

(** While call [k-1] runs the node expects [k-1]; idle, it expects [k] and [k]
    has not arrived. The queue is exactly what arrived from [k] on. *)
Record workers_inv (addr : RpcAddress) (w : workers) : Prop := {
  wk_node : exists n, local_nodes (table w) !! addr = Some n /\ todo_ok n;
  wk_started : exists k, 0 <= k < 2 ^ 64 /\ started w = upto k /\
    (forall m, m ∈ (todo_number <$> pending addr (table w)) <-> m ∈ arrived w /\ k <= m) /\
    (forall m, 0 <= m < k -> m ∈ arrived w) /\
    match running w with
    | Some n => n = k - 1 /\ expected addr (table w) = k - 1
    | None => expected addr (table w) = k /\ k ∉ arrived w
    end;
  wk_nodup : NoDup (todo_number <$> pending addr (table w));
  wk_range m : m ∈ arrived w -> 0 <= m < 2 ^ 64 - 1
}.

Lemma upto_snoc k : 0 <= k -> upto k ++ [k] = upto (k + 1).
Proof. intros. unfold upto. rewrite seqZ_app by lia. done. Qed.

Lemma elem_of_fmap_push m t h :
  m ∈ (todo_number <$> heap_push t h) <-> m = todo_number t \/ m ∈ (todo_number <$> h).
Proof. rewrite heap_push_perm, fmap_cons, elem_of_cons. done. Qed.

Lemma drop_stale_id next h :
  Forall (fun t => next <= todo_number t) h -> drop_stale next h = h.
Proof. destruct 1; simpl; [done |]. by rewrite (proj2 (Z.leb_le _ _)). Qed.

(** The arrival of a number above the expected one, below the watermark. *)
Lemma enqueue_table addr n t fds s node :
  local_nodes s !! addr = Some node -> next_async_number node < n ->
  zlen (async_todo node) + 1 < ASYNC_TODO_TERMINATE_LEVEL ->
  dispatch_async_or_enqueue addr n t fds s =
  (Enqueued, set_nodes s (<[addr := set_async node (next_async_number node)
     (heap_push (mkTodo n t fds) (async_todo node))]> (local_nodes s))).
Proof.
  intros En Hn Hl. unfold dispatch_async_or_enqueue. rewrite En.
  rewrite (proj2 (Z.eqb_neq _ _)), (proj2 (Z.ltb_lt _ _)) by lia.
  assert (zlen (heap_push (mkTodo n t fds) (async_todo node)) = zlen (async_todo node) + 1) as ->.
  { unfold zlen. rewrite heap_push_perm. simpl length. lia. }
  by rewrite (proj2 (Z.leb_gt _ _)) by lia.
Qed.

(** What the queue keeps when [n] joins it. *)
Lemma enqueue_inv addr n t fds w node k :
  local_nodes (table w) !! addr = Some node -> todo_ok node ->
  next_async_number node < n -> in_u 64 n ->
  zlen (async_todo node) + 1 < ASYNC_TODO_TERMINATE_LEVEL ->
  k <= n -> n ∉ arrived w ->
  NoDup (todo_number <$> async_todo node) ->
  (forall m, m ∈ (todo_number <$> async_todo node) <-> m ∈ arrived w /\ k <= m) ->
  let node' := set_async node (next_async_number node)
                 (heap_push (mkTodo n t fds) (async_todo node)) in
  todo_ok node' /\ NoDup (todo_number <$> async_todo node') /\
  (forall m, m ∈ (todo_number <$> async_todo node') <-> m ∈ n :: arrived w /\ k <= m).
Proof.
  intros En (Hx & Hs & Hf & _) Hn Hu Hl Hk Hna Hnd Hp node'. split_and!; simpl.
  - split_and!; simpl; [done | by apply heap_push_sorted | |].
    + rewrite heap_push_perm. constructor; [simpl; lia | done].
    + unfold zlen in *. rewrite heap_push_perm. simpl length. lia.
  - rewrite heap_push_perm, fmap_cons. constructor; [| done].
    simpl. rewrite Hp. by intros [].
  - intros m. rewrite elem_of_fmap_push, Hp, elem_of_cons. simpl.
    split; [intros [-> | []] | intros [[-> | ?] ?]]; auto.
Qed.

Lemma arrive_inv addr t fds w :
  workers_inv addr w -> 0 <= async_number t < 2 ^ 64 - 1 -> async_number t ∉ arrived w ->
  zlen (pending addr (table w)) + 1 < ASYNC_TODO_TERMINATE_LEVEL ->
  workers_inv addr (arrive addr t fds w).
Proof.
  intros [(node & En & Hok) (k & Hk & Hst & Hp & Ha & Hrun) Hnd Hr] Hn Hna Hl.
  set (n := async_number t) in *. unfold expected, pending in *. rewrite En in *.
  assert (Hkn : k <= n) by (destruct (Z.leb_spec k n); [done |]; exfalso; apply Hna, Ha; lia).
  assert (Hup : forall m, m ∈ n :: arrived w -> 0 <= m < 2 ^ 64 - 1).
  { intros m [-> | Hm]%elem_of_cons; eauto. }
  unfold arrive. fold n. clearbody n.
  destruct (decide (running w = None /\ n = k)) as [[Hi <-] | Hnot].
  - rewrite Hi in Hrun. destruct Hrun as [He _].
    unfold dispatch_async_or_enqueue. rewrite En, He, Z.eqb_refl.
    split; simpl; unfold expected, pending; simpl; rewrite ?En; [eauto | | done | done].
    exists (n + 1). rewrite Hst, upto_snoc by lia. split_and!; [lia | lia | done | | | lia | lia].
    + intros m. rewrite Hp, elem_of_cons. split; [intros [? ?] | intros [[-> | ?] ?]]; try lia.
      split; [auto |]. destruct (decide (m = n)) as [-> | ?]; [done | lia].
      split; [done | lia].
    + intros m Hm. rewrite elem_of_cons. destruct (decide (m = n)); [auto |]. right. apply Ha. lia.
  - assert (Hgt : next_async_number node < n).
    { destruct (running w) as [r |]; [lia |]. destruct Hrun as [He _].
      destruct (decide (n = k)); [exfalso; auto | lia]. }
    rewrite (enqueue_table _ _ _ _ _ _ En Hgt Hl).
    destruct (enqueue_inv addr n t fds w node k) as (Hok' & Hnd' & Hp'); try done.
    { unfold in_u. lia. }
    split; simpl; unfold expected, pending; simpl; rewrite ?lookup_insert_eq; [eauto | | done | done].
    exists k. split_and!; [lia | lia | done | done | |].
    + intros m Hm. rewrite elem_of_cons. right. by apply Ha.
    + destruct (running w) as [r |]; [done |]. destruct Hrun as [He Hkna]. split; [done |].
      rewrite elem_of_cons. intros [-> | ?]; auto.
Qed.

Lemma finish_inv addr n w :
  workers_inv addr w -> running w = Some n -> workers_inv addr (finish addr w).
Proof.
  intros [(node & En & Hok) (k & Hk & Hst & Hp & Ha & Hrun) Hnd Hr] Hn.
  rewrite Hn in Hrun. unfold expected, pending in *. rewrite En in *.
  destruct Hok as (Hx & Hs & Hf & Hl). destruct Hrun as [-> He].
  assert (Hge : Forall (fun t => k <= todo_number t) (async_todo node)).
  { apply Forall_forall. intros t Ht. apply Hp. apply list_elem_of_fmap. eauto. }
  unfold finish, advance_and_pop_async. rewrite En, He.
  replace (k - 1 + 1) with k by lia. rewrite wrap_u_small by done.
  rewrite drop_stale_id by done.
  destruct (async_todo node) as [| top rest] eqn:Et.
  - split; simpl; unfold expected, pending; simpl; rewrite ?lookup_insert_eq; simpl;
      [| | constructor | done].
    + eexists. split; [done |]. by repeat constructor; destruct Hk.
    + exists k. split_and!; [lia | lia | done | exact Hp | exact Ha | done |].
      intros Hka. apply (not_elem_of_nil k), Hp. split; [done | lia].
  - apply StronglySorted_inv in Hs as [Hs1 Hs2]. apply Forall_cons in Hge as [Hg1 Hg2].
    rewrite fmap_cons in Hnd, Hp. apply NoDup_cons in Hnd as [Hn1 Hn2].
    destruct (Z.eqb_spec (todo_number top) k) as [Htk | Htk].
    + assert (Hkr : 0 <= k < 2 ^ 64 - 1).
      { apply Hr. apply Hp. rewrite elem_of_cons. auto. }
      assert (Hka : k ∈ arrived w) by (apply Hp; rewrite elem_of_cons; auto).
      split; simpl; unfold expected, pending; simpl; rewrite ?lookup_insert_eq; simpl;
        [| | done | done].
      * eexists. split; [done |]. split_and!; simpl; [done | done | done | zlen_lia].
      * exists (k + 1). rewrite Hst, upto_snoc by lia. split_and!; [lia | lia | done | | | lia | lia].
        -- intros m. specialize (Hp m). rewrite elem_of_cons in Hp. split.
           ++ intros Hm. destruct (proj1 Hp (or_intror Hm)) as [? ?]. split; [done |].
              destruct (decide (m = k)); [congruence | lia].
           ++ intros [Hm Hkm]. destruct (proj2 Hp) as [-> | ?]; [split; [done | lia] | lia | done].
        -- intros m Hm. destruct (decide (m = k)) as [-> | ?]; [done |]. apply Ha. lia.
    + split; simpl; unfold expected, pending; simpl; rewrite ?lookup_insert_eq; simpl;
        [| | by constructor | done].
      * eexists. split; [done |]. split_and!; simpl; [done | by constructor | by constructor | done].
      * exists k. split_and!; [lia | lia | done | exact Hp | exact Ha | done |].
        intros Hka. assert (Hin : k ∈ todo_number top :: (todo_number <$> rest))
          by (apply Hp; split; [done | lia]).
        apply elem_of_cons in Hin as [-> | (t & -> & Ht)%list_elem_of_fmap]; [done |].
        rewrite Forall_forall in Hs2. specialize (Hs2 t Ht). unfold todo_le in Hs2. lia.
Qed.

Lemma worker_reachable_inv addr s n w :
  local_nodes s !! addr = Some n -> next_async_number n = 0 -> async_todo n = [] ->
  worker_reachable addr s w -> workers_inv addr w.
Proof.
  intros En Hx Ht. induction 1 as [| w w' _ IH Hst].
  - split; simpl; unfold expected, pending; rewrite ?En, ?Ht; [| | constructor |].
    + exists n. split; [done |]. unfold todo_ok. rewrite Hx, Ht. by repeat constructor.
    + exists 0. rewrite Hx. split_and!; try done; try lia.
      * intros m. split; [by intros ?%elem_of_nil | by intros [?%elem_of_nil _]].
      * apply not_elem_of_nil.
    + by intros m ?%elem_of_nil.
  - destruct Hst; [by apply arrive_inv | by eapply finish_inv].
Qed.

(** * Properties *)

(** In every state the table can reach, whatever a peer sends and in
    whatever order the session makes its calls: the identity index and the node
    table are inverse of each other, every node has a positive strong count, an
    address minted by this endpoint, and an oneway queue that is sorted, holds
    nothing below the expected number and stays below the watermark. *)
Theorem rpc_state_invariant (sp : AddressSpace) (s : RpcState) :
  reachable sp s -> state_wf s /\ space s = sp.
Proof. apply reachable_wf. Qed.

Definition sample_state : RpcState :=
  snd (on_binder_leaving (mkSib 64) (snd (on_binder_leaving (mkSib 64) (state_new Acceptor)))).

Lemma rpc_state_invariant_witness : state_wf sample_state /\ space sample_state = Acceptor.
Proof.
  apply rpc_state_invariant. unfold sample_state.
  eapply reach_step; [| apply st_leave]. eapply reach_step; [| apply st_leave].
  apply reach_new.
Defined.

(** No two live objects of a session share an address, not even in the
    8-byte form of the android-13+ wire, which keeps only 32 bits of the
    counter: a peer's call always reaches the object it was sent. *)
Theorem live_addresses_distinct (sp : AddressSpace) (s : RpcState)
    (a1 a2 : RpcAddress) (n1 n2 : LocalNode) :
  reachable sp s ->
  local_nodes s !! a1 = Some n1 -> local_nodes s !! a2 = Some n2 ->
  encode_addr a1 = encode_addr a2 ->
  a1 = a2 /\ node_binder n1 = node_binder n2.
Proof.
  intros [Hw _]%reachable_wf H1 H2 He.
  assert (Hc : forall a n, local_nodes s !! a = Some n -> a13_carries a).
  { intros a n Hn. destruct (wf_minted s Hw _ _ Hn) as (c & Hc & ->).
    right. exists c, (space s). split; [| done].
    pose proof (wf_counter s Hw). unfold in_u, u32_max in *. lia. }
  pose proof (@decode_encode_addr ptr64 a1 [] (Hc _ _ H1)) as E1.
  pose proof (@decode_encode_addr ptr64 a2 [] (Hc _ _ H2)) as E2.
  rewrite He, E2 in E1. simplify_eq. done.
Qed.

Lemma live_addresses_distinct_witness :
  minted 1 Acceptor = minted 1 Acceptor /\ mkSib 64 = mkSib 64.
Proof.
  apply (live_addresses_distinct Acceptor sample_state (minted 1 Acceptor) (minted 1 Acceptor)
           (mkNode (mkSib 64) 2 0 []) (mkNode (mkSib 64) 2 0 [])).
  - unfold sample_state. eapply reach_step; [| apply st_leave].
    eapply reach_step; [| apply st_leave]. apply reach_new.
  - vm_compute. reflexivity.
  - vm_compute. reflexivity.
  - reflexivity.
Defined.

(** C2: reference counting is balanced, over any number of connections, any
    reordering between them, failed sends, duplicate receipts and a proxy that
    is re-created while its predecessor is still being dropped: the owner's
    count of an object is exactly the number of binders on their way, proxies
    that still owe their drop and drops on their way. So an object is never
    freed while the peer holds or is about to hold a proxy to it, and once
    nothing refers to any object the owner's table is empty. *)
Theorem refcount_balanced (w : world) :
  world_reachable w ->
  (forall a, strong_of a (owner w)
     = cnt a (reserved w) + cnt a (flight w) + cnt a (decs w) + held a (proxies w)) /\
  (forall p a, proxies w !! p = Some (a, Live) -> is_Some (lookup_local a (owner w))) /\
  (forall a, a ∈ flight w -> is_Some (lookup_local a (owner w))) /\
  (reserved w = [] -> flight w = [] -> decs w = [] ->
   (forall p a ph, proxies w !! p = Some (a, ph) -> ph = Sent) ->
   local_nodes (owner w) = ∅).
Proof.
  intros Hr. destruct (world_reachable_inv w Hr) as [Ho Hb Hl Ht].
  assert (Hin : forall a, 0 < strong_of a (owner w) -> is_Some (lookup_local a (owner w))).
  { intros a [n Hn]%strong_of_node. unfold lookup_local. rewrite Hn. eauto. }
  assert (Hnn : forall a, 0 <= cnt a (reserved w) /\ 0 <= cnt a (flight w) /\
                          0 <= cnt a (decs w) /\ 0 <= held a (proxies w)).
  { intros a. auto using cnt_nonneg, held_nonneg. }
  split_and!; [done | | |].
  - intros p a Hp. apply Hin. rewrite Hb. specialize (Hnn a).
    pose proof (held_pos a p Live _ Hp ltac:(done)). lia.
  - intros a Ha. apply Hin. rewrite Hb. specialize (Hnn a).
    apply elem_of_Permutation in Ha as [f Hf].
    rewrite (cnt_perm a _ _ Hf), cnt_cons, decide_True by done.
    pose proof (cnt_nonneg a f). lia.
  - intros E1 E2 E3 Hs. apply map_empty. intros a.
    destruct (local_nodes (owner w) !! a) as [n |] eqn:En; [| done]. exfalso.
    pose proof (wf_strong _ Ho _ _ En). specialize (Hb a). unfold strong_of in Hb.
    rewrite En, E1, E2, E3 in Hb. unfold held in Hb.
    assert (filter (counted a) (proxies w) = ∅) as Hf.
    { apply map_empty. intros p. apply map_lookup_filter_None. right.
      intros [b ph] Hp [_ Hph]. by apply Hph, (Hs p b). }
    rewrite Hf, map_size_empty in Hb. change (cnt a []) with 0 in Hb. lia.
Qed.

(** One binder written and sent twice, received, and received again. *)
Definition sample_world : world :=
  let a := minted 1 Acceptor in
  mkWorld sample_state
    (mkState ∅ ∅ {[ a := 7 ]} ∅ 0 Initiator) [] [] [a] {[ 7 := (a, Live) ]}.

Lemma refcount_balanced_witness :
  strong_of (minted 1 Acceptor) (owner sample_world) = 2 /\
  is_Some (lookup_local (minted 1 Acceptor) (owner sample_world)).
Proof.
  assert (Hr : world_reachable sample_world).
  { set (a := minted 1 Acceptor). set (s0 := state_new Acceptor).
    set (s1 := snd (on_binder_leaving (mkSib 64) s0)).
    set (h0 := state_new Initiator).
    eapply (wr_step (mkWorld sample_state (mkState ∅ ∅ {[ a := 7 ]} ∅ 0 Initiator) [] [a] []
                             {[ 7 := (a, Live) ]})).
    2: exact (ws_receive a 8 [] (mkWorld sample_state
                 (mkState ∅ ∅ {[ a := 7 ]} ∅ 0 Initiator) [] [a] [] {[ 7 := (a, Live) ]})
                 ltac:(reflexivity) ltac:(reflexivity)).
    eapply (wr_step (mkWorld sample_state h0 [] [a; a] [] ∅)).
    2: exact (ws_receive a 7 [a] (mkWorld sample_state h0 [] [a; a] [] ∅)
                 ltac:(reflexivity) ltac:(reflexivity)).
    eapply (wr_step (mkWorld sample_state h0 [a] [a] [] ∅)).
    2: exact (ws_send a [] (mkWorld sample_state h0 [a] [a] [] ∅) ltac:(reflexivity)).
    eapply (wr_step (mkWorld sample_state h0 [a; a] [] [] ∅)).
    2: exact (ws_send a [a] (mkWorld sample_state h0 [a; a] [] [] ∅) ltac:(reflexivity)).
    eapply (wr_step (mkWorld s1 h0 [a] [] [] ∅)).
    2: exact (ws_write (mkSib 64) a sample_state (mkWorld s1 h0 [a] [] [] ∅) ltac:(vm_compute; reflexivity)).
    eapply (wr_step (mkWorld s0 h0 [] [] [] ∅)).
    2: exact (ws_write (mkSib 64) a s1 (mkWorld s0 h0 [] [] [] ∅) ltac:(vm_compute; reflexivity)).
    apply wr_init. }
  destruct (refcount_balanced sample_world Hr) as (Hb & Hl & _).
  split; [rewrite Hb; vm_compute; reflexivity |].
  apply (Hl 7). vm_compute. reflexivity.
Defined.

(** C37: the oneway calls of a peer that sends each number at most once, as long as
    the backlog stays below the watermark at which the connection is given up, start
    in the order of their numbers, each exactly once, however they arrive over
    the session's connections and however the workers are scheduled; and when no
    worker is running one, every call up to the first missing number has been
    started: nothing is left parked that could run. (A number that arrives again while
    its call runs is started again, [repeated_number_runs_again].) *)
Theorem oneway_in_order (addr : RpcAddress) (s : RpcState) (n : LocalNode) (w : workers) :
  local_nodes s !! addr = Some n -> next_async_number n = 0 -> async_todo n = [] ->
  worker_reachable addr s w ->
  started w = upto (zlen (started w)) /\
  (forall k, running w = None -> (forall m, 0 <= m < k -> m ∈ arrived w) ->
   k <= zlen (started w)).
Proof.
  intros En Hx Ht Hr.
  destruct (worker_reachable_inv addr s n w En Hx Ht Hr) as [_ (k & Hk & Hst & Hp & Ha & Hrun) _ _].
  assert (Hl : zlen (started w) = k).
  { rewrite Hst. unfold upto, zlen. rewrite length_seqZ. lia. }
  rewrite Hl. split; [done |]. intros j Hi Hall. rewrite Hi in Hrun.
  destruct (Z.leb_spec j k); [done |]. exfalso. apply (proj2 Hrun), Hall. lia.
Qed.

Definition oneway_call (n : Z) : WireTransaction :=
  mkTxn (minted 1 Acceptor) 1 1 n [] [].

(** Calls 1 and 0 arrive in that order. *)
Lemma oneway_in_order_witness :
  let a := minted 1 Acceptor in
  let w := finish a (finish a (arrive a (oneway_call 0) []
             (arrive a (oneway_call 1) [] (mkWorkers sample_state None [] [])))) in
  started w = upto (zlen (started w)) /\
  (forall k, running w = None -> (forall m, 0 <= m < k -> m ∈ arrived w) ->
   k <= zlen (started w)).
Proof.
  intros a w.
  apply (oneway_in_order a sample_state (mkNode (mkSib 64) 2 0 [])); try (vm_compute; reflexivity).
  eapply wkr_step; [| by eapply (wk_finish a 1)].
  eapply wkr_step; [| by eapply (wk_finish a 0)].
  eapply wkr_step; [| apply wk_arrive; [by split | apply (bool_decide_unpack _); vm_compute; exact I | vm_compute; reflexivity]].
  eapply wkr_step; [apply wkr_init |].
  apply wk_arrive; [by split | apply not_elem_of_nil | vm_compute; reflexivity].
Defined.

(** A peer that repeats the number of the call that is running has it run a second
    time beside the first: the comparison looks at the counter only, which moves
    when the first call has finished. *)
Lemma repeated_number_runs_again :
  let a := minted 1 Acceptor in
  let w := arrive a (oneway_call 0) [] (mkWorkers sample_state None [] []) in
  running w = Some 0 /\ started (arrive a (oneway_call 0) [] w) = [0; 0].
Proof. vm_compute. by split. Qed.
