(* ===== verification/Parcel.v ===== *)
(** The parcel (src/rsbinder/src/parcel.rs, flat objects from
    src/rsbinder/src/binder_object.rs): the byte buffer with its cursor, the
    kernel object table, and the RPC fields.

    Memory is modelled by contents: a buffer is a list of bytes, [reserve] and
    [set_len] act on that list, and the capacity a [Vec] happens to have is not
    tracked. A buffer borrowed from the driver ([ParcelData::Slice]) cannot
    grow: the operations that need it panic, as in the source. [debug_assert!]s
    are not modelled. *)

From Stdlib Require Import ZArith Lia Strings.Byte.
From stdpp Require Import base list strings sorting.
From S2P Require Import Prelude Errors Address.

(** * State *)

(** [FileDescriptorTransportMode] (rpc/fd_mode.rs). *)
Inductive FdMode : Type := FdNone | FdUnix.

#[export] Instance FdMode_eq_dec : EqDecision FdMode.
Proof. solve_decision. Defined.

(** [RpcFields]; [ops] is whether the object hooks are attached. *)
Record RpcFields : Type := mkRpc {
  ops : bool;
  fd_mode : FdMode;
  fds_out : list Z;
  fds_in : list (option Z);
  object_positions : list Z;
  record_fd_positions : bool;
  leaving_addrs : list RpcAddress
}.

Definition rpc_default : RpcFields := mkRpc false FdNone [] [] [] false [].

(** [ParcelData]: [Vec] or [Slice]. *)
Inductive backing : Type := BVec | BSlice.

Record Parcel : Type := mkParcel {
  data : list byte;
  data_backing : backing;
  objects : list Z;
  objects_backing : backing;
  pos : Z;
  next_object_hint : nat;
  read_boundary : option Z;
  nested_read_depth : Z;
  request_header_present : bool;
  work_source_request_header_pos : Z;
  rpc : option RpcFields
}.

Abbreviation P := (M Parcel StatusCode).

Definition parcel_new : Parcel := mkParcel [] BVec [] BVec 0 0 None 0 false 0 None.
Definition from_vec (d : list byte) : Parcel := mkParcel d BVec [] BVec 0 0 None 0 false 0 None.
Definition from_ipc_parts (d : list byte) (objs : list Z) : Parcel :=
  mkParcel d BSlice objs BSlice 0 0 None 0 false 0 None.

Definition set_data (d : list byte) (p : Parcel) : Parcel :=
  mkParcel d (data_backing p) (objects p) (objects_backing p) (pos p) (next_object_hint p)
    (read_boundary p) (nested_read_depth p) (request_header_present p)
    (work_source_request_header_pos p) (rpc p).
Definition set_pos (n : Z) (p : Parcel) : Parcel :=
  mkParcel (data p) (data_backing p) (objects p) (objects_backing p) n (next_object_hint p)
    (read_boundary p) (nested_read_depth p) (request_header_present p)
    (work_source_request_header_pos p) (rpc p).
Definition set_objects (o : list Z) (p : Parcel) : Parcel :=
  mkParcel (data p) (data_backing p) o (objects_backing p) (pos p) (next_object_hint p)
    (read_boundary p) (nested_read_depth p) (request_header_present p)
    (work_source_request_header_pos p) (rpc p).
Definition set_hint (h : nat) (p : Parcel) : Parcel :=
  mkParcel (data p) (data_backing p) (objects p) (objects_backing p) (pos p) h
    (read_boundary p) (nested_read_depth p) (request_header_present p)
    (work_source_request_header_pos p) (rpc p).
Definition set_scope (b : option Z) (d : Z) (p : Parcel) : Parcel :=
  mkParcel (data p) (data_backing p) (objects p) (objects_backing p) (pos p)
    (next_object_hint p) b d (request_header_present p)
    (work_source_request_header_pos p) (rpc p).
Definition set_request_header (b : bool) (n : Z) (p : Parcel) : Parcel :=
  mkParcel (data p) (data_backing p) (objects p) (objects_backing p) (pos p)
    (next_object_hint p) (read_boundary p) (nested_read_depth p) b n (rpc p).
Definition set_rpc (r : option RpcFields) (p : Parcel) : Parcel :=
  mkParcel (data p) (data_backing p) (objects p) (objects_backing p) (pos p)
    (next_object_hint p) (read_boundary p) (nested_read_depth p)
    (request_header_present p) (work_source_request_header_pos p) r.

(** * RPC fields *)

(** [upper_bound] insertion: [partition_point(|&p| p <= pos)]. *)
Fixpoint insert_position (x : Z) (l : list Z) : list Z :=
  match l with
  | [] => [x]
  | y :: l' => if y <=? x then y :: insert_position x l' else x :: l
  end.

Definition record_object_position (x : Z) (r : RpcFields) : RpcFields :=
  mkRpc (ops r) (fd_mode r) (fds_out r) (fds_in r)
        (insert_position (wrap_u 32 x) (object_positions r))
        (record_fd_positions r) (leaving_addrs r).

(** [slice::binary_search]: halving between [lo] and [lo + n]. The fuel is [n]. *)
Fixpoint binary_search (fuel : nat) (l : list Z) (lo n : nat) (x : Z) : bool :=
  match fuel with
  | O => false
  | S fuel =>
      if decide (n = 0%nat) then false
      else
        let half := Nat.div2 n in
        match l !! (lo + half)%nat with
        | Some y =>
            if y =? x then true
            else if y <? x
            then binary_search fuel l (lo + half + 1) (n - half - 1) x
            else binary_search fuel l lo half x
        | None => false
        end
  end.

Definition object_position_present (x : Z) (r : RpcFields) : bool :=
  if x <=? u32_max
  then binary_search (length (object_positions r)) (object_positions r) 0
                     (length (object_positions r)) x
  else false.

Definition push_out_fd (fd : Z) (r : RpcFields) : Z * RpcFields :=
  (wrap_i 32 (zlen (fds_out r)),
   mkRpc (ops r) (fd_mode r) (fds_out r ++ [fd]) (fds_in r) (object_positions r)
         (record_fd_positions r) (leaving_addrs r)).

Definition set_in_fds (fds : list Z) (r : RpcFields) : RpcFields :=
  mkRpc (ops r) (fd_mode r) (fds_out r) (Some <$> fds) (object_positions r)
        (record_fd_positions r) (leaving_addrs r).

Definition take_in_fd (index : nat) (r : RpcFields) : option Z * RpcFields :=
  match fds_in r !! index with
  | Some fd =>
      (fd, mkRpc (ops r) (fd_mode r) (fds_out r) (<[index := None]> (fds_in r))
                 (object_positions r) (record_fd_positions r) (leaving_addrs r))
  | None => (None, r)
  end.

Definition set_for_rpc (yes : bool) (p : Parcel) : Parcel :=
  if yes then set_rpc (Some (default rpc_default (rpc p))) p else set_rpc None p.

Definition is_for_rpc (p : Parcel) : bool := bool_decide (is_Some (rpc p)).

Definition configure_rpc (m : FdMode) (record : bool) (p : Parcel) : Parcel :=
  let r := default rpc_default (rpc p) in
  set_rpc (Some (mkRpc true m (fds_out r) (fds_in r) (object_positions r) record
                       (leaving_addrs r))) p.

(** The accessors that do nothing on a kernel parcel. *)
Definition on_rpc (f : RpcFields -> RpcFields) (p : Parcel) : Parcel :=
  match rpc p with Some r => set_rpc (Some (f r)) p | None => p end.

Definition rpc_record_object_position (x : Z) : Parcel -> Parcel :=
  on_rpc (record_object_position x).
Definition rpc_set_object_positions (l : list Z) : Parcel -> Parcel :=
  on_rpc (fun r => mkRpc (ops r) (fd_mode r) (fds_out r) (fds_in r) l
                         (record_fd_positions r) (leaving_addrs r)).
Definition rpc_record_leaving_addr (a : RpcAddress) : Parcel -> Parcel :=
  on_rpc (fun r => mkRpc (ops r) (fd_mode r) (fds_out r) (fds_in r) (object_positions r)
                         (record_fd_positions r) (leaving_addrs r ++ [a])).
Definition rpc_set_in_fds (fds : list Z) : Parcel -> Parcel := on_rpc (set_in_fds fds).

Definition rpc_object_position_present (x : Z) (p : Parcel) : bool :=
  match rpc p with Some r => object_position_present x r | None => false end.

Definition rpc_take_in_fd (index : nat) (p : Parcel) : option Z * Parcel :=
  match rpc p with
  | Some r => let (fd, r) := take_in_fd index r in (fd, set_rpc (Some r) p)
  | None => (None, p)
  end.

(** Panics on a kernel parcel. *)
Definition rpc_push_out_fd (fd : Z) : P Z :=
  fun p =>
    match rpc p with
    | Some r => let (i, r) := push_out_fd fd r in (Ok i, set_rpc (Some r) p)
    | None => (Panic, p)
    end.

(** * Cursor *)

Definition set_data_position (n : Z) : P unit := modify (set_pos n).
Definition data_position : P Z := fun p => (Ok (pos p), p).
Definition data_size (p : Parcel) : Z :=
  if pos p <? zlen (data p) then zlen (data p) else pos p.
Definition is_empty (p : Parcel) : bool := zlen (data p) <=? pos p.

(** [saturating_sub], then the assertion. *)
Definition data_avail : P Z :=
  fun p =>
    let result := Z.max 0 (zlen (data p) - pos p) in
    if result <? i32_max then (Ok result, p) else (Panic, p).

Definition has_more_data (p : Parcel) : bool :=
  pos p <? default (data_size p) (read_boundary p).

(** * Layout *)

Section Layout.
Context `{PtrWidth}.

(** [(len + 3) & !3]; the addition wraps in a release build. *)
Definition pad_size (len : Z) : Z := Z.ldiff (wrap_u ptr_bits (len + 3)) 3.

Definition checked_array_layout (len elem_size : Z) : outcome StatusCode (Z * Z) :=
  let? size := ok_or (checked_mul (wrap_u ptr_bits len) elem_size) StBadValue in
  let? sum := ok_or (checked_add size 3) StBadValue in
  Ok (size, Z.ldiff sum 3).

(** * Raw reads *)

(** [&data[a..b]]: panics out of range. *)
Definition slice (a b : Z) : P (list byte) :=
  fun p => match get_range (data p) a b with Some s => (Ok s, p) | None => (Panic, p) end.

Definition read_aligned_data (len : Z) : P (list byte) :=
  let aligned := pad_size len in
  let* pos := data_position in
  let* avail := data_avail in
  if aligned <=? avail then
    let* _ := set_data_position (pos + aligned) in
    slice pos (pos + len)
  else throw StNotEnoughData.

(** [<[u8; N]>::try_from(&mut Parcel)]. *)
Definition read_fixed (n : Z) : P (list byte) :=
  let* d := read_aligned_data n in
  if zlen d =? n then ret d else throw StNotEnoughData.

(** [i32::from_ne_bytes(parcel.try_into()?)] on a little-endian host, and the
    unsigned reading. *)
Definition read_int (bits : Z) (k : Z) : P Z :=
  let* d := read_fixed k in
  ret (of_le_i bits d).
Definition read_uint (k : Z) : P Z :=
  let* d := read_fixed k in
  ret (of_le d).

Definition read_i32 : P Z := read_int 32 4.

(** * Raw writes *)

(** The buffer after [bytes] and zeros up to [padded] bytes are written at
    [pos]: the gap a forward cursor left is zeroed, what lies beyond stays. *)
Definition splice (d : list byte) (pos : Z) (bytes : list byte) (padded : Z) : list byte :=
  let base := d ++ zeros (pos - zlen d) in
  ztake pos base ++ bytes ++ zeros (padded - zlen bytes) ++ zdrop (pos + padded) base.

(** The end position, kept within [i32::MAX]. *)
Definition end_position (pos padded : Z) : outcome StatusCode Z :=
  match checked_add pos padded with
  | Some e => if e <=? i32_max then Ok e else Err StBadValue
  | None => Err StBadValue
  end.

(** [self.data.reserve(..)]. *)
Definition reserve : P unit :=
  fun p => match data_backing p with BVec => (Ok tt, p) | BSlice => (Panic, p) end.

Definition write_aligned_data (bytes : list byte) : P unit :=
  let aligned := pad_size (zlen bytes) in
  let* pos := data_position in
  let* end_ := lift (end_position pos aligned) in
  let* _ := reserve in
  let* _ := modify (fun p => set_data (splice (data p) pos bytes aligned) p) in
  set_data_position end_.

(** [write_aligned] of a [k]-byte integer. *)
Definition write_word (k : nat) (v : Z) : P unit := write_aligned_data (to_le k v).
Definition write_i32 (v : Z) : P unit := write_word 4 v.

(** * Arrays *)

(** [k]-byte chunks, as [chunks_exact] and the raw copies of [read_array] cut
    them. *)
Fixpoint chunks (n : nat) (k : Z) (bs : list byte) : list (list byte) :=
  match n with
  | O => []
  | S n => ztake k bs :: chunks n k (zdrop k bs)
  end.

(** The length word: [None] for a null array. *)
Definition read_array_len : P (option Z) :=
  let* len := read_i32 in
  if len <? -1 then throw StUnexpectedNull
  else if len =? -1 then ret None
  else ret (Some len).

(** The bounds check and the raw bytes: [read_array] takes a checked range,
    [read_array_char] indexes; both then skip the padding. *)
Definition take_block (size padded : Z) : P (list byte) :=
  let* avail := data_avail in
  if avail <? padded then throw StNotEnoughData
  else
    let* pos := data_position in
    let* p := get in
    let* d := lift (ok_or (get_range (data p) pos (pos + size)) StNotEnoughData) in
    let* _ := set_data_position (pos + padded) in
    ret d.

Definition index_block (size padded : Z) : P (list byte) :=
  let* avail := data_avail in
  if avail <? padded then throw StNotEnoughData
  else
    let* pos := data_position in
    let* d := slice pos (pos + size) in
    let* _ := set_data_position (pos + padded) in
    ret d.

(** [read_array] of elements of [k] bytes, with [dec] their reading. *)
Definition read_array {A} (k : Z) (dec : list byte -> A) : P (option (list A)) :=
  let* olen := read_array_len in
  match olen with
  | None => ret None
  | Some len =>
      if len =? 0 then ret (Some [])
      else
        let* (size, padded) := lift (checked_array_layout len k) in
        let* d := take_block size padded in
        ret (Some (dec <$> chunks (Z.to_nat len) k d))
  end.

(** [read_array_char]: every element is an [i32] word, narrowed by [dec]. *)
Definition read_array_char {A} (dec : Z -> A) : P (option (list A)) :=
  let* olen := read_array_len in
  match olen with
  | None => ret None
  | Some len =>
      if len =? 0 then ret (Some [])
      else
        let* (size, padded) := lift (checked_array_layout len 4) in
        let* d := index_block size padded in
        ret (Some ((fun c => dec (of_le_i 32 c)) <$> chunks (Z.to_nat len) 4 d))
  end.

(** [len.try_into::<i32>()]. *)
Definition len_i32 (n : Z) : outcome StatusCode Z :=
  if n <=? i32_max then Ok n else Err StBadValue.

(** [write_array] of elements whose bytes are [enc]. *)
Definition write_array {A} (enc : A -> list byte) (l : list A) : P unit :=
  let* len := lift (len_i32 (zlen l)) in
  let* _ := write_i32 len in
  if zlen l =? 0 then ret tt
  else
    let bytes := concat (enc <$> l) in
    let padded := pad_size (zlen bytes) in
    let* pos := data_position in
    let* end_ := lift (end_position pos padded) in
    let* _ := reserve in
    let* _ := modify (fun p => set_data (splice (data p) pos bytes padded) p) in
    set_data_position end_.

Fixpoint write_words (l : list Z) : P unit :=
  match l with
  | [] => ret tt
  | x :: l =>
      let* _ := write_i32 x in
      write_words l
  end.

Definition write_array_char {A} (as_i32 : A -> Z) (l : list A) : P unit :=
  let* len := lift (len_i32 (zlen l)) in
  let* _ := write_i32 len in
  let* size := lift (ok_or (checked_mul (zlen l) 4) StBadValue) in
  let* pos := data_position in
  let* _ := lift (end_position pos (pad_size size)) in
  let* _ := reserve in
  write_words (as_i32 <$> l).

Definition write_slice_size (len : option Z) : P unit :=
  match len with
  | Some n => let* n := lift (len_i32 n) in write_i32 n
  | None => write_i32 (-1)
  end.

(** [resize_out_vec] and its nullable form: the length of the vector the callee
    will fill. *)
Definition resize_out_vec : P Z :=
  let* len := read_i32 in
  if len <? 0 then throw StUnexpectedNull else ret len.

Definition resize_nullable_out_vec : P (option Z) :=
  let* len := read_i32 in
  if len <? 0 then ret None else ret (Some len).

(** * Sized parcelables *)

Definition MAX_NESTED_READ_DEPTH : Z := 1000.

(** The closure runs with the boundary set and the depth raised; both are put
    back on every path, and the cursor moves to the end only on success. What
    the closure stores in its captured variables is its result. *)
Definition sized_read {A} (f : P A) : P A :=
  let* start := data_position in
  let* size := read_i32 in
  if size <? 4 then throw StBadValue
  else
    let* end_ := lift (ok_or (checked_add start (wrap_u ptr_bits size)) StBadValue) in
    let* p := get in
    if data_size p <? end_ then throw StNotEnoughData
    else if MAX_NESTED_READ_DEPTH <=? nested_read_depth p then throw StBadValue
    else
      let prev := read_boundary p in
      let depth := nested_read_depth p in
      let* _ := put (set_scope (Some end_) (depth + 1) p) in
      let* a := (fun q => let (r, q) := f q in
                          (r, set_scope prev (nested_read_depth q - 1) q)) in
      let* _ := set_data_position end_ in
      ret a.

Definition sized_write (f : P unit) : P unit :=
  let* start := data_position in
  let* _ := write_i32 0 in
  let* _ := f in
  let* end_ := data_position in
  let* _ := set_data_position start in
  if end_ <? start then panic
  else
    let* _ := write_i32 (wrap_i 32 (end_ - start)) in
    set_data_position end_.

Definition update_work_source_request_header_pos (p : Parcel) : Parcel :=
  if request_header_present p then p else set_request_header true (zlen (data p)) p.
End Layout.

(** * Kernel objects *)

Definition BINDER_TYPE_BINDER : Z := 1935813253.
Definition BINDER_TYPE_HANDLE : Z := 1936206469.
Definition BINDER_TYPE_FD : Z := 1717840517.
Definition FLAT_BINDER_SIZE : Z := 24.

(** [struct flat_binder_object]: [fbo_binder] is the 8-byte union, whose low
    word is the handle. *)
Record flat_binder_object : Type := mkFlat {
  fbo_type : Z;
  fbo_flags : Z;
  fbo_binder : Z;
  fbo_cookie : Z
}.

Definition flat_handle (o : flat_binder_object) : Z := wrap_u 32 (fbo_binder o).
Definition flat_set_handle (h : Z) (o : flat_binder_object) : flat_binder_object :=
  mkFlat (fbo_type o) (fbo_flags o) (fbo_binder o - flat_handle o + wrap_u 32 h) (fbo_cookie o).
Definition flat_set_cookie (c : Z) (o : flat_binder_object) : flat_binder_object :=
  mkFlat (fbo_type o) (fbo_flags o) (fbo_binder o) c.

Definition new_with_fd (fd : Z) (take_ownership : bool) : flat_binder_object :=
  mkFlat BINDER_TYPE_FD 0 (wrap_u 32 fd) (if take_ownership then 1 else 0).
Definition new_handle (handle flags : Z) : flat_binder_object :=
  mkFlat BINDER_TYPE_HANDLE flags handle 0.
Definition flat_default : flat_binder_object := mkFlat BINDER_TYPE_BINDER 0 0 0.

Definition flat_bytes (o : flat_binder_object) : list byte :=
  to_le 4 (fbo_type o) ++ to_le 4 (fbo_flags o) ++ to_le 8 (fbo_binder o)
    ++ to_le 8 (fbo_cookie o).

Definition flat_of_bytes (bs : list byte) : flat_binder_object :=
  mkFlat (of_le (ztake 4 bs)) (of_le (ztake 4 (zdrop 4 bs)))
         (of_le (ztake 8 (zdrop 8 bs))) (of_le (ztake 8 (zdrop 16 bs))).

Definition read_flat_binder (d : list byte) (offset : Z)
  : outcome StatusCode flat_binder_object :=
  let? bytes := ok_or (get_range d offset (offset + FLAT_BINDER_SIZE)) StNotEnoughData in
  Ok (flat_of_bytes bytes).

Definition write_flat_binder (d : list byte) (offset : Z) (o : flat_binder_object)
  : outcome StatusCode (list byte) :=
  match get_range d offset (offset + FLAT_BINDER_SIZE) with
  | Some _ => Ok (ztake offset d ++ flat_bytes o ++ zdrop (offset + FLAT_BINDER_SIZE) d)
  | None => Err StNotEnoughData
  end.

(** [objects[i]] for an index below the count. *)
Definition obj_at (objs : list Z) (i : nat) : Z := nth i objs 0.

(** [while opos < count - 1 && objects[opos] < data_pos { opos += 1 }]; the
    fuel is the distance to the last entry. *)
Fixpoint scan_up (fuel : nat) (objs : list Z) (opos : nat) (data_pos : Z) : nat :=
  match fuel with
  | O => opos
  | S fuel => if obj_at objs opos <? data_pos then scan_up fuel objs (S opos) data_pos else opos
  end.

(** [while opos > 0 && objects[opos] > data_pos { opos -= 1 }]. *)
Fixpoint scan_down (objs : list Z) (opos : nat) (data_pos : Z) : nat :=
  match opos with
  | O => O
  | S o => if data_pos <? obj_at objs opos then scan_down objs o data_pos else opos
  end.

(** The search of [read_object]: the new hint when the position is found. *)
Definition find_object (objs : list Z) (hint : nat) (data_pos : Z) : option nat :=
  match objs with
  | [] => None
  | _ =>
      let count := length objs in
      let opos :=
        if decide (hint < count)%nat then scan_up (count - 1 - hint) objs hint data_pos
        else (count - 1)%nat in
      if obj_at objs opos =? data_pos then Some (S opos)
      else
        let opos := scan_down objs opos data_pos in
        if obj_at objs opos =? data_pos then Some (S opos) else None
  end.

Section Objects.
Context `{PtrWidth}.

Definition read_object (null_meta : bool) : P flat_binder_object :=
  let* p := get in
  if is_for_rpc p then throw StBadType
  else
    let data_pos := pos p in
    let* d := read_aligned_data FLAT_BINDER_SIZE in
    let* obj := lift (read_flat_binder d 0) in
    if negb null_meta && (fbo_cookie obj =? 0) && (fbo_binder obj =? 0) then ret obj
    else
      match find_object (objects p) (next_object_hint p) data_pos with
      | Some hint =>
          let* _ := modify (set_hint hint) in
          ret obj
      | None => throw StBadType
      end.

(** Taking a reference on an object ([flat_binder_object::acquire], a call into
    the process state) and duplicating a descriptor. *)
Context (acquire : flat_binder_object -> outcome StatusCode unit)
        (dup_fd : Z -> outcome StatusCode Z).

Definition push_object (off : Z) : P unit :=
  fun p =>
    match objects_backing p with
    | BVec => (Ok tt, set_objects (objects p ++ [off]) p)
    | BSlice => (Panic, p)
    end.

Definition write_object (obj : flat_binder_object) (null_meta : bool) : P unit :=
  let* p := get in
  if is_for_rpc p then write_aligned_data (flat_bytes obj)
  else
    let data_pos := pos p in
    let* _ := write_aligned_data (flat_bytes obj) in
    if null_meta || negb (fbo_binder obj =? 0) then
      let* _ := lift (acquire obj) in
      push_object data_pos
    else ret tt.

(** The objects of the source that lie in the copied range: from the first to
    the last one of the table. *)
Definition in_copied (offset size off : Z) : bool :=
  (offset <=? off) && (off + FLAT_BINDER_SIZE <=? offset + size).

Fixpoint upto_last (offset size : Z) (objs : list Z) : list Z :=
  match objs with
  | [] => []
  | x :: objs =>
      match upto_last offset size objs with
      | [] => if in_copied offset size x then [x] else []
      | r => x :: r
      end
  end.

Fixpoint copied_objects (offset size : Z) (objs : list Z) : list Z :=
  match objs with
  | [] => []
  | off :: objs =>
      if in_copied offset size off then off :: upto_last offset size objs
      else copied_objects offset size objs
  end.

(** One turn of the loop that takes over an object. *)
Definition adopt_object (offset start_pos src : Z) : P unit :=
  let off := wrap_u ptr_bits (src - offset + start_pos) in
  let* p := get in
  let* flat := lift (read_flat_binder (data p) off) in
  let* _ := lift (acquire flat) in
  let* _ :=
    (if fbo_type flat =? BINDER_TYPE_FD then
       let* newfd := lift (dup_fd (flat_handle flat)) in
       let* d := lift (write_flat_binder (data p) off
                         (flat_set_cookie 1 (flat_set_handle newfd flat))) in
       modify (set_data d)
     else ret tt) in
  push_object off.

Fixpoint adopt_objects (offset start_pos : Z) (srcs : list Z) : P unit :=
  match srcs with
  | [] => ret tt
  | src :: srcs =>
      let* _ := adopt_object offset start_pos src in
      adopt_objects offset start_pos srcs
  end.

(** The bytes of the range, and the objects of the source to take over. *)
Definition append_data (other : Parcel) (offset size : Z) : P (Z * list Z) :=
  if size =? 0 then ret (0, [])
  else if i32_max <? size then throw StBadValue
  else
    let other_len := zlen (data other) in
    if (other_len <? offset) || (other_len <? size) || (other_len <? offset + size)
    then throw StBadValue
    else
      let srcs := copied_objects offset size (objects other) in
      let* start_pos := data_position in
      let* end_ := lift (end_position start_pos size) in
      let* _ := reserve in
      let* _ := modify (fun p =>
        set_data (splice (data p) start_pos (ztake size (zdrop offset (data other))) size) p) in
      let* _ := set_data_position end_ in
      let* p := get in
      if bool_decide (srcs = []) || is_for_rpc p then ret (start_pos, [])
      else
        match objects_backing p with
        | BSlice => panic
        | BVec => ret (start_pos, srcs)
        end.

Definition append_from (other : Parcel) (offset size : Z) : P unit :=
  let* found := append_data other offset size in
  adopt_objects offset found.1 found.2.

Definition append_all_from (other : Parcel) : P unit :=
  append_from other 0 (data_size other).
End Objects.

(** * Lemmas of the layout *)

(** The reference for padding: the next multiple of four. *)
Definition round4 (n : Z) : Z := (n + 3) / 4 * 4.

Lemma ldiff_3 x : Z.ldiff x 3 = x / 4 * 4.
Proof.
  change 3 with (Z.ones 2). rewrite Z.ldiff_ones_r by lia.
  rewrite Z.shiftl_mul_pow2, Z.shiftr_div_pow2 by lia. done.
Qed.

Lemma round4_spec n : n <= round4 n < n + 4 /\ round4 n mod 4 = 0.
Proof.
  unfold round4. pose proof (Z.div_mod (n + 3) 4 ltac:(lia)).
  pose proof (Z.mod_pos_bound (n + 3) 4 ltac:(lia)). rewrite Z_mod_mult. lia.
Qed.

Lemma round4_nonneg n : 0 <= n -> 0 <= round4 n.
Proof. pose proof (round4_spec n). lia. Qed.

Lemma round4_id n : n mod 4 = 0 -> round4 n = n.
Proof.
  intros Hn. pose proof (round4_spec n) as [Hb Hm].
  pose proof (Z.div_mod n 4 ltac:(lia)). pose proof (Z.div_mod (round4 n) 4 ltac:(lia)). lia.
Qed.

Section LayoutLemmas.
Context `{PtrWidth}.

Lemma pad_size_round4 len : 0 <= len -> len + 3 <= usize_max -> pad_size len = round4 len.
Proof.
  intros H0 Hm. unfold pad_size. rewrite wrap_u_small by (unfold in_u, usize_max in *; lia).
  apply ldiff_3.
Qed.

Lemma pad_size_small len : 0 <= len <= i32_max -> pad_size len = round4 len.
Proof.
  intros Hl. apply pad_size_round4; [lia |].
  pose proof usize_max_bounds. unfold i32_max, u32_max in *. lia.
Qed.

Lemma layout_cases len k :
  1 <= len <= i32_max -> 0 <= k ->
  checked_array_layout len k =
  if len * k + 3 <=? usize_max then Ok (len * k, round4 (len * k)) else Err StBadValue.
Proof.
  intros Hl Hk. unfold checked_array_layout, checked_mul, checked_add.
  rewrite wrap_u_small.
  2: { pose proof usize_max_bounds. unfold in_u, usize_max, i32_max, u32_max in *. lia. }
  destruct (Z.leb_spec (len * k) usize_max); cbn [ok_or].
  - destruct (Z.leb_spec (len * k + 3) usize_max); cbn [ok_or]; [| done].
    by rewrite ldiff_3.
  - by rewrite (proj2 (Z.leb_gt _ _)) by lia.
Qed.

(** A layout that fits the buffer was computed without overflow. *)
Lemma layout_fits len k avail :
  1 <= len <= i32_max -> 0 <= k -> round4 (len * k) <= avail -> avail < i32_max ->
  checked_array_layout len k = Ok (len * k, round4 (len * k)).
Proof.
  intros Hl Hk Ha Hm. rewrite layout_cases by done.
  pose proof (round4_spec (len * k)). pose proof usize_max_bounds.
  unfold i32_max, u32_max in *. by rewrite (proj2 (Z.leb_le _ _)) by lia.
Qed.

Lemma end_position_ok pos padded :
  pos + padded <= i32_max -> end_position pos padded = Ok (pos + padded).
Proof.
  intros He. unfold end_position. rewrite checked_add_small by (unfold i32_max, u32_max in *; lia).
  by rewrite (proj2 (Z.leb_le _ _)).
Qed.

Lemma end_position_big pos padded :
  i32_max < pos + padded -> end_position pos padded = Err StBadValue.
Proof.
  intros He. unfold end_position, checked_add. case_leb; [| done].
  by rewrite (proj2 (Z.leb_gt _ _)).
Qed.

Lemma end_position_cases pos padded e :
  end_position pos padded = Ok e -> e = pos + padded /\ e <= i32_max.
Proof.
  unfold end_position, checked_add. intros E. inv_ok.
  split; [done |]. by apply Z.leb_le.
Qed.
End LayoutLemmas.

(** * Lemmas of the cursor and the raw accesses *)

(** Two parcels that differ in the cursor only. *)
Definition at_pos (p : Parcel) (n : Z) : Parcel := set_pos n p.

(** A parcel in the state of being written: an own buffer, cursor at its end. *)
Definition appendable (p : Parcel) : Prop :=
  data_backing p = BVec /\ pos p = zlen (data p).

(** The parcel after [bs] have been appended. *)
Definition appended (bs : list byte) (p : Parcel) : Parcel :=
  set_pos (zlen (data p) + zlen bs) (set_data (data p ++ bs) p).

(** What a reader may assume of the buffer: it is addressable by an [i32]. *)
Definition readable (p : Parcel) : Prop := 0 <= pos p /\ zlen (data p) < i32_max.

Lemma appended_appendable bs p : appendable p -> appendable (appended bs p).
Proof. intros [Hb _]. split; [done |]. unfold appended. simpl. by rewrite zlen_app. Qed.

Lemma appended_app a b p : appended b (appended a p) = appended (a ++ b) p.
Proof.
  unfold appended, set_pos, set_data. simpl. rewrite !zlen_app, app_assoc. f_equal. lia.
Qed.

Lemma appended_nil p : appendable p -> appended [] p = p.
Proof.
  intros [_ Hp]. unfold appended, set_pos, set_data. simpl.
  rewrite app_nil_r, zlen_nil, Z.add_0_r, <- Hp. by destruct p.
Qed.

Lemma splice_end d bytes padded :
  zlen bytes <= padded ->
  splice d (zlen d) bytes padded = d ++ bytes ++ zeros (padded - zlen bytes).
Proof.
  intros Hp. unfold splice. rewrite Z.sub_diag. change (zeros 0) with (@nil byte).
  rewrite app_nil_r, ztake_all, zdrop_all by zlen_lia. by rewrite app_nil_r.
Qed.

Section RawLemmas.
Context `{PtrWidth}.

(** The zero padding of a block. *)
Definition padded (bs : list byte) : list byte := bs ++ zeros (round4 (zlen bs) - zlen bs).

Lemma zlen_padded bs : zlen (padded bs) = round4 (zlen bs).
Proof. unfold padded. pose proof (round4_spec (zlen bs)). rewrite zlen_app, zlen_zeros; lia. Qed.

Lemma padded_aligned bs : zlen bs mod 4 = 0 -> padded bs = bs.
Proof.
  intros Hm. unfold padded. rewrite round4_id, Z.sub_diag by done. apply app_nil_r.
Qed.

Lemma write_aligned_append bytes p :
  appendable p -> zlen (data p) + round4 (zlen bytes) <= i32_max ->
  write_aligned_data bytes p = (Ok tt, appended (padded bytes) p).
Proof.
  intros [Hb Hp] Hl. pose proof (round4_spec (zlen bytes)). pose proof (zlen_nonneg bytes).
  pose proof (zlen_nonneg (data p)).
  unfold write_aligned_data. rewrite pad_size_small by lia.
  unfold data_position, bind. rewrite Hp, end_position_ok by done.
  unfold lift, reserve. rewrite Hb. unfold modify, set_data_position.
  rewrite splice_end by lia. unfold appended. rewrite zlen_padded. done.
Qed.

Lemma write_aligned_full bytes p :
  0 <= pos p -> zlen bytes <= i32_max -> i32_max < pos p + round4 (zlen bytes) ->
  write_aligned_data bytes p = (Err StBadValue, p).
Proof.
  intros Hp Hb Hl. unfold write_aligned_data. rewrite pad_size_small by zlen_lia.
  unfold data_position, bind. rewrite end_position_big by done. done.
Qed.

Lemma data_avail_ok p : readable p -> data_avail p = (Ok (Z.max 0 (zlen (data p) - pos p)), p).
Proof.
  intros [Hp Hl]. unfold data_avail. rewrite (proj2 (Z.ltb_lt _ _)); [done |].
  unfold i32_max in *. pose proof (zlen_nonneg (data p)). lia.
Qed.

(** Reading [len] bytes at the cursor. *)
Lemma read_aligned_at len p pre bs post :
  readable p -> data p = pre ++ padded bs ++ post -> pos p = zlen pre -> zlen bs = len ->
  read_aligned_data len p = (Ok bs, set_pos (pos p + round4 len) p).
Proof.
  intros Hr Hd Hpos <-. pose proof Hr as [Hp0 Hl]. pose proof (zlen_padded bs) as Hz.
  rewrite Hd in Hl. rewrite !zlen_app, Hz in Hl. pose proof (round4_spec (zlen bs)).
  pose proof (zlen_nonneg bs). pose proof (zlen_nonneg post). pose proof (zlen_nonneg pre).
  unfold read_aligned_data. rewrite pad_size_small by lia.
  unfold data_position, bind. rewrite data_avail_ok by done.
  rewrite (proj2 (Z.leb_le _ _)) by (rewrite Hd, !zlen_app, Hz; lia).
  unfold set_data_position, modify, slice. cbn [data set_pos].
  rewrite Hd, get_range_skip, Hpos by lia.
  replace (zlen pre - zlen pre) with 0 by lia.
  replace (zlen pre + zlen bs - zlen pre) with (zlen bs) by lia.
  unfold padded. rewrite <- app_assoc, get_range_here by done. by rewrite <- Hpos.
Qed.

(** A read of a positive length never panics, and changes the cursor only. *)
Lemma read_aligned_cases len p :
  readable p -> 0 < len -> len + 3 <= usize_max ->
  (read_aligned_data len p = (Err StNotEnoughData, p) /\
   zlen (data p) - pos p < round4 len) \/
  (exists bs, read_aligned_data len p = (Ok bs, set_pos (pos p + round4 len) p) /\
     zlen bs = len /\ pos p + round4 len <= zlen (data p)).
Proof.
  intros Hr H0 Hm. pose proof Hr as [Hp0 Hl]. pose proof (round4_spec len).
  unfold read_aligned_data. rewrite pad_size_round4 by lia.
  unfold data_position, bind. rewrite data_avail_ok by done. case_leb.
  - right. unfold set_data_position, modify, slice. cbn [data set_pos].
    destruct (get_range (data p) (pos p) (pos p + len)) as [bs |] eqn:E.
    + exists bs. apply get_range_zlen in E. split_and!; [done | lia | lia].
    + unfold get_range in E. rewrite !(proj2 (Z.leb_le _ _)) in E by lia. done.
  - left. split; [done | lia].
Qed.
End RawLemmas.

(** * Reading code *)

(** Code that only reads: on any buffer it returns or fails without a panic,
    and nothing but the cursor changes. *)
Definition reads_at {A} (m : P A) (p : Parcel) : Prop :=
  fst (m p) <> Panic /\ exists n, 0 <= n /\ snd (m p) = set_pos n p.
Definition reads {A} (m : P A) : Prop := forall p, readable p -> reads_at m p.

Lemma set_pos_set_pos m n p : set_pos m (set_pos n p) = set_pos m p.
Proof. done. Qed.

Lemma set_pos_pos p : set_pos (pos p) p = p.
Proof. by destruct p. Qed.

Lemma readable_set_pos n p : 0 <= n -> readable p -> readable (set_pos n p).
Proof. intros Hn [_ Hl]. by split. Qed.

Lemma reads_ret {A} (a : A) : reads (ret a).
Proof.
  intros p [Hp _]. split; [done |]. exists (pos p). split; [done |]. by rewrite set_pos_pos.
Qed.

Lemma reads_throw {A} e : reads (@throw Parcel StatusCode A e).
Proof.
  intros p [Hp _]. split; [done |]. exists (pos p). split; [done |]. by rewrite set_pos_pos.
Qed.

Lemma reads_lift {A} (o : outcome StatusCode A) : o <> Panic -> reads (lift o).
Proof.
  intros Ho p [Hp _]. split; [done |]. exists (pos p). split; [done |]. by rewrite set_pos_pos.
Qed.

Lemma reads_get : reads get.
Proof.
  intros p [Hp _]. split; [done |]. exists (pos p). split; [done |]. by rewrite set_pos_pos.
Qed.

Lemma reads_at_bind {A B} (m : P A) (k : A -> P B) p :
  reads_at m p ->
  (forall a n, m p = (Ok a, set_pos n p) -> 0 <= n -> reads_at (k a) (set_pos n p)) ->
  reads_at (bind m k) p.
Proof.
  intros (Hs & n & Hn & E) Hk. unfold reads_at, bind.
  destruct (m p) as [[a | e |] q] eqn:Em; simpl in *; subst q; [| by eauto | done].
  destruct (Hk a n eq_refl Hn) as (Hs2 & n2 & Hn2 & E2).
  split; [done |]. exists n2. by rewrite E2.
Qed.

Lemma reads_bind {A B} (m : P A) (k : A -> P B) :
  reads m -> (forall a, reads (k a)) -> reads (bind m k).
Proof.
  intros Hm Hk p Hr. apply reads_at_bind; [by apply Hm |].
  intros a n _ Hn. by apply Hk, readable_set_pos.
Qed.

Lemma reads_if {A} (b : bool) (m1 m2 : P A) : reads m1 -> reads m2 -> reads (if b then m1 else m2).
Proof. by destruct b. Qed.

#[export] Hint Resolve reads_ret reads_throw reads_if : rsb.

Section ReadsLemmas.
Context `{PtrWidth}.

Lemma reads_aligned len : 0 < len -> len + 3 <= usize_max -> reads (read_aligned_data len).
Proof.
  intros H0 Hm p Hr. pose proof Hr as [Hp Hl].
  destruct (read_aligned_cases len p Hr H0 Hm) as [[E _] | (bs & E & _ & Hb)];
    unfold reads_at; rewrite E.
  - split; [done |]. exists (pos p). split; [done |]. by rewrite set_pos_pos.
  - split; [done |]. exists (pos p + round4 len). split; [| done].
    pose proof (round4_spec len). lia.
Qed.

Lemma reads_fixed n : 0 < n <= 64 -> reads (read_fixed n).
Proof.
  intros Hn. apply reads_bind; [apply reads_aligned; [lia |] | intros d; auto with rsb].
  pose proof usize_max_bounds. unfold u32_max in *. lia.
Qed.

Lemma reads_int bits k : 0 < k <= 64 -> reads (read_int bits k).
Proof. intros Hk. apply reads_bind; [by apply reads_fixed | auto with rsb]. Qed.

Lemma reads_uint k : 0 < k <= 64 -> reads (read_uint k).
Proof. intros Hk. apply reads_bind; [by apply reads_fixed | auto with rsb]. Qed.

Lemma reads_i32 : reads read_i32.
Proof. apply reads_int. lia. Qed.

(** A fixed-size word at the cursor. *)
Lemma read_fixed_at n p pre bs post :
  readable p -> data p = pre ++ bs ++ post -> pos p = zlen pre -> zlen bs = n -> n mod 4 = 0 ->
  read_fixed n p = (Ok bs, set_pos (pos p + n) p).
Proof.
  intros Hr Hd Hp Hn Hm. unfold read_fixed.
  rewrite <- (padded_aligned bs) in Hd by (by rewrite Hn).
  rewrite (bind_ok _ _ _ _ _ (read_aligned_at n p pre bs post Hr Hd Hp Hn)).
  rewrite (proj2 (Z.eqb_eq _ _)) by done. unfold ret. by rewrite (round4_id n) by done.
Qed.

Lemma read_i32_at p pre v post :
  readable p -> data p = pre ++ to_le 4 v ++ post -> pos p = zlen pre -> in_i 32 v ->
  read_i32 p = (Ok v, set_pos (pos p + 4) p).
Proof.
  intros Hr Hd Hp Hv. unfold read_i32, read_int.
  erewrite bind_ok by (eapply read_fixed_at; [done | exact Hd | done | by zlens | done]).
  unfold ret. by rewrite of_le_to_le_i by done.
Qed.

Lemma write_word_append k v p :
  appendable p -> Z.of_nat k mod 4 = 0 -> zlen (data p) + Z.of_nat k <= i32_max ->
  write_word k v p = (Ok tt, appended (to_le k v) p).
Proof.
  intros Ha Hm Hl. unfold write_word.
  rewrite write_aligned_append by (try done; rewrite zlen_to_le, round4_id; done).
  by rewrite padded_aligned by (by rewrite zlen_to_le).
Qed.

Lemma write_i32_append v p :
  appendable p -> zlen (data p) + 4 <= i32_max ->
  write_i32 v p = (Ok tt, appended (to_le 4 v) p).
Proof. intros. by apply (write_word_append 4). Qed.
End ReadsLemmas.

Section ArrayLemmas.
Context `{PtrWidth}.

Lemma reads_array_len : reads read_array_len.
Proof. apply reads_bind; [apply reads_i32 | intros len; auto with rsb]. Qed.

Lemma layout_safe len k : checked_array_layout len k <> Panic.
Proof.
  unfold checked_array_layout. destruct (checked_mul _ _); cbn [ok_or]; [| done].
  by destruct (checked_add _ _).
Qed.

Lemma index_block_cases size padded p :
  readable p -> 0 < size <= padded ->
  (index_block size padded p = (Err StNotEnoughData, p) /\ zlen (data p) - pos p < padded) \/
  (exists d, index_block size padded p = (Ok d, set_pos (pos p + padded) p) /\
     get_range (data p) (pos p) (pos p + size) = Some d /\ pos p + padded <= zlen (data p)).
Proof.
  intros Hr Hs. pose proof Hr as [Hp Hl]. unfold index_block, bind.
  rewrite data_avail_ok by done. case_leb; [left; split; [done | lia] | right].
  unfold data_position, slice.
  destruct (get_range (data p) (pos p) (pos p + size)) as [d |] eqn:E.
  - exists d. split_and!; [done | done | lia].
  - unfold get_range in E. rewrite !(proj2 (Z.leb_le _ _)) in E by lia. done.
Qed.

(** The two ways of fetching agree: the index is always in range. *)
Lemma take_block_index size padded p :
  readable p -> 0 < size <= padded -> take_block size padded p = index_block size padded p.
Proof.
  intros Hr Hs. destruct (index_block_cases size padded p Hr Hs) as [[E Hb] | (d & E & Hd & Hb)];
    rewrite E; unfold take_block, bind; rewrite data_avail_ok by done; destruct Hr as [Hp Hl].
  - by rewrite (proj2 (Z.ltb_lt _ _)) by lia.
  - rewrite (proj2 (Z.ltb_ge _ _)) by lia. unfold data_position, get. by rewrite Hd.
Qed.

Lemma reads_index_block size padded : 0 < size <= padded -> reads (index_block size padded).
Proof.
  intros Hs p Hr. pose proof Hr as [Hp Hl].
  destruct (index_block_cases size padded p Hr Hs) as [[E _] | (d & E & _ & Hb)];
    unfold reads_at; rewrite E.
  - split; [done |]. exists (pos p). split; [done |]. by rewrite set_pos_pos.
  - split; [done |]. exists (pos p + padded). split; [lia | done].
Qed.

Lemma reads_take_block size padded : 0 < size <= padded -> reads (take_block size padded).
Proof.
  intros Hs p Hr. unfold reads_at. rewrite take_block_index by done. by apply reads_index_block.
Qed.

(** A layout the readers accept is a positive block. *)
Lemma layout_block len k size padded :
  1 <= len -> 0 < k -> len <= i32_max -> checked_array_layout len k = Ok (size, padded) ->
  0 < size <= padded.
Proof.
  intros Hl Hk Hm. rewrite layout_cases by lia. case_leb; [| done]. intros [= <- <-].
  pose proof (round4_spec (len * k)). nia.
Qed.

Lemma read_array_len_range p len q :
  readable p -> read_array_len p = (Ok (Some len), q) -> 0 <= len <= i32_max.
Proof.
  intros Hr E. unfold read_array_len in E. apply bind_inv_ok in E as (n & s & E1 & E).
  unfold read_i32, read_int in E1. apply bind_inv_ok in E1 as (d & s1 & _ & E1).
  unfold ret in *. simplify_eq.
  pose proof (wrap_i_range 32 (of_le d) ltac:(lia)) as Hw. unfold in_i in Hw.
  change (2 ^ (32 - 1)) with 2147483648 in Hw. unfold of_le_i in E.
  destruct (Z.ltb_spec (wrap_i 32 (of_le d)) (-1)); [done |].
  destruct (Z.eqb_spec (wrap_i 32 (of_le d)) (-1)); simplify_eq. unfold i32_max. lia.
Qed.

Lemma reads_array_with {A} k (f : Z -> list byte -> option (list A)) (block : Z -> Z -> P (list byte)) :
  0 < k -> (forall size padded, 0 < size <= padded -> reads (block size padded)) ->
  reads (let* olen := read_array_len in
         match olen with
         | None => ret None
         | Some len =>
             if len =? 0 then ret (Some [])
             else
               let* (size, padded) := lift (checked_array_layout len k) in
               let* d := block size padded in
               ret (f len d)
         end).
Proof.
  intros Hk Hb p Hr. apply reads_at_bind; [by apply reads_array_len |].
  intros [len |] n El Hn; [| by apply reads_ret, readable_set_pos].
  apply read_array_len_range in El; [| done].
  destruct (Z.eqb_spec len 0); [by apply reads_ret, readable_set_pos |].
  apply reads_at_bind; [apply reads_lift; [apply layout_safe | by apply readable_set_pos] |].
  intros [size padded] n2 Ec Hn2. unfold lift in Ec. simplify_eq.
  match goal with E : checked_array_layout _ _ = _ |- _ => apply layout_block in E; [| lia..] end.
  apply reads_bind; [by apply Hb | auto with rsb | by apply readable_set_pos, readable_set_pos].
Qed.

Lemma reads_array {A} k (dec : list byte -> A) : 0 < k -> reads (read_array k dec).
Proof.
  intros Hk. exact (reads_array_with k (fun len d => Some (dec <$> chunks (Z.to_nat len) k d))
                      take_block Hk reads_take_block).
Qed.

Lemma reads_array_char {A} (dec : Z -> A) : reads (read_array_char dec).
Proof.
  exact (reads_array_with 4
    (fun len d => Some ((fun c => dec (of_le_i 32 c)) <$> chunks (Z.to_nat len) 4 d))
    index_block eq_refl reads_index_block).
Qed.

(** Cutting a concatenation of [k]-byte blocks back into them. *)
Lemma chunks_concat {A} (enc : A -> list byte) k l :
  (forall a, zlen (enc a) = k) -> chunks (length l) k (concat (enc <$> l)) = enc <$> l.
Proof.
  intros Hk. induction l as [| a l IH]; [done |]. cbn [fmap list_fmap concat length chunks].
  rewrite ztake_app_l, ztake_all, zdrop_app_r, zdrop_0 by (rewrite Hk; lia). f_equal. exact IH.
Qed.

Lemma zlen_concat {A} (enc : A -> list byte) k l :
  (forall a, zlen (enc a) = k) -> zlen (concat (enc <$> l)) = zlen l * k.
Proof.
  intros Hk. induction l as [| a l IH]; [done |]. cbn [fmap list_fmap concat].
  rewrite zlen_app, zlen_cons, Hk, IH. lia.
Qed.

(** A block at the cursor. *)
Lemma index_block_at size p pre bs post :
  readable p -> data p = pre ++ padded bs ++ post -> pos p = zlen pre -> zlen bs = size ->
  0 < size -> index_block size (round4 size) p = (Ok bs, set_pos (pos p + round4 size) p).
Proof.
  intros Hr Hd Hp <- Hs. pose proof (round4_spec (zlen bs)).
  assert (Hg : get_range (data p) (pos p) (pos p + zlen bs) = Some bs).
  { rewrite Hd, Hp, get_range_skip by lia. rewrite Z.sub_diag.
    replace (zlen pre + zlen bs - zlen pre) with (zlen bs) by lia.
    unfold padded. rewrite <- app_assoc. by apply get_range_here. }
  destruct (index_block_cases (zlen bs) (round4 (zlen bs)) p Hr) as [[E Hb] | (d & E & Hd' & _)];
    [lia | |].
  - rewrite Hd, !zlen_app, zlen_padded in Hb. pose proof (zlen_nonneg post). lia.
  - rewrite E. congruence.
Qed.

Lemma read_array_len_at p pre v post :
  readable p -> data p = pre ++ to_le 4 v ++ post -> pos p = zlen pre -> -1 <= v <= i32_max ->
  read_array_len p = (Ok (if v =? -1 then None else Some v), set_pos (pos p + 4) p).
Proof.
  intros Hr Hd Hp Hv. unfold read_array_len.
  erewrite bind_ok by (eapply read_i32_at; [done | exact Hd | done |];
                       unfold in_i, i32_max in *; simpl; lia).
  rewrite (proj2 (Z.ltb_ge _ _)) by lia. by destruct (v =? -1).
Qed.
End ArrayLemmas.
