(* ===== verification/ParcelSpec.v ===== *)
(** What the operations of the parcel promise to their clients.

    [writes m w]: on a parcel that is being built, [m] appends exactly the bytes
    [w], or fails with [BadValue] when they do not fit. [decodes m a w n]: where
    the bytes [w] lie at the cursor, [m] returns [a] and moves the cursor past
    them ([n] is the nesting of sized blocks it needs). [reads] (of Parcel.v): on
    any bytes at all, [m] does not panic and moves the cursor only. The three
    compose along [let*], and the codecs of Parcelable.v are proved with them.
    The second half states the properties of the buffer itself. *)

From Stdlib Require Import ZArith Lia Strings.Byte.
From stdpp Require Import base list strings sorting.
From S2P Require Import Prelude Errors Address Parcel.

Section Writing.
Context `{PtrWidth}.

(** * Writing *)

Definition writes (m : P unit) (w : list byte) : Prop :=
  forall p, appendable p -> zlen (data p) <= i32_max ->
  if zlen (data p) + zlen w <=? i32_max then m p = (Ok tt, appended w p)
  else fst (m p) = Err StBadValue.

Lemma writes_bind m k w w' :
  writes m w -> writes k w' -> writes (let* _ := m in k) (w ++ w').
Proof.
  intros Hm Hk p Ha Hp. specialize (Hm p Ha Hp). rewrite zlen_app.
  pose proof (zlen_nonneg w'). destruct (Z.leb_spec (zlen (data p) + zlen w) i32_max).
  - rewrite (bind_ok _ _ _ _ _ Hm).
    assert (zlen (data (appended w p)) = zlen (data p) + zlen w) as El by apply zlen_app.
    specialize (Hk (appended w p) (appended_appendable w p Ha) ltac:(lia)).
    rewrite El, appended_app, <- Z.add_assoc in Hk. exact Hk.
  - rewrite (proj2 (Z.leb_gt _ _)) by lia. unfold bind.
    destruct (m p) as [[[] | e |] q]; simpl in *; congruence.
Qed.

Lemma writes_ret : writes (ret tt) [].
Proof.
  intros p Ha Hp. rewrite zlen_nil, Z.add_0_r, (proj2 (Z.leb_le _ _)) by done.
  by rewrite appended_nil.
Qed.

Lemma writes_lift {A} (o : outcome StatusCode A) a k w :
  o = Ok a -> writes (k a) w -> writes (let* x := lift o in k x) w.
Proof. by intros -> Hw. Qed.

Lemma writes_ext m m' w : (forall p, m p = m' p) -> writes m w -> writes m' w.
Proof. intros E Hm p. rewrite <- E. apply Hm. Qed.

Lemma writes_aligned bytes :
  zlen bytes + 3 <= usize_max -> writes (write_aligned_data bytes) (padded bytes).
Proof.
  intros Hm p Ha Hp. rewrite zlen_padded. case_leb; [by apply write_aligned_append |].
  destruct Ha as [Hb Hpos]. unfold write_aligned_data.
  rewrite pad_size_round4 by zlen_lia. unfold data_position, bind.
  by rewrite Hpos, end_position_big.
Qed.

Lemma writes_word k v :
  Z.of_nat k mod 4 = 0 -> Z.of_nat k <= 64 -> writes (write_word k v) (to_le k v).
Proof.
  intros Hm Hk. rewrite <- (padded_aligned (to_le k v)) by (by rewrite zlen_to_le).
  apply writes_aligned. rewrite zlen_to_le. pose proof usize_max_bounds.
  unfold u32_max in *. lia.
Qed.

Lemma writes_i32 v : writes (write_i32 v) (to_le 4 v).
Proof. by apply (writes_word 4). Qed.

(** [write_array] writes the raw bytes the way [write_aligned_data] does. *)
Lemma writes_array {A} (enc : A -> list byte) k l :
  (forall a, zlen (enc a) = k) -> 0 <= k -> zlen l <= i32_max -> zlen l * k + 3 <= usize_max ->
  writes (write_array enc l) (to_le 4 (zlen l) ++ padded (concat (enc <$> l))).
Proof.
  intros Henc Hk Hl Hm. unfold write_array.
  apply (writes_lift _ (zlen l)); [unfold len_i32; by rewrite (proj2 (Z.leb_le _ _)) |].
  apply writes_bind; [apply writes_i32 |]. destruct (Z.eqb_spec (zlen l) 0) as [E | E].
  - apply zlen_zero_nil in E. subst l. apply writes_ret.
  - apply (writes_aligned (concat (enc <$> l))). by rewrite (zlen_concat _ k).
Qed.

Lemma writes_words l : writes (write_words l) (concat (to_le 4 <$> l)).
Proof.
  induction l as [| x l IH]; [apply writes_ret |]. apply writes_bind; [apply writes_i32 | done].
Qed.

(** The early check of [write_array_char] is the one its words would fail. *)
Lemma writes_array_char (l : list Z) :
  zlen l <= i32_max -> zlen l * 4 + 3 <= usize_max ->
  writes (write_array_char (fun v => v) l) (to_le 4 (zlen l) ++ concat (to_le 4 <$> l)).
Proof.
  intros Hl Hm. unfold write_array_char.
  apply (writes_lift _ (zlen l)); [unfold len_i32; by rewrite (proj2 (Z.leb_le _ _)) |].
  apply writes_bind; [apply writes_i32 |].
  apply (writes_lift _ (zlen l * 4)); [unfold checked_mul; by rewrite (proj2 (Z.leb_le _ _)) by lia |].
  rewrite list_fmap_id. intros p Ha Hp. pose proof (writes_words l p Ha Hp) as Hw.
  rewrite (zlen_concat _ 4) in * by (intros; apply zlen_to_le).
  assert (Hr : round4 (zlen l * 4) = zlen l * 4) by (apply round4_id, Z_mod_mult).
  unfold data_position, bind at 1. rewrite pad_size_round4, Hr by zlen_lia.
  destruct Ha as [Hb Hpos]. rewrite Hpos.
  destruct (Z.leb_spec (zlen (data p) + zlen l * 4) i32_max).
  - unfold bind. rewrite end_position_ok by done. unfold lift, reserve. by rewrite Hb.
  - unfold bind. rewrite end_position_big by lia. done.
Qed.

(** * Decoding *)

Definition decodes {A} (m : P A) (a : A) (w : list byte) (nest : Z) : Prop :=
  forall p pre post, readable p -> nested_read_depth p + nest <= MAX_NESTED_READ_DEPTH ->
  data p = pre ++ w ++ post -> pos p = zlen pre ->
  m p = (Ok a, set_pos (pos p + zlen w) p).

Lemma decodes_ret {A} (a : A) n : decodes (ret a) a [] n.
Proof. intros p pre post _ _ _ _. rewrite zlen_nil, Z.add_0_r. by rewrite set_pos_pos. Qed.

Lemma decodes_weaken {A} (m : P A) a w n n' : n <= n' -> decodes m a w n -> decodes m a w n'.
Proof. intros Hn Hm p pre post Hr Hd. apply Hm; [done | lia]. Qed.

Lemma decodes_bind {A B} (m : P A) (k : A -> P B) a b w w' n :
  decodes m a w n -> decodes (k a) b w' n -> decodes (bind m k) b (w ++ w') n.
Proof.
  intros Hm Hk p pre post Hr Hn Hd Hp. rewrite <- app_assoc in Hd.
  rewrite (bind_ok _ _ _ _ _ (Hm p pre (w' ++ post) Hr Hn Hd Hp)).
  rewrite (Hk (set_pos (pos p + zlen w) p) (pre ++ w) post); cbn [data pos set_pos nested_read_depth].
  - rewrite zlen_app. f_equal. rewrite set_pos_set_pos. f_equal. lia.
  - apply readable_set_pos; [destruct Hr; zlen_lia | done].
  - done.
  - by rewrite <- app_assoc.
  - rewrite zlen_app. lia.
Qed.

(** The last step consumes nothing. *)
Lemma decodes_map {A B} (m : P A) (k : A -> P B) a b w n :
  decodes m a w n -> decodes (k a) b [] n -> decodes (bind m k) b w n.
Proof. intros Hm Hk. rewrite <- (app_nil_r w). by eapply decodes_bind. Qed.

Lemma decodes_lift {A B} (o : outcome StatusCode A) (k : A -> P B) a b w n :
  o = Ok a -> decodes (k a) b w n -> decodes (let* x := lift o in k x) b w n.
Proof. by intros -> Hk. Qed.

Lemma decodes_fixed k (bs : list byte) n : zlen bs = k -> k mod 4 = 0 -> decodes (read_fixed k) bs bs n.
Proof. intros Hk Hm p pre post Hr _ Hd Hp. rewrite Hk. by eapply read_fixed_at. Qed.

Lemma decodes_uint k v n :
  Z.of_nat k mod 4 = 0 -> in_u (8 * Z.of_nat k) v -> decodes (read_uint (Z.of_nat k)) v (to_le k v) n.
Proof.
  intros Hm Hv. eapply decodes_map; [by apply decodes_fixed; [apply zlen_to_le |] |].
  rewrite of_le_to_le_u by done. apply decodes_ret.
Qed.

Lemma decodes_int k v n :
  (0 < k)%nat -> Z.of_nat k mod 4 = 0 -> in_i (8 * Z.of_nat k) v ->
  decodes (read_int (8 * Z.of_nat k) (Z.of_nat k)) v (to_le k v) n.
Proof.
  intros Hk Hm Hv. eapply decodes_map; [by apply decodes_fixed; [apply zlen_to_le |] |].
  rewrite of_le_to_le_i by (done || lia). apply decodes_ret.
Qed.

Lemma decodes_i32 v n : in_i 32 v -> decodes read_i32 v (to_le 4 v) n.
Proof. intros Hv. apply (decodes_int 4); [lia | done | done]. Qed.

Lemma decodes_aligned (bs : list byte) n :
  decodes (read_aligned_data (zlen bs)) bs (padded bs) n.
Proof. intros p pre post Hr _ Hd Hp. rewrite zlen_padded. by eapply read_aligned_at. Qed.

Lemma decodes_array_len v n :
  -1 <= v <= i32_max ->
  decodes read_array_len (if v =? -1 then None else Some v) (to_le 4 v) n.
Proof.
  intros Hv p pre post Hr _ Hd Hp. rewrite zlen_to_le. by eapply read_array_len_at.
Qed.

Lemma decodes_index_block (bs : list byte) n :
  0 < zlen bs -> decodes (index_block (zlen bs) (round4 (zlen bs))) bs (padded bs) n.
Proof. intros H0 p pre post Hr _ Hd Hp. rewrite zlen_padded. by eapply index_block_at. Qed.

Lemma decodes_take_block (bs : list byte) n :
  0 < zlen bs -> decodes (take_block (zlen bs) (round4 (zlen bs))) bs (padded bs) n.
Proof.
  intros H0 p pre post Hr Hn Hd Hp. rewrite take_block_index by (try done; pose proof (round4_spec (zlen bs)); lia).
  by eapply decodes_index_block.
Qed.

(** Both array readers, by the way they fetch the block. *)
Lemma decodes_array_with {A} (enc : A -> list byte) k (dec : list byte -> A)
    (block : Z -> Z -> P (list byte)) l n :
  (forall bs, 0 < zlen bs -> decodes (block (zlen bs) (round4 (zlen bs))) bs (padded bs) n) ->
  (forall a, zlen (enc a) = k) -> 0 < k -> zlen l <= i32_max -> zlen l * k + 3 <= usize_max ->
  Forall (fun a => dec (enc a) = a) l ->
  decodes (let* olen := read_array_len in
           match olen with
           | None => ret None
           | Some len =>
               if len =? 0 then ret (Some [])
               else
                 let* (size, padded) := lift (checked_array_layout len k) in
                 let* d := block size padded in
                 ret (Some (dec <$> chunks (Z.to_nat len) k d))
           end)
          (Some l) (to_le 4 (zlen l) ++ padded (concat (enc <$> l))) n.
Proof.
  intros Hblock Henc Hk Hl Hm Hdec. pose proof (zlen_nonneg l).
  eapply decodes_bind; [apply decodes_array_len; lia |].
  rewrite (proj2 (Z.eqb_neq (zlen l) (-1))) by lia.
  destruct (Z.eqb_spec (zlen l) 0) as [E | E].
  { apply zlen_zero_nil in E. subst l. apply decodes_ret. }
  assert (Hz : zlen (concat (enc <$> l)) = zlen l * k) by (by apply zlen_concat).
  eapply decodes_lift; [rewrite layout_cases by lia; by rewrite (proj2 (Z.leb_le _ _)) |].
  eapply decodes_map; [rewrite <- Hz; apply Hblock; rewrite Hz; nia |].
  unfold zlen at 1. rewrite Nat2Z.id, chunks_concat by done.
  rewrite <- list_fmap_compose.
  replace (compose dec enc <$> l) with l; [apply decodes_ret |].
  symmetry. rewrite <- (list_fmap_id l) at 2. by apply Forall_fmap_ext.
Qed.
End Writing.

(** * Sized blocks *)

Section Sized.
Context `{PtrWidth}.

(** Overwriting whole words in the middle of the buffer. *)
Lemma write_overwrite p pre old bytes post :
  data_backing p = BVec -> data p = pre ++ old ++ post -> pos p = zlen pre ->
  zlen old = zlen bytes -> zlen bytes mod 4 = 0 -> zlen (data p) <= i32_max ->
  write_aligned_data bytes p
  = (Ok tt, set_pos (pos p + zlen bytes) (set_data (pre ++ bytes ++ post) p)).
Proof.
  intros Hb Hd Hp Ho Hm Hl. assert (zlen pre + zlen bytes <= i32_max).
  { rewrite Hd in Hl. zlen_lia. }
  unfold write_aligned_data. rewrite pad_size_small, round4_id by (done || zlen_lia).
  unfold data_position, bind. rewrite Hp, end_position_ok by done.
  unfold lift, reserve. rewrite Hb. unfold modify, set_data_position. do 3 f_equal.
  unfold splice. rewrite Hd, !zeros_neg by zlen_lia.
  rewrite app_nil_r, ztake_app_l, ztake_all, zdrop_app_r by zlen_lia.
  rewrite zdrop_app_r, zdrop_0 by lia. done.
Qed.

Lemma writes_sized m w :
  writes m w -> writes (sized_write m) (to_le 4 (4 + zlen w) ++ w).
Proof.
  intros Hm p Ha Hp. pose proof (writes_bind _ _ _ _ (writes_i32 0) Hm p Ha Hp) as Hw.
  rewrite zlen_app, zlen_to_le in *. unfold sized_write, bind in *. unfold data_position.
  revert Hw. change (Z.of_nat 4) with 4. case_leb; intros Hw;
    destruct (write_i32 0 p) as [[[] | e |] q]; try done;
    try (destruct (m q) as [[[] | e |] q2]); simplify_eq/=; try done.
  destruct Ha as [Hb Hpos].
  rewrite !zlen_app, zlen_to_le. rewrite (proj2 (Z.ltb_ge _ _)) by zlen_lia.
  rewrite Hpos. unfold write_i32, write_word.
  erewrite (write_overwrite _ (data p) (to_le 4 0)); [| done.. |].
  - rewrite wrap_i_small; [| done | unfold in_i, i32_max in *; simpl; zlen_lia].
    rewrite Z.add_simpl_l. change (Z.of_nat 4) with 4.
    unfold appended, set_data_position, modify. rewrite (zlen_app (to_le 4 (4 + zlen w))), zlen_to_le. done.
  - simpl. rewrite zlen_app, zlen_app, zlen_to_le. lia.
Qed.

(** A block at the cursor, and a closure that stays inside its scope. *)
Lemma sized_read_at {A} (f : P A) a p pre w post n :
  let inner := set_scope (Some (pos p + 4 + zlen w)) (nested_read_depth p + 1)
                         (set_pos (pos p + 4) p) in
  readable p -> nested_read_depth p < MAX_NESTED_READ_DEPTH ->
  data p = pre ++ to_le 4 (4 + zlen w) ++ w ++ post -> pos p = zlen pre ->
  f inner = (Ok a, set_pos n inner) ->
  sized_read f p = (Ok a, set_pos (pos p + 4 + zlen w) p).
Proof.
  intros inner Hr Hn Hd Hp Hf. pose proof Hr as [Hp0 Hl].
  assert (zlen (data p) = zlen pre + 4 + zlen w + zlen post) as El.
  { rewrite Hd. zlen_lia. }
  pose proof (zlen_nonneg w). pose proof (zlen_nonneg post). pose proof (zlen_nonneg pre).
  unfold sized_read, bind. unfold data_position at 1.
  erewrite read_i32_at; [| done | exact Hd | done | unfold in_i, i32_max in *; simpl; lia].
  rewrite (proj2 (Z.ltb_ge _ _)) by lia.
  rewrite wrap_u_small.
  2: { pose proof usize_max_bounds. unfold in_u, usize_max, i32_max, u32_max in *. lia. }
  rewrite checked_add_small by (unfold i32_max, u32_max in *; lia). cbn [ok_or lift get].
  unfold data_size. cbn [pos data set_pos nested_read_depth].
  rewrite (proj2 (Z.ltb_ge _ (pos p + (4 + zlen w)))) by (case_leb; lia).
  rewrite (proj2 (Z.leb_gt _ _)) by lia. unfold put.
  replace (pos p + (4 + zlen w)) with (pos p + 4 + zlen w) by lia.
  cbn [read_boundary set_pos]. fold inner. rewrite Hf. unfold set_data_position, modify, ret.
  unfold inner, set_pos, set_scope. simpl. by rewrite Z.add_simpl_r.
Qed.

Lemma checked_add_nonneg n size e :
  0 <= n -> checked_add n (wrap_u ptr_bits size) = Some e -> 0 <= e.
Proof.
  intros Hn. unfold checked_add. case_match; [| done]. intros [= <-].
  assert (in_u ptr_bits (wrap_u ptr_bits size)) as [? _].
  { apply wrap_u_range. destruct ptr_bits_ok as [-> | ->]; lia. }
  lia.
Qed.

(** Hostile blocks: a reading closure makes a reading block. *)
Lemma reads_sized {A} (f : P A) : reads f -> reads (sized_read f).
Proof.
  intros Hf p Hr. destruct (reads_i32 p Hr) as (Hs & n & Hn & E).
  unfold reads_at, sized_read, bind. unfold data_position.
  destruct (read_i32 p) as [[size | e |] q]; simpl in Hs, E; subst q; [| by eauto | done].
  destruct (size <? 4); [by eauto |].
  destruct (checked_add (pos p) (wrap_u ptr_bits size)) as [end_ |] eqn:Ee; [| by eauto].
  cbn [ok_or lift get]. destruct (_ <? _); [by eauto |]. destruct (_ <=? _); [by eauto |].
  unfold put. set (inner := set_scope _ _ _).
  destruct (Hf inner) as (Hs2 & n2 & Hn2 & E2); [split; [done | apply Hr] |].
  destruct (f inner) as [[a | e |] q]; simpl in Hs2, E2; subst q; [| | done].
  - split; [done |]. exists end_. split; [apply (checked_add_nonneg (pos p) size); [apply Hr | done] |].
    unfold set_data_position, modify, ret, inner, set_scope, set_pos. simpl.
    by rewrite Z.add_simpl_r.
  - split; [done |]. exists n2. split; [done |].
    unfold inner, set_scope, set_pos. simpl. by rewrite Z.add_simpl_r.
Qed.
End Sized.

(** * Properties of the buffer *)

(** The byte at an offset. *)
Definition byte_at (d : list byte) (i : Z) : option byte := d !! Z.to_nat i.

Lemma byte_at_app_l a b i : 0 <= i < zlen a -> byte_at (a ++ b) i = byte_at a i.
Proof. intros Hi. unfold byte_at, zlen in *. apply lookup_app_l. lia. Qed.

Lemma byte_at_app_r a b i : zlen a <= i -> byte_at (a ++ b) i = byte_at b (i - zlen a).
Proof.
  intros Hi. unfold byte_at, zlen in *. rewrite lookup_app_r by lia. f_equal. lia.
Qed.

Lemma byte_at_zeros n i : 0 <= i < n -> byte_at (zeros n) i = Some x00.
Proof.
  intros Hi. unfold byte_at. Transparent zeros. unfold zeros, zreplicate.
  apply lookup_replicate_2. lia.
Qed.
Global Opaque zeros.

Lemma byte_at_ztake d n i : 0 <= i < n -> byte_at (ztake n d) i = byte_at d i.
Proof. intros Hi. unfold byte_at, ztake. apply lookup_take_lt. lia. Qed.

Lemma byte_at_zdrop d n i : 0 <= i -> 0 <= n -> byte_at (zdrop n d) i = byte_at d (n + i).
Proof. intros Hi Hn. unfold byte_at, zdrop. rewrite lookup_drop. f_equal. lia. Qed.

Lemma byte_at_past d i : zlen d <= i -> byte_at d i = None.
Proof. intros Hi. unfold byte_at, zlen in *. apply lookup_ge_None. lia. Qed.

Section SpliceSpec.
Context (d : list byte) (n : Z) (bytes : list byte) (size : Z).
Hypothesis Hn : 0 <= n.
Hypothesis Hs : zlen bytes <= size.

Let base := d ++ zeros (n - zlen d).

Lemma base_long : n <= zlen base.
Proof.
  unfold base. rewrite zlen_app. destruct (Z.leb_spec n (zlen d)).
  - rewrite zeros_neg by lia. rewrite zlen_nil. lia.
  - rewrite zlen_zeros; lia.
Qed.

Lemma byte_at_base i :
  0 <= i -> byte_at base i =
  if i <? zlen d then byte_at d i else if i <? n then Some x00 else None.
Proof.
  intros Hi. unfold base. destruct (Z.ltb_spec i (zlen d)).
  - by rewrite byte_at_app_l by lia.
  - rewrite byte_at_app_r by lia. destruct (Z.ltb_spec i n).
    + by rewrite byte_at_zeros by lia.
    + apply byte_at_past. destruct (Z.leb_spec n (zlen d)); [rewrite zeros_neg by lia |].
      * rewrite zlen_nil. lia.
      * rewrite zlen_zeros; lia.
Qed.

Lemma byte_at_splice i :
  0 <= i -> byte_at (splice d n bytes size) i =
  if i <? n then (if i <? zlen d then byte_at d i else Some x00)
  else if i <? n + zlen bytes then byte_at bytes (i - n)
  else if i <? n + size then Some x00 else byte_at d i.
Proof.
  intros Hi. unfold splice. fold base. pose proof base_long.
  assert (Ht : zlen (ztake n base) = n) by (apply zlen_ztake; lia).
  destruct (Z.ltb_spec i n).
  { rewrite byte_at_app_l, byte_at_ztake, byte_at_base by (rewrite ?Ht; lia).
    by rewrite (proj2 (Z.ltb_lt i n)). }
  rewrite byte_at_app_r, Ht by lia. destruct (Z.ltb_spec i (n + zlen bytes)).
  { by rewrite byte_at_app_l by lia. }
  rewrite byte_at_app_r by lia. destruct (Z.ltb_spec i (n + size)).
  { rewrite byte_at_app_l by (rewrite zlen_zeros; lia). apply byte_at_zeros. lia. }
  rewrite byte_at_app_r, zlen_zeros by (rewrite ?zlen_zeros; lia).
  pose proof (zlen_nonneg bytes). rewrite byte_at_zdrop by lia.
  replace (n + size + (i - n - zlen bytes - (size - zlen bytes))) with i by lia.
  rewrite byte_at_base by lia. destruct (Z.ltb_spec i (zlen d)); [done |].
  rewrite (proj2 (Z.ltb_ge i n)) by lia. symmetry. apply byte_at_past. lia.
Qed.

Lemma zlen_splice : zlen (splice d n bytes size) = Z.max (zlen d) (n + size).
Proof.
  unfold splice. fold base. pose proof base_long. pose proof (zlen_nonneg bytes).
  rewrite !zlen_app, zlen_ztake, zlen_zeros by lia.
  assert (Hb : zlen base = Z.max (zlen d) n).
  { unfold base. rewrite zlen_app. destruct (Z.leb_spec n (zlen d)).
    - rewrite zeros_neg, zlen_nil by lia. lia.
    - rewrite zlen_zeros; lia. }
  destruct (Z.leb_spec (n + size) (zlen base)).
  - rewrite zlen_zdrop by lia. lia.
  - rewrite zdrop_all, zlen_nil by lia. lia.
Qed.
End SpliceSpec.

Section BufferProperties.
Context `{PtrWidth}.

(** Writing at any cursor, past the end included, either fails with
    [BadValue] and leaves the parcel as it was (the end would pass 2 GiB), or
    stores the bytes at the cursor, zeroes their padding and the gap a forward
    cursor left, keeps every other byte, and ends after the padding. No byte of
    the result comes from uninitialised memory. *)
Theorem write_aligned_data_spec bytes p :
  data_backing p = BVec -> 0 <= pos p -> zlen bytes + 3 <= usize_max ->
  let size := round4 (zlen bytes) in
  if pos p + size <=? i32_max then
    exists d, write_aligned_data bytes p = (Ok tt, set_pos (pos p + size) (set_data d p)) /\
      zlen d = Z.max (zlen (data p)) (pos p + size) /\
      forall i, 0 <= i -> byte_at d i =
        if i <? pos p then (if i <? zlen (data p) then byte_at (data p) i else Some x00)
        else if i <? pos p + zlen bytes then byte_at bytes (i - pos p)
        else if i <? pos p + size then Some x00 else byte_at (data p) i
  else write_aligned_data bytes p = (Err StBadValue, p).
Proof.
  intros Hb Hp Hm size. pose proof (round4_spec (zlen bytes)).
  unfold write_aligned_data. rewrite pad_size_round4 by zlen_lia. fold size.
  unfold data_position, bind. case_leb.
  - rewrite end_position_ok by done. unfold lift, reserve. rewrite Hb.
    exists (splice (data p) (pos p) bytes size). split_and!; [done | |].
    + apply zlen_splice; unfold size; lia.
    + intros i Hi. apply byte_at_splice; unfold size; lia.
  - by rewrite end_position_big.
Qed.

(** The size of an array on the wire is exact at either pointer width: a
    length word from a peer and an element size give the product and its padding
    without wrap-around, or [BadValue] when they cannot be represented. *)
Theorem array_layout_exact len k :
  1 <= len <= i32_max -> 0 < k ->
  match checked_array_layout len k with
  | Ok (size, padded) =>
      size = len * k /\ size <= padded < size + 4 /\ padded mod 4 = 0 /\ padded <= usize_max
  | Err e => e = StBadValue /\ usize_max < len * k + 3
  | Panic => False
  end.
Proof.
  intros Hl Hk. rewrite layout_cases by lia. pose proof (round4_spec (len * k)).
  case_leb; [| done]. unfold round4 in *.
  pose proof (Z.div_mod (len * k + 3) 4 ltac:(lia)).
  pose proof (Z.mod_pos_bound (len * k + 3) 4 ltac:(lia)). lia.
Qed.
End BufferProperties.

Lemma write_aligned_data_spec_witness :
  exists d, @write_aligned_data ptr64 [x01; x02; x03] (set_pos 6 (from_vec [x0a; x0b; x0c; x0d]))
  = (Ok tt, set_pos 10 (set_data d (set_pos 6 (from_vec [x0a; x0b; x0c; x0d])))) /\
    zlen d = 10 /\ byte_at d 5 = Some x00.
Proof.
  destruct (@write_aligned_data_spec ptr64 [x01; x02; x03] (set_pos 6 (from_vec [x0a; x0b; x0c; x0d])))
    as (d & E & Hl & Hd); [done.. |].
  exists d. split_and!; [exact E | exact Hl | by rewrite Hd].
Defined.

Lemma array_layout_exact_witness :
  @checked_array_layout ptr32 i32_max 4 = Err StBadValue /\ @usize_max ptr32 < i32_max * 4 + 3.
Proof.
  split; [reflexivity |].
  apply (@array_layout_exact ptr32 i32_max 4); unfold i32_max; lia.
Defined.

(** * The kernel object table *)

Lemma obj_at_lookup objs o : (o < length objs)%nat -> objs !! o = Some (obj_at objs o).
Proof.
  intros Ho. unfold obj_at. destruct (nth_lookup_or_length objs o 0); [done | lia].
Qed.

(** Ascending, read by index. *)
Lemma sorted_le l i j x y :
  StronglySorted Z.le l -> l !! i = Some x -> l !! j = Some y -> (i <= j)%nat -> x <= y.
Proof.
  intros Hs. revert i j. induction Hs as [| a l Hs IH Ha]; intros i j Hx Hy Hij; [done |].
  destruct i as [| i], j as [| j]; simplify_eq/=; try lia.
  - by eapply Forall_lookup_1 in Ha.
  - apply (IH i j); [done | done | lia].
Qed.

Lemma scan_up_spec fuel objs o x :
  (o + fuel < length objs)%nat ->
  let o' := scan_up fuel objs o x in
  (o' <= o + fuel)%nat /\ (o' = (o + fuel)%nat \/ x <= obj_at objs o').
Proof.
  revert o. induction fuel as [| fuel IH]; intros o Ho; cbn [scan_up].
  - split; [lia | left; lia].
  - destruct (Z.ltb_spec (obj_at objs o) x); [| split; [lia | by right]].
    destruct (IH (S o) ltac:(lia)) as [Hb He]. split; [lia |].
    destruct He as [-> | He]; [left; lia | by right].
Qed.

Lemma scan_down_spec objs o x :
  let o' := scan_down objs o x in
  (o' <= o)%nat /\ (forall j, (o' < j <= o)%nat -> x < obj_at objs j) /\
  (o' = 0%nat \/ obj_at objs o' <= x).
Proof.
  induction o as [| o (Hb & Hj & He)]; cbn [scan_down].
  - split_and!; [lia | intros j Hj; lia | by left].
  - destruct (Z.ltb_spec x (obj_at objs (S o))); [| split_and!; [lia | intros j Hj'; lia | by right]].
    split_and!; [lia | | done]. intros j Hj'.
    destruct (decide (j = S o)) as [-> | Hne]; [done | apply Hj; lia].
Qed.

(** Whatever the hint, the search ends on an entry equal to the position when
    there is one. *)
Lemma find_object_spec objs hint x :
  StronglySorted Z.le objs ->
  match find_object objs hint x with
  | Some h => exists o, h = S o /\ objs !! o = Some x
  | None => x ∉ objs
  end.
Proof.
  intros Hs. destruct objs as [| z objs']; [cbn; apply not_elem_of_nil |].
  set (objs := z :: objs') in *. assert (Hc : (0 < length objs)%nat) by (cbn; lia).
  unfold find_object. fold objs. change (match objs with [] => None | _ => ?b end) with b.
  set (o1 := if decide _ then _ else _).
  assert (Ho1 : (o1 < length objs)%nat /\ (o1 = (length objs - 1)%nat \/ x <= obj_at objs o1)).
  { unfold o1. case_decide; [| split; [lia | by left]].
    destruct (scan_up_spec (length objs - 1 - hint) objs hint x ltac:(lia)) as [Hb He].
    split; [lia |]. destruct He as [-> | He]; [left; lia | by right]. }
  destruct Ho1 as [Hb1 He1]. destruct (Z.eqb_spec (obj_at objs o1) x) as [E1 | E1].
  { exists o1. split; [done |]. rewrite obj_at_lookup by done. by f_equal. }
  destruct (scan_down_spec objs o1 x) as (Hb2 & Hj2 & He2).
  set (o2 := scan_down objs o1 x) in *. destruct (Z.eqb_spec (obj_at objs o2) x) as [E2 | E2].
  { exists o2. split; [done |]. rewrite obj_at_lookup by lia. by f_equal. }
  intros [k Hk]%list_elem_of_lookup. pose proof (lookup_lt_Some _ _ _ Hk) as Hkl.
  assert (Hko1 : (k <= o1)%nat).
  { destruct (decide (k <= o1)%nat) as [| Hgt]; [done |]. exfalso.
    destruct He1 as [-> | He1]; [lia |].
    pose proof (sorted_le _ _ _ _ _ Hs (obj_at_lookup objs o1 Hb1) Hk ltac:(lia)). lia. }
  assert (Hko2 : (k <= o2)%nat).
  { destruct (decide (k <= o2)%nat) as [| Hgt]; [done |]. exfalso.
    specialize (Hj2 k ltac:(lia)). rewrite obj_at_lookup in Hk by lia. simplify_eq. lia. }
  pose proof (sorted_le _ _ _ _ _ Hs Hk (obj_at_lookup objs o2 ltac:(lia)) Hko2).
  destruct He2 as [E0 | He2]; [| lia].
  assert (k = o2) as -> by lia. rewrite obj_at_lookup in Hk by lia. simplify_eq.
Qed.

Section Objects.
Context `{PtrWidth}.

Lemma set_hint_here h p : next_object_hint p = h -> set_hint h p = p.
Proof. intros <-. by destruct p. Qed.

Lemma read_object_at null_meta p d :
  is_for_rpc p = false -> readable p -> StronglySorted Z.le (objects p) ->
  get_range (data p) (pos p) (pos p + FLAT_BINDER_SIZE) = Some d ->
  let obj := flat_of_bytes d in
  let null := negb null_meta && (fbo_cookie obj =? 0) && (fbo_binder obj =? 0) in
  exists h, read_object null_meta p
  = (if null || bool_decide (pos p ∈ objects p) then Ok obj else Err StBadType,
     set_hint h (set_pos (pos p + FLAT_BINDER_SIZE) p)).
Proof.
  intros Hrpc Hr Hs Hd obj null. pose proof Hd as (Ha & Hb & _)%get_range_Some.
  unfold read_object, bind, get. rewrite Hrpc.
  assert (E : read_aligned_data FLAT_BINDER_SIZE p
              = (Ok d, set_pos (pos p + FLAT_BINDER_SIZE) p)).
  { unfold read_aligned_data. rewrite pad_size_small by (unfold FLAT_BINDER_SIZE, i32_max; lia).
    change (round4 FLAT_BINDER_SIZE) with FLAT_BINDER_SIZE. unfold data_position, bind.
    rewrite data_avail_ok by done. rewrite (proj2 (Z.leb_le _ _)) by lia.
    unfold set_data_position, modify, slice. cbn [data set_pos]. by rewrite Hd. }
  rewrite E. assert (Er : read_flat_binder d 0 = Ok obj).
  { unfold read_flat_binder. apply get_range_zlen in Hd.
    rewrite <- (app_nil_r d) at 1. rewrite get_range_here by (rewrite Hd; lia). done. }
  unfold lift. rewrite Er. fold null.
  destruct null; [exists (next_object_hint p); by rewrite set_hint_here |]. cbn [orb].
  pose proof (find_object_spec (objects p) (next_object_hint p) (pos p) Hs) as Hf.
  destruct (find_object _ _ _) as [h |].
  - destruct Hf as (o & -> & Ho). rewrite bool_decide_eq_true_2 by (by eapply list_elem_of_lookup_2).
    by eexists.
  - exists (next_object_hint p). rewrite set_hint_here by done. by rewrite bool_decide_eq_false_2.
Qed.

(** A binder or descriptor is taken from a kernel transaction only where the
    kernel's own table has it. With the 24 bytes available, reading an object
    gives the bytes at the cursor when it is null or its offset is in the
    table, and [BadType] otherwise, whatever the search hint is. *)
Theorem read_object_checks_table null_meta p d :
  is_for_rpc p = false -> readable p -> StronglySorted Z.le (objects p) ->
  get_range (data p) (pos p) (pos p + FLAT_BINDER_SIZE) = Some d ->
  let obj := flat_of_bytes d in
  let null := negb null_meta && (fbo_cookie obj =? 0) && (fbo_binder obj =? 0) in
  fst (read_object null_meta p)
  = if null || bool_decide (pos p ∈ objects p) then Ok obj else Err StBadType.
Proof. intros Hrpc Hr Hs Hd obj null. destruct (read_object_at null_meta p d Hrpc Hr Hs Hd) as (h & ->). done. Qed.
End Objects.

(** A transaction with one handle at offset 4, after a word. *)
Definition handle_parcel : Parcel :=
  set_hint 7 (set_pos 4
    (from_ipc_parts (to_le 4 1 ++ flat_bytes (new_handle 5 0)) [4])).

Lemma read_object_checks_table_witness :
  fst (@read_object ptr64 false handle_parcel) = Ok (new_handle 5 0) /\
  fst (@read_object ptr64 false (set_objects [8] handle_parcel)) = Err StBadType.
Proof.
  split.
  - rewrite (@read_object_checks_table ptr64 false handle_parcel (flat_bytes (new_handle 5 0)));
      [reflexivity | reflexivity | split; vm_compute; done | repeat constructor | reflexivity].
  - rewrite (@read_object_checks_table ptr64 false _ (flat_bytes (new_handle 5 0)));
      [reflexivity | reflexivity | split; vm_compute; done | repeat constructor | reflexivity].
Defined.

(** * The RPC object table *)

Lemma elem_of_insert_position x y l : y ∈ insert_position x l <-> y = x \/ y ∈ l.
Proof.
  induction l as [| z l IH]; cbn [insert_position].
  - rewrite list_elem_of_singleton. split; [by left |]. intros [-> | Hy]; [done |].
    by apply not_elem_of_nil in Hy.
  - destruct (z <=? x); rewrite !elem_of_cons, ?IH; tauto.
Qed.

Lemma insert_position_sorted x l :
  StronglySorted Z.le l -> StronglySorted Z.le (insert_position x l).
Proof.
  induction 1 as [| z l Hs IH Hz]; cbn [insert_position]; [by repeat constructor |].
  destruct (Z.leb_spec z x).
  - constructor; [done |]. apply Forall_forall. intros y [-> | Hy]%elem_of_insert_position; [done |].
    rewrite Forall_forall in Hz. by apply Hz.
  - constructor; [by constructor |]. constructor; [lia |].
    eapply Forall_impl; [exact Hz |]. cbn. lia.
Qed.

Lemma binary_search_spec fuel l lo n x :
  StronglySorted Z.le l -> (lo + n <= length l)%nat -> (n <= fuel)%nat ->
  binary_search fuel l lo n x = true <-> exists i, (lo <= i < lo + n)%nat /\ l !! i = Some x.
Proof.
  intros Hs. revert lo n. induction fuel as [| fuel IH]; intros lo n Hl Hf; cbn [binary_search].
  { split; [done |]. intros (i & Hi & _). lia. }
  case_decide as En; [split; [done |]; intros (i & Hi & _); lia |].
  assert (Hh : (Nat.div2 n < n)%nat) by (apply Nat.lt_div2; lia).
  generalize dependent (Nat.div2 n). intros half Hh. remember (lo + half)%nat as mid eqn:Hmid.
  destruct (l !! mid) as [y |] eqn:Ey; [| apply lookup_ge_None in Ey; lia].
  destruct (Z.eqb_spec y x) as [-> | Hne]; [split; [intros _; exists mid; split; [lia | done] | done] |].
  destruct (Z.ltb_spec y x).
  - rewrite IH by lia. split; intros (i & Hi & Hx); exists i; (split; [| done]); [lia |].
    destruct (decide (mid < i)%nat) as [| Hle]; [lia |].
    pose proof (sorted_le _ _ _ _ _ Hs Hx Ey ltac:(lia)). lia.
  - rewrite IH by lia. split; intros (i & Hi & Hx); exists i; (split; [| done]); [lia |].
    destruct (decide (i < mid)%nat) as [| Hge]; [lia |].
    pose proof (sorted_le _ _ _ _ _ Hs Ey Hx ltac:(lia)). lia.
Qed.

(** Recording positions in any order. *)
Definition record_all (xs : list Z) (r : RpcFields) : RpcFields :=
  foldl (fun r x => record_object_position x r) r xs.

Lemma record_all_spec xs r :
  StronglySorted Z.le (object_positions r) ->
  StronglySorted Z.le (object_positions (record_all xs r)) /\
  forall y, y ∈ object_positions (record_all xs r) <->
            y ∈ object_positions r \/ y ∈ (wrap_u 32 <$> xs).
Proof.
  revert r. induction xs as [| x xs IH]; intros r Hs.
  { split; [done |]. intros y. rewrite fmap_nil, elem_of_nil. cbn [record_all foldl]. tauto. }
  destruct (IH (record_object_position x r)) as [Hs' Hin]; [by apply insert_position_sorted |].
  split; [done |]. intros y. cbn [record_all foldl]. fold (record_all xs).
  unfold record_all in Hin. rewrite Hin. cbn [object_positions record_object_position].
  rewrite elem_of_insert_position, fmap_cons, elem_of_cons. tauto.
Qed.

(** The object table of an RPC parcel is kept in ascending order, as the peer
    requires, and its membership test finds exactly the positions recorded,
    whatever order they were recorded in. *)
Theorem recorded_positions_found xs x :
  0 <= x ->
  StronglySorted Z.le (object_positions (record_all xs rpc_default)) /\
  (object_position_present x (record_all xs rpc_default) = true
   <-> x <= u32_max /\ x ∈ (wrap_u 32 <$> xs)).
Proof.
  intros Hx. destruct (record_all_spec xs rpc_default) as [Hs Hin]; [constructor |].
  split; [done |]. unfold object_position_present.
  set (l := object_positions (record_all xs rpc_default)) in *.
  case_leb; [| split; [done | intros [? _]; lia]].
  rewrite binary_search_spec by (done || lia).
  assert (Hl : x ∈ l <-> x ∈ (wrap_u 32 <$> xs)).
  { rewrite Hin. cbn [object_positions rpc_default]. rewrite elem_of_nil. tauto. }
  rewrite <- Hl, list_elem_of_lookup. split.
  - intros (i & _ & Hi). eauto.
  - intros [_ [i Hi]]. exists i. split; [| done]. apply lookup_lt_Some in Hi. lia.
Qed.

Lemma recorded_positions_found_witness :
  object_positions (record_all [40; 8; 24] rpc_default) = [8; 24; 40] /\
  object_position_present 24 (record_all [40; 8; 24] rpc_default) = true /\
  object_position_present 12 (record_all [40; 8; 24] rpc_default) = false.
Proof.
  split_and!; [reflexivity | | reflexivity].
  apply (recorded_positions_found [40; 8; 24] 24); [lia |]. split; [unfold u32_max; lia |].
  vm_compute. repeat constructor.
Defined.

(** * Nested blocks *)

Section Nesting.
Context `{PtrWidth} {A : Type}.

Lemma read_i32_depth p r q :
  read_i32 p = (r, q) -> nested_read_depth q = nested_read_depth p.
Proof.
  unfold read_i32, read_int, read_fixed, read_aligned_data, bind, data_position,
    data_avail, set_data_position, modify, slice, ret, throw.
  intros E. inv_ok; done.
Qed.

(** A reader of a self-referential parcelable: [body] reads the members of one
    block, given how to read a nested one. Running out of fuel is [overflow]. *)
Context (body : P A -> P A).

Fixpoint read_nested (overflow : P A) (fuel : nat) : P A :=
  match fuel with
  | O => overflow
  | S fuel => sized_read (body (read_nested overflow fuel))
  end.

(** The members use the nested reader at the depth they are read at. *)
Definition depth_local : Prop :=
  forall k k' d, (forall q, nested_read_depth q = d -> k q = k' q) ->
  forall p, nested_read_depth p = d -> body k p = body k' p.

Lemma sized_read_ext (f g : P A) p :
  (nested_read_depth p < MAX_NESTED_READ_DEPTH ->
   forall q, nested_read_depth q = nested_read_depth p + 1 -> f q = g q) ->
  sized_read f p = sized_read g p.
Proof.
  intros Hfg. unfold sized_read, bind. unfold data_position.
  destruct (read_i32 p) as [[size | e |] q] eqn:E; [| done | done].
  destruct (size <? 4); [done |].
  destruct (checked_add _ _) as [e |]; [| done]. cbn [ok_or lift get].
  destruct (data_size q <? e); [done |]. apply read_i32_depth in E. rewrite E.
  destruct (Z.leb_spec MAX_NESTED_READ_DEPTH (nested_read_depth p)); [done |].
  unfold put. rewrite Hfg; [done | lia |]. done.
Qed.

Lemma read_nested_stable o o' fuel fuel' p :
  depth_local -> MAX_NESTED_READ_DEPTH <= Z.of_nat fuel + nested_read_depth p ->
  MAX_NESTED_READ_DEPTH <= Z.of_nat fuel' + nested_read_depth p ->
  read_nested o (S fuel) p = read_nested o' (S fuel') p.
Proof.
  intros Hbody. revert fuel' p. induction fuel as [| fuel IH]; intros fuel' p Hf Hf'.
  - apply sized_read_ext. intros Hd. lia.
  - destruct fuel' as [| fuel']; [apply sized_read_ext; intros Hd; lia |].
    apply sized_read_ext. intros Hd q Hq. apply (Hbody _ _ (nested_read_depth q)); [| done].
    intros q' Hq'. apply IH; lia.
Qed.

Lemma read_nested_reads o fuel :
  (forall k, reads k -> reads (body k)) -> reads o -> reads (read_nested o fuel).
Proof.
  intros Hbody Ho. induction fuel as [| fuel IH]; [done |]. by apply reads_sized, Hbody.
Qed.

(** Hostile nesting cannot exhaust the stack: for every reader of a
    self-referential parcelable, the cap of 1000 nested blocks makes the
    recursion end within 1001 calls on any input. More stack than that never
    changes the result, and the result is a value or an error, even where
    running out of stack would be a panic. *)
Theorem nested_read_bounded p extra :
  depth_local -> (forall k, reads k -> reads (body k)) -> readable p -> 0 <= nested_read_depth p ->
  read_nested panic (1001 + extra) p = read_nested panic 1001 p /\
  fst (read_nested panic 1001 p) <> Panic.
Proof.
  intros Hl Hb Hr Hd. change (1001 + extra)%nat with (S (1000 + extra)).
  split; [apply read_nested_stable; unfold MAX_NESTED_READ_DEPTH; (done || lia) |].
  rewrite (read_nested_stable panic (throw StBadValue) 1000 1000)
    by (unfold MAX_NESTED_READ_DEPTH; (done || lia)).
  apply (read_nested_reads (throw StBadValue) 1001 Hb (reads_throw _) p Hr).
Qed.
End Nesting.

(** [parcelable RecursiveList { int value; @nullable RecursiveList next; }], whose
    [next] is absent where the block ends. *)
Definition list_body (next : P (list Z)) : P (list Z) :=
  let* v := @read_i32 ptr64 in
  let* p := get in
  if has_more_data p then (let* r := next in ret (v :: r)) else ret [v].

Lemma list_body_local : depth_local list_body.
Proof.
  intros k k' d Hk p Hp. unfold list_body, bind.
  destruct (@read_i32 ptr64 p) as [[v | e |] q] eqn:E; [| done | done].
  apply read_i32_depth in E. unfold get. destruct (has_more_data q); [| done].
  by rewrite Hk by lia.
Qed.

Lemma list_body_reads k : reads k -> reads (list_body k).
Proof.
  intros Hk. apply reads_bind; [apply reads_i32 |]. intros v. apply reads_bind; [apply reads_get |].
  intros p. apply reads_if; [| auto with rsb]. apply reads_bind; [done | auto with rsb].
Qed.

Lemma nested_read_bounded_witness :
  let p := from_vec (to_le 4 20 ++ to_le 4 7 ++ to_le 4 12 ++ to_le 4 8 ++ to_le 4 3) in
  fst (@read_nested ptr64 _ list_body panic 1001 p) = Err StBadValue /\
  fst (@read_nested ptr64 _ list_body panic (1001 + 5) p) <> Panic.
Proof.
  intros p. assert (Hr : readable p) by (split; vm_compute; done).
  destruct (@nested_read_bounded ptr64 _ list_body p 5 list_body_local list_body_reads Hr)
    as [E Hp]; [done |].
  split; [vm_compute; reflexivity | by rewrite E].
Defined.
