(* ===== verification/Parcelable.v ===== *)
(** Values in parcels (src/rsbinder/src/parcelable.rs): what the traits
    [Serialize], [Deserialize] and their array and option variants do for the
    primitive types, strings, nullable values, vectors and fixed arrays.

    A [Codec] is the pair of operations a type has; [CodecLaws] is what they
    promise: the bytes written, that reading them gives the value back from any
    position of any buffer, and that reading hostile bytes never panics. The
    combinators carry the laws from the elements to options, vectors and
    arrays, so a client proves its round trip once, for every type.

    Little-endian hosts: [from_ne_bytes] is [from_le_bytes]. A float is its bit
    pattern. A Rust string is the list of its Unicode scalar values. *)

From Stdlib Require Import ZArith Lia Strings.Byte.
From stdpp Require Import base list strings.
From S2P Require Import Prelude Errors Address Parcel ParcelSpec.

(** [Serialize] and [Deserialize] of a type. *)
Record Codec (A : Type) : Type := mkCodec { ser : A -> P unit; de : P A }.
Arguments mkCodec {A} ser de.
Arguments ser {A} c a.
Arguments de {A} c.

(** [SerializeArray] and [DeserializeArray] of an element type. *)
Record ArrayCodec (A : Type) : Type := mkArrayCodec {
  ser_array : list A -> P unit;
  de_array : P (option (list A))
}.
Arguments mkArrayCodec {A} ser_array de_array.
Arguments ser_array {A} a l.
Arguments de_array {A} a.

Section Codecs.
Context `{PtrWidth}.

(** * Primitive types *)

(** [impl_parcelable!] for the types of [k] bytes, unsigned (and floats, as
    bits) and signed. *)
Definition uint_codec (k : nat) : Codec Z :=
  mkCodec (write_word k) (read_uint (Z.of_nat k)).
Definition int_codec (k : nat) : Codec Z :=
  mkCodec (write_word k) (read_int (8 * Z.of_nat k) (Z.of_nat k)).

Definition i32_codec : Codec Z := int_codec 4.
Definition u32_codec : Codec Z := uint_codec 4.
Definition i64_codec : Codec Z := int_codec 8.
Definition u64_codec : Codec Z := uint_codec 8.
Definition u128_codec : Codec Z := uint_codec 16.
Definition f32_codec : Codec Z := uint_codec 4.
Definition f64_codec : Codec Z := uint_codec 8.

(** [impl_parcelable_ex!]: widened to a word, narrowed by the cast back. *)
Definition i8_codec : Codec Z :=
  mkCodec (fun v => write_word 4 v) (let* v := read_i32 in ret (wrap_i 8 v)).
Definition u8_codec : Codec Z :=
  mkCodec (fun v => write_word 4 v) (let* v := read_i32 in ret (wrap_u 8 v)).
Definition i16_codec : Codec Z :=
  mkCodec (fun v => write_word 4 v) (let* v := read_i32 in ret (wrap_i 16 v)).
Definition u16_codec : Codec Z :=
  mkCodec (fun v => write_word 4 v) (let* v := read_uint 4 in ret (wrap_u 16 v)).

Definition bool_codec : Codec bool :=
  mkCodec (fun b : bool => write_word 4 (if b then 1 else 0))
          (let* v := read_i32 in ret (negb (v =? 0))).

Definition status_codec `{ErrnoTable} : Codec StatusCode :=
  mkCodec (fun s => write_word 4 (status_to_i32 s))
          (let* v := read_i32 in ret (status_of_i32 v)).

(** * Strings *)

(** [char::encode_utf16]. *)
Definition encode_char (c : Z) : list Z :=
  if c <? 65536 then [c]
  else [55296 + (c - 65536) / 1024; 56320 + (c - 65536) mod 1024].

Definition encode_utf16 (s : list Z) : list Z := concat (encode_char <$> s).

(** [String::from_utf16]: fails on an unpaired surrogate. *)
Fixpoint from_utf16 (us : list Z) : option (list Z) :=
  match us with
  | [] => Some []
  | u :: us =>
      if (u <? 55296) || (57344 <=? u) then cons u <$> from_utf16 us
      else if 56320 <=? u then None
      else
        match us with
        | v :: us' =>
            if (56320 <=? v) && (v <? 57344)
            then cons (65536 + (u - 55296) * 1024 + (v - 56320)) <$> from_utf16 us'
            else None
        | [] => None
        end
  end.

(** The bytes of a [Vec<u16>]. *)
Definition utf16_bytes (us : list Z) : list byte := concat (to_le 2 <$> us).

(** [SerializeOption for str]. *)
Definition str_serialize_option (this : option (list Z)) : P unit :=
  match this with
  | None => write_i32 (-1)
  | Some text =>
      let utf16 := encode_utf16 text in
      let len := zlen utf16 in
      let* _ := write_i32 (wrap_i 32 len) in
      write_aligned_data (utf16_bytes (utf16 ++ [0]))
  end.

(** [DeserializeOption for String]. *)
Definition string_deserialize_option : P (option (list Z)) :=
  let* len := read_i32 in
  if len =? -1 then ret None
  else if (0 <=? len) && (len <? i32_max) then
    let* (byte_count, _) := lift (checked_array_layout (len + 1) 2) in
    let* d := read_aligned_data byte_count in
    let u16_data := of_le <$> chunks (Z.to_nat len) 2 (ztake (len * 2) d) in
    match from_utf16 u16_data with
    | Some res => ret (Some res)
    | None => throw StBadValue
    end
  else throw StUnexpectedNull.

Definition option_string_codec : Codec (option (list Z)) :=
  mkCodec str_serialize_option string_deserialize_option.

Definition string_codec : Codec (list Z) :=
  mkCodec (fun s => str_serialize_option (Some s))
          (let* o := string_deserialize_option in
           match o with Some s => ret s | None => throw StUnexpectedNull end).

(** * Nullable values *)

Definition NON_NULL_PARCELABLE_FLAG : Z := 1.
Definition NULL_PARCELABLE_FLAG : Z := 0.

(** The default [serialize_option] and [deserialize_option]. *)
Definition option_codec {A} (c : Codec A) : Codec (option A) :=
  mkCodec
    (fun this =>
       match this with
       | Some inner =>
           let* _ := write_i32 NON_NULL_PARCELABLE_FLAG in
           ser c inner
       | None => write_i32 NULL_PARCELABLE_FLAG
       end)
    (let* null := read_i32 in
     if null =? NULL_PARCELABLE_FLAG then ret None
     else if null =? NON_NULL_PARCELABLE_FLAG then
       let* a := de c in ret (Some a)
     else throw StUnexpectedNull).

(** * Arrays *)

(** The raw-copy types: [i8], [u8], [i32], .., [u128]. *)
Definition uint_array (k : nat) : ArrayCodec Z :=
  mkArrayCodec (write_array (to_le k)) (read_array (Z.of_nat k) of_le).
Definition int_array (k : nat) : ArrayCodec Z :=
  mkArrayCodec (write_array (to_le k))
               (read_array (Z.of_nat k) (of_le_i (8 * Z.of_nat k))).

(** [i16] and [u16]: a word per element. *)
Definition i16_array : ArrayCodec Z :=
  mkArrayCodec (write_array_char (fun v => v)) (read_array_char (wrap_i 16)).
Definition u16_array : ArrayCodec Z :=
  mkArrayCodec (write_array_char (fun v => v)) (read_array_char (wrap_u 16)).

(** The default bodies: element by element. *)
Fixpoint write_all {A} (c : Codec A) (l : list A) : P unit :=
  match l with
  | [] => ret tt
  | a :: l =>
      let* _ := ser c a in
      write_all c l
  end.

Fixpoint read_n {A} (c : Codec A) (n : nat) : P (list A) :=
  match n with
  | O => ret []
  | S n =>
      let* a := de c in
      let* l := read_n c n in
      ret (a :: l)
  end.

(** The capacity hint reads [data_avail]. *)
Definition default_array {A} (c : Codec A) : ArrayCodec A :=
  mkArrayCodec
    (fun l =>
       let* len := lift (len_i32 (zlen l)) in
       let* _ := write_i32 len in
       write_all c l)
    (let* olen := read_array_len in
     match olen with
     | None => ret None
     | Some len =>
         if len =? 0 then ret (Some [])
         else
           let* _ := data_avail in
           let* l := read_n c (Z.to_nat len) in
           ret (Some l)
     end).

(** [Vec<T>], [Option<Vec<T>>], [[T; N]] and [Option<[T; N]>]. *)
Definition vec_codec {A} (c : ArrayCodec A) : Codec (list A) :=
  mkCodec (ser_array c)
          (let* o := de_array c in
           match o with Some l => ret l | None => throw StUnexpectedNull end).

Definition option_vec_codec {A} (c : ArrayCodec A) : Codec (option (list A)) :=
  mkCodec (fun this => match this with Some l => ser_array c l | None => write_i32 (-1) end)
          (de_array c).

Definition fixed_codec {A} (n : nat) (c : ArrayCodec A) : Codec (list A) :=
  mkCodec (ser_array c)
          (let* o := de_array c in
           match o with
           | Some l => if decide (length l = n) then ret l else throw StBadValue
           | None => throw StUnexpectedNull
           end).

Definition option_fixed_codec {A} (n : nat) (c : ArrayCodec A) : Codec (option (list A)) :=
  mkCodec (fun this => match this with Some l => ser_array c l | None => write_i32 (-1) end)
          (let* o := de_array c in
           match o with
           | Some l => if decide (length l = n) then ret (Some l) else throw StBadValue
           | None => ret None
           end).
End Codecs.

(** * What a codec promises *)

(** The abstract side of a type: its bytes on the wire, the values that have
    them, and the nesting of sized blocks they need. *)
Record Format (A : Type) : Type := mkFormat {
  wire : A -> list byte;
  valid : A -> Prop;
  nest : A -> Z
}.
Arguments mkFormat {A} wire valid nest.
Arguments wire {A} f a.
Arguments valid {A} f a.
Arguments nest {A} f a.

Section Laws.
Context `{PtrWidth}.

Class CodecLaws {A} (c : Codec A) (f : Format A) : Prop := {
  law_wire a : valid f a -> 4 <= zlen (wire f a) /\ zlen (wire f a) mod 4 = 0;
  law_writes a : valid f a -> writes (ser c a) (wire f a);
  law_decodes a : valid f a -> decodes (de c) a (wire f a) (nest f a);
  law_reads : reads (de c)
}.

Class ArrayLaws {A} (c : ArrayCodec A) (f : Format (list A)) : Prop := {
  array_wire l : valid f l -> 4 <= zlen (wire f l) /\ zlen (wire f l) mod 4 = 0;
  array_writes l : valid f l -> writes (ser_array c l) (wire f l);
  array_decodes l : valid f l -> decodes (de_array c) (Some l) (wire f l) (nest f l);
  array_null n : decodes (de_array c) None (to_le 4 (-1)) n;
  array_reads : reads (de_array c)
}.

(** * Primitive types *)

Definition word_format (k : nat) (ok : Z -> Prop) : Format Z :=
  mkFormat (to_le k) ok (fun _ => 0).

Lemma word_wire k v :
  Z.of_nat k mod 4 = 0 -> (0 < k)%nat -> 4 <= zlen (to_le k v) /\ zlen (to_le k v) mod 4 = 0.
Proof.
  intros Hm Hk. rewrite zlen_to_le. split; [| done].
  pose proof (Z.div_mod (Z.of_nat k) 4 ltac:(lia)). lia.
Qed.

Lemma uint_laws k :
  Z.of_nat k mod 4 = 0 -> (0 < k <= 64)%nat ->
  CodecLaws (uint_codec k) (word_format k (in_u (8 * Z.of_nat k))).
Proof.
  intros Hm Hk. split.
  - intros a _. apply word_wire; [done | lia].
  - intros a _. apply writes_word; [done | lia].
  - intros a Ha. by apply decodes_uint.
  - apply reads_uint. lia.
Qed.

Lemma int_laws k :
  Z.of_nat k mod 4 = 0 -> (0 < k <= 64)%nat ->
  CodecLaws (int_codec k) (word_format k (in_i (8 * Z.of_nat k))).
Proof.
  intros Hm Hk. split.
  - intros a _. apply word_wire; [done | lia].
  - intros a _. apply writes_word; [done | lia].
  - intros a Ha. apply decodes_int; [lia | done | done].
  - apply reads_int. lia.
Qed.

#[export] Instance i32_laws : CodecLaws i32_codec (word_format 4 (in_i 32)).
Proof. apply (int_laws 4); [done | lia]. Qed.
#[export] Instance u32_laws : CodecLaws u32_codec (word_format 4 (in_u 32)).
Proof. apply (uint_laws 4); [done | lia]. Qed.
#[export] Instance f32_laws : CodecLaws f32_codec (word_format 4 (in_u 32)).
Proof. apply (uint_laws 4); [done | lia]. Qed.
#[export] Instance i64_laws : CodecLaws i64_codec (word_format 8 (in_i 64)).
Proof. apply (int_laws 8); [done | lia]. Qed.
#[export] Instance u64_laws : CodecLaws u64_codec (word_format 8 (in_u 64)).
Proof. apply (uint_laws 8); [done | lia]. Qed.
#[export] Instance f64_laws : CodecLaws f64_codec (word_format 8 (in_u 64)).
Proof. apply (uint_laws 8); [done | lia]. Qed.
#[export] Instance u128_laws : CodecLaws u128_codec (word_format 16 (in_u 128)).
Proof. apply (uint_laws 16); [done | lia]. Qed.

(** A narrow type is its word, provided the cast back inverts the widening. *)
Lemma narrow_laws {A} (as_word : A -> Z) (back : Z -> A) (rd : P Z) (ok : Z -> Prop) (v : A -> Prop) :
  (forall z n, ok z -> decodes rd z (to_le 4 z) n) -> reads rd ->
  (forall a, v a -> ok (as_word a) /\ back (as_word a) = a) ->
  CodecLaws (mkCodec (fun a => write_word 4 (as_word a)) (let* z := rd in ret (back z)))
            (mkFormat (fun a => to_le 4 (as_word a)) v (fun _ => 0)).
Proof.
  intros Hd Hr Hb. split; cbn [ser de wire valid nest].
  - intros a _. by apply word_wire; [| lia].
  - intros a _. by apply writes_word.
  - intros a [Ho Ha]%Hb. eapply decodes_map; [by apply Hd |]. rewrite Ha. apply decodes_ret.
  - apply reads_bind; [done | auto with rsb].
Qed.

Ltac narrow := unfold in_i, in_u in *; simpl in *; lia.

#[export] Instance i8_laws : CodecLaws i8_codec (word_format 4 (in_i 8)).
Proof.
  apply (narrow_laws (fun z => z) (wrap_i 8) _ (in_i 32)); [intros; by apply decodes_i32 | apply reads_i32 |].
  intros z Hz. split; [narrow | by apply wrap_i_small].
Qed.
#[export] Instance u8_laws : CodecLaws u8_codec (word_format 4 (in_u 8)).
Proof.
  apply (narrow_laws (fun z => z) (wrap_u 8) _ (in_i 32)); [intros; by apply decodes_i32 | apply reads_i32 |].
  intros z Hz. split; [narrow | by apply wrap_u_small].
Qed.
#[export] Instance i16_laws : CodecLaws i16_codec (word_format 4 (in_i 16)).
Proof.
  apply (narrow_laws (fun z => z) (wrap_i 16) _ (in_i 32)); [intros; by apply decodes_i32 | apply reads_i32 |].
  intros z Hz. split; [narrow | by apply wrap_i_small].
Qed.
#[export] Instance u16_laws : CodecLaws u16_codec (word_format 4 (in_u 16)).
Proof.
  apply (narrow_laws (fun z => z) (wrap_u 16) _ (in_u 32)); [intros; by apply (decodes_uint 4) | by apply reads_uint |].
  intros z Hz. split; [narrow | by apply wrap_u_small].
Qed.

Definition bool_format : Format bool :=
  mkFormat (fun b : bool => to_le 4 (if b then 1 else 0)) (fun _ => True) (fun _ => 0).
#[export] Instance bool_laws : CodecLaws bool_codec bool_format.
Proof.
  apply (narrow_laws (fun b : bool => if b then 1 else 0) (fun v => negb (v =? 0)) _ (in_i 32));
    [intros; by apply decodes_i32 | apply reads_i32 |].
  intros [] _; (split; [narrow | done]).
Qed.
(** * Strings *)

(** A Unicode scalar value. *)
Definition scalar (c : Z) : Prop := 0 <= c < 55296 \/ 57344 <= c < 1114112.

Lemma from_utf16_encode_char c us :
  scalar c -> from_utf16 (encode_char c ++ us) = cons c <$> from_utf16 us.
Proof.
  intros Hc. unfold scalar, encode_char in *. destruct (Z.ltb_spec c 65536) as [Hs | Hs].
  - cbn [app from_utf16].
    by destruct (Z.ltb_spec c 55296), (Z.leb_spec 57344 c); try lia.
  - cbn [app from_utf16].
    pose proof (Z.div_mod (c - 65536) 1024 ltac:(lia)) as Hdm.
    pose proof (Z.mod_pos_bound (c - 65536) 1024 ltac:(lia)).
    set (h := (c - 65536) / 1024) in *. set (l := (c - 65536) mod 1024) in *.
    assert (0 <= h < 1024) by lia.
    rewrite (proj2 (Z.ltb_ge _ _)), (proj2 (Z.leb_gt 57344 _)) by lia. cbn [orb].
    rewrite (proj2 (Z.leb_gt 56320 _)), (proj2 (Z.leb_le 56320 _)),
      (proj2 (Z.ltb_lt _ 57344)) by lia. cbn [andb].
    do 2 f_equal. lia.
Qed.

Lemma from_encode_utf16 s : Forall scalar s -> from_utf16 (encode_utf16 s) = Some s.
Proof.
  induction 1 as [| c s Hc Hs IH]; [done |]. unfold encode_utf16 in *.
  cbn [fmap list_fmap concat]. rewrite from_utf16_encode_char by done. by rewrite IH.
Qed.

Lemma encode_utf16_range s : Forall scalar s -> Forall (in_u 16) (encode_utf16 s).
Proof.
  induction 1 as [| c s Hc Hs IH]; [constructor |]. unfold encode_utf16 in *.
  cbn [fmap list_fmap concat]. apply Forall_app. split; [| done].
  unfold scalar, encode_char, in_u in *. change (2 ^ 16) with 65536.
  pose proof (Z.mod_pos_bound (c - 65536) 1024 ltac:(lia)).
  pose proof (Z.div_mod (c - 65536) 1024 ltac:(lia)).
  destruct (Z.ltb_spec c 65536); repeat constructor; lia.
Qed.

(** The words of a string, its terminator included, have to be addressable. *)
Definition string_valid (s : list Z) : Prop :=
  Forall scalar s /\ zlen (encode_utf16 s) < i32_max /\
  (zlen (encode_utf16 s) + 1) * 2 + 3 <= usize_max.

Definition string_wire (s : list Z) : list byte :=
  to_le 4 (zlen (encode_utf16 s)) ++ padded (utf16_bytes (encode_utf16 s ++ [0])).

Definition string_format : Format (list Z) := mkFormat string_wire string_valid (fun _ => 0).
Definition option_string_format : Format (option (list Z)) :=
  mkFormat (fun o => match o with Some s => string_wire s | None => to_le 4 (-1) end)
           (fun o => match o with Some s => string_valid s | None => True end) (fun _ => 0).

Lemma zlen_utf16_bytes us : zlen (utf16_bytes us) = zlen us * 2.
Proof. apply zlen_concat. intros. apply zlen_to_le. Qed.

Lemma string_wire_ok s : 4 <= zlen (string_wire s) /\ zlen (string_wire s) mod 4 = 0.
Proof.
  unfold string_wire. rewrite zlen_app, zlen_to_le, zlen_padded.
  pose proof (round4_spec (zlen (utf16_bytes (encode_utf16 s ++ [0])))) as [? Hm].
  split; [zlen_lia |]. rewrite Z.add_mod, Hm by lia. done.
Qed.

Lemma string_writes s : string_valid s -> writes (str_serialize_option (Some s)) (string_wire s).
Proof.
  intros (_ & Hl & Hm). unfold str_serialize_option. pose proof (zlen_nonneg (encode_utf16 s)).
  apply writes_bind.
  - rewrite wrap_i_small by (done || (unfold in_i, i32_max in *; simpl; lia)). apply writes_i32.
  - apply writes_aligned. rewrite zlen_utf16_bytes, zlen_app. exact Hm.
Qed.

Lemma string_decodes s n :
  string_valid s -> decodes string_deserialize_option (Some s) (string_wire s) n.
Proof.
  intros (Hs & Hl & Hm). pose proof (zlen_nonneg (encode_utf16 s)) as H0.
  unfold string_deserialize_option. eapply decodes_bind.
  { apply decodes_i32. unfold in_i, i32_max in *. simpl. lia. }
  rewrite (proj2 (Z.eqb_neq _ _)), (proj2 (Z.leb_le _ _)), (proj2 (Z.ltb_lt _ _)) by lia.
  cbn [andb]. eapply decodes_lift.
  { rewrite layout_cases by lia. by rewrite (proj2 (Z.leb_le _ _)). }
  eapply decodes_map.
  { replace ((zlen (encode_utf16 s) + 1) * 2) with (zlen (utf16_bytes (encode_utf16 s ++ [0]))).
    - apply decodes_aligned.
    - by rewrite zlen_utf16_bytes, zlen_app. }
  unfold utf16_bytes. rewrite fmap_app, concat_app.
  rewrite ztake_app_l, ztake_all
    by (rewrite (zlen_concat _ 2) by (intros; apply zlen_to_le); lia).
  unfold zlen. rewrite Nat2Z.id, chunks_concat by (intros; apply zlen_to_le).
  rewrite <- list_fmap_compose.
  replace (compose of_le (to_le 2) <$> encode_utf16 s) with (encode_utf16 s).
  - rewrite from_encode_utf16 by done. apply decodes_ret.
  - symmetry. rewrite <- (list_fmap_id (encode_utf16 s)) at 2. apply Forall_fmap_ext.
    eapply Forall_impl; [by apply encode_utf16_range |]. intros u Hu. by apply of_le_to_le_u.
Qed.

Lemma string_null n : decodes string_deserialize_option None (to_le 4 (-1)) n.
Proof. eapply decodes_map; [by apply decodes_i32 |]. apply decodes_ret. Qed.

Lemma string_reads : reads string_deserialize_option.
Proof.
  intros p Hr. apply reads_at_bind; [by apply reads_i32 |]. intros len n _ Hn.
  apply (readable_set_pos n p) in Hr; [| done].
  destruct (len =? -1); [by apply reads_ret |].
  destruct (Z.leb_spec 0 len), (Z.ltb_spec len i32_max); cbn [andb];
    try by apply reads_throw.
  apply reads_at_bind; [by apply reads_lift; [apply layout_safe |] |].
  intros [size pad] m El Hm. unfold lift in El. rewrite layout_cases in El by lia.
  destruct (Z.leb_spec ((len + 1) * 2 + 3) usize_max); simplify_eq.
  apply reads_bind; [apply reads_aligned; lia | | by apply readable_set_pos].
  intros d. destruct (from_utf16 _); auto with rsb.
Qed.

#[export] Instance option_string_laws : CodecLaws option_string_codec option_string_format.
Proof.
  split; cbn [ser de wire valid nest option_string_codec option_string_format].
  - intros [s |] _; [apply string_wire_ok | by apply word_wire; [| lia]].
  - intros [s |] Hs; [by apply string_writes | apply writes_i32].
  - intros [s |] Hs; [by apply string_decodes | apply string_null].
  - apply string_reads.
Qed.

#[export] Instance string_laws : CodecLaws string_codec string_format.
Proof.
  split; cbn [ser de wire valid nest string_codec string_format].
  - intros s _. apply string_wire_ok.
  - intros s Hs. by apply string_writes.
  - intros s Hs. eapply decodes_map; [by apply string_decodes | apply decodes_ret].
  - apply reads_bind; [apply string_reads |]. intros [s |]; auto with rsb.
Qed.

(** * Nullable values *)

Definition option_format {A} (f : Format A) : Format (option A) :=
  mkFormat (fun o => match o with Some a => to_le 4 1 ++ wire f a | None => to_le 4 0 end)
           (fun o => match o with Some a => valid f a | None => True end)
           (fun o => match o with Some a => nest f a | None => 0 end).

Lemma word_app_wire v (w : list byte) :
  zlen w mod 4 = 0 -> 4 <= zlen (to_le 4 v ++ w) /\ zlen (to_le 4 v ++ w) mod 4 = 0.
Proof.
  intros Hm. rewrite zlen_app, zlen_to_le. split; [zlen_lia |]. by rewrite Z.add_mod, Hm by lia.
Qed.

#[export] Instance option_laws {A} (c : Codec A) f :
  CodecLaws c f -> CodecLaws (option_codec c) (option_format f).
Proof.
  intros L. split; cbn [ser de wire valid nest option_codec option_format].
  - intros [a |] Ha; [by apply word_app_wire, law_wire | by apply word_wire; [| lia]].
  - intros [a |] Ha; [| apply writes_i32].
    apply writes_bind; [apply writes_i32 | by apply law_writes].
  - intros [a |] Ha; cbn [nest].
    + eapply decodes_bind; [by apply decodes_i32 |]. cbn.
      eapply decodes_map; [by apply law_decodes | apply decodes_ret].
    + eapply decodes_map; [by apply decodes_i32 |]. apply decodes_ret.
  - apply reads_bind; [apply reads_i32 |]. intros z. apply reads_if; [auto with rsb |].
    apply reads_if; [| auto with rsb]. apply reads_bind; [apply law_reads | auto with rsb].
Qed.
(** * Arrays *)

(** Raw bytes behind a length word. *)
Definition raw_format {A} (k : Z) (enc : A -> list byte) (ok : A -> Prop) : Format (list A) :=
  mkFormat (fun l => to_le 4 (zlen l) ++ padded (concat (enc <$> l)))
           (fun l => Forall ok l /\ zlen l <= i32_max /\ zlen l * k + 3 <= usize_max)
           (fun _ => 0).

Lemma padded_wire v bs :
  4 <= zlen (to_le 4 v ++ padded bs) /\ zlen (to_le 4 v ++ padded bs) mod 4 = 0.
Proof. apply word_app_wire. rewrite zlen_padded. apply round4_spec. Qed.

Lemma null_array {A} (m : Z -> P (option (list A))) n :
  decodes (let* olen := read_array_len in
           match olen with None => ret None | Some len => m len end) None (to_le 4 (-1)) n.
Proof. eapply decodes_map; [by apply decodes_array_len |]. apply decodes_ret. Qed.

Lemma raw_array_laws {A} k (enc : A -> list byte) (dec : list byte -> A) (ok : A -> Prop) :
  0 < k -> (forall a, zlen (enc a) = k) -> (forall a, ok a -> dec (enc a) = a) ->
  ArrayLaws (mkArrayCodec (write_array enc) (read_array k dec)) (raw_format k enc ok).
Proof.
  intros Hk Henc Hdec. split; cbn [ser_array de_array wire valid nest raw_format].
  - intros l _. apply padded_wire.
  - intros l (_ & Hl & Hm). apply (writes_array _ k); [done | lia | done | done].
  - intros l (Ho & Hl & Hm).
    apply (decodes_array_with enc k dec take_block); try done; [intros; by apply decodes_take_block |].
    eapply Forall_impl; [exact Ho | exact Hdec].
  - apply null_array.
  - by apply reads_array.
Qed.

#[export] Instance uint_array_laws k :
  (0 < k)%nat -> ArrayLaws (uint_array k) (raw_format (Z.of_nat k) (to_le k) (in_u (8 * Z.of_nat k))).
Proof.
  intros Hk. apply raw_array_laws; [lia | apply zlen_to_le |]. intros a Ha. by apply of_le_to_le_u.
Qed.

#[export] Instance int_array_laws k :
  (0 < k)%nat -> ArrayLaws (int_array k) (raw_format (Z.of_nat k) (to_le k) (in_i (8 * Z.of_nat k))).
Proof.
  intros Hk. apply raw_array_laws; [lia | apply zlen_to_le |]. intros a Ha.
  apply of_le_to_le_i; [done | lia | done].
Qed.

(** A word per element. *)
Lemma char_array_laws (narrow : Z -> Z) (ok : Z -> Prop) :
  (forall a, ok a -> in_i 32 a /\ narrow a = a) ->
  ArrayLaws (mkArrayCodec (write_array_char (fun v => v)) (read_array_char narrow))
            (raw_format 4 (to_le 4) ok).
Proof.
  intros Hok. split; cbn [ser_array de_array wire valid nest raw_format].
  - intros l _. apply padded_wire.
  - intros l (_ & Hl & Hm). rewrite padded_aligned; [by apply writes_array_char |].
    rewrite (zlen_concat _ 4) by (intros; apply zlen_to_le). apply Z_mod_mult.
  - intros l (Ho & Hl & Hm).
    apply (decodes_array_with (to_le 4) 4 (fun c => narrow (of_le_i 32 c)) index_block);
      try done; [intros; by apply decodes_index_block |].
    eapply Forall_impl; [exact Ho |]. intros a [Hi Hn]%Hok. by rewrite of_le_to_le_i.
  - apply null_array.
  - apply reads_array_char.
Qed.

#[export] Instance i16_array_laws : ArrayLaws i16_array (raw_format 4 (to_le 4) (in_i 16)).
Proof.
  apply char_array_laws. intros a Ha. split; [narrow | by apply wrap_i_small].
Qed.
#[export] Instance u16_array_laws : ArrayLaws u16_array (raw_format 4 (to_le 4) (in_u 16)).
Proof.
  apply char_array_laws. intros a Ha. split; [narrow | by apply wrap_u_small].
Qed.

(** Element by element. *)
Definition max_nest {A} (f : Format A) (l : list A) : Z :=
  foldr (fun a n => Z.max (nest f a) n) 0 l.

Definition array_format {A} (f : Format A) : Format (list A) :=
  mkFormat (fun l => to_le 4 (zlen l) ++ concat (wire f <$> l))
           (fun l => Forall (valid f) l /\ zlen l <= i32_max) (max_nest f).

Section DefaultArray.
Context {A : Type} (c : Codec A) (f : Format A) `{!CodecLaws c f}.

Lemma elements_aligned l : Forall (valid f) l -> zlen (concat (wire f <$> l)) mod 4 = 0.
Proof.
  induction 1 as [| a l Ha _ IH]; [done |]. cbn [fmap list_fmap concat].
  rewrite zlen_app, Z.add_mod, IH by lia. by destruct (law_wire a Ha) as [_ ->].
Qed.

Lemma writes_all l : Forall (valid f) l -> writes (write_all c l) (concat (wire f <$> l)).
Proof.
  induction 1 as [| a l Ha _ IH]; [apply writes_ret |].
  apply writes_bind; [by apply law_writes | done].
Qed.

Lemma decodes_n l n :
  Forall (valid f) l -> max_nest f l <= n -> decodes (read_n c (length l)) l (concat (wire f <$> l)) n.
Proof.
  induction 1 as [| a l Ha _ IH]; [intros _; apply decodes_ret |].
  cbn [max_nest foldr length read_n fmap list_fmap concat]. intros Hn.
  eapply decodes_bind; [eapply decodes_weaken; [| by apply law_decodes]; lia |].
  eapply decodes_map; [apply IH; unfold max_nest in *; lia | apply decodes_ret].
Qed.

Lemma reads_data_avail : reads data_avail.
Proof.
  intros p Hr. unfold reads_at. rewrite data_avail_ok by done. split; [done |].
  exists (pos p). split; [apply Hr | by rewrite set_pos_pos].
Qed.

Lemma decodes_data_avail {B} (m : P B) b w n :
  decodes m b w n -> decodes (let* _ := data_avail in m) b w n.
Proof.
  intros Hm p pre post Hr Hn Hd Hp. erewrite bind_ok by (by apply data_avail_ok).
  by apply (Hm p pre post).
Qed.

Lemma reads_n n : reads (read_n c n).
Proof.
  induction n as [| n IH]; [apply reads_ret |].
  apply reads_bind; [apply law_reads |]. intros a. apply reads_bind; [done | auto with rsb].
Qed.

#[export] Instance default_array_laws : ArrayLaws (default_array c) (array_format f).
Proof.
  split; cbn [ser_array de_array wire valid nest array_format default_array].
  - intros l [Hv _]. by apply word_app_wire, elements_aligned.
  - intros l [Hv Hl]. apply (writes_lift _ (zlen l)); [unfold len_i32; by rewrite (proj2 (Z.leb_le _ _)) |].
    apply writes_bind; [apply writes_i32 | by apply writes_all].
  - intros l [Hv Hl]. pose proof (zlen_nonneg l).
    eapply decodes_bind; [apply decodes_array_len; lia |].
    rewrite (proj2 (Z.eqb_neq _ _)) by lia. destruct (Z.eqb_spec (zlen l) 0) as [E | E].
    + apply zlen_zero_nil in E. subst l. apply decodes_ret.
    + apply decodes_data_avail. unfold zlen. rewrite Nat2Z.id.
      eapply decodes_map; [by apply decodes_n | apply decodes_ret].
  - apply null_array.
  - apply reads_bind; [apply reads_array_len |]. intros [len |]; [| auto with rsb].
    apply reads_if; [auto with rsb |]. apply reads_bind; [apply reads_data_avail |].
    intros _. apply reads_bind; [apply reads_n | auto with rsb].
Qed.
End DefaultArray.

(** Vectors and fixed arrays over an array codec. *)
Definition nullable_format {A} (f : Format A) : Format (option A) :=
  mkFormat (fun o => match o with Some l => wire f l | None => to_le 4 (-1) end)
           (fun o => match o with Some l => valid f l | None => True end)
           (fun o => match o with Some l => nest f l | None => 0 end).

Definition fixed_format {A} (n : nat) (f : Format (list A)) : Format (list A) :=
  mkFormat (wire f) (fun l => valid f l /\ length l = n) (nest f).

Section ArrayTypes.
Context {A : Type} (c : ArrayCodec A) (f : Format (list A)) `{!ArrayLaws c f}.

#[export] Instance vec_laws : CodecLaws (vec_codec c) f.
Proof.
  split; cbn [ser de vec_codec].
  - apply array_wire.
  - apply array_writes.
  - intros l Hl. eapply decodes_map; [by apply array_decodes | apply decodes_ret].
  - apply reads_bind; [apply array_reads |]. intros [l |]; auto with rsb.
Qed.

#[export] Instance option_vec_laws : CodecLaws (option_vec_codec c) (nullable_format f).
Proof.
  split; cbn [ser de option_vec_codec nullable_format wire valid nest].
  - intros [l |] Hl; [by apply array_wire | by apply word_wire; [| lia]].
  - intros [l |] Hl; [by apply array_writes | apply writes_i32].
  - intros [l |] Hl; [by apply array_decodes | apply array_null].
  - apply array_reads.
Qed.

#[export] Instance fixed_laws n : CodecLaws (fixed_codec n c) (fixed_format n f).
Proof.
  split; cbn [ser de fixed_codec fixed_format wire valid nest].
  - intros l [Hl _]. by apply array_wire.
  - intros l [Hl _]. by apply array_writes.
  - intros l [Hl Hn]. eapply decodes_map; [by apply array_decodes |].
    cbn. rewrite decide_True by done. apply decodes_ret.
  - apply reads_bind; [apply array_reads |]. intros [l |]; [| auto with rsb].
    case_decide; auto with rsb.
Qed.

#[export] Instance option_fixed_laws n :
  CodecLaws (option_fixed_codec n c) (nullable_format (fixed_format n f)).
Proof.
  split; cbn [ser de option_fixed_codec nullable_format fixed_format wire valid nest].
  - intros [l |] Hl; [by apply array_wire, Hl | by apply word_wire; [| lia]].
  - intros [l |] Hl; [by apply array_writes, Hl | apply writes_i32].
  - intros [l |] Hl.
    + destruct Hl as [Hl Hn]. eapply decodes_map; [by apply array_decodes |].
      cbn. rewrite decide_True by done. apply decodes_ret.
    + eapply decodes_map; [apply array_null | apply decodes_ret].
  - apply reads_bind; [apply array_reads |]. intros [l |]; [| auto with rsb].
    case_decide; auto with rsb.
Qed.
End ArrayTypes.
End Laws.
