(* ===== verification/Aidl.v ===== *)
(** The types of an AIDL interface in parcels: what the generated code does for
    parcelables and unions (the templates of src/rsbinder-aidl/src/generator.rs
    with the macros of src/rsbinder/src/macros.rs), and the whole family of
    types built from them and the codecs of Parcelable.v.

    A parcelable is the tuple of its members, a union the sum of its variants,
    and [ops_of] assigns to every type what its trait implementations are. An
    AIDL enum is its backing integer. Binders, file descriptors and the holder
    of arbitrary parcelables are not in the family, nor are the members the
    generator marks as required references ([member.4]) or read in place
    ([member.3]), which are of those types. *)

From Stdlib Require Import ZArith Lia Strings.Byte.
From stdpp Require Import base list strings.
From S2P Require Import Prelude Errors Address Parcel ParcelSpec Parcelable.

Section Generated.
Context `{PtrWidth}.

(** * Parcelables *)

(** [impl_serialize_for_parcelable!] and [impl_deserialize_for_parcelable!], for
    a type with its [write_to_parcel], [read_from_parcel] and [Default]. *)
Section Flagged.
Context {A : Type} (dflt : A) (write_to_parcel : A -> P unit) (read_from_parcel : A -> P A).

Definition parcelable_serialize_option (this : option A) : P unit :=
  match this with
  | Some this =>
      let* _ := write_i32 NON_NULL_PARCELABLE_FLAG in
      write_to_parcel this
  | None => write_i32 NULL_PARCELABLE_FLAG
  end.

Definition parcelable_deserialize_option_from (this : option A) : P (option A) :=
  let* status := read_i32 in
  if status =? NULL_PARCELABLE_FLAG then ret None
  else if status =? NON_NULL_PARCELABLE_FLAG then
    let* a := read_from_parcel (default dflt this) in
    ret (Some a)
  else throw StUnexpectedNull.

Definition parcelable_codec : Codec A :=
  mkCodec (fun a => parcelable_serialize_option (Some a))
          (let* o := parcelable_deserialize_option_from None in
           match o with Some a => ret a | None => throw StUnexpectedNull end).

Definition option_parcelable_codec : Codec (option A) :=
  mkCodec parcelable_serialize_option (parcelable_deserialize_option_from None).
End Flagged.

(** The members of a parcelable, in order. *)
Inductive Fields : Type -> Type :=
| FNil : Fields unit
| FCons {A T} (c : Codec A) (fs : Fields T) : Fields (A * T).

Fixpoint write_fields {T} (fs : Fields T) : T -> P unit :=
  match fs in Fields T return T -> P unit with
  | FNil => fun _ => ret tt
  | FCons c fs => fun v =>
      let* _ := ser c (fst v) in
      write_fields fs (snd v)
  end.

Fixpoint read_fields {T} (fs : Fields T) : T -> P T :=
  match fs in Fields T return T -> P T with
  | FNil => fun self => ret self
  | FCons c fs => fun self =>
      let* p := get in
      if negb (has_more_data p) then ret self
      else
        let* a := de c in
        let* r := read_fields fs (snd self) in
        ret (a, r)
  end.

(** [PARCELABLE_TEMPLATE]. *)
Definition write_struct {T} (fs : Fields T) (self : T) : P unit :=
  sized_write (write_fields fs self).
Definition read_struct {T} (fs : Fields T) (self : T) : P T :=
  sized_read (read_fields fs self).

(** Arguments of a transaction: written and read one after the other. *)
Fixpoint read_args {T} (fs : Fields T) : P T :=
  match fs in Fields T return P T with
  | FNil => ret tt
  | FCons c fs =>
      let* a := de c in
      let* r := read_args fs in
      ret (a, r)
  end.

(** * Unions *)

(** The variants of a union after the [counter] first ones. *)
Inductive Variants : Type -> Type :=
| VNil : Variants Empty_set
| VCons {A T} (c : Codec A) (vs : Variants T) : Variants (A + T).

Fixpoint write_variants {T} (vs : Variants T) (counter : Z) : T -> P unit :=
  match vs in Variants T return T -> P unit with
  | VNil => fun v => match v with end
  | VCons c vs => fun v =>
      match v with
      | inl a =>
          let* _ := write_i32 counter in
          ser c a
      | inr r => write_variants vs (counter + 1) r
      end
  end.

Fixpoint read_variants {T} (vs : Variants T) (counter tag : Z) : P T :=
  match vs in Variants T return P T with
  | VNil => throw StBadValue
  | VCons c vs =>
      if tag =? counter then
        let* value := de c in
        ret (inl value)
      else
        let* r := read_variants vs (counter + 1) tag in
        ret (inr r)
  end.

(** [UNION_TEMPLATE]. *)
Definition write_union {T} (vs : Variants T) (self : T) : P unit := write_variants vs 0 self.
Definition read_union {T} (vs : Variants T) (self : T) : P T :=
  let* tag := read_i32 in
  read_variants vs 0 tag.

(** * The types *)

(** The implementations a type has: [Serialize]/[Deserialize], the [Option]
    pair and the [Array] pair. *)
Record Ops (A : Type) : Type := mkOps {
  op_codec : Codec A;
  op_option : Codec (option A);
  op_array : ArrayCodec A
}.

(** The default option and array bodies. *)
Definition with_array {A} (c : Codec A) (a : ArrayCodec A) : Ops A :=
  mkOps A c (option_codec c) a.
Definition with_option {A} (c : Codec A) (o : Codec (option A)) : Ops A :=
  mkOps A c o (default_array c).
End Generated.

Arguments mkOps {A} op_codec op_option op_array.
Arguments op_codec {A} o.
Arguments op_option {A} o.
Arguments op_array {A} o.

Inductive ty : Type :=
| TBool | TI8 | TU8 | TI16 | TU16 | TI32 | TU32 | TI64 | TU64 | TU128 | TF32 | TF64
| TString
| TOption (t : ty)
| TVec (t : ty)
| TFixed (n : nat) (t : ty)
| TStruct (ts : tys)
| TUnion (t : ty) (ts : tys)
with tys : Type :=
| TNil
| TCons (t : ty) (ts : tys).

Fixpoint val (t : ty) : Type :=
  match t with
  | TBool => bool
  | TI8 | TU8 | TI16 | TU16 | TI32 | TU32 | TI64 | TU64 | TU128 | TF32 | TF64 => Z
  | TString => list Z
  | TOption t => option (val t)
  | TVec t => list (val t)
  | TFixed _ t => list (val t)
  | TStruct ts => struct_val ts
  | TUnion t ts => val t + union_val ts
  end
with struct_val (ts : tys) : Type :=
  match ts with
  | TNil => unit
  | TCons t ts => val t * struct_val ts
  end
with union_val (ts : tys) : Type :=
  match ts with
  | TNil => Empty_set
  | TCons t ts => val t + union_val ts
  end.

Section Types.
Context `{PtrWidth} (dflt : forall t, val t).

(** [dflt] is the [Default] of every type, which the AIDL source may set. *)
Fixpoint ops_of (t : ty) : Ops (val t) :=
  match t return Ops (val t) with
  | TBool => with_array bool_codec (default_array bool_codec)
  | TI8 => with_array i8_codec (int_array 1)
  | TU8 => with_array u8_codec (uint_array 1)
  | TI16 => with_array i16_codec i16_array
  | TU16 => with_array u16_codec u16_array
  | TI32 => with_array i32_codec (int_array 4)
  | TU32 => with_array u32_codec (uint_array 4)
  | TI64 => with_array i64_codec (int_array 8)
  | TU64 => with_array u64_codec (uint_array 8)
  | TU128 => with_array u128_codec (uint_array 16)
  | TF32 => with_array f32_codec (uint_array 4)
  | TF64 => with_array f64_codec (uint_array 8)
  | TString => with_option string_codec option_string_codec
  | TOption t => with_array (op_option (ops_of t)) (default_array (op_option (ops_of t)))
  | TVec t => with_option (vec_codec (op_array (ops_of t))) (option_vec_codec (op_array (ops_of t)))
  | TFixed n t =>
      with_option (fixed_codec n (op_array (ops_of t))) (option_fixed_codec n (op_array (ops_of t)))
  | TStruct ts =>
      let d := dflt (TStruct ts) in
      let w := write_struct (fields_of ts) in
      let r := read_struct (fields_of ts) in
      with_option (parcelable_codec d w r) (option_parcelable_codec d w r)
  | TUnion t ts =>
      let d := dflt (TUnion t ts) in
      let vs := VCons (op_codec (ops_of t)) (variants_of ts) in
      with_option (parcelable_codec d (write_union vs) (read_union vs))
                  (option_parcelable_codec d (write_union vs) (read_union vs))
  end
with fields_of (ts : tys) : Fields (struct_val ts) :=
  match ts return Fields (struct_val ts) with
  | TNil => FNil
  | TCons t ts => FCons (op_codec (ops_of t)) (fields_of ts)
  end
with variants_of (ts : tys) : Variants (union_val ts) :=
  match ts return Variants (union_val ts) with
  | TNil => VNil
  | TCons t ts => VCons (op_codec (ops_of t)) (variants_of ts)
  end.

Definition codec_of (t : ty) : Codec (val t) := op_codec (ops_of t).
End Types.

(** * Formats of parcelables and unions *)

(** [upto n v] is the bytes of the first [n] members of [v] and [merge n v self]
    is [self] with its first [n] members replaced by those of [v]: what a peer
    that knows [n] members sends, and what a reader makes of it. *)
Record FieldsFormat (T : Type) : Type := mkFieldsFormat {
  count : nat;
  upto : nat -> T -> list byte;
  merge : nat -> T -> T -> T;
  fields_valid : T -> Prop;
  fields_nest : T -> Z
}.
Arguments mkFieldsFormat {T} count upto merge fields_valid fields_nest.
Arguments count {T} f.
Arguments upto {T} f n v.
Arguments merge {T} f n v self.
Arguments fields_valid {T} f v.
Arguments fields_nest {T} f v.

Definition ff_nil : FieldsFormat unit :=
  mkFieldsFormat 0 (fun _ _ => []) (fun _ v _ => v) (fun _ => True) (fun _ => 0).
Definition ff_cons {A T} (f : Format A) (ff : FieldsFormat T) : FieldsFormat (A * T) :=
  mkFieldsFormat
    (S (count ff))
    (fun n v => match n with O => [] | S n => wire f (fst v) ++ upto ff n (snd v) end)
    (fun n v self =>
       match n with O => self | S n => (fst v, merge ff n (snd v) (snd self)) end)
    (fun v => valid f (fst v) /\ fields_valid ff (snd v))
    (fun v => Z.max (nest f (fst v)) (fields_nest ff (snd v))).

Definition fields_wire {T} (ff : FieldsFormat T) (v : T) : list byte := upto ff (count ff) v.

Record VariantsFormat (T : Type) : Type := mkVariantsFormat {
  variant_tag : T -> Z;
  variant_wire : T -> list byte;
  variant_valid : T -> Prop;
  variant_nest : T -> Z
}.
Arguments mkVariantsFormat {T} variant_tag variant_wire variant_valid variant_nest.
Arguments variant_tag {T} v t.
Arguments variant_wire {T} v t.
Arguments variant_valid {T} v t.
Arguments variant_nest {T} v t.

Definition vf_nil : VariantsFormat Empty_set :=
  mkVariantsFormat (fun v : Empty_set => match v return Z with end)
    (fun _ => []) (fun _ => True) (fun _ => 0).
Definition vf_cons {A T} (f : Format A) (vf : VariantsFormat T) : VariantsFormat (A + T) :=
  mkVariantsFormat
    (fun v => match v with inl _ => 0 | inr r => variant_tag vf r + 1 end)
    (fun v => match v with inl a => wire f a | inr r => variant_wire vf r end)
    (fun v => match v with inl a => valid f a | inr r => variant_valid vf r end)
    (fun v => match v with inl a => nest f a | inr r => variant_nest vf r end).

(** The presence flag, then the body. *)
Definition flagged_format {A} (body : A -> list byte) (ok : A -> Prop) (depth : A -> Z) : Format A :=
  mkFormat (fun a => to_le 4 1 ++ body a) ok depth.
Definition option_flagged_format {A} (body : A -> list byte) (ok : A -> Prop) (depth : A -> Z)
  : Format (option A) :=
  option_format (mkFormat body ok depth).

Definition struct_body {T} (ff : FieldsFormat T) (v : T) : list byte :=
  to_le 4 (4 + zlen (fields_wire ff v)) ++ fields_wire ff v.
Definition struct_nest {T} (ff : FieldsFormat T) (v : T) : Z := 1 + fields_nest ff v.

(** The tag is an [i32]. *)
Definition union_body {T} (vf : VariantsFormat T) (v : T) : list byte :=
  to_le 4 (variant_tag vf v) ++ variant_wire vf v.
Definition union_valid {T} (vf : VariantsFormat T) (v : T) : Prop :=
  variant_valid vf v /\ in_i 32 (variant_tag vf v).

Section GeneratedLaws.
Context `{PtrWidth}.

Inductive FieldsLaws : forall {T}, Fields T -> FieldsFormat T -> Prop :=
| FL_nil : FieldsLaws FNil ff_nil
| FL_cons {A T} (c : Codec A) f (fs : Fields T) ff :
    CodecLaws c f -> FieldsLaws fs ff -> FieldsLaws (FCons c fs) (ff_cons f ff).

Inductive VariantsLaws : forall {T}, Variants T -> VariantsFormat T -> Prop :=
| VL_nil : VariantsLaws VNil vf_nil
| VL_cons {A T} (c : Codec A) f (vs : Variants T) vf :
    CodecLaws c f -> VariantsLaws vs vf -> VariantsLaws (VCons c vs) (vf_cons f vf).

(** ** Members *)

Lemma fields_aligned {T} (fs : Fields T) ff v :
  FieldsLaws fs ff -> fields_valid ff v -> zlen (fields_wire ff v) mod 4 = 0.
Proof.
  unfold fields_wire. induction 1 as [| A T c f fs ff L _ IH]; [done |].
  intros [Ha Hr]. cbn [upto count ff_cons]. rewrite zlen_app, Z.add_mod, IH by done || lia.
  by destruct (law_wire (fst v) Ha) as [_ ->].
Qed.

Lemma writes_fields {T} (fs : Fields T) ff v :
  FieldsLaws fs ff -> fields_valid ff v -> writes (write_fields fs v) (fields_wire ff v).
Proof.
  unfold fields_wire. induction 1 as [| A T c f fs ff L _ IH]; [intros _; apply writes_ret |].
  intros [Ha Hr]. apply writes_bind; [by apply law_writes | by apply IH].
Qed.

Lemma merge_all {T} (fs : Fields T) ff v self :
  FieldsLaws fs ff -> merge ff (count ff) v self = v.
Proof.
  induction 1 as [| A T c f fs ff L _ IH]; [done |]. cbn. rewrite IH. by destruct v.
Qed.

(** The reader stops where the block ends, and only there. *)
Lemma read_fields_at {T} (fs : Fields T) ff :
  FieldsLaws fs ff -> forall v self n p pre post e,
  fields_valid ff v -> readable p -> nested_read_depth p + fields_nest ff v <= MAX_NESTED_READ_DEPTH ->
  data p = pre ++ upto ff n v ++ post -> pos p = zlen pre -> read_boundary p = Some e ->
  pos p + zlen (upto ff n v) <= e -> ((n < count ff)%nat -> e = pos p + zlen (upto ff n v)) ->
  read_fields fs self p = (Ok (merge ff n v self), set_pos (pos p + zlen (upto ff n v)) p).
Proof.
  induction 1 as [| A T c f fs ff L _ IH]; intros v self n p pre post e Hv Hr Hn Hd Hp Hb He Hc.
  { cbn. destruct v, self. rewrite zlen_nil, Z.add_0_r. by rewrite set_pos_pos. }
  destruct Hv as [Ha Hv]. cbn [read_fields]. unfold bind at 1, get, has_more_data. rewrite Hb. cbn [from_option]. unfold id.
  destruct n as [| n]; cbn [upto merge ff_cons count fields_nest] in *.
  { specialize (Hc ltac:(lia)). rewrite Hc, zlen_nil, Z.add_0_r, Z.ltb_irrefl.
    cbn. by rewrite set_pos_pos. }
  destruct (law_wire (fst v) Ha) as [Hw _]. rewrite zlen_app in *.
  pose proof (zlen_nonneg (upto ff n (snd v))).
  rewrite (proj2 (Z.ltb_lt _ _)) by lia. cbn [negb].
  rewrite <- app_assoc in Hd.
  erewrite bind_ok by (apply (law_decodes (fst v) Ha p pre (upto ff n (snd v) ++ post) Hr); [lia | exact Hd | done]).
  erewrite bind_ok.
  2: { eapply (IH (snd v) (snd self) n _ (pre ++ wire f (fst v)) post e);
         cbn [data pos set_pos nested_read_depth read_boundary]; try done.
       - apply readable_set_pos; [destruct Hr; lia | done].
       - lia.
       - by rewrite Hd, <- app_assoc.
       - rewrite zlen_app. lia.
       - lia.
       - intros Hlt. rewrite Hc by lia. lia. }
  unfold ret. rewrite set_pos_set_pos. cbn [pos set_pos]. do 2 f_equal. lia.
Qed.

Lemma reads_fields {T} (fs : Fields T) ff :
  FieldsLaws fs ff -> forall self, reads (read_fields fs self).
Proof.
  induction 1 as [| A T c f fs ff L _ IH]; intros self; [apply reads_ret |].
  apply reads_bind; [apply reads_get |]. intros p. apply reads_if; [auto with rsb |].
  apply reads_bind; [apply law_reads |]. intros a. apply reads_bind; [apply IH | auto with rsb].
Qed.

Lemma reads_args {T} (fs : Fields T) ff : FieldsLaws fs ff -> reads (read_args fs).
Proof.
  induction 1 as [| A T c f fs ff L _ IH]; [apply reads_ret |].
  apply reads_bind; [apply law_reads |]. intros a. apply reads_bind; [done | auto with rsb].
Qed.

Lemma decodes_args {T} (fs : Fields T) ff :
  FieldsLaws fs ff -> forall v n, fields_valid ff v -> fields_nest ff v <= n ->
  decodes (read_args fs) v (fields_wire ff v) n.
Proof.
  unfold fields_wire. induction 1 as [| A T c f fs ff L _ IH]; intros v n Hv Hn.
  { destruct v. apply decodes_ret. }
  destruct Hv as [Ha Hv]. cbn [upto count ff_cons fields_nest] in *.
  eapply decodes_bind; [eapply decodes_weaken; [| by apply law_decodes]; lia |].
  eapply decodes_map; [apply IH; [done | lia] |]. destruct v. apply decodes_ret.
Qed.

(** ** Parcelables *)

Lemma struct_read_at {T} (fs : Fields T) ff v self n extra p pre post :
  FieldsLaws fs ff -> fields_valid ff v -> readable p ->
  nested_read_depth p + struct_nest ff v <= MAX_NESTED_READ_DEPTH ->
  ((n < count ff)%nat -> extra = []) ->
  data p = pre ++ to_le 4 (4 + zlen (upto ff n v ++ extra)) ++ (upto ff n v ++ extra) ++ post ->
  pos p = zlen pre -> 0 <= fields_nest ff v ->
  read_struct fs self p
  = (Ok (merge ff n v self), set_pos (pos p + 4 + zlen (upto ff n v ++ extra)) p).
Proof.
  intros HL Hv Hr Hn Hx Hd Hp H0. unfold struct_nest in *.
  eapply sized_read_at; [done | lia | exact Hd | done |].
  eapply (read_fields_at fs ff HL v self n _ (pre ++ to_le 4 _) (extra ++ post));
    cbn [data pos set_pos set_scope nested_read_depth read_boundary]; try done.
  - split; [destruct Hr; simpl; lia | apply Hr].
  - lia.
  - by rewrite Hd, <- !app_assoc.
  - rewrite zlen_app, zlen_to_le. lia.
  - rewrite zlen_app. zlen_lia.
  - intros Hlt. rewrite (Hx Hlt), app_nil_r. done.
Qed.

Lemma fields_nest_nonneg {T} (fs : Fields T) ff v : FieldsLaws fs ff -> 0 <= fields_nest ff v.
Proof. induction 1 as [| A T c f fs ff L _ IH]; cbn; [done |]. specialize (IH (snd v)). lia. Qed.

Lemma struct_decodes {T} (fs : Fields T) ff v self :
  FieldsLaws fs ff -> fields_valid ff v ->
  decodes (read_struct fs self) v (struct_body ff v) (struct_nest ff v).
Proof.
  intros HL Hv p pre post Hr Hn Hd Hp. unfold struct_body, fields_wire in *.
  pose proof (fields_nest_nonneg fs ff v HL). rewrite <- !app_assoc in Hd.
  rewrite (struct_read_at fs ff v self (count ff) [] p pre post);
    rewrite ?app_nil_r; try done.
  rewrite (merge_all fs) by done. rewrite zlen_app, zlen_to_le. do 2 f_equal. lia.
Qed.

Lemma flagged_laws {A} (d : A) (w : A -> P unit) (r : A -> P A) body ok depth :
  (forall a, ok a -> zlen (body a) mod 4 = 0) ->
  (forall a, ok a -> writes (w a) (body a)) ->
  (forall a, ok a -> decodes (r d) a (body a) (depth a)) -> reads (r d) ->
  CodecLaws (parcelable_codec d w r) (flagged_format body ok depth) /\
  CodecLaws (option_parcelable_codec d w r) (option_flagged_format body ok depth).
Proof.
  intros Hm Hw Hd Hr.
  assert (Hreads : reads (parcelable_deserialize_option_from d r None)).
  { apply reads_bind; [apply reads_i32 |]. intros z. apply reads_if; [auto with rsb |].
    apply reads_if; [| auto with rsb]. apply reads_bind; [done | auto with rsb]. }
  assert (Hwr : forall a, ok a ->
    writes (parcelable_serialize_option w (Some a)) (to_le 4 1 ++ body a)).
  { intros a Ha. apply writes_bind; [apply writes_i32 | by apply Hw]. }
  assert (Hdec : forall a, ok a ->
    decodes (parcelable_deserialize_option_from d r None) (Some a) (to_le 4 1 ++ body a) (depth a)).
  { intros a Ha. eapply decodes_bind; [by apply decodes_i32 |]. cbn.
    eapply decodes_map; [by apply Hd | apply decodes_ret]. }
  split; split; cbn [ser de wire valid nest parcelable_codec option_parcelable_codec
                     flagged_format option_flagged_format option_format].
  - intros a Ha. by apply word_app_wire, Hm.
  - intros a Ha. by apply Hwr.
  - intros a Ha. eapply decodes_map; [by apply Hdec | apply decodes_ret].
  - apply reads_bind; [done |]. intros [a |]; auto with rsb.
  - intros [a |] Ha; [by apply word_app_wire, Hm | by apply word_wire; [| lia]].
  - intros [a |] Ha; [by apply Hwr | apply writes_i32].
  - intros [a |] Ha; [by apply Hdec |]. eapply decodes_map; [by apply decodes_i32 | apply decodes_ret].
  - done.
Qed.

Lemma struct_laws {T} (d : T) (fs : Fields T) ff :
  FieldsLaws fs ff ->
  CodecLaws (parcelable_codec d (write_struct fs) (read_struct fs))
            (flagged_format (struct_body ff) (fields_valid ff) (struct_nest ff)) /\
  CodecLaws (option_parcelable_codec d (write_struct fs) (read_struct fs))
            (option_flagged_format (struct_body ff) (fields_valid ff) (struct_nest ff)).
Proof.
  intros HL. apply flagged_laws.
  - intros v Hv. by eapply word_app_wire, fields_aligned.
  - intros v Hv. apply writes_sized. by apply writes_fields.
  - intros v Hv. by apply struct_decodes.
  - apply reads_sized. by eapply reads_fields.
Qed.

(** ** Unions *)

Lemma writes_variants {T} (vs : Variants T) vf :
  VariantsLaws vs vf -> forall v k, variant_valid vf v ->
  writes (write_variants vs k v) (to_le 4 (k + variant_tag vf v) ++ variant_wire vf v).
Proof.
  induction 1 as [| A T c f vs vf L _ IH]; intros v k Hv; [done |].
  destruct v as [a | r]; cbn [variant_tag variant_wire vf_cons write_variants].
  - rewrite Z.add_0_r. apply writes_bind; [apply writes_i32 | by apply law_writes].
  - replace (k + (variant_tag vf r + 1)) with (k + 1 + variant_tag vf r) by lia. by apply IH.
Qed.

Lemma variant_tag_nonneg {T} (vs : Variants T) vf : VariantsLaws vs vf -> forall v, 0 <= variant_tag vf v.
Proof.
  induction 1 as [| A T c f vs vf L _ IH]; intros v; [done |].
  destruct v as [a | r]; cbn; [done |]. specialize (IH r). lia.
Qed.

Lemma decodes_variants {T} (vs : Variants T) vf :
  VariantsLaws vs vf -> forall v k, variant_valid vf v ->
  decodes (read_variants vs k (k + variant_tag vf v)) v (variant_wire vf v) (variant_nest vf v).
Proof.
  induction 1 as [| A T c f vs vf L HL IH]; intros v k Hv; [done |].
  destruct v as [a | r]; cbn [variant_tag variant_wire variant_nest vf_cons read_variants].
  - rewrite Z.add_0_r, Z.eqb_refl. eapply decodes_map; [by apply law_decodes | apply decodes_ret].
  - pose proof (variant_tag_nonneg vs vf HL r). rewrite (proj2 (Z.eqb_neq _ _)) by lia.
    replace (k + (variant_tag vf r + 1)) with (k + 1 + variant_tag vf r) by lia.
    eapply decodes_map; [by apply IH | apply decodes_ret].
Qed.

Lemma reads_variants {T} (vs : Variants T) vf :
  VariantsLaws vs vf -> forall k tag, reads (read_variants vs k tag).
Proof.
  induction 1 as [| A T c f vs vf L _ IH]; intros k tag; [apply reads_throw |].
  apply reads_if; apply reads_bind; auto with rsb. apply law_reads.
Qed.

Lemma variants_aligned {T} (vs : Variants T) vf :
  VariantsLaws vs vf -> forall v, variant_valid vf v -> zlen (variant_wire vf v) mod 4 = 0.
Proof.
  induction 1 as [| A T c f vs vf L _ IH]; intros v Hv; [done |].
  destruct v as [a | r]; [by apply law_wire | by apply IH].
Qed.

Lemma union_laws {T} (d : T) (vs : Variants T) vf :
  VariantsLaws vs vf ->
  CodecLaws (parcelable_codec d (write_union vs) (read_union vs))
            (flagged_format (union_body vf) (union_valid vf) (variant_nest vf)) /\
  CodecLaws (option_parcelable_codec d (write_union vs) (read_union vs))
            (option_flagged_format (union_body vf) (union_valid vf) (variant_nest vf)).
Proof.
  intros HL. apply flagged_laws.
  - intros v [Hv _]. by eapply word_app_wire, variants_aligned.
  - intros v [Hv _]. by apply (writes_variants vs vf HL v 0).
  - intros v [Hv Ht]. eapply decodes_bind; [by apply decodes_i32 |].
    by apply (decodes_variants vs vf HL v 0).
  - apply reads_bind; [apply reads_i32 |]. intros tag. by eapply reads_variants.
Qed.
End GeneratedLaws.

(** * Formats of the types *)

Record Fmts (A : Type) : Type := mkFmts {
  fm : Format A;
  fm_option : Format (option A);
  fm_array : Format (list A)
}.
Arguments mkFmts {A} fm fm_option fm_array.
Arguments fm {A} f.
Arguments fm_option {A} f.
Arguments fm_array {A} f.

Section Formats.
Context `{PtrWidth}.

Definition word_fmts (k j : nat) (ok : Z -> Prop) : Fmts Z :=
  mkFmts (word_format k ok) (option_format (word_format k ok))
         (raw_format (Z.of_nat j) (to_le j) ok).
Definition own_fmts {A} (f : Format A) (o : Format (option A)) : Fmts A :=
  mkFmts f o (array_format f).

Fixpoint fmts_of (t : ty) : Fmts (val t) :=
  match t return Fmts (val t) with
  | TBool => own_fmts bool_format (option_format bool_format)
  | TI8 => word_fmts 4 1 (in_i 8)
  | TU8 => word_fmts 4 1 (in_u 8)
  | TI16 => word_fmts 4 4 (in_i 16)
  | TU16 => word_fmts 4 4 (in_u 16)
  | TI32 => word_fmts 4 4 (in_i 32)
  | TU32 => word_fmts 4 4 (in_u 32)
  | TI64 => word_fmts 8 8 (in_i 64)
  | TU64 => word_fmts 8 8 (in_u 64)
  | TU128 => word_fmts 16 16 (in_u 128)
  | TF32 => word_fmts 4 4 (in_u 32)
  | TF64 => word_fmts 8 8 (in_u 64)
  | TString => own_fmts string_format option_string_format
  | TOption t => own_fmts (fm_option (fmts_of t)) (option_format (fm_option (fmts_of t)))
  | TVec t => own_fmts (fm_array (fmts_of t)) (nullable_format (fm_array (fmts_of t)))
  | TFixed n t =>
      own_fmts (fixed_format n (fm_array (fmts_of t)))
               (nullable_format (fixed_format n (fm_array (fmts_of t))))
  | TStruct ts =>
      let ff := fields_format_of ts in
      own_fmts (flagged_format (struct_body ff) (fields_valid ff) (struct_nest ff))
               (option_flagged_format (struct_body ff) (fields_valid ff) (struct_nest ff))
  | TUnion t ts =>
      let vf := vf_cons (fm (fmts_of t)) (variants_format_of ts) in
      own_fmts (flagged_format (union_body vf) (union_valid vf) (variant_nest vf))
               (option_flagged_format (union_body vf) (union_valid vf) (variant_nest vf))
  end
with fields_format_of (ts : tys) : FieldsFormat (struct_val ts) :=
  match ts return FieldsFormat (struct_val ts) with
  | TNil => ff_nil
  | TCons t ts => ff_cons (fm (fmts_of t)) (fields_format_of ts)
  end
with variants_format_of (ts : tys) : VariantsFormat (union_val ts) :=
  match ts return VariantsFormat (union_val ts) with
  | TNil => vf_nil
  | TCons t ts => vf_cons (fm (fmts_of t)) (variants_format_of ts)
  end.

Definition format_of (t : ty) : Format (val t) := fm (fmts_of t).

Record OpsLaws {A} (o : Ops A) (f : Fmts A) : Prop := mkOpsLaws {
  ops_codec : CodecLaws (op_codec o) (fm f);
  ops_option : CodecLaws (op_option o) (fm_option f);
  ops_array : ArrayLaws (op_array o) (fm_array f)
}.

Lemma word_ops (c : Codec Z) (a : ArrayCodec Z) k j ok :
  CodecLaws c (word_format k ok) -> ArrayLaws a (raw_format (Z.of_nat j) (to_le j) ok) ->
  OpsLaws (with_array c a) (word_fmts k j ok).
Proof. intros Hc Ha. split; [done | by apply option_laws | done]. Qed.

Lemma own_ops {A} (c : Codec A) o f fo :
  CodecLaws c f -> CodecLaws o fo -> OpsLaws (with_option c o) (own_fmts f fo).
Proof. intros Hc Ho. split; [done | done | by apply default_array_laws]. Qed.

Lemma plain_ops {A} (c : Codec A) f :
  CodecLaws c f -> OpsLaws (with_array c (default_array c)) (own_fmts f (option_format f)).
Proof. intros Hc. split; [done | by apply option_laws | by apply default_array_laws]. Qed.
End Formats.

Scheme ty_mind := Induction for ty Sort Prop
  with tys_mind := Induction for tys Sort Prop.
Combined Scheme ty_tys_mind from ty_mind, tys_mind.

Section TypeLaws.
Context `{PtrWidth} (dflt : forall t, val t).

Lemma all_laws :
  (forall t, OpsLaws (ops_of dflt t) (fmts_of t)) /\
  (forall ts, FieldsLaws (fields_of dflt ts) (fields_format_of ts) /\
              VariantsLaws (variants_of dflt ts) (variants_format_of ts)).
Proof.
  apply ty_tys_mind; cbn [ops_of fmts_of fields_of fields_format_of variants_of variants_format_of].
  - apply plain_ops, bool_laws.
  - apply word_ops; [apply i8_laws | by apply (int_array_laws 1); lia].
  - apply word_ops; [apply u8_laws | by apply (uint_array_laws 1); lia].
  - apply word_ops; [apply i16_laws | apply i16_array_laws].
  - apply word_ops; [apply u16_laws | apply u16_array_laws].
  - apply word_ops; [apply i32_laws | by apply (int_array_laws 4); lia].
  - apply word_ops; [apply u32_laws | by apply (uint_array_laws 4); lia].
  - apply word_ops; [apply i64_laws | by apply (int_array_laws 8); lia].
  - apply word_ops; [apply u64_laws | by apply (uint_array_laws 8); lia].
  - apply word_ops; [apply u128_laws | by apply (uint_array_laws 16); lia].
  - apply word_ops; [apply f32_laws | by apply (uint_array_laws 4); lia].
  - apply word_ops; [apply f64_laws | by apply (uint_array_laws 8); lia].
  - apply own_ops; [apply string_laws | apply option_string_laws].
  - intros t [_ Ho _]. by apply plain_ops.
  - intros t [_ _ Ha]. apply own_ops; [by apply vec_laws | by apply option_vec_laws].
  - intros n t [_ _ Ha]. apply own_ops; [by apply fixed_laws | by apply option_fixed_laws].
  - intros ts [Hf _]. by apply own_ops; apply struct_laws.
  - intros t [Hc _ _] ts [_ Hv]. by apply own_ops; apply union_laws; constructor.
  - split; constructor.
  - intros t [Hc _ _] ts [Hf Hv]. split; by constructor.
Qed.

#[export] Instance type_laws t : CodecLaws (codec_of dflt t) (format_of t).
Proof. apply ops_codec, all_laws. Qed.

Lemma fields_laws ts : FieldsLaws (fields_of dflt ts) (fields_format_of ts).
Proof. apply all_laws. Qed.

(** * Properties *)

(** C5: Values survive the parcel. A value of any AIDL type is written as exactly
    its wire bytes, whole words, at the end of the parcel, and wherever those
    bytes lie at the cursor of a buffer, whatever surrounds them, reading gives
    the value back and moves the cursor past them and nothing else. *)
Theorem value_roundtrip (t : ty) (v : val t) :
  valid (format_of t) v ->
  zlen (wire (format_of t) v) mod 4 = 0 /\
  (forall p, appendable p -> zlen (data p) + zlen (wire (format_of t) v) <= i32_max ->
     ser (codec_of dflt t) v p = (Ok tt, appended (wire (format_of t) v) p)) /\
  (forall p pre post, readable p ->
     nested_read_depth p + nest (format_of t) v <= MAX_NESTED_READ_DEPTH ->
     data p = pre ++ wire (format_of t) v ++ post -> pos p = zlen pre ->
     de (codec_of dflt t) p = (Ok v, set_pos (pos p + zlen (wire (format_of t) v)) p)).
Proof.
  intros Hv. split_and!.
  - by apply law_wire.
  - intros p Ha Hl. pose proof (law_writes v Hv p Ha ltac:(zlen_lia)) as Hw.
    by rewrite (proj2 (Z.leb_le _ _)) in Hw.
  - intros p pre post. by apply law_decodes.
Qed.

(** The arguments of a call survive the parcel: written one after the other
    into a new parcel and read back in order from its start, they come back
    unchanged and the reader ends at the end of the data. *)
Theorem call_arguments_roundtrip (ts : tys) (v : struct_val ts) :
  fields_valid (fields_format_of ts) v ->
  fields_nest (fields_format_of ts) v <= MAX_NESTED_READ_DEPTH ->
  zlen (fields_wire (fields_format_of ts) v) < i32_max ->
  exists p q,
    write_fields (fields_of dflt ts) v parcel_new = (Ok tt, p) /\
    (let* _ := set_data_position 0 in read_args (fields_of dflt ts)) p = (Ok v, q) /\
    has_more_data q = false /\ data q = fields_wire (fields_format_of ts) v.
Proof.
  intros Hv Hn Hl. set (w := fields_wire (fields_format_of ts) v) in *.
  exists (appended w parcel_new), (set_pos (zlen w) (appended w parcel_new)).
  pose proof (writes_fields _ _ v (fields_laws ts) Hv parcel_new (conj eq_refl eq_refl) ltac:(done)) as Hw.
  fold w in Hw. change (zlen (data parcel_new)) with 0 in Hw.
  rewrite (proj2 (Z.leb_le _ _)) in Hw by lia. split_and!; [done | | | done].
  - pose proof (zlen_nonneg w). unfold bind, set_data_position, modify.
    rewrite (decodes_args _ _ (fields_laws ts) v _ Hv Hn (set_pos 0 (appended w parcel_new)) [] []); try done.
    by rewrite app_nil_r.
  - unfold has_more_data, data_size. cbn. rewrite Z.ltb_irrefl. cbn. apply Z.ltb_irrefl.
Qed.

(** C35: Versions of a parcelable interoperate. A block that carries the first
    [n] members of [v], and when these are all of them any further bytes of
    members the reader does not know, is read as [v] in those members with the
    reader's own values in the others, and the cursor moves to the end of the
    block. *)
Theorem parcelable_version_compat (ts : tys) (v self : struct_val ts) n extra p pre post :
  let ff := fields_format_of ts in
  let block := upto ff n v ++ extra in
  fields_valid ff v -> readable p ->
  nested_read_depth p + struct_nest ff v <= MAX_NESTED_READ_DEPTH ->
  ((n < count ff)%nat -> extra = []) ->
  data p = pre ++ to_le 4 (4 + zlen block) ++ block ++ post -> pos p = zlen pre ->
  read_struct (fields_of dflt ts) self p
  = (Ok (merge ff n v self), set_pos (pos p + 4 + zlen block) p).
Proof.
  intros ff block Hv Hr Hn Hx Hd Hp.
  apply (struct_read_at _ _ v self n extra p pre post (fields_laws ts)); try done.
  exact (fields_nest_nonneg _ _ v (fields_laws ts)).
Qed.

(** C36: Reading hostile bytes is safe: on any buffer and at any cursor, reading a
    value of any type returns a value or an error, never panics, and changes the
    cursor only (the scope of nested blocks is restored on every path). *)
Theorem hostile_read_safe (t : ty) p :
  readable p ->
  fst (de (codec_of dflt t) p) <> Panic /\
  exists n, 0 <= n /\ snd (de (codec_of dflt t) p) = set_pos n p.
Proof. apply (law_reads (c := codec_of dflt t) (f := format_of t)). Qed.

(** A value that does not fit below the parcel's 2 GiB limit is refused with
    [BadValue]. *)
Theorem oversize_write_refused (t : ty) (v : val t) p :
  valid (format_of t) v -> appendable p -> zlen (data p) <= i32_max ->
  i32_max < zlen (data p) + zlen (wire (format_of t) v) ->
  fst (ser (codec_of dflt t) v p) = Err StBadValue.
Proof.
  intros Hv Ha Hl Hb. pose proof (law_writes v Hv p Ha Hl) as Hw.
  by rewrite (proj2 (Z.leb_gt _ _)) in Hw.
Qed.
End TypeLaws.

(** * Examples *)

(** The zero values, as [Default] without an AIDL initialiser. *)
Fixpoint zero_of (t : ty) : val t :=
  match t return val t with
  | TBool => false
  | TI8 | TU8 | TI16 | TU16 | TI32 | TU32 | TI64 | TU64 | TU128 | TF32 | TF64 => 0
  | TString => []
  | TOption _ => None
  | TVec _ => []
  | TFixed n t => replicate n (zero_of t)
  | TStruct ts => zeros_of ts
  | TUnion t _ => inl (zero_of t)
  end
with zeros_of (ts : tys) : struct_val ts :=
  match ts return struct_val ts with
  | TNil => tt
  | TCons t ts => (zero_of t, zeros_of ts)
  end.

(** [parcelable { int a; @nullable String b; byte[] c; union { char d; boolean[2] e } f; }]. *)
Definition demo_types : tys :=
  TCons TI32 (TCons (TOption TString) (TCons (TVec TU8)
    (TCons (TUnion TU16 (TCons (TFixed 2 TBool) TNil)) TNil))).
Definition demo_value : struct_val demo_types :=
  (-7, (Some [104; 128512], ([1; 2; 255], (inr (inl [true; false]), tt)))).

Ltac validate :=
  repeat match goal with
         | |- _ /\ _ => split
         | |- Forall _ _ => constructor
         | |- union_valid _ _ => split; cbn -[in_i zlen i32_max]
         | |- _ => exact I
         | |- scalar _ => unfold scalar; lia
         | |- _ => done
         | |- _ => vm_compute; (reflexivity || discriminate)
         end.

Lemma demo_valid : fields_valid (@fields_format_of ptr64 demo_types) demo_value.
Proof. cbn -[in_i in_u zlen usize_max scalar i32_max encode_utf16]. unfold string_valid. validate. Qed.

Definition demo_parcel : Parcel :=
  from_vec ([x07; x07; x07; x07]
            ++ wire (@format_of ptr64 (TStruct demo_types)) demo_value ++ [x09]).

Lemma value_roundtrip_witness :
  fst (de (@codec_of ptr64 zero_of (TStruct demo_types)) demo_parcel) = Err StUnexpectedNull /\
  fst (de (@codec_of ptr64 zero_of (TStruct demo_types)) (set_pos 4 demo_parcel)) = Ok demo_value.
Proof.
  split; [vm_compute; reflexivity |].
  destruct (@value_roundtrip ptr64 zero_of (TStruct demo_types) demo_value demo_valid)
    as (_ & _ & Hread).
  rewrite (Hread (set_pos 4 demo_parcel) [x07; x07; x07; x07] [x09]).
  - reflexivity.
  - split; vm_compute; [discriminate | reflexivity].
  - vm_compute. discriminate.
  - reflexivity.
  - reflexivity.
Defined.

Lemma call_arguments_roundtrip_witness :
  exists p q,
    write_fields (@fields_of ptr64 zero_of demo_types) demo_value parcel_new = (Ok tt, p) /\
    (let* _ := set_data_position 0 in read_args (@fields_of ptr64 zero_of demo_types)) p
    = (Ok demo_value, q) /\
    has_more_data q = false /\ data q = fields_wire (@fields_format_of ptr64 demo_types) demo_value.
Proof.
  apply (@call_arguments_roundtrip ptr64 zero_of demo_types demo_value demo_valid).
  - vm_compute. discriminate.
  - vm_compute. reflexivity.
Defined.

(** A peer that knows two of the four members, and one that knows two more. *)
Definition old_block : list byte := upto (@fields_format_of ptr64 demo_types) 2 demo_value.
Definition new_block : list byte :=
  fields_wire (@fields_format_of ptr64 demo_types) demo_value ++ to_le 4 9 ++ to_le 4 8.

Lemma parcelable_version_compat_witness :
  fst (@read_struct ptr64 _ (@fields_of ptr64 zero_of demo_types) (zeros_of demo_types)
        (from_vec (to_le 4 (4 + zlen old_block) ++ old_block ++ to_le 4 77)))
  = Ok (-7, (Some [104; 128512], ([], (inl 0, tt)))) /\
  fst (@read_struct ptr64 _ (@fields_of ptr64 zero_of demo_types) (zeros_of demo_types)
        (from_vec (to_le 4 (4 + zlen new_block) ++ new_block))) = Ok demo_value.
Proof.
  split.
  - rewrite (@parcelable_version_compat ptr64 zero_of demo_types demo_value (zeros_of demo_types)
             2 [] _ [] (to_le 4 77)); [reflexivity | apply demo_valid | ..];
      [split; vm_compute; done | vm_compute; done | done | vm_compute; done | done].
  - rewrite (@parcelable_version_compat ptr64 zero_of demo_types demo_value (zeros_of demo_types)
               4 (to_le 4 9 ++ to_le 4 8) _ [] []); [reflexivity | apply demo_valid | ..];
      [split; vm_compute; done | vm_compute; done | | vm_compute; done | done].
    intros Hc. vm_compute in Hc. lia.
Defined.

Lemma hostile_read_safe_witness :
  readable (from_vec [xff; xff; xff; x7f; x01]) /\
  fst (de (@codec_of ptr32 zero_of (TVec TU128)) (from_vec [xff; xff; xff; x7f; x01])) <> Panic.
Proof.
  assert (Hr : readable (from_vec [xff; xff; xff; x7f; x01]))
    by (split; vm_compute; [discriminate | reflexivity]).
  split; [done |]. apply (@hostile_read_safe ptr32 zero_of (TVec TU128) _ Hr).
Defined.

Lemma oversize_write_refused_witness :
  fst (ser (@codec_of ptr64 zero_of TI32) 5 (set_pos i32_max (from_vec (zeros i32_max))))
  = Err StBadValue.
Proof.
  assert (Hz : zlen (zeros i32_max) = i32_max) by (apply zlen_zeros; discriminate).
  revert Hz. generalize (zeros i32_max). intros d Hz.
  apply (@oversize_write_refused ptr64 zero_of TI32); cbn [data set_pos from_vec].
  - split; vm_compute; done.
  - split; [reflexivity |]. cbn [data pos set_pos from_vec]. symmetry. exact Hz.
  - rewrite Hz. discriminate.
  - rewrite Hz. reflexivity.
Defined.
