(* ===== verification/Status.v ===== *)
(** Exceptions in replies (src/rsbinder/src/status.rs): [ExceptionCode],
    [Status], the conversions between them and [StatusCode], and the way a
    [Status] is written to and read from a reply parcel, the reply headers a
    Java peer prepends included. Messages are strings of Unicode scalars, as in
    Parcelable.v; [Display] is not modelled. *)

From Stdlib Require Import ZArith Lia Strings.Byte.
From stdpp Require Import base list strings.
From S2P Require Import Prelude Errors Address Parcel ParcelSpec Parcelable.

Inductive ExceptionCode : Type :=
| ExNone
| ExSecurity
| ExBadParcelable
| ExIllegalArgument
| ExNullPointer
| ExIllegalState
| ExNetworkMainThread
| ExUnsupportedOperation
| ExServiceSpecific
| ExParcelable
| ExHasNotedAppOpsReplyHeader
| ExHasReplyHeader
| ExTransactionFailed
| ExJustError.

#[export] Instance ExceptionCode_eq_dec : EqDecision ExceptionCode.
Proof. solve_decision. Defined.

(** [exception as i32]. *)
Definition exception_to_i32 (e : ExceptionCode) : Z :=
  match e with
  | ExNone => 0
  | ExSecurity => -1
  | ExBadParcelable => -2
  | ExIllegalArgument => -3
  | ExNullPointer => -4
  | ExIllegalState => -5
  | ExNetworkMainThread => -6
  | ExUnsupportedOperation => -7
  | ExServiceSpecific => -8
  | ExParcelable => -9
  | ExHasNotedAppOpsReplyHeader => -127
  | ExHasReplyHeader => -128
  | ExTransactionFailed => -129
  | ExJustError => -256
  end.

(** The match of [Deserialize for ExceptionCode]. *)
Definition exception_of_i32 (v : Z) : ExceptionCode :=
  if v =? 0 then ExNone
  else if v =? -1 then ExSecurity
  else if v =? -2 then ExBadParcelable
  else if v =? -3 then ExIllegalArgument
  else if v =? -4 then ExNullPointer
  else if v =? -5 then ExIllegalState
  else if v =? -6 then ExNetworkMainThread
  else if v =? -7 then ExUnsupportedOperation
  else if v =? -8 then ExServiceSpecific
  else if v =? -9 then ExParcelable
  else if v =? -127 then ExHasNotedAppOpsReplyHeader
  else if v =? -128 then ExHasReplyHeader
  else if v =? -129 then ExTransactionFailed
  else ExJustError.

Record Status : Type := mkStatus {
  st_code : StatusCode;
  st_exception : ExceptionCode;
  st_message : option (list Z)
}.

Definition status_new (exception : ExceptionCode) (status : StatusCode)
    (message : option (list Z)) : Status :=
  mkStatus status exception message.

(** [PartialEq]: the message is ignored. *)
Definition status_eqb (a b : Status) : bool :=
  bool_decide (st_code a = st_code b) && bool_decide (st_exception a = st_exception b).

Definition new_service_specific_error (err : Z) (message : option (list Z)) : Status :=
  status_new ExServiceSpecific (StServiceSpecific err) message.

Definition status_is_ok (s : Status) : bool := bool_decide (st_exception s = ExNone).

Definition transaction_error (s : Status) : StatusCode :=
  if decide (st_exception s = ExTransactionFailed) then st_code s else StOk.

Definition service_specific_error (s : Status) : Z :=
  match st_code s with StServiceSpecific err => err | _ => 0 end.

(** The [From] implementations. *)
Definition code_of_exception (e : ExceptionCode) : StatusCode :=
  match e with ExTransactionFailed => StFailedTransaction | _ => StOk end.

Definition code_of_status (s : Status) : StatusCode :=
  match st_code s with
  | StOk => if decide (st_exception s = ExNone) then StOk else StFailedTransaction
  | code => code
  end.

Definition exception_of_code (c : StatusCode) : ExceptionCode :=
  match c with
  | StOk => ExNone
  | StUnexpectedNull => ExNullPointer
  | StServiceSpecific _ => ExServiceSpecific
  | _ => ExTransactionFailed
  end.

Definition status_of_exception (e : ExceptionCode) : Status :=
  status_new e (code_of_exception e) None.
Definition status_of_exception_message (e : ExceptionCode) (message : list Z) : Status :=
  status_new e (code_of_exception e) (Some message).
Definition status_of_code (c : StatusCode) : Status := status_new (exception_of_code c) c None.

Section Wire.
Context `{PtrWidth} `{ErrnoTable}.

Definition read_exception : P ExceptionCode :=
  let* v := read_i32 in
  ret (exception_of_i32 v).

Definition status_serialize (self : Status) : P unit :=
  if decide (st_exception self = ExTransactionFailed) then throw (st_code self)
  else
    let* _ := write_i32 (exception_to_i32 (st_exception self)) in
    if decide (st_exception self = ExNone) then ret tt
    else
      let* _ := str_serialize_option (Some (default [] (st_message self))) in
      let* _ := write_i32 0 in
      if decide (st_exception self = ExServiceSpecific) then
        write_i32 (status_to_i32 (st_code self))
      else if decide (st_exception self = ExParcelable) then write_i32 0
      else ret tt.

Definition read_check_header_size : P unit :=
  let* header_start := data_position in
  let* header_avail := data_avail in
  let* header_size := read_i32 in
  if header_size <? 0 then throw StUnknown
  else if header_avail <? header_size then throw StUnknown
  else
    let* new_position := lift (ok_or (checked_add header_start header_size) StUnknown) in
    set_data_position new_position.

(** The code after the stack-trace header. *)
Definition read_code (exception : ExceptionCode) : P StatusCode :=
  if decide (exception = ExServiceSpecific) then
    let* code := read_i32 in
    ret (StServiceSpecific code)
  else if decide (exception = ExParcelable) then
    let* _ := read_check_header_size in
    ret StOk
  else ret StOk.

(** The part of [deserialize] after the exception is known not to be [None]. *)
Definition read_exception_body (exception : ExceptionCode) : P Status :=
  let* message := string_deserialize_option in
  let* header_start := data_position in
  let* header_avail := data_avail in
  let* size := read_i32 in
  if size <? 0 then throw StUnknown
  else if header_avail <? size then throw StUnknown
  else
    let* _ :=
      (if negb (size =? 0) then
         let* new_position := lift (ok_or (checked_add header_start size) StUnknown) in
         set_data_position new_position
       else ret tt) in
    let* code := read_code exception in
    ret (status_new exception code message).

(** After the first exception word and its noted-AppOps header, if any. *)
Definition read_after_appops (exception : ExceptionCode) : P Status :=
  let* exception :=
    (if decide (exception = ExHasReplyHeader) then
       let* _ := read_check_header_size in
       ret ExNone
     else ret exception) in
  if decide (exception = ExNone) then ret (status_of_exception exception)
  else read_exception_body exception.

Definition status_deserialize : P Status :=
  let* exception := read_exception in
  let* exception :=
    (if decide (exception = ExHasNotedAppOpsReplyHeader) then
       let* _ := read_check_header_size in
       read_exception
     else ret exception) in
  read_after_appops exception.
End Wire.

(** * Conversions *)

(** A failed call is never taken for a success: a [Status] converts to
    [StatusCode::Ok] exactly when it carries no exception and no error code, and
    the conversion gives back every other code it carries. *)
Theorem status_never_collapses s :
  (code_of_status s = StOk <-> st_exception s = ExNone /\ st_code s = StOk) /\
  (st_code s <> StOk -> code_of_status s = st_code s).
Proof.
  unfold code_of_status. destruct (st_code s) eqn:Ec; (split; [| done || (intros; congruence)]);
    try (split; [done | intros [_ ?]; done]).
  case_decide; split; try done; intros [? _]; done.
Qed.

(** An error code that becomes a [Status] and is returned through the other
    conversion is unchanged, and it is never a success. *)
Theorem code_status_roundtrip c :
  code_of_status (status_of_code c) = c /\ (status_is_ok (status_of_code c) = true <-> c = StOk).
Proof. by destruct c. Qed.

Lemma exception_of_to e : exception_of_i32 (exception_to_i32 e) = e.
Proof. by destruct e. Qed.

Lemma exception_range e : in_i 32 (exception_to_i32 e).
Proof. by destruct e. Qed.

Section WireLemmas.
Context `{PtrWidth} `{ErrnoTable}.

Lemma decodes_exception e n :
  decodes read_exception e (to_le 4 (exception_to_i32 e)) n.
Proof.
  eapply decodes_map; [apply decodes_i32, exception_range |].
  rewrite exception_of_to. apply decodes_ret.
Qed.

Lemma reads_exception : reads read_exception.
Proof. apply reads_bind; [apply reads_i32 | auto with rsb]. Qed.

Lemma reads_position_avail {A} (k : Z -> Z -> P A) :
  (forall start avail, 0 <= start -> reads (k start avail)) ->
  reads (let* start := data_position in let* avail := data_avail in k start avail).
Proof.
  intros Hk p Hr. pose proof Hr as [Hp _]. unfold reads_at, bind, data_position.
  rewrite data_avail_ok by done. by apply Hk.
Qed.

Lemma reads_seek start size :
  0 <= start -> 0 <= size ->
  reads (let* n := lift (ok_or (checked_add start size) StUnknown) in set_data_position n).
Proof.
  intros Hs Hz p Hr. unfold reads_at, bind, lift, checked_add.
  destruct (start + size <=? usize_max); cbn.
  - split; [done |]. exists (start + size). split; [lia | done].
  - split; [done |]. exists (pos p). split; [apply Hr | by rewrite set_pos_pos].
Qed.

Lemma reads_check_header : reads read_check_header_size.
Proof.
  apply reads_position_avail. intros start avail Hs. apply reads_bind; [apply reads_i32 |].
  intros size. destruct (Z.ltb_spec size 0); [auto with rsb |].
  apply reads_if; [auto with rsb | by apply reads_seek].
Qed.

(** A header whose size field counts itself is skipped as a whole. *)
Lemma decodes_check_header (blob : list byte) n :
  decodes read_check_header_size tt (to_le 4 (4 + zlen blob) ++ blob) n.
Proof.
  intros p pre post Hr Hn Hd Hp. pose proof Hr as [Hp0 Hl]. rewrite <- app_assoc in Hd.
  assert (El : zlen (data p) = zlen pre + 4 + zlen blob + zlen post) by (rewrite Hd; zlen_lia).
  pose proof (zlen_nonneg blob). pose proof (zlen_nonneg pre). pose proof (zlen_nonneg post).
  unfold read_check_header_size, bind. unfold data_position. rewrite data_avail_ok by done.
  erewrite read_i32_at; [| done | exact Hd | done | unfold in_i, i32_max in *; simpl; lia].
  rewrite (proj2 (Z.ltb_ge _ 0)), (proj2 (Z.ltb_ge _ (4 + zlen blob))) by lia.
  rewrite checked_add_small by (unfold i32_max, u32_max in *; lia). cbn.
  unfold set_data_position, modify. rewrite zlen_app, zlen_to_le. done.
Qed.

(** The empty header of [EX_PARCELABLE] puts the cursor back on its size word. *)
Lemma check_header_zero p pre post :
  readable p -> data p = pre ++ to_le 4 0 ++ post -> pos p = zlen pre ->
  read_check_header_size p = (Ok tt, p).
Proof.
  intros Hr Hd Hp. pose proof Hr as [Hp0 Hl]. unfold read_check_header_size, bind.
  unfold data_position. rewrite data_avail_ok by done.
  erewrite read_i32_at; [| done | exact Hd | done | done]. cbn [Z.ltb].
  assert (El : zlen (data p) = zlen pre + 4 + zlen post) by (rewrite Hd; zlen_lia).
  rewrite (proj2 (Z.ltb_ge 0 0)), (proj2 (Z.ltb_ge _ 0)) by lia.
  rewrite checked_add_small by (unfold i32_max, u32_max in *; zlen_lia). cbn.
  unfold set_data_position, modify. rewrite Z.add_0_r, set_pos_set_pos. by rewrite set_pos_pos.
Qed.

(** What is written, and what a reader makes of it. *)
Definition message_text (s : Status) : list Z := default [] (st_message s).

Definition status_tail (s : Status) : list byte :=
  if decide (st_exception s = ExServiceSpecific) then to_le 4 (status_to_i32 (st_code s))
  else if decide (st_exception s = ExParcelable) then to_le 4 0 else [].

Definition status_wire (s : Status) : list byte :=
  to_le 4 (exception_to_i32 (st_exception s)) ++
  if decide (st_exception s = ExNone) then []
  else string_wire (message_text s) ++ to_le 4 0 ++ status_tail s.

Definition received (s : Status) : Status :=
  if decide (st_exception s = ExNone) then status_of_exception ExNone
  else
    mkStatus (if decide (st_exception s = ExServiceSpecific)
              then StServiceSpecific (status_to_i32 (st_code s)) else StOk)
             (st_exception s) (Some (message_text s)).

(** Where the reader stops: before the size word of an [EX_PARCELABLE] tail. *)
Definition consumed (s : Status) : Z :=
  zlen (status_wire s) - if decide (st_exception s = ExParcelable) then 4 else 0.

Definition status_valid (s : Status) : Prop :=
  string_valid (message_text s) /\ in_i 32 (status_to_i32 (st_code s)).

(** Exceptions a service may return: the two header markers are not among them. *)
Definition plain (e : ExceptionCode) : Prop :=
  e <> ExTransactionFailed /\ e <> ExHasNotedAppOpsReplyHeader /\ e <> ExHasReplyHeader.

Lemma writes_status s :
  plain (st_exception s) -> status_valid s -> writes (status_serialize s) (status_wire s).
Proof.
  intros (Ht & _) [Hm _]. unfold status_serialize, status_wire. rewrite decide_False by done.
  apply writes_bind; [apply writes_i32 |]. case_decide; [apply writes_ret |].
  apply writes_bind; [by apply string_writes |]. apply writes_bind; [apply writes_i32 |].
  unfold status_tail. case_decide; [apply writes_i32 |].
  case_decide; [apply writes_i32 | apply writes_ret].
Qed.

Lemma reads_body e : reads (read_exception_body e).
Proof.
  apply reads_bind; [apply string_reads |]. intros msg.
  apply reads_position_avail. intros start avail Hs. apply reads_bind; [apply reads_i32 |].
  intros size. destruct (Z.ltb_spec size 0); [auto with rsb |].
  apply reads_if; [auto with rsb |]. apply reads_bind.
  { apply reads_if; [by apply reads_seek | auto with rsb]. }
  intros _. apply reads_bind; [| auto with rsb]. unfold read_code.
  case_decide; [apply reads_bind; [apply reads_i32 | auto with rsb] |].
  case_decide; [apply reads_bind; [apply reads_check_header | auto with rsb] | auto with rsb].
Qed.

Lemma reads_status : reads status_deserialize.
Proof.
  apply reads_bind; [apply reads_exception |]. intros e. apply reads_bind.
  - case_decide; [| auto with rsb]. apply reads_bind; [apply reads_check_header |].
    intros _. apply reads_exception.
  - intros e'. apply reads_bind.
    + case_decide; [| auto with rsb]. apply reads_bind; [apply reads_check_header | auto with rsb].
    + intros e2. case_decide; [auto with rsb | apply reads_body].
Qed.

(** A message and the empty stack-trace header a native writer leaves. *)
Lemma read_body_at e t p pre post :
  string_valid t -> readable p -> nested_read_depth p <= MAX_NESTED_READ_DEPTH ->
  data p = pre ++ string_wire t ++ to_le 4 0 ++ post -> pos p = zlen pre ->
  read_exception_body e p
  = (let* code := read_code e in ret (status_new e code (Some t)))
      (set_pos (pos p + zlen (string_wire t) + 4) p).
Proof.
  intros Ht Hr Hn Hd Hp. pose proof Hr as [Hp0 Hl]. unfold read_exception_body.
  erewrite bind_ok by (eapply (string_decodes t 0 Ht p pre _ Hr); [lia | exact Hd | done]).
  set (q := set_pos _ p). assert (Hq : readable q).
  { apply readable_set_pos; [zlen_lia | done]. }
  unfold bind at 1 2, data_position. rewrite data_avail_ok by done.
  erewrite bind_ok.
  2: { apply (read_i32_at q (pre ++ string_wire t) 0 post Hq); [| | done].
       - cbn. by rewrite Hd, <- app_assoc.
       - cbn. rewrite zlen_app. lia. }
  cbn [Z.ltb Z.compare]. rewrite (proj2 (Z.ltb_ge _ 0)) by lia.
  reflexivity.
Qed.

Lemma read_code_at s p pre post :
  in_i 32 (status_to_i32 (st_code s)) -> readable p ->
  data p = pre ++ status_tail s ++ post -> pos p = zlen pre ->
  read_code (st_exception s) p
  = (Ok (if decide (st_exception s = ExServiceSpecific)
         then StServiceSpecific (status_to_i32 (st_code s)) else StOk),
     set_pos (pos p + zlen (status_tail s)
              - if decide (st_exception s = ExParcelable) then 4 else 0) p).
Proof.
  intros Hc Hr Hd Hp. unfold read_code, status_tail in *. destruct (decide (st_exception s = ExServiceSpecific)) as [E | E].
  - rewrite E. rewrite decide_False by done. erewrite bind_ok by (by eapply read_i32_at).
    rewrite zlen_to_le, Z.sub_0_r. done.
  - destruct (decide (st_exception s = ExParcelable)) as [E2 | E2].
    + erewrite bind_ok by (by eapply check_header_zero). rewrite zlen_to_le.
      change (Z.of_nat 4) with 4. rewrite Z.add_simpl_r. by rewrite set_pos_pos.
    + rewrite zlen_nil, Z.add_0_r, Z.sub_0_r. by rewrite set_pos_pos.
Qed.

Lemma read_after_appops_at s p pre post :
  plain (st_exception s) -> status_valid s -> readable p ->
  nested_read_depth p <= MAX_NESTED_READ_DEPTH ->
  data p = pre ++ status_wire s ++ post -> pos p = zlen pre ->
  read_after_appops (st_exception s) (set_pos (pos p + 4) p)
  = (Ok (received s), set_pos (pos p + consumed s) p).
Proof.
  intros (Ht & Ha & Hh) [Hm Hc] Hr Hn Hd Hp. pose proof Hr as [Hp0 Hl].
  unfold read_after_appops, received, consumed, status_wire in *. rewrite decide_False by done.
  unfold bind at 1, ret at 1. destruct (decide (st_exception s = ExNone)) as [E | E].
  { rewrite E. rewrite decide_False by done. rewrite zlen_app, zlen_to_le, zlen_nil.
    change (Z.of_nat 4 + 0 - 0) with 4. done. }
  rewrite <- !app_assoc in Hd. set (tw := to_le 4 (exception_to_i32 _)) in *.
  assert (Htw : zlen tw = 4) by apply zlen_to_le.
  erewrite (read_body_at _ _ _ (pre ++ tw) (status_tail s ++ post) Hm); cbn [data pos set_pos nested_read_depth].
  - erewrite bind_ok.
    2: { apply (read_code_at s _ (pre ++ tw ++ string_wire (message_text s) ++ to_le 4 0) post Hc);
           cbn [data pos set_pos].
         - apply readable_set_pos; [| by apply readable_set_pos; [lia |]]. zlen_lia.
         - by rewrite Hd, <- !app_assoc.
         - rewrite !zlen_app, zlen_to_le. lia. }
    unfold ret. cbn [pos set_pos]. rewrite !set_pos_set_pos. unfold status_new.
    do 2 f_equal. rewrite !zlen_app, zlen_to_le. lia.
  - apply readable_set_pos; [lia | done].
  - done.
  - by rewrite Hd, <- !app_assoc.
  - rewrite zlen_app. lia.
Qed.

(** A header after its marker. *)
Lemma header_skipped (m : Z) (blob : list byte) p pre post :
  readable p -> nested_read_depth p <= MAX_NESTED_READ_DEPTH -> pos p = zlen pre ->
  data p = pre ++ to_le 4 m ++ (to_le 4 (4 + zlen blob) ++ blob) ++ post ->
  read_check_header_size (set_pos (pos p + 4) p) = (Ok tt, set_pos (pos p + 8 + zlen blob) p).
Proof.
  intros Hr Hn Hp Hd. destruct Hr as [Hp0 Hl].
  rewrite (decodes_check_header blob 0 (set_pos (pos p + 4) p) (pre ++ to_le 4 m) post);
    cbn [data pos set_pos nested_read_depth].
  - rewrite zlen_app, zlen_to_le, set_pos_set_pos. do 2 f_equal. lia.
  - split; [cbn; lia | done].
  - lia.
  - by rewrite Hd, <- !app_assoc.
  - rewrite zlen_app, zlen_to_le. lia.
Qed.

Lemma appops_header_at s (blob : list byte) p pre post :
  plain (st_exception s) -> status_valid s -> readable p ->
  nested_read_depth p <= MAX_NESTED_READ_DEPTH -> pos p = zlen pre ->
  data p = pre ++ to_le 4 (-127) ++ (to_le 4 (4 + zlen blob) ++ blob) ++ status_wire s ++ post ->
  status_deserialize p = (Ok (received s), set_pos (pos p + 8 + zlen blob + consumed s) p).
Proof.
  intros Hpl Hv Hr Hn Hp Hd. pose proof Hr as [Hp0 Hl]. pose proof (zlen_nonneg blob).
  unfold status_deserialize.
  erewrite bind_ok by (eapply (decodes_exception ExHasNotedAppOpsReplyHeader 0 p pre _ Hr);
                       [lia | exact Hd | done]).
  rewrite decide_True by done. rewrite zlen_to_le. change (Z.of_nat 4) with 4.
  unfold bind at 1 2. rewrite (header_skipped (-127) blob p pre (status_wire s ++ post)) by done.
  set (q := set_pos (pos p + 8 + zlen blob) p).
  assert (Hq : readable q) by (apply readable_set_pos; [lia | done]).
  set (pre2 := pre ++ to_le 4 (-127) ++ to_le 4 (4 + zlen blob) ++ blob).
  assert (Hd2 : data q = pre2 ++ status_wire s ++ post).
  { cbn. rewrite Hd. unfold pre2. by rewrite <- !app_assoc. }
  assert (Hp2 : pos q = zlen pre2).
  { cbn. unfold pre2. rewrite !zlen_app, !zlen_to_le. lia. }
  rewrite (decodes_exception (st_exception s) 0 q pre2
             ((if decide (st_exception s = ExNone) then []
               else string_wire (message_text s) ++ to_le 4 0 ++ status_tail s) ++ post) Hq);
    [| cbn; lia | rewrite Hd2; unfold status_wire; by rewrite <- app_assoc | done].
  rewrite zlen_to_le. change (Z.of_nat 4) with 4. by rewrite (read_after_appops_at s q pre2 post).
Qed.

Lemma reply_header_at (blob : list byte) p pre post :
  readable p -> nested_read_depth p <= MAX_NESTED_READ_DEPTH -> pos p = zlen pre ->
  data p = pre ++ to_le 4 (-128) ++ (to_le 4 (4 + zlen blob) ++ blob) ++ post ->
  status_deserialize p = (Ok (status_of_exception ExNone), set_pos (pos p + 8 + zlen blob) p).
Proof.
  intros Hr Hn Hp Hd. unfold status_deserialize.
  erewrite bind_ok by (eapply (decodes_exception ExHasReplyHeader 0 p pre _ Hr);
                       [lia | exact Hd | done]).
  rewrite decide_False by done. unfold bind at 1, ret at 1, read_after_appops.
  rewrite decide_True by done. unfold bind at 1 2. rewrite zlen_to_le.
  change (Z.of_nat 4) with 4. by rewrite (header_skipped (-128) blob p pre post).
Qed.

(** * Properties *)

(** A service's exception survives the reply: the status is written as its
    wire form, and reading that form, wherever it lies, gives the exception, the
    message (absent becomes empty) and the service-specific code back. *)
Theorem status_roundtrip s :
  plain (st_exception s) -> status_valid s ->
  (forall p, appendable p -> zlen (data p) + zlen (status_wire s) <= i32_max ->
     status_serialize s p = (Ok tt, appended (status_wire s) p)) /\
  (forall p pre post, readable p -> nested_read_depth p <= MAX_NESTED_READ_DEPTH ->
     data p = pre ++ status_wire s ++ post -> pos p = zlen pre ->
     status_deserialize p = (Ok (received s), set_pos (pos p + consumed s) p)).
Proof.
  intros Hpl Hv. split.
  - intros p Ha Hl. pose proof (writes_status s Hpl Hv p Ha ltac:(zlen_lia)) as Hw.
    by rewrite (proj2 (Z.leb_le _ _)) in Hw.
  - intros p pre post Hr Hn Hd Hp. unfold status_deserialize.
    erewrite bind_ok.
    2: { eapply (decodes_exception (st_exception s) 0 p pre _ Hr); [lia | | done].
         rewrite Hd. unfold status_wire. by rewrite <- app_assoc. }
    rewrite zlen_to_le. rewrite decide_False by apply Hpl. unfold bind, ret.
    by eapply read_after_appops_at.
Qed.

(** The headers a peer prepends are transparent. A reply that starts with the
    noted-AppOps marker and a header of any content decodes to the status that
    follows it, and one that starts with the fat-reply marker decodes to
    success. *)
Theorem reply_headers_transparent s (blob : list byte) p pre post :
  plain (st_exception s) -> status_valid s -> readable p ->
  nested_read_depth p <= MAX_NESTED_READ_DEPTH -> pos p = zlen pre ->
  (data p = pre ++ to_le 4 (-127) ++ (to_le 4 (4 + zlen blob) ++ blob) ++ status_wire s ++ post ->
   status_deserialize p = (Ok (received s), set_pos (pos p + 8 + zlen blob + consumed s) p)) /\
  (data p = pre ++ to_le 4 (-128) ++ (to_le 4 (4 + zlen blob) ++ blob) ++ post ->
   status_deserialize p
   = (Ok (status_of_exception ExNone), set_pos (pos p + 8 + zlen blob) p)).
Proof.
  intros Hpl Hv Hr Hn Hp. split; intros Hd; [by eapply appops_header_at | by eapply reply_header_at].
Qed.

(** Reading a status from hostile bytes never panics and moves the cursor
    only. *)
Theorem status_read_safe p :
  readable p ->
  fst (status_deserialize p) <> Panic /\
  exists n, 0 <= n /\ snd (status_deserialize p) = set_pos n p.
Proof. apply reads_status. Qed.
End WireLemmas.

(** * Examples *)

Definition boom : Status := new_service_specific_error 777 (Some [98; 111; 111; 109]).

Lemma boom_valid : @status_valid ptr64 linux_errno boom.
Proof.
  split; [| by vm_compute].
  split; [repeat constructor; unfold scalar; lia | split; vm_compute; done].
Qed.

Lemma boom_plain : plain (st_exception boom).
Proof. done. Qed.

Lemma status_roundtrip_witness :
  fst (@status_deserialize ptr64 (from_vec (@status_wire linux_errno boom))) = Ok boom.
Proof.
  destruct (@status_roundtrip ptr64 linux_errno boom boom_plain boom_valid) as [_ Hread].
  rewrite (Hread _ [] []); [reflexivity | split; vm_compute; done | vm_compute; done | | done].
  by rewrite app_nil_r.
Defined.

Lemma reply_headers_transparent_witness :
  fst (@status_deserialize ptr64 (from_vec
    (to_le 4 (-127) ++ (to_le 4 8 ++ to_le 4 5) ++ @status_wire linux_errno boom))) = Ok boom.
Proof.
  destruct (@reply_headers_transparent ptr64 linux_errno boom (to_le 4 5)
    (from_vec (to_le 4 (-127) ++ (to_le 4 8 ++ to_le 4 5) ++ @status_wire linux_errno boom)) [] []
    boom_plain boom_valid) as [Happ _];
    [split; vm_compute; done | vm_compute; done | done |].
  rewrite Happ; [reflexivity |]. by rewrite app_nil_r.
Defined.

Lemma status_read_safe_witness :
  fst (@status_deserialize ptr32 (from_vec (to_le 4 (-1) ++ to_le 4 2147483646))) <> Panic.
Proof. apply (@status_read_safe ptr32). split; vm_compute; done. Defined.
