(* ===== verification/Binders.v ===== *)
(** Binders in RPC parcels (src/rsbinder/src/rpc/session.rs: the address forms,
    the interface token, [write_binder], [read_binder], [rollback_outgoing]):
    the code that joins the parcel to the session's object table. A context is
    the table, behind its lock, and the parcel at hand.

    A binder is a local object or an [RpcProxy]; its stability is the [i32] its
    [stability()] converts to, and freezing it ([set_parceled]) is not
    modelled. *)

From Stdlib Require Import ZArith Lia Strings.Byte.
From stdpp Require Import base gmap list strings sorting.
From S2P Require Import Prelude Errors Address Wire WireAndroid13 Profile RpcState.
From S2P Require Import Parcel ParcelSpec Parcelable.

Inductive Binder : Type :=
| Local (b : SIBinder) (stability : Z)
| Remote (addr : RpcAddress) (proxy : Z) (stability : Z).

Definition stability (b : Binder) : Z :=
  match b with Local _ s => s | Remote _ _ s => s end.

(** What [read_binder] returns: the original object, or a proxy. *)
Inductive Arrived : Type :=
| Home (b : SIBinder)
| Proxy (addr : RpcAddress) (proxy : Z).

Record Ctx : Type := mkCtx { cx_table : RpcState; cx_parcel : Parcel }.

Definition on_parcel {A} (m : P A) : M Ctx StatusCode A :=
  fun c => let (r, p) := m (cx_parcel c) in (r, mkCtx (cx_table c) p).
Definition on_table {A} (m : RpcState -> outcome StatusCode A * RpcState) : M Ctx StatusCode A :=
  fun c => let (r, t) := m (cx_table c) in (r, mkCtx t (cx_parcel c)).

(** [matches!(self.profile, WireProfile::Android13Plus(_))]. *)
Definition is_android13plus (pr : WireProfile) : bool :=
  match pr with ProfileR34 => false | ProfileAndroid13Plus _ => true end.

Section Binders.
Context `{PtrWidth} `{ErrnoTable}.

Definition write_addr (addr : RpcAddress) : P unit := write_aligned_data (as_wire_bytes addr).

Definition read_addr : P RpcAddress :=
  let* s := read_aligned_data RPC_ADDR_LEN in
  ret (from_wire_bytes s).

Definition wire_write_binder_addr (pr : WireProfile) (addr : RpcAddress) : P unit :=
  match pr with
  | ProfileR34 => write_addr addr
  | ProfileAndroid13Plus _ => write_aligned_data (encode_addr addr)
  end.

Definition wire_read_binder_addr (pr : WireProfile) : P RpcAddress :=
  match pr with
  | ProfileR34 => read_addr
  | ProfileAndroid13Plus _ =>
      let* s := read_aligned_data A13_ADDR_LEN in
      lift (map_err status_of_rpc (decode_addr s 0))
  end.

Definition write_rpc_interface_token (descriptor : list Z) : P unit :=
  str_serialize_option (Some descriptor).

Definition consume_rpc_interface_token (expected : list Z) : P unit :=
  let* got := de string_codec in
  if decide (got = expected) then ret tt else throw StBadType.

(** The address a binder travels under; a local object is counted as sent and
    noted on the parcel. *)
Definition leaving_address (b : Binder) : M Ctx StatusCode RpcAddress :=
  match b with
  | Remote addr _ _ => ret addr
  | Local b _ =>
      let* addr := on_table (on_binder_leaving b) in
      let* _ := on_parcel (modify (rpc_record_leaving_addr addr)) in
      ret addr
  end.

Definition write_binder (pr : WireProfile) (binder : option Binder) : M Ctx StatusCode unit :=
  match binder with
  | None => on_parcel (write_i32 0)
  | Some b =>
      let* addr := leaving_address b in
      let* obj_pos := on_parcel data_position in
      let* _ := on_parcel (write_i32 1) in
      let* _ := on_parcel (wire_write_binder_addr pr addr) in
      let* _ :=
        (if records_binder_positions pr
         then on_parcel (modify (rpc_record_object_position obj_pos)) else ret tt) in
      if is_android13plus pr then on_parcel (write_i32 (stability b)) else ret tt
  end.

(** The second component is the reference a duplicate receipt owes back: the
    [DEC_STRONG] that is sent best-effort. [alive] says whether a weak pointer
    upgrades and [make] is the new proxy. *)
Definition read_binder (pr : WireProfile) (alive : Z -> bool) (make : Z)
  : M Ctx StatusCode (option Arrived * option RpcAddress) :=
  let* obj_pos := on_parcel data_position in
  let* present := on_parcel read_i32 in
  if present =? 0 then ret (None, None)
  else
    let* c := get in
    if records_binder_positions pr && negb (rpc_object_position_present obj_pos (cx_parcel c))
    then throw StBadValue
    else
      let* addr := on_parcel (wire_read_binder_addr pr) in
      let* _ :=
        (if is_android13plus pr
         then let* _ := on_parcel read_i32 in ret tt else ret tt) in
      let* c := get in
      match lookup_local addr (cx_table c) with
      | Some local => ret (Some (Home local), None)
      | None =>
          let* (sib, excess) :=
            on_table (fun t => let (r, t) := remote_proxy alive addr make t in (Ok r, t)) in
          ret (Some (Proxy addr sib), if excess then Some addr else None)
      end.

Definition rpc_leaving_addrs (p : Parcel) : list RpcAddress :=
  match rpc p with Some r => leaving_addrs r | None => [] end.

Definition rollback_outgoing (data : Parcel) (oneway_addr : option (RpcAddress * Z))
    (t : RpcState) : RpcState :=
  let t := match oneway_addr with
           | Some (addr, consumed) => cancel_send_async_number addr consumed t
           | None => t
           end in
  foldl (fun t addr => cancel_binder_leaving addr t) t (rpc_leaving_addrs data).

(** The binders of a parcel, one after the other. *)
Fixpoint write_binders (pr : WireProfile) (bs : list (option Binder)) : M Ctx StatusCode unit :=
  match bs with
  | [] => ret tt
  | b :: bs =>
      let* _ := write_binder pr b in
      write_binders pr bs
  end.
End Binders.

(** * Rolling back *)

(** The references a parcel under construction holds: the counts of the table
    exceed those of [s] by the noted addresses. *)
Definition owes (s : RpcState) (c : Ctx) : Prop :=
  state_wf (cx_table c) /\ is_for_rpc (cx_parcel c) = true /\
  forall a, strong_of a (cx_table c) = cnt a (rpc_leaving_addrs (cx_parcel c)) + strong_of a s.

Section Rollback.
Context `{PtrWidth} `{ErrnoTable}.

Lemma cnt_app a l k : cnt a (l ++ k) = cnt a l + cnt a k.
Proof. unfold cnt. rewrite filter_app, length_app. lia. Qed.

(** Parcel code that leaves the notes alone. *)
Lemma owes_parcel {A} (m : P A) s c r c' :
  (forall p r p', m p = (r, p') ->
     rpc_leaving_addrs p' = rpc_leaving_addrs p /\ is_for_rpc p' = is_for_rpc p) ->
  owes s c -> on_parcel m c = (r, c') -> owes s c'.
Proof.
  intros Hm (Hw & Hr & Hb) E. unfold on_parcel in E. destruct (m (cx_parcel c)) as [o p'] eqn:Em.
  injection E as <- <-. destruct (Hm _ _ _ Em) as [El Er]. unfold owes. cbn.
  rewrite Er, El. done.
Qed.

Lemma write_keeps_notes bytes p r p' :
  write_aligned_data bytes p = (r, p') ->
  rpc_leaving_addrs p' = rpc_leaving_addrs p /\ is_for_rpc p' = is_for_rpc p.
Proof.
  unfold write_aligned_data, bind, data_position, lift, reserve, set_data_position, modify.
  intros E. repeat case_match; simplify_eq/=; unfold modify in *; simplify_eq/=; split; reflexivity.
Qed.

Lemma record_keeps_notes x p :
  rpc_leaving_addrs (rpc_record_object_position x p) = rpc_leaving_addrs p /\
  is_for_rpc (rpc_record_object_position x p) = is_for_rpc p.
Proof.
  unfold rpc_record_object_position, on_rpc, rpc_leaving_addrs, is_for_rpc.
  destruct (rpc p) as [q |] eqn:E; cbn; rewrite ?E; done.
Qed.

Lemma owes_bind {A B} s (m : M Ctx StatusCode A) (k : A -> M Ctx StatusCode B) c r c' :
  (forall r c', m c = (r, c') -> owes s c') ->
  (forall a c1 r c', owes s c1 -> k a c1 = (r, c') -> owes s c') ->
  bind m k c = (r, c') -> owes s c'.
Proof.
  intros Hm Hk E. unfold bind in E. destruct (m c) as [[a | e |] c1] eqn:Em.
  - eapply Hk; [by eapply Hm | done].
  - simplify_eq. by eapply Hm.
  - simplify_eq. by eapply Hm.
Qed.

Lemma owes_leaving s b c r c' : owes s c -> leaving_address b c = (r, c') -> owes s c'.
Proof.
  intros (Hw & Hr & Hb) E. destruct b as [b st | a ptr st]; cbn in E; [| unfold ret in E; by simplify_eq].
  unfold bind, on_table in E. pose proof (wf_leave b (cx_table c) Hw) as Hw'.
  destruct (on_binder_leaving b (cx_table c)) as [[a | e |] t] eqn:El.
  - cbn in E. unfold ret in E. simplify_eq. pose proof (strong_of_leave b (cx_table c) a t) as Hs.
    unfold owes, rpc_record_leaving_addr, on_rpc, is_for_rpc, rpc_leaving_addrs in *. cbn.
    destruct (rpc (cx_parcel c)) as [q |] eqn:Eq; [| done].
    split_and!; [exact Hw' | by apply bool_decide_eq_true_2 |]. cbn.
    intros x. rewrite (Hs x Hw El), Hb, cnt_app, cnt_cons. unfold one_if, cnt at 3. cbn. lia.
  - cbn in E. simplify_eq. unfold on_binder_leaving in El. repeat case_match; by simplify_eq.
  - cbn in E. unfold on_binder_leaving in El. repeat case_match; by simplify_eq.
Qed.

Ltac owes_step :=
  first [ eapply owes_parcel; [| eassumption | eassumption]; intros ? ? ?; apply write_keeps_notes
        | eapply owes_leaving; eassumption ].

Lemma owes_write_binder s pr b c r c' : owes s c -> write_binder pr b c = (r, c') -> owes s c'.
Proof.
  intros Ho E. destruct b as [b |]; cbn [write_binder] in E; [| owes_step].
  eapply owes_bind in E; [done | intros ? ? E1; owes_step |].
  clear r c' E c Ho. intros addr c r c' Ho E.
  eapply owes_bind in E; [done | | ].
  { intros ? ? E1. unfold on_parcel, data_position in E1. simplify_eq. by destruct c. }
  clear r c' E c Ho. intros obj_pos c r c' Ho E.
  eapply owes_bind in E; [done | intros ? ? E1; owes_step |].
  clear r c' E c Ho. intros _ c r c' Ho E.
  eapply owes_bind in E; [done | intros ? ? E1; destruct pr; owes_step |].
  clear r c' E c Ho. intros _ c r c' Ho E.
  eapply owes_bind in E; [done | |].
  { intros ? ? E1. destruct (records_binder_positions pr); [| unfold ret in E1; by simplify_eq].
    eapply owes_parcel; [| exact Ho | exact E1]. unfold modify. intros ? ? ? Em. simplify_eq.
    apply record_keeps_notes. }
  clear r c' E c Ho. intros _ c r c' Ho E.
  destruct (is_android13plus pr); [owes_step | unfold ret in E; by simplify_eq].
Qed.

Lemma owes_write_binders s pr bs c r c' : owes s c -> write_binders pr bs c = (r, c') -> owes s c'.
Proof.
  revert c r c'. induction bs as [| b bs IH]; intros c r c' Ho E; cbn [write_binders] in E.
  - unfold ret in E. by simplify_eq.
  - eapply owes_bind in E; [done | intros; by eapply owes_write_binder | intros; by eapply IH].
Qed.

Lemma rollback_cnt l t s :
  state_wf t -> (forall a, 0 <= strong_of a s) ->
  (forall a, strong_of a t = cnt a l + strong_of a s) ->
  let t' := foldl (fun t addr => cancel_binder_leaving addr t) t l in
  state_wf t' /\ forall a, strong_of a t' = strong_of a s.
Proof.
  revert t. induction l as [| x l IH]; intros t Hw Hnn Hb; cbn; [by split |].
  assert (Hx : 0 < strong_of x t).
  { rewrite Hb, cnt_cons, decide_True by done. pose proof (cnt_nonneg x l). specialize (Hnn x). lia. }
  apply strong_of_node in Hx as [n En]. rewrite (cancel_lower x t n En).
  apply IH; [by apply lower_wf | done |]. intros a.
  pose proof (strong_of_lower x t n a Hw En) as Hl. rewrite Hb, cnt_cons in Hl.
  unfold one_if in Hl. lia.
Qed.

Lemma strong_of_nonneg s a : state_wf s -> 0 <= strong_of a s.
Proof.
  intros Hw. unfold strong_of. destruct (local_nodes s !! a) as [n |] eqn:En; [| done].
  pose proof (wf_strong s Hw _ _ En). lia.
Qed.

(** Rolling a parcel back leaves every object with the count it had before the
    parcel was begun. *)
Lemma rollback_restores s p t :
  state_wf s -> owes s (mkCtx t p) ->
  state_wf (rollback_outgoing p None t) /\
  forall a, strong_of a (rollback_outgoing p None t) = strong_of a s.
Proof.
  intros Hw (Hw' & _ & Hb). apply rollback_cnt; [done | intros; by apply strong_of_nonneg | done].
Qed.

(** A parcel with nothing in it owes nothing. *)
Lemma owes_empty s p :
  state_wf s -> is_for_rpc p = true -> rpc_leaving_addrs p = [] -> owes s (mkCtx s p).
Proof. intros Hw Hr Hl. split_and!; [done | done |]. intros a. cbn. by rewrite Hl. Qed.
End Rollback.

(** * Identity *)

Section Identity.
Context `{PtrWidth} `{ErrnoTable}.

(** The bytes of a binder. *)
Definition addr_wire (pr : WireProfile) (a : RpcAddress) : list byte :=
  if is_android13plus pr then encode_addr a else as_wire_bytes a.

Definition binder_wire (pr : WireProfile) (a : RpcAddress) (st : Z) : list byte :=
  to_le 4 1 ++ addr_wire pr a ++ if is_android13plus pr then to_le 4 st else [].

(** The parcel after a binder at address [a] has been written. *)
Definition binder_written (pr : WireProfile) (a : RpcAddress) (st : Z) (p : Parcel) : Parcel :=
  let q := appended (binder_wire pr a st) p in
  if records_binder_positions pr then rpc_record_object_position (pos p) q else q.

Lemma carries_ok pr a : profile_carries pr a -> addr_ok a.
Proof. destruct pr; [done | apply a13_carries_ok]. Qed.

Lemma addr_wire_len pr a :
  addr_ok a -> zlen (addr_wire pr a) = if is_android13plus pr then 8 else 32.
Proof. intros Ha. unfold addr_wire. destruct pr; cbn; [exact Ha | apply zlen_encode_addr]. Qed.

Lemma writes_addr pr a : addr_ok a -> writes (wire_write_binder_addr pr a) (addr_wire pr a).
Proof.
  intros Ha. pose proof (addr_wire_len pr a Ha) as Hl. pose proof usize_max_bounds.
  rewrite <- (padded_aligned (addr_wire pr a)) by (rewrite Hl; by destruct (is_android13plus pr)).
  unfold u32_max in *. destruct pr.
  - change (zlen (as_wire_bytes a) = 32) in Hl. apply (writes_aligned (as_wire_bytes a)). lia.
  - change (zlen (encode_addr a) = 8) in Hl. apply (writes_aligned (encode_addr a)). lia.
Qed.

Lemma decodes_addr pr a n :
  profile_carries pr a -> decodes (wire_read_binder_addr pr) a (addr_wire pr a) n.
Proof.
  intros Hc. pose proof (carries_ok pr a Hc) as Ha. pose proof (addr_wire_len pr a Ha) as Hl.
  rewrite <- (padded_aligned (addr_wire pr a)) by (rewrite Hl; by destruct (is_android13plus pr)).
  destruct pr as [| c].
  - change (zlen (as_wire_bytes a) = 32) in Hl.
    cbn [wire_read_binder_addr]. unfold read_addr, addr_wire. cbn [is_android13plus].
    change RPC_ADDR_LEN with 32. rewrite <- Hl.
    eapply decodes_map; [apply decodes_aligned |]. by destruct a; apply decodes_ret.
  - change (zlen (encode_addr a) = 8) in Hl.
    cbn [wire_read_binder_addr]. unfold addr_wire. cbn [is_android13plus].
    change A13_ADDR_LEN with 8. rewrite <- Hl. eapply decodes_map; [apply decodes_aligned |].
    pose proof (decode_encode_addr a [] Hc) as E. rewrite app_nil_r in E. rewrite E. apply decodes_ret.
Qed.

Lemma on_parcel_ok {A} (m : P A) s p a p' :
  m p = (Ok a, p') -> on_parcel m (mkCtx s p) = (Ok a, mkCtx s p').
Proof. intros E. unfold on_parcel. cbn. by rewrite E. Qed.

Lemma writes_ok m w p :
  writes m w -> appendable p -> zlen (data p) + zlen w <= i32_max -> m p = (Ok tt, appended w p).
Proof.
  intros Hm Ha Hl. pose proof (Hm p Ha ltac:(zlen_lia)) as E. by rewrite (proj2 (Z.leb_le _ _)) in E.
Qed.

Lemma record_appended x w p :
  appended w (rpc_record_object_position x p) = rpc_record_object_position x (appended w p).
Proof.
  unfold rpc_record_object_position, on_rpc, appended. cbn.
  by destruct (rpc p) eqn:E; cbn; rewrite ?E.
Qed.

Lemma record_appendable x p : appendable p -> appendable (rpc_record_object_position x p).
Proof. unfold rpc_record_object_position, on_rpc. by destruct (rpc p). Qed.

Lemma data_record x p : data (rpc_record_object_position x p) = data p.
Proof. unfold rpc_record_object_position, on_rpc. by destruct (rpc p). Qed.

Lemma write_binder_at pr b s p a s' p' :
  leaving_address b (mkCtx s p) = (Ok a, mkCtx s' p') -> addr_ok a -> appendable p' ->
  zlen (data p') + zlen (binder_wire pr a (stability b)) <= i32_max ->
  write_binder pr (Some b) (mkCtx s p) = (Ok tt, mkCtx s' (binder_written pr a (stability b) p')).
Proof.
  intros E Ha Hp Hl. unfold binder_wire in Hl. rewrite !zlen_app, zlen_to_le in Hl.
  pose proof (addr_wire_len pr a Ha) as Hal. cbn [write_binder].
  rewrite (bind_ok _ _ _ _ _ E). erewrite bind_ok by (by apply on_parcel_ok).
  assert (Hst : 0 <= zlen (if is_android13plus pr then to_le 4 (stability b) else [])) by zlen_lia.
  erewrite bind_ok.
  2: { apply on_parcel_ok, (writes_ok _ _ _ (writes_i32 1) Hp). rewrite zlen_to_le. zlen_lia. }
  set (p1 := appended (to_le 4 1) p'). assert (Hp1 : appendable p1) by (by apply appended_appendable).
  erewrite bind_ok.
  2: { apply on_parcel_ok, (writes_ok _ _ _ (writes_addr pr a Ha) Hp1). cbn. rewrite zlen_app, zlen_to_le. lia. }
  set (p2 := appended (addr_wire pr a) p1).
  assert (Hp2 : appendable p2) by (by apply appended_appendable).
  set (p3 := if records_binder_positions pr then rpc_record_object_position (pos p') p2 else p2).
  erewrite (bind_ok _ _ _ _ (mkCtx s' p3)).
  2: { unfold p3. by destruct (records_binder_positions pr). }
  assert (Hp3 : appendable p3).
  { unfold p3. destruct (records_binder_positions pr); [by apply record_appendable | done]. }
  assert (Hd3 : data p3 = data p2).
  { unfold p3. destruct (records_binder_positions pr); [apply data_record | done]. }
  assert (Hfin : binder_written pr a (stability b) p'
    = appended (if is_android13plus pr then to_le 4 (stability b) else []) p3).
  { unfold binder_written, binder_wire, p3, p2, p1.
    destruct (records_binder_positions pr); rewrite ?record_appended, !appended_app, <- ?app_assoc; done. }
  rewrite Hfin. destruct (is_android13plus pr).
  - apply on_parcel_ok, (writes_ok _ _ _ (writes_i32 _) Hp3). rewrite Hd3. cbn.
    rewrite !zlen_app, !zlen_to_le in *. lia.
  - by rewrite appended_nil.
Qed.

(** Reading a binder's bytes, up to the look-up in the table. *)
Lemma read_binder_at pr a st alive make t q pre post :
  profile_carries pr a -> in_i 32 st -> readable q ->
  nested_read_depth q <= MAX_NESTED_READ_DEPTH ->
  data q = pre ++ binder_wire pr a st ++ post -> pos q = zlen pre ->
  (records_binder_positions pr = true -> rpc_object_position_present (pos q) q = true) ->
  exists q', read_binder pr alive make (mkCtx t q) =
    match lookup_local a t with
    | Some local => (Ok (Some (Home local), None), mkCtx t q')
    | None =>
        let (r, t') := remote_proxy alive a make t in
        (Ok (Some (Proxy a r.1), if r.2 then Some a else None), mkCtx t' q')
    end.
Proof.
  intros Hc Hst Hr Hn Hd Hp Hpos. exists (set_pos (pos q + zlen (binder_wire pr a st)) q).
  unfold binder_wire in *. rewrite <- !app_assoc in Hd. unfold read_binder.
  erewrite bind_ok by (by apply on_parcel_ok).
  pose proof Hr as [Hp0 _].
  erewrite bind_ok by (eapply on_parcel_ok, (decodes_i32 1 0); [done | done | lia | exact Hd | done]).
  rewrite zlen_to_le. change (1 =? 0) with false. change (Z.of_nat 4) with 4. cbv match.
  erewrite bind_ok by reflexivity. cbn [cx_parcel]. change (rpc_object_position_present (pos q) (set_pos (pos q + 4) q))
    with (rpc_object_position_present (pos q) q).
  replace (records_binder_positions pr && negb (rpc_object_position_present (pos q) q)) with false.
  2: { destruct (records_binder_positions pr); [by rewrite Hpos | done]. }
  cbv match. erewrite bind_ok.
  2: { eapply on_parcel_ok, (decodes_addr pr a 0 Hc _ (pre ++ to_le 4 1));
         cbn [data pos set_pos nested_read_depth];
         [apply readable_set_pos; [lia | done] | lia | by rewrite Hd, <- app_assoc
         | rewrite zlen_app, zlen_to_le; lia]. }
  cbn [pos set_pos]. rewrite set_pos_set_pos.
  erewrite (bind_ok _ _ _ tt).
  2: { instantiate (1 := mkCtx t (set_pos (pos q + zlen (to_le 4 1 ++ addr_wire pr a ++
         (if is_android13plus pr then to_le 4 st else []))) q)).
       rewrite !zlen_app, zlen_to_le. change (Z.of_nat 4) with 4. destruct (is_android13plus pr) eqn:E13.
       - erewrite bind_ok.
         2: { eapply on_parcel_ok, (decodes_i32 st 0 Hst _ (pre ++ to_le 4 1 ++ addr_wire pr a));
                cbn [data pos set_pos nested_read_depth];
                [apply readable_set_pos; [zlen_lia | done] | lia | by rewrite Hd, <- !app_assoc
                | rewrite !zlen_app, zlen_to_le; lia]. }
         cbn [pos set_pos]. rewrite set_pos_set_pos. unfold ret. rewrite zlen_to_le. do 3 f_equal. lia.
       - rewrite zlen_nil. unfold ret. do 3 f_equal. lia. }
  erewrite bind_ok by reflexivity. cbn [cx_table]. destruct (lookup_local a t); [done |].
  unfold bind, on_table. cbn [cx_table]. destruct (remote_proxy alive a make t) as [[r b] t']. done.
Qed.

(** An address that leaves is in the table, with the object it was given to. *)
Lemma leave_entry b s a s' :
  state_wf s -> on_binder_leaving b s = (Ok a, s') ->
  (exists n, local_nodes s' !! a = Some n /\ binder_ptr (node_binder n) = binder_ptr b) /\
  exists c, 0 < c <= u32_max /\ a = minted c (space s).
Proof.
  intros Hw E. pose proof (wf_counter s Hw) as Hc. unfold on_binder_leaving in E.
  destruct (local_by_ptr s !! binder_ptr b) as [x |] eqn:Ep.
  - pose proof (proj1 (wf_inverse s Hw _ _) Ep) as (n & En & Hb). rewrite En in E. simplify_eq.
    split; [exists (set_strong n (strong n + 1)); cbn; by rewrite lookup_insert_eq |].
    destruct (wf_minted s Hw _ _ En) as (c & ? & ->). exists c. split; [lia | done].
  - destruct (Z.leb_spec u32_max (addr_counter s)); [done |].
    rewrite unique_minted in E by (unfold in_u, u32_max in *; lia). simplify_eq.
    split; [exists (mkNode b 1 0 []); cbn; by rewrite lookup_insert_eq |].
    exists (addr_counter s + 1). split; [lia | done].
Qed.

(** The peer's table has no address of this side. *)
Lemma foreign_address s c sp :
  state_wf s -> sp <> space s -> 0 < c <= u32_max -> lookup_local (minted c sp) s = None.
Proof.
  intros Hw Hsp Hc. unfold lookup_local.
  destruct (local_nodes s !! minted c sp) as [n |] eqn:En; [| done]. exfalso.
  destruct (wf_minted s Hw _ _ En) as (c' & Hc' & E). pose proof (wf_counter s Hw).
  apply minted_inj in E as [_ E]; unfold in_u, u32_max in *; [done | lia | lia].
Qed.

Definition positions (p : Parcel) : list Z :=
  match rpc p with Some r => object_positions r | None => [] end.

(** The parcel the receiver of [p] builds ([execute_dispatched]), its cursor
    at [n]. *)
Definition delivered (p : Parcel) (n : Z) : Parcel :=
  set_pos n (rpc_set_object_positions (positions p) (configure_rpc FdNone false (from_vec (data p)))).

Lemma present_after_record r x :
  StronglySorted Z.le (object_positions r) -> 0 <= x <= u32_max ->
  object_position_present x (record_object_position x r) = true.
Proof.
  intros Hs Hx. unfold object_position_present. rewrite (proj2 (Z.leb_le _ _)) by lia.
  cbn [object_positions record_object_position].
  rewrite wrap_u_small by (unfold in_u, u32_max in *; simpl; lia).
  apply binary_search_spec; [by apply insert_position_sorted | lia | lia |].
  assert (Hin : x ∈ insert_position x (object_positions r)) by (apply elem_of_insert_position; by left).
  apply list_elem_of_lookup in Hin as [i Hi]. exists i. split; [| done].
  apply lookup_lt_Some in Hi. lia.
Qed.

(** A parcel that can take a binder. *)
Definition sendable_parcel (p : Parcel) : Prop :=
  appendable p /\ is_for_rpc p = true /\ StronglySorted Z.le (positions p) /\
  zlen (data p) + 44 < i32_max.

Lemma delivered_position pr a st p :
  sendable_parcel p -> records_binder_positions pr = true ->
  rpc_object_position_present (pos p) (delivered (binder_written pr a st p) (pos p)) = true.
Proof.
  intros (Ha & Hr & Hs & Hl) Hpr. unfold binder_written. rewrite Hpr.
  unfold delivered, positions, rpc_record_object_position, on_rpc, is_for_rpc in *. cbn in *.
  destruct (rpc p) as [r |] eqn:Er; [| done]. cbn in *. destruct Ha as [_ Hp].
  change (object_position_present (pos p) (record_object_position (pos p) r) = true).
  apply present_after_record; [done |]. unfold i32_max, u32_max in *. zlen_lia.
Qed.

Lemma binder_wire_len pr a st : addr_ok a -> 0 < zlen (binder_wire pr a st) <= 44.
Proof.
  intros Ha. unfold binder_wire. rewrite !zlen_app, zlen_to_le, (addr_wire_len pr a Ha).
  destruct (is_android13plus pr); zlens; lia.
Qed.

Lemma data_written pr a st p : data (binder_written pr a st p) = data p ++ binder_wire pr a st.
Proof.
  unfold binder_written. destruct (records_binder_positions pr); [by rewrite data_record | done].
Qed.

(** Reading back what was just written. *)
Lemma read_delivered pr a st alive make t p :
  profile_carries pr a -> in_i 32 st -> sendable_parcel p ->
  exists q', read_binder pr alive make (mkCtx t (delivered (binder_written pr a st p) (pos p))) =
    match lookup_local a t with
    | Some local => (Ok (Some (Home local), None), mkCtx t q')
    | None =>
        let (r, t') := remote_proxy alive a make t in
        (Ok (Some (Proxy a r.1), if r.2 then Some a else None), mkCtx t' q')
    end.
Proof.
  intros Hc Hst Hp. pose proof Hp as ((_ & Hpos) & _ & _ & Hl).
  pose proof (binder_wire_len pr a st (carries_ok pr a Hc)).
  assert (Hd : data (delivered (binder_written pr a st p) (pos p)) = data p ++ binder_wire pr a st).
  { apply data_written. }
  eapply (read_binder_at pr a st alive make t _ (data p) []); try done.
  - split; [cbn; rewrite Hpos; apply zlen_nonneg |]. rewrite Hd, zlen_app. lia.
  - by rewrite app_nil_r.
  - intros Hpr. exact (delivered_position pr a st p Hp Hpr).
Qed.

(** C23: Objects keep their identity across the wire, on every profile. A local
    binder that is sent arrives at the peer as a proxy under one address; a proxy
    sent back under that address arrives as the very object it stands for. *)
Theorem binder_identity pr so sh l st p alive make :
  state_wf so -> state_wf sh -> space so <> space sh -> addr_counter so < u32_max ->
  in_i 32 st -> sendable_parcel p ->
  exists a so' p',
    write_binder pr (Some (Local l st)) (mkCtx so p) = (Ok tt, mkCtx so' p') /\
    (exists px ex sh' q',
       read_binder pr alive make (mkCtx sh (delivered p' (pos p)))
       = (Ok (Some (Proxy a px), ex), mkCtx sh' q') /\ remote_proxies sh' !! a = Some px) /\
    forall px p2, sendable_parcel p2 ->
      exists p2' home q2,
        write_binder pr (Some (Remote a px st)) (mkCtx sh p2) = (Ok tt, mkCtx sh p2') /\
        read_binder pr alive make (mkCtx so' (delivered p2' (pos p2)))
        = (Ok (Some (Home home), None), mkCtx so' q2) /\ binder_ptr home = binder_ptr l.
Proof.
  intros Hwo Hwh Hsp Hc Hst Hp. pose proof Hp as (Hap & Hrp & Hso & Hlen).
  destruct (on_binder_leaving l so) as [[a | e |] so'] eqn:El.
  2-3: exfalso; unfold on_binder_leaving in El; rewrite (proj2 (Z.leb_gt _ _)) in El by done;
       repeat case_match; by simplify_eq.
  destruct (leave_entry l so a so' Hwo El) as [(n & En & Hb) (c & Hcr & ->)].
  set (a := minted c (space so)) in *.
  assert (Hca : profile_carries pr a).
  { destruct pr; [apply minted_ok |]. right. exists c, (space so). split; [| done].
    unfold in_u, u32_max in *. simpl. lia. }
  pose proof (carries_ok pr a Hca) as Hok. set (p1 := rpc_record_leaving_addr a p).
  assert (Hp1 : sendable_parcel p1 /\ pos p1 = pos p /\ data p1 = data p).
  { unfold p1, rpc_record_leaving_addr, on_rpc, sendable_parcel, positions, is_for_rpc in *.
    destruct (rpc p) as [r |] eqn:Er; [| done]. by cbn. }
  destruct Hp1 as (Hp1 & Epos & Edata).
  pose proof (binder_wire_len pr a st Hok). exists a, so', (binder_written pr a st p1). split_and!.
  - apply write_binder_at; [| done | apply Hp1 | cbn [stability]; destruct Hp1; lia].
    cbn [leaving_address]. unfold bind, on_table. cbn [cx_table cx_parcel]. by rewrite El.
  - rewrite <- Epos. destruct (read_delivered pr a st alive make sh p1 Hca Hst Hp1) as [q' E].
    rewrite (foreign_address sh c (space so) Hwh Hsp Hcr : lookup_local a sh = None) in E.
    destruct (remote_proxy alive a make sh) as [[px b] sh'] eqn:Ex.
    exists px, (if b then Some a else None), sh', q'. split; [exact E |].
    unfold remote_proxy in Ex. repeat case_match; simplify_eq/=; by rewrite ?lookup_insert_eq.
  - intros px p2 Hp2. destruct (read_delivered pr a st alive make so' p2 Hca Hst Hp2) as [q2 E].
    unfold lookup_local in E. rewrite En in E.
    exists (binder_written pr a st p2), (node_binder n), q2. split_and!; [| exact E | done].
    apply (write_binder_at pr (Remote a px st) sh p2 a sh p2); [done | done | apply Hp2 |].
    cbn [stability]. destruct Hp2 as (_ & _ & _ & ?). lia.
Qed.
End Identity.

(** * Concrete sessions *)

Definition empty_rpc_parcel : Parcel := configure_rpc FdNone true (from_vec []).

Definition v2 : WireProfile := ProfileAndroid13Plus (mkA13 2).

Lemma binder_identity_witness :
  exists a so' p',
    @write_binder ptr64 v2 (Some (Local (mkSib 64) 12))
      (mkCtx (state_new Acceptor) empty_rpc_parcel) = (Ok tt, mkCtx so' p') /\
    exists p2' home q2,
      @write_binder ptr64 v2 (Some (Remote a 7 12))
        (mkCtx (state_new Initiator) empty_rpc_parcel) = (Ok tt, mkCtx (state_new Initiator) p2') /\
      @read_binder ptr64 linux_errno v2 (fun _ => true) 7 (mkCtx so' (delivered p2' 0))
      = (Ok (Some (Home home), None), mkCtx so' q2) /\ binder_ptr home = 64.
Proof.
  destruct (@binder_identity ptr64 linux_errno v2 (state_new Acceptor)
              (state_new Initiator) (mkSib 64) 12 empty_rpc_parcel (fun _ => true) 7)
    as (a & so' & p' & E & _ & Hback).
  - apply state_new_wf.
  - apply state_new_wf.
  - discriminate.
  - reflexivity.
  - split; [vm_compute; discriminate | reflexivity].
  - split; [split; reflexivity |]. split; [reflexivity |]. split; [constructor | reflexivity].
  - exists a, so', p'. split; [exact E |]. apply (Hback 7 empty_rpc_parcel).
    split; [split; reflexivity |]. split; [reflexivity |]. split; [constructor | reflexivity].
Defined.
