(* ===== verification/Slots.v ===== *)
(** The connection pool of a session (src/rsbinder/src/rpc/session.rs:
    [ConnSlot], [ConnState], [ConnGuard] and the selectors [find_conn],
    [try_find_conn], [find_conn_for_reaper] and [find_conn_pinned]): which
    thread drives which connection.

    Threads run the operations under the pool's mutex, so an operation is one
    step of a transition system whose state is the pool, each thread's
    [DRIVING] markers and each thread's live guards, innermost first. One pass
    of a selector's loop is modelled: [Park] is the wait on the condition
    variable, which leaves the state as it is. *)

From Stdlib Require Import ZArith Lia.
From stdpp Require Import base functions list.
From S2P Require Import Prelude.

Record ConnSlot : Type := mkSlot { slot_id : Z; exclusive_tid : option Z }.
Record ConnState : Type := mkPool { slots : list ConnSlot; next_slot_id : Z }.

(** A guard also holds the transport, which is the slot's. *)
Record ConnGuard : Type := mkGuard { guard_slot : Z; reentrant : bool }.

Record World : Type := mkWorld {
  pool : ConnState;
  driving : Z -> list (Z * Z);
  guards : Z -> list ConnGuard
}.

Inductive Selected : Type :=
| Claimed (w : World)
| DeadPool
| Park.

(** [slots.iter_mut().find(ok)], with the slot updated by [f]. *)
Fixpoint update_first (ok : ConnSlot -> bool) (f : ConnSlot -> ConnSlot) (l : list ConnSlot)
  : option (ConnSlot * list ConnSlot) :=
  match l with
  | [] => None
  | s :: l =>
      if ok s then Some (s, f s :: l)
      else match update_first ok f l with
           | Some (found, l') => Some (found, s :: l')
           | None => None
           end
  end.

Definition set_tid (t : option Z) (s : ConnSlot) : ConnSlot := mkSlot (slot_id s) t.
Definition free (s : ConnSlot) : bool := bool_decide (exclusive_tid s = None).
Definition mine (tid : Z) (s : ConnSlot) : bool := bool_decide (exclusive_tid s = Some tid).
Definition has_id (id : Z) (s : ConnSlot) : bool := slot_id s =? id.
Definition present (id : Z) (w : World) : bool := existsb (has_id id) (slots (pool w)).

Section Pool.
Context (me : Z).

(** The innermost slot of this session among a thread's markers. *)
Definition reentrant_slot (markers : list (Z * Z)) : option Z :=
  match List.find (fun k => k.1 =? me) (rev markers) with
  | Some k => Some k.2
  | None => None
  end.

Definition push_guard (tid : Z) (g : ConnGuard) (w : World) : World :=
  mkWorld (pool w) (driving w) (<[tid := g :: guards w tid]> (guards w)).

(** A guard on a slot the thread drives already. *)
Definition reenter (tid id : Z) (w : World) : Selected :=
  if present id w then Claimed (push_guard tid (mkGuard id true) w) else DeadPool.

(** The scan for a slot and its claim. *)
Definition claim (ok : ConnSlot -> bool) (tid : Z) (w : World) : option World :=
  match update_first ok (set_tid (Some tid)) (slots (pool w)) with
  | Some (s, slots') =>
      Some (mkWorld (mkPool slots' (next_slot_id (pool w)))
                    (<[tid := driving w tid ++ [(me, slot_id s)]]> (driving w))
                    (<[tid := mkGuard (slot_id s) false :: guards w tid]> (guards w)))
  | None => None
  end.

Definition find_conn (torn_down : bool) (tid : Z) (w : World) : Selected :=
  match reentrant_slot (driving w tid) with
  | Some id => reenter tid id w
  | None =>
      if torn_down || bool_decide (slots (pool w) = []) then DeadPool
      else match claim (fun s => mine tid s || free s) tid w with
           | Some w' => Claimed w'
           | None => Park
           end
  end.

(** The non-blocking selector; [DeadPool] is its [None]. *)
Definition try_find_conn (tid : Z) (w : World) : Selected :=
  match reentrant_slot (driving w tid) with
  | Some id => reenter tid id w
  | None => match claim free tid w with Some w' => Claimed w' | None => DeadPool end
  end.

Definition find_conn_for_reaper (torn_down : bool) (tid : Z) (w : World) : Selected :=
  if torn_down || bool_decide (slots (pool w) = []) then DeadPool
  else match claim (fun s => mine tid s || free s) tid w with
       | Some w' => Claimed w'
       | None => Park
       end.

Definition find_conn_pinned (want_slot_id tid : Z) (w : World) : Selected :=
  if existsb (fun k => (k.1 =? me) && (k.2 =? want_slot_id)) (driving w tid)
  then reenter tid want_slot_id w
  else if negb (present want_slot_id w) then DeadPool
  else match claim (fun s => has_id want_slot_id s && (free s || mine tid s)) tid w with
       | Some w' => Claimed w'
       | None => Park
       end.

(** [v.remove(v.iter().rposition(|k| k == key))]. *)
Fixpoint remove_first (key : Z * Z) (l : list (Z * Z)) : list (Z * Z) :=
  match l with
  | [] => []
  | k :: l => if decide (k = key) then l else k :: remove_first key l
  end.

Definition remove_last (key : Z * Z) (l : list (Z * Z)) : list (Z * Z) :=
  rev (remove_first key (rev l)).

(** [ConnGuard::drop] for the innermost guard of [tid]. *)
Definition drop_guard (tid : Z) (w : World) : World :=
  match guards w tid with
  | [] => w
  | g :: gs =>
      let w := mkWorld (pool w) (driving w) (<[tid := gs]> (guards w)) in
      if reentrant g then w
      else
        let slots' :=
          match update_first (has_id (guard_slot g)) (set_tid None) (slots (pool w)) with
          | Some (_, l) => l
          | None => slots (pool w)
          end in
        mkWorld (mkPool slots' (next_slot_id (pool w)))
                (<[tid := remove_last (me, guard_slot g) (driving w tid)]> (driving w)) (guards w)
  end.

Definition set_pool (p : ConnState) (w : World) : World := mkWorld p (driving w) (guards w).

Definition add_slot_inner (w : World) : Z * World :=
  let p := pool w in
  (next_slot_id p,
   set_pool (mkPool (slots p ++ [mkSlot (next_slot_id p) None]) (next_slot_id p + 1)) w).

Definition add_slot_inner_capped (cap : Z) (w : World) : option Z * World :=
  if cap <=? zlen (slots (pool w)) then (None, w)
  else let (id, w) := add_slot_inner w in (Some id, w).

Definition remove_slot (id : Z) (w : World) : World :=
  set_pool (mkPool (filter (fun s => slot_id s <> id) (slots (pool w))) (next_slot_id (pool w))) w.

(** The threads' steps. Slots are added and retired at any moment, another
    session's selectors move that session's markers only, and the reaper's
    thread selects while it drives nothing. *)
Inductive pool_step (w : World) : World -> Prop :=
| ps_find torn tid w' : find_conn torn tid w = Claimed w' -> pool_step w w'
| ps_try tid w' : try_find_conn tid w = Claimed w' -> pool_step w w'
| ps_reaper torn tid w' :
    guards w tid = [] -> find_conn_for_reaper torn tid w = Claimed w' -> pool_step w w'
| ps_pinned id tid w' : find_conn_pinned id tid w = Claimed w' -> pool_step w w'
| ps_drop tid : pool_step w (drop_guard tid w)
| ps_add : pool_step w (add_slot_inner w).2
| ps_add_capped cap : pool_step w (add_slot_inner_capped cap w).2
| ps_remove id : pool_step w (remove_slot id w)
| ps_other tid l :
    filter (fun k => k.1 = me) l = filter (fun k => k.1 = me) (driving w tid) ->
    pool_step w (mkWorld (pool w) (<[tid := l]> (driving w)) (guards w)).

Inductive pool_reachable : World -> Prop :=
| pr_init : pool_reachable (mkWorld (mkPool [mkSlot 1 None] 2) (fun _ => []) (fun _ => []))
| pr_step w w' : pool_reachable w -> pool_step w w' -> pool_reachable w'.

(** * The invariant *)

(** The slots a thread's guards own, innermost first, and its markers for this
    session, outermost first. *)
Definition claims_of (gs : list ConnGuard) : list Z :=
  guard_slot <$> filter (fun g => reentrant g = false) gs.
Definition marks_of (l : list (Z * Z)) : list Z := snd <$> filter (fun k => k.1 = me) l.

(** A reentrant guard sits inside one that owns the slot. *)
Fixpoint nested (gs : list ConnGuard) : Prop :=
  match gs with
  | [] => True
  | g :: gs => guard_slot g ∈ claims_of (g :: gs) /\ nested gs
  end.

Record pool_inv (w : World) : Prop := mkInv {
  inv_marks : forall t, marks_of (driving w t) = rev (claims_of (guards w t));
  inv_one : forall t1 t2 id,
    id ∈ claims_of (guards w t1) -> id ∈ claims_of (guards w t2) -> t1 = t2;
  inv_once : forall t, NoDup (claims_of (guards w t));
  inv_nested : forall t, nested (guards w t);
  inv_ids : NoDup (slot_id <$> slots (pool w));
  inv_next : forall id,
    id ∈ (slot_id <$> slots (pool w)) \/ (exists t, id ∈ claims_of (guards w t)) ->
    id < next_slot_id (pool w);
  inv_tid : forall s t,
    s ∈ slots (pool w) -> exclusive_tid s = Some t <-> slot_id s ∈ claims_of (guards w t)
}.

Lemma update_first_spec ok f l s l' :
  update_first ok f l = Some (s, l') ->
  exists pre post, l = pre ++ s :: post /\ l' = pre ++ f s :: post /\ ok s = true.
Proof.
  revert l'. induction l as [| x l IH]; intros l' E; simplify_eq/=.
  destruct (ok x) eqn:Ex; simplify_eq.
  - by exists [], l.
  - destruct (update_first ok f l) as [[y m] |]; simplify_eq.
    destruct (IH m eq_refl) as (pre & post & -> & -> & Hs). by exists (x :: pre), post.
Qed.

Lemma update_first_none ok f l : update_first ok f l = None <-> Forall (fun s => ok s = false) l.
Proof.
  induction l as [| x l IH]; simpl; [by split |]. rewrite Forall_cons. destruct (ok x) eqn:Ex.
  - split; [done | by intros [? _]].
  - rewrite <- IH. destruct (update_first ok f l) as [[y m] |]; [| tauto].
    split; [done | by intros [_ ?]].
Qed.

(** The tids after the slot of one id was set: the others keep theirs. *)
Lemma set_tid_elem pre s post t x :
  NoDup (slot_id <$> (pre ++ s :: post)) -> x ∈ pre ++ set_tid t s :: post ->
  x = set_tid t s \/ (x ∈ pre ++ s :: post /\ slot_id x <> slot_id s).
Proof.
  intros Hn Hx. rewrite fmap_app, fmap_cons in Hn. apply NoDup_app in Hn as (_ & Hd & Hn).
  apply NoDup_cons in Hn as [Hs _]. apply elem_of_app in Hx as [Hx | Hx]; [| apply elem_of_cons in Hx as [Hx | Hx]].
  - right. split; [apply elem_of_app; by left |]. intros E.
    apply (Hd (slot_id x)); [by apply list_elem_of_fmap_2 | rewrite E; by left].
  - by left.
  - right. split; [apply elem_of_app; right; by right |]. intros E. apply Hs.
    rewrite <- E. by apply list_elem_of_fmap_2.
Qed.

Lemma set_tid_ids pre s post t :
  slot_id <$> (pre ++ set_tid t s :: post) = slot_id <$> (pre ++ s :: post).
Proof. by rewrite !fmap_app. Qed.

Lemma marks_app l l' : marks_of (l ++ l') = marks_of l ++ marks_of l'.
Proof. unfold marks_of. by rewrite filter_app, fmap_app. Qed.

Lemma marks_one id : marks_of [(me, id)] = [id].
Proof. unfold marks_of. by rewrite filter_cons_True. Qed.

Lemma marks_other k : k.1 <> me -> marks_of [k] = [].
Proof. intros Hk. unfold marks_of. by rewrite filter_cons_False. Qed.

(** The reentrant lookup finds nothing only when the thread owns nothing. *)
Lemma reentrant_slot_spec l :
  match reentrant_slot l with
  | Some id => exists pre, marks_of l = pre ++ [id]
  | None => marks_of l = []
  end.
Proof.
  unfold reentrant_slot. induction l as [| k l IH] using rev_ind; [done |].
  rewrite rev_app_distr. simpl. destruct (Z.eqb_spec k.1 me) as [E | E].
  - exists (marks_of l). rewrite marks_app. destruct k as [a id]. simpl in *. subst a.
    by rewrite marks_one.
  - by rewrite marks_app, marks_other, app_nil_r.
Qed.

Lemma marked_spec l id :
  existsb (fun k => (k.1 =? me) && (k.2 =? id)) l = true <-> id ∈ marks_of l.
Proof.
  unfold marks_of. rewrite existsb_exists, list_elem_of_fmap. split.
  - intros ([a b] & Hin & Hk). simpl in Hk. apply andb_true_iff in Hk as [Ha Hb].
    apply Z.eqb_eq in Ha, Hb. exists (a, b). simpl in *. subst. split; [done |].
    apply list_elem_of_filter. split; [done | by apply list_elem_of_In].
  - intros ([a b] & -> & [Ha Hin]%list_elem_of_filter). exists (a, b). simpl in *. subst.
    rewrite !Z.eqb_refl. split; [by apply list_elem_of_In | done].
Qed.

Lemma claims_cons g gs :
  claims_of (g :: gs) = (if reentrant g then [] else [guard_slot g]) ++ claims_of gs.
Proof.
  unfold claims_of. destruct g as [id []]; [by rewrite filter_cons_False | by rewrite filter_cons_True].
Qed.

Lemma guard_claims gs g : nested gs -> g ∈ gs -> guard_slot g ∈ claims_of gs.
Proof.
  induction gs as [| x gs IH]; [by intros _ ?%elem_of_nil |]. intros [Hx Hn] [-> | Hg]%elem_of_cons; [done |].
  rewrite claims_cons. apply elem_of_app. right. by apply IH.
Qed.

Lemma nested_push g gs : nested gs -> guard_slot g ∈ claims_of (g :: gs) -> nested (g :: gs).
Proof. by split. Qed.

(** The claims of the threads after one of them got a new stack. *)
Lemma claims_insert w tid gs t :
  claims_of ((<[tid := gs]> (guards w)) t) =
  if decide (t = tid) then claims_of gs else claims_of (guards w t).
Proof. destruct (decide (t = tid)) as [-> | Ht]; by rewrite ?fn_lookup_insert, ?fn_lookup_insert_ne. Qed.

(** The invariant sees guards and markers through the claims and marks. *)
Lemma same_claims_inv w w' :
  pool_inv w -> pool w' = pool w ->
  (forall t, marks_of (driving w' t) = marks_of (driving w t)) ->
  (forall t, claims_of (guards w' t) = claims_of (guards w t)) ->
  (forall t, nested (guards w' t)) -> pool_inv w'.
Proof.
  intros [Hm Ho Hc Hn Hi Hx Ht] Ep Em Hk Hn'. split; rewrite ?Ep; try done.
  - intros t. by rewrite Em, Hk.
  - intros t1 t2 i. rewrite !Hk. apply Ho.
  - intros t. by rewrite Hk.
  - intros i [Hin | [t Hin]]; apply Hx; [by left |]. right. exists t. by rewrite Hk in Hin.
  - intros s t Hs. rewrite Hk. by apply Ht.
Qed.

Lemma nested_insert w tid gs :
  pool_inv w -> nested gs -> forall t, nested ((<[tid := gs]> (guards w)) t).
Proof.
  intros Hw Hg t. destruct (decide (t = tid)) as [-> | Hne]; [by rewrite fn_lookup_insert |].
  rewrite fn_lookup_insert_ne by done. apply (inv_nested w Hw).
Qed.

Lemma reenter_inv w tid id w' :
  pool_inv w -> id ∈ claims_of (guards w tid) -> reenter tid id w = Claimed w' -> pool_inv w'.
Proof.
  intros Hw Hid E. unfold reenter in E. case_match; simplify_eq.
  apply (same_claims_inv w); [done | done | done | |]; cbn [guards push_guard].
  - intros t. rewrite claims_insert. destruct (decide (t = tid)) as [-> |]; [by rewrite claims_cons | done].
  - apply nested_insert; [done |]. apply nested_push; [apply (inv_nested w Hw) | by rewrite claims_cons].
Qed.

Lemma claims_push w tid id t i :
  i ∈ claims_of ((<[tid := mkGuard id false :: guards w tid]> (guards w)) t) <->
  (t = tid /\ i = id) \/ i ∈ claims_of (guards w t).
Proof.
  rewrite claims_insert. destruct (decide (t = tid)) as [-> | Hne]; [| tauto].
  rewrite claims_cons. cbn [reentrant guard_slot]. rewrite elem_of_app, list_elem_of_singleton. tauto.
Qed.

(** Claiming a slot the thread does not own yet. *)
Lemma claim_inv ok w tid w' :
  pool_inv w ->
  (forall s, s ∈ slots (pool w) -> ok s = true -> exclusive_tid s = None) ->
  claim ok tid w = Some w' -> pool_inv w'.
Proof.
  intros [Hm Ho Hc Hn Hi Hx Ht] Hfree E. unfold claim in E.
  destruct (update_first ok (set_tid (Some tid)) (slots (pool w))) as [[s l] |] eqn:Eu; simplify_eq.
  destruct (update_first_spec _ _ _ _ _ Eu) as (pre & post & El & -> & Hok).
  assert (Hin : s ∈ slots (pool w)) by (rewrite El; apply elem_of_app; right; by left).
  pose proof (Hfree s Hin Hok) as Hnone.
  assert (Hnew : forall t, slot_id s ∉ claims_of (guards w t)).
  { intros t Hcl. apply (Ht s t Hin) in Hcl. congruence. }
  pose proof (claims_push w tid (slot_id s)) as Hk.
  split; cbn [pool guards driving slots next_slot_id].
  - intros t. rewrite claims_insert. destruct (decide (t = tid)) as [-> | Hne].
    + rewrite fn_lookup_insert, marks_app, marks_one, claims_cons, Hm. cbn [reentrant guard_slot].
      by rewrite rev_app_distr.
    + by rewrite fn_lookup_insert_ne.
  - intros t1 t2 i. rewrite !Hk. intros [[-> ->] | H1] [[-> H2] | H2]; try done.
    + exfalso. by apply (Hnew t2).
    + exfalso. subst i. by apply (Hnew t1).
    + by eapply Ho.
  - intros t. rewrite claims_insert. destruct (decide (t = tid)); [| done]. rewrite claims_cons.
    apply NoDup_cons. split; [apply Hnew | apply Hc].
  - intros t. destruct (decide (t = tid)) as [-> | Hne].
    + rewrite fn_lookup_insert. apply nested_push; [done |]. rewrite claims_cons. by left.
    + by rewrite fn_lookup_insert_ne.
  - rewrite set_tid_ids, <- El. done.
  - intros i. rewrite set_tid_ids, <- El. intros [Hi' | [t Hi']]; [apply Hx; by left |].
    apply Hk in Hi' as [[-> ->] | Hi']; apply Hx; [left; by apply list_elem_of_fmap_2 | right; by exists t].
  - intros x t Hxin. rewrite Hk. rewrite El in Hi.
    destruct (set_tid_elem _ _ _ _ _ Hi Hxin) as [-> | [Hx' Hne]].
    + cbn [set_tid exclusive_tid slot_id]. split; [intros [= ->]; by left |].
      intros [[-> _] | Hc']; [done |]. exfalso. by apply (Hnew t).
    + rewrite <- El in Hx'. rewrite (Ht x t Hx'). tauto.
Qed.

Lemma remove_last_marks l id pre :
  marks_of l = pre ++ [id] -> marks_of (remove_last (me, id) l) = pre.
Proof.
  unfold remove_last. revert pre. induction l as [| k l IH] using rev_ind; intros pre E.
  { by apply app_cons_not_nil in E. }
  rewrite rev_app_distr. cbn [rev app remove_first]. rewrite marks_app in E.
  destruct (decide (k = (me, id))) as [-> | Hk].
  - rewrite rev_involutive. rewrite marks_one in E. by apply app_inj_2 in E as [-> _].
  - cbn [rev]. rewrite marks_app. destruct (decide (k.1 = me)) as [Ek | Ek].
    + destruct k as [a b]. cbn in Ek. subst a. rewrite marks_one in E. by apply app_inj_2 in E as [_ [= ->]].
    + rewrite marks_other in * by done. rewrite app_nil_r in *. by apply IH.
Qed.

(** The claims of the threads after [tid] gave up [id]. *)
Lemma claims_pop w tid id gs t i :
  pool_inv w -> guards w tid = mkGuard id false :: gs ->
  i ∈ claims_of ((<[tid := gs]> (guards w)) t) <-> i ∈ claims_of (guards w t) /\ i <> id.
Proof.
  intros Hw Eg. pose proof (inv_once w Hw tid) as Hn. rewrite Eg, claims_cons in Hn.
  cbn [reentrant guard_slot app] in Hn. apply NoDup_cons in Hn as [Hn _].
  assert (Hid : id ∈ claims_of (guards w tid)) by (rewrite Eg, claims_cons; by left).
  rewrite claims_insert. destruct (decide (t = tid)) as [-> | Hne].
  - rewrite Eg, claims_cons. cbn [reentrant guard_slot]. rewrite elem_of_app, list_elem_of_singleton.
    split; [intros Hi; split; [by right |]; by intros -> | tauto].
  - split; [| by intros [? _]]. intros Hi. split; [done |]. intros ->.
    by apply Hne, (inv_one w Hw t tid id).
Qed.

(** The slots after the one of [id], if it is still there, became free. *)
Lemma release_spec id l :
  NoDup (slot_id <$> l) ->
  let l' := match update_first (has_id id) (set_tid None) l with Some (_, l') => l' | None => l end in
  (slot_id <$> l') = (slot_id <$> l) /\
  forall x, x ∈ l' -> (slot_id x = id /\ exclusive_tid x = None) \/ (x ∈ l /\ slot_id x <> id).
Proof.
  intros Hn. destruct (update_first _ _ l) as [[s l'] |] eqn:E.
  - apply update_first_spec in E as (pre & post & -> & -> & Hs%Z.eqb_eq).
    split; [apply set_tid_ids |]. intros x Hx.
    destruct (set_tid_elem _ _ _ _ _ Hn Hx) as [-> | Hx']; [by left | right; by rewrite <- Hs].
  - apply update_first_none in E. split; [done |]. intros x Hx. right. split; [done |].
    rewrite Forall_forall in E. by apply Z.eqb_neq, E.
Qed.

Lemma drop_inv w tid : pool_inv w -> pool_inv (drop_guard tid w).
Proof.
  intros Hw. unfold drop_guard. destruct (guards w tid) as [| g gs] eqn:Eg; [done |].
  destruct g as [id []]; cbn [reentrant guard_slot pool driving guards].
  { pose proof (inv_nested w Hw tid) as Hg. rewrite Eg in Hg.
    apply (same_claims_inv w); [done | done | done | |]; cbn [guards].
    - intros t. rewrite claims_insert. destruct (decide (t = tid)) as [-> |]; [by rewrite Eg, claims_cons | done].
    - apply nested_insert; [done | apply Hg]. }
  pose proof (fun t i => claims_pop w tid id gs t i Hw Eg) as Hk.
  destruct (release_spec id (slots (pool w)) (inv_ids w Hw)) as [Eids Hel].
  set (l' := match update_first _ _ _ with Some (_, l) => l | None => _ end) in *.
  destruct Hw as [Hm Ho Hc Hn Hi Hx Ht].
  split; cbn [pool guards driving slots next_slot_id].
  - intros t. rewrite claims_insert. destruct (decide (t = tid)) as [-> | Hne]; [| by rewrite fn_lookup_insert_ne].
    rewrite fn_lookup_insert. apply remove_last_marks. by rewrite Hm, Eg, claims_cons.
  - intros t1 t2 i [H1 _]%Hk [H2 _]%Hk. by eapply Ho.
  - intros t. rewrite claims_insert. destruct (decide (t = tid)) as [-> |]; [| done].
    specialize (Hc tid). rewrite Eg, claims_cons in Hc. by apply NoDup_cons in Hc as [_ ?].
  - intros t. destruct (decide (t = tid)) as [-> | Hne]; [| by rewrite fn_lookup_insert_ne].
    rewrite fn_lookup_insert. specialize (Hn tid). rewrite Eg in Hn. by destruct Hn.
  - by rewrite Eids.
  - intros i. rewrite Eids. intros [? | [t [Hi' _]%Hk]]; apply Hx; [by left | right; by exists t].
  - intros x t [[Ex En] | [Hin Hne]]%Hel; rewrite Hk.
    + rewrite En. split; [done | tauto].
    + rewrite (Ht x t Hin). tauto.
Qed.

Lemma add_inv w : pool_inv w -> pool_inv (add_slot_inner w).2.
Proof.
  intros [Hm Ho Hc Hn Hi Hx Ht]. unfold add_slot_inner, set_pool. cbn [snd].
  assert (Hnew : forall t, next_slot_id (pool w) ∉ claims_of (guards w t)).
  { intros t Hin. pose proof (Hx (next_slot_id (pool w)) (or_intror (ex_intro _ t Hin))). lia. }
  split; cbn [pool guards driving slots next_slot_id]; try done.
  - rewrite fmap_app. apply NoDup_app. split_and!; [done | | apply NoDup_singleton].
    intros i Hin ->%list_elem_of_singleton. pose proof (Hx _ (or_introl Hin)). cbn in *. lia.
  - intros i Hin. rewrite fmap_app, elem_of_app in Hin. cbn in Hin.
    rewrite list_elem_of_singleton in Hin.
    destruct Hin as [[Hin | ->] | Hin]; [| lia |].
    + pose proof (Hx i (or_introl Hin)). lia.
    + pose proof (Hx i (or_intror Hin)). lia.
  - intros s t [Hs | ->%list_elem_of_singleton]%elem_of_app; [by apply Ht |]. cbn.
    split; [done | intros Hin; by apply Hnew in Hin].
Qed.

Lemma remove_inv w id : pool_inv w -> pool_inv (remove_slot id w).
Proof.
  intros [Hm Ho Hc Hn Hi Hx Ht]. unfold remove_slot, set_pool.
  assert (Hsub : filter (fun s => slot_id s <> id) (slots (pool w)) `sublist_of` slots (pool w))
    by apply sublist_filter.
  split; cbn [pool guards driving slots next_slot_id]; try done.
  - eapply sublist_NoDup; [exact Hi | by apply fmap_sublist].
  - intros i [Hin | Hin]; apply Hx; [left | by right].
    apply list_elem_of_fmap in Hin as (s & -> & [_ Hs]%list_elem_of_filter).
    by apply list_elem_of_fmap_2.
  - intros s t [_ Hs]%list_elem_of_filter. by apply Ht.
Qed.

(** A thread that finds no marker of its own drives no slot, so the scan of
    [find_conn] for a slot it owns already never hits. *)
Lemma unmarked_scan w tid s :
  pool_inv w -> marks_of (driving w tid) = [] -> s ∈ slots (pool w) ->
  mine tid s || free s = true -> exclusive_tid s = None.
Proof.
  intros Hw Em Hs Hok. unfold mine, free in Hok. apply orb_true_iff in Hok as [Hok | Hok];
    apply bool_decide_eq_true in Hok; [| done].
  apply (inv_tid w Hw s tid Hs) in Hok. rewrite (inv_marks w Hw) in Em.
  apply (f_equal (@rev Z)) in Em. rewrite rev_involutive in Em. rewrite Em in Hok.
  by apply elem_of_nil in Hok.
Qed.

Lemma marked_claim w tid id :
  pool_inv w -> id ∈ marks_of (driving w tid) -> id ∈ claims_of (guards w tid).
Proof. intros Hw. rewrite (inv_marks w Hw), !list_elem_of_In. apply in_rev. Qed.

Lemma reentrant_claim w tid id :
  pool_inv w -> reentrant_slot (driving w tid) = Some id -> id ∈ claims_of (guards w tid).
Proof.
  intros Hw E. pose proof (reentrant_slot_spec (driving w tid)) as H. rewrite E in H.
  destruct H as [pre H]. apply marked_claim; [done |]. rewrite H. apply elem_of_app. right. by left.
Qed.

Lemma pinned_scan w tid id s :
  pool_inv w -> id ∉ marks_of (driving w tid) -> s ∈ slots (pool w) ->
  has_id id s && (free s || mine tid s) = true -> exclusive_tid s = None.
Proof.
  intros Hw Hm Hs [Hid Hok]%andb_true_iff. apply Z.eqb_eq in Hid. subst id.
  apply orb_true_iff in Hok as [Hok | Hok]; apply bool_decide_eq_true in Hok; [done |].
  exfalso. apply Hm. rewrite (inv_marks w Hw), list_elem_of_In, <- in_rev, <- list_elem_of_In.
  by apply (inv_tid w Hw s tid Hs).
Qed.

Lemma pool_step_inv w w' : pool_inv w -> pool_step w w' -> pool_inv w'.
Proof.
  intros Hw [torn tid w1 E | tid w1 E | torn tid w1 Hg E | id tid w1 E | tid | | cap | id | tid l E].
  - unfold find_conn in E. pose proof (reentrant_slot_spec (driving w tid)) as Hr.
    destruct (reentrant_slot (driving w tid)) as [id |] eqn:Er.
    { eapply reenter_inv; [done | by eapply reentrant_claim | done]. }
    repeat case_match; simplify_eq. eapply claim_inv; [done | | done].
    intros s Hs. exact (unmarked_scan w tid s Hw Hr Hs).
  - unfold try_find_conn in E. destruct (reentrant_slot (driving w tid)) as [id |] eqn:Er.
    { eapply reenter_inv; [done | by eapply reentrant_claim | done]. }
    repeat case_match; simplify_eq. eapply claim_inv; [done | | done].
    intros s _ Hok. by apply bool_decide_eq_true in Hok.
  - unfold find_conn_for_reaper in E. repeat case_match; simplify_eq.
    eapply claim_inv; [done | | done]. intros s Hs.
    apply (unmarked_scan w tid s Hw); [| done]. by rewrite (inv_marks w Hw), Hg.
  - unfold find_conn_pinned in E. destruct (existsb _ _) eqn:Em.
    { apply marked_spec in Em. eapply reenter_inv; [done | by apply marked_claim | done]. }
    repeat case_match; simplify_eq. eapply claim_inv; [done | | done].
    intros s Hs. apply (pinned_scan w tid id s Hw); [| done]. by rewrite <- marked_spec, Em.
  - by apply drop_inv.
  - by apply add_inv.
  - unfold add_slot_inner_capped. case_match; [done |]. cbn. by apply (add_inv w).
  - by apply remove_inv.
  - apply (same_claims_inv w); try done; [| apply (inv_nested w Hw)]. intros t. cbn.
    destruct (decide (t = tid)) as [-> | Hne]; [| by rewrite fn_lookup_insert_ne].
    rewrite fn_lookup_insert. unfold marks_of. by rewrite E.
Qed.

Lemma pool_reachable_inv w : pool_reachable w -> pool_inv w.
Proof.
  induction 1 as [| w w' _ IH Hst]; [| by eapply pool_step_inv].
  split; cbn; try done.
  - by intros t1 t2 id ?%elem_of_nil.
  - intros t. constructor.
  - apply NoDup_singleton.
  - intros i [->%list_elem_of_singleton | [t Hin]]; [lia | by apply elem_of_nil in Hin].
  - intros s t ->%list_elem_of_singleton. cbn. split; [done | by intros ?%elem_of_nil].
Qed.

(** A slot in use is used by a thread that owns it. *)
Lemma owned_by w s t :
  pool_inv w -> s ∈ slots (pool w) -> exclusive_tid s = Some t ->
  exists g, g ∈ guards w t /\ guard_slot g = slot_id s.
Proof.
  intros Hw Hs Et. apply (inv_tid w Hw s t Hs) in Et.
  apply list_elem_of_fmap in Et as (g & Eg & [_ Hg]%list_elem_of_filter). by exists g.
Qed.

(** C3: A connection is driven by one thread at a time. Whatever the threads
    select, re-enter, release, add and retire, two guards on one slot belong to
    one thread, so frames of two threads never interleave on a connection; and a
    slot of the pool is free exactly when no guard holds it, so none is lost. *)
Theorem slots_exclusive w :
  pool_reachable w ->
  (forall t1 t2 g1 g2, g1 ∈ guards w t1 -> g2 ∈ guards w t2 ->
     guard_slot g1 = guard_slot g2 -> t1 = t2) /\
  (forall s, s ∈ slots (pool w) ->
     exclusive_tid s = None <-> forall t g, g ∈ guards w t -> guard_slot g <> slot_id s).
Proof.
  intros Hw%pool_reachable_inv.
  pose proof (fun t g H => guard_claims (guards w t) g (inv_nested w Hw t) H) as Hcl. split.
  - intros t1 t2 g1 g2 H1 H2 E. apply (inv_one w Hw t1 t2 (guard_slot g1)); [by apply Hcl |].
    rewrite E. by apply Hcl.
  - intros s Hs. split.
    + intros En t g Hg E. apply Hcl in Hg. rewrite E in Hg. apply (inv_tid w Hw s t Hs) in Hg. congruence.
    + intros Hno. destruct (exclusive_tid s) as [t |] eqn:Et; [| done]. exfalso.
      destruct (owned_by w s t Hw Hs Et) as (g & Hg & E). by apply (Hno t g).
Qed.

(** A thread never waits for itself. [find_conn] parks only when every slot
    of the pool is driven by another thread; with a connection free, or one of
    its own in use, it returns. *)
Theorem find_conn_waits_for_others w torn tid :
  pool_reachable w -> find_conn torn tid w = Park ->
  guards w tid = [] /\
  forall s, s ∈ slots (pool w) ->
    exists t g, t <> tid /\ g ∈ guards w t /\ guard_slot g = slot_id s.
Proof.
  intros Hw%pool_reachable_inv E. unfold find_conn in E.
  pose proof (reentrant_slot_spec (driving w tid)) as Hr.
  destruct (reentrant_slot (driving w tid)) as [id |].
  { unfold reenter in E. by case_match. }
  destruct (torn || _); [done |]. destruct (claim _ tid w) eqn:Ec; [done |]. split.
  - destruct (guards w tid) as [| g gs] eqn:Eg; [done |]. exfalso.
    assert (Hg : guard_slot g ∈ claims_of (guards w tid)).
    { apply guard_claims; [apply (inv_nested w Hw) |]. rewrite Eg. by left. }
    rewrite (inv_marks w Hw) in Hr. apply (f_equal (@rev Z)) in Hr. rewrite rev_involutive in Hr.
    rewrite Hr in Hg. by apply elem_of_nil in Hg.
  - intros s Hs. unfold claim in Ec. destruct (update_first _ _ _) as [[] |] eqn:Eu; [done |].
    apply update_first_none in Eu. rewrite Forall_forall in Eu. specialize (Eu s Hs).
    apply orb_false_iff in Eu as [Em Ef]. apply bool_decide_eq_false in Em, Ef.
    destruct (exclusive_tid s) as [t |] eqn:Et; [| done].
    destruct (owned_by w s t Hw Hs Et) as (g & Hg & E'). exists t, g. split; [congruence | done].
Qed.
End Pool.

(** * A run of two threads on one connection *)

Definition pool_start : World := mkWorld (mkPool [mkSlot 1 None] 2) (fun _ => []) (fun _ => []).
Definition claimed (r : Selected) (w : World) : World := match r with Claimed w => w | _ => w end.

(** Thread 10 claims the slot and re-enters it. *)
Definition pool_busy : World :=
  let w := claimed (find_conn 7 false 10 pool_start) pool_start in
  claimed (find_conn 7 false 10 w) w.

Lemma pool_busy_reachable : pool_reachable 7 pool_busy.
Proof.
  eapply pr_step; [eapply pr_step; [apply pr_init |] |].
  - apply (ps_find 7 _ false 10). reflexivity.
  - apply (ps_find 7 _ false 10). reflexivity.
Qed.

Lemma slots_exclusive_witness :
  guards pool_busy 10 = [mkGuard 1 true; mkGuard 1 false] /\
  exclusive_tid (mkSlot 1 (Some 10)) <> None.
Proof.
  split; [reflexivity |]. intros E.
  refine (proj1 (proj2 (slots_exclusive 7 pool_busy _) (mkSlot 1 (Some 10)) _) E 10 (mkGuard 1 false) _ _).
  - exact pool_busy_reachable.
  - left.
  - right. left.
  - reflexivity.
Defined.

Lemma find_conn_waits_for_others_witness :
  find_conn 7 false 20 pool_busy = Park /\ guards pool_busy 20 = [].
Proof.
  split; [reflexivity |].
  apply (find_conn_waits_for_others 7 pool_busy false 20); [exact pool_busy_reachable | reflexivity].
Defined.
