(* ===== verification/Session.v ===== *)
(** Calls over a session (src/rsbinder/src/rpc/session.rs: [client_transact],
    [send_reply], [dispatch_transact], [dispatch_oneway_ordered],
    [execute_dispatched], [serve_special], [serve_once_on_slot] and the client
    halves of the special transactions).

    A session here has one connection, driven by one thread; Slots.v is the
    choice among several. What the transport does is data of the model: the
    inbox holds what each receive returns, in order, and ends with the peer
    closing; [send_fails] says which sends fail. The user's handlers are an
    argument: a handler is any function of the session, the arguments parcel and
    the reply parcel, so it may call out over the same connection.

    The two loops take their fuel from the messages that remain. A loop that
    ran out of fuel would end in [Panic], which the theorems exclude. *)

From Stdlib Require Import ZArith Lia Strings.Byte.
From stdpp Require Import base gmap list strings sorting.
From S2P Require Import Prelude Errors Address Transport Wire WireAndroid13 Profile RpcState.
From S2P Require Import Parcel ParcelSpec Parcelable Binders.

Definition FLAG_ONEWAY : Z := 1.
Definition b_pack_chars (c1 c2 c3 c4 : Z) : Z :=
  Z.lor (Z.lor (Z.lor (Z.shiftl c1 24) (Z.shiftl c2 16)) (Z.shiftl c3 8)) c4.
Definition PING_TRANSACTION : Z := b_pack_chars 95 80 78 71.
Definition INTERFACE_TRANSACTION : Z := b_pack_chars 95 78 84 70.

(** [ss_live]: the slot is in the pool; [ss_torn_down]: the lifecycle left
    [Live]; [ss_driven]: this thread drives the slot. *)
Record Session : Type := mkSession {
  ss_table : RpcState;
  ss_fd_mode : FdMode;
  ss_inbox : list (RpcResult (list byte * list Z));
  ss_sent : list (list byte * list Z);
  ss_sends : nat;
  ss_live : bool;
  ss_torn_down : bool;
  ss_driven : bool;
  ss_negotiated : Z
}.

Definition with_table (t : RpcState) (s : Session) : Session :=
  mkSession t (ss_fd_mode s) (ss_inbox s) (ss_sent s) (ss_sends s)
            (ss_live s) (ss_torn_down s) (ss_driven s) (ss_negotiated s).
Definition with_fd_mode (m : FdMode) (s : Session) : Session :=
  mkSession (ss_table s) m (ss_inbox s) (ss_sent s) (ss_sends s)
            (ss_live s) (ss_torn_down s) (ss_driven s) (ss_negotiated s).
Definition with_inbox (l : list (RpcResult (list byte * list Z))) (s : Session) : Session :=
  mkSession (ss_table s) (ss_fd_mode s) l (ss_sent s) (ss_sends s)
            (ss_live s) (ss_torn_down s) (ss_driven s) (ss_negotiated s).
Definition with_live (b : bool) (s : Session) : Session :=
  mkSession (ss_table s) (ss_fd_mode s) (ss_inbox s) (ss_sent s) (ss_sends s)
            b (ss_torn_down s) (ss_driven s) (ss_negotiated s).
Definition with_driven (b : bool) (s : Session) : Session :=
  mkSession (ss_table s) (ss_fd_mode s) (ss_inbox s) (ss_sent s) (ss_sends s)
            (ss_live s) (ss_torn_down s) b (ss_negotiated s).
Definition with_negotiated (n : Z) (s : Session) : Session :=
  mkSession (ss_table s) (ss_fd_mode s) (ss_inbox s) (ss_sent s) (ss_sends s)
            (ss_live s) (ss_torn_down s) (ss_driven s) n.

(** The log of sends after one more. *)
Definition log_send (l : list (list byte * list Z)) (s : Session) : Session :=
  mkSession (ss_table s) (ss_fd_mode s) (ss_inbox s) (ss_sent s ++ l) (ss_sends s + 1)
            (ss_live s) (ss_torn_down s) (ss_driven s) (ss_negotiated s).

(** What a handler works on. *)
Record Call : Type := mkCall { call_session : Session; call_reader : Parcel; call_reply : Parcel }.

(** The settings of one end, its objects, its handlers and its transport. *)
Record Endpoint : Type := mkEndpoint {
  profile : WireProfile;
  root : option Binder;
  max_threads : Z;
  rpc_session_id : list Z;
  fd_unix_supported : bool;
  descriptor : SIBinder -> list Z;
  rpc_transact : SIBinder -> Z -> M Call StatusCode unit;
  send_fails : nat -> option RpcError
}.

Definition rpc_object_positions (p : Parcel) : list Z :=
  match rpc p with Some r => object_positions r | None => [] end.
Definition rpc_out_fds (p : Parcel) : list Z :=
  match rpc p with Some r => fds_out r | None => [] end.

(** [Parcel::attach_rpc_ops]. *)
Definition attach_rpc_ops (p : Parcel) : Parcel :=
  let r := default rpc_default (rpc p) in
  set_rpc (Some (mkRpc true (fd_mode r) (fds_out r) (fds_in r) (object_positions r)
                       (record_fd_positions r) (leaving_addrs r))) p.

Section Session.
Context `{PtrWidth} `{ErrnoTable}.

Definition S_ : Type -> Type := M Session StatusCode.

(** ** The connection *)

(** [find_conn] on the one slot, and the guard's drop. The argument of the body
    is [reentrant]. *)
Definition with_conn {A} (body : bool -> S_ A) : S_ A :=
  fun s =>
    if negb (ss_live s) || (negb (ss_driven s) && ss_torn_down s) then (Err StDeadObject, s)
    else
      let (r, s') := body (ss_driven s) (with_driven true s) in
      (r, with_driven (ss_driven s) s').

(** The framing is that of Transport.v and WireAndroid13.v. *)
Definition session_send_msg (ep : Endpoint) (frame : list byte) (fds : list Z) : S_ unit :=
  fun s =>
    let fds := if decide (ss_fd_mode s = FdUnix) then fds else [] in
    match send_fails ep (ss_sends s) with
    | Some e => (Err (status_of_rpc e), log_send [] s)
    | None => (Ok tt, log_send [(frame, fds)] s)
    end.

Definition session_recv_msg (s : Session) : RpcResult (list byte * list Z) * Session :=
  match ss_inbox s with
  | [] => (Err PeerClosed, s)
  | r :: rest =>
      (match r with
       | Ok (frame, fds) => Ok (frame, if decide (ss_fd_mode s = FdUnix) then fds else [])
       | Err e => Err e
       | Panic => Panic
       end, with_inbox rest s)
  end.

Definition send_reply (ep : Endpoint) (st : Z) (body : list byte) (positions fds : list Z)
  : S_ unit :=
  let* frame := lift (map_err status_of_rpc
                        (@encode_reply (codec (profile ep)) (mkReply st body positions))) in
  with_conn (fun _ => session_send_msg ep frame fds).

(** Nothing is sent once the session is torn down. *)
Definition send_dec_strong (ep : Endpoint) (addr : RpcAddress) : S_ unit :=
  fun s =>
    if ss_torn_down s then (Ok tt, s)
    else
      with_conn (fun _ =>
        let* frame := lift (map_err status_of_rpc
                              (@encode_dec_strong (codec (profile ep)) addr)) in
        session_send_msg ep frame []) s.

Definition rollback (reply : Parcel) (s : Session) : Session :=
  with_table (rollback_outgoing reply None (ss_table s)) s.

(** ** Dispatch *)

(** The arguments parcel of an inbound call, and an empty reply. *)
Definition incoming_parcel (ep : Endpoint) (m : FdMode) (body : list byte) (in_fds : list Z)
    (positions : list Z) : Parcel :=
  set_pos 0
    (rpc_set_object_positions positions
       (rpc_set_in_fds in_fds
          (configure_rpc m (records_fd_positions (profile ep)) (from_vec body)))).

Definition empty_reply (ep : Endpoint) (m : FdMode) : Parcel :=
  configure_rpc m (records_fd_positions (profile ep)) parcel_new.

(** The interface token, then the user's handler, whose panic is caught. *)
Definition run_handler (ep : Endpoint) (target : SIBinder) (t : WireTransaction)
    (in_fds : list Z) (s : Session) : outcome StatusCode unit * Call :=
  let reader := incoming_parcel ep (ss_fd_mode s) (txn_data t) in_fds (txn_positions t) in
  let reply := empty_reply ep (ss_fd_mode s) in
  let (r, reader) := consume_rpc_interface_token (descriptor ep target) reader in
  match r with
  | Ok _ =>
      let (r, c) := rpc_transact ep target (code t) (mkCall s reader reply) in
      (match r with Panic => Err StUnknown | r => r end, c)
  | r => (r, mkCall s reader reply)
  end.

(** [execute_dispatched] after the lookup and the control transactions. *)
Definition answer_handler (ep : Endpoint) (oneway : bool) (run : outcome StatusCode unit * Call)
  : outcome StatusCode unit * Session :=
  let (result, c) := run in
  let s := call_session c in
  let reply := call_reply c in
  if oneway then
    match result with Panic => (Panic, s) | _ => (Ok tt, rollback reply s) end
  else
    match result with
    | Ok _ =>
        let (sent, s) := send_reply ep 0 (data reply) (rpc_object_positions reply)
                                    (rpc_out_fds reply) s in
        match sent with
        | Ok _ => (sent, s)
        | _ => (sent, rollback reply s)
        end
    | Err e => send_reply ep (status_to_i32 e) [] [] [] (rollback reply s)
    | Panic => (Panic, s)
    end.

Definition execute_dispatched (ep : Endpoint) (t : WireTransaction) (in_fds : list Z)
    (oneway : bool) : S_ unit :=
  fun s =>
    match lookup_local (address t) (ss_table s) with
    | None =>
        if oneway then (Ok tt, s) else send_reply ep (status_to_i32 StDeadObject) [] [] [] s
    | Some target =>
        if negb oneway && (code t =? INTERFACE_TRANSACTION) then
          match ser string_codec (descriptor ep target) (attach_rpc_ops parcel_new) with
          | (Ok _, reply) =>
              send_reply ep 0 (data reply) (rpc_object_positions reply) [] s
          | (r, _) => (r, s)
          end
        else if negb oneway && (code t =? PING_TRANSACTION) then send_reply ep 0 [] [] [] s
        else answer_handler ep oneway (run_handler ep target t in_fds s)
    end.

(** The oneway calls parked for [addr]. *)
Definition parked (addr : RpcAddress) (s : Session) : nat :=
  match local_nodes (ss_table s) !! addr with
  | Some n => length (async_todo n)
  | None => 0
  end.

Fixpoint drain (ep : Endpoint) (addr : RpcAddress) (fuel : nat)
    (next : option (WireTransaction * list Z)) : S_ unit :=
  match next with
  | None => ret tt
  | Some (t, fds) =>
      match fuel with
      | O => panic
      | S fuel =>
          let* _ := execute_dispatched ep t fds true in
          let* next := (fun s => let (n, t) := advance_and_pop_async addr (ss_table s) in
                                 (Ok n, with_table t s)) in
          drain ep addr fuel next
      end
  end.

Definition dispatch_oneway_ordered (ep : Endpoint) (t : WireTransaction) (in_fds : list Z)
  : S_ unit :=
  fun s =>
    let addr := address t in
    let (d, tab) := dispatch_async_or_enqueue addr (async_number t) t in_fds (ss_table s) in
    let s := with_table tab s in
    let fuel := S (parked addr s + length (ss_inbox s)) in
    match d with
    | Dispatch t fds => drain ep addr fuel (Some (t, fds)) s
    | Enqueued => (Ok tt, s)
    | Drop _ => (Ok tt, s)
    | Terminate _ => (Err StFailedTransaction, s)
    end.

(** ** The special transactions *)

(** [req.read::<i32>()]: a malformed body wants nothing. *)
Definition wants_unix (body : list byte) : bool :=
  match read_i32 (set_pos 0 (from_vec body)) with
  | (Ok v, _) => v =? 1
  | _ => false
  end.

Definition fd_version_ok (ep : Endpoint) : bool :=
  match wire_version (profile ep) with None => true | Some v => PROTOCOL_V1 <=? v end.

Definition agreed_fd_mode (ep : Endpoint) (body : list byte) : FdMode :=
  if wants_unix body && fd_version_ok ep && fd_unix_supported ep then FdUnix else FdNone.

(** The reply to [GET_ROOT], written into [reply]. *)
Definition write_root (ep : Endpoint) : M Ctx StatusCode unit :=
  match root ep with
  | Some b => write_binder (profile ep) (Some b)
  | None => on_parcel (write_i32 0)
  end.

Definition serve_get_root (ep : Endpoint) : S_ unit :=
  fun s =>
    let (r, c) := write_root ep (mkCtx (ss_table s) (attach_rpc_ops parcel_new)) in
    let s := with_table (cx_table c) s in
    let reply := cx_parcel c in
    match r with
    | Ok _ =>
        let (sent, s) := send_reply ep 0 (data reply) (rpc_object_positions reply) [] s in
        match sent with
        | Ok _ => (sent, s)
        | _ => (sent, rollback reply s)
        end
    | r => (r, rollback reply s)
    end.

(** A reply of one value. *)
Definition reply_value (ep : Endpoint) (write : P unit) : S_ unit :=
  let (r, reply) := write parcel_new in
  let* _ := lift r in
  send_reply ep 0 (data reply) [] [].

Definition serve_special (ep : Endpoint) (t : WireTransaction) (oneway : bool) : S_ unit :=
  if oneway then ret tt
  else
    match special_from_code (code t) with
    | Some GetRoot => serve_get_root ep
    | Some GetMaxThreads => reply_value ep (write_i32 (wrap_i 32 (max_threads ep)))
    | Some GetSessionId => reply_value ep (ser_array (uint_array 1) (rpc_session_id ep))
    | Some GetFdMode =>
        let agreed := agreed_fd_mode ep (txn_data t) in
        let* _ := reply_value ep (write_i32 (if decide (agreed = FdUnix) then 1 else 0)) in
        modify (with_fd_mode agreed)
    | None => send_reply ep (status_to_i32 StUnknownTransaction) [] [] []
    end.

Definition is_oneway (flags : Z) : bool := negb (Z.land flags FLAG_ONEWAY =? 0).

Definition dispatch_transact (ep : Endpoint) (t : WireTransaction) (in_fds : list Z) : S_ unit :=
  let oneway := is_oneway (flags t) in
  if is_zero (address t) then serve_special ep t oneway
  else if oneway then dispatch_oneway_ordered ep t in_fds
  else execute_dispatched ep t in_fds false.

Definition apply_dec_strong (a : RpcAddress) (amount : Z) : S_ unit :=
  modify (fun s => with_table (snd (dec_strong_local a amount (ss_table s))) s).

(** [Ok false]: the peer closed. *)
Definition serve_once_on_slot (ep : Endpoint) : S_ bool :=
  with_conn (fun _ s =>
    let (got, s) := session_recv_msg s in
    match got with
    | Err PeerClosed => (Ok false, s)
    | Err e => (Err (status_of_rpc e), s)
    | Panic => (Panic, s)
    | Ok (frame, in_fds) =>
        match map_err status_of_rpc (@decode_message (codec (profile ep)) frame) with
        | Err e => (Err e, s)
        | Panic => (Panic, s)
        | Ok (Transact t) => (let* _ := dispatch_transact ep t in_fds in ret true) s
        | Ok (DecStrong a amount) => (let* _ := apply_dec_strong a amount in ret true) s
        | Ok (Reply _) => (Ok true, s)
        end
    end).

(** ** The client *)

Definition poison_slot (reentrant : bool) (s : Session) : Session :=
  if reentrant then s else with_live false s.

(** The reply parcel of a call. *)
Definition reply_parcel (ep : Endpoint) (s : Session) (r : WireReply) (in_fds : list Z) : Parcel :=
  incoming_parcel ep (ss_fd_mode s) (reply_data r) in_fds (reply_positions r).

(** The wait for the reply. *)
Fixpoint client_wait (ep : Endpoint) (reentrant : bool) (fuel : nat) : S_ (option Parcel) :=
  fun s =>
    match fuel with
    | O => (Panic, s)
    | S fuel =>
        let (got, s) := session_recv_msg s in
        match got with
        | Err e => (Err (status_of_rpc e), poison_slot reentrant s)
        | Panic => (Panic, s)
        | Ok (frame, in_fds) =>
            match map_err status_of_rpc (@decode_message (codec (profile ep)) frame) with
            | Err e => (Err e, poison_slot reentrant s)
            | Panic => (Panic, s)
            | Ok (Reply r) =>
                if negb (status r =? 0) then (Err (status_of_i32 (status r)), s)
                else (Ok (Some (reply_parcel ep s r in_fds)), s)
            | Ok (DecStrong a amount) =>
                (let* _ := apply_dec_strong a amount in client_wait ep reentrant fuel) s
            | Ok (Transact t) =>
                let (r, s) := dispatch_transact ep t in_fds s in
                match r with
                | Ok _ => client_wait ep reentrant fuel s
                | Err e => (Err e, poison_slot reentrant s)
                | Panic => (Panic, s)
                end
            end
        end
    end.

(** The request of a call. *)
Definition request (addr : RpcAddress) (code flags async : Z) (args : Parcel) : WireTransaction :=
  mkTxn addr code flags async (data args) (rpc_object_positions args).

Definition client_transact (ep : Endpoint) (addr : RpcAddress) (code : Z) (args : Parcel)
    (flags : Z) : S_ (option Parcel) :=
  with_conn (fun reentrant s =>
    let oneway := is_oneway flags in
    let (async, s) :=
      if oneway then
        let (n, t) := next_send_async_number addr (ss_table s) in (n, with_table t s)
      else (0, s) in
    let undo s :=
      with_table (rollback_outgoing args (if oneway then Some (addr, async) else None)
                                    (ss_table s)) s in
    match map_err status_of_rpc
            (@encode_transact (codec (profile ep)) (request addr code flags async args)) with
    | Err e => (Err e, undo s)
    | Panic => (Panic, s)
    | Ok frame =>
        let (sent, s) := session_send_msg ep frame (rpc_out_fds args) s in
        match sent with
        | Ok _ =>
            if oneway then (Ok None, s)
            else client_wait ep reentrant (S (length (ss_inbox s))) s
        | Err e => (Err e, undo s)
        | Panic => (Panic, s)
        end
    end).

(** A special transaction and the value its reply holds. *)
Definition special_call {A} (ep : Endpoint) (sp : SpecialTransaction) (args : Parcel) (read : P A)
  : S_ A :=
  let* reply := client_transact ep addr_zero (special_code sp) args 0 in
  match reply with
  | None => throw StUnexpectedNull
  | Some reply => lift (fst (read reply))
  end.

Definition get_session_id (ep : Endpoint) : S_ (list Z) :=
  special_call ep GetSessionId parcel_new (de (vec_codec (uint_array 1))).

Definition negotiate (ep : Endpoint) (local_max : Z) : S_ Z :=
  let* remote := special_call ep GetMaxThreads parcel_new read_i32 in
  if remote <? 1 then throw StBadValue
  else
    let negotiated := Z.max (Z.min local_max remote) 1 in
    let* _ := modify (with_negotiated negotiated) in
    ret negotiated.

(** The duplicate reference of a known proxy goes back at once. *)
Definition get_root (ep : Endpoint) (alive : Z -> bool) (make : Z) : S_ Arrived :=
  let* reply := client_transact ep addr_zero (special_code GetRoot) parcel_new 0 in
  match reply with
  | None => throw StUnexpectedNull
  | Some reply =>
      fun s =>
        let (r, c) := read_binder (profile ep) alive make (mkCtx (ss_table s) reply) in
        let s := with_table (cx_table c) s in
        match r with
        | Ok (sib, excess) =>
            let s := match excess with
                     | Some addr => snd (send_dec_strong ep addr s)
                     | None => s
                     end in
            (match sib with Some b => Ok b | None => Err StUnexpectedNull end, s)
        | Err e => (Err e, s)
        | Panic => (Panic, s)
        end
  end.

Definition negotiate_fd_transport (ep : Endpoint) (want : FdMode) : S_ FdMode :=
  let (r, req) := write_i32 (if decide (want = FdUnix) then 1 else 0) parcel_new in
  let* _ := lift r in
  let* v := special_call ep GetFdMode req read_i32 in
  let agreed := if v =? 1 then FdUnix else FdNone in
  let* _ := modify (with_fd_mode agreed) in
  ret agreed.
End Session.
