(* ===== verification/SessionSpec.v ===== *)
(** What a session promises its callers: the theorems about Session.v. One
    reply per call and none for a oneway call; a caller gets what the handler
    answered; references of an undelivered reply come back; descriptors travel
    only where both ends agreed; a connection is given up exactly when it may
    be out of step. *)

From Stdlib Require Import ZArith Lia Strings.Byte.
From stdpp Require Import base gmap list strings sorting.
From S2P Require Import Prelude Errors Address Transport Wire WireAndroid13 Profile RpcState.
From S2P Require Import Parcel ParcelSpec Parcelable Binders Session.

Section Spec.
Context `{PtrWidth} `{ErrnoLaws}.

(** * The connection *)

Definition usable (s : Session) : Prop :=
  ss_live s = true /\ (ss_driven s = true \/ ss_torn_down s = false).

Lemma with_conn_usable {A} (body : bool -> S_ A) s :
  usable s ->
  with_conn body s =
  let (r, s') := body (ss_driven s) (with_driven true s) in (r, with_driven (ss_driven s) s').
Proof.
  intros [Hl Hd]. unfold with_conn. rewrite Hl.
  replace (negb (ss_driven s) && ss_torn_down s) with false; [done |].
  destruct Hd as [-> | ->]; [done | by rewrite andb_false_r].
Qed.

Lemma with_conn_cases {A} (body : bool -> S_ A) s :
  with_conn body s = (Err StDeadObject, s) \/
  with_conn body s =
  let (r, s') := body (ss_driven s) (with_driven true s) in (r, with_driven (ss_driven s) s').
Proof. unfold with_conn. destruct (_ || _); [by left | by right]. Qed.

(** The descriptors that travel in a mode. *)
Definition carried (m : FdMode) (fds : list Z) : list Z := if decide (m = FdUnix) then fds else [].

Lemma carried_nil m : carried m [] = [].
Proof. unfold carried. by destruct (decide _). Qed.

Lemma driven_log l s : with_driven (ss_driven s) (log_send l (with_driven true s)) = log_send l s.
Proof. by destruct s. Qed.

Lemma driven_id s : with_driven (ss_driven s) (with_driven true s) = s.
Proof. by destruct s. Qed.

(** A reply is sent whole or not at all. *)
Lemma send_reply_cases ep st body positions fds s :
  (exists f, send_reply ep st body positions fds s
             = (Ok tt, log_send [(f, carried (ss_fd_mode s) fds)] s) /\
             @encode_reply (codec (profile ep)) (mkReply st body positions) = Ok f) \/
  (exists r s', send_reply ep st body positions fds s = (r, s') /\ r <> Ok tt /\
                (s' = s \/ s' = log_send [] s)).
Proof.
  unfold send_reply. destruct (encode_reply _) as [f | e |] eqn:Ee.
  - erewrite bind_ok by reflexivity.
    destruct (with_conn_cases (fun _ => session_send_msg ep f fds) s) as [-> | ->].
    { right. eexists _, _. split; [done |]. split; [done | by left]. }
    unfold session_send_msg. cbn [ss_fd_mode ss_sends with_driven].
    destruct (send_fails ep (ss_sends s)) as [e |].
    + right. eexists _, _. split; [done |]. split; [done | right]. apply driven_log.
    + left. exists f. split; [| done]. by rewrite driven_log.
  - right. eexists _, _. split; [reflexivity |]. split; [done | by left].
  - right. eexists _, _. split; [reflexivity |]. split; [done | by left].
Qed.

Lemma send_reply_ok ep st body positions fds f s :
  usable s -> send_fails ep (ss_sends s) = None ->
  @encode_reply (codec (profile ep)) (mkReply st body positions) = Ok f ->
  send_reply ep st body positions fds s = (Ok tt, log_send [(f, carried (ss_fd_mode s) fds)] s).
Proof.
  intros Hu Hs Ee. unfold send_reply. rewrite Ee. erewrite bind_ok by reflexivity.
  rewrite with_conn_usable by done. unfold session_send_msg. cbn [ss_fd_mode ss_sends with_driven].
  rewrite Hs. by rewrite driven_log.
Qed.

(** * One reply per call *)

(** Handlers may send messages of their own (calls they make back to the peer,
    reference drops): [P] holds of each of them. *)
Definition said (P : list byte * list Z -> Prop) (s s' : Session) : Prop :=
  exists own, Forall P own /\ ss_sent s' = ss_sent s ++ own.

Definition speaks (P : list byte * list Z -> Prop) (ep : Endpoint) : Prop :=
  forall b cd c r c', rpc_transact ep b cd c = (r, c') -> said P (call_session c) (call_session c').

Lemma said_same P s s' : ss_sent s' = ss_sent s -> said P s s'.
Proof. intros E. exists []. by rewrite E, app_nil_r. Qed.

Lemma said_trans P s1 s2 s3 : said P s1 s2 -> said P s2 s3 -> said P s1 s3.
Proof.
  intros (l1 & F1 & E1) (l2 & F2 & E2). exists (l1 ++ l2). rewrite E2, E1, app_assoc.
  split; [by apply Forall_app | done].
Qed.

(** What a dispatch did to the log of sends, next to what the handlers sent. *)
Definition answered (P : list byte * list Z -> Prop) (ep : Endpoint) (s : Session)
  (out : outcome StatusCode unit * Session) : Prop :=
  match out with
  | (Ok _, s') => exists own reply f fds, Forall P own /\ ss_sent s' = ss_sent s ++ own ++ [(f, fds)] /\
                    @encode_reply (codec (profile ep)) reply = Ok f
  | (_, s') => said P s s'
  end.

Lemma send_reply_answered P ep st body positions fds s0 s :
  said P s0 s -> answered P ep s0 (send_reply ep st body positions fds s).
Proof.
  intros (own & Ho & E). destruct (send_reply_cases ep st body positions fds s)
    as [(f & -> & Ef) | (r & s' & -> & Hr & Hs)].
  - exists own, (mkReply st body positions), f, (carried (ss_fd_mode s) fds). cbn.
    by rewrite E, app_assoc.
  - destruct r as [[] | |]; [done | |]; exists own; destruct Hs as [-> | ->]; cbn; by rewrite ?app_nil_r.
Qed.

Lemma run_handler_said P ep target t fds s r c :
  speaks P ep -> run_handler ep target t fds s = (r, c) -> said P s (call_session c).
Proof.
  intros Hq. unfold run_handler. destruct (consume_rpc_interface_token _ _) as [[[] | |] rd];
    [| by intros [= <- <-]; apply said_same | by intros [= <- <-]; apply said_same].
  destruct (rpc_transact _ _ _ _) as [r' c'] eqn:E. intros [= _ <-]. apply (Hq _ _ _ _ _ E).
Qed.

Lemma answer_handler_twoway P ep s0 run :
  said P s0 (call_session run.2) -> answered P ep s0 (answer_handler ep false run).
Proof.
  destruct run as [[[] | e |] c]; cbn [snd]; intros E; unfold answer_handler; cbv zeta.
  - pose proof (send_reply_answered P ep 0 (data (call_reply c)) (rpc_object_positions (call_reply c))
                  (rpc_out_fds (call_reply c)) s0 (call_session c) E) as Ha.
    by destruct (send_reply _ _ _ _ _ _) as [[[] | |] s'].
  - by apply send_reply_answered.
  - done.
Qed.

Lemma answered_here P ep st body positions fds s :
  answered P ep s (send_reply ep st body positions fds s).
Proof. by apply send_reply_answered, said_same. Qed.

Lemma execute_twoway P ep t fds s :
  speaks P ep -> answered P ep s (execute_dispatched ep t fds false s).
Proof.
  intros Hq. unfold execute_dispatched. destruct (lookup_local _ _) as [target |];
    [| by apply answered_here].
  cbn [negb andb]. destruct (_ =? INTERFACE_TRANSACTION).
  { destruct (ser _ _ _) as [[[] | |] reply];
      [by apply answered_here | by apply said_same | by apply said_same]. }
  destruct (_ =? PING_TRANSACTION); [by apply answered_here |].
  apply answer_handler_twoway. destruct (run_handler _ _ _ _ _) as [r c] eqn:E. cbn.
  by eapply run_handler_said.
Qed.

Lemma execute_oneway P ep t fds s :
  speaks P ep -> said P s (execute_dispatched ep t fds true s).2.
Proof.
  intros Hq. unfold execute_dispatched.
  destruct (lookup_local _ _) as [target |]; [| by apply said_same].
  cbn [negb andb]. destruct (run_handler _ _ _ _ _) as [r c] eqn:E.
  apply (run_handler_said P) in E; [| done]. unfold answer_handler. by destruct r.
Qed.

Lemma drain_said P ep addr fuel next s :
  speaks P ep -> said P s (drain ep addr fuel next s).2.
Proof.
  intros Hq. revert next s.
  induction fuel as [| fuel IH]; intros [[t fds] |] s; try by apply said_same.
  cbn [drain]. pose proof (execute_oneway P ep t fds s Hq) as E. unfold bind.
  destruct (execute_dispatched ep t fds true s) as [[[] | |] s1]; cbn in E; [| done | done].
  destruct (advance_and_pop_async _ _) as [n tab]. eapply said_trans; [exact E |].
  eapply said_trans; [| apply IH]. by apply said_same.
Qed.

Lemma reply_value_answered P ep w s : answered P ep s (reply_value ep w s).
Proof.
  unfold reply_value.
  destruct (w parcel_new) as [[[] | |] reply]; [| by apply said_same | by apply said_same].
  erewrite bind_ok by reflexivity. by apply answered_here.
Qed.

Lemma serve_special_twoway P ep t s : answered P ep s (serve_special ep t false s).
Proof.
  unfold serve_special. destruct (special_from_code (code t)) as [[] |].
  - unfold serve_get_root.
    destruct (write_root _ _) as [[[] | |] c]; [| by apply said_same | by apply said_same].
    pose proof (send_reply_answered P ep 0 (data (cx_parcel c)) (rpc_object_positions (cx_parcel c))
                  [] s (with_table (cx_table c) s) (said_same P s (with_table (cx_table c) s) eq_refl)) as Ha.
    by destruct (send_reply _ _ _ _ _ _) as [[[] | |] s'].
  - apply reply_value_answered.
  - apply reply_value_answered.
  - unfold bind. pose proof (reply_value_answered P ep
      (write_i32 (if decide (agreed_fd_mode ep (txn_data t) = FdUnix) then 1 else 0)) s) as Ha.
    by destruct (reply_value _ _ _) as [[[] | |] s'].
  - by apply answered_here.
Qed.

(** C21: Every call is answered exactly once. Handlers may send messages of their
    own, and [P] is whatever holds of each message a handler sends; next to those
    messages, a twoway transaction that is dispatched puts exactly one message on
    the connection, a reply, after them; if the dispatch fails it puts none; and a
    oneway transaction, with all the parked ones it releases, puts none. With
    handlers that send nothing ([P] never holds) the reply is the only message. *)
Theorem one_reply_per_call P ep t fds s :
  speaks P ep ->
  let out := dispatch_transact ep t fds s in
  if is_oneway (flags t) then said P s out.2 else answered P ep s out.
Proof.
  intros Hq out. unfold out, dispatch_transact. destruct (is_oneway (flags t)).
  - destruct (is_zero (address t)); [by apply said_same |]. unfold dispatch_oneway_ordered.
    destruct (dispatch_async_or_enqueue _ _ _ _ _) as [[] tab]; try by apply said_same.
    eapply said_trans; [| by apply drain_said]. by apply said_same.
  - destruct (is_zero (address t)); [apply serve_special_twoway | by apply execute_twoway].
Qed.

(** * References of an undelivered reply *)

(** What handlers do to the counts besides writing their reply: nested calls,
    binders they receive or give back. [others] is any preorder on tables that
    looks at the counts only. *)
Class CountOrder (others : relation RpcState) : Prop := {
  count_preorder :: PreOrder others;
  count_only t t' : (forall a, strong_of a t' = strong_of a t) -> others t t'
}.

Definition same_counts : relation RpcState := fun t t' => forall a, strong_of a t' = strong_of a t.

#[export] Instance same_counts_order : CountOrder same_counts.
Proof.
  split; [split |]; [done | | done]. intros t1 t2 t3 E1 E2 a. by rewrite E2, E1.
Qed.

(** The handlers change the table by [others], and by the binders they write into
    their reply, which the reply's notes name; they only add to the log of sends. *)
Definition accounts (others : relation RpcState) (ep : Endpoint) : Prop :=
  forall b cd c r c' s0,
    state_wf s0 ->
    owes s0 (mkCtx (ss_table (call_session c)) (call_reply c)) ->
    rpc_transact ep b cd c = (r, c') ->
    (exists s1, state_wf s1 /\ others s0 s1 /\
                owes s1 (mkCtx (ss_table (call_session c')) (call_reply c'))) /\
    ss_sent (call_session c) `prefix_of` ss_sent (call_session c').

Section Accounts.
Context (others : relation RpcState) `{!CountOrder others}.

Definition settled (s s' : Session) : Prop :=
  state_wf (ss_table s') /\ others (ss_table s) (ss_table s').

(** A reply with a result went out, as the last message. *)
Definition delivered_result (ep : Endpoint) (s s' : Session) : Prop :=
  exists own f fds body positions, ss_sent s' = ss_sent s ++ own ++ [(f, fds)] /\
    @encode_reply (codec (profile ep)) (mkReply 0 body positions) = Ok f.

Lemma settled_trans s1 s2 s3 : settled s1 s2 -> settled s2 s3 -> settled s1 s3.
Proof. intros [_ E1] [Hw E2]. split; [done |]. by etrans. Qed.

Lemma settled_counts s s' :
  state_wf (ss_table s') -> (forall a, strong_of a (ss_table s') = strong_of a (ss_table s)) ->
  settled s s'.
Proof. intros Hw E. split; [done | by apply count_only]. Qed.

Lemma settled_table s s' : state_wf (ss_table s) -> ss_table s' = ss_table s -> settled s s'.
Proof. intros Hw E. apply settled_counts; by rewrite E. Qed.

Lemma send_reply_table ep st body positions fds s :
  ss_table (send_reply ep st body positions fds s).2 = ss_table s.
Proof.
  destruct (send_reply_cases ep st body positions fds s) as [(f & -> & _) | (r & s' & -> & _ & Hs)];
    [done |]. by destruct Hs as [-> | ->].
Qed.

Lemma settled_reply ep st body positions fds s0 s :
  settled s0 s -> settled s0 (send_reply ep st body positions fds s).2.
Proof. intros [Hw Hc]. unfold settled. rewrite send_reply_table. by split. Qed.

(** The table is [others] away from [t0], apart from what the reply names. *)
Definition runs_on (t0 : RpcState) (s : Session) (reply : Parcel) : Prop :=
  exists t1, state_wf t1 /\ others t0 t1 /\ owes t1 (mkCtx (ss_table s) reply).

Lemma runs_on_owes t0 s reply :
  state_wf t0 -> owes t0 (mkCtx (ss_table s) reply) -> runs_on t0 s reply.
Proof. intros Hw Ho. by exists t0. Qed.

Lemma settled_rollback s0 s p : runs_on (ss_table s0) s p -> settled s0 (rollback p s).
Proof.
  intros (t1 & Hw & Ht & Ho). destruct (rollback_restores _ _ _ Hw Ho) as [Hw' E].
  split; [done |]. etrans; [exact Ht |]. by apply count_only.
Qed.

(** A reply that is sent delivers its references; otherwise they come back. *)
Lemma reply_or_rollback ep s0 s reply fds :
  ss_sent s0 `prefix_of` ss_sent s -> runs_on (ss_table s0) s reply ->
  let (sent, s') := send_reply ep 0 (data reply) (rpc_object_positions reply) fds s in
  match sent with
  | Ok _ => delivered_result ep s0 s'
  | _ => settled s0 (rollback reply s')
  end.
Proof.
  intros [own Es] Ho.
  destruct (send_reply_cases ep 0 (data reply) (rpc_object_positions reply) fds s)
    as [(f & -> & Ef) | (r & s' & -> & Hr & Hs)].
  - eexists own, f, _, _, _. cbn. by rewrite Es, app_assoc.
  - destruct r as [[] | |]; [done | |]; destruct Hs as [-> | ->]; by apply settled_rollback.
Qed.

Lemma run_handler_accounts ep target t fds s r c :
  accounts others ep -> state_wf (ss_table s) -> run_handler ep target t fds s = (r, c) ->
  runs_on (ss_table s) (call_session c) (call_reply c) /\
  ss_sent s `prefix_of` ss_sent (call_session c).
Proof.
  intros Hh Hw. unfold run_handler.
  assert (Ho : owes (ss_table s) (mkCtx (ss_table s) (empty_reply ep (ss_fd_mode s)))).
  { by apply owes_empty. }
  destruct (consume_rpc_interface_token _ _) as [[[] | |] rd];
    [| by intros [= <- <-]; split; [apply runs_on_owes |] ..].
  destruct (rpc_transact _ _ _ _) as [r' c'] eqn:E. intros [= _ <-].
  by apply (Hh _ _ (mkCall s rd _) _ _ (ss_table s) Hw Ho E).
Qed.

Lemma run_handler_panic ep target t fds s c :
  run_handler ep target t fds s = (Panic, c) -> call_session c = s.
Proof.
  unfold run_handler. destruct (consume_rpc_interface_token _ _) as [[[] | |] rd];
    [| by intros [= <-] | by intros [= <-]].
  by destruct (rpc_transact _ _ _ _) as [[] c'].
Qed.

Lemma answer_handler_settled ep oneway s0 r c :
  state_wf (ss_table s0) -> ss_sent s0 `prefix_of` ss_sent (call_session c) ->
  (r = Panic -> call_session c = s0) -> runs_on (ss_table s0) (call_session c) (call_reply c) ->
  let s' := (answer_handler ep oneway (r, c)).2 in
  settled s0 s' \/ (oneway = false /\ delivered_result ep s0 s').
Proof.
  intros Hw Es Hr Ho. unfold answer_handler. destruct oneway.
  { left. destruct r as [[] | |]; [by apply settled_rollback | by apply settled_rollback |].
    rewrite Hr by done. by apply settled_table. }
  destruct r as [[] | e |]; [| left; by apply settled_reply, settled_rollback |].
  2: { left. cbn. rewrite Hr by done. by apply settled_table. }
  pose proof (reply_or_rollback ep s0 (call_session c) (call_reply c)
                (rpc_out_fds (call_reply c)) Es Ho) as Hs.
  destruct (send_reply _ _ _ _ _ _) as [[[] | |] s']; [by right | by left | by left].
Qed.

Lemma execute_settled ep t fds oneway s :
  accounts others ep -> state_wf (ss_table s) ->
  let s' := (execute_dispatched ep t fds oneway s).2 in
  settled s s' \/ (oneway = false /\ delivered_result ep s s').
Proof.
  intros Hh Hw. pose proof (settled_table s s Hw eq_refl) as Hs. unfold execute_dispatched.
  destruct (lookup_local _ _) as [target |].
  2: { left. destruct oneway; [done | by apply settled_reply]. }
  destruct (negb oneway && _).
  { left. destruct (ser _ _ _) as [[[] | |] reply]; [by apply settled_reply | done | done]. }
  destruct (negb oneway && _); [left; by apply settled_reply |].
  destruct (run_handler _ _ _ _ _) as [r c] eqn:E.
  destruct (run_handler_accounts _ _ _ _ _ _ _ Hh Hw E) as [Ho Hl].
  apply answer_handler_settled; [done | done | | done].
  intros ->. by eapply run_handler_panic.
Qed.

(** Ordering a oneway call changes no count. *)
Lemma strong_of_set_async addr s n next todo a :
  local_nodes s !! addr = Some n ->
  strong_of a (set_nodes s (<[addr := set_async n next todo]> (local_nodes s))) = strong_of a s.
Proof.
  intros En. unfold strong_of. cbn. destruct (decide (a = addr)) as [-> | Hne].
  - by rewrite lookup_insert_eq, En.
  - by rewrite lookup_insert_ne.
Qed.

Lemma strong_of_advance addr s a :
  strong_of a (advance_and_pop_async addr s).2 = strong_of a s.
Proof.
  unfold advance_and_pop_async. destruct (local_nodes s !! addr) as [n |] eqn:En; [| done].
  repeat case_match; by apply strong_of_set_async.
Qed.

Lemma strong_of_arrive addr n t fds s a :
  strong_of a (dispatch_async_or_enqueue addr n t fds s).2 = strong_of a s.
Proof.
  unfold dispatch_async_or_enqueue. destruct (local_nodes s !! addr) as [m |] eqn:En; [| done].
  repeat case_match; first [done | by apply strong_of_set_async].
Qed.

Lemma drain_settled ep addr fuel next s :
  accounts others ep -> state_wf (ss_table s) -> settled s (drain ep addr fuel next s).2.
Proof.
  intros Hh. revert next s. induction fuel as [| fuel IH]; intros [[t fds] |] s Hw;
    try by apply settled_table.
  cbn [drain]. unfold bind.
  destruct (execute_settled ep t fds true s Hh Hw) as [Hs | [? _]]; [| done].
  destruct (execute_dispatched ep t fds true s) as [[[] | |] s1]; cbn in Hs; [| done | done].
  pose proof (wf_advance addr (ss_table s1) (proj1 Hs)) as Hw'.
  pose proof (strong_of_advance addr (ss_table s1)) as Hc.
  destruct (advance_and_pop_async addr (ss_table s1)) as [n tab].
  eapply settled_trans; [exact Hs |]. eapply settled_trans; [| by apply IH]. by apply settled_counts.
Qed.

Lemma get_root_settled ep s :
  state_wf (ss_table s) ->
  let s' := (serve_get_root ep s).2 in settled s s' \/ delivered_result ep s s'.
Proof.
  intros Hw. unfold serve_get_root.
  assert (Ho : owes (ss_table s) (mkCtx (ss_table s) (attach_rpc_ops parcel_new)))
    by by apply owes_empty.
  destruct (write_root ep _) as [r c] eqn:E.
  assert (Hc : owes (ss_table s) (mkCtx (ss_table (with_table (cx_table c) s)) (cx_parcel c))).
  { destruct c as [tab q]. unfold write_root in E. destruct (root ep).
    - by eapply owes_write_binder.
    - eapply owes_parcel; [| exact Ho | exact E]. intros ? ? ?. apply write_keeps_notes. }
  apply runs_on_owes in Hc; [| done].
  destruct r as [[] | |]; [| left; by apply settled_rollback | left; by apply settled_rollback].
  pose proof (reply_or_rollback ep s (with_table (cx_table c) s) (cx_parcel c) []
                (ex_intro _ [] (eq_sym (app_nil_r _))) Hc) as Hs.
  destruct (send_reply _ _ _ _ _ _) as [[[] | |] s']; [by right | by left | by left].
Qed.

Lemma reply_value_table ep w s : ss_table (reply_value ep w s).2 = ss_table s.
Proof.
  unfold reply_value. destruct (w parcel_new) as [[[] | |] reply]; [| done | done].
  erewrite bind_ok by reflexivity. apply send_reply_table.
Qed.

Lemma special_settled ep t oneway s :
  state_wf (ss_table s) ->
  let s' := (serve_special ep t oneway s).2 in settled s s' \/ delivered_result ep s s'.
Proof.
  intros Hw. unfold serve_special. destruct oneway; [left; by apply settled_table |].
  destruct (special_from_code (code t)) as [[] |].
  - by apply get_root_settled.
  - left. apply settled_table; [done |]. apply reply_value_table.
  - left. apply settled_table; [done |]. apply reply_value_table.
  - left. apply settled_table; [done |]. unfold bind.
    pose proof (reply_value_table ep
      (write_i32 (if decide (agreed_fd_mode ep (txn_data t) = FdUnix) then 1 else 0)) s) as E.
    by destruct (reply_value _ _ _) as [[[] | |] s'].
  - left. apply settled_reply. by apply settled_table.
Qed.

(** C8: A reply that is not delivered leaks nothing. Whatever a peer sends and
    wherever the dispatch fails (no target, wrong interface, the handler returns an
    error or panics after writing binders into its reply, the reply does not encode
    or the send fails, the call is oneway), the counts of the local objects change
    only by what the handlers do besides writing their reply, any order [others]
    (nothing at all for handlers that make no calls, [same_counts]), unless a reply
    with a result went out. *)
Theorem undelivered_reply_leaks_nothing ep t fds s r s' :
  accounts others ep -> state_wf (ss_table s) -> in_u 64 (async_number t) ->
  dispatch_transact ep t fds s = (r, s') ->
  others (ss_table s) (ss_table s') \/ delivered_result ep s s'.
Proof.
  intros Hh Hw Hn E. cut (settled s s' \/ delivered_result ep s s').
  { intros [[_ Hs] | Hd]; [by left | by right]. }
  replace s' with (dispatch_transact ep t fds s).2 by by rewrite E. clear E. unfold dispatch_transact.
  destruct (is_zero (address t)); [by apply special_settled |].
  destruct (is_oneway (flags t)).
  2: { destruct (execute_settled ep t fds false s Hh Hw) as [? | [_ ?]]; [by left | by right]. }
  left. unfold dispatch_oneway_ordered.
  pose proof (wf_arrive (address t) (async_number t) t fds (ss_table s) Hw Hn) as Hw'.
  pose proof (strong_of_arrive (address t) (async_number t) t fds (ss_table s)) as Hc.
  destruct (dispatch_async_or_enqueue _ _ _ _ _) as [d tab].
  assert (Hs : settled s (with_table tab s)) by by apply settled_counts.
  destruct d; [| done | done | done]. eapply settled_trans; [exact Hs |]. by apply drain_settled.
Qed.

End Accounts.

(** * The wait for a reply *)

(** Reference drops that arrive before the reply. *)
Definition drops (ep : Endpoint) (frames : list (list byte * list Z)) (ds : list (RpcAddress * Z))
  : Prop :=
  Forall2 (fun x d => @decode_message (codec (profile ep)) x.1 = Ok (DecStrong d.1 d.2)) frames ds.

Definition dropped (ds : list (RpcAddress * Z)) (t : RpcState) : RpcState :=
  foldl (fun t d => snd (dec_strong_local d.1 d.2 t)) t ds.

Lemma client_wait_drops ep re frames ds tl fuel s :
  drops ep frames ds -> ss_inbox s = (Ok <$> frames) ++ tl ->
  client_wait ep re (length frames + fuel) s =
  client_wait ep re fuel (with_table (dropped ds (ss_table s)) (with_inbox tl s)).
Proof.
  intros Hd. revert s. induction Hd as [| [f fds] d frames ds Ed _ IH]; intros s Ei.
  - cbn in Ei. subst tl. by destruct s.
  - cbn [length Nat.add client_wait]. unfold session_recv_msg. cbn in Ei. rewrite Ei.
    cbn [fst] in Ed. rewrite Ed. cbn [map_err]. erewrite bind_ok by reflexivity.
    by rewrite IH.
Qed.

(** What the message that ends the wait means, and whether the stream may be
    out of step after it. *)
Definition verdict (ep : Endpoint) (m : FdMode) (last : RpcResult (list byte * list Z))
  : outcome StatusCode (option Parcel) * bool :=
  match last with
  | Err e => (Err (status_of_rpc e), true)
  | Panic => (Panic, true)
  | Ok (frame, fds) =>
      match @decode_message (codec (profile ep)) frame with
      | Err e => (Err (status_of_rpc e), true)
      | Ok (Reply r) =>
          if status r =? 0
          then (Ok (Some (incoming_parcel ep m (reply_data r) (carried m fds) (reply_positions r))),
                false)
          else (Err (status_of_i32 (status r)), false)
      | _ => (Panic, true)
      end
  end.

(** The message ends a wait: it is no call and no reference drop. *)
Definition ends_wait (ep : Endpoint) (last : RpcResult (list byte * list Z)) : Prop :=
  match last with
  | Err _ => True
  | Panic => False
  | Ok (frame, _) =>
      match @decode_message (codec (profile ep)) frame with
      | Err _ | Ok (Reply _) => True
      | _ => False
      end
  end.

Lemma client_wait_ends ep re fuel s last rest :
  ends_wait ep last -> ss_inbox s = last :: rest ->
  let (r, bad) := verdict ep (ss_fd_mode s) last in
  client_wait ep re (S fuel) s = (r, (if bad then poison_slot re else id) (with_inbox rest s)).
Proof.
  intros He Ei. cbn [client_wait]. unfold session_recv_msg. rewrite Ei.
  destruct last as [[frame fds] | e |]; [| done | done]. cbn [verdict ends_wait] in *.
  destruct (decode_message frame) as [[t | r | a n] | e |]; try done. cbn [map_err].
  by destruct (status r =? 0).
Qed.

Lemma request_sent ep addr cd args fl f1 s :
  usable s -> is_oneway fl = false -> send_fails ep (ss_sends s) = None ->
  @encode_transact (codec (profile ep)) (request addr cd fl 0 args) = Ok f1 ->
  let s1 := log_send [(f1, carried (ss_fd_mode s) (rpc_out_fds args))] (with_driven true s) in
  client_transact ep addr cd args fl s =
  let (r, s') := client_wait ep (ss_driven s) (S (length (ss_inbox s))) s1 in
  (r, with_driven (ss_driven s) s').
Proof.
  intros Hu Ho Hs Ee s1. unfold client_transact. rewrite with_conn_usable by done. rewrite Ho.
  rewrite Ee. cbn [map_err]. unfold session_send_msg. cbn [ss_sends ss_fd_mode with_driven].
  by rewrite Hs.
Qed.

Lemma call_settles ep addr cd args fl f1 s frames ds last rest :
  usable s -> is_oneway fl = false -> send_fails ep (ss_sends s) = None ->
  @encode_transact (codec (profile ep)) (request addr cd fl 0 args) = Ok f1 ->
  ss_inbox s = (Ok <$> frames) ++ last :: rest -> drops ep frames ds -> ends_wait ep last ->
  exists s', client_transact ep addr cd args fl s = ((verdict ep (ss_fd_mode s) last).1, s') /\
    ss_table s' = dropped ds (ss_table s) /\ ss_inbox s' = rest /\
    ss_sent s' = ss_sent s ++ [(f1, carried (ss_fd_mode s) (rpc_out_fds args))] /\
    ss_live s' = negb (verdict ep (ss_fd_mode s) last).2 || ss_driven s /\
    ss_fd_mode s' = ss_fd_mode s.
Proof.
  intros Hu Ho Hs Ee Ei Hd He. rewrite (request_sent ep addr cd args fl f1 s) by done. cbv zeta.
  pose proof (Forall2_length _ _ _ Hd) as Hl.
  replace (S (length (ss_inbox s))) with (length frames + S (S (length rest)))%nat
    by (rewrite Ei, length_app, length_fmap; cbn [length]; lia).
  rewrite (client_wait_drops ep _ frames ds (last :: rest)) by (done || exact Ei).
  set (s1 := with_table _ _).
  pose proof (client_wait_ends ep (ss_driven s) (S (length rest)) s1 last rest He eq_refl) as E.
  change (ss_fd_mode s1) with (ss_fd_mode s) in E.
  destruct (verdict ep (ss_fd_mode s) last) as [r bad]. rewrite E. eexists. split; [reflexivity |].
  destruct Hu as [Hl' _]. unfold poison_slot. destruct bad, (ss_driven s); cbn; split_and!; done.
Qed.


(** * A call from end to end *)

(** The reply a handler's outcome becomes. *)
Definition answer_of (r : outcome StatusCode unit) (c : Call) : WireReply * list Z :=
  match r with
  | Ok _ => (mkReply 0 (data (call_reply c)) (rpc_object_positions (call_reply c)),
             rpc_out_fds (call_reply c))
  | Err e => (mkReply (status_to_i32 e) [] [], [])
  | Panic => (mkReply 0 [] [], [])
  end.

Definition control (cd : Z) : bool := (cd =? INTERFACE_TRANSACTION) || (cd =? PING_TRANSACTION).

Lemma answer_handler_sent ep r c f :
  r <> Panic -> usable (call_session c) -> send_fails ep (ss_sends (call_session c)) = None ->
  @encode_reply (codec (profile ep)) (answer_of r c).1 = Ok f ->
  exists s', answer_handler ep false (r, c) = (Ok tt, s') /\
    ss_sent s' = ss_sent (call_session c)
                 ++ [(f, carried (ss_fd_mode (call_session c)) (answer_of r c).2)].
Proof.
  intros Hr Hu Hs Ef. unfold answer_handler. destruct r as [[] | e |]; [| | done]; cbn in Ef.
  - rewrite (send_reply_ok _ _ _ _ _ f) by done. eexists. split; reflexivity.
  - rewrite (send_reply_ok _ _ _ _ _ f) by done. eexists. split; reflexivity.
Qed.

Lemma call_served ep t f fds s rest target r c f2 :
  usable s -> ss_inbox s = Ok (f, fds) :: rest ->
  @decode_message (codec (profile ep)) f = Ok (Transact t) ->
  is_zero (address t) = false -> is_oneway (flags t) = false -> control (code t) = false ->
  lookup_local (address t) (ss_table s) = Some target ->
  run_handler ep target t (carried (ss_fd_mode s) fds) (with_inbox rest (with_driven true s)) = (r, c) ->
  r <> Panic -> usable (call_session c) -> send_fails ep (ss_sends (call_session c)) = None ->
  @encode_reply (codec (profile ep)) (answer_of r c).1 = Ok f2 ->
  exists s', serve_once_on_slot ep s = (Ok true, s') /\
    ss_sent s' = ss_sent (call_session c)
                 ++ [(f2, carried (ss_fd_mode (call_session c)) (answer_of r c).2)].
Proof.
  intros Hu Ei Ed Hz Ho [Hi Hp]%orb_false_iff Hl Er Hr Hu' Hs Ef.
  destruct (answer_handler_sent ep r c f2 Hr Hu' Hs Ef) as (s' & Ea & Es).
  exists (with_driven (ss_driven s) s'). split; [| exact Es].
  unfold serve_once_on_slot. rewrite with_conn_usable by done. unfold session_recv_msg.
  cbn [ss_inbox with_driven]. rewrite Ei, Ed. cbn [map_err]. unfold bind, dispatch_transact.
  rewrite Hz, Ho. unfold execute_dispatched. cbn [ss_table with_inbox with_driven].
  rewrite Hl, Hi, Hp. cbn [negb andb]. cbn [ss_fd_mode with_driven]. unfold carried in Er.
  by rewrite Er, Ea.
Qed.

(** What the caller makes of the answer: the reply parcel, or the status its wire
    code reads as; code 0 reads as a reply without data. *)
Definition caller_sees (ce : Endpoint) (m : FdMode) (fds : list Z) (r : outcome StatusCode unit) (c : Call)
  : outcome StatusCode (option Parcel) :=
  match r with
  | Ok _ => Ok (Some (incoming_parcel ce m (data (call_reply c)) (carried m fds)
                        (rpc_object_positions (call_reply c))))
  | Err e => if status_to_i32 e =? 0 then Ok (Some (incoming_parcel ce m [] (carried m fds) []))
             else Err (status_of_i32 (status_to_i32 e))
  | Panic => Panic
  end.

Lemma caller_sees_status ce m fds e c :
  canonical e -> e <> StOk -> caller_sees ce m fds (Err e) c = Err e.
Proof.
  intros Hcan Hok. cbn. destruct (Z.eqb_spec (status_to_i32 e) 0) as [E0 |]; [| by rewrite status_decode].
  exfalso. apply Hok. rewrite <- (status_decode e Hcan), E0. done.
Qed.

(** C1: A caller gets what the handler answered. When the request that
    [client_transact] sends reaches the peer's [serve_once_on_slot], the handler of
    the addressed object runs once on the caller's argument bytes and descriptors;
    the bytes, object positions and descriptors of its reply come back to the caller
    (descriptors where the two ends' modes carry them), and a status it failed with
    (a panic counts as Unknown) comes back as its wire code reads, which for the
    statuses of the code table is the same status; on every wire profile. *)
Theorem call_returns_answer ce se cs ss addr cd args fl f1 f2 target r c :
  profile ce = profile se -> profile_ok (profile se) ->
  usable cs -> usable ss -> send_fails ce (ss_sends cs) = None ->
  is_oneway fl = false -> is_zero addr = false -> control cd = false ->
  txn_typed (request addr cd fl 0 args) -> profile_carries (profile se) addr ->
  @encode_transact (codec (profile ce)) (request addr cd fl 0 args) = Ok f1 ->
  let fds1 := carried (ss_fd_mode cs) (rpc_out_fds args) in
  let ss1 := with_inbox [Ok (f1, fds1)] ss in
  lookup_local addr (ss_table ss) = Some target ->
  run_handler se target (request addr cd fl 0 args) (carried (ss_fd_mode ss) fds1)
    (with_inbox [] (with_driven true ss)) = (r, c) ->
  r <> Panic ->
  usable (call_session c) -> send_fails se (ss_sends (call_session c)) = None ->
  reply_typed (answer_of r c).1 ->
  @encode_reply (codec (profile se)) (answer_of r c).1 = Ok f2 ->
  let fds2 := carried (ss_fd_mode (call_session c)) (answer_of r c).2 in
  exists ss' cs',
    serve_once_on_slot se ss1 = (Ok true, ss') /\
    ss_sent ss' = ss_sent (call_session c) ++ [(f2, fds2)] /\
    client_transact ce addr cd args fl (with_inbox [Ok (f2, fds2)] cs)
      = (caller_sees ce (ss_fd_mode cs) fds2 r c, cs') /\
    ss_sent cs' = ss_sent cs ++ [(f1, fds1)] /\
    (forall e, r = Err e -> canonical e -> e <> StOk ->
       caller_sees ce (ss_fd_mode cs) fds2 r c = Err e).
Proof.
  intros Ep Hp Huc Hus Hsc Ho Hz Hc Ht Ha E1 fds1 ss1 Hl Er Hr Hu' Hs' Htr E2 fds2.
  pose proof (profile_laws _ Hp) as L. rewrite Ep in E1.
  assert (D1 : @decode_message (codec (profile se)) f1 = Ok (Transact (request addr cd fl 0 args)))
    by exact (@codec_roundtrip _ _ L (Transact _) f1 Ht Ha E1).
  assert (D2 : @decode_message (codec (profile ce)) f2 = Ok (Reply (answer_of r c).1))
    by (rewrite Ep; exact (@codec_roundtrip _ _ L (Reply _) f2 Htr I E2)).
  destruct (call_served se (request addr cd fl 0 args) f1 fds1 ss1 [] target r c f2)
    as (ss' & Es & El); try done.
  rewrite <- Ep in E1.
  destruct (call_settles ce addr cd args fl f1 (with_inbox [Ok (f2, fds2)] cs) [] []
              (Ok (f2, fds2)) []) as (cs' & Ec & _ & _ & Elc & _); try done.
  { constructor. }
  { unfold ends_wait. by rewrite D2. }
  exists ss', cs'. split_and!; [done | done | | exact Elc |].
  - rewrite Ec. f_equal. cbn [verdict ss_fd_mode with_inbox]. rewrite D2.
    destruct r as [[] | e |]; [done | | done]. cbn. by destruct (_ =? 0).
  - intros e -> Hcan Hok. by apply caller_sees_status.
Qed.

(** * Agreeing on descriptors *)

Lemma small_request p cd body :
  profile_ok p -> in_u 32 cd -> zlen body <= 64 ->
  exists f, @encode_transact (codec p) (mkTxn addr_zero cd 0 0 body []) = Ok f.
Proof.
  intros Hp Hc Hb. destruct p as [| c]; cbn [codec].
  - destruct (r34_encode_total (Transact (mkTxn addr_zero cd 0 0 body []))) as (f & E & _); eauto.
    + by split_and!; auto with rsb.
    + split; [done |]. cbn. unfold WIRE_TXN_FIXED_LEN, MAX_FRAME_LEN, RPC_ADDR_LEN. lia.
  - destruct (a13_encode_total c (Transact (mkTxn addr_zero cd 0 0 body []))) as (f & E); eauto.
    split_and!; [by left | done |]. cbn. unfold A13_TXN_FIXED_LEN, A13_ADDR_LEN, MAX_FRAME_LEN, zlen.
    destruct (has_object_table _); cbn; unfold zlen in *; lia.
Qed.

Lemma small_reply p body :
  profile_ok p -> zlen body <= 64 ->
  exists f, @encode_reply (codec p) (mkReply 0 body []) = Ok f.
Proof.
  intros Hp Hb. destruct p as [| c]; cbn [codec].
  - destruct (r34_encode_total (Reply (mkReply 0 body []))) as (f & E & _); eauto; [done |].
    split; [done |]. cbn. unfold MAX_FRAME_LEN. lia.
  - destruct (a13_encode_total c (Reply (mkReply 0 body []))) as (f & E); eauto.
    split_and!; [done | done |]. cbn. unfold reply_fixed_len, MAX_FRAME_LEN, zlen in *.
    repeat case_match; cbn; lia.
Qed.

Lemma written_i32 v : write_i32 v parcel_new = (Ok tt, appended (to_le 4 v) parcel_new).
Proof. by apply write_i32_append. Qed.

Lemma read_body_i32 ep m v fds :
  in_i 32 v -> (read_i32 (incoming_parcel ep m (to_le 4 v) fds [])).1 = Ok v.
Proof.
  intros Hv. rewrite (read_i32_at _ [] v []); [done | | | done | done].
  - split; [done |]. cbn. rewrite zlen_to_le. done.
  - cbn. by rewrite app_nil_r.
Qed.

Lemma reply_i32_sent ep v s f :
  usable s -> send_fails ep (ss_sends s) = None ->
  @encode_reply (codec (profile ep)) (mkReply 0 (to_le 4 v) []) = Ok f ->
  reply_value ep (write_i32 v) s = (Ok tt, log_send [(f, [])] s).
Proof.
  intros Hu Hs Ef. unfold reply_value. rewrite written_i32. erewrite bind_ok by reflexivity.
  rewrite (send_reply_ok _ _ _ _ _ f) by done. by rewrite carried_nil.
Qed.

(** A special transaction served by the peer. *)
Lemma special_served ep t f s s1 :
  usable s -> @decode_message (codec (profile ep)) f = Ok (Transact t) ->
  address t = addr_zero -> flags t = 0 ->
  serve_special ep t false (with_inbox [] (with_driven true s)) = (Ok tt, s1) ->
  serve_once_on_slot ep (with_inbox [Ok (f, [])] s) = (Ok true, with_driven (ss_driven s) s1).
Proof.
  intros Hu Ed Ha Hf E. unfold serve_once_on_slot. rewrite with_conn_usable by done.
  unfold session_recv_msg. cbn [ss_inbox with_inbox with_driven]. rewrite Ed. cbn [map_err].
  unfold bind, dispatch_transact. rewrite Ha, Hf.
  replace (is_zero addr_zero) with true by (symmetry; by apply bool_decide_eq_true_2).
  change (is_oneway 0) with false. cbv match.
  change (with_inbox [] (with_driven true (with_inbox _ s))) with (with_inbox [] (with_driven true s)).
  by rewrite E.
Qed.

(** The value a special transaction returns to its caller. *)
Lemma special_returns {A} ep sp args (rd : P A) s f1 f2 body a :
  usable s -> send_fails ep (ss_sends s) = None ->
  @encode_transact (codec (profile ep)) (request addr_zero (special_code sp) 0 0 args) = Ok f1 ->
  @decode_message (codec (profile ep)) f2 = Ok (Reply (mkReply 0 body [])) ->
  (rd (incoming_parcel ep (ss_fd_mode s) body [] [])).1 = Ok a ->
  exists s', special_call ep sp args rd (with_inbox [Ok (f2, [])] s) = (Ok a, s') /\
    ss_sent s' = ss_sent s ++ [(f1, carried (ss_fd_mode s) (rpc_out_fds args))].
Proof.
  intros Hu Hs E1 D2 Er.
  destruct (call_settles ep addr_zero (special_code sp) args 0 f1 (with_inbox [Ok (f2, [])] s) [] []
              (Ok (f2, [])) []) as (s' & Ec & _ & _ & El & _); try done.
  { constructor. }
  { unfold ends_wait. by rewrite D2. }
  exists s'. split; [| done]. unfold special_call. cbn [verdict] in Ec. rewrite D2 in Ec. cbn in Ec.
  erewrite bind_ok by exact Ec. unfold lift. f_equal.
  by rewrite carried_nil.
Qed.

Lemma fd_answer_served ep t f f2 s :
  usable s -> send_fails ep (ss_sends s) = None ->
  @decode_message (codec (profile ep)) f = Ok (Transact t) ->
  address t = addr_zero -> flags t = 0 -> code t = special_code GetFdMode ->
  let agreed := agreed_fd_mode ep (txn_data t) in
  @encode_reply (codec (profile ep))
    (mkReply 0 (to_le 4 (if decide (agreed = FdUnix) then 1 else 0)) []) = Ok f2 ->
  exists s', serve_once_on_slot ep (with_inbox [Ok (f, [])] s) = (Ok true, s') /\
    ss_sent s' = ss_sent s ++ [(f2, [])] /\ ss_fd_mode s' = agreed.
Proof.
  intros Hu Hs Ed Ha Hf Hc agreed E2.
  assert (Hu' : usable (with_inbox [] (with_driven true s))).
  { destruct Hu as [Hl _]. split; [exact Hl | by left]. }
  set (s0 := with_inbox [] (with_driven true s)) in Hu'.
  exists (with_driven (ss_driven s) (with_fd_mode agreed (log_send [(f2, [])] s0))).
  split; [| done]. apply (special_served ep t f s (with_fd_mode agreed (log_send [(f2, [])] s0)));
    try done.
  unfold serve_special. rewrite Hc. cbv beta iota delta [special_code special_from_code Z.eqb Pos.eqb].
  fold agreed. by rewrite (bind_ok _ _ _ _ _ (reply_i32_sent ep _ s0 f2 Hu' Hs E2)).
Qed.

Lemma wants_unix_word w : in_i 32 w -> wants_unix (to_le 4 w) = (w =? 1).
Proof.
  intros Hw. unfold wants_unix. rewrite (read_i32_at _ [] w []); [done | | | done | done].
  - split; [done |]. cbn. by rewrite zlen_to_le.
  - cbn. by rewrite app_nil_r.
Qed.

Lemma flag_i32 {Q : Prop} (d : {Q} + {~ Q}) : in_i 32 (if d then 1 else 0).
Proof. by destruct d. Qed.

(** Both ends of a session agree on how descriptors travel. One [GET_FD_MODE]
    exchange leaves client and server in the same mode, and that mode is [Unix]
    exactly when the client asked for it, the server supports it and the wire
    version allows it. *)
Theorem fd_mode_agreement ce se cs ss want :
  profile ce = profile se -> profile_ok (profile se) -> usable cs -> usable ss ->
  send_fails ce (ss_sends cs) = None -> send_fails se (ss_sends ss) = None ->
  exists f1 f2 ss' cs' agreed,
    serve_once_on_slot se (with_inbox [Ok (f1, [])] ss) = (Ok true, ss') /\
    ss_sent ss' = ss_sent ss ++ [(f2, [])] /\
    negotiate_fd_transport ce want (with_inbox [Ok (f2, [])] cs) = (Ok agreed, cs') /\
    ss_sent cs' = ss_sent cs ++ [(f1, [])] /\
    ss_fd_mode ss' = agreed /\ ss_fd_mode cs' = agreed /\
    (agreed = FdUnix <-> want = FdUnix /\ fd_version_ok se = true /\ fd_unix_supported se = true).
Proof.
  intros Ep Hp Huc Hus Hsc Hss. pose proof (profile_laws _ Hp) as L.
  set (w := if decide (want = FdUnix) then 1 else 0).
  assert (Hw : in_i 32 w) by apply flag_i32.
  set (agreed := agreed_fd_mode se (to_le 4 w)). set (v := if decide (agreed = FdUnix) then 1 else 0).
  assert (Hv : in_i 32 v) by apply flag_i32.
  set (t := mkTxn addr_zero (special_code GetFdMode) 0 0 (to_le 4 w) []).
  destruct (small_request (profile se) (special_code GetFdMode) (to_le 4 w)) as [f1 E1];
    [done | done | by rewrite zlen_to_le |].
  destruct (small_reply (profile se) (to_le 4 v)) as [f2 E2]; [done | by rewrite zlen_to_le |].
  assert (Hcar : profile_carries (profile se) addr_zero)
    by (destruct (profile se); [apply addr_zero_ok | by left]).
  assert (D1 : @decode_message (codec (profile se)) f1 = Ok (Transact t)).
  { apply (@codec_roundtrip _ _ L (Transact t)); [| done | done].
    by split_and!; auto with rsb. }
  assert (D2 : @decode_message (codec (profile se)) f2 = Ok (Reply (mkReply 0 (to_le 4 v) [])))
    by by apply (@codec_roundtrip _ _ L (Reply _)).
  destruct (fd_answer_served se t f1 f2 ss) as (ss' & Es & El & Em); try done.
  destruct (special_returns ce GetFdMode (appended (to_le 4 w) parcel_new) read_i32 cs f1 f2 (to_le 4 v) v)
    as (cs' & Ec & Elc); [done | done | by rewrite Ep | by rewrite Ep | by apply read_body_i32 |].
  exists f1, f2, ss', (with_fd_mode agreed cs'), agreed. split_and!; [done | done | | | done | done |].
  - unfold negotiate_fd_transport. fold w. rewrite written_i32. erewrite bind_ok by reflexivity.
    rewrite (bind_ok _ _ _ _ _ Ec). unfold v. destruct (decide (agreed = FdUnix)) as [-> | Hn]; [done |].
    by destruct agreed.
  - cbn. by rewrite Elc, carried_nil.
  - subst agreed. unfold agreed_fd_mode.
    rewrite wants_unix_word by done.
    unfold w. destruct (decide (want = FdUnix)) as [-> | Hn], (fd_version_ok se),
      (fd_unix_supported se); cbn; intuition congruence.
Qed.

(** * The loops end *)

(** What is left to do for [a]: parked calls and messages still to come. *)
Definition budget (a : RpcAddress) (s : Session) : nat := parked a s + length (ss_inbox s).

Definition no_more (s s' : Session) : Prop :=
  (forall a, budget a s' <= budget a s)%nat /\ (length (ss_inbox s') <= length (ss_inbox s))%nat.

(** A handler makes no work appear: it may receive, and park what it received. *)
Definition frugal (ep : Endpoint) : Prop :=
  forall b cd c r c', rpc_transact ep b cd c = (r, c') -> no_more (call_session c) (call_session c').

Lemma no_more_refl s : no_more s s.
Proof. by split. Qed.

Lemma no_more_trans s1 s2 s3 : no_more s1 s2 -> no_more s2 s3 -> no_more s1 s3.
Proof. intros [B1 I1] [B2 I2]. split; [intros a; etrans; [apply B2 | apply B1] | lia]. Qed.

Lemma no_more_same s s' : ss_table s' = ss_table s -> ss_inbox s' = ss_inbox s -> no_more s s'.
Proof. intros Et Ei. unfold no_more, budget, parked. by rewrite Et, Ei. Qed.

Lemma no_more_reply ep st body positions fds s :
  no_more s (send_reply ep st body positions fds s).2.
Proof.
  destruct (send_reply_cases ep st body positions fds s) as [(f & -> & _) | (r & s' & -> & _ & Hs)];
    [by apply no_more_same |]. by destruct Hs as [-> | ->]; apply no_more_same.
Qed.

(** Tables in which no node has more parked calls. *)
Definition no_more_parked (t t' : RpcState) : Prop :=
  forall a n', local_nodes t' !! a = Some n' ->
  exists n, local_nodes t !! a = Some n /\ (length (async_todo n') <= length (async_todo n))%nat.

Lemma no_more_table s t : no_more_parked (ss_table s) t -> no_more s (with_table t s).
Proof.
  intros Hp. split; [| done]. intros a. unfold budget, parked. cbn.
  destruct (local_nodes t !! a) as [n' |] eqn:E; [| lia].
  destruct (Hp a n' E) as (n & -> & Hl). lia.
Qed.

Lemma no_more_parked_refl t : no_more_parked t t.
Proof. intros a n E. by exists n. Qed.

Lemma no_more_parked_set t addr n n' :
  local_nodes t !! addr = Some n -> (length (async_todo n') <= length (async_todo n))%nat ->
  no_more_parked t (set_nodes t (<[addr := n']> (local_nodes t))).
Proof.
  intros En Hl a m. cbn. destruct (decide (a = addr)) as [-> | Hne].
  - rewrite lookup_insert_eq. intros [= <-]. by exists n.
  - rewrite lookup_insert_ne by done. intros E. by exists m.
Qed.

Lemma no_more_parked_cancel t addr : no_more_parked t (cancel_binder_leaving addr t).
Proof.
  unfold cancel_binder_leaving. destruct (local_nodes t !! addr) as [n |] eqn:En;
    [| apply no_more_parked_refl].
  case_leb; [| by eapply no_more_parked_set]. intros a m. cbn.
  intros [_ E]%lookup_delete_Some. by exists m.
Qed.

Lemma no_more_parked_trans t1 t2 t3 :
  no_more_parked t1 t2 -> no_more_parked t2 t3 -> no_more_parked t1 t3.
Proof.
  intros P1 P2 a n3 E3. destruct (P2 a n3 E3) as (n2 & E2 & L2). destruct (P1 a n2 E2) as (n1 & E1 & L1).
  exists n1. split; [done | lia].
Qed.

Lemma no_more_parked_cancels l t :
  no_more_parked t (foldl (fun t a => cancel_binder_leaving a t) t l).
Proof.
  revert t. induction l as [| x l IH]; intros t; [apply no_more_parked_refl |]. cbn.
  eapply no_more_parked_trans; [apply no_more_parked_cancel | apply IH].
Qed.

Lemma no_more_rollback p s : no_more s (rollback p s).
Proof. apply no_more_table, no_more_parked_cancels. Qed.

Lemma execute_no_more ep t fds oneway s :
  frugal ep -> no_more s (execute_dispatched ep t fds oneway s).2.
Proof.
  intros Hf. unfold execute_dispatched. destruct (lookup_local _ _) as [target |].
  2: { destruct oneway; [apply no_more_refl | apply no_more_reply]. }
  destruct (negb oneway && _).
  { destruct (ser _ _ _) as [[[] | |] reply]; [apply no_more_reply | |]; apply no_more_refl. }
  destruct (negb oneway && _); [apply no_more_reply |].
  assert (Hr : no_more s (call_session (run_handler ep target t fds s).2)).
  { unfold run_handler. destruct (consume_rpc_interface_token _ _) as [[[] | |] rd];
      [| apply no_more_refl | apply no_more_refl].
    destruct (rpc_transact _ _ _ _) as [r c] eqn:E. exact (Hf _ _ _ _ _ E). }
  destruct (run_handler ep target t fds s) as [r c]. eapply no_more_trans; [exact Hr |].
  unfold answer_handler. cbn [snd]. destruct oneway; [destruct r; apply no_more_rollback || apply no_more_refl |].
  destruct r as [[] | e |]; [| | apply no_more_refl].
  - pose proof (no_more_reply ep 0 (data (call_reply c)) (rpc_object_positions (call_reply c))
                  (rpc_out_fds (call_reply c)) (call_session c)) as Hn.
    destruct (send_reply _ _ _ _ _ _) as [[[] | |] s']; [done | |];
      (eapply no_more_trans; [exact Hn | apply no_more_rollback]).
  - eapply no_more_trans; [apply no_more_rollback | apply no_more_reply].
Qed.

(** A call that is popped was parked. *)
Lemma advance_budget addr s :
  let (n, t) := advance_and_pop_async addr (ss_table s) in
  no_more s (with_table t s) /\
  (n <> None -> (budget addr (with_table t s) < budget addr s)%nat).
Proof.
  unfold advance_and_pop_async. destruct (local_nodes (ss_table s) !! addr) as [nd |] eqn:En.
  2: { split; [by apply no_more_same | done]. }
  set (next := wrap_u 64 _).
  destruct (drop_stale_suffix next (async_todo nd)) as (pre & Ep & _).
  assert (Hl : (length (drop_stale next (async_todo nd)) <= length (async_todo nd))%nat)
    by (rewrite Ep at 2; rewrite length_app; lia).
  destruct (drop_stale next (async_todo nd)) as [| top rest]; [split; [| done] |].
  { by apply no_more_table, (no_more_parked_set _ _ nd). }
  cbn [length] in Hl. destruct (_ =? next).
  - split; [apply no_more_table, (no_more_parked_set _ _ nd); [done | cbn; lia] |]. intros _.
    unfold budget, parked. cbn. rewrite lookup_insert_eq, En. cbn. lia.
  - split; [| done]. by apply no_more_table, (no_more_parked_set _ _ nd).
Qed.

Lemma drain_fuel ep addr fuel1 fuel2 next s :
  frugal ep -> (budget addr s < fuel1)%nat -> (budget addr s < fuel2)%nat ->
  drain ep addr fuel1 next s = drain ep addr fuel2 next s.
Proof.
  intros Hf. revert fuel2 next s. induction fuel1 as [| fuel1 IH]; intros fuel2 next s H1' H2'; [lia |].
  destruct fuel2 as [| fuel2]; [lia |]. destruct next as [[t fds] |]; [| done].
  cbn [drain]. unfold bind. pose proof (execute_no_more ep t fds true s Hf) as Hn.
  destruct (execute_dispatched ep t fds true s) as [[[] | |] s1]; [| done | done].
  destruct Hn as [Hb _]. specialize (Hb addr). cbn in Hb.
  pose proof (advance_budget addr s1) as Ha.
  destruct (advance_and_pop_async addr (ss_table s1)) as [[x |] tab].
  - destruct Ha as [_ Ha]. specialize (Ha ltac:(done)). apply IH; lia.
  - by destruct fuel1, fuel2.
Qed.

Lemma drain_no_more ep addr fuel next s : frugal ep -> no_more s (drain ep addr fuel next s).2.
Proof.
  intros Hf. revert next s. induction fuel as [| fuel IH]; intros [[t fds] |] s; try apply no_more_refl.
  cbn [drain]. unfold bind. pose proof (execute_no_more ep t fds true s Hf) as Hn.
  destruct (execute_dispatched ep t fds true s) as [[[] | |] s1]; [| done | done].
  pose proof (advance_budget addr s1) as Ha.
  destruct (advance_and_pop_async addr (ss_table s1)) as [x tab]. destruct Ha as [Ha _].
  eapply no_more_trans; [exact Hn |]. eapply no_more_trans; [exact Ha | apply IH].
Qed.

(** A dispatch reads no more than what the handlers read. *)
Lemma dispatch_inbox ep t fds s :
  frugal ep -> (length (ss_inbox (dispatch_transact ep t fds s).2) <= length (ss_inbox s))%nat.
Proof.
  intros Hf. unfold dispatch_transact. destruct (is_zero (address t)).
  - unfold serve_special. destruct (is_oneway (flags t)); [done |].
    assert (Hv : forall w, ss_inbox (reply_value ep w s).2 = ss_inbox s).
    { intros w. unfold reply_value. destruct (w parcel_new) as [[[] | |] reply]; [| done | done].
      erewrite bind_ok by reflexivity.
      destruct (send_reply_cases ep 0 (data reply) [] [] s) as [(f & -> & _) | (r & s' & -> & _ & Hs)];
        [done |]. by destruct Hs as [-> | ->]. }
    destruct (special_from_code (code t)) as [[] |]; rewrite ?Hv; [| done | done | |].
    + unfold serve_get_root. destruct (write_root _ _) as [[[] | |] c]; [| done | done].
      pose proof (no_more_reply ep 0 (data (cx_parcel c)) (rpc_object_positions (cx_parcel c)) []
                    (with_table (cx_table c) s)) as [_ Hi].
      by destruct (send_reply _ _ _ _ _ _) as [[[] | |] s'].
    + unfold bind. specialize (Hv (write_i32 (if decide (agreed_fd_mode ep (txn_data t) = FdUnix)
                                              then 1 else 0))).
      destruct (reply_value _ _ _) as [[[] | |] s']; cbn in *; by rewrite Hv.
    + apply no_more_reply.
  - destruct (is_oneway (flags t)); [| by apply execute_no_more].
    unfold dispatch_oneway_ordered. destruct (dispatch_async_or_enqueue _ _ _ _ _) as [[] tab];
      [| done | done | done].
    exact (proj2 (drain_no_more ep (address t) _ _ (with_table tab s) Hf)).
Qed.

Lemma client_wait_fuel ep re fuel1 fuel2 s :
  frugal ep -> (length (ss_inbox s) < fuel1)%nat -> (length (ss_inbox s) < fuel2)%nat ->
  client_wait ep re fuel1 s = client_wait ep re fuel2 s.
Proof.
  intros Hf. revert fuel2 s. induction fuel1 as [| fuel1 IH]; intros fuel2 s H1' H2'; [lia |].
  destruct fuel2 as [| fuel2]; [lia |]. cbn [client_wait]. unfold session_recv_msg.
  destruct (ss_inbox s) as [| m rest] eqn:Ei; [done |]. cbn [length] in *.
  destruct m as [[frame fds] | |]; [| done | done].
  destruct (decode_message frame) as [[t | r | a n] | |]; cbn [map_err]; try done.
  - pose proof (dispatch_inbox ep t (if decide (ss_fd_mode s = FdUnix) then fds else [])
                  (with_inbox rest s) Hf) as Hd.
    destruct (dispatch_transact _ _ _ _) as [[[] | |] s1]; [| done | done]. cbn in Hd. apply IH; lia.
  - unfold bind, apply_dec_strong, modify. apply IH; cbn; lia.
Qed.

(** C27: The loops of a session end. For handlers that make no messages appear, the
    fuel of the oneway drain (parked calls plus messages still to come) and of the
    reply wait (messages still to come) is never what stops them: every larger fuel
    gives the same result. *)
Theorem session_loops_end ep :
  frugal ep ->
  (forall addr next s fuel, (budget addr s < fuel)%nat ->
     drain ep addr fuel next s = drain ep addr (S (parked addr s + length (ss_inbox s))) next s) /\
  (forall re s fuel, (length (ss_inbox s) < fuel)%nat ->
     client_wait ep re fuel s = client_wait ep re (S (length (ss_inbox s))) s).
Proof.
  intros Hf. split.
  - intros addr next s fuel Hb. apply drain_fuel; [done | done |]. unfold budget. lia.
  - intros re s fuel Hb. apply client_wait_fuel; [done | done | lia].
Qed.
End Spec.

(** * A client and a server *)

(** The server's handler returns a second object for code 1; for other codes it
    fails after writing it, with a status or a panic. *)
Definition demo_handler (b : SIBinder) (cd : Z) : M Call StatusCode unit :=
  fun c =>
    let (r, x) := @write_binders ptr64 v2 [Some (Local (mkSib 128) 12)]
                    (mkCtx (ss_table (call_session c)) (call_reply c)) in
    (if cd =? 1 then r else if cd =? 2 then Err StPermissionDenied else Panic,
     mkCall (with_table (cx_table x) (call_session c)) (call_reader c) (cx_parcel x)).

Definition demo_server : Endpoint :=
  mkEndpoint v2 (Some (Local (mkSib 64) 12)) 4 (replicate 32 7) true (fun _ => [65]) demo_handler
             (fun _ => None).
Definition demo_client : Endpoint :=
  mkEndpoint v2 None 1 [] false (fun _ => []) (fun _ _ c => (Ok tt, c)) (fun _ => None).

Definition session_of (t : RpcState) : Session := mkSession t FdNone [] [] 0 true false false 0.

(** The call's arguments: the interface token. *)
Definition demo_args : Parcel := snd (@write_rpc_interface_token ptr64 [65] empty_rpc_parcel).
Definition demo_txn (cd fl : Z) : WireTransaction := request (minted 1 Acceptor) cd fl 0 demo_args.

(** A handler that sends a message of its own first: it drops a reference. *)
Definition dropped_addr : RpcAddress := minted 5 Initiator.
Definition calling_handler (b : SIBinder) (cd : Z) : M Call StatusCode unit :=
  fun c =>
    demo_handler b cd
      (mkCall (snd (@send_dec_strong ptr64 linux_errno demo_server dropped_addr (call_session c)))
              (call_reader c) (call_reply c)).
Definition calling_server : Endpoint :=
  mkEndpoint v2 (Some (Local (mkSib 64) 12)) 4 (replicate 32 7) true (fun _ => [65]) calling_handler
             (fun _ => None).
Definition the_drop (m : list byte * list Z) : Prop :=
  @encode_dec_strong (@codec ptr64 v2) dropped_addr = Ok m.1.

Lemma dropping s :
  let s' := snd (@send_dec_strong ptr64 linux_errno demo_server dropped_addr s) in
  said the_drop s s' /\ ss_table s' = ss_table s.
Proof.
  cbv zeta. unfold send_dec_strong. destruct (ss_torn_down s); [by split; [apply said_same |] |].
  unfold with_conn. destruct (_ || _); [by split; [apply said_same |] |].
  split; [| by vm_compute]. eexists [(_, _)]. split; [| by vm_compute]. constructor; [| done].
  by vm_compute.
Qed.

Lemma calling_speaks : speaks the_drop calling_server.
Proof.
  intros b cd c r c' E. cbn [calling_server rpc_transact] in E. unfold calling_handler, demo_handler in E.
  destruct (write_binders _ _ _) as [r' x]. injection E as <- <-. apply dropping.
Qed.

Lemma calling_accounts : accounts same_counts calling_server.
Proof.
  intros b cd c r c' s0 Hw Ho E. cbn [calling_server rpc_transact] in E. unfold calling_handler, demo_handler in E.
  destruct (dropping (call_session c)) as [(own & _ & El) Et]. cbn [call_session call_reply call_reader] in E.
  destruct (write_binders _ _ _) as [r' [t p]] eqn:Ew. injection E as <- <-.
  split; [| by exists own]. exists s0. split_and!; [done | done |]. rewrite Et in Ew.
  exact (owes_write_binders _ _ _ _ _ _ Ho Ew).
Qed.

Lemma demo_frugal : frugal demo_client.
Proof. intros b cd c r c' E. injection E as <- <-. apply no_more_refl. Qed.

Lemma sample_state_wf : state_wf sample_state.
Proof.
  apply (reachable_wf Acceptor). unfold sample_state. eapply reach_step; [| apply st_leave].
  eapply reach_step; [| apply st_leave]. apply reach_new.
Qed.

(** The handler drops a reference and the call succeeds: the drop and one reply. *)
Lemma one_reply_per_call_witness :
  @answered ptr64 the_drop calling_server (session_of sample_state)
    (@dispatch_transact ptr64 linux_errno calling_server (demo_txn 1 0) [] (session_of sample_state)) /\
  length (ss_sent (@dispatch_transact ptr64 linux_errno calling_server (demo_txn 1 0) []
                     (session_of sample_state)).2) = 2%nat.
Proof.
  split; [| by vm_compute].
  exact (@one_reply_per_call ptr64 linux_errno the_drop calling_server (demo_txn 1 0) []
           (session_of sample_state) calling_speaks).
Defined.

(** The handler panics with a binder in its reply; the caller sees an error and
    the object is gone from the table again. *)
Lemma undelivered_reply_leaks_nothing_witness :
  let out := @dispatch_transact ptr64 linux_errno calling_server (demo_txn 3 0) []
               (session_of sample_state) in
  same_counts sample_state (ss_table out.2) \/
  @delivered_result ptr64 calling_server (session_of sample_state) out.2.
Proof.
  intros out.
  apply (@undelivered_reply_leaks_nothing ptr64 linux_errno same_counts same_counts_order calling_server
           (demo_txn 3 0) [] (session_of sample_state) out.1 out.2).
  - exact calling_accounts.
  - exact sample_state_wf.
  - split; [vm_compute; discriminate | reflexivity].
  - apply surjective_pairing.
Defined.

Definition frame_of (r : RpcResult (list byte)) : list byte :=
  match r with Ok b => b | _ => [] end.

Definition demo_request (cd : Z) : list byte :=
  frame_of (@encode_transact (@codec ptr64 v2) (demo_txn cd 0)).


(** The handler fails with a status; the caller gets that status. *)
Definition demo_run : outcome StatusCode unit * Call :=
  @run_handler ptr64 demo_server (mkSib 64) (demo_txn 2 0) []
    (with_inbox [] (with_driven true (session_of sample_state))).

Definition demo_reply : list byte :=
  frame_of (@encode_reply (@codec ptr64 v2) (@answer_of linux_errno (Err StPermissionDenied) demo_run.2).1).

Lemma call_returns_answer_witness :
  exists cs',
    @client_transact ptr64 linux_errno demo_client (minted 1 Acceptor) 2 demo_args 0
      (with_inbox [Ok (demo_reply, [])] (session_of (state_new Initiator)))
    = (Err StPermissionDenied, cs').
Proof.
  destruct (@call_returns_answer ptr64 linux_errno linux_errno_laws demo_client demo_server
              (session_of (state_new Initiator)) (session_of sample_state)
              (minted 1 Acceptor) 2 demo_args 0 (demo_request 2) demo_reply
              (mkSib 64) (Err StPermissionDenied) demo_run.2)
    as (ss' & cs' & _ & _ & Ec & _ & He).
  - reflexivity.
  - vm_compute. discriminate.
  - split; [reflexivity | by right].
  - split; [reflexivity | by right].
  - reflexivity.
  - reflexivity.
  - vm_compute. reflexivity.
  - reflexivity.
  - split; [auto with rsb |]. split; [split; [vm_compute; discriminate | reflexivity] |].
    split; [split; [vm_compute; discriminate | reflexivity] |].
    split; [split; [vm_compute; discriminate | reflexivity] | constructor].
  - right. exists 1, Acceptor. split; [split; [lia | reflexivity] | reflexivity].
  - vm_compute. reflexivity.
  - vm_compute. reflexivity.
  - vm_compute. reflexivity.
  - discriminate.
  - split; [reflexivity | by right].
  - reflexivity.
  - split; [split; [vm_compute; discriminate | vm_compute; reflexivity] | constructor].
  - vm_compute. reflexivity.
  - exists cs'. rewrite (He StPermissionDenied eq_refl I ltac:(discriminate)) in Ec. exact Ec.
Defined.

(** Both ends move to [Unix]. *)
Lemma fd_mode_agreement_witness :
  exists f2 cs', @negotiate_fd_transport ptr64 linux_errno demo_client FdUnix
    (with_inbox [Ok (f2, [])] (session_of (state_new Initiator))) = (Ok FdUnix, cs').
Proof.
  destruct (@fd_mode_agreement ptr64 linux_errno demo_client demo_server
              (session_of (state_new Initiator)) (session_of (state_new Acceptor)) FdUnix)
    as (f1 & f2 & ss' & cs' & agreed & _ & _ & Ec & _ & _ & _ & Ha).
  - reflexivity.
  - vm_compute. discriminate.
  - split; [reflexivity | by right].
  - split; [reflexivity | by right].
  - reflexivity.
  - reflexivity.
  - exists f2, cs'. rewrite Ec. do 2 f_equal. apply Ha. by split_and!.
Defined.

Lemma session_loops_end_witness :
  @client_wait ptr64 linux_errno demo_client false 100 (session_of (state_new Initiator))
  = @client_wait ptr64 linux_errno demo_client false 1 (session_of (state_new Initiator)).
Proof.
  apply (proj2 (@session_loops_end ptr64 linux_errno demo_client demo_frugal)). cbn. lia.
Defined.
