(* ===== verification/Deadlines.v ===== *)
(** Deadlines of a connection (src/rsbinder/src/rpc/session.rs: [ReplyDeadlineGuard], [NestedDeadlineGuard], the reply
    loop of [client_transact], [clear_slot_read_timeout] and [serve_blocking_on_inner]; src/rsbinder/src/rpc/server.rs:
    [run_connection_in_worker] and [arm_serve_timeouts]).

    The timeouts of a socket stick until they are changed, and calls nest on one connection: a thread that waits for its reply
    serves calls of the peer, whose handlers call out again. The connection is driven by one thread; the peer is the list of
    what it sends, each message some time after the wait for it began. Requests and replies are numbers here ([Session]
    has their contents). *)

From Stdlib Require Import ZArith Lia.
From stdpp Require Import base list.
From S2P Require Import Prelude.

(** * The connection *)

(** What a handler does: a call to the peer, after whose failure it may stop; or [set_timeout]. *)
Inductive HandlerOp : Type :=
| CallOut (stop : bool)
| SetTimeout (t : option Z).

(** A reply to call [n]; a reference given back; a call to a handler, whose reply can be [sent] or not. *)
Inductive Msg : Type :=
| Reply (n : Z) (status : Z)
| DecStrong
| Transact (handler : list HandlerOp) (sent : bool).

Inductive Failure : Type :=
| DeadObject
| InvalidDeadline
| TimedOut
| Refused (status : Z)
| SendFailed
| Hang
| OutOfFuel.

(** [timeout] is the deadline of the session; [pooled] whether the slot of the connection is in the pool. [open] are the calls whose
    replies were not read, innermost first. The rest is history: the waits, with the timeout in force and
    the deadline their call was configured with; whether every reply was for the innermost call; whether a nested call has failed
    with its reply still to come. *)
Record Link : Type := mkLink {
  read_timeout : option Z;
  write_timeout : option Z;
  timeout : option Z;
  inbox : list (Z * Msg);
  open : list Z;
  next_call : Z;
  pooled : bool;
  waits : list (option Z * option Z);
  lawful : bool;
  spoiled : bool
}.

Definition L (A : Type) : Type := M Link Failure A.

Definition set_read (t : option Z) (s : Link) : Link :=
  mkLink t (write_timeout s) (timeout s) (inbox s) (open s) (next_call s) (pooled s) (waits s) (lawful s) (spoiled s).
Definition set_write (t : option Z) (s : Link) : Link :=
  mkLink (read_timeout s) t (timeout s) (inbox s) (open s) (next_call s) (pooled s) (waits s) (lawful s) (spoiled s).
Definition set_inbox (l : list (Z * Msg)) (s : Link) : Link :=
  mkLink (read_timeout s) (write_timeout s) (timeout s) l (open s) (next_call s) (pooled s) (waits s) (lawful s) (spoiled s).
Definition set_timeout (t : option Z) (s : Link) : Link :=
  mkLink (read_timeout s) (write_timeout s) t (inbox s) (open s) (next_call s) (pooled s) (waits s) (lawful s) (spoiled s).
Definition set_open (l : list Z) (n : Z) (lawful : bool) (s : Link) : Link :=
  mkLink (read_timeout s) (write_timeout s) (timeout s) (inbox s) l n (pooled s) (waits s) lawful (spoiled s).
Definition note_wait (x : option Z * option Z) (s : Link) : Link :=
  mkLink (read_timeout s) (write_timeout s) (timeout s) (inbox s) (open s) (next_call s) (pooled s) (waits s ++ [x]) (lawful s) (spoiled s).

Section Waits.
(** The durations the transport takes: a socket refuses one of zero. *)
Context (accepts : Z -> bool).

Definition set_read_timeout (t : option Z) : L unit := fun s =>
  match t with
  | Some d => if accepts d then (Ok tt, set_read t s) else (Err InvalidDeadline, s)
  | None => (Ok tt, set_read None s)
  end.

(** A [Drop] that runs on every exit; a computation that does not end has none. *)
Definition finally {A} (m : L A) (release : Link -> Link) : L A := fun s =>
  match m s with
  | (Err Hang, s) => (Err Hang, s)
  | (Err OutOfFuel, s) => (Err OutOfFuel, s)
  | (r, s) => (r, release s)
  end.

(** ** The guards *)

Definition arm (deadline : option Z) : L unit :=
  match deadline with Some d => set_read_timeout (Some d) | None => ret tt end.
Definition disarm (deadline : option Z) (s : Link) : Link :=
  match deadline with Some _ => set_read None s | None => s end.

Definition lift (deadline : option Z) : L unit :=
  match deadline with Some _ => set_read_timeout None | None => ret tt end.
Definition restore (deadline : option Z) (s : Link) : Link :=
  match deadline with Some d => snd (set_read_timeout (Some d) s) | None => s end.

(** ** Waiting *)

(** [recv_msg]: the next message, or a timeout with nothing read. *)
Definition recv_msg (configured : option Z) : L Msg := fun s =>
  let s := note_wait (read_timeout s, configured) s in
  match inbox s, read_timeout s with
  | [], Some _ => (Err TimedOut, s)
  | [], None => (Err Hang, s)
  | (delay, m) :: rest, Some d => if d <=? delay then (Err TimedOut, set_inbox ((delay - d, m) :: rest) s) else (Ok m, set_inbox rest s)
  | (_, m) :: rest, None => (Ok m, set_inbox rest s)
  end.

(** [poison_slot]: the slot is retired, but not by a call inside another. *)
Definition poison_slot (reentrant : bool) (s : Link) : Link :=
  mkLink (read_timeout s) (write_timeout s) (timeout s) (inbox s) (open s) (next_call s) (if reentrant then pooled s else false)
         (waits s) (lawful s) (if reentrant then true else spoiled s).

Definition recv_or_poison (configured : option Z) (reentrant : bool) : L Msg := fun s =>
  match recv_msg configured s with
  | (Err Hang, s) => (Err Hang, s)
  | (Err e, s) => (Err e, poison_slot reentrant s)
  | x => x
  end.

Definition without (n : Z) (l : list Z) : list Z := List.filter (fun k => negb (k =? n)) l.

(** The reply to [n] is read. *)
Definition take_reply (n : Z) : L unit := modify (fun s =>
  set_open (without n (open s)) (next_call s) (lawful s && bool_decide (head (open s) = Some n)) s).

Section Call.
(** The reply loop. *)
Context (wait_reply : option Z -> bool -> L Z).

Definition send_request : L unit := modify (fun s => set_open (next_call s :: open s) (next_call s + 1) (lawful s) s).

Definition client_transact (reentrant : bool) : L Z :=
  let* s := get in
  if negb (pooled s) then throw DeadObject
  else
    let* _ := send_request in
    let deadline := timeout s in
    let* _ := arm deadline in
    finally (wait_reply deadline reentrant) (disarm deadline).

(** What a handler does on the thread; its failures and panics are in its reply. *)
Fixpoint run_handler (ops : list HandlerOp) : L unit :=
  match ops with
  | [] => ret tt
  | SetTimeout t :: ops => let* _ := modify (set_timeout t) in run_handler ops
  | CallOut stop :: ops => fun s =>
      match client_transact true s with
      | (Ok _, s) => run_handler ops s
      | (Err Hang, s) => (Err Hang, s)
      | (Err OutOfFuel, s) => (Err OutOfFuel, s)
      | (_, s) => if stop then (Ok tt, s) else run_handler ops s
      end
  end.
End Call.

(** A call of the peer inside the wait for a reply. *)
Definition nested_dispatch (deadline : option Z) (reentrant : bool) (handler : L unit) (sent : bool) : L unit :=
  let* _ := lift deadline in
  finally (let* _ := handler in if sent then ret tt else let* _ := modify (poison_slot reentrant) in throw SendFailed)
          (restore deadline).

(** The loop of [client_transact]. *)
Fixpoint wait_reply (fuel : nat) (deadline : option Z) (reentrant : bool) : L Z :=
  match fuel with
  | O => throw OutOfFuel
  | S fuel =>
      let* m := recv_or_poison deadline reentrant in
      match m with
      | Reply n status => let* _ := take_reply n in if status =? 0 then ret n else throw (Refused status)
      | DecStrong => wait_reply fuel deadline reentrant
      | Transact handler sent =>
          let* _ := nested_dispatch deadline reentrant (run_handler (wait_reply fuel) handler) sent in
          wait_reply fuel deadline reentrant
      end
  end.

(** ** Serving *)

(** [serve_once_on_slot]: the wait is configured by nobody but the server. *)
Definition serve_once (fuel : nat) : L unit :=
  let* s := get in
  if negb (pooled s) then throw DeadObject
  else
    let* m := recv_msg (read_timeout s) in
    match m with
    | Transact handler sent => let* _ := run_handler (wait_reply fuel) handler in if sent : bool then ret tt else throw SendFailed
    | DecStrong | Reply _ _ => ret tt
    end.

Definition clear_slot_read_timeout : L unit := modify (fun s => if pooled s then set_read None s else s).

(** [serve_blocking_on_inner] to the first error. *)
Fixpoint serve_blocking (fuel : nat) (first : bool) : L unit :=
  match fuel with
  | O => throw OutOfFuel
  | S fuel =>
      let* _ := serve_once fuel in
      let* _ := (if first then clear_slot_read_timeout else ret tt) in
      serve_blocking fuel false
  end.

(** The timeouts a worker arms before the handshake, and those after it. *)
Definition arm_handshake (handshake : option Z) (s : Link) : Link :=
  match handshake with
  | Some d => if accepts d then set_write (Some d) (set_read (Some d) s) else s
  | None => s
  end.
Definition arm_serve_timeouts (idle : option Z) (s : Link) : Link :=
  match idle with
  | Some d => if accepts d then set_write (Some d) (set_read (Some d) s) else s
  | None => set_write None (set_read None s)
  end.

(** A worker of the r34 profile, whose first frame is under the handshake's deadline, and one of android-13+ after its handshake. *)
Definition serve_r34 (fuel : nat) (handshake : option Z) : L unit := fun s => serve_blocking fuel true (arm_handshake handshake s).
Definition serve_android13 (fuel : nat) (handshake idle : option Z) : L unit := fun s =>
  serve_blocking fuel false (arm_serve_timeouts idle (arm_handshake handshake s)).
End Waits.

(** * Lemmas *)

(** ** The loops end *)

(** Nothing is added to the inbox, and fuel for every message in it is enough. *)
Definition ends {A} (n : nat) (m : L A) : Prop := forall s r s', m s = (r, s') ->
  (length (inbox s') <= length (inbox s))%nat /\ ((length (inbox s) < n)%nat -> r <> Err OutOfFuel).

Section Ends.
Context (accepts : Z -> bool).

Lemma ends_bind {A B} n (m : L A) (k : A -> L B) : ends n m -> (forall a, ends n (k a)) -> ends n (bind m k).
Proof.
  intros Hm Hk s r s'. unfold bind. destruct (m s) as [[a | e |] s1] eqn:E1; destruct (Hm _ _ _ E1) as [Hl Hf].
  - intros E2. destruct (Hk a _ _ _ E2) as [Hl2 Hf2]. split; [lia |]. intros. apply Hf2. lia.
  - intros [= <- <-]. split; [done |]. intros Hn [= ->]. by apply Hf.
  - by intros [= <- <-].
Qed.

Lemma ends_modify n f : (forall s, inbox (f s) = inbox s) -> ends n (modify f).
Proof. intros Hf s r s' [= <- <-]. by rewrite Hf. Qed.

Lemma ends_const {A} n (o : outcome Failure A) : o <> Err OutOfFuel -> ends n (fun s => (o, s)).
Proof. by intros Ho s r s' [= <- <-]. Qed.

Lemma ends_set n t : ends n (set_read_timeout accepts t).
Proof. intros s r s'. unfold set_read_timeout. destruct t as [d |]; [destruct (accepts d) |]; by intros [= <- <-]. Qed.

Lemma restore_inbox dl s : inbox (restore accepts dl s) = inbox s.
Proof. destruct dl as [d |]; [| done]. unfold restore, set_read_timeout. by destruct (accepts d). Qed.

Lemma ends_finally {A} n (m : L A) f : (forall s, inbox (f s) = inbox s) -> ends n m -> ends n (finally m f).
Proof.
  intros Hf Hm s r s'. unfold finally. destruct (m s) as [q s1] eqn:E1. destruct (Hm _ _ _ E1) as [Hl Hq].
  destruct q as [a | [] |]; intros [= <- <-]; rewrite ?Hf; split; try done; intros; by apply Hq.
Qed.

Lemma recv_shrinks c s r s' : recv_msg c s = (r, s') -> r <> Err OutOfFuel /\
  (length (inbox s') <= length (inbox s))%nat /\ (forall m, r = Ok m -> (length (inbox s') < length (inbox s))%nat).
Proof.
  unfold recv_msg. cbn. destruct (inbox s) as [| [delay m] rest] eqn:Ei, (read_timeout s) as [d |] eqn:Ed; try (destruct (d <=? delay));
    intros [= <- <-]; cbn; rewrite ?Ei; split_and!; try done; try lia; intros; cbn; lia.
Qed.

Lemma ends_client n w re : (forall dl re, ends n (w dl re)) -> ends n (client_transact accepts w re).
Proof.
  intros Hw. unfold client_transact. apply ends_bind; [by intros s r s' [= <- <-] |]. intros s. destruct (negb _); [by apply ends_const |].
  apply ends_bind; [by apply ends_modify |]. intros _. cbv zeta. apply ends_bind; [destruct (timeout s); [apply ends_set | by apply ends_const] |].
  intros _. apply ends_finally; [by destruct (timeout s) | apply Hw].
Qed.

Lemma ends_handler n w ops : (forall dl re, ends n (w dl re)) -> ends n (run_handler accepts w ops).
Proof.
  intros Hw. induction ops as [| [stop | t] ops IH]; cbn [run_handler]; [by apply ends_const | | by apply ends_bind; [by apply ends_modify |]].
  intros s r s'. destruct (client_transact accepts w true s) as [q s1] eqn:E1. destruct (ends_client n w true Hw _ _ _ E1) as [Hl Hq].
  assert (Hrest : run_handler accepts w ops s1 = (r, s') -> (length (inbox s') <= length (inbox s))%nat /\ ((length (inbox s) < n)%nat -> r <> Err OutOfFuel)).
  { intros E2. destruct (IH _ _ _ E2) as [Hl2 Hq2]. split; [lia |]. intros. apply Hq2. lia. }
  destruct q as [a | [] |]; try (destruct stop); try exact Hrest; intros [= <- <-]; split; try done; intros Hn; exfalso; by apply (Hq Hn).
Qed.

Lemma ends_wait n m dl re : (n <= m)%nat -> ends n (wait_reply accepts m dl re).
Proof.
  revert n dl re. induction m as [| m IH]; intros n dl re Hnm s r s'; [intros [= <- <-]; split; [done | lia] |]. cbn [wait_reply].
  unfold bind at 1, recv_or_poison. destruct (recv_msg dl s) as [q s1] eqn:E1. destruct (recv_shrinks _ _ _ _ E1) as (Hq & Hl & Hs).
  destruct q as [msg | e |]; [| destruct e; intros [= <- <-]; split; cbn; done | intros [= <- <-]; split; cbn; done].
  specialize (Hs _ eq_refl).
  assert (Hk : forall A (k : L A) (x : outcome Failure A) y, ends (pred n) k -> k s1 = (x, y) ->
    (length (inbox y) <= length (inbox s))%nat /\ ((length (inbox s) < n)%nat -> x <> Err OutOfFuel)).
  { intros A k x y Hk E. destruct (Hk _ _ _ E) as [H1 H2]. split; [lia |]. intros. apply H2. lia. }
  assert (Hw : forall dl re, ends (pred n) (wait_reply accepts m dl re)) by (intros; apply IH; lia).
  destruct msg as [k st | | h sent]; apply Hk; [| apply Hw |].
  - apply ends_bind; [by apply ends_modify |]. intros _. destruct (st =? 0); by apply ends_const.
  - apply ends_bind; [| intros; apply Hw]. apply ends_bind; [destruct dl; [apply ends_set | by apply ends_const] |]. intros _.
    apply ends_finally; [apply restore_inbox |]. apply ends_bind; [by apply ends_handler |]. intros _.
    destruct sent; [by apply ends_const |]. apply ends_bind; [by apply ends_modify | intros; by apply ends_const].
Qed.
End Ends.

(** ** Timeouts and replies *)

Section Bounded.
Context (accepts : Z -> bool).

Definition acceptable (t : option Z) : Prop := match t with Some d => accepts d = true | None => True end.
Definition op_ok (o : HandlerOp) : Prop := match o with SetTimeout t => acceptable t | CallOut _ => True end.
Definition msg_ok (x : Z * Msg) : Prop := match x.2 with Transact h _ => Forall op_ok h | _ => True end.

(** Every wait so far was under its own deadline, configured deadlines are accepted, and calls are numbered. *)
Record clean (s : Link) : Prop := mkClean {
  cl_waits : Forall (fun w => w.1 = w.2) (waits s);
  cl_timeout : acceptable (timeout s);
  cl_inbox : Forall msg_ok (inbox s);
  cl_open : Forall (fun k => k < next_call s) (open s);
  cl_once : NoDup (open s)
}.

(** The peer answered the innermost call first, and no nested call has failed with its reply still to come. *)
Definition sound (s : Link) : Prop := lawful s = true /\ spoiled s = false.

(** What a settled computation leaves, for a timeout [dl] before and after. *)
Record stays (dl : option Z) (s s' : Link) : Prop := mkStays {
  st_read : read_timeout s' = dl;
  st_clean : clean s';
  st_sound : sound s' -> sound s;
  st_next : next_call s <= next_call s'
}.

Definition settled {A} (r : outcome Failure A) : Prop := match r with Err Hang | Err OutOfFuel => False | _ => True end.

Lemma stays_trans dl dl' s s1 s2 : stays dl s s1 -> stays dl' s1 s2 -> stays dl' s s2.
Proof. intros [_ _ Hs Hn] [Hr Hc Hs' Hn']. split; try done; [auto | lia]. Qed.

Lemma finally_inv {A} (m : L A) f s r s' : finally m f s = (r, s') -> settled r -> exists s1, m s = (r, s1) /\ s' = f s1.
Proof. unfold finally. destruct (m s) as [[a | [] |] s1]; intros [= <- <-]; try done; eauto. Qed.

Lemma restore_stays dl s : clean s -> acceptable dl -> (dl = None -> read_timeout s = None) ->
  stays dl s (restore accepts dl s) /\ open (restore accepts dl s) = open s /\ pooled (restore accepts dl s) = pooled s.
Proof.
  intros Hc Ha Hn. destruct dl as [d |]; cbn; [rewrite Ha |]; cbn; (split; [| done]); split; cbn; try done; try lia; [| auto].
  by destruct Hc.
Qed.

Lemma stays_note dl s : clean s -> read_timeout s = dl -> stays dl s (note_wait (read_timeout s, dl) s).
Proof.
  intros [H1 H2 H3 H4 H5] Hr. split; cbn; try done; try lia. split; cbn; try done. apply Forall_app. split; [done |].
  by apply Forall_singleton.
Qed.

Lemma stays_inbox dl l s : clean s -> read_timeout s = dl -> Forall msg_ok l -> stays dl s (set_inbox l s).
Proof. intros [H1 H2 H3 H4 H5] Hr Hl. split; cbn; (done || lia). Qed.

Lemma stays_poison dl re s : clean s -> read_timeout s = dl -> stays dl s (poison_slot re s) /\
  (sound (poison_slot re s) -> re = false /\ pooled (poison_slot re s) = false) /\ (re = true -> pooled (poison_slot re s) = pooled s).
Proof.
  intros [H1 H2 H3 H4 H5] Hr. unfold sound. split_and!; [| destruct re; by intros [_ ?] | by intros ->].
  split; cbn; [done | by split | unfold sound; cbn; destruct re; [by intros [_ ?] | done] | lia].
Qed.

Lemma recv_msg_stays dl s r s' : clean s -> read_timeout s = dl -> recv_msg dl s = (r, s') -> settled r ->
  stays dl s s' /\ open s' = open s /\ pooled s' = pooled s /\ (sound s -> sound s') /\
  match r with Ok m => msg_ok (0, m) | Err e => e = TimedOut | Panic => False end.
Proof.
  intros Hc Hr. pose proof (stays_note dl s Hc Hr) as Hn. unfold recv_msg. cbv zeta. set (s1 := note_wait _ s) in *.
  assert (F : open s1 = open s /\ pooled s1 = pooled s /\ (sound s -> sound s1)) by done. destruct F as (F1 & F2 & F3).
  pose proof (cl_inbox _ (st_clean _ _ _ Hn)) as Hi. pose proof (st_read _ _ _ Hn) as Hr1. clearbody s1.
  assert (Hset : forall l, Forall msg_ok l -> stays dl s (set_inbox l s1)).
  { intros l Hl. eapply stays_trans; [exact Hn |]. by apply stays_inbox; [apply Hn | |]. }
  destruct (inbox s1) as [| [delay m] rest] eqn:Ei; rewrite Hr1; [| apply Forall_cons in Hi as [Hm Hi]];
    destruct dl as [d |]; try (destruct (d <=? delay)); intros [= <- <-] Hs; try done; split_and!; try done; apply Hset; [by constructor | done | done].
Qed.

Lemma recv_stays dl re s r s' : clean s -> read_timeout s = dl -> recv_or_poison dl re s = (r, s') -> settled r ->
  stays dl s s' /\ open s' = open s /\
  match r with
  | Ok m => msg_ok (0, m) /\ pooled s' = pooled s /\ (sound s -> sound s')
  | Err e => e = TimedOut /\ (sound s' -> re = false /\ pooled s' = false) /\ (re = true -> pooled s' = pooled s)
  | Panic => False
  end.
Proof.
  intros Hc Hr. unfold recv_or_poison. destruct (recv_msg dl s) as [q s1] eqn:E1. intros E2 Hs.
  assert (Hq : settled q) by (destruct q as [m | [] |]; injection E2 as <- <-; done).
  destruct (recv_msg_stays dl s q s1 Hc Hr E1 Hq) as (H1 & H2 & H3 & H4 & H5). destruct q as [m | e |]; [| | done].
  - injection E2 as <- <-. by split_and!.
  - subst e. injection E2 as <- <-. destruct (stays_poison dl re s1 (st_clean _ _ _ H1) (st_read _ _ _ H1)) as (G1 & G2 & G3).
    split; [by eapply stays_trans |]. split; [done |]. split_and!; try done. intros Hre. by rewrite (G3 Hre).
Qed.

(** What the end of a call means for the call [n] over [rest]. *)
Definition answered (re : bool) (n : Z) (rest : list Z) (s' : Link) (r : outcome Failure Z) : Prop :=
  match r with
  | Ok k => k = n /\ open s' = rest
  | Err _ => open s' = rest \/ re = false /\ pooled s' = false
  | Panic => False
  end.

Definition wait_good (w : option Z -> bool -> L Z) : Prop := forall dl re s n rest r s',
  clean s -> acceptable dl -> read_timeout s = dl -> w dl re s = (r, s') -> settled r ->
  stays dl s s' /\ (re = true -> pooled s' = pooled s) /\ (sound s' -> open s = n :: rest -> answered re n rest s' r).

Lemma stays_refl dl s : clean s -> read_timeout s = dl -> stays dl s s.
Proof. intros. by split. Qed.

Lemma clean_read t s : clean s -> clean (set_read t s).
Proof. by intros []. Qed.

Lemma stays_read dl dl' s s' : stays dl s s' -> stays dl' s (set_read dl' s').
Proof. intros [H1 H2 H3 H4]. split; cbn; try done. by apply clean_read. Qed.

Lemma stays_from_read dl dl' s s' : stays dl' (set_read dl s) s' -> stays dl' s s'.
Proof. intros [H1 H2 H3 H4]. by split. Qed.

Lemma send_stays s : clean s -> let s1 := set_open (next_call s :: open s) (next_call s + 1) (lawful s) s in
  clean s1 /\ read_timeout s1 = read_timeout s /\ (sound s1 -> sound s) /\ next_call s <= next_call s1.
Proof.
  intros [H1 H2 H3 H4 H5]. split_and!; cbn; try done; [| lia]. split; cbn; try done.
  - constructor; [lia |]. eapply Forall_impl; [done |]. cbn. lia.
  - constructor; [| done]. rewrite Forall_forall in H4. intros Hin. specialize (H4 _ Hin). cbn in H4. lia.
Qed.

Lemma call_good w re s r s' : wait_good w -> clean s -> read_timeout s = None -> client_transact accepts w re s = (r, s') -> settled r ->
  stays None s s' /\ (re = true -> pooled s' = pooled s) /\ (sound s' -> answered re (next_call s) (open s) s' r).
Proof.
  intros Hw Hc Hr. unfold client_transact, bind at 1, get. destruct (pooled s) eqn:Ep; cbn [negb].
  2: { intros [= <- <-] _. split_and!; [by apply stays_refl | done | by left]. }
  unfold bind at 1, send_request, modify. cbv zeta. set (s1 := set_open _ _ _ s).
  destruct (send_stays s Hc) as (Hc1 & Hr1 & Hs1 & Hn1). pose proof (cl_timeout _ Hc) as Ht. fold s1 in Hc1, Hr1, Hs1, Hn1.
  assert (Ha : exists s2, arm accepts (timeout s) s1 = (Ok tt, s2) /\ clean s2 /\ read_timeout s2 = timeout s /\ open s2 = open s1 /\
                          pooled s2 = pooled s1 /\ (sound s2 -> sound s1) /\ next_call s2 = next_call s1).
  { destruct (timeout s) as [d |]; cbn in *; [| exists s1; split_and!; try done; congruence].
    rewrite Ht. eexists. split_and!; try done. by apply clean_read. }
  destruct Ha as (s2 & Ea & Hc2 & Hr2 & Ho2 & Hp2 & Hs2 & Hn2). unfold bind at 1. rewrite Ea. intros E Hset.
  destruct (finally_inv _ _ _ _ _ E Hset) as (s3 & E3 & ->).
  destruct (Hw _ re s2 (next_call s) (open s) r s3 Hc2 Ht Hr2 E3 Hset) as (Hst & Hpo & Han).
  assert (Hfin : stays None s (disarm (timeout s) s3)).
  { destruct Hst as [G1 G2 G3 G4]. assert (Hb : stays (timeout s) s s3) by (split; try done; [tauto | lia]).
    destruct (timeout s); cbn; [by apply (stays_read _ None) in Hb | done]. }
  split; [done |]. assert (Hd : pooled (disarm (timeout s) s3) = pooled s3 /\ open (disarm (timeout s) s3) = open s3 /\
    (sound (disarm (timeout s) s3) -> sound s3)) by (by destruct (timeout s)). destruct Hd as (-> & Hd2 & Hd3).
  split; [intros Hre; by rewrite (Hpo Hre), Hp2 |]. intros Hso. specialize (Han (Hd3 Hso) Ho2).
  unfold answered in *. rewrite Hd2. by destruct (timeout s).
Qed.

Lemma handler_good w ops s r s' : wait_good w -> Forall op_ok ops -> clean s -> read_timeout s = None ->
  run_handler accepts w ops s = (r, s') -> settled r ->
  r = Ok tt /\ stays None s s' /\ pooled s' = pooled s /\ (sound s' -> open s' = open s).
Proof.
  intros Hw. revert s. induction ops as [| [stop | t] ops IH]; intros s Hops Hc Hr; cbn [run_handler].
  - intros [= <- <-] _. split_and!; try done.
  - apply Forall_cons in Hops as [_ Hops]. destruct (client_transact accepts w true s) as [q s1] eqn:E1. intros E Hset.
    assert (Hq : settled q) by (destruct q as [a | [] |]; try done; by injection E as <- <-).
    destruct (call_good w true s q s1 Hw Hc Hr E1 Hq) as (G1 & G2 & G3). specialize (G2 eq_refl).
    assert (Ho : sound s1 -> open s1 = open s).
    { intros Hs1. specialize (G3 Hs1). unfold answered in G3. destruct q; [tauto | destruct G3 as [? | [? _]]; done | done]. }
    assert (Hrest : run_handler accepts w ops s1 = (r, s') -> r = Ok tt /\ stays None s s' /\ pooled s' = pooled s /\ (sound s' -> open s' = open s)).
    { intros E2. destruct (IH s1 Hops (st_clean _ _ _ G1) (st_read _ _ _ G1) E2 Hset) as (-> & F1 & F2 & F3).
      split_and!; [done | by eapply stays_trans | congruence |]. intros Hso. rewrite (F3 Hso). apply Ho. by apply (st_sound _ _ _ F1). }
    destruct q as [a | [] |]; try done; try (by apply Hrest); destruct stop; try (by apply Hrest); injection E as <- <-; by split_and!.
  - apply Forall_cons in Hops as [Ht Hops]. unfold bind, modify. intros E Hset. cbn in Ht.
    assert (Hc1 : clean (set_timeout t s)) by (by destruct Hc).
    destruct (IH _ Hops Hc1 Hr E Hset) as (-> & [F1 F2 F3 F4] & F5 & F6). by split_and!; [| split | |].
Qed.

Lemma lift_stays dl s : clean s -> read_timeout s = dl -> exists s1, lift accepts dl s = (Ok tt, s1) /\
  stays None s s1 /\ open s1 = open s /\ pooled s1 = pooled s /\ (sound s -> sound s1).
Proof.
  intros Hc Hr. destruct dl as [d |]; cbn; eexists; (split; [done |]); split_and!; try done.
  apply (stays_read (Some d)). by apply stays_refl.
Qed.

Lemma without_head n rest : NoDup (n :: rest) -> without n (n :: rest) = rest.
Proof.
  intros [Hn _]%NoDup_cons. unfold without. cbn. rewrite Z.eqb_refl. cbn. revert Hn. induction rest as [| k l IH]; [done |].
  rewrite not_elem_of_cons. intros [Hk Hl]. cbn. destruct (Z.eqb_spec k n); [congruence |]. cbn. by rewrite IH.
Qed.

Lemma without_NoDup n l : NoDup l -> NoDup (without n l).
Proof. unfold without. rewrite !NoDup_ListNoDup. apply List.NoDup_filter. Qed.

Lemma take_stays dl n k rest s s' : clean s -> read_timeout s = dl -> take_reply k s = (Ok tt, s') ->
  stays dl s s' /\ pooled s' = pooled s /\ (sound s' -> open s = n :: rest -> k = n /\ open s' = rest).
Proof.
  intros [H1 H2 H3 H4 H5] Hr. unfold take_reply, modify. intros [= <-].
  assert (Hs : sound (set_open (without k (open s)) (next_call s) (lawful s && bool_decide (head (open s) = Some k)) s) ->
               sound s /\ head (open s) = Some k).
  { unfold sound. cbn. rewrite andb_true_iff, bool_decide_eq_true. tauto. }
  split_and!; [| done |].
  - split; cbn; [done | | tauto | lia]. split; cbn; try done; [| by apply without_NoDup].
    apply Forall_forall. intros x Hx. unfold without in Hx. rewrite list_elem_of_In, filter_In, <- list_elem_of_In in Hx.
    rewrite Forall_forall in H4. apply H4, Hx.
  - intros [Hso Hh]%Hs Ho. rewrite Ho in Hh. injection Hh as <-. cbn. split; [done |].
    rewrite Ho in *. by apply without_head.
Qed.

Lemma nested_good w dl re h sent s r s' : wait_good w -> Forall op_ok h -> clean s -> acceptable dl -> read_timeout s = dl ->
  nested_dispatch accepts dl re (run_handler accepts w h) sent s = (r, s') -> settled r ->
  r <> Panic /\ stays dl s s' /\ (re = true -> pooled s' = pooled s) /\
  (sound s' -> open s' = open s /\ (r <> Ok tt -> re = false /\ pooled s' = false)).
Proof.
  intros Hw Hh Hc Ha Hr. unfold nested_dispatch. destruct (lift_stays dl s Hc Hr) as (s1 & E1 & L1 & L2 & L3 & L4). unfold bind at 1. rewrite E1. intros E Hset.
  destruct (finally_inv _ _ _ _ _ E Hset) as (s2 & E2 & ->). unfold bind at 1 in E2.
  destruct (run_handler accepts w h s1) as [q t] eqn:Eq.
  assert (Hq : settled q) by (destruct q as [[] | [] |]; try done; injection E2 as <- <-; done).
  destruct (handler_good w h s1 q t Hw Hh (st_clean _ _ _ L1) (st_read _ _ _ L1) Eq Hq) as (-> & H1 & H2 & H3).
  assert (Hback : forall t2, stays None t t2 -> stays dl s (restore accepts dl t2) /\ open (restore accepts dl t2) = open t2 /\
    pooled (restore accepts dl t2) = pooled t2 /\ (sound (restore accepts dl t2) -> sound t2)).
  { intros t2 Ht2. destruct (restore_stays dl t2 (st_clean _ _ _ Ht2) Ha) as (R1 & R2 & R3); [intros _; apply Ht2 |].
    split_and!; [| done | done | apply R1]. eapply stays_trans; [exact L1 |]. eapply stays_trans; [exact H1 |]. by eapply stays_trans. }
  assert (Ho : sound t -> open t = open s) by (intros Hs; by rewrite (H3 Hs)).
  destruct sent.
  - injection E2 as <- <-. destruct (Hback t (stays_refl _ _ (st_clean _ _ _ H1) (st_read _ _ _ H1))) as (B1 & -> & -> & B4).
    split_and!; [done | done | intros; congruence |]. intros Hs. split; [auto | done].
  - injection E2 as <- <-. destruct (stays_poison None re t (st_clean _ _ _ H1) (st_read _ _ _ H1)) as (P1 & P2 & P3).
    destruct (Hback _ P1) as (B1 & -> & -> & B4). split_and!; [done | done | intros Hre; rewrite (P3 Hre); congruence |].
    intros Hs. specialize (B4 Hs). split; [apply Ho, P1, B4 | intros _; auto].
Qed.

Lemma wait_reply_good fuel : wait_good (wait_reply accepts fuel).
Proof.
  induction fuel as [| fuel IH]; intros dl re s n rest r s' Hc Ha Hr; [by intros [= <- <-] |]. cbn [wait_reply].
  unfold bind at 1. destruct (recv_or_poison dl re s) as [q s1] eqn:E1. intros E Hset.
  assert (Hq : settled q) by (destruct q as [a | [] |]; try done; by injection E as <- <-).
  destruct (recv_stays dl re s q s1 Hc Hr E1 Hq) as (G1 & G2 & G3). pose proof (st_clean _ _ _ G1) as Hc1. pose proof (st_read _ _ _ G1) as Hr1.
  destruct q as [m | e |]; [destruct G3 as (Hm & Hp & _) | | done].
  2: { injection E as <- <-. destruct G3 as (-> & F1 & F2). split_and!; [done | done |]. intros Hs _. right. auto. }
  destruct m as [k st | | h sent].
  - unfold bind in E. destruct (take_reply k s1) as [x s2] eqn:Et. pose proof Et as Et'. unfold take_reply, modify in Et'. injection Et' as <- _.
    destruct (take_stays dl n k rest s1 s2 Hc1 Hr1 Et) as (T1 & T2 & T3).
    assert (stays dl s s2) by (by eapply stays_trans). destruct (st =? 0); injection E as <- <-;
      (split_and!; [done | intros _; congruence |]; intros Hs Ho; rewrite <- G2 in Ho; destruct (T3 Hs Ho) as [-> ?]; cbn; auto).
  - destruct (IH dl re s1 n rest r s' Hc1 Ha Hr1 E Hset) as (I1 & I2 & I3). split_and!; [by eapply stays_trans | | by rewrite <- G2].
    intros Hre. rewrite (I2 Hre). done.
  - unfold bind at 1 in E. destruct (nested_dispatch _ _ _ _ _ s1) as [x s2] eqn:En.
    assert (Hx : settled x) by (destruct x as [a | [] |]; try done; by injection E as <- <-).
    destruct (nested_good _ dl re h sent s1 x s2 IH Hm Hc1 Ha Hr1 En Hx) as (N0 & N1 & N2 & N4).
    assert (Hs2 : stays dl s s2) by (by eapply stays_trans). destruct x as [[] | e |].
    + destruct (IH dl re s2 n rest r s' (st_clean _ _ _ N1) Ha (st_read _ _ _ N1)) as (I1 & I2 & I3); [done | done |].
      split_and!; [by eapply stays_trans | intros Hre; rewrite (I2 Hre), (N2 Hre); done |].
      intros Hs Ho. apply I3; [done |]. destruct (N4 (st_sound _ _ _ I1 Hs)) as [-> _]. congruence.
    + injection E as <- <-. split_and!; [done | intros Hre; rewrite (N2 Hre); done |]. intros Hs _. right. by apply N4.
    + done.
Qed.

(** ** Calls with a deadline return *)

Definition op_bounded (o : HandlerOp) : Prop := match o with SetTimeout None => False | _ => True end.
Definition msg_bounded (x : Z * Msg) : Prop := match x.2 with Transact h _ => Forall op_bounded h | _ => True end.

(** The session has a deadline, and no handler takes it away. *)
Definition bounded (s : Link) : Prop := timeout s <> None /\ Forall msg_bounded (inbox s).

Definition wait_returns (w : option Z -> bool -> L Z) : Prop := forall dl re s r s',
  clean s -> bounded s -> acceptable dl -> dl <> None -> read_timeout s = dl -> w dl re s = (r, s') -> r <> Err Hang /\ bounded s'.

Lemma call_returns w re s r s' : wait_returns w -> clean s -> bounded s -> read_timeout s = None ->
  client_transact accepts w re s = (r, s') -> r <> Err Hang /\ bounded s'.
Proof.
  intros Hw Hc [Ht Hb] Hr. unfold client_transact, bind at 1, get. destruct (pooled s); cbn [negb]; [| by intros [= <- <-]].
  unfold bind at 1, send_request, modify. cbv zeta. set (s1 := set_open _ _ _ s).
  destruct (send_stays s Hc) as (Hc1 & _). fold s1 in Hc1. pose proof (cl_timeout _ Hc) as Ha.
  destruct (timeout s) as [d |] eqn:Ed; [| done]. unfold bind at 1. cbn in Ha |- *. rewrite Ha. unfold finally.
  destruct (w (Some d) re (set_read (Some d) s1)) as [q s2] eqn:Eq.
  destruct (Hw (Some d) re _ _ _ (clean_read _ _ Hc1) ltac:(by split; [cbn; rewrite Ed |]) Ha ltac:(done) eq_refl Eq) as [H1 H2].
  destruct q as [a | [] |]; intros [= <- <-]; by split.
Qed.

Lemma handler_returns w ops s r s' : wait_good w -> wait_returns w -> Forall op_ok ops -> Forall op_bounded ops -> clean s -> bounded s ->
  read_timeout s = None -> run_handler accepts w ops s = (r, s') -> r <> Err Hang /\ bounded s'.
Proof.
  intros Hg Hw. revert s. induction ops as [| [stop | t] ops IH]; intros s Hops Hbo Hc Hb Hr; cbn [run_handler]; [by intros [= <- <-] | |].
  - apply Forall_cons in Hops as [_ Hops]. apply Forall_cons in Hbo as [_ Hbo].
    destruct (client_transact accepts w true s) as [q s1] eqn:E1. destruct (call_returns w true s q s1 Hw Hc Hb Hr E1) as [H1 H2].
    assert (Hgo : settled q -> run_handler accepts w ops s1 = (r, s') -> r <> Err Hang /\ bounded s').
    { intros Hq. destruct (call_good w true s q s1 Hg Hc Hr E1 Hq) as (G & _). by apply IH; [| | apply G | | apply G]. }
    destruct q as [a | [] |]; try done; try (by apply Hgo); try destruct stop; try (by apply Hgo); by intros [= <- <-].
  - apply Forall_cons in Hops as [Ht Hops]. apply Forall_cons in Hbo as [Hx Hbo]. unfold bind, modify. apply IH; try done; [by destruct Hc |].
    destruct Hb as [_ Hb]. split; [| done]. cbn. by destruct t.
Qed.

Lemma recv_bounded dl re s r s' : bounded s -> read_timeout s = dl -> dl <> None -> recv_or_poison dl re s = (r, s') ->
  r <> Err Hang /\ bounded s' /\ (forall m, r = Ok m -> msg_bounded (0, m)).
Proof.
  intros [Ht Hb] Hr Hd. unfold recv_or_poison, recv_msg. cbn. rewrite Hr. destruct dl as [d |]; [| done].
  destruct (inbox s) as [| [delay m] rest] eqn:Ei; [| apply Forall_cons in Hb as [Hm Hb]; destruct (d <=? delay)]; intros [= <- <-];
    (split_and!; [done | split; cbn; rewrite ?Ei; [done |] | try (by intros ? [= <-])]); try done. by constructor.
Qed.

Lemma nested_returns w dl re h sent s r s' : wait_good w -> wait_returns w -> Forall op_ok h -> Forall op_bounded h -> clean s -> bounded s ->
  read_timeout s = dl -> nested_dispatch accepts dl re (run_handler accepts w h) sent s = (r, s') -> r <> Err Hang /\ bounded s'.
Proof.
  intros Hg Hw Hh Hbo Hc Hb Hr. unfold nested_dispatch. destruct (lift_stays dl s Hc Hr) as (s1 & E1 & L1 & _). unfold bind at 1. rewrite E1.
  assert (Hb1 : bounded s1) by (destruct dl; cbn in E1; by injection E1 as <-).
  unfold finally, bind at 1. destruct (run_handler accepts w h s1) as [q t] eqn:Eq.
  destruct (handler_returns w h s1 q t Hg Hw Hh Hbo (st_clean _ _ _ L1) Hb1 (st_read _ _ _ L1) Eq) as [H1 H2].
  assert (Hre : forall t, bounded t -> bounded (restore accepts dl t)).
  { intros x Hx. destruct dl as [d |]; [| done]. unfold restore, set_read_timeout. by destruct (accepts d). }
  destruct q as [[] | e |]; [destruct sent | destruct e |]; intros [= <- <-]; split; try done; by apply Hre.
Qed.

Lemma wait_reply_returns fuel : wait_returns (wait_reply accepts fuel).
Proof.
  induction fuel as [| fuel IH]; intros dl re s r s' Hc Hb Ha Hd Hr; [by intros [= <- <-] |]. cbn [wait_reply]. unfold bind at 1.
  destruct (recv_or_poison dl re s) as [q s1] eqn:E1. destruct (recv_bounded dl re s q s1 Hb Hr Hd E1) as (Hq & Hb1 & Hm).
  destruct q as [m | e |]; [| intros [= <- <-]; split; [congruence | done] | by intros [= <- <-]].
  destruct (recv_stays dl re s (Ok m) s1 Hc Hr E1 I) as (G & _ & Hok & _). specialize (Hm m eq_refl).
  pose proof (st_clean _ _ _ G) as Hc1. pose proof (st_read _ _ _ G) as Hr1. destruct m as [k st | | h sent].
  - unfold bind, take_reply, modify. destruct (st =? 0); by intros [= <- <-].
  - by apply IH.
  - unfold bind at 1. destruct (nested_dispatch _ _ _ _ _ s1) as [x s2] eqn:En.
    destruct (nested_returns _ dl re h sent s1 x s2 (wait_reply_good fuel) IH Hok Hm Hc1 Hb1 Hr1 En) as [Hx Hb2].
    destruct x as [[] | e |]; [| intros [= <- <-]; split; [congruence | done] | by intros [= <- <-]].
    destruct (nested_good _ dl re h sent s1 (Ok tt) s2 (wait_reply_good fuel) Hok Hc1 Ha Hr1 En I) as (_ & N & _).
    by apply IH; [apply N | | | | apply N].
Qed.

(** * Theorems *)

(** The transport takes the deadline of the session and those that handlers set on it meanwhile. *)
Definition deadlines_accepted (s : Link) : Prop := acceptable (timeout s) /\ Forall msg_ok (inbox s).

(** C26: A call over an idle connection whose transport accepts the deadlines that are configured, with any nesting of the calls of both
    sides inside it: every wait for a reply is under the deadline its own call was configured with, and none is left on the socket
    afterwards. If the session has a deadline and no handler takes it away ([bounded]), the call returns. If the peer answers the
    innermost call first and no nested call failed, the call returns its own reply, and a connection that can still be used has no
    reply on its way. (A deadline that the transport refuses is apart, [refused_deadline_desyncs].) *)
Theorem call_under_its_deadline fuel s r s' : deadlines_accepted s -> Forall (fun w => w.1 = w.2) (waits s) ->
  read_timeout s = None -> open s = [] -> (length (inbox s) < fuel)%nat ->
  client_transact accepts (wait_reply accepts fuel) false s = (r, s') ->
  r <> Err OutOfFuel /\ (bounded s -> r <> Err Hang) /\
  (r <> Err Hang -> read_timeout s' = None /\ Forall (fun w => w.1 = w.2) (waits s') /\
    (sound s' -> (forall k, r = Ok k -> k = next_call s) /\ (pooled s' = true -> open s' = []))).
Proof.
  intros [Ht Hi] Hwt Hr Ho Hf E. assert (Hc : clean s) by (split; rewrite ?Ho; [done | done | done | constructor | constructor]).
  assert (Hout : r <> Err OutOfFuel) by (eapply (ends_client accepts fuel); [intros; by apply ends_wait | exact E | done]).
  split_and!; [done | |].
  - intros Hb. eapply call_returns; [apply (wait_reply_returns fuel) | exact Hc | exact Hb | exact Hr | exact E].
  - intros Hh. assert (Hs : settled r) by (destruct r as [| [] |]; done).
    destruct (call_good _ false s r s' (wait_reply_good fuel) Hc Hr E Hs) as (G & _ & Ha).
    split_and!; [apply G | apply G |]. intros Hso. specialize (Ha Hso). rewrite Ho in Ha. destruct r as [k | e |]; cbn in Ha; [| | done].
    + destruct Ha as [-> ?]. split; [by intros k [= <-] | done].
    + split; [done |]. destruct Ha as [? | [_ ->]]; done.
Qed.
End Bounded.

(** * Executed runs *)

Definition socket (d : Z) : bool := 0 <? d.

Definition idle_link (t : option Z) (l : list (Z * Msg)) : Link := mkLink None None t l [] 1 true [] true false.

(** The peer calls back, and its handler calls out in turn. *)
Definition nested_peer : list (Z * Msg) := [(1, Transact [CallOut true] true); (2, Reply 2 0); (3, Reply 1 0)].

Local Abbreviation call := (client_transact socket (wait_reply socket 9) false).

Lemma call_under_its_deadline_witness :
  (call (idle_link (Some 5) nested_peer)).1 = Ok 1 /\ read_timeout (call (idle_link (Some 5) nested_peer)).2 = None /\
  open (call (idle_link (Some 5) nested_peer)).2 = [] /\ (call (idle_link (Some 5) [])).1 <> Err Hang.
Proof.
  destruct (call (idle_link (Some 5) nested_peer)) as [r s'] eqn:E.
  destruct (call_under_its_deadline socket 9 (idle_link (Some 5) nested_peer) r s') as (_ & _ & H);
    [by repeat constructor | constructor | done | done | cbn; lia | exact E |].
  assert (Er : r = Ok 1) by (change r with (r, s').1; rewrite <- E; by vm_compute).
  assert (Es : sound s' /\ pooled s' = true) by (change s' with (r, s').2; rewrite <- E; by vm_compute).
  destruct H as (H1 & _ & H3); [by rewrite Er |]. destruct (H3 (proj1 Es)) as [_ H4]. split_and!; [done | done | by apply H4, Es |].
  destruct (call (idle_link (Some 5) [])) as [q t] eqn:Eq.
  apply (call_under_its_deadline socket 9 (idle_link (Some 5) []) q t); [by repeat constructor | constructor | done | done | cbn; lia | exact Eq | done].
Defined.

(** A nested call that times out leaves its slot in the pool, and the call around it takes the late reply for its own. *)
Lemma late_reply_misread :
  let '(r, s) := call (idle_link (Some 5) [(1, Transact [CallOut true] true); (7, Reply 2 0); (1, Reply 1 0)]) in
  r = Ok 2 /\ lawful s = true /\ pooled s = true /\ open s = [1].
Proof. by vm_compute. Qed.

(** A deadline that the socket refuses fails the call after its request was sent; the slot stays, and the next call gets
    the reply. *)
Lemma refused_deadline_desyncs :
  let '(r, s) := call (idle_link (Some 0) [(1, Reply 1 0); (1, Reply 2 0)]) in
  r = Err InvalidDeadline /\ pooled s = true /\ (call (set_timeout None s)).1 = Ok 1.
Proof. by vm_compute. Qed.

(** The first handler of an r34 connection calls out under the deadline of the handshake, which nobody configured for the call;
    and the timeout for writes of the handshake is never lifted. *)
Lemma handshake_deadline_lingers :
  let '(_, s) := serve_r34 socket 9 (Some 10) (idle_link None [(1, Transact [CallOut true] true); (2, Reply 1 0)]) in
  waits s = [(Some 10, Some 10); (Some 10, None); (None, None)] /\ write_timeout s = Some 10.
Proof. by vm_compute. Qed.
