(* ===== verification/RefCounter.v ===== *)
(** The reference counter of native binders (src/rsbinder/src/ref_counter.rs):
    [inc], [dec] and [attempt_inc] on one atomic [i32], under any interleaving.

    Each atomic operation is one step. Threads are alike, so the state keeps how
    many of them stand at each point inside an operation, next to the counter;
    [attempting] holds the local [curr_count] of those in [attempt_inc]. A life
    begins when the sentinel is removed and ends when the exchange of [dec] puts it
    back; [dec] runs its closure after that, in a step of its own, so a new life
    may have begun by then ([revived_before_closure]). *)

From Stdlib Require Import ZArith Lia.
From stdpp Require Import base list.
From S2P Require Import Prelude.

Definition INITIAL_STRONG_VALUE : Z := 268435456.

Record RefCounter : Type := mkCounter {
  count : Z;
  held : Z;
  clearing : Z;
  releasing : Z;
  attempting : list Z;
  undoing : Z;
  begun : Z;
  ended : Z;
  finishing : Z;
  closed : Z
}.

Definition counter_default : RefCounter := mkCounter INITIAL_STRONG_VALUE 0 0 0 [] 0 0 0 0 0.

(** A reference obtained from [prev]: the thread that saw the sentinel still
    has to remove it, the others are done. *)
Definition obtained (prev : Z) (c : RefCounter) : RefCounter :=
  if prev =? INITIAL_STRONG_VALUE
  then mkCounter (wrap_i 32 (count c + 1)) (held c) (clearing c + 1) (releasing c) (attempting c)
                 (undoing c) (begun c) (ended c) (finishing c) (closed c)
  else mkCounter (wrap_i 32 (count c + 1)) (held c + 1) (clearing c) (releasing c) (attempting c)
                 (undoing c) (begun c) (ended c) (finishing c) (closed c).

(** [inc]: the [fetch_add]. *)
Definition inc (c : RefCounter) : RefCounter := obtained (count c) c.

(** [inc] and [attempt_inc]: the [fetch_sub] of the sentinel. *)
Definition clear_sentinel (c : RefCounter) : RefCounter :=
  mkCounter (wrap_i 32 (count c - INITIAL_STRONG_VALUE)) (held c + 1) (clearing c - 1) (releasing c)
            (attempting c) (undoing c) (begun c + 1) (ended c) (finishing c) (closed c).

(** [dec]: the [fetch_sub], by a thread that holds a reference. *)
Definition dec (c : RefCounter) : RefCounter :=
  mkCounter (wrap_i 32 (count c - 1)) (held c - 1) (clearing c)
            (if count c =? 1 then releasing c + 1 else releasing c) (attempting c) (undoing c)
            (begun c) (ended c) (finishing c) (closed c).

(** [dec]: the [compare_exchange]; a thread whose exchange succeeds goes on to
    the closure. *)
Definition release (c : RefCounter) : RefCounter :=
  if count c =? 0
  then mkCounter INITIAL_STRONG_VALUE (held c) (clearing c) (releasing c - 1) (attempting c)
                 (undoing c) (begun c) (ended c + 1) (finishing c + 1) (closed c)
  else mkCounter (count c) (held c) (clearing c) (releasing c - 1) (attempting c) (undoing c)
                 (begun c) (ended c) (finishing c) (closed c).

(** [dec]: the closure, after the fence. *)
Definition run_closure (c : RefCounter) : RefCounter :=
  mkCounter (count c) (held c) (clearing c) (releasing c) (attempting c) (undoing c)
            (begun c) (ended c) (finishing c - 1) (closed c + 1).

Definition set_attempting (l : list Z) (c : RefCounter) : RefCounter :=
  mkCounter (count c) (held c) (clearing c) (releasing c) l (undoing c) (begun c) (ended c) (finishing c) (closed c).

(** [attempt_inc]: the load. *)
Definition attempt_load (c : RefCounter) : RefCounter := set_attempting (count c :: attempting c) c.

(** [attempt_inc(true, ..)], one pass of either loop by the thread whose local
    value is [curr]: it gives up, its exchange succeeds, or it fails, also without
    a reason ([spurious]), and takes the value it found. *)
Definition attempt_cas (spurious : bool) (curr : Z) (rest : list Z) (c : RefCounter) : RefCounter :=
  if curr <=? 0 then set_attempting rest c
  else if (count c =? curr) && negb spurious then obtained curr (set_attempting rest c)
  else set_attempting (count c :: rest) c.

(** [attempt_inc(false, ..)] with the sentinel or nothing left: [inc_func] has
    agreed; the [fetch_add], and the [fetch_sub] of a thread that lost the race. *)
Definition weak_revive (curr : Z) (rest : list Z) (c : RefCounter) : RefCounter :=
  let c := set_attempting rest c in
  if (count c =? 0) || (count c =? INITIAL_STRONG_VALUE) then obtained (count c) c
  else mkCounter (wrap_i 32 (count c + 1)) (held c) (clearing c) (releasing c) (attempting c)
                 (undoing c + 1) (begun c) (ended c) (finishing c) (closed c).

Definition weak_undo (c : RefCounter) : RefCounter :=
  mkCounter (wrap_i 32 (count c - 1)) (held c) (clearing c) (releasing c) (attempting c)
            (undoing c - 1) (begun c) (ended c) (finishing c) (closed c).

(** References in the hands of threads, of those in the middle too. *)
Definition owners (c : RefCounter) : Z := held c + clearing c.

(** The steps of native binders: [inc], [dec], [attempt_inc(true, ..)]. There are
    fewer than 2^28 references, and only a reference that is held is dropped. *)
Inductive counter_step (c : RefCounter) : RefCounter -> Prop :=
| cs_inc : owners c < INITIAL_STRONG_VALUE - 1 -> counter_step c (inc c)
| cs_clear : 0 < clearing c -> counter_step c (clear_sentinel c)
| cs_dec : 0 < held c -> counter_step c (dec c)
| cs_release : 0 < releasing c -> counter_step c (release c)
| cs_closure : 0 < finishing c -> counter_step c (run_closure c)
| cs_load : counter_step c (attempt_load c)
| cs_cas spurious pre curr post :
    attempting c = pre ++ curr :: post -> owners c < INITIAL_STRONG_VALUE - 1 ->
    counter_step c (attempt_cas spurious curr (pre ++ post) c).

Inductive counter_reachable : RefCounter -> Prop :=
| cr_new : counter_reachable counter_default
| cr_step c c' : counter_reachable c -> counter_step c c' -> counter_reachable c'.

(** With the weak form of [attempt_inc]. *)
Inductive weak_step (c : RefCounter) : RefCounter -> Prop :=
| ws_step c' : counter_step c c' -> weak_step c c'
| ws_revive pre curr post :
    attempting c = pre ++ curr :: post -> curr <= 0 \/ curr = INITIAL_STRONG_VALUE ->
    weak_step c (weak_revive curr (pre ++ post) c)
| ws_undo : 0 < undoing c -> weak_step c (weak_undo c).

Inductive weak_reachable : RefCounter -> Prop :=
| wr_new : weak_reachable counter_default
| wr_step c c' : weak_reachable c -> weak_step c c' -> weak_reachable c'.

(** * The invariant *)

(** The phases of a life: not begun, being begun by one thread, in use, and
    between the last [dec] and its exchange. *)
Inductive phase_ok (c : RefCounter) : Prop :=
| resting : count c = INITIAL_STRONG_VALUE -> owners c = 0 -> begun c = ended c -> phase_ok c
| starting : count c = INITIAL_STRONG_VALUE + owners c -> clearing c = 1 -> begun c = ended c -> phase_ok c
| running : count c = owners c -> 0 < owners c -> clearing c = 0 -> begun c = ended c + 1 -> phase_ok c
| ending : count c = 0 -> owners c = 0 -> 0 < releasing c -> begun c = ended c + 1 -> phase_ok c.

Definition counter_inv (c : RefCounter) : Prop :=
  phase_ok c /\ 0 <= held c /\ 0 <= clearing c /\ 0 <= releasing c /\
  owners c < INITIAL_STRONG_VALUE /\ undoing c = 0 /\
  0 <= finishing c /\ closed c + finishing c = ended c.

Lemma wrap_count z : 0 <= z <= 2 * INITIAL_STRONG_VALUE -> wrap_i 32 z = z.
Proof. intros Hz. apply wrap_i_small; [lia |]. unfold in_i, INITIAL_STRONG_VALUE in *. simpl. lia. Qed.

Ltac counter_cases :=
  unfold counter_inv, owners in *; cbn in *;
  repeat match goal with
         | |- context [Z.eqb ?a ?b] => destruct (Z.eqb_spec a b); cbn in *
         end;
  rewrite ?wrap_count by (unfold INITIAL_STRONG_VALUE in *; lia).

Lemma obtained_inv c prev :
  counter_inv c -> owners c < INITIAL_STRONG_VALUE - 1 -> count c = prev ->
  counter_inv (obtained prev c).
Proof.
  intros (Hp & Hh & Hc & Hr & Ho & Hu & Hf & Hcl) Hb E. unfold obtained. subst prev.
  destruct Hp as [E1 E2 E3 | E1 E2 E3 | E1 E2 E3 E4 | E1 E2 E3 E4]; counter_cases;
    split_and!; try lia; try (unfold INITIAL_STRONG_VALUE in *; lia);
    first [ apply starting; cbn; unfold owners; cbn; lia
          | apply running; cbn; unfold owners; cbn; unfold INITIAL_STRONG_VALUE in *; lia ].
Qed.

(** A goal of the invariant, by the phase the step leads to. *)
Ltac counter_phase :=
  counter_cases; split_and!; try (unfold INITIAL_STRONG_VALUE in *; lia);
  first [ apply resting; cbn; unfold owners; cbn; unfold INITIAL_STRONG_VALUE in *; lia
        | apply starting; cbn; unfold owners; cbn; unfold INITIAL_STRONG_VALUE in *; lia
        | apply running; cbn; unfold owners; cbn; unfold INITIAL_STRONG_VALUE in *; lia
        | apply ending; cbn; unfold owners; cbn; unfold INITIAL_STRONG_VALUE in *; lia ].

Lemma clear_inv c : counter_inv c -> 0 < clearing c -> counter_inv (clear_sentinel c).
Proof.
  intros (Hp & Hh & Hc & Hr & Ho & Hu & Hf & Hcl) Hb. unfold clear_sentinel.
  destruct Hp as [E1 E2 E3 | E1 E2 E3 | E1 E2 E3 E4 | E1 E2 E3 E4]; unfold owners in *; try lia.
  counter_phase.
Qed.

Lemma dec_inv c : counter_inv c -> 0 < held c -> counter_inv (dec c).
Proof.
  intros (Hp & Hh & Hc & Hr & Ho & Hu & Hf & Hcl) Hb. unfold dec.
  destruct Hp as [E1 E2 E3 | E1 E2 E3 | E1 E2 E3 E4 | E1 E2 E3 E4]; unfold owners in *; try lia;
    counter_phase.
Qed.

Lemma release_inv c : counter_inv c -> 0 < releasing c -> counter_inv (release c).
Proof.
  intros (Hp & Hh & Hc & Hr & Ho & Hu & Hf & Hcl) Hb. unfold release.
  destruct Hp as [E1 E2 E3 | E1 E2 E3 | E1 E2 E3 E4 | E1 E2 E3 E4];
    counter_cases; try (unfold INITIAL_STRONG_VALUE in *; lia); split_and!;
    try (unfold INITIAL_STRONG_VALUE in *; lia).
  - by apply resting.
  - by apply starting.
  - by apply running.
  - apply resting; cbn; unfold owners; cbn; lia.
Qed.

Lemma closure_inv c : counter_inv c -> 0 < finishing c -> counter_inv (run_closure c).
Proof.
  intros (Hp & Hh & Hc & Hr & Ho & Hu & Hf & Hcl) Hb. unfold run_closure.
  destruct Hp as [E1 E2 E3 | E1 E2 E3 | E1 E2 E3 E4 | E1 E2 E3 E4]; unfold owners in *; counter_phase.
Qed.

(** The locals of the threads in [attempt_inc] play no part in it. *)
Lemma set_attempting_inv l c : counter_inv c -> counter_inv (set_attempting l c).
Proof.
  intros [Hp Hr]. split; [| exact Hr].
  destruct Hp; [by apply resting | by apply starting | by apply running | by apply ending].
Qed.

Lemma counter_step_inv c c' : counter_inv c -> counter_step c c' -> counter_inv c'.
Proof.
  intros Hc [Hb | Hb | Hb | Hb | Hb | | spurious pre curr post E Hb].
  - by apply obtained_inv.
  - by apply clear_inv.
  - by apply dec_inv.
  - by apply release_inv.
  - by apply closure_inv.
  - by apply set_attempting_inv.
  - unfold attempt_cas. destruct (curr <=? 0); [by apply set_attempting_inv |].
    destruct (Z.eqb_spec (count c) curr) as [Ec |]; destruct spurious; cbn [negb andb];
      try by apply set_attempting_inv.
    apply obtained_inv; [by apply set_attempting_inv | done | done].
Qed.

Lemma counter_reachable_inv c : counter_reachable c -> counter_inv c.
Proof.
  induction 1 as [| c c' _ IH Hs]; [| by eapply counter_step_inv].
  split; [by apply resting |]. unfold owners, INITIAL_STRONG_VALUE. cbn. lia.
Qed.

Lemma ended_obtained prev c : ended (obtained prev c) = ended c.
Proof. unfold obtained. by destruct (_ =? _). Qed.

Lemma closed_obtained prev c : closed (obtained prev c) = closed c.
Proof. unfold obtained. by destruct (_ =? _). Qed.

(** Only the exchange of [dec] ends a life. *)
Lemma ending_step c c' :
  counter_step c c' -> ended c' = ended c \/ (c' = release c /\ (count c =? 0) = true).
Proof.
  intros [| | | | | | spurious pre curr post]; [| by left | by left | | by left | by left |].
  - left. apply ended_obtained.
  - unfold release. destruct (count c =? 0) eqn:E; [by right | by left].
  - left. unfold attempt_cas. destruct (curr <=? 0); [done |].
    destruct (_ && _); [by rewrite ended_obtained | done].
Qed.

(** Only the end of [dec] runs the closure. *)
Lemma closing_step c c' :
  counter_step c c' -> closed c' = closed c \/ (c' = run_closure c /\ 0 < finishing c).
Proof.
  intros [| | | | | | spurious pre curr post]; [| by left | by left | | by right | by left |].
  - left. apply closed_obtained.
  - left. unfold release. by destruct (count c =? 0).
  - left. unfold attempt_cas. destruct (curr <=? 0); [done |].
    destruct (_ && _); [by rewrite closed_obtained | done].
Qed.

(** * Properties *)

(** C33: The references of a native binder and the lives of its counter, whatever
    the threads interleave. A life ends only at an exchange that finds no reference
    left, and the counter is back at the sentinel then; the closure of [dec] runs
    once for each life that ended, after it ended, and never for one that has not;
    and when no thread stands between the atomic operations of [inc],
    [attempt_inc] or [dec], the counter is the number of references, or the
    sentinel when there is none. *)
Theorem counter_lives c :
  counter_reachable c ->
  (forall c', counter_step c c' -> ended c' <> ended c ->
     ended c' = ended c + 1 /\ owners c' = 0 /\ ended c' = begun c' /\
     count c' = INITIAL_STRONG_VALUE /\ finishing c' = finishing c + 1) /\
  (forall c', counter_step c c' -> closed c' <> closed c ->
     closed c' = closed c + 1 /\ closed c' <= ended c) /\
  closed c + finishing c = ended c /\
  (clearing c = 0 -> releasing c = 0 ->
     (held c = 0 -> count c = INITIAL_STRONG_VALUE /\ begun c = ended c) /\
     (0 < held c -> count c = held c /\ begun c = ended c + 1)).
Proof.
  intros Hc%counter_reachable_inv. split_and!.
  - intros c' Hs He. pose proof (counter_step_inv c c' Hc Hs) as (Hp' & _).
    destruct (ending_step c c' Hs) as [? | (-> & E)]; [done |]. unfold release in *.
    rewrite E in *. apply Z.eqb_eq in E. destruct Hc as (Hp & _).
    destruct Hp, Hp'; unfold owners, INITIAL_STRONG_VALUE in *; cbn in *; lia.
  - intros c' Hs He. destruct (closing_step c c' Hs) as [? | (-> & Hf)]; [done |].
    destruct Hc as (_ & _ & _ & _ & _ & _ & _ & Hcl). cbn. lia.
  - apply Hc.
  - destruct Hc as (Hp & Hh & _). intros Hcl Hrl. destruct Hp; unfold owners in *; split; intros; lia.
Qed.

(** The closure is late: between the exchange of [dec] and its closure another
    thread takes a reference, and the closure runs while it is held. *)
Lemma revived_before_closure :
  exists c, counter_reachable c /\ held c = 1 /\ count c = 1 /\ counter_step c (run_closure c).
Proof.
  exists (clear_sentinel (attempt_cas false INITIAL_STRONG_VALUE []
           (attempt_load (release (dec (clear_sentinel (inc counter_default))))))). split_and!.
  - eapply cr_step; [| apply cs_clear; reflexivity].
    eapply cr_step; [| apply (cs_cas _ false [] INITIAL_STRONG_VALUE []); reflexivity].
    eapply cr_step; [| apply cs_load]. eapply cr_step; [| apply cs_release; reflexivity].
    eapply cr_step; [| apply cs_dec; reflexivity].
    eapply cr_step; [| apply cs_clear; reflexivity].
    eapply cr_step; [| apply cs_inc; reflexivity]. apply cr_new.
  - reflexivity.
  - reflexivity.
  - apply cs_closure. reflexivity.
Qed.

(** The weak form of [attempt_inc] can strand an object: a thread that lost the
    revive race undoes its increment with a bare decrement, which can be the last
    one; then every reference is gone, no thread is left inside an operation,
    and its life never ends. *)
Theorem weak_attempt_strands :
  exists c, weak_reachable c /\ owners c = 0 /\ releasing c = 0 /\ undoing c = 0 /\
            attempting c = [] /\ count c = 0 /\ begun c = ended c + 1.
Proof.
  set (c := attempt_load counter_default).
  exists (weak_undo (dec (weak_revive INITIAL_STRONG_VALUE [] (clear_sentinel (inc c))))). split.
  - eapply wr_step; [| apply ws_undo; reflexivity].
    eapply wr_step; [| apply ws_step, cs_dec; reflexivity].
    eapply wr_step; [| apply (ws_revive _ [] INITIAL_STRONG_VALUE []); [reflexivity | by right]].
    eapply wr_step; [| apply ws_step, cs_clear; reflexivity].
    eapply wr_step; [| apply ws_step, cs_inc; reflexivity].
    eapply wr_step; [| apply ws_step, cs_load]. apply wr_new.
  - vm_compute. by split_and!.
Qed.

(** One thread takes a reference and drops it; its closure is still to run. *)
Lemma counter_lives_witness :
  let c := release (dec (clear_sentinel (inc counter_default))) in
  closed c + finishing c = ended c /\ count c = INITIAL_STRONG_VALUE /\ begun c = ended c.
Proof.
  intros c. assert (Hr : counter_reachable c).
  { eapply cr_step; [| apply cs_release; reflexivity].
    eapply cr_step; [| apply cs_dec; reflexivity].
    eapply cr_step; [| apply cs_clear; reflexivity].
    eapply cr_step; [| apply cs_inc; reflexivity]. apply cr_new. }
  destruct (counter_lives c Hr) as (_ & _ & E & Hq). split; [exact E |].
  by apply Hq.
Defined.
