(* ===== verification/Lifecycle.v ===== *)
(** The lifecycle of a session (src/rsbinder/src/rpc/lifecycle.rs): state and
    connection count in one atomic [u64], the tag in the top byte, changed by
    compare-and-exchange loops under any interleaving.

    A pass of a loop is one step. The state keeps the word, the attached
    connections, the values that threads inside [try_bump_live] and
    [drop_connection] have loaded, how often [drop_connection] reported the last
    connection ([edges], after which the caller fires the obituaries), and the
    callers that have yet to call [mark_dead]. *)

From Stdlib Require Import ZArith Lia.
From stdpp Require Import base list.
From S2P Require Import Prelude.

Definition STATE_SHIFT : Z := 56.
Definition COUNT_MASK : Z := Z.shiftl 1 STATE_SHIFT - 1.
Definition STATE_LIVE_TAG : Z := 0.
Definition STATE_DYING_TAG : Z := 1.
Definition STATE_DEAD_TAG : Z := 2.

Definition encode_live (n : Z) : Z := n.
Definition encode_dying : Z := Z.shiftl STATE_DYING_TAG STATE_SHIFT.
Definition encode_dead : Z := Z.shiftl STATE_DEAD_TAG STATE_SHIFT.

Definition is_live (v : Z) : bool := Z.shiftr v STATE_SHIFT =? STATE_LIVE_TAG.
Definition is_torn_down (v : Z) : bool := negb (is_live v).
Definition live_count (v : Z) : Z := if is_live v then Z.land v COUNT_MASK else 0.

(** One pass of a loop by a thread that loaded [v]: it returns, or it goes on
    with the value it found. *)
Inductive Pass : Type :=
| Returns (result : bool) (word : Z)
| Retry.

(** [compare_exchange_weak(v, new)]. *)
Definition exchange (spurious : bool) (word v new : Z) (result : bool) : Pass :=
  if (word =? v) && negb spurious then Returns result new else Retry.

Definition try_bump_live (spurious : bool) (word v : Z) : Pass :=
  if is_torn_down v then Returns false word
  else exchange spurious word v (wrap_u 64 (v + 1)) true.

Definition drop_connection (spurious : bool) (word v : Z) : Pass :=
  if is_torn_down v then Returns false word
  else
    let count := Z.land v COUNT_MASK in
    if count =? 1 then exchange spurious word v encode_dying true
    else exchange spurious word v (wrap_u 64 (v - 1)) false.

Definition mark_dead (word : Z) : Z := if word =? encode_dying then encode_dead else word.

Record Life : Type := mkLife {
  word : Z;
  attached : Z;
  bumping : list Z;
  dropping : list Z;
  edges : Z;
  marking : Z
}.

Definition life_new : Life := mkLife (encode_live 1) 1 [] [] 0 0.

Definition bump_pass (spurious : bool) (v : Z) (rest : list Z) (l : Life) : Life :=
  match try_bump_live spurious (word l) v with
  | Returns ok w => mkLife w (if ok then attached l + 1 else attached l) rest (dropping l) (edges l) (marking l)
  | Retry => mkLife (word l) (attached l) (word l :: rest) (dropping l) (edges l) (marking l)
  end.

Definition drop_pass (spurious : bool) (v : Z) (rest : list Z) (l : Life) : Life :=
  match drop_connection spurious (word l) v with
  | Returns last w =>
      mkLife w (attached l) (bumping l) rest (if last then edges l + 1 else edges l)
             (if last then marking l + 1 else marking l)
  | Retry => mkLife (word l) (attached l) (bumping l) (word l :: rest) (edges l) (marking l)
  end.

(** Connections of the session: attached, or about to be dropped. *)
Definition connections (l : Life) : Z := attached l + zlen (dropping l).

(** An attached connection is dropped once; there are fewer than 2^56 - 1. *)
Inductive life_step (l : Life) : Life -> Prop :=
| ls_bump : life_step l (mkLife (word l) (attached l) (word l :: bumping l) (dropping l) (edges l) (marking l))
| ls_bump_pass spurious pre v post :
    bumping l = pre ++ v :: post -> connections l < COUNT_MASK ->
    life_step l (bump_pass spurious v (pre ++ post) l)
| ls_drop : 0 < attached l ->
    life_step l (mkLife (word l) (attached l - 1) (bumping l) (word l :: dropping l) (edges l) (marking l))
| ls_drop_pass spurious pre v post :
    dropping l = pre ++ v :: post -> life_step l (drop_pass spurious v (pre ++ post) l)
| ls_mark : 0 < marking l ->
    life_step l (mkLife (mark_dead (word l)) (attached l) (bumping l) (dropping l) (edges l) (marking l - 1)).

Inductive life_reachable : Life -> Prop :=
| lr_new : life_reachable life_new
| lr_step l l' : life_reachable l -> life_step l l' -> life_reachable l'.

(** * The invariant *)

Definition live_word (v : Z) : Prop := 1 <= v <= COUNT_MASK.

Lemma count_mask : COUNT_MASK = 72057594037927935.
Proof. reflexivity. Qed.

Lemma is_live_word v : live_word v -> is_live v = true.
Proof.
  intros Hv. unfold live_word in Hv. rewrite count_mask in Hv. unfold is_live, STATE_SHIFT.
  rewrite Z.shiftr_div_pow2 by done. rewrite Z.div_small by lia. done.
Qed.

Lemma live_word_count v : live_word v -> Z.land v COUNT_MASK = v.
Proof.
  intros Hv. unfold live_word in Hv. rewrite count_mask in Hv.
  change COUNT_MASK with (Z.ones 56). rewrite Z.land_ones, Z.mod_small by lia. done.
Qed.

Inductive life_phase (l : Life) : Prop :=
| Live : word l = connections l -> live_word (word l) -> Forall live_word (dropping l) ->
    edges l = 0 -> marking l = 0 -> life_phase l
| Dying : word l = encode_dying -> attached l = 0 -> dropping l = [] -> edges l = 1 -> marking l = 1 ->
    life_phase l
| Dead : word l = encode_dead -> attached l = 0 -> dropping l = [] -> edges l = 1 -> marking l = 0 ->
    life_phase l.

Definition life_inv (l : Life) : Prop := life_phase l /\ 0 <= attached l.

Lemma bump_pass_inv spurious v rest l :
  life_inv l -> connections l < COUNT_MASK -> life_inv (bump_pass spurious v rest l).
Proof.
  intros [Hp Ha] Hb. unfold bump_pass, try_bump_live, exchange.
  destruct (is_torn_down v) eqn:Ev.
  { split; [| done]. destruct Hp; [by apply Live | by apply Dying | by apply Dead]. }
  destruct (Z.eqb_spec (word l) v) as [E |]; destruct spurious; cbn [andb negb];
    try (split; [| done]; destruct Hp; [by apply Live | by apply Dying | by apply Dead]).
  subst v. destruct Hp as [E1 Hw Hd He Hm | E1 | E1];
    [| rewrite E1 in Ev; discriminate | rewrite E1 in Ev; discriminate].
  unfold connections, live_word in *. rewrite count_mask in *. split; [| cbn; lia].
  apply Live; cbn; unfold connections; cbn; try done; unfold live_word; rewrite ?count_mask;
    rewrite wrap_u_small by (unfold in_u; simpl; lia); lia.
Qed.

Lemma drop_pass_inv spurious pre v post l :
  life_inv l -> dropping l = pre ++ v :: post -> life_inv (drop_pass spurious v (pre ++ post) l).
Proof.
  intros [Hp Ha] Ed. destruct Hp as [E1 Hw Hd He Hm | E1 _ E2 | E1 _ E2];
    [| rewrite E2 in Ed; by destruct pre | rewrite E2 in Ed; by destruct pre].
  assert (Hv : live_word v).
  { rewrite Ed in Hd. apply Forall_app in Hd as [_ Hd]. by apply Forall_cons in Hd as [? _]. }
  assert (Hr : Forall live_word (pre ++ post)).
  { rewrite Ed in Hd. apply Forall_app in Hd as [H1 Hd]. apply Forall_cons in Hd as [_ H2]. by apply Forall_app. }
  assert (Hlen : zlen (dropping l) = 1 + zlen (pre ++ post)).
  { rewrite Ed. rewrite !zlen_app, zlen_cons. lia. }
  assert (Hretry : life_inv (mkLife (word l) (attached l) (bumping l) (word l :: pre ++ post)
                                    (edges l) (marking l))).
  { split; [| done]. apply Live; cbn; try done; [| by constructor].
    unfold connections in *. cbn. rewrite zlen_cons. lia. }
  unfold drop_pass, drop_connection, exchange, is_torn_down. rewrite (is_live_word v Hv), live_word_count by done.
  cbn [negb]. pose proof (zlen_nonneg (pre ++ post)) as Hn. unfold connections in *.
  destruct (Z.eqb_spec v 1) as [Ev | Ev]; destruct (Z.eqb_spec (word l) v) as [E |];
    destruct spurious; cbn [andb negb]; try exact Hretry.
  - assert (Hnil : pre ++ post = []) by (apply zlen_zero_nil; lia). rewrite Hnil in *.
    split; [apply Dying; cbn; try done; lia | done].
  - unfold live_word in Hw. rewrite count_mask in Hw.
    assert (Ew : wrap_u 64 (v - 1) = v - 1) by (apply wrap_u_small; unfold in_u; simpl; lia).
    split; [| done]. apply Live; cbn; try done; unfold connections, live_word; cbn; rewrite ?Ew, ?count_mask; lia.
Qed.

Lemma life_step_inv l l' : life_inv l -> life_step l l' -> life_inv l'.
Proof.
  intros Hl [| spurious pre v post E Hb | Ha | spurious pre v post E | Hm].
  - destruct Hl as [Hp Ha]. split; [| done].
    destruct Hp; [by apply Live | by apply Dying | by apply Dead].
  - by apply bump_pass_inv.
  - destruct Hl as [Hp _]. destruct Hp as [E1 Hw Hd He Hm | E1 | E1]; [| lia | lia].
    split; [| cbn; lia]. apply Live; cbn; try done; [| by constructor].
    unfold connections in *. cbn. rewrite zlen_cons. lia.
  - by apply drop_pass_inv.
  - destruct Hl as [Hp Ha]. destruct Hp as [| E1 E2 E3 E4 E5 |]; [lia | | lia].
    split; [| done]. apply Dead; cbn; [by rewrite E1 | done | done | done | lia].
Qed.

Lemma life_reachable_inv l : life_reachable l -> life_inv l.
Proof.
  induction 1 as [| l l' _ IH Hs]; [| by eapply life_step_inv].
  split; [| done]. by apply Live.
Qed.

(** * Properties *)

(** A session dies once and stays dead. However the threads interleave, the
    live count is the number of connections; exactly one [drop_connection] reports
    the last one, so the obituaries fire once; from that moment on the session
    is torn down, no connection is left, and no later attach succeeds. *)
Theorem session_dies_once l :
  life_reachable l ->
  live_count (word l) = connections l /\ 0 <= edges l <= 1 /\
  (is_torn_down (word l) = true <-> edges l = 1) /\
  (is_torn_down (word l) = true -> connections l = 0 /\
     forall l', life_step l l' -> is_torn_down (word l') = true /\ attached l' = 0 /\ edges l' = 1).
Proof.
  intros Hr%life_reachable_inv. pose proof (fun l' => life_step_inv l l' Hr) as Hs.
  destruct Hr as [Hp Ha]. destruct Hp as [E1 Hw Hd He Hm | E1 E2 E3 E4 E5 | E1 E2 E3 E4 E5].
  { unfold is_torn_down, live_count. rewrite (is_live_word _ Hw), live_word_count by done.
    split_and!; [done | lia | lia | split; [done | lia] | done]. }
  all: unfold connections; rewrite E1, E2, E3, E4; split_and!; try done; intros _; split; [done |];
    intros l' Hst; destruct (Hs l' Hst) as [Hp' _];
    assert (He : edges l' <> 0).
  2, 4: destruct Hp' as [_ _ _ He' _ | F1 F2 F3 F4 F5 | F1 F2 F3 F4 F5]; [done | |]; by rewrite F1.
  all: destruct Hst as [| | ? | ? pre v post E | ?]; cbn; unfold bump_pass, try_bump_live, exchange;
    repeat case_match; cbn; try lia; rewrite E3 in E; by destruct pre.
Qed.

(** The founding connection goes away. *)
Lemma session_dies_once_witness :
  let l := drop_pass false 1 [] (mkLife 1 0 [] [1] 0 0) in
  is_torn_down (word l) = true /\ edges l = 1.
Proof.
  intros l. split; [reflexivity |].
  apply (proj1 (proj2 (proj2 (session_dies_once l ltac:(
    eapply lr_step; [| apply (ls_drop_pass _ false [] 1 []); reflexivity];
    eapply lr_step; [apply lr_new |]; apply ls_drop; reflexivity))))). reflexivity.
Defined.
