(* ===== verification/RpcDeath.v ===== *)
(** Death over RPC: proxies with their death recipients and the teardown of a session
    (src/rsbinder/src/rpc/proxy.rs: [RpcProxy]; src/rsbinder/src/rpc/session.rs: [send_session_obituaries] and the
    end of [serve_blocking_on_inner]), over the object table of [RpcState] and the lifecycle word of [Lifecycle].

    An object of the peer dies with the session: the worker that drops the last connection takes the live proxies of the
    table and calls the recipients of each outside all locks, while other threads link, unlink, resolve and drop
    proxies. A section under a lock is one step. No recipient runs under the lock of a proxy, so the lock is never
    poisoned; a recipient that panics has been called. The references that a drop gives back to the peer are those
    of [RpcState]. *)

From Stdlib Require Import ZArith Lia.
From stdpp Require Import base gmap list strings sets.
From S2P Require Import Prelude Errors Address RpcState Lifecycle.

(** * A proxy *)

(** Recipients are named by their [Weak]. *)
Record RpcProxy : Type := mkProxy {
  addr : RpcAddress;
  descriptor : option string;
  obituary_sent : bool;
  recipients : list nat
}.

Definition proxy_new (a : RpcAddress) : RpcProxy := mkProxy a None false [].

(** [OnceLock::set]. *)
Definition stamp_descriptor (d : string) (p : RpcProxy) : bool * RpcProxy :=
  match descriptor p with
  | Some _ => (false, p)
  | None => (true, mkProxy (addr p) (Some d) (obituary_sent p) (recipients p))
  end.

Definition descriptor_str (p : RpcProxy) : string := default EmptyString (descriptor p).

(** [from_binder] of a generated stub: it stamps its own descriptor and compares. *)
Definition cast (d : string) (p : RpcProxy) : bool * RpcProxy :=
  let p := snd (stamp_descriptor d p) in (bool_decide (descriptor_str p = d), p).

Definition with_recipients (l : list nat) (p : RpcProxy) : RpcProxy := mkProxy (addr p) (descriptor p) (obituary_sent p) l.

Definition link_to_death (r : nat) : M RpcProxy StatusCode unit := fun p =>
  if obituary_sent p then (Err StDeadObject, p) else (Ok tt, with_recipients (recipients p ++ [r]) p).

(** [position] and [remove]. *)
Fixpoint remove_first (r : nat) (l : list nat) : option (list nat) :=
  match l with
  | [] => None
  | x :: l => if Nat.eqb x r then Some l else cons x <$> remove_first r l
  end.

Definition unlink_to_death (r : nat) : M RpcProxy StatusCode unit := fun p =>
  if obituary_sent p then (Err StDeadObject, p)
  else match remove_first r (recipients p) with
       | None => (Err StNameNotFound, p)
       | Some l => (Ok tt, with_recipients l p)
       end.

(** [send_obituary] under the lock: the recipients to call. *)
Definition send_obituary (p : RpcProxy) : list nat * RpcProxy :=
  if obituary_sent p then ([], p) else (recipients p, mkProxy (addr p) (descriptor p) true []).

(** * The session *)

(** The thread that found the last connection gone: about to take the snapshot; in the sweep, with the
    proxy whose recipients it calls and the proxies after it; done. *)
Inductive Teardown : Type :=
| NotYet
| Edge
| Sweeping (now : option (Z * list nat)) (rest : list Z)
| Done.

#[export] Instance Teardown_eq_dec : EqDecision Teardown.
Proof. solve_decision. Defined.

(** [objects] has every proxy that was ever made, numbered; [strong_refs] those that others than the sweep hold, [dropping] those
    whose [Drop] has yet to forget them. [linked], [unlinked] and [told] log successful links and unlinks and calls of [binder_died];
    [gone] the recipients that were gone when their turn came; [mark] the number of proxies at the snapshot. *)
Record Session : Type := mkSession {
  table : RpcState;
  life : Life;
  teardown : Teardown;
  objects : gmap Z RpcProxy;
  next : Z;
  strong_refs : gset Z;
  dropping : list Z;
  mark : Z;
  linked : list (Z * nat);
  unlinked : list (Z * nat);
  told : list (Z * nat);
  gone : list (Z * nat)
}.

Definition swept_by (t : Teardown) : list Z :=
  match t with Sweeping now rest => match now with Some (p, _) => p :: rest | None => rest end | _ => [] end.

Definition alive (s : Session) (p : Z) : bool := bool_decide (p ∈ strong_refs s) || bool_decide (p ∈ swept_by (teardown s)).

Definition set_object (p : Z) (o : RpcProxy) (s : Session) : Session :=
  mkSession (table s) (life s) (teardown s) (<[p := o]> (objects s)) (next s) (strong_refs s) (dropping s) (mark s)
            (linked s) (unlinked s) (told s) (gone s).
Definition set_teardown (t : Teardown) (s : Session) : Session :=
  mkSession (table s) (life s) t (objects s) (next s) (strong_refs s) (dropping s) (mark s)
            (linked s) (unlinked s) (told s) (gone s).
Definition set_life (l : Life) (s : Session) : Session :=
  mkSession (table s) l (teardown s) (objects s) (next s) (strong_refs s) (dropping s) (mark s)
            (linked s) (unlinked s) (told s) (gone s).

(** [read_binder] of an object of the peer. *)
Definition resolve (a : RpcAddress) (s : Session) : Session :=
  let '((p, cached), t) := remote_proxy (alive s) a (next s) (table s) in
  if cached : bool then
    mkSession t (life s) (teardown s) (objects s) (next s) ({[p]} ∪ strong_refs s) (dropping s) (mark s)
              (linked s) (unlinked s) (told s) (gone s)
  else
    mkSession t (life s) (teardown s) (<[p := proxy_new a]> (objects s)) (next s + 1) ({[p]} ∪ strong_refs s) (dropping s) (mark s)
              (linked s) (unlinked s) (told s) (gone s).

(** A reference is gone; with the last, [Drop] begins. *)
Definition forsake (p : Z) (s : Session) : Session :=
  if alive s p then s
  else mkSession (table s) (life s) (teardown s) (objects s) (next s) (strong_refs s) (p :: dropping s) (mark s)
                 (linked s) (unlinked s) (told s) (gone s).

Definition drop_refs (p : Z) (s : Session) : Session :=
  forsake p (mkSession (table s) (life s) (teardown s) (objects s) (next s) (strong_refs s ∖ {[p]}) (dropping s) (mark s)
                       (linked s) (unlinked s) (told s) (gone s)).

(** The rest of [Drop for RpcProxy]. *)
Definition forget (p : Z) (o : RpcProxy) (rest : list Z) (s : Session) : Session :=
  mkSession (forget_remote_if (addr o) p (table s)) (life s) (teardown s) (objects s) (next s) (strong_refs s) rest (mark s)
            (linked s) (unlinked s) (told s) (gone s).

Definition link (p : Z) (o : RpcProxy) (r : nat) (s : Session) : Session :=
  match link_to_death r o with
  | (Ok _, o) => mkSession (table s) (life s) (teardown s) (<[p := o]> (objects s)) (next s) (strong_refs s) (dropping s) (mark s)
                           (linked s ++ [(p, r)]) (unlinked s) (told s) (gone s)
  | _ => s
  end.

Definition unlink (p : Z) (o : RpcProxy) (r : nat) (s : Session) : Session :=
  match unlink_to_death r o with
  | (Ok _, o) => mkSession (table s) (life s) (teardown s) (<[p := o]> (objects s)) (next s) (strong_refs s) (dropping s) (mark s)
                           (linked s) (unlinked s ++ [(p, r)]) (told s) (gone s)
  | _ => s
  end.

(** ** The sweep *)

(** [remote_proxy_snapshot]. *)
Definition take_snapshot (s : Session) : Session :=
  mkSession (table s) (life s) (Sweeping None (remote_proxy_snapshot (alive s) (table s))) (objects s) (next s) (strong_refs s) (dropping s)
            (next s) (linked s) (unlinked s) (told s) (gone s).

Definition begin_obituary (p : Z) (o : RpcProxy) (rest : list Z) (s : Session) : Session :=
  let '(rs, o) := send_obituary o in set_teardown (Sweeping (Some (p, rs)) rest) (set_object p o s).

(** [upgrades]: whether the recipient still exists. *)
Definition call (upgrades : bool) (p : Z) (r : nat) (rs : list nat) (rest : list Z) (s : Session) : Session :=
  mkSession (table s) (life s) (Sweeping (Some (p, rs)) rest) (objects s) (next s) (strong_refs s) (dropping s) (mark s)
            (linked s) (unlinked s) (if upgrades then told s ++ [(p, r)] else told s) (if upgrades then gone s else gone s ++ [(p, r)]).

Definition end_obituary (p : Z) (rest : list Z) (s : Session) : Session := forsake p (set_teardown (Sweeping None rest) s).

Definition finish_sweep (s : Session) : Session :=
  set_teardown Done (set_life (mkLife (mark_dead (word (life s))) (attached (life s)) (bumping (life s)) (Lifecycle.dropping (life s))
                                      (edges (life s)) (marking (life s) - 1)) s).

(** The next step of the thread. *)
Definition sweep_step (upgrades : nat -> bool) (s : Session) : Session :=
  match teardown s with
  | Edge => take_snapshot s
  | Sweeping (Some (p, r :: rs)) rest => call (upgrades r) p r rs rest s
  | Sweeping (Some (p, [])) rest => end_obituary p rest s
  | Sweeping None (p :: rest) =>
      match objects s !! p with Some o => begin_obituary p o rest s | None => set_teardown (Sweeping None rest) s end
  | Sweeping None [] => finish_sweep s
  | NotYet | Done => s
  end.

(** ** Steps

    The other operations of the table leave the proxies alone. *)

Inductive death_step : Session -> Session -> Prop :=
| d_life l s : life_step (life s) l -> edges l = edges (life s) -> marking l = marking (life s) -> death_step s (set_life l s)
| d_edge l s : life_step (life s) l -> edges l <> edges (life s) -> death_step s (set_teardown Edge (set_life l s))
| d_sweep upgrades s : teardown s <> NotYet -> death_step s (sweep_step upgrades s)
| d_table t s : remote_proxies t = remote_proxies (table s) ->
    death_step s (mkSession t (life s) (teardown s) (objects s) (next s) (strong_refs s) (dropping s) (mark s)
                            (linked s) (unlinked s) (told s) (gone s))
| d_resolve a s : death_step s (resolve a s)
| d_drop p s : p ∈ strong_refs s -> death_step s (drop_refs p s)
| d_forget p o pre post s : dropping s = pre ++ p :: post -> objects s !! p = Some o -> death_step s (forget p o (pre ++ post) s)
| d_link p o r s : alive s p = true -> objects s !! p = Some o -> death_step s (link p o r s)
| d_unlink p o r s : alive s p = true -> objects s !! p = Some o -> death_step s (unlink p o r s)
| d_cast d p o s : alive s p = true -> objects s !! p = Some o -> death_step s (set_object p (snd (cast d o)) s).

Definition session_new (sp : AddressSpace) : Session :=
  mkSession (state_new sp) life_new NotYet ∅ 0 ∅ [] 0 [] [] [] [].

Inductive death_reachable : Session -> Prop :=
| dr_start sp : death_reachable (session_new sp)
| dr_step s s' : death_reachable s -> death_step s s' -> death_reachable s'.

(** * Lemmas *)

Definition occ (p : Z) (r : nat) (l : list (Z * nat)) : Z := tally (fun x => bool_decide (x = (p, r))) l.
Definition times (r : nat) (l : list nat) : Z := tally (fun x => Nat.eqb x r) l.

Lemma occ_app p r l k : occ p r (l ++ k) = occ p r l + occ p r k.
Proof. apply tally_app. Qed.
Lemma occ_one p r q x : occ p r [(q, x)] = if bool_decide (q = p /\ x = r) then 1 else 0.
Proof. cbn. unfold occ. cbn. case_bool_decide as H1; case_bool_decide as H2; try done; [injection H1 as -> ->; by destruct H2 | by destruct H2 as [-> ->]]. Qed.
Lemma times_app r l k : times r (l ++ k) = times r l + times r k.
Proof. apply tally_app. Qed.
Lemma times_one r x : times r [x] = if bool_decide (x = r) then 1 else 0.
Proof. unfold times. cbn. destruct (Nat.eqb_spec x r); case_bool_decide; try done; lia. Qed.
Lemma times_cons r x l : times r (x :: l) = (if bool_decide (x = r) then 1 else 0) + times r l.
Proof. change (x :: l) with ([x] ++ l). by rewrite times_app, times_one. Qed.

Lemma remove_first_times r x l l' : remove_first r l = Some l' -> times x l = times x l' + (if bool_decide (r = x) then 1 else 0).
Proof.
  revert l'. induction l as [| y l IH]; intros l'; cbn [remove_first]; [done |]. destruct (Nat.eqb_spec y r) as [-> | Hn].
  - intros [= <-]. rewrite times_cons. lia.
  - destruct (remove_first r l) as [k |]; [| done]. intros [= <-]. rewrite !times_cons, (IH k eq_refl). lia.
Qed.

(** ** The life of the session *)

Definition phase_of (s : Session) : Prop :=
  match teardown s with
  | NotYet => edges (life s) = 0
  | Edge | Sweeping _ _ => edges (life s) = 1 /\ marking (life s) = 1
  | Done => edges (life s) = 1 /\ marking (life s) = 0 /\ word (life s) = encode_dead
  end.

Definition life_ok (s : Session) : Prop := life_reachable (life s) /\ phase_of s.

Lemma edge_bounds l : life_reachable l -> edges l = 0 /\ marking l = 0 \/ edges l = 1 /\ (marking l = 1 /\ word l = encode_dying \/ marking l = 0 /\ word l = encode_dead).
Proof. intros [[] _]%life_reachable_inv; [left | right | right]; auto. Qed.

Lemma dead_stays l l' : life_reachable l -> life_step l l' -> word l = encode_dead -> word l' = encode_dead /\ edges l' = edges l /\ marking l' = marking l.
Proof.
  intros Hl Hs E. pose proof (edge_bounds l Hl) as Hb. pose proof (life_reachable_inv l Hl) as [Hp _].
  destruct Hp as [_ Hw | E1 | E1 E2 E3 E4 E5]; [unfold live_word in Hw; rewrite E in Hw; by destruct Hw | by rewrite E in E1 |].
  assert (Hl' : life_reachable l') by (by eapply lr_step). pose proof (edge_bounds l' Hl') as Hb'.
  destruct Hs as [| sp pre v post Ev Hc | Ha | sp pre v post Ev | Hm]; cbn in *; try lia; try done.
  - unfold bump_pass, try_bump_live, exchange. destruct (is_torn_down v) eqn:Ed; cbn; [done |].
    destruct (Z.eqb_spec (word l) v) as [<- |]; [by rewrite E in Ed |]. done.
  - rewrite E3 in Ev. by destruct pre.
Qed.

Lemma sweep_life upgrades s : life_ok s -> teardown s <> NotYet -> life_ok (sweep_step upgrades s).
Proof.
  intros [Hl Hp] Hn. unfold sweep_step, life_ok, phase_of in *. destruct (teardown s) as [| | [[p [| r rs]] |] rest |] eqn:Et; try done.
  - unfold end_obituary, forsake. by case_match.
  - destruct rest as [| q rest].
    + destruct Hp as [He Hm]. cbn. assert (Hs : life_step (life s) (life (finish_sweep s))) by (apply ls_mark; lia).
      split; [by eapply lr_step |]. split_and!; [done | lia |].
      destruct (edge_bounds _ Hl) as [[? ?] | [_ [[_ Ew] | [? _]]]]; [lia | | lia]. by rewrite Ew.
    + destruct (objects s !! q); [| done]. unfold begin_obituary. by destruct (send_obituary _).
  - rewrite Et. done.
Qed.

Lemma edges_step l l' : life_step l l' -> edges l' = edges l \/ (edges l' = edges l + 1 /\ marking l' = marking l + 1).
Proof.
  intros [| sp pre v post Ev Hc | Ha | sp pre v post Ev | Hm]; cbn; try (by left).
  - left. unfold bump_pass. by case_match.
  - unfold drop_pass. destruct (drop_connection sp (word l) v) as [[] w |]; cbn; auto.
Qed.

Lemma forsake_frame p s : life (forsake p s) = life s /\ teardown (forsake p s) = teardown s.
Proof. unfold forsake. by case_match. Qed.

Lemma life_death s s' : life_ok s -> death_step s s' -> life_ok s'.
Proof.
  intros Hok Hs. pose proof Hok as [Hl Hp]. unfold phase_of in Hp.
  destruct Hs as [l s Hs He Hm | l s Hs He | up s Hn | t s Ht | a s | p s Hin | p o pre post s Hd Ho | p o r s Ha Ho | p o r s Ha Ho | d p o s Ha Ho].
  - split; [by eapply lr_step |]. unfold phase_of. cbn. destruct (teardown s); try lia.
    destruct Hp as (E1 & E2 & E3). destruct (dead_stays _ _ Hl Hs E3) as (? & ? & ?). lia.
  - assert (Hl' : life_reachable l) by (by eapply lr_step). split; [done |]. unfold phase_of. cbn.
    destruct (edges_step _ _ Hs) as [? | [E1 E2]]; [done |].
    pose proof (edge_bounds _ Hl) as Hb. pose proof (edge_bounds _ Hl') as Hb'. lia.
  - by apply sweep_life.
  - done.
  - unfold resolve. destruct (remote_proxy _ _ _ _) as [[p [|]] t]; done.
  - unfold drop_refs, life_ok, phase_of. set (s1 := mkSession _ _ _ _ _ _ _ _ _ _ _ _).
    destruct (forsake_frame p s1) as [-> ->]. done.
  - done.
  - unfold link. by destruct (link_to_death r o) as [[] ?].
  - unfold unlink. by destruct (unlink_to_death r o) as [[] ?].
  - done.
Qed.

(** ** Live proxies are in the table *)

Definition obit (s : Session) (p : Z) : Prop := exists o, objects s !! p = Some o /\ obituary_sent o = true.

Record sweep_inv (s : Session) : Prop := mkSweepInv {
  si_fresh : (forall p, is_Some (objects s !! p) -> p < next s) /\ mark s <= next s;
  si_cached : forall p, alive s p = true -> exists o, objects s !! p = Some o /\ remote_proxies (table s) !! addr o = Some p;
  si_early : match teardown s with NotYet | Edge => told s = [] /\ gone s = [] /\ forall p, ~ obit s p | _ => True end;
  si_empty : forall p o, objects s !! p = Some o -> obituary_sent o = true -> recipients o = [];
  si_swept : match teardown s with
             | Sweeping now rest => (match now with Some (p, _) => obit s p | None => True end) /\
                 forall p, alive s p = true -> p < mark s -> obit s p \/ p ∈ rest
             | Done => forall p, alive s p = true -> p < mark s -> obit s p
             | _ => True
             end
}.

Lemma swept_alive_spec s p : alive s p = true <-> p ∈ strong_refs s \/ p ∈ swept_by (teardown s).
Proof. unfold alive. by rewrite orb_true_iff, !bool_decide_eq_true. Qed.

(** A proxy is replaced by one that differs in its recipients, its descriptor or its flag only. *)
Definition updated (p : Z) (o : RpcProxy) (s s' : Session) : Prop :=
  objects s' = <[p := o]> (objects s) /\ table s' = table s /\ teardown s' = teardown s /\ next s' = next s /\
  strong_refs s' = strong_refs s /\ mark s' = mark s /\ told s' = told s /\ gone s' = gone s.

Lemma updated_inv p o o' s s' : sweep_inv s -> objects s !! p = Some o -> addr o' = addr o -> obituary_sent o' = obituary_sent o ->
  (obituary_sent o = true -> recipients o' = []) -> updated p o' s s' -> sweep_inv s'.
Proof.
  intros [[H1 H1'] H2 H3 H4 H5] Ho Ea Es Er (E1 & E2 & E3 & E4 & E5 & E6 & E7 & E8).
  assert (Hal : forall q, alive s' q = alive s q) by (intros q; unfold alive; by rewrite E3, E5).
  assert (Hob : forall q, obit s' q <-> obit s q).
  { intros q. unfold obit. rewrite E1. destruct (decide (q = p)) as [-> | Hn]; [| by rewrite lookup_insert_ne].
    rewrite lookup_insert_eq, Ho. split; intros (x & [= <-] & Hx); eexists; (split; [done | congruence]). }
  split.
  - rewrite E1, E4, E6. split; [| done]. intros q. destruct (decide (q = p)) as [-> | Hn]; [intros _; apply H1; eauto |].
    rewrite lookup_insert_ne by done. apply H1.
  - intros q. rewrite Hal, E1, E2. intros (x & Hx & Hr)%H2. destruct (decide (q = p)) as [-> | Hn].
    + exists o'. rewrite lookup_insert_eq, Ea. rewrite Ho in Hx. by injection Hx as ->.
    + exists x. by rewrite lookup_insert_ne.
  - rewrite E3, E7, E8. destruct (teardown s); try done; (destruct H3 as (? & ? & H3); split_and!; try done; intros q; by rewrite Hob).
  - intros q x. rewrite E1. destruct (decide (q = p)) as [-> | Hn]; [rewrite lookup_insert_eq; intros [= <-] | rewrite lookup_insert_ne by done; eauto].
    intros Hx. apply Er. congruence.
  - rewrite E3. destruct (teardown s) as [| | [[q rs] |] rest |]; try done; rewrite ?Hob; setoid_rewrite Hal; setoid_rewrite Hob; by rewrite E6.
Qed.

(** Nothing becomes alive; the table can lose what is not. *)
Lemma shrunk_inv s s' : sweep_inv s -> objects s' = objects s -> next s' = next s -> mark s' = mark s ->
  told s' = told s -> gone s' = gone s -> teardown s' = teardown s -> (forall q, alive s' q = true -> alive s q = true) ->
  (forall q a, alive s q = true -> remote_proxies (table s) !! a = Some q -> remote_proxies (table s') !! a = Some q) -> sweep_inv s'.
Proof.
  intros [H1 H2 H3 H4 H5] E1 E2 E3 E4 E5 E6 Ha Ht.
  assert (Hob : forall q, obit s' q <-> obit s q) by (intros q; unfold obit; by rewrite E1).
  split; rewrite ?E1, ?E2, ?E3, ?E4, ?E5, ?E6; try done.
  - intros q Hq%Ha. destruct (H2 q Hq) as (o & Ho & Hr). exists o. split; [done |]. auto.
  - destruct (teardown s); try done; setoid_rewrite Hob; done.
  - destruct (teardown s) as [| | now rest |]; try done.
    + destruct H5 as [Hn H5]. split; [destruct now as [[q rs] |]; [by apply Hob | done] |]. intros q Hq%Ha Hm. rewrite Hob. auto.
    + intros q Hq%Ha Hm. rewrite Hob. auto.
Qed.

Lemma forsake_inv p s : sweep_inv s -> sweep_inv (forsake p s).
Proof. intros H. unfold forsake. destruct (alive s p); [done |]. by apply (shrunk_inv s). Qed.

Lemma drop_refs_inv p s : sweep_inv s -> sweep_inv (drop_refs p s).
Proof.
  intros H. unfold drop_refs. apply forsake_inv. apply (shrunk_inv s); try done.
  intros q. rewrite !swept_alive_spec. cbn. rewrite elem_of_difference. tauto.
Qed.

Lemma forget_sweep_inv p o rest s : sweep_inv s -> alive s p = false -> sweep_inv (forget p o rest s).
Proof.
  intros H Hp. apply (shrunk_inv s); try done. intros q a Hq Hr. cbn. unfold forget_remote_if.
  destruct (remote_proxies (table s) !! addr o) as [w |] eqn:E; [| done]. destruct (Z.eqb_spec w p) as [-> |]; [| done]. cbn.
  destruct (decide (a = addr o)) as [-> | Hn]; [congruence | by rewrite lookup_delete_ne].
Qed.

Lemma resolve_cases a s : sweep_inv s ->
  (exists p, remote_proxy (alive s) a (next s) (table s) = ((p, true), table s) /\ alive s p = true) \/
  (exists t, remote_proxy (alive s) a (next s) (table s) = ((next s, false), t) /\
     remote_proxies t = <[a := next s]> (remote_proxies (table s)) /\
     forall q, alive s q = true -> remote_proxies (table s) !! a <> Some q).
Proof.
  intros H. unfold remote_proxy. destruct (remote_proxies (table s) !! a) as [w |] eqn:E.
  - destruct (alive s w) eqn:Ew; [left; eauto | right]. eexists. split_and!; [done | done |]. intros q Hq [= ->]. congruence.
  - right. eexists. by split_and!.
Qed.

Lemma resolve_inv a s : sweep_inv s -> sweep_inv (resolve a s).
Proof.
  intros H. unfold resolve. destruct (resolve_cases a s H) as [(p & -> & Hp) | (t & -> & Et & Hn)].
  - apply (shrunk_inv s); try done. intros q. rewrite !swept_alive_spec. cbn. rewrite elem_of_union, elem_of_singleton.
    intros [[-> | ?] | ?]; [by apply swept_alive_spec | by left | by right].
  - destruct H as [[H1 H1'] H2 H3 H4 H5]. set (s' := mkSession _ _ _ _ _ _ _ _ _ _ _ _).
    assert (Hf : objects s !! next s = None) by (destruct (objects s !! next s) eqn:E; [specialize (H1 (next s) ltac:(eauto)); lia | done]).
    assert (Hal : forall q, alive s' q = true -> q = next s \/ alive s q = true).
    { intros q. rewrite !swept_alive_spec. cbn. rewrite elem_of_union, elem_of_singleton. tauto. }
    assert (Hob : forall q, obit s' q <-> obit s q).
    { intros q. unfold obit. cbn. destruct (decide (q = next s)) as [-> | Hq]; [| by rewrite lookup_insert_ne].
      rewrite lookup_insert_eq, Hf. split; intros (x & Ex & Hx); [injection Ex as <-; done | done]. }
    split; cbn.
    + split; [| lia]. intros q. destruct (decide (q = next s)) as [-> | Hq]; [lia |]. rewrite lookup_insert_ne by done. intros ?%H1. lia.
    + intros q [-> | Hq]%Hal; [exists (proxy_new a); by rewrite lookup_insert_eq, Et, lookup_insert_eq |].
      destruct (H2 q Hq) as (o & Ho & Hr). exists o. assert (q <> next s) by (intros ->; congruence).
      rewrite lookup_insert_ne, Et by done. split; [done |]. rewrite lookup_insert_ne; [done |]. intros ->. by apply (Hn q).
    + destruct (teardown s); try done; setoid_rewrite Hob; done.
    + intros q o. destruct (decide (q = next s)) as [-> | Hq]; [rewrite lookup_insert_eq; by intros [= <-] |]. rewrite lookup_insert_ne by done. eauto.
    + destruct (teardown s) as [| | now rest |]; try done.
      * destruct H5 as [Hnow H5]. split; [destruct now as [[q rs] |]; [by apply Hob | done] |].
        intros q [-> | Hq]%Hal Hm; [lia |]. rewrite Hob. auto.
      * intros q [-> | Hq]%Hal Hm; [lia |]. rewrite Hob. auto.
Qed.

(** ** The sweep *)

Lemma snapshot_inv s : sweep_inv s -> teardown s = Edge -> sweep_inv (take_snapshot s).
Proof.
  intros [[H1 H1'] H2 H3 H4 H5] Et. rewrite Et in *. set (s' := take_snapshot s).
  assert (Hsnap : forall q, q ∈ remote_proxy_snapshot (alive s) (table s) <-> alive s q = true /\ exists a, remote_proxies (table s) !! a = Some q).
  { intros q. unfold remote_proxy_snapshot. rewrite list_elem_of_filter, list_elem_of_fmap. split; intros [Hq (x & Hx)]; (split; [done |]).
    - destruct Hx as [-> Hx]. destruct x as [a q']. apply elem_of_map_to_list in Hx. eauto.
    - exists (x, q). split; [done |]. by apply elem_of_map_to_list. }
  assert (Hal : forall q, alive s' q = true <-> alive s q = true).
  { intros q. rewrite !swept_alive_spec. cbn. rewrite Hsnap, Et. cbn. rewrite elem_of_nil. split; [| tauto].
    intros [? | [Hq%swept_alive_spec _]]; [by left |]. rewrite Et in Hq. cbn in Hq. by rewrite elem_of_nil in Hq. }
  split; cbn; [done | | done | done |].
  - intros q Hq%Hal. by apply H2.
  - split; [done |]. intros q Hq%Hal Hm. right. apply Hsnap. split; [done |]. destruct (H2 q Hq) as (o & _ & Hr). eauto.
Qed.

Lemma begin_inv p o rest s : sweep_inv s -> teardown s = Sweeping None (p :: rest) -> objects s !! p = Some o -> sweep_inv (begin_obituary p o rest s).
Proof.
  intros [[H1 H1'] H2 H3 H4 H5] Et Ho. rewrite Et in H3, H5. destruct H5 as [_ H5]. unfold begin_obituary.
  destruct (send_obituary o) as [rs o'] eqn:Es.
  assert (Eo : addr o' = addr o /\ obituary_sent o' = true /\ recipients o' = []).
  { unfold send_obituary in Es. destruct (obituary_sent o) eqn:E; injection Es as <- <-; [split_and!; eauto | done]. }
  destruct Eo as (E1 & E2 & E3). set (s' := set_teardown _ _).
  assert (Hal : forall q, alive s' q = alive s q) by (intros q; unfold alive; by rewrite Et).
  assert (Hob : forall q, obit s q \/ q = p -> obit s' q).
  { intros q Hq. unfold obit. cbn. destruct (decide (q = p)) as [-> | Hn]; [exists o'; by rewrite lookup_insert_eq |].
    rewrite lookup_insert_ne by done. by destruct Hq. }
  split; cbn.
  - split; [| done]. intros q. destruct (decide (q = p)) as [-> | Hn]; [intros _; apply H1; eauto |]. rewrite lookup_insert_ne by done. apply H1.
  - intros q. rewrite Hal. intros (x & Hx & Hr)%H2. destruct (decide (q = p)) as [-> | Hn].
    + exists o'. rewrite lookup_insert_eq, E1. rewrite Ho in Hx. by injection Hx as ->.
    + exists x. by rewrite lookup_insert_ne.
  - done.
  - intros q x. destruct (decide (q = p)) as [-> | Hn]; [rewrite lookup_insert_eq; by intros [= <-] | rewrite lookup_insert_ne by done; eauto].
  - split; [by apply Hob; right |]. intros q. rewrite Hal. intros Hq Hm. destruct (H5 q Hq Hm) as [? | [-> | ?]%elem_of_cons]; auto.
Qed.

Lemma sweep_step_inv up s : sweep_inv s -> teardown s <> NotYet -> sweep_inv (sweep_step up s).
Proof.
  intros H Hn. unfold sweep_step. destruct (teardown s) as [| | [[p [| r rs]] |] rest |] eqn:Et; try done.
  - by apply snapshot_inv.
  - apply forsake_inv. destruct H as [H1 H2 H3 H4 H5]. rewrite Et in *.
    assert (Hal : forall q, alive (set_teardown (Sweeping None rest) s) q = true -> alive s q = true).
    { intros q. rewrite !swept_alive_spec, Et. cbn. rewrite elem_of_cons. tauto. }
    split; cbn; try done; [intros q Hq; apply H2; auto |]. split; [done |]. intros q Hq Hm. by apply H5; [apply Hal |].
  - destruct H as [H1 H2 H3 H4 H5]. rewrite Et in *. assert (Hal : forall q, alive (call (up r) p r rs rest s) q = alive s q) by (intros q; unfold alive; by rewrite Et).
    split; cbn; try done; [intros q; rewrite Hal; auto |]. split; [apply H5 |]. intros q. rewrite Hal. apply H5.
  - destruct rest as [| p rest].
    + destruct H as [H1 H2 H3 H4 H5]. rewrite Et in *.
      assert (Hal : forall q, alive (finish_sweep s) q = alive s q) by (intros q; unfold alive; by rewrite Et).
      split; cbn; try done; [intros q; rewrite Hal; auto |]. intros q. rewrite Hal. intros Hq Hm.
      destruct H5 as [_ H5]. by destruct (H5 q Hq Hm) as [? | ?%elem_of_nil].
    + destruct (objects s !! p) as [o |] eqn:Eo; [by apply begin_inv |].
      destruct (si_cached _ H p) as (o & Ho & _); [apply swept_alive_spec; right; rewrite Et; apply list_elem_of_here | congruence].
Qed.

Lemma link_updated p o r s : objects s !! p = Some o ->
  link p o r s = s \/ (obituary_sent o = false /\ updated p (with_recipients (recipients o ++ [r]) o) s (link p o r s)).
Proof.
  intros Ho. unfold link, link_to_death. destruct (obituary_sent o); [by left | right]. done.
Qed.

Lemma unlink_updated p o r s : objects s !! p = Some o ->
  unlink p o r s = s \/
  (obituary_sent o = false /\ exists l, remove_first r (recipients o) = Some l /\ updated p (with_recipients l o) s (unlink p o r s)).
Proof.
  intros Ho. unfold unlink, unlink_to_death. destruct (obituary_sent o); [by left |].
  destruct (remove_first r (recipients o)) as [l |]; [right | by left]. split; [done |]. by exists l.
Qed.

Lemma cast_same d o : addr (snd (cast d o)) = addr o /\ obituary_sent (snd (cast d o)) = obituary_sent o /\ recipients (snd (cast d o)) = recipients o.
Proof. unfold cast, stamp_descriptor. by destruct (descriptor o). Qed.

Definition drop_ok (s : Session) : Prop := forall p, p ∈ dropping s -> alive s p = false /\ p < next s.

Lemma alive_next s p : sweep_inv s -> alive s p = true -> p < next s.
Proof. intros H Hp. destruct (si_cached _ H p Hp) as (o & Ho & _). apply (proj1 (si_fresh _ H)). eauto. Qed.

Lemma forsake_drop p s : drop_ok s -> p < next s -> drop_ok (forsake p s).
Proof.
  intros H Hp. unfold forsake. destruct (alive s p) eqn:Ea; [done |]. intros q. cbn. rewrite elem_of_cons. intros [-> | Hq]; [done |].
  by apply H.
Qed.

(** Fewer are alive, and no more are dropped. *)
Lemma drop_shrunk s s' : drop_ok s -> next s <= next s' -> (forall q, q ∈ dropping s' -> q ∈ dropping s) ->
  (forall q, q < next s -> alive s' q = true -> alive s q = true) -> drop_ok s'.
Proof.
  intros H Hn Hd Ha q Hq. destruct (H q (Hd q Hq)) as [H1 H2]. split; [| lia].
  destruct (alive s' q) eqn:E; [| done]. rewrite (Ha q H2 E) in H1. done.
Qed.

Lemma sweep_drop up s : sweep_inv s -> drop_ok s -> teardown s <> NotYet -> drop_ok (sweep_step up s).
Proof.
  intros Hi H Hn. unfold sweep_step. destruct (teardown s) as [| | [[p [| r rs]] |] rest |] eqn:Et; try done.
  - apply (drop_shrunk s); try done. intros q _. rewrite !swept_alive_spec. cbn. intros [? | Hq]; [by left |].
    unfold remote_proxy_snapshot in Hq. apply list_elem_of_filter in Hq as [Hq _]. by apply swept_alive_spec.
  - apply forsake_drop; [| apply (alive_next s p Hi), swept_alive_spec; right; rewrite Et; apply list_elem_of_here].
    apply (drop_shrunk s); try done. intros q _. rewrite !swept_alive_spec, Et. cbn. rewrite elem_of_cons. tauto.
  - apply (drop_shrunk s); try done. intros q _. unfold alive. by rewrite Et.
  - destruct rest as [| p rest]; [apply (drop_shrunk s); try done; intros q _; unfold alive; by rewrite Et |].
    destruct (objects s !! p) as [o |].
    + unfold begin_obituary. destruct (send_obituary o) as [rs o']. apply (drop_shrunk s); try done. intros q _. unfold alive. by rewrite Et.
    + apply (drop_shrunk s); try done. intros q _. rewrite !swept_alive_spec, Et. cbn. rewrite elem_of_cons. tauto.
Qed.

Lemma updated_alive p o s s' : updated p o s s' -> forall q, alive s' q = alive s q.
Proof. intros (_ & _ & E & _ & E' & _) q. unfold alive. by rewrite E, E'. Qed.

Lemma table_death s s' : sweep_inv s /\ drop_ok s -> phase_of s -> life_reachable (life s) -> death_step s s' -> sweep_inv s' /\ drop_ok s'.
Proof.
  intros [Hi Hd] Hp Hl Hs.
  destruct Hs as [l s Hs He Hm | l s Hs He | up s Hn | t s Ht | a s | p s Hin | p o pre post s Hdr Ho | p o r s Ha Ho | p o r s Ha Ho | d p o s Ha Ho].
  - split; [by apply (shrunk_inv s) | by apply (drop_shrunk s)].
  - assert (Et : teardown s = NotYet).
    { destruct (edges_step _ _ Hs) as [? | [E1 E2]]; [done |]. assert (Hl' : life_reachable l) by (by eapply lr_step).
      pose proof (edge_bounds _ Hl') as Hb. unfold phase_of in Hp. destruct (teardown s); try done; lia. }
    assert (Hal : forall q, alive (set_teardown Edge (set_life l s)) q = alive s q) by (intros q; unfold alive; by rewrite Et).
    split; [| apply (drop_shrunk s); try done; intros q _; by rewrite Hal].
    destruct Hi as [H1 H2 H3 H4 H5]. rewrite Et in *. split; cbn; try done. intros q. rewrite Hal. apply H2.
  - split; [by apply sweep_step_inv | by apply sweep_drop].
  - split; [apply (shrunk_inv s); try done; intros q a _; cbn; by rewrite Ht | by apply (drop_shrunk s)].
  - split; [by apply resolve_inv |]. unfold resolve. destruct (resolve_cases a s Hi) as [(p & -> & Hpa) | (t & -> & _)]; apply (drop_shrunk s); try done.
    + intros q _. rewrite !swept_alive_spec. cbn. rewrite elem_of_union, elem_of_singleton. intros [[-> | ?] | ?]; [by apply swept_alive_spec | by left | by right].
    + cbn. lia.
    + intros q Hq. rewrite !swept_alive_spec. cbn. rewrite elem_of_union, elem_of_singleton. intros [[-> | ?] | ?]; [lia | by left | by right].
  - split; [by apply drop_refs_inv |]. unfold drop_refs. apply forsake_drop; [| apply (alive_next s p Hi), swept_alive_spec; by left].
    apply (drop_shrunk s); try done. intros q _. rewrite !swept_alive_spec. cbn. rewrite elem_of_difference. tauto.
  - split; [apply forget_sweep_inv; [done |]; apply Hd; rewrite Hdr; apply elem_of_app; right; apply list_elem_of_here |].
    apply (drop_shrunk s); try done. intros q. cbn. rewrite Hdr, !elem_of_app, elem_of_cons. tauto.
  - destruct (link_updated p o r s Ho) as [-> | [Es Hu]]; [done |].
    split; [apply (updated_inv p o (with_recipients (recipients o ++ [r]) o) s); try done; by rewrite Es |].
    apply (drop_shrunk s); [done | by destruct Hu as (_ & _ & _ & -> & _) | | intros q _; by rewrite (updated_alive _ _ _ _ Hu)].
    unfold link, link_to_death. by rewrite Es.
  - destruct (unlink_updated p o r s Ho) as [-> | [Es (l & El & Hu)]]; [done |].
    split; [apply (updated_inv p o (with_recipients l o) s); try done; by rewrite Es |].
    apply (drop_shrunk s); [done | by destruct Hu as (_ & _ & _ & -> & _) | | intros q _; by rewrite (updated_alive _ _ _ _ Hu)].
    unfold unlink, unlink_to_death. by rewrite Es, El.
  - destruct (cast_same d o) as (E1 & E2 & E3). split; [| by apply (drop_shrunk s)].
    apply (updated_inv p o (snd (cast d o)) s); try done. rewrite E3. by apply (si_empty _ Hi p).
Qed.

(** ** Every link has one fate *)

Definition recips (s : Session) (p : Z) : list nat := match objects s !! p with Some o => recipients o | None => [] end.
Definition to_call (s : Session) (p : Z) : list nat :=
  match teardown s with Sweeping (Some (q, rs)) _ => if bool_decide (q = p) then rs else [] | _ => [] end.

Definition count_ok (s : Session) : Prop := forall p r,
  occ p r (linked s) = times r (recips s p) + times r (to_call s p) + occ p r (unlinked s) + occ p r (told s) + occ p r (gone s).

Lemma count_same s s' : count_ok s -> linked s' = linked s -> unlinked s' = unlinked s -> told s' = told s -> gone s' = gone s ->
  (forall p, recips s' p = recips s p) -> (forall p, to_call s' p = to_call s p) -> count_ok s'.
Proof. intros H E1 E2 E3 E4 E5 E6 p r. rewrite E1, E2, E3, E4, E5, E6. apply H. Qed.

Lemma count_forsake p s : count_ok s -> count_ok (forsake p s).
Proof. intros H. unfold forsake. by destruct (alive s p). Qed.

Lemma recips_insert p o s s' q : objects s' = <[p := o]> (objects s) -> recips s' q = if decide (q = p) then recipients o else recips s q.
Proof. intros E. unfold recips. rewrite E. destruct (decide (q = p)) as [-> |]; [by rewrite lookup_insert_eq | by rewrite lookup_insert_ne]. Qed.

Lemma count_sweep up s : count_ok s -> count_ok (sweep_step up s).
Proof.
  intros H. unfold sweep_step. destruct (teardown s) as [| | [[p [| r rs]] |] rest |] eqn:Et; try done.
  - apply (count_same s); try done. intros q. unfold to_call. by rewrite Et.
  - apply count_forsake, (count_same s); try done. intros q. unfold to_call. rewrite Et. cbn. by case_bool_decide.
  - intros q x. specialize (H q x). unfold to_call in *. rewrite Et in H. cbn [call linked unlinked told gone teardown].
    assert (Ec : times x (if bool_decide (p = q) then r :: rs else []) =
                 occ q x [(p, r)] + times x (if bool_decide (p = q) then rs else [])).
    { rewrite occ_one. case_bool_decide as E1; [rewrite times_cons, (bool_decide_ext (p = q /\ r = x) (r = x)) by tauto; done |].
      rewrite bool_decide_false by tauto. done. }
    rewrite Ec in H. change (recips (call (up r) p r rs rest s) q) with (recips s q). destruct (up r); rewrite ?occ_app; lia.
  - destruct rest as [| p rest]; [apply (count_same s); try done; intros q; unfold to_call; by rewrite Et |].
    destruct (objects s !! p) as [o |] eqn:Eo; [| apply (count_same s); try done; intros q; unfold to_call; by rewrite Et].
    unfold begin_obituary. destruct (send_obituary o) as [rs o'] eqn:Es. intros q x. specialize (H q x). unfold to_call in H. rewrite Et in H.
    set (s' := set_teardown _ _). rewrite (recips_insert p o' s s' q eq_refl). unfold to_call. cbn [s' set_teardown set_object linked unlinked told gone teardown].
    unfold recips in H. destruct (decide (q = p)) as [-> | Hn]; [rewrite Eo in H; rewrite bool_decide_true by done |
      rewrite bool_decide_false by done; exact H].
    unfold send_obituary in Es. destruct (obituary_sent o); injection Es as <- <-; cbn [recipients]; change (times x []) with 0 in *; lia.
Qed.

Lemma count_death s s' : count_ok s -> sweep_inv s -> phase_of s -> life_reachable (life s) -> death_step s s' -> count_ok s'.
Proof.
  intros H Hi Hp Hl Hs.
  destruct Hs as [l s Hs He Hm | l s Hs He | up s Hn | t s Ht | a s | p s Hin | p o pre post s Hdr Ho | p o r s Ha Ho | p o r s Ha Ho | d p o s Ha Ho].
  - done.
  - apply (count_same s); try done. intros q. unfold to_call. cbn. destruct (edges_step _ _ Hs) as [? | [E1 E2]]; [done |].
    assert (Hl' : life_reachable l) by (by eapply lr_step). pose proof (edge_bounds _ Hl') as Hb. unfold phase_of in Hp.
    destruct (teardown s); try done; lia.
  - by apply count_sweep.
  - done.
  - unfold resolve. destruct (resolve_cases a s Hi) as [(p & -> & _) | (t & -> & _)]; [done |].
    set (s' := mkSession _ _ _ _ _ _ _ _ _ _ _ _). apply (count_same s); try done.
    intros q. rewrite (recips_insert (next s) (proxy_new a) s s' q eq_refl). destruct (decide (q = next s)) as [-> |]; [| done].
    unfold recips. destruct (objects s !! next s) eqn:E; [| done]. pose proof (proj1 (si_fresh _ Hi) (next s) ltac:(eauto)). lia.
  - by apply count_forsake.
  - done.
  - unfold link, link_to_death. destruct (obituary_sent o); [done |]. intros q x. specialize (H q x). set (s' := mkSession _ _ _ _ _ _ _ _ _ _ _ _). 
    rewrite (recips_insert p (with_recipients (recipients o ++ [r]) o) s s' q eq_refl). cbn [s' linked unlinked told gone]. rewrite occ_app, occ_one.
    unfold recips in H. destruct (decide (q = p)) as [-> | Hn].
    + rewrite Ho in H. cbn [with_recipients recipients]. rewrite times_app, times_one. unfold to_call, s' in *. cbn [teardown].
      rewrite (bool_decide_ext (p = p /\ r = x) (r = x)) by tauto. lia.
    + rewrite bool_decide_false by (intros [? _]; congruence). unfold recips, to_call, s' in *. cbn [teardown]. lia.
  - unfold unlink, unlink_to_death. destruct (obituary_sent o); [done |].
    destruct (remove_first r (recipients o)) as [l |] eqn:El; [| done]. intros q x. specialize (H q x). set (s' := mkSession _ _ _ _ _ _ _ _ _ _ _ _). 
    rewrite (recips_insert p (with_recipients l o) s s' q eq_refl). cbn [s' linked unlinked told gone]. rewrite occ_app, occ_one.
    unfold recips in H. destruct (decide (q = p)) as [-> | Hn].
    + rewrite Ho, (remove_first_times r x _ l El) in H. cbn [with_recipients recipients]. unfold to_call, s' in *. cbn [teardown].
      rewrite (bool_decide_ext (p = p /\ r = x) (r = x)) by tauto. lia.
    + rewrite bool_decide_false by (intros [? _]; congruence). unfold recips, to_call, s' in *. cbn [teardown]. lia.
  - apply (count_same s); try done. intros q. rewrite (recips_insert p (snd (cast d o)) s (set_object p (snd (cast d o)) s) q eq_refl).
    destruct (decide (q = p)) as [-> |]; [| done]. unfold recips. by rewrite Ho, (proj2 (proj2 (cast_same d o))).
Qed.

Lemma death_invariant s : death_reachable s -> life_ok s /\ sweep_inv s /\ drop_ok s /\ count_ok s.
Proof.
  induction 1 as [sp | s s' _ (Hl & Hi & Hd & Hc) Hs].
  - split_and!; [split; [apply lr_new | done] | | intros p Hp; by apply elem_of_nil in Hp | done].
    split; cbn; [| | split_and!; [done | done |] | intros p o Ho; by rewrite lookup_empty in Ho | done].
    + split; [| done]. intros p [x Hx]. by rewrite lookup_empty in Hx.
    + intros p Hp%swept_alive_spec. cbn in Hp. rewrite elem_of_empty, elem_of_nil in Hp. by destruct Hp.
    + intros p (o & Ho & _). cbn in Ho. by rewrite lookup_empty in Ho.
  - pose proof Hl as [Hr Hp]. destruct (table_death s s' (conj Hi Hd) Hp Hr Hs) as [Hi' Hd'].
    split_and!; [by eapply life_death | done | done | by eapply count_death].
Qed.

Lemma torn_down_edge s : life_ok s -> teardown s <> NotYet -> is_torn_down (word (life s)) = true.
Proof.
  intros [Hl Hp] Hn. unfold phase_of in Hp. destruct (edge_bounds _ Hl) as [[E1 E2] | [_ [[_ ->] | [_ ->]]]]; [| done | done].
  destruct (teardown s); try done; lia.
Qed.

Section Ends.
Context (up : nat -> bool).

Lemma ends_later s : (exists n, teardown (Nat.iter n (sweep_step up) (sweep_step up s)) = Done) ->
  exists n, teardown (Nat.iter n (sweep_step up) s) = Done.
Proof. intros [n E]. exists (S n). by rewrite Nat.iter_succ_r. Qed.

Lemma end_obituary_teardown p rest s : teardown (end_obituary p rest s) = Sweeping None rest.
Proof. unfold end_obituary. by destruct (forsake_frame p (set_teardown (Sweeping None rest) s)) as [_ ->]. Qed.

Lemma sweep_ends s now rest : teardown s = Sweeping now rest -> exists n, teardown (Nat.iter n (sweep_step up) s) = Done.
Proof.
  revert s now. induction rest as [| q rest IH]; intros s now.
  - assert (Hfin : forall s0, teardown s0 = Sweeping None [] -> exists n, teardown (Nat.iter n (sweep_step up) s0) = Done).
    { intros s0 E. exists 1%nat. cbn. unfold sweep_step. by rewrite E. }
    destruct now as [[p rs] |]; [| apply Hfin]. revert s. induction rs as [| r rs IHr]; intros s E; apply ends_later.
    + apply Hfin. unfold sweep_step. rewrite E. apply end_obituary_teardown.
    + apply IHr. unfold sweep_step. by rewrite E.
  - assert (Hfin : forall s0, teardown s0 = Sweeping None (q :: rest) -> exists n, teardown (Nat.iter n (sweep_step up) s0) = Done).
    { intros s0 E. apply ends_later. unfold sweep_step at 2. rewrite E. destruct (objects s0 !! q) as [o |]; [| by apply (IH _ None)].
      unfold begin_obituary. destruct (send_obituary o) as [rs o']. by apply (IH _ (Some (q, rs))). }
    destruct now as [[p rs] |]; [| apply Hfin]. revert s. induction rs as [| r rs IHr]; intros s E; apply ends_later.
    + apply Hfin. unfold sweep_step. rewrite E. apply end_obituary_teardown.
    + apply IHr. unfold sweep_step. by rewrite E.
Qed.
End Ends.

(** * Theorems *)

(** C12: Every successful link has one fate. However threads interleave, each time that a recipient was linked to a proxy it is still
    registered, about to be called, was unlinked, was called or was found gone; so no death is told twice or to an unlinked recipient.
    Nothing is told, and no proxy refuses links, before the last connection of the session is gone. *)
Theorem death_told_once s : death_reachable s ->
  (forall p r, occ p r (linked s) = times r (recips s p) + times r (to_call s p) + occ p r (unlinked s) + occ p r (told s) + occ p r (gone s)) /\
  (is_torn_down (word (life s)) = false -> told s = [] /\ gone s = [] /\
     forall p o r, objects s !! p = Some o -> (link_to_death r o).1 = Ok tt).
Proof.
  intros (Hl & Hi & _ & Hc)%death_invariant. split; [exact Hc |]. intros Ht.
  destruct (decide (teardown s = NotYet)) as [E | Hn]; [| by rewrite torn_down_edge in Ht].
  pose proof (si_early _ Hi) as He. rewrite E in He. destruct He as (E1 & E2 & E3). split_and!; [done | done |].
  intros p o r Ho. unfold link_to_death. destruct (obituary_sent o) eqn:Es; [| done]. destruct (E3 p). by exists o.
Qed.

(** C13: The death of a session reaches its proxies. Once the last connection is gone the sweep ends, whatever the recipients
    are; when it has, the session is dead, and every proxy that was made before the snapshot and is still held has no recipient left to call,
    has told, or found gone, all that were linked and not unlinked, and refuses new links. *)
Theorem death_reaches_proxies s : death_reachable s -> teardown s <> NotYet ->
  (forall up, exists n, teardown (Nat.iter n (sweep_step up) s) = Done) /\
  (teardown s = Done -> word (life s) = encode_dead /\
   forall p, alive s p = true -> p < mark s ->
     (forall r, occ p r (linked s) = occ p r (unlinked s) + occ p r (told s) + occ p r (gone s)) /\
     exists o, objects s !! p = Some o /\ forall r, link_to_death r o = (Err StDeadObject, o)).
Proof.
  intros ([Hl Hp] & Hi & _ & Hc)%death_invariant Hn. split.
  - intros up. destruct (teardown s) as [| | now rest |] eqn:Et; [done | | by eapply sweep_ends | by exists 0%nat].
    apply ends_later. eapply sweep_ends. unfold sweep_step. by rewrite Et.
  - intros Ed. unfold phase_of in Hp. rewrite Ed in Hp. split; [apply Hp |]. intros p Ha Hm.
    pose proof (si_swept _ Hi) as Hs. rewrite Ed in Hs. destruct (Hs p Ha Hm) as (o & Ho & Es). split.
    + intros r. specialize (Hc p r). unfold recips, to_call in Hc. rewrite Ho, Ed, (si_empty _ Hi p o Ho Es) in Hc.
      change (times r []) with 0 in Hc. lia.
    + exists o. split; [done |]. intros r. unfold link_to_death. by rewrite Es.
Qed.

(** A dead session stays silent. *)
Lemma dead_session_quiet s s' : death_reachable s -> teardown s = Done -> death_step s s' -> teardown s' = Done /\ told s' = told s.
Proof.
  intros ([Hl Hp] & Hi & _ & _)%death_invariant Ed Hs. unfold phase_of in Hp. rewrite Ed in Hp. destruct Hp as (E1 & E2 & E3).
  destruct Hs as [l s Hs He Hm | l s Hs He | up s Hn | t s Ht | a s | p s Hin | p o pre post s Hdr Ho | p o r s Ha Ho | p o r s Ha Ho | d p o s Ha Ho];
    try done.
  - destruct He. by destruct (dead_stays _ _ Hl Hs E3) as (_ & ? & _).
  - unfold sweep_step. by rewrite Ed.
  - unfold resolve. by destruct (remote_proxy _ _ _ _) as [[p [|]] t].
  - unfold drop_refs, forsake. by case_match.
  - unfold link. by destruct (link_to_death r o) as [[] ?].
  - unfold unlink. by destruct (unlink_to_death r o) as [[] ?].
Qed.

(** A stamped descriptor and the address of a proxy never change. *)
Lemma descriptor_stamped_once s s' p o d : death_reachable s -> death_step s s' -> objects s !! p = Some o -> descriptor o = Some d ->
  exists o', objects s' !! p = Some o' /\ descriptor o' = Some d /\ addr o' = addr o.
Proof.
  intros (_ & Hi & _ & _)%death_invariant Hs Ho Hd.
  assert (Hput : forall q x m, m = objects s -> (q = p -> descriptor x = Some d /\ addr x = addr o) ->
            exists o', <[q := x]> m !! p = Some o' /\ descriptor o' = Some d /\ addr o' = addr o).
  { intros q x m -> Hx. destruct (decide (q = p)) as [-> | Hn]; [exists x; rewrite lookup_insert_eq; split; [done | by apply Hx] | exists o; by rewrite lookup_insert_ne]. }
  destruct Hs as [l s Hs He Hm | l s Hs He | up s Hn | t s Ht | a s | q s Hin | q o' pre post s Hdr Hq | q x r s Ha Hq | q x r s Ha Hq | e q x s Ha Hq];
    try (by exists o).
  - unfold sweep_step. destruct (teardown s) as [| | [[q [| r rs]] |] [| y rest] |]; try (by exists o);
      try (unfold end_obituary, forsake; case_match; by exists o).
    destruct (objects s !! y) as [x |] eqn:Ey; [| by exists o]. unfold begin_obituary, send_obituary.
    destruct (obituary_sent x); apply Hput; try done; intros ->; rewrite Ho in Ey; by injection Ey as <-.
  - unfold resolve. destruct (resolve_cases a s Hi) as [(q & -> & _) | (t & -> & _)]; [by exists o |]. apply Hput; [done |]. intros E.
    pose proof (proj1 (si_fresh _ Hi) p ltac:(eauto)). lia.
  - unfold drop_refs, forsake. case_match; by exists o.
  - unfold link, link_to_death. destruct (obituary_sent x); [by exists o |]. apply Hput; [done |]. intros ->. rewrite Ho in Hq. by injection Hq as <-.
  - unfold unlink, unlink_to_death. destruct (obituary_sent x); [by exists o |]. destruct (remove_first r (recipients x)); [| by exists o].
    apply Hput; [done |]. intros ->. rewrite Ho in Hq. by injection Hq as <-.
  - apply Hput; [done |]. intros ->. rewrite Ho in Hq. injection Hq as <-. unfold cast, stamp_descriptor. by rewrite Hd.
Qed.

(** * Executed runs *)

Definition peer_object (n : Z) : RpcAddress := mkAddr [byte_of_Z n].

(** One proxy with recipients 1 and 2; then the only connection goes. *)
Definition linked_session : Session :=
  let s := resolve (peer_object 1) (session_new Initiator) in
  let s := link 0 (proxy_new (peer_object 1)) 1 s in
  link 0 (with_recipients [1%nat] (proxy_new (peer_object 1))) 2 s.

Definition closing : Life := mkLife 1 0 [] [1] 0 0.
Definition edge_session : Session := set_teardown Edge (set_life (drop_pass false 1 [] closing) (set_life closing linked_session)).
Definition dead_session : Session := Nat.iter 6 (sweep_step (fun r => Nat.eqb r 1)) edge_session.

Lemma linked_reachable : death_reachable linked_session.
Proof.
  unfold linked_session. set (s1 := resolve (peer_object 1) _). set (s2 := link 0 _ 1 s1).
  apply (dr_step s2); [apply (dr_step s1); [apply (dr_step (session_new Initiator)); [apply dr_start | apply d_resolve] |] |];
    apply d_link; by vm_compute.
Qed.

Lemma edge_reachable : death_reachable edge_session.
Proof.
  apply (dr_step (set_life closing linked_session)).
  - apply (dr_step linked_session); [apply linked_reachable |]. apply d_life; [apply ls_drop; by vm_compute | by vm_compute | by vm_compute].
  - apply d_edge; [apply (ls_drop_pass _ false [] 1 []); by vm_compute | by vm_compute].
Qed.

Lemma dead_reachable : death_reachable dead_session.
Proof.
  assert (H : forall n, death_reachable (Nat.iter n (sweep_step (fun r => Nat.eqb r 1)) edge_session) /\ teardown (Nat.iter n (sweep_step (fun r => Nat.eqb r 1)) edge_session) <> NotYet).
  { induction n as [| n [IH1 IH2]]; [split; [apply edge_reachable | by vm_compute] |]. cbn [Nat.iter nat_rect].
    set (s := Nat.iter n _ _) in *. change (nat_rect _ _ _ n) with s. split; [eapply dr_step; [exact IH1 | by apply d_sweep] |].
    unfold sweep_step. destruct (teardown s) as [| | [[p [| r rs]] |] [| q rest] |] eqn:Et; try done;
      rewrite ?end_obituary_teardown; try done; [destruct (objects s !! q); [unfold begin_obituary; by destruct (send_obituary _) | done] | by rewrite Et]. }
  apply H.
Qed.

Lemma death_told_once_witness : death_reachable dead_session /\ told dead_session = [(0, 1%nat)] /\ gone dead_session = [(0, 2%nat)] /\
  occ 0 1 (linked dead_session) = 1.
Proof.
  split_and!; [apply dead_reachable | by vm_compute | by vm_compute |].
  destruct (death_told_once dead_session dead_reachable) as [H _]. specialize (H 0 1%nat). rewrite H. clear H. by vm_compute.
Defined.

Lemma death_reaches_proxies_witness : word (life dead_session) = encode_dead /\
  exists o, objects dead_session !! 0 = Some o /\ link_to_death 3 o = (Err StDeadObject, o).
Proof.
  destruct (death_reaches_proxies dead_session dead_reachable) as [_ H]; [by vm_compute |].
  destruct H as [E H]; [by vm_compute |]. split; [done |].
  destruct (H 0) as [_ (o & Ho & Hl)]; [by vm_compute | by vm_compute |]. exists o. split; [done | apply Hl].
Defined.

(** A binder that is read after the sweep: its proxy accepts a recipient, which is never told. *)
Lemma late_proxy_accepts_links : exists s p o,
  death_reachable s /\ teardown s = Done /\ alive s p = true /\ objects s !! p = Some o /\ (link_to_death 9 o).1 = Ok tt /\
  forall s', death_step s s' -> told s' = told s.
Proof.
  assert (Hr : death_reachable (resolve (peer_object 2) dead_session)) by (eapply dr_step; [apply dead_reachable | apply d_resolve]).
  assert (Et : teardown (resolve (peer_object 2) dead_session) = Done) by by vm_compute.
  exists (resolve (peer_object 2) dead_session), 1, (proxy_new (peer_object 2)).
  split_and!; [done | done | by vm_compute | by vm_compute | done |]. intros s' Hs. by apply (dead_session_quiet _ s' Hr Et Hs).
Qed.
