(* ===== verification/ProxyCount.v ===== *)
(** Counting proxies (src/rsbinder/src/proxy_count.rs): the process-wide count,
    the optional count per uid with its watermarks, and the callbacks, which a
    guard defers while the proxy cache is locked.

    An operation runs under the module's mutex, so it is one step. The world
    holds the globals, one thread's deferral flag and queue, and, to state what
    the counters mean, the live proxies (each with its uid and whether its creation
    was counted) and the log of callbacks, in which a drop to the low watermark
    leaves a [Reset]. Callbacks are recorded, not run. *)

From Stdlib Require Import ZArith Lia.
From stdpp Require Import base gmap list.
From S2P Require Import Prelude.

Inductive ProxyCountEvent : Type :=
| Warning (uid count : Z)
| Limit (uid count : Z).

Inductive Note : Type :=
| Fired (e : ProxyCountEvent)
| Reset (uid : Z).

Record UidEntry : Type := mkUid { uid_count : Z; warning_fired : bool; limit_fired : bool }.

Record ProxyState : Type := mkProxyState {
  high : Z; low : Z; warning : Z;
  callback : bool;
  per_uid : gmap Z UidEntry
}.

Record Counts : Type := mkCounts {
  proxy_count : Z;
  count_by_uid : bool;
  state : ProxyState;
  deferring : bool;
  pending : list ProxyCountEvent;
  fired : list ProxyCountEvent;
  live : list (Z * bool);
  log : list Note
}.

Definition uid_default : UidEntry := mkUid 0 false false.

Definition counts_new : Counts :=
  mkCounts 0 false (mkProxyState 2500 2000 2250 false ∅) false [] [] [] [].

Definition set_state (s : ProxyState) (w : Counts) : Counts :=
  mkCounts (proxy_count w) (count_by_uid w) s (deferring w) (pending w) (fired w) (live w) (log w).
Definition set_uids (m : gmap Z UidEntry) (s : ProxyState) : ProxyState :=
  mkProxyState (high s) (low s) (warning s) (callback s) m.

(** The entry after one more proxy, and the event to publish. *)
Definition bump_uid (s : ProxyState) (uid : Z) (e : UidEntry) : UidEntry * option ProxyCountEvent :=
  let count := wrap_u 64 (uid_count e + 1) in
  if negb (limit_fired e) && (high s <=? count) then
    (mkUid count (warning_fired e) true, if callback s then Some (Limit uid count) else None)
  else if negb (warning_fired e) && (warning s <=? count) && (count <? high s) then
    (mkUid count true (limit_fired e), if callback s then Some (Warning uid count) else None)
  else (mkUid count (warning_fired e) (limit_fired e), None).

(** A callback runs at once, or waits for the guard. *)
Definition publish (ev : option ProxyCountEvent) (w : Counts) : Counts :=
  match ev with
  | None => w
  | Some e =>
      if deferring w
      then mkCounts (proxy_count w) (count_by_uid w) (state w) (deferring w) (pending w ++ [e])
                    (fired w) (live w) (log w ++ [Fired e])
      else mkCounts (proxy_count w) (count_by_uid w) (state w) (deferring w) (pending w)
                    (fired w ++ [e]) (live w) (log w ++ [Fired e])
  end.

Definition on_proxy_create (uid : Z) (w : Counts) : bool * Counts :=
  let w := mkCounts (wrap_u 64 (proxy_count w + 1)) (count_by_uid w) (state w) (deferring w)
                    (pending w) (fired w) (live w) (log w) in
  if count_by_uid w then
    let s := state w in
    let (e, ev) := bump_uid s uid (default uid_default (per_uid s !! uid)) in
    (true, publish ev (set_state (set_uids (<[uid := e]> (per_uid s)) s) w))
  else (false, w).

(** The entry after one proxy less. *)
Definition lower_uid (s : ProxyState) (e : UidEntry) : UidEntry :=
  let count := Z.max 0 (uid_count e - 1) in
  if count <=? low s then mkUid count false false
  else mkUid count (warning_fired e) (limit_fired e).

Definition on_proxy_drop (uid : Z) (counted_by_uid : bool) (w : Counts) : Counts :=
  let w := mkCounts (wrap_u 64 (proxy_count w - 1)) (count_by_uid w) (state w) (deferring w)
                    (pending w) (fired w) (live w) (log w) in
  if negb counted_by_uid then w
  else
    let s := state w in
    match per_uid s !! uid with
    | None => w
    | Some e =>
        let e := lower_uid s e in
        let m := if uid_count e =? 0 then delete uid (per_uid s) else <[uid := e]> (per_uid s) in
        let w := set_state (set_uids m s) w in
        if uid_count e <=? low s
        then mkCounts (proxy_count w) (count_by_uid w) (state w) (deferring w) (pending w) (fired w)
                      (live w) (log w ++ [Reset uid])
        else w
    end.

(** [CallbackDeferGuard]: the flag it found, and its drop. *)
Definition guard_new (w : Counts) : bool * Counts :=
  (deferring w,
   mkCounts (proxy_count w) (count_by_uid w) (state w) true (pending w) (fired w) (live w) (log w)).

Definition guard_drop (was_deferring : bool) (w : Counts) : Counts :=
  if was_deferring
  then mkCounts (proxy_count w) (count_by_uid w) (state w) true (pending w) (fired w) (live w) (log w)
  else mkCounts (proxy_count w) (count_by_uid w) (state w) false [] (fired w ++ pending w)
                (live w) (log w).

Definition set_binder_proxy_count_watermarks (h l wn : Z) (w : Counts) : Counts :=
  set_state (mkProxyState h l wn (callback (state w)) (per_uid (state w))) w.
Definition set_binder_proxy_count_event_callback (cb : bool) (w : Counts) : Counts :=
  set_state (mkProxyState (high (state w)) (low (state w)) (warning (state w)) cb (per_uid (state w))) w.
Definition enable_count_by_uid (enabled : bool) (w : Counts) : Counts :=
  mkCounts (proxy_count w) enabled (state w) (deferring w) (pending w) (fired w) (live w) (log w).

Definition get_binder_proxy_count (w : Counts) : Z := proxy_count w.
Definition get_binder_proxy_count_for_uid (uid : Z) (w : Counts) : Z :=
  match per_uid (state w) !! uid with Some e => uid_count e | None => 0 end.

(** In any order. *)
Definition get_binder_proxy_counts_by_uid (w : Counts) : list (Z * Z) := prod_map id uid_count <$> map_to_list (per_uid (state w)).

Definition clear_count_by_uid (w : Counts) : Counts := set_state (set_uids ∅ (state w)) w.

Definition set_live (l : list (Z * bool)) (w : Counts) : Counts :=
  mkCounts (proxy_count w) (count_by_uid w) (state w) (deferring w) (pending w) (fired w) l (log w).

(** The steps: a proxy is created, a live one is dropped with what its creation
    returned, a guard begins or the innermost one ends, and the settings change; the counts are not cleared.
    [guards] are the flags of the guards that are alive. *)
Inductive counts_step : Counts * list bool -> Counts * list bool -> Prop :=
| pc_create uid w g :
    zlen (live w) < 2 ^ 64 - 1 ->
    counts_step (w, g) (let (counted, w') := on_proxy_create uid w in
                        (set_live ((uid, counted) :: live w') w', g))
| pc_drop pre uid counted post w g :
    live w = pre ++ (uid, counted) :: post ->
    counts_step (w, g) (set_live (pre ++ post) (on_proxy_drop uid counted w), g)
| pc_guard w g : counts_step (w, g) ((guard_new w).2, (guard_new w).1 :: g)
| pc_unguard was w g : counts_step (w, was :: g) (guard_drop was w, g)
| pc_watermarks h l wn w g : 0 <= l ->
    counts_step (w, g) (set_binder_proxy_count_watermarks h l wn w, g)
| pc_callback cb w g : counts_step (w, g) (set_binder_proxy_count_event_callback cb w, g)
| pc_enable b w g : counts_step (w, g) (enable_count_by_uid b w, g).

Inductive counts_reachable : Counts * list bool -> Prop :=
| pcr_new : counts_reachable (counts_new, [])
| pcr_step w w' : counts_reachable w -> counts_step w w' -> counts_reachable w'.

(** * Alarms *)

(** Limits are one kind of alarm, warnings the other. *)
Definition event_uid (e : ProxyCountEvent) : Z := match e with Warning u _ | Limit u _ => u end.
Definition is_limit (e : ProxyCountEvent) : bool := match e with Limit _ _ => true | _ => false end.
Definition flag (k : bool) (e : UidEntry) : bool := if k then limit_fired e else warning_fired e.

(** Reading a log for the alarms of kind [k] for [uid]: [Some armed], or [None]
    if one fired a second time before the count fell to the low watermark. *)
Definition alarm_next (k : bool) (uid : Z) (st : option bool) (n : Note) : option bool :=
  match st with
  | None => None
  | Some armed =>
      match n with
      | Fired e => if bool_decide (event_uid e = uid /\ is_limit e = k)
                   then (if armed then None else Some true) else Some armed
      | Reset u => if u =? uid then Some false else Some armed
      end
  end.
Definition alarm_state (k : bool) (uid : Z) (l : list Note) : option bool :=
  foldl (alarm_next k uid) (Some false) l.

Definition alarms_ok (k : bool) (uid : Z) (w : Counts) : Prop :=
  exists armed, alarm_state k uid (log w) = Some armed /\
    (armed = true -> exists e, per_uid (state w) !! uid = Some e /\ flag k e = true).

(** The proxies of a uid that were counted. *)
Definition tracked (uid : Z) (l : list (Z * bool)) : Z := zlen (filter (fun p => p = (uid, true)) l).

Definition uids_ok (w : Counts) : Prop :=
  forall uid, match per_uid (state w) !! uid with
              | Some e => uid_count e = tracked uid (live w) /\ 0 < tracked uid (live w)
              | None => tracked uid (live w) = 0
              end.

Definition events_of (l : list Note) : list ProxyCountEvent :=
  omap (fun n => match n with Fired e => Some e | Reset _ => None end) l.

(** The flags of the guards: the outermost found none. *)
Fixpoint guards_ok (g : list bool) : Prop :=
  match g with
  | [] => True
  | was :: g => was = negb (bool_decide (g = [])) /\ guards_ok g
  end.

Record counts_inv (w : Counts) (g : list bool) : Prop := mkCountsInv {
  ci_count : proxy_count w = zlen (live w);
  ci_bound : zlen (live w) < 2 ^ 64;
  ci_uids : uids_ok w;
  ci_alarms : forall k uid, alarms_ok k uid w;
  ci_low : 0 <= low (state w);
  ci_guards : guards_ok g;
  ci_defer : deferring w = negb (bool_decide (g = []));
  ci_pending : deferring w = false -> pending w = [];
  ci_events : events_of (log w) = fired w ++ pending w
}.

Lemma bump_uid_spec s uid e :
  let (e', ev) := bump_uid s uid e in
  uid_count e' = wrap_u 64 (uid_count e + 1) /\
  (forall k, flag k e = true -> flag k e' = true) /\
  match ev with
  | Some x => event_uid x = uid /\ flag (is_limit x) e = false /\ flag (is_limit x) e' = true
  | None => True
  end.
Proof.
  unfold bump_uid, flag. destruct e as [n wf lf]. cbn.
  destruct lf, wf; cbn; repeat (case_match; cbn in *; simplify_eq); split_and!;
    try done; by intros [].
Qed.

Lemma tracked_cons uid u c l :
  tracked uid ((u, c) :: l) = (if decide ((u, c) = (uid, true)) then 1 else 0) + tracked uid l.
Proof.
  unfold tracked. destruct (decide ((u, c) = (uid, true))) as [E | E].
  - rewrite filter_cons_True by done. apply zlen_cons.
  - by rewrite filter_cons_False.
Qed.

Lemma tracked_app uid l l' : tracked uid (l ++ l') = tracked uid l + tracked uid l'.
Proof. unfold tracked. by rewrite filter_app, zlen_app. Qed.

Lemma tracked_bound uid l : 0 <= tracked uid l <= zlen l.
Proof.
  split; [apply zlen_nonneg |]. unfold tracked, zlen. pose proof (length_filter (fun p => p = (uid, true)) l). lia.
Qed.

Lemma alarm_state_snoc k uid l n :
  alarm_state k uid (l ++ [n]) = alarm_next k uid (alarm_state k uid l) n.
Proof. unfold alarm_state. by rewrite foldl_snoc. Qed.

Lemma events_of_snoc l n : events_of (l ++ [n]) = events_of l ++ match n with Fired e => [e] | _ => [] end.
Proof. unfold events_of. rewrite omap_app. by destruct n. Qed.

(** Publishing an event whose flag was down and is up now. *)
Lemma publish_alarm k uid ev w w0 e e' :
  alarms_ok k uid w0 -> log w = log w0 ->
  per_uid (state w) = <[event_uid ev := e']> (per_uid (state w0)) ->
  default uid_default (per_uid (state w0) !! event_uid ev) = e ->
  flag (is_limit ev) e = false -> flag (is_limit ev) e' = true ->
  (forall k, flag k e = true -> flag k e' = true) ->
  alarms_ok k uid (publish (Some ev) w).
Proof.
  intros (armed & Ea & Hf) El Em Ed Hdown Hup Hmono.
  assert (Hlog : log (publish (Some ev) w) = log w0 ++ [Fired ev] /\
                 state (publish (Some ev) w) = state w)
    by (unfold publish; rewrite <- El; by destruct (deferring w)).
  destruct Hlog as [Hlog Hst]. unfold alarms_ok. rewrite Hlog, Hst, alarm_state_snoc, Ea, Em. cbn.
  case_bool_decide as Hk.
  - destruct Hk as [<- <-]. destruct armed.
    { destruct Hf as (e0 & E0 & F0); [done |]. rewrite E0 in Ed. cbn in Ed. congruence. }
    exists true. split; [done |]. intros _. exists e'. by rewrite lookup_insert_eq.
  - exists armed. split; [done |]. intros Ha. destruct (Hf Ha) as (e0 & E0 & F0).
    destruct (decide (uid = event_uid ev)) as [-> | Hne].
    + exists e'. rewrite lookup_insert_eq. split; [done |]. apply Hmono. rewrite E0 in Ed. cbn in Ed. congruence.
    + exists e0. by rewrite lookup_insert_ne.
Qed.

(** The invariant does not see a change of settings. *)
Lemma quiet_alarm k uid w w0 e' u :
  alarms_ok k uid w0 -> log w = log w0 ->
  per_uid (state w) = <[u := e']> (per_uid (state w0)) ->
  (forall k, flag k (default uid_default (per_uid (state w0) !! u)) = true -> flag k e' = true) ->
  alarms_ok k uid w.
Proof.
  intros (armed & Ea & Hf) El Em Hmono. unfold alarms_ok. rewrite El, Em. exists armed.
  split; [done |]. intros Ha. destruct (Hf Ha) as (e0 & E0 & F0).
  destruct (decide (uid = u)) as [-> | Hne].
  - exists e'. rewrite lookup_insert_eq. split; [done |]. apply Hmono. by rewrite E0.
  - exists e0. by rewrite lookup_insert_ne.
Qed.

Lemma uids_ok_create uid w m e :
  uids_ok w -> zlen (live w) < 2 ^ 64 - 1 ->
  m = <[uid := e]> (per_uid (state w)) ->
  uid_count e = wrap_u 64 (uid_count (default uid_default (per_uid (state w) !! uid)) + 1) ->
  forall u, match m !! u with
            | Some e => uid_count e = tracked u ((uid, true) :: live w) /\ 0 < tracked u ((uid, true) :: live w)
            | None => tracked u ((uid, true) :: live w) = 0
            end.
Proof.
  intros Hu Hb -> He u. specialize (Hu u). pose proof (tracked_bound u (live w)).
  rewrite tracked_cons. destruct (decide (u = uid)) as [-> | Hne].
  - rewrite lookup_insert_eq, decide_True by done. rewrite He.
    assert (Hd : uid_count (default uid_default (per_uid (state w) !! uid)) = tracked uid (live w)).
    { destruct (per_uid (state w) !! uid); cbn; [by destruct Hu | by rewrite Hu]. }
    rewrite Hd, wrap_u_small by (unfold in_u; lia). lia.
  - rewrite lookup_insert_ne, decide_False by congruence. exact Hu.
Qed.

(** What [publish] leaves alone. *)
Lemma publish_fields ev w :
  proxy_count (publish ev w) = proxy_count w /\ state (publish ev w) = state w /\
  deferring (publish ev w) = deferring w /\ live (publish ev w) = live w /\
  events_of (log (publish ev w)) = events_of (log w) ++ match ev with Some e => [e] | None => [] end /\
  fired (publish ev w) ++ pending (publish ev w)
  = match ev with
    | Some e => if deferring w then fired w ++ pending w ++ [e] else (fired w ++ [e]) ++ pending w
    | None => fired w ++ pending w
    end /\
  (deferring w = false -> pending (publish ev w) = pending w).
Proof.
  destruct ev as [e |]; cbn; [| by rewrite app_nil_r]. destruct (deferring w) eqn:Ed; cbn;
    rewrite events_of_snoc; by rewrite ?Ed.
Qed.

Lemma proxy_create_inv uid w g :
  counts_inv w g -> zlen (live w) < 2 ^ 64 - 1 ->
  let (counted, w') := on_proxy_create uid w in
  counts_inv (set_live ((uid, counted) :: live w') w') g.
Proof.
  intros [Hc Hb Hu Ha Hl Hg Hd Hp He] Hroom. unfold on_proxy_create. cbn [count_by_uid].
  assert (Hn : wrap_u 64 (proxy_count w + 1) = zlen (live w) + 1).
  { rewrite Hc. apply wrap_u_small. pose proof (zlen_nonneg (live w)). unfold in_u. lia. }
  destruct (count_by_uid w) eqn:En.
  2: { split; cbn; try done; rewrite ?zlen_cons; try lia.
       intros u. specialize (Hu u). cbn. by rewrite tracked_cons, decide_False. }
  cbn [state]. pose proof (bump_uid_spec (state w) uid (default uid_default (per_uid (state w) !! uid))) as Hs.
  destruct (bump_uid _ uid _) as [e ev]. destruct Hs as (Hcount & Hmono & Hev).
  set (w1 := set_state _ _). destruct (publish_fields ev w1) as (F1 & F2 & F3 & F4 & F5 & F6 & F7).
  split; cbn [proxy_count live state deferring pending fired log set_live].
  - rewrite F1, F4, zlen_cons. change (wrap_u 64 (proxy_count w + 1) = 1 + zlen (live w)). lia.
  - rewrite F4, zlen_cons. change (1 + zlen (live w) < 2 ^ 64). lia.
  - intros u. cbn [state live set_live]. rewrite F2, ?F4.
    exact (uids_ok_create uid w _ e Hu Hroom eq_refl Hcount u).
  - intros k u. change (alarms_ok k u (publish ev w1)). destruct ev as [x |].
    + destruct Hev as (<- & Hdown & Hup). by eapply (publish_alarm k u x w1 w).
    + by eapply (quiet_alarm k u w1 w e uid).
  - by rewrite F2.
  - done.
  - by rewrite F3.
  - rewrite F3. intros Hdf. rewrite F7 by done. by apply Hp.
  - rewrite F5, F6. change (log w1) with (log w). change (deferring w1) with (deferring w).
    change (fired w1) with (fired w). change (pending w1) with (pending w). rewrite He.
    destruct ev as [x |]; [| by rewrite app_nil_r]. destruct (deferring w) eqn:Edf; [by rewrite app_assoc |].
    by rewrite (Hp eq_refl), !app_nil_r.
Qed.

Lemma tracked_mid u uid c pre post :
  tracked u (pre ++ (uid, c) :: post) =
  (if decide ((uid, c) = (u, true)) then 1 else 0) + tracked u (pre ++ post).
Proof. rewrite !tracked_app, tracked_cons. lia. Qed.

Lemma lower_uid_spec s e :
  uid_count (lower_uid s e) = Z.max 0 (uid_count e - 1) /\
  (low s < uid_count (lower_uid s e) -> forall k, flag k (lower_uid s e) = flag k e).
Proof.
  unfold lower_uid. destruct (Z.leb_spec (Z.max 0 (uid_count e - 1)) (low s)); cbn;
    (split; [done |]); [lia | by intros _ []].
Qed.

(** The table after a counted proxy of [uid] went away. *)
Lemma uids_ok_drop uid w m e pre post :
  uids_ok w -> live w = pre ++ (uid, true) :: post -> per_uid (state w) !! uid = Some e ->
  m = (if uid_count (lower_uid (state w) e) =? 0 then delete uid (per_uid (state w))
       else <[uid := lower_uid (state w) e]> (per_uid (state w))) ->
  forall u, match m !! u with
            | Some e => uid_count e = tracked u (pre ++ post) /\ 0 < tracked u (pre ++ post)
            | None => tracked u (pre ++ post) = 0
            end.
Proof.
  intros Hu El Ee -> u. destruct (lower_uid_spec (state w) e) as [Hc _].
  pose proof (Hu uid) as Hm. rewrite Ee in Hm. specialize (Hu u).
  rewrite El, tracked_mid, decide_True in Hm by done.
  rewrite El, tracked_mid in Hu. pose proof (tracked_bound uid (pre ++ post)).
  destruct (decide (u = uid)) as [-> | Hne].
  - destruct (Z.eqb_spec (uid_count (lower_uid (state w) e)) 0).
    + rewrite lookup_delete_eq. lia.
    + rewrite lookup_insert_eq. lia.
  - rewrite decide_False in Hu by congruence.
    assert (E : (if uid_count (lower_uid (state w) e) =? 0 then delete uid (per_uid (state w))
                 else <[uid := lower_uid (state w) e]> (per_uid (state w))) !! u
                = per_uid (state w) !! u).
    { destruct (_ =? 0); [by rewrite lookup_delete_ne | by rewrite lookup_insert_ne]. }
    rewrite E. exact Hu.
Qed.

(** A reset disarms; without one the flags stay. *)
Lemma alarm_drop k u uid w e :
  alarms_ok k u w -> per_uid (state w) !! uid = Some e -> 0 <= low (state w) ->
  alarms_ok k u (on_proxy_drop uid true w).
Proof.
  intros (armed & Ea & Hf) Ee Hl. unfold on_proxy_drop. cbn [negb state set_state]. rewrite Ee.
  destruct (lower_uid_spec (state w) e) as [Hc Hk].
  destruct (Z.leb_spec (uid_count (lower_uid (state w) e)) (low (state w))) as [Hle | Hgt].
  - unfold alarms_ok. cbn [log state set_state]. rewrite alarm_state_snoc, Ea. cbn [alarm_next].
    destruct (Z.eqb_spec uid u) as [<- | Hne]; [by exists false |].
    exists armed. split; [done |]. intros Ha. destruct (Hf Ha) as (e0 & E0 & F0). exists e0.
    split; [| done]. cbn. destruct (_ =? 0); [by rewrite lookup_delete_ne | by rewrite lookup_insert_ne].
  - exists armed. split; [exact Ea |]. intros Ha. destruct (Hf Ha) as (e0 & E0 & F0).
    cbn [state set_state set_uids per_uid]. rewrite (proj2 (Z.eqb_neq _ _)) by lia.
    destruct (decide (u = uid)) as [-> | Hne].
    + exists (lower_uid (state w) e). rewrite lookup_insert_eq. split; [done |].
      rewrite Hk by done. congruence.
    + exists e0. by rewrite lookup_insert_ne.
Qed.

(** What a drop leaves alone. *)
Lemma drop_fields uid c w :
  let w' := on_proxy_drop uid c w in
  proxy_count w' = wrap_u 64 (proxy_count w - 1) /\ deferring w' = deferring w /\
  pending w' = pending w /\ fired w' = fired w /\ events_of (log w') = events_of (log w) /\
  low (state w') = low (state w).
Proof.
  unfold on_proxy_drop. destruct c; cbn; [| done]. destruct (per_uid (state w) !! uid); [| done].
  case_match; cbn; [| done]. by rewrite events_of_snoc, app_nil_r.
Qed.

Lemma proxy_drop_inv uid c pre post w g :
  counts_inv w g -> live w = pre ++ (uid, c) :: post ->
  counts_inv (set_live (pre ++ post) (on_proxy_drop uid c w)) g.
Proof.
  intros [Hc Hb Hu Ha Hl Hg Hd Hp He] El.
  destruct (drop_fields uid c w) as (F1 & F2 & F3 & F4 & F5 & F6).
  assert (Hlen : zlen (live w) = 1 + zlen (pre ++ post)) by (rewrite El, !zlen_app, zlen_cons; lia).
  pose proof (zlen_nonneg (pre ++ post)).
  split; cbn [proxy_count live state deferring pending fired log set_live];
    rewrite ?F2, ?F3, ?F4, ?F5, ?F6; try done; try lia.
  - rewrite F1, Hc, wrap_u_small by (unfold in_u; lia). lia.
  - destruct c.
    + pose proof (Hu uid) as Hm. destruct (per_uid (state w) !! uid) as [e |] eqn:Ee.
      2: { rewrite El, tracked_mid, decide_True in Hm by done.
           pose proof (tracked_bound uid (pre ++ post)). lia. }
      intros u. cbn [state live set_live].
      replace (per_uid (state (on_proxy_drop uid true w))) with
        (if uid_count (lower_uid (state w) e) =? 0 then delete uid (per_uid (state w))
         else <[uid := lower_uid (state w) e]> (per_uid (state w))).
      { by apply (uids_ok_drop uid w _ e pre post). }
      unfold on_proxy_drop. cbn. rewrite Ee. by destruct (_ <=? low (state w)).
    + intros u. specialize (Hu u). rewrite El, tracked_mid, decide_False in Hu by congruence. exact Hu.
  - intros k u. change (alarms_ok k u (on_proxy_drop uid c w)). destruct c; [| exact (Ha k u)].
    pose proof (Hu uid) as Hm. destruct (per_uid (state w) !! uid) as [e |] eqn:Ee; [by eapply alarm_drop |].
    unfold on_proxy_drop. cbn. rewrite Ee. exact (Ha k u).
Qed.

Lemma counts_step_inv x y : counts_step x y -> counts_inv x.1 x.2 -> counts_inv y.1 y.2.
Proof.
  intros Hs Hi. destruct Hs as [uid w g Hb | pre uid c post w g El | w g | was w g | h l wn w g Hl
                               | cb w g | b w g]; cbn [fst snd] in *.
  - pose proof (proxy_create_inv uid w g Hi Hb) as H. by destruct (on_proxy_create uid w).
  - by apply proxy_drop_inv.
  - destruct Hi as [Hc Hb Hu Ha Hl Hg Hd Hp He]. by split.
  - destruct Hi as [Hc Hb Hu Ha Hl [Hw Hg] Hd Hp He]. unfold guard_drop. subst was.
    destruct (decide (g = [])) as [-> | Hne].
    + rewrite bool_decide_eq_true_2 by done. by split; cbn; rewrite ?app_nil_r.
    + rewrite bool_decide_eq_false_2 by done. split; cbn; try done. by rewrite bool_decide_eq_false_2.
  - destruct Hi. by split.
  - destruct Hi. by split.
  - destruct Hi. by split.
Qed.

Lemma counts_reachable_inv x : counts_reachable x -> counts_inv x.1 x.2.
Proof.
  induction 1 as [| x y _ IH Hs]; [| by eapply counts_step_inv].
  split; cbn; try done. intros k u. by exists false.
Qed.

(** * Properties *)

(** The proxy counters mean what they say. Through any creations and drops of
    proxies, toggles of the per-uid tracking and changes of the watermarks, the global
    count is the number of live proxies and the count of a uid the number of its
    live proxies created while tracking was on. *)
Theorem proxy_counts_exact w g :
  counts_reachable (w, g) ->
  get_binder_proxy_count w = zlen (live w) /\
  forall uid, get_binder_proxy_count_for_uid uid w = tracked uid (live w).
Proof.
  intros Hi%counts_reachable_inv. split; [apply Hi |]. intros uid.
  unfold get_binder_proxy_count_for_uid. pose proof (ci_uids _ _ Hi uid) as Hu. cbn in Hu.
  destruct (per_uid (state w) !! uid); [by destruct Hu | done].
Qed.

(** Alarms are debounced and deferred. A uid's Limit, and likewise its Warning,
    fires at most once until its count has fallen to the low watermark; while a
    guard is alive no callback runs, and the end of the outermost guard runs, in
    order, every one that was held back. *)
Theorem proxy_alarms_debounced w g :
  counts_reachable (w, g) ->
  (forall k uid, alarm_state k uid (log w) <> None) /\
  events_of (log w) = fired w ++ pending w /\ (g = [] -> pending w = []) /\
  forall w' g', counts_step (w, g) (w', g') -> g <> [] -> g' <> [] -> fired w' = fired w.
Proof.
  intros Hi%counts_reachable_inv. cbn in Hi. split_and!.
  - intros k uid E. destruct (ci_alarms _ _ Hi k uid) as (armed & Ea & _). congruence.
  - apply Hi.
  - intros ->. apply (ci_pending _ _ Hi). by rewrite (ci_defer _ _ Hi).
  - intros w' g' Hs Hg Hg'. pose proof (ci_defer _ _ Hi) as Hd.
    rewrite bool_decide_eq_false_2 in Hd by done. cbn in Hd.
    inversion Hs as [uid ? ? Hb | | | was ? ? | | |]; subst; try done.
    + unfold on_proxy_create in *. cbn in *. destruct (count_by_uid w); [| by simplify_eq].
      destruct (bump_uid _ _ _) as [e [ev |]]; cbn in *; simplify_eq; [| done]. cbn. by rewrite Hd.
    + apply drop_fields.
    + unfold guard_drop. destruct was; [done |]. destruct (ci_guards _ _ Hi) as [Hw _].
      case_bool_decide; done.
Qed.

(** Creations of one uid, one after the other. *)
Fixpoint create_n (n : nat) (uid : Z) (w : Counts) : Counts :=
  match n with
  | O => w
  | S n => let (counted, w) := on_proxy_create uid w in
           create_n n uid (set_live ((uid, counted) :: live w) w)
  end.

Definition watched : Counts :=
  enable_count_by_uid true
    (set_binder_proxy_count_event_callback true (set_binder_proxy_count_watermarks 5 1 3 counts_new)).

(** A Warning is not raised again when the count falls below the warning
    watermark and returns to it; it takes a fall to the low one. *)
Theorem warning_needs_low_watermark :
  let w := create_n 3 7 watched in
  let w2 := create_n 1 7 (set_live (tail (live w)) (on_proxy_drop 7 true w)) in
  let w3 := create_n 2 7 (set_live (tail (tail (live w2)))
              (on_proxy_drop 7 true (on_proxy_drop 7 true w2))) in
  fired w = [Warning 7 3] /\ fired w2 = [Warning 7 3] /\ fired w3 = [Warning 7 3; Warning 7 3].
Proof. vm_compute. done. Qed.

(** A proxy that was counted before [clear_count_by_uid] takes its drop from the proxies counted after it: one
    proxy of the user is alive and counted, and the count is none. *)
Lemma cleared_counts_drift :
  let w := create_n 1 7 (clear_count_by_uid (create_n 1 7 watched)) in
  let w2 := set_live (tail (live w)) (on_proxy_drop 7 true w) in
  get_binder_proxy_counts_by_uid w = [(7, 1)] /\ tracked 7 (live w2) = 1 /\ get_binder_proxy_count w2 = 1 /\
  get_binder_proxy_count_for_uid 7 w2 = 0.
Proof. by vm_compute. Qed.

Lemma watched_reachable : counts_reachable (create_n 1 7 watched, []).
Proof.
  apply (pcr_step (watched, [])); [| apply (pc_create 7 watched []); vm_compute; reflexivity].
  eapply pcr_step; [| apply (pc_enable true)]. eapply pcr_step; [| apply (pc_callback true)].
  eapply pcr_step; [apply pcr_new | apply (pc_watermarks 5 1 3)]. lia.
Qed.

Lemma proxy_counts_exact_witness : get_binder_proxy_count_for_uid 7 (create_n 1 7 watched) = 1.
Proof.
  change 1 with (tracked 7 (live (create_n 1 7 watched))).
  apply (proj2 (proxy_counts_exact (create_n 1 7 watched) [] watched_reachable)).
Defined.

Lemma proxy_alarms_debounced_witness :
  alarm_state true 7 (log (create_n 1 7 watched)) <> None.
Proof. exact (proj1 (proxy_alarms_debounced (create_n 1 7 watched) [] watched_reachable) true 7). Defined.
