(* ===== verification/LazyService.v ===== *)
(** Lazily registered services (src/rsbinder/src/lazy_service.rs): the state
    machine of [LazyServiceRegistrar]. Operations run under its mutex; the names
    are strings and the map is a finite map. *)

From Stdlib Require Import ZArith Lia.
From stdpp Require Import base gmap list strings fin_maps.
From S2P Require Import Prelude RpcState.

Record RegisteredService : Type := mkService {
  service_name : string;
  service_binder : SIBinder;
  has_clients : bool;
  registered : bool
}.

Record LazyServiceRegistrar : Type := mkRegistrar {
  services : gmap string RegisteredService;
  force_persisted : bool
}.

Definition registrar_new : LazyServiceRegistrar := mkRegistrar ∅ false.

Definition register_service (name : string) (binder : SIBinder) (r : LazyServiceRegistrar)
  : LazyServiceRegistrar :=
  mkRegistrar (<[name := mkService name binder true true]> (services r)) (force_persisted r).

Definition force_persist (persist : bool) (r : LazyServiceRegistrar) : LazyServiceRegistrar :=
  mkRegistrar (services r) persist.

Definition on_clients (name : string) (clients : bool) (r : LazyServiceRegistrar)
  : bool * LazyServiceRegistrar :=
  match services r !! name with
  | Some e =>
      (true, mkRegistrar (<[name := mkService (service_name e) (service_binder e) clients (registered e)]>
                            (services r)) (force_persisted r))
  | None => (false, r)
  end.

Definition unregister (e : RegisteredService) : RegisteredService :=
  mkService (service_name e) (service_binder e) (has_clients e) false.

Definition try_unregister (r : LazyServiceRegistrar) : bool * LazyServiceRegistrar :=
  if force_persisted r then (false, r)
  else if bool_decide (services r = ∅) then (false, r)
  else if existsb (fun kv => has_clients kv.2) (map_to_list (services r)) then (false, r)
  else (true, mkRegistrar (unregister <$> services r) (force_persisted r)).

Definition revive (e : RegisteredService) : RegisteredService :=
  if registered e then e else mkService (service_name e) (service_binder e) true true.

Definition re_register (r : LazyServiceRegistrar) : LazyServiceRegistrar :=
  mkRegistrar (revive <$> services r) (force_persisted r).

Definition registered_count (r : LazyServiceRegistrar) : Z :=
  zlen (filter (fun kv => registered kv.2 = true) (map_to_list (services r))).

Definition binder_for (name : string) (r : LazyServiceRegistrar) : option SIBinder :=
  service_binder <$> services r !! name.

(** * Lemmas *)

Lemma any_clients (m : gmap string RegisteredService) :
  existsb (fun kv => has_clients kv.2) (map_to_list m) = true <->
  exists name e, m !! name = Some e /\ has_clients e = true.
Proof.
  rewrite existsb_exists. split.
  - intros ([name e] & Hin & Hc). exists name, e. split; [| done].
    by apply elem_of_map_to_list, list_elem_of_In.
  - intros (name & e & Hl & Hc). exists (name, e). split; [| done].
    by apply list_elem_of_In, elem_of_map_to_list.
Qed.

Lemma none_registered r :
  (forall name e, services r !! name = Some e -> registered e = false) -> registered_count r = 0.
Proof.
  intros Hn. unfold registered_count.
  destruct (filter _ _) as [| [name e] l] eqn:E; [done |]. exfalso.
  assert (Hin : (name, e) ∈ filter (fun kv => registered kv.2 = true) (map_to_list (services r)))
    by (rewrite E; by left).
  apply list_elem_of_filter in Hin as [Hr Hl%elem_of_map_to_list]. cbn in Hr.
  rewrite (Hn name e Hl) in Hr. done.
Qed.

(** * Properties *)

(** Unregistering is all or nothing. [try_unregister] succeeds exactly when
    there are services, none has a client and persistence is not forced; then none is
    registered any more, so the process may exit. Otherwise nothing changes. After
    [re_register] every service is registered again with its own binder, and no
    second attempt succeeds before a service that was brought back is reported idle. *)
Theorem unregister_all_or_nothing r :
  let (ok, r') := try_unregister r in
  (ok = true <-> force_persisted r = false /\ services r <> ∅ /\
     forall name e, services r !! name = Some e -> has_clients e = false) /\
  (ok = false -> r' = r) /\
  (ok = true -> registered_count r' = 0 /\
     (forall name, binder_for name (re_register r') = binder_for name r) /\
     (forall name e, services (re_register r') !! name = Some e -> registered e = true) /\
     (try_unregister (re_register r')).1 = false).
Proof.
  unfold try_unregister at 1. destruct (force_persisted r) eqn:Ef; [by split_and!; [split; [done | by intros [? _]] | |] |].
  case_bool_decide as Ee; [split_and!; [split; [done | by intros (_ & ? & _)] | done | done] |].
  destruct (existsb _ _) eqn:Ec.
  { apply any_clients in Ec as (name & e & Hl & Hc). split_and!; [split; [done |] | done | done].
    intros (_ & _ & Hn). rewrite (Hn name e Hl) in Hc. done. }
  assert (Hn : forall name e, services r !! name = Some e -> has_clients e = false).
  { intros name e Hl. destruct (has_clients e) eqn:Hc; [| done]. rewrite <- Ec.
    symmetry. apply any_clients. eauto. }
  split_and!; [done | done |]. intros _.
  assert (Hre : forall name, services (re_register (mkRegistrar (unregister <$> services r) false)) !! name
                = (fun e => mkService (service_name e) (service_binder e) true true) <$> services r !! name).
  { intros name. cbn. rewrite !lookup_fmap. by destruct (services r !! name). }
  split_and!.
  - apply none_registered. intros name e Hl. cbn in Hl. rewrite lookup_fmap in Hl.
    destruct (services r !! name); simplify_eq/=. done.
  - intros name. unfold binder_for. rewrite Hre. by destruct (services r !! name).
  - intros name e Hl. rewrite Hre in Hl. destruct (services r !! name); by simplify_eq/=.
  - unfold try_unregister. cbn [force_persisted re_register].
    case_bool_decide; [done |].
    destruct (map_choose (services r)) as (name & e & Hl); [done |].
    rewrite (proj2 (any_clients _)); [done |]. exists name. rewrite Hre, Hl. eauto.
Qed.
