(* ===== verification/Float.v ===== *)
(** * Float: [f64] and [f32] as the AIDL compiler uses them

    IEEE 754 arithmetic on the Standard Library's [spec_float], Rust's numeric
    casts, the remainder operator, decimal literals and the shortest decimal
    rendering of [Display].  Everything is computed on integers, so constant
    expressions with floating-point operands evaluate. *)

From stdpp Require Import base list strings pretty.
From Stdlib Require Import ZArith Lia.
From Stdlib Require Import Floats.SpecFloat.
From S2P Require Import Prelude.

Definition f64 : Type := spec_float.

Definition f64_add : f64 -> f64 -> f64 := SFadd 53 1024.
Definition f64_sub : f64 -> f64 -> f64 := SFsub 53 1024.
Definition f64_mul : f64 -> f64 -> f64 := SFmul 53 1024.
Definition f64_div : f64 -> f64 -> f64 := SFdiv 53 1024.
Definition f64_neg : f64 -> f64 := SFopp.

(** [a % b] of two floats: exact, with the sign of the dividend. *)
Definition f64_rem (a b : f64) : f64 :=
  match a, b with
  | S754_nan, _ | _, S754_nan | S754_infinity _, _ | _, S754_zero _ => S754_nan
  | _, S754_infinity _ | S754_zero _, _ => a
  | S754_finite s m e, S754_finite _ m' e' =>
      let x := Z.min e e' in
      let r := Z.rem (Z.shiftl (Zpos m) (e - x)) (Z.shiftl (Zpos m') (e' - x)) in
      binary_normalize 53 1024 (cond_Zopp s r) x s
  end.

(** [z as f64]. *)
Definition f64_of_Z (z : Z) : f64 := binary_normalize 53 1024 z 0 false.

(** [x as f32], in the 24-bit format. *)
Definition f32_of_f64 (x : f64) : spec_float :=
  match x with S754_finite s m e => binary_round 24 128 s m e | _ => x end.

(** [x as f32 as f64]. *)
Definition f64_as_f32 (x : f64) : f64 :=
  match f32_of_f64 x with S754_finite s m e => binary_round 53 1024 s m e | y => y end.

(** [x as i64]: truncation towards zero, saturating; a NaN is 0. *)
Definition f64_as_i64 (x : f64) : Z :=
  let saturate z := Z.max (- 2 ^ 63) (Z.min (2 ^ 63 - 1) z) in
  match x with
  | S754_zero _ | S754_nan => 0
  | S754_infinity s => saturate (cond_Zopp s (2 ^ 63))
  | S754_finite s m e => saturate (cond_Zopp s (Z.shiftl (Zpos m) e))
  end.

Definition f64_is_zero (x : f64) : bool := match x with S754_zero _ => true | _ => false end.
Definition f64_is_nan (x : f64) : bool := match x with S754_nan => true | _ => false end.
Definition f64_is_finite (x : f64) : bool :=
  match x with S754_zero _ | S754_finite _ _ _ => true | _ => false end.
Definition f64_positive (x : f64) : bool :=
  match x with S754_infinity false | S754_finite false _ _ => true | _ => false end.

(** [a.partial_cmp(&b)]. *)
Definition f64_cmp (a b : f64) : option comparison := SFcompare a b.

(** ** Decimal literals and [Display] *)

(** The float nearest to [d * 10 ^ x] in a format. *)
Definition of_decimal (prec emax : Z) (d : positive) (x : Z) : spec_float :=
  if 0 <=? x then binary_normalize prec emax (Zpos d * 10 ^ x) 0 false
  else SFdiv prec emax (S754_finite false d 0) (S754_finite false (Z.to_pos (10 ^ (- x))) 0).

(** The number of decimal digits of [n / d] before the point, or minus the
    number of zeros after it. *)
Fixpoint decimal_point (fuel : nat) (n d : Z) : Z :=
  match fuel with
  | O => 0
  | S k => if d <=? n then 1 + decimal_point k n (d * 10)
           else if d <=? n * 10 then 0 else decimal_point k (n * 10) d - 1
  end.

(** Drops trailing zeros of a decimal significand. *)
Fixpoint strip_zeros (fuel : nat) (d x : Z) : Z * Z :=
  match fuel with
  | O => (d, x)
  | S k => if Z.rem d 10 =? 0 then strip_zeros k (d / 10) (x + 1) else (d, x)
  end.

Definition same_float (a b : spec_float) : bool :=
  match SFcompare a b with Some Eq => true | _ => false end.

(** The shortest significand, tried from one digit upwards, that reads back as
    the float; of two such, the one nearer to it. *)
Fixpoint shortest (prec emax : Z) (v : spec_float) (n d point : Z) (digits : Z) (fuel : nat)
    : Z * Z :=
  let x := point - digits in
  let '(sn, sd) := if 0 <=? x then (n, d * 10 ^ x) else (n * 10 ^ (- x), d) in
  let lo := sn / sd in
  let reads z := (0 <? z) && same_float (of_decimal prec emax (Z.to_pos z) x) v in
  match fuel with
  | O => strip_zeros 400 lo x
  | S k =>
      match reads lo, reads (lo + 1) with
      | true, true => strip_zeros 400 (if 2 * (sn - lo * sd) <=? sd then lo else lo + 1) x
      | true, false => strip_zeros 400 lo x
      | false, true => strip_zeros 400 (lo + 1) x
      | false, false => shortest prec emax v n d point (digits + 1) k
      end
  end.

Fixpoint zeros_text (n : nat) : string :=
  match n with O => "" | S k => ("0" +:+ zeros_text k)%string end.

(** Positional notation of [d * 10 ^ x], [0 < d]. *)
Definition positional (d x : Z) : string :=
  let s := pretty d in
  let len := Z.of_nat (String.length s) in
  if 0 <=? x then (s +:+ zeros_text (Z.to_nat x))%string
  else if - x <? len then
    (String.substring 0 (Z.to_nat (len + x)) s +:+ "." +:+ String.substring (Z.to_nat (len + x)) (Z.to_nat (- x)) s)%string
  else ("0." +:+ zeros_text (Z.to_nat (- x - len)) +:+ s)%string.

Definition display (prec emax : Z) (v : spec_float) : string :=
  match v with
  | S754_nan => "NaN"
  | S754_infinity s => if s then "-inf" else "inf"
  | S754_zero s => if s then "-0" else "0"
  | S754_finite s m e =>
      let '(n, d) := if 0 <=? e then (Zpos m * 2 ^ e, 1) else (Zpos m, 2 ^ (- e)) in
      let '(sig, x) := shortest prec emax (S754_finite false m e) n d (decimal_point 800 n d) 1 17 in
      ((if s then "-" else "") +:+ positional sig x)%string
  end.

(** [f64::to_string] and [f32::to_string]. *)
Definition f64_to_string : f64 -> string := display 53 1024.
Definition f32_to_string : spec_float -> string := display 24 128.

Lemma display_samples :
  f64_to_string (of_decimal 53 1024 1 (-1)) = "0.1" /\
  f64_to_string (of_decimal 53 1024 5 0) = "5" /\
  f64_to_string (f64_neg (of_decimal 53 1024 314159 (-5))) = "-3.14159" /\
  f64_to_string (of_decimal 53 1024 1 21) = "1000000000000000000000" /\
  f64_to_string (f64_add (of_decimal 53 1024 1 (-1)) (of_decimal 53 1024 2 (-1))) = "0.30000000000000004" /\
  f32_to_string (f32_of_f64 (of_decimal 53 1024 1 (-1))) = "0.1" /\
  f64_to_string (f64_as_f32 (of_decimal 53 1024 1 (-1))) = "0.10000000149011612" /\
  f64_to_string (f64_rem (f64_of_Z 10) (of_decimal 53 1024 3 0)) = "1".
Proof. repeat split; vm_compute; reflexivity. Qed.
