(* ===== verification/ConstExpr.v ===== *)
(** * ConstExpr: constant expressions of the AIDL compiler

    [rsbinder-aidl/src/const_expr.rs]: the values and expressions a constant of
    an [.aidl] file is made of, their evaluation with name resolution, cycle
    detection and a depth limit, the conversions to a declared type and the
    Rust text that is generated.

    The functions of the source call one another without a structural
    argument (converting a name evaluates the expression it stands for).  Each
    is therefore a body over a record [Frames] of the functions it may call,
    and [frames n] ties the knot for a call stack with room for [n] nested
    calls; with no room left a call is a [Panic], as a stack overflow aborts
    the compiler.  ConstExprSpec.v proves that the stack of [STACK] calls never
    overflows. *)

From stdpp Require Import base gmap strings pretty list.
From Stdlib Require Import ZArith Lia String Ascii.
From S2P Require Import Prelude Float.
Local Open Scope string_scope.
Local Open Scope Z_scope.

Definition MAX_EXPR_DEPTH : Z := 256.

(** ** Data *)

Inductive ValueType : Type :=
| VVoid
| VName (name : string)
| VBool (b : bool)
| VByte (v : Z)
| VInt32 (v : Z)
| VInt64 (v : Z)
| VChar (c : Z)
| VString (s : string)
| VFloat (f : f64)
| VDouble (f : f64)
| VArray (l : list ConstExpr)
| VMap (k v : ConstExpr)
| VExpr (lhs : ConstExpr) (operator : string) (rhs : ConstExpr)
| VUnary (operator : string) (expr : ConstExpr)
| VIBinder
| VFileDescriptor
| VHolder
| VUserDefined (name : string)
| VReference (enum_type enum_name member_name : string) (value : Z)
with ConstExpr : Type :=
| mkConstExpr (raw_expr : string) (is_calculated : bool) (value : ValueType).

Definition raw_expr (e : ConstExpr) : string := let '(mkConstExpr r _ _) := e in r.
Definition is_calculated (e : ConstExpr) : bool := let '(mkConstExpr _ c _) := e in c.
Definition value (e : ConstExpr) : ValueType := let '(mkConstExpr _ _ v) := e in v.

(** [ConstExpr::new], [ConstExpr::default], [new_expr], [new_unary]. *)
Definition const_new (v : ValueType) : ConstExpr := mkConstExpr "" false v.
Definition const_default : ConstExpr := const_new VVoid.
Definition new_expr (lhs : ConstExpr) (operator : string) (rhs : ConstExpr) : ConstExpr :=
  const_new (VExpr lhs operator rhs).
Definition new_unary (operator : string) (expr : ConstExpr) : ConstExpr :=
  const_new (VUnary operator expr).

(** What an error message reports. *)
Inductive ConstExprError : Type :=
| CannotResolve (name : string)
| CircularReference (name : string)
| TooDeep
| Overflows (operator : string)
| DivisionByZero
| ModuloByZero
| CannotNegate (v : Z)
| ShiftAmount (amount : Z)
| ShiftNegative (v : Z)
| ShiftOverflow (v amount : Z)
| NotAnInteger (operator : string)
| StringOperator (operator : string)
| NonStringOperand
| CharOperator (operator : string)
| UnaryOnString (operator : string)
| UnaryUnsupported (operator : string)
| NoBool
| NoF64
| NoI64
| ByteRange (v : Z)
| IntRange (v : Z)
| NotAChar (v : Z)
| NoConversion.

Definition R (A : Type) : Type := outcome ConstExprError A.
Definition Visited : Type := gset string.

Definition is_primitive (v : ValueType) : bool :=
  match v with
  | VVoid | VBool _ | VByte _ | VInt32 _ | VInt64 _ | VChar _ | VFloat _ | VDouble _
  | VReference _ _ _ _ => true
  | _ => false
  end.

Definition order (v : ValueType) : Z :=
  match v with
  | VVoid => 0 | VName _ => 1 | VBool _ => 2 | VByte _ => 3 | VInt32 _ => 4 | VInt64 _ => 5
  | VChar _ => 6 | VString _ => 7 | VFloat _ => 8 | VDouble _ => 9 | VArray _ => 10
  | VMap _ _ => 11 | VExpr _ _ _ => 12 | VUnary _ _ => 13 | VIBinder => 14
  | VFileDescriptor => 15 | VHolder => 16 | VUserDefined _ => 17 | VReference _ _ _ _ => 18
  end.

Definition is_bool (v : ValueType) : bool := match v with VBool _ => true | _ => false end.
Definition is_string (v : ValueType) : bool := match v with VString _ => true | _ => false end.

Definition type_conversion (lhs rhs : ValueType) : ValueType :=
  if order lhs =? order rhs then lhs
  else if is_bool lhs then rhs
  else if is_bool rhs then lhs
  else if order rhs <? order lhs then lhs
  else rhs.

Definition integral_promotion (v : ValueType) : ValueType :=
  if order (VInt32 0) <? order v then v else VInt32 0.

(** ** Text *)

Fixpoint hex_digits (fuel : nat) (n : Z) : string :=
  match fuel with
  | O => ""
  | S k =>
      let d := n mod 16 in
      let c := String (ascii_of_N (Z.to_N (if d <? 10 then 48 + d else 87 + d))) "" in
      if n <? 16 then c else hex_digits k (n / 16) ++ c
  end.

(** The UTF-8 bytes of a code point. *)
Definition utf8 (c : Z) : string :=
  let b z := String (ascii_of_N (Z.to_N z)) "" in
  if c <? 128 then b c
  else if c <? 2048 then b (192 + c / 64) ++ b (128 + c mod 64)
  else if c <? 65536 then b (224 + c / 4096) ++ b (128 + c / 64 mod 64) ++ b (128 + c mod 64)
  else b (240 + c / 262144) ++ b (128 + c / 4096 mod 64) ++ b (128 + c / 64 mod 64)
       ++ b (128 + c mod 64).

(** [char::is_control]. *)
Definition is_control (c : Z) : bool := (c <? 32) || ((127 <=? c) && (c <? 160)).

Definition backslash : string := String (ascii_of_N 92) "".

Definition char_to_string (ch : Z) : string :=
  if ch =? 92 then backslash ++ backslash
  else if ch =? 39 then backslash ++ "'"
  else if ch =? 34 then backslash ++ utf8 34
  else if ch =? 10 then backslash ++ "n"
  else if ch =? 9 then backslash ++ "t"
  else if ch =? 13 then backslash ++ "r"
  else if ch =? 0 then backslash ++ "0"
  else if is_control ch then backslash ++ "u{" ++ hex_digits 8 ch ++ "}"
  else utf8 ch.

Definition bool_to_string (b : bool) : string := if b then "true" else "false".

Fixpoint to_value_string (v : ValueType) : string :=
  let text e := to_value_string (let '(mkConstExpr _ _ v) := e in v) in
  match v with
  | VString s => s
  | VByte z | VInt32 z | VInt64 z => pretty z
  | VFloat f => f32_to_string (f32_of_f64 f)
  | VDouble f => f64_to_string f
  | VBool b => bool_to_string b
  | VChar c => char_to_string c
  | VArray l =>
      "vec![" ++ (fix go l := match l with [] => "" | e :: r => text e ++ "," ++ go r end) l ++ "]"
  | VName s => s
  | VReference _ enum_name member_name _ => enum_name ++ "." ++ member_name
  | VExpr lhs operator rhs => text lhs ++ " " ++ operator ++ " " ++ text rhs
  | VUnary operator expr => operator ++ " " ++ text expr
  | VVoid | VMap _ _ | VIBinder | VFileDescriptor | VHolder | VUserDefined _ => ""
  end.

Record InitParam : Type := mkInitParam {
  is_const : bool;
  is_fixed_array : bool;
  is_nullable : bool;
  is_vintf : bool;
  crate_name : string
}.

Definition init_builder : InitParam := mkInitParam false false false false "rsbinder".

Definition quote : string := utf8 34.

(** The initializer text of a value.  [relative_mod] is the module path of a
    declared enum seen from the current one ([lookup_decl_from_name] and
    [relative_mod] of the parser). *)
Fixpoint to_init (relative_mod : string -> option string) (param : InitParam) (v : ValueType)
    : string :=
  match v with
  | VString s =>
      if is_const param then quote ++ s ++ quote else quote ++ s ++ quote ++ ".into()"
  | VFloat f =>
      let f' := f32_of_f64 f in
      if f64_is_finite f' then f32_to_string f' ++ "f32"
      else if f64_is_nan f' then "f32::NAN"
      else if f64_positive f' then "f32::INFINITY" else "f32::NEG_INFINITY"
  | VDouble f =>
      if f64_is_finite f then f64_to_string f ++ "f64"
      else if f64_is_nan f then "f64::NAN"
      else if f64_positive f then "f64::INFINITY" else "f64::NEG_INFINITY"
  | VChar _ => "'" ++ to_value_string v ++ "' as u16"
  | VName s => s
  | VReference enum_type enum_name member_name z =>
      if is_const param then pretty z
      else
        match relative_mod enum_type with
        | Some "" | None => enum_name ++ "::" ++ member_name
        | Some ns => ns ++ "::" ++ enum_name ++ "::" ++ member_name
        end
  | VArray l =>
      let item v :=
        let init_str :=
          match v with
          | VByte b => pretty (wrap_u 8 b)
          | _ => to_init relative_mod param v
          end in
        match v with
        | VArray _ => init_str
        | _ => if is_nullable param then "Some(" ++ init_str ++ ")" else init_str
        end in
      (if is_fixed_array param then "[" else if is_const param then "&[" else "vec![")
      ++ (fix go l :=
            match l with [] => "" | mkConstExpr _ _ v :: r => item v ++ "," ++ go r end) l
      ++ "]"
  | VHolder =>
      if is_vintf param then
        crate_name param ++ "::ParcelableHolder::new(" ++ crate_name param ++ "::Stability::Vintf)"
      else "Default::default()"
  | VByte _ | VInt32 _ | VInt64 _ | VBool _ | VExpr _ _ _ | VUnary _ _ => to_value_string v
  | _ => "Default::default()"
  end.

(** ** Machine arithmetic *)

Definition i64_min : Z := - 2 ^ 63.
Definition i64_max : Z := 2 ^ 63 - 1.
Definition i8_min : Z := -128.
Definition i8_max : Z := 127.

Definition checked_i64 (e : ConstExprError) (z : Z) : R Z :=
  if (i64_min <=? z) && (z <=? i64_max) then Ok z else Err e.

(** The operators of the [+ - * / %] arms: [checked_add] and the like. *)
Inductive Arith := Add | Sub | Mul | Div | Rem.

Definition arith_text (o : Arith) : string :=
  match o with Add => "+" | Sub => "-" | Mul => "*" | Div => "/" | Rem => "%" end.

Definition int_op (o : Arith) (a b : Z) : R Z :=
  match o with
  | Add => checked_i64 (Overflows "+") (a + b)
  | Sub => checked_i64 (Overflows "-") (a - b)
  | Mul => checked_i64 (Overflows "*") (a * b)
  | Div => if b =? 0 then Err DivisionByZero else checked_i64 DivisionByZero (Z.quot a b)
  | Rem => if (b =? 0) || ((a =? i64_min) && (b =? -1)) then Err ModuloByZero
           else Ok (Z.rem a b)
  end.

Definition float_op (o : Arith) : f64 -> f64 -> f64 :=
  match o with Add => f64_add | Sub => f64_sub | Mul => f64_mul | Div => f64_div | Rem => f64_rem end.

Inductive Bitop := BitOr | BitXor | BitAnd.

Definition bit_text (o : Bitop) : string :=
  match o with BitOr => "|" | BitXor => "^" | BitAnd => "&" end.

Definition bit_op (o : Bitop) : Z -> Z -> Z :=
  match o with BitOr => Z.lor | BitXor => Z.lxor | BitAnd => Z.land end.

Inductive Compare := CEq | CNe | CLe | CGe | CLt | CGt.

(** [==], [!=], [<=], [>=], [<], [>] from [partial_cmp]. *)
Definition compare_op (o : Compare) (c : option comparison) : bool :=
  match o, c with
  | CEq, Some Eq | CLe, Some (Lt | Eq) | CGe, Some (Gt | Eq) | CLt, Some Lt | CGt, Some Gt => true
  | CNe, Some Eq => false
  | CNe, _ => true
  | _, _ => false
  end.

(** The arms of the [match operator] of [calc_expr]. *)
Inductive Binop := LogicalOr | LogicalAnd | Bits (o : Bitop) | Comparison (o : Compare)
                 | Shift (left : bool) | Arithmetic (o : Arith).

Definition binop (operator : string) : option Binop :=
  match operator with
  | "||" => Some LogicalOr
  | "&&" => Some LogicalAnd
  | "|" => Some (Bits BitOr)
  | "^" => Some (Bits BitXor)
  | "&" => Some (Bits BitAnd)
  | "==" => Some (Comparison CEq)
  | "!=" => Some (Comparison CNe)
  | "<=" => Some (Comparison CLe)
  | ">=" => Some (Comparison CGe)
  | "<" => Some (Comparison CLt)
  | ">" => Some (Comparison CGt)
  | "<<" => Some (Shift true)
  | ">>" => Some (Shift false)
  | "+" => Some (Arithmetic Add)
  | "-" => Some (Arithmetic Sub)
  | "*" => Some (Arithmetic Mul)
  | "/" => Some (Arithmetic Div)
  | "%" => Some (Arithmetic Rem)
  | _ => None
  end.

(** [leading_zeros] of an unsigned word of [bits] bits. *)
Definition leading_zeros (bits v : Z) : Z := if v =? 0 then bits else bits - 1 - Z.log2 v.

(** ** The functions of the evaluator *)

(** The mutually recursive functions of the source, as a call sees them. *)
Record Frames : Type := mkFrames {
  r_calculate : ValueType -> Z -> M Visited ConstExprError ConstExpr;
  r_to_bool : ValueType -> R bool;
  r_to_f64 : ValueType -> R f64;
  r_to_i64 : ValueType -> R Z;
  r_unary_not : ValueType -> R ConstExpr;
  r_logical_not : ValueType -> R ConstExpr;
  r_unary_minus : ValueType -> R ConstExpr;
  r_convert_to : ConstExpr -> ValueType -> R ConstExpr;
  r_partial_cmp : ValueType -> ValueType -> R (option comparison)
}.

(** A stack with no room left: every call aborts. *)
Definition overflowed : Frames := {|
  r_calculate := fun _ _ => panic;
  r_to_bool := fun _ => Panic;
  r_to_f64 := fun _ => Panic;
  r_to_i64 := fun _ => Panic;
  r_unary_not := fun _ => Panic;
  r_logical_not := fun _ => Panic;
  r_unary_minus := fun _ => Panic;
  r_convert_to := fun _ _ => Panic;
  r_partial_cmp := fun _ _ => Panic
|}.

(** A loop that pushes the results of fallible calls. *)
Fixpoint try_map {A B} (f : A -> R B) (l : list A) : R (list B) :=
  match l with
  | [] => Ok []
  | x :: r => let? y := f x in let? ys := try_map f r in Ok (y :: ys)
  end.

(** [try_map] for calls that share a state. *)
Fixpoint try_map_state {S A B} (f : A -> M S ConstExprError B) (l : list A)
    : M S ConstExprError (list B) :=
  match l with
  | [] => ret []
  | x :: r => let* y := f x in let* ys := try_map_state f r in ret (y :: ys)
  end.

Section Evaluator.
Context (lookup : string -> option ConstExpr).

Section Bodies.
Context (r : Frames).

(** [ValueType::calculate]. *)
Definition value_calculate (v : ValueType) : R ConstExpr := fst (r_calculate r v 0 ∅).

(** [ConstExpr::calculate]. *)
Definition const_calculate (e : ConstExpr) : R ConstExpr :=
  if is_calculated e then Ok e
  else let? x := value_calculate (value e) in Ok (mkConstExpr (raw_expr x) true (value x)).

(** The [Name] arm of [to_bool], [to_f64] and [to_i64]. *)
Definition resolve_name {A} (k : ValueType -> R A) (name : string) : R A :=
  match lookup name with
  | Some expr =>
      let? calculated := const_calculate expr in
      match value calculated with
      | VName n => Err (CannotResolve n)
      | v => k v
      end
  | None => Err (CannotResolve name)
  end.

Definition to_bool_body (v : ValueType) : R bool :=
  match v with
  | VVoid => Ok false
  | VString _ => Err NoBool
  | VBool b => Ok b
  | VChar _ => Ok true
  | VByte z | VInt32 z | VInt64 z => Ok (negb (z =? 0))
  | VFloat f | VDouble f => Ok (negb (f64_is_zero f))
  | VArray _ => Err NoBool
  | VName name => resolve_name (r_to_bool r) name
  | VExpr _ _ _ | VUnary _ _ => let? e := value_calculate v in r_to_bool r (value e)
  | _ => Err NoBool
  end.

Definition to_f64_body (v : ValueType) : R f64 :=
  match v with
  | VVoid => Ok (f64_of_Z 0)
  | VString _ => Err NoF64
  | VBool b => Ok (f64_of_Z (Z.b2z b))
  | VChar z | VByte z | VInt32 z | VInt64 z => Ok (f64_of_Z z)
  | VFloat f | VDouble f => Ok f
  | VArray _ => Err NoF64
  | VName name => resolve_name (r_to_f64 r) name
  | VExpr _ _ _ | VUnary _ _ => let? e := value_calculate v in r_to_f64 r (value e)
  | _ => Err NoF64
  end.

Definition to_i64_body (v : ValueType) : R Z :=
  match v with
  | VVoid => Ok 0
  | VString _ => Err NoI64
  | VBool b => Ok (Z.b2z b)
  | VChar z | VByte z | VInt32 z | VInt64 z => Ok z
  | VFloat f | VDouble f => Ok (f64_as_i64 f)
  | VArray _ => Err NoI64
  | VName name => resolve_name (r_to_i64 r) name
  | VReference _ _ _ z => Ok z
  | VExpr _ _ _ | VUnary _ _ => let? e := value_calculate v in r_to_i64 r (value e)
  | _ => Err NoI64
  end.

Definition unary_not_body (v : ValueType) : R ConstExpr :=
  match v with
  | VString _ => Err (UnaryOnString "~")
  | VVoid | VChar _ => Ok (const_new v)
  | VByte z => Ok (const_new (VByte (Z.lnot z)))
  | VInt32 z => Ok (const_new (VInt32 (Z.lnot z)))
  | VInt64 z => Ok (const_new (VInt64 (Z.lnot z)))
  | VBool b => Ok (const_new (VBool (negb b)))
  | VExpr _ _ _ | VUnary _ _ => let? e := value_calculate v in r_unary_not r (value e)
  | VArray l => let? list := try_map (fun e => r_unary_not r (value e)) l in
                Ok (const_new (VArray list))
  | _ => Err (UnaryUnsupported "~")
  end.

Definition logical_not_body (v : ValueType) : R ConstExpr :=
  match v with
  | VExpr _ _ _ | VUnary _ _ => let? e := value_calculate v in r_logical_not r (value e)
  | VArray l => let? list := try_map (fun e => r_logical_not r (value e)) l in
                Ok (const_new (VArray list))
  | _ => let? b := r_to_bool r v in Ok (const_new (VBool (negb b)))
  end.

(** [checked_neg] at a width whose minimum is [least]. *)
Definition checked_neg (least z : Z) : R Z := if z =? least then Err (CannotNegate z) else Ok (- z).

Definition unary_minus_body (v : ValueType) : R ConstExpr :=
  match v with
  | VString _ => Err (UnaryOnString "-")
  | VVoid | VBool _ | VChar _ => Ok (const_new v)
  | VByte z => let? n := checked_neg i8_min z in Ok (const_new (VByte n))
  | VInt32 z => let? n := checked_neg i32_min z in Ok (const_new (VInt32 n))
  | VInt64 z => let? n := checked_neg i64_min z in Ok (const_new (VInt64 n))
  | VFloat f => Ok (const_new (VFloat (f64_neg (f64_as_f32 f))))
  | VDouble f => Ok (const_new (VDouble (f64_neg f)))
  | VExpr _ _ _ | VUnary _ _ => let? e := value_calculate v in r_unary_minus r (value e)
  | VArray l => let? list := try_map (fun e => r_unary_minus r (value e)) l in
                Ok (const_new (VArray list))
  | _ => Err (UnaryUnsupported "-")
  end.

(** [char::from_u32] after [u32::try_from]: a Unicode scalar value. *)
Definition is_scalar_value (z : Z) : bool :=
  (0 <=? z) && (z <=? 1114111) && negb ((55296 <=? z) && (z <=? 57343)).

Definition convert_to_body (self : ConstExpr) (value_type : ValueType) : R ConstExpr :=
  if order (value self) =? order value_type then Ok self
  else
    match value self with
    | VArray list =>
        let? res := try_map (fun v => r_convert_to r v value_type) list in
        Ok (const_new (VArray res))
    | v =>
        match value_type with
        | VVoid => Ok const_default
        | VString _ => Ok (const_new (VString (to_value_string v)))
        | VByte _ =>
            let? z := r_to_i64 r v in
            if (i8_max <? z) || (z <? i8_min) then Err (ByteRange z)
            else Ok (const_new (VByte z))
        | VInt32 _ =>
            let? z := r_to_i64 r v in
            if (i32_max <? z) || (z <? i32_min) then Err (IntRange z)
            else Ok (const_new (VInt32 z))
        | VInt64 _ => let? z := r_to_i64 r v in Ok (const_new (VInt64 z))
        | VFloat _ => let? f := r_to_f64 r v in Ok (const_new (VFloat (f64_as_f32 f)))
        | VDouble _ => let? f := r_to_f64 r v in Ok (const_new (VDouble f))
        | VBool _ => let? b := r_to_bool r v in Ok (const_new (VBool b))
        | VChar _ =>
            let? z := r_to_i64 r v in
            if is_scalar_value z then Ok (const_new (VChar z)) else Err (NotAChar z)
        | VUserDefined _ | VReference _ _ _ _ => Ok self
        | _ => Err NoConversion
        end
    end.

(** [.ok().and_then(..)] of a comparison: an error is no order. *)
Definition cmp_ok {A} (o : R A) (f : A -> option comparison) : R (option comparison) :=
  match o with Ok a => Ok (f a) | Err _ => Ok None | Panic => Panic end.

(** [Vec::partial_cmp]: lexicographic. *)
Fixpoint vec_cmp (l k : list ConstExpr) : R (option comparison) :=
  match l, k with
  | [], [] => Ok (Some Eq)
  | [], _ :: _ => Ok (Some Lt)
  | _ :: _, [] => Ok (Some Gt)
  | x :: l', y :: k' =>
      let? c := r_partial_cmp r (value x) (value y) in
      match c with Some Eq => vec_cmp l' k' | _ => Ok c end
  end.

Definition bool_cmp (a b : bool) : comparison := Z.compare (Z.b2z a) (Z.b2z b).

Definition partial_cmp_body (self rhs : ValueType) : R (option comparison) :=
  match self with
  | VVoid => Ok (Some (match rhs with VVoid => Eq | _ => Lt end))
  | VString s | VName s => Ok (Some (String.compare s (to_value_string rhs)))
  | VByte v => cmp_ok (r_to_i64 r rhs) (fun z => Some (Z.compare v (wrap_i 8 z)))
  | VInt32 v => cmp_ok (r_to_i64 r rhs) (fun z => Some (Z.compare v (wrap_i 32 z)))
  | VInt64 v | VChar v => cmp_ok (r_to_i64 r rhs) (fun z => Some (Z.compare v z))
  | VBool v => cmp_ok (r_to_bool r rhs) (fun b => Some (bool_cmp v b))
  | VFloat v | VDouble v => cmp_ok (r_to_f64 r rhs) (fun f => f64_cmp v f)
  | VArray l => match rhs with VArray k => vec_cmp l k | _ => Ok None end
  | VUnary _ _ | VExpr _ _ _ =>
      match value_calculate self, value_calculate rhs with
      | Panic, _ | _, Panic => Panic
      | Ok a, Ok b => r_partial_cmp r (value a) (value b)
      | _, _ => Ok None
      end
  | _ => Ok None
  end.

(** The macro [arithmetic_bit_op!]. *)
Definition arithmetic_bit_op (o : Bitop) (lhs rhs : ConstExpr) (promoted : ValueType)
    : R ConstExpr :=
  let result (k : Z -> ValueType) :=
    let? a := r_to_i64 r (value lhs) in
    let? b := r_to_i64 r (value rhs) in
    Ok (const_new (k (bit_op o a b))) in
  match promoted with
  | VBool _ => result (fun z => VBool (negb (z =? 0)))
  | VByte _ => result (fun z => VByte (wrap_i 8 z))
  | VInt32 _ => result (fun z => VInt32 (wrap_i 32 z))
  | VInt64 _ => result VInt64
  | VReference _ _ _ _ => result VInt64
  | _ => Err (NotAnInteger (bit_text o))
  end.

(** The macro [arithmetic_basic_op!]. *)
Definition arithmetic_basic_op (o : Arith) (lhs0 rhs0 : ConstExpr) (promoted : ValueType)
    : R ConstExpr :=
  let? lhs := r_convert_to r lhs0 promoted in
  let? rhs := r_convert_to r rhs0 promoted in
  let ints (k : Z -> Z -> Z -> R ConstExpr) :=
    let? a := r_to_i64 r (value lhs) in
    let? b := r_to_i64 r (value rhs) in
    let? z := int_op o a b in
    k a b z in
  let floats (k : f64 -> ValueType) :=
    let? a := r_to_f64 r (value lhs) in
    let? b := r_to_f64 r (value rhs) in
    Ok (const_new (k (float_op o a b))) in
  match promoted with
  | VVoid => Ok const_default
  | VString _ =>
      match o with
      | Add =>
          if negb (is_string (value lhs0)) || negb (is_string (value rhs0)) then Err NonStringOperand
          else Ok (const_new (VString (to_value_string (value lhs) ++ to_value_string (value rhs))))
      | _ => Err (StringOperator (arith_text o))
      end
  | VChar _ => Err (CharOperator (arith_text o))
  | VByte _ => ints (fun _ _ z =>
      if (i8_max <? z) || (z <? i8_min) then Err (Overflows (arith_text o))
      else Ok (const_new (VByte z)))
  | VInt32 _ => ints (fun a b z =>
      if (i32_max <? z) || (z <? i32_min)
         || (match o with Rem => true | _ => false end && (a =? i32_min) && (b =? -1))
      then Err (Overflows (arith_text o))
      else Ok (const_new (VInt32 z)))
  | VInt64 _ => ints (fun _ _ z => Ok (const_new (VInt64 z)))
  | VFloat _ => floats (fun f => VFloat (f64_as_f32 f))
  | VDouble _ => floats VDouble
  | VBool _ => ints (fun _ _ z => Ok (const_new (VBool (negb (z =? 0)))))
  | VReference _ _ _ _ => ints (fun _ _ z => Ok (const_new (VInt64 z)))
  | _ => Err (NotAnInteger (arith_text o))
  end.

(** The [<<] and [>>] arm of [calc_expr]. *)
Definition shift_op (shl : bool) (lhs rhs : ConstExpr) (promoted : ValueType) : R ConstExpr :=
  let? lhs_value := r_to_i64 r (value lhs) in
  let? raw_amount := r_to_i64 r (value rhs) in
  let is_shl := if raw_amount <? 0 then negb shl else shl in
  let amount := Z.abs raw_amount in
  let bits := match promoted with VInt64 _ | VReference _ _ _ _ => 64 | _ => 32 end in
  if bits <=? amount then Err (ShiftAmount amount)
  else if lhs_value <? 0 then Err (ShiftNegative lhs_value)
  else if is_shl && (leading_zeros bits (wrap_u bits lhs_value) <? amount)
  then Err (ShiftOverflow lhs_value amount)
  else
    let z := if is_shl then wrap_i 64 (Z.shiftl lhs_value amount) else Z.shiftr lhs_value amount in
    match promoted with
    | VInt32 _ => Ok (const_new (VInt32 (wrap_i 32 z)))
    | VInt64 _ => Ok (const_new (VInt64 z))
    | VByte _ => Ok (const_new (VByte (wrap_i 8 z)))
    | VReference _ _ _ _ => Ok (const_new (VInt64 z))
    | _ => Err (NotAnInteger (if shl then "<<" else ">>"))
    end.

(** [calc_expr] from the operands' values on. *)
Definition apply_binop (operator : string) (lhs rhs : ConstExpr) : R ConstExpr :=
  let promoted :=
    type_conversion (integral_promotion (value lhs)) (integral_promotion (value rhs)) in
  match binop operator with
  | Some LogicalOr =>
      let? a := r_to_bool r (value lhs) in
      if a then Ok (const_new (VBool true))
      else let? b := r_to_bool r (value rhs) in Ok (const_new (VBool b))
  | Some LogicalAnd =>
      let? a := r_to_bool r (value lhs) in
      if a then let? b := r_to_bool r (value rhs) in Ok (const_new (VBool b))
      else Ok (const_new (VBool false))
  | Some (Bits o) => arithmetic_bit_op o lhs rhs promoted
  | Some (Comparison o) =>
      let? l := r_convert_to r lhs promoted in
      let? k := r_convert_to r rhs promoted in
      let? c := r_partial_cmp r (value l) (value k) in
      Ok (const_new (VBool (compare_op o c)))
  | Some (Shift shl) => shift_op shl lhs rhs promoted
  | Some (Arithmetic o) => arithmetic_basic_op o lhs rhs promoted
  | None => Panic
  end.

(** Each operand is resolved with its own clone of the visited names. *)
Definition calc_expr (lhs : ConstExpr) (operator : string) (rhs : ConstExpr) (visited : Visited)
    (depth : Z) : R ConstExpr :=
  let? l := fst (r_calculate r (value lhs) (depth + 1) visited) in
  let? k := fst (r_calculate r (value rhs) (depth + 1) visited) in
  apply_binop operator l k.

(** A unary operator on the value of its operand. *)
Definition apply_unary (operator : string) (expr : ConstExpr) : R ConstExpr :=
  if String.eqb operator "-" then r_unary_minus r (value expr)
  else if String.eqb operator "~" then r_unary_not r (value expr)
  else if String.eqb operator "!" then r_logical_not r (value expr)
  else if is_string (value expr) then Err (UnaryOnString operator)
  else Ok expr.

Definition calculate_body (self : ValueType) (depth : Z) : M Visited ConstExprError ConstExpr :=
  if MAX_EXPR_DEPTH <? depth then throw TooDeep
  else
    match self with
    | VUnary operator expr =>
        let* e := r_calculate r (value expr) (depth + 1) in
        lift (apply_unary operator e)
    | VExpr lhs operator rhs =>
        let* visited := get in
        lift (calc_expr lhs operator rhs visited depth)
    | VArray l =>
        let* array := try_map_state (fun e => r_calculate r (value e) (depth + 1)) l in
        ret (const_new (VArray array))
    | VName name =>
        let* visited := get in
        if bool_decide (name ∈ visited) then throw (CircularReference name)
        else
          let* _ := put ({[name]} ∪ visited) in
          match lookup name with
          | Some expr => r_calculate r (value expr) (depth + 1)
          | None => ret (const_new self)
          end
    | _ => ret (const_new self)
    end.

Definition next_frame : Frames := {|
  r_calculate := calculate_body;
  r_to_bool := to_bool_body;
  r_to_f64 := to_f64_body;
  r_to_i64 := to_i64_body;
  r_unary_not := unary_not_body;
  r_logical_not := logical_not_body;
  r_unary_minus := unary_minus_body;
  r_convert_to := convert_to_body;
  r_partial_cmp := partial_cmp_body
|}.

End Bodies.

(** The evaluator on a stack with room for [n] nested calls. *)
Fixpoint frames (n : nat) : Frames :=
  match n with O => overflowed | S k => next_frame (frames k) end.

End Evaluator.

(** Room enough for every evaluation: one call per level of [MAX_EXPR_DEPTH]
    and a few for the conversions around it. *)
Definition STACK : nat := 300.

(** The public entry points. *)
Definition calculate (lookup : string -> option ConstExpr) (e : ConstExpr) : R ConstExpr :=
  const_calculate (frames lookup STACK) e.
Definition convert_to (lookup : string -> option ConstExpr) (e : ConstExpr) (t : ValueType)
    : R ConstExpr :=
  r_convert_to (frames lookup STACK) e t.
Definition to_i64 (lookup : string -> option ConstExpr) (e : ConstExpr) : R Z :=
  r_to_i64 (frames lookup STACK) (value e).
Definition to_bool (lookup : string -> option ConstExpr) (e : ConstExpr) : R bool :=
  r_to_bool (frames lookup STACK) (value e).
Definition to_f64 (lookup : string -> option ConstExpr) (e : ConstExpr) : R f64 :=
  r_to_f64 (frames lookup STACK) (value e).
