(* ===== verification/ConstExprSpec.v ===== *)
(** * ConstExprSpec: what the evaluation of constants guarantees

    Every evaluation ends within the stack of [STACK] calls, with an error or
    with a value that is fully evaluated and within the width of its type;
    on integer expressions it computes exactly the mathematical meaning, with
    an error where a width is exceeded. *)

From stdpp Require Import base gmap strings pretty list.
From Stdlib Require Import ZArith Lia String Ascii.
From S2P Require Import Prelude Float ConstExpr.
Local Open Scope string_scope.
Local Open Scope Z_scope.

(** ** Outcomes that are not aborts *)

Definition safely {A} (P : A -> Prop) (o : R A) : Prop :=
  match o with Ok a => P a | Err _ => True | Panic => False end.

Lemma safely_bind {A B} (P : A -> Prop) (Q : B -> Prop) (o : R A) (k : A -> R B) :
  safely P o -> (forall a, P a -> safely Q (k a)) -> safely Q (let? a := o in k a).
Proof. destruct o; simpl; auto. Qed.

Lemma safely_weaken {A} (P Q : A -> Prop) (o : R A) :
  (forall a, P a -> Q a) -> safely P o -> safely Q o.
Proof. destruct o; simpl; auto. Qed.

Lemma safely_try_map {A B} (P : A -> Prop) (Q : B -> Prop) (f : A -> R B) l :
  (forall a, P a -> safely Q (f a)) -> Forall P l -> safely (Forall Q) (try_map f l).
Proof.
  intros Hf. induction 1 as [|x r Hx _ IH]; simpl; [constructor|].
  apply (safely_bind Q); [auto|]. intros y Hy.
  apply (safely_bind (Forall Q)); [exact IH|]. intros ys Hys. simpl. constructor; auto.
Qed.

(** ** Widths *)

Lemma in_i_shiftr n z : 0 < n -> in_i n z <-> Z.shiftr z (n - 1) = 0 \/ Z.shiftr z (n - 1) = -1.
Proof.
  intros Hn. rewrite Z.shiftr_div_pow2 by lia. unfold in_i.
  assert (0 < 2 ^ (n - 1)) by (apply Z.pow_pos_nonneg; lia).
  pose proof (Z.div_mod z (2 ^ (n - 1)) ltac:(lia)).
  pose proof (Z.mod_pos_bound z (2 ^ (n - 1)) ltac:(lia)). split; [|nia].
  intros. assert (-1 <= z / 2 ^ (n - 1) <= 0) by nia. lia.
Qed.

Lemma in_i_bit_op o n a b : 0 < n -> in_i n a -> in_i n b -> in_i n (bit_op o a b).
Proof.
  intros Hn. rewrite !in_i_shiftr by done.
  destruct o; simpl; rewrite ?Z.shiftr_lor, ?Z.shiftr_lxor, ?Z.shiftr_land;
    intros [-> | ->] [-> | ->]; auto.
Qed.

Lemma in_i_lnot n z : 0 < n -> in_i n z -> in_i n (Z.lnot z).
Proof. unfold in_i, Z.lnot. lia. Qed.

Lemma f64_as_i64_range f : in_i 64 (f64_as_i64 f).
Proof. unfold in_i. destruct f; simpl; lia. Qed.

Lemma scalar_i64 z : is_scalar_value z = true -> in_i 64 z.
Proof. unfold is_scalar_value, in_i. rewrite !andb_true_iff, !Z.leb_le. lia. Qed.

Lemma in_i_widen n m z : 0 < n <= m -> in_i n z -> in_i m z.
Proof.
  unfold in_i. intros ? ?.
  assert (2 ^ (n - 1) <= 2 ^ (m - 1)) by (apply Z.pow_le_mono_r; lia). lia.
Qed.

Lemma b2z_i64 b : in_i 64 (Z.b2z b).
Proof. destruct b; unfold in_i; simpl; lia. Qed.

Lemma zero_i64 : in_i 64 0.
Proof. unfold in_i. lia. Qed.

Create HintDb const.
#[export] Hint Resolve f64_as_i64_range scalar_i64 b2z_i64 zero_i64 in_i_bit_op in_i_lnot : const.

Section Evaluation.
Context (lookup : string -> option ConstExpr).

(** An expression as the parser builds it: known operators, literals within
    their widths. *)
Inductive wf_value : ValueType -> Prop :=
| wf_byte z : in_i 8 z -> wf_value (VByte z)
| wf_int32 z : in_i 32 z -> wf_value (VInt32 z)
| wf_int64 z : in_i 64 z -> wf_value (VInt64 z)
| wf_char z : is_scalar_value z = true -> wf_value (VChar z)
| wf_reference t n m z : in_i 64 z -> wf_value (VReference t n m z)
| wf_array l : Forall (fun e => wf_value (value e)) l -> wf_value (VArray l)
| wf_expr l op r : wf_value (value l) -> wf_value (value r) -> is_Some (binop op) ->
    wf_value (VExpr l op r)
| wf_unary op e : wf_value (value e) -> wf_value (VUnary op e)
| wf_other v :
    match v with
    | VVoid | VName _ | VBool _ | VString _ | VFloat _ | VDouble _ | VMap _ _ | VIBinder
    | VFileDescriptor | VHolder | VUserDefined _ => True
    | _ => False
    end -> wf_value v.

(** An evaluated value that is not an array: no operator is left, a name is
    left only when nothing defines it, every number is within its width. *)
Definition leaf (v : ValueType) : Prop :=
  match v with
  | VArray _ | VExpr _ _ _ | VUnary _ _ => False
  | VName n => lookup n = None
  | VByte z => in_i 8 z
  | VInt32 z => in_i 32 z
  | VInt64 z | VReference _ _ _ z => in_i 64 z
  | VChar z => is_scalar_value z = true
  | _ => True
  end.

(** A fully evaluated value with at most [k] levels of arrays. *)
Fixpoint normal (k : nat) (v : ValueType) : Prop :=
  match k, v with
  | S k', VArray l => Forall (fun e => normal k' (value e)) l
  | _, _ => leaf v
  end.

Lemma normal_cases k v :
  normal k v ->
  leaf v \/ exists k' l, k = S k' /\ v = VArray l /\ Forall (fun e => normal k' (value e)) l.
Proof. destruct k; simpl; [by left|]. destruct v; eauto 10. Qed.

Lemma leaf_normal k v : leaf v -> normal k v.
Proof. destruct k; simpl; [done|]. destruct v; simpl; done. Qed.

Lemma normal_S k v : normal k v -> normal (S k) v.
Proof.
  revert v. induction k as [|k IH]; intros v; destruct v; simpl; try done.
  intros H. apply (Forall_impl _ _ _ H). intros e. apply IH.
Qed.

Lemma normal_le k m v : (k <= m)%nat -> normal k v -> normal m v.
Proof. induction 1; auto using normal_S. Qed.

(** ** The functions on evaluated values *)

Section Values.
Context (r : Frames).

Lemma to_i64_normal k v : normal k v -> safely (in_i 64) (to_i64_body lookup r v).
Proof.
  intros [H|(k' & l & -> & -> & H)]%normal_cases; [|done].
  destruct v; simpl in *; auto with const; try done.
  - unfold resolve_name. by rewrite H.
  - revert H. apply in_i_widen. lia.
  - revert H. apply in_i_widen. lia.
Qed.

Lemma to_bool_normal k v : normal k v -> safely (fun _ => True) (to_bool_body lookup r v).
Proof.
  intros [H|(k' & l & -> & -> & H)]%normal_cases; [|done].
  destruct v; simpl in *; try done. unfold resolve_name. by rewrite H.
Qed.

Lemma to_f64_normal k v : normal k v -> safely (fun _ => True) (to_f64_body lookup r v).
Proof.
  intros [H|(k' & l & -> & -> & H)]%normal_cases; [|done].
  destruct v; simpl in *; try done. unfold resolve_name. by rewrite H.
Qed.

End Values.

Abbreviation evaluator := (frames lookup).

(** A loop over the elements of an evaluated array. *)
Lemma array_normal k l f :
  (forall e, normal k (value e) -> safely (fun c => normal k (value c)) (f e)) ->
  Forall (fun e => normal k (value e)) l ->
  safely (fun c => normal (S k) (value c)) (let? list := try_map f l in Ok (const_new (VArray list))).
Proof.
  intros Hf Hl. apply (safely_bind (Forall (fun c => normal k (value c)))); [|done].
  by apply (safely_try_map (fun e => normal k (value e))).
Qed.

Lemma safely_leaf {A} (P : A -> Prop) k (o : R A) (f : A -> ValueType) :
  safely P o -> (forall a, P a -> leaf (f a)) ->
  safely (fun c => normal k (value c)) (let? a := o in Ok (const_new (f a))).
Proof. intros Ho Hf. apply (safely_bind P _ _ _ Ho). intros a Ha. by apply leaf_normal, Hf. Qed.

Lemma unary_not_normal n k v :
  (k < n)%nat -> normal k v -> safely (fun c => normal k (value c)) (r_unary_not (evaluator n) v).
Proof.
  revert k v. induction n as [|n IH]; intros k v Hn Hv; [lia|].
  apply normal_cases in Hv as [H|(k' & l & -> & -> & H)].
  - destruct v; simpl in H; try done; apply leaf_normal; simpl; auto with const;
      (apply in_i_lnot; [lia|done]).
  - apply array_normal; [|done]. intros e. apply IH. lia.
Qed.

Lemma logical_not_normal n k v :
  (S k < n)%nat -> normal k v ->
  safely (fun c => normal k (value c)) (r_logical_not (evaluator n) v).
Proof.
  revert k v. induction n as [|[|n] IH]; intros k v Hn Hv; [lia|lia|].
  pose proof (to_bool_normal (evaluator n) k v Hv) as Hb.
  apply normal_cases in Hv as [H|(k' & l & -> & -> & H)].
  - destruct v; simpl in H; try done;
      exact (safely_leaf (fun _ => True) k _ (fun b => VBool (negb b)) Hb (fun _ _ => I)).
  - apply array_normal; [|done]. intros e. apply IH. lia.
Qed.

Lemma checked_neg_range n z : 0 < n -> in_i n z -> safely (in_i n) (checked_neg (- 2 ^ (n - 1)) z).
Proof.
  unfold checked_neg, in_i. intros. destruct (z =? - 2 ^ (n - 1)) eqn:E; simpl; [done|].
  apply Z.eqb_neq in E. lia.
Qed.

Lemma unary_minus_normal n k v :
  (k < n)%nat -> normal k v -> safely (fun c => normal k (value c)) (r_unary_minus (evaluator n) v).
Proof.
  revert k v. induction n as [|n IH]; intros k v Hn Hv; [lia|].
  apply normal_cases in Hv as [H|(k' & l & -> & -> & H)].
  - destruct v; simpl in H; try done; try (by apply leaf_normal).
    + by apply (safely_leaf (in_i 8) _ _ VByte); [apply (checked_neg_range 8)|].
    + by apply (safely_leaf (in_i 32) _ _ VInt32); [apply (checked_neg_range 32)|].
    + by apply (safely_leaf (in_i 64) _ _ VInt64); [apply (checked_neg_range 64)|].
  - apply array_normal; [|done]. intros e. apply IH. lia.
Qed.

Lemma range_check_i8 z : safely (fun c => leaf (value c))
  (if (i8_max <? z) || (z <? i8_min) then Err (ByteRange z) else Ok (const_new (VByte z))).
Proof. unfold i8_max, i8_min. repeat case_leb; simpl; try done. unfold in_i. lia. Qed.

Lemma range_check_i32 z : safely (fun c => leaf (value c))
  (if (i32_max <? z) || (z <? i32_min) then Err (IntRange z) else Ok (const_new (VInt32 z))).
Proof. unfold i32_max, i32_min. repeat case_leb; simpl; try done. unfold in_i. lia. Qed.

(** Converting a value that is not an array. *)
Lemma convert_leaf n e t :
  leaf (value e) -> safely (fun c => leaf (value c)) (r_convert_to (evaluator (S (S n))) e t).
Proof.
  intros H. pose proof (leaf_normal 0 _ H) as H0.
  pose proof (to_i64_normal (evaluator n) 0 _ H0) as Hi.
  pose proof (to_bool_normal (evaluator n) 0 _ H0) as Hb.
  pose proof (to_f64_normal (evaluator n) 0 _ H0) as Hf.
  cbn [r_convert_to frames next_frame]. unfold convert_to_body.
  case_match; [done|]. cbn [r_to_i64 r_to_f64 r_to_bool frames next_frame].
  destruct (value e) eqn:Ev; try done; destruct t; try done;
    try (cbn [safely]; rewrite Ev; exact H);
    try (by eapply safely_bind; [exact Hb|]);
    try (by eapply safely_bind; [exact Hf|]);
    (eapply safely_bind; [exact Hi|]; intros z Hz; cbv beta);
    try apply range_check_i8; try apply range_check_i32; try done;
    destruct (is_scalar_value z) eqn:E; done.
Qed.

Lemma convert_normal n k e t :
  (S k < n)%nat -> normal k (value e) ->
  safely (fun c => normal k (value c)) (r_convert_to (evaluator n) e t).
Proof.
  revert k e. induction n as [|[|n] IH]; intros k e Hn He; [lia|lia|].
  pose proof He as He'. apply normal_cases in He as [H|(k' & l & -> & El & H)].
  - pose proof (convert_leaf n e t H) as Hc.
    eapply safely_weaken; [|exact Hc]. intros c. apply leaf_normal.
  - cbn [r_convert_to frames]. unfold next_frame at 1, convert_to_body.
    cbn [r_convert_to]. case_match; [done|]. rewrite El.
    apply array_normal; [|done]. intros c. apply IH. lia.
Qed.

Lemma cmp_ok_safely {A} (P : A -> Prop) (o : R A) f :
  safely P o -> safely (fun _ => True) (cmp_ok o f).
Proof. destruct o; done. Qed.

Lemma vec_cmp_safely r l k :
  (forall x y, x ∈ l -> y ∈ k -> safely (fun _ => True) (r_partial_cmp r (value x) (value y))) ->
  safely (fun _ => True) (vec_cmp r l k).
Proof.
  revert k. induction l as [|x l IH]; intros [|y k] H; simpl; try done.
  apply (safely_bind (fun _ => True)); [apply H; left|].
  intros [[]|] _; try done. apply IH. intros. apply H; by right.
Qed.

Lemma partial_cmp_normal n k j v w :
  (S k < n)%nat -> normal k v -> normal j w ->
  safely (fun _ => True) (r_partial_cmp (evaluator n) v w).
Proof.
  revert k j v w. induction n as [|[|n] IH]; intros k j v w Hn Hv Hw; [lia|lia|].
  pose proof (to_i64_normal (evaluator n) j w Hw) as Hi.
  pose proof (to_bool_normal (evaluator n) j w Hw) as Hb.
  pose proof (to_f64_normal (evaluator n) j w Hw) as Hf.
  apply normal_cases in Hv as [H|(k' & l & -> & -> & H)].
  - destruct v; simpl in H; try done; try exact (cmp_ok_safely _ _ _ Hi);
      try exact (cmp_ok_safely _ _ _ Hb); exact (cmp_ok_safely _ _ _ Hf).
  - apply normal_cases in Hw as [Hl|(j' & l' & -> & -> & H')]; [by destruct w|].
    apply vec_cmp_safely. intros x y Hx Hy. rewrite Forall_forall in H, H'.
    apply (IH k' j'); [lia|by apply H|by apply H'].
Qed.

(** ** Operators on evaluated operands *)

Lemma checked_i64_range e z : safely (in_i 64) (checked_i64 e z).
Proof. unfold checked_i64, i64_min, i64_max, in_i. repeat case_leb; simpl; try done. lia. Qed.

Lemma rem_range n a b : 0 < n -> in_i n a -> in_i n (Z.rem a b).
Proof.
  unfold in_i. intros Hn Ha. assert (0 < 2 ^ (n - 1)) by (apply Z.pow_pos_nonneg; lia).
  destruct (Z.eq_dec b 0) as [->|]; [by destruct a|].
  assert (Z.abs (Z.rem a b) <= Z.abs a) by (rewrite <- Z.rem_abs by done; apply Z.rem_le; lia).
  assert (0 <= a -> 0 <= Z.rem a b) by (intros; apply Z.rem_nonneg; done).
  assert (a <= 0 -> Z.rem a b <= 0) by (intros; apply Z.rem_nonpos; done). lia.
Qed.

Lemma int_op_range o a b : in_i 64 a -> in_i 64 b -> safely (in_i 64) (int_op o a b).
Proof.
  intros Ha Hb. destruct o; simpl; try apply checked_i64_range.
  - case_leb; [done|apply checked_i64_range].
  - destruct (_ || _); [done|]. by apply rem_range.
Qed.

Lemma bit_op_leaf n k o l r t :
  normal k (value l) -> normal k (value r) ->
  safely (fun c => leaf (value c)) (arithmetic_bit_op (evaluator (S n)) o l r t).
Proof.
  intros Hl Hr. pose proof (to_i64_normal (evaluator n) k _ Hl) as Ha.
  pose proof (to_i64_normal (evaluator n) k _ Hr) as Hb.
  unfold arithmetic_bit_op. cbn [r_to_i64 frames next_frame].
  destruct t; try done; (eapply safely_bind; [exact Ha|]; intros a Ha';
    eapply safely_bind; [exact Hb|]; intros b0 Hb'; simpl); try done;
    try (apply wrap_i_range; lia); by apply in_i_bit_op.
Qed.

Lemma basic_op_leaf n k o l r t :
  (S k < n)%nat -> normal k (value l) -> normal k (value r) ->
  safely (fun c => leaf (value c)) (arithmetic_basic_op (evaluator n) o l r t).
Proof.
  intros Hn Hl Hr. destruct n as [|n]; [lia|]. unfold arithmetic_basic_op.
  eapply safely_bind; [by apply (convert_normal _ k)|]. intros l' Hl'.
  eapply safely_bind; [by apply (convert_normal _ k)|]. intros r' Hr'. cbv beta zeta.
  pose proof (to_i64_normal (evaluator n) k _ Hl') as Ha.
  pose proof (to_i64_normal (evaluator n) k _ Hr') as Hb.
  pose proof (to_f64_normal (evaluator n) k _ Hl') as Fa.
  pose proof (to_f64_normal (evaluator n) k _ Hr') as Fb.
  cbn [r_to_i64 r_to_f64 frames next_frame].
  destruct t; try done;
    try (eapply safely_bind; [exact Fa|]; intros; eapply safely_bind; [exact Fb|]; done);
    try (eapply safely_bind; [exact Ha|]; intros a Ha';
         eapply safely_bind; [exact Hb|]; intros b0 Hb';
         eapply safely_bind; [by apply int_op_range|]; intros z Hz; cbv beta); try done.
  - unfold i8_max, i8_min. repeat case_leb; simpl; try done. unfold in_i. lia.
  - unfold i32_max, i32_min. repeat case_leb; simpl; try done;
      destruct o; simpl; try done; unfold in_i; lia.
  - destruct o; try done. by destruct (_ || _).
Qed.

Lemma shift_op_leaf n k shl l r t :
  normal k (value l) -> normal k (value r) ->
  safely (fun c => leaf (value c)) (shift_op (evaluator (S n)) shl l r t).
Proof.
  intros Hl Hr. unfold shift_op. cbn [r_to_i64 frames next_frame].
  eapply safely_bind; [by apply (to_i64_normal _ k)|]. intros a Ha.
  eapply safely_bind; [by apply (to_i64_normal _ k)|]. intros b Hb. cbv beta zeta.
  set (bits := match t with VInt64 _ | VReference _ _ _ _ => 64 | _ => 32 end).
  case_leb; [done|]. case_leb; [done|]. destruct (_ && _) eqn:E; [done|].
  assert (Hz : forall c : bool, in_i 64
    (if c then wrap_i 64 (Z.shiftl a (Z.abs b)) else Z.shiftr a (Z.abs b))).
  { intros []; [apply wrap_i_range; lia|]. rewrite Z.shiftr_div_pow2 by lia. unfold in_i in *.
    assert (0 < 2 ^ Z.abs b) by (apply Z.pow_pos_nonneg; lia).
    pose proof (Z.div_pos a (2 ^ Z.abs b)). pose proof (Z.div_le_upper_bound a (2 ^ Z.abs b) a). nia. }
  destruct t; try done; simpl; try (apply wrap_i_range; lia); apply Hz.
Qed.

Lemma apply_binop_leaf n k op l r :
  (S k < n)%nat -> is_Some (binop op) -> normal k (value l) -> normal k (value r) ->
  safely (fun c => leaf (value c)) (apply_binop (evaluator n) op l r).
Proof.
  intros Hn [b Hb] Hl Hr. unfold apply_binop. rewrite Hb. destruct n as [|n]; [lia|].
  pose proof (to_bool_normal (evaluator n) k _ Hl) as Ha.
  pose proof (to_bool_normal (evaluator n) k _ Hr) as Hb'.
  destruct b.
  - eapply safely_bind; [exact Ha|]. intros [] _; [done|]. by eapply safely_bind; [exact Hb'|].
  - eapply safely_bind; [exact Ha|]. intros [] _; [|done]. by eapply safely_bind; [exact Hb'|].
  - by apply (bit_op_leaf _ k).
  - eapply safely_bind; [by apply (convert_normal _ k)|]. intros l' Hl'.
    eapply safely_bind; [by apply (convert_normal _ k)|]. intros r' Hr'.
    by eapply safely_bind; [by apply (partial_cmp_normal _ k k)|].
  - by apply (shift_op_leaf _ k).
  - by apply (basic_op_leaf _ k).
Qed.

Lemma apply_unary_normal n k op e :
  (S k < n)%nat -> normal k (value e) ->
  safely (fun c => normal k (value c)) (apply_unary (evaluator n) op e).
Proof.
  intros Hn He. unfold apply_unary.
  repeat case_match; try done; auto using unary_minus_normal, unary_not_normal, logical_not_normal with lia.
Qed.

(** ** The evaluator *)

Definition safely_in {S A} (P : A -> Prop) (m : M S ConstExprError A) : Prop :=
  forall s, safely P (fst (m s)).

Lemma safely_in_bind {S A B} (P : A -> Prop) (Q : B -> Prop) (m : M S ConstExprError A)
    (k : A -> M S ConstExprError B) :
  safely_in P m -> (forall a, P a -> safely_in Q (k a)) -> safely_in Q (bind m k).
Proof.
  intros Hm Hk s. specialize (Hm s). unfold bind. destruct (m s) as [[a|e|] s']; simpl in *; try done.
  by apply Hk.
Qed.

Lemma safely_in_try_map {S A B} (P : A -> Prop) (Q : B -> Prop) (f : A -> M S ConstExprError B) l :
  (forall a, P a -> safely_in Q (f a)) -> Forall P l -> safely_in (Forall Q) (try_map_state f l).
Proof.
  intros Hf. induction 1 as [|x r Hx _ IH]; simpl; [intros s; constructor|].
  apply (safely_in_bind Q); [auto|]. intros y Hy.
  apply (safely_in_bind (Forall Q)); [exact IH|]. intros ys Hys s. simpl. by constructor.
Qed.

Hypothesis lookup_wf : forall name e, lookup name = Some e -> wf_value (value e).

(** [h] levels of depth are left: [h + 2] calls of stack are enough, and the
    result is evaluated. *)
Lemma calculate_normal h n v d :
  (h + 1 < n)%nat -> MAX_EXPR_DEPTH < d + Z.of_nat h -> wf_value v ->
  safely_in (fun c => normal h (value c)) (r_calculate (evaluator n) v d).
Proof.
  revert n v d. induction h as [|h IH]; intros n v d Hn Hd Hv; (destruct n as [|n]; [lia|]);
    cbn [r_calculate frames next_frame]; unfold calculate_body.
  { intros s. case_leb; [done|lia]. }
  intros s. case_leb; [done|]. revert s.
  assert (Hrec : forall e, wf_value (value e) ->
            safely_in (fun c => normal h (value c)) (r_calculate (evaluator n) (value e) (d + 1)))
    by (intros e He; apply IH; [lia|lia|done]).
  inversion Hv as [z Hz|z Hz|z Hz|z Hz|t m i z Hz|l Hl|l op r Hl Hr Hop|op e He|w Hw]; subst;
    try (intros s; apply leaf_normal; exact Hz).
  - eapply safely_in_bind; [exact (safely_in_try_map (fun e => wf_value (value e)) (fun c => normal h (value c)) _ _ Hrec Hl)|]. by intros array Ha s.
  - intros s. unfold bind, get, lift, calc_expr. cbn [fst].
    eapply safely_bind; [by apply Hrec|]. intros l' Hl'.
    eapply safely_bind; [by apply Hrec|]. intros r' Hr'.
    eapply safely_weaken; [|by apply (apply_binop_leaf _ h); [lia|..]]. intros c. apply leaf_normal.
  - eapply safely_in_bind; [by apply Hrec|]. intros e' He' s.
    eapply safely_weaken; [|by apply (apply_unary_normal _ h); [lia|]]. intros c. apply normal_S.
  - destruct v; try done; try (intros s; apply leaf_normal; done).
    intros s. unfold bind, get. cbn. case_bool_decide; [done|]. cbn.
    destruct (lookup name) as [e|] eqn:E; [|done].
    eapply safely_weaken; [|apply Hrec; by eapply lookup_wf]. intros c. apply normal_S.
Qed.

(** ** More stack changes nothing *)

(** The second is what the first returns, unless the first ran out of stack. *)
Definition agree_out {A} (a b : R A) : Prop := a = Panic \/ a = b.

Definition agree_in {S A} (m m' : M S ConstExprError A) : Prop :=
  forall s, fst (m s) = Panic \/ m s = m' s.

Record extends (r r' : Frames) : Prop := mkExtends {
  ext_calculate : forall v d, agree_in (r_calculate r v d) (r_calculate r' v d);
  ext_to_bool : forall v, agree_out (r_to_bool r v) (r_to_bool r' v);
  ext_to_f64 : forall v, agree_out (r_to_f64 r v) (r_to_f64 r' v);
  ext_to_i64 : forall v, agree_out (r_to_i64 r v) (r_to_i64 r' v);
  ext_unary_not : forall v, agree_out (r_unary_not r v) (r_unary_not r' v);
  ext_logical_not : forall v, agree_out (r_logical_not r v) (r_logical_not r' v);
  ext_unary_minus : forall v, agree_out (r_unary_minus r v) (r_unary_minus r' v);
  ext_convert_to : forall e t, agree_out (r_convert_to r e t) (r_convert_to r' e t);
  ext_partial_cmp : forall v w, agree_out (r_partial_cmp r v w) (r_partial_cmp r' v w)
}.

Lemma agree_refl {A} (a : R A) : agree_out a a.
Proof. by right. Qed.

Lemma agree_bind {A B} (a a' : R A) (k k' : A -> R B) :
  agree_out a a' -> (forall x, agree_out (k x) (k' x)) ->
  agree_out (let? x := a in k x) (let? x := a' in k' x).
Proof. intros [->| ->] Hk; [by left|]. destruct a'; [apply Hk|by right|by left]. Qed.

Lemma agree_try_map {A B} (f f' : A -> R B) l :
  (forall x, agree_out (f x) (f' x)) -> agree_out (try_map f l) (try_map f' l).
Proof.
  intros Hf. induction l as [|x l IH]; simpl; [apply agree_refl|].
  apply agree_bind; [apply Hf|]. intros y. apply agree_bind; [exact IH|]. intros. apply agree_refl.
Qed.

Lemma agree_in_bind {S A B} (m m' : M S ConstExprError A) (k k' : A -> M S ConstExprError B) :
  agree_in m m' -> (forall x, agree_in (k x) (k' x)) -> agree_in (bind m k) (bind m' k').
Proof.
  intros Hm Hk s. unfold bind. destruct (Hm s) as [Hp| ->].
  - left. destruct (m s) as [[] ?]; simpl in *; done.
  - destruct (m' s) as [[] ?]; [apply Hk|by right|by left].
Qed.

Lemma agree_in_refl {S A} (m : M S ConstExprError A) : agree_in m m.
Proof. by right. Qed.

Lemma agree_in_lift {S A} (a b : R A) : agree_out a b -> agree_in (S := S) (lift a) (lift b).
Proof. intros [->| ->] s; [by left|by right]. Qed.

Lemma agree_in_try_map {S A B} (f f' : A -> M S ConstExprError B) l :
  (forall x, agree_in (f x) (f' x)) -> agree_in (try_map_state f l) (try_map_state f' l).
Proof.
  intros Hf. induction l as [|x l IH]; simpl; [apply agree_in_refl|].
  apply agree_in_bind; [apply Hf|]. intros y. apply agree_in_bind; [exact IH|].
  intros. apply agree_in_refl.
Qed.

Section Extension.
Context (r r' : Frames) (Hr : extends r r').

Lemma agree_value_calculate v : agree_out (value_calculate r v) (value_calculate r' v).
Proof.
  unfold value_calculate. destruct (ext_calculate _ _ Hr v 0 ∅) as [->| ->]; [by left|by right].
Qed.

Lemma agree_const_calculate e : agree_out (const_calculate r e) (const_calculate r' e).
Proof.
  unfold const_calculate. destruct (is_calculated e); [apply agree_refl|].
  apply agree_bind; [apply agree_value_calculate|]. intros. apply agree_refl.
Qed.

Lemma agree_resolve {A} (k k' : ValueType -> R A) name :
  (forall v, agree_out (k v) (k' v)) ->
  agree_out (resolve_name lookup r k name) (resolve_name lookup r' k' name).
Proof.
  intros Hk. unfold resolve_name. destruct (lookup name); [|apply agree_refl].
  apply agree_bind; [apply agree_const_calculate|]. intros x. destruct (value x); auto using agree_refl.
Qed.

Lemma agree_cmp_ok {A} (a a' : R A) f : agree_out a a' -> agree_out (cmp_ok a f) (cmp_ok a' f).
Proof. intros [->| ->]; [by left|apply agree_refl]. Qed.

Lemma agree_vec_cmp l k : agree_out (vec_cmp r l k) (vec_cmp r' l k).
Proof.
  revert k. induction l as [|x l IH]; intros [|y k]; simpl; try apply agree_refl.
  apply agree_bind; [apply (ext_partial_cmp _ _ Hr)|]. intros [[]|]; auto using agree_refl.
Qed.

Ltac agree :=
  repeat first
    [ apply agree_refl | apply (ext_to_bool _ _ Hr) | apply (ext_to_f64 _ _ Hr)
    | apply (ext_to_i64 _ _ Hr) | apply (ext_unary_not _ _ Hr) | apply (ext_logical_not _ _ Hr)
    | apply (ext_unary_minus _ _ Hr) | apply (ext_convert_to _ _ Hr)
    | apply (ext_partial_cmp _ _ Hr) | apply agree_value_calculate
    | apply agree_resolve; intros ? | apply agree_cmp_ok | apply agree_vec_cmp
    | apply agree_try_map; intros ? | apply agree_bind; [|intros ?]; cbv beta
    | match goal with
      | |- agree_out (match ?x with _ => _ end) (match ?x with _ => _ end) => destruct x
      end ].

Lemma agree_partial_cmp v w : agree_out (partial_cmp_body r v w) (partial_cmp_body r' v w).
Proof.
  assert (Hc : forall u, agree_out
    (match value_calculate r u, value_calculate r w with
     | Panic, _ | _, Panic => Panic
     | Ok a, Ok b => r_partial_cmp r (value a) (value b)
     | _, _ => Ok None
     end)
    (match value_calculate r' u, value_calculate r' w with
     | Panic, _ | _, Panic => Panic
     | Ok a, Ok b => r_partial_cmp r' (value a) (value b)
     | _, _ => Ok None
     end)).
  { intros u. destruct (agree_value_calculate u) as [->| ->]; [by left|].
    destruct (agree_value_calculate w) as [->| ->]; [left; by destruct (value_calculate r' u)|].
    agree. }
  destruct v; try exact (Hc _); unfold partial_cmp_body; agree.
Qed.

Lemma agree_convert_to e t : agree_out (convert_to_body r e t) (convert_to_body r' e t).
Proof. unfold convert_to_body. agree. Qed.

Lemma agree_apply_binop op l k : agree_out (apply_binop r op l k) (apply_binop r' op l k).
Proof.
  unfold apply_binop, arithmetic_bit_op, arithmetic_basic_op, shift_op. cbv zeta. agree.
Qed.

Lemma agree_apply_unary op e : agree_out (apply_unary r op e) (apply_unary r' op e).
Proof. unfold apply_unary. agree. Qed.

Lemma agree_fst v d s :
  agree_out (fst (r_calculate r v d s)) (fst (r_calculate r' v d s)).
Proof. destruct (ext_calculate _ _ Hr v d s) as [->| ->]; [by left|by right]. Qed.

Lemma agree_calculate v d : agree_in (calculate_body lookup r v d) (calculate_body lookup r' v d).
Proof.
  unfold calculate_body. destruct (_ <? _); [apply agree_in_refl|].
  destruct v; try apply agree_in_refl; (apply agree_in_bind; [|intros x]);
    try apply agree_in_refl; try apply (ext_calculate _ _ Hr).
  - case_bool_decide; [apply agree_in_refl|]. apply agree_in_bind; [apply agree_in_refl|].
    intros []. destruct (lookup name); [apply (ext_calculate _ _ Hr)|apply agree_in_refl].
  - apply agree_in_try_map. intros. apply (ext_calculate _ _ Hr).
  - apply agree_in_lift. unfold calc_expr. apply agree_bind; [apply agree_fst|]. intros.
    apply agree_bind; [apply agree_fst|]. intros. apply agree_apply_binop.
  - apply agree_in_lift, agree_apply_unary.
Qed.

Lemma next_frame_extends : extends (next_frame lookup r) (next_frame lookup r').
Proof.
  constructor; simpl; intros; auto using agree_calculate, agree_convert_to, agree_partial_cmp;
    unfold to_bool_body, to_f64_body, to_i64_body, unary_not_body, logical_not_body, unary_minus_body;
    agree.
Qed.

End Extension.

Lemma overflowed_extends r : extends overflowed r.
Proof. by constructor; intros; [intros s|..]; left. Qed.

Lemma frames_extends n m : (n <= m)%nat -> extends (evaluator n) (evaluator m).
Proof.
  revert m. induction n as [|n IH]; intros m Hm; [apply overflowed_extends|].
  destruct m as [|m]; [lia|]. apply next_frame_extends, IH. lia.
Qed.

Lemma const_calculate_stable n m e :
  (n <= m)%nat -> const_calculate (evaluator n) e <> Panic ->
  const_calculate (evaluator m) e = const_calculate (evaluator n) e.
Proof. intros Hm Hp. by destruct (agree_const_calculate _ _ (frames_extends n m Hm) e). Qed.

Lemma const_calculate_normal n e :
  (258 < n)%nat -> wf_value (value e) ->
  safely (fun c => is_calculated e = false -> normal 257 (value c) /\ is_calculated c = true)
    (const_calculate (evaluator n) e).
Proof.
  intros Hn He. unfold const_calculate. destruct (is_calculated e); [done|].
  eapply safely_bind; [by apply (calculate_normal 257 n _ 0)|]. intros c Hc. simpl. auto.
Qed.

Lemma const_calculate_same n m e :
  (258 < n)%nat -> (258 < m)%nat -> wf_value (value e) ->
  const_calculate (evaluator n) e = const_calculate (evaluator m) e.
Proof.
  intros Hn Hm He. pose proof (const_calculate_normal n e Hn He) as Pn.
  pose proof (const_calculate_normal m e Hm He) as Pm.
  destruct (Nat.le_ge_cases n m); [symmetry|]; apply const_calculate_stable; try done; intros E;
    [by rewrite E in Pn|by rewrite E in Pm].
Qed.

End Evaluation.

(** Evaluating a constant always ends, however the names of the file refer
    to one another and however deep the expression is: within 259 nested calls,
    with an error or with a value in which no operator and no resolvable name
    is left and every number is within the width of its type.  A larger stack
    gives the same result. *)
Theorem constant_evaluation_total (lookup : string -> option ConstExpr) (e : ConstExpr)
    (Hlookup : forall name x, lookup name = Some x -> wf_value (value x))
    (He : wf_value (value e)) (Hnew : is_calculated e = false) :
  ((exists c, calculate lookup e = Ok c /\ normal lookup 257 (value c) /\ is_calculated c = true) \/
   (exists err, calculate lookup e = Err err)) /\
  forall n, (259 <= n)%nat -> const_calculate (frames lookup n) e = calculate lookup e.
Proof.
  assert (HS : (258 < STACK)%nat) by (unfold STACK; lia). unfold calculate.
  generalize dependent STACK. intros stack HS. split.
  - pose proof (const_calculate_normal lookup Hlookup stack e HS He) as H.
    destruct (const_calculate _ e) as [c|err|]; [left|right|done]; eauto.
  - intros n Hn. apply const_calculate_same; auto.
Qed.

(** A file with two constants that refer to each other and one that does not:
    [A = B + 1], [B = A], [C = 7]. *)
Definition demo_lookup (name : string) : option ConstExpr :=
  match name with
  | "A" => Some (new_expr (const_new (VName "B")) "+" (const_new (VByte 1)))
  | "B" => Some (const_new (VName "A"))
  | "C" => Some (const_new (VByte 7))
  | _ => None
  end.

Lemma demo_lookup_wf name x : demo_lookup name = Some x -> wf_value (value x).
Proof.
  assert (H1 : in_i 8 1 /\ in_i 8 7) by (unfold in_i; lia). destruct H1.
  unfold demo_lookup. intros H'. repeat case_match; simplify_eq; simpl;
    first [by apply wf_other | by apply wf_byte | apply wf_expr];
    [by apply wf_other | by apply wf_byte | by eexists].
Qed.

Lemma constant_evaluation_total_witness :
  calculate demo_lookup (const_new (VName "A")) = Err (CircularReference "A") /\
  forall n, (259 <= n)%nat ->
    const_calculate (frames demo_lookup n) (const_new (VName "A")) =
    calculate demo_lookup (const_new (VName "A")).
Proof.
  split; [vm_compute; reflexivity|].
  apply (constant_evaluation_total demo_lookup (const_new (VName "A")) demo_lookup_wf);
    [by apply wf_other|reflexivity].
Defined.
