(* ===== verification/ConstMeaning.v ===== *)
(** * ConstMeaning: integer constants denote what mathematics says

    The meaning of an integer constant expression as a kind and a number:
    unbounded arithmetic, with no meaning where the result does not fit the
    promoted type.  The evaluator computes exactly this meaning. *)

From stdpp Require Import base gmap strings pretty list.
From Stdlib Require Import ZArith Lia String Ascii.
From S2P Require Import Prelude Float ConstExpr ConstExprSpec.
Local Open Scope string_scope.
Local Open Scope Z_scope.

(** ** The meaning *)

Inductive Kind := KBool | KByte | KInt | KLong | KEnum.

#[export] Instance Kind_eq_dec : EqDecision Kind.
Proof. solve_decision. Defined.

Definition int_value (v : ValueType) : option (Kind * Z) :=
  match v with
  | VBool b => Some (KBool, Z.b2z b)
  | VByte z => Some (KByte, z)
  | VInt32 z => Some (KInt, z)
  | VInt64 z => Some (KLong, z)
  | VReference _ _ _ z => Some (KEnum, z)
  | _ => None
  end.

Definition width (k : Kind) : Z :=
  match k with KBool => 1 | KByte => 8 | KInt => 32 | KLong | KEnum => 64 end.

Definition fits (k : Kind) (z : Z) : bool :=
  match k with
  | KBool => (0 <=? z) && (z <=? 1)
  | _ => (- 2 ^ (width k - 1) <=? z) && (z <? 2 ^ (width k - 1))
  end.

Local Arguments fits : simpl never.

(** The type two operands are brought to: [int], or [long] when one is. *)
Definition join (a b : Kind) : Kind :=
  match a, b with KLong, _ | _, KLong | KEnum, _ | _, KEnum => KLong | _, _ => KInt end.

Definition is_enum (k : Kind) : bool := match k with KEnum => true | _ => false end.

Definition guard (k : Kind) (z : Z) : option (Kind * Z) := if fits k z then Some (k, z) else None.

Definition unary_meaning (op : string) (k : Kind) (z : Z) : option (Kind * Z) :=
  if String.eqb op "-" then
    match k with KBool => Some (k, z) | KEnum => None | _ => guard k (- z) end
  else if String.eqb op "~" then
    match k with KBool => Some (k, 1 - z) | KEnum => None | _ => Some (k, - z - 1) end
  else if String.eqb op "!" then
    match k with KEnum => None | _ => Some (KBool, Z.b2z (z =? 0)) end
  else Some (k, z).

Definition arith_meaning (o : Arith) (k : Kind) (a b : Z) : option (Kind * Z) :=
  match o with
  | Add => guard k (a + b)
  | Sub => guard k (a - b)
  | Mul => guard k (a * b)
  | Div => if b =? 0 then None else guard k (Z.quot a b)
  | Rem => if (b =? 0) || negb (fits k (Z.quot a b)) then None else Some (k, Z.rem a b)
  end.

(** The signed number a word of [w] bits stands for. *)
Definition signed (w z : Z) : Z := if z <? 2 ^ (w - 1) then z else z - 2 ^ w.

(** A shift moves by the magnitude of the amount, in the other direction when
    it is negative; bits may reach the sign position, not leave the word. *)
Definition shift_meaning (shl : bool) (k : Kind) (a b : Z) : option (Kind * Z) :=
  let left := if b <? 0 then negb shl else shl in
  let n := Z.abs b in
  if (width k <=? n) || (a <? 0) then None
  else if left then
    if a * 2 ^ n <? 2 ^ width k then Some (k, signed (width k) (a * 2 ^ n)) else None
  else Some (k, a / 2 ^ n).

Definition compare_meaning (o : Compare) (a b : Z) : bool :=
  match o with
  | CEq => a =? b | CNe => negb (a =? b) | CLe => a <=? b | CGe => b <=? a
  | CLt => a <? b | CGt => b <? a
  end.

Definition binary_meaning (o : Binop) (ka : Kind) (a : Z) (kb : Kind) (b : Z)
    : option (Kind * Z) :=
  let k := join ka kb in
  match o with
  | LogicalOr => if is_enum ka || is_enum kb then None
                 else Some (KBool, Z.b2z (negb (a =? 0) || negb (b =? 0)))
  | LogicalAnd => if is_enum ka || is_enum kb then None
                  else Some (KBool, Z.b2z (negb (a =? 0) && negb (b =? 0)))
  | Bits o => Some (k, bit_op o a b)
  | Comparison o => if is_enum ka || is_enum kb then None
                    else Some (KBool, Z.b2z (compare_meaning o a b))
  | Shift shl => shift_meaning shl k a b
  | Arithmetic o => arith_meaning o k a b
  end.

Section Meaning.
Context (lookup : string -> option ConstExpr).

(** The meaning of an expression, with names unfolded, when it is at most [h]
    levels high. *)
Fixpoint meaning (h : nat) (v : ValueType) : option (Kind * Z) :=
  match h with
  | O => None
  | S h' =>
      match v with
      | VName name => match lookup name with Some e => meaning h' (value e) | None => None end
      | VUnary op e =>
          match meaning h' (value e) with Some (k, z) => unary_meaning op k z | None => None end
      | VExpr l op r =>
          match meaning h' (value l), meaning h' (value r), binop op with
          | Some (ka, a), Some (kb, b), Some o => binary_meaning o ka a kb b
          | _, _, _ => None
          end
      | v => int_value v
      end
  end.

(** An evaluation shows a meaning: the number, or an error when there is none. *)
Definition shows (o : R ConstExpr) (m : option (Kind * Z)) : Prop :=
  match m with
  | Some (k, z) => exists c, o = Ok c /\ int_value (value c) = Some (k, z) /\ fits k z = true
  | None => exists e, o = Err e
  end.

Abbreviation evaluator := (frames lookup).

Lemma width_pos k : 0 < width k.
Proof. by destruct k. Qed.

Lemma fits_in_i k z : k <> KBool -> fits k z = true <-> in_i (width k) z.
Proof.
  intros Hk. unfold fits, in_i. destruct k; try done; rewrite andb_true_iff, Z.leb_le, Z.ltb_lt; done.
Qed.

Lemma to_i64_int r v k z : int_value v = Some (k, z) -> to_i64_body lookup r v = Ok z.
Proof. destruct v; simpl; intros; simplify_eq; done. Qed.

Lemma to_bool_int r v k z :
  int_value v = Some (k, z) -> is_enum k = false -> to_bool_body lookup r v = Ok (negb (z =? 0)).
Proof. destruct v; simpl; intros; simplify_eq; try done. by destruct b. Qed.

(** What two operands are promoted to. *)
Lemma promoted_int v w ka a kb b :
  int_value v = Some (ka, a) -> int_value w = Some (kb, b) ->
  let t := type_conversion (integral_promotion v) (integral_promotion w) in
  match join ka kb with
  | KInt => exists z, t = VInt32 z
  | _ => (exists z, t = VInt64 z) \/ (exists e n m z, t = VReference e n m z)
  end /\ (is_enum ka = false -> is_enum kb = false -> (exists z, t = VInt32 z) \/ (exists z, t = VInt64 z)).
Proof.
  destruct v; simpl; intros; simplify_eq; destruct w; simpl in *; simplify_eq;
    (split; [|intros ? ?; try done]); simpl; eauto 10.
Qed.

(** An operand brought to the promoted type keeps its number. *)
Lemma convert_int n e k z t :
  int_value (value e) = Some (k, z) -> fits k z = true ->
  (exists y, t = VInt32 y) /\ fits KInt z = true \/ (exists y, t = VInt64 y) \/
  (exists a b c y, t = VReference a b c y) ->
  exists c, r_convert_to (evaluator (S (S n))) e t = Ok c /\
    (forall r, to_i64_body lookup r (value c) = Ok z) /\
    match t with VInt32 _ => value c = VInt32 z | VInt64 _ => value c = VInt64 z | _ => True end.
Proof.
  intros Hv Hf Ht. cbn [r_convert_to frames]. unfold next_frame at 1, convert_to_body.
  cbn [r_convert_to r_to_i64 r_to_f64 r_to_bool next_frame].
  pose proof (to_i64_int (evaluator n) _ _ _ Hv) as Hi.
  assert (H32 : fits KInt z = true -> (i32_max <? z) || (z <? i32_min) = false).
  { rewrite (fits_in_i KInt) by done. unfold in_i, i32_max, i32_min. simpl.
    intros. repeat case_leb; simpl; lia || done. }
  destruct Ht as [[[y ->] Hs]|[[y ->]|(a & b & c & y & ->)]];
    destruct (value e) eqn:Ev; simpl in Hv; simplify_eq; simpl;
    rewrite ?(H32 Hs); eauto; exists e; rewrite Ev; simpl; auto.
Qed.
(** ** Arithmetic *)

Lemma quot_fits n a b :
  1 < n -> in_i n a -> b <> 0 -> in_i n (Z.quot a b) <-> ~ (a = - 2 ^ (n - 1) /\ b = -1).
Proof.
  unfold in_i. intros Hn Ha Hb. assert (0 < 2 ^ (n - 1)) by (apply Z.pow_pos_nonneg; lia).
  destruct (Z.eq_dec b (-1)) as [->|].
  { pose proof (Z.quot_opp_r a 1 ltac:(lia)) as Q. rewrite Z.quot_1_r in Q.
    change (- (1)) with (-1) in Q. lia. }
  split; [lia|]. intros _.
  destruct (Z.eq_dec b 1) as [->|]; [rewrite Z.quot_1_r; lia|].
  assert (Hq : Z.abs (Z.quot a b) <= Z.abs a / 2).
  { rewrite <- Z.quot_abs by done. rewrite Z.quot_div_nonneg by lia.
    apply Z.div_le_compat_l; lia. }
  assert (Z.abs a / 2 < 2 ^ (n - 1)) by (apply Z.div_lt_upper_bound; lia). lia.
Qed.

Lemma checked_i64_fits e z : checked_i64 e z = if fits KLong z then Ok z else Err e.
Proof.
  unfold checked_i64, fits, i64_min, i64_max. simpl.
  repeat case_leb; simpl; lia || done.
Qed.

Lemma guard_long e z :
  match guard KLong z with
  | Some (k, y) => k = KLong /\ checked_i64 e z = Ok y /\ fits KLong y = true
  | None => exists e', checked_i64 e z = Err e'
  end.
Proof. rewrite checked_i64_fits. unfold guard. destruct (fits KLong z) eqn:E; eauto. Qed.

(** [long]: the checked operation is the meaning. *)
Lemma int_op_long o a b :
  fits KLong a = true -> fits KLong b = true ->
  match arith_meaning o KLong a b with
  | Some (k, z) => k = KLong /\ int_op o a b = Ok z /\ fits KLong z = true
  | None => exists e, int_op o a b = Err e
  end.
Proof.
  intros Ha Hb. destruct o; cbn [arith_meaning int_op]; try apply guard_long.
  - destruct (b =? 0) eqn:E0; [eauto|apply guard_long].
  - destruct (Z.eqb_spec b 0) as [|Hb0]; simpl; [eauto|].
    pose proof (quot_fits 64 a b ltac:(lia)) as Hq. rewrite <- !(fits_in_i KLong) in Hq by done.
    specialize (Hq Ha Hb0).
    assert (Hr : fits KLong (Z.rem a b) = true).
    { rewrite (fits_in_i KLong) in * by done. by apply (rem_range 64). }
    unfold i64_min. destruct (fits KLong (a ÷ b)) eqn:E; simpl.
    + destruct ((a =? _) && _) eqn:E'; [|auto]. rewrite andb_true_iff, !Z.eqb_eq in E'.
      destruct (proj1 Hq eq_refl); done.
    + destruct ((a =? _) && _) eqn:E'; [eauto|]. rewrite andb_false_iff, !Z.eqb_neq in E'.
      assert (false = true) by (apply Hq; lia). done.
Qed.

(** [int]: the [long] operation followed by the range check is the meaning. *)
Definition int_check (o : Arith) (a b z : Z) : R ConstExpr :=
  if (i32_max <? z) || (z <? i32_min)
     || (match o with Rem => true | _ => false end && (a =? i32_min) && (b =? -1))
  then Err (Overflows (arith_text o))
  else Ok (const_new (VInt32 z)).

Lemma fits_int z : fits KInt z = negb ((i32_max <? z) || (z <? i32_min)).
Proof. unfold fits, i32_max, i32_min. simpl. repeat case_leb; simpl; lia || done. Qed.

Lemma fits_long z : - 2 ^ 63 <= z < 2 ^ 63 -> fits KLong z = true.
Proof. by rewrite (fits_in_i KLong). Qed.

Lemma guard_int o a b e z :
  o <> Rem -> - 2 ^ 63 <= z < 2 ^ 63 ->
  shows (let? z := checked_i64 e z in int_check o a b z) (guard KInt z).
Proof.
  intros Ho Hz. rewrite checked_i64_fits, fits_long by done. unfold guard, int_check.
  rewrite fits_int. destruct o; try done; simpl; rewrite orb_false_r;
    (destruct (_ || _) eqn:E; simpl; [eauto|]);
    (eexists; split; [done|]); rewrite fits_int, E; done.
Qed.

Lemma int_op_int o a b :
  fits KInt a = true -> fits KInt b = true ->
  shows (let? z := int_op o a b in int_check o a b z) (arith_meaning o KInt a b).
Proof.
  intros Ha Hb. pose proof Ha as Ha'. rewrite (fits_in_i KInt) in Ha', Hb by done.
  pose proof (quot_fits 32 a b ltac:(lia) Ha') as Hq.
  assert (Hd : b <> 0 -> - 2 ^ 63 <= Z.quot a b < 2 ^ 63).
  { intros Hb0. assert (Hl : in_i 64 a) by (revert Ha'; apply in_i_widen; simpl; lia).
    apply (quot_fits 64); [lia|done|done|]. unfold in_i in Ha'. simpl in Ha'. lia. }
  unfold in_i in Ha', Hb. simpl in Ha', Hb.
  destruct o; cbn [arith_meaning int_op]; try (apply guard_int; [done|nia]).
  - destruct (Z.eqb_spec b 0) as [|Hb0]; [by eexists|]. apply guard_int; auto.
  - destruct (Z.eqb_spec b 0) as [|Hb0]; [by eexists|]. simpl.
    rewrite (proj2 (Z.eqb_neq a i64_min)) by (unfold i64_min; lia). simpl. unfold int_check.
    assert (Hr : fits KInt (Z.rem a b) = true)
      by (rewrite (fits_in_i KInt) by done; apply (rem_range 32); [simpl; lia|unfold in_i; simpl; lia]).
    pose proof Hr as Hr'. rewrite fits_int, negb_true_iff in Hr. rewrite Hr. cbn [orb andb].
    specialize (Hq Hb0). change (- 2 ^ (32 - 1)) with i32_min in Hq.
    destruct (fits KInt (a ÷ b)) eqn:E; cbn [negb].
    + rewrite (fits_in_i KInt) in E by done. destruct (_ && _) eqn:E'; [|by eexists].
      rewrite andb_true_iff, !Z.eqb_eq in E'. by destruct (proj1 Hq E).
    + destruct (_ && _) eqn:E'; [by eexists|]. rewrite andb_false_iff, !Z.eqb_neq in E'.
      assert (in_i 32 (a ÷ b)) by (apply Hq; lia).
      rewrite <- (fits_in_i KInt) in H by done. congruence.
Qed.

(** ** Shifts *)

Lemma leading_zeros_spec w a n :
  0 <= n < w -> 0 <= a -> (leading_zeros w a <? n) = negb (a * 2 ^ n <? 2 ^ w).
Proof.
  intros Hn Ha. unfold leading_zeros. destruct (Z.eqb_spec a 0) as [->|Ha0].
  { rewrite Z.mul_0_l. pose proof (Z.pow_pos_nonneg 2 w).
    destruct (Z.ltb_spec 0 (2 ^ w)); [|lia]. apply Z.ltb_ge. lia. }
  pose proof (Z.log2_mul_pow2 a n ltac:(lia) ltac:(lia)) as Hl.
  pose proof (Z.log2_lt_pow2 (a * 2 ^ n) w) as Hp.
  assert (0 < a * 2 ^ n) by (apply Z.mul_pos_pos; [lia|apply Z.pow_pos_nonneg; lia]).
  destruct (Z.ltb_spec (a * 2 ^ n) (2 ^ w)); simpl; [apply Z.ltb_ge|apply Z.ltb_lt]; lia.
Qed.

Lemma wrap_signed w z : 0 < w -> 0 <= z < 2 ^ w -> wrap_i w z = signed w z.
Proof.
  intros Hw Hz. unfold wrap_i, signed. pose proof (pow2_half w Hw).
  destruct (Z.ltb_spec z (2 ^ (w - 1))).
  - rewrite Z.mod_small; lia.
  - replace (z + 2 ^ (w - 1)) with (z - 2 ^ (w - 1) + 1 * 2 ^ w) by lia.
    rewrite Z.mod_add, Z.mod_small; lia.
Qed.

Lemma fits_wrap k z : k <> KBool -> fits k (wrap_i (width k) z) = true.
Proof. intros Hk. rewrite fits_in_i by done. apply wrap_i_range. by destruct k. Qed.

(** Of a promoted kind, the type it stands for. *)
Definition promoted_as (k : Kind) (t : ValueType) : Prop :=
  match k with
  | KInt => exists z, t = VInt32 z
  | _ => (exists z, t = VInt64 z) \/ (exists e n m z, t = VReference e n m z)
  end.

Lemma promoted_width k t :
  k = KInt \/ k = KLong -> promoted_as k t ->
  (match t with VInt64 _ | VReference _ _ _ _ => 64 | _ => 32 end) = width k.
Proof.
  intros [-> | ->]; [intros [? ->]|intros [[? ->]|(? & ? & ? & ? & ->)]]; done.
Qed.

Lemma promoted_shift k t z text :
  k = KInt \/ k = KLong -> promoted_as k t ->
  match t with
  | VInt32 _ => Ok (const_new (VInt32 (wrap_i 32 z)))
  | VInt64 _ => Ok (const_new (VInt64 z))
  | VByte _ => Ok (const_new (VByte (wrap_i 8 z)))
  | VReference _ _ _ _ => Ok (const_new (VInt64 z))
  | _ => Err (NotAnInteger text)
  end = Ok (const_new (match k with KInt => VInt32 (wrap_i 32 z) | _ => VInt64 z end)) :> R ConstExpr.
Proof.
  intros [-> | ->]; [intros [? ->]|intros [[? ->]|(? & ? & ? & ? & ->)]]; done.
Qed.

Lemma shift_meaning_shown n shl l r k ka a kb b t :
  int_value (value l) = Some (ka, a) -> int_value (value r) = Some (kb, b) ->
  k = KInt \/ k = KLong -> promoted_as k t -> fits k a = true ->
  shows (shift_op (evaluator (S n)) shl l r t) (shift_meaning shl k a b).
Proof.
  intros Hl Hr Hk Ht Ha. unfold shift_op. cbn [r_to_i64 frames next_frame].
  rewrite (to_i64_int _ _ _ _ Hl), (to_i64_int _ _ _ _ Hr). cbv zeta.
  rewrite (promoted_width k) by done. unfold shift_meaning.
  destruct (Z.leb_spec (width k) (Z.abs b)) as [|Hb]; [by eexists|].
  destruct (Z.ltb_spec a 0) as [|Ha0]; [by eexists|]. cbn [orb].
  assert (Hka : k <> KBool) by (by destruct Hk; subst).
  rewrite fits_in_i in Ha by done. assert (Hwk : 0 < width k) by (by destruct k).
  pose proof (pow2_half _ Hwk) as Hhalf. unfold in_i in Ha.
  rewrite wrap_u_small by (unfold in_u; lia).
  destruct (if b <? 0 then negb shl else shl).
  - cbn [andb]. rewrite leading_zeros_spec by lia.
    destruct (Z.ltb_spec (a * 2 ^ Z.abs b) (2 ^ width k)) as [Hlt|]; [|by eexists]. cbn [negb].
    rewrite (promoted_shift k) by done. rewrite Z.shiftl_mul_pow2 by lia.
    assert (0 <= a * 2 ^ Z.abs b) by (apply Z.mul_nonneg_nonneg; lia).
    rewrite <- (wrap_signed (width k)) by lia.
    destruct Hk as [-> | ->]; eexists; (split; [reflexivity|]); simpl;
      (split; [|by apply (fits_wrap KInt) || by apply (fits_wrap KLong)]); [|done].
    rewrite (wrap_i_small 64); [done|lia|]. unfold in_i. simpl in *. lia.
  - cbn [andb]. rewrite (promoted_shift k) by done. rewrite Z.shiftr_div_pow2 by lia.
    assert (Hd : 0 <= a / 2 ^ Z.abs b <= a).
    { pose proof (Z.pow_pos_nonneg 2 (Z.abs b)). split; [apply Z.div_pos; lia|].
      apply Z.div_le_upper_bound; nia. }
    assert (Hi : in_i (width k) (a / 2 ^ Z.abs b)) by (unfold in_i; lia).
    destruct Hk as [-> | ->]; eexists; (split; [reflexivity|]); rewrite fits_in_i by done;
      (split; [|done]); simpl; [|done]. by rewrite (wrap_i_small 32).
Qed.

(** ** The binary operators *)

Lemma fits_widen k k' z : width k <= width k' -> k' <> KBool -> fits k z = true -> fits k' z = true.
Proof.
  intros Hw Hk'. rewrite (fits_in_i k') by done. destruct (decide (k = KBool)) as [->|Hk].
  - unfold fits. rewrite andb_true_iff, !Z.leb_le. intros. apply (in_i_widen 2).
    + destruct k'; simpl; done || lia.
    + unfold in_i. simpl. lia.
  - rewrite fits_in_i by done. apply in_i_widen. destruct k; simpl in *; done || lia.
Qed.

Lemma fits_join_l ka kb z : fits ka z = true -> fits (join ka kb) z = true.
Proof. destruct ka, kb; apply fits_widen; simpl; done || lia. Qed.

Lemma fits_join_r ka kb z : fits kb z = true -> fits (join ka kb) z = true.
Proof. destruct ka, kb; apply fits_widen; simpl; done || lia. Qed.

Section Operands.
Context (n : nat) (l r : ConstExpr) (ka kb : Kind) (a b : Z).
Hypothesis Hl : int_value (value l) = Some (ka, a).
Hypothesis Hr : int_value (value r) = Some (kb, b).
Hypothesis Fl : fits ka a = true.
Hypothesis Fr : fits kb b = true.

Let t := type_conversion (integral_promotion (value l)) (integral_promotion (value r)).

Lemma join_kind : join ka kb = KInt \/ join ka kb = KLong.
Proof. destruct ka, kb; auto. Qed.

Lemma promoted_join : promoted_as (join ka kb) t.
Proof.
  destruct (promoted_int _ _ _ _ _ _ Hl Hr) as [H _]. exact H.
Qed.

Lemma convert_operands :
  exists cl cr,
    r_convert_to (evaluator (S (S n))) l t = Ok cl /\ r_convert_to (evaluator (S (S n))) r t = Ok cr /\
    (forall r, to_i64_body lookup r (value cl) = Ok a) /\
    (forall r, to_i64_body lookup r (value cr) = Ok b) /\
    match t with VInt32 _ => value cl = VInt32 a | VInt64 _ => value cl = VInt64 a | _ => True end.
Proof.
  assert (H : forall e k z, int_value (value e) = Some (k, z) -> fits k z = true ->
     fits (join ka kb) z = true -> exists c, r_convert_to (evaluator (S (S n))) e t = Ok c /\
    (forall r, to_i64_body lookup r (value c) = Ok z) /\
    match t with VInt32 _ => value c = VInt32 z | VInt64 _ => value c = VInt64 z | _ => True end).
  { intros e k z He Hf Hj. apply (convert_int _ _ k); [done|done|].
    pose proof promoted_join as Hp. destruct join_kind as [E|E]; rewrite E in Hp, Hj; simpl in Hp; auto. }
  destruct (H l ka a Hl Fl (fits_join_l _ _ _ Fl)) as (cl & ? & ? & ?).
  destruct (H r kb b Hr Fr (fits_join_r _ _ _ Fr)) as (cr & ? & ? & _). eauto 10.
Qed.

Lemma basic_op_meaning o :
  shows (arithmetic_basic_op (evaluator (S (S n))) o l r t) (arith_meaning o (join ka kb) a b).
Proof.
  destruct convert_operands as (cl & cr & Hcl & Hcr & Ha & Hb & _).
  unfold arithmetic_basic_op. rewrite Hcl, Hcr. cbn [r_to_i64 frames next_frame].
  rewrite Ha, Hb. pose proof promoted_join as Hp.
  pose proof (fits_join_l ka kb a Fl) as Fa. pose proof (fits_join_r ka kb b Fr) as Fb.
  destruct join_kind as [E|E]; rewrite E in *.
  - destruct Hp as [z ->]. by apply int_op_int.
  - pose proof (int_op_long o a b Fa Fb) as H.
    assert (Hi : shows (let? z := int_op o a b in Ok (const_new (VInt64 z))) (arith_meaning o KLong a b)).
    { destruct (arith_meaning o KLong a b) as [[k z]|]; [destruct H as (-> & -> & ?)|destruct H as [e ->]];
        eexists; done. }
    destruct Hp as [[z ->]|(? & ? & ? & ? & ->)]; exact Hi.
Qed.

Lemma bit_op_meaning o :
  shows (arithmetic_bit_op (evaluator (S (S n))) o l r t) (Some (join ka kb, bit_op o a b)).
Proof.
  pose proof (to_i64_int (evaluator (S n)) _ _ _ Hl) as Ha.
  pose proof (to_i64_int (evaluator (S n)) _ _ _ Hr) as Hb.
  unfold arithmetic_bit_op.
  change (r_to_i64 (evaluator (S (S n)))) with (to_i64_body lookup (evaluator (S n))). rewrite Ha, Hb.
  pose proof promoted_join as Hp.
  pose proof (fits_join_l ka kb a Fl) as Fa. pose proof (fits_join_r ka kb b Fr) as Fb.
  destruct join_kind as [E|E]; rewrite E in *; rewrite fits_in_i in Fa, Fb by done;
    pose proof (in_i_bit_op o _ _ _ (width_pos _) Fa Fb) as Hz.
  - destruct Hp as [z ->]. eexists. split; [reflexivity|]. simpl.
    rewrite (wrap_i_small 32) by done. split; [done|]. by rewrite fits_in_i.
  - destruct Hp as [[z ->]|(? & ? & ? & ? & ->)]; eexists; (split; [reflexivity|]); simpl;
      (split; [done|]); by rewrite fits_in_i.
Qed.

Lemma compare_op_meaning o : compare_op o (Some (a ?= b)) = compare_meaning o a b.
Proof.
  destruct (Z.compare_spec a b) as [->| |], o; simpl; symmetry;
    rewrite ?Z.eqb_refl, ?negb_true_iff, ?Z.eqb_eq, ?Z.eqb_neq, ?Z.leb_le, ?Z.leb_gt, ?Z.ltb_lt, ?Z.ltb_ge;
    try done; lia.
Qed.

Lemma comparison_meaning o :
  is_enum ka = false -> is_enum kb = false ->
  shows (let? l' := r_convert_to (evaluator (S (S n))) l t in
         let? r' := r_convert_to (evaluator (S (S n))) r t in
         let? c := r_partial_cmp (evaluator (S (S n))) (value l') (value r') in
         Ok (const_new (VBool (compare_op o c))))
    (Some (KBool, Z.b2z (compare_meaning o a b))).
Proof.
  intros Ea Eb. destruct convert_operands as (cl & cr & -> & -> & Ha & Hb & Ht).
  destruct (promoted_int _ _ _ _ _ _ Hl Hr) as [_ Hp]. specialize (Hp Ea Eb). fold t in Hp.
  assert (Hc : r_partial_cmp (evaluator (S (S n))) (value cl) (value cr) = Ok (Some (a ?= b))).
  { pose proof promoted_join as Hj. pose proof (fits_join_r ka kb b Fr) as Fb.
    destruct Hp as [[z Ez]|[z Ez]]; rewrite Ez in Ht, Hj; rewrite Ht;
      cbn [r_partial_cmp r_to_i64 frames next_frame partial_cmp_body]; rewrite Hb; simpl; [|done].
    destruct join_kind as [E|E]; rewrite E in *; [|destruct Hj as [[? ?]|(? & ? & ? & ? & ?)]; done].
    rewrite fits_in_i in Fb by done. by rewrite (wrap_i_small 32). }
  rewrite Hc, compare_op_meaning. eexists. split; [reflexivity|]. split; [done|].
  by destruct (compare_meaning o a b).
Qed.

Lemma apply_binop_meaning op o :
  binop op = Some o -> shows (apply_binop (evaluator (S (S n))) op l r) (binary_meaning o ka a kb b) \/
  ((is_enum ka = true \/ is_enum kb = true) /\ binary_meaning o ka a kb b = None).
Proof.
  intros Ho. unfold apply_binop. rewrite Ho. fold t.
  destruct (is_enum ka || is_enum kb) eqn:En.
  - destruct o; cbn [binary_meaning]; rewrite ?En; try (by right; rewrite <- orb_true_iff); left.
    + apply bit_op_meaning.
    + apply (shift_meaning_shown _ _ _ _ _ ka _ kb); auto using join_kind, promoted_join, fits_join_l.
    + apply basic_op_meaning.
  - left. pose proof En as Hen. apply orb_false_iff in En as [Ea Eb].
    pose proof (to_bool_int (evaluator (S n)) _ _ _ Hl Ea) as Ba.
    pose proof (to_bool_int (evaluator (S n)) _ _ _ Hr Eb) as Bb.
    change (to_bool_body lookup (evaluator (S n))) with (r_to_bool (evaluator (S (S n)))) in Ba, Bb.
    destruct o; cbn [binary_meaning]; rewrite ?Hen.
    + rewrite Ba. destruct (negb (a =? 0)); [by eexists|]. rewrite Bb.
      eexists; repeat split. by destruct (b =? 0).
    + rewrite Ba. destruct (negb (a =? 0)); [|by eexists]. rewrite Bb.
      eexists; repeat split. by destruct (b =? 0).
    + apply bit_op_meaning.
    + by apply comparison_meaning.
    + apply (shift_meaning_shown _ _ _ _ _ ka _ kb); auto using join_kind, promoted_join, fits_join_l.
    + apply basic_op_meaning.
Qed.

End Operands.

(** ** The unary operators *)

Lemma checked_neg_fits k z :
  k <> KBool -> fits k z = true ->
  checked_neg (- 2 ^ (width k - 1)) z =
  if fits k (- z) then Ok (- z) else Err (CannotNegate z).
Proof.
  intros Hk Hz. rewrite fits_in_i in Hz by done. unfold in_i in Hz. unfold checked_neg.
  destruct (Z.eqb_spec z (- 2 ^ (width k - 1))) as [E|E]; destruct (fits k (- z)) eqn:F; try done.
  - rewrite fits_in_i in F by done. unfold in_i in F. lia.
  - exfalso. assert (in_i (width k) (- z)) as H by (unfold in_i; lia).
    rewrite <- fits_in_i in H by done. congruence.
Qed.

Lemma apply_unary_meaning n op e k z :
  int_value (value e) = Some (k, z) -> fits k z = true ->
  shows (apply_unary (evaluator (S (S n))) op e) (unary_meaning op k z).
Proof.
  intros He Hf. unfold apply_unary, unary_meaning.
  destruct (String.eqb op "-"); [|destruct (String.eqb op "~"); [|destruct (String.eqb op "!")]].
  - destruct (value e) eqn:Ev; simpl in He; simplify_eq; simpl.
    + eexists. split; [reflexivity|done].
    + rewrite (checked_neg_fits KByte) by done. unfold guard.
      destruct (fits KByte (- z)) eqn:E; [eexists; split; [reflexivity|done]|by eexists].
    + rewrite (checked_neg_fits KInt) by done. unfold guard.
      destruct (fits KInt (- z)) eqn:E; [eexists; split; [reflexivity|done]|by eexists].
    + rewrite (checked_neg_fits KLong) by done. unfold guard.
      destruct (fits KLong (- z)) eqn:E; [eexists; split; [reflexivity|done]|by eexists].
    + by eexists.
  - destruct (value e) eqn:Ev; simpl in He; simplify_eq; simpl; try (by eexists);
      (eexists; split; [reflexivity|]); simpl.
    + by destruct b.
    + unfold Z.lnot, Z.pred. rewrite fits_in_i in * by done. unfold in_i in *. simpl in *.
      split; [do 2 f_equal|]; lia.
    + unfold Z.lnot, Z.pred. rewrite fits_in_i in * by done. unfold in_i in *. simpl in *.
      split; [do 2 f_equal|]; lia.
    + unfold Z.lnot, Z.pred. rewrite fits_in_i in * by done. unfold in_i in *. simpl in *.
      split; [do 2 f_equal|]; lia.
  - destruct (value e) eqn:Ev; simpl in He; simplify_eq; simpl; try (by eexists);
      (eexists; split; [reflexivity|]); simpl; [by destruct b|..];
      rewrite negb_involutive; (split; [done|]); by destruct (_ =? 0).
  - destruct (value e) eqn:Ev; simpl in He; simplify_eq; simpl;
      (eexists; split; [reflexivity|]; by rewrite Ev).
Qed.

(** ** Heights *)

(** An expression denotes a number by a derivation of an exact height. *)
Inductive denotes : nat -> ValueType -> Kind -> Z -> Prop :=
| den_int v k z : int_value v = Some (k, z) -> denotes 1 v k z
| den_name name e h k z :
    lookup name = Some e -> denotes h (value e) k z -> denotes (S h) (VName name) k z
| den_unary op e h k z k' z' :
    denotes h (value e) k z -> unary_meaning op k z = Some (k', z') ->
    denotes (S h) (VUnary op e) k' z'
| den_expr l op r o hl hr ka a kb b k z :
    denotes hl (value l) ka a -> denotes hr (value r) kb b -> binop op = Some o ->
    binary_meaning o ka a kb b = Some (k, z) -> denotes (S (max hl hr)) (VExpr l op r) k z.

Lemma meaning_denotes h v k z :
  meaning h v = Some (k, z) -> exists a, (a <= h)%nat /\ denotes a v k z.
Proof.
  revert v k z. induction h as [|h IH]; intros v k z; simpl; [done|].
  destruct v; intros H; try (exists 1%nat; split; [lia|by apply den_int]).
  - destruct (lookup name) as [e|] eqn:E; [|done]. apply IH in H as (a & Ha & Hd).
    exists (S a). split; [lia|]. eapply den_name; eauto.
  - destruct (meaning h (value lhs)) as [[ka a]|] eqn:El; [|done].
    destruct (meaning h (value rhs)) as [[kb b]|] eqn:Er; [|done].
    destruct (binop operator) as [o|] eqn:Eo; [|done].
    apply IH in El as (hl & ? & Hl), Er as (hr & ? & Hr).
    exists (S (max hl hr)). split; [lia|]. eapply den_expr; eauto.
  - destruct (meaning h (value expr)) as [[k' z']|] eqn:E; [|done].
    apply IH in E as (a & Ha & Hd). exists (S a). split; [lia|]. eapply den_unary; eauto.
Qed.

Lemma denotes_fun a v k z b k' z' : denotes a v k z -> denotes b v k' z' -> a = b /\ k = k' /\ z = z'.
Proof.
  intros H. revert b k' z'.
  induction H as [v k z Hv|name e h k z Hn _ IH|op e h k z k1 z1 _ IH Hu|
                  l op r o hl hr ka x kb y k z _ IHl _ IHr Ho Hm];
    intros b' k' z' H'; inversion H'; subst; simpl in *; simplify_eq; try done.
  - by edestruct IH as (-> & -> & ->).
  - edestruct IH as (? & ? & ?); [done|]. subst. split; [done|]. split; congruence.
  - edestruct IHl as (? & ? & ?); [done|]. edestruct IHr as (? & ? & ?); [done|]. subst.
    split; [done|]. split; congruence.
Qed.

(** ** The evaluator computes the meaning *)

Hypothesis lookup_wf : forall name e, lookup name = Some e -> wf_value (value e).

Lemma wf_fits v k z : wf_value v -> int_value v = Some (k, z) -> fits k z = true.
Proof.
  intros Hv Hi. destruct Hv; simpl in Hi; simplify_eq; try (by rewrite fits_in_i).
  destruct v; try done. simpl in Hi. simplify_eq. by destruct b.
Qed.

Lemma shows_some o k z :
  shows o (Some (k, z)) -> exists c, o = Ok c /\ int_value (value c) = Some (k, z) /\ fits k z = true.
Proof. done. Qed.

Local Arguments frames : simpl never.

(** A number that is denoted is computed, whatever names are on the path of
    resolution, as long as they denote higher up. *)
Lemma denotes_calculated a v k z :
  denotes a v k z -> wf_value v -> forall n d V,
  (a + 1 < n)%nat -> d + Z.of_nat a <= 257 ->
  (forall m b k z, m ∈ V -> denotes b (VName m) k z -> (a < b)%nat) ->
  exists c, fst (r_calculate (evaluator n) v d V) = Ok c /\
    int_value (value c) = Some (k, z) /\ fits k z = true.
Proof.
  induction 1 as [v k z Hv|name e h k z Hn Hd IH|op e h k z k' z' Hd IH Hu|
                  l op r o hl hr ka a kb b k z Hl IHl Hr IHr Ho Hm];
    intros Hwf n d V Hh Hdep HV; (destruct n as [|[|[|n]]]; [lia..|]);
    change (r_calculate (evaluator (S (S (S n))))) with (calculate_body lookup (evaluator (S (S n))));
    unfold calculate_body; (rewrite (proj2 (Z.ltb_ge MAX_EXPR_DEPTH d)) by (unfold MAX_EXPR_DEPTH; lia)).
  - exists (const_new v). pose proof (wf_fits _ _ _ Hwf Hv). by destruct v.
  - unfold bind, get, put. simpl. rewrite bool_decide_eq_false_2.
    2:{ intros HnV. specialize (HV name (S h) k z HnV (den_name _ _ _ _ _ Hn Hd)). lia. }
    rewrite Hn. apply (IH (lookup_wf _ _ Hn) (S (S n)) (d + 1) ({[name]} ∪ V)); [lia|lia|].
    intros m b k0 z0 [->%elem_of_singleton|HmV]%elem_of_union Hb.
    + destruct (denotes_fun _ _ _ _ _ _ _ Hb (den_name _ _ _ _ _ Hn Hd)). lia.
    + specialize (HV _ _ _ _ HmV Hb). lia.
  - inversion Hwf; subst; [|done].
    edestruct (IH ltac:(done) (S (S n)) (d + 1) V) as (c & Hc & Hi & Hf); [lia|lia| |].
    { intros m b k0 z0 HmV Hb. specialize (HV _ _ _ _ HmV Hb). lia. }
    unfold bind. destruct (r_calculate _ _ _ _) as [o V']. simpl in Hc. subst o. simpl.
    apply shows_some. rewrite <- Hu. by apply apply_unary_meaning.
  - inversion Hwf; subst; [|done]. unfold bind, get, lift, calc_expr. cbn [fst].
    edestruct (IHl ltac:(done) (S (S n)) (d + 1) V) as (cl & Hcl & Hil & Hfl); [lia|lia| |].
    { intros m h k0 z0 HmV Hb. specialize (HV _ _ _ _ HmV Hb). lia. }
    edestruct (IHr ltac:(done) (S (S n)) (d + 1) V) as (cr & Hcr & Hir & Hfr); [lia|lia| |].
    { intros m h k0 z0 HmV Hb. specialize (HV _ _ _ _ HmV Hb). lia. }
    rewrite Hcl, Hcr. apply shows_some. rewrite <- Hm.
    by destruct (apply_binop_meaning n cl cr ka kb a b Hil Hir Hfl Hfr op o Ho) as [|[_ ?]]; [|congruence].
Qed.

(** Integer expressions without enumerators, all of whose names are defined. *)
Inductive plain : ValueType -> Prop :=
| plain_int v k z : int_value v = Some (k, z) -> is_enum k = false -> fits k z = true -> plain v
| plain_name name : is_Some (lookup name) -> plain (VName name)
| plain_unary op e : plain (value e) -> plain (VUnary op e)
| plain_expr l op r : plain (value l) -> plain (value r) -> is_Some (binop op) -> plain (VExpr l op r).

Lemma unary_not_enum op k z k' z' :
  unary_meaning op k z = Some (k', z') -> is_enum k = false -> is_enum k' = false.
Proof. unfold unary_meaning, guard. intros H Hk. repeat case_match; simplify_eq; done. Qed.

Lemma binary_not_enum o ka a kb b k z : binary_meaning o ka a kb b = Some (k, z) -> is_enum k = false.
Proof.
  assert (Hj : is_enum (join ka kb) = false) by (by destruct ka, kb).
  unfold binary_meaning, shift_meaning, arith_meaning, guard.
  intros H. repeat case_match; simplify_eq; done.
Qed.

Hypothesis lookup_plain : forall name e, lookup name = Some e -> plain (value e).

Lemma calculated_meaning h n v d V c :
  plain v -> (h + 1 < n)%nat -> d + Z.of_nat h = 257 ->
  fst (r_calculate (evaluator n) v d V) = Ok c ->
  exists k z, int_value (value c) = Some (k, z) /\ fits k z = true /\ is_enum k = false /\
    meaning h v = Some (k, z).
Proof.
  revert n v d V c. induction h as [|h IH]; intros n v d V c Hv Hn Hd; (destruct n as [|n]; [lia|]);
    change (r_calculate (evaluator (S n))) with (calculate_body lookup (evaluator n));
    unfold calculate_body.
  { rewrite (proj2 (Z.ltb_lt MAX_EXPR_DEPTH d)) by (unfold MAX_EXPR_DEPTH; lia). done. }
  rewrite (proj2 (Z.ltb_ge MAX_EXPR_DEPTH d)) by (unfold MAX_EXPR_DEPTH; lia).
  destruct n as [|[|n]]; [lia..|].
  destruct Hv as [v k z Hi He Hf|name Hs|op e He|l op r Hl Hr [o Ho]].
  - destruct v; simpl in Hi; simplify_eq; simpl; intros; simplify_eq; simpl; eauto 10.
  - unfold bind, get, put. simpl. case_bool_decide; [done|]. simpl.
    destruct (lookup name) as [e|] eqn:E; [|by destruct Hs]. intros Hc.
    exact (IH (S (S n)) _ (d + 1) _ _ (lookup_plain _ _ E) ltac:(lia) ltac:(lia) Hc).
  - unfold bind. destruct (r_calculate _ _ _ _) as [[e'| |] V'] eqn:Er; simpl; try done.
    destruct (IH (S (S n)) (value e) (d + 1) V e' He ltac:(lia) ltac:(lia)) as (k & z & Hi & Hf & Hk & Hm);
      [by rewrite Er|]. rewrite Hm. intros Hc.
    pose proof (apply_unary_meaning n op e' k z Hi Hf) as Hu. rewrite Hc in Hu.
    destruct (unary_meaning op k z) as [[k' z']|] eqn:Eu; [|by destruct Hu].
    destruct Hu as (c' & ? & ? & ?). simplify_eq. eauto 10 using unary_not_enum.
  - unfold bind, get, lift, calc_expr. cbn [fst].
    destruct (fst (r_calculate _ (value l) _ _)) as [l'| |] eqn:El; try done.
    destruct (fst (r_calculate _ (value r) _ _)) as [r'| |] eqn:Er; try done. intros Hc.
    destruct (IH (S (S n)) _ (d + 1) _ _ Hl ltac:(lia) ltac:(lia) El) as (ka & a & Hia & Hfa & Hka & Hma).
    destruct (IH (S (S n)) _ (d + 1) _ _ Hr ltac:(lia) ltac:(lia) Er) as (kb & b & Hib & Hfb & Hkb & Hmb).
    simpl. rewrite Hma, Hmb, Ho.
    destruct (apply_binop_meaning n l' r' ka kb a b Hia Hib Hfa Hfb op o Ho) as [Hs|[[|] _]];
      [|congruence..].
    rewrite Hc in Hs. destruct (binary_meaning o ka a kb b) as [[k z]|] eqn:Eb; [|by destruct Hs].
    destruct Hs as (c' & ? & ? & ?). simplify_eq. eauto 10 using binary_not_enum.
Qed.

End Meaning.

(** C6: an integer constant expression evaluates to the number it denotes in
    mathematics, under the names of its file, and to nothing else: whatever
    has a meaning at most [MAX_EXPR_DEPTH] levels deep is computed (no
    reference is mistaken for a cycle, no operator overflows), and whatever is
    computed is the meaning, so every overflow, division by zero, misplaced
    shift and real cycle is an error. *)
Theorem integer_constants_exact (lookup : string -> option ConstExpr) (v : ValueType)
    (Hlookup : forall name x, lookup name = Some x -> wf_value (value x)) (Hv : wf_value v) :
  (forall k z, meaning lookup 257 v = Some (k, z) ->
     exists c, calculate lookup (const_new v) = Ok c /\ int_value (value c) = Some (k, z)) /\
  ((forall name x, lookup name = Some x -> plain lookup (value x)) -> plain lookup v ->
   forall c, calculate lookup (const_new v) = Ok c ->
     exists k z, int_value (value c) = Some (k, z) /\ meaning lookup 257 v = Some (k, z)).
Proof.
  unfold calculate, const_calculate, value_calculate. simpl is_calculated. cbv iota.
  assert (HS : (258 < STACK)%nat) by (unfold STACK; lia).
  generalize dependent STACK. intros stack HS. split.
  - intros k z (a & Ha & Hd)%meaning_denotes.
    destruct (denotes_calculated lookup Hlookup a v k z Hd Hv stack 0 ∅) as (c & Hc & Hi & _);
      [lia|lia|set_solver|].
    simpl value. rewrite Hc. eexists. split; [reflexivity|]. exact Hi.
  - intros Hp Hpv c. simpl value.
    destruct (fst (r_calculate _ v 0 ∅)) as [x| |] eqn:E; intros Hc; simplify_eq.
    destruct (calculated_meaning lookup Hp 257 stack v 0 ∅ x Hpv ltac:(lia) ltac:(lia) E)
      as (k & z & Hi & _ & _ & Hm). eauto.
Qed.

Lemma demo_meaning :
  meaning demo_lookup 257 (VExpr (const_new (VName "C")) "<<" (const_new (VByte 28))) =
  Some (KInt, 1879048192).
Proof. vm_compute. reflexivity. Qed.

Lemma integer_constants_exact_witness :
  exists c,
    calculate demo_lookup (new_expr (const_new (VName "C")) "<<" (const_new (VByte 28))) = Ok c /\
    int_value (value c) = Some (KInt, 1879048192).
Proof.
  apply (integer_constants_exact demo_lookup
    (VExpr (const_new (VName "C")) "<<" (const_new (VByte 28))) demo_lookup_wf).
  - apply wf_expr; [by apply wf_other| |by eexists]. apply wf_byte. unfold in_i. simpl. lia.
  - exact demo_meaning.
Defined.

(** ** References to enumerators and repeated names *)

Section Visits.
Context (lookup : string -> option ConstExpr).

(** Names stay visited. *)
Definition keeps {A} (m : M Visited ConstExprError A) : Prop := forall V, V ⊆ snd (m V).

Lemma keeps_ret {A} (a : A) : keeps (ret a).
Proof. by intros V. Qed.

Lemma keeps_bind {A B} (m : M Visited ConstExprError A) (k : A -> M Visited ConstExprError B) :
  keeps m -> (forall a, keeps (k a)) -> keeps (bind m k).
Proof.
  intros Hm Hk V. specialize (Hm V). unfold bind. destruct (m V) as [[a|e|] V']; simpl in *; try done.
  specialize (Hk a V'). set_solver.
Qed.

Lemma keeps_try_map {A B} (f : A -> M Visited ConstExprError B) l :
  (forall x, keeps (f x)) -> keeps (try_map_state f l).
Proof.
  intros Hf. induction l as [|x l IH]; simpl; [apply keeps_ret|].
  apply keeps_bind; [apply Hf|]. intros. apply keeps_bind; [exact IH|]. intros. apply keeps_ret.
Qed.

Lemma calculate_keeps n v d : keeps (r_calculate (frames lookup n) v d).
Proof.
  revert v d. induction n as [|n IH]; intros v d; [by intros V|].
  change (keeps (calculate_body lookup (frames lookup n) v d)). unfold calculate_body.
  destruct (_ <? d); [by intros V|].
  destruct v; try apply keeps_ret.
  - intros V. unfold bind, get, put. cbn. case_bool_decide; [done|]. cbn.
    destruct (lookup name) as [e|]; [|cbn; set_solver].
    specialize (IH (value e) (d + 1) ({[name]} ∪ V)). set_solver.
  - apply keeps_bind; [apply keeps_try_map; intros; apply IH|]. intros. apply keeps_ret.
  - by intros V.
  - apply keeps_bind; [apply IH|]. by intros a V.
Qed.

(** Resolving a name marks it, and a marked name is refused. *)
Lemma name_marked n name d V c V' :
  r_calculate (frames lookup n) (VName name) d V = (Ok c, V') -> ~ (name ∈ V) /\ name ∈ V'.
Proof.
  destruct n as [|n]; [done|].
  change (r_calculate (frames lookup (S n))) with (calculate_body lookup (frames lookup n)).
  unfold calculate_body. destruct (_ <? d); [done|]. unfold bind, get, put. cbn.
  case_bool_decide; [done|]. cbn. intros H'. split; [done|].
  destruct (lookup name) as [e|].
  - pose proof (calculate_keeps n (value e) (d + 1) ({[name]} ∪ V)) as Hk. rewrite H' in Hk. set_solver.
  - injection H' as <- <-. set_solver.
Qed.

(** An array whose elements are evaluated with shared marks. *)
Lemma marked_elements n d l V cs V' name :
  try_map_state (fun e => r_calculate (frames lookup n) (value e) d) l V = (Ok cs, V') ->
  name ∈ V -> const_new (VName name) ∉ l.
Proof.
  revert V cs V'. induction l as [|e l IH]; intros V cs V'; [intros; set_solver|]. simpl.
  unfold bind. destruct (r_calculate _ _ _ V) as [[c| |] V1] eqn:E; try done.
  destruct (try_map_state _ l V1) as [[cs'| |] V2] eqn:E'; try done. intros _ Hn.
  pose proof (calculate_keeps n (value e) d V) as Hk. rewrite E in Hk. simpl in Hk.
  apply not_elem_of_cons. split.
  - intros <-. by destruct (name_marked _ _ _ _ _ _ E).
  - apply (IH _ _ _ E'). set_solver.
Qed.

Lemma elements_repeat n d l1 l2 V cs V' name :
  try_map_state (fun e => r_calculate (frames lookup n) (value e) d)
    (l1 ++ const_new (VName name) :: l2) V = (Ok cs, V') -> const_new (VName name) ∉ l2.
Proof.
  revert V cs V'. induction l1 as [|e l1 IH]; intros V cs V'; simpl; unfold bind;
    destruct (r_calculate _ _ _ V) as [[c| |] V1] eqn:E; try done;
    destruct (try_map_state _ _ V1) as [[cs'| |] V2] eqn:E'; try done.
  - intros _. eapply marked_elements; [exact E'|]. by destruct (name_marked _ _ _ _ _ _ E).
  - intros _. by apply (IH _ _ _ E').
Qed.

End Visits.

(** An array constant may not mention a name twice: the names resolved for
    one element stay marked while the next is evaluated, so a repeated
    reference is reported as circular, although each element by itself, and
    both as the operands of an operator, evaluate. *)
Theorem array_repeats_refused (lookup : string -> option ConstExpr) (name : string)
    (l1 l2 l3 : list ConstExpr) (c : ConstExpr) :
  calculate lookup
    (const_new (VArray (l1 ++ (const_new (VName name) :: (l2 ++ (const_new (VName name) :: l3)))))) <> Ok c /\
  calculate demo_lookup (const_new (VArray [const_new (VName "C"); const_new (VName "C")])) =
    Err (CircularReference "C") /\
  calculate demo_lookup (new_expr (const_new (VName "C")) "+" (const_new (VName "C"))) =
    Ok (mkConstExpr "" true (VInt32 14)).
Proof.
  split; [|split; vm_compute; reflexivity].
  unfold calculate, const_calculate, value_calculate. cbn [is_calculated const_new value].
  destruct STACK as [|n]; [done|].
  change (r_calculate (frames lookup (S n))) with (calculate_body lookup (frames lookup n)).
  unfold calculate_body. cbn [MAX_EXPR_DEPTH Z.ltb Z.compare]. unfold bind.
  destruct (try_map_state _ _ ∅) as [[cs| |] V] eqn:E; try done.
  apply elements_repeat in E. exfalso. apply E. apply elem_of_app. right. left.
Qed.

(** A comparison whose left operand is an enumerator is never an equality:
    an enumerator compared with itself is folded to [false], and its [!=] to
    [true]; with the operands exchanged the numbers are compared. *)
Theorem enumerator_never_equal (lookup : string -> option ConstExpr) (t n m : string) (z : Z)
    (rhs : ValueType) (Hint : is_Some (int_value rhs)) :
  calculate lookup (new_expr (const_new (VReference t n m z)) "==" (const_new rhs)) =
    Ok (mkConstExpr "" true (VBool false)) /\
  calculate lookup (new_expr (const_new (VReference t n m z)) "!=" (const_new rhs)) =
    Ok (mkConstExpr "" true (VBool true)).
Proof.
  destruct rhs; simpl in Hint; try (by destruct Hint); split; reflexivity.
Qed.

Lemma enumerator_never_equal_witness :
  calculate demo_lookup
    (new_expr (const_new (VReference "p.E" "E" "A" 3)) "==" (const_new (VReference "p.E" "E" "A" 3))) =
    Ok (mkConstExpr "" true (VBool false)).
Proof.
  apply (enumerator_never_equal demo_lookup "p.E" "E" "A" 3 (VReference "p.E" "E" "A" 3)).
  by eexists.
Defined.
