(* ===== verification/AidlGuard.v ===== *)
(** * AidlGuard: the scan that protects the recursive AIDL parser

    [check_nesting_depth] of [rsbinder-aidl/src/parser.rs]: one pass over the
    raw text, before it is parsed, that refuses deep nesting of brackets and
    generics and long runs of operators.  The text is the list of its bytes;
    the position is what is left to read, and the fuel of the loop is the
    length of the text, since every pass reads at least one byte. *)

From stdpp Require Import base list strings.
From Stdlib Require Import ZArith Lia Ascii.
From S2P Require Import Prelude.
Local Open Scope Z_scope.

Definition MAX_NESTING_DEPTH : Z := 256.
Definition MAX_OPERATOR_RUN : Z := 1024.

Definition text (s : string) : list ascii := String.list_ascii_of_string s.

Definition one_of (cs : string) (c : ascii) : bool := existsb (Ascii.eqb c) (text cs).

Definition is_quote (c : ascii) : bool := Ascii.eqb c "034" || Ascii.eqb c "'".
Definition is_open : ascii -> bool := one_of "([{".
Definition is_close : ascii -> bool := one_of ")]}".
Definition is_operator : ascii -> bool := one_of "+-*/%&|^!~".
Definition backslash : ascii := "092".
Definition newline : ascii := "010".

(** [next(i)]: the byte after the one at hand is [c]. *)
Definition next_is (r : list ascii) (c : ascii) : bool :=
  match r with x :: _ => Ascii.eqb x c | [] => false end.

(** What is left after a literal that a quote [q] opened. *)
Fixpoint skip_literal (q : ascii) (l : list ascii) : list ascii :=
  match l with
  | [] => []
  | c :: r =>
      if Ascii.eqb c backslash then match r with [] => [] | _ :: r' => skip_literal q r' end
      else if Ascii.eqb c q then r
      else skip_literal q r
  end.

(** What is left after a line comment; the newline is read next. *)
Fixpoint skip_line (l : list ascii) : list ascii :=
  match l with
  | [] => []
  | c :: r => if Ascii.eqb c newline then l else skip_line r
  end.

(** What is left after a block comment, its opening read. *)
Fixpoint skip_block (l : list ascii) : list ascii :=
  match l with
  | [] => []
  | c :: r => if Ascii.eqb c "*" && next_is r "/" then drop 1 r else skip_block r
  end.

(** The three counters of the loop. *)
Record Counters : Type := mkCounters {
  bracket_depth : Z;
  angle_depth : Z;
  op_run : Z
}.

Definition counters_zero : Counters := mkCounters 0 0 0.

Definition saturating_dec (z : Z) : Z := Z.max 0 (z - 1).

(** The arms that fall through to the limits. *)
Definition count (c : ascii) (s : Counters) : Counters :=
  if is_open c then mkCounters (bracket_depth s + 1) (angle_depth s) 0
  else if is_close c then mkCounters (saturating_dec (bracket_depth s)) (angle_depth s) 0
  else if Ascii.eqb c "," then mkCounters (bracket_depth s) (angle_depth s) 0
  else if Ascii.eqb c "<" then mkCounters (bracket_depth s) (angle_depth s + 1) (op_run s)
  else if Ascii.eqb c ">" then mkCounters (bracket_depth s) (saturating_dec (angle_depth s)) (op_run s)
  else if Ascii.eqb c ";" then mkCounters (bracket_depth s) 0 0
  else if is_operator c then mkCounters (bracket_depth s) (angle_depth s) (op_run s + 1)
  else s.

Definition count_shift (s : Counters) : Counters :=
  mkCounters (bracket_depth s) (angle_depth s) (op_run s + 1).

Definition over (s : Counters) : bool :=
  (MAX_NESTING_DEPTH <? bracket_depth s) || (MAX_NESTING_DEPTH <? angle_depth s)
  || (MAX_OPERATOR_RUN <? op_run s).

(** [<<], [<=] and their closing twins are read as one token. *)
Definition is_pair (c : ascii) (r : list ascii) : bool :=
  (Ascii.eqb c "<" || Ascii.eqb c ">") && (next_is r c || next_is r "=").

(** The loop; the result is what is left where a limit is first exceeded. *)
Fixpoint scan (fuel : nat) (l : list ascii) (s : Counters) : option (list ascii) :=
  match fuel, l with
  | S k, c :: r =>
      if is_quote c then scan k (skip_literal c r) s
      else if Ascii.eqb c "/" && next_is r "/" then scan k (skip_line l) s
      else if Ascii.eqb c "/" && next_is r "*" then scan k (skip_block (drop 1 r)) s
      else if is_pair c r then scan k (drop 1 r) (if next_is r c then count_shift s else s)
      else
        let s' := count c s in
        if over s' then Some l else scan k r s'
  | _, _ => None
  end.

(** The byte offset at which a limit is first exceeded. *)
Definition check_nesting_depth (source : list ascii) : option Z :=
  match scan (length source) source counters_zero with
  | Some rest => Some (zlen source - zlen rest)
  | None => None
  end.

(** The length of the text is fuel enough: every pass reads a byte. *)
Lemma skip_literal_le q l : (length (skip_literal q l) <= length l)%nat.
Proof.
  induction l as [l IH] using (induction_ltof1 _ (@length ascii)); unfold ltof in IH.
  destruct l as [|c r]; simpl; [lia|]. destruct (Ascii.eqb c backslash).
  - destruct r as [|x r]; simpl; [lia|]. specialize (IH r ltac:(simpl; lia)). lia.
  - destruct (Ascii.eqb c q); [lia|]. specialize (IH r ltac:(simpl; lia)). lia.
Qed.

Lemma skip_line_le l : (length (skip_line l) <= length l)%nat.
Proof. induction l as [|c r IH]; simpl; [lia|]. destruct (Ascii.eqb c newline); simpl; lia. Qed.

Lemma skip_block_le l : (length (skip_block l) <= length l)%nat.
Proof.
  induction l as [|c r IH]; simpl; [lia|].
  destruct (_ && _); [rewrite length_drop; lia|lia].
Qed.

Lemma scan_fuel k j l s :
  (length l <= k)%nat -> (length l <= j)%nat -> scan k l s = scan j l s.
Proof.
  revert j l s. induction k as [|k IH]; intros j l s Hk Hj; (destruct l as [|c r]; [by destruct j|]);
    simpl in Hk; [lia|]. destruct j as [|j]; simpl in Hj; [lia|]. cbn [scan].
  pose proof (skip_literal_le c r). pose proof (skip_block_le (drop 1 r)) as Hb.
  assert (Hd : (length (drop 1 r) <= length r)%nat) by (rewrite length_drop; lia).
  destruct (is_quote c); [apply IH; lia|].
  destruct (Ascii.eqb c "/") eqn:Ec.
  - apply Ascii.eqb_eq in Ec as ->. pose proof (skip_line_le r).
    destruct (next_is r "/"); [apply IH; simpl; lia|].
    destruct (next_is r "*"); [apply IH; lia|]. simpl.
    destruct (over _); [done|]. apply IH; lia.
  - simpl. destruct (is_pair c r); [apply IH; lia|]. destruct (over _); [done|]. apply IH; lia.
Qed.

(** ** Tokens *)

(** What the guard sees of a text outside literals and comments. *)
Inductive Token := TOpen | TClose | TComma | TSemi | TLess | TGreater | TOperator | TShift | TOther.

#[export] Instance Token_eq_dec : EqDecision Token.
Proof. solve_decision. Defined.

Definition token (c : ascii) : Token :=
  if is_open c then TOpen else if is_close c then TClose
  else if Ascii.eqb c "," then TComma
  else if Ascii.eqb c "<" then TLess else if Ascii.eqb c ">" then TGreater
  else if Ascii.eqb c ";" then TSemi else if is_operator c then TOperator else TOther.

Fixpoint tokens (fuel : nat) (l : list ascii) : list Token :=
  match fuel, l with
  | S k, c :: r =>
      if is_quote c then tokens k (skip_literal c r)
      else if Ascii.eqb c "/" && next_is r "/" then tokens k (skip_line l)
      else if Ascii.eqb c "/" && next_is r "*" then tokens k (skip_block (drop 1 r))
      else if is_pair c r then
        if next_is r c then TShift :: tokens k (drop 1 r) else tokens k (drop 1 r)
      else token c :: tokens k r
  | _, _ => []
  end.

Definition tokens_of (source : list ascii) : list Token := tokens (length source) source.

(** The counters after a token. *)
Definition advance (t : Token) (s : Counters) : Counters :=
  match t with
  | TOpen => mkCounters (bracket_depth s + 1) (angle_depth s) 0
  | TClose => mkCounters (saturating_dec (bracket_depth s)) (angle_depth s) 0
  | TComma => mkCounters (bracket_depth s) (angle_depth s) 0
  | TSemi => mkCounters (bracket_depth s) 0 0
  | TLess => mkCounters (bracket_depth s) (angle_depth s + 1) (op_run s)
  | TGreater => mkCounters (bracket_depth s) (saturating_dec (angle_depth s)) (op_run s)
  | TOperator | TShift => count_shift s
  | TOther => s
  end.

Definition runs (ts : list Token) (s : Counters) : Counters := fold_left (fun s t => advance t s) ts s.

Lemma count_token c s : count c s = advance (token c) s.
Proof. unfold count, token. by repeat case_match. Qed.

(** When the scan passes, no prefix of the tokens is over a limit, except
    behind a shift, which is not checked by itself. *)
Lemma scan_tokens fuel l s :
  scan fuel l s = None ->
  forall a t b, tokens fuel l = a ++ t :: b -> t <> TShift -> over (runs (a ++ [t]) s) = false.
Proof.
  revert l s. induction fuel as [|k IH]; intros l s; [by destruct a|].
  destruct l as [|c r]; [by destruct a|]. cbn [scan tokens].
  destruct (is_quote c); [apply IH|].
  destruct (_ && next_is r "/"); [apply IH|]. destruct (_ && next_is r "*"); [apply IH|].
  destruct (is_pair c r).
  - destruct (next_is r c); [|apply IH]. intros Hs a t b Ha Ht.
    destruct a as [|t' a]; [by simplify_eq/=|]. simplify_eq/=. by apply (IH _ _ Hs a t b).
  - rewrite count_token. destruct (over _) eqn:E; [done|]. intros Hs a t b Ha Ht.
    destruct a as [|t' a]; simplify_eq/=; [exact E|]. by apply (IH _ _ Hs a t b).
Qed.

(** ** What a passed text is bounded by *)

Fixpoint occurrences (p : Token -> bool) (ts : list Token) : Z :=
  match ts with [] => 0 | t :: r => (if p t then 1 else 0) + occurrences p r end.

Definition is_tok (t u : Token) : bool := bool_decide (t = u).

Definition operators (t : Token) : bool := match t with TOperator | TShift => true | _ => false end.

(** Tokens at which a run of operators starts again. *)
Definition separator (t : Token) : bool :=
  match t with TOpen | TClose | TComma | TSemi => true | _ => false end.

Lemma runs_app a b s : runs (a ++ b) s = runs b (runs a s).
Proof. apply fold_left_app. Qed.

Lemma runs_bracket ts s :
  occurrences (is_tok TOpen) ts - occurrences (is_tok TClose) ts + bracket_depth s
  <= bracket_depth (runs ts s).
Proof.
  revert s. induction ts as [|t ts IH]; intros s; simpl; [lia|]. specialize (IH (advance t s)).
  unfold is_tok in *. destruct t; simpl in *; unfold saturating_dec in *; lia.
Qed.

Lemma runs_angle ts s :
  Forall (fun t => t <> TSemi) ts ->
  occurrences (is_tok TLess) ts - occurrences (is_tok TGreater) ts + angle_depth s
  <= angle_depth (runs ts s).
Proof.
  revert s. induction ts as [|t ts IH]; intros s Hs; simpl; [lia|].
  apply Forall_cons in Hs as [Ht Hs]. specialize (IH (advance t s) Hs).
  unfold is_tok in *. destruct t; simpl in *; unfold saturating_dec in *; lia || done.
Qed.

Lemma runs_operators ts s :
  Forall (fun t => separator t = false) ts ->
  op_run (runs ts s) = occurrences operators ts + op_run s.
Proof.
  revert s. induction ts as [|t ts IH]; intros s Hs; simpl; [lia|].
  apply Forall_cons in Hs as [Ht Hs]. rewrite (IH (advance t s) Hs). destruct t; simpl in *; lia || done.
Qed.

Lemma runs_nonneg ts s :
  0 <= bracket_depth s /\ 0 <= angle_depth s /\ 0 <= op_run s ->
  0 <= bracket_depth (runs ts s) /\ 0 <= angle_depth (runs ts s) /\ 0 <= op_run (runs ts s).
Proof.
  revert s. induction ts as [|t ts IH]; intros s Hs; simpl; [done|]. apply IH.
  destruct t; simpl; unfold saturating_dec; lia.
Qed.

Lemma over_false s :
  over s = false ->
  bracket_depth s <= MAX_NESTING_DEPTH /\ angle_depth s <= MAX_NESTING_DEPTH /\
  op_run s <= MAX_OPERATOR_RUN.
Proof. unfold over. rewrite !orb_false_iff, !Z.ltb_ge. tauto. Qed.

(** In a text that passes the guard, outside literals and comments: no
    stretch opens more than 256 brackets that it does not close, no stretch
    within a statement opens more than 256 angle brackets over those it closes,
    and no stretch without a separator has more than 1024 operators. *)
Theorem nesting_guard_bounds (source : list ascii) (a b c : list Token) (t : Token)
    (Hok : check_nesting_depth source = None)
    (Hseg : tokens_of source = a ++ (b ++ [t]) ++ c) (Ht : t <> TShift) :
  occurrences (is_tok TOpen) (b ++ [t]) - occurrences (is_tok TClose) (b ++ [t]) <= MAX_NESTING_DEPTH /\
  (Forall (fun u => u <> TSemi) (b ++ [t]) ->
   occurrences (is_tok TLess) (b ++ [t]) - occurrences (is_tok TGreater) (b ++ [t]) <= MAX_NESTING_DEPTH) /\
  (Forall (fun u => separator u = false) (b ++ [t]) ->
   occurrences operators (b ++ [t]) <= MAX_OPERATOR_RUN).
Proof.
  assert (Hs : scan (length source) source counters_zero = None).
  { revert Hok. unfold check_nesting_depth. by destruct (scan _ _ _). }
  pose proof (scan_tokens _ _ _ Hs (a ++ b) t c) as Hp. unfold tokens_of in Hseg.
  rewrite Hseg, <- !app_assoc in Hp. specialize (Hp eq_refl Ht). apply over_false in Hp.
  rewrite runs_app in Hp.
  destruct (runs_nonneg a counters_zero) as (? & ? & ?); [simpl; lia|].
  pose proof (runs_bracket (b ++ [t]) (runs a counters_zero)).
  split; [lia|]. split; intros Hf.
  - pose proof (runs_angle _ (runs a counters_zero) Hf). lia.
  - pose proof (runs_operators _ (runs a counters_zero) Hf). lia.
Qed.

Definition demo_source : list ascii := text "const int A = (1 + (2)); // ((((".

Lemma nesting_guard_bounds_witness :
  check_nesting_depth demo_source = None /\
  occurrences (is_tok TOpen) [TOpen; TOther; TOther; TOperator; TOther; TOpen] -
  occurrences (is_tok TClose) [TOpen; TOther; TOther; TOperator; TOther; TOpen] <= MAX_NESTING_DEPTH.
Proof.
  split; [vm_compute; reflexivity|].
  refine (proj1 (nesting_guard_bounds demo_source (repeat TOther 14)
    [TOpen; TOther; TOther; TOperator; TOther] [TOther; TClose; TClose; TSemi; TOther] TOpen _ _ _));
    [vm_compute; reflexivity|vm_compute; reflexivity|done].
Defined.

(** A generic type whose arguments nest [n] deep, each level with an array type
    whose size is a comparison. *)
Fixpoint nested_type (n : nat) : list ascii :=
  match n with
  | O => text "int"
  | S k => text "M<int[1>0]," ++ nested_type k ++ text " >"
  end.

Lemma scan_nested n f rest :
  next_is rest ">" = false -> next_is rest "=" = false ->
  scan (13 * n + 3 + f) (nested_type n ++ rest) counters_zero = scan f rest counters_zero.
Proof.
  revert f rest. induction n as [|n IH]; intros f rest Hg He; [reflexivity|].
  cbn [nested_type]. rewrite <- !app_assoc.
  replace (13 * S n + 3 + f)%nat with (11 + (13 * n + 3 + (2 + f)))%nat by lia.
  transitivity (scan (13 * n + 3 + (2 + f)) (nested_type n ++ text " >" ++ rest) counters_zero);
    [reflexivity|].
  rewrite IH by done. simpl. unfold is_pair. simpl. by rewrite Hg, He.
Qed.

(** Generics that nest arbitrarily deep pass the guard: a [>] inside the
    size of an array argument is counted as the end of the generic around it. *)
Theorem generic_nesting_unguarded (n : nat) : check_nesting_depth (nested_type n) = None.
Proof.
  unfold check_nesting_depth.
  assert (Hl : length (nested_type n) = (13 * n + 3)%nat).
  { induction n as [|n IH]; [done|]. cbn [nested_type]. rewrite !length_app, IH. simpl. lia. }
  rewrite Hl. pose proof (scan_nested n 0 []) as H. rewrite app_nil_r, Nat.add_0_r in H.
  by rewrite H.
Qed.
