(* ===== verification/AidlEnum.v ===== *)
(** * AidlEnum: the discriminants of AIDL enums

    [enum_member_const_expr_from_lookup] of [rsbinder-aidl/src/parser.rs] (the
    value of one member, with its cache and its stack of members being
    resolved) and the values [decl_enum] of [generator.rs] renders.  Names in
    the explicit values are resolved by [lookup]. *)

From stdpp Require Import base gmap strings list.
From Stdlib Require Import ZArith Lia.
From S2P Require Import Prelude ConstExpr ConstExprSpec ConstMeaning.
Local Open Scope string_scope.
Local Open Scope Z_scope.

Record Enumerator : Type := mkEnumerator {
  identifier : string;
  const_expr : option ConstExpr
}.

Record EnumDecl : Type := mkEnumDecl {
  enum_type : string;
  name : string;
  enumerator_list : list Enumerator
}.

(** [ENUM_VALUE_CACHE] and [ENUM_RESOLUTION_STACK]. *)
Record EnumState : Type := mkEnumState {
  value_cache : gmap string ConstExpr;
  resolution_stack : gset string
}.

Definition E (A : Type) : Type := M EnumState ConstExprError A.

Section Enums.
Context (lookup : string -> option ConstExpr).

(** The kinds that may become a discriminant. *)
Definition integral (v : ValueType) : bool :=
  match v with VByte _ | VInt32 _ | VInt64 _ | VBool _ | VReference _ _ _ _ => true | _ => false end.

(** An explicit value: it sets the counter, or is carried out as it is. *)
Definition explicit (e : ConstExpr) (enum_val : Z) : R (Z * option ConstExpr) :=
  match calculate lookup e with
  | Ok calculated =>
      match value calculated with
      | VName _ => Ok (enum_val, Some e)
      | v =>
          if integral v then
            match to_i64 lookup calculated with
            | Ok z => Ok (z, None)
            | Err _ => Ok (enum_val, Some calculated)
            | Panic => Panic
            end
          else Ok (enum_val, Some calculated)
      end
  | Err _ => Ok (enum_val, Some e)
  | Panic => Panic
  end.

(** The loop over the enumerators; the flag says that the result is carried. *)
Fixpoint member_loop (decl : EnumDecl) (member : string) (l : list Enumerator) (enum_val : Z)
    (carried : option ConstExpr) : R (option (ConstExpr * bool)) :=
  match l with
  | [] => Ok None
  | en :: r =>
      let? (enum_val, carried) :=
        match const_expr en with
        | Some e => explicit e enum_val
        | None => Ok (enum_val, carried)
        end in
      if String.eqb (identifier en) member then
        match carried with
        | Some expr => Ok (Some (expr, true))
        | None => Ok (Some (const_new (VReference (enum_type decl) (name decl) member enum_val), false))
        end
      else member_loop decl member r (wrap_i 64 (enum_val + 1)) carried
  end.

Definition enum_member_const_expr_from_lookup (decl : EnumDecl) (member : string)
    : E (option ConstExpr) :=
  let key := (enum_type decl ++ "." ++ member)%string in
  let* s := get in
  match value_cache s !! key with
  | Some cached => ret (Some cached)
  | None =>
      if bool_decide (key ∈ resolution_stack s) then ret None
      else
        let* _ := put (mkEnumState (value_cache s) ({[key]} ∪ resolution_stack s)) in
        let* result := lift (member_loop decl member (enumerator_list decl) 0 None) in
        let* s := get in
        let* _ := put (mkEnumState (value_cache s) (resolution_stack s ∖ {[key]})) in
        match result with
        | Some (expr, false) =>
            let* _ := modify (fun s =>
              mkEnumState (<[key := expr]> (value_cache s)) (resolution_stack s)) in
            ret (Some expr)
        | Some (expr, true) => ret (Some expr)
        | None => ret None
        end
  end.

(** The number rendered for a member. *)
Definition discriminant (expr : ConstExpr) : R Z :=
  let? calculated := calculate lookup expr in
  match value calculated with
  | VName _ => to_i64 lookup calculated
  | v => if integral v then to_i64 lookup calculated else Err NoI64
  end.

(** The members [decl_enum] renders. *)
Fixpoint enum_members (decl : EnumDecl) (l : list Enumerator) : E (list (string * Z)) :=
  match l with
  | [] => ret []
  | en :: r =>
      let* expr := enum_member_const_expr_from_lookup decl (identifier en) in
      match expr with
      | Some expr =>
          let* z := lift (discriminant expr) in
          let* rest := enum_members decl r in
          ret ((identifier en, z) :: rest)
      | None => enum_members decl r
      end
  end.

Definition decl_enum (decl : EnumDecl) : E (list (string * Z)) :=
  enum_members decl (enumerator_list decl).

(** ** The values an enum stands for *)

(** The number an explicit value stands for, when it is integral. *)
Definition explicit_value (e : ConstExpr) : option Z :=
  match calculate lookup e with
  | Ok c => match int_value (value c) with Some (_, z) => Some z | None => None end
  | _ => None
  end.

(** Each member: its explicit value, or one more than the member before it;
    nothing when that is nothing. *)
Fixpoint discriminants (l : list Enumerator) (cur : option Z) : list (option Z) :=
  match l with
  | [] => []
  | en :: r =>
      let v := match const_expr en with Some e => explicit_value e | None => cur end in
      v :: discriminants r (match v with Some z => Some (wrap_i 64 (z + 1)) | None => None end)
  end.

(** ** The members agree with the values *)

Hypothesis lookup_wf : forall name e, lookup name = Some e -> wf_value (value e).

(** A value as the parser leaves it. *)
Definition parsed (e : ConstExpr) : Prop := wf_value (value e) /\ is_calculated e = false.

(** A carried expression is never rendered. *)
Definition refused (e : ConstExpr) : Prop := exists err, discriminant e = Err err.

(** The counter and the carried expression stand for the current value. *)
Definition stands (cur : option Z) (enum_val : Z) (carried : option ConstExpr) : Prop :=
  match cur, carried with
  | Some z, None => enum_val = z
  | None, Some e => refused e
  | _, _ => False
  end.

Lemma integral_int v : integral v = true <-> is_Some (int_value v).
Proof. destruct v; simpl; split; try done; try (by intros []); by eexists. Qed.

Lemma to_i64_value e k z : int_value (value e) = Some (k, z) -> to_i64 lookup e = Ok z.
Proof. intros H. unfold to_i64, STACK. exact (to_i64_int lookup _ _ _ _ H). Qed.

Lemma calculate_done c : is_calculated c = true -> calculate lookup c = Ok c.
Proof. unfold calculate, const_calculate. by intros ->. Qed.

Lemma calculated_normal e :
  parsed e -> safely (fun c => normal lookup 257 (value c) /\ is_calculated c = true) (calculate lookup e).
Proof.
  intros [Hw Hc]. unfold calculate. assert (HS : (258 < STACK)%nat) by (unfold STACK; lia).
  pose proof (const_calculate_normal lookup lookup_wf STACK e HS Hw) as H.
  eapply safely_weaken; [|exact H]. auto.
Qed.

Lemma discriminant_int e c k z :
  calculate lookup e = Ok c -> int_value (value c) = Some (k, z) -> discriminant e = Ok z.
Proof.
  intros He Hi. unfold discriminant. rewrite He, (to_i64_value c k z Hi).
  by destruct (value c).
Qed.

Lemma name_refused e c n :
  parsed e -> calculate lookup e = Ok c -> value c = VName n -> refused e.
Proof.
  intros He Hc Hn. pose proof (calculated_normal e He) as H. rewrite Hc in H. destruct H as [H _].
  rewrite Hn in H. cbn in H. exists (CannotResolve n). unfold discriminant, to_i64, STACK.
  rewrite Hc, Hn. cbn. unfold resolve_name. by rewrite H.
Qed.

Lemma explicit_stands e z :
  parsed e -> exists z' carried, explicit e z = Ok (z', carried) /\ stands (explicit_value e) z' carried.
Proof.
  intros He. pose proof (calculated_normal e He) as Hn. unfold explicit, explicit_value.
  destruct (calculate lookup e) as [c|err|] eqn:Ec; [| |done].
  - destruct Hn as [Hn Hd]. pose proof (to_i64_value c) as Hi.
    assert (Hr : int_value (value c) = None -> (forall n, value c <> VName n) -> refused c).
    { intros Hv Hm. exists NoI64. unfold discriminant. rewrite calculate_done by done.
      destruct (value c); simpl in *; try done. by edestruct Hm. }
    destruct (value c) eqn:Ev; simpl in *;
      try (rewrite (Hi _ _ eq_refl); do 2 eexists; split; done);
      (do 2 eexists; split; [done|]; simpl).
    all: try (by apply Hr).
    by apply (name_refused e c name0).
  - do 2 eexists. split; [done|]. exists err. unfold discriminant. by rewrite Ec.
Qed.

(** The value of the member [member], from a current value on. *)
Fixpoint value_of (member : string) (l : list Enumerator) (cur : option Z) : option (option Z) :=
  match l with
  | [] => None
  | en :: r =>
      let v := match const_expr en with Some e => explicit_value e | None => cur end in
      if String.eqb (identifier en) member then Some v
      else value_of member r (match v with Some z => Some (wrap_i 64 (z + 1)) | None => None end)
  end.

Definition all_parsed (l : list Enumerator) : Prop :=
  Forall (fun en => match const_expr en with Some e => parsed e | None => True end) l.

Lemma member_loop_value decl member l cur z carried :
  all_parsed l -> stands cur z carried ->
  match value_of member l cur with
  | Some (Some v) =>
      member_loop decl member l z carried =
      Ok (Some (const_new (VReference (enum_type decl) (name decl) member v), false))
  | Some None => exists e, member_loop decl member l z carried = Ok (Some (e, true)) /\ refused e
  | None => member_loop decl member l z carried = Ok None
  end.
Proof.
  intros Hp. revert cur z carried. induction Hp as [|en r He Hp IH]; intros cur z carried Hs; [done|].
  cbn [value_of member_loop].
  assert (exists z' carried', match const_expr en with Some e => explicit e z | None => Ok (z, carried) end
    = Ok (z', carried') /\
    stands (match const_expr en with Some e => explicit_value e | None => cur end) z' carried')
    as (z' & carried' & -> & Hs').
  { destruct (const_expr en); [by apply explicit_stands|by eauto]. }
  destruct (String.eqb (identifier en) member).
  - destruct (match const_expr en with Some e => explicit_value e | None => cur end) as [v|];
      destruct carried' as [e|]; simpl in Hs'; try done; [by subst|]. eauto.
  - apply IH. destruct (match const_expr en with Some e => explicit_value e | None => cur end) as [v|];
      destruct carried' as [e|]; simpl in *; try done. by subst.
Qed.

Lemma discriminant_reference t n m z : discriminant (const_new (VReference t n m z)) = Ok z.
Proof.
  apply (discriminant_int _ (mkConstExpr "" true (VReference t n m z)) KEnum); [|done].
  unfold calculate, STACK. reflexivity.
Qed.

Section Declaration.
Context (decl : EnumDecl).
Hypothesis members_parsed : all_parsed (enumerator_list decl).

Abbreviation key member := (enum_type decl ++ "." ++ member)%string.
Abbreviation val member := (value_of member (enumerator_list decl) (Some 0)).

(** The cache holds values of this enum only, and no member is being resolved. *)
Definition enum_inv (s : EnumState) : Prop :=
  (forall member x, value_cache s !! key member = Some x ->
     exists z, val member = Some (Some z) /\
       x = const_new (VReference (enum_type decl) (name decl) member z)) /\
  (forall member, key member ∉ resolution_stack s).

Lemma key_inj a b : key a = key b -> a = b.
Proof. intros H. apply (inj (String.append (enum_type decl))) in H. by simplify_eq/=. Qed.

Lemma member_value s member :
  enum_inv s ->
  exists o s', enum_member_const_expr_from_lookup decl member s = (Ok o, s') /\ enum_inv s' /\
    match val member with
    | Some (Some z) => exists x, o = Some x /\ discriminant x = Ok z
    | Some None => exists x, o = Some x /\ refused x
    | None => o = None
    end.
Proof.
  intros [Hc Hs]. unfold enum_member_const_expr_from_lookup, bind, get.
  destruct (value_cache s !! key member) as [x|] eqn:Ex.
  { destruct (Hc _ _ Ex) as (z & Hz & ->). do 2 eexists. split; [done|]. split; [done|].
    rewrite Hz. eauto using discriminant_reference. }
  rewrite bool_decide_eq_false_2 by apply Hs. unfold put, lift, modify, ret.
  pose proof (member_loop_value decl member (enumerator_list decl) (Some 0) 0 None members_parsed eq_refl)
    as Hm.
  assert (Hs' : forall m, key m ∉ ({[key member]} ∪ resolution_stack s) ∖ {[key member]})
    by (intros m [[Hm'|Hm']%elem_of_union Hn]%elem_of_difference; [done|by destruct (Hs m)]).
  destruct (val member) as [[z|]|] eqn:Ev.
  - rewrite Hm. do 2 eexists. split; [done|]. split; [|by eauto using discriminant_reference].
    split; [|exact Hs']. intros m x. cbn [value_cache].
    destruct (decide (m = member)) as [->|Hne].
    + rewrite lookup_insert. destruct (decide _); [|done]. intros. simplify_eq. eauto.
    + rewrite lookup_insert_ne by (intros Hk%key_inj; done). apply Hc.
  - destruct Hm as (x & -> & Hr). do 2 eexists. split; [done|]. split; [by split|]. eauto.
  - rewrite Hm. do 2 eexists. split; [done|]. by split.
Qed.

Lemma enum_members_values l s ws :
  enum_inv s -> Forall2 (fun en w => val (identifier en) = Some w) l ws ->
  match mapM (fun w => w) ws with
  | Some vs => fst (enum_members decl l s) = Ok (zip (identifier <$> l) vs)
  | None => exists err, fst (enum_members decl l s) = Err err
  end.
Proof.
  intros Hi Hf. revert s Hi. induction Hf as [|en w l ws Hw Hf IH]; intros s Hi; [done|].
  cbn [enum_members]. destruct (member_value s (identifier en) Hi) as (o & s' & Ho & Hi' & Hv).
  rewrite Hw in Hv. specialize (IH s' Hi'). unfold bind. rewrite Ho.
  destruct w as [z|]; destruct Hv as (x & -> & Hx); unfold lift.
  - rewrite Hx. cbn. destruct (enum_members decl l s') as [rest s2] eqn:Er. cbn in IH.
    destruct (mapM (fun w => w) ws) as [vs|]; cbn; [by rewrite IH|]. destruct IH as [err ->]. by exists err.
  - destruct Hx as [err ->]. cbn. by exists err.
Qed.

End Declaration.

Lemma Forall2_given {A B} (Q : A -> Prop) (P P' : A -> B -> Prop) l k :
  Forall Q l -> Forall2 P l k -> (forall x y, Q x -> P x y -> P' x y) -> Forall2 P' l k.
Proof.
  intros HQ HP H. revert HQ. induction HP as [|x y l k Hxy _ IH]; intros HQ; [constructor|].
  apply Forall_cons in HQ as [HQx HQ]. constructor; auto.
Qed.

Lemma value_of_discriminants l cur :
  NoDup (identifier <$> l) ->
  Forall2 (fun en w => value_of (identifier en) l cur = Some w) l (discriminants l cur).
Proof.
  revert cur. induction l as [|en r IH]; intros cur Hd; [constructor|].
  rewrite fmap_cons in Hd. apply NoDup_cons in Hd as [Hn Hd]. cbn [discriminants value_of].
  constructor; [by rewrite String.eqb_refl|].
  eapply (Forall2_given (fun x => identifier x <> identifier en)); [|apply (IH _ Hd)|].
  - apply Forall_forall. intros x Hx E. apply Hn. rewrite <- E. by apply list_elem_of_fmap_2.
  - intros x w Hx. cbv beta. intros Hw.
    rewrite (proj2 (String.eqb_neq (identifier en) (identifier x))) by (by intros ?). exact Hw.
Qed.

End Enums.

(** The generated discriminants are the ones the declaration stands for:
    an explicit integral value, or one more than the member before (wrapping at
    64 bits).  When one has no such value (it fails to evaluate, is not
    integral, or names nothing) the enum is refused, and so is every member
    that would count on from it: no discriminant is made up. *)
Theorem enum_discriminants_exact (lookup : string -> option ConstExpr) (decl : EnumDecl)
    (Hlookup : forall name e, lookup name = Some e -> wf_value (value e))
    (Hparsed : all_parsed (enumerator_list decl))
    (Hnames : NoDup (identifier <$> enumerator_list decl)) :
  match mapM (fun w => w) (discriminants lookup (enumerator_list decl) (Some 0)) with
  | Some vs =>
      fst (decl_enum lookup decl (mkEnumState ∅ ∅)) = Ok (zip (identifier <$> enumerator_list decl) vs)
  | None => exists err, fst (decl_enum lookup decl (mkEnumState ∅ ∅)) = Err err
  end.
Proof.
  assert (Hi : enum_inv lookup decl (mkEnumState ∅ ∅)).
  { split; [|intros m; cbn; set_solver]. intros member x. cbn. by rewrite lookup_empty. }
  exact (enum_members_values lookup Hlookup decl Hparsed _ _ _ Hi
           (value_of_discriminants lookup _ (Some 0) Hnames)).
Qed.

(** [enum E { A, B = C, D, Z = 1 / 0 }] without and with its last member. *)
Definition demo_enum (bad : list Enumerator) : EnumDecl :=
  mkEnumDecl "p.E" "E"
    ([mkEnumerator "A" None; mkEnumerator "B" (Some (const_new (VName "C"))); mkEnumerator "D" None] ++ bad).

Lemma demo_enum_parsed : all_parsed (enumerator_list (demo_enum [])).
Proof. repeat constructor. Qed.

Lemma demo_enum_values :
  mapM (fun w => w) (discriminants demo_lookup (enumerator_list (demo_enum [])) (Some 0)) =
  Some [0; 7; 8].
Proof. vm_compute. reflexivity. Qed.

Lemma enum_discriminants_exact_witness :
  fst (decl_enum demo_lookup (demo_enum []) (mkEnumState ∅ ∅)) = Ok [("A", 0); ("B", 7); ("D", 8)] /\
  fst (decl_enum demo_lookup
         (demo_enum [mkEnumerator "Z" (Some (new_expr (const_new (VByte 1)) "/" (const_new (VByte 0))))])
         (mkEnumState ∅ ∅)) = Err DivisionByZero.
Proof.
  split; [|vm_compute; reflexivity].
  assert (Hn : NoDup (identifier <$> enumerator_list (demo_enum [])))
    by (apply (bool_decide_unpack _); vm_compute; exact I).
  pose proof (enum_discriminants_exact demo_lookup (demo_enum []) demo_lookup_wf demo_enum_parsed Hn) as H.
  rewrite demo_enum_values in H. exact H.
Defined.
