(* ===== verification/AidlCheck.v ===== *)
(** * AidlCheck: the semantic checks of the AIDL compiler

    Transaction codes ([validate_transaction_codes] and the [transactions]
    module of the interface template in [generator.rs]), oneway methods and
    permission annotations ([parser.rs]), fixed-size arrays
    ([type_generator.rs]) and module paths ([lib.rs]).  Source spans only
    serve the messages and are left out. *)

From stdpp Require Import base gmap strings list.
From Stdlib Require Import ZArith Lia.
From S2P Require Import Prelude ConstExpr ConstExprSpec ConstMeaning.
Local Open Scope string_scope.
Local Open Scope Z_scope.

(** ** Declarations *)

Inductive Direction := DNone | DIn | DOut | DInout.

Record AnnotationParam : Type := mkAnnotationParam {
  param_identifier : string;
  param_const_expr : ConstExpr
}.

Record Annotation : Type := mkAnnotation {
  annotation : string;
  annotation_const_expr : option ConstExpr;
  parameter_list : list AnnotationParam
}.

Record TypeRef : Type := mkTypeRef {
  type_name : string;
  array_types : list (option ConstExpr)
}.

Record Arg : Type := mkArg {
  direction : Direction;
  arg_type : TypeRef;
  arg_identifier : string
}.

Record MethodDecl : Type := mkMethodDecl {
  annotation_list : list Annotation;
  method_oneway : bool;
  return_type : TypeRef;
  method_identifier : string;
  arg_list : list Arg;
  intvalue : option Z
}.

Record InterfaceDecl : Type := mkInterfaceDecl {
  interface_oneway : bool;
  interface_name : string;
  method_list : list MethodDecl
}.

Inductive AidlError : Type :=
| MixedTransactionIds
| NegativeTransactionCode (method : string) (code : Z)
| TransactionCodeOverflow (method : string) (code : Z)
| TransactionCodeReserved (method : string) (code : Z)
| DuplicateTransactionCode (method1 method2 : string) (code : Z)
| OnewayReturns (method : string)
| OnewayParameter (method : string) (dir : Direction)
| Multiple (errors : list AidlError)
| MalformedEnforcePermission (method : string)
| TypeError (e : option ConstExprError).

Definition C (A : Type) : Type := outcome AidlError A.

(** [AidlError::collect]. *)
Definition collect (errors : list AidlError) : option AidlError :=
  let flat := concat ((fun e => match e with Multiple es => es | e => [e] end) <$> errors) in
  match flat with
  | [] => None
  | [e] => Some e
  | _ => Some (Multiple flat)
  end.

(** ** Transaction codes *)

Definition K_MAX_USER_SET_METHOD_ID : Z := 16777114.
Definition FIRST_CALL_TRANSACTION : Z := 1.
Definition LAST_CALL_TRANSACTION : Z := 16777215.

(** The loop over the methods, with the codes seen and their methods. *)
Fixpoint check_codes (l : list MethodDecl) (seen : gmap Z string) : C unit :=
  match l with
  | [] => Ok tt
  | method :: r =>
      match intvalue method with
      | None => check_codes r seen
      | Some code =>
          let id := method_identifier method in
          if code <? 0 then Err (NegativeTransactionCode id code)
          else if u32_max <? code then Err (TransactionCodeOverflow id code)
          else if K_MAX_USER_SET_METHOD_ID <? code then Err (TransactionCodeReserved id code)
          else
            match seen !! code with
            | Some prev => Err (DuplicateTransactionCode prev id code)
            | None => check_codes r (<[code := id]> seen)
            end
      end
  end.

Definition is_explicit (m : MethodDecl) : bool :=
  match intvalue m with Some _ => true | None => false end.

Definition validate_transaction_codes (decl : InterfaceDecl) : C unit :=
  let explicit_count := length (List.filter is_explicit (method_list decl)) in
  if (explicit_count =? 0)%nat then Ok tt
  else if (explicit_count <? length (method_list decl))%nat then Err MixedTransactionIds
  else check_codes (method_list decl) ∅.

(** The constants of the [transactions] module, in the order of the methods. *)
Fixpoint transaction_codes (l : list MethodDecl) (counter : Z) : list Z :=
  match l with
  | [] => []
  | m :: r =>
      match intvalue m with
      | Some code => FIRST_CALL_TRANSACTION + wrap_u 32 code :: transaction_codes r counter
      | None => FIRST_CALL_TRANSACTION + counter :: transaction_codes r (counter + 1)
      end
  end.

Definition getInterfaceVersion : Z := FIRST_CALL_TRANSACTION + 16777214.
Definition getInterfaceHash : Z := FIRST_CALL_TRANSACTION + 16777213.

(** ** Oneway methods *)

Definition is_void_return (ty : TypeRef) : bool :=
  match array_types ty with [] => String.eqb (type_name ty) "void" | _ => false end.

Definition is_mutable (a : Arg) : bool :=
  match direction a with DOut | DInout => true | _ => false end.

(** The errors of one method, in order. *)
Definition oneway_errors (interface : InterfaceDecl) (method : MethodDecl) : list AidlError :=
  if negb (interface_oneway interface || method_oneway method) then []
  else
    (if is_void_return (return_type method) then [] else [OnewayReturns (method_identifier method)])
    ++ ((fun a => OnewayParameter (method_identifier method) (direction a))
          <$> List.filter is_mutable (arg_list method)).

Definition validate_oneway_methods (interface : InterfaceDecl) : C unit :=
  match collect (concat (oneway_errors interface <$> method_list interface)) with
  | Some err => Err err
  | None => Ok tt
  end.

(** ** Permissions *)

Inductive EnforcePermissionExpr := Single (s : string) | AllOf (l : list string) | AnyOf (l : list string).

Definition const_expr_as_string (e : ConstExpr) : option string :=
  match value e with VString s => Some s | _ => None end.

Definition const_expr_as_string_array (e : ConstExpr) : option (list string) :=
  match value e with VArray items => mapM const_expr_as_string items | _ => None end.

(** The first parameter in a recognised form. *)
Fixpoint permission_param (l : list AnnotationParam) : option EnforcePermissionExpr :=
  match l with
  | [] => None
  | p :: r =>
      let e := param_const_expr p in
      let found :=
        if String.eqb (param_identifier p) "value" then Single <$> const_expr_as_string e
        else if String.eqb (param_identifier p) "allOf" then AllOf <$> const_expr_as_string_array e
        else if String.eqb (param_identifier p) "anyOf" then AnyOf <$> const_expr_as_string_array e
        else None in
      match found with Some x => Some x | None => permission_param r end
  end.

Fixpoint enforce_permission_from_annotation_list (l : list Annotation) (method_name : string)
    : C (option EnforcePermissionExpr) :=
  match l with
  | [] => Ok None
  | a :: r =>
      if negb (String.eqb (annotation a) "@EnforcePermission") then
        enforce_permission_from_annotation_list r method_name
      else
        match annotation_const_expr a ≫= const_expr_as_string with
        | Some s => Ok (Some (Single s))
        | None =>
            match permission_param (parameter_list a) with
            | Some x => Ok (Some x)
            | None => Err (MalformedEnforcePermission method_name)
            end
        end
  end.

(** What the generated [on_transact] arm does before the call: the condition
    [render_enforce_permission_check] renders, on a permission oracle. *)
Definition enforce_condition (check_permission : string -> bool) (expr : EnforcePermissionExpr) : bool :=
  match expr with
  | Single p => check_permission p
  | AllOf ps => forallb check_permission ps
  | AnyOf ps => existsb check_permission ps
  end.

(** ** Fixed-size arrays *)

Section Arrays.
Context (lookup : string -> option ConstExpr).

(** [ArrayInfo::new]: the sizes, 0 for a dimension of variable length. *)
Fixpoint array_sizes (l : list (option ConstExpr)) : C (list Z) :=
  match l with
  | [] => Ok []
  | None :: r => let? sizes := array_sizes r in Ok (0 :: sizes)
  | Some expr :: r =>
      let? calculated := map_err (fun e => TypeError (Some e)) (calculate lookup expr) in
      let? size :=
        match value calculated with
        | VByte _ | VInt32 _ | VInt64 _ | VReference _ _ _ _ =>
            map_err (fun e => TypeError (Some e)) (to_i64 lookup calculated)
        | _ => Err (TypeError None)
        end in
      if (size <=? 0) || (i32_max <? size) then Err (TypeError None)
      else let? sizes := array_sizes r in Ok (size :: sizes)
  end.

Definition is_fixed (sizes : list Z) : bool :=
  negb (bool_decide (sizes = [])) && forallb (fun s => 0 <? s) sizes.

(** [check_fixed_arity]. *)
Fixpoint check_fixed_arity (values : list ConstExpr) (sizes : list Z) : C unit :=
  match sizes with
  | [] => Ok tt
  | dim :: rest =>
      if dim <=? 0 then Ok tt
      else if negb (zlen values =? dim) then Err (TypeError None)
      else
        (fix inner (vs : list ConstExpr) : C unit :=
           match vs with
           | [] => Ok tt
           | v :: r =>
               let? _ := match value v with
                         | VArray l => check_fixed_arity l rest
                         | _ => Ok tt
                         end in
               inner r
           end) values
  end.

End Arrays.

(** ** Module paths *)

Definition KEYWORDS : list string :=
  ["as"; "async"; "await"; "break"; "const"; "continue"; "dyn"; "else"; "enum"; "extern";
   "false"; "fn"; "for"; "if"; "impl"; "in"; "let"; "loop"; "match"; "mod"; "move"; "mut";
   "pub"; "ref"; "return"; "static"; "struct"; "trait"; "true"; "type"; "unsafe"; "use";
   "where"; "while"; "abstract"; "become"; "box"; "do"; "final"; "macro"; "override"; "priv";
   "typeof"; "unsized"; "virtual"; "yield"; "try"].

Definition escape_rust_keyword (ident : string) : string :=
  if bool_decide (ident ∈ KEYWORDS) then ("r#" ++ ident)%string else ident.

(** The segments two namespaces share at the front are dropped from both. *)
Fixpoint drop_common (curr target : list string) : list string * list string :=
  match curr, target with
  | x :: curr', y :: target' => if String.eqb x y then drop_common curr' target' else (curr, target)
  | _, _ => (curr, target)
  end.

Fixpoint join (sep : string) (l : list string) : string :=
  match l with
  | [] => ""
  | [x] => x
  | x :: r => (x ++ sep ++ join sep r)%string
  end.

Definition relative_mod (curr target : list string) : string :=
  let '(up, down) := drop_common curr target in
  (String.concat "" (replicate (length up) "super::") ++ join "::" (escape_rust_keyword <$> down))%string.

(** ** The codes of an interface *)

(** The codes given in the source. *)
Definition explicit_codes (l : list MethodDecl) : list Z := omap intvalue l.

Lemma check_codes_ok l seen :
  check_codes l seen = Ok tt ->
  NoDup (explicit_codes l) /\
  Forall (fun c => 0 <= c <= K_MAX_USER_SET_METHOD_ID /\ seen !! c = None) (explicit_codes l).
Proof.
  revert seen. induction l as [|m r IH]; intros seen; cbn; [repeat constructor|].
  destruct (intvalue m) as [code|]; [|apply IH].
  destruct (Z.ltb_spec code 0); [done|]. destruct (Z.ltb_spec u32_max code); [done|].
  destruct (Z.ltb_spec K_MAX_USER_SET_METHOD_ID code); [done|].
  destruct (seen !! code) eqn:Es; [done|]. intros [Hd Hf]%IH.
  rewrite Forall_forall in Hf. split.
  - constructor; [|exact Hd]. intros Hc. destruct (Hf _ Hc) as [_ Hs].
    rewrite lookup_insert in Hs. by destruct (decide _).
  - constructor; [done|]. rewrite Forall_forall. intros c Hc. destruct (Hf c Hc) as [? Hs]. split; [done|].
    destruct (decide (c = code)) as [->|]; [done|]. by rewrite lookup_insert_ne in Hs.
Qed.

Lemma filter_none {A} (f : A -> bool) l :
  length (List.filter f l) = 0%nat -> Forall (fun x => f x = false) l.
Proof.
  induction l as [|x l IH]; simpl; [constructor|]. destruct (f x) eqn:E; simpl; [done|].
  intros. constructor; auto.
Qed.

Lemma filter_all {A} (f : A -> bool) l :
  (length l <= length (List.filter f l))%nat -> Forall (fun x => f x = true) l.
Proof.
  assert (Hle : forall k, (length (List.filter f k) <= length k)%nat)
    by (induction k as [|x k IH]; simpl; [lia|]; destruct (f x); simpl; lia).
  induction l as [|x l IH]; simpl; [constructor|]. specialize (Hle l).
  destruct (f x) eqn:E; simpl; intros; [constructor; [done|apply IH; lia]|lia].
Qed.

Lemma codes_explicit l n :
  Forall (fun m => is_explicit m = true) l ->
  transaction_codes l n = (fun c => FIRST_CALL_TRANSACTION + wrap_u 32 c) <$> explicit_codes l.
Proof.
  unfold is_explicit, explicit_codes. induction 1 as [|m r Hm _ IH]; [done|]. simpl.
  destruct (intvalue m) as [code|]; [|done]. simpl. by rewrite IH.
Qed.

Lemma codes_implicit l n :
  Forall (fun m => is_explicit m = false) l ->
  transaction_codes l n = (fun c => FIRST_CALL_TRANSACTION + c) <$> seqZ n (zlen l).
Proof.
  unfold is_explicit. intros Hf. revert n. induction Hf as [|m r Hm _ IH]; intros n; [done|].
  cbn [transaction_codes]. destruct (intvalue m); [done|].
  rewrite IH, zlen_cons. pose proof (zlen_nonneg r). rewrite (seqZ_cons n) by lia.
  replace (Z.pred (1 + zlen r)) with (zlen r) by lia. rewrite fmap_cons.
  by replace (Z.succ n) with (n + 1) by lia.
Qed.

(** When the codes of an interface are accepted, the generated constants
    are distinct, lie in the range of user transactions and differ from the
    two meta transactions; an interface numbered by position may have any
    number of methods up to the last user code. *)
Theorem transaction_codes_distinct (decl : InterfaceDecl)
    (Hok : validate_transaction_codes decl = Ok tt)
    (Hlen : zlen (method_list decl) <= K_MAX_USER_SET_METHOD_ID) :
  let codes := transaction_codes (method_list decl) 0 in
  NoDup codes /\
  Forall (fun c => FIRST_CALL_TRANSACTION <= c <= LAST_CALL_TRANSACTION /\
                   c <> getInterfaceVersion /\ c <> getInterfaceHash) codes.
Proof.
  set (P := fun c => FIRST_CALL_TRANSACTION <= c <= LAST_CALL_TRANSACTION /\
                     c <> getInterfaceVersion /\ c <> getInterfaceHash).
  assert (HP : forall c, 0 <= c <= K_MAX_USER_SET_METHOD_ID -> P (FIRST_CALL_TRANSACTION + c)).
  { unfold P, FIRST_CALL_TRANSACTION, LAST_CALL_TRANSACTION, getInterfaceVersion, getInterfaceHash,
      FIRST_CALL_TRANSACTION, K_MAX_USER_SET_METHOD_ID. lia. }
  revert Hok. unfold validate_transaction_codes.
  destruct (Nat.eqb_spec (length (List.filter is_explicit (method_list decl))) 0) as [E|E].
  { intros _. rewrite codes_implicit by (by apply filter_none). split.
    - apply NoDup_fmap_2; [intros ? ?; lia|apply NoDup_seqZ].
    - rewrite Forall_fmap, Forall_forall. intros c Hc%elem_of_seqZ. apply HP. lia. }
  destruct (Nat.ltb_spec (length (List.filter is_explicit (method_list decl))) (length (method_list decl)))
    as [|Hall]; [done|].
  intros [Hd Hf]%check_codes_ok. rewrite codes_explicit by (by apply filter_all).
  assert (Hw : forall c, c ∈ explicit_codes (method_list decl) -> wrap_u 32 c = c).
  { rewrite Forall_forall in Hf. intros c [Hc _]%Hf. apply wrap_u_small.
    unfold in_u. unfold K_MAX_USER_SET_METHOD_ID in Hc. lia. }
  rewrite (list_fmap_ext _ (fun c => FIRST_CALL_TRANSACTION + c)).
  - split; [apply NoDup_fmap_2; [intros ? ?; lia|done]|].
    rewrite Forall_fmap. eapply Forall_impl; [exact Hf|]. intros c [Hc _]. by apply HP.
  - intros i c Hc%list_elem_of_lookup_2. by rewrite Hw.
Qed.

Definition demo_method (id : string) (code : option Z) : MethodDecl :=
  mkMethodDecl [] false (mkTypeRef "void" []) id [] code.

Lemma transaction_codes_distinct_witness :
  transaction_codes (method_list (mkInterfaceDecl false "IFoo"
    [demo_method "a" (Some 7); demo_method "b" (Some 0)])) 0 = [8; 1] /\
  NoDup (transaction_codes (method_list (mkInterfaceDecl false "IFoo"
    [demo_method "a" (Some 7); demo_method "b" (Some 0)])) 0).
Proof.
  split; [reflexivity|].
  apply (transaction_codes_distinct (mkInterfaceDecl false "IFoo"
    [demo_method "a" (Some 7); demo_method "b" (Some 0)])); [vm_compute; reflexivity|].
  vm_compute. discriminate.
Defined.

(** ** Oneway methods and permissions *)

Lemma collect_none errors :
  Forall (fun e => match e with Multiple _ => False | _ => True end) errors ->
  collect errors = None <-> errors = [].
Proof.
  intros H. split; [|by intros ->]. unfold collect. destruct H as [|e r He _]; [done|].
  destruct e; try done; cbn; by destruct (concat _).
Qed.

(** An interface passes exactly when its oneway methods return nothing, in
    no way. *)
Theorem oneway_methods_silent (interface : InterfaceDecl) :
  validate_oneway_methods interface = Ok tt <->
  Forall (fun m => interface_oneway interface || method_oneway m = true ->
            is_void_return (return_type m) = true /\
            Forall (fun a => is_mutable a = false) (arg_list m)) (method_list interface).
Proof.
  unfold validate_oneway_methods.
  set (errors := concat (oneway_errors interface <$> method_list interface)).
  assert (Hs : Forall (fun e => match e with Multiple _ => False | _ => True end) errors).
  { apply Forall_concat, Forall_fmap, Forall_forall. intros m _. cbn. unfold oneway_errors.
    destruct (negb _); [constructor|]. apply Forall_app. split.
    - destruct (is_void_return _); repeat constructor.
    - apply Forall_fmap, Forall_forall. by intros a _. }
  transitivity (errors = []).
  { rewrite <- (collect_none errors Hs). by destruct (collect errors). }
  unfold errors. clear. induction (method_list interface) as [|m r IH]; [done|].
  cbn. rewrite app_nil, Forall_cons, <- IH. clear IH.
  enough (oneway_errors interface m = [] <->
    (interface_oneway interface || method_oneway m = true ->
     is_void_return (return_type m) = true /\ Forall (fun a => is_mutable a = false) (arg_list m))) by tauto.
  unfold oneway_errors. destruct (_ || _); cbn; [|by split].
  rewrite app_nil. destruct (is_void_return _); cbn.
  - split.
    + intros [_ Hf%fmap_nil_inv] _. split; [done|]. by apply filter_none, length_zero_iff_nil.
    + intros [_ Hf]; [done|]. split; [done|].
      clear -Hf. induction Hf as [|a l Ha _ IH]; [done|]. simpl. by rewrite Ha.
  - split; [by intros []|]. intros H. by destruct (H eq_refl).
Qed.

(** An annotated method is never left unguarded: the check is generated or the
    compiler stops. *)
Theorem permission_never_dropped (l : list Annotation) (method : string) :
  enforce_permission_from_annotation_list l method = Ok None <->
  Forall (fun a => annotation a <> "@EnforcePermission") l.
Proof.
  induction l as [|a r IH]; [by split|]. rewrite Forall_cons. cbn.
  destruct (String.eqb_spec (annotation a) "@EnforcePermission") as [E|E]; cbn; [|by rewrite IH; tauto].
  split; [|by intros [? _]].
  destruct (annotation_const_expr a ≫= const_expr_as_string); [done|]. by destruct (permission_param _).
Qed.

(** ** Fixed-size arrays *)

(** Accepted dimensions are positive and fit an [int]; 0 marks a dimension of
    variable length. *)
Lemma array_sizes_ok lookup l sizes :
  array_sizes lookup l = Ok sizes ->
  Forall2 (fun d s => match d with None => s = 0 | Some _ => 0 < s <= i32_max end) l sizes.
Proof.
  revert sizes. induction l as [|[e|] l IH]; intros sizes; cbn [array_sizes].
  - intros. simplify_eq. constructor.
  - destruct (map_err _ (calculate lookup e)) as [c| |]; try done.
    destruct (match value c with VByte _ | VInt32 _ | VInt64 _ | VReference _ _ _ _ => _ | _ => _ end)
      as [size| |]; try done.
    destruct (Z.leb_spec size 0); [done|]. destruct (Z.ltb_spec i32_max size); [done|]. cbn.
    destruct (array_sizes lookup l) as [ss| |]; try done. intros. simplify_eq. constructor; auto.
  - destruct (array_sizes lookup l) as [ss| |]; try done. intros. simplify_eq. constructor; auto.
Qed.

(** What [check_fixed_arity] ensures: the declared number of elements in every
    dimension whose elements are arrays. *)
Fixpoint arity (sizes : list Z) (values : list ConstExpr) : Prop :=
  match sizes with
  | [] => True
  | dim :: rest =>
      0 < dim -> zlen values = dim /\
      Forall (fun v => match value v with VArray l => arity rest l | _ => True end) values
  end.

Lemma check_fixed_arity_ok sizes values : check_fixed_arity values sizes = Ok tt -> arity sizes values.
Proof.
  revert values. induction sizes as [|dim rest IH]; intros values; cbn; [done|].
  destruct (Z.leb_spec dim 0); [lia|]. destruct (Z.eqb_spec (zlen values) dim) as [E|]; [|done]. cbn.
  intros H' _. split; [done|]. clear E. induction values as [|v r IHr]; [constructor|].
  destruct (value v) eqn:Ev; try (constructor; [by rewrite Ev|]; by apply IHr).
  destruct (check_fixed_arity l rest) as [[]| |] eqn:El; try done.
  constructor; [rewrite Ev; by apply IH|by apply IHr].
Qed.

(** A flat list passes for a matrix: elements that are not arrays are not
    looked at. *)
Lemma flat_default_accepted :
  check_fixed_arity [const_new (VByte 1); const_new (VByte 2)] [2; 3] = Ok tt.
Proof. reflexivity. Qed.

(** ** Module paths *)

(** Following a relative path from a module: up, then down. *)
Definition follow (curr : list string) (path : list string * list string) : list string :=
  take (length curr - length (fst path)) curr ++ snd path.

Lemma relative_path_resolves curr target : follow curr (drop_common curr target) = target.
Proof.
  revert target. induction curr as [|x curr IH]; intros [|y target]; try done.
  - unfold follow. cbn. by rewrite Nat.sub_diag.
  - cbn [drop_common]. destruct (String.eqb_spec x y) as [->|].
    + specialize (IH target). unfold follow in *.
      assert (Hl : (length (fst (drop_common curr target)) <= length curr)%nat).
      { clear. revert target. induction curr as [|z curr IH]; intros [|w target]; cbn; try lia.
        destruct (String.eqb z w); cbn; [specialize (IH target); lia|lia]. }
      cbn [length]. rewrite Nat.sub_succ_l by done. cbn. by rewrite IH.
    + unfold follow. cbn. by rewrite Nat.sub_diag.
Qed.
