(* ===== verification/Server.v ===== *)
(** The RPC server (src/rsbinder/src/rpc/server.rs): its settings, the registry
    of sessions, the accept loop and the worker threads that serve connections,
    with the parts of session.rs a worker uses to found, join and leave a session.

    Threads interleave: a worker is its program point in
    [run_connection_in_worker] and [serve_blocking_on_inner] ([Phase]), and
    [advance] runs it to the next point at which another thread can observe
    it. An operation on the session's lifecycle word is one step, the pass of
    its loop that returns (Lifecycle.v has the other passes, which change
    nothing); an operation on the slot pool is one step of Slots.v. What comes
    from outside is the [Input] of a step. The server's log keeps what workers
    did. Timeouts and TLS are not modelled. *)

From Stdlib Require Import ZArith Lia Strings.Byte.
From stdpp Require Import base gmap strings list.
From S2P Require Import Prelude Errors Address Transport Wire WireAndroid13 RpcState Parcel Slots Lifecycle.

(** * Sessions *)

(** [RpcSessionInner] with its [SharedSession], without the object table.
    [callbacks] is the callback slots added so far, for the proofs. *)
Record Inner : Type := mkInner {
  rpc_session_id : list byte;
  wire_protocol_version : option Z;
  max_threads_value : Z;
  session_root : option SIBinder;
  session_fd_mode : FdMode;
  session_fd_unix : bool;
  lifecycle : Z;
  conns : World;
  callbacks : list Z
}.

Definition FOUNDING_SLOT_ID : Z := 1.
Definition founding_pool : World := mkWorld (mkPool [mkSlot 1 None] 2) (fun _ => []) (fun _ => []).

(** [fresh_shared] and [with_shared]. *)
Definition fresh_session (id : list byte) (version : option Z) (mode : FdMode) : Inner :=
  mkInner id version 1 None mode false (encode_live 1) founding_pool [].

(** The descriptor mode of [from_android13plus]. *)
Definition accepted_fd_mode (server_fd_unix : bool) (client_fd_mode negotiated : Z) : FdMode :=
  if server_fd_unix && (client_fd_mode =? FD_MODE_UNIX) && (PROTOCOL_V1 <=? negotiated)
  then FdUnix else FdNone.

Definition with_life (w : Z) (n : Inner) : Inner :=
  mkInner (rpc_session_id n) (wire_protocol_version n) (max_threads_value n) (session_root n)
          (session_fd_mode n) (session_fd_unix n) w (conns n) (callbacks n).
Definition with_conns (c : World) (n : Inner) : Inner :=
  mkInner (rpc_session_id n) (wire_protocol_version n) (max_threads_value n) (session_root n)
          (session_fd_mode n) (session_fd_unix n) (lifecycle n) c (callbacks n).
Definition with_callback (slot : Z) (n : Inner) : Inner :=
  mkInner (rpc_session_id n) (wire_protocol_version n) (max_threads_value n) (session_root n)
          (session_fd_mode n) (session_fd_unix n) (lifecycle n) (conns n) (slot :: callbacks n).

Definition slot_count (n : Inner) : Z := zlen (slots (pool (conns n))).
Definition torn_down (n : Inner) : bool := is_torn_down (lifecycle n).

(** [SharedSession::try_bump_live_conns]: the pass that returns. *)
Definition try_bump_live_conns (n : Inner) : bool * Inner :=
  match try_bump_live false (lifecycle n) (lifecycle n) with
  | Returns ok w => (ok, with_life w n)
  | Retry => (false, n)
  end.

Definition leave_connection (n : Inner) : bool * Inner :=
  match drop_connection false (lifecycle n) (lifecycle n) with
  | Returns last w => (last, with_life w n)
  | Retry => (false, n)
  end.

(** The two halves of [add_callback_slot] after the lifecycle gate, and the
    second half of [add_incoming_slot]. *)
Definition push_slot (n : Inner) : Z * Inner :=
  let (id, c) := add_slot_inner (conns n) in (id, with_conns c n).
Definition push_callback (cap : Z) (n : Inner) : option Z * Inner :=
  match add_slot_inner_capped cap (conns n) with
  | (Some id, c) => (Some id, with_callback id (with_conns c n))
  | (None, c) => (None, with_conns c n)
  end.

(** * The server *)

(** The program points of a worker; the data are the variables alive there. *)
Inductive Phase {Peer : Type} : Type :=
| Spawned (peer : Peer)
| Authorized (peer : Peer)
| Shaken (peer : Peer) (fd_unix : bool) (v fd_mode : Z) (client_id : list byte) (incoming : bool)
| Founding (peer : Peer) (i : nat)
| Made (peer : Peer) (i : nat)
| Resolved (peer : Peer) (i : nat) (v : Z) (client_id : list byte) (incoming : bool)
| Gated (peer : Peer) (i : nat) (v : Z) (client_id : list byte) (incoming : bool)
| Roomy (peer : Peer) (i : nat) (v : Z) (client_id : list byte)
| Bumped (peer : Peer) (i : nat) (v : Z) (client_id : list byte)
| Added (peer : Peer) (i : nat) (v : Z) (client_id : list byte) (slot : Z)
| CallingBack (peer : Peer) (i : nat) (v : Z) (client_id : list byte) (cap : Z)
| Serving (peer : Peer) (i : nat) (slot : Z)
| Left (peer : Peer) (i : nat) (slot : Z) (last : bool)
| Mourned (peer : Peer) (i : nat) (slot : Z)
| Finished.
Arguments Phase : clear implicits.

(** What a worker did, newest first in the log. *)
Inductive Event {Peer : Type} : Type :=
| PassedHook (peer : Peer) (hook : option (Peer -> bool))
| Refused (peer : Peer)
| Founded (peer : Peer) (i : nat)
| Registered (i : nat)
| Attached (peer : Peer) (i : nat) (v : Z) (client_id : list byte)
| CalledBack (peer : Peer) (i : nat) (v : Z) (client_id : list byte)
| Rejected (peer : Peer)
| Obituary (i : nat).
Arguments Event : clear implicits.

(** The accept loop: at its head, about to accept, ended. *)
Inductive Loop : Type :=
| Top
| Accepting
| Stopped (result : outcome StatusCode unit).

(** What the application sets. *)
Record Settings (Peer : Type) : Type := mkSettings {
  root : option SIBinder;
  named : gmap string SIBinder;
  directory : SIBinder;
  max_threads : Z;
  fd_unix_supported : bool;
  wire_max_version : option Z;
  max_connections : option Z;
  authorizer : option (Peer -> bool);
  shutdown : bool
}.
Arguments mkSettings {Peer}.
Arguments root {Peer}.
Arguments named {Peer}.
Arguments directory {Peer}.
Arguments max_threads {Peer}.
Arguments fd_unix_supported {Peer}.
Arguments wire_max_version {Peer}.
Arguments max_connections {Peer}.
Arguments authorizer {Peer}.
Arguments shutdown {Peer}.

(** [inners] are the sessions ever made, [workers] the workers ever spawned,
    [handles] the workers whose handle the server keeps, [holders] the sessions
    other threads of the process hold at the moment. *)
Record Server (Peer : Type) : Type := mkServer {
  settings : Settings Peer;
  sessions : gmap (list byte) nat;
  session_registered : Z;
  attached_count : Z;
  rejected_unknown_id : Z;
  handles : list nat;
  inners : list Inner;
  workers : list (Phase Peer);
  holders : list nat;
  loop : Loop;
  log : list (Event Peer)
}.
Arguments mkServer {Peer}.
Arguments settings {Peer}.
Arguments sessions {Peer}.
Arguments session_registered {Peer}.
Arguments attached_count {Peer}.
Arguments rejected_unknown_id {Peer}.
Arguments handles {Peer}.
Arguments inners {Peer}.
Arguments workers {Peer}.
Arguments holders {Peer}.
Arguments loop {Peer}.
Arguments log {Peer}.

(** The [errno]s that [run] tells apart. *)
Class AcceptErrno := {
  EPROTO : Z; ENETDOWN : Z; ENETUNREACH : Z; EHOSTUNREACH : Z; ETIMEDOUT : Z;
  EMFILE : Z; ENFILE : Z; ENOMEM : Z; ENOBUFS : Z
}.

Section Server.
Context {Peer : Type} {PW : PtrWidth} {ET : ErrnoTable} {AE : AcceptErrno}.
Local Abbreviation Srv := (Server Peer).

(** ** Fields *)

Definition set_settings (c : Settings Peer) (s : Srv) : Srv :=
  mkServer c (sessions s) (session_registered s) (attached_count s) (rejected_unknown_id s)
           (handles s) (inners s) (workers s) (holders s) (loop s) (log s).
Definition set_handles (l : list nat) (s : Srv) : Srv :=
  mkServer (settings s) (sessions s) (session_registered s) (attached_count s)
           (rejected_unknown_id s) l (inners s) (workers s) (holders s) (loop s) (log s).
Definition set_holders (l : list nat) (s : Srv) : Srv :=
  mkServer (settings s) (sessions s) (session_registered s) (attached_count s)
           (rejected_unknown_id s) (handles s) (inners s) (workers s) l (loop s) (log s).
Definition set_loop (l : Loop) (s : Srv) : Srv :=
  mkServer (settings s) (sessions s) (session_registered s) (attached_count s)
           (rejected_unknown_id s) (handles s) (inners s) (workers s) (holders s) l (log s).
Definition set_registry (m : gmap (list byte) nat) (n : Z) (s : Srv) : Srv :=
  mkServer (settings s) m n (attached_count s) (rejected_unknown_id s) (handles s) (inners s)
           (workers s) (holders s) (loop s) (log s).
Definition set_counts (attached rejected : Z) (s : Srv) : Srv :=
  mkServer (settings s) (sessions s) (session_registered s) attached rejected (handles s)
           (inners s) (workers s) (holders s) (loop s) (log s).
Definition set_inners (l : list Inner) (s : Srv) : Srv :=
  mkServer (settings s) (sessions s) (session_registered s) (attached_count s)
           (rejected_unknown_id s) (handles s) l (workers s) (holders s) (loop s) (log s).
Definition set_workers (l : list (Phase Peer)) (s : Srv) : Srv :=
  mkServer (settings s) (sessions s) (session_registered s) (attached_count s)
           (rejected_unknown_id s) (handles s) (inners s) l (holders s) (loop s) (log s).
Definition note (e : Event Peer) (s : Srv) : Srv :=
  mkServer (settings s) (sessions s) (session_registered s) (attached_count s)
           (rejected_unknown_id s) (handles s) (inners s) (workers s) (holders s) (loop s)
           (e :: log s).

(** Worker [w] goes on at [ph]; session [i] becomes [n]. *)
Definition goto (w : nat) (ph : Phase Peer) (s : Srv) : Srv := set_workers (<[w := ph]> (workers s)) s.
Definition put_inner (i : nat) (n : Inner) (s : Srv) : Srv := set_inners (<[i := n]> (inners s)) s.

(** ** The settings *)

Definition set_root (binder : SIBinder) (c : Settings Peer) : Settings Peer :=
  mkSettings (Some binder) (named c) (directory c) (max_threads c) (fd_unix_supported c)
             (wire_max_version c) (max_connections c) (authorizer c) (shutdown c).
Definition add_service (name : string) (binder : SIBinder) (c : Settings Peer) : Settings Peer :=
  mkSettings (Some (directory c)) (<[name := binder]> (named c)) (directory c) (max_threads c)
             (fd_unix_supported c) (wire_max_version c) (max_connections c) (authorizer c)
             (shutdown c).
Definition set_max_threads (n : Z) (c : Settings Peer) : Settings Peer :=
  mkSettings (root c) (named c) (directory c) (Z.max n 1) (fd_unix_supported c)
             (wire_max_version c) (max_connections c) (authorizer c) (shutdown c).
Definition set_max_connections (n : Z) (c : Settings Peer) : Settings Peer :=
  mkSettings (root c) (named c) (directory c) (max_threads c) (fd_unix_supported c)
             (wire_max_version c) (Some (Z.max n 1)) (authorizer c) (shutdown c).
Definition set_authorizer (f : Peer -> bool) (c : Settings Peer) : Settings Peer :=
  mkSettings (root c) (named c) (directory c) (max_threads c) (fd_unix_supported c)
             (wire_max_version c) (max_connections c) (Some f) (shutdown c).
Definition set_supported_fd_modes (modes : list FdMode) (c : Settings Peer) : Settings Peer :=
  mkSettings (root c) (named c) (directory c) (max_threads c) (bool_decide (FdUnix ∈ modes))
             (wire_max_version c) (max_connections c) (authorizer c) (shutdown c).
Definition set_android13plus (max_version : Z) (c : Settings Peer) : Settings Peer :=
  mkSettings (root c) (named c) (directory c) (max_threads c) (fd_unix_supported c)
             (Some max_version) (max_connections c) (authorizer c) (shutdown c).
Definition set_shutdown (c : Settings Peer) : Settings Peer :=
  mkSettings (root c) (named c) (directory c) (max_threads c) (fd_unix_supported c)
             (wire_max_version c) (max_connections c) (authorizer c) true.

(** [wrap]. *)
Definition new_server (directory : SIBinder) : Srv :=
  mkServer (mkSettings None ∅ directory 1 false None None None false) ∅ 0 0 0 [] [] [] []
           (Stopped (Ok tt)) [].

(** ** The registry *)

(** The session whose [Arc] a worker keeps at a program point. *)
Definition held_by (ph : Phase Peer) : option nat :=
  match ph with
  | Spawned _ | Authorized _ | Shaken _ _ _ _ _ _ | Finished => None
  | Founding _ i | Made _ i | Resolved _ i _ _ _ | Gated _ i _ _ _ | Roomy _ i _ _
  | Bumped _ i _ _ | Added _ i _ _ _ | CallingBack _ i _ _ _ | Serving _ i _
  | Left _ i _ _ | Mourned _ i _ => Some i
  end.

(** [Weak::upgrade] succeeds. *)
Definition alive (s : Srv) (i : nat) : bool :=
  existsb (fun ph => bool_decide (held_by ph = Some i)) (workers s) || bool_decide (i ∈ holders s).

Definition try_from_slice (id : list byte) : option (list byte) :=
  if zlen id =? 32 then Some id else None.

Definition register_session (id : list byte) (i : nat) (s : Srv) : Srv :=
  set_registry (<[id := i]> (filter (fun kv => alive s kv.2 = true) (sessions s)))
               (session_registered s + 1) s.

Definition resolve_session (id : list byte) (s : Srv) : option nat :=
  match try_from_slice id with
  | None => None
  | Some key =>
      match sessions s !! key with
      | Some i => if alive s i then Some i else None
      | None => None
      end
  end.

Definition session_live_conns (id : list byte) (s : Srv) : option Z :=
  match sessions s !! id with
  | Some i => if alive s i then (fun n => live_count (lifecycle n)) <$> inners s !! i else None
  | None => None
  end.
Definition session_slot_count (id : list byte) (s : Srv) : option Z :=
  match sessions s !! id with
  | Some i => if alive s i then slot_count <$> inners s !! i else None
  | None => None
  end.

(** ** The worker *)

Definition configure_session (c : Settings Peer) (n : Inner) : Inner :=
  mkInner (rpc_session_id n) (wire_protocol_version n) (Z.max (max_threads c) 1)
          (match root c with Some r => Some r | None => session_root n end)
          (session_fd_mode n) (if fd_unix_supported c then true else session_fd_unix n)
          (lifecycle n) (conns n) (callbacks n).

(** What a step takes from outside: nothing, a failure of the environment (the
    transport cannot be set up, no random id), the peer's end of the handshake,
    a random session id, the end of the serve loop. *)
Inductive Input : Type :=
| Go
| Fails
| Handshake (ep : endpoint)
| Random (id : list byte)
| Closed.

Definition reject (w : nat) (peer : Peer) (s : Srv) : Srv :=
  goto w Finished (note (Rejected peer)
    (set_counts (attached_count s) (rejected_unknown_id s + 1) s)).

(** The authorization gate. *)
Definition authorize (w : nat) (peer : Peer) (s : Srv) : Srv :=
  match authorizer (settings s) with
  | Some authz =>
      if authz peer then goto w (Authorized peer) (note (PassedHook peer (Some authz)) s)
      else goto w Finished (note (Refused peer) s)
  | None => goto w (Authorized peer) (note (PassedHook peer None) s)
  end.

Definition shake (w : nat) (peer : Peer) (max : Z) (ep : endpoint) (s : Srv) : Srv :=
  match fst (server_accept max ep) with
  | Ok (codec, client_fd_mode, client_id, incoming) =>
      goto w (Shaken peer (fd_unix_supported (settings s)) (version codec) client_fd_mode
                     client_id incoming) s
  | _ => goto w Finished s
  end.

(** A session is made and the worker goes on with it. *)
Definition make_inner (w : nat) (peer : Peer) (n : Inner) (next : Peer -> nat -> Phase Peer) (s : Srv)
  : Srv :=
  let i := length (inners s) in
  goto w (next peer i) (note (Founded peer i) (set_inners (inners s ++ [n]) s)).

(** The first part of both attach arms: the session and its version. *)
Definition find_session (w : nat) (peer : Peer) (v : Z) (client_id : list byte) (incoming : bool)
    (s : Srv) : option Srv :=
  match resolve_session client_id s with
  | None => Some (reject w peer s)
  | Some i =>
      match inners s !! i with
      | None => None
      | Some n =>
          if bool_decide (wire_protocol_version n = Some v)
          then Some (goto w (Resolved peer i v client_id incoming) s)
          else Some (reject w peer s)
      end
  end.

Definition incoming_cap (n : Inner) : Z := Z.min (2 * max_threads_value n) usize_max.

(** After the shutdown gate: the two admission checks. *)
Definition check_room (w : nat) (peer : Peer) (i : nat) (v : Z) (client_id : list byte)
    (incoming : bool) (n : Inner) (s : Srv) : Srv :=
  if incoming then
    if torn_down n then reject w peer s
    else goto w (CallingBack peer i v client_id (incoming_cap n)) s
  else
    if max_threads_value n <=? slot_count n then reject w peer s
    else goto w (Roomy peer i v client_id) s.

(** The end of a served connection: the connection is dropped from the
    lifecycle; the last one sends the obituaries and marks the session dead; the
    slot is removed. *)
Definition exit_on (w : nat) (ph : Phase Peer) (i : nat) (n : Inner) (inp : Input) (s : Srv)
  : option Srv :=
  match ph, inp with
  | Serving peer _ slot, Closed =>
      let (last, n) := leave_connection n in
      Some (goto w (Left peer i slot last) (put_inner i n s))
  | Left peer _ slot true, Go => Some (goto w (Mourned peer i slot) (note (Obituary i) s))
  | Mourned peer _ slot, Go =>
      Some (goto w (Left peer i slot false) (put_inner i (with_life (mark_dead (lifecycle n)) n) s))
  | Left peer _ slot false, Go =>
      Some (goto w Finished (put_inner i (with_conns (remove_slot slot (conns n)) n) s))
  | _, _ => None
  end.

(** The steps of a worker that is bound to session [i], which is [n]. *)
Definition advance_on (w : nat) (ph : Phase Peer) (i : nat) (n : Inner) (inp : Input) (s : Srv)
  : option Srv :=
  match ph, inp with
  | Founding peer _, Go =>
      Some (goto w (Made peer i) (note (Registered i) (register_session (rpc_session_id n) i s)))
  | Made peer _, Go =>
      Some (goto w (Serving peer i FOUNDING_SLOT_ID)
                 (put_inner i (configure_session (settings s) n) s))
  | Resolved peer _ v id incoming, Go =>
      if shutdown (settings s) then Some (reject w peer s)
      else Some (goto w (Gated peer i v id incoming) s)
  | Gated peer _ v id incoming, Go => Some (check_room w peer i v id incoming n s)
  | Roomy peer _ v id, Go =>
      let (ok, n) := try_bump_live_conns n in
      let s := put_inner i n s in
      if ok then Some (goto w (Bumped peer i v id) s) else Some (reject w peer s)
  | Bumped peer _ v id, Go =>
      let (slot, n) := push_slot n in
      Some (goto w (Added peer i v id slot) (put_inner i n s))
  | Added peer _ v id slot, Go =>
      Some (goto w (Serving peer i slot) (note (Attached peer i v id)
             (set_counts (attached_count s + 1) (rejected_unknown_id s) s)))
  | CallingBack peer _ v id cap, Go =>
      let (slot, n) := push_callback cap n in
      let s := put_inner i n s in
      match slot with
      | Some _ => Some (goto w Finished (note (CalledBack peer i v id) s))
      | None => Some (reject w peer s)
      end
  | _, _ => exit_on w ph i n inp s
  end.

(** One step of worker [w]; [None] when the input is not what it waits for. *)
Definition advance (w : nat) (inp : Input) (s : Srv) : option Srv :=
  match workers s !! w with
  | None => None
  | Some ph =>
      match held_by ph with
      | Some i => match inners s !! i with Some n => advance_on w ph i n inp s | None => None end
      | None =>
          match ph, inp with
          | Spawned _, Fails => Some (goto w Finished s)
          | Spawned peer, Go => Some (authorize w peer s)
          | Authorized peer, Handshake ep =>
              match wire_max_version (settings s) with
              | Some max => Some (shake w peer max ep s)
              | None => None
              end
          | Authorized peer, Random id =>
              match wire_max_version (settings s) with
              | Some _ => None
              | None => Some (make_inner w peer (fresh_session id None FdNone) Made s)
              end
          | Authorized _, Fails => Some (goto w Finished s)
          | Shaken peer fd_unix v fd_mode [] false, Random id =>
              Some (make_inner w peer (fresh_session id (Some v) (accepted_fd_mode fd_unix fd_mode v))
                               Founding s)
          | Shaken peer _ _ _ [] false, Fails => Some (goto w Finished s)
          | Shaken peer _ v _ client_id incoming, Go =>
              if incoming || negb (bool_decide (client_id = []))
              then find_session w peer v client_id incoming s else None
          | _, _ => None
          end
      end
  end.

(** ** The accept loop *)

Definition finished (s : Srv) (w : nat) : bool :=
  match workers s !! w with Some Finished => true | _ => false end.

Definition live_worker_count (s : Srv) : Z * Srv :=
  let l := filter (fun w => finished s w = false) (handles s) in
  (zlen l, set_handles l s).

(** A worker is spawned and its handle kept. *)
Definition spawn (peer : Peer) (s : Srv) : Srv :=
  let w := length (workers s) in
  let s := set_workers (workers s ++ [Spawned peer]) s in
  set_handles (filter (fun w => finished s w = false) (handles s) ++ [w]) s.

(** What [run] makes of a failed [accept]. *)
Definition accept_transient (e : io_error) : bool :=
  bool_decide (kind e = WouldBlockKind) ||
  bool_decide (kind e ∈ [ConnectionAborted; ConnectionReset; Interrupted]) ||
  match raw_os_error e with
  | Some code =>
      bool_decide (code ∈ [EPROTO; ENETDOWN; ENETUNREACH; EHOSTUNREACH; ETIMEDOUT]) ||
      bool_decide (code ∈ [EMFILE; ENFILE; ENOMEM; ENOBUFS])
  | None => false
  end.

(** What [accept] gives: a connection (and whether its worker could be
    spawned), or an error. *)
Inductive Accepted : Type :=
| Connection (peer : Peer) (spawned : bool)
| AcceptError (e : io_error).

Definition run_top (s : Srv) : Srv :=
  if shutdown (settings s) then set_loop (Stopped (Ok tt)) s
  else
    match max_connections (settings s) with
    | Some max =>
        let (live, s) := live_worker_count s in
        if max <=? live then s else set_loop Accepting s
    | None => set_loop Accepting s
    end.

Definition run_accept (a : Accepted) (s : Srv) : Srv :=
  match a with
  | Connection peer true => set_loop Top (spawn peer s)
  | Connection _ false => set_loop Top s
  | AcceptError e =>
      if accept_transient e then set_loop Top s
      else set_loop (Stopped (Err (status_of_io e))) s
  end.

(** * Runs *)

(** A thread of the session that selects, releases or retires slots. *)
Definition adds_none (c c' : World) : Prop :=
  next_slot_id (pool c') = next_slot_id (pool c) /\
  (slot_id <$> slots (pool c')) `sublist_of` (slot_id <$> slots (pool c)).

(** The server on its own: its workers, its accept loop (one thread runs it),
    the other threads of its sessions, and [shutdown]. *)
Inductive server_step (s : Srv) : Srv -> Prop :=
| st_worker w inp s' : advance w inp s = Some s' -> server_step s s'
| st_top : loop s = Top -> server_step s (run_top s)
| st_accept a : loop s = Accepting -> server_step s (run_accept a s)
| st_use i n c :
    inners s !! i = Some n -> alive s i = true ->
    pool_step (Z.of_nat i) (conns n) c -> adds_none (conns n) c ->
    server_step s (put_inner i (with_conns c n) s)
| st_hold i : alive s i = true -> server_step s (set_holders (i :: holders s) s)
| st_release pre i post :
    holders s = pre ++ i :: post -> server_step s (set_holders (pre ++ post) s)
| st_shutdown : server_step s (set_settings (set_shutdown (settings s)) s).

(** The application: the setters, [serve_connection] on a transport of its own,
    [run] and [join_workers]. *)
Inductive admin_step (s : Srv) : Srv -> Prop :=
| ad_set_root b : admin_step s (set_settings (set_root b (settings s)) s)
| ad_add_service name b : admin_step s (set_settings (add_service name b (settings s)) s)
| ad_set_max_threads n : admin_step s (set_settings (set_max_threads n (settings s)) s)
| ad_set_max_connections n : admin_step s (set_settings (set_max_connections n (settings s)) s)
| ad_set_authorizer f : admin_step s (set_settings (set_authorizer f (settings s)) s)
| ad_set_fd_modes l : admin_step s (set_settings (set_supported_fd_modes l (settings s)) s)
| ad_set_android13plus v : admin_step s (set_settings (set_android13plus v (settings s)) s)
| ad_serve_connection peer : admin_step s (spawn peer s)
| ad_run r : loop s = Stopped r -> admin_step s (set_loop Top s)
| ad_join : admin_step s (set_handles [] s).

Inductive server_reachable : Srv -> Prop :=
| sr_new d : server_reachable (new_server d)
| sr_step s s' : server_reachable s -> server_step s s' -> server_reachable s'
| sr_admin s s' : server_reachable s -> admin_step s s' -> server_reachable s'.

(** * The invariant *)

(** What a worker is to its session: a connection (with its slot once it has
    one), the one that has to send the obituaries, the one that has sent them,
    or one that only has to retire its slot. *)
Inductive Role : Type :=
| Conn (slot : option Z)
| Doomed (slot : Z)
| Sent (slot : Z)
| Leaving (slot : Z).

Definition role (ph : Phase Peer) : option (nat * Role) :=
  match ph with
  | Founding _ i | Made _ i => Some (i, Conn (Some FOUNDING_SLOT_ID))
  | Bumped _ i _ _ => Some (i, Conn None)
  | Added _ i _ _ slot | Serving _ i slot => Some (i, Conn (Some slot))
  | Left _ i slot true => Some (i, Doomed slot)
  | Mourned _ i slot => Some (i, Sent slot)
  | Left _ i slot false => Some (i, Leaving slot)
  | _ => None
  end.

Definition slot_in (r : Role) : option Z :=
  match r with Conn slot => slot | Doomed slot | Sent slot | Leaving slot => Some slot end.

(** The slot of session [i] a worker is responsible for. *)
Definition slot_of (i : nat) (r : option (nat * Role)) : option Z :=
  match r with Some (j, x) => if Nat.eqb j i then slot_in x else None | None => None end.

Abbreviation Roles := (list (option (nat * Role))).

Definition is_conn (i : nat) (r : option (nat * Role)) : bool :=
  match r with Some (j, Conn _) => Nat.eqb j i | _ => false end.
Definition is_doomed (i : nat) (r : option (nat * Role)) : bool :=
  match r with Some (j, Doomed _) => Nat.eqb j i | _ => false end.
Definition is_sent (i : nat) (r : option (nat * Role)) : bool :=
  match r with Some (j, Sent _) => Nat.eqb j i | _ => false end.
Definition is_obituary (i : nat) (e : Event Peer) : bool :=
  match e with Obituary j => Nat.eqb j i | _ => false end.

Definition roles (s : Srv) : Roles := role <$> workers s.

(** The connections of session [i], and the obituaries sent for it. *)
Definition connected (i : nat) (s : Srv) : Z := tally (is_conn i) (roles s).
Definition obituaries (i : nat) (s : Srv) : Z := tally (is_obituary i) (log s).

Inductive life_state (conns doomed sent obits word : Z) : Prop :=
| LsLive : 1 <= conns -> word = conns -> doomed = 0 -> sent = 0 -> obits = 0 ->
    life_state conns doomed sent obits word
| LsDying : conns = 0 -> word = encode_dying -> doomed + sent = 1 -> obits = sent ->
    life_state conns doomed sent obits word
| LsDead : conns = 0 -> word = encode_dead -> doomed = 0 -> sent = 0 -> obits = 1 ->
    life_state conns doomed sent obits word.

Definition pool_ids (n : Inner) : list Z := slot_id <$> slots (pool (conns n)).

Record inner_inv (i : nat) (n : Inner) (rs : Roles) (lg : list (Event Peer)) : Prop := mkInnerInv {
  ii_pool : pool_inv (Z.of_nat i) (conns n);
  ii_life : life_state (tally (is_conn i) rs) (tally (is_doomed i) rs) (tally (is_sent i) rs)
                       (tally (is_obituary i) lg) (lifecycle n);
  ii_owned : forall id, id ∈ pool_ids n ->
    id ∈ callbacks n \/ exists w r, rs !! w = Some r /\ slot_of i r = Some id;
  ii_unique : forall w1 w2 r1 r2 id, rs !! w1 = Some r1 -> rs !! w2 = Some r2 ->
    slot_of i r1 = Some id -> slot_of i r2 = Some id -> w1 = w2;
  ii_known : forall w r id, rs !! w = Some r -> slot_of i r = Some id ->
    id < next_slot_id (pool (conns n)) /\ id ∉ callbacks n;
  ii_callbacks : forall id, id ∈ callbacks n -> id < next_slot_id (pool (conns n));
  ii_cap : zlen (filter (fun id => id ∈ callbacks n) (pool_ids n)) <= incoming_cap n;
  ii_threads : 1 <= max_threads_value n
}.

(** ** Lifecycle *)

Lemma with_life_same n : with_life (lifecycle n) n = n.
Proof. by destruct n. Qed.

Lemma bump_life n c d m o :
  life_state c d m o (lifecycle n) -> c < COUNT_MASK ->
  match try_bump_live_conns n with
  | (true, n') => exists w, n' = with_life w n /\ life_state (c + 1) d m o w
  | (false, n') => n' = n
  end.
Proof.
  intros Hl Hc. unfold try_bump_live_conns, try_bump_live.
  destruct Hl as [H1 Ew -> -> -> | -> Ew Hd -> | -> Ew -> -> ->]; rewrite Ew.
  2, 3: cbv [is_torn_down is_live] ; vm_compute (negb _);
    rewrite <- Ew; apply with_life_same.
  assert (Hw : live_word c) by (unfold live_word; lia).
  unfold is_torn_down. rewrite (is_live_word c Hw). cbn [negb]. unfold exchange. rewrite Z.eqb_refl.
  cbn. rewrite count_mask in Hc. rewrite wrap_u_small by (unfold in_u; simpl; lia).
  eexists. split; [done |]. apply LsLive; lia.
Qed.

Lemma leave_life n c d m o :
  life_state c d m o (lifecycle n) -> 1 <= c <= COUNT_MASK ->
  exists last w, leave_connection n = (last, with_life w n) /\
                 life_state (c - 1) (d + Z.b2z last) m o w.
Proof.
  intros Hl Hc. unfold leave_connection, drop_connection.
  destruct Hl as [H1 Ew -> -> -> | -> Ew Hd -> | -> Ew -> -> ->]; [| lia | lia]. rewrite Ew.
  unfold is_torn_down. rewrite (is_live_word c Hc), live_word_count by done. cbn [negb].
  unfold exchange. rewrite Z.eqb_refl. cbn [andb negb].
  destruct (Z.eqb_spec c 1) as [-> |]; eexists _, _; (split; [reflexivity |]).
  - by apply LsDying.
  - rewrite count_mask in Hc. rewrite wrap_u_small by (unfold in_u; simpl; lia).
    apply LsLive; cbn; lia.
Qed.

(** ** One session *)

(** The parts of a role that session [i] sees. *)
Definition same_view (i : nat) (r r' : option (nat * Role)) : Prop :=
  slot_of i r' = slot_of i r /\ is_conn i r' = is_conn i r /\ is_doomed i r' = is_doomed i r /\
  is_sent i r' = is_sent i r.

Definition role_on (i : nat) (r : option (nat * Role)) : Prop :=
  match r with Some (j, _) => j = i | None => True end.

Lemma other_view i j r r' : j <> i -> role_on i r -> role_on i r' -> same_view j r r'.
Proof.
  intros Hne Hr Hr'. unfold same_view.
  assert (Hj : Nat.eqb i j = false) by (apply Nat.eqb_neq; lia).
  destruct r as [[a []] |], r' as [[b []] |]; cbn in *; subst; by rewrite ?Hj.
Qed.

(** A worker's role changes and its slot stays; the pool is as before. *)
Lemma inner_role i n n' rs lg lg' w r0 r1 :
  inner_inv i n rs lg -> rs !! w = Some r0 -> slot_of i r1 = slot_of i r0 ->
  conns n' = conns n -> callbacks n' = callbacks n -> incoming_cap n <= incoming_cap n' ->
  1 <= max_threads_value n' ->
  life_state (tally (is_conn i) (<[w := r1]> rs)) (tally (is_doomed i) (<[w := r1]> rs))
             (tally (is_sent i) (<[w := r1]> rs)) (tally (is_obituary i) lg') (lifecycle n') ->
  inner_inv i n' (<[w := r1]> rs) lg'.
Proof.
  intros [Hp Hl Ho Hu Hk Hc Hcap Ht] Ew Es Ec Eb Hic Ht' Hl'.
  assert (Hslot : forall v r id, <[w := r1]> rs !! v = Some r -> slot_of i r = Some id ->
                    exists r', rs !! v = Some r' /\ slot_of i r' = Some id).
  { intros v r id [(-> & -> & _) | [_ Ev]]%list_lookup_insert_Some Er; [exists r0 | by exists r].
    by rewrite <- Es. }
  unfold pool_ids in *.
  split; unfold pool_ids; rewrite ?Ec, ?Eb; try done; try lia.
  - intros id [Hid | (v & r & Ev & Er)]%Ho; [by left | right].
    destruct (decide (v = w)) as [-> | Hne].
    + exists w, r1. rewrite list_lookup_insert_eq by (by eapply lookup_lt_Some). split; [done |].
      rewrite Es. congruence.
    + exists v, r. by rewrite list_lookup_insert_ne.
  - intros w1 w2 x1 x2 id E1 E2 S1 S2.
    destruct (Hslot w1 x1 id E1 S1) as (y1 & F1 & T1), (Hslot w2 x2 id E2 S2) as (y2 & F2 & T2).
    exact (Hu w1 w2 y1 y2 id F1 F2 T1 T2).
  - intros v r id Ev Er. destruct (Hslot v r id Ev Er) as (y & F & T). exact (Hk v y id F T).
Qed.

Lemma inner_frame i n rs lg es w r0 r1 :
  inner_inv i n rs lg -> rs !! w = Some r0 -> same_view i r0 r1 ->
  tally (is_obituary i) es = 0 -> inner_inv i n (<[w := r1]> rs) (es ++ lg).
Proof.
  intros Hi Ew (Es & E1 & E2 & E3) Ee.
  apply (inner_role i n n rs lg (es ++ lg) w r0 r1 Hi Ew Es); try done; [apply Hi |].
  rewrite !(tally_insert _ rs w r0 r1 Ew), E1, E2, E3, tally_app, Ee.
  replace (tally (is_conn i) rs - _ + _) with (tally (is_conn i) rs) by lia.
  replace (tally (is_doomed i) rs - _ + _) with (tally (is_doomed i) rs) by lia.
  replace (tally (is_sent i) rs - _ + _) with (tally (is_sent i) rs) by lia. apply Hi.
Qed.

Lemma with_conns_same n : with_conns (conns n) n = n.
Proof. by destruct n. Qed.

Lemma inner_owner i n rs lg w r id :
  inner_inv i n rs lg -> rs !! w = Some r -> slot_of i r = Some id ->
  forall v x, v <> w -> rs !! v = Some x -> slot_of i x <> Some id.
Proof. intros Hi Ew Er v x Hne Ev Ex. apply Hne. exact (ii_unique i n rs lg Hi v w x r id Ev Ew Ex Er). Qed.

(** The pool has a slot more, of a worker that had none. *)
Lemma inner_push i n rs lg w r0 r1 :
  inner_inv i n rs lg -> rs !! w = Some r0 -> slot_of i r0 = None ->
  slot_of i r1 = Some (push_slot n).1 -> is_conn i r1 = is_conn i r0 ->
  is_doomed i r1 = is_doomed i r0 -> is_sent i r1 = is_sent i r0 ->
  inner_inv i (push_slot n).2 (<[w := r1]> rs) lg.
Proof.
  intros [Hp Hl Ho Hu Hk Hc Hcap Ht] Ew E0 E1 Ec Ed Em. pose proof (add_inv _ _ Hp) as Hp'.
  unfold push_slot, add_slot_inner in *. cbn in *.
  set (next := next_slot_id (pool (conns n))) in *.
  split; unfold pool_ids in *; cbn; rewrite ?fmap_app; try done.
  - rewrite !(tally_insert _ rs w r0 r1 Ew), Ec, Ed, Em.
    by rewrite !Z.sub_add.
  - intros id [Hid | ->%list_elem_of_singleton]%elem_of_app.
    2: { right. exists w, r1. by rewrite list_lookup_insert_eq by (by eapply lookup_lt_Some). }
    destruct (Ho id Hid) as [? | (v & r & Ev & Er)]; [by left | right]. exists v, r.
    rewrite list_lookup_insert_ne; [done |]. intros ->. congruence.
  - intros w1 w2 x1 x2 id E2 E3 S1 S2.
    apply list_lookup_insert_Some in E2, E3.
    destruct E2 as [(<- & <- & _) | [Hn1 E2]], E3 as [(<- & <- & _) | [Hn2 E3]]; [done | | |].
    + rewrite E1 in S1. injection S1 as <-. destruct (Hk w2 x2 next E3 S2). lia.
    + rewrite E1 in S2. injection S2 as <-. destruct (Hk w1 x1 next E2 S1). lia.
    + exact (Hu w1 w2 x1 x2 id E2 E3 S1 S2).
  - intros v r id [(-> & -> & _) | [_ Ev]]%list_lookup_insert_Some Er.
    + rewrite E1 in Er. injection Er as <-. split; [lia |]. intros Hin%Hc. lia.
    + destruct (Hk v r id Ev Er). split; [lia | done].
  - intros id Hid%Hc. lia.
  - rewrite filter_app. cbn. rewrite decide_False; [by rewrite app_nil_r |]. intros Hin%Hc. lia.
Qed.

(** The pool has a callback slot more. *)
Lemma inner_call_back i n rs lg cap :
  inner_inv i n rs lg -> cap <= incoming_cap n ->
  match push_callback cap n with
  | (Some _, n') => inner_inv i n' rs lg
  | (None, n') => n' = n
  end.
Proof.
  intros [Hp Hl Ho Hu Hk Hc Hcap Ht] Hle. pose proof (add_inv _ _ Hp) as Hp'.
  unfold push_callback, add_slot_inner_capped. case_leb; [apply with_conns_same |].
  unfold add_slot_inner in *. cbn in *. set (next := next_slot_id (pool (conns n))) in *.
  split; unfold pool_ids in *; cbn; rewrite ?fmap_app; try done.
  - intros id [Hid | ->%list_elem_of_singleton]%elem_of_app; [| left; left].
    destruct (Ho id Hid) as [? | ?]; [left; by right | by right].
  - intros v r id Ev Er. destruct (Hk v r id Ev Er) as [Hlt Hin]. split; [lia |].
    intros [-> | Hcb]%elem_of_cons; [lia | done].
  - intros id [-> | Hcb%Hc]%elem_of_cons; lia.
  - etrans; [| exact Hle].
    transitivity (zlen ((slot_id <$> slots (pool (conns n))) ++ [next])).
    + unfold zlen. apply inj_le, length_filter.
    + rewrite zlen_app, zlen_fmap. change (zlen [next]) with 1. lia.
Qed.

Lemma length_filter_sublist {A} (P : A -> Prop) `{!forall x, Decision (P x)} (l k : list A) :
  l `sublist_of` k -> (length (filter P l) <= length (filter P k))%nat.
Proof. induction 1; [done | |]; rewrite !filter_cons; repeat case_decide; cbn; lia. Qed.

(** Slots go away. *)
Lemma inner_shrink i n rs lg c :
  inner_inv i n rs lg -> pool_inv (Z.of_nat i) c -> adds_none (conns n) c ->
  inner_inv i (with_conns c n) rs lg.
Proof.
  intros [Hp Hl Ho Hu Hk Hc Hcap Ht] Hp' [En Hsub]. split; unfold pool_ids in *; cbn; try done.
  - intros id Hid. apply Ho. by eapply elem_of_sublist.
  - intros v r id. rewrite En. apply Hk.
  - intros id. rewrite En. apply Hc.
  - etrans; [| exact Hcap]. unfold zlen. apply inj_le.
    by apply length_filter_sublist.
Qed.

Lemma inner_retire i n rs lg w r0 slot :
  inner_inv i n rs lg -> rs !! w = Some r0 -> slot_of i r0 = Some slot ->
  is_conn i r0 = false -> is_doomed i r0 = false -> is_sent i r0 = false ->
  inner_inv i (with_conns (remove_slot slot (conns n)) n) (<[w := None]> rs) lg.
Proof.
  intros Hi Ew Es Ec Ed Em.
  assert (Hadd : adds_none (conns n) (remove_slot slot (conns n))).
  { split; [done |]. apply fmap_sublist, sublist_filter. }
  pose proof (inner_shrink i n rs lg _ Hi (remove_inv _ _ slot (ii_pool _ _ _ _ Hi)) Hadd) as Hi'.
  pose proof (inner_owner i n rs lg w r0 slot Hi Ew Es) as Hown.
  destruct Hi' as [Hp Hl Ho Hu Hk Hc Hcap Ht]. split; try done.
  - rewrite !(tally_insert _ rs w r0 None Ew), Ec, Ed, Em. cbn. by rewrite !Z.sub_0_r, !Z.add_0_r.
  - intros id Hid. destruct (Ho id Hid) as [? | (v & r & Ev & Er)]; [by left | right].
    exists v, r. rewrite list_lookup_insert_ne; [done |]. intros ->.
    rewrite Ew in Ev. injection Ev as <-. rewrite Es in Er. injection Er as <-.
    unfold pool_ids in Hid. cbn in Hid.
    apply list_elem_of_fmap in Hid as (x & -> & [Hx _]%list_elem_of_filter). done.
  - intros w1 w2 x1 x2 id E1 E2 S1 S2. apply list_lookup_insert_Some in E1, E2.
    destruct E1 as [(_ & <- & _) | [_ E1]], E2 as [(_ & <- & _) | [_ E2]]; try discriminate.
    exact (Hu w1 w2 x1 x2 id E1 E2 S1 S2).
  - intros v r id Ev Er. apply list_lookup_insert_Some in Ev as [(_ & <- & _) | [_ Ev]]; [done |].
    by apply (Hk v r).
Qed.

(** ** All sessions *)

(** A worker that has yet to configure the session it made. *)
Definition young (ph : Phase Peer) : option nat :=
  match ph with Founding _ i | Made _ i => Some i | _ => None end.

(** The limit a worker that adds a callback slot has read. *)
Definition cap_of (ph : Phase Peer) : option (nat * Z) :=
  match ph with CallingBack _ i _ _ cap => Some (i, cap) | _ => None end.

Record core_inv (s : Srv) : Prop := mkCore {
  ci_inner : forall i n, inners s !! i = Some n -> inner_inv i n (roles s) (log s);
  ci_young : forall w ph i n, workers s !! w = Some ph -> young ph = Some i ->
    inners s !! i = Some n -> max_threads_value n = 1;
  ci_held : forall w ph i, workers s !! w = Some ph -> held_by ph = Some i -> (i < length (inners s))%nat;
  ci_holders : forall i, i ∈ holders s -> (i < length (inners s))%nat;
  ci_log : forall i, (length (inners s) <= i)%nat -> tally (is_obituary i) (log s) = 0;
  ci_cap : forall w ph i cap n, workers s !! w = Some ph -> cap_of ph = Some (i, cap) ->
    inners s !! i = Some n -> cap <= incoming_cap n
}.

Lemma roles_insert s w ph : role <$> <[w := ph]> (workers s) = <[w := role ph]> (roles s).
Proof. apply list_fmap_insert. Qed.

Lemma roles_lookup s w ph : workers s !! w = Some ph -> roles s !! w = Some (role ph).
Proof. intros E. unfold roles. by rewrite list_lookup_fmap, E. Qed.

Lemma young_role ph i : young ph = Some i -> slot_of i (role ph) = Some FOUNDING_SLOT_ID.
Proof. destruct ph; cbn; intros [= ->]; by rewrite Nat.eqb_refl. Qed.

(** A worker moves on; no session changes and none sees it. *)
Lemma core_quiet s s' w ph ph' es :
  core_inv s -> workers s !! w = Some ph -> (forall i, same_view i (role ph) (role ph')) ->
  (young ph' = None \/ young ph' = young ph) ->
  (held_by ph' = None \/ held_by ph' = held_by ph \/
   exists i, held_by ph' = Some i /\ (i < length (inners s))%nat) ->
  (forall i cap n, cap_of ph' = Some (i, cap) -> inners s !! i = Some n -> cap <= incoming_cap n) ->
  workers s' = <[w := ph']> (workers s) -> inners s' = inners s -> holders s' = holders s ->
  log s' = es ++ log s -> (forall i, tally (is_obituary i) es = 0) -> core_inv s'.
Proof.
  intros [Hi Hy Hh Ho Hl Hc] Ew Hr Hyo Hho Hca Es Ei Eh El He. split.
  - intros i n. rewrite Ei, El. unfold roles. rewrite Es, roles_insert. intros En.
    by apply (inner_frame i n _ _ _ w (role ph)); [apply Hi | apply roles_lookup | | apply He].
  - intros v x i n. rewrite Es, Ei. intros [(<- & <- & _) | [_ Ev]]%list_lookup_insert_Some Ey En.
    + destruct Hyo as [E | E]; [congruence |]. rewrite E in Ey. by apply (Hy w ph i n).
    + by apply (Hy v x i n).
  - intros v x i. rewrite Es, Ei. intros [(<- & <- & _) | [_ Ev]]%list_lookup_insert_Some Ex.
    + destruct Hho as [E | [E | (j & E & Hj)]]; [congruence | rewrite E in Ex; by apply (Hh w ph) |].
      rewrite E in Ex. by injection Ex as <-.
    + by apply (Hh v x).
  - intros i. rewrite Eh, Ei. apply Ho.
  - intros i. rewrite El, Ei, tally_app, He. apply Hl.
  - intros v x i cap n. rewrite Es, Ei. intros [(<- & <- & _) | [_ Ev]]%list_lookup_insert_Some.
    + apply Hca.
    + by apply (Hc v x).
Qed.

(** A worker of session [i] moves on and changes it. *)
Lemma core_touch s s' w ph ph' i n n' es :
  core_inv s -> workers s !! w = Some ph -> inners s !! i = Some n ->
  workers s' = <[w := ph']> (workers s) -> inners s' = <[i := n']> (inners s) ->
  holders s' = holders s -> log s' = es ++ log s ->
  role_on i (role ph) -> role_on i (role ph') ->
  (forall j, j <> i -> tally (is_obituary j) es = 0) ->
  inner_inv i n' (<[w := role ph']> (roles s)) (es ++ log s) ->
  young ph' = None -> (held_by ph' = None \/ held_by ph' = Some i) ->
  (max_threads_value n' = max_threads_value n \/ young ph = Some i) ->
  cap_of ph' = None -> core_inv s'.
Proof.
  intros [Hi Hy Hh Ho Hl Hc] Ew En Es Ei Eh El Hr Hr' He Hin Ey Hho Hm Hca.
  pose proof (lookup_lt_Some _ _ _ En) as Hlt.
  assert (Hlen : length (inners s') = length (inners s)) by (rewrite Ei; apply length_insert).
  split.
  - intros j m. rewrite Ei, El. unfold roles. rewrite Es, roles_insert.
    intros [(<- & <- & _) | [Hne Em]]%list_lookup_insert_Some; [done |].
    apply (inner_frame j m _ _ _ w (role ph)); [by apply Hi | by apply roles_lookup | | by apply He].
    by apply (other_view i).
  - intros v x j m. rewrite Es, Ei. intros [(<- & <- & _) | [Hv Ev]]%list_lookup_insert_Some Ex;
      [congruence |].
    intros [(<- & <- & _) | [_ Em]]%list_lookup_insert_Some; [| by apply (Hy v x j m)].
    destruct Hm as [-> | Hm]; [by apply (Hy v x i n) |]. exfalso. apply Hv.
    apply (ii_unique i n _ _ (Hi i n En) w v (role ph) (role x) FOUNDING_SLOT_ID);
      [by apply roles_lookup | by apply roles_lookup | by apply young_role | by apply young_role].
  - intros v x j. rewrite Es, Hlen. intros [(<- & <- & _) | [_ Ev]]%list_lookup_insert_Some Ex.
    + destruct Hho as [E | E]; [congruence |]. rewrite E in Ex. injection Ex as <-.
      done.
    + by apply (Hh v x).
  - intros j. rewrite Eh, Hlen. apply Ho.
  - intros j. rewrite El, Hlen, tally_app. intros Hj. rewrite He by lia. by apply Hl.
  - intros v x j cap m. rewrite Es, Ei. intros [(<- & <- & _) | [_ Ev]]%list_lookup_insert_Some Ex;
      [congruence |].
    intros [(<- & <- & _) | [_ Em]]%list_lookup_insert_Some; [| by apply (Hc v x j cap m)].
    etrans; [by apply (Hc v x i cap n) |]. unfold incoming_cap.
    destruct Hm as [-> | Hm]; [done |]. rewrite (Hy w ph i n Ew Hm En).
    pose proof (ii_threads i n' _ _ Hin). lia.
Qed.

Lemma role_held ph i x : role ph = Some (i, x) -> held_by ph = Some i.
Proof. destruct ph as [| | | | | | | | | | | | p j slot [] | |]; cbn; congruence. Qed.

Lemma roles_below s w r i :
  core_inv s -> roles s !! w = Some r -> (length (inners s) <= i)%nat ->
  slot_of i r = None /\ is_conn i r = false /\ is_doomed i r = false /\ is_sent i r = false.
Proof.
  intros Hc Er Hi. unfold roles in Er. rewrite list_lookup_fmap in Er.
  destruct (workers s !! w) as [ph |] eqn:Ew; [| done]. injection Er as <-.
  destruct (role ph) as [[j x] |] eqn:Ex; [| done].
  pose proof (ci_held s Hc w ph j Ew (role_held ph j x Ex)) as Hj.
  assert (E : Nat.eqb j i = false) by (apply Nat.eqb_neq; lia). cbn. rewrite E. by destruct x.
Qed.

Lemma tally_roles_below s (f : option (nat * Role) -> bool) :
  (forall w r, roles s !! w = Some r -> f r = false) -> tally f (roles s) = 0.
Proof. intros Hf. apply tally_none. intros r [w E]%list_elem_of_lookup. by apply (Hf w). Qed.

Lemma fresh_inv s w ph id v m :
  core_inv s -> workers s !! w = Some ph -> role ph = None ->
  let i := length (inners s) in
  inner_inv i (fresh_session id v m) (<[w := Some (i, Conn (Some FOUNDING_SLOT_ID))]> (roles s)) (log s).
Proof.
  intros Hc Ew Er i. pose proof (roles_lookup s w ph Ew) as Erw. rewrite Er in Erw.
  pose proof (fun w r E => roles_below s w r i Hc E (le_n _)) as Hb.
  assert (Hall : forall v r id, <[w := Some (i, Conn (Some FOUNDING_SLOT_ID))]> (roles s) !! v = Some r ->
            slot_of i r = Some id -> v = w /\ id = FOUNDING_SLOT_ID).
  { intros u r x [(-> & <- & _) | [_ Ev]]%list_lookup_insert_Some Es.
    - cbn in Es. rewrite Nat.eqb_refl in Es. by injection Es as <-.
    - destruct (Hb u r Ev) as [E _]. congruence. }
  split; unfold pool_ids; cbn; try done.
  - apply pool_reachable_inv. apply pr_init.
  - rewrite !(tally_insert _ _ w _ _ Erw), (ci_log s Hc i) by done.
    rewrite !tally_roles_below by (intros u r Eu; by apply (Hb u r)). cbn. rewrite Nat.eqb_refl.
    by apply LsLive.
  - intros x ->%list_elem_of_singleton. right. exists w, (Some (i, Conn (Some FOUNDING_SLOT_ID))).
    rewrite list_lookup_insert_eq by (by eapply lookup_lt_Some). cbn. by rewrite Nat.eqb_refl.
  - intros w1 w2 r1 r2 x E1 E2 S1 S2. destruct (Hall _ _ _ E1 S1), (Hall _ _ _ E2 S2). congruence.
  - intros u r x Eu Ex. destruct (Hall _ _ _ Eu Ex) as [_ ->]. split; [done | apply not_elem_of_nil].
  - by intros x ?%elem_of_nil.
  - rewrite decide_False by apply not_elem_of_nil. unfold incoming_cap, zlen. cbn. pose proof usize_max_bounds. unfold u32_max in *. lia.
Qed.

Lemma core_found s w ph peer id v m next :
  core_inv s -> workers s !! w = Some ph -> role ph = None -> young ph = None ->
  (forall i, young (next peer i) = Some i) ->
  (forall i, role (next peer i) = Some (i, Conn (Some FOUNDING_SLOT_ID))) ->
  core_inv (make_inner w peer (fresh_session id v m) next s).
Proof.
  intros Hc Ew Er Ey Hn Hr. pose proof (fresh_inv s w ph id v m Hc Ew Er) as Hf.
  set (k := length (inners s)) in *.
  assert (Hlook : forall i n, (inners s ++ [fresh_session id v m]) !! i = Some n ->
            inners s !! i = Some n \/ i = k /\ n = fresh_session id v m).
  { intros i n [E | [Hi E]]%lookup_app_Some; [by left | right].
    apply list_lookup_singleton_Some in E as [E <-]. fold k in Hi. split; [lia | done]. }
  assert (Hlen : length (inners s ++ [fresh_session id v m]) = S k) by (rewrite length_app; cbn; lia).
  unfold make_inner. fold k. split; cbn -[length app]; rewrite ?Hlen.
  - intros i n Ein%Hlook. unfold roles. cbn. rewrite roles_insert, Hr.
    destruct Ein as [Ein | [-> ->]].
    + apply (inner_frame i n _ _ [Founded peer k] w (role ph)); [by apply Hc | by apply roles_lookup | | done].
      apply (other_view k); [| by rewrite Er | done]. apply lookup_lt_Some in Ein. fold k in Ein. lia.
    + destruct Hf as [Hp Hl Ho Hu Hk Hcb Hcap Ht]. by split.
  - intros u x i n [(<- & <- & _) | [_ Eu]]%list_lookup_insert_Some Ex Ein%Hlook.
    + rewrite Hn in Ex. injection Ex as <-. destruct Ein as [Ein | [_ ->]]; [| done].
      apply lookup_lt_Some in Ein. fold k in Ein. lia.
    + destruct Ein as [Ein | [-> ->]]; [| done]. by apply (ci_young s Hc u x i n).
  - intros u x i [(<- & <- & _) | [_ Eu]]%list_lookup_insert_Some Ex.
    + rewrite (role_held _ _ _ (Hr k)) in Ex. injection Ex as <-. lia.
    + pose proof (ci_held s Hc u x i Eu Ex). lia.
  - intros i Hin. pose proof (ci_holders s Hc i Hin). lia.
  - intros i Hi. apply (ci_log s Hc). fold k. lia.
  - intros u x i cap n [(<- & <- & _) | [_ Eu]]%list_lookup_insert_Some Ex Ein%Hlook.
    + specialize (Hr k). by destruct (next peer k).
    + destruct Ein as [Ein | [-> _]]; [by apply (ci_cap s Hc u x i) |].
      assert (Hx : held_by x = Some k) by (destruct x; by simplify_eq/=).
      pose proof (ci_held s Hc u x k Eu Hx). lia.
Qed.

(** Steps that leave workers' roles and the sessions alone. *)
Lemma core_same s s' :
  core_inv s -> workers s' = workers s -> inners s' = inners s -> holders s' = holders s ->
  log s' = log s -> core_inv s'.
Proof.
  intros [Hi Hy Hh Ho Hl Hc] Ew Ei Eh El.
  split; unfold roles; rewrite ?Ew, ?Ei, ?Eh, ?El; done.
Qed.

Lemma core_reject s w ph peer :
  core_inv s -> workers s !! w = Some ph -> role ph = None -> core_inv (reject w peer s).
Proof.
  intros Hc Ew Er. eapply (core_quiet s _ w ph Finished [Rejected peer]); try done;
    [rewrite Er; by intros i | by left | by left].
Qed.

(** One session changes in place. *)
Lemma core_put s i n n' :
  core_inv s -> inners s !! i = Some n -> inner_inv i n' (roles s) (log s) ->
  max_threads_value n' = max_threads_value n -> core_inv (put_inner i n' s).
Proof.
  intros [Hi Hy Hh Ho Hl Hc] En Hn Hm. split; cbn; rewrite ?length_insert; try done.
  - intros j x [(<- & <- & _) | [_ Ex]]%list_lookup_insert_Some; [done | by apply Hi].
  - intros w ph j x Ew Ey [(<- & <- & _) | [_ Ex]]%list_lookup_insert_Some; [| by apply (Hy w ph j x)].
    rewrite Hm. by apply (Hy w ph i n).
  - intros w ph j cap x Ew Ey [(<- & <- & _) | [_ Ex]]%list_lookup_insert_Some;
      [| by apply (Hc w ph j cap x)].
    unfold incoming_cap. rewrite Hm. by apply (Hc w ph i cap n).
Qed.

Lemma resolve_alive id s i : resolve_session id s = Some i -> alive s i = true.
Proof. unfold resolve_session. repeat case_match; intros; by simplify_eq. Qed.

Lemma alive_below s i : core_inv s -> alive s i = true -> (i < length (inners s))%nat.
Proof.
  intros Hc [Ha | Ha]%orb_true_iff.
  - apply existsb_exists in Ha as (ph & Hin & He%bool_decide_eq_true).
    apply list_elem_of_In, list_elem_of_lookup in Hin as [w Ew]. by apply (ci_held s Hc w ph i).
  - apply bool_decide_eq_true in Ha. by apply (ci_holders s Hc).
Qed.

Lemma role_life s w ph i n :
  core_inv s -> workers s !! w = Some ph -> inners s !! i = Some n ->
  inner_inv i n (roles s) (log s) /\ roles s !! w = Some (role ph).
Proof. intros Hc Ew En. split; [by apply Hc | by apply roles_lookup]. Qed.

Lemma connected_bound i s : connected i s <= zlen (workers s).
Proof. unfold connected. etrans; [apply tally_bounds |]. unfold roles. by rewrite zlen_fmap. Qed.

(** The life of the session after the role of worker [w] has changed. *)
Ltac life_of Ew :=
  rewrite !(tally_insert _ _ _ _ _ (roles_lookup _ _ _ Ew)), ?tally_app; cbn; rewrite ?Nat.eqb_refl; cbn.

Ltac slot_kept := cbn; rewrite ?Nat.eqb_refl; done.

Lemma core_bump s w peer i v id n :
  core_inv s -> zlen (workers s) < COUNT_MASK -> workers s !! w = Some (Roomy peer i v id) ->
  inners s !! i = Some n ->
  let r := try_bump_live_conns n in
  core_inv (if r.1 then goto w (Bumped peer i v id) (put_inner i r.2 s)
            else reject w peer (put_inner i r.2 s)).
Proof.
  intros Hc Hb Ew En r. destruct (role_life s w _ i n Hc Ew En) as [Hi Er].
  pose proof (connected_bound i s) as Hcb. unfold connected in Hcb.
  pose proof (bump_life n _ _ _ _ (ii_life _ _ _ _ Hi) ltac:(lia)) as Hl. fold r in Hl.
  destruct r as [[] n'].
  - destruct Hl as (x & -> & Hl).
    eapply (core_touch s _ w _ _ i n (with_life x n) []); try done; try (by left); try (by right).
    eapply (inner_role i n _ _ _ _ w); try done; try slot_kept; [apply Hi |]. cbn [lifecycle with_life].
    life_of Ew. by rewrite !Z.sub_0_r, !Z.add_0_r.
  - subst n'. apply (core_reject _ w (Roomy peer i v id)); [| done | done].
    by apply (core_put s i n n).
Qed.

Lemma core_push s w peer i v id n :
  core_inv s -> workers s !! w = Some (Bumped peer i v id) -> inners s !! i = Some n ->
  core_inv (goto w (Added peer i v id (push_slot n).1) (put_inner i (push_slot n).2 s)).
Proof.
  intros Hc Ew En. destruct (role_life s w _ i n Hc Ew En) as [Hi Er].
  eapply (core_touch s _ w _ _ i n _ []); try done; try (by left); try (by right).
  eapply inner_push; try done; cbn; by rewrite Nat.eqb_refl.
Qed.

Lemma core_call_back s w peer i v id cap n :
  core_inv s -> workers s !! w = Some (CallingBack peer i v id cap) -> inners s !! i = Some n ->
  let r := push_callback cap n in
  core_inv (match r.1 with
            | Some _ => goto w Finished (note (CalledBack peer i v id) (put_inner i r.2 s))
            | None => reject w peer (put_inner i r.2 s)
            end).
Proof.
  intros Hc Ew En r. destruct (role_life s w _ i n Hc Ew En) as [Hi Er].
  pose proof (inner_call_back i n _ _ cap Hi (ci_cap s Hc w _ i cap n Ew eq_refl En)) as Hn.
  assert (Hm : max_threads_value r.2 = max_threads_value n).
  { unfold r, push_callback. by destruct (add_slot_inner_capped _ _) as [[] ?]. }
  fold r in Hn. destruct r as [[slot |] n']; cbn in *.
  - eapply (core_quiet (put_inner i n' s) _ w _ Finished [CalledBack peer i v id]); try done;
      try (by left).
    by apply (core_put s i n n').
  - subst n'. apply (core_reject _ w (CallingBack peer i v id cap)); [| done | done].
    by apply (core_put s i n n).
Qed.

Lemma core_leave s w peer i slot n :
  core_inv s -> zlen (workers s) < COUNT_MASK -> workers s !! w = Some (Serving peer i slot) ->
  inners s !! i = Some n ->
  let r := leave_connection n in core_inv (goto w (Left peer i slot r.1) (put_inner i r.2 s)).
Proof.
  intros Hc Hb Ew En r. destruct (role_life s w _ i n Hc Ew En) as [Hi Er].
  pose proof (connected_bound i s) as Hcb. unfold connected in Hcb.
  pose proof (tally_pos (is_conn i) _ w _ Er (Nat.eqb_refl i)) as Hpos.
  destruct (leave_life n _ _ _ _ (ii_life _ _ _ _ Hi) ltac:(lia)) as (last & x & E & Hl).
  unfold r. rewrite E.
  eapply (core_touch s _ w _ _ i n (with_life x n) []); try done; try (by left); try (by right);
    [by destruct last |].
  eapply (inner_role i n _ _ _ _ w); try done; try slot_kept; [by destruct last; slot_kept | apply Hi |].
  cbn [lifecycle with_life]. life_of Ew. destruct last; cbn in Hl |- *; rewrite ?Nat.eqb_refl; cbn;
    by rewrite ?Z.sub_0_r, ?Z.add_0_r in *.
Qed.

Lemma core_mourn s w peer i slot n :
  core_inv s -> workers s !! w = Some (Left peer i slot true) -> inners s !! i = Some n ->
  core_inv (goto w (Mourned peer i slot) (note (Obituary i) s)).
Proof.
  intros Hc Ew En. destruct (role_life s w _ i n Hc Ew En) as [Hi Er].
  pose proof (tally_pos (is_doomed i) _ w _ Er (Nat.eqb_refl i)) as Hpos.
  eapply (core_touch s _ w _ _ i n n [Obituary i]); try done; try (by left); try (by right).
  - by rewrite list_insert_id.
  - intros j Hj. cbn. by assert (Nat.eqb i j = false) as -> by (apply Nat.eqb_neq; lia).
  - eapply (inner_role i n _ _ _ _ w); try done; try slot_kept; [apply Hi |]. life_of Ew.
    pose proof (tally_bounds (is_doomed i) (roles s)). pose proof (tally_bounds (is_sent i) (roles s)).
    destruct (ii_life _ _ _ _ Hi); [lia | apply LsDying; lia | lia].
Qed.

Lemma core_mark s w peer i slot n :
  core_inv s -> workers s !! w = Some (Mourned peer i slot) -> inners s !! i = Some n ->
  core_inv (goto w (Left peer i slot false) (put_inner i (with_life (mark_dead (lifecycle n)) n) s)).
Proof.
  intros Hc Ew En. destruct (role_life s w _ i n Hc Ew En) as [Hi Er].
  pose proof (tally_pos (is_sent i) _ w _ Er (Nat.eqb_refl i)) as Hpos.
  eapply (core_touch s _ w _ _ i n _ []); try done; try (by left); try (by right).
  eapply (inner_role i n _ _ _ _ w); try done; try slot_kept; [apply Hi |]. life_of Ew.
  pose proof (tally_bounds (is_doomed i) (roles s)). pose proof (tally_bounds (is_sent i) (roles s)).
  destruct (ii_life _ _ _ _ Hi) as [| H1 Ed H3 H4 |]; [lia | | lia]. rewrite Ed. apply LsDead; try lia.
  done.
Qed.

Lemma core_retire s w peer i slot n :
  core_inv s -> workers s !! w = Some (Left peer i slot false) -> inners s !! i = Some n ->
  core_inv (goto w Finished (put_inner i (with_conns (remove_slot slot (conns n)) n) s)).
Proof.
  intros Hc Ew En. destruct (role_life s w _ i n Hc Ew En) as [Hi Er].
  eapply (core_touch s _ w _ _ i n _ []); try done; try (by left); try (by right).
  eapply inner_retire; try done. cbn. by rewrite Nat.eqb_refl.
Qed.

Lemma core_configure s w peer i n :
  core_inv s -> workers s !! w = Some (Made peer i) -> inners s !! i = Some n ->
  core_inv (goto w (Serving peer i FOUNDING_SLOT_ID) (put_inner i (configure_session (settings s) n) s)).
Proof.
  intros Hc Ew En. destruct (role_life s w _ i n Hc Ew En) as [Hi Er].
  pose proof (ci_young s Hc w _ i n Ew eq_refl En) as Hy.
  eapply (core_touch s _ w _ _ i n _ []); try done; try (by left); try (by right).
  eapply (inner_role i n _ _ _ _ w); try done; try slot_kept; cbn.
  - unfold incoming_cap. cbn. lia.
  - lia.
  - rewrite list_insert_id by done. apply Hi.
Qed.

Lemma core_register s id i : core_inv s -> core_inv (register_session id i s).
Proof. intros Hc. by apply (core_same s). Qed.

Lemma core_find_session s s' w ph peer v id incoming :
  core_inv s -> workers s !! w = Some ph -> role ph = None -> young ph = None ->
  find_session w peer v id incoming s = Some s' -> core_inv s'.
Proof.
  intros Hc Ew Er Ey. unfold find_session. destruct (resolve_session id s) as [i |] eqn:Ei.
  - pose proof (alive_below s i Hc (resolve_alive id s i Ei)) as Hi.
    destruct (inners s !! i) as [n |]; [| done]. case_bool_decide; intros [= <-].
    + eapply (core_quiet s _ w ph (Resolved peer i v id incoming) []); try done;
        [by rewrite Er | by left |].
      right; right. by exists i.
    + by apply (core_reject s w ph).
  - intros [= <-]. by apply (core_reject s w ph).
Qed.

Lemma core_check_room s w peer i v id incoming n :
  core_inv s -> workers s !! w = Some (Gated peer i v id incoming) -> inners s !! i = Some n ->
  core_inv (check_room w peer i v id incoming n s).
Proof.
  intros Hc Ew En. unfold check_room.
  destruct incoming; (case_match; [by apply (core_reject s w _ peer Hc Ew) |]).
  - eapply (core_quiet s _ w _ (CallingBack peer i v id (incoming_cap n)) []); try done;
      [by left | by right; left |].
    intros j cap m [= <- <-] Em. by simplify_eq.
  - eapply (core_quiet s _ w _ (Roomy peer i v id) []); try done; [by left | by right; left].
Qed.

Lemma core_advance_on s s' w ph i n inp :
  core_inv s -> zlen (workers s) < COUNT_MASK -> workers s !! w = Some ph -> held_by ph = Some i ->
  inners s !! i = Some n -> advance_on w ph i n inp s = Some s' -> core_inv s'.
Proof.
  intros Hc Hb Ew Hh En E.
  destruct ph as [| | | peer j | peer j | peer j v id inc | peer j v id inc | peer j v id | peer j v id
                 | peer j v id slot | peer j v id cap | peer j slot | peer j slot last | peer j slot |];
    try discriminate Hh; injection Hh as ->; destruct inp; try discriminate E; cbn [advance_on exit_on] in E.
  - injection E as <-.
    eapply (core_quiet (register_session (rpc_session_id n) i s) _ w _ (Made peer i) [Registered i]);
      try done; [by apply core_register | by right | by right; left].
  - injection E as <-. by apply core_configure.
  - case_match; injection E as <-; [by apply (core_reject s w _ peer Hc Ew) |].
    eapply (core_quiet s _ w _ (Gated peer i v id inc) []); try done; [by left | by right; left].
  - injection E as <-. by apply core_check_room.
  - pose proof (core_bump s w peer i v id n Hc Hb Ew En) as H.
    destruct (try_bump_live_conns n) as [[] n']; by injection E as <-.
  - pose proof (core_push s w peer i v id n Hc Ew En) as H.
    destruct (push_slot n) as [slot n']. injection E as <-; exact H.
  - injection E as <-. eapply (core_quiet s _ w _ (Serving peer i slot) [Attached peer i v id]); try done;
      [by left | by right; left].
  - pose proof (core_call_back s w peer i v id cap n Hc Ew En) as H.
    destruct (push_callback cap n) as [[slot |] n']; by injection E as <-.
  - pose proof (core_leave s w peer i slot n Hc Hb Ew En) as H.
    destruct (leave_connection n) as [last n']. by injection E as <-.
  - destruct last; injection E as <-; [by apply (core_mourn s w peer i slot n) |].
    by apply (core_retire s w peer i slot n).
  - by destruct last.
  - by destruct last.
  - by destruct last.
  - by destruct last.
  - injection E as <-. by apply (core_mark s w peer i slot n).
Qed.

Lemma core_advance s s' w inp :
  core_inv s -> zlen (workers s) < COUNT_MASK -> advance w inp s = Some s' -> core_inv s'.
Proof.
  intros Hc Hb. unfold advance. destruct (workers s !! w) as [ph |] eqn:Ew; [| done].
  destruct (held_by ph) as [i |] eqn:Eh.
  { destruct (inners s !! i) as [n |] eqn:En; [| done]. by apply (core_advance_on s s' w ph i n inp). }
  assert (Hq : forall ph' es, role ph' = None -> young ph' = None -> held_by ph' = None ->
            cap_of ph' = None -> role ph = None -> (forall i, tally (is_obituary i) es = 0) ->
            forall s', workers s' = <[w := ph']> (workers s) -> inners s' = inners s ->
              holders s' = holders s -> log s' = es ++ log s -> core_inv s').
  { intros ph' es Er Ey Ehd Ec Er0 He s1 E1 E2 E3 E4.
    eapply (core_quiet s s1 w ph ph' es); try done; [intros j; rewrite Er, Er0; done | by left | by left |].
    intros j cap n. by rewrite Ec. }
  destruct ph as [peer | peer | peer fdu v fd id inc | | | | | | | | | | | |]; try discriminate Eh.
  - destruct inp; try done; intros [= <-]; [| by apply (Hq Finished [])].
    unfold authorize. destruct (authorizer _) as [f |]; [destruct (f peer) |].
    + by apply (Hq (Authorized peer) [PassedHook peer (Some f)]).
    + by apply (Hq Finished [Refused peer]).
    + by apply (Hq (Authorized peer) [PassedHook peer None]).
  - destruct inp; try done; [intros [= <-]; by apply (Hq Finished []) | |].
    + case_match; [| done]. intros [= <-]. unfold shake.
      destruct (fst _) as [[[[codec fd] id] inc] | |];
        [by apply (Hq (Shaken peer (fd_unix_supported (settings s)) (version codec) fd id inc) []) | |];
        by apply (Hq Finished []).
    + case_match; [done |]. intros [= <-]. by eapply core_found.
  - destruct id, inc, inp; cbn; try done; try (by apply (core_find_session s s' w _ _ _ _ _ Hc Ew));
      intros [= <-]; [by apply (Hq Finished []) | by eapply core_found].
  - destruct inp; done.
Qed.

Lemma inner_spawn i n rs lg : inner_inv i n rs lg -> inner_inv i n (rs ++ [None]) lg.
Proof.
  assert (Hsnoc : forall v r id, (rs ++ [None]) !! v = Some r -> slot_of i r = Some id -> rs !! v = Some r).
  { intros v r id [E | [_ E]]%lookup_app_Some Er; [done |].
    apply list_lookup_singleton_Some in E as [_ <-]. done. }
  intros [Hp Hl Ho Hu Hk Hc Hcap Ht]. split; try done.
  - rewrite !tally_app. cbn. by rewrite !Z.add_0_r.
  - intros id Hid. destruct (Ho id Hid) as [? | (w & r & Ew & Er)]; [by left | right].
    exists w, r. split; [| done]. by apply lookup_app_l_Some.
  - intros w1 w2 r1 r2 id E1 E2 S1 S2.
    exact (Hu w1 w2 r1 r2 id (Hsnoc _ _ _ E1 S1) (Hsnoc _ _ _ E2 S2) S1 S2).
  - intros w r id Ew Er. exact (Hk w r id (Hsnoc _ _ _ Ew Er) Er).
Qed.

Lemma core_spawn s peer : core_inv s -> core_inv (spawn peer s).
Proof.
  intros [Hi Hy Hh Ho Hl Hc].
  assert (Hsnoc : forall v ph i, (workers s ++ [Spawned peer]) !! v = Some ph ->
            held_by ph = Some i -> workers s !! v = Some ph).
  { intros v ph i [E | [_ E]]%lookup_app_Some Er; [done |].
    apply list_lookup_singleton_Some in E as [_ <-]. done. }
  split; cbn; try done.
  - intros i n En. unfold roles. cbn. rewrite fmap_app. by apply inner_spawn, Hi.
  - intros w ph i n Ew Ey En. apply (Hy w ph i n); [| done | done].
    apply (Hsnoc w ph i); [done |]. destruct ph; by simplify_eq/=.
  - intros w ph i Ew Eh. apply (Hh w ph); [by apply (Hsnoc w ph i) | done].
  - intros w ph i cap n Ew Ey En. apply (Hc w ph i cap n); [| done | done].
    apply (Hsnoc w ph i); [done |]. destruct ph; by simplify_eq/=.
Qed.

Lemma run_top_same s :
  workers (run_top s) = workers s /\ inners (run_top s) = inners s /\
  holders (run_top s) = holders s /\ log (run_top s) = log s /\ settings (run_top s) = settings s /\
  sessions (run_top s) = sessions s.
Proof. unfold run_top, live_worker_count. repeat case_match; done. Qed.

Lemma core_step s s' :
  core_inv s -> zlen (workers s) < COUNT_MASK -> server_step s s' -> core_inv s'.
Proof.
  intros Hc Hb [w inp s1 E | Hl | a Hl | i n c En Ha Hp Hadd | i Ha | pre i post E |].
  - by eapply core_advance.
  - destruct (run_top_same s) as (? & ? & ? & ? & _). by apply (core_same s).
  - unfold run_accept. repeat case_match; try (by apply (core_same s)).
    apply (core_same (spawn peer s)); try done. by apply core_spawn.
  - apply (core_put s i n); try done. apply inner_shrink; [by apply Hc | | done].
    eapply pool_step_inv; [| done]. by apply (ii_pool i n _ _ (ci_inner s Hc i n En)).
  - pose proof (alive_below s i Hc Ha). destruct Hc as [Hi Hy Hh Ho Hl Hc]. split; try done.
    cbn. intros j Hj. apply elem_of_cons in Hj as [-> | Hj]; [done | by apply Ho].
  - destruct Hc as [Hi Hy Hh Ho Hl Hc]. split; try done. cbn. intros j Hj. apply Ho.
    rewrite E, elem_of_app, elem_of_cons. apply elem_of_app in Hj. tauto.
  - by apply (core_same s).
Qed.

Lemma core_admin s s' : core_inv s -> admin_step s s' -> core_inv s'.
Proof. intros Hc [| | | | | | | peer | r Hl |]; try (by apply (core_same s)). by apply core_spawn. Qed.

(** Workers are never forgotten. *)
Lemma advance_workers s s' w inp : advance w inp s = Some s' -> length (workers s') = length (workers s).
Proof.
  unfold advance, advance_on, exit_on, authorize, shake, find_session, check_room, make_inner, reject.
  intros E. repeat case_match; simplify_eq/=; by rewrite ?length_insert.
Qed.

Lemma step_workers s s' :
  server_step s s' \/ admin_step s s' -> zlen (workers s) <= zlen (workers s').
Proof.
  unfold zlen. intros [[w inp s1 E | Hl | a Hl | | | |] | [| | | | | | | peer | |]]; cbn; try lia.
  - rewrite (advance_workers s s1 w inp E). lia.
  - destruct (run_top_same s) as (-> & _). lia.
  - unfold run_accept. repeat case_match; cbn; rewrite ?length_app; lia.
  - rewrite length_app. lia.
Qed.

Lemma core_reachable s : server_reachable s -> zlen (workers s) < COUNT_MASK -> core_inv s.
Proof.
  induction 1 as [d | s s' _ IH Hst | s s' _ IH Hst]; intros Hb.
  - split; cbn; try done. by intros ? ?%elem_of_nil.
  - pose proof (step_workers s s' (or_introl Hst)). apply (core_step s); [apply IH; lia | lia | done].
  - pose proof (step_workers s s' (or_intror Hst)). apply (core_admin s); [apply IH; lia | done].
Qed.

(** ** What the log says *)

Definition is_registered (e : Event Peer) : bool := match e with Registered _ => true | _ => false end.
Definition is_attached (e : Event Peer) : bool := match e with Attached _ _ _ _ => true | _ => false end.
Definition is_rejected (e : Event Peer) : bool := match e with Rejected _ => true | _ => false end.

(** Session [i] has the id and the version. *)
Definition named_session (ins : list Inner) (i : nat) (v : Z) (id : list byte) : Prop :=
  zlen id = 32 /\
  exists n, ins !! i = Some n /\ rpc_session_id n = id /\ wire_protocol_version n = Some v.

Definition admitted (lg : list (Event Peer)) (peer : Peer) : Prop :=
  exists hook, PassedHook peer hook ∈ lg.

Definition peer_of (ph : Phase Peer) : option Peer :=
  match ph with
  | Spawned _ | Finished => None
  | Authorized p | Shaken p _ _ _ _ _ | Founding p _ | Made p _ | Resolved p _ _ _ _
  | Gated p _ _ _ _ | Roomy p _ _ _ | Bumped p _ _ _ | Added p _ _ _ _
  | CallingBack p _ _ _ _ | Serving p _ _ | Left p _ _ _ | Mourned p _ _ => Some p
  end.

(** The session a worker attaches to, with the version and id of its handshake. *)
Definition bound_to (ph : Phase Peer) : option (nat * Z * list byte) :=
  match ph with
  | Resolved _ i v id _ | Gated _ i v id _ | Roomy _ i v id | Bumped _ i v id
  | Added _ i v id _ | CallingBack _ i v id _ => Some (i, v, id)
  | _ => None
  end.

(** An event, given the log before it. *)
Definition event_ok (ins : list Inner) (lg : list (Event Peer)) (e : Event Peer) : Prop :=
  match e with
  | PassedHook peer (Some f) => f peer = true
  | Founded peer i => admitted lg peer
  | Attached peer i v id => admitted lg peer /\ named_session ins i v id /\ Obituary i ∉ lg
  | CalledBack peer i v id => admitted lg peer /\ named_session ins i v id
  | Obituary i => Obituary i ∉ lg
  | _ => True
  end.

Fixpoint log_ok (ins : list Inner) (lg : list (Event Peer)) : Prop :=
  match lg with [] => True | e :: lg => event_ok ins lg e /\ log_ok ins lg end.

(** Sessions keep their id and version. *)
Definition keeps (ins ins' : list Inner) : Prop :=
  forall i n, ins !! i = Some n -> exists n', ins' !! i = Some n' /\
    rpc_session_id n' = rpc_session_id n /\ wire_protocol_version n' = wire_protocol_version n.

Record trace_inv (s : Srv) : Prop := mkTrace {
  ti_registry : forall k i, sessions s !! k = Some i ->
    exists n, inners s !! i = Some n /\ rpc_session_id n = k;
  ti_bound : forall w ph i v id, workers s !! w = Some ph -> bound_to ph = Some (i, v, id) ->
    named_session (inners s) i v id;
  ti_peer : forall w ph p, workers s !! w = Some ph -> peer_of ph = Some p -> admitted (log s) p;
  ti_log : log_ok (inners s) (log s);
  ti_registered : session_registered s = tally is_registered (log s);
  ti_attached : attached_count s = tally is_attached (log s);
  ti_rejected : rejected_unknown_id s = tally is_rejected (log s)
}.

Lemma keeps_refl ins : keeps ins ins.
Proof. intros i n E. by exists n. Qed.

Lemma keeps_insert ins i n n' :
  ins !! i = Some n -> rpc_session_id n' = rpc_session_id n ->
  wire_protocol_version n' = wire_protocol_version n -> keeps ins (<[i := n']> ins).
Proof.
  intros E Hi Hv j m Em. destruct (decide (j = i)) as [-> | Hne].
  - exists n'. rewrite list_lookup_insert_eq by (by eapply lookup_lt_Some). by simplify_eq.
  - exists m. by rewrite list_lookup_insert_ne.
Qed.

Lemma keeps_app ins l : keeps ins (ins ++ l).
Proof. intros i n E. exists n. by rewrite (lookup_app_l_Some _ _ _ _ E). Qed.

Lemma keeps_named ins ins' i v id : keeps ins ins' -> named_session ins i v id -> named_session ins' i v id.
Proof.
  intros Hk (Hl & n & E & Hi & Hv). split; [done |].
  destruct (Hk i n E) as (n' & E' & Hi' & Hv'). exists n'. by rewrite Hi', Hv'.
Qed.

Lemma keeps_log ins ins' lg : keeps ins ins' -> log_ok ins lg -> log_ok ins' lg.
Proof.
  intros Hk. induction lg as [| e lg IH]; [done |]. intros [He Hl]. split; [| by apply IH].
  destruct e as [| | | | p i v id | p i v id | |]; try done.
  - destruct He as (Ha & Hn & Ho). split_and!; [done | by eapply keeps_named | done].
  - destruct He as (Ha & Hn). split; [done | by eapply keeps_named].
Qed.

Lemma admitted_app es lg p : admitted lg p -> admitted (es ++ lg) p.
Proof. intros [hook Hin]. exists hook. apply elem_of_app. by right. Qed.

Definition justified (ph : Phase Peer) (e : Event Peer) : Prop :=
  match e with
  | PassedHook p (Some f) => f p = true
  | Founded p _ => peer_of ph = Some p
  | Attached p i v id => peer_of ph = Some p /\ bound_to ph = Some (i, v, id) /\ is_conn i (role ph) = true
  | CalledBack p i v id => peer_of ph = Some p /\ bound_to ph = Some (i, v, id)
  | Obituary i => is_doomed i (role ph) = true
  | _ => True
  end.

(** What a step of worker [w] from [ph] to [ph'] does. *)
Record effect (s s' : Srv) (w : nat) (ph ph' : Phase Peer) (es : list (Event Peer)) : Prop := mkEffect {
  ef_workers : workers s' = <[w := ph']> (workers s);
  ef_log : log s' = es ++ log s;
  ef_one : (length es <= 1)%nat;
  ef_keeps : keeps (inners s) (inners s');
  ef_registry : forall k i, sessions s' !! k = Some i -> sessions s !! k = Some i \/
    exists n, inners s' !! i = Some n /\ rpc_session_id n = k;
  ef_justified : Forall (justified ph) es;
  ef_peer : forall p, peer_of ph' = Some p -> peer_of ph = Some p \/ exists hook, PassedHook p hook ∈ es;
  ef_bound : forall i v id, bound_to ph' = Some (i, v, id) -> bound_to ph = Some (i, v, id) \/
    resolve_session id s = Some i /\ exists n, inners s !! i = Some n /\ wire_protocol_version n = Some v;
  ef_counts : session_registered s' = tally is_registered es + session_registered s /\
    attached_count s' = tally is_attached es + attached_count s /\
    rejected_unknown_id s' = tally is_rejected es + rejected_unknown_id s
}.

(** The step is one of those that leave the registry alone. *)
Ltac effects ph' es :=
  exists ph', es; split; cbn;
    [done | done | lia | try apply keeps_refl | by (intros; left) | repeat constructor; try done
    | try (intros ? [= <-]; first [by left | right; eexists; left]); try done
    | try (intros ? ? ? [= <- <- <-]; by left); try done
    | split_and!; lia].

Lemma reject_effect s w ph peer : exists ph' es, effect s (reject w peer s) w ph ph' es.
Proof. effects (@Finished Peer) [@Rejected Peer peer]. Qed.

Lemma find_session_effect s s' w ph peer v id inc :
  peer_of ph = Some peer -> find_session w peer v id inc s = Some s' ->
  exists ph' es, effect s s' w ph ph' es.
Proof.
  intros Hp. unfold find_session. destruct (resolve_session id s) as [i |] eqn:Ei;
    [| intros [= <-]; apply reject_effect].
  destruct (inners s !! i) as [n |] eqn:En; [| done].
  case_bool_decide as Hv; intros [= <-]; [| apply reject_effect].
  effects (Resolved peer i v id inc) (@nil (Event Peer)).
  intros j u x [= <- <- <-]. right. split; [done |]. by exists n.
Qed.

Lemma advance_on_effect s s' w ph i n inp :
  held_by ph = Some i -> inners s !! i = Some n -> advance_on w ph i n inp s = Some s' ->
  exists ph' es, effect s s' w ph ph' es.
Proof.
  intros Hh En E. pose proof (keeps_insert (inners s) i n) as Hk.
  destruct ph as [| | | peer j | peer j | peer j v id inc | peer j v id inc | peer j v id | peer j v id
                 | peer j v id slot | peer j v id cap | peer j slot | peer j slot last | peer j slot |];
    try discriminate Hh; injection Hh as ->; destruct inp; try discriminate E; cbn [advance_on exit_on] in E.
  - injection E as <-. exists (Made peer i), [Registered i]. split; cbn; try done; try lia.
    + apply keeps_refl.
    + intros k j. rewrite lookup_insert_Some. intros [[<- <-] | [_ Hj%map_lookup_filter_Some]];
        [right; by exists n | left; apply Hj].
    + by repeat constructor.
    + intros p Hp. by left.
  - injection E as <-. effects (Serving peer i FOUNDING_SLOT_ID) (@nil (Event Peer)). by apply Hk.
  - case_match; injection E as <-; [apply reject_effect |].
    effects (Gated peer i v id inc) (@nil (Event Peer)).
  - injection E as <-. unfold check_room. repeat case_match; try apply reject_effect.
    + effects (CallingBack peer i v id (incoming_cap n)) (@nil (Event Peer)).
    + effects (Roomy peer i v id) (@nil (Event Peer)).
  - assert (Hr : exists x, (try_bump_live_conns n).2 = with_life x n).
    { unfold try_bump_live_conns. destruct (try_bump_live _ _ _) as [ok x |]; [by exists x |].
      exists (lifecycle n). by rewrite with_life_same. }
    destruct Hr as [x Hr]. destruct (try_bump_live_conns n) as [[] n']; cbn in Hr; subst n'; injection E as <-.
    + effects (Bumped peer i v id) (@nil (Event Peer)). by apply Hk.
    + effects (@Finished Peer) [@Rejected Peer peer]. by apply Hk.
  - injection E as <-. effects (Added peer i v id (push_slot n).1) (@nil (Event Peer)). by apply Hk.
  - injection E as <-. effects (Serving peer i slot) [Attached peer i v id].
    + apply Nat.eqb_refl.
  - unfold push_callback in E.
    destruct (add_slot_inner_capped cap (conns n)) as [[slot |] c]; injection E as <-.
    + effects (@Finished Peer) [CalledBack peer i v id]. by apply Hk.
    + effects (@Finished Peer) [@Rejected Peer peer]. by apply Hk.
  - assert (Hr : exists x, (leave_connection n).2 = with_life x n).
    { unfold leave_connection. destruct (drop_connection _ _ _) as [last x |]; [by exists x |].
      exists (lifecycle n). by rewrite with_life_same. }
    destruct Hr as [x Hr]. destruct (leave_connection n) as [last n']; cbn in Hr; subst n'; injection E as <-.
    effects (Left peer i slot last) (@nil (Event Peer)). by apply Hk.
  - destruct last; injection E as <-.
    + effects (Mourned peer i slot) [@Obituary Peer i]. apply Nat.eqb_refl.
    + effects (@Finished Peer) (@nil (Event Peer)). by apply Hk.
  - by destruct last.
  - by destruct last.
  - by destruct last.
  - by destruct last.
  - injection E as <-. effects (Left peer i slot false) (@nil (Event Peer)). by apply Hk.
Qed.

Lemma advance_effect s s' w inp :
  advance w inp s = Some s' ->
  exists ph ph' es, workers s !! w = Some ph /\ effect s s' w ph ph' es.
Proof.
  unfold advance. destruct (workers s !! w) as [ph |] eqn:Ew; [| done].
  destruct (held_by ph) as [i |] eqn:Eh.
  { destruct (inners s !! i) as [n |] eqn:En; [| done]. intros E.
    destruct (advance_on_effect s s' w ph i n inp Eh En E) as (ph' & es & He). by exists ph, ph', es. }
  enough (Hx : forall s', _ = Some s' -> exists ph' es, effect s s' w ph ph' es)
    by (intros (ph' & es & He)%Hx; by exists ph, ph', es). clear s'. intros s'.
  destruct ph as [peer | peer | peer fdu v fd id inc | | | | | | | | | | | |]; try discriminate Eh.
  - destruct inp; try done; intros [= <-]; [| effects (@Finished Peer) (@nil (Event Peer))].
    unfold authorize. destruct (authorizer _) as [f |]; [destruct (f peer) eqn:Hf |].
    + effects (Authorized peer) [PassedHook peer (Some f)].
    + effects (@Finished Peer) [Refused peer].
    + effects (Authorized peer) [@PassedHook Peer peer None].
  - destruct inp; try done; [intros [= <-]; effects (@Finished Peer) (@nil (Event Peer)) | |].
    + case_match; [| done]. intros [= <-]. unfold shake.
      destruct (fst _) as [[[[codec fd] id] inc] | |];
        [effects (Shaken peer (fd_unix_supported (settings s)) (version codec) fd id inc) (@nil (Event Peer)) | |];
        effects (@Finished Peer) (@nil (Event Peer)).
    + case_match; [done |]. intros [= <-].
      effects (Made peer (length (inners s))) [Founded peer (length (inners s))]. apply keeps_app.
  - destruct id, inc, inp; cbn; try done;
      try (by apply (find_session_effect s s' w (Shaken peer fdu v fd _ _))); intros [= <-].
    + effects (@Finished Peer) (@nil (Event Peer)).
    + effects (Founding peer (length (inners s))) [Founded peer (length (inners s))]. apply keeps_app.
  - destruct inp; done.
Qed.

Lemma obituary_elem i (lg : list (Event Peer)) : tally (is_obituary i) lg = 0 -> Obituary i ∉ lg.
Proof.
  intros Ht Hin. pose proof (tally_zero (is_obituary i) lg (Obituary i) Ht Hin) as E. cbn in E.
  by rewrite Nat.eqb_refl in E.
Qed.

(** A justified event fits the log. *)
Lemma justified_ok s w ph e :
  core_inv s -> trace_inv s -> workers s !! w = Some ph -> justified ph e ->
  event_ok (inners s) (log s) e.
Proof.
  intros Hc Ht Ew Hj. pose proof (roles_lookup s w ph Ew) as Er.
  assert (Hlife : forall i, is_conn i (role ph) = true \/ is_doomed i (role ph) = true -> Obituary i ∉ log s).
  { intros i Hor. apply obituary_elem. destruct (inners s !! i) as [n |] eqn:En.
    2: { apply (ci_log s Hc). by apply lookup_ge_None. }
    pose proof (tally_bounds (is_sent i) (roles s)).
    destruct (ii_life i n _ _ (ci_inner s Hc i n En)); try done;
      (destruct Hor as [Hor | Hor]; pose proof (tally_pos _ _ w _ Er Hor); lia). }
  destruct e as [p [f |] | | p i | | p i v id | p i v id | | i]; cbn in *; try done.
  - by apply (ti_peer s Ht w ph).
  - destruct Hj as (Hp & Hb & Hc'). split_and!; [by apply (ti_peer s Ht w ph) | by apply (ti_bound s Ht w ph) |].
    apply Hlife. by left.
  - destruct Hj as (Hp & Hb). split; [by apply (ti_peer s Ht w ph) | by apply (ti_bound s Ht w ph)].
  - apply Hlife. by right.
Qed.

Lemma resolve_named s id i n v :
  trace_inv s -> resolve_session id s = Some i -> inners s !! i = Some n ->
  wire_protocol_version n = Some v -> named_session (inners s) i v id.
Proof.
  intros Ht. unfold resolve_session, try_from_slice. case_leb; [| done].
  destruct (sessions s !! id) as [j |] eqn:Ej; [| done]. case_match; [| done]. intros [= ->] En Hv.
  split; [done |]. exists n. destruct (ti_registry s Ht id i Ej) as (m & Em & Hm). by simplify_eq.
Qed.

Lemma trace_effect s s' w ph ph' es :
  core_inv s -> trace_inv s -> workers s !! w = Some ph -> effect s s' w ph ph' es -> trace_inv s'.
Proof.
  intros Hc Ht Ew [Ews El He1 Hk Hreg Hj Hp Hb (Cr & Ca & Cj)]. split.
  - intros k i [Hs | Hn]%Hreg; [| done]. destruct (ti_registry s Ht k i Hs) as (n & En & Hi).
    destruct (Hk i n En) as (n' & En' & Hi' & _). exists n'. by rewrite Hi'.
  - intros u x i v id. rewrite Ews. intros [(<- & <- & _) | [_ Eu]]%list_lookup_insert_Some Ex.
    + apply (keeps_named (inners s)); [done |]. apply Hb in Ex as [Ex | (Er & n & En & Hv)].
      * by apply (ti_bound s Ht w ph).
      * by apply (resolve_named s id i n).
    + apply (keeps_named (inners s)); [done |]. by apply (ti_bound s Ht u x).
  - intros u x p. rewrite Ews, El. intros [(<- & <- & _) | [_ Eu]]%list_lookup_insert_Some Ex.
    + apply Hp in Ex as [Ex | [hook Hin]].
      * apply admitted_app. by apply (ti_peer s Ht w ph).
      * exists hook. apply elem_of_app. by left.
    + apply admitted_app. by apply (ti_peer s Ht u x).
  - rewrite El. apply (keeps_log (inners s)); [done |].
    destruct es as [| e [| ? ?]]; [apply Ht | | cbn in He1; lia].
    apply Forall_cons in Hj as [Hj _]. split; [by apply (justified_ok s w ph) | apply Ht].
  - rewrite El, tally_app, Cr. rewrite (ti_registered s Ht). lia.
  - rewrite El, tally_app, Ca. rewrite (ti_attached s Ht). lia.
  - rewrite El, tally_app, Cj. rewrite (ti_rejected s Ht). lia.
Qed.

Lemma trace_same s s' :
  trace_inv s -> workers s' = workers s -> sessions s' = sessions s -> log s' = log s ->
  keeps (inners s) (inners s') -> session_registered s' = session_registered s ->
  attached_count s' = attached_count s -> rejected_unknown_id s' = rejected_unknown_id s ->
  trace_inv s'.
Proof.
  intros [Hr Hb Hp Hl C1 C2 C3] Ew Es El Hk E1 E2 E3.
  split; rewrite ?Ew, ?Es, ?El, ?E1, ?E2, ?E3; try done.
  - intros k i Ek. destruct (Hr k i Ek) as (n & En & Hi).
    destruct (Hk i n En) as (n' & En' & Hi' & _). exists n'. by rewrite Hi'.
  - intros w ph i v id Ew' Eb. apply (keeps_named (inners s)); [done |]. by apply (Hb w ph).
  - by apply (keeps_log (inners s)).
Qed.

Lemma trace_spawn s peer : trace_inv s -> trace_inv (spawn peer s).
Proof.
  intros [Hr Hb Hp Hl C1 C2 C3]. split; cbn; try done.
  - intros w ph i v id [E | [_ E]]%lookup_app_Some; [by apply (Hb w ph) |].
    by apply list_lookup_singleton_Some in E as [_ <-].
  - intros w ph p [E | [_ E]]%lookup_app_Some; [by apply (Hp w ph) |].
    by apply list_lookup_singleton_Some in E as [_ <-].
Qed.

Lemma trace_step s s' : core_inv s -> trace_inv s -> server_step s s' -> trace_inv s'.
Proof.
  intros Hc Ht [w inp s1 E | Hl | a Hl | i n c En Ha Hp Hadd | i Ha | pre i post E |].
  - destruct (advance_effect s s1 w inp E) as (ph & ph' & es & Ew & He). by eapply trace_effect.
  - apply (trace_same s); try done; unfold run_top, live_worker_count; repeat case_match; try done;
      apply keeps_refl.
  - unfold run_accept. repeat case_match; try (apply (trace_same s); try done; apply keeps_refl).
    apply (trace_same (spawn peer s)); try done; [by apply trace_spawn | apply keeps_refl].
  - apply (trace_same s); try done. by eapply keeps_insert.
  - apply (trace_same s); try done. apply keeps_refl.
  - apply (trace_same s); try done. apply keeps_refl.
  - apply (trace_same s); try done. apply keeps_refl.
Qed.

Lemma trace_reachable s : server_reachable s -> zlen (workers s) < COUNT_MASK -> trace_inv s.
Proof.
  intros Hr. induction Hr as [d | s s' Hr IH Hst | s s' Hr IH Hst]; intros Hb.
  - split; cbn; done.
  - pose proof (step_workers s s' (or_introl Hst)).
    apply (trace_step s); [apply core_reachable; [done | lia] | apply IH; lia | done].
  - pose proof (step_workers s s' (or_intror Hst)). assert (Ht : trace_inv s) by (apply IH; lia).
    destruct Hst; try (apply (trace_same s); try done; apply keeps_refl). by apply trace_spawn.
Qed.

(** ** Admission *)

Definition running (s : Srv) : Z :=
  zlen (filter (fun w => finished s w = false) (seq 0 (length (workers s)))).

(** Every worker that runs is one whose handle the server keeps, and there are
    at most [m]; fewer when the loop is about to accept. *)
Definition admits (m : Z) (s : Srv) : Prop :=
  max_connections (settings s) = Some m /\
  (forall w, (w < length (workers s))%nat -> finished s w = false -> w ∈ handles s) /\
  running s <= m /\ (loop s = Accepting -> running s < m).

Lemma running_handles s :
  (forall w, (w < length (workers s))%nat -> finished s w = false -> w ∈ handles s) ->
  running s <= (live_worker_count s).1.
Proof.
  intros Hh. unfold running, live_worker_count, zlen. cbn. apply inj_le, submseteq_length.
  apply NoDup_submseteq; [apply NoDup_filter, NoDup_seq |].
  intros w [Hf Hw%elem_of_seq]%list_elem_of_filter. apply list_elem_of_filter. split; [done |].
  apply Hh; [lia | done].
Qed.

Lemma running_le s s' :
  length (workers s') = length (workers s) ->
  (forall w, finished s w = true -> finished s' w = true) -> running s' <= running s.
Proof.
  intros El Hf. unfold running, zlen. rewrite El. apply inj_le, submseteq_length.
  apply NoDup_submseteq; [apply NoDup_filter, NoDup_seq |].
  intros w [Hw Hs]%list_elem_of_filter. apply list_elem_of_filter. split; [| done].
  destruct (finished s w) eqn:E; [| done]. by rewrite (Hf w E) in Hw.
Qed.

Lemma admits_le m s s' :
  admits m s -> settings s' = settings s \/ max_connections (settings s') = max_connections (settings s) ->
  length (workers s') = length (workers s) ->
  (forall w, finished s w = true -> finished s' w = true) -> handles s' = handles s ->
  (loop s' = Accepting -> loop s = Accepting) -> admits m s'.
Proof.
  intros (Hm & Hh & Hr & Ha) Es El Hf Eh Hl. pose proof (running_le s s' El Hf) as Hle.
  split_and!; [destruct Es as [-> | ->]; done | | lia | intros Hx%Hl%Ha; lia].
  intros w. rewrite El, Eh. intros Hw Hw'. apply Hh; [done |].
  destruct (finished s w) eqn:E; [by rewrite (Hf w E) in Hw' | done].
Qed.

Lemma finished_insert s s' w ph' v :
  workers s' = <[w := ph']> (workers s) -> finished s w = false ->
  finished s v = true -> finished s' v = true.
Proof.
  intros Ew Hw Hv. unfold finished in *. rewrite Ew.
  destruct (decide (v = w)) as [-> | Hne]; [congruence | by rewrite list_lookup_insert_ne].
Qed.

Lemma advance_running s s' w inp : advance w inp s = Some s' -> finished s w = false.
Proof.
  unfold advance, finished. destruct (workers s !! w) as [ph |]; [| done]. by destruct ph.
Qed.

Lemma advance_keeps s s' w inp :
  advance w inp s = Some s' -> settings s' = settings s /\ handles s' = handles s /\ loop s' = loop s.
Proof.
  unfold advance, advance_on, exit_on, authorize, shake, find_session, check_room, make_inner, reject.
  intros E. repeat case_match; by simplify_eq/=.
Qed.

Lemma admits_top m s : admits m s -> loop s = Top -> admits m (run_top s).
Proof.
  intros (Hm & Hh & Hr & Ha) Hl. pose proof (running_handles s Hh) as Hlive.
  unfold run_top. case_match; [by split_and! |]. rewrite Hm.
  destruct (live_worker_count s) as [live s1] eqn:E. injection E as <- <-. cbn in Hlive.
  assert (Hh' : forall w, (w < length (workers s))%nat -> finished s w = false ->
            w ∈ filter (fun w => finished s w = false) (handles s)).
  { intros w Hw Hf. apply list_elem_of_filter. split; [done | by apply Hh]. }
  case_leb; split_and!; try done; cbn. intros _.
  change (running _) with (running s). lia.
Qed.

Lemma running_spawn s peer : running (spawn peer s) <= running s + 1.
Proof.
  unfold running, zlen. assert (workers (spawn peer s) = workers s ++ [Spawned peer]) as E by done.
  rewrite E, length_app, Nat.add_1_r, seq_S, filter_app, length_app.
  assert (Hle : (length (filter (fun w => finished (spawn peer s) w = false) (seq 0 (length (workers s))))
             <= length (filter (fun w => finished s w = false) (seq 0 (length (workers s)))))%nat).
  { apply submseteq_length, NoDup_submseteq; [apply NoDup_filter, NoDup_seq |].
    intros w [Hw [_ Hs]%elem_of_seq]%list_elem_of_filter. apply list_elem_of_filter.
    split; [| apply elem_of_seq; lia].
    unfold finished in *. rewrite E in Hw. by rewrite lookup_app_l in Hw by lia. }
  pose proof (length_filter (fun w => finished (spawn peer s) w = false) [0 + length (workers s)]%nat) as H1.
  cbn [length] in H1. lia.
Qed.

Lemma admits_accept m a s : admits m s -> loop s = Accepting -> admits m (run_accept a s).
Proof.
  intros (Hm & Hh & Hr & Ha) Hl. specialize (Ha Hl).
  assert (Hstay : forall l, l <> Accepting -> admits m (set_loop l s)) by (intros l Hne; by split_and!).
  destruct a as [peer [] | e]; cbn; [| by apply Hstay | destruct (accept_transient e); by apply Hstay].
  pose proof (running_spawn s peer) as Hrun. split_and!; try done; [| change (running _) with (running (spawn peer s)); lia].
  cbn. intros w Hw Hf. rewrite length_app in Hw. cbn in Hw. apply elem_of_app.
  destruct (decide (w = length (workers s))) as [-> | Hne]; [right; by left | left].
  apply list_elem_of_filter. split; [exact Hf |]. apply Hh; [lia |].
  unfold finished in *. cbn in Hf. by rewrite lookup_app_l in Hf by lia.
Qed.

Lemma admits_step m s s' : admits m s -> server_step s s' -> admits m s'.
Proof.
  intros Ha [w inp s1 E | Hl | a Hl | i n c En Hal Hp Hadd | i Hal | pre i post E |].
  - destruct (advance_keeps s s1 w inp E) as (Es & Eh & El).
    destruct (advance_effect s s1 w inp E) as (ph & ph' & es & Ew & He).
    apply (admits_le m s); [done | by left | by apply (advance_workers s s1 w inp) | | done | by rewrite El].
    intros v. apply (finished_insert s s1 w ph' v); [apply He | by apply (advance_running s s1 w inp)].
  - by apply admits_top.
  - by apply admits_accept.
  - by apply (admits_le m s); [| left | | | |].
  - by apply (admits_le m s); [| left | | | |].
  - by apply (admits_le m s); [| left | | | |].
  - by apply (admits_le m s); [| right | | | |].
Qed.

Lemma life_counts c d m o w : 0 <= c <= COUNT_MASK -> life_state c d m o w ->
  live_count w = c /\ (is_torn_down w = true <-> c = 0).
Proof.
  intros Hc [H1 -> _ _ _ | -> -> _ _ | -> -> _ _ _].
  - unfold live_count, is_torn_down. rewrite (is_live_word c) by (unfold live_word; lia).
    rewrite live_word_count by (unfold live_word; lia). split; [done |]. split; [done | lia].
  - done.
  - done.
Qed.

Lemma all_finished (s : Srv) (f : option (nat * Role) -> bool) :
  Forall (fun ph => ph = Finished) (workers s) -> f None = false -> tally f (roles s) = 0.
Proof.
  intros Hf Hn. apply tally_none. intros r (ph & -> & Hin)%list_elem_of_fmap.
  rewrite Forall_forall in Hf. by rewrite (Hf ph Hin).
Qed.

Lemma log_ok_at ins l1 e l2 : log_ok ins (l1 ++ e :: l2) -> event_ok ins l2 e.
Proof. induction l1 as [| x l1 IH]; intros [Ha Hb]; [done | by apply IH]. Qed.

(** The peer passed the authorization hook in force when it connected. *)
Definition cleared (lg : list (Event Peer)) (peer : Peer) : Prop :=
  exists hook, PassedHook peer hook ∈ lg /\ match hook with Some f => f peer = true | None => True end.

Lemma admitted_cleared ins lg peer : log_ok ins lg -> admitted lg peer -> cleared lg peer.
Proof.
  intros Hl [hook Hin]. exists hook. split; [done |].
  apply list_elem_of_split in Hin as (l1 & l2 & E). rewrite E in Hl.
  apply log_ok_at in Hl. by destruct hook.
Qed.

Lemma log_ok_tail ins l1 l2 : log_ok ins (l1 ++ l2) -> log_ok ins l2.
Proof. induction l1 as [| x l1 IH]; [done |]. intros [_ Hl]. by apply IH. Qed.

(** ** Scripted runs *)

Inductive Action : Type :=
| Work (w : nat) (inp : Input)
| LoopTop
| LoopAccept (a : Accepted)
| Run
| UseThreads (n : Z)
| UseConnections (n : Z)
| UseAuthorizer (f : Peer -> bool)
| UseAndroid13plus (v : Z).

Definition act (a : Action) (s : Srv) : option Srv :=
  match a with
  | Work w inp => advance w inp s
  | LoopTop => match loop s with Top => Some (run_top s) | _ => None end
  | LoopAccept a => match loop s with Accepting => Some (run_accept a s) | _ => None end
  | Run => match loop s with Stopped _ => Some (set_loop Top s) | _ => None end
  | UseThreads n => Some (set_settings (set_max_threads n (settings s)) s)
  | UseConnections n => Some (set_settings (set_max_connections n (settings s)) s)
  | UseAuthorizer f => Some (set_settings (set_authorizer f (settings s)) s)
  | UseAndroid13plus v => Some (set_settings (set_android13plus v (settings s)) s)
  end.

Fixpoint play (l : list Action) (s : Srv) : option Srv :=
  match l with
  | [] => Some s
  | a :: l => match act a s with Some s => play l s | None => None end
  end.

Lemma play_reachable l s s' : server_reachable s -> play l s = Some s' -> server_reachable s'.
Proof.
  revert s. induction l as [| a l IH]; intros s Hr; cbn; [intros [= <-]; done |].
  destruct (act a s) as [s1 |] eqn:E; [| done]. apply IH.
  destruct a; cbn in E; repeat case_match; simplify_eq;
    first [eapply sr_step; [exact Hr | by constructor || (by eapply st_worker)]
          | eapply sr_admin; [exact Hr | by econstructor]].
Qed.

(** * Properties *)

(** C11: A session lives as long as it has connections, and dies once. However
    accept loop, workers, application and the session's own threads interleave, the
    lifecycle word of every session counts the workers that serve it; the session
    is torn down exactly when there is none; the obituaries are sent at most
    once, never while a connection is left, and, when all workers have
    finished, have been sent. *)
Theorem sessions_die_once s i n :
  server_reachable s -> zlen (workers s) < COUNT_MASK -> inners s !! i = Some n ->
  live_count (lifecycle n) = connected i s /\ (torn_down n = true <-> connected i s = 0) /\
  0 <= obituaries i s <= 1 /\ (obituaries i s = 1 -> connected i s = 0) /\
  (Forall (fun ph => ph = Finished) (workers s) -> obituaries i s = 1).
Proof.
  intros Hr Hb En. pose proof (core_reachable s Hr Hb) as Hc.
  pose proof (ii_life i n _ _ (ci_inner s Hc i n En)) as Hl.
  pose proof (tally_bounds (is_conn i) (roles s)). pose proof (connected_bound i s) as Hcb.
  destruct (life_counts _ _ _ _ _ (conj (proj1 H) (Z.le_trans _ _ _ Hcb (Z.lt_le_incl _ _ Hb))) Hl) as [H1 H2].
  pose proof (tally_bounds (is_doomed i) (roles s)). pose proof (tally_bounds (is_sent i) (roles s)).
  unfold connected, obituaries. split_and!; try done.
  1, 2: destruct Hl; lia.
  - destruct Hl; lia.
  - intros Hf. pose proof (all_finished s (is_conn i) Hf eq_refl).
    pose proof (all_finished s (is_doomed i) Hf eq_refl). pose proof (all_finished s (is_sent i) Hf eq_refl).
    destruct Hl; lia.
Qed.

(** Connection slots are bounded and none is lost. Every slot of a session's pool is
    a callback slot, of which there are at most twice the session's thread
    limit, or belongs to exactly one worker, which removes it when it leaves;
    when all workers have finished only callback slots are left. Two guards
    on one slot belong to one thread. *)
Theorem session_slots_accounted s i n :
  server_reachable s -> zlen (workers s) < COUNT_MASK -> inners s !! i = Some n ->
  (forall id, id ∈ pool_ids n -> id ∈ callbacks n \/
     exists w ph, workers s !! w = Some ph /\ slot_of i (role ph) = Some id /\
       forall v ph', workers s !! v = Some ph' -> slot_of i (role ph') = Some id -> v = w) /\
  zlen (filter (fun id => id ∈ callbacks n) (pool_ids n)) <= 2 * max_threads_value n /\
  (Forall (fun ph => ph = Finished) (workers s) -> forall id, id ∈ pool_ids n -> id ∈ callbacks n) /\
  (forall t1 t2 g1 g2, g1 ∈ guards (conns n) t1 -> g2 ∈ guards (conns n) t2 ->
     guard_slot g1 = guard_slot g2 -> t1 = t2).
Proof.
  intros Hr Hb En. pose proof (ci_inner s (core_reachable s Hr Hb) i n En) as [Hp Hl Ho Hu Hk Hcb Hcap Ht].
  assert (Hown : forall id, id ∈ pool_ids n -> id ∈ callbacks n \/
     exists w ph, workers s !! w = Some ph /\ slot_of i (role ph) = Some id /\
       forall v ph', workers s !! v = Some ph' -> slot_of i (role ph') = Some id -> v = w).
  { intros id Hid. destruct (Ho id Hid) as [? | (w & r & Ew & Er)]; [by left | right].
    pose proof Ew as Ew'. unfold roles in Ew'. rewrite list_lookup_fmap in Ew'.
    destruct (workers s !! w) as [ph |] eqn:E; [| done]. injection Ew' as <-.
    exists w, ph. split_and!; try done. intros v ph' Ev Es.
    exact (Hu v w _ _ id (roles_lookup s v ph' Ev) Ew Es Er). }
  split_and!; [exact Hown | unfold incoming_cap in Hcap; lia | |].
  - intros Hf id [? | (w & ph & Ew & Es & _)]%Hown; [done |].
    rewrite Forall_lookup in Hf. by rewrite (Hf w ph Ew) in Es.
  - intros t1 t2 g1 g2 H1 H2 E. pose proof (guard_claims _ _ (inv_nested _ _ Hp t1) H1) as C1.
    pose proof (guard_claims _ _ (inv_nested _ _ Hp t2) H2) as C2. rewrite E in C1.
    exact (inv_one _ _ Hp t1 t2 _ C1 C2).
Qed.

(** C31: A connection joins the session it names, and only an admitted peer gets
    that far. Every session was founded, and every connection or callback connection
    attached, for a peer that the authorization hook had accepted; an attached
    connection echoed the 32-byte id of its session and negotiated the
    session's version; and no connection is attached after the session's obituaries,
    which are sent once. The counters count what the log says. *)
Theorem attach_sound s :
  server_reachable s -> zlen (workers s) < COUNT_MASK ->
  (forall l1 e l2, log s = l1 ++ e :: l2 ->
     match e with
     | Founded peer i => cleared l2 peer
     | Attached peer i v id => cleared l2 peer /\ named_session (inners s) i v id /\ Obituary i ∉ l2
     | CalledBack peer i v id => cleared l2 peer /\ named_session (inners s) i v id
     | Obituary i => Obituary i ∉ l2
     | _ => True
     end) /\
  session_registered s = tally is_registered (log s) /\
  attached_count s = tally is_attached (log s) /\ rejected_unknown_id s = tally is_rejected (log s).
Proof.
  intros Hr Hb. pose proof (trace_reachable s Hr Hb) as Ht.
  split_and!; [| apply Ht | apply Ht | apply Ht]. intros l1 e l2 El.
  pose proof (ti_log s Ht) as Hl. rewrite El in Hl. pose proof (log_ok_at _ _ _ _ Hl) as He.
  assert (Hl2 : log_ok (inners s) l2) by (apply (log_ok_tail _ (l1 ++ [e])); by rewrite <- app_assoc).
  pose proof (fun p => admitted_cleared (inners s) l2 p Hl2) as Hcl.
  destruct e; cbn in He; try done; [by apply Hcl | |].
  - destruct He as (Ha & Hn & Ho). split_and!; [by apply Hcl | done | done].
  - destruct He as (Ha & Hn). split; [by apply Hcl | done].
Qed.

(** The accept loop keeps its bound. From a state in which the server knows all
    its running workers and there are at most [m] = [max_connections] of them,
    there are never more, whatever workers, clients and sessions do, as long
    as the application does not change the bound, hand in connections of its own,
    or take the handles. *)
Theorem admission_bounded m s s' :
  max_connections (settings s) = Some m -> loop s <> Accepting ->
  (forall w, (w < length (workers s))%nat -> finished s w = false -> w ∈ handles s) ->
  running s <= m -> rtc server_step s s' -> running s' <= m.
Proof.
  intros Hm Hl Hh Hr Hs. assert (Ha : admits m s) by (by split_and!).
  clear Hm Hl Hh Hr. induction Hs as [s | s1 s2 s3 Hst _ IH]; [apply Ha |].
  by apply IH, (admits_step m s1).
Qed.
End Server.

(** * Examples *)

(** A peer's bytes in the handshake for version 1. *)
Definition hello (incoming : bool) (id : list byte) : endpoint :=
  match encode_connection_header (mkA13 1) incoming 0 id with
  | Ok header => mkEnd [RData (client_bytes header incoming)] [] []
  | _ => mkEnd [] [] []
  end.

Definition demo_errno : AcceptErrno := {|
  EPROTO := 71; ENETDOWN := 100; ENETUNREACH := 101; EHOSTUNREACH := 113; ETIMEDOUT := 110;
  EMFILE := 24; ENFILE := 23; ENOMEM := 12; ENOBUFS := 105
|}.
#[local] Existing Instances ptr64 linux_errno demo_errno.

Definition demo_id : list byte := replicate 32 x2a.

(** Peer 7 founds a session; it opens a second connection; it opens a callback
    connection; all go away. *)
Definition demo_start : list (@Action Z) :=
  [UseAndroid13plus 1; UseThreads 2; UseConnections 3; UseAuthorizer (Z.eqb 7); Run].
Definition demo_connect (w : nat) (incoming : bool) (id : list byte) : list (@Action Z) :=
  [LoopTop; LoopAccept (Connection 7 true); Work w Go; Work w (Handshake (hello incoming id))].
Definition demo_found : list (@Action Z) :=
  demo_connect 0 false [] ++ [Work 0 (Random demo_id); Work 0 Go; Work 0 Go].
Definition demo_attach (w : nat) : list (@Action Z) :=
  demo_connect w false demo_id ++ replicate 6 (Work w Go).
Definition demo_call_back (w : nat) : list (@Action Z) :=
  demo_connect w true demo_id ++ replicate 4 (Work w Go).
Definition demo_end : list (@Action Z) :=
  [Work 0 Closed; Work 0 Go; Work 1 Closed; Work 1 Go; Work 1 Go; Work 1 Go].

Definition demo_play (l : list (@Action Z)) : Server Z :=
  match play l (new_server (mkSib 0)) with Some s => s | None => new_server (mkSib 0) end.

Lemma demo_reachable l : server_reachable (demo_play l).
Proof.
  unfold demo_play. destruct (play l _) eqn:E; [| apply sr_new].
  eapply play_reachable; [apply sr_new | exact E].
Qed.

Definition demo_running : Server Z := demo_play (demo_start ++ demo_found ++ demo_attach 1 ++ demo_call_back 2).
Definition demo_over : Server Z :=
  demo_play (demo_start ++ demo_found ++ demo_attach 1 ++ demo_call_back 2 ++ demo_end).

Lemma sessions_die_once_witness :
  connected 0 demo_running = 2 /\ obituaries 0 demo_over = 1.
Proof.
  split; [vm_compute; reflexivity |].
  destruct (inners demo_over !! 0%nat) as [n |] eqn:E; [| vm_compute in E; discriminate].
  apply (sessions_die_once demo_over 0 n);
    [apply demo_reachable | vm_compute; reflexivity | exact E | vm_compute; repeat constructor].
Defined.

Lemma session_slots_accounted_witness :
  exists n, inners demo_running !! 0%nat = Some n /\ pool_ids n = [1; 2; 3] /\ callbacks n = [3] /\
    zlen (filter (fun id => id ∈ callbacks n) (pool_ids n)) <= 2 * max_threads_value n.
Proof.
  destruct (inners demo_running !! 0%nat) as [n |] eqn:E; [| vm_compute in E; discriminate].
  exists n. split; [reflexivity |]. split; [vm_compute in E; by injection E as <- |].
  split; [vm_compute in E; by injection E as <- |].
  apply (session_slots_accounted demo_running 0 n);
    [apply demo_reachable | vm_compute; reflexivity | exact E].
Defined.

Lemma attach_sound_witness :
  attached_count demo_running = 1 /\ session_registered demo_running = tally is_registered (log demo_running).
Proof.
  split; [vm_compute; reflexivity |].
  apply (attach_sound demo_running); [apply demo_reachable | vm_compute; reflexivity].
Defined.

(** Steps of the server alone. *)
Definition own (a : @Action Z) : bool := match a with Work _ _ | LoopTop | LoopAccept _ => true | _ => false end.

Lemma play_steps l (s s' : Server Z) :
  forallb own l = true -> play l s = Some s' -> rtc server_step s s'.
Proof.
  revert s. induction l as [| a l IH]; intros s; cbn; [intros _ [= <-]; done |].
  intros [Ha Hl]%andb_true_iff. destruct (act a s) as [s1 |] eqn:E; [| done]. intros Hp.
  eapply rtc_l; [| by apply (IH s1)].
  destruct a; try discriminate Ha; cbn in E; repeat case_match; simplify_eq;
    first [by eapply st_worker | by constructor].
Qed.

Lemma admission_bounded_witness : running demo_running = 2 /\ running demo_running <= 3.
Proof.
  split; [vm_compute; reflexivity |].
  apply (admission_bounded 3 (demo_play demo_start) demo_running);
    [reflexivity | discriminate | cbn; lia | vm_compute; discriminate |].
  apply (play_steps (demo_found ++ demo_attach 1 ++ demo_call_back 2)); [reflexivity |].
  vm_compute. reflexivity.
Defined.

(** Callback slots count against the limit of incoming connections: with
    [max_threads] = 2, one connection and one callback connection, a second
    connection with the session's id is turned away. *)
Lemma callbacks_use_incoming_cap :
  let s := demo_play (demo_start ++ demo_found ++ demo_call_back 1 ++ demo_connect 2 false demo_id
                        ++ [Work 2 Go; Work 2 Go; Work 2 Go]) in
  max_threads_value <$> inners s !! 0%nat = Some 2 /\ connected 0 s = 1 /\
  rejected_unknown_id s = 1 /\ workers s !! 2%nat = Some Finished.
Proof. vm_compute. done. Qed.
