(* ===== verification/ProxyCache.v ===== *)
(** The proxies of kernel handles (src/rsbinder/src/process_state.rs:
    [strong_proxy_for_handle_stability] with its three phases,
    [send_obituary_for_handle], [release_obituary_pin]; src/rsbinder/src/proxy.rs:
    [ProxyHandle::new_acquired], [send_obituary] and [drop];
    src/rsbinder/src/thread_state.rs: the reference commands and their flush).

    Threads run activities: lookups, obituaries, references the application holds.
    A section under the lock of [handle_to_proxy] is one step, and so is every
    stretch without a shared effect. An [Arc<ProxyHandle>] is alive while some
    activity holds it. Commands go into the out-parcel of the thread and reach the
    driver when it flushes: at once, or later on a looper thread. The
    driver is the list of the commands written to it. It is taken to carry out the
    weak reference commands and the acquires; releases it may refuse, and which
    ones it does is an argument of the counts. It reports a dead binder for handles in
    the cache, one at a time per handle. *)

From Stdlib Require Import ZArith Lia.
From stdpp Require Import base gmap strings list.
From S2P Require Import Prelude Errors.

Inductive Cmd : Type :=
| BC_INCREFS (handle : Z)
| BC_DECREFS (handle : Z)
| BC_ACQUIRE (handle : Z)
| BC_RELEASE (handle : Z)
| BC_REQUEST_DEATH_NOTIFICATION (handle : Z)
| BC_CLEAR_DEATH_NOTIFICATION (handle : Z)
| BC_DEAD_BINDER_DONE (handle : Z).

(** [made_for] is the generation of the entry it was made for and [released]
    whether [drop] has run, for the proofs; [fired] has the recipients that
    were told. *)
Record ProxyHandle : Type := mkProxy {
  handle : Z;
  proxy_descriptor : string;
  recipients : list Z;
  obituary_sent : bool;
  fired : list Z;
  made_for : Z;
  released : bool
}.

(** [weak] names an allocation. *)
Record CacheEntry : Type := mkEntry { weak : nat; descriptor : string; generation : Z }.

Inductive SlowPathPlan : Type :=
| PlanA
| PlanB (descriptor : string) (generation : Z).

Inductive SlowPathReady : Type :=
| ReadyA (descriptor : string)
| ReadyB (descriptor : string) (generation : Z).

(** What a thread [tid] is at: the points of a lookup of [h]; an [Arc] it holds; the
    drop of the last one; the points of an obituary. *)
Inductive Activity : Type :=
| FastPath (tid h : Z)
| SlowP1 (tid h : Z)
| SlowP2 (tid h : Z) (plan : SlowPathPlan)
| SlowP3 (tid h : Z) (ready : SlowPathReady)
| Holding (tid : Z) (a : nat)
| Dropping (tid : Z) (a : nat)
| ObitRead (tid h : Z)
| ObitRemove (tid h : Z) (arc : option nat)
| ObitSend (tid h : Z) (arc : option nat)
| ObitLeave (tid h : Z) (arc : option nat)
| ObitDrop (tid h : Z) (a : nat)
| ObitPin (tid h : Z)
| Idle.

Record Process : Type := mkProcess {
  handle_to_proxy : gmap Z CacheEntry;
  next_generation : Z;
  proxies : list ProxyHandle;
  out_parcels : list (Z * Cmd);
  driver : list Cmd;
  activities : list Activity
}.

Section ProxyCache.
(** The threads that are loopers (or flush already). *)
Context (is_looper : Z -> bool).

Definition set_out (out : list (Z * Cmd)) (driver : list Cmd) (s : Process) : Process :=
  mkProcess (handle_to_proxy s) (next_generation s) (proxies s) out driver (activities s).
Definition set_cache (m : gmap Z CacheEntry) (s : Process) : Process :=
  mkProcess m (next_generation s) (proxies s) (out_parcels s) (driver s) (activities s).
Definition set_proxies (l : list ProxyHandle) (s : Process) : Process :=
  mkProcess (handle_to_proxy s) (next_generation s) l (out_parcels s) (driver s) (activities s).
Definition set_generation (g : Z) (s : Process) : Process :=
  mkProcess (handle_to_proxy s) g (proxies s) (out_parcels s) (driver s) (activities s).
Definition set_activities (l : list Activity) (s : Process) : Process :=
  mkProcess (handle_to_proxy s) (next_generation s) (proxies s) (out_parcels s) (driver s) l.
Definition goes (k : nat) (a : Activity) (s : Process) : Process :=
  set_activities (<[k := a]> (activities s)) s.

(** ** Commands *)

Definition queue (tid : Z) (c : Cmd) (s : Process) : Process :=
  set_out (out_parcels s ++ [(tid, c)]) (driver s) s.

(** [talk_with_driver(false)]. *)
Definition flush_commands (tid : Z) (s : Process) : Process :=
  set_out (filter (fun x => x.1 <> tid) (out_parcels s))
          (driver s ++ (snd <$> filter (fun x => x.1 = tid) (out_parcels s))) s.

Definition flush_if_needed (tid : Z) (s : Process) : Process :=
  if is_looper tid then s else flush_commands tid s.

Definition inc_weak_handle (tid h : Z) (s : Process) : Process :=
  flush_if_needed tid (queue tid (BC_INCREFS h) s).
Definition dec_weak_handle (tid h : Z) (s : Process) : Process :=
  flush_if_needed tid (queue tid (BC_DECREFS h) s).
Definition inc_strong_handle (tid h : Z) (s : Process) : Process :=
  flush_if_needed tid (queue tid (BC_ACQUIRE h) s).
Definition dec_strong_handle (tid h : Z) (s : Process) : Process :=
  flush_if_needed tid (queue tid (BC_RELEASE h) s).

Definition undo_case_a_pin (tid h : Z) (s : Process) : Process :=
  flush_commands tid (dec_weak_handle tid h s).

(** ** Lookup *)

(** The activity that holds an [Arc]. *)
Definition holds (a : nat) (act : Activity) : bool :=
  match act with
  | Holding _ b | ObitRemove _ _ (Some b) | ObitSend _ _ (Some b) | ObitLeave _ _ (Some b) => Nat.eqb b a
  | _ => false
  end.
Definition alive (a : nat) (s : Process) : bool := existsb (holds a) (activities s).

(** [handle_to_proxy.get(&handle).and_then(|e| e.weak.upgrade())]. *)
Definition cached (h : Z) (s : Process) : option nat :=
  match handle_to_proxy s !! h with
  | Some e => if alive (weak e) s then Some (weak e) else None
  | None => None
  end.

Definition commit_new_acquired (tid h : Z) (desc : string) (gen : Z) (s : Process) : nat * Process :=
  let a := length (proxies s) in
  let s := inc_strong_handle tid h s in
  let s := set_proxies (proxies s ++ [mkProxy h desc [] false [] gen false]) s in
  (a, set_cache (<[h := mkEntry a desc gen]> (handle_to_proxy s)) s).

Definition slow_path_p1 (tid h : Z) (s : Process) : Activity * Process :=
  match cached h s with
  | Some a => (Holding tid a, s)
  | None =>
      match handle_to_proxy s !! h with
      | Some e => (SlowP2 tid h (PlanB (descriptor e) (generation e)), s)
      | None => (SlowP2 tid h PlanA, flush_commands tid (inc_weak_handle tid h s))
      end
  end.

(** The outcome of the calls in phase 2: whether the ping went well (it is made
    for handle 0), and the descriptor. *)
Definition slow_path_p2 (tid h : Z) (plan : SlowPathPlan) (ping : bool) (answer : option string)
    (s : Process) : Activity * Process :=
  if negb ping then
    (Idle, match plan with PlanA => undo_case_a_pin tid h s | PlanB _ _ => s end)
  else
    match plan with
    | PlanA =>
        match answer with
        | Some d => (SlowP3 tid h (ReadyA d), s)
        | None => (Idle, undo_case_a_pin tid h s)
        end
    | PlanB d g => (SlowP3 tid h (ReadyB d g), s)
    end.

Definition slow_path_p3 (tid h : Z) (ready : SlowPathReady) (s : Process) : Activity * Process :=
  match cached h s with
  | Some a =>
      (Holding tid a, match ready with ReadyA _ => undo_case_a_pin tid h s | ReadyB _ _ => s end)
  | None =>
      match ready, handle_to_proxy s !! h with
      | ReadyA d, None =>
          let g := next_generation s in
          let (a, s) := commit_new_acquired tid h d g (set_generation (g + 1) s) in
          (Holding tid a, s)
      | ReadyA _, Some e =>
          let s := undo_case_a_pin tid h s in
          let (a, s) := commit_new_acquired tid h (descriptor e) (generation e) s in
          (Holding tid a, s)
      | ReadyB d g, Some e =>
          let (a, s) :=
            if generation e =? g then commit_new_acquired tid h d g s
            else commit_new_acquired tid h (descriptor e) (generation e) s in
          (Holding tid a, s)
      | ReadyB _ _, None => (Idle, s)
      end
  end.

(** ** Proxies *)

Definition update_proxy (a : nat) (f : ProxyHandle -> ProxyHandle) (s : Process) : Process :=
  match proxies s !! a with
  | Some p => set_proxies (<[a := f p]> (proxies s)) s
  | None => s
  end.

Definition set_recipients (n : list Z) (p : ProxyHandle) : ProxyHandle :=
  mkProxy (handle p) (proxy_descriptor p) n (obituary_sent p) (fired p) (made_for p) (released p).
Definition set_dead (told : list Z) (p : ProxyHandle) : ProxyHandle :=
  mkProxy (handle p) (proxy_descriptor p) [] true (fired p ++ told) (made_for p) (released p).
Definition set_released (p : ProxyHandle) : ProxyHandle :=
  mkProxy (handle p) (proxy_descriptor p) (recipients p) (obituary_sent p) (fired p) (made_for p) true.

(** [ProxyHandle::drop]. *)
Definition drop_proxy (tid : Z) (a : nat) (s : Process) : Process :=
  match proxies s !! a with
  | Some p => update_proxy a set_released (dec_strong_handle tid (handle p) s)
  | None => s
  end.

(** The recipient [r]; [upgrades]: it has an owner. *)
Definition link_to_death (tid : Z) (a : nat) (r : Z) (upgrades : bool) (s : Process)
    : outcome StatusCode Process :=
  match proxies s !! a with
  | Some p =>
      if obituary_sent p then Err StDeadObject
      else if negb upgrades then Err StBadValue
      else
        let s :=
          match recipients p with
          | [] => flush_commands tid (queue tid (BC_REQUEST_DEATH_NOTIFICATION (handle p)) s)
          | _ => s
          end in
        Ok (update_proxy a (set_recipients (recipients p ++ [r])) s)
  | None => Panic
  end.

(** [position] and [remove]: the first [r] goes. *)
Fixpoint remove_first (r : Z) (l : list Z) : option (list Z) :=
  match l with
  | [] => None
  | x :: l => if x =? r then Some l else match remove_first r l with Some l => Some (x :: l) | None => None end
  end.

Definition unlink_to_death (tid : Z) (a : nat) (r : Z) (s : Process) : outcome StatusCode Process :=
  match proxies s !! a with
  | Some p =>
      if obituary_sent p then Err StDeadObject
      else
        match remove_first r (recipients p) with
        | None => Err StNameNotFound
        | Some rest =>
            let s := update_proxy a (set_recipients rest) s in
            Ok (match rest with
                | [] => flush_commands tid (queue tid (BC_CLEAR_DEATH_NOTIFICATION (handle p)) s)
                | _ => s
                end)
        end
  | None => Panic
  end.

(** [live]: the recipients that have an owner when the callbacks are made. *)
Definition send_obituary (tid : Z) (a : nat) (live : Z -> bool) (s : Process) : Process :=
  match proxies s !! a with
  | Some p =>
      if obituary_sent p then s
      else
        let s :=
          match recipients p with
          | [] => s
          | _ => queue tid (BC_CLEAR_DEATH_NOTIFICATION (handle p)) s
          end in
        let s := update_proxy a (set_dead (List.filter live (recipients p))) s in
        match recipients p with [] => s | _ => flush_commands tid s end
  | None => s
  end.

(** [BC_DEAD_BINDER_DONE] and [release_obituary_pin]. *)
Definition release_obituary_pin (tid h : Z) (s : Process) : Process :=
  flush_commands tid (dec_weak_handle tid h
    (flush_commands tid (queue tid (BC_DEAD_BINDER_DONE h) s))).

(** ** Steps *)

Inductive Input : Type :=
| Go
| Answer (ping : bool) (descriptor : option string)
| Clone (tid : Z)
| DropRef
| Link (r : Z) (upgrades : bool)
| Unlink (r : Z)
| Tell (live : Z -> bool).

(** The state after a call that can fail: an error has no effect. *)
Definition after (r : outcome StatusCode Process) (s : Process) : Process :=
  match r with Ok s' => s' | _ => s end.

(** A holder goes: to [last] when the [Arc] has no other. *)
Definition leaves (k a : nat) (last next : Activity) (s : Process) : Process :=
  if alive a (goes k Idle s) then goes k next s else goes k last s.

Definition then_goes (k : nat) (r : Activity * Process) : Process := goes k r.1 r.2.

Definition advance (k : nat) (inp : Input) (s : Process) : option Process :=
  match activities s !! k, inp with
  | Some (FastPath tid h), Go =>
      match cached h s with
      | Some a => Some (goes k (Holding tid a) s)
      | None => Some (goes k (SlowP1 tid h) s)
      end
  | Some (SlowP1 tid h), Go => Some (then_goes k (slow_path_p1 tid h s))
  | Some (SlowP2 tid h plan), Answer ping d => Some (then_goes k (slow_path_p2 tid h plan ping d s))
  | Some (SlowP3 tid h ready), Go => Some (then_goes k (slow_path_p3 tid h ready s))
  | Some (Holding tid a), Clone tid' => Some (set_activities (activities s ++ [Holding tid' a]) s)
  | Some (Holding tid a), DropRef => Some (leaves k a (Dropping tid a) Idle s)
  | Some (Holding tid a), Link r up => Some (after (link_to_death tid a r up s) s)
  | Some (Holding tid a), Unlink r => Some (after (unlink_to_death tid a r s) s)
  | Some (Dropping tid a), Go => Some (goes k Idle (drop_proxy tid a s))
  | Some (ObitRead tid h), Go => Some (goes k (ObitRemove tid h (cached h s)) s)
  | Some (ObitRemove tid h arc), Go =>
      Some (goes k (ObitSend tid h arc) (set_cache (delete h (handle_to_proxy s)) s))
  | Some (ObitSend tid h arc), Tell live =>
      Some (goes k (ObitLeave tid h arc)
                 (match arc with Some a => send_obituary tid a live s | None => s end))
  | Some (ObitLeave tid h (Some a)), Go => Some (leaves k a (ObitDrop tid h a) (ObitPin tid h) s)
  | Some (ObitLeave tid h None), Go => Some (goes k (ObitPin tid h) s)
  | Some (ObitDrop tid h a), Go => Some (goes k (ObitPin tid h) (drop_proxy tid a s))
  | Some (ObitPin tid h), Go => Some (goes k Idle (release_obituary_pin tid h s))
  | _, _ => None
  end.

(** An obituary for [h] that has not removed the entry yet. *)
Definition condemns (h : Z) (act : Activity) : bool :=
  match act with ObitRead _ h' | ObitRemove _ h' _ => h' =? h | _ => false end.

Inductive process_step (s : Process) : Process -> Prop :=
| pc_advance k inp s' : advance k inp s = Some s' -> process_step s s'
| pc_lookup tid h : process_step s (set_activities (activities s ++ [FastPath tid h]) s)
| pc_dead tid h e :
    handle_to_proxy s !! h = Some e -> tally (condemns h) (activities s) = 0 ->
    process_step s (set_activities (activities s ++ [ObitRead tid h]) s)
| pc_flush tid : process_step s (flush_commands tid s).

Definition process_new : Process := mkProcess ∅ 0 [] [] [] [].

Inductive process_reachable : Process -> Prop :=
| pc_new : process_reachable process_new
| pc_step s s' : process_reachable s -> process_step s s' -> process_reachable s'.

(** ** What the commands amount to *)

Definition weak_delta (h : Z) (c : Cmd) : Z :=
  match c with
  | BC_INCREFS h' => if h' =? h then 1 else 0
  | BC_DECREFS h' => if h' =? h then -1 else 0
  | _ => 0
  end.
Definition strong_delta (h : Z) (c : Cmd) : Z :=
  match c with
  | BC_ACQUIRE h' => if h' =? h then 1 else 0
  | BC_RELEASE h' => if h' =? h then -1 else 0
  | _ => 0
  end.

Fixpoint total (d : Cmd -> Z) (l : list Cmd) : Z :=
  match l with [] => 0 | c :: l => d c + total d l end.

(** The weak references of the process on [h] in the driver. *)
Definition driver_weak (h : Z) (s : Process) : Z := total (weak_delta h) (driver s).

(** The strong references on [h], and the releases that were refused, after the
    commands [l] that follow [before]: [refuses] says whether the driver refuses a
    release after the commands so far. *)
Fixpoint driver_counts (refuses : list Cmd -> Z -> bool) (h : Z) (before l : list Cmd) : Z * Z :=
  match l with
  | [] => (0, 0)
  | c :: l =>
      let (n, r) := driver_counts refuses h (before ++ [c]) l in
      match c with
      | BC_ACQUIRE h' => if h' =? h then (n + 1, r) else (n, r)
      | BC_RELEASE h' => if h' =? h then (if refuses before h then (n, r + 1) else (n - 1, r)) else (n, r)
      | _ => (n, r)
      end
  end.
Definition driver_strong (refuses : list Cmd -> Z -> bool) (h : Z) (s : Process) : Z :=
  (driver_counts refuses h [] (driver s)).1.
Definition refused_releases (refuses : list Cmd -> Z -> bool) (h : Z) (s : Process) : Z :=
  (driver_counts refuses h [] (driver s)).2.

(** A driver that refuses a release when it has no strong reference on the handle. *)
Definition strong_at (h : Z) (l : list Cmd) : Z :=
  foldl (fun n c => match c with
                    | BC_ACQUIRE h' => if h' =? h then n + 1 else n
                    | BC_RELEASE h' => if (h' =? h) && negb (n =? 0) then n - 1 else n
                    | _ => n
                    end) 0 l.
Definition refuses_at_zero (before : list Cmd) (h : Z) : bool := strong_at h before =? 0.
Definition sent_and_queued (d : Cmd -> Z) (s : Process) : Z :=
  total d (driver s) + total d (snd <$> out_parcels s).

(** * The invariants *)

Lemma total_app d l k : total d (l ++ k) = total d l + total d k.
Proof. induction l as [| c l IH]; cbn; lia. Qed.

Lemma driver_counts_total refuses h before l :
  (driver_counts refuses h before l).1 - (driver_counts refuses h before l).2 = total (strong_delta h) l.
Proof.
  revert before. induction l as [| c l IH]; intros before; [done |]. cbn [driver_counts total].
  specialize (IH (before ++ [c])). destruct (driver_counts _ _ _ _) as [n r]. cbn [fst snd] in IH.
  destruct c as [h' | h' | h' | h' | h' | h' | h']; cbn; try lia; destruct (h' =? h); cbn; try lia.
  destruct (refuses before h); cbn; lia.
Qed.

Lemma total_split d (P Q : Z * Cmd -> Prop) `{!forall x, Decision (P x), !forall x, Decision (Q x)} l :
  (forall x, Q x <-> ~ P x) ->
  total d (snd <$> filter P l) + total d (snd <$> filter Q l) = total d (snd <$> l).
Proof.
  intros Hq. induction l as [| x l IH]; [done |]. rewrite !filter_cons. specialize (Hq x).
  repeat case_decide; cbn; try lia; tauto.
Qed.

Lemma queue_sum d tid c s : sent_and_queued d (queue tid c s) = sent_and_queued d s + d c.
Proof. unfold sent_and_queued, queue. cbn. rewrite fmap_app, total_app. cbn. lia. Qed.

Lemma flush_sum d tid s : sent_and_queued d (flush_commands tid s) = sent_and_queued d s.
Proof.
  unfold sent_and_queued, flush_commands. cbn. rewrite total_app.
  rewrite <- (total_split d (fun x => x.1 = tid) (fun x => x.1 <> tid) (out_parcels s)) by done. lia.
Qed.

Lemma flush_if_sum d tid s : sent_and_queued d (flush_if_needed tid s) = sent_and_queued d s.
Proof. unfold flush_if_needed. destruct (is_looper tid); [done | apply flush_sum]. Qed.

(** The commands touch the out-parcels and the driver alone. *)
Definition same_tables (s s' : Process) : Prop :=
  handle_to_proxy s' = handle_to_proxy s /\ next_generation s' = next_generation s /\
  proxies s' = proxies s /\ activities s' = activities s.

Lemma flush_if_same tid s : same_tables s (flush_if_needed tid s).
Proof. unfold flush_if_needed. by destruct (is_looper tid). Qed.

(** A command and its flush: what it adds, and that the tables stay. *)
Record sends (d : list Cmd) (s s' : Process) : Prop := mkSends {
  sends_same : same_tables s s';
  sends_sum : forall f, sent_and_queued f s' = sent_and_queued f s + total f d
}.

Lemma sends_refl s : sends [] s s.
Proof. split; [done |]. intros f. cbn. lia. Qed.

Lemma sends_trans d d' s1 s2 s3 : sends d s1 s2 -> sends d' s2 s3 -> sends (d ++ d') s1 s3.
Proof.
  intros [(A1 & A2 & A3 & A4) HA] [(B1 & B2 & B3 & B4) HB].
  split; [split_and!; congruence |]. intros f. rewrite HB, HA, total_app. lia.
Qed.

Lemma sends_queue tid c s : sends [c] s (queue tid c s).
Proof. split; [done |]. intros f. rewrite queue_sum. cbn. lia. Qed.

Lemma sends_flush tid s : sends [] s (flush_commands tid s).
Proof. split; [done |]. intros f. rewrite flush_sum. cbn. lia. Qed.

Lemma sends_flush_if tid s : sends [] s (flush_if_needed tid s).
Proof. split; [apply flush_if_same |]. intros f. rewrite flush_if_sum. cbn. lia. Qed.

Lemma sends_cmd tid c s : sends [c] s (flush_if_needed tid (queue tid c s)).
Proof. apply (sends_trans [c] [] _ _ _ (sends_queue tid c s) (sends_flush_if tid _)). Qed.

Lemma sends_cmd_flush tid c s : sends [c] s (flush_commands tid (flush_if_needed tid (queue tid c s))).
Proof. apply (sends_trans [c] [] _ _ _ (sends_cmd tid c s) (sends_flush tid _)). Qed.

Lemma sends_queue_flush tid c s : sends [c] s (flush_commands tid (queue tid c s)).
Proof. apply (sends_trans [c] [] _ _ _ (sends_queue tid c s) (sends_flush tid _)). Qed.

Lemma sends_pin tid h s : sends [BC_DEAD_BINDER_DONE h; BC_DECREFS h] s (release_obituary_pin tid h s).
Proof.
  apply (sends_trans [_] [_] _ _ _ (sends_queue_flush tid _ s)). apply sends_cmd_flush.
Qed.

(** No reference of the cache waits in an out-parcel. *)
Definition pins_sent (s : Process) : Prop :=
  forall x, x ∈ out_parcels s -> match x.2 with BC_INCREFS _ => False | _ => True end.

Lemma pins_sent_flush tid s : pins_sent s -> pins_sent (flush_commands tid s).
Proof. intros Hp x [_ Hx]%list_elem_of_filter. by apply Hp. Qed.

Lemma pins_sent_flush_if tid s : pins_sent s -> pins_sent (flush_if_needed tid s).
Proof. unfold flush_if_needed. destruct (is_looper tid); [done | apply pins_sent_flush]. Qed.

Lemma pins_sent_queue tid c s :
  pins_sent s -> match c with BC_INCREFS _ => False | _ => True end -> pins_sent (queue tid c s).
Proof. intros Hp Hc x [Hx | ->%list_elem_of_singleton]%elem_of_app; [by apply Hp | done]. Qed.

Lemma pins_sent_inc tid h s : pins_sent s -> pins_sent (flush_commands tid (inc_weak_handle tid h s)).
Proof.
  intros Hp x [Hne Hx]%list_elem_of_filter. unfold inc_weak_handle, flush_if_needed in Hx.
  assert (Hq : x ∈ out_parcels s ++ [(tid, BC_INCREFS h)]).
  { destruct (is_looper tid); [done |]. by apply list_elem_of_filter in Hx as [_ Hx]. }
  apply elem_of_app in Hq as [Hq | ->%list_elem_of_singleton]; [by apply Hp | by destruct Hne].
Qed.

(** ** Weak references *)

(** A lookup that holds a pin of its own; an obituary that has still to
    release the pin of the entry it removed. *)
Definition pins (h : Z) (act : Activity) : bool :=
  match act with SlowP2 _ h' PlanA | SlowP3 _ h' (ReadyA _) => h' =? h | _ => false end.
Definition owes (h : Z) (act : Activity) : bool :=
  match act with
  | ObitSend _ h' _ | ObitLeave _ h' _ | ObitDrop _ h' _ | ObitPin _ h' => h' =? h
  | _ => false
  end.
Definition entries (h : Z) (s : Process) : Z := Z.b2z (bool_decide (is_Some (handle_to_proxy s !! h))).

Record weak_inv (s : Process) : Prop := mkWeak {
  wi_sum : forall h, sent_and_queued (weak_delta h) s
    = entries h s + tally (pins h) (activities s) + tally (owes h) (activities s);
  wi_sent : pins_sent s;
  wi_condemned : forall h, tally (condemns h) (activities s) <= entries h s
}.

Lemma weak_move s s1 k a0 a1 :
  weak_inv s -> activities s !! k = Some a0 -> activities s1 = activities s -> pins_sent s1 ->
  (forall h, sent_and_queued (weak_delta h) s1 - sent_and_queued (weak_delta h) s
     = entries h s1 - entries h s + Z.b2z (pins h a1) - Z.b2z (pins h a0)
       + Z.b2z (owes h a1) - Z.b2z (owes h a0)) ->
  (forall h, Z.b2z (condemns h a1) - Z.b2z (condemns h a0) <= entries h s1 - entries h s) ->
  weak_inv (goes k a1 s1).
Proof.
  intros [Hs Hp Hc] Ek Ea Hp1 Hsum Hcond.
  assert (Et : forall f, tally f (activities (goes k a1 s1))
            = tally f (activities s) - Z.b2z (f a0) + Z.b2z (f a1)).
  { intros f. cbn. rewrite Ea. by apply tally_insert. }
  split; [| done |]; intros h; rewrite !Et.
  - assert (sent_and_queued (weak_delta h) (goes k a1 s1) = sent_and_queued (weak_delta h) s1) as -> by done.
    assert (entries h (goes k a1 s1) = entries h s1) as -> by done.
    specialize (Hs h). specialize (Hsum h). lia.
  - assert (entries h (goes k a1 s1) = entries h s1) as -> by done.
    specialize (Hc h). specialize (Hcond h). lia.
Qed.

Lemma weak_append s act :
  weak_inv s -> (forall h, pins h act = false) -> (forall h, owes h act = false) ->
  (forall h, tally (condemns h) (activities s) + Z.b2z (condemns h act) <= entries h s) ->
  weak_inv (set_activities (activities s ++ [act]) s).
Proof.
  intros [Hs Hp Hc] H1 H2 H3. split; [| done |]; intros h; cbn [activities set_activities]; rewrite !tally_app.
  - assert (sent_and_queued (weak_delta h) (set_activities (activities s ++ [act]) s)
            = sent_and_queued (weak_delta h) s) as -> by done.
    assert (entries h (set_activities (activities s ++ [act]) s) = entries h s) as -> by done.
    cbn. rewrite H1, H2. specialize (Hs h). cbn. lia.
  - assert (entries h (set_activities (activities s ++ [act]) s) = entries h s) as -> by done.
    specialize (H3 h). cbn. lia.
Qed.

(** Steps that neither add nor remove an entry and send [d]. *)
Lemma weak_send s s1 k a0 a1 d :
  weak_inv s -> activities s !! k = Some a0 -> sends d s s1 -> pins_sent s1 ->
  (forall h, total (weak_delta h) d = Z.b2z (pins h a1) - Z.b2z (pins h a0)
                                      + Z.b2z (owes h a1) - Z.b2z (owes h a0)) ->
  (forall h, condemns h a1 = true -> condemns h a0 = true) -> weak_inv (goes k a1 s1).
Proof.
  intros Hw Ek [(E1 & _ & _ & E4) Hsum] Hp Hd Hc.
  assert (He : forall h, entries h s1 = entries h s) by (intros h; unfold entries; by rewrite E1).
  eapply (weak_move s s1 k a0 a1); try done.
  - intros h. rewrite He, Hsum. specialize (Hd h). lia.
  - intros h. rewrite He. specialize (Hc h). destruct (condemns h a1); [rewrite Hc by done; lia |].
    destruct (condemns h a0); cbn; lia.
Qed.

(** A new allocation for [h]; the tables otherwise as [s]. *)
Lemma commit_spec tid h d g s :
  exists s1, sends [BC_ACQUIRE h] s s1 /\
    commit_new_acquired tid h d g s
      = (length (proxies s),
         set_cache (<[h := mkEntry (length (proxies s)) d g]> (handle_to_proxy s))
           (set_proxies (proxies s ++ [mkProxy h d [] false [] g false]) s1)) /\
    (pins_sent s -> pins_sent s1).
Proof.
  exists (inc_strong_handle tid h s). pose proof (sends_cmd tid (BC_ACQUIRE h) s) as Hs.
  split; [done |]. destruct (sends_same _ _ _ Hs) as (E1 & E2 & E3 & E4).
  unfold commit_new_acquired. unfold inc_strong_handle in *. cbn. rewrite E1, E3. split; [done |].
  intros Hp. by apply pins_sent_flush_if, pins_sent_queue.
Qed.

Lemma cached_entry h s a : cached h s = Some a ->
  exists e, handle_to_proxy s !! h = Some e /\ weak e = a /\ alive a s = true.
Proof. unfold cached. repeat case_match; intros; simplify_eq. by eexists. Qed.

Lemma undo_pins tid h s : pins_sent s -> pins_sent (undo_case_a_pin tid h s).
Proof. intros Hp. by apply pins_sent_flush, pins_sent_flush_if, pins_sent_queue. Qed.

Lemma weak_p1 s k tid h :
  weak_inv s -> activities s !! k = Some (SlowP1 tid h) -> weak_inv (then_goes k (slow_path_p1 tid h s)).
Proof.
  intros Hw Ek. unfold slow_path_p1, then_goes. repeat case_match; cbn [fst snd].
  - by eapply (weak_send s s k _ _ []); [| | apply sends_refl | apply Hw | |].
  - by eapply (weak_send s s k _ _ []); [| | apply sends_refl | apply Hw | |].
  - eapply (weak_send s _ k _ _ [BC_INCREFS h]);
      [done | done | apply sends_cmd_flush | apply pins_sent_inc, Hw | | done].
    intros h'. cbn. destruct (h =? h'); cbn; lia.
Qed.

Lemma weak_p2 s k tid h plan ping d :
  weak_inv s -> activities s !! k = Some (SlowP2 tid h plan) ->
  weak_inv (then_goes k (slow_path_p2 tid h plan ping d s)).
Proof.
  intros Hw Ek. unfold slow_path_p2, then_goes.
  assert (Hundo : plan = PlanA -> weak_inv (goes k Idle (undo_case_a_pin tid h s))).
  { intros ->. eapply (weak_send s _ k _ Idle [BC_DECREFS h]);
      [done | done | exact (sends_cmd_flush tid (BC_DECREFS h) s) | apply undo_pins, Hw | | done].
    intros h'. cbn. destruct (h =? h'); cbn; lia. }
  repeat case_match; cbn [fst snd]; subst; try (by apply Hundo);
    (eapply (weak_send s s k _ _ []);
      [done | done | apply sends_refl | apply Hw | intros h'; cbn; destruct (h =? h'); cbn; lia | done]).
Qed.

Lemma weak_commit s s0 k tid h d g a0 :
  weak_inv s -> activities s !! k = Some a0 -> activities s0 = activities s ->
  handle_to_proxy s0 = handle_to_proxy s -> pins_sent s0 ->
  (forall h', owes h' a0 = false) -> (forall h', condemns h' a0 = false) ->
  (forall h', sent_and_queued (weak_delta h') s0 - sent_and_queued (weak_delta h') s
     = (if h =? h' then 1 - entries h s else 0) - Z.b2z (pins h' a0)) ->
  let r := commit_new_acquired tid h d g s0 in weak_inv (goes k (Holding tid r.1) r.2).
Proof.
  intros Hw Ek Ea Eh Hp Ho Hc Hd r. destruct (commit_spec tid h d g s0) as (s1 & Hs & E & Hp1).
  unfold r. rewrite E. cbn [fst snd]. destruct (sends_same _ _ _ Hs) as (_ & _ & _ & E4).
  assert (Hins : forall h' x s1, entries h' (set_cache (<[h := x]> (handle_to_proxy s0)) s1)
            = if h =? h' then 1 else entries h' s).
  { intros h' x s2. unfold entries. cbn. rewrite Eh. destruct (Z.eqb_spec h h') as [<- | Hne].
    - by rewrite lookup_insert_eq.
    - by rewrite lookup_insert_ne. }
  eapply (weak_move s _ k a0); [done | done | cbn; congruence | exact (Hp1 Hp) | |].
  - intros h'. rewrite Hins, Ho. specialize (Hd h'). cbn.
    assert (Hq : sent_and_queued (weak_delta h') s1 = sent_and_queued (weak_delta h') s0).
    { rewrite (sends_sum _ _ _ Hs). cbn. lia. }
    unfold sent_and_queued in *. cbn. destruct (Z.eqb_spec h h') as [Eq |]; [rewrite <- Eq in * |]; lia.
  - intros h'. rewrite Hins, Hc. cbn. destruct (Z.eqb_spec h h'); [| lia].
    unfold entries. case_bool_decide; cbn; lia.
Qed.

Lemma weak_p3 s k tid h ready :
  weak_inv s -> activities s !! k = Some (SlowP3 tid h ready) ->
  weak_inv (then_goes k (slow_path_p3 tid h ready s)).
Proof.
  intros Hw Ek. unfold slow_path_p3, then_goes.
  destruct (cached h s) as [a |] eqn:Ec; cbn [fst snd].
  { destruct ready.
    - eapply (weak_send s _ k _ _ [BC_DECREFS h]);
        [done | done | exact (sends_cmd_flush tid (BC_DECREFS h) s) | apply undo_pins, Hw | | done].
      intros h'. cbn. destruct (h =? h'); cbn; lia.
    - eapply (weak_send s s k _ _ []); [done | done | apply sends_refl | apply Hw | done | done]. }
  assert (Hent : forall e, handle_to_proxy s !! h = e -> entries h s = Z.b2z (bool_decide (is_Some e)))
    by (intros e <-; done).
  destruct ready as [d | d g], (handle_to_proxy s !! h) as [e |] eqn:Ee; specialize (Hent _ eq_refl).
  - pose proof (sends_cmd_flush tid (BC_DECREFS h) s) as Hs.
    pose proof (weak_commit s (undo_case_a_pin tid h s) k tid h (descriptor e) (generation e) _ Hw Ek) as H.
    destruct (sends_same _ _ _ Hs) as (E1 & _ & _ & E4).
    specialize (H E4 E1 (undo_pins tid h s (wi_sent s Hw)) (fun _ => eq_refl) (fun _ => eq_refl)).
    destruct (commit_new_acquired _ _ _ _ _). cbn [fst snd] in *. apply H. intros h'.
    unfold undo_case_a_pin, dec_weak_handle. rewrite (sends_sum _ _ _ Hs), Hent. cbn.
    destruct (h =? h'); cbn; lia.
  - pose proof (weak_commit s (set_generation (next_generation s + 1) s) k tid h d (next_generation s) _ Hw Ek
                  eq_refl eq_refl (wi_sent s Hw) (fun _ => eq_refl) (fun _ => eq_refl)) as H.
    destruct (commit_new_acquired _ _ _ _ _). cbn [fst snd] in *. apply H. intros h'. rewrite Hent.
    unfold sent_and_queued. cbn. destruct (h =? h'); cbn; lia.
  - assert (H : forall d g, let r := commit_new_acquired tid h d g s in weak_inv (goes k (Holding tid r.1) r.2)).
    { intros d' g'. apply (weak_commit s s k tid h d' g' _ Hw Ek); try done; [apply Hw |].
      intros h'. rewrite Hent. cbn. destruct (h =? h'); lia. }
    destruct (generation e =? g); [specialize (H d g) | specialize (H (descriptor e) (generation e))];
      by destruct (commit_new_acquired _ _ _ _ _).
  - eapply (weak_send s s k _ _ []); [done | done | apply sends_refl | apply Hw | done | done].
Qed.

Lemma weak_proxies s l : weak_inv s -> weak_inv (set_proxies l s).
Proof. by intros [Hs Hp Hc]. Qed.

Lemma weak_update s a f : weak_inv s -> weak_inv (update_proxy a f s).
Proof. unfold update_proxy. case_match; [apply weak_proxies | done]. Qed.

Lemma weak_sent s s1 d :
  weak_inv s -> sends d s s1 -> pins_sent s1 -> (forall h, total (weak_delta h) d = 0) -> weak_inv s1.
Proof.
  intros [Hs Hp Hc] [(E1 & _ & _ & E4) Hsum] Hp1 Hd.
  split; [| done |]; intros h; unfold entries; rewrite ?E1, ?E4; [| apply Hc].
  rewrite Hsum, Hd, Z.add_0_r. apply Hs.
Qed.

Lemma weak_queue tid c s :
  weak_inv s -> match c with BC_INCREFS _ | BC_DECREFS _ => False | _ => True end ->
  weak_inv (queue tid c s).
Proof.
  intros Hw Hc. eapply weak_sent; [exact Hw | apply sends_queue | |].
  - apply pins_sent_queue; [apply Hw | by destruct c].
  - intros h. by destruct c.
Qed.

Lemma weak_flush tid s : weak_inv s -> weak_inv (flush_commands tid s).
Proof. intros Hw. eapply weak_sent; [exact Hw | apply sends_flush | apply pins_sent_flush, Hw | done]. Qed.

Lemma weak_drop tid a s : weak_inv s -> weak_inv (drop_proxy tid a s).
Proof.
  intros Hw. unfold drop_proxy. case_match; [| done]. apply weak_update.
  unfold dec_strong_handle, flush_if_needed. case_match; [| apply weak_flush]; by apply weak_queue.
Qed.

(** A step of the activity that weak references do not see. *)
Lemma weak_goes s k a0 a1 :
  weak_inv s -> activities s !! k = Some a0 -> (forall h, pins h a1 = pins h a0) ->
  (forall h, owes h a1 = owes h a0) -> (forall h, condemns h a1 = true -> condemns h a0 = true) ->
  weak_inv (goes k a1 s).
Proof.
  intros Hw Ek Hp Ho Hc.
  eapply (weak_send s s k a0 a1 []); [done | done | apply sends_refl | apply Hw | | done].
  intros h. rewrite Hp, Ho. cbn. lia.
Qed.

Lemma update_activities a f s : activities (update_proxy a f s) = activities s.
Proof. unfold update_proxy. by case_match. Qed.
Lemma drop_activities tid a s : activities (drop_proxy tid a s) = activities s.
Proof.
  unfold drop_proxy. case_match; [| done]. rewrite update_activities.
  unfold dec_strong_handle, flush_if_needed. by case_match.
Qed.
Lemma send_activities tid a live s : activities (send_obituary tid a live s) = activities s.
Proof.
  unfold send_obituary. repeat case_match; cbn; rewrite ?update_activities; done.
Qed.

Lemma weak_send_obituary tid a live s : weak_inv s -> weak_inv (send_obituary tid a live s).
Proof.
  intros Hw. unfold send_obituary. repeat case_match; try done; [by apply weak_update |].
  by apply weak_flush, weak_update, weak_queue.
Qed.

Lemma weak_remove s k tid h arc :
  weak_inv s -> activities s !! k = Some (ObitRemove tid h arc) ->
  weak_inv (goes k (ObitSend tid h arc) (set_cache (delete h (handle_to_proxy s)) s)).
Proof.
  intros Hw Ek.
  assert (Hent : entries h s = 1).
  { pose proof (wi_condemned s Hw h). pose proof (tally_pos (condemns h) _ k _ Ek (Z.eqb_refl h)).
    unfold entries in *. case_bool_decide; cbn in *; lia. }
  assert (Hdel : forall h', entries h' (set_cache (delete h (handle_to_proxy s)) s)
            = if h =? h' then 0 else entries h' s).
  { intros h'. unfold entries. cbn. destruct (Z.eqb_spec h h') as [<- | Hne].
    - by rewrite lookup_delete_eq.
    - by rewrite lookup_delete_ne. }
  eapply (weak_move s _ k _); [done | done | done | apply Hw | |]; intros h'; rewrite Hdel; cbn;
    destruct (Z.eqb_spec h h') as [Eq |]; try (rewrite <- Eq, Hent); cbn; try lia.
  all: unfold sent_and_queued; cbn; lia.
Qed.

Lemma weak_pin s k tid h :
  weak_inv s -> activities s !! k = Some (ObitPin tid h) ->
  weak_inv (goes k Idle (release_obituary_pin tid h s)).
Proof.
  intros Hw Ek. eapply (weak_send s _ k _ _ [BC_DEAD_BINDER_DONE h; BC_DECREFS h]);
    [done | done | apply sends_pin | | | done].
  - apply pins_sent_flush, pins_sent_flush_if, pins_sent_queue; [| done].
    apply pins_sent_flush, pins_sent_queue; [apply Hw | done].
  - intros h'. cbn. destruct (h =? h'); cbn; lia.
Qed.

Lemma weak_advance s s' k inp : weak_inv s -> advance k inp s = Some s' -> weak_inv s'.
Proof.
  intros Hw E. unfold advance in E. destruct (activities s !! k) as [act |] eqn:Ek; [| done].
  destruct act as [tid h | tid h | tid h plan | tid h ready | tid a | tid a | tid h | tid h arc | tid h arc
                  | tid h [a |] | tid h a | tid h |], inp; try discriminate E.
  - case_match; injection E as <-; by eapply weak_goes.
  - injection E as <-. by apply weak_p1.
  - injection E as <-. by apply weak_p2.
  - injection E as <-. by apply weak_p3.
  - injection E as <-. apply weak_append; try done. intros h. cbn. rewrite Z.add_0_r. apply Hw.
  - injection E as <-. unfold leaves. case_match; by eapply weak_goes.
  - injection E as <-. unfold link_to_death. repeat case_match; try done; apply weak_update; [| done].
    by apply weak_flush, weak_queue.
  - injection E as <-. unfold unlink_to_death. repeat case_match; try done; cbn [after]; [| by apply weak_update].
    apply weak_flush, weak_queue; [by apply weak_update | done].
  - injection E as <-. eapply weak_goes; [by apply weak_drop | by rewrite drop_activities | done..].
  - injection E as <-. by eapply weak_goes.
  - injection E as <-. by apply weak_remove.
  - injection E as <-. destruct arc.
    + eapply weak_goes; [by apply weak_send_obituary | by rewrite send_activities | done..].
    + by eapply weak_goes.
  - injection E as <-. unfold leaves. case_match; by eapply weak_goes.
  - injection E as <-. by eapply weak_goes.
  - injection E as <-. eapply weak_goes; [by apply weak_drop | by rewrite drop_activities | done..].
  - injection E as <-. by apply weak_pin.
Qed.

Lemma weak_reachable s : process_reachable s -> weak_inv s.
Proof.
  induction 1 as [| s s' _ IH [k inp s1 E | tid h | tid h e Ee Hc | tid]].
  - split; [done | by intros x ?%elem_of_nil | done].
  - by eapply weak_advance.
  - apply weak_append; try done. intros h'. cbn. rewrite Z.add_0_r. apply IH.
  - apply weak_append; try done. intros h'. cbn. destruct (Z.eqb_spec h h') as [<- |].
    + rewrite Hc. unfold entries. rewrite Ee. cbn. lia.
    + rewrite Z.add_0_r. apply IH.
  - by apply weak_flush.
Qed.

(** ** Proxies and their strong references *)

(** The activity that is to run [drop]. *)
Definition drops (a : nat) (act : Activity) : bool :=
  match act with Dropping _ b | ObitDrop _ _ b => Nat.eqb b a | _ => false end.
Definition refers (a : nat) (act : Activity) : bool := holds a act || drops a act.
Definition unreleased (h : Z) (p : ProxyHandle) : bool := (handle p =? h) && negb (released p).

Record proxy_inv (s : Process) : Prop := mkProxyInv {
  pi_sum : forall h, sent_and_queued (strong_delta h) s = tally (unreleased h) (proxies s);
  pi_valid : forall k act a, activities s !! k = Some act -> refers a act = true ->
    (a < length (proxies s))%nat;
  pi_kept : forall a p, proxies s !! a = Some p ->
    (released p = true <-> tally (refers a) (activities s) = 0);
  pi_last : forall a, tally (drops a) (activities s) <= 1 /\
    (tally (drops a) (activities s) = 1 -> tally (holds a) (activities s) = 0);
  pi_entry : forall h e, handle_to_proxy s !! h = Some e ->
    exists p, proxies s !! weak e = Some p /\ handle p = h /\ made_for p = generation e;
  pi_gens : forall a p, proxies s !! a = Some p -> made_for p < next_generation s;
  pi_current : forall a p e, proxies s !! a = Some p -> alive a s = true ->
    handle_to_proxy s !! handle p = Some e -> generation e = made_for p -> weak e = a;
  pi_unique : forall a b p q, proxies s !! a = Some p -> proxies s !! b = Some q ->
    alive a s = true -> alive b s = true -> handle p = handle q -> made_for p = made_for q -> a = b
}.

Lemma alive_tally a s : alive a s = true <-> 1 <= tally (holds a) (activities s).
Proof.
  unfold alive. rewrite existsb_exists. split.
  - intros (act & Hin & Hh). apply list_elem_of_In, list_elem_of_lookup in Hin as [k Ek].
    by apply (tally_pos (holds a) _ k act).
  - intros (act & Hin & Hh)%tally_some. exists act. by rewrite <- list_elem_of_In.
Qed.

Lemma refers_tally a l : tally (refers a) l = tally (holds a) l + tally (drops a) l.
Proof.
  induction l as [| act l IH]; [done |]. cbn. rewrite IH. unfold refers.
  assert (Hx : holds a act = true -> drops a act = false) by (destruct act as [| | | | | | | ? ? [|] | ? ? [|] | ? ? [|] | | |]; done).
  destruct (holds a act), (drops a act); cbn; try lia.
Qed.

(** Only activities change, and no [Arc] comes to life by it. *)
Lemma proxy_activities s l :
  proxy_inv s ->
  (forall k act a, l !! k = Some act -> refers a act = true -> (a < length (proxies s))%nat) ->
  (forall a, tally (refers a) l = 0 <-> tally (refers a) (activities s) = 0) ->
  (forall a, tally (drops a) l <= 1 /\ (tally (drops a) l = 1 -> tally (holds a) l = 0)) ->
  (forall a, 1 <= tally (holds a) l -> 1 <= tally (holds a) (activities s)) ->
  proxy_inv (set_activities l s).
Proof.
  intros [Hs Hv Hk Hl He Hg Hc Hu] Hv' Hk' Hl' Ha.
  assert (Hal : forall a, alive a (set_activities l s) = true -> alive a s = true).
  { intros a. rewrite !alive_tally. apply Ha. }
  split; cbn [proxies activities handle_to_proxy next_generation set_activities]; try done.
  - intros a p Ep. rewrite Hk'. by apply Hk.
  - intros a p e Ep Hal1. apply Hc; [done | by apply Hal].
  - intros a b p q Ep Eq H1 H2. apply Hu; try done; by apply Hal.
Qed.

(** A worker of the tables that only sends. *)
Lemma proxy_sent s s1 d :
  proxy_inv s -> sends d s s1 -> (forall h, total (strong_delta h) d = 0) -> proxy_inv s1.
Proof.
  intros [Hs Hv Hk Hl He Hg Hc Hu] [(E1 & E2 & E3 & E4) Hsum] Hd.
  assert (Hal : forall a, alive a s1 = alive a s) by (intros a; unfold alive; by rewrite E4).
  split; rewrite ?E1, ?E2, ?E3, ?E4; try done.
  - intros h. rewrite Hsum, Hd, Z.add_0_r. apply Hs.
  - intros a p e. rewrite Hal. apply Hc.
  - intros a b p q. rewrite !Hal. apply Hu.
Qed.

Lemma proxy_flush tid s : proxy_inv s -> proxy_inv (flush_commands tid s).
Proof. intros Hp. by eapply proxy_sent; [| apply sends_flush |]. Qed.

Lemma proxy_queue tid c s :
  proxy_inv s -> match c with BC_ACQUIRE _ | BC_RELEASE _ => False | _ => True end ->
  proxy_inv (queue tid c s).
Proof. intros Hp Hc. eapply proxy_sent; [done | apply sends_queue |]. intros h. by destruct c. Qed.

(** Recipients and obituaries. *)
Lemma proxy_update a f s :
  proxy_inv s -> (forall p, handle (f p) = handle p /\ made_for (f p) = made_for p /\ released (f p) = released p) ->
  proxy_inv (update_proxy a f s).
Proof.
  intros Hp Hf. unfold update_proxy. destruct (proxies s !! a) as [p0 |] eqn:E0; [| done].
  destruct Hp as [Hs Hv Hk Hl He Hg Hc Hu]. destruct (Hf p0) as (F1 & F2 & F3).
  assert (Hold : forall b q, <[a := f p0]> (proxies s) !! b = Some q -> exists p,
            proxies s !! b = Some p /\ handle q = handle p /\ made_for q = made_for p /\ released q = released p).
  { intros b q [(<- & <- & _) | [_ Eb]]%list_lookup_insert_Some; [by exists p0 | by exists q]. }
  split; cbn; rewrite ?length_insert; try done.
  - intros h. rewrite (tally_insert _ _ _ _ _ E0). unfold unreleased at 2 3. rewrite F1, F3.
    rewrite <- (Hs h). unfold sent_and_queued. cbn. lia.
  - intros b q (p & Ep & _ & _ & ->)%Hold. by apply Hk.
  - intros h e Ee. destruct (He h e Ee) as (p & Ep & H1 & H2).
    destruct (decide (weak e = a)) as [Eq | Hne].
    + exists (f p0). rewrite Eq in *. rewrite list_lookup_insert_eq by (by eapply lookup_lt_Some).
      split_and!; [done | congruence | congruence].
    + exists p. by rewrite list_lookup_insert_ne.
  - intros b q (p & Ep & _ & -> & _)%Hold. by apply (Hg b).
  - intros b q e (p & Ep & -> & -> & _)%Hold. by apply Hc.
  - intros b c q r (p & Ep & -> & -> & _)%Hold (p' & Ep' & -> & -> & _)%Hold. by apply Hu.
Qed.

(** The activity neither holds nor drops an [Arc]; it holds exactly [b]. *)
Definition refers_none (act : Activity) : Prop := forall a, holds a act = false /\ drops a act = false.
Definition holds_only (b : nat) (act : Activity) : Prop :=
  forall a, holds a act = Nat.eqb b a /\ drops a act = false.
Definition drops_only (b : nat) (act : Activity) : Prop :=
  forall a, holds a act = false /\ drops a act = Nat.eqb b a.

Lemma insert_refers (l : list Activity) k a0 a1 x act a :
  l !! k = Some a0 -> <[k := a1]> l !! x = Some act -> refers a act = true ->
  (x = k /\ refers a a1 = true) \/ l !! x = Some act.
Proof. intros Ek [(<- & <- & _) | [_ E]]%list_lookup_insert_Some Hr; [by left | by right]. Qed.

Lemma proxy_move s k a0 a1 :
  proxy_inv s -> activities s !! k = Some a0 ->
  (forall a, refers a a1 = true -> (a < length (proxies s))%nat) ->
  (forall a, let f := fun v => tally v (activities s) - Z.b2z (v a0) + Z.b2z (v a1) in
     (f (holds a) + f (drops a) = 0 <-> tally (holds a) (activities s) + tally (drops a) (activities s) = 0) /\
     f (drops a) <= 1 /\ (f (drops a) = 1 -> f (holds a) = 0) /\
     (1 <= f (holds a) -> 1 <= tally (holds a) (activities s))) ->
  proxy_inv (goes k a1 s).
Proof.
  intros Hp Ek Hv Hf. apply proxy_activities; [done | | | |].
  - intros x act a Ex Hr. destruct (insert_refers _ _ _ _ _ _ _ Ek Ex Hr) as [[_ H] | H]; [by apply Hv |].
    by apply (pi_valid s Hp x act).
  - intros a. rewrite !refers_tally, !(tally_insert _ _ _ _ _ Ek). apply (Hf a).
  - intros a. rewrite !(tally_insert _ _ _ _ _ Ek). split; apply (Hf a).
  - intros a. rewrite !(tally_insert _ _ _ _ _ Ek). apply (Hf a).
Qed.

Lemma proxy_goes s k a0 a1 :
  proxy_inv s -> activities s !! k = Some a0 ->
  (forall a, holds a a1 = holds a a0 /\ drops a a1 = drops a a0) -> proxy_inv (goes k a1 s).
Proof.
  intros Hp Ek Hs. apply (proxy_move s k a0 a1 Hp Ek).
  - intros a Hr. apply (pi_valid s Hp k a0 a Ek). destruct (Hs a) as [E1 E2].
    unfold refers in *. by rewrite <- E1, <- E2.
  - intros a f. destruct (Hs a) as [E1 E2]. unfold f. rewrite E1, E2.
    pose proof (pi_last s Hp a) as [H1 H2]. split_and!; lia.
Qed.

Lemma proxy_gain s k a0 a1 b :
  proxy_inv s -> activities s !! k = Some a0 -> refers_none a0 -> holds_only b a1 -> alive b s = true ->
  proxy_inv (goes k a1 s).
Proof.
  intros Hp Ek H0 H1 Hal%alive_tally. apply (proxy_move s k a0 a1 Hp Ek).
  - intros a. unfold refers. destruct (H1 a) as [-> ->]. rewrite orb_false_r. intros <-%Nat.eqb_eq.
    destruct (tally_some _ _ Hal) as (act & [x Ex]%list_elem_of_lookup & Hh).
    apply (pi_valid s Hp x act b Ex). unfold refers. by rewrite Hh.
  - intros a f. unfold f. destruct (H0 a) as [-> ->], (H1 a) as [-> ->].
    pose proof (pi_last s Hp a) as [L1 L2]. pose proof (tally_bounds (holds a) (activities s)).
    pose proof (tally_bounds (drops a) (activities s)).
    destruct (Nat.eqb_spec b a) as [<- | Hne]; cbn; split_and!; lia.
Qed.

Lemma proxy_leave s k a0 b last next :
  proxy_inv s -> activities s !! k = Some a0 -> holds_only b a0 -> drops_only b last -> refers_none next ->
  proxy_inv (leaves k b last next s).
Proof.
  intros Hp Ek H0 H1 H2. unfold leaves.
  assert (Hb : (b < length (proxies s))%nat).
  { apply (pi_valid s Hp k a0 b Ek). unfold refers. destruct (H0 b) as [-> _]. by rewrite Nat.eqb_refl. }
  assert (Hrest : tally (holds b) (activities (goes k Idle s)) = tally (holds b) (activities s) - 1).
  { cbn. rewrite (tally_insert _ _ _ _ _ Ek). destruct (H0 b) as [-> _]. rewrite Nat.eqb_refl. cbn. lia. }
  destruct (alive b (goes k Idle s)) eqn:E.
  - apply alive_tally in E. rewrite Hrest in E. apply (proxy_move s k a0 next Hp Ek).
    + intros a. unfold refers. by destruct (H2 a) as [-> ->].
    + intros a f. unfold f. destruct (H0 a) as [-> ->], (H2 a) as [-> ->].
      pose proof (pi_last s Hp a) as [L1 L2]. pose proof (tally_bounds (drops a) (activities s)).
      destruct (Nat.eqb_spec b a) as [<- | Hne]; cbn; split_and!; lia.
  - assert (E0 : tally (holds b) (activities s) = 1).
    { apply not_true_iff_false in E. rewrite alive_tally, Hrest in E.
      assert (Hh : holds b a0 = true) by (destruct (H0 b) as [-> _]; apply Nat.eqb_refl).
      pose proof (tally_pos (holds b) _ k a0 Ek Hh). lia. }
    apply (proxy_move s k a0 last Hp Ek).
    + intros a. unfold refers. destruct (H1 a) as [-> ->]. cbn. by intros <-%Nat.eqb_eq.
    + intros a f. unfold f. destruct (H0 a) as [-> ->], (H1 a) as [-> ->].
      pose proof (pi_last s Hp a) as [L1 L2]. pose proof (tally_bounds (drops a) (activities s)).
      destruct (Nat.eqb_spec b a) as [<- | Hne]; cbn; split_and!; lia.
Qed.

Lemma proxy_append s act :
  proxy_inv s -> refers_none act \/ (exists b, holds_only b act /\ alive b s = true) ->
  proxy_inv (set_activities (activities s ++ [act]) s).
Proof.
  intros Hp Ha.
  assert (Hx : forall a, drops a act = false /\ (holds a act = true -> 1 <= tally (holds a) (activities s))).
  { intros a. destruct Ha as [Hn | (b & Hb & Hal%alive_tally)]; [by destruct (Hn a) as [-> ->] |].
    destruct (Hb a) as [-> ->]. split; [done |]. by intros <-%Nat.eqb_eq. }
  assert (Ht : forall f, tally f (activities s ++ [act]) = tally f (activities s) + Z.b2z (f act))
    by (intros f; rewrite tally_app; cbn; lia).
  apply proxy_activities; [done | | | |].
  - intros k x a [E | [_ E]]%lookup_app_Some Hr; [by apply (pi_valid s Hp k x) |].
    apply list_lookup_singleton_Some in E as [_ <-]. unfold refers in Hr. destruct (Hx a) as [Hd Hh].
    rewrite Hd, orb_false_r in Hr. destruct (tally_some _ _ (Hh Hr)) as (y & [j Ej]%list_elem_of_lookup & Hy).
    apply (pi_valid s Hp j y a Ej). unfold refers. by rewrite Hy.
  - intros a. rewrite !refers_tally, !Ht. destruct (Hx a) as [-> Hh].
    pose proof (tally_bounds (holds a) (activities s)). pose proof (tally_bounds (drops a) (activities s)).
    destruct (holds a act); cbn; [specialize (Hh eq_refl) |]; lia.
  - intros a. rewrite !Ht. destruct (Hx a) as [-> Hh]. pose proof (pi_last s Hp a) as [L1 L2].
    destruct (holds a act); cbn; [specialize (Hh eq_refl) |]; split; lia.
  - intros a. rewrite !Ht. destruct (Hx a) as [_ Hh]. destruct (holds a act); cbn; [intros _; by apply Hh | lia].
Qed.

(** The activity that drops [b] is the last to know it. *)
Lemma drop_ready s k a0 b :
  proxy_inv s -> activities s !! k = Some a0 -> drops_only b a0 ->
  exists p, proxies s !! b = Some p /\ released p = false /\
    tally (drops b) (activities s) = 1 /\ tally (holds b) (activities s) = 0.
Proof.
  intros Hp Ek H0. destruct (H0 b) as [_ Hd]. rewrite Nat.eqb_refl in Hd.
  pose proof (tally_pos (drops b) _ k a0 Ek Hd) as Hd1. destruct (pi_last s Hp b) as [L1 L2].
  assert (Hb : (b < length (proxies s))%nat).
  { apply (pi_valid s Hp k a0 b Ek). unfold refers. rewrite Hd. apply orb_true_r. }
  destruct (lookup_lt_is_Some_2 _ _ Hb) as [p Ep]. exists p. split_and!; [done | | lia | apply L2; lia].
  destruct (released p) eqn:E; [| done]. apply (pi_kept s Hp b p Ep) in E. rewrite refers_tally in E.
  pose proof (tally_bounds (holds b) (activities s)). lia.
Qed.

Lemma released_lookup (l : list ProxyHandle) b p x q :
  l !! b = Some p -> <[b := set_released p]> l !! x = Some q ->
  exists q0, l !! x = Some q0 /\ handle q = handle q0 /\ made_for q = made_for q0 /\
    released q = (Nat.eqb b x || released q0).
Proof.
  intros Ep [(<- & <- & _) | [Hne Ex]]%list_lookup_insert_Some.
  - exists p. by rewrite Nat.eqb_refl.
  - exists q. by rewrite (proj2 (Nat.eqb_neq b x)).
Qed.

(** [drop] of the last [Arc]. *)
Lemma proxy_dropped s k a0 a1 tid b :
  proxy_inv s -> activities s !! k = Some a0 -> drops_only b a0 -> refers_none a1 ->
  proxy_inv (goes k a1 (drop_proxy tid b s)).
Proof.
  intros Hp Ek H0 H1. destruct (drop_ready s k a0 b Hp Ek H0) as (p & Ep & Hrel & Hd1 & Hh0).
  destruct Hp as [Hs Hv Hk Hl He Hg Hc Hu].
  unfold drop_proxy. rewrite Ep. destruct (sends_cmd tid (BC_RELEASE (handle p)) s) as [Hsd Hsum].
  unfold dec_strong_handle. destruct (flush_if_needed tid (queue tid (BC_RELEASE (handle p)) s)) as [c1 g1 l1 o1 d1 t1].
  unfold same_tables in Hsd. cbn in Hsd. destruct Hsd as (-> & -> & -> & ->).
  unfold update_proxy. cbn. rewrite Ep. pose proof (fun x q => released_lookup _ b p x q Ep) as Hold.
  assert (Ht : forall f, tally f (<[k := a1]> (activities s)) = tally f (activities s) - Z.b2z (f a0) + Z.b2z (f a1))
    by (intros f; by apply tally_insert).
  assert (Hal : forall x, alive x (goes k a1 s) = true -> alive x s = true).
  { intros x. rewrite !alive_tally. cbn. rewrite Ht. destruct (H0 x) as [-> _], (H1 x) as [-> _]. cbn. lia. }
  split; cbn; rewrite ?length_insert.
  - intros h. specialize (Hsum (strong_delta h)). unfold sent_and_queued in *. cbn in *. rewrite Hsum, (tally_insert _ _ _ _ _ Ep).
    specialize (Hs h). unfold unreleased at 2 3. cbn. rewrite Hrel.
    destruct (Z.eqb_spec (handle p) h) as [Eh | Hne]; cbn; lia.
  - intros j act a Ej Hr. destruct (insert_refers _ _ _ _ _ _ _ Ek Ej Hr) as [[_ H] | H]; [| by apply (Hv j act)].
    unfold refers in H. by destruct (H1 a) as [E1 E2]; rewrite E1, E2 in H.
  - intros x q (q0 & Eq0 & _ & _ & ->)%Hold. specialize (Hk x q0 Eq0). rewrite refers_tally in Hk |- *. rewrite !Ht.
    destruct (H0 x) as [-> ->], (H1 x) as [-> ->].
    destruct (Nat.eqb_spec b x) as [<- | Hne]; cbn; [split; [lia | done] | rewrite Hk; lia].
  - intros x. rewrite !Ht. destruct (H0 x) as [-> ->], (H1 x) as [-> ->]. destruct (Hl x) as [L1 L2].
    destruct (Nat.eqb_spec b x) as [<- |]; cbn; split; lia.
  - intros h e Ee. destruct (He h e Ee) as (q & Eq & Q1 & Q2). destruct (decide (weak e = b)) as [Hw | Hne].
    + exists (set_released p). rewrite Hw in Eq |- *. rewrite list_lookup_insert_eq by (by apply lookup_lt_Some in Ep).
      rewrite Ep in Eq. injection Eq as <-. by split_and!.
    + exists q. by rewrite list_lookup_insert_ne.
  - intros x q (q0 & Eq0 & _ & -> & _)%Hold. by apply (Hg x).
  - intros x q e (q0 & Eq0 & -> & -> & _)%Hold Ha%Hal. by apply (Hc x q0 e).
  - intros x y q r (q0 & Eq0 & -> & -> & _)%Hold (r0 & Er0 & -> & -> & _)%Hold Ha%Hal Hb'%Hal. by apply (Hu x y q0 r0).
Qed.

Lemma proxy_removed s h : proxy_inv s -> proxy_inv (set_cache (delete h (handle_to_proxy s)) s).
Proof.
  intros [Hs Hv Hk Hl He Hg Hc Hu]. split; cbn; try done.
  - intros h' e [_ Ee]%lookup_delete_Some. by apply He.
  - intros a p e Ep Ha [_ Ee]%lookup_delete_Some. by apply (Hc a p e Ep).
Qed.

(** Nothing refers to an allocation that is not made yet. *)
Lemma fresh_unreferred s f :
  proxy_inv s -> (forall act, f act = true -> refers (length (proxies s)) act = true) ->
  tally f (activities s) = 0.
Proof.
  intros Hp Hf. apply tally_none. intros act [k Ek]%list_elem_of_lookup.
  destruct (f act) eqn:E; [| done]. pose proof (pi_valid s Hp k act _ Ek (Hf act E)). lia.
Qed.

Definition fresh_generation (h g : Z) (s : Process) : Prop :=
  g < next_generation s /\
  match handle_to_proxy s !! h with
  | Some e => generation e = g
  | None => forall a p, proxies s !! a = Some p -> made_for p <> g
  end.

Lemma fresh_not_live s h g a p :
  proxy_inv s -> fresh_generation h g s -> cached h s = None ->
  proxies s !! a = Some p -> alive a s = true -> handle p = h -> made_for p <> g.
Proof.
  intros Hp [_ Hf] Hca Ep Ha <- Hm. unfold cached in Hca.
  destruct (handle_to_proxy s !! handle p) as [e |] eqn:Ee; [| by apply (Hf a p)].
  rewrite (pi_current s Hp a p e Ep Ha Ee) in Hca by congruence. by rewrite Ha in Hca.
Qed.

Lemma snoc_lookup {A} (l : list A) x i y :
  (l ++ [x]) !! i = Some y -> (l !! i = Some y /\ (i < length l)%nat) \/ (i = length l /\ y = x).
Proof.
  intros [E | [Hl [E <-]%list_lookup_singleton_Some]]%lookup_app_Some.
  - left. split; [done | by apply lookup_lt_Some in E].
  - right. split; [lia | done].
Qed.

(** A new proxy of [h], for a generation that has no live proxy: the [Arc] it gives
    goes to activity [k]. *)
Lemma proxy_commit s k a0 tid h d g :
  proxy_inv s -> activities s !! k = Some a0 -> refers_none a0 ->
  fresh_generation h g s -> cached h s = None ->
  let r := commit_new_acquired tid h d g s in proxy_inv (goes k (Holding tid r.1) r.2).
Proof.
  intros Hp Ek H0 Hf Hca r. unfold r. clear r.
  pose proof (fun a p => fresh_not_live s h g a p Hp Hf Hca) as Hfresh.
  destruct (commit_spec tid h d g s) as (s1 & [Hsd Hsum] & -> & _).
  destruct s1 as [c1 g1 l1 o1 d1 t1]. unfold same_tables in Hsd. cbn in Hsd. destruct Hsd as (-> & -> & -> & ->). cbn.
  pose proof (fresh_unreferred s (holds (length (proxies s))) Hp) as Hnh.
  pose proof (fresh_unreferred s (drops (length (proxies s))) Hp) as Hnd.
  specialize (Hnh ltac:(intros act E; unfold refers; by rewrite E)).
  specialize (Hnd ltac:(intros act E; unfold refers; rewrite E; apply orb_true_r)).
  set (n := length (proxies s)) in *.
  assert (Ht : forall f, tally f (<[k := Holding tid n]> (activities s))
            = tally f (activities s) - Z.b2z (f a0) + Z.b2z (f (Holding tid n))) by (intros f; by apply tally_insert).
  assert (Hal : forall x, (x < n)%nat -> alive x (goes k (Holding tid n) s) = true -> alive x s = true).
  { intros x Hx. rewrite !alive_tally. cbn. rewrite Ht. destruct (H0 x) as [-> _]. cbn.
    rewrite (proj2 (Nat.eqb_neq n x)) by lia. cbn. lia. }
  destruct Hp as [Hs Hv Hk Hl He Hg Hc Hu], Hf as [Hg0 Hen].
  split; cbn; rewrite ?length_app; cbn; fold n.
  - intros h'. specialize (Hsum (strong_delta h')). unfold sent_and_queued in *. cbn in *. rewrite Hsum, tally_app.
    specialize (Hs h'). cbn. unfold unreleased at 2. cbn. destruct (h =? h'); cbn; lia.
  - intros j act a Ej Hr. destruct (insert_refers _ _ _ _ _ _ _ Ek Ej Hr) as [[_ H] | H].
    + unfold refers in H. cbn in H. rewrite orb_false_r in H. apply Nat.eqb_eq in H. lia.
    + specialize (Hv j act a H Hr). lia.
  - intros x q Eq. rewrite refers_tally, !Ht. destruct (H0 x) as [-> ->].
    apply snoc_lookup in Eq as [[Ex Hx] | [-> ->]]; cbn.
    + rewrite (proj2 (Nat.eqb_neq n x)), (Hk x q Ex), refers_tally by lia. cbn. lia.
    + fold n. rewrite Nat.eqb_refl, Hnh, Hnd. cbn. split; [done | lia].
  - intros x. rewrite !Ht. destruct (H0 x) as [-> ->]. destruct (Hl x) as [L1 L2]. cbn.
    destruct (Nat.eqb_spec n x) as [<- |]; cbn; split; lia.
  - intros h' e [[<- <-] | [Hne Ee]]%lookup_insert_Some.
    + exists (mkProxy h d [] false [] g false). by rewrite lookup_app_r, Nat.sub_diag by done.
    + destruct (He h' e Ee) as (q & Eq & HQ). exists q. split; [by apply lookup_app_l_Some | done].
  - intros x q [[Ex Hx] | [-> ->]]%snoc_lookup; [by apply (Hg x) | done].
  - intros x q e [[Ex Hx] | [-> ->]]%snoc_lookup Ha [[Eh <-] | [Hne Ee]]%lookup_insert_Some Hm; cbn in *.
    + destruct (Hfresh x q); [done | by apply Hal in Ha | done | done].
    + apply (Hc x q e Ex); [by apply Hal in Ha | done | done].
    + done.
    + done.
  - intros x y q r [[Ex Hx] | [-> ->]]%snoc_lookup [[Ey Hy] | [-> ->]]%snoc_lookup Ha Hb Eh Em; cbn in *; [| | | done].
    + by apply (Hu x y q r); [| | eapply Hal | eapply Hal | |].
    + destruct (Hfresh x q); [done | by apply Hal in Ha | done | done].
    + destruct (Hfresh y r); [done | by apply Hal in Hb | done | done].
Qed.

Lemma proxy_generation s g : proxy_inv s -> next_generation s <= g -> proxy_inv (set_generation g s).
Proof.
  intros [Hs Hv Hk Hl He Hg Hc Hu] Hle. split; cbn; try done.
  intros a p Ep. specialize (Hg a p Ep). lia.
Qed.

Lemma entry_fresh s h e :
  proxy_inv s -> handle_to_proxy s !! h = Some e -> fresh_generation h (generation e) s.
Proof.
  intros Hp Ee. destruct (pi_entry s Hp h e Ee) as (p & Ep & _ & <-).
  split; [by apply (pi_gens s Hp _ p Ep) |].
  rewrite Ee. by destruct (pi_entry s Hp h e Ee) as (q & Eq & _ & <-); simplify_eq.
Qed.

Lemma undo_sends tid h s : sends [BC_DECREFS h] s (undo_case_a_pin tid h s).
Proof. apply sends_cmd_flush. Qed.

Lemma cached_same h s s1 : same_tables s s1 -> cached h s1 = cached h s.
Proof. intros (E1 & _ & _ & E4). unfold cached, alive. by rewrite E1, E4. Qed.

Lemma proxy_undo tid h s : proxy_inv s -> proxy_inv (undo_case_a_pin tid h s).
Proof. intros Hp. by eapply proxy_sent; [done | apply undo_sends |]. Qed.

Lemma cached_alive h s a : cached h s = Some a -> alive a s = true.
Proof. by intros (e & _ & _ & H)%cached_entry. Qed.

Lemma proxy_p1 s k tid h :
  proxy_inv s -> activities s !! k = Some (SlowP1 tid h) -> proxy_inv (then_goes k (slow_path_p1 tid h s)).
Proof.
  intros Hp Ek. unfold slow_path_p1, then_goes. destruct (cached h s) as [a |] eqn:Ec; cbn [fst snd].
  { by eapply (proxy_gain s k _ _ a Hp Ek); [| | by eapply cached_alive]. }
  destruct (handle_to_proxy s !! h) as [e |]; cbn [fst snd]; [by eapply proxy_goes |].
  pose proof (sends_cmd_flush tid (BC_INCREFS h) s) as Hs. unfold inc_weak_handle.
  destruct (sends_same _ _ _ Hs) as (_ & _ & _ & E4). rewrite <- E4 in Ek.
  apply (proxy_goes _ k _ _ (proxy_sent _ _ _ Hp Hs (fun _ => eq_refl)) Ek). done.
Qed.

Lemma proxy_p2 s k tid h plan ping d :
  proxy_inv s -> activities s !! k = Some (SlowP2 tid h plan) ->
  proxy_inv (then_goes k (slow_path_p2 tid h plan ping d s)).
Proof.
  intros Hp Ek. unfold slow_path_p2, then_goes.
  assert (Hundo : proxy_inv (goes k Idle (undo_case_a_pin tid h s))).
  { destruct (sends_same _ _ _ (undo_sends tid h s)) as (_ & _ & _ & E4). rewrite <- E4 in Ek.
    by apply (proxy_goes _ k _ _ (proxy_undo tid h s Hp) Ek). }
  repeat case_match; cbn [fst snd]; try done; by eapply proxy_goes.
Qed.

Lemma proxy_p3 s k tid h ready :
  proxy_inv s -> activities s !! k = Some (SlowP3 tid h ready) ->
  proxy_inv (then_goes k (slow_path_p3 tid h ready s)).
Proof.
  intros Hp Ek. unfold slow_path_p3, then_goes.
  pose proof (sends_same _ _ _ (undo_sends tid h s)) as Hu. pose proof Hu as (U1 & _ & U3 & U4).
  destruct (cached h s) as [a |] eqn:Ec; cbn [fst snd].
  { pose proof (cached_alive h s a Ec) as Ha. destruct ready.
    - eapply (proxy_gain _ k _ _ a); [by apply proxy_undo | by rewrite U4 | done | done |].
      unfold alive. by rewrite U4.
    - by eapply (proxy_gain s k _ _ a Hp Ek). }
  destruct ready as [d | d g], (handle_to_proxy s !! h) as [e |] eqn:Ee.
  - pose proof (proxy_commit (undo_case_a_pin tid h s) k _ tid h (descriptor e) (generation e)
      (proxy_undo tid h s Hp) (eq_trans (f_equal (lookup k) U4) Ek)) as H.
    destruct (commit_new_acquired _ _ _ _ _). cbn [fst snd] in *. apply H; [done | |].
    + apply entry_fresh; [by apply proxy_undo | by rewrite U1].
    + by rewrite (cached_same _ _ _ Hu).
  - assert (Hp1 : proxy_inv (set_generation (next_generation s + 1) s)) by (apply proxy_generation; [done | lia]).
    pose proof (proxy_commit _ k _ tid h d (next_generation s) Hp1 Ek) as H.
    destruct (commit_new_acquired _ _ _ _ _). cbn [fst snd] in *. apply H; [done | | done].
    split; cbn; [lia |]. rewrite Ee. intros a q Eq. pose proof (pi_gens s Hp a q Eq). lia.
  - assert (H : forall d, let r := commit_new_acquired tid h d (generation e) s in proxy_inv (goes k (Holding tid r.1) r.2)).
    { intros d'. by eapply proxy_commit; [| | | apply entry_fresh |]. }
    destruct (Z.eqb_spec (generation e) g) as [<- |]; [specialize (H d) | specialize (H (descriptor e))];
      by destruct (commit_new_acquired _ _ _ _ _).
  - by eapply proxy_goes.
Qed.

Lemma proxy_send_obituary tid a live s : proxy_inv s -> proxy_inv (send_obituary tid a live s).
Proof.
  intros Hp. unfold send_obituary. repeat case_match; try done; [by apply proxy_update |].
  apply proxy_flush, proxy_update; [by apply proxy_queue | done].
Qed.

Lemma proxy_advance s s' k inp : proxy_inv s -> advance k inp s = Some s' -> proxy_inv s'.
Proof.
  intros Hp E. unfold advance in E. destruct (activities s !! k) as [act |] eqn:Ek; [| done].
  destruct act as [tid h | tid h | tid h plan | tid h ready | tid a | tid a | tid h | tid h arc | tid h arc
                  | tid h [a |] | tid h a | tid h |], inp; try discriminate E.
  - destruct (cached h s) as [a |] eqn:Ec; injection E as <-; [| by eapply proxy_goes].
    by eapply (proxy_gain s k _ _ a Hp Ek); [| | by eapply cached_alive].
  - injection E as <-. by apply proxy_p1.
  - injection E as <-. by apply proxy_p2.
  - injection E as <-. by apply proxy_p3.
  - injection E as <-. apply proxy_append; [done |]. right. exists a. split; [done |].
    apply alive_tally, (tally_pos _ _ k _ Ek), Nat.eqb_refl.
  - injection E as <-. by eapply proxy_leave.
  - injection E as <-. unfold link_to_death. repeat case_match; try done; apply proxy_update; try done.
    by apply proxy_flush, proxy_queue.
  - injection E as <-. unfold unlink_to_death. repeat case_match; try done; cbn [after]; [| by apply proxy_update].
    apply proxy_flush, proxy_queue; [by apply proxy_update | done].
  - injection E as <-. by eapply proxy_dropped.
  - injection E as <-. destruct (cached h s) as [a |] eqn:Ec; [| by eapply proxy_goes].
    by eapply (proxy_gain s k _ _ a Hp Ek); [| | by eapply cached_alive].
  - injection E as <-. eapply proxy_goes; [by apply proxy_removed | exact Ek |]. by destruct arc.
  - injection E as <-. destruct arc.
    + eapply proxy_goes; [by apply proxy_send_obituary | by rewrite send_activities | done].
    + by eapply proxy_goes.
  - injection E as <-. by eapply proxy_leave.
  - injection E as <-. by eapply proxy_goes.
  - injection E as <-. by eapply proxy_dropped.
  - injection E as <-. pose proof (sends_pin tid h s) as Hs.
    destruct (sends_same _ _ _ Hs) as (_ & _ & _ & E4). rewrite <- E4 in Ek.
    by apply (proxy_goes _ k _ _ (proxy_sent _ _ _ Hp Hs (fun _ => eq_refl)) Ek).
Qed.

Lemma proxy_reachable s : process_reachable s -> proxy_inv s.
Proof.
  induction 1 as [| s s' _ IH [k inp s1 E | tid h | tid h e Ee Hc | tid]].
  - split; try done.
  - by eapply proxy_advance.
  - apply proxy_append; [done | by left].
  - apply proxy_append; [done | by left].
  - by apply proxy_flush.
Qed.

(** ** Runs *)

Inductive Event : Type :=
| Act (k : nat) (inp : Input)
| Look (tid h : Z)
| Dead (tid h : Z)
| Flush (tid : Z).

Definition happens (ev : Event) (s : Process) : option Process :=
  match ev with
  | Act k inp => advance k inp s
  | Look tid h => Some (set_activities (activities s ++ [FastPath tid h]) s)
  | Dead tid h =>
      match handle_to_proxy s !! h with
      | Some _ =>
          if tally (condemns h) (activities s) =? 0
          then Some (set_activities (activities s ++ [ObitRead tid h]) s) else None
      | None => None
      end
  | Flush tid => Some (flush_commands tid s)
  end.

Fixpoint play (evs : list Event) (s : Process) : option Process :=
  match evs with
  | [] => Some s
  | ev :: evs => match happens ev s with Some s => play evs s | None => None end
  end.

Lemma happens_step ev s s' : happens ev s = Some s' -> process_step s s'.
Proof.
  destruct ev as [k inp | tid h | tid h | tid]; cbn; intros E.
  - by eapply pc_advance.
  - injection E as <-. apply pc_lookup.
  - destruct (handle_to_proxy s !! h) as [e |] eqn:Ee; [| done].
    destruct (Z.eqb_spec (tally (condemns h) (activities s)) 0); [| done].
    injection E as <-. by apply (pc_dead s tid h e).
  - injection E as <-. apply pc_flush.
Qed.

Lemma cache_play_reachable evs s s' : process_reachable s -> play evs s = Some s' -> process_reachable s'.
Proof.
  revert s. induction evs as [| ev evs IH]; cbn; intros s Hr E; [by injection E as <- |].
  destruct (happens ev s) as [s1 |] eqn:E1; [| done].
  apply (IH s1); [| done]. eapply pc_step; [exact Hr |]. by apply (happens_step ev).
Qed.

(** What waits in the out-parcels takes weak references away only. *)
Lemma queued_weak_le h s : pins_sent s -> total (weak_delta h) (snd <$> out_parcels s) <= 0.
Proof.
  unfold pins_sent. induction (out_parcels s) as [| [tid c] l IH]; intros Hp; cbn; [lia |].
  assert (Hl : forall x, x ∈ l -> match x.2 with BC_INCREFS _ => False | _ => True end)
    by (intros x Hx; apply Hp, elem_of_cons; by right).
  specialize (IH Hl). specialize (Hp (tid, c) (list_elem_of_here _ _)). cbn in Hp.
  destruct c; cbn in *; try case_match; try done; lia.
Qed.

Lemma idle_none (f : Activity -> bool) s :
  f Idle = false -> Forall (fun act => act = Idle) (activities s) -> tally f (activities s) = 0.
Proof. intros Hf Hi. apply tally_none. intros act Hin. rewrite Forall_forall in Hi. by rewrite (Hi act Hin). Qed.

(** C15: The cache keeps one weak reference of the driver per entry, whatever the threads do:
    what was sent and what is queued for a handle amounts to one for its entry, one
    for each lookup that pinned it, and one for each obituary that still has
    to release the pin of the entry it removed. The driver has at least
    these, since no increment waits in a queue; and when all threads are idle and have flushed it has exactly
    one for the entry, and none without one. *)
Theorem pins_balanced s h : process_reachable s ->
  let owed := entries h s + tally (pins h) (activities s) + tally (owes h) (activities s) in
  sent_and_queued (weak_delta h) s = owed /\ owed <= driver_weak h s /\
  (Forall (fun act => act = Idle) (activities s) -> out_parcels s = [] -> driver_weak h s = entries h s).
Proof.
  intros Hr owed. destruct (weak_reachable s Hr) as [Hs Hp _]. specialize (Hs h).
  split; [done |]. unfold driver_weak, owed. unfold sent_and_queued in Hs.
  split; [pose proof (queued_weak_le h s Hp); lia |].
  intros Hi Ho. rewrite Ho in Hs. cbn in Hs. rewrite !idle_none in Hs by done. lia.
Qed.

(** C14: The proxies of a handle and their strong references, whatever the threads do: the acquires
    and releases that were sent and are queued differ by one per proxy whose [drop] has not run; [drop] has run
    exactly when no activity has the [Arc]; two live proxies of a handle and a generation
    are one allocation; a lookup that finds the entry of a live proxy returns that one; and when
    all threads are idle and have flushed, the driver, whichever releases it refuses, is left with one strong
    reference for each release it refused and with none if it refused none. *)
Theorem proxies_balanced s h : process_reachable s ->
  sent_and_queued (strong_delta h) s = tally (unreleased h) (proxies s) /\
  (forall a p, proxies s !! a = Some p ->
     released p = true <-> tally (refers a) (activities s) = 0) /\
  (forall a b p q, proxies s !! a = Some p -> proxies s !! b = Some q ->
     alive a s = true -> alive b s = true ->
     handle p = handle q -> made_for p = made_for q -> a = b) /\
  (forall a p e, proxies s !! a = Some p -> alive a s = true ->
     handle_to_proxy s !! handle p = Some e -> generation e = made_for p -> cached (handle p) s = Some a) /\
  (Forall (fun act => act = Idle) (activities s) -> out_parcels s = [] ->
     forall refuses, driver_strong refuses h s = refused_releases refuses h s).
Proof.
  intros Hr. destruct (proxy_reachable s Hr) as [Hs Hv Hk Hl He Hg Hc Hu].
  split_and!; [done | done | done | |].
  - intros a p e Ep Ha Ee Hm. unfold cached. rewrite Ee, (Hc a p e Ep Ha Ee Hm). by rewrite Ha.
  - intros Hi Ho refuses. specialize (Hs h). unfold sent_and_queued in Hs. rewrite Ho in Hs. cbn in Hs.
    pose proof (driver_counts_total refuses h [] (driver s)) as Hd.
    unfold driver_strong, refused_releases. assert (Ht : tally (unreleased h) (proxies s) = 0); [| lia].
    apply tally_none. intros p [a Ep]%list_elem_of_lookup. unfold unreleased.
    rewrite (proj2 (Hk a p Ep)) by (by apply idle_none). apply andb_false_r.
Qed.
End ProxyCache.

(** * Runs of three threads; thread 1 is a looper *)

Definition first_looper (tid : Z) : bool := tid =? 1.
Definition run (evs : list Event) : Process := default process_new (play first_looper evs process_new).

Definition runs (evs : list Event) : bool :=
  match play first_looper evs process_new with Some _ => true | None => false end.

Lemma run_reachable evs : runs evs = true -> process_reachable first_looper (run evs).
Proof.
  unfold run, runs. destruct (play first_looper evs process_new) as [s |] eqn:E; [| done].
  intros _. by eapply cache_play_reachable; [apply pc_new |].
Qed.

Definition all_idle (s : Process) : bool :=
  forallb (fun act => match act with Idle => true | _ => false end) (activities s).
Lemma all_idle_idle s : all_idle s = true -> Forall (fun act => act = Idle) (activities s).
Proof. unfold all_idle. induction (activities s) as [| [] l IH]; cbn; intros E; try done. by constructor; [| apply IH]. Qed.

(** A lookup by activity [k] of a handle that is not cached, or whose proxy is gone. *)
Definition lookup_all (k : nat) : list Event :=
  [Act k Go; Act k Go; Act k (Answer true (Some "IFoo"%string)); Act k Go].

(** Two threads look [7] up at once: both pin it, one commits, the other undoes. *)
Definition crossed : list Event :=
  [Look 2 7; Look 3 7; Act 0%nat Go; Act 1%nat Go; Act 0%nat Go; Act 1%nat Go;
   Act 0%nat (Answer true (Some "IFoo"%string)); Act 1%nat (Answer true (Some "IFoo"%string));
   Act 0%nat Go; Act 1%nat Go].

Lemma pins_balanced_witness :
  let s := run crossed in
  driver s = [BC_INCREFS 7; BC_INCREFS 7; BC_ACQUIRE 7; BC_DECREFS 7] /\ 1 <= driver_weak 7 s /\
  let s' := run (crossed ++ [Act 0%nat DropRef; Act 1%nat DropRef; Act 1%nat Go]) in
  driver_weak 7 s' = 1.
Proof.
  cbn zeta. split; [vm_compute; reflexivity |]. split.
  - refine (Z.le_trans _ _ _ _ (proj1 (proj2 (pins_balanced first_looper (run crossed) 7 _)))).
    + vm_compute. discriminate.
    + apply run_reachable. vm_compute. reflexivity.
  - rewrite (proj2 (proj2 (pins_balanced first_looper
      (run (crossed ++ [Act 0%nat DropRef; Act 1%nat DropRef; Act 1%nat Go])) 7
      ltac:(apply run_reachable; vm_compute; reflexivity)))).
    + vm_compute. reflexivity.
    + apply all_idle_idle. vm_compute. reflexivity.
    + vm_compute. reflexivity.
Defined.

Lemma proxies_balanced_witness :
  let s := run crossed in
  activities s = [Holding 2 0%nat; Holding 3 0%nat] /\ cached 7 s = Some 0%nat /\
  let s' := run (crossed ++ [Act 0%nat DropRef; Act 1%nat DropRef; Act 1%nat Go]) in
  driver_strong refuses_at_zero 7 s' = refused_releases refuses_at_zero 7 s' /\
  refused_releases refuses_at_zero 7 s' = 0.
Proof.
  cbn zeta. split; [vm_compute; reflexivity |]. split.
  - assert (Hr : process_reachable first_looper (run crossed)) by (apply run_reachable; vm_compute; reflexivity).
    destruct (proxies_balanced first_looper (run crossed) 7 Hr) as (_ & _ & _ & Hc & _).
    apply (Hc 0%nat (mkProxy 7 "IFoo"%string [] false [] 0 false) (mkEntry 0 "IFoo"%string 0));
      vm_compute; reflexivity.
  - split; [| vm_compute; reflexivity]. assert (Hr : process_reachable first_looper
      (run (crossed ++ [Act 0%nat DropRef; Act 1%nat DropRef; Act 1%nat Go]))) by (apply run_reachable; vm_compute; reflexivity).
    apply (proxies_balanced first_looper _ 7 Hr); [apply all_idle_idle |]; vm_compute; reflexivity.
Defined.

(** The release of a proxy can reach the driver before its acquire. A looper thread leaves the acquire
    in its out-parcel; another thread that got a clone of the [Arc] drops the last
    reference and flushes at once. A driver that has no strong reference refuses the release; when the looper
    has flushed too, and all is idle, a strong reference stays in the driver for good. *)
Theorem release_overtakes_acquire : exists s,
  process_reachable first_looper s /\ Forall (fun act => act = Idle) (activities s) /\ out_parcels s = [] /\
  driver s = [BC_INCREFS 7; BC_RELEASE 7; BC_ACQUIRE 7] /\
  refused_releases refuses_at_zero 7 s = 1 /\ driver_strong refuses_at_zero 7 s = 1.
Proof.
  set (s := run (Look 1 7 :: lookup_all 0 ++
    [Act 0%nat (Clone 2); Act 0%nat DropRef; Act 1%nat DropRef; Act 1%nat Go])).
  exists (flush_commands 1 s). split.
  { eapply pc_step; [| apply pc_flush]. apply run_reachable; vm_compute; reflexivity. }
  split; [apply all_idle_idle; vm_compute; reflexivity |]. split_and!; vm_compute; reflexivity.
Qed.

(** A recipient can miss the death of its binder. An obituary that finds the proxy
    gone and has not removed the entry yet lets another thread make a new proxy of the same
    entry and link a recipient to it; the obituary removes the entry and acknowledges the death,
    and the recipient, on a live proxy, is never told. *)
Theorem obituary_missed : exists s p,
  process_reachable first_looper s /\
  proxies s !! 1%nat = Some p /\ handle p = 7 /\ recipients p = [5] /\ alive 1 s = true /\
  obituary_sent p = false /\ fired p = [] /\
  handle_to_proxy s !! 7 = None /\ BC_DEAD_BINDER_DONE 7 ∈ driver s /\
  Forall (fun act => act = Idle \/ act = Holding 3 1%nat) (activities s).
Proof.
  set (evs := Look 2 7 :: lookup_all 0 ++ [Act 0%nat (Link 4 true); Act 0%nat DropRef; Act 0%nat Go] ++
    [Dead 2 7; Act 1%nat Go] ++ (Look 3 7 :: lookup_all 2) ++ [Act 2%nat (Link 5 true)] ++
    [Act 1%nat Go; Act 1%nat (Tell (fun _ => true)); Act 1%nat Go; Act 1%nat Go]).
  exists (run evs), (mkProxy 7 "IFoo"%string [5] false [] 0 false).
  split; [apply run_reachable; vm_compute; reflexivity |].
  assert (Ea : activities (run evs) = [Idle; Idle; Holding 3 1%nat]) by (vm_compute; reflexivity).
  assert (Ed : driver (run evs) = [BC_INCREFS 7; BC_ACQUIRE 7; BC_REQUEST_DEATH_NOTIFICATION 7; BC_RELEASE 7;
    BC_ACQUIRE 7; BC_REQUEST_DEATH_NOTIFICATION 7; BC_DEAD_BINDER_DONE 7; BC_DECREFS 7]) by (vm_compute; reflexivity).
  rewrite Ea, Ed. split_and!; try (vm_compute; reflexivity); [set_solver |].
  rewrite !Forall_cons, Forall_nil. tauto.
Qed.
