(* ===== verification/Extension.v ===== *)
(** Extensions of kernel proxies (src/rsbinder/src/proxy.rs: [ExtensionCache], [classify_extension] and
    [ProxyHandle::get_extension]).

    A proxy asks its remote once for its extension and keeps the answer: strongly, or weakly when the extension is
    the proxy itself. The process has at most one proxy in use per handle ([ProxyCache] has how); a proxy whose last
    strong reference is gone is freed with its cache in a step of its own. A section under the lock of
    a cache is one step, so threads that ask at once overlap. *)

From Stdlib Require Import ZArith Lia.
From stdpp Require Import base gmap list relations.
From S2P Require Import Prelude Errors.

(** * Data *)

(** Proxies are numbered; a native binder is whatever it is. *)
Inductive SIBinder : Type :=
| Proxy (id : Z)
| Native (object : Z).

Inductive CachedExtension : Type :=
| Strong (s : SIBinder)
| Weak (w : SIBinder).

Inductive ExtensionCache : Type :=
| NotQueried
| Queried (e : option CachedExtension).

Record ExtProxy : Type := mkHandle { handle : Z; extension : ExtensionCache }.

(** [refs] are the strong references outside of caches; a thread in a query borrows one, which is in [asking]
    meanwhile. [current] is the proxy the process has for a handle; [queries] logs the transactions. *)
Record Proxies : Type := mkProxies {
  proxies : gmap Z ExtProxy;
  current : gmap Z Z;
  next : Z;
  refs : list Z;
  asking : list Z;
  queries : list Z
}.

Definition proxies_new : Proxies := mkProxies ∅ ∅ 0 [] [] [].

(** The proxy a cache holds a strong reference to. *)
Definition holds (c : ExtensionCache) : option Z :=
  match c with Queried (Some (Strong (Proxy id))) => Some id | _ => None end.

Definition held (s : Proxies) : list Z := omap (fun kv => holds (extension kv.2)) (map_to_list (proxies s)).

(** Whether a strong reference exists. *)
Definition live (s : Proxies) (id : Z) : bool :=
  bool_decide (id ∈ refs s) || bool_decide (id ∈ asking s) || bool_decide (id ∈ held s).

Definition set_refs (r : list Z) (s : Proxies) : Proxies := mkProxies (proxies s) (current s) (next s) r (asking s) (queries s).

Definition set_cache (id : Z) (c : ExtensionCache) (s : Proxies) : Proxies :=
  mkProxies (alter (fun p => mkHandle (handle p) c) id (proxies s)) (current s) (next s) (refs s) (asking s) (queries s).

(** A reference to a binder is handed out. *)
Definition give (b : SIBinder) (s : Proxies) : Proxies :=
  match b with Proxy id => set_refs (id :: refs s) s | Native _ => s end.

(** The proxy for a handle, with a reference to it. *)
Definition proxy_for_handle (h : Z) (s : Proxies) : Z * Proxies :=
  match current s !! h with
  | Some id => if live s id then (id, give (Proxy id) s)
               else (next s, mkProxies (<[next s := mkHandle h NotQueried]> (proxies s)) (<[h := next s]> (current s))
                                       (next s + 1) (next s :: refs s) (asking s) (queries s))
  | None => (next s, mkProxies (<[next s := mkHandle h NotQueried]> (proxies s)) (<[h := next s]> (current s))
                               (next s + 1) (next s :: refs s) (asking s) (queries s))
  end.

(** * The query *)

(** The binder in a reply. *)
Inductive Wire : Type :=
| WireHandle (h : Z)
| WireNative (object : Z).

(** [submit_transact]: a reply with what reading it gives, no reply, or an error. *)
Inductive Answer : Type :=
| Replied (r : outcome StatusCode (option Wire))
| NoReply
| Refused (e : StatusCode).

Definition query_result (a : Answer) : outcome StatusCode (option Wire) :=
  match a with
  | Replied r => r
  | NoReply => Ok None
  | Refused StUnknownTransaction => Ok None
  | Refused e => Err e
  end.

Definition classify_extension (s : Proxies) (self : Z) (sib : SIBinder) : CachedExtension :=
  match sib with
  | Proxy id => if bool_decide (handle <$> proxies s !! id = handle <$> proxies s !! self) then Weak sib else Strong sib
  | Native _ => Strong sib
  end.

(** [upgrade] of a weak reference. *)
Definition upgrade (s : Proxies) (w : SIBinder) : bool := match w with Proxy id => live s id | Native _ => true end.

(** The first section: an answer from the cache, or none. *)
Definition cached_answer (id : Z) (s : Proxies) : option (option SIBinder) :=
  match proxies s !! id with
  | Some p =>
      match extension p with
      | NotQueried => None
      | Queried None => Some None
      | Queried (Some (Strong b)) => Some (Some b)
      | Queried (Some (Weak w)) => if upgrade s w then Some (Some w) else None
      end
  | None => None
  end.

(** A reader, holding one of [pre ++ id :: post]: it has its answer, or begins the query. *)
Definition get_extension (pre : list Z) (id : Z) (post : list Z) (s : Proxies) : Proxies :=
  match cached_answer id s with
  | Some None => s
  | Some (Some b) => give b s
  | None => mkProxies (proxies s) (current s) (next s) (pre ++ post) (id :: asking s) (queries s ++ [id])
  end.

Definition read_binder (w : Wire) (s : Proxies) : SIBinder * Proxies :=
  match w with
  | WireHandle h => let '(id, s) := proxy_for_handle h s in (Proxy id, s)
  | WireNative o => (Native o, s)
  end.

(** The query ends, with [pre ++ post] still asking. *)
Definition end_query (pre : list Z) (id : Z) (post : list Z) (a : Answer) (s : Proxies) : outcome StatusCode (option SIBinder) * Proxies :=
  match query_result a with
  | Ok w =>
      let '(ext, s) := match w with
                       | Some w => let '(b, s) := read_binder w s in (Some b, s)
                       | None => (None, s)
                       end in
      let s := set_cache id (Queried (classify_extension s id <$> ext)) s in
      (Ok ext, mkProxies (proxies s) (current s) (next s) (id :: refs s) (pre ++ post) (queries s))
  | Err e => (Err e, mkProxies (proxies s) (current s) (next s) (id :: refs s) (pre ++ post) (queries s))
  | Panic => (Panic, mkProxies (proxies s) (current s) (next s) (id :: refs s) (pre ++ post) (queries s))
  end.

(** [set_extension] of a proxy. *)
Definition set_extension : outcome StatusCode unit := Err StInvalidOperation.

(** * Steps *)

Definition free (id : Z) (s : Proxies) : Proxies :=
  mkProxies (delete id (proxies s)) (current s) (next s) (refs s) (asking s) (queries s).

Inductive free_step : Proxies -> Proxies -> Prop :=
| x_free id p s : proxies s !! id = Some p -> live s id = false -> free_step s (free id s).

Inductive ext_step : Proxies -> Proxies -> Prop :=
| x_resolve h s : ext_step s (proxy_for_handle h s).2
| x_clone id s : id ∈ refs s -> ext_step s (give (Proxy id) s)
| x_drop pre id post s : refs s = pre ++ id :: post -> ext_step s (set_refs (pre ++ post) s)
| x_get pre id post s : refs s = pre ++ id :: post -> ext_step s (get_extension pre id post s)
| x_end pre id post a s : asking s = pre ++ id :: post -> ext_step s (end_query pre id post a s).2
| x_freed s s' : free_step s s' -> ext_step s s'.

Inductive ext_reachable : Proxies -> Prop :=
| xr_new : ext_reachable proxies_new
| xr_step s s' : ext_reachable s -> ext_step s s' -> ext_reachable s'.

(** * Lemmas *)

Lemma elem_of_held s id : id ∈ held s <-> exists k p, proxies s !! k = Some p /\ holds (extension p) = Some id.
Proof.
  unfold held. rewrite list_elem_of_omap. split.
  - intros ([k p] & Hin & Hh). apply elem_of_map_to_list in Hin. eauto.
  - intros (k & p & Hin & Hh). exists (k, p). by rewrite elem_of_map_to_list.
Qed.

Lemma live_spec s id : live s id = true <-> id ∈ refs s \/ id ∈ asking s \/ id ∈ held s.
Proof. unfold live. rewrite !orb_true_iff, !bool_decide_eq_true. tauto. Qed.

Record ext_inv (s : Proxies) : Prop := mkExtInv {
  xi_fresh : forall id, is_Some (proxies s !! id) -> id < next s;
  xi_live : forall id, live s id = true -> exists p, proxies s !! id = Some p /\ current s !! handle p = Some id;
  xi_strong : forall k p id q, proxies s !! k = Some p -> holds (extension p) = Some id -> proxies s !! id = Some q -> handle q <> handle p;
  xi_weak : forall k p w, proxies s !! k = Some p -> extension p = Queried (Some (Weak w)) -> w = Proxy k;
  xi_current : forall h id, current s !! h = Some id -> id < next s /\ forall p, proxies s !! id = Some p -> handle p = h
}.

Lemma held_same s s' : proxies s' = proxies s -> held s' = held s.
Proof. unfold held. by intros ->. Qed.

(** References move or go. *)
Lemma inv_less s s' : proxies s' = proxies s -> current s' = current s -> next s' = next s ->
  (forall id, live s' id = true -> live s id = true) -> ext_inv s -> ext_inv s'.
Proof. intros E1 E2 E3 Hl [H1 H2 H3 H4 H5]. split; rewrite E1, ?E2, ?E3; eauto. Qed.

(** A proxy is made for a handle that no proxy in use has. *)
Definition fresh_proxy (h : Z) (s : Proxies) : Proxies :=
  mkProxies (<[next s := mkHandle h NotQueried]> (proxies s)) (<[h := next s]> (current s)) (next s + 1) (next s :: refs s) (asking s) (queries s).

Lemma next_fresh s : ext_inv s -> proxies s !! next s = None.
Proof. intros Hi. destruct (proxies s !! next s) eqn:E; [| done]. pose proof (xi_fresh _ Hi (next s) ltac:(eauto)). lia. Qed.

Lemma inv_fresh h s : ext_inv s -> (forall id p, live s id = true -> proxies s !! id = Some p -> handle p <> h) -> ext_inv (fresh_proxy h s).
Proof.
  intros Hi Hh. pose proof (next_fresh s Hi) as Hn. destruct Hi as [H1 H2 H3 H4 H5].
  assert (Hl : forall id, live (fresh_proxy h s) id = true -> id = next s \/ live s id = true).
  { intros id. rewrite !live_spec, !elem_of_held. cbn. rewrite elem_of_cons. intros [[-> | ?] | [? | (k & p & Hk & Hp)]]; auto.
    right. right. right. apply lookup_insert_Some in Hk as [[_ <-] | [_ Hk]]; [done | eauto]. }
  split; cbn.
  - intros id. rewrite lookup_insert_is_Some. intros [-> | [_ Hi]]; [lia |]. specialize (H1 _ Hi). lia.
  - intros id [-> | Hlive]%Hl; [exists (mkHandle h NotQueried); cbn; by rewrite !lookup_insert_eq |].
    destruct (H2 _ Hlive) as (p & Ep & Ec). exists p. rewrite lookup_insert_ne by (intros <-; congruence).
    split; [done |]. rewrite lookup_insert_ne; [done |]. intros E. by apply (Hh id p).
  - intros k p id q [[_ <-] | [_ Hk]]%lookup_insert_Some Hp; [done |]. intros [[<- <-] | [_ Hq]]%lookup_insert_Some; [| eauto].
    destruct (H2 (next s)) as (x & Hx & _); [apply live_spec; right; right; apply elem_of_held; eauto | congruence].
  - intros k p w [[<- <-] | [_ Hk]]%lookup_insert_Some; [done | eauto].
  - intros h' id [[<- <-] | [_ Hc]]%lookup_insert_Some; [split; [lia |]; intros p; rewrite lookup_insert_eq; by intros [= <-] |].
    destruct (H5 _ _ Hc) as [Hlt Hp]. split; [lia |]. intros p. rewrite lookup_insert_ne by lia. auto.
Qed.

Lemma inv_give id s : ext_inv s -> live s id = true -> ext_inv (give (Proxy id) s).
Proof.
  intros Hi Hl. apply (inv_less s); try done. intros k. rewrite !live_spec, (held_same s) by done. cbn. rewrite elem_of_cons.
  intros [[-> | ?] | ?]; [by apply live_spec | auto | auto].
Qed.

(** What asking for the proxy of a handle does. *)
Lemma resolve_spec h s : ext_inv s -> let '(id, s') := proxy_for_handle h s in
  ext_inv s' /\ id ∈ refs s' /\ (exists p, proxies s' !! id = Some p /\ handle p = h) /\
  asking s' = asking s /\ queries s' = queries s /\ (forall k p, proxies s !! k = Some p -> proxies s' !! k = Some p).
Proof.
  intros Hi. pose proof (next_fresh s Hi) as Hn.
  assert (Hf : (forall id p, live s id = true -> proxies s !! id = Some p -> handle p <> h) ->
    ext_inv (fresh_proxy h s) /\ next s ∈ refs (fresh_proxy h s) /\ (exists p, proxies (fresh_proxy h s) !! next s = Some p /\ handle p = h) /\
    asking (fresh_proxy h s) = asking s /\ queries (fresh_proxy h s) = queries s /\
    (forall k p, proxies s !! k = Some p -> proxies (fresh_proxy h s) !! k = Some p)).
  { intros Hh. split; [by apply inv_fresh |]. cbn. split_and!; [by left | | done | done |].
    - eexists. by rewrite lookup_insert_eq.
    - intros k p Hk. rewrite lookup_insert_ne; [done |]. intros <-. congruence. }
  unfold proxy_for_handle. fold (fresh_proxy h s). destruct (current s !! h) as [id |] eqn:Ec; [destruct (live s id) eqn:El |].
  - split; [by apply inv_give |]. destruct (xi_live _ Hi id El) as (p & Ep & Ecp). cbn. split_and!; try done; [by left |].
    exists p. split; [done |]. by apply (xi_current _ Hi h id).
  - apply Hf. intros k p Hk Hp <-. destruct (xi_live _ Hi k Hk) as (q & Eq & Ecq). congruence.
  - apply Hf. intros k p Hk Hp <-. destruct (xi_live _ Hi k Hk) as (q & Eq & Ecq). congruence.
Qed.

(** ** The steps keep the invariant *)

Lemma held_refs_same s s' : (forall id, id ∈ refs s' -> live s id = true) -> (forall id, id ∈ asking s' -> live s id = true) ->
  (forall id, id ∈ held s' -> live s id = true) -> forall id, live s' id = true -> live s id = true.
Proof. intros H1 H2 H3 id. rewrite live_spec. intros [? | [? | ?]]; auto. Qed.

Lemma live_refs s id : id ∈ refs s -> live s id = true.
Proof. rewrite live_spec. auto. Qed.
Lemma live_asking s id : id ∈ asking s -> live s id = true.
Proof. rewrite live_spec. auto. Qed.
Lemma live_held s id : id ∈ held s -> live s id = true.
Proof. rewrite live_spec. auto. Qed.

Ltac still := intros ? ?; first [by apply live_refs | by apply live_asking | by apply live_held].

Lemma elem_of_rest (k id : Z) pre post : k ∈ pre ++ post -> k ∈ pre ++ id :: post.
Proof. rewrite !elem_of_app, elem_of_cons. tauto. Qed.
Lemma elem_of_mid (id : Z) pre post : id ∈ pre ++ id :: post.
Proof. rewrite elem_of_app, elem_of_cons. auto. Qed.

Lemma inv_get pre id post s : ext_inv s -> refs s = pre ++ id :: post -> ext_inv (get_extension pre id post s).
Proof.
  intros Hi Er. unfold get_extension. destruct (cached_answer id s) as [[b |] |] eqn:Ea; [| done |].
  - destruct b as [k | o]; [| done]. apply inv_give; [done |]. unfold cached_answer in Ea.
    destruct (proxies s !! id) as [p |] eqn:Ep; [| done]. destruct (extension p) as [| [[b | w] |]] eqn:Ee; try done.
    + injection Ea as ->. apply live_held, elem_of_held. exists id, p. by rewrite Ee.
    + destruct (upgrade s w) eqn:Eu; [| done]. by injection Ea as ->.
  - apply (inv_less s); try done. apply held_refs_same; cbn; [| | still].
    + intros k ?. apply live_refs. rewrite Er. by apply elem_of_rest.
    + intros k. rewrite elem_of_cons. intros [-> | Hk]; [apply live_refs; rewrite Er; apply elem_of_mid | by apply live_asking].
Qed.

Lemma inv_free id s : ext_inv s -> live s id = false -> ext_inv (free id s).
Proof.
  intros [H1 H2 H3 H4 H5] Hl.
  assert (Hless : forall k, live (free id s) k = true -> live s k = true).
  { apply held_refs_same; cbn; [still | still |]. intros k (j & p & Hj & Hp)%elem_of_held.
    cbn in Hj. apply live_held, elem_of_held. apply lookup_delete_Some in Hj as [_ Hj]. eauto. }
  split; cbn.
  - intros k [p [_ Hp]%lookup_delete_Some]. eauto.
  - intros k Hk. destruct (H2 k (Hless k Hk)) as (p & Hp & Hc). exists p. rewrite lookup_delete_ne; [done |].
    intros <-. by rewrite (Hless _ Hk) in Hl.
  - intros k p j q [_ Hp]%lookup_delete_Some Hh [_ Hq]%lookup_delete_Some. eauto.
  - intros k p w [_ Hp]%lookup_delete_Some. eauto.
  - intros h k Hc. destruct (H5 h k Hc) as [? Hp]. split; [done |]. intros p [_ Hq]%lookup_delete_Some. auto.
Qed.

(** A cache gets what [classify_extension] makes of a proxy in use. *)
Lemma inv_cache id ext s : ext_inv s -> live s id = true -> (forall k, ext = Some (Proxy k) -> live s k = true) ->
  ext_inv (set_cache id (Queried (classify_extension s id <$> ext)) s) /\
  (forall k, k ∈ held (set_cache id (Queried (classify_extension s id <$> ext)) s) -> live s k = true).
Proof.
  intros Hi Hid Hext. set (c := Queried _). set (s' := set_cache id c s).
  assert (Hold : forall k p, proxies s' !! k = Some p -> exists q, proxies s !! k = Some q /\ handle p = handle q /\
    ((k = id /\ extension p = c) \/ (k <> id /\ p = q))).
  { intros k p. unfold s'. cbn. rewrite lookup_alter_Some. intros [(-> & q & Hq & ->) | [Hn Hp]]; eauto 8. }
  destruct Hi as [H1 H2 H3 H4 H5]. destruct (H2 id Hid) as (pid & Hpid & Hcid).
  assert (Hc : forall k, holds c = Some k -> live s k = true /\ forall q, proxies s !! k = Some q -> handle q <> handle pid).
  { intros k. unfold c. destruct ext as [[j | o] |]; cbn; [| done | done]. case_bool_decide as Hb; [done |]. intros [= ->].
    split; [auto |]. intros q Hq E. apply Hb. rewrite Hq, Hpid. cbn. by f_equal. }
  assert (Hheld : forall k, k ∈ held s' -> live s k = true).
  { intros k (j & p & Hj & Hk)%elem_of_held. destruct (Hold _ _ Hj) as (q & Hq & _ & [[-> Ep] | [_ ->]]).
    - rewrite Ep in Hk. by apply Hc.
    - apply live_held, elem_of_held. eauto. }
  split; [| done]. split.
  - intros k [p Hp]. destruct (Hold _ _ Hp) as (q & Hq & _). apply H1. eauto.
  - intros k Hk. assert (Hl : live s k = true)
      by (revert k Hk; apply held_refs_same; [still | still | done]).
    destruct (H2 k Hl) as (q & Hq & Hcq). unfold s'. cbn. destruct (decide (k = id)) as [-> | Hn].
    + exists (mkHandle (handle q) c). by rewrite lookup_alter_eq, Hq.
    + exists q. by rewrite lookup_alter_ne.
  - intros k p j q Hp Hh Hq. destruct (Hold _ _ Hp) as (p0 & Hp0 & -> & Hcase), (Hold _ _ Hq) as (q0 & Hq0 & -> & _).
    destruct Hcase as [[-> Ep] | [_ ->]]; [| eauto]. rewrite Ep in Hh. rewrite Hpid in Hp0. injection Hp0 as <-. by apply (Hc j Hh).
  - intros k p w Hp Ew. destruct (Hold _ _ Hp) as (p0 & Hp0 & _ & [[-> Ep] | [_ ->]]); [| eauto]. rewrite Ep in Ew.
    unfold c in Ew. destruct ext as [[j | o] |]; cbn in Ew; [| done | done]. case_bool_decide as Hb; [| done]. injection Ew as <-.
    destruct (H2 j (Hext j eq_refl)) as (q & Hq & Hcq). rewrite Hq, Hpid in Hb. injection Hb as Eh. rewrite Eh, Hcid in Hcq. congruence.
  - intros h k Hc'. destruct (H5 h k Hc') as [? Hp]. split; [done |]. intros p Hp'. destruct (Hold _ _ Hp') as (q & Hq & -> & _). auto.
Qed.

Lemma inv_end pre id post a s : ext_inv s -> asking s = pre ++ id :: post -> ext_inv (end_query pre id post a s).2.
Proof.
  intros Hi Ea.
  assert (Hback : forall t, ext_inv t -> asking t = asking s ->
    ext_inv (mkProxies (proxies t) (current t) (next t) (id :: refs t) (pre ++ post) (queries t))).
  { intros t Ht Et. apply (inv_less t); try done. apply held_refs_same; cbn; [| | still].
    - intros k. rewrite elem_of_cons. intros [-> | Hk]; [apply live_asking; rewrite Et, Ea; apply elem_of_mid | by apply live_refs].
    - intros k Hk. apply live_asking. rewrite Et, Ea. by apply elem_of_rest. }
  unfold end_query. destruct (query_result a) as [w | e |]; [| by apply Hback ..].
  assert (Hr : exists ext t, (match w with Some w => let '(b, t) := read_binder w s in (Some b, t) | None => (None, s) end) = (ext, t) /\
    ext_inv t /\ asking t = asking s /\ forall k, ext = Some (Proxy k) -> live t k = true).
  { destruct w as [[h | o] |]; cbn; [| by eexists _, _ ..]. pose proof (resolve_spec h s Hi) as H.
    destruct (proxy_for_handle h s) as [k t]. destruct H as (? & ? & _ & ? & _). eexists _, _. split_and!; [done | done | done |].
    intros j [= <-]. by apply live_refs. }
  destruct Hr as (ext & t & -> & Ht & Et & Hx). cbn [snd]. apply Hback; [| done].
  apply inv_cache; [done | apply live_asking; rewrite Et, Ea; apply elem_of_mid | done].
Qed.

Lemma ext_invariant s : ext_reachable s -> ext_inv s.
Proof.
  induction 1 as [| s s' _ Hi Hs].
  - split; try done. by intros id [p Hp].
  - destruct Hs as [h s | id s Hin | pre id post s Er | pre id post s Er | pre id post a s Ea | s s1 [id p s0 Hp Hl]].
    + pose proof (resolve_spec h s Hi) as H. by destruct (proxy_for_handle h s), H.
    + apply inv_give; [done | by apply live_refs].
    + apply (inv_less s); try done. apply held_refs_same; cbn; [| still | still].
      intros k ?. apply live_refs. rewrite Er. by apply elem_of_rest.
    + by apply inv_get.
    + by apply inv_end.
    + by apply inv_free.
Qed.

(** * Answers stay *)

Definition cached_value (p : ExtProxy) : option SIBinder :=
  match extension p with Queried (Some (Strong b)) | Queried (Some (Weak b)) => Some b | _ => None end.

Lemma answer_cached s id p : ext_inv s -> live s id = true -> proxies s !! id = Some p -> extension p <> NotQueried ->
  cached_answer id s = Some (cached_value p).
Proof.
  intros Hi Hl Hp Hq. unfold cached_answer, cached_value. rewrite Hp. destruct (extension p) as [| [[b | w] |]] eqn:He; try done.
  rewrite (xi_weak _ Hi _ _ _ Hp He). cbn. by rewrite Hl.
Qed.

(** [p] was asked for its extension and nobody is about to replace the answer; it may be freed. *)
Record settled (id : Z) (p : ExtProxy) (s : Proxies) : Prop := mkSettled {
  sd_old : id < next s;
  sd_same : forall q, proxies s !! id = Some q -> q = p;
  sd_quiet : id ∉ asking s;
  sd_asked : extension p <> NotQueried
}.

Lemma resolve_old h s id : id < next s -> let s' := (proxy_for_handle h s).2 in
  proxies s' !! id = proxies s !! id /\ next s <= next s' /\ asking s' = asking s /\ queries s' = queries s.
Proof.
  intros Hid. unfold proxy_for_handle. destruct (current s !! h) as [k |]; [destruct (live s k) |]; cbn; [split_and!; (done || lia) | |];
    (split_and!; [by rewrite lookup_insert_ne by lia | lia | done | done]).
Qed.

Lemma read_old w s id : id < next s -> let '(ext, t) := match w with Some w => let '(b, t) := read_binder w s in (Some b, t) | None => (None, s) end in
  proxies t !! id = proxies s !! id /\ next s <= next t /\ queries t = queries s.
Proof.
  intros Hid. destruct w as [[h | o] |]; cbn; [| split_and!; (done || lia) ..].
  pose proof (resolve_old h s id Hid) as H. destruct (proxy_for_handle h s). by destruct H as (? & ? & _ & ?).
Qed.

Definition asked (id : Z) (s : Proxies) : Z := tally (Z.eqb id) (queries s).

Lemma settled_step id p s s' : ext_inv s -> settled id p s -> ext_step s s' -> settled id p s' /\ asked id s' = asked id s.
Proof.
  intros Hi [H1 H2 H3 H4] Hs. unfold asked.
  destruct Hs as [h s | k s Hin | pre k post s Er | pre k post s Er | pre k post a s Ea | s s1 [k q s0 Hp Hl]]; try done.
  - destruct (resolve_old h s id H1) as (E1 & E2 & E3 & E4). rewrite E4. split; [| done]. by split; rewrite ?E1, ?E3; [lia | ..].
  - assert (Hk : live s k = true) by (apply live_refs; rewrite Er; apply elem_of_mid).
    unfold get_extension. destruct (cached_answer k s) as [[[j | o] |] |] eqn:Ec; try done.
    destruct (decide (k = id)) as [-> | Hn].
    + destruct (xi_live _ Hi id Hk) as (q & Hq & _). rewrite (answer_cached s id q) in Ec; [done | done | done | done |].
      by rewrite (H2 q Hq).
    + cbn. rewrite tally_app. split; [split; try done; cbn; rewrite elem_of_cons; by intros [-> |] |].
      rewrite (tally_none (Z.eqb id) [k]); [lia |]. intros x ->%list_elem_of_singleton. apply Z.eqb_neq. congruence.
  - assert (Hn : k <> id) by (intros ->; apply H3; rewrite Ea; apply elem_of_mid).
    assert (Hq : id ∉ pre ++ post) by (intros Hin; apply H3; rewrite Ea; by apply elem_of_rest).
    unfold end_query. destruct (query_result a) as [w | e |]; [| done ..].
    pose proof (read_old w s id H1) as Hr. destruct (match w with Some _ => _ | None => _ end) as [ext t]. destruct Hr as (E1 & E2 & E3).
    cbn. rewrite E3. split; [| done]. split; cbn; [lia | | done | done]. by rewrite lookup_alter_ne, E1.
  - split; [| done]. split; cbn; try done. intros x [_ Hx]%lookup_delete_Some. auto.
Qed.

Lemma settled_run id p s s' : ext_reachable s -> settled id p s -> rtc ext_step s s' ->
  ext_reachable s' /\ settled id p s' /\ asked id s' = asked id s.
Proof.
  intros Hr Hs Hrun. revert Hr Hs. induction Hrun as [s | s s1 s2 Hstep _ IH]; [done |]. intros Hr Hs.
  destruct (settled_step id p s s1 (ext_invariant s Hr) Hs Hstep) as [Hs1 <-]. apply IH; [by eapply xr_step | done].
Qed.

(** ** Freeing *)

(** [k] keeps [id] alive. *)
Definition keeps (s : Proxies) (k id : Z) : Prop := exists p, proxies s !! k = Some p /\ holds (extension p) = Some id.

Lemma unheld_free s (rank : Z -> nat) : refs s = [] -> asking s = [] -> proxies s <> ∅ ->
  (forall k id, keeps s k id -> (rank id < rank k)%nat) -> exists id p, proxies s !! id = Some p /\ live s id = false.
Proof.
  intros Hr Ha Hne Hrank.
  (* A proxy of highest rank. *)
  assert (Htop : forall n, (exists id p, proxies s !! id = Some p /\ live s id = false) \/
    (exists id p, proxies s !! id = Some p /\ (n <= rank id)%nat)).
  { induction n as [| n [IH | (id & p & Hp & Hn)]]; [| by left |].
    - right. destruct (map_choose _ Hne) as (id & p & Hp). exists id, p. split; [done | lia].
    - destruct (live s id) eqn:El; [| left; eauto]. apply live_spec in El. rewrite Hr, Ha in El.
      destruct El as [El | [El | (k & q & Hk & Hq)%elem_of_held]]; [by apply elem_of_nil in El | by apply elem_of_nil in El |].
      right. exists k, q. split; [done |]. specialize (Hrank k id ltac:(by exists q)). lia. }
  destruct (Htop (S (max_list (rank <$> elements (dom (proxies s)))))) as [H | (id & p & Hp & Hn)]; [done |].
  pose proof (max_list_elem_of_le (rank id) (rank <$> elements (dom (proxies s)))) as Hm. exfalso.
  assert (rank id ∈ rank <$> elements (dom (proxies s))).
  { apply list_elem_of_fmap. exists id. split; [done |]. apply elem_of_elements, elem_of_dom. eauto. }
  specialize (Hm ltac:(done)). lia.
Qed.

Lemma unheld_freed (rank : Z -> nat) n s : size (proxies s) = n -> refs s = [] -> asking s = [] ->
  (forall k id, keeps s k id -> (rank id < rank k)%nat) -> exists s', rtc free_step s s' /\ proxies s' = ∅.
Proof.
  revert s. induction n as [| n IH]; intros s Hn Hr Ha Hrank; [exists s; split; [done | by apply map_size_empty_iff] |].
  destruct (unheld_free s rank Hr Ha) as (id & p & Hp & Hl); [by intros E; rewrite E, map_size_empty in Hn | done |].
  destruct (IH (free id s)) as (s' & Hs' & He); [| done | done | | exists s'; split; [by eapply rtc_l; [eapply x_free |] | done]].
  - cbn. rewrite map_size_delete_Some by eauto. lia.
  - intros k j (q & Hq & Hh). apply Hrank. cbn in Hq. apply lookup_delete_Some in Hq as [_ Hq]. by exists q.
Qed.

(** Proxies that are each other's extension, asked for both. *)
Definition mutual (a : Z) (pa : ExtProxy) (b : Z) (pb : ExtProxy) (s : Proxies) : Prop :=
  settled a pa s /\ settled b pb s /\ proxies s !! a = Some pa /\ proxies s !! b = Some pb /\
  holds (extension pa) = Some b /\ holds (extension pb) = Some a.

Lemma kept_step a s s' : ext_inv s -> is_Some (proxies s !! a) -> live s a = true -> ext_step s s' -> is_Some (proxies s' !! a).
Proof.
  intros Hi [p Hp] Hl Hs. assert (Ha : a < next s) by (apply (xi_fresh _ Hi); eauto).
  destruct Hs as [h s | k s Hin | pre k post s Er | pre k post s Er | pre k post x s Ea | s s1 [k q s0 Hq Hd]]; eauto.
  - destruct (resolve_old h s a Ha) as (-> & _). eauto.
  - unfold get_extension. destruct (cached_answer k s) as [[[j | o] |] |]; eauto.
  - unfold end_query. destruct (query_result x) as [w | e |]; eauto. pose proof (read_old w s a Ha) as Hr.
    destruct (match w with Some _ => _ | None => _ end) as [ext t]. destruct Hr as (E & _). cbn.
    destruct (decide (k = a)) as [-> | Hn]; [rewrite lookup_alter_eq, E, Hp; eauto | rewrite lookup_alter_ne, E, Hp by done; eauto].
  - cbn. rewrite lookup_delete_ne; [eauto |]. intros ->. congruence.
Qed.

Lemma mutual_step a pa b pb s s' : ext_reachable s -> mutual a pa b pb s -> ext_step s s' -> mutual a pa b pb s'.
Proof.
  intros Hr (Ha & Hb & Epa & Epb & Hab & Hba) Hs. pose proof (ext_invariant s Hr) as Hi.
  destruct (settled_step _ _ _ _ Hi Ha Hs) as [Ha' _], (settled_step _ _ _ _ Hi Hb Hs) as [Hb' _].
  assert (Hla : live s a = true) by (apply live_held, elem_of_held; eauto).
  assert (Hlb : live s b = true) by (apply live_held, elem_of_held; eauto).
  destruct (kept_step a s s' Hi ltac:(eauto) Hla Hs) as [qa Ea], (kept_step b s s' Hi ltac:(eauto) Hlb Hs) as [qb Eb].
  rewrite (sd_same _ _ _ Ha' _ Ea) in Ea. rewrite (sd_same _ _ _ Hb' _ Eb) in Eb. by split_and!.
Qed.

(** * Theorems *)

(** A proxy asks for its extension once: when the answer is in its cache and no other thread is in a query, the transaction is
    never sent again, every later reader gets the same answer, and a proxy that is the answer stays in use with it. *)
Theorem extension_asked_once s s' id p : ext_reachable s -> proxies s !! id = Some p -> extension p <> NotQueried -> id ∉ asking s ->
  rtc ext_step s s' -> asked id s' = asked id s /\
  (live s' id = true -> cached_answer id s' = Some (cached_value p) /\ forall k, cached_value p = Some (Proxy k) -> live s' k = true).
Proof.
  intros Hr Hp Hq Hn Hrun. pose proof (ext_invariant s Hr) as Hi.
  destruct (settled_run id p s s') as (Hr' & Hs' & Hc); [done | | done |].
  { split; try done; [apply (xi_fresh _ Hi); eauto | congruence]. }
  split; [done |]. intros Hl. pose proof (ext_invariant s' Hr') as Hi'. destruct (xi_live _ Hi' id Hl) as (q & Hq' & _).
  rewrite (sd_same _ _ _ Hs' _ Hq') in Hq'. split; [by apply answer_cached |]. intros k. unfold cached_value.
  destruct (extension p) as [| [[b | w] |]] eqn:He; try done; intros [= ->].
  - apply live_held, elem_of_held. exists id, p. by rewrite He.
  - by injection (xi_weak _ Hi' _ _ _ Hq' He) as ->.
Qed.

(** C16: The caches never keep a proxy alive by itself: no proxy holds itself, and when no reference is left outside of caches that
    form no cycle, freeing ends with no proxy. Two proxies that are each other's extension are never freed, whatever happens after. *)
Theorem extension_references_end s : ext_reachable s ->
  (forall k, ~ keeps s k k) /\
  (forall rank : Z -> nat, refs s = [] -> asking s = [] -> (forall k id, keeps s k id -> (rank id < rank k)%nat) ->
    exists s', rtc free_step s s' /\ proxies s' = ∅) /\
  (forall a pa b pb s', mutual a pa b pb s -> rtc ext_step s s' -> proxies s' !! a = Some pa /\ proxies s' !! b = Some pb).
Proof.
  intros Hr. split_and!.
  - intros k (p & Hp & Hh). by apply (xi_strong _ (ext_invariant s Hr) k p k p).
  - intros rank H1 H2 H3. by apply (unheld_freed rank (size (proxies s)) s).
  - intros a pa b pb s' Hm Hrun. revert Hr Hm. induction Hrun as [s | s s1 s2 Hstep _ IH]; [by intros _ (_ & _ & ? & ? & _) |].
    intros Hr Hm. apply IH; [by eapply xr_step | by eapply mutual_step].
Qed.

(** * Executed runs *)

(** The services of handles 1 and 2 name each other as their extension. *)
Definition both : Proxies := (proxy_for_handle 2 (proxy_for_handle 1 proxies_new).2).2.
Definition first_asked : Proxies := (end_query [] 0 [] (Replied (Ok (Some (WireHandle 2)))) (get_extension [1] 0 [] both)).2.
Definition both_asked : Proxies := (end_query [] 1 [] (Replied (Ok (Some (WireHandle 1)))) (get_extension [0] 1 [1] first_asked)).2.
Definition let_go : Proxies := Nat.iter 4 (fun s => set_refs (tail (refs s)) s) both_asked.

Lemma both_asked_reachable : ext_reachable both_asked.
Proof.
  assert (Hb : ext_reachable both) by (eapply xr_step; [eapply xr_step; [apply xr_new | apply x_resolve] | apply x_resolve]).
  assert (Hf : ext_reachable first_asked)
    by (eapply xr_step; [eapply xr_step; [exact Hb | by apply (x_get [1] 0 [])] | by apply (x_end [] 0 [])]).
  eapply xr_step; [eapply xr_step; [exact Hf | by apply (x_get [0] 1 [1])] | by apply (x_end [] 1 [])].
Qed.

Lemma let_go_reachable : ext_reachable let_go.
Proof.
  unfold let_go. cbn [Nat.iter]. pose proof both_asked_reachable as H0.
  eapply xr_step; [eapply xr_step; [eapply xr_step; [eapply xr_step; [exact H0 |] |] |] |].
  - by apply (x_drop [] 1 [0; 0; 1]).
  - by apply (x_drop [] 0 [0; 1]).
  - by apply (x_drop [] 0 [1]).
  - by apply (x_drop [] 1 []).
Qed.

(** The service of handle 1 names itself. *)
Definition selfish : Proxies :=
  set_refs [] (end_query [] 0 [] (Replied (Ok (Some (WireHandle 1)))) (get_extension [] 0 [] (proxy_for_handle 1 proxies_new).2)).2.

Lemma selfish_reachable : ext_reachable selfish.
Proof.
  eapply xr_step; [eapply xr_step; [eapply xr_step; [eapply xr_step; [eapply xr_step; [apply xr_new | apply (x_resolve 1)] |] |] |] |].
  - by apply (x_get [] 0 []).
  - by apply (x_end [] 0 [] (Replied (Ok (Some (WireHandle 1))))).
  - by apply (x_drop [] 0 [0]).
  - by apply (x_drop [] 0 []).
Qed.

Lemma extension_references_end_witness :
  (exists s', rtc free_step selfish s' /\ proxies s' = ∅) /\
  refs let_go = [] /\ asking let_go = [] /\
  forall s', rtc ext_step let_go s' -> is_Some (proxies s' !! 0) /\ is_Some (proxies s' !! 1).
Proof.
  split_and!; [| done | done |].
  - apply (extension_references_end selfish selfish_reachable) with (rank := fun _ => O); [done | done |].
    intros k id (p & Hp & Hh). destruct (decide (k = 0)) as [-> | Hn]; [by vm_compute in Hp; injection Hp as <- |].
    exfalso. revert Hp. replace (proxies selfish) with ({[0 := mkHandle 1 (Queried (Some (Weak (Proxy 0))))]} : gmap Z ExtProxy)
      by (by vm_compute). by rewrite lookup_singleton_ne.
  - intros s' Hs. destruct (extension_references_end let_go let_go_reachable) as (_ & _ & H).
    destruct (H 0 (mkHandle 1 (Queried (Some (Strong (Proxy 1))))) 1 (mkHandle 2 (Queried (Some (Strong (Proxy 0))))) s') as [-> ->]; [| done | eauto].
    split_and!; try by vm_compute.
    all: split; [by vm_compute | by vm_compute; intros q [= <-] | by vm_compute; apply not_elem_of_nil | done].
Defined.
