(* ===== verification/Hub.v ===== *)
(** The service manager (src/rsbinder-tools/src/bin/rsb_hub.rs): services, registration
    and client callbacks by name, the death receiver and the poller of client
    callbacks; and, from src/rsbinder/src/binder.rs, weak references
    ([SIBinder::downgrade], [WIBinder::eq]), by which the receiver finds
    what died.

    Handlers run on one thread; they, the receiver and the poller take the lock
    for their whole work on the tables, so each is one step. The world of the manager
    is the proxies it has met, the cache entries of their handles (src/rsbinder/src/process_state.rs),
    the death links it made and the channel of the receiver. The kernel's count of references
    and the outcome of a callback are inputs. Messages of exceptions are left out. *)

From Stdlib Require Import ZArith Lia.
From stdpp Require Import base gmap strings list.
From S2P Require Import Prelude Errors Status ProxyCache.

(** [CallingContext]; [sid] is only printed. *)
Record CallingContext : Type := mkContext { pid : Z; uid : Z }.

(** Binders are named by their [Arc]. *)
Record Service : Type := mkService {
  binder : nat;
  dump_priority : Z;
  has_clients : bool;
  guarantee_client : bool;
  context : CallingContext;
  is_accessor : bool
}.

Inductive PendingCallback : Type :=
| Registration (callback : nat) (name : string) (binder : nat)
| Clients (callback binder : nat) (has_clients : bool).

(** The arms of the [Service] union that are returned. *)
Inductive ServiceUnion : Type :=
| Accessor (binder : option nat)
| ServiceWithMetadata (service : option nat) (isLazyService : bool).

Definition MAX_CALLBACKS_PER_NAME : Z := 256.
Definition MAX_DISTINCT_NAMES : Z := 10000.
Definition KNOWN_CLIENTS_ON_DEMAND : Z := 2.
Definition KNOWN_CLIENTS_PERIODIC : Z := 1.

Definition distinct_name_cap_exceeded {V} (map : gmap string V) (name : string) : bool :=
  negb (bool_decide (is_Some (map !! name))) && (MAX_DISTINCT_NAMES <=? Z.of_nat (size map)).

Record Inner : Type := mkInner {
  name_to_service : gmap string Service;
  name_to_registration_callbacks : gmap string (list nat);
  name_to_client_callbacks : gmap string (list nat)
}.

(** [Inner::new]. *)
Definition inner_new : Inner := mkInner ∅ ∅ ∅.

Definition set_services (m : gmap string Service) (i : Inner) : Inner :=
  mkInner m (name_to_registration_callbacks i) (name_to_client_callbacks i).
Definition set_registrations (m : gmap string (list nat)) (i : Inner) : Inner :=
  mkInner (name_to_service i) m (name_to_client_callbacks i).
Definition set_clients (m : gmap string (list nat)) (i : Inner) : Inner :=
  mkInner (name_to_service i) (name_to_registration_callbacks i) m.

Definition with_has_clients (b : bool) (sv : Service) : Service :=
  mkService (binder sv) (dump_priority sv) b (guarantee_client sv) (context sv) (is_accessor sv).
Definition with_guarantee (b : bool) (sv : Service) : Service :=
  mkService (binder sv) (dump_priority sv) (has_clients sv) b (context sv) (is_accessor sv).

(** [if let Some(service) = name_to_service.get_mut(name) { .. }]. *)
Definition update_service (name : string) (f : Service -> Service) (i : Inner) : Inner :=
  set_services (alter f name (name_to_service i)) i.

(** ** Client callbacks *)

Definition send_client_callback_notification (service_name : string) (clients : bool)
    (i : Inner) (pending : list PendingCallback) : Inner * list PendingCallback :=
  match name_to_service i !! service_name with
  | None => (i, pending)
  | Some service =>
      if eqb (has_clients service) clients then (i, pending)
      else
        let pending :=
          match name_to_client_callbacks i !! service_name with
          | Some callbacks => pending ++ ((fun cb => Clients cb (binder service) clients) <$> callbacks)
          | None => pending
          end in
        (update_service service_name (with_has_clients clients) i, pending)
  end.

Definition has_clients_of (name : string) (i : Inner) (default : bool) : bool :=
  match name_to_service i !! name with Some sv => has_clients sv | None => default end.

Section Callbacks.
(** The proxies among the binders, and [strong_ref_count_for_node]. *)
Context (is_proxy : nat -> bool) (strong_count : nat -> option Z).

Definition guaranteed_step (service_name : string) (reported : bool) (service : Service)
    (i : Inner) (pending : list PendingCallback) : bool * Inner * list PendingCallback :=
  if guarantee_client service then
    let '(i, pending) :=
      if negb (has_clients service) && negb reported
      then send_client_callback_notification service_name true i pending else (i, pending) in
    match name_to_service i !! service_name with
    | Some _ =>
        (true, update_service service_name (fun sv => with_guarantee false (with_has_clients true sv)) i, pending)
    | None => (has_clients service, i, pending)
    end
  else (has_clients service, i, pending).

Definition reported_step (service_name : string) (reported : bool)
    (r : bool * Inner * list PendingCallback) : bool * Inner * list PendingCallback :=
  let '(clients, i, pending) := r in
  if reported && negb clients then
    let (i, pending) := send_client_callback_notification service_name true i pending in
    (has_clients_of service_name i clients, i, pending)
  else r.

Definition interval_step (service_name : string) (reported is_called_on_interval : bool)
    (r : bool * Inner * list PendingCallback) : bool * Inner * list PendingCallback :=
  let '(clients, i, pending) := r in
  if is_called_on_interval && negb reported && clients then
    let (i, pending) := send_client_callback_notification service_name false i pending in
    (has_clients_of service_name i clients, i, pending)
  else r.

Definition handle_service_client_callback (known_clients : Z) (service_name : string)
    (is_called_on_interval : bool) (i : Inner) (pending : list PendingCallback)
    : bool * Inner * list PendingCallback :=
  match name_to_service i !! service_name, name_to_client_callbacks i !! service_name with
  | Some service, Some (_ :: _) =>
      if negb (is_proxy (binder service)) then (true, i, pending)
      else
        match strong_count (binder service) with
        | None => (true, i, pending)
        | Some count =>
            let reported := known_clients <? count in
            interval_step service_name reported is_called_on_interval
              (reported_step service_name reported
                (guaranteed_step service_name reported service i pending))
        end
  | _, _ => (true, i, pending)
  end.

Definition try_get_binder (name : string) (i : Inner) (pending : list PendingCallback)
    : option (nat * bool) * Inner * list PendingCallback :=
  match name_to_service i !! name with
  | None => (None, i, pending)
  | Some service =>
      let i := update_service name (with_guarantee true) i in
      let '(_, i, pending) := handle_service_client_callback KNOWN_CLIENTS_ON_DEMAND name false i pending in
      (Some (binder service, is_accessor service), update_service name (with_guarantee true) i, pending)
  end.

(** One round of the poller over the names in the order of the snapshot. *)
Fixpoint poll_names (names : list string) (i : Inner) (pending : list PendingCallback)
    : Inner * list PendingCallback :=
  match names with
  | [] => (i, pending)
  | name :: names =>
      let '(_, i, pending) := handle_service_client_callback KNOWN_CLIENTS_PERIODIC name true i pending in
      poll_names names i pending
  end.
End Callbacks.

(** ** Weak references *)

Inductive WIBinder : Type :=
| WProxy (handle generation : Z)
| WNative (arc : nat).

(** [WIBinder::eq]. *)
Definition wi_eq (a b : WIBinder) : bool :=
  match a, b with
  | WNative x, WNative y => Nat.eqb x y
  | WProxy ha ga, WProxy hb gb => (ha =? hb) && (ga =? gb)
  | _, _ => false
  end.

(** ** The manager and its world *)

(** [proxy_of] has the handles of the proxies met, [cache] the entries of [handle_to_proxy],
    [dead] the proxies whose obituary was sent, [links] an occurrence of a binder per
    link of the death recipient; [fired] is the log of callbacks made. *)
Record Hub : Type := mkHub {
  inner : Inner;
  proxy_of : gmap nat Z;
  cache : gmap Z CacheEntry;
  hub_generation : Z;
  dead : list nat;
  links : list nat;
  channel : list WIBinder;
  fired : list PendingCallback
}.

Definition hub_new : Hub := mkHub inner_new ∅ ∅ 0 [] [] [] [].

Definition set_inner (i : Inner) (s : Hub) : Hub :=
  mkHub i (proxy_of s) (cache s) (hub_generation s) (dead s) (links s) (channel s) (fired s).
Definition set_links (l : list nat) (s : Hub) : Hub :=
  mkHub (inner s) (proxy_of s) (cache s) (hub_generation s) (dead s) l (channel s) (fired s).
Definition set_channel (l : list WIBinder) (s : Hub) : Hub :=
  mkHub (inner s) (proxy_of s) (cache s) (hub_generation s) (dead s) (links s) l (fired s).
Definition set_fired (l : list PendingCallback) (s : Hub) : Hub :=
  mkHub (inner s) (proxy_of s) (cache s) (hub_generation s) (dead s) (links s) (channel s) l.

Definition as_proxy (s : Hub) (b : nat) : bool := bool_decide (is_Some (proxy_of s !! b)).
Definition is_dead (s : Hub) (b : nat) : bool := bool_decide (b ∈ dead s).

(** [SIBinder::downgrade], with [cache_generation_for]. *)
Definition downgrade (s : Hub) (b : nat) : WIBinder :=
  match proxy_of s !! b with
  | Some h =>
      match cache s !! h with
      | Some e => WProxy h (generation e)
      | None => WNative b
      end
  | None => WNative b
  end.

Fixpoint unlink_first (b : nat) (l : list nat) : list nat :=
  match l with [] => [] | x :: l => if Nat.eqb x b then l else x :: unlink_first b l end.

Definition link_death (b : nat) : M Hub Status unit := fun s =>
  if negb (as_proxy s b) then (Err (status_of_code StInvalidOperation), s)
  else if is_dead s b then (Err (status_of_code StDeadObject), s)
  else (Ok tt, set_links (b :: links s) s).

(** The error of [unlink_to_death] is logged and dropped by the callers. *)
Definition unlink_death (b : nat) (s : Hub) : Hub :=
  if as_proxy s b && negb (is_dead s b) then set_links (unlink_first b (links s)) s else s.

(** A proxy [b] of handle [h] is made for the manager: for a new entry, or for the
    entry whose proxy is gone. *)
Definition meet (b : nat) (h : Z) (d : string) (s : Hub) : Hub :=
  let g := match cache s !! h with Some e => generation e | None => hub_generation s end in
  mkHub (inner s) (<[b := h]> (proxy_of s)) (<[h := mkEntry b d g]> (cache s))
        (match cache s !! h with Some _ => hub_generation s | None => hub_generation s + 1 end)
        (dead s) (links s) (channel s) (fired s).

(** [send_obituary_for_handle]: the entry is removed, and each link of the live proxy sends
    what the proxy was called before. *)
Definition obituary (h : Z) (s : Hub) : Hub :=
  match cache s !! h with
  | None => s
  | Some e =>
      let b := weak e in
      let who := downgrade s b in
      let s := mkHub (inner s) (proxy_of s) (delete h (cache s)) (hub_generation s)
                     (dead s) (links s) (channel s) (fired s) in
      if is_dead s b then s
      else
        mkHub (inner s) (proxy_of s) (cache s) (hub_generation s) (b :: dead s)
              (List.filter (fun x => negb (Nat.eqb x b)) (links s))
              (channel s ++ repeat who (count_occ Nat.eq_dec (links s) b)) (fired s)
  end.

(** ** The death receiver *)

Definition retain_callbacks (s : Hub) (who : WIBinder) (callbacks : list nat) : list nat :=
  List.filter (fun cb => negb (wi_eq (downgrade s cb) who)) callbacks.

(** [callbacks.is_empty()] entries go. *)
Definition retain_map (s : Hub) (who : WIBinder) (m : gmap string (list nat)) : gmap string (list nat) :=
  omap (fun cbs => match retain_callbacks s who cbs with [] => None | l => Some l end) m.

Definition matches (s : Hub) (who : WIBinder) (callbacks : list nat) : bool :=
  existsb (fun cb => wi_eq (downgrade s cb) who) callbacks.

Definition remove_registration_callback (name : option string) (who : WIBinder) (s : Hub) : bool * Hub :=
  let m := name_to_registration_callbacks (inner s) in
  match name with
  | Some name =>
      match m !! name with
      | None => (false, s)
      | Some cbs =>
          let l := retain_callbacks s who cbs in
          (matches s who cbs,
           set_inner (set_registrations (match l with [] => delete name m | _ => <[name := l]> m end) (inner s)) s)
      end
  | None =>
      (existsb (fun x => matches s who x.2) (map_to_list m),
       set_inner (set_registrations (retain_map s who m) (inner s)) s)
  end.

Definition remove_client_callback (who : WIBinder) (s : Hub) : Hub :=
  set_inner (set_clients (retain_map s who (name_to_client_callbacks (inner s))) (inner s)) s.

(** One message of [run_death_receiver]. *)
Definition receive_death (who : WIBinder) (s : Hub) : Hub :=
  let keep sv := negb (wi_eq (downgrade s (binder sv)) who) in
  let services := omap (fun sv => if keep sv then Some sv else None) (name_to_service (inner s)) in
  let s := set_inner (set_services services (inner s)) s in
  remove_client_callback who (snd (remove_registration_callback None who s)).

(** ** The handlers *)

Definition is_valid_char (c : Ascii.ascii) : bool :=
  let n := Z.of_N (Ascii.N_of_ascii c) in
  (n =? 95) || (n =? 45) || (n =? 46) || (n =? 47) ||
  ((97 <=? n) && (n <=? 122)) || ((65 <=? n) && (n <=? 90)) || ((48 <=? n) && (n <=? 57)).

Fixpoint all_chars (f : Ascii.ascii -> bool) (s : string) : bool :=
  match s with EmptyString => true | String c s => f c && all_chars f s end.

Definition is_valid_service_name (name : string) : bool :=
  negb (Z.of_nat (String.length name) =? 0) && (Z.of_nat (String.length name) <=? 127) &&
  all_chars is_valid_char name.

Definition is_cross_uid_overwrite_rejected (allow_cross_uid_overwrite same_binder : bool)
    (existing_uid caller_uid : Z) : bool :=
  negb allow_cross_uid_overwrite && negb same_binder && negb (existing_uid =? caller_uid).

Definition classify_for_service_union (lookup : option (nat * bool)) : ServiceUnion :=
  match lookup with
  | Some (b, true) => Accessor (Some b)
  | Some (b, false) => ServiceWithMetadata (Some b) false
  | None => ServiceWithMetadata None false
  end.

Section Handlers.
(** [binder.descriptor()]; the option the manager was started with. *)
Context (descriptor_of : nat -> string) (allow_cross_uid_overwrite : bool).
(** What the kernel counts and what the callbacks return during the call. *)
Context (strong_count : nat -> option Z) (deliver : PendingCallback -> outcome Status unit).

Definition fire (cb : PendingCallback) : M Hub Status unit := fun s =>
  (deliver cb, set_fired (fired s ++ [cb]) s).

Fixpoint fire_pending_propagate (pending : list PendingCallback) : M Hub Status unit :=
  match pending with
  | [] => ret tt
  | cb :: pending => let* _ := fire cb in fire_pending_propagate pending
  end.

Definition fire_pending (pending : list PendingCallback) : M Hub Status unit :=
  modify (fun s => set_fired (fired s ++ pending) s).

Definition raise {A} (e : ExceptionCode) : M Hub Status A := throw (status_of_exception e).

(** The last part of [addService] under the lock: [client_pending] and [reg_pending]. *)
Definition notify_registration (name : string) (service : nat)
    : M Hub Status (list PendingCallback * list PendingCallback) := fun s =>
  let i := inner s in
  match name_to_registration_callbacks i !! name with
  | None => (Ok ([], []), s)
  | Some callbacks =>
      let i := update_service name (with_guarantee true) i in
      let '(_, i, pending) :=
        handle_service_client_callback (as_proxy s) strong_count KNOWN_CLIENTS_ON_DEMAND name false i [] in
      let i := update_service name (with_guarantee true) i in
      (Ok (pending, (fun cb => Registration cb name service) <$> callbacks), set_inner i s)
  end.

Definition addService (caller : CallingContext) (name : string) (service : nat) (dumpPriority : Z)
    : M Hub Status unit :=
  if negb (is_valid_service_name name) then raise ExIllegalArgument
  else
    let* s := get in
    if distinct_name_cap_exceeded (name_to_service (inner s)) name then raise ExIllegalState
    else
      let existing := name_to_service (inner s) !! name in
      let prev_clients := match existing with Some e => has_clients e | None => false end in
      let same_binder := match existing with Some e => Nat.eqb (binder e) service | None => false end in
      let rejected :=
        match existing with
        | Some e => is_cross_uid_overwrite_rejected allow_cross_uid_overwrite same_binder (uid (context e)) (uid caller)
        | None => false
        end in
      if rejected then raise ExSecurity
      else
        let old_to_unlink :=
          match existing with
          | Some e => if negb same_binder && as_proxy s (binder e) then Some (binder e) else None
          | None => None
          end in
        let* _ := (if negb same_binder && as_proxy s service then link_death service else ret tt) in
        let* _ := modify (fun s => match old_to_unlink with Some b => unlink_death b s | None => s end) in
        let* _ := modify (fun s => set_inner (set_services
                    (<[name := mkService service dumpPriority prev_clients false caller
                         (bool_decide (descriptor_of service = "android.os.IAccessor"%string))]>
                       (name_to_service (inner s))) (inner s)) s) in
        let* (client_pending, reg_pending) := notify_registration name service in
        let* _ := fire_pending client_pending in
        fire_pending_propagate reg_pending.

Definition lookup_binder (name : string) : M Hub Status (option (nat * bool)) :=
  let* s := get in
  let '(r, i, pending) := try_get_binder (as_proxy s) strong_count name (inner s) [] in
  let* _ := put (set_inner i s) in
  let* _ := fire_pending pending in
  ret r.

Definition getService (name : string) : M Hub Status (option nat) :=
  let* r := lookup_binder name in ret (fst <$> r).
Definition checkService (name : string) : M Hub Status (option nat) :=
  let* r := lookup_binder name in ret (fst <$> r).
Definition getService2 (name : string) : M Hub Status ServiceUnion :=
  let* r := lookup_binder name in ret (classify_for_service_union r).
Definition checkService2 (name : string) : M Hub Status ServiceUnion :=
  let* r := lookup_binder name in ret (classify_for_service_union r).

(** The order of a [HashMap] is not specified. *)
Definition listServices (priority : Z) (s : Hub) : list string :=
  fst <$> filter (fun x => Z.land (dump_priority x.2) priority <> 0) (map_to_list (name_to_service (inner s))).

Definition getServiceDebugInfo (s : Hub) : list (string * Z) :=
  (fun x => (x.1, pid (context x.2))) <$> map_to_list (name_to_service (inner s)).

(** [values().flatten().any(|c| c.as_binder() == cb_binder)]. *)
Definition already_linked (m : gmap string (list nat)) (cb : nat) : bool :=
  existsb (fun x => existsb (Nat.eqb cb) x.2) (map_to_list m).

(** [entry(name).or_default().push(callback)]. *)
Definition push_callback (name : string) (cb : nat) (m : gmap string (list nat)) : gmap string (list nat) :=
  <[name := default [] (m !! name) ++ [cb]]> m.

(** What comes before the link of a callback: the list has it already, is full, or the
    name is one too many. *)
Inductive Admission : Type :=
| Registered
| Refused
| Accepted.

Definition admission (m : gmap string (list nat)) (name : string) (cb : nat) : Admission :=
  match m !! name with
  | Some existing =>
      if existsb (Nat.eqb cb) existing then Registered
      else if MAX_CALLBACKS_PER_NAME <=? Z.of_nat (length existing) then Refused
      else if distinct_name_cap_exceeded m name then Refused else Accepted
  | None => if distinct_name_cap_exceeded m name then Refused else Accepted
  end.

Definition registerForNotifications (name : string) (callback : nat) : M Hub Status unit :=
  if negb (is_valid_service_name name) then raise ExIllegalArgument
  else
    let* s := get in
    let m := name_to_registration_callbacks (inner s) in
    match admission m name callback with
    | Registered => ret tt
    | Refused => raise ExIllegalState
    | Accepted =>
        let* _ := (if already_linked m callback then ret tt else link_death callback) in
        let* _ := modify (fun s => set_inner (set_registrations (push_callback name callback m) (inner s)) s) in
        fire_pending
          match name_to_service (inner s) !! name with
          | Some sv => [Registration callback name (binder sv)]
          | None => []
          end
    end.

Definition unregisterForNotifications (name : string) (callback : nat) : M Hub Status unit :=
  let* s := get in
  let (found, s) := remove_registration_callback (Some name) (downgrade s callback) s in
  let* _ := put s in
  if found then ret tt else raise ExIllegalState.

Definition registerClientCallback (caller : CallingContext) (name : string) (arg_service callback : nat)
    : M Hub Status unit :=
  let* s := get in
  match name_to_service (inner s) !! name with
  | None => raise ExIllegalArgument
  | Some sv =>
      if negb (pid (context sv) =? pid caller) then raise ExSecurity
      else if negb (Nat.eqb (binder sv) arg_service) then raise ExIllegalArgument
      else
        let m := name_to_client_callbacks (inner s) in
        match admission m name callback with
        | Registered => ret tt
        | Refused => raise ExIllegalState
        | Accepted =>
            let* _ := (if already_linked m callback then ret tt else link_death callback) in
            let* s := get in
            let pending := if has_clients sv then [Clients callback (binder sv) true] else [] in
            let i := set_clients (push_callback name callback m) (inner s) in
            let '(_, i, pending) :=
              handle_service_client_callback (as_proxy s) strong_count KNOWN_CLIENTS_ON_DEMAND name false i pending in
            let* _ := put (set_inner i s) in
            fire_pending pending
        end
  end.

Definition tryUnregisterService (caller : CallingContext) (name : string) (arg_service : nat)
    : M Hub Status unit :=
  let* s := get in
  match name_to_service (inner s) !! name with
  | None => raise ExIllegalArgument
  | Some sv =>
      if negb (pid (context sv) =? pid caller) then raise ExSecurity
      else if negb (Nat.eqb (binder sv) arg_service) then raise ExIllegalArgument
      else if guarantee_client sv then raise ExIllegalState
      else
        let '(clients, i, pending) :=
          handle_service_client_callback (as_proxy s) strong_count KNOWN_CLIENTS_ON_DEMAND name false (inner s) [] in
        if clients then
          let* _ := put (set_inner (update_service name (with_guarantee true) i) s) in
          let* _ := fire_pending pending in
          raise ExIllegalState
        else
          let s := unlink_death arg_service (set_inner i s) in
          let* _ := put (set_inner (set_services (delete name (name_to_service (inner s))) (inner s)) s) in
          fire_pending pending
  end.

(** A round of [run_client_callback_poller]; [names] is its snapshot of the keys. *)
Definition poll (names : list string) (s : Hub) : Hub :=
  let (i, pending) := poll_names (as_proxy s) strong_count names (inner s) [] in
  set_fired (fired s ++ pending) (set_inner i s).
End Handlers.

(** [VINTF] and [APEX] have no equivalent here. *)
Definition isDeclared (name : string) : bool := false.
Definition getDeclaredInstances (iface : string) : list string := [].
Definition updatableViaApex (name : string) : option string := None.
Definition getUpdatableNames (apex_name : string) : list string := [].

(** ** Steps *)

Inductive Request : Type :=
| AddService (caller : CallingContext) (name : string) (service : nat) (dumpPriority : Z)
| GetService (name : string)
| CheckService (name : string)
| GetService2 (name : string)
| CheckService2 (name : string)
| RegisterForNotifications (name : string) (callback : nat)
| UnregisterForNotifications (name : string) (callback : nat)
| RegisterClientCallback (caller : CallingContext) (name : string) (service callback : nat)
| TryUnregisterService (caller : CallingContext) (name : string) (service : nat)
| Poll (names : list string)
| ReceiveDeath
| Obituary (handle : Z)
| Meet (binder : nat) (handle : Z) (descriptor : string).

Section Steps.
(** [natives]: the binders of the manager itself. *)
Context (descriptor_of : nat -> string) (allow : bool) (natives : nat -> bool).

Definition knows (s : Hub) (b : nat) : bool := natives b || as_proxy s b.

(** The binders of a request are known; a proxy that is met is new; the poller
    goes over all names. *)
Definition valid_request (r : Request) (s : Hub) : Prop :=
  match r with
  | AddService _ _ b _ | TryUnregisterService _ _ b => knows s b = true
  | RegisterForNotifications _ cb | UnregisterForNotifications _ cb => knows s cb = true
  | RegisterClientCallback _ _ b cb => knows s b = true /\ knows s cb = true
  | Poll names => names ≡ₚ (map_to_list (name_to_service (inner s))).*1
  | Meet b _ _ => knows s b = false
  | _ => True
  end.

Definition serve (count : nat -> option Z) (deliver : PendingCallback -> outcome Status unit)
    (r : Request) (s : Hub) : Hub :=
  match r with
  | AddService caller name b prio => snd (addService descriptor_of allow count deliver caller name b prio s)
  | GetService name => snd (getService count name s)
  | CheckService name => snd (checkService count name s)
  | GetService2 name => snd (getService2 count name s)
  | CheckService2 name => snd (checkService2 count name s)
  | RegisterForNotifications name cb => snd (registerForNotifications name cb s)
  | UnregisterForNotifications name cb => snd (unregisterForNotifications name cb s)
  | RegisterClientCallback caller name b cb => snd (registerClientCallback count caller name b cb s)
  | TryUnregisterService caller name b => snd (tryUnregisterService count caller name b s)
  | Poll names => poll count names s
  | ReceiveDeath =>
      match channel s with
      | [] => s
      | who :: rest => receive_death who (set_channel rest s)
      end
  | Obituary h => obituary h s
  | Meet b h d => meet b h d s
  end.

Inductive hub_reachable : Hub -> Prop :=
| hub_start : hub_reachable hub_new
| hub_serve count deliver r s :
    hub_reachable s -> valid_request r s -> hub_reachable (serve count deliver r s).
End Steps.
