(* ===== verification/HubSpec.v ===== *)
(** What the service manager of [Hub] guarantees: what each request can change, the
    bounds of its tables, the death links, the registry as a map from names to binders, the
    rule of client callbacks; and what it does not: runs in which the death of a service, the
    owner of a name or a client goes unnoticed. *)

From Stdlib Require Import ZArith Lia.
From stdpp Require Import base gmap strings list.
From S2P Require Import Prelude Errors Status ProxyCache Hub.

Section Requests.
Context (descriptor_of : nat -> string) (allow : bool) (natives : nat -> bool).
Local Abbreviation knows := (Hub.knows natives).
Local Abbreviation valid_request := (Hub.valid_request natives).
Local Abbreviation serve := (Hub.serve descriptor_of allow).
Local Abbreviation hub_reachable := (Hub.hub_reachable descriptor_of allow natives).

(** * What a request can change *)

(** All of a service but the two flags of its clients. *)
Definition core (sv : Service) : Service :=
  mkService (binder sv) (dump_priority sv) false false (context sv) (is_accessor sv).

Definition same_shape (i i' : Inner) : Prop :=
  core <$> name_to_service i' = core <$> name_to_service i /\
  name_to_registration_callbacks i' = name_to_registration_callbacks i /\
  name_to_client_callbacks i' = name_to_client_callbacks i.

Lemma same_shape_refl i : same_shape i i.
Proof. done. Qed.
Lemma same_shape_trans i1 i2 i3 : same_shape i1 i2 -> same_shape i2 i3 -> same_shape i1 i3.
Proof. intros (A1 & A2 & A3) (B1 & B2 & B3). split_and!; congruence. Qed.

Lemma update_shape name f i : (forall sv, core (f sv) = core sv) -> same_shape i (update_service name f i).
Proof.
  intros Hf. split_and!; [| done | done]. cbn. apply map_eq. intros n.
  rewrite !lookup_fmap. destruct (decide (name = n)) as [<- | Hne].
  - rewrite lookup_alter_eq. destruct (name_to_service i !! name); cbn; [by rewrite Hf | done].
  - by rewrite lookup_alter_ne.
Qed.

Lemma send_shape name v i p : same_shape i (send_client_callback_notification name v i p).1.
Proof.
  unfold send_client_callback_notification. repeat case_match; cbn; try apply same_shape_refl;
    by apply update_shape.
Qed.

Lemma guaranteed_shape name v sv i p : same_shape i (guaranteed_step name v sv i p).1.2.
Proof.
  unfold guaranteed_step. destruct (guarantee_client sv); [| done].
  pose proof (send_shape name true i p). destruct (negb _ && negb v).
  - destruct (send_client_callback_notification name true i p) as [i1 p1]. cbn in *.
    case_match; cbn; [| done]. eapply same_shape_trans; [done |]. by apply update_shape.
  - case_match; cbn; [| done]. by apply update_shape.
Qed.

Lemma reported_shape name v r : same_shape r.1.2 (reported_step name v r).1.2.
Proof.
  destruct r as [[c i] p]. unfold reported_step. destruct (v && negb c); [| done].
  pose proof (send_shape name true i p). by destruct (send_client_callback_notification _ _ _ _).
Qed.

Lemma interval_shape name v w r : same_shape r.1.2 (interval_step name v w r).1.2.
Proof.
  destruct r as [[c i] p]. unfold interval_step. destruct (w && negb v && c); [| done].
  pose proof (send_shape name false i p). by destruct (send_client_callback_notification _ _ _ _).
Qed.

Lemma handle_shape prox count known name w i p :
  same_shape i (handle_service_client_callback prox count known name w i p).1.2.
Proof.
  unfold handle_service_client_callback. repeat case_match; cbn; try apply same_shape_refl.
  eapply same_shape_trans; [| apply interval_shape].
  eapply same_shape_trans; [| apply reported_shape]. apply guaranteed_shape.
Qed.

Lemma poll_shape prox count names i p : same_shape i (poll_names prox count names i p).1.
Proof.
  revert i p. induction names as [| n names IH]; intros i p; cbn; [done |].
  pose proof (handle_shape prox count KNOWN_CLIENTS_PERIODIC n true i p).
  destruct (handle_service_client_callback _ _ _ _ _ _ _) as [[c i1] p1].
  eapply same_shape_trans; [done | apply IH].
Qed.

Lemma try_get_shape prox count name i p : same_shape i (try_get_binder prox count name i p).1.2.
Proof.
  unfold try_get_binder. destruct (name_to_service i !! name) as [sv |]; [| done].
  pose proof (handle_shape prox count KNOWN_CLIENTS_ON_DEMAND name false
                (update_service name (with_guarantee true) i) p) as H.
  destruct (handle_service_client_callback _ _ _ _ _ _ _) as [[c i1] p1]. cbn in *.
  eapply same_shape_trans; [by apply (update_shape name (with_guarantee true)) |].
  eapply same_shape_trans; [exact H |]. by apply update_shape.
Qed.

(** The tables but the client flags, and the world but the log of callbacks. *)
Record same_but (s s' : Hub) : Prop := mkSame {
  sb_inner : same_shape (inner s) (inner s');
  sb_world : proxy_of s' = proxy_of s /\ cache s' = cache s /\ hub_generation s' = hub_generation s /\
    dead s' = dead s /\ links s' = links s /\ channel s' = channel s
}.

Lemma same_but_refl s : same_but s s.
Proof. done. Qed.
Lemma same_but_trans s1 s2 s3 : same_but s1 s2 -> same_but s2 s3 -> same_but s1 s3.
Proof.
  intros [A (A1 & A2 & A3 & A4 & A5 & A6)] [B (B1 & B2 & B3 & B4 & B5 & B6)].
  split; [by eapply same_shape_trans | split_and!; congruence].
Qed.
Lemma same_but_inner s i l : same_shape (inner s) i -> same_but s (set_fired l (set_inner i s)).
Proof. done. Qed.

Lemma propagate_same deliver p s : same_but s (fire_pending_propagate deliver p s).2.
Proof.
  revert s. induction p as [| cb p IH]; intros s; cbn; [done |]. unfold bind, fire.
  destruct (deliver cb); cbn; try done. apply (same_but_trans _ (set_fired (fired s ++ [cb]) s)); [done | apply IH].
Qed.

Lemma lookup_same count name s : same_but s (lookup_binder count name s).2.
Proof.
  unfold lookup_binder. unfold bind, get. cbn.
  pose proof (try_get_shape (as_proxy s) count name (inner s) []) as H.
  destruct (try_get_binder _ _ _ _ _) as [[r i] p]. cbn in *. by apply same_but_inner.
Qed.

Definition is_existing (name : string) (b : nat) (s : Hub) : bool :=
  match name_to_service (inner s) !! name with Some e => Nat.eqb (binder e) b | None => false end.
Definition rejected (caller : CallingContext) (name : string) (b : nat) (s : Hub) : bool :=
  match name_to_service (inner s) !! name with
  | Some e => is_cross_uid_overwrite_rejected allow (is_existing name b s) (uid (context e)) (uid caller)
  | None => false
  end.

(** The links after [b] has replaced what was there under the name. *)
Definition relinked (name : string) (b : nat) (s : Hub) : Hub :=
  if is_existing name b s then s
  else
    let s1 := if as_proxy s b then set_links (b :: links s) s else s in
    match name_to_service (inner s) !! name with
    | Some e => if as_proxy s (binder e) then unlink_death (binder e) s1 else s1
    | None => s1
    end.
Definition added (caller : CallingContext) (name : string) (b : nat) (prio : Z) (s : Hub) : Hub :=
  set_inner (set_services
    (<[name := mkService b prio (has_clients_of name (inner s) false) false caller
         (bool_decide (descriptor_of b = "android.os.IAccessor"%string))]> (name_to_service (inner s)))
    (inner s)) (relinked name b s).

(** The state after a callback was linked. *)
Definition linked (m : gmap string (list nat)) (cb : nat) (s : Hub) : Hub :=
  if already_linked m cb then s else set_links (cb :: links s) s.
Definition linkable (s : Hub) (b : nat) : bool := as_proxy s b && negb (is_dead s b).

Inductive effect (r : Request) (s : Hub) : Hub -> Prop :=
| ef_same s' : same_but s s' -> effect r s s'
| ef_add caller name b prio s' :
    r = AddService caller name b prio -> is_valid_service_name name = true ->
    distinct_name_cap_exceeded (name_to_service (inner s)) name = false ->
    rejected caller name b s = false ->
    (is_existing name b s = false -> as_proxy s b = true -> is_dead s b = false) ->
    same_but (added caller name b prio s) s' -> effect r s s'
| ef_register name cb s' :
    r = RegisterForNotifications name cb -> is_valid_service_name name = true ->
    let m := name_to_registration_callbacks (inner s) in
    admission m name cb = Accepted -> (already_linked m cb = false -> linkable s cb = true) ->
    same_but (set_inner (set_registrations (push_callback name cb m) (inner s)) (linked m cb s)) s' ->
    effect r s s'
| ef_unregister name cb :
    r = UnregisterForNotifications name cb ->
    effect r s (remove_registration_callback (Some name) (downgrade s cb) s).2
| ef_client caller name b cb sv s' :
    r = RegisterClientCallback caller name b cb -> name_to_service (inner s) !! name = Some sv ->
    let m := name_to_client_callbacks (inner s) in
    admission m name cb = Accepted -> (already_linked m cb = false -> linkable s cb = true) ->
    same_but (set_inner (set_clients (push_callback name cb m) (inner s)) (linked m cb s)) s' ->
    effect r s s'
| ef_remove caller name b sv s' :
    r = TryUnregisterService caller name b -> name_to_service (inner s) !! name = Some sv ->
    pid (context sv) = pid caller -> binder sv = b -> guarantee_client sv = false ->
    same_but (set_inner (set_services (delete name (name_to_service (inner s))) (inner s)) (unlink_death b s)) s' ->
    effect r s s'
| ef_death who rest :
    r = ReceiveDeath -> channel s = who :: rest -> effect r s (receive_death who (set_channel rest s))
| ef_obituary h : r = Obituary h -> effect r s (obituary h s)
| ef_meet b h d : r = Meet b h d -> effect r s (meet b h d s).

Lemma link_death_cases b s :
  (exists e, link_death b s = (Err e, s)) \/
  (link_death b s = (Ok tt, set_links (b :: links s) s) /\ linkable s b = true).
Proof.
  unfold link_death, linkable. destruct (as_proxy s b); cbn; [| by left; eexists].
  destruct (is_dead s b); [by left; eexists | by right].
Qed.

Lemma notify_same count name b s :
  exists p1 p2 s', notify_registration count name b s = (Ok (p1, p2), s') /\ same_but s s'.
Proof.
  unfold notify_registration.
  destruct (name_to_registration_callbacks (inner s) !! name) as [cbs |]; [| by eexists _, _, _].
  pose proof (handle_shape (as_proxy s) count KNOWN_CLIENTS_ON_DEMAND name false
                (update_service name (with_guarantee true) (inner s)) []) as H.
  destruct (handle_service_client_callback _ _ _ _ _ _ _) as [[c i] p]. cbn in *.
  eexists _, _, _. split; [done |]. split; [| done]. cbn.
  eapply same_shape_trans; [by apply (update_shape name (with_guarantee true)) |].
  eapply same_shape_trans; [exact H |]. by apply update_shape.
Qed.

Lemma registered_same count deliver name b s :
  same_but s (bind (notify_registration count name b)
    (fun '(p1, p2) => let* _ := fire_pending p1 in fire_pending_propagate deliver p2) s).2.
Proof.
  destruct (notify_same count name b s) as (p1 & p2 & s' & E & H). unfold bind at 1. rewrite E.
  eapply same_but_trans; [exact H |]. unfold bind, fire_pending, modify.
  eapply same_but_trans; [| apply propagate_same]. done.
Qed.

(** What [addService] does once it has passed its checks. *)
Definition finish_add (count : nat -> option Z) (deliver : PendingCallback -> outcome Status unit)
    (name : string) (b : nat) : M Hub Status unit :=
  bind (notify_registration count name b)
    (fun '(p1, p2) => let* _ := fire_pending p1 in fire_pending_propagate deliver p2).

Lemma add_cases count deliver caller name b prio s :
  let r := addService descriptor_of allow count deliver caller name b prio s in
  (exists e, r = (Err e, s)) \/
  (r = finish_add count deliver name b (added caller name b prio s) /\
   is_valid_service_name name = true /\
   distinct_name_cap_exceeded (name_to_service (inner s)) name = false /\
   rejected caller name b s = false /\
   (is_existing name b s = false -> as_proxy s b = true -> is_dead s b = false)).
Proof.
  intros r. pattern r. set (P := fun _ : outcome Status unit * Hub => _). unfold r, addService. destruct (is_valid_service_name name) eqn:Ev; cbn [negb]; [| by (left; eexists)].
  unfold bind at 1, get at 1. cbv beta iota.
  destruct (distinct_name_cap_exceeded (name_to_service (inner s)) name) eqn:Ec; [by (left; eexists) |].
  fold (is_existing name b s). fold (rejected caller name b s).
  destruct (rejected caller name b s) eqn:Er; [by (left; eexists) |].
  set (m := if negb (is_existing name b s) && as_proxy s b then link_death b else ret tt).
  assert (Hm : (exists e, m s = (Err e, s)) \/
     (m s = (Ok tt, if negb (is_existing name b s) && as_proxy s b then set_links (b :: links s) s else s) /\
      (is_existing name b s = false -> as_proxy s b = true -> is_dead s b = false))).
  { unfold m. destruct (is_existing name b s); cbn [negb andb]; [by right |].
    destruct (as_proxy s b) eqn:Ep; [| by right].
    destruct (link_death_cases b s) as [? | [E Hl]]; [by left | right]. split; [done |]. intros _ _.
    unfold linkable in Hl. rewrite Ep in Hl. by apply negb_true_iff in Hl. }
  destruct Hm as [[e E] | [E Hd]]; unfold bind at 1; rewrite E; [by (left; eexists) | right].
  split; [| done]. unfold bind at 1 2, modify at 1 2. fold (finish_add count deliver name b). f_equal.
  unfold added, relinked, has_clients_of.
  destruct (name_to_service (inner s) !! name) as [x |] eqn:Ex; unfold is_existing; rewrite Ex; cbn [negb andb];
    [| by destruct (as_proxy s b)].
  destruct (Nat.eqb (binder x) b); cbn [negb andb]; [done |].
  destruct (as_proxy s b), (as_proxy s (binder x)); cbn [negb andb]; try done; unfold unlink_death;
    match goal with |- context [if ?c then _ else _] => destruct c end; done.
Qed.

Lemma add_effect count deliver caller name b prio s :
  effect (AddService caller name b prio) s (addService descriptor_of allow count deliver caller name b prio s).2.
Proof.
  destruct (add_cases count deliver caller name b prio s) as [[e ->] | (-> & H)]; [by apply ef_same |].
  destruct H as (H1 & H2 & H3 & H4). apply (ef_add _ _ caller name b prio); try done. apply registered_same.
Qed.

Lemma register_effect name cb s :
  effect (RegisterForNotifications name cb) s (registerForNotifications name cb s).2.
Proof.
  unfold registerForNotifications. destruct (is_valid_service_name name) eqn:Ev; cbn [negb]; [| by apply ef_same].
  unfold bind at 1, get. cbv beta iota.
  destruct (admission (name_to_registration_callbacks (inner s)) name cb) eqn:Ea; try (by apply ef_same).
  set (m := name_to_registration_callbacks (inner s)) in *.
  unfold bind at 1. destruct (already_linked m cb) eqn:El; cbn [ret].
  - apply (ef_register _ _ name cb); try done; fold m; [by rewrite El | unfold linked; by rewrite El].
  - destruct (link_death_cases cb s) as [[e E] | [E Hl]]; rewrite E; [by apply ef_same |].
    apply (ef_register _ _ name cb); try done; fold m. unfold linked. by rewrite El.
Qed.

Lemma client_effect count caller name b cb s :
  effect (RegisterClientCallback caller name b cb) s (registerClientCallback count caller name b cb s).2.
Proof.
  unfold registerClientCallback. unfold bind at 1, get at 1. cbv beta iota.
  destruct (name_to_service (inner s) !! name) as [sv |] eqn:Es; [| by apply ef_same].
  destruct (negb (pid (context sv) =? pid caller)); [by apply ef_same |].
  destruct (negb (Nat.eqb (binder sv) b)); [by apply ef_same |].
  destruct (admission (name_to_client_callbacks (inner s)) name cb) eqn:Ea; try (by apply ef_same).
  set (m := name_to_client_callbacks (inner s)) in *.
  assert (Htail : forall s0 : Hub, inner s0 = inner s -> same_but (set_inner (set_clients (push_callback name cb m) (inner s)) s0)
    (bind get (fun s1 => let '(_, i, pending) := handle_service_client_callback (as_proxy s1) count KNOWN_CLIENTS_ON_DEMAND
        name false (set_clients (push_callback name cb m) (inner s1)) (if has_clients sv then [Clients cb (binder sv) true] else []) in
      let* _ := put (set_inner i s1) in fire_pending pending) s0).2).
  { intros s0 Ei. unfold bind at 1, get. cbv beta iota. rewrite Ei.
    set (p0 := if has_clients sv then _ else _).
    pose proof (handle_shape (as_proxy s0) count KNOWN_CLIENTS_ON_DEMAND name false
                  (set_clients (push_callback name cb m) (inner s)) p0) as H.
    destruct (handle_service_client_callback _ _ _ _ _ _ _) as [[c i] p]. by split. }
  unfold bind at 1. destruct (already_linked m cb) eqn:El; cbn [ret].
  - eapply (ef_client _ _ caller name b cb sv); try done; fold m; [by rewrite El |].
    unfold linked. rewrite El. by apply Htail.
  - destruct (link_death_cases cb s) as [[e E] | [E Hl]]; rewrite E; [by apply ef_same |].
    eapply (ef_client _ _ caller name b cb sv); try done; fold m. unfold linked. rewrite El. by apply Htail.
Qed.

Lemma remove_effect count caller name b s :
  effect (TryUnregisterService caller name b) s (tryUnregisterService count caller name b s).2.
Proof.
  unfold tryUnregisterService. unfold bind at 1, get. cbv beta iota.
  destruct (name_to_service (inner s) !! name) as [sv |] eqn:Es; [| by apply ef_same].
  destruct (Z.eqb_spec (pid (context sv)) (pid caller)) as [Hpid |]; cbn [negb]; [| by apply ef_same].
  destruct (Nat.eqb_spec (binder sv) b) as [Hb |]; cbn [negb]; [| by apply ef_same].
  destruct (guarantee_client sv) eqn:Eg; [by apply ef_same |].
  pose proof (handle_shape (as_proxy s) count KNOWN_CLIENTS_ON_DEMAND name false (inner s) []) as H.
  destruct (handle_service_client_callback _ _ _ _ _ _ _) as [[c i] p]. cbn [fst snd] in H. destruct c.
  - apply ef_same. unfold bind, put, fire_pending, modify, raise, throw. cbn. split; [| done]. cbn.
    eapply same_shape_trans; [exact H |]. by apply update_shape.
  - apply (ef_remove _ _ caller name b sv); try done.
    destruct H as (H1 & H2 & H3). unfold bind, put, fire_pending, modify, unlink_death, as_proxy, is_dead. cbn.
    destruct (_ && _); split; try done; split_and!; cbn; try done; by rewrite !fmap_delete, H1.
Qed.

Lemma serve_effect count deliver r s : effect r s (serve count deliver r s).
Proof.
  destruct r as [caller name b prio | name | name | name | name | name cb | name cb | caller name b cb
                | caller name b | names | | h | b h d]; cbn [Hub.serve].
  - apply add_effect.
  - apply ef_same. pose proof (lookup_same count name s). unfold getService, bind. by destruct (lookup_binder count name s) as [[] ?].
  - apply ef_same. pose proof (lookup_same count name s). unfold checkService, bind. by destruct (lookup_binder count name s) as [[] ?].
  - apply ef_same. pose proof (lookup_same count name s). unfold getService2, bind. by destruct (lookup_binder count name s) as [[] ?].
  - apply ef_same. pose proof (lookup_same count name s). unfold checkService2, bind. by destruct (lookup_binder count name s) as [[] ?].
  - apply register_effect.
  - unfold unregisterForNotifications. unfold bind at 1, get. cbv beta iota.
    pose proof (ef_unregister (UnregisterForNotifications name cb) s name cb eq_refl) as H.
    destruct (remove_registration_callback _ _ _) as [f s1]. unfold bind, put. by destruct f.
  - apply client_effect.
  - apply remove_effect.
  - apply ef_same. unfold poll. pose proof (poll_shape (as_proxy s) count names (inner s) []) as H.
    destruct (poll_names _ _ _ _ _) as [i p]. by apply same_but_inner.
  - destruct (channel s) as [| who rest] eqn:Ec; [by apply ef_same |]. by apply ef_death.
  - by apply ef_obituary.
  - by apply ef_meet.
Qed.

Lemma shape_lookup i i' n sv' :
  same_shape i i' -> name_to_service i' !! n = Some sv' ->
  exists sv, name_to_service i !! n = Some sv /\ core sv = core sv'.
Proof.
  intros (E & _ & _) En. pose proof (f_equal (lookup n) E) as Hn. rewrite !lookup_fmap, En in Hn.
  destruct (name_to_service i !! n) as [sv |]; cbn in Hn; [| done]. exists sv. split; [done |].
  exact (eq_sym (f_equal (default sv) Hn)).
Qed.

Lemma same_shape_sym i i' : same_shape i i' -> same_shape i' i.
Proof. by intros (? & ? & ?); split_and!. Qed.

Lemma shape_size i i' : same_shape i i' -> size (name_to_service i') = size (name_to_service i).
Proof. intros (E & _ & _). apply (f_equal size) in E. by rewrite !map_size_fmap in E. Qed.

(** ** Bounds *)

Definition good_list (l : list nat) : Prop :=
  l <> [] /\ NoDup l /\ Z.of_nat (length l) <= MAX_CALLBACKS_PER_NAME.
Definition bounded {V} (m : gmap string V) : Prop := Z.of_nat (size m) <= MAX_DISTINCT_NAMES.

Record caps_inv (i : Inner) : Prop := mkCaps {
  ci_services : bounded (name_to_service i);
  ci_names : forall n sv, name_to_service i !! n = Some sv -> is_valid_service_name n = true;
  ci_registrations : bounded (name_to_registration_callbacks i);
  ci_registered : forall n l, name_to_registration_callbacks i !! n = Some l ->
    is_valid_service_name n = true /\ good_list l;
  ci_clients : bounded (name_to_client_callbacks i);
  ci_client : forall n l, name_to_client_callbacks i !! n = Some l -> good_list l
}.

Lemma caps_shape i i' : same_shape i i' -> caps_inv i -> caps_inv i'.
Proof.
  intros Hs [H1 H2 H3 H4 H5 H6]. pose proof Hs as (_ & E2 & E3).
  split; rewrite ?E2, ?E3; try done; unfold bounded in *.
  - by rewrite (shape_size i i' Hs).
  - intros n sv En. destruct (shape_lookup i i' n sv Hs En) as (sv0 & E0 & _). by apply (H2 n sv0).
Qed.

Lemma bounded_insert {V} (m : gmap string V) n x :
  bounded m -> distinct_name_cap_exceeded m n = false -> bounded (<[n := x]> m).
Proof.
  unfold bounded, distinct_name_cap_exceeded. intros Hb Hc. rewrite map_size_insert.
  destruct (m !! n) as [y |] eqn:E; [cbn; lia |].
  rewrite bool_decide_eq_false_2 in Hc by (by intros [? ?]). cbn in Hc. lia.
Qed.

Lemma bounded_sub {V} (m m' : gmap string V) : (forall n, is_Some (m' !! n) -> is_Some (m !! n)) -> bounded m -> bounded m'.
Proof.
  unfold bounded. intros Hs Hb. rewrite <- !size_dom in *.
  assert (Hd : dom m' ⊆ dom m) by (intros n; rewrite !elem_of_dom; apply Hs).
  apply subseteq_size in Hd. lia.
Qed.

Lemma existsb_elem (cb : nat) l : existsb (Nat.eqb cb) l = true <-> cb ∈ l.
Proof.
  rewrite existsb_exists. split.
  - intros (x & Hin & ->%Nat.eqb_eq). by apply list_elem_of_In.
  - intros Hin. exists cb. split; [by apply list_elem_of_In | apply Nat.eqb_refl].
Qed.

Lemma push_good m n cb l :
  (forall l0, m !! n = Some l0 -> good_list l0) -> admission m n cb = Accepted ->
  push_callback n cb m !! n = Some l -> good_list l.
Proof.
  unfold push_callback, admission. rewrite lookup_insert_eq. intros Hm Ha [= <-].
  destruct (m !! n) as [l0 |]; cbn.
  - destruct (Hm l0 eq_refl) as (H1 & H2 & H3).
    destruct (existsb (Nat.eqb cb) l0) eqn:Ee; [done |].
    destruct (Z.leb_spec MAX_CALLBACKS_PER_NAME (Z.of_nat (length l0))); [done |].
    split_and!; [by destruct l0 | | rewrite length_app; cbn; lia].
    apply NoDup_app. split_and!; [done | | apply NoDup_singleton].
    intros x Hx ->%list_elem_of_singleton. apply existsb_elem in Hx. congruence.
  - split_and!; [done | apply NoDup_singleton | done].
Qed.

Lemma admission_cap m n cb : admission m n cb = Accepted -> distinct_name_cap_exceeded m n = false.
Proof. unfold admission. repeat case_match; done. Qed.

Lemma retain_good s who l l' : good_list l -> retain_callbacks s who l = l' -> l' <> [] -> good_list l'.
Proof.
  intros (_ & H2 & H3) <- Hne. unfold retain_callbacks in *. split_and!; [done | |].
  - by apply NoDup_ListNoDup, List.NoDup_filter, NoDup_ListNoDup.
  - pose proof (List.filter_length_le (fun cb => negb (wi_eq (downgrade s cb) who)) l). lia.
Qed.

Lemma retain_lookup s who m n l :
  retain_map s who m !! n = Some l ->
  exists l0, m !! n = Some l0 /\ retain_callbacks s who l0 = l /\ l <> [].
Proof.
  unfold retain_map. rewrite lookup_omap. destruct (m !! n) as [l0 |]; cbn; [| done].
  destruct (retain_callbacks s who l0) eqn:E; intros; simplify_eq. by exists l0.
Qed.

Lemma retain_bounded s who m : bounded m -> bounded (retain_map s who m).
Proof.
  apply bounded_sub. intros n [l Hl]. destruct (retain_lookup s who m n l Hl) as (l0 & E & _). by exists l0.
Qed.

Lemma caps_death who s : caps_inv (inner s) -> caps_inv (inner (receive_death who s)).
Proof.
  intros [H1 H2 H3 H4 H5 H6]. split; cbn.
  - eapply bounded_sub; [| exact H1]. intros n [sv Hn]. rewrite lookup_omap in Hn.
    by destruct (name_to_service (inner s) !! n).
  - intros n sv Hn. rewrite lookup_omap in Hn.
    destruct (name_to_service (inner s) !! n) as [sv0 |] eqn:E; [| done]. by apply (H2 n sv0).
  - by apply retain_bounded.
  - intros n l (l0 & E0 & E1 & Hne)%retain_lookup. destruct (H4 n l0 E0) as [Hv Hg].
    split; [done |]. by eapply retain_good.
  - by apply retain_bounded.
  - intros n l (l0 & E0 & E1 & Hne)%retain_lookup. eapply retain_good; [by apply (H6 n l0) | done | done].
Qed.

Lemma caps_unregister s name who :
  caps_inv (inner s) -> caps_inv (inner (remove_registration_callback (Some name) who s).2).
Proof.
  intros [H1 H2 H3 H4 H5 H6]. unfold remove_registration_callback.
  destruct (name_to_registration_callbacks (inner s) !! name) as [l0 |] eqn:E0; [| by split].
  destruct (H4 name l0 E0) as [Hv Hg].
  destruct (retain_callbacks s who l0) as [| x l] eqn:Er; split; cbn; try done.
  - eapply bounded_sub; [| exact H3]. intros n [y [_ Hy]%lookup_delete_Some]. by exists y.
  - intros n y [_ Hy]%lookup_delete_Some. by apply H4.
  - eapply bounded_sub; [| exact H3]. intros n [y [[<- _] | [_ Hy]]%lookup_insert_Some]; by eexists.
  - intros n y [[<- <-] | [_ Hy]]%lookup_insert_Some; [| by apply H4].
    split; [done |]. by eapply retain_good.
Qed.

Lemma unlink_inner b s : inner (unlink_death b s) = inner s.
Proof. unfold unlink_death. by case_match. Qed.
Lemma relinked_inner name b s : inner (relinked name b s) = inner s.
Proof. unfold relinked. repeat case_match; rewrite ?unlink_inner; done. Qed.

Lemma caps_effect r s s' : caps_inv (inner s) -> effect r s s' -> caps_inv (inner s').
Proof.
  intros Hc [s1 [Hi _] | caller name b prio s1 _ Hv Hcap _ _ [Hi _] | name cb s1 _ Hv m Ha _ [Hi _] | name cb _
            | caller name b cb sv s1 _ Hn m Ha _ [Hi _] | caller name b sv s1 _ Hn _ _ _ [Hi _]
            | who rest _ Ech | h _ | b h d _].
  - by eapply caps_shape.
  - apply (caps_shape _ _ Hi). destruct Hc as [H1 H2 H3 H4 H5 H6]. split; cbn; try done.
    + by apply bounded_insert.
    + intros n sv [[<- _] | [_ E]]%lookup_insert_Some; [done | by apply (H2 n sv)].
  - apply (caps_shape _ _ Hi). destruct Hc as [H1 H2 H3 H4 H5 H6]. split; cbn; try done.
    + apply bounded_insert; [done | by eapply admission_cap].
    + intros n l E. destruct (decide (name = n)) as [<- | Hne].
      * split; [done |]. eapply push_good; [| exact Ha | exact E]. intros l0 E0. by apply (H4 name l0).
      * unfold push_callback in E. rewrite lookup_insert_ne in E by done. by apply H4.
  - by apply caps_unregister.
  - apply (caps_shape _ _ Hi). destruct Hc as [H1 H2 H3 H4 H5 H6]. split; cbn; try done.
    + apply bounded_insert; [done | by eapply admission_cap].
    + intros n l E. destruct (decide (name = n)) as [<- | Hne].
      * eapply push_good; [| exact Ha | exact E]. intros l0 E0. by apply (H6 name l0).
      * unfold push_callback in E. rewrite lookup_insert_ne in E by done. by apply (H6 n).
  - apply (caps_shape _ _ Hi). destruct Hc as [H1 H2 H3 H4 H5 H6]. split; cbn; try done.
    + eapply bounded_sub; [| exact H1]. intros n [y [_ Hy]%lookup_delete_Some]. by exists y.
    + intros n y [_ Hy]%lookup_delete_Some. by apply (H2 n y).
  - by apply caps_death.
  - unfold obituary. repeat case_match; done.
  - done.
Qed.

Lemma caps_reachable s : hub_reachable s -> caps_inv (inner s).
Proof.
  induction 1 as [| count deliver r s _ IH _]; [by split | by eapply caps_effect, serve_effect].
Qed.

(** ** Names of the dead *)

Record world_inv (s : Hub) : Prop := mkWorld {
  wi_cache : forall h e, cache s !! h = Some e -> generation e < hub_generation s /\ proxy_of s !! weak e = Some h;
  wi_channel : forall who, who ∈ channel s -> exists h g, who = WProxy h g /\ g < hub_generation s /\
    forall e, cache s !! h = Some e -> generation e <> g
}.

Lemma world_same s s' : cache s' = cache s -> proxy_of s' = proxy_of s -> hub_generation s' = hub_generation s ->
  (forall who, who ∈ channel s' -> who ∈ channel s) -> world_inv s -> world_inv s'.
Proof.
  intros E1 E2 E3 E4 [H1 H2]. split; rewrite ?E1, ?E2, ?E3; [done |]. intros who Hw. by apply H2, E4.
Qed.

Lemma world_meet b h d s : knows s b = false -> world_inv s -> world_inv (meet b h d s).
Proof.
  unfold Hub.knows, as_proxy. intros Hb [H1 H2]. apply orb_false_iff in Hb as [_ Hb].
  apply bool_decide_eq_false in Hb.
  assert (Hf : proxy_of s !! b = None) by (by apply eq_None_not_Some).
  split; cbn.
  - intros h' e [[<- <-] | [Hne E]]%lookup_insert_Some; cbn.
    + rewrite lookup_insert_eq. split; [| done]. destruct (cache s !! h) as [e0 |] eqn:E0; [| lia].
      by apply (H1 h e0).
    + destruct (H1 h' e E) as [Hg Hp]. split; [case_match; lia |].
      rewrite lookup_insert_ne; [done |]. congruence.
  - intros who Hw. destruct (H2 who Hw) as (h' & g & -> & Hg & Hc). exists h', g.
    split_and!; [done | case_match; lia |].
    intros e [[<- <-] | [_ E]]%lookup_insert_Some; [| by apply Hc]. cbn.
    destruct (cache s !! h) as [e0 |]; [by apply Hc | lia].
Qed.

Lemma world_obituary h s : world_inv s -> world_inv (obituary h s).
Proof.
  intros [H1 H2]. unfold obituary. destruct (cache s !! h) as [e |] eqn:Ee; [| by split].
  destruct (H1 h e Ee) as [Hg Hp].
  assert (Hold : forall who, who ∈ channel s -> exists h' g, who = WProxy h' g /\ g < hub_generation s /\
            forall e', delete h (cache s) !! h' = Some e' -> generation e' <> g).
  { intros who Hw. destruct (H2 who Hw) as (h' & g & -> & Hg' & Hc). exists h', g. split_and!; try done.
    intros e' [_ E]%lookup_delete_Some. by apply Hc. }
  case_match; split; cbn; try done; try (intros h' e' [_ E]%lookup_delete_Some; by apply H1).
  intros who [Hw | Hw]%elem_of_app; [by apply Hold |]. apply list_elem_of_In, repeat_spec in Hw as ->.
  exists h, (generation e). unfold downgrade. rewrite Hp, Ee. split_and!; try done.
  intros e' [Hne _]%lookup_delete_Some. done.
Qed.

Lemma link_world s l : world_inv s -> world_inv (set_links l s).
Proof. by intros [H1 H2]. Qed.
Lemma unlink_world b s : world_inv s -> world_inv (unlink_death b s).
Proof. unfold unlink_death. case_match; [apply link_world | done]. Qed.
Lemma relinked_world name b s : world_inv s -> world_inv (relinked name b s).
Proof.
  intros H. unfold relinked. repeat case_match; try done; try apply unlink_world; by try apply link_world.
Qed.
Lemma linked_world m cb s : world_inv s -> world_inv (linked m cb s).
Proof. unfold linked. case_match; [done | apply link_world]. Qed.
Lemma inner_world i s : world_inv s -> world_inv (set_inner i s).
Proof. by intros [H1 H2]. Qed.

Lemma same_world s s' : same_but s s' -> world_inv s -> world_inv s'.
Proof.
  intros [_ (E1 & E2 & E3 & E4 & E5 & E6)]. apply world_same; try done. by rewrite E6.
Qed.

Lemma world_effect r s s' : valid_request r s -> world_inv s -> effect r s s' -> world_inv s'.
Proof.
  intros Hv Hw [s1 Hs | caller name b prio s1 _ _ _ _ _ Hs | name cb s1 _ _ m _ _ Hs | name cb _
            | caller name b cb sv s1 _ _ m _ _ Hs | caller name b sv s1 _ _ _ _ _ Hs
            | who rest _ Ech | h _ | b h d ->].
  - by eapply same_world.
  - eapply same_world; [exact Hs |]. by apply inner_world, relinked_world.
  - eapply same_world; [exact Hs |]. by apply inner_world, linked_world.
  - unfold remove_registration_callback. case_match; [by apply inner_world | done].
  - eapply same_world; [exact Hs |]. by apply inner_world, linked_world.
  - eapply same_world; [exact Hs |]. by apply inner_world, unlink_world.
  - apply (world_same s); try done. cbn. intros x Hx. rewrite Ech. by apply elem_of_cons; right.
  - by apply world_obituary.
  - by apply world_meet.
Qed.

Lemma world_reachable s : hub_reachable s -> world_inv s.
Proof.
  induction 1 as [| count deliver r s _ IH Hv].
  - split; [done | by intros ? ?%elem_of_nil].
  - by eapply world_effect, serve_effect.
Qed.

(** What was sent to the receiver is the name of no binder any more. *)
Lemma dead_names_gone s who b : world_inv s -> who ∈ channel s -> wi_eq (downgrade s b) who = false.
Proof.
  intros [_ H2] Hw. destruct (H2 who Hw) as (h & g & -> & _ & Hc). unfold downgrade.
  destruct (proxy_of s !! b) as [h' |]; [| done]. destruct (cache s !! h') as [e |] eqn:E; [| done]. cbn.
  destruct (Z.eqb_spec h' h) as [-> | ?]; [| done]. cbn.
  apply Z.eqb_neq. by apply Hc.
Qed.

Lemma hub_filter_all {A} (f : A -> bool) l : (forall x, x ∈ l -> f x = true) -> List.filter f l = l.
Proof.
  induction l as [| x l IH]; intros Hf; cbn; [done |].
  rewrite (Hf x) by apply list_elem_of_here. f_equal. apply IH. intros y Hy. apply Hf. by apply elem_of_cons; right.
Qed.

Lemma retain_map_id s who m :
  (forall b, wi_eq (downgrade s b) who = false) -> (forall n l, m !! n = Some l -> l <> []) -> retain_map s who m = m.
Proof.
  intros Hw Hm. apply map_eq. intros n. unfold retain_map. rewrite lookup_omap.
  destruct (m !! n) as [l |] eqn:E; cbn; [| done]. unfold retain_callbacks.
  rewrite hub_filter_all by (intros x _; by rewrite Hw). specialize (Hm n l E). by destruct l.
Qed.

(** No message to the receiver removes anything. *)
Lemma death_noop s who :
  caps_inv (inner s) -> (forall b, wi_eq (downgrade s b) who = false) -> receive_death who s = s.
Proof.
  intros [_ _ _ H4 _ H6] Hw. unfold receive_death.
  assert (omap (fun sv => if negb (wi_eq (downgrade s (binder sv)) who) then Some sv else None)
               (name_to_service (inner s)) = name_to_service (inner s)) as ->.
  { apply map_eq. intros n. rewrite lookup_omap. destruct (name_to_service (inner s) !! n); cbn; [by rewrite Hw | done]. }
  assert (set_inner (set_services (name_to_service (inner s)) (inner s)) s = s) as -> by (by destruct s as [[]]).
  unfold remove_registration_callback. rewrite retain_map_id; [| done | intros n l E; apply (H4 n l E)].
  cbn [snd]. assert (set_inner (set_registrations (name_to_registration_callbacks (inner s)) (inner s)) s = s) as ->
    by (by destruct s as [[]]).
  unfold remove_client_callback. rewrite retain_map_id; [| done | intros n l E; apply (H6 n l E)].
  by destruct s as [[]].
Qed.

Lemma receive_noop s who rest :
  hub_reachable s -> channel s = who :: rest -> receive_death who (set_channel rest s) = set_channel rest s.
Proof.
  intros Hr Ec. apply death_noop; [by apply (caps_reachable s) |]. intros b.
  apply (dead_names_gone s who b); [by apply world_reachable |]. rewrite Ec. apply list_elem_of_here.
Qed.

(** ** Death links *)

(** The names a binder is registered under. *)
Definition names_of (b : nat) (m : gmap string Service) : Z :=
  Z.of_nat (size (filter (fun x => binder x.2 = b) m)).
Definition is_binder (b : nat) (sv : option Service) : Z :=
  match sv with Some sv => if Nat.eqb (binder sv) b then 1 else 0 | None => 0 end.

Lemma names_insert_fresh b m n sv : m !! n = None -> names_of b (<[n := sv]> m) = names_of b m + is_binder b (Some sv).
Proof.
  intros Hn. unfold names_of. cbn. destruct (Nat.eqb_spec (binder sv) b) as [Hb | Hb].
  - rewrite map_filter_insert_True by done. rewrite map_size_insert_None; [lia |].
    apply map_lookup_filter_None. by left.
  - rewrite map_filter_insert_False, delete_id by done. lia.
Qed.

Lemma names_delete b m n : names_of b m = names_of b (delete n m) + is_binder b (m !! n).
Proof.
  destruct (m !! n) as [sv |] eqn:E.
  - rewrite <- (names_insert_fresh b (delete n m) n sv) by apply lookup_delete_eq.
    by rewrite insert_delete_eq, insert_id.
  - rewrite delete_id by done. cbn. lia.
Qed.

Lemma names_insert b m n sv : names_of b (<[n := sv]> m) = names_of b m - is_binder b (m !! n) + is_binder b (Some sv).
Proof.
  rewrite (names_delete b m n), <- insert_delete_eq, names_insert_fresh by apply lookup_delete_eq. lia.
Qed.

Lemma names_shape b i i' : same_shape i i' -> names_of b (name_to_service i') = names_of b (name_to_service i).
Proof.
  intros (E & _ & _).
  assert (Hc : forall m, names_of b (core <$> m) = names_of b m).
  { intros m. unfold names_of. rewrite map_filter_fmap, map_size_fmap. do 2 f_equal. }
  by rewrite <- Hc, E, Hc.
Qed.

Lemma names_none b m : (forall n sv, m !! n = Some sv -> binder sv <> b) -> names_of b m = 0.
Proof.
  intros Hm. unfold names_of. rewrite (proj2 (map_empty_filter _ _)) ; [done |].
  intros n sv E. cbn. by apply (Hm n).
Qed.

Lemma already_linked_spec m cb : already_linked m cb = true <-> exists n l, m !! n = Some l /\ cb ∈ l.
Proof.
  unfold already_linked. rewrite existsb_exists. split.
  - intros ([n l] & Hin & He%existsb_elem). exists n, l. split; [| done].
    by apply elem_of_map_to_list, list_elem_of_In.
  - intros (n & l & E & He). exists (n, l). split; [| by apply existsb_elem].
    by apply list_elem_of_In, elem_of_map_to_list.
Qed.

Definition link_count (b : nat) (s : Hub) : Z := Z.of_nat (count_occ Nat.eq_dec (links s) b).
(** The links a binder in the tables should have. *)
Definition links_due (b : nat) (i : Inner) : Z :=
  names_of b (name_to_service i) + Z.b2z (already_linked (name_to_registration_callbacks i) b)
  + Z.b2z (already_linked (name_to_client_callbacks i) b).

Record link_inv (s : Hub) : Prop := mkLink {
  li_services : forall n sv, name_to_service (inner s) !! n = Some sv -> knows s (binder sv) = true;
  li_registered : forall cb, already_linked (name_to_registration_callbacks (inner s)) cb = true -> as_proxy s cb = true;
  li_clients : forall cb, already_linked (name_to_client_callbacks (inner s)) cb = true -> as_proxy s cb = true;
  li_natives : forall b, natives b = true -> as_proxy s b = false;
  li_links : forall b, linkable s b = true -> links_due b (inner s) <= link_count b s
}.

Lemma links_shape b i i' : same_shape i i' -> links_due b i' = links_due b i.
Proof. intros H. unfold links_due. rewrite (names_shape b i i' H). by destruct H as (_ & -> & ->). Qed.

Lemma link_same s s' : same_but s s' -> link_inv s -> link_inv s'.
Proof.
  intros [Hi (E1 & _ & _ & E4 & E5 & _)] [H1 H2 H3 H4 H5].
  assert (Hp : forall b, as_proxy s' b = as_proxy s b) by (intros b; unfold as_proxy; by rewrite E1).
  assert (Hd : forall b, linkable s' b = linkable s b)
    by (intros b; unfold linkable, is_dead; by rewrite Hp, E4).
  pose proof Hi as (_ & R1 & R2). split; rewrite ?R1, ?R2.
  - intros n sv (sv0 & E & Ec)%(shape_lookup _ _ _ _ Hi). unfold Hub.knows. rewrite Hp.
    assert (binder sv = binder sv0) as -> by (exact (eq_sym (f_equal binder Ec))). by apply (H1 n).
  - intros cb. rewrite Hp. apply H2.
  - intros cb. rewrite Hp. apply H3.
  - intros b. rewrite Hp. apply H4.
  - intros b. rewrite Hd, (links_shape b _ _ Hi). unfold link_count. rewrite E5. apply H5.
Qed.

Lemma unlink_count b x l :
  Z.of_nat (count_occ Nat.eq_dec l x) - (if Nat.eqb b x then 1 else 0)
    <= Z.of_nat (count_occ Nat.eq_dec (unlink_first b l) x).
Proof.
  induction l as [| y l IH]; cbn; [destruct (Nat.eqb b x); lia |].
  destruct (Nat.eqb_spec y b) as [-> | Hy].
  - destruct (Nat.eq_dec b x) as [-> | Hx]; [rewrite Nat.eqb_refl; lia |].
    destruct (Nat.eqb_spec b x); [done | lia].
  - cbn. destruct (Nat.eq_dec y x); lia.
Qed.

Lemma unlink_death_count b x s :
  link_count x s - (if Nat.eqb b x then 1 else 0) <= link_count x (unlink_death b s).
Proof.
  unfold link_count, unlink_death. destruct (as_proxy s b && _); cbn; [apply unlink_count |].
  destruct (Nat.eqb b x); lia.
Qed.

Lemma cons_count b x s : link_count x (set_links (b :: links s) s) = link_count x s + (if Nat.eqb b x then 1 else 0).
Proof.
  unfold link_count. cbn. destruct (Nat.eq_dec b x) as [-> | Hne]; [rewrite Nat.eqb_refl; lia |].
  destruct (Nat.eqb_spec b x); [done | lia].
Qed.

(** The links after a replacement are enough for the names after it. *)
Lemma relinked_count name b x s :
  linkable s x = true -> 
  link_count x s - (is_binder x (name_to_service (inner s) !! name))
    + (if Nat.eqb b x then 1 else 0) <= link_count x (relinked name b s).
Proof.
  intros Hx. unfold relinked, is_existing, is_binder.
  assert (Hb : link_count x s + (if Nat.eqb b x then 1 else 0)
                 <= link_count x (if as_proxy s b then set_links (b :: links s) s else s)).
  { destruct (as_proxy s b) eqn:Ep; [rewrite cons_count; lia |].
    destruct (Nat.eqb_spec b x) as [-> |]; [| lia]. unfold linkable in Hx. by rewrite Ep in Hx. }
  destruct (name_to_service (inner s) !! name) as [e |]; [| lia].
  destruct (Nat.eqb_spec (binder e) b) as [-> | Hne]; [destruct (Nat.eqb b x); lia |].
  set (s1 := if as_proxy s b then _ else _) in *.
  pose proof (unlink_death_count (binder e) x s1). destruct (as_proxy s (binder e)); [lia |].
  destruct (Nat.eqb (binder e) x); lia.
Qed.

Lemma relinked_frame name b s :
  proxy_of (relinked name b s) = proxy_of s /\ dead (relinked name b s) = dead s.
Proof. unfold relinked, unlink_death. repeat case_match; done. Qed.
Lemma linked_frame m cb s : proxy_of (linked m cb s) = proxy_of s /\ dead (linked m cb s) = dead s.
Proof. unfold linked. by case_match. Qed.
Lemma unlink_frame b s : proxy_of (unlink_death b s) = proxy_of s /\ dead (unlink_death b s) = dead s.
Proof. unfold unlink_death. by case_match. Qed.

(** New tables and links over the same proxies. *)
Lemma link_update s s' :
  link_inv s -> proxy_of s' = proxy_of s -> dead s' = dead s ->
  (forall n sv, name_to_service (inner s') !! n = Some sv -> knows s (binder sv) = true) ->
  (forall cb, already_linked (name_to_registration_callbacks (inner s')) cb = true -> as_proxy s cb = true) ->
  (forall cb, already_linked (name_to_client_callbacks (inner s')) cb = true -> as_proxy s cb = true) ->
  (forall b, linkable s b = true ->
     links_due b (inner s') - link_count b s' <= links_due b (inner s) - link_count b s) ->
  link_inv s'.
Proof.
  intros [H1 H2 H3 H4 H5] Ep Ed K1 K2 K3 K5.
  assert (Hp : forall b, as_proxy s' b = as_proxy s b) by (intros b; unfold as_proxy; by rewrite Ep).
  assert (Hd : forall b, linkable s' b = linkable s b) by (intros b; unfold linkable, is_dead; by rewrite Hp, Ed).
  split; intros; rewrite ?Hp; unfold Hub.knows in *; rewrite ?Hp; eauto.
  rewrite Hd in *. specialize (K5 b H). specialize (H5 b H). lia.
Qed.

Lemma push_linked m n cb x :
  already_linked (push_callback n cb m) x = true <-> already_linked m x = true \/ x = cb.
Proof.
  rewrite !already_linked_spec. unfold push_callback. split.
  - intros (n' & l & [[<- <-] | [Hne E]]%lookup_insert_Some & Hx); [| left; by exists n', l].
    apply elem_of_app in Hx as [Hx | ->%list_elem_of_singleton]; [left | by right].
    destruct (m !! n) as [l0 |] eqn:E0; cbn in Hx; [by exists n, l0 | by apply elem_of_nil in Hx].
  - intros [(n' & l & E & Hx) | ->].
    + destruct (decide (n = n')) as [<- | Hne].
      * eexists n, _. rewrite lookup_insert_eq. split; [done |]. rewrite E. cbn. apply elem_of_app. by left.
      * exists n', l. by rewrite lookup_insert_ne.
    + eexists n, _. rewrite lookup_insert_eq. split; [done |]. apply elem_of_app. right. by apply list_elem_of_singleton.
Qed.

Lemma linked_count m cb n x s :
  Z.b2z (already_linked (push_callback n cb m) x) - link_count x (linked m cb s)
    <= Z.b2z (already_linked m x) - link_count x s.
Proof.
  unfold linked. destruct (already_linked m cb) eqn:El.
  - assert (already_linked (push_callback n cb m) x = already_linked m x) as ->; [| lia].
    apply eq_true_iff_eq. rewrite push_linked. split; [intros [? | ->]; done | by left].
  - rewrite cons_count. destruct (Nat.eqb_spec cb x) as [<- | Hne].
    + rewrite El. destruct (already_linked (push_callback n cb m) cb); cbn; lia.
    + assert (already_linked (push_callback n cb m) x = already_linked m x) as ->; [| lia].
      apply eq_true_iff_eq. rewrite push_linked. split; [intros [? | ->]; done | by left].
Qed.

Lemma links_subset s s' :
  link_inv s -> proxy_of s' = proxy_of s -> dead s' = dead s -> links s' = links s ->
  name_to_service (inner s') = name_to_service (inner s) ->
  name_to_client_callbacks (inner s') = name_to_client_callbacks (inner s) ->
  (forall cb, already_linked (name_to_registration_callbacks (inner s')) cb = true ->
     already_linked (name_to_registration_callbacks (inner s)) cb = true) -> link_inv s'.
Proof.
  intros Hl E1 E2 E3 E4 E5 Hsub. pose proof Hl as [H1 H2 H3 _ _].
  apply (link_update s s' Hl E1 E2); rewrite ?E4, ?E5; try done; [intros cb Hcb; by apply H2, Hsub |].
  intros b _. unfold links_due, link_count. rewrite E3, E4, E5. specialize (Hsub b).
  destruct (already_linked (name_to_registration_callbacks (inner s')) b);
    [rewrite Hsub by done; cbn; lia |]. destruct (already_linked (name_to_registration_callbacks (inner s)) b); cbn; lia.
Qed.

Lemma link_unregister s name who :
  link_inv s -> link_inv (remove_registration_callback (Some name) who s).2.
Proof.
  intros Hl. unfold remove_registration_callback.
  destruct (name_to_registration_callbacks (inner s) !! name) as [l0 |] eqn:E0; [| done].
  apply (links_subset s); try done. cbn. intros cb. rewrite !already_linked_spec.
  assert (Hr : forall x, x ∈ retain_callbacks s who l0 -> x ∈ l0).
  { intros x [Hx _]%list_elem_of_In%filter_In. by apply list_elem_of_In. }
  destruct (retain_callbacks s who l0) as [| y l] eqn:Er.
  - intros (n & l1 & [_ E]%lookup_delete_Some & Hx). by exists n, l1.
  - intros (n & l1 & [[<- <-] | [_ E]]%lookup_insert_Some & Hx); [exists name, l0; by auto | by exists n, l1].
Qed.

Lemma link_obituary h s : link_inv s -> link_inv (obituary h s).
Proof.
  intros Hl. pose proof Hl as [H1 H2 H3 H4 H5]. unfold obituary.
  destruct (cache s !! h) as [e |]; [| done]. set (b := weak e).
  change (is_dead _ b) with (is_dead s b). destruct (is_dead s b) eqn:Ed; [done |].
  split; cbn; try done. intros x Hx.
  assert (Hx' : linkable s x = true /\ x <> b).
  { unfold linkable, is_dead in *. cbn in Hx. apply andb_true_iff in Hx as [Hp Hd]. apply negb_true_iff, bool_decide_eq_false in Hd.
    split; [| intros ->; apply Hd, list_elem_of_here].
    apply andb_true_iff. split; [done |]. apply negb_true_iff, bool_decide_eq_false. intros Hin. by apply Hd, elem_of_cons; right. }
  destruct Hx' as [Hlk Hne]. specialize (H5 x Hlk). unfold link_count in *. cbn.
  assert (count_occ Nat.eq_dec (List.filter (fun y => negb (Nat.eqb y b)) (links s)) x = count_occ Nat.eq_dec (links s) x) as ->; [| done].
  clear - Hne. induction (links s) as [| y l IH]; cbn; [done |]. destruct (Nat.eqb_spec y b); cbn; rewrite IH;
    destruct (Nat.eq_dec y x); congruence.
Qed.

Lemma link_meet b h d s : knows s b = false -> link_inv s -> link_inv (meet b h d s).
Proof.
  intros Hk [H1 H2 H3 H4 H5]. pose proof Hk as Hk'. unfold Hub.knows in Hk'. apply orb_false_iff in Hk' as [Hn Hp].
  assert (Hpx : forall x, as_proxy (meet b h d s) x = (Nat.eqb x b || as_proxy s x)).
  { intros x. unfold as_proxy. cbn. destruct (Nat.eqb_spec x b) as [-> | Hne]; cbn.
    - by rewrite lookup_insert_eq.
    - by rewrite lookup_insert_ne. }
  split; cbn [inner meet].
  - intros n sv E. specialize (H1 n sv E). unfold Hub.knows in *. rewrite Hpx.
    destruct (natives (binder sv)); [done |]. cbn in *. by rewrite H1, orb_true_r.
  - intros cb Hcb. by rewrite Hpx, (H2 cb Hcb), orb_true_r.
  - intros cb Hcb. by rewrite Hpx, (H3 cb Hcb), orb_true_r.
  - intros x Hx. rewrite Hpx, (H4 x Hx), orb_false_r. apply Nat.eqb_neq. intros ->. congruence.
  - intros x Hx. destruct (decide (x = b)) as [-> | Hne].
    2: { apply H5. unfold linkable in *. by rewrite Hpx, (proj2 (Nat.eqb_neq x b) Hne) in Hx. }
    assert (links_due b (inner s) = 0); [| unfold link_count; cbn; lia]. unfold links_due.
    rewrite names_none by (intros n sv E Eb; specialize (H1 n sv E); rewrite Eb in H1; congruence).
    destruct (already_linked (name_to_registration_callbacks (inner s)) b) eqn:E1; [by rewrite H2 in Hp |].
    destruct (already_linked (name_to_client_callbacks (inner s)) b) eqn:E2; [by rewrite H3 in Hp | done].
Qed.

Lemma link_add caller name b prio s :
  knows s b = true -> link_inv s -> link_inv (added caller name b prio s).
Proof.
  intros Hk Hl. pose proof Hl as [H1 H2 H3 _ _]. destruct (relinked_frame name b s) as [Ep Ed].
  apply (link_update s); [done | exact Ep | exact Ed | ..]; cbn; try done.
  - intros n sv [[<- <-] | [_ E]]%lookup_insert_Some; [done | by apply (H1 n)].
  - intros x Hx. unfold links_due. cbn. rewrite names_insert. pose proof (relinked_count name b x s Hx).
    assert (link_count x (added caller name b prio s) = link_count x (relinked name b s)) as -> by done.
    cbn. lia.
Qed.

Lemma link_effect r s s' :
  hub_reachable s -> valid_request r s -> link_inv s -> effect r s s' -> link_inv s'.
Proof.
  intros Hr Hv Hl. pose proof Hl as [H1 H2 H3 _ _].
  intros [s1 Hs | caller name b prio s1 -> _ _ _ _ Hs | name cb s1 -> _ m _ Hk Hs | name cb _
            | caller name b cb sv s1 -> _ m _ Hk Hs | caller name b sv s1 -> Hn _ Hb _ Hs
            | who rest _ Ech | h _ | b h d ->].
  - by eapply link_same.
  - eapply link_same; [exact Hs |]. by apply link_add.
  - eapply link_same; [exact Hs |]. destruct (linked_frame m cb s) as [Ep Ed].
    apply (link_update s); [done | exact Ep | exact Ed | ..]; cbn; try done.
    + intros x [Hx | ->]%push_linked; [by apply H2 |]. destruct (already_linked m cb) eqn:El; [by apply H2 |].
      specialize (Hk eq_refl). by apply andb_true_iff in Hk as [? _].
    + intros x _. unfold links_due. cbn. pose proof (linked_count m cb name x s). fold m.
      unfold link_count in *. cbn. lia.
  - by apply link_unregister.
  - eapply link_same; [exact Hs |]. destruct (linked_frame m cb s) as [Ep Ed].
    apply (link_update s); [done | exact Ep | exact Ed | ..]; cbn; try done.
    + intros x [Hx | ->]%push_linked; [by apply H3 |]. destruct (already_linked m cb) eqn:El; [by apply H3 |].
      specialize (Hk eq_refl). by apply andb_true_iff in Hk as [? _].
    + intros x _. unfold links_due. cbn. pose proof (linked_count m cb name x s). fold m.
      unfold link_count in *. cbn. lia.
  - eapply link_same; [exact Hs |]. destruct (unlink_frame b s) as [Ep Ed].
    apply (link_update s); [done | exact Ep | exact Ed | ..]; cbn; try done.
    + intros n x [_ E]%lookup_delete_Some. by apply (H1 n).
    + intros x _. unfold links_due. cbn. rewrite (names_delete x (name_to_service (inner s)) name), Hn. cbn. rewrite Hb.
      pose proof (unlink_death_count b x s). unfold link_count in *. cbn. lia.
  - rewrite (receive_noop s who rest Hr Ech). by apply (links_subset s).
  - by apply link_obituary.
  - by apply link_meet.
Qed.

Lemma link_reachable s : hub_reachable s -> link_inv s.
Proof.
  induction 1 as [| count deliver r s Hr IH Hv]; [| by eapply link_effect, serve_effect].
  by split.
Qed.

(** ** The registry as a map *)

(** The names and their binders. *)
Definition registry (s : Hub) : gmap string nat := binder <$> name_to_service (inner s).

Lemma registry_shape s s' : same_shape (inner s) (inner s') -> registry s' = registry s.
Proof.
  intros (E & _ & _). unfold registry. apply (f_equal (fmap binder)) in E. by rewrite <- !map_fmap_compose in E.
Qed.

Lemma lookup_result count name s :
  (lookup_binder count name s).1 = Ok ((fun sv => (binder sv, is_accessor sv)) <$> name_to_service (inner s) !! name).
Proof.
  unfold lookup_binder, try_get_binder. unfold bind at 1, get. cbv beta iota.
  destruct (name_to_service (inner s) !! name) as [sv |]; [| done].
  by destruct (handle_service_client_callback _ _ _ _ _ _ _) as [[c i] p].
Qed.

Lemma propagate_ok deliver p s : (forall cb, cb ∈ p -> deliver cb = Ok tt) -> (fire_pending_propagate deliver p s).1 = Ok tt.
Proof.
  revert s. induction p as [| cb p IH]; intros s Hd; cbn; [done |]. unfold bind, fire.
  rewrite (Hd cb) by apply list_elem_of_here. apply IH. intros x Hx. apply Hd. by apply elem_of_cons; right.
Qed.

Lemma finish_result count deliver name b s :
  let r := finish_add count deliver name b s in
  registry r.2 = registry s /\
  ((forall cb n x, deliver (Registration cb n x) = Ok tt) -> r.1 = Ok tt).
Proof.
  intros r. split; [apply registry_shape, (registered_same count deliver name b s) |].
  intros Hd. unfold r, finish_add, notify_registration. unfold bind at 1.
  destruct (name_to_registration_callbacks (inner s) !! name) as [cbs |]; [| done].
  destruct (handle_service_client_callback _ _ _ _ _ _ _) as [[c i] p].
  unfold bind, fire_pending, modify. apply propagate_ok.
  intros cb (x & -> & _)%list_elem_of_fmap. apply Hd.
Qed.

Lemma registry_added caller name b prio s : registry (added caller name b prio s) = <[name := b]> (registry s).
Proof. unfold registry, added. cbn. by rewrite fmap_insert. Qed.

Lemma unregister_result count caller name b s :
  let r := tryUnregisterService count caller name b s in
  (exists e, r.1 = Err e /\ registry r.2 = registry s) \/
  (r.1 = Ok tt /\ registry s !! name = Some b /\ registry r.2 = delete name (registry s)).
Proof.
  intros r. pattern r. set (P := fun _ : outcome Status unit * Hub => _). unfold r, tryUnregisterService.
  unfold bind at 1, get. cbv beta iota.
  destruct (name_to_service (inner s) !! name) as [sv |] eqn:Es; [| by (left; eexists)].
  destruct (Z.eqb_spec (pid (context sv)) (pid caller)) as [Hpid |]; cbn [negb]; [| by (left; eexists)].
  destruct (Nat.eqb_spec (binder sv) b) as [Hb |]; cbn [negb]; [| by (left; eexists)].
  destruct (guarantee_client sv) eqn:Eg; [by (left; eexists) |].
  pose proof (handle_shape (as_proxy s) count KNOWN_CLIENTS_ON_DEMAND name false (inner s) []) as H.
  destruct (handle_service_client_callback _ _ _ _ _ _ _) as [[c i] p]. cbn [fst snd] in H. destruct c.
  - left. eexists. split; [done |]. apply registry_shape.
    eapply same_shape_trans; [exact H |]. by apply update_shape.
  - right. split_and!; [done | unfold registry; rewrite lookup_fmap, Es; cbn; by rewrite Hb |].
    unfold bind, put, fire_pending, modify, registry. cbn. rewrite unlink_inner, fmap_delete. cbn. f_equal.
    by apply (registry_shape s (set_inner i s)).
Qed.

(** The death of a binder, and its message to the receiver. *)
Definition is_death (r : Request) : bool :=
  match r with ReceiveDeath | Obituary _ => true | _ => false end.

Definition changes_registry (r : Request) : bool :=
  match r with AddService _ _ _ _ | TryUnregisterService _ _ _ => true | _ => false end.

Lemma registry_other count deliver r s :
  is_death r = false -> changes_registry r = false -> registry (serve count deliver r s) = registry s.
Proof.
  intros Hd Hc. destruct (serve_effect count deliver r s) as [s1 [Hi _] | ? ? ? ? ? Er | ? ? s1 Er ? ? ? ? [Hi _]
    | n cb Er | ? ? ? ? ? s1 Er ? ? ? ? [Hi _] | ? ? ? ? ? Er | who rest Er Ech | h Er | ? ? ? Er];
    try (by subst r); try (by apply registry_shape); try (by rewrite (registry_shape _ _ Hi)).
  unfold remove_registration_callback. by case_match.
Qed.

(** The messages of the death receiver find no entry, so they leave the map too. *)
Lemma registry_kept count deliver r s :
  hub_reachable s -> changes_registry r = false -> registry (serve count deliver r s) = registry s.
Proof.
  intros Hr Hc. destruct (is_death r) eqn:Hd; [| by apply registry_other].
  destruct (serve_effect count deliver r s) as [s1 [Hi _] | ? ? ? ? ? Er | ? ? s1 Er | n cb Er | ? ? ? ? ? s1 Er | ? ? ? ? ? Er
    | who rest Er Ech | h Er | ? ? ? Er]; try (by subst r); [by apply registry_shape | by rewrite (receive_noop s who rest Hr Ech) |].
  unfold obituary. by repeat case_match.
Qed.

(** C7: The service manager implements a map from names to binders. A lookup returns what the
    map has, by all four calls, and changes nothing; a registration that
    returns [Ok] has put its binder in, one that fails has changed nothing unless a registration callback
    failed; an unregistration that returns [Ok] has removed the binder it named, one
    that fails has not; every other call of a client and the poller leave the map. The death of a service is
    no call and is not part of this ([death_receiver_finds_nothing]). *)
Theorem registry_refined count deliver s :
  (forall caller name b prio,
     let r := addService descriptor_of allow count deliver caller name b prio s in
     (r.1 = Ok tt -> registry r.2 = <[name := b]> (registry s)) /\
     (r.1 <> Ok tt -> (forall cb n x, deliver (Registration cb n x) = Ok tt) -> r.2 = s)) /\
  (forall name,
     let b := registry s !! name in
     (getService count name s).1 = Ok b /\ (checkService count name s).1 = Ok b /\
     (exists u, (getService2 count name s).1 = Ok u /\ (checkService2 count name s).1 = Ok u /\
        match u with Accessor x => x = b /\ is_Some b | ServiceWithMetadata x lazy => x = b /\ lazy = false end)) /\
  (forall caller name b,
     let r := tryUnregisterService count caller name b s in
     (r.1 = Ok tt -> registry s !! name = Some b /\ registry r.2 = delete name (registry s)) /\
     (r.1 <> Ok tt -> registry r.2 = registry s)) /\
  (forall r, is_death r = false -> changes_registry r = false ->
     registry (serve count deliver r s) = registry s).
Proof.
  split_and!.
  - intros caller name b prio r. destruct (add_cases count deliver caller name b prio s) as [[e E] | (E & _)];
      fold r in E; rewrite E; [done |].
    destruct (finish_result count deliver name b (added caller name b prio s)) as [F1 F2].
    split; [intros _; by rewrite F1, registry_added | intros Hne Hd; by destruct Hne; apply F2].
  - intros name b. pose proof (lookup_result count name s) as H.
    unfold getService, checkService, getService2, checkService2, bind.
    destruct (lookup_binder count name s) as [o s1]. cbn in H. subst o. unfold b, registry. rewrite lookup_fmap.
    destruct (name_to_service (inner s) !! name) as [sv |]; cbn; (split_and!; [done | done |]); [| by eexists].
    destruct (is_accessor sv); by eexists.
  - intros caller name b r. destruct (unregister_result count caller name b s) as [(e & E & H) | (E & H1 & H2)];
      fold r in E; rewrite E; split; done.
  - intros r. apply registry_other.
Qed.

(** A list of callbacks of a name. *)
Definition callback_list (l : list nat) : Prop :=
  l <> [] /\ NoDup l /\ Z.of_nat (length l) <= MAX_CALLBACKS_PER_NAME.

(** The tables of the service manager are bounded, whatever is requested: at most 10000
    names in each; all names of services and registrations are valid; a list
    of callbacks has at most 256 of them, is not empty and has none twice. *)
Theorem tables_bounded s : hub_reachable s ->
  let i := inner s in
  Z.of_nat (size (name_to_service i)) <= 10000 /\
  Z.of_nat (size (name_to_registration_callbacks i)) <= 10000 /\
  Z.of_nat (size (name_to_client_callbacks i)) <= 10000 /\
  (forall n, is_Some (name_to_service i !! n) \/ is_Some (name_to_registration_callbacks i !! n) ->
     is_valid_service_name n = true) /\
  (forall n l, name_to_registration_callbacks i !! n = Some l \/ name_to_client_callbacks i !! n = Some l ->
     callback_list l).
Proof.
  intros Hr i. destruct (caps_reachable s Hr) as [H1 H2 H3 H4 H5 H6]. split_and!; try done.
  - intros n [[sv E] | [l E]]; [by apply (H2 n sv) | by apply (H4 n l)].
  - intros n l [E | E]; [by apply (H4 n l) | by apply (H6 n l)].
Qed.

(** Nothing but the channel differs. *)
Definition same_tables (s s' : Hub) : Prop := set_channel [] s' = set_channel [] s.

(** The death receiver never finds what died. In every state the
    manager can reach, handling a message of the channel changes no table: the message
    has the handle and the generation of the entry that was removed before it was sent, and the
    weak references it is compared with are made afterwards, without that entry. *)
Theorem death_receiver_finds_nothing count deliver s who rest :
  hub_reachable s -> channel s = who :: rest ->
  same_tables s (serve count deliver ReceiveDeath s) /\ channel (serve count deliver ReceiveDeath s) = rest.
Proof. intros Hr Ec. cbn [Hub.serve]. rewrite Ec. by rewrite receive_noop. Qed.

(** Every proxy in the tables that has not died is linked: it has at least a death link
    per name it is registered under, and one for each kind of
    callback it is. *)
Theorem live_binders_linked s b :
  hub_reachable s -> as_proxy s b = true -> is_dead s b = false ->
  names_of b (name_to_service (inner s))
    + Z.b2z (already_linked (name_to_registration_callbacks (inner s)) b)
    + Z.b2z (already_linked (name_to_client_callbacks (inner s)) b) <= link_count b s.
Proof.
  intros Hr Hp Hd. apply (li_links s (link_reachable s Hr)). unfold linkable. by rewrite Hp, Hd.
Qed.

Lemma shape_entry i i' n sv :
  same_shape i i' -> name_to_service i !! n = Some sv ->
  exists sv', name_to_service i' !! n = Some sv' /\ core sv' = core sv.
Proof. intros Hs%same_shape_sym. by apply shape_lookup. Qed.

(** What can become of an entry. *)
Definition entry_fate (r : Request) (n : string) (sv : Service) (after : option Service) : Prop :=
  match after with
  | Some sv' =>
      core sv' = core sv \/
      (exists caller b prio, r = AddService caller n b prio /\ context sv' = caller /\ binder sv' = b /\
         (b = binder sv \/ allow = true \/ uid caller = uid (context sv)))
  | None =>
      exists caller, r = TryUnregisterService caller n (binder sv) /\ pid caller = pid (context sv) /\
        guarantee_client sv = false
  end.

Lemma fate_same r n sv s s' :
  same_shape (inner s) (inner s') -> name_to_service (inner s) !! n = Some sv ->
  entry_fate r n sv (name_to_service (inner s') !! n).
Proof. intros Hi En. destruct (shape_entry _ _ _ _ Hi En) as (sv' & -> & E). by left. Qed.

Lemma not_rejected caller n b s sv :
  rejected caller n b s = false -> name_to_service (inner s) !! n = Some sv ->
  b = binder sv \/ allow = true \/ uid caller = uid (context sv).
Proof.
  unfold rejected, is_existing, is_cross_uid_overwrite_rejected. intros Hr En. rewrite En in Hr.
  destruct allow; [by right; left |]. cbn in Hr.
  destruct (Nat.eqb_spec (binder sv) b); [by left |]. cbn in Hr.
  right. right. destruct (Z.eqb_spec (uid (context sv)) (uid caller)); done.
Qed.

(** What the calls of clients and the poller make of a registered service: it stays as it is but for the flags
    of its clients; or a registration under its name replaces it, which without the
    option needs the same binder or the user id of the entry; or its own process
    unregisters that binder while no client is guaranteed. *)
Theorem service_entry_guarded count deliver r s n sv :
  is_death r = false -> name_to_service (inner s) !! n = Some sv ->
  entry_fate r n sv (name_to_service (inner (serve count deliver r s)) !! n).
Proof.
  intros Hd En.
  destruct (serve_effect count deliver r s) as [s1 [Hi _] | caller name b prio s1 -> _ _ Hj _ [Hi _] | name cb s1 _ _ m _ _ [Hi _]
    | name cb _ | caller name b cb x s1 _ _ m _ _ [Hi _] | caller name b x s1 -> Hn Hpid Hb Hg [Hi _] | who rest -> Ech | h -> | b h d _];
    try done.
  - by apply (fate_same r n sv s s1).
  - destruct (decide (name = n)) as [<- | Hne].
    + destruct (shape_entry _ _ name _ Hi (lookup_insert_eq _ _ _)) as (sv' & -> & Ec). right.
      exists caller, b, prio. split_and!; [done | exact (f_equal context Ec) | exact (f_equal binder Ec) |].
      by eapply not_rejected.
    + eapply (fate_same _ n sv (added caller name b prio s) s1 Hi). cbn. by rewrite lookup_insert_ne.
  - by eapply (fate_same _ n sv _ s1 Hi).
  - unfold remove_registration_callback. case_match; cbn; rewrite En; by left.
  - by eapply (fate_same _ n sv _ s1 Hi).
  - destruct (decide (name = n)) as [<- | Hne].
    + assert (name_to_service (inner s1) !! name = None) as ->.
      { destruct (name_to_service (inner s1) !! name) as [y |] eqn:Ey; [| done].
        destruct (shape_lookup _ _ _ _ Hi Ey) as (z & Ez & _). cbn in Ez. by rewrite lookup_delete_eq in Ez. }
      exists caller. assert (x = sv) as -> by congruence. rewrite Hb. done.
    + eapply (fate_same _ n sv _ s1 Hi). cbn. by rewrite lookup_delete_ne.
  - cbn. rewrite En. by left.
Qed.
End Requests.

(** ** The rule of client callbacks *)

(** Whether the service has clients afterwards and what its callbacks are told, in order: from
    whether it had any, was guaranteed one, the kernel reports one, and whether
    the poller asks. *)
Definition client_rule (had guaranteed reported interval : bool) : bool * list bool :=
  match guaranteed, reported, interval with
  | false, true, _ => (true, if had then [] else [true])
  | false, false, true => (false, if had then [false] else [])
  | false, false, false => (had, [])
  | true, true, _ => (true, [])
  | true, false, false => (true, if had then [] else [true])
  | true, false, true => (false, if had then [false] else [true; false])
  end.

Definition tell (sv : Service) (cbs : list nat) (v : bool) : list PendingCallback :=
  (fun cb => Clients cb (binder sv) v) <$> cbs.

(** The tables with [sv] under the name. *)
Definition with_service (n : string) (sv : Service) (i : Inner) : Inner :=
  set_services (<[n := sv]> (name_to_service i)) i.

Lemma with_service_id n sv i : name_to_service i !! n = Some sv -> with_service n sv i = i.
Proof. intros En. unfold with_service. rewrite insert_id by done. by destruct i. Qed.

Lemma with_service_lookup n sv i : name_to_service (with_service n sv i) !! n = Some sv.
Proof. apply lookup_insert_eq. Qed.

Lemma with_service_update n f sv i : update_service n f (with_service n sv i) = with_service n (f sv) i.
Proof.
  unfold update_service, with_service, set_services. cbn. f_equal. apply map_eq. intros x.
  destruct (decide (n = x)) as [<- | Hne].
  - by rewrite lookup_alter_eq, !lookup_insert_eq.
  - by rewrite lookup_alter_ne, !lookup_insert_ne.
Qed.

Lemma with_service_send n v sv i p cbs :
  name_to_client_callbacks i !! n = Some cbs ->
  send_client_callback_notification n v (with_service n sv i) p =
    if eqb (has_clients sv) v then (with_service n sv i, p)
    else (with_service n (with_has_clients v sv) i, p ++ tell sv cbs v).
Proof.
  intros Ec. unfold send_client_callback_notification. rewrite with_service_lookup. cbn. rewrite Ec.
  destruct (eqb _ v); [done |]. by rewrite with_service_update.
Qed.


(** * Runs *)

Definition no_descriptor (b : nat) : string := EmptyString.
(** The manager itself is binder 0; the option is off; callbacks succeed. *)
Definition own (b : nat) : bool := Nat.eqb b 0.
Definition delivered (cb : PendingCallback) : outcome Status unit := Ok tt.

Section Run.
Context (count : nat -> option Z).

Fixpoint after (rs : list Request) (s : Hub) : Hub :=
  match rs with [] => s | r :: rs => after rs (serve no_descriptor false count delivered r s) end.
Fixpoint valid_run (rs : list Request) (s : Hub) : Prop :=
  match rs with
  | [] => True
  | r :: rs => valid_request own r s /\ valid_run rs (serve no_descriptor false count delivered r s)
  end.

Lemma after_reachable rs s :
  hub_reachable no_descriptor false own s -> valid_run rs s -> hub_reachable no_descriptor false own (after rs s).
Proof.
  revert s. induction rs as [| r rs IH]; intros s Hr Hv; [done |]. destruct Hv as [Hv Hvs].
  apply IH; [by apply hub_serve | done].
Qed.
End Run.

Ltac run_valid := repeat split; vm_compute; reflexivity.

Definition app1 : CallingContext := mkContext 100 1000.
Definition app2 : CallingContext := mkContext 200 2000.
Definition counts (n : Z) (b : nat) : option Z := Some n.

(** Binder 1 is registered as a service by the first application; binder 2 is the second's. *)
Definition setup : list Request :=
  [Meet 1 11 "IFoo"; Meet 2 12 "IFoo"; AddService app1 "svc" 1 0].
Definition registered : Hub := after (counts 1) setup hub_new.

Lemma registered_reachable : hub_reachable no_descriptor false own registered.
Proof. apply after_reachable; [apply hub_start | run_valid]. Qed.

Lemma registry_refined_witness :
  (getService (counts 1) "svc" registered).1 = Ok (Some 1%nat) /\
  registry (serve no_descriptor false (counts 1) delivered (RegisterForNotifications "svc" 2) registered)
    = registry registered.
Proof.
  destruct (registry_refined no_descriptor false (counts 1) delivered registered) as (_ & H2 & _ & H4).
  split; [rewrite (proj1 (H2 "svc"%string)); vm_compute; reflexivity |].
  by apply H4.
Defined.

Lemma tables_bounded_witness :
  let s := serve no_descriptor false (counts 1) delivered (RegisterForNotifications "svc" 2) registered in
  name_to_registration_callbacks (inner s) !! "svc"%string = Some [2%nat] /\ NoDup [2%nat].
Proof.
  intros s.
  assert (Hr : hub_reachable no_descriptor false own s)
    by (apply hub_serve; [apply registered_reachable | vm_compute; reflexivity]).
  assert (E : name_to_registration_callbacks (inner s) !! "svc"%string = Some [2%nat]) by (vm_compute; reflexivity).
  split; [exact E |]. destruct (tables_bounded no_descriptor false own s Hr) as (_ & _ & _ & _ & H).
  apply (H "svc"%string [2%nat] (or_introl E)).
Defined.

(** The first application dies. *)
Definition bereaved : Hub := after (counts 1) [Obituary 11] registered.

(** The message is handled, the service is dead and stays; another user cannot take the name. *)
Lemma death_receiver_finds_nothing_witness :
  channel bereaved = [WProxy 11 0] /\ is_dead bereaved 1 = true /\
  let s := serve no_descriptor false (counts 1) delivered ReceiveDeath bereaved in
  same_tables bereaved s /\ registry s !! "svc"%string = Some 1%nat /\
  (addService no_descriptor false (counts 1) delivered app2 "svc" 2 0 s).1 = Err (status_of_exception ExSecurity).
Proof.
  assert (Hr : hub_reachable no_descriptor false own bereaved)
    by (apply after_reachable; [apply registered_reachable | run_valid]).
  assert (Ec : channel bereaved = [WProxy 11 0]) by (vm_compute; reflexivity).
  split; [exact Ec |]. split; [vm_compute; reflexivity |]. cbv zeta.
  split; [apply (death_receiver_finds_nothing no_descriptor false own (counts 1) delivered bereaved (WProxy 11 0) [] Hr Ec) |].
  split; vm_compute; reflexivity.
Defined.

Lemma live_binders_linked_witness : names_of 1 (name_to_service (inner registered)) = 1 /\ 1 <= link_count 1 registered.
Proof.
  assert (En : names_of 1 (name_to_service (inner registered)) = 1) by (vm_compute; reflexivity).
  split; [exact En |].
  pose proof (live_binders_linked no_descriptor false own registered 1 registered_reachable
                ltac:(vm_compute; reflexivity) ltac:(vm_compute; reflexivity)) as H.
  eapply Z.le_trans; [| exact H]. vm_compute. discriminate.
Defined.

Lemma service_entry_guarded_witness :
  let s := serve no_descriptor false (counts 1) delivered (AddService app2 "svc" 2 0) registered in
  exists sv, name_to_service (inner registered) !! "svc"%string = Some sv /\
    entry_fate false (AddService app2 "svc" 2 0) "svc" sv (name_to_service (inner s) !! "svc"%string) /\
    registry s !! "svc"%string = Some 1%nat.
Proof.
  exists (mkService 1 0 false false app1 false). split; [vm_compute; reflexivity |]. split.
  - apply (service_entry_guarded no_descriptor false); [reflexivity | vm_compute; reflexivity].
  - vm_compute. reflexivity.
Defined.


(** The protection of a name against other users can be passed by. The service of one user is registered; a
    registration by a second user is refused; but the second user may register the binder of the service itself,
    which it gets by a lookup, and thereby becomes the owner of the entry, after
    which the registration that was refused is accepted. *)
Theorem overwrite_protection_bypassed : exists s,
  hub_reachable no_descriptor false own s /\
  (uid ∘ context <$> name_to_service (inner s) !! "svc"%string) = Some 1000 /\ registry s !! "svc"%string = Some 1%nat /\
  (addService no_descriptor false (counts 3) delivered app2 "svc" 2 0 s).1 = Err (status_of_exception ExSecurity) /\
  (getService (counts 3) "svc" s).1 = Ok (Some 1%nat) /\
  let s1 := (addService no_descriptor false (counts 3) delivered app2 "svc" 1 0 (getService (counts 3) "svc" s).2).2 in
  let r := addService no_descriptor false (counts 3) delivered app2 "svc" 2 0 s1 in
  r.1 = Ok tt /\ registry r.2 !! "svc"%string = Some 2%nat.
Proof. exists registered. split; [apply registered_reachable |]. cbv zeta; split_and!; vm_compute; reflexivity. Qed.

(** A service that has clients may never be told. Its client callback is registered after a
    lookup, which guaranteed a client, and while the kernel reports one: the manager notes that there are clients
    and calls no callback; nor do the poller and later lookups while the clients stay. *)
Theorem client_callback_not_told : exists s,
  hub_reachable no_descriptor false own s /\
  name_to_client_callbacks (inner s) !! "svc"%string = Some [2%nat] /\
  (has_clients <$> name_to_service (inner s) !! "svc"%string) = Some true /\ fired s = [] /\
  fired (after (counts 3) [Poll ["svc"%string]; GetService "svc"; Poll ["svc"%string]] s) = [].
Proof.
  exists (after (counts 3) [GetService "svc"; RegisterClientCallback app1 "svc" 1 2] registered).
  split; [apply after_reachable; [apply registered_reachable | run_valid] |].
  split_and!; vm_compute; reflexivity.
Qed.

(** A callback that is unregistered stays linked, so that registering it again links it
    once more. *)
Lemma unregistered_callback_linked : exists s,
  hub_reachable no_descriptor false own s /\ link_count 2 s = 2 /\
  name_to_registration_callbacks (inner s) !! "svc"%string = Some [2%nat].
Proof.
  exists (after (counts 1) [RegisterForNotifications "svc" 2; UnregisterForNotifications "svc" 2;
                            RegisterForNotifications "svc" 2] registered).
  split; [apply after_reachable; [apply registered_reachable | run_valid] |].
  split; vm_compute; reflexivity.
Qed.

(** Client callbacks stay when the service is unregistered. *)
Lemma client_callbacks_outlive_service : exists s,
  hub_reachable no_descriptor false own s /\ registry s !! "svc"%string = None /\
  name_to_client_callbacks (inner s) !! "svc"%string = Some [2%nat].
Proof.
  exists (after (counts 1) [RegisterClientCallback app1 "svc" 1 2; TryUnregisterService app1 "svc" 1] registered).
  split; [apply after_reachable; [apply registered_reachable | run_valid] |].
  split; vm_compute; reflexivity.
Qed.
