(* ===== verification/Accessors.v ===== *)
(** Accessors: services that a process reaches over RPC (src/rsbinder/src/hub/accessor_register.rs: the socket
    addresses, [LocalAccessor] and the providers of the process; src/rsbinder/src/hub/accessor_16.rs:
    [resolve_accessor]; src/rsbinder/src/hub/servicemanager_16.rs: [dispatch_typed_service]).

    The registry of providers is one list under a lock, so a change is one step; a lookup copies the providers of a name under the
    lock and calls them after it, one step per call, and anything can happen between. A provider is named by its [Arc]: its
    closure goes with the last reference, which an entry or a lookup has. Handles have weak references only.
    What the closures, the connections and the remote accessor answer are arguments. Messages are left out. *)

From Stdlib Require Import ZArith Lia Strings.Byte.
From stdpp Require Import base gmap strings list sets.
From S2P Require Import Prelude Errors Status Hub.

(** * Socket addresses *)

Inductive AccessorSockAddr : Type :=
| Unix (path : string)
| UnixAbstract (name : list byte)
| Vsock (cid port : Z)
| Inet (ip port : Z).

Definition family_str (a : AccessorSockAddr) : string :=
  match a with
  | Unix _ | UnixAbstract _ => "AF_UNIX"
  | Vsock _ _ => "AF_VSOCK"
  | Inet _ _ => "AF_INET"
  end.

Inductive AccessorConnectError : Type :=
| UnsupportedFamily
| CreateSocketFailed (e : io_error)
| ConnectFailedEacces
| ConnectFailed (e : io_error).

(** What the crate was built for. *)
Record Build : Type := mkBuild {
  linux : bool;
  rpc_vsock : bool;
  rpc_tcp_debug : bool
}.

Section Connect.
(** [connect] of the standard library and the vsock crate; whether a name can be an abstract address. *)
Context (build : Build) (connect : AccessorSockAddr -> Z + io_error) (from_abstract_name : list byte -> option io_error).

Definition connect_result (r : Z + io_error) : outcome AccessorConnectError Z :=
  match r with
  | inl fd => Ok fd
  | inr e => if decide (kind e = PermissionDeniedKind) then Err ConnectFailedEacces else Err (ConnectFailed e)
  end.

Definition connect_unix_owned_fd (path : string) : outcome AccessorConnectError Z := connect_result (connect (Unix path)).
Definition connect_unix_abstract_owned_fd (name : list byte) : outcome AccessorConnectError Z :=
  if linux build then
    match from_abstract_name name with
    | Some e => Err (ConnectFailed e)
    | None => connect_result (connect (UnixAbstract name))
    end
  else Err UnsupportedFamily.
Definition connect_vsock_owned_fd (cid port : Z) : outcome AccessorConnectError Z :=
  if rpc_vsock build then connect_result (connect (Vsock cid port)) else Err UnsupportedFamily.
Definition connect_inet_owned_fd (ip port : Z) : outcome AccessorConnectError Z :=
  if rpc_tcp_debug build then connect_result (connect (Inet ip port)) else Err UnsupportedFamily.

Definition connect_owned_fd (a : AccessorSockAddr) : outcome AccessorConnectError Z :=
  match a with
  | Unix path => connect_unix_owned_fd path
  | UnixAbstract name => connect_unix_abstract_owned_fd name
  | Vsock cid port => connect_vsock_owned_fd cid port
  | Inet ip port => connect_inet_owned_fd ip port
  end.

(** ** [LocalAccessor] *)

Definition ERROR_CONNECTION_INFO_NOT_FOUND : Z := 0.
Definition ERROR_FAILED_TO_CREATE_SOCKET : Z := 1.
Definition ERROR_FAILED_TO_CONNECT_TO_SOCKET : Z := 2.
Definition ERROR_FAILED_TO_CONNECT_EACCES : Z := 3.
Definition ERROR_UNSUPPORTED_SOCKET_FAMILY : Z := 4.

Definition accessor_error_code_for (err : AccessorConnectError) : Z * string :=
  match err with
  | UnsupportedFamily => (ERROR_UNSUPPORTED_SOCKET_FAMILY, "ERROR_UNSUPPORTED_SOCKET_FAMILY"%string)
  | CreateSocketFailed _ => (ERROR_FAILED_TO_CREATE_SOCKET, "ERROR_FAILED_TO_CREATE_SOCKET"%string)
  | ConnectFailedEacces => (ERROR_FAILED_TO_CONNECT_EACCES, "ERROR_FAILED_TO_CONNECT_EACCES"%string)
  | ConnectFailed _ => (ERROR_FAILED_TO_CONNECT_TO_SOCKET, "ERROR_FAILED_TO_CONNECT_TO_SOCKET"%string)
  end.

Definition accessor_error_name (code : Z) : string :=
  if code =? ERROR_CONNECTION_INFO_NOT_FOUND then "ERROR_CONNECTION_INFO_NOT_FOUND"
  else if code =? ERROR_FAILED_TO_CREATE_SOCKET then "ERROR_FAILED_TO_CREATE_SOCKET"
  else if code =? ERROR_FAILED_TO_CONNECT_TO_SOCKET then "ERROR_FAILED_TO_CONNECT_TO_SOCKET"
  else if code =? ERROR_FAILED_TO_CONNECT_EACCES then "ERROR_FAILED_TO_CONNECT_EACCES"
  else if code =? ERROR_UNSUPPORTED_SOCKET_FAMILY then "ERROR_UNSUPPORTED_SOCKET_FAMILY"
  else "unknown".

Record LocalAccessor : Type := mkAccessor {
  instance : string;
  addr_provider : string -> outcome StatusCode AccessorSockAddr
}.

Definition local_addConnection (self : LocalAccessor) : outcome Status Z :=
  match addr_provider self (instance self) with
  | Err _ => Err (new_service_specific_error ERROR_CONNECTION_INFO_NOT_FOUND None)
  | Panic => Panic
  | Ok addr =>
      match connect_owned_fd addr with
      | Ok fd => Ok fd
      | Err err => Err (new_service_specific_error (fst (accessor_error_code_for err)) None)
      | Panic => Panic
      end
  end.

Definition local_getInstanceName (self : LocalAccessor) : outcome Status string := Ok (instance self).
End Connect.

(** * Resolving an accessor *)

Record ServiceMetadata : Type := mkMetadata { service : option nat; isLazyService : bool }.

(** What an accessor binder answers and what becomes of its connection: the cast of a binder to [IAccessor], its two
    methods, the session over the descriptor, the root of the session, and the [AccessorRoot] that keeps the session. *)
Class Bridge := {
  Session : Type;
  try_from : nat -> outcome StatusCode unit;
  getInstanceName : nat -> outcome Status string;
  addConnection : nat -> outcome Status Z;
  from_preconnected_fd : Z -> Z -> outcome StatusCode Session;
  get_root : Session -> outcome StatusCode nat;
  into_sibinder : nat -> Session -> outcome StatusCode nat
}.

(** An error of a step is logged, and the answer is [None]. *)
Definition ok_of {E A} (o : outcome E A) : option A := match o with Ok a => Some a | _ => None end.

Definition resolve_accessor `{Bridge} (name : string) (accessor : nat) : option ServiceMetadata :=
  _ ← ok_of (try_from accessor);
  reported ← ok_of (getInstanceName accessor);
  if negb (bool_decide (reported = name)) then None
  else
    fd ← ok_of (addConnection accessor);
    session ← ok_of (from_preconnected_fd fd 2);
    root ← ok_of (get_root session);
    wrapped ← ok_of (into_sibinder root session);
    Some (mkMetadata (Some wrapped) false).

(** * The providers of the process *)

Record Entry : Type := mkEntry { instances : gset string; provider : nat }.

(** A lookup that has its copies and has not come back. *)
Record Lookup : Type := mkLookup { wanted : string; snapshot : list nat }.

(** [handles] are the [AccessorProviderHandle]s that exist, [destroyed] the closures that are gone, [called] the calls of closures. *)
Record Process : Type := mkProcess {
  providers : list Entry;
  handles : list nat;
  lookups : gmap nat Lookup;
  next_provider : nat;
  destroyed : list nat;
  called : list (nat * string)
}.

Definition process_new : Process := mkProcess [] [] ∅ 0 [] [].

Definition set_providers (l : list Entry) (s : Process) : Process :=
  mkProcess l (handles s) (lookups s) (next_provider s) (destroyed s) (called s).
Definition set_handles (l : list nat) (s : Process) : Process :=
  mkProcess (providers s) l (lookups s) (next_provider s) (destroyed s) (called s).
Definition set_lookups (m : gmap nat Lookup) (s : Process) : Process :=
  mkProcess (providers s) (handles s) m (next_provider s) (destroyed s) (called s).

Definition claims (name : string) (e : Entry) : bool := bool_decide (name ∈ instances e).
Definition holds (p : nat) (e : Entry) : bool := Nat.eqb (provider e) p.

(** An entry or a lookup has a strong reference. *)
Definition alive (p : nat) (s : Process) : bool :=
  existsb (holds p) (providers s) || existsb (fun x => existsb (Nat.eqb p) (snapshot x.2)) (map_to_list (lookups s)).

(** [Weak::upgrade]. *)
Definition upgrade (p : nat) (s : Process) : option nat := if alive p s then Some p else None.

(** A reference was dropped: the closure goes with the last. *)
Definition drop_arc (p : nat) (s : Process) : Process :=
  if alive p s then s
  else mkProcess (providers s) (handles s) (lookups s) (next_provider s) (destroyed s ++ [p]) (called s).

Definition is_instance_provided_locked (entries : list Entry) (name : string) : bool := existsb (claims name) entries.

Definition add_accessor_provider (names : gset string) : M Process StatusCode nat := fun s =>
  if bool_decide (names = ∅) then (Err StBadValue, s)
  else if existsb (is_instance_provided_locked (providers s)) (elements names) then (Err StAlreadyExists, s)
  else
    let p := next_provider s in
    (Ok p, mkProcess (providers s ++ [mkEntry names p]) (p :: handles s) (lookups s) (S p) (destroyed s) (called s)).

Definition retain_others (p : nat) (s : Process) : Process :=
  set_providers (List.filter (fun e => negb (holds p e)) (providers s)) s.

(** [Drop for AccessorProviderHandle]; a handle is not cloned. *)
Definition drop_handle (h : nat) (s : Process) : Process :=
  let s := set_handles (List.filter (fun x => negb (Nat.eqb x h)) (handles s)) s in
  match upgrade h s with
  | None => s
  | Some target => drop_arc target (retain_others target s)
  end.

(** The handle is consumed: after the body its [target] is dropped, then the handle. *)
Definition remove_accessor_provider (h : nat) : M Process StatusCode unit := fun s =>
  match upgrade h s with
  | None => (Err StBadValue, drop_handle h s)
  | Some target =>
      let s1 := retain_others target s in
      let r := if (length (providers s1) =? length (providers s))%nat then Err StNameNotFound else Ok tt in
      (r, drop_handle h (drop_arc target s1))
  end.

(** [lookup_accessor_provider] up to the release of the lock. *)
Definition begin_lookup (id : nat) (name : string) (s : Process) : Process :=
  set_lookups (<[id := mkLookup name (provider <$> List.filter (claims name) (providers s))]> (lookups s)) s.

Fixpoint drop_arcs (ps : list nat) (s : Process) : Process :=
  match ps with [] => s | p :: ps => drop_arcs ps (drop_arc p s) end.

(** One pass of its loop; [answer] is what the closure returns. The lookup is over with [Some]. *)
Definition call_next (id : nat) (answer : option nat) (s : Process) : option (option nat) * Process :=
  match lookups s !! id with
  | None => (None, s)
  | Some l =>
      match snapshot l with
      | [] => (Some None, set_lookups (delete id (lookups s)) s)
      | p :: rest =>
          let s := mkProcess (providers s) (handles s) (lookups s) (next_provider s) (destroyed s) (called s ++ [(p, wanted l)]) in
          match answer with
          | Some b => (Some (Some b), drop_arcs (p :: rest) (set_lookups (delete id (lookups s)) s))
          | None => (None, drop_arc p (set_lookups (<[id := mkLookup (wanted l) rest]> (lookups s)) s))
          end
      end
  end.

(** The whole lookup when nothing happens meanwhile; [provide] are the closures. *)
Fixpoint first_answer (provide : nat -> string -> option nat) (name : string) (ps : list nat) : option nat :=
  match ps with
  | [] => None
  | p :: ps => match provide p name with Some b => Some b | None => first_answer provide name ps end
  end.

Definition lookup_accessor_provider (provide : nat -> string -> option nat) (name : string) (s : Process) : option nat :=
  first_answer provide name (provider <$> List.filter (claims name) (providers s)).

Definition resolve_via_process_local `{Bridge} (provide : nat -> string -> option nat) (name : string) (s : Process)
  : option ServiceMetadata :=
  accessor ← lookup_accessor_provider provide name s; resolve_accessor name accessor.

(** * The answer of the service manager *)

Section Dispatch.
Context `{Bridge} (rpc : bool) (local : string -> option ServiceMetadata).

Definition resolve_accessor_arm (name : string) (accessor : option nat) : option ServiceMetadata :=
  if rpc then a ← accessor; resolve_accessor name a else None.

(** [local] is [resolve_via_process_local] at the time of the call. *)
Definition try_process_local_fallback (name : string) : option ServiceMetadata := if rpc then local name else None.

Definition or_else {A} (o o' : option A) : option A := match o with Some _ => o | None => o' end.

Definition dispatch_typed_service (name : string) (answer : ServiceUnion) : option ServiceMetadata :=
  match answer with
  | ServiceWithMetadata service lazy =>
      match service with
      | Some _ => Some (mkMetadata service lazy)
      | None => or_else (try_process_local_fallback name) (Some (mkMetadata service lazy))
      end
  | Accessor accessor => or_else (resolve_accessor_arm name accessor) (try_process_local_fallback name)
  end.
End Dispatch.

(** * Steps of the process *)

Inductive process_step : Process -> Process -> Prop :=
| ps_add names s : process_step s (add_accessor_provider names s).2
| ps_remove h s : h ∈ handles s -> process_step s (remove_accessor_provider h s).2
| ps_drop h s : h ∈ handles s -> process_step s (drop_handle h s)
| ps_lookup id name s : lookups s !! id = None -> process_step s (begin_lookup id name s)
| ps_call id answer s : process_step s (call_next id answer s).2.

Inductive process_reachable : Process -> Prop :=
| pr_start : process_reachable process_new
| pr_step s s' : process_reachable s -> process_step s s' -> process_reachable s'.

(** * Lemmas *)

(** Who has a strong reference to [p]. *)
Definition held (p : nat) (s : Process) : Prop :=
  (exists e, e ∈ providers s /\ provider e = p) \/ (exists id l, lookups s !! id = Some l /\ p ∈ snapshot l).

Lemma alive_spec p s : alive p s = true <-> held p s.
Proof.
  unfold alive, held. rewrite orb_true_iff, !existsb_exists. f_equiv.
  - split; intros (e & He & Hp); exists e; unfold holds in *; (split; [by apply list_elem_of_In | by apply Nat.eqb_eq]).
  - split.
    + intros ((id & l) & Hi & (q & Hq & Eq)%existsb_exists). exists id, l. apply list_elem_of_In, elem_of_map_to_list in Hi.
      split; [done |]. apply Nat.eqb_eq in Eq as ->. by apply list_elem_of_In.
    + intros (id & l & Hi & Hp). exists (id, l). split; [by apply list_elem_of_In, elem_of_map_to_list |].
      apply existsb_exists. exists p. split; [by apply list_elem_of_In | apply Nat.eqb_refl].
Qed.

(** The closures that are gone are those nobody holds. *)
Definition dropped_right (s : Process) : Prop :=
  NoDup (destroyed s) /\ (forall p, held p s -> (p < next_provider s)%nat) /\
  forall p, p ∈ destroyed s <-> (p < next_provider s)%nat /\ ~ held p s.

Lemma drop_arc_right p s0 s :
  dropped_right s0 -> held p s0 -> (forall q, held q s -> held q s0) -> (forall q, q <> p -> held q s0 -> held q s) ->
  next_provider s = next_provider s0 -> destroyed s = destroyed s0 -> dropped_right (drop_arc p s).
Proof.
  intros (Hn & Hf & Hd) Hp Hs Hk En Ed. unfold drop_arc. destruct (alive p s) eqn:Ea.
  - apply alive_spec in Ea. split_and!; [by rewrite Ed | intros q Hq; rewrite En; auto |].
    intros q. rewrite Ed, En, Hd. split; intros [H1 H2]; (split; [done |]); intros H3; apply H2; [auto |].
    destruct (decide (q = p)) as [-> |]; auto.
  - assert (Hna : ~ held p s) by (rewrite <- alive_spec; by rewrite Ea).
    set (s' := mkProcess _ _ _ _ _ _). assert (Hh : forall q, held q s' <-> held q s) by done.
    assert (Hpn : p ∉ destroyed s) by (rewrite Ed; intros [_ ?]%Hd; done).
    split_and!; [| intros q Hq; cbn; rewrite En; apply Hf; by apply Hs, Hh |]; cbn.
    + apply NoDup_app. split_and!; [by rewrite Ed | intros q Hq ->%list_elem_of_singleton; done | apply NoDup_singleton].
    + intros q. rewrite Hh, elem_of_app, list_elem_of_singleton, Ed, En, Hd. split.
      * intros [[H1 H2] | ->]; [split; [done |]; intros ?; apply H2; auto | split; [auto | done]].
      * intros [H1 H2]. destruct (decide (q = p)) as [-> |]; [by right | left]. split; [done |]. intros ?. apply H2; auto.
Qed.

Definition claimants (name : string) (s : Process) : list nat := provider <$> List.filter (claims name) (providers s).

Record process_inv (s : Process) : Prop := mkProcessInv {
  pi_handles : provider <$> providers s ≡ₚ handles s;
  pi_unique : NoDup (handles s);
  pi_one : forall name, (length (claimants name s) <= 1)%nat;
  pi_named : forall e, e ∈ providers s -> instances e <> ∅;
  pi_dropped : dropped_right s;
  pi_lookups : forall id l, lookups s !! id = Some l -> (length (snapshot l) <= 1)%nat
}.

Lemma filter_filter_le {A} (f g : A -> bool) l : (length (List.filter f (List.filter g l)) <= length (List.filter f l))%nat.
Proof.
  induction l as [| x l IH]; cbn; [done |]. destruct (g x); cbn; destruct (f x); cbn; lia.
Qed.

Lemma provider_filter h (l : list Entry) :
  provider <$> List.filter (fun e => negb (holds h e)) l = List.filter (fun x => negb (Nat.eqb x h)) (provider <$> l).
Proof. induction l as [| e l IH]; [done |]. cbn. unfold holds at 1. destruct (Nat.eqb (provider e) h); cbn; by rewrite IH. Qed.

Lemma filter_perm {A} (f : A -> bool) l k : l ≡ₚ k -> List.filter f l ≡ₚ List.filter f k.
Proof.
  induction 1 as [| x l k Hp IH | x y l | l k m _ IH1 _ IH2]; cbn; try done.
  - destruct (f x); by rewrite IH.
  - destruct (f x), (f y); try done. apply perm_swap.
  - by etrans.
Qed.

Lemma filter_NoDup {A} (f : A -> bool) (l : list A) : NoDup l -> NoDup (List.filter f l).
Proof.
  induction 1 as [| x l Hx Hl IH]; cbn; [constructor |]. destruct (f x); [| done]. constructor; [| done].
  intros [Hi _]%list_elem_of_In%filter_In. by apply Hx, list_elem_of_In.
Qed.

Lemma providers_new : process_inv process_new.
Proof.
  split; cbn; [done | apply NoDup_nil_2 | intros; cbn; lia | intros e He; by apply elem_of_nil in He | |
    intros id l; by rewrite lookup_empty].
  split_and!; [apply NoDup_nil_2 | |]; intros p.
  - intros [(e & He & _) | (id & l & Hl & _)]; [by apply elem_of_nil in He |]. cbn in Hl. by rewrite lookup_empty in Hl.
  - split; [by intros ?%elem_of_nil | cbn; lia].
Qed.

(** ** A new provider *)

Lemma providers_add names s : process_inv s -> process_inv (add_accessor_provider names s).2.
Proof.
  intros [H1 H2 H3 H4 (Hn & Hf & Hd) H6]. unfold add_accessor_provider. case_bool_decide as Hne; [done |].
  destruct (existsb _ _) eqn:Ex; [done |]. cbn [snd]. set (p := next_provider s) in *.
  assert (Hfree : forall n, n ∈ names -> claimants n s = []).
  { intros n Hin. assert (Hc : is_instance_provided_locked (providers s) n = false).
    { destruct (is_instance_provided_locked (providers s) n) eqn:E; [| done]. rewrite <- Ex. symmetry.
      apply existsb_exists. exists n. split; [by apply list_elem_of_In, elem_of_elements | done]. }
    unfold claimants. assert (List.filter (claims n) (providers s) = []) as ->; [| done].
    unfold is_instance_provided_locked in Hc. clear -Hc. induction (providers s) as [| e l IH]; [done |]. cbn in *.
    apply orb_false_iff in Hc as [-> Hc]. auto. }
  set (s' := mkProcess _ _ _ _ _ _).
  assert (Hh : forall q, held q s' <-> held q s \/ q = p).
  { intros q. unfold held, s'. cbn. split.
    - intros [(e & [He | ->%list_elem_of_singleton]%elem_of_app & Hp) | H]; [left; left; eauto | by right | left; by right].
    - intros [[(e & He & Hp) | H] | ->]; [left; exists e; split; [by apply elem_of_app; left | done] | by right |].
      left. exists (mkEntry names p). split; [apply elem_of_app; right; by apply list_elem_of_singleton | done]. }
  assert (Hp : p ∉ handles s).
  { rewrite <- H1. intros (e & Ep & He)%list_elem_of_fmap. assert (held p s) as Hp%Hf by (left; by exists e). subst p. lia. }
  split; cbn.
  - rewrite fmap_app. cbn. by rewrite <- Permutation_cons_append, H1.
  - by constructor.
  - intros n. unfold claimants. cbn. rewrite List.filter_app. cbn. unfold claims at 2. cbn. case_bool_decide as Hi.
    + pose proof (Hfree n Hi) as E. unfold claimants in E. apply fmap_nil_inv in E. rewrite E. cbn. lia.
    + rewrite app_nil_r. apply H3.
  - intros e [He | ->%list_elem_of_singleton]%elem_of_app; [auto | done].
  - split_and!; [done | |]; cbn.
    + intros q [Hq | ->]%Hh; [specialize (Hf q Hq); lia | lia].
    + intros q. rewrite Hh, Hd. fold p. split; [intros [? ?]; split; [lia | intros [? | ->]; [done | lia]] |].
      intros [? ?]. split; [| tauto]. assert (q <> p) by tauto. lia.
  - exact H6.
Qed.

(** ** The end of a provider *)

Definition without (h : nat) (l : list nat) : list nat := List.filter (fun x => negb (Nat.eqb x h)) l.

Lemma handle_entry h s : process_inv s -> h ∈ handles s -> exists e, e ∈ providers s /\ provider e = h.
Proof. intros H Hh. rewrite <- (pi_handles _ H) in Hh. apply list_elem_of_fmap in Hh as (e & -> & He). eauto. Qed.

Lemma retain_held h s q : q <> h -> held q s <-> held q (retain_others h s).
Proof.
  intros Hq. unfold held, retain_others. cbn. split; (intros [(e & He & Ep) | H]; [left; exists e; split; [| done] | by right]).
  - apply list_elem_of_In, filter_In. split; [by apply list_elem_of_In |]. unfold holds. rewrite Ep.
    by apply negb_true_iff, Nat.eqb_neq.
  - by apply list_elem_of_In, filter_In in He as [He%list_elem_of_In _].
Qed.

Lemma drop_handle_state h s : process_inv s -> h ∈ handles s ->
  drop_handle h s = drop_arc h (retain_others h (set_handles (without h (handles s)) s)).
Proof.
  intros H Hh. unfold drop_handle, upgrade. fold (without h (handles s)). set (s1 := set_handles _ s).
  assert (alive h s1 = true) as -> by (apply alive_spec; left; exact (handle_entry h s H Hh)). done.
Qed.

Lemma drop_arc_frame p s : providers (drop_arc p s) = providers s /\ handles (drop_arc p s) = handles s /\ lookups (drop_arc p s) = lookups s.
Proof. unfold drop_arc. by destruct (alive p s). Qed.

Lemma providers_drop h s : process_inv s -> h ∈ handles s -> process_inv (drop_handle h s).
Proof.
  intros H Hh. rewrite drop_handle_state by done. destruct H as [H1 H2 H3 H4 H5 H6].
  set (s1 := retain_others h _). destruct (drop_arc_frame h s1) as (E1 & E2 & E3).
  split; rewrite ?E1, ?E2, ?E3; cbn.
  - by rewrite provider_filter, (filter_perm _ _ _ H1).
  - by apply filter_NoDup.
  - intros n. unfold claimants. rewrite E1. cbn. rewrite length_fmap.
    specialize (H3 n). unfold claimants in H3. rewrite length_fmap in H3. pose proof (filter_filter_le (claims n) (fun e => negb (holds h e)) (providers s)). lia.
  - intros e He. apply list_elem_of_In, filter_In in He as [He%list_elem_of_In _]. auto.
  - apply (drop_arc_right h s); try done.
    + left. apply handle_entry; [by split | done].
    + intros q. destruct (decide (q = h)) as [-> | Hq]; [intros _; left; apply handle_entry; [by split | done] |].
      intros Hs. by apply (retain_held h (set_handles (without h (handles s)) s) q Hq) in Hs.
    + intros q Hq Hs. by apply (retain_held h (set_handles (without h (handles s)) s) q Hq).
  - exact H6.
Qed.

Lemma filter_shrinks {A} (f : A -> bool) l x : x ∈ l -> f x = false -> (length (List.filter f l) < length l)%nat.
Proof.
  intros Hx Hf. induction l as [| y l IH]; [by apply elem_of_nil in Hx |]. cbn. apply elem_of_cons in Hx as [<- | Hx].
  - rewrite Hf. pose proof (filter_length_le f l). lia.
  - specialize (IH Hx). destruct (f y); cbn; lia.
Qed.

Lemma filter_idem {A} (f : A -> bool) l : List.filter f (List.filter f l) = List.filter f l.
Proof. induction l as [| x l IH]; [done |]. cbn. destruct (f x) eqn:E; cbn; rewrite ?E, ?IH; done. Qed.

(** The explicit removal of a live handle succeeds, and is its drop. *)
Lemma remove_live h s : process_inv s -> h ∈ handles s -> remove_accessor_provider h s = (Ok tt, drop_handle h s).
Proof.
  intros H Hh. destruct (handle_entry h s H Hh) as (e & He & Ee). rewrite drop_handle_state by done.
  unfold remove_accessor_provider, upgrade. assert (alive h s = true) as -> by (apply alive_spec; left; eauto).
  assert (Hl : (length (providers (retain_others h s)) < length (providers s))%nat).
  { apply (filter_shrinks _ _ e He). unfold holds. by rewrite Ee, Nat.eqb_refl. }
  destruct (Nat.eqb_spec (length (providers (retain_others h s))) (length (providers s))) as [E | _]; [lia |]. f_equal.
  unfold drop_handle. set (s1 := retain_others h s). unfold upgrade.
  assert (Ha : forall l x, alive h (set_handles l x) = alive h x) by done. rewrite Ha.
  assert (Hb : alive h (drop_arc h s1) = alive h s1) by (unfold drop_arc; by destruct (alive h s1) eqn:Ea). rewrite Hb.
  change (retain_others h (set_handles (without h (handles s)) s)) with (set_handles (without h (handles s)) s1).
  unfold drop_arc. rewrite Ha. destruct (alive h s1) eqn:Ea; [| done].
  assert (Er : retain_others h (set_handles (List.filter (fun x => negb (Nat.eqb x h)) (handles s1)) s1)
               = set_handles (without h (handles s)) s1).
  { unfold retain_others, set_providers, set_handles, s1. cbn. by rewrite filter_idem. }
  rewrite Er, Ha, Ea. done.
Qed.

(** ** Lookups *)

Lemma providers_begin id name s : process_inv s -> lookups s !! id = None -> process_inv (begin_lookup id name s).
Proof.
  intros [H1 H2 H3 H4 (Hn & Hf & Hd) H6] Hid. set (l := mkLookup name (claimants name s)).
  assert (Hh : forall q, held q (begin_lookup id name s) <-> held q s).
  { intros q. unfold held. cbn. split.
    - intros [H | (i & k & Hk & Hq)]; [by left |]. apply lookup_insert_Some in Hk as [[<- <-] | [_ Hk]]; [| right; eauto].
      left. cbn in Hq. apply list_elem_of_fmap in Hq as (e & -> & He).
      apply list_elem_of_In, filter_In in He as [He%list_elem_of_In _]. eauto.
    - intros [H | (i & k & Hk & Hq)]; [by left |]. right. exists i, k. split; [| done].
      rewrite lookup_insert_ne; [done | congruence]. }
  split; cbn; try done.
  - split_and!; [done | intros q Hq%Hh; auto | intros q; by rewrite Hh, Hd].
  - intros i k Hk. apply lookup_insert_Some in Hk as [[_ <-] | [_ Hk]]; [apply H3 | eauto].
Qed.

(** A lookup lets go of [p], its only provider. *)
Lemma providers_release id l p s m :
  process_inv s -> lookups s !! id = Some l -> snapshot l = [p] ->
  (forall i k, i <> id -> m !! i = lookups s !! i /\ (m !! i = Some k -> lookups s !! i = Some k)) ->
  (forall k, m !! id = Some k -> snapshot k = []) -> forall c,
  process_inv (drop_arc p (mkProcess (providers s) (handles s) m (next_provider s) (destroyed s) c)).
Proof.
  intros [H1 H2 H3 H4 H5 H6] Hl Hs Hm Hk c. set (s1 := mkProcess _ _ _ _ _ _).
  destruct (drop_arc_frame p s1) as (E1 & E2 & E3).
  split; unfold claimants; rewrite ?E1, ?E2, ?E3; try done; [| intros i k Hi].
  - apply (drop_arc_right p s); try done.
    + right. exists id, l. split; [done |]. rewrite Hs. by apply list_elem_of_singleton.
    + intros q [H | (i & k & Hi & Hq)]; [by left |]. cbn in Hi. destruct (decide (i = id)) as [-> | Hne].
      { rewrite (Hk k Hi) in Hq. by apply elem_of_nil in Hq. }
      right. exists i, k. split; [by apply (Hm i k Hne) | done].
    + intros q Hq [H | (i & k & Hi & Hqk)]; [by left |]. destruct (decide (i = id)) as [-> | Hne].
      { rewrite Hl in Hi. injection Hi as <-. rewrite Hs in Hqk. by apply list_elem_of_singleton in Hqk. }
      right. exists i, k. split; [cbn; by rewrite (proj1 (Hm i k Hne)) | done].
  - destruct (decide (i = id)) as [-> | Hne]; [rewrite (Hk k Hi); cbn; lia |]. apply (H6 i). by apply (Hm i k Hne).
Qed.

Lemma providers_call id answer s : process_inv s -> process_inv (call_next id answer s).2.
Proof.
  intros H. unfold call_next. destruct (lookups s !! id) as [l |] eqn:Hl; [| done].
  pose proof (pi_lookups _ H id l Hl) as Hlen. destruct (snapshot l) as [| p rest] eqn:Hs.
  - destruct H as [H1 H2 H3 H4 (Hn & Hf & Hd) H6]. cbn.
    assert (Hh : forall q, held q (set_lookups (delete id (lookups s)) s) <-> held q s).
    { intros q. unfold held. cbn. split; (intros [H | (i & k & Hk & Hq)]; [by left | right]; exists i, k; split; [| done]).
      - by apply lookup_delete_Some in Hk as [_ ?].
      - apply lookup_delete_Some. split; [| done]. intros <-. rewrite Hl in Hk. injection Hk as <-.
        rewrite Hs in Hq. by apply elem_of_nil in Hq. }
    split; cbn; try done; [| intros i k [_ Hk]%lookup_delete_Some; eauto].
    split_and!; [done | intros q Hq%Hh; auto | intros q; by rewrite Hh, Hd].
  - assert (rest = []) as -> by (destruct rest; [done | cbn in Hlen; lia]).
    destruct answer as [b |]; cbn [drop_arcs snd]; apply (providers_release id l p s); try done.
    + intros i k Hne. rewrite lookup_delete_ne by done. done.
    + intros k. by rewrite lookup_delete_eq.
    + intros i k Hne. rewrite lookup_insert_ne by done. done.
    + intros k. rewrite lookup_insert_eq. by intros [= <-].
Qed.

Lemma providers_reachable s : process_reachable s -> process_inv s.
Proof.
  induction 1 as [| s s' _ IH Hs]; [apply providers_new |]. destruct Hs.
  - by apply providers_add.
  - rewrite remove_live by done. by apply providers_drop.
  - by apply providers_drop.
  - by apply providers_begin.
  - by apply providers_call.
Qed.

(** Whatever providers are added, removed and dropped, and whatever runs between the lock of a lookup and its calls:
    a name has at most one provider; a handle exists exactly while its provider is registered, so an explicit removal succeeds
    and takes just its provider away; a lookup has at most one closure to call, and that closure still exists; and a closure is
    destroyed once, when neither the registry nor a lookup has it. *)
Theorem providers_consistent s : process_reachable s ->
  (forall name, (length (claimants name s) <= 1)%nat) /\
  (forall h, h ∈ handles s <-> exists e, e ∈ providers s /\ provider e = h) /\
  (forall h, h ∈ handles s -> exists s', remove_accessor_provider h s = (Ok tt, s') /\
     forall e, e ∈ providers s' <-> e ∈ providers s /\ provider e <> h) /\
  (forall id l, lookups s !! id = Some l -> (length (snapshot l) <= 1)%nat /\ forall p, p ∈ snapshot l -> p ∉ destroyed s) /\
  NoDup (destroyed s) /\
  (forall p, p ∈ destroyed s <-> (p < next_provider s)%nat /\ ~ held p s).
Proof.
  intros Hi%providers_reachable. pose proof Hi as [H1 H2 H3 H4 (Hn & Hf & Hd) H6]. split_and!; try done.
  - intros h. split; [by apply handle_entry |]. intros (e & He & <-). rewrite <- H1. by apply list_elem_of_fmap_2.
  - intros h Hh. exists (drop_handle h s). split; [by apply remove_live |]. rewrite drop_handle_state by done.
    intros e. destruct (drop_arc_frame h (retain_others h (set_handles (without h (handles s)) s))) as (-> & _ & _). cbn.
    rewrite !list_elem_of_In, filter_In. unfold holds. by rewrite negb_true_iff, Nat.eqb_neq.
  - intros id l Hl. split; [eauto |]. intros p Hp [_ Hx]%Hd. apply Hx. right. eauto.
Qed.

(** So a lookup that is not disturbed asks the one provider of the name. *)
Lemma lookup_asks_claimant provide name s : process_reachable s ->
  lookup_accessor_provider provide name s = match claimants name s with [p] => provide p name | _ => None end.
Proof.
  intros Hi%providers_reachable. pose proof (pi_one _ Hi name) as Hl. unfold lookup_accessor_provider. fold (claimants name s).
  destruct (claimants name s) as [| p [| q l]]; cbn in *; [done | by destruct (provide p name) | lia].
Qed.

(** The steps of an undisturbed lookup come to what the whole function returns. *)
Fixpoint finish_lookup (fuel : nat) (provide : nat -> string -> option nat) (id : nat) (s : Process) : option (option nat) * Process :=
  match fuel, lookups s !! id with
  | S fuel, Some l =>
      match call_next id (match snapshot l with p :: _ => provide p (wanted l) | [] => None end) s with
      | (None, s) => finish_lookup fuel provide id s
      | r => r
      end
  | _, _ => (None, s)
  end.

Lemma drop_arcs_lookups ps s : lookups (drop_arcs ps s) = lookups s.
Proof. revert s. induction ps as [| p ps IH]; intros s; [done |]. cbn. rewrite IH. apply drop_arc_frame. Qed.

Lemma lookup_steps provide id fuel s l : lookups s !! id = Some l -> (length (snapshot l) < fuel)%nat ->
  exists s', finish_lookup fuel provide id s = (Some (first_answer provide (wanted l) (snapshot l)), s') /\ lookups s' = delete id (lookups s).
Proof.
  revert s l. induction fuel as [| fuel IH]; intros s l Hl Hf; [lia |]. cbn [finish_lookup]. rewrite Hl. unfold call_next. rewrite Hl.
  destruct (snapshot l) as [| p rest] eqn:Hs; [by eexists |]. cbn [first_answer]. destruct (provide p (wanted l)) as [b |].
  - eexists. split; [done |]. by rewrite drop_arcs_lookups.
  - set (s1 := drop_arc p _). assert (Hl1 : lookups s1 = <[id := mkLookup (wanted l) rest]> (lookups s)) by apply drop_arc_frame.
    destruct (IH s1 (mkLookup (wanted l) rest)) as (s' & E & Ed).
    + rewrite Hl1. apply lookup_insert_eq.
    + cbn in *. lia.
    + exists s'. split; [exact E |]. by rewrite Ed, Hl1, delete_insert_eq.
Qed.

(** ** What is resolved *)

Section Resolved.
Context `{Bridge}.

Lemma resolve_accessor_inv name a m : resolve_accessor name a = Some m ->
  try_from a = Ok tt /\ getInstanceName a = Ok name /\
  exists fd session root wrapped, addConnection a = Ok fd /\ from_preconnected_fd fd 2 = Ok session /\
    get_root session = Ok root /\ into_sibinder root session = Ok wrapped /\ m = mkMetadata (Some wrapped) false.
Proof.
  unfold resolve_accessor. destruct (try_from a) as [[] | |]; cbn; try done.
  destruct (getInstanceName a) as [n | |]; cbn; try done. case_bool_decide as En; cbn; [subst n | done].
  destruct (addConnection a) as [fd | |]; cbn; try done.
  destruct (from_preconnected_fd fd 2) as [session | |] eqn:E1; cbn; try done.
  destruct (get_root session) as [root | |] eqn:E2; cbn; try done.
  destruct (into_sibinder root session) as [w | |] eqn:E3; cbn; try done. intros [= <-]. split_and!; try done. by exists fd, session, root, w.
Qed.

(** A binder that is given out for a name: the one the manager has, or the root of a session with an accessor that says the
    name is its own. *)
Lemma dispatch_sound rpc provide s name answer b lazy :
  dispatch_typed_service rpc (fun n => resolve_via_process_local provide n s) name answer = Some (mkMetadata (Some b) lazy) ->
  answer = ServiceWithMetadata (Some b) lazy \/
  (rpc = true /\ lazy = false /\ exists a, (answer = Accessor (Some a) \/ lookup_accessor_provider provide name s = Some a) /\
     getInstanceName a = Ok name /\ resolve_accessor name a = Some (mkMetadata (Some b) false)).
Proof.
  assert (Hlocal : forall m, try_process_local_fallback rpc (fun n => resolve_via_process_local provide n s) name = Some m ->
            rpc = true /\ exists a, lookup_accessor_provider provide name s = Some a /\ resolve_accessor name a = Some m).
  { intros m. unfold try_process_local_fallback, resolve_via_process_local. destruct rpc; [| done].
    destruct (lookup_accessor_provider provide name s) as [a |]; [| done]. cbn. eauto. }
  assert (Hres : forall a, resolve_accessor name a = Some (mkMetadata (Some b) lazy) ->
            lazy = false /\ getInstanceName a = Ok name /\ resolve_accessor name a = Some (mkMetadata (Some b) false)).
  { intros a E. pose proof E as (_ & Hn & fd & session & root & w & _ & _ & _ & _ & Em)%resolve_accessor_inv.
    injection Em as <- ->. done. }
  destruct answer as [acc | [x |] lz]; cbn [dispatch_typed_service]; [| intros [= -> ->]; by left |]; unfold or_else.
  - unfold resolve_accessor_arm. destruct rpc; [| done].
    destruct acc as [a |]; cbn [mbind option_bind]; [destruct (resolve_accessor name a) as [m |] eqn:E |];
      [intros [= ->]; right; apply Hres in E as (? & ? & ?); eauto 7 | |];
      intros (Hr & a' & Ha & E')%Hlocal; right; apply Hres in E' as (? & ? & ?); eauto 7.
  - destruct (try_process_local_fallback _ _ _) as [m |] eqn:E; [| done]. intros [= ->]. right.
    destruct (Hlocal _ eq_refl) as (Hr & a' & Ha & E'). apply Hres in E' as (? & ? & ?). eauto 7.
Qed.
End Resolved.

(** The codes are those of the names that are logged for them; no connection reports that the socket was not made. *)
Lemma accessor_codes_named build connect from_abstract_name a :
  match connect_owned_fd build connect from_abstract_name a with
  | Ok _ => True
  | Err e => accessor_error_name (accessor_error_code_for e).1 = (accessor_error_code_for e).2 /\
             (accessor_error_code_for e).1 <> ERROR_FAILED_TO_CREATE_SOCKET
  | Panic => False
  end.
Proof.
  assert (Hc : forall r, match connect_result r with Ok _ => True | Err e => accessor_error_name (accessor_error_code_for e).1 = (accessor_error_code_for e).2 /\
             (accessor_error_code_for e).1 <> ERROR_FAILED_TO_CREATE_SOCKET | Panic => False end).
  { intros [fd | e]; cbn; [done |]. by destruct (decide _). }
  destruct a; cbn [connect_owned_fd]; unfold connect_unix_abstract_owned_fd, connect_vsock_owned_fd, connect_inet_owned_fd;
    [apply Hc | destruct (linux build); [destruct (from_abstract_name name) |] | destruct (rpc_vsock build) | destruct (rpc_tcp_debug build)];
    try apply Hc; done.
Qed.

(** * An executed run *)

(** Two providers; the first handle is dropped while a lookup of its name runs. *)
Definition sample_steps : Process :=
  let s1 := (add_accessor_provider {["a"; "b"]} process_new).2 in
  let s2 := (add_accessor_provider {["c"]} s1).2 in
  drop_handle 0 (begin_lookup 7 "a" s2).

Lemma sample_reachable : process_reachable sample_steps.
Proof.
  unfold sample_steps. set (s1 := (add_accessor_provider _ process_new).2). set (s2 := (add_accessor_provider _ s1).2).
  apply (pr_step (begin_lookup 7 "a" s2)); [apply (pr_step s2); [apply (pr_step s1); [apply (pr_step process_new) |] |] |].
  - apply pr_start.
  - apply ps_add.
  - apply ps_add.
  - apply ps_lookup. by vm_compute.
  - apply ps_drop. vm_compute. by repeat constructor.
Qed.

Lemma providers_consistent_witness :
  claimants "a" sample_steps = [] /\ destroyed sample_steps = [] /\ destroyed (call_next 7 None sample_steps).2 = [0%nat] /\
  exists s', remove_accessor_provider 1 sample_steps = (Ok tt, s') /\ providers s' = [].
Proof.
  destruct (providers_consistent sample_steps sample_reachable) as (_ & _ & Hr & _).
  split_and!; [by vm_compute | by vm_compute | by vm_compute |].
  destruct (Hr 1%nat) as (s' & E & _); [vm_compute; by repeat constructor |]. clear Hr.
  exists s'. split; [done |]. vm_compute in E. by injection E as <-.
Defined.
