(* ===== verification/HubClient.v ===== *)
(** The client of the service manager (src/rsbinder/src/hub/mod.rs: [ServiceManager] and its lookups, for every version
    of Android; src/rsbinder/src/hub/servicemanager_16.rs and servicemanager_10.rs: the calls of a
    version; [impl_sm_module_body!] has those of Android 11 to 14).

    The remote manager is the record of the calls of [IServiceManager], over the world [W] of the process; the manager of
    [Hub] is one. Typed lookups are over any cast of a binder. *)

From Stdlib Require Import ZArith Lia.
From stdpp Require Import base gmap strings list.
From S2P Require Import Prelude Errors Status Hub HubSpec Accessors.

(** * Versions *)

Inductive ServiceManager : Type :=
| Android10
| Android11
| Android12
| Android13
| Android14
| Android16.

(** The features of the crate. *)
Record Features : Type := mkFeatures {
  android_10 : bool;
  android_11 : bool;
  android_12 : bool;
  android_13 : bool;
  android_14 : bool
}.

(** The [match] of [default] on Android. *)
Definition version_for (f : Features) (sdk_version : Z) : outcome StatusCode ServiceManager :=
  if (sdk_version =? 36) || (sdk_version =? 37) then Ok Android16
  else if android_14 f && ((sdk_version =? 34) || (sdk_version =? 35)) then Ok Android14
  else if android_13 f && (sdk_version =? 33) then Ok Android13
  else if android_12 f && ((sdk_version =? 31) || (sdk_version =? 32)) then Ok Android12
  else if android_11 f && (sdk_version =? 30) then Ok Android11
  else if android_10 f && (sdk_version =? 29) then Ok Android10
  else Err StInvalidOperation.

(** [default]: [cached] is [GLOBAL_SM], [context] the context object, [is_manager] whether a proxy can be made of it. *)
Definition default_manager (android : bool) (f : Features) (sdk_version : Z) (context : outcome StatusCode unit) (is_manager : bool)
  : M (option ServiceManager) StatusCode ServiceManager := fun cached =>
  match cached with
  | Some sm => (Ok sm, cached)
  | None =>
      match context with
      | Ok _ =>
          match (if android then version_for f sdk_version else Ok Android16) with
          | Ok sm => if is_manager then (Ok sm, Some sm) else (Err StBadType, cached)
          | Err e => (Err e, cached)
          | Panic => (Panic, cached)
          end
      | Err e => (Err e, cached)
      | Panic => (Panic, cached)
      end
  end.

(** * The calls *)

Record Manager (W : Type) : Type := mkManager {
  sm_getService : string -> M W Status (option nat);
  sm_checkService : string -> M W Status (option nat);
  sm_getService2 : string -> M W Status ServiceUnion;
  sm_checkService2 : string -> M W Status ServiceUnion;
  sm_addService : string -> nat -> M W Status unit;
  sm_registerForNotifications : string -> nat -> M W Status unit;
  sm_unregisterForNotifications : string -> nat -> M W Status unit;
  sm_registerClientCallback : string -> nat -> nat -> M W Status unit;
  sm_tryUnregisterService : string -> nat -> M W Status unit;
  sm_listServices : Z -> M W Status (list string);
  sm_isDeclared : string -> M W Status bool;
  sm_getServiceDebugInfo : M W Status (list (string * Z));
  (** The transactions of the manager of Android 10, and a second that passes. *)
  legacy_get : string -> M W StatusCode (option nat);
  legacy_check : string -> M W StatusCode (option nat);
  legacy_add : string -> nat -> M W StatusCode unit;
  legacy_list : Z -> Z -> M W StatusCode string;
  sleep : M W StatusCode unit
}.

Arguments sm_getService {W}. Arguments sm_checkService {W}. Arguments sm_getService2 {W}. Arguments sm_checkService2 {W}.
Arguments sm_addService {W}. Arguments sm_registerForNotifications {W}. Arguments sm_unregisterForNotifications {W}.
Arguments sm_registerClientCallback {W}. Arguments sm_tryUnregisterService {W}. Arguments sm_listServices {W}.
Arguments sm_isDeclared {W}. Arguments sm_getServiceDebugInfo {W}.
Arguments legacy_get {W}. Arguments legacy_check {W}. Arguments legacy_add {W}. Arguments legacy_list {W}. Arguments sleep {W}.

Section Client.
Context {W : Type} (m : Manager W).
(** The bridge to accessors and the providers of the process. *)
Context `{Bridge} (rpc : bool) (local : string -> option ServiceMetadata).

(** The result of a call as a value. *)
Definition attempt {E F A} (c : M W E A) : M W F (A + E) := fun s =>
  match c s with
  | (Ok a, s) => (Ok (inl a), s)
  | (Err e, s) => (Ok (inr e), s)
  | (Panic, s) => (Panic, s)
  end.

(** [map_err(|e| e.into())]. *)
Definition into_code {A} (c : M W Status A) : M W StatusCode A := fun s =>
  let '(r, s) := c s in (map_err code_of_status r, s).

(** An error is logged and [d] returned. *)
Definition or_default {E A} (d : A) (c : M W E A) : M W StatusCode A :=
  let* r := attempt c in ret (match r with inl a => a | inr _ => d end).

Definition of_answer (name : string) (u : ServiceUnion) : option nat :=
  md ← dispatch_typed_service rpc local name u; service md.

(** One attempt and up to [retries] after a second each. *)
Fixpoint legacy_get_service (retries : nat) (name : string) : M W StatusCode (option nat) :=
  let* r := attempt (legacy_get m name) in
  match r, retries with
  | inl (Some b), _ => ret (Some b)
  | _, S retries => let* _ := sleep m in legacy_get_service retries name
  | _, O => ret None
  end.

Definition get_service (v : ServiceManager) (name : string) : M W StatusCode (option nat) :=
  match v with
  | Android10 => legacy_get_service 5 name
  | Android16 => let* r := attempt (sm_getService2 m name) in
                 ret (match r with inl u => of_answer name u | inr _ => None end)
  | _ => or_default None (sm_getService m name)
  end.

Definition check_service (v : ServiceManager) (name : string) : M W StatusCode (option nat) :=
  match v with
  | Android10 => or_default None (legacy_check m name)
  | Android16 => let* r := attempt (sm_checkService2 m name) in
                 ret (match r with inl u => of_answer name u | inr _ => None end)
  | _ => or_default None (sm_checkService m name)
  end.

Definition try_get_service (v : ServiceManager) (name : string) : M W StatusCode (option nat) :=
  match v with
  | Android10 => or_default None (legacy_get m name)
  | Android16 => let* u := into_code (sm_getService2 m name) in ret (of_answer name u)
  | _ => into_code (sm_getService m name)
  end.

(** Typed lookups, for a type [T] and its [FromIBinder::try_from]. *)
Section Typed.
Context {T : Type} (from_binder : nat -> outcome StatusCode T).

Definition typed (found : option nat) : outcome StatusCode T :=
  match found with Some b => from_binder b | None => Err StNameNotFound end.

Definition get_interface (v : ServiceManager) (name : string) : M W StatusCode T :=
  let* r := get_service v name in lift (typed r).

Definition check_interface (v : ServiceManager) (name : string) : M W StatusCode T :=
  let* r := check_service v name in lift (typed r).

Definition try_get_interface (v : ServiceManager) (name : string) : M W StatusCode (option T) :=
  let* r := try_get_service v name in
  match r with
  | Some b => let* t := lift (from_binder b) in ret (Some t)
  | None => ret None
  end.
End Typed.

(** ** Requests *)

Definition unsupported {A} : M W StatusCode A := throw StUnknownTransaction.

Definition add_service (v : ServiceManager) (name : string) (b : nat) : M W Status unit :=
  match v with
  | Android10 => fun s => let '(r, s) := legacy_add m name b s in (map_err status_of_code r, s)
  | _ => sm_addService m name b
  end.

Definition register_for_notifications (v : ServiceManager) (name : string) (callback : nat) : M W StatusCode unit :=
  match v with Android10 => unsupported | _ => into_code (sm_registerForNotifications m name callback) end.

Definition unregister_for_notifications (v : ServiceManager) (name : string) (callback : nat) : M W StatusCode unit :=
  match v with Android10 => unsupported | _ => into_code (sm_unregisterForNotifications m name callback) end.

Definition register_client_callback (v : ServiceManager) (name : string) (b callback : nat) : M W StatusCode unit :=
  match v with Android10 => unsupported | _ => into_code (sm_registerClientCallback m name b callback) end.

Definition try_unregister_service (v : ServiceManager) (name : string) (b : nat) : M W StatusCode unit :=
  match v with Android10 => unsupported | _ => into_code (sm_tryUnregisterService m name b) end.

Definition is_declared (v : ServiceManager) (name : string) : M W StatusCode bool :=
  match v with Android10 => ret false | _ => or_default false (sm_isDeclared m name) end.

(** Entry [n] and the following, to the first error; [n += 1] overflows after [i32::MAX]. *)
Fixpoint legacy_list_services (fuel : nat) (n dump_priority : Z) : M W StatusCode (list string) :=
  match fuel with
  | O => panic
  | S fuel =>
      let* r := attempt (legacy_list m n dump_priority) in
      match r with
      | inl name => let* l := legacy_list_services fuel (n + 1) dump_priority in ret (name :: l)
      | inr _ => ret []
      end
  end.

Definition list_services (v : ServiceManager) (dump_priority : Z) : M W StatusCode (list string) :=
  match v with
  | Android10 => legacy_list_services (Z.to_nat (i32_max + 1)) 0 dump_priority
  | _ => or_default [] (sm_listServices m dump_priority)
  end.

Definition get_service_debug_info (v : ServiceManager) : M W StatusCode (list (string * Z)) :=
  match v with Android10 | Android11 => unsupported | _ => into_code (sm_getServiceDebugInfo m) end.
End Client.

(** * The manager of [Hub] *)

Section OverHub.
Context (descriptor_of : nat -> string) (allow : bool).
Context (count : nat -> option Z) (deliver : PendingCallback -> outcome Status unit) (caller : CallingContext).

(** A transaction that does not get through fails with a status of the driver. *)
Definition over {A} (up : option StatusCode) (c : M Hub Status A) : M Hub Status A :=
  match up with None => c | Some e => throw (status_of_code e) end.

Definition dump_default : Z := 8.

(** The calls of a process [caller] to the manager; [up] is [None] while transactions get through. This manager
    does not speak the protocol of Android 10. *)
Definition hub_manager (up : option StatusCode) : Manager Hub := {|
  sm_getService name := over up (getService count name);
  sm_checkService name := over up (checkService count name);
  sm_getService2 name := over up (getService2 count name);
  sm_checkService2 name := over up (checkService2 count name);
  sm_addService name b := over up (addService descriptor_of allow count deliver caller name b dump_default);
  sm_registerForNotifications name cb := over up (registerForNotifications name cb);
  sm_unregisterForNotifications name cb := over up (unregisterForNotifications name cb);
  sm_registerClientCallback name b cb := over up (registerClientCallback count caller name b cb);
  sm_tryUnregisterService name b := over up (tryUnregisterService count caller name b);
  sm_listServices priority := over up (fun s => (Ok (listServices priority s), s));
  sm_isDeclared name := over up (ret (isDeclared name));
  sm_getServiceDebugInfo := over up (fun s => (Ok (getServiceDebugInfo s), s));
  legacy_get _ := throw StUnknownTransaction;
  legacy_check _ := throw StUnknownTransaction;
  legacy_add _ _ := throw StUnknownTransaction;
  legacy_list _ _ := throw StUnknownTransaction;
  sleep := ret tt
|}.

(** ** What a name stands for *)

Context `{Bridge} (rpc : bool) (local : string -> option ServiceMetadata).

Definition entry (name : string) (s : Hub) : option (nat * bool) :=
  (fun sv => (binder sv, is_accessor sv)) <$> name_to_service (inner s) !! name.

(** The binder that the clients of a version get: since Android 16 that of the union, before it the registered one. *)
Definition visible (v : ServiceManager) (name : string) (s : Hub) : option nat :=
  match v with
  | Android16 => of_answer rpc local name (classify_for_service_union (entry name s))
  | _ => fst <$> entry name s
  end.

Lemma lookup_entry name s : exists s', lookup_binder count name s = (Ok (entry name s), s') /\ same_but s s'.
Proof.
  pose proof (lookup_result count name s) as Hr. pose proof (lookup_same count name s) as Hs.
  destruct (lookup_binder count name s) as [r s']. cbn in *. exists s'. by rewrite Hr.
Qed.

(** The four lookups of the manager see the same entry and leave the tables. *)
Lemma hub_lookups name s : exists s', same_but s s' /\
  getService count name s = (Ok (fst <$> entry name s), s') /\ checkService count name s = (Ok (fst <$> entry name s), s') /\
  getService2 count name s = (Ok (classify_for_service_union (entry name s)), s') /\
  checkService2 count name s = (Ok (classify_for_service_union (entry name s)), s').
Proof.
  destruct (lookup_entry name s) as (s' & E & Hs). exists s'.
  unfold getService, checkService, getService2, checkService2, bind. by rewrite E.
Qed.




(** The table of the lookup functions. While the manager can be reached, every function of a version since Android 11
    finds the binder that the name stands for in the tables, typed lookups cast it, and what tells
    a name that is not registered from one that is differs as documented; the tables are not changed. When a transaction fails
    with a code, the functions that preserve errors return the code and the others say that there is no such service. *)
Theorem lookup_table v name s : v <> Android10 ->
  let found := visible v name s in
  (exists s', same_but s s' /\
     get_service (hub_manager None) rpc local v name s = (Ok found, s') /\
     check_service (hub_manager None) rpc local v name s = (Ok found, s') /\
     try_get_service (hub_manager None) rpc local v name s = (Ok found, s') /\
     forall T (from_binder : nat -> outcome StatusCode T),
       let cast := match found with Some b => from_binder b | None => Err StNameNotFound end in
       get_interface (hub_manager None) rpc local from_binder v name s = (cast, s') /\
       check_interface (hub_manager None) rpc local from_binder v name s = (cast, s') /\
       try_get_interface (hub_manager None) rpc local from_binder v name s =
         (match found with Some b => let? t := from_binder b in Ok (Some t) | None => Ok None end, s')) /\
  (forall e,
     get_service (hub_manager (Some e)) rpc local v name s = (Ok None, s) /\
     check_service (hub_manager (Some e)) rpc local v name s = (Ok None, s) /\
     try_get_service (hub_manager (Some e)) rpc local v name s = (Err e, s) /\
     forall T (from_binder : nat -> outcome StatusCode T),
       get_interface (hub_manager (Some e)) rpc local from_binder v name s = (Err StNameNotFound, s) /\
       check_interface (hub_manager (Some e)) rpc local from_binder v name s = (Err StNameNotFound, s) /\
       try_get_interface (hub_manager (Some e)) rpc local from_binder v name s = (Err e, s)).
Proof.
  intros Hv found. split.
  - destruct (hub_lookups name s) as (s' & Hs & E1 & E2 & E3 & E4). exists s'. split; [done |].
    assert (G : get_service (hub_manager None) rpc local v name s = (Ok found, s') /\
                check_service (hub_manager None) rpc local v name s = (Ok found, s') /\
                try_get_service (hub_manager None) rpc local v name s = (Ok found, s')).
    { destruct v; try done; unfold get_service, check_service, try_get_service, or_default, attempt, into_code, bind;
        cbn [hub_manager over sm_getService sm_checkService sm_getService2 sm_checkService2]; by rewrite ?E1, ?E2, ?E3, ?E4. }
    destruct G as (G1 & G2 & G3). split_and!; try done. intros T from_binder cast.
    unfold get_interface, check_interface, try_get_interface, bind. rewrite G1, G2, G3. unfold lift, typed.
    split_and!; try done. destruct found as [b |]; [| done]. by destruct (from_binder b).
  - intros e. assert (G : try_get_service (hub_manager (Some e)) rpc local v name s = (Err e, s)).
    { destruct v; try done; unfold try_get_service, into_code, bind; cbn; by rewrite (proj1 (code_status_roundtrip e)). }
    split_and!; [by destruct v | by destruct v | done |]. intros T from_binder.
    split_and!; [by destruct v | by destruct v |]. unfold try_get_interface, bind. by rewrite G.
Qed.
End OverHub.

(** * An executed run *)

#[local] Instance no_bridge : Bridge := {|
  Session := unit;
  try_from _ := Err StBadType;
  getInstanceName _ := Err (status_of_code StDeadObject);
  addConnection _ := Err (status_of_code StDeadObject);
  from_preconnected_fd _ _ := Err StDeadObject;
  get_root _ := Err StDeadObject;
  into_sibinder _ _ := Err StDeadObject
|}.

Lemma lookup_table_witness :
  let m := hub_manager no_descriptor false (counts 1) delivered app1 in
  (check_service (m None) true (fun _ => None) Android16 "svc" registered).1 = Ok (Some 1%nat) /\
  (check_service (m None) true (fun _ => None) Android16 "other" registered).1 = Ok None /\
  (try_get_service (m (Some StDeadObject)) true (fun _ => None) Android16 "svc" registered).1 = Err StDeadObject.
Proof.
  intros m.
  destruct (lookup_table no_descriptor false (counts 1) delivered app1 true (fun _ => None) Android16 "svc" registered ltac:(done))
    as [(s1 & _ & _ & E1 & _) E3].
  destruct (lookup_table no_descriptor false (counts 1) delivered app1 true (fun _ => None) Android16 "other" registered ltac:(done))
    as [(s2 & _ & _ & E2 & _) _].
  destruct (E3 StDeadObject) as (_ & _ & E4 & _). clear E3.
  unfold m. rewrite E1, E2, E4. by vm_compute.
Defined.
