(* ===== verification/HubWait.v ===== *)
(** Waiting for a service (src/rsbinder/src/hub/mod.rs: [wait_for_service], [poll_for_service], [Waiter] and
    [UnregisterOnDrop]), with the service manager of [Hub] at the other end.

    The waiting thread goes from call to call; between its steps anybody else uses the manager, and the notifications
    that the manager sent to the callback of the waiter arrive. A call can fail in the transport; then the manager has
    not seen it. A timeout of the condition variable can come at any time. *)

From Stdlib Require Import ZArith Lia.
From stdpp Require Import base gmap strings list.
From S2P Require Import Prelude Errors Status ProxyCache Hub HubSpec Accessors HubClient.

(** * What the manager sends *)

Section Sent.
Context (descriptor_of : nat -> string) (allow : bool) (natives : nat -> bool).
Local Abbreviation serve := (Hub.serve descriptor_of allow).

Definition only_clients (l : list PendingCallback) : Prop :=
  Forall (fun x => match x with Clients _ _ _ => True | Registration _ _ _ => False end) l.

(** A pending list grows by notifications of clients. *)
Definition grows (p p' : list PendingCallback) : Prop := exists l, p' = p ++ l /\ only_clients l.

Lemma grows_refl p : grows p p.
Proof. exists []. split; [by rewrite app_nil_r | constructor]. Qed.
Lemma grows_trans p q r : grows p q -> grows q r -> grows p r.
Proof. intros (l & -> & Hl) (k & -> & Hk). exists (l ++ k). split; [by rewrite app_assoc | by apply Forall_app]. Qed.

Lemma send_grows name v i p : grows p (send_client_callback_notification name v i p).2.
Proof.
  unfold send_client_callback_notification. destruct (name_to_service i !! name) as [sv |]; [| apply grows_refl].
  destruct (eqb _ _); [apply grows_refl |]. destruct (name_to_client_callbacks i !! name) as [cbs |]; [| apply grows_refl].
  cbn. eexists. split; [done |]. apply Forall_fmap, Forall_true. done.
Qed.

Lemma guaranteed_grows name v sv i p : grows p (guaranteed_step name v sv i p).2.
Proof.
  unfold guaranteed_step. destruct (guarantee_client sv); [| apply grows_refl].
  destruct (_ && _); [pose proof (send_grows name true i p) as Hs; destruct (send_client_callback_notification _ _ _ _) as [i' p'] |
    pose proof (grows_refl p) as Hs; set (i' := i); set (p' := p) in *];
    destruct (name_to_service i' !! name); exact Hs.
Qed.

Lemma reported_grows name v r : grows r.2 (reported_step name v r).2.
Proof.
  destruct r as [[c i] p]. unfold reported_step. destruct (_ && _); [| apply grows_refl].
  pose proof (send_grows name true i p) as Hs. by destruct (send_client_callback_notification _ _ _ _).
Qed.

Lemma interval_grows name v w r : grows r.2 (interval_step name v w r).2.
Proof.
  destruct r as [[c i] p]. unfold interval_step. destruct (_ && _); [| apply grows_refl].
  pose proof (send_grows name false i p) as Hs. by destruct (send_client_callback_notification _ _ _ _).
Qed.

Lemma handle_grows prox count known name w i p : grows p (handle_service_client_callback prox count known name w i p).2.
Proof.
  unfold handle_service_client_callback. destruct (name_to_service i !! name) as [sv |]; [| apply grows_refl].
  destruct (name_to_client_callbacks i !! name) as [[| cb cbs] |]; try apply grows_refl.
  destruct (negb _); [apply grows_refl |]. destruct (count (binder sv)); [| apply grows_refl].
  eapply grows_trans; [apply guaranteed_grows |]. eapply grows_trans; [apply reported_grows | apply interval_grows].
Qed.

Lemma poll_grows prox count names i p : grows p (poll_names prox count names i p).2.
Proof.
  revert i p. induction names as [| n names IH]; intros i p; cbn; [apply grows_refl |].
  pose proof (handle_grows prox count KNOWN_CLIENTS_PERIODIC n true i p) as Hs.
  destruct (handle_service_client_callback _ _ _ _ _ _ _) as [[c i'] p']. by eapply grows_trans.
Qed.

Lemma try_get_grows prox count name i p : grows p (try_get_binder prox count name i p).2.
Proof.
  unfold try_get_binder. destruct (name_to_service i !! name); [| apply grows_refl].
  pose proof (handle_grows prox count KNOWN_CLIENTS_ON_DEMAND name false (update_service name (with_guarantee true) i) p) as Hs.
  by destruct (handle_service_client_callback _ _ _ _ _ _ _) as [[c i'] p'].
Qed.

Lemma lookup_fired count name s : grows (fired s) (fired (lookup_binder count name s).2).
Proof.
  unfold lookup_binder, bind, get. pose proof (try_get_grows (as_proxy s) count name (inner s) []) as (l & E & Hl).
  destruct (try_get_binder _ _ _ _ _) as [[r i] p]. cbn in *. subst p. by exists l.
Qed.

(** The callbacks of a registration, up to the first that fails. *)
Lemma propagate_fired deliver p s : exists q, q `prefix_of` p /\
  (fire_pending_propagate deliver p s).2 = set_fired (fired s ++ q) s /\ ((forall x, x ∈ p -> deliver x = Ok tt) -> q = p).
Proof.
  revert s. induction p as [| x p IH]; intros s; cbn.
  { exists []. split_and!; [done | rewrite app_nil_r; by destruct s | done]. }
  unfold bind, fire. destruct (deliver x) as [[] | e |] eqn:E; cbn.
  - destruct (IH (set_fired (fired s ++ [x]) s)) as (q & Hq & Eq & Ho). exists (x :: q).
    split_and!; [by apply prefix_cons | rewrite Eq; cbn; by rewrite <- app_assoc |].
    intros Hd. f_equal. apply Ho. intros y Hy. apply Hd. by apply elem_of_cons; right.
  - exists [x]. split_and!; [by exists p | done |]. intros Hd. rewrite (Hd x) in E by apply list_elem_of_here. done.
  - exists [x]. split_and!; [by exists p | done |]. intros Hd. rewrite (Hd x) in E by apply list_elem_of_here. done.
Qed.

Definition callbacks_of (name : string) (s : Hub) : list nat := default [] (name_to_registration_callbacks (inner s) !! name).

Lemma finish_fired count deliver name b s : exists l q, only_clients l /\
  fired (finish_add count deliver name b s).2 = fired s ++ l ++ q /\
  q `prefix_of` ((fun cb => Registration cb name b) <$> callbacks_of name s) /\
  ((forall x, deliver x = Ok tt) -> q = (fun cb => Registration cb name b) <$> callbacks_of name s).
Proof.
  unfold finish_add, notify_registration, callbacks_of. unfold bind at 1.
  destruct (name_to_registration_callbacks (inner s) !! name) as [cbs |]; cbn [default].
  - pose proof (handle_grows (as_proxy s) count KNOWN_CLIENTS_ON_DEMAND name false
                  (update_service name (with_guarantee true) (inner s)) []) as (l & El & Hl).
    destruct (handle_service_client_callback _ _ _ _ _ _ _) as [[c i] p]. cbn [snd] in El. subst p.
    unfold bind, fire_pending, modify.
    set (s1 := set_fired _ _). destruct (propagate_fired deliver ((fun cb => Registration cb name b) <$> cbs) s1) as (q & Hq & Eq & Ho).
    exists l, q. split_and!; [done | | done | intros Hd; by apply Ho]. rewrite Eq. unfold s1. cbn. by rewrite app_assoc.
  - exists [], []. split_and!; [constructor | | done | done]. cbn. by rewrite !app_nil_r.
Qed.

(** A notification of a registration goes to a callback of the name, and has the binder that is registered. *)
Definition telling (s : Hub) (x : PendingCallback) : Prop :=
  match x with
  | Registration cb name b => cb ∈ callbacks_of name s /\ registry s !! name = Some b
  | Clients _ _ _ => True
  end.

(** What [s'] has sent since [s]. *)
Definition told (s s' : Hub) : Prop := exists l, fired s' = fired s ++ l /\ Forall (telling s') l.

Lemma only_clients_telling s l : only_clients l -> Forall (telling s) l.
Proof. intros Hl. eapply Forall_impl; [exact Hl |]. by intros []. Qed.

Lemma same_callbacks s s' name : same_but s s' -> callbacks_of name s' = callbacks_of name s /\ registry s' = registry s.
Proof. intros [Hs _]. split; [| by apply registry_shape]. unfold callbacks_of. by destruct Hs as (_ & -> & _). Qed.

Lemma grows_told s s' : grows (fired s) (fired s') -> told s s'.
Proof. intros (l & E & Hl). exists l. split; [done | by apply only_clients_telling]. Qed.

Lemma not_told s s' : fired s' = fired s -> told s s'.
Proof. intros E. apply grows_told. rewrite E. apply grows_refl. Qed.

Lemma add_fired count deliver caller name b prio s :
  told s (addService descriptor_of allow count deliver caller name b prio s).2.
Proof.
  destruct (add_cases descriptor_of allow count deliver caller name b prio s) as [[e E] | (E & _)]; rewrite E; [by apply not_told |].
  set (a := added _ _ _ _ _ _). destruct (finish_fired count deliver name b a) as (l & q & Hl & Ef & Hq & _).
  destruct (same_callbacks a (finish_add count deliver name b a).2 name (registered_same count deliver name b a)) as [Ec Er].
  exists (l ++ q). split.
  - rewrite Ef. f_equal. unfold a, added, relinked, unlink_death. by repeat case_match.
  - apply Forall_app. split; [by apply only_clients_telling |]. destruct Hq as [q' Eq].
    apply Forall_forall. intros x Hx. assert (Hi : x ∈ (fun cb => Registration cb name b) <$> callbacks_of name a).
    { rewrite Eq. by apply elem_of_app; left. }
    apply list_elem_of_fmap in Hi as (cb & -> & Hcb). cbn. rewrite Ec, Er. split; [done |].
    unfold a. rewrite registry_added. by rewrite lookup_insert_eq.
Qed.

Lemma elem_push name cb m : cb ∈ default [] (push_callback name cb m !! name).
Proof. unfold push_callback. rewrite lookup_insert_eq. cbn. apply elem_of_app. right. by apply list_elem_of_singleton. Qed.

Lemma register_fired name cb s : told s (registerForNotifications name cb s).2.
Proof.
  unfold registerForNotifications. destruct (is_valid_service_name name); cbn [negb]; [| by apply not_told].
  unfold bind at 1, get. cbv beta iota. set (m := name_to_registration_callbacks (inner s)).
  destruct (admission m name cb); try (by apply not_told).
  assert (Hx : exists l0 e, (if already_linked m cb then ret tt else link_death cb) s = (Err e, s) \/
                     (if already_linked m cb then ret tt else link_death cb) s = (Ok tt, set_links l0 s)).
  { destruct (already_linked m cb); [exists (links s), (status_of_code StOk); right; by destruct s |].
    destruct (link_death_cases cb s) as [[e E] | [E _]]; [exists [], e; by left | exists (cb :: links s), (status_of_code StOk); by right]. }
  destruct Hx as (l0 & e & [E | E]); unfold bind; rewrite E; [by apply not_told |]. unfold modify, fire_pending. cbn.
  eexists. split; [done |]. destruct (name_to_service (inner s) !! name) as [sv |] eqn:Es; [| constructor].
  constructor; [| constructor]. cbn. split; [apply elem_push |]. unfold registry. cbn. by rewrite lookup_fmap, Es.
Qed.

Lemma client_fired count caller name b cb s : grows (fired s) (fired (registerClientCallback count caller name b cb s).2).
Proof.
  unfold registerClientCallback. unfold bind at 1, get at 1. cbv beta iota.
  destruct (name_to_service (inner s) !! name) as [sv |]; [| apply grows_refl]. destruct (negb _); [apply grows_refl |].
  destruct (negb _); [apply grows_refl |]. set (m := name_to_client_callbacks (inner s)).
  destruct (admission m name cb); try apply grows_refl.
  assert (Hx : exists s0 r, (if already_linked m cb then ret tt else link_death cb) s = (r, s0) /\ fired s0 = fired s).
  { destruct (already_linked m cb); [by eexists _, _ |].
    destruct (link_death_cases cb s) as [[e E] | [E _]]; rewrite E; by eexists _, _. }
  destruct Hx as (s0 & r & E & Ef). unfold bind at 1. rewrite E. destruct r as [[] | |]; [| cbn; rewrite Ef; apply grows_refl..].
  unfold bind at 1, get. cbv beta iota. set (p0 := if has_clients sv then _ else _). set (i0 := set_clients _ _).
  pose proof (handle_grows (as_proxy s0) count KNOWN_CLIENTS_ON_DEMAND name false i0 p0) as (l & El & Hl).
  destruct (handle_service_client_callback _ _ _ _ _ _ _) as [[c i] p]. cbn in *. rewrite Ef. subst p.
  exists (p0 ++ l). split; [done |]. apply Forall_app. split; [| done]. unfold p0. destruct (has_clients sv); repeat constructor.
Qed.

Lemma remove_fired count caller name b s : grows (fired s) (fired (tryUnregisterService count caller name b s).2).
Proof.
  unfold tryUnregisterService. unfold bind at 1, get. cbv beta iota.
  destruct (name_to_service (inner s) !! name) as [sv |]; [| apply grows_refl].
  do 2 (destruct (negb _); [apply grows_refl |]). destruct (guarantee_client sv); [apply grows_refl |].
  pose proof (handle_grows (as_proxy s) count KNOWN_CLIENTS_ON_DEMAND name false (inner s) []) as (l & El & Hl).
  destruct (handle_service_client_callback _ _ _ _ _ _ _) as [[c i] p]. cbn in El. subst p. exists l. split; [| done].
  destruct c; [done |]. cbn. unfold unlink_death. by destruct (_ && _).
Qed.

Lemma serve_fired count deliver r s : told s (serve count deliver r s).
Proof.
  destruct r as [caller name b prio | name | name | name | name | name cb | name cb | caller name b cb
                | caller name b | names | | h | b h d]; cbn [Hub.serve].
  - apply add_fired.
  - apply grows_told. pose proof (lookup_fired count name s). unfold getService, bind. by destruct (lookup_binder count name s) as [[] ?].
  - apply grows_told. pose proof (lookup_fired count name s). unfold checkService, bind. by destruct (lookup_binder count name s) as [[] ?].
  - apply grows_told. pose proof (lookup_fired count name s). unfold getService2, bind. by destruct (lookup_binder count name s) as [[] ?].
  - apply grows_told. pose proof (lookup_fired count name s). unfold checkService2, bind. by destruct (lookup_binder count name s) as [[] ?].
  - apply register_fired.
  - apply not_told. unfold unregisterForNotifications, bind, get, remove_registration_callback.
    destruct (name_to_registration_callbacks (inner s) !! name) as [cbs |]; [| done]. by destruct (matches _ _ _).
  - apply grows_told, client_fired.
  - apply grows_told, remove_fired.
  - apply grows_told. unfold poll. pose proof (poll_grows (as_proxy s) count names (inner s) []) as (l & E & Hl).
    destruct (poll_names _ _ _ _ _) as [i p]. cbn in *. subst p. by exists l.
  - apply not_told. by destruct (channel s).
  - apply not_told. unfold obituary. by repeat case_match.
  - by apply not_told.
Qed.
End Sent.

(** * The waiter *)

(** Where the thread is; [Leaving] has the callback to unregister. *)
Inductive WaitPhase : Type :=
| Looking
| Registering
| Waiting
| Repolling
| Polling
| Sleeping
| Leaving (r : option nat)
| Returned (r : option nat).

(** [slot] is [WaiterState::inner], [in_flight] the binders of the notifications on their way. [seen] has the binders registered
    under the name since the call, [since] those since the callback was registered. *)
Record Wait : Type := mkWait {
  hub : Hub;
  slot : option nat;
  in_flight : list nat;
  phase : WaitPhase;
  seen : list nat;
  since : list nat
}.

Section Wait.
Context (descriptor_of : nat -> string) (allow : bool) (natives : nat -> bool).
(** The bridge to accessors, and what the providers of the process have at a time. *)
Context `{Bridge} (rpc : bool) (local : nat -> string -> option ServiceMetadata).
(** The name, the callback and the handle that the manager knows it by; whether callbacks always get through. *)
Context (name : string) (callback : nat) (handle : Z) (reliable : bool).
Local Abbreviation serve := (Hub.serve descriptor_of allow).
Local Abbreviation hub_reachable := (Hub.hub_reachable descriptor_of allow natives).
Local Abbreviation valid_request := (Hub.valid_request natives).

(** What the manager has sent to the callback between two states, and was taken. *)
Definition arrivals (deliver : PendingCallback -> outcome Status unit) (s s' : Hub) : list nat :=
  omap (fun x => match x with
                 | Registration cb _ b => if Nat.eqb cb callback && is_ok (deliver x) then Some b else None
                 | Clients _ _ _ => None
                 end) (drop (length (fired s)) (fired s')).

Definition observe (s : Hub) (l : list nat) : list nat :=
  match registry s !! name with Some b => l ++ [b] | None => l end.

(** The manager goes to [s]; the thread to [ph]. *)
Definition moved (deliver : PendingCallback -> outcome Status unit) (s : Hub) (ph : WaitPhase) (w : Wait) : Wait :=
  mkWait s (slot w) (in_flight w ++ arrivals deliver (hub w) s) ph (observe s (seen w)) (observe s (since w)).

Definition set_phase (ph : WaitPhase) (w : Wait) : Wait := mkWait (hub w) (slot w) (in_flight w) ph (seen w) (since w).

(** After a lookup: found, not found, failed. *)
Definition looked (found : option nat -> WaitPhase) (missing : WaitPhase) (r : outcome StatusCode (option nat)) : WaitPhase :=
  match r with
  | Ok (Some b) => found (Some b)
  | Ok None => missing
  | _ => found None
  end.

Section Calls.
Context (count : nat -> option Z) (deliver : PendingCallback -> outcome Status unit) (caller : CallingContext).
Context (up : option StatusCode) (t : nat).

Definition look : M Hub StatusCode (option nat) :=
  try_get_service (hub_manager descriptor_of allow count deliver caller up) rpc (local t) Android16 name.

(** The fast path of [wait_for_service], a turn of its loop after the timeout, and a turn of [poll_for_service]. *)
Definition look_first (w : Wait) : Wait :=
  let '(r, s) := look (hub w) in moved deliver s (looked Returned Registering r) w.
Definition look_again (w : Wait) : Wait :=
  let '(r, s) := look (hub w) in moved deliver s (looked Leaving Waiting r) w.
Definition poll_once (w : Wait) : Wait :=
  let '(r, s) := look (hub w) in moved deliver s (looked Returned Sleeping r) w.

(** The manager meets the callback with the request that brings it. *)
Definition register (w : Wait) : Wait :=
  let s := match up with None => meet callback handle "" (hub w) | Some _ => hub w end in
  let '(r, s') := register_for_notifications (hub_manager descriptor_of allow count deliver caller up) Android16 name callback s in
  let w' := moved deliver s' (match r with Ok _ => Waiting | _ => Polling end) w in
  mkWait (hub w') (slot w') (in_flight w') (phase w') (seen w') (observe s' []).

(** [Drop for UnregisterOnDrop]. *)
Definition unregister (r : option nat) (w : Wait) : Wait :=
  let '(_, s) := unregister_for_notifications (hub_manager descriptor_of allow count deliver caller up) Android16 name callback (hub w) in
  moved deliver s (Returned r) w.
End Calls.

(** [onRegistration]. *)
Definition onRegistration (b : nat) (rest : list nat) (w : Wait) : Wait :=
  mkWait (hub w) (Some b) rest (phase w) (seen w) (since w).

(** A request of somebody else: it has not the callback, and what it unregisters is known by another handle. *)
Definition foreign (r : Request) (s : Hub) : Prop :=
  match r with
  | RegisterForNotifications _ cb | RegisterClientCallback _ _ _ cb => cb <> callback
  | UnregisterForNotifications _ cb => cb <> callback /\ proxy_of s !! cb <> proxy_of s !! callback
  | Meet b _ _ => b <> callback
  | _ => True
  end.

Inductive wait_step : Wait -> Wait -> Prop :=
| w_look count deliver caller up t w : phase w = Looking ->
    wait_step w (look_first count deliver caller up t w)
| w_register count deliver caller up w : phase w = Registering -> (reliable = true -> forall x, deliver x = Ok tt) ->
    wait_step w (register count deliver caller up w)
| w_woken b w : phase w = Waiting -> slot w = Some b -> wait_step w (set_phase (Leaving (Some b)) w)
| w_timeout w : phase w = Waiting -> slot w = None -> wait_step w (set_phase Repolling w)
| w_again count deliver caller up t w : phase w = Repolling -> wait_step w (look_again count deliver caller up t w)
| w_poll count deliver caller up t w : phase w = Polling -> wait_step w (poll_once count deliver caller up t w)
| w_slept w : phase w = Sleeping -> wait_step w (set_phase Polling w)
| w_leave count deliver caller up r w : phase w = Leaving r -> wait_step w (unregister count deliver caller up r w)
| w_arrives b rest w : in_flight w = b :: rest -> wait_step w (onRegistration b rest w)
| w_others count deliver r w : valid_request r (hub w) -> foreign r (hub w) -> (reliable = true -> forall x, deliver x = Ok tt) ->
    wait_step w (moved deliver (serve count deliver r (hub w)) (phase w) w).

(** The manager does not know the callback of a new waiter. *)
Definition fresh_callback (s : Hub) : Prop :=
  Hub.knows natives s callback = false /\ forall n, callback ∉ callbacks_of n s.

Inductive wait_reachable : Wait -> Prop :=
| wr_start s : hub_reachable s -> fresh_callback s -> wait_reachable (mkWait s None [] Looking (observe s []) [])
| wr_step w w' : wait_reachable w -> wait_step w w' -> wait_reachable w'.

(** ** Lemmas of the manager's side *)

(** A lookup by the waiter is one of the requests, or did not get through. *)
Lemma look_cases count deliver caller up t s : exists s',
  (look count deliver caller up t s = (Ok (visible rpc (local t) Android16 name s), s') \/
   exists e, look count deliver caller up t s = (Err e, s')) /\
  same_but s s' /\ told s s' /\ (hub_reachable s -> hub_reachable s').
Proof.
  unfold look. destruct up as [e |].
  - exists s. split_and!; [right; eexists; cbn; by rewrite (proj1 (code_status_roundtrip e)) | done | by apply not_told | done].
  - destruct (hub_lookups count name s) as (s' & Hs & _ & _ & E & _). exists s'.
    assert (Es : s' = serve count deliver (GetService2 name) s) by (cbn; by rewrite E).
    split_and!; [left | done | rewrite Es; apply serve_fired | intros Hr; rewrite Es; by apply hub_serve].
    cbn. unfold bind, into_code, over. by rewrite E.
Qed.

(** The manager knows the callback and has it under the name. *)
Definition listed (s : Hub) : Prop := callback ∈ callbacks_of name s /\ Hub.knows natives s callback = true.
Definition elsewhere (s : Hub) : Prop := forall n, n <> name -> callback ∉ callbacks_of n s.

Lemma arrivals_right deliver s s' b : told s s' -> elsewhere s' -> b ∈ arrivals deliver s s' -> registry s' !! name = Some b.
Proof.
  intros (l & E & Hl) He. unfold arrivals. rewrite E, drop_app_length. rewrite list_elem_of_omap. intros (x & Hx & Hb).
  rewrite Forall_forall in Hl. specialize (Hl x Hx). destruct x as [cb n y |]; [| done]. cbn in Hl.
  destruct (Nat.eqb_spec cb callback) as [-> |]; cbn in Hb; [| done]. destruct (is_ok _); [| done]. injection Hb as ->.
  destruct Hl as [Hc Hr]. destruct (decide (n = name)) as [-> | Hn]; [done |]. by destruct (He n Hn).
Qed.

(** ** The lists under other requests *)

Lemma callbacks_inner s s' : name_to_registration_callbacks (inner s') = name_to_registration_callbacks (inner s) ->
  forall n, callbacks_of n s' = callbacks_of n s.
Proof. intros E n. unfold callbacks_of. by rewrite E. Qed.

Lemma push_callbacks n m cb x : default [] (push_callback n cb m !! x) = default [] (m !! x) ++ (if decide (x = n) then [cb] else []).
Proof.
  unfold push_callback. destruct (decide (x = n)) as [-> | Hn]; [by rewrite lookup_insert_eq |].
  by rewrite lookup_insert_ne, app_nil_r.
Qed.

Lemma other_handle s cb : cb <> callback -> proxy_of s !! cb <> proxy_of s !! callback ->
  wi_eq (downgrade s callback) (downgrade s cb) = false.
Proof.
  intros Hn Hp. unfold downgrade.
  destruct (proxy_of s !! callback) as [h |] eqn:E1, (proxy_of s !! cb) as [h' |] eqn:E2;
    repeat (match goal with |- context [cache s !! ?x] => destruct (cache s !! x) end); cbn; try done;
    try (by apply Nat.eqb_neq, not_eq_sym).
  apply andb_false_iff. left. apply Z.eqb_neq. congruence.
Qed.

Lemma unregister_lists s n cb x :
  callbacks_of x (remove_registration_callback (Some n) (downgrade s cb) s).2 =
  if decide (x = n) then retain_callbacks s (downgrade s cb) (callbacks_of x s) else callbacks_of x s.
Proof.
  unfold remove_registration_callback, callbacks_of. destruct (name_to_registration_callbacks (inner s) !! n) as [cbs |] eqn:E; cbn.
  - destruct (retain_callbacks s (downgrade s cb) cbs) as [| y l] eqn:Er; destruct (decide (x = n)) as [-> | Hn];
      rewrite ?lookup_delete_eq, ?lookup_insert_eq, ?lookup_delete_ne, ?lookup_insert_ne by done; cbn; rewrite ?E; cbn; done.
  - destruct (decide (x = n)) as [-> | Hn]; [by rewrite E | done].
Qed.

(** Somebody else's request leaves the callback where it is, and the manager does not get to know it. *)
Lemma others_lists count deliver r s : hub_reachable s -> valid_request r s -> foreign r s ->
  forall n, callback ∈ callbacks_of n (serve count deliver r s) <-> callback ∈ callbacks_of n s.
Proof.
  intros Hr Hv Hf n. pose proof (serve_effect descriptor_of allow count deliver r s) as He.
  destruct He as [s' Hs | caller m b prio s' -> _ _ _ _ Hs | m cb s' -> _ mm _ _ Hs | m cb -> | caller m b cb sv s' -> _ mm _ _ Hs
                 | caller m b sv s' -> _ _ _ _ Hs | who rest -> Ec | h -> | b h d ->].
  - by destruct (same_callbacks _ _ n Hs) as [-> _].
  - destruct (same_callbacks _ _ n Hs) as [-> _]. rewrite (callbacks_inner s); [done |]. cbn.
    by rewrite ?relinked_inner.
  - destruct (same_callbacks _ _ n Hs) as [-> _]. unfold callbacks_of at 1. cbn. rewrite push_callbacks, elem_of_app.
    fold (callbacks_of n s). split; [intros [H' | H'] | by left]; [done |]. destruct (decide (n = m)); [| by apply elem_of_nil in H'].
    apply list_elem_of_singleton in H'. by subst cb.
  - rewrite unregister_lists. destruct (decide (n = m)) as [-> |]; [| done]. destruct Hf as [Hn Hp].
    unfold retain_callbacks. rewrite list_elem_of_In, filter_In, <- list_elem_of_In, other_handle by done. cbn. tauto.
  - destruct (same_callbacks _ _ n Hs) as [-> _]. by rewrite (callbacks_inner s).
  - destruct (same_callbacks _ _ n Hs) as [-> _]. rewrite (callbacks_inner s); [done |]. cbn. by rewrite ?unlink_inner.
  - by rewrite (receive_noop descriptor_of allow natives s who rest Hr Ec).
  - rewrite (callbacks_inner s); [done |]. unfold obituary. by repeat case_match.
  - by rewrite (callbacks_inner s).
Qed.

Lemma others_proxy count deliver r s : foreign r s -> proxy_of (serve count deliver r s) !! callback = proxy_of s !! callback.
Proof.
  intros Hf. pose proof (serve_effect descriptor_of allow count deliver r s) as He.
  assert (Hl : forall b s0, proxy_of (unlink_death b s0) = proxy_of s0) by (intros; apply unlink_frame).
  destruct He as [s' [_ Hs] | caller m b prio s' -> _ _ _ _ [_ Hs] | m cb s' -> _ mm _ _ [_ Hs] | m cb -> | caller m b cb sv s' -> _ mm _ _ [_ Hs]
                 | caller m b sv s' -> _ _ _ _ [_ Hs] | who rest -> Ec | h -> | b h d ->]; try destruct Hs as (-> & _).
  - done.
  - cbn. by rewrite (proj1 (relinked_frame _ _ _)).
  - cbn. by rewrite (proj1 (linked_frame _ _ _)).
  - unfold remove_registration_callback. by repeat case_match.
  - cbn. by rewrite (proj1 (linked_frame _ _ _)).
  - cbn. by rewrite Hl.
  - done.
  - unfold obituary. by repeat case_match.
  - cbn. rewrite lookup_insert_ne; [done | exact Hf].
Qed.

(** When callbacks get through, a registration of the name sends something to the waiter. *)
Lemma registration_arrives count deliver r s : hub_reachable s -> (forall x, deliver x = Ok tt) -> listed s ->
  registry s !! name = None -> registry (serve count deliver r s) !! name <> None ->
  arrivals deliver s (serve count deliver r s) <> [].
Proof.
  intros Hr Hd Hl Hn Hs. pose proof (registry_kept descriptor_of allow natives count deliver r s Hr) as Ho.
  destruct r as [caller n b prio | | | | | | | | caller n b | | | |]; try (rewrite Ho, Hn in Hs by done; done).
  - cbn [Hub.serve] in *. destruct (add_cases descriptor_of allow count deliver caller n b prio s) as [[e E] | (E & _)]; rewrite E in *; [done |].
    set (a := added _ _ _ _ _ _) in *. destruct (finish_fired count deliver n b a) as (l & q & _ & Ef & _ & Eq).
    destruct (same_callbacks a _ n (registered_same count deliver n b a)) as [_ Er].
    fold (finish_add count deliver n b) in Er. rewrite Er in Hs. unfold a in Hs. rewrite registry_added in Hs.
    destruct (decide (n = name)) as [-> | Hne]; [| rewrite lookup_insert_ne in Hs by done; done].
    assert (Hfa : fired a = fired s) by (unfold a, added, relinked, unlink_death; by repeat case_match).
    assert (Hca : callback ∈ callbacks_of name a).
    { unfold a. rewrite (callbacks_inner s); [apply Hl |]. cbn. by rewrite ?relinked_inner. }
    unfold arrivals. rewrite Ef, Hfa, drop_app_length, (Eq Hd). intros Hx. apply (elem_of_nil b). rewrite <- Hx.
    apply list_elem_of_omap. exists (Registration callback name b).
    split; [apply elem_of_app; right; by apply list_elem_of_fmap_2' with callback |].
    by rewrite Nat.eqb_refl, Hd.
  - cbn [Hub.serve] in *. destruct (unregister_result count caller n b s) as [(e & _ & E) | (_ & _ & E)]; rewrite E in Hs; [done |].
    destruct (decide (n = name)) as [-> | Hne]; [by rewrite lookup_delete_eq in Hs | by rewrite lookup_delete_ne in Hs].
Qed.

(** ** The waiter's own requests *)

Lemma register_result s : callback ∉ callbacks_of name s ->
  let r := registerForNotifications name callback s in
  (exists e, r = (Err e, s)) \/
  (r.1 = Ok tt /\ callback ∈ callbacks_of name r.2 /\ (forall n, n <> name -> callbacks_of n r.2 = callbacks_of n s) /\ registry r.2 = registry s /\
   forall b, registry s !! name = Some b -> fired r.2 = fired s ++ [Registration callback name b]).
Proof.
  intros Hc r. pattern r. set (P := fun _ : outcome Status unit * Hub => _). unfold r, registerForNotifications.
  destruct (is_valid_service_name name); cbn [negb]; [| left; by eexists].
  unfold bind at 1, get. cbv beta iota. set (m := name_to_registration_callbacks (inner s)).
  destruct (admission m name callback) eqn:Ea.
  { exfalso. apply Hc. unfold callbacks_of. fold m. unfold admission in Ea. destruct (m !! name) as [l |]; cbn in *.
    - destruct (existsb _ l) eqn:Ex; [by apply existsb_elem | by repeat case_match].
    - by case_match. }
  { left. by eexists. }
  assert (Hx : (exists e, (if already_linked m callback then ret tt else link_death callback) s = (Err e, s)) \/
               exists k, (if already_linked m callback then ret tt else link_death callback) s = (Ok tt, set_links k s)).
  { destruct (already_linked m callback); [right; exists (links s); by destruct s |].
    destruct (link_death_cases callback s) as [[e E] | [E _]]; [left; eauto | right; eauto]. }
  destruct Hx as [[e E] | [k E]]; unfold bind; rewrite E; [left; by eexists | right]. unfold modify, fire_pending. cbn.
  split_and!; [done | apply elem_push | | done |].
  - intros n Hn. unfold callbacks_of. cbn. rewrite push_callbacks. destruct (decide (n = name)); [done | apply app_nil_r].
  - intros b Hb. unfold registry in Hb. rewrite lookup_fmap in Hb. by destruct (name_to_service (inner s) !! name); [injection Hb as <- |].
Qed.

Lemma entry_same s s' : same_but s s' -> entry name s' = entry name s.
Proof.
  intros [(E & _ & _) _]. unfold entry. apply (f_equal (fun m => (fun sv => (binder sv, is_accessor sv)) <$> m !! name)) in E.
  rewrite !lookup_fmap in E. by destruct (name_to_service (inner s) !! name), (name_to_service (inner s') !! name).
Qed.

Lemma register_entry n cb s : entry name (registerForNotifications n cb s).2 = entry name s.
Proof.
  destruct (register_effect descriptor_of allow n cb s) as [s' Hs | caller m b prio s' Er | m c s' Er _ mm _ _ Hs | m c Er
    | caller m b c sv s' Er | caller m b sv s' Er | who rest Er | h Er | b h d Er]; try done; by rewrite (entry_same _ _ Hs).
Qed.

Lemma register_proxy s : proxy_of (registerForNotifications name callback s).2 = proxy_of s.
Proof.
  destruct (register_effect descriptor_of allow name callback s) as [s' [_ (E & _)] | caller m b prio s' Er | m cb s' Er _ mm _ _ [_ (E & _)] | m cb Er
    | caller m b cb sv s' Er | caller m b sv s' Er | who rest Er | h Er | b h d Er]; try done. rewrite E. cbn. by rewrite (proj1 (linked_frame _ _ _)).
Qed.

Lemma unregister_clears s : elsewhere s -> forall n, callback ∉ callbacks_of n (unregisterForNotifications name callback s).2.
Proof.
  intros He n Hi. assert (Ew : wi_eq (downgrade s callback) (downgrade s callback) = true).
  { unfold downgrade. repeat case_match; cbn; by rewrite ?Z.eqb_refl, ?Nat.eqb_refl. }
  assert (Eu : (unregisterForNotifications name callback s).2 = (remove_registration_callback (Some name) (downgrade s callback) s).2).
  { unfold unregisterForNotifications, bind, get. destruct (remove_registration_callback _ _ _) as [f s1]. by destruct f. }
  rewrite Eu, unregister_lists in Hi. destruct (decide (n = name)) as [-> | Hn]; [| by apply (He n Hn)].
  unfold retain_callbacks in Hi. apply list_elem_of_In, filter_In in Hi as [_ Hi]. by rewrite Ew in Hi.
Qed.

(** ** The invariant *)

(** What can be returned: a binder that was registered meanwhile, the root behind an accessor that was, or one of a provider of
    the process. *)
Definition legitimate (w : Wait) (b : nat) : Prop :=
  b ∈ seen w \/
  (exists a m, a ∈ seen w /\ getInstanceName a = Ok name /\ resolve_accessor name a = Some m /\ service m = Some b) \/
  (exists t m, local t name = Some m /\ service m = Some b).

Definition registered_phase (ph : WaitPhase) : bool := match ph with Waiting | Repolling | Leaving _ => true | _ => false end.
Definition early_phase (ph : WaitPhase) : bool := match ph with Looking | Registering => true | _ => false end.
Definition result_of (ph : WaitPhase) : option nat := match ph with Leaving r | Returned r => r | _ => None end.

Record wait_inv (w : Wait) : Prop := mkWaitInv {
  wv_hub : hub_reachable (hub w);
  wv_early : early_phase (phase w) = true -> fresh_callback (hub w) /\ slot w = None /\ in_flight w = [];
  wv_listed : registered_phase (phase w) = true -> listed (hub w);
  wv_only : elsewhere (hub w);
  wv_seen : (forall b, b ∈ in_flight w -> b ∈ seen w) /\ (forall b, slot w = Some b -> b ∈ seen w);
  wv_now : forall b, registry (hub w) !! name = Some b -> b ∈ seen w /\ (registered_phase (phase w) = true -> b ∈ since w);
  wv_told : reliable = true -> registered_phase (phase w) = true -> since w <> [] -> slot w <> None \/ in_flight w <> [];
  wv_result : forall b, result_of (phase w) = Some b -> legitimate w b
}.

Lemma observe_mono s l b : b ∈ l -> b ∈ observe s l.
Proof. intros Hb. unfold observe. destruct (registry s !! name); [by apply elem_of_app; left | done]. Qed.

Lemma observe_now s l b : registry s !! name = Some b -> b ∈ observe s l.
Proof. intros E. unfold observe. rewrite E. apply elem_of_app. right. by apply list_elem_of_singleton. Qed.

Lemma legitimate_mono w w' b : (forall x, x ∈ seen w -> x ∈ seen w') -> legitimate w b -> legitimate w' b.
Proof. intros Hs [Hb | [(a & m & Ha & Hm) | Hm]]; [left; auto | right; left; exists a, m; auto | by right; right]. Qed.

Lemma arrivals_none deliver s s' : told s s' -> (forall n, callback ∉ callbacks_of n s') -> arrivals deliver s s' = [].
Proof.
  intros (l & E & Hl) Hn. unfold arrivals. rewrite E, drop_app_length. clear E. induction Hl as [| x l Hx Hl IH]; [done |]. cbn.
  rewrite IH. destruct x as [cb n b |]; [| done]. destruct Hx as [Hc _].
  destruct (Nat.eqb_spec cb callback) as [-> |]; [by destruct (Hn n) | done].
Qed.

Lemma moved_inv deliver s ph w : wait_inv w -> hub_reachable s -> told (hub w) s -> elsewhere s ->
  (early_phase ph = true -> early_phase (phase w) = true /\ fresh_callback s) ->
  (registered_phase ph = true -> registered_phase (phase w) = true /\ listed s) ->
  (reliable = true -> registered_phase ph = true -> registry (hub w) !! name = None -> registry s !! name <> None ->
     arrivals deliver (hub w) s <> []) ->
  (forall b, result_of ph = Some b -> legitimate (moved deliver s ph w) b) -> wait_inv (moved deliver s ph w).
Proof.
  intros [H1 H2 H3 H4 [H5 H6] H7 H8 H9] Hr Ht He Hearly Hreg Hnew Hres. split; cbn [moved hub slot in_flight phase seen since]; try done.
  - intros Hph. destruct (Hearly Hph) as [Hw Hf]. destruct (H2 Hw) as (_ & -> & ->). split_and!; [done | done |].
    cbn. apply arrivals_none; [done | apply Hf].
  - intros Hph. by apply Hreg.
  - split; [| intros b Hb; apply observe_mono; auto]. intros b [Hb | Hb]%elem_of_app; [apply observe_mono; auto |].
    apply observe_now. by eapply arrivals_right.
  - intros b Hb. split; [by apply observe_now | intros _; by apply observe_now].
  - intros Hrel Hph Hs. destruct (Hreg Hph) as [Hw _]. destruct (decide (since w = [])) as [E0 | Hne].
    + right. intros [_ Ea]%app_nil. apply (Hnew Hrel Hph); [| | done].
      * destruct (registry (hub w) !! name) as [b |] eqn:E; [| done]. destruct (H7 b eq_refl) as [_ Hb]. specialize (Hb Hw).
        rewrite E0 in Hb. by apply elem_of_nil in Hb.
      * intros E. apply Hs. unfold observe. by rewrite E.
    + destruct (H8 Hrel Hw Hne) as [? | Hi]; [by left | right]. intros [? _]%app_nil. done.
Qed.

Lemma entry_registry s b acc : entry name s = Some (b, acc) -> registry s !! name = Some b.
Proof. unfold entry, registry. rewrite lookup_fmap. destruct (name_to_service (inner s) !! name); [| done]. by intros [= <- _]. Qed.

(** What a lookup finds is legitimate. *)
Lemma visible_legitimate t w s ph deliver b : wait_inv w -> registry s = registry (hub w) -> entry name s = entry name (hub w) ->
  visible rpc (local t) Android16 name (hub w) = Some b -> legitimate (moved deliver s ph w) b.
Proof.
  intros Hw Hreg Hent. cbn [visible]. unfold of_answer. intros Hv.
  destruct (dispatch_typed_service _ _ _ _) as [m |] eqn:Ed; [| done]. cbn in Hv.
  assert (Hseen : forall x acc, entry name (hub w) = Some (x, acc) -> x ∈ seen (moved deliver s ph w)).
  { intros x acc Ex%entry_registry. cbn. apply observe_now. by rewrite Hreg. }
  assert (Hfall : try_process_local_fallback rpc (local t) name = Some m -> legitimate (moved deliver s ph w) b).
  { unfold try_process_local_fallback. destruct rpc; [| done]. intros E. right. right. by exists t, m. }
  destruct (entry name (hub w)) as [[x [|]] |] eqn:Ee; cbn in Ed.
  - unfold or_else, resolve_accessor_arm in Ed. destruct rpc; cbn in Ed; [| auto].
    destruct (resolve_accessor name x) as [m' |] eqn:Er; [| auto]. injection Ed as ->.
    pose proof Er as (_ & Hn & _)%resolve_accessor_inv. right. left. exists x, m. split_and!; eauto.
  - injection Ed as <-. injection Hv as ->. left. eauto.
  - unfold or_else in Ed. destruct (try_process_local_fallback rpc (local t) name) as [m' |]; [injection Ed as ->; auto |].
    injection Ed as <-. done.
Qed.

Lemma fresh_same s s' : same_but s s' -> fresh_callback s -> fresh_callback s'.
Proof.
  intros Hs [Hk Hn]. split.
  - unfold Hub.knows, as_proxy in *. by destruct Hs as [_ (-> & _)].
  - intros n. by destruct (same_callbacks s s' n Hs) as [-> _].
Qed.

Lemma look_inv count deliver caller up t found missing w : wait_inv w ->
  (forall x, early_phase (found x) = false /\ result_of (found x) = x) -> result_of missing = None ->
  (forall ph, ph = missing \/ (exists x, ph = found x) -> (registered_phase ph = true -> registered_phase (phase w) = true) /\
     (early_phase ph = true -> early_phase (phase w) = true)) ->
  wait_inv (let '(r, s) := look count deliver caller up t (hub w) in moved deliver s (looked found missing r) w).
Proof.
  intros Hw Hfound Hmiss Hph. destruct (look_cases count deliver caller up t (hub w)) as (s & Hl & Hs & Ht & Hr).
  destruct (look count deliver caller up t (hub w)) as [r s'] eqn:El. assert (s' = s) as -> by (destruct Hl as [E | [e E]]; congruence).
  set (ph := looked found missing r).
  assert (Hp : ph = missing \/ exists x, ph = found x) by (unfold ph; destruct r as [[b |] | |]; cbn; eauto).
  destruct (Hph ph Hp) as [P1 P2]. pose proof (same_callbacks _ _ name Hs) as [Ec Er]. apply moved_inv; try done.
  - by apply Hr, wv_hub.
  - intros n Hn. destruct (same_callbacks _ _ n Hs) as [-> _]. by apply (wv_only _ Hw).
  - intros He. split; [auto |]. apply (fresh_same (hub w)); [done |]. by apply (wv_early _ Hw), P2.
  - intros Hg. split; [auto |]. unfold listed. rewrite Ec. unfold Hub.knows, as_proxy. destruct (sb_world _ _ Hs) as (-> & _).
    by apply (wv_listed _ Hw), P1.
  - intros _ _ E1 E2. by rewrite Er, E1 in E2.
  - intros b Hb. apply (visible_legitimate t); [done | done | by apply entry_same |].
    destruct Hl as [E | [e E]]; injection E as ->; unfold ph in Hb.
    + cbn [visible] in *. destruct (of_answer _ _ _ _) as [x |]; cbn [looked] in Hb; [by rewrite (proj2 (Hfound _)) in Hb | congruence].
    + cbn [looked] in Hb. by rewrite (proj2 (Hfound None)) in Hb.
Qed.

Lemma phase_inv ph w : wait_inv w -> early_phase ph = false ->
  (registered_phase ph = true -> registered_phase (phase w) = true) -> (forall b, result_of ph = Some b -> legitimate w b) ->
  wait_inv (set_phase ph w).
Proof.
  intros [H1 H2 H3 H4 H5 H6 H7 H8] He Hg Hres. split; cbn; try done; [by rewrite He | auto | | auto].
  intros b Hb. destruct (H6 b Hb). auto.
Qed.

Lemma since_inv l w : wait_inv w -> registered_phase (phase w) = false ->
  wait_inv (mkWait (hub w) (slot w) (in_flight w) (phase w) (seen w) l).
Proof.
  intros [H1 H2 H3 H4 H5 H6 H7 H8] Hg. split; cbn; try done; [| by rewrite Hg]. intros b Hb. rewrite Hg. destruct (H6 b Hb). done.
Qed.

(** The manager has the callback, and told of what is there. *)
Lemma registered_inv deliver s0 s w : wait_inv w -> phase w = Registering -> (reliable = true -> forall x, deliver x = Ok tt) ->
  fired s0 = fired (hub w) -> hub_reachable s -> told s0 s -> listed s -> elsewhere s ->
  (forall b, registry s !! name = Some b -> fired s = fired s0 ++ [Registration callback name b]) ->
  wait_inv (mkWait s (slot w) (in_flight w ++ arrivals deliver (hub w) s) Waiting (observe s (seen w)) (observe s [])).
Proof.
  intros Hw Hph Hd Ef Hr Ht Hl He Hfire. destruct (wv_early _ Hw) as (_ & Es & Ei); [by rewrite Hph |]. rewrite Es, Ei.
  assert (Ht' : told (hub w) s) by (destruct Ht as (l & E & F); exists l; by rewrite <- Ef).
  split; cbn; try done.
  - split; [| done]. intros b Hb. apply observe_now. by eapply arrivals_right.
  - intros b Hb. split; [by apply observe_now | intros _; by apply observe_now].
  - intros Hrel _ Hs. right. unfold observe in Hs. destruct (registry s !! name) as [b |]; [| done].
    unfold arrivals. rewrite (Hfire b eq_refl), Ef, drop_app_length. cbn. by rewrite Nat.eqb_refl, (Hd Hrel).
Qed.

Lemma register_inv count deliver caller up w : wait_inv w -> phase w = Registering -> (reliable = true -> forall x, deliver x = Ok tt) ->
  wait_inv (register count deliver caller up w).
Proof.
  intros Hw Hph Hd. destruct (wv_early _ Hw) as (Hf & Es & Ei); [by rewrite Hph |]. pose proof Hf as [Hk Hn].
  assert (Hout : forall s, hub_reachable s -> fired s = fired (hub w) -> (forall n, callback ∉ callbacks_of n s) ->
            wait_inv (mkWait s (slot w) (in_flight w ++ arrivals deliver (hub w) s) Polling (observe s (seen w)) (observe s []))).
  { intros s Hr Hfi Hc. apply (since_inv (observe s []) (moved deliver s Polling w)); [| done].
    apply moved_inv; try done; [by apply not_told | intros n _; apply Hc]. }
  unfold register. destruct up as [e |]; cbn.
  { apply Hout; [apply Hw | done | done]. }
  set (s0 := meet callback handle "" (hub w)). unfold into_code, over.
  assert (Hr0 : hub_reachable s0) by (apply (hub_serve _ _ _ count deliver (Meet callback handle "")); [apply Hw | exact Hk]).
  destruct (register_result s0) as [[e E] | (E1 & E2 & E3 & E4 & E5)]; [apply Hn | |].
  - rewrite E. cbn. by apply Hout.
  - assert (Hr1 : hub_reachable (registerForNotifications name callback s0).2).
    { apply (hub_serve _ _ _ count deliver (RegisterForNotifications name callback)); [done |]. cbn. unfold Hub.knows, as_proxy. cbn.
      rewrite lookup_insert_eq. apply orb_true_r. }
    pose proof (register_fired name callback s0) as Ht.
    assert (Ep : proxy_of (registerForNotifications name callback s0).2 = proxy_of s0) by apply register_proxy.
    destruct (registerForNotifications name callback s0) as [r s]. cbn in *. subst r. cbn.
    apply (registered_inv deliver s0); try done.
    + split; [done |]. unfold Hub.knows, as_proxy. rewrite Ep, lookup_insert_eq. apply orb_true_r.
    + intros n Hne. rewrite E3 by done. apply Hn.
    + intros b Hb. apply E5. by rewrite <- E4.
Qed.

Lemma unregister_inv count deliver caller up r w : wait_inv w -> phase w = Leaving r ->
  wait_inv (unregister count deliver caller up r w).
Proof.
  intros Hw Hph. unfold unregister.
  assert (Hres : forall s b, result_of (Returned r) = Some b -> legitimate (moved deliver s (Returned r) w) b).
  { intros s b Hb. apply (legitimate_mono w); [by intros x; apply observe_mono |]. apply (wv_result _ Hw). by rewrite Hph. }
  destruct up as [e |]; cbn.
  - apply moved_inv; try done; [apply Hw | by apply not_told | apply Hw | apply Hres].
  - unfold into_code, over.
    pose proof (serve_fired descriptor_of allow count deliver (UnregisterForNotifications name callback) (hub w)) as Ht.
    pose proof (unregister_clears (hub w) (wv_only _ Hw)) as Hc. cbn [Hub.serve] in Ht.
    assert (Hr : hub_reachable (unregisterForNotifications name callback (hub w)).2).
    { apply (hub_serve _ _ _ count deliver (UnregisterForNotifications name callback)); [apply Hw |].
      apply (wv_listed _ Hw). by rewrite Hph. }
    destruct (unregisterForNotifications name callback (hub w)) as [q s]. apply moved_inv; try done; [| apply Hres].
    intros n _. apply Hc.
Qed.

Lemma others_inv count deliver r w : wait_inv w -> valid_request r (hub w) -> foreign r (hub w) ->
  (reliable = true -> forall x, deliver x = Ok tt) -> wait_inv (moved deliver (serve count deliver r (hub w)) (phase w) w).
Proof.
  intros Hw Hv Hf Hd. pose proof (others_lists count deliver r (hub w) (wv_hub _ Hw) Hv Hf) as Hl.
  assert (Hk : Hub.knows natives (serve count deliver r (hub w)) callback = Hub.knows natives (hub w) callback).
  { unfold Hub.knows, as_proxy. by rewrite others_proxy. }
  apply moved_inv; try done.
  - apply hub_serve; [apply Hw | done].
  - apply serve_fired.
  - intros n Hn. rewrite Hl. by apply (wv_only _ Hw).
  - intros He. split; [done |]. destruct (wv_early _ Hw He) as ([Hk' Hn] & _). split; [by rewrite Hk |]. intros n. by rewrite Hl.
  - intros Hg. split; [done |]. destruct (wv_listed _ Hw Hg) as [? ?]. split; [by apply Hl | by rewrite Hk].
  - intros Hrel Hg E1 E2. apply registration_arrives; try done; [apply Hw | auto | by apply Hw].
  - intros b Hb. apply (legitimate_mono w); [by intros x; apply observe_mono |]. by apply (wv_result _ Hw).
Qed.

Lemma arrives_inv b rest w : wait_inv w -> in_flight w = b :: rest -> wait_inv (onRegistration b rest w).
Proof.
  intros [H1 H2 H3 H4 [H5 H6] H7 H8 H9] Ei. rewrite Ei in *. split; cbn; try done.
  - intros He. by destruct (H2 He) as (_ & _ & ?).
  - split; [intros x Hx; apply H5; by apply elem_of_cons; right | intros x [= <-]; apply H5, list_elem_of_here].
  - intros _ _ _. by left.
Qed.

Lemma start_inv s : hub_reachable s -> fresh_callback s -> wait_inv (mkWait s None [] Looking (observe s []) []).
Proof.
  intros Hr Hf. split; cbn; try done; [intros n _; apply Hf | split; [intros b Hb; by apply elem_of_nil in Hb | done] |].
  intros b Hb. split; [by apply observe_now | done].
Qed.

Lemma wait_invariant w : wait_reachable w -> wait_inv w.
Proof.
  induction 1 as [s Hr Hf | w w' _ IH Hs]; [by apply start_inv |].
  destruct Hs as [count deliver caller up t w Hp | count deliver caller up w Hp Hd | b w Hp Hb | w Hp Hb
    | count deliver caller up t w Hp | count deliver caller up t w Hp | w Hp | count deliver caller up r w Hp | b rest w Hi | count deliver r w Hv Hf Hd].
  - apply look_inv; try done.
    intros ph [-> | [x ->]]; rewrite Hp; done.
  - by apply register_inv.
  - apply phase_inv; try done; [by rewrite Hp |]. intros x [= <-]. left. by apply (wv_seen _ IH).
  - apply phase_inv; try done; by rewrite Hp.
  - apply look_inv; try done.
    intros ph [-> | [x ->]]; rewrite Hp; done.
  - apply look_inv; try done.
    intros ph [-> | [x ->]]; rewrite Hp; done.
  - apply phase_inv; try done; by rewrite Hp.
  - by apply unregister_inv.
  - by apply arrives_inv.
  - by apply others_inv.
Qed.

(** ** The thread on its own *)

(** Its next step while transactions get through; a timeout comes when there is nothing in the slot. *)
Definition next_step (count : nat -> option Z) (deliver : PendingCallback -> outcome Status unit) (caller : CallingContext) (t : nat)
    (w : Wait) : Wait :=
  match phase w with
  | Looking => look_first count deliver caller None t w
  | Registering => register count deliver caller None w
  | Waiting => match slot w with Some b => set_phase (Leaving (Some b)) w | None => set_phase Repolling w end
  | Repolling => look_again count deliver caller None t w
  | Polling => poll_once count deliver caller None t w
  | Sleeping => set_phase Polling w
  | Leaving r => unregister count deliver caller None r w
  | Returned _ => w
  end.

Section Alone.
Context (count : nat -> option Z) (deliver : PendingCallback -> outcome Status unit) (caller : CallingContext) (t : nat).
Local Abbreviation go := (next_step count deliver caller t).

Lemma look_finds b w : entry name (hub w) = Some (b, false) ->
  exists s, look count deliver caller None t (hub w) = (Ok (Some b), s).
Proof.
  intros E. destruct (hub_lookups count name (hub w)) as (s & _ & _ & _ & E2 & _). exists s.
  unfold look. cbn. unfold bind, into_code, over. rewrite E2, E. done.
Qed.

Lemma go_leaving r w : phase w = Leaving r -> phase (go w) = Returned r.
Proof. intros E. unfold next_step. rewrite E. unfold unregister. by destruct (unregister_for_notifications _ _ _ _ _). Qed.

Lemma go_waiting b w : phase w = Waiting \/ phase w = Repolling -> entry name (hub w) = Some (b, false) ->
  exists b', phase (go w) = Leaving (Some b') \/ (phase (go w) = Repolling /\ hub (go w) = hub w).
Proof.
  intros [E | E] He; unfold next_step; rewrite E.
  - destruct (slot w) as [x |]; [exists x; by left | exists b; by right].
  - exists b. left. unfold look_again. destruct (look_finds b w He) as (s & ->). done.
Qed.

(** Lookups that poll return at once. *)
Lemma go_looking b w : phase w = Looking \/ phase w = Polling -> entry name (hub w) = Some (b, false) -> phase (go w) = Returned (Some b).
Proof.
  intros [E | E] He; unfold next_step; rewrite E; unfold look_first, poll_once; destruct (look_finds b w He) as (s & ->); done.
Qed.

Lemma go_registering w : fresh_callback (hub w) -> phase w = Registering ->
  (phase (go w) = Waiting \/ phase (go w) = Polling) /\ entry name (hub (go w)) = entry name (hub w).
Proof.
  intros [Hk Hn] E. unfold next_step. rewrite E. unfold register. cbn. set (s0 := meet callback handle "" (hub w)). unfold into_code, over.
  pose proof (register_entry name callback s0) as He.
  destruct (registerForNotifications name callback s0) as [[] s]; cbn in *; (split; [by auto | by rewrite He]).
Qed.

Lemma go_stays w r k : phase w = Returned r -> phase (Nat.iter k go w) = Returned r.
Proof. intros E. induction k as [| k IH]; [done |]. change (Nat.iter (S k) go w) with (go (Nat.iter k go w)). unfold next_step at 1. by rewrite IH. Qed.

Lemma go_four b w : wait_inv w -> result_of (phase w) <> None \/ (forall r, phase w <> Leaving r /\ phase w <> Returned r) ->
  entry name (hub w) = Some (b, false) -> exists b', phase (Nat.iter 4 go w) = Returned (Some b').
Proof.
  intros Hw Hres He. change (Nat.iter 4 go w) with (Nat.iter 2 go (go (go w))).
  assert (Hlook : forall v k, phase v = Looking \/ phase v = Polling -> entry name (hub v) = Some (b, false) ->
            phase (Nat.iter k go (go v)) = Returned (Some b)) by (intros v k Hv Hev; apply go_stays; by apply go_looking).
  assert (Hwait : forall v, phase v = Waiting \/ phase v = Repolling -> entry name (hub v) = Some (b, false) ->
            exists b', phase (go (go (go v))) = Returned (Some b')).
  { intros v Hv Hev. destruct (go_waiting b v Hv Hev) as (x & [E | [E Eh]]).
    - exists x. apply (go_stays _ _ 1). by apply go_leaving.
    - rewrite <- Eh in Hev. destruct (go_waiting b (go v) (or_intror E) Hev) as (y & [E2 | [E2 _]]); [exists y; by apply go_leaving |].
      exfalso. unfold next_step at 1 in E2. rewrite E in E2. unfold look_again in E2.
      destruct (look_finds b (go v) Hev) as (s & Es). rewrite Es in E2. done. }
  destruct (phase w) as [| | | | | | r | r] eqn:Ep.
  - exists b. apply (Hlook w 3%nat); [by left | done].
  - destruct (go_registering w) as [[E | E] Ee]; [by apply (wv_early _ Hw); rewrite Ep | done | |]; rewrite He in Ee.
    + apply (Hwait (go w)); [by left | done].
    + exists b. apply (Hlook (go w) 2%nat); [by right | done].
  - destruct (Hwait w) as [x E]; [by left | done |]. exists x. by apply (go_stays _ _ 1).
  - destruct (Hwait w) as [x E]; [by right | done |]. exists x. by apply (go_stays _ _ 1).
  - exists b. apply (Hlook w 3%nat); [by right | done].
  - exists b. apply (Hlook (go w) 2%nat); unfold next_step; rewrite Ep; [by right | done].
  - destruct r as [x |]; [| by destruct Hres as [? | Hx]; [| destruct (Hx None)]]. exists x. apply (go_stays _ _ 3). by apply go_leaving.
  - destruct r as [x |]; [| by destruct Hres as [? | Hx]; [| destruct (Hx None)]]. exists x. by apply (go_stays _ _ 4).
Qed.
End Alone.
End Wait.

(** * What a waiter can rely on *)

Section Guarantees.
Context (descriptor_of : nat -> string) (allow : bool) (natives : nat -> bool) `{Bridge} (rpc : bool)
  (local : nat -> string -> option ServiceMetadata) (name : string) (callback : nat) (handle : Z).
Local Abbreviation reach := (wait_reachable descriptor_of allow natives rpc local name callback handle).

(** C10: No registration is lost. When callbacks get through, then whatever others do with the manager: a waiter that is in its wait
    with nothing in its slot and nothing on the way has its callback registered, and since it was registered nothing has been registered under the name. *)
Theorem registration_not_lost w : reach true w -> phase w = Waiting -> slot w = None -> in_flight w = [] ->
  since w = [] /\ registry (hub w) !! name = None /\ callback ∈ callbacks_of name (hub w).
Proof.
  intros Hw%wait_invariant Hp Hs Hi. assert (Hg : registered_phase (phase w) = true) by (by rewrite Hp).
  assert (E : since w = []).
  { destruct (decide (since w = [])) as [? | Hne]; [done |]. by destruct (wv_told _ _ _ _ _ _ _ _ Hw eq_refl Hg Hne) as [? | ?]. }
  split_and!; [done | | by apply (wv_listed _ _ _ _ _ _ _ _ Hw)].
  destruct (registry (hub w) !! name) as [b |] eqn:Eb; [| done].
  destruct (wv_now _ _ _ _ _ _ _ _ Hw b Eb) as [_ Hb]. specialize (Hb Hg). rewrite E in Hb. by apply elem_of_nil in Hb.
Qed.

(** C25: A waiter returns what it waits for. Also when notifications fail and whatever others do: what is returned was registered under the
    name during the call, or is the root of an accessor that was and says so, or comes from a provider of the process; the thread that
    leaves after its request was served has its callback nowhere in the manager; and a thread that has not given up, with a
    service under the name, returns one in four steps when its requests get through. *)
Theorem waiter_returns_registered reliable w : reach reliable w ->
  (forall b, phase w = Returned (Some b) ->
     b ∈ seen w \/
     (exists a m, a ∈ seen w /\ getInstanceName a = Ok name /\ resolve_accessor name a = Some m /\ service m = Some b) \/
     (exists t m, local t name = Some m /\ service m = Some b)) /\
  (forall r count deliver caller n, phase w = Leaving r ->
     callback ∉ callbacks_of n (hub (unregister descriptor_of allow name callback count deliver caller None r w))) /\
  (forall b count deliver caller t, phase w <> Leaving None -> phase w <> Returned None -> entry name (hub w) = Some (b, false) ->
     exists b', phase (Nat.iter 4 (next_step descriptor_of allow rpc local name callback handle count deliver caller t) w) = Returned (Some b')).
Proof.
  intros Hw%wait_invariant. split_and!.
  - intros b Hp. apply (wv_result _ _ _ _ _ _ _ _ Hw). by rewrite Hp.
  - intros r count deliver caller n Hp. unfold unregister. cbn. unfold into_code, over.
    pose proof (unregister_clears name callback (hub w) (wv_only _ _ _ _ _ _ _ _ Hw) n) as Hc.
    by destruct (unregisterForNotifications name callback (hub w)).
  - intros b count deliver caller t H1 H2 He. eapply go_four; [done | | done].
    destruct (phase w) as [| | | | | | [r |] | [r |]]; try done; solve [by left | by right].
Qed.
End Guarantees.

(** * Executed runs *)

(** Every binder from 3 on is an accessor for [svc], with a root 99 behind it. *)
#[local] Instance sample_bridge : Bridge := {|
  Session := unit;
  try_from a := Ok tt;
  getInstanceName a := Ok "svc"%string;
  addConnection a := Ok 5;
  from_preconnected_fd fd version := Ok tt;
  get_root session := Ok 90%nat;
  into_sibinder root session := Ok (root + 9)%nat
|}.

Definition sample_descriptor (b : nat) : string := if (b <? 3)%nat then "IFoo" else "android.os.IAccessor".
Definition no_local (t : nat) (name : string) : option ServiceMetadata := None.
Local Abbreviation run_reach := (wait_reachable sample_descriptor false own true no_local "svc" 7 20).
Local Abbreviation run_serve := (Hub.serve sample_descriptor false (counts 1) delivered).
Local Abbreviation run_reachable := (Hub.hub_reachable sample_descriptor false own).

(** The manager knows two services and another callback that is registered for the name. *)
Definition sample_hub : Hub :=
  run_serve (RegisterForNotifications "svc" 5) (run_serve (Meet 5 15 "ICallback")
    (run_serve (Meet 3 13 "IAccessor") (run_serve (Meet 1 11 "IFoo") hub_new))).

Lemma sample_hub_reachable : run_reachable sample_hub.
Proof. repeat (apply hub_serve; [| by vm_compute]). apply hub_start. Qed.

Definition sample_start : Wait := mkWait sample_hub None [] Looking (observe "svc" sample_hub []) [].
Definition waiting : Wait :=
  register sample_descriptor false "svc" 7 20 (counts 1) delivered app1 None
    (look_first sample_descriptor false true no_local "svc" 7 (counts 1) delivered app1 None 0 sample_start).

Lemma sample_fresh n : 7%nat ∉ callbacks_of n sample_hub.
Proof.
  unfold callbacks_of. assert (E : name_to_registration_callbacks (inner sample_hub) = {["svc" := [5%nat]]}) by by vm_compute.
  rewrite E. destruct (decide (n = "svc")) as [-> | Hn].
  - rewrite lookup_singleton_eq. cbn. intros ?%list_elem_of_singleton. done.
  - rewrite lookup_singleton_ne by done. cbn. apply not_elem_of_nil.
Qed.

Lemma waiting_reached reliable : run_reach reliable waiting.
Proof.
  apply (wr_step _ _ _ _ _ _ _ _ _ (look_first sample_descriptor false true no_local "svc" 7 (counts 1) delivered app1 None 0 sample_start)).
  - apply (wr_step _ _ _ _ _ _ _ _ _ sample_start); [| by apply w_look].
    apply wr_start; [apply sample_hub_reachable | split; [by vm_compute | apply sample_fresh]].
  - apply w_register; [by vm_compute | done].
Qed.

(** Somebody else's request, with the outcome of the callbacks. *)
Definition others (deliver : PendingCallback -> outcome Status unit) (r : Request) (w : Wait) : Wait :=
  moved "svc" 7 deliver (Hub.serve sample_descriptor false (counts 1) deliver r (hub w)) (phase w) w.

Lemma registration_not_lost_witness :
  run_reach true waiting /\ phase waiting = Waiting /\ registry (hub waiting) !! "svc" = None.
Proof.
  split_and!; [apply waiting_reached | by vm_compute |].
  apply (registration_not_lost sample_descriptor false own true no_local "svc" 7 20 waiting (waiting_reached true)); by vm_compute.
Defined.

Definition registered_meanwhile : Wait := others delivered (AddService app1 "svc" 1 8) waiting.

Lemma meanwhile_reached reliable : run_reach reliable registered_meanwhile.
Proof. apply (wr_step _ _ _ _ _ _ _ _ _ waiting); [apply waiting_reached | apply w_others; [by vm_compute | done | done]]. Qed.

Lemma waiter_returns_registered_witness : exists b,
  phase (Nat.iter 4 (next_step sample_descriptor false true no_local "svc" 7 20 (counts 1) delivered app1 0) registered_meanwhile)
  = Returned (Some b).
Proof.
  destruct (waiter_returns_registered sample_descriptor false own true no_local "svc" 7 20 false registered_meanwhile
    (meanwhile_reached false)) as (_ & _ & Hgo).
  apply (Hgo 1%nat); [by vm_compute | by vm_compute | by vm_compute].
Defined.

(** A waiter that is told of an accessor returns the accessor itself; a lookup returns the root behind it. *)
Definition told_of_accessor : Wait :=
  let w := others delivered (AddService app1 "svc" 3 8) waiting in
  let w := onRegistration 3 [] w in
  next_step sample_descriptor false true no_local "svc" 7 20 (counts 1) delivered app1 0
    (next_step sample_descriptor false true no_local "svc" 7 20 (counts 1) delivered app1 0 w).

Lemma accessor_not_resolved :
  phase told_of_accessor = Returned (Some 3%nat) /\
  (look sample_descriptor false true no_local "svc" (counts 1) delivered app1 None 0 (hub told_of_accessor)).1 = Ok (Some 99%nat).
Proof. by vm_compute. Qed.

(** The first callback of the name fails: the waiter is not told, and the caller of [addService] gets the error, though the service is registered. *)
Definition first_fails (x : PendingCallback) : outcome Status unit :=
  match x with Registration 5 _ _ => Err (status_of_code StDeadObject) | _ => Ok tt end.

Lemma later_callbacks_skipped :
  let w := others first_fails (AddService app1 "svc" 1 8) waiting in
  run_reach false w /\ phase w = Waiting /\ slot w = None /\ in_flight w = [] /\ registry (hub w) !! "svc" = Some 1%nat /\
  (addService sample_descriptor false (counts 1) first_fails app1 "svc" 1 8 (hub waiting)).1 = Err (status_of_code StDeadObject).
Proof.
  intros w. split; [| by vm_compute]. apply (wr_step _ _ _ _ _ _ _ _ _ waiting); [apply waiting_reached |].
  apply w_others; [by vm_compute | done | done].
Qed.
