(* ===== verification/NativeTable.v ===== *)
(** The table of native binders a process has published (src/rsbinder/src/process_state.rs:
    [publish_native], [incref_publish], [decref_publish], [ref_native_kernel],
    [deref_native_kernel], [lookup_native], [remove_entry_if_zero]), and the objects that refer to it
    (src/rsbinder/src/binder_object.rs: [From<&SIBinder>], [acquire], [release]).

    Threads interleave; a section under the lock of the table is a step. Writing a binder into a parcel
    is two steps, and so is giving up a reference that was the last. The counters are not bounded
    here: they count objects in memory. *)

From Stdlib Require Import ZArith Lia.
From stdpp Require Import base gmap list.
From S2P Require Import Prelude.

(** [binder_pin] names the [Arc]. *)
Record PublishedNative : Type := mkNative {
  binder_pin : nat;
  publish_count : Z;
  kernel_refs : Z;
  pending_reservations : Z
}.

(** Besides the table: [writing] has the ids of the threads between [From<&SIBinder>] and [acquire],
    [removing] those between a last release and [remove_entry_if_zero]; [objects] has an id
    per acquired object in a parcel, [lost] per object whose [acquire] failed, [held] per
    reference of the kernel that was counted; [names] is the history of ids. *)
Record Table : Type := mkTable {
  published_natives : gmap Z PublishedNative;
  next_native_id : Z;
  writing : list Z;
  removing : list Z;
  objects : list Z;
  lost : list Z;
  held : list Z;
  names : gmap Z nat
}.

Definition table_new : Table := mkTable ∅ 1 [] [] [] [] [] ∅.

Definition set_natives (m : gmap Z PublishedNative) (s : Table) : Table :=
  mkTable m (next_native_id s) (writing s) (removing s) (objects s) (lost s) (held s) (names s).
Definition set_writing (l : list Z) (s : Table) : Table :=
  mkTable (published_natives s) (next_native_id s) l (removing s) (objects s) (lost s) (held s) (names s).
Definition set_removing (l : list Z) (s : Table) : Table :=
  mkTable (published_natives s) (next_native_id s) (writing s) l (objects s) (lost s) (held s) (names s).
Definition set_objects (l : list Z) (s : Table) : Table :=
  mkTable (published_natives s) (next_native_id s) (writing s) (removing s) l (lost s) (held s) (names s).
Definition set_lost (l : list Z) (s : Table) : Table :=
  mkTable (published_natives s) (next_native_id s) (writing s) (removing s) (objects s) l (held s) (names s).
Definition set_held (l : list Z) (s : Table) : Table :=
  mkTable (published_natives s) (next_native_id s) (writing s) (removing s) (objects s) (lost s) l (names s).

(** ** The operations *)

(** The entry whose pin is the [Arc], if any. *)
Definition find_pin (a : nat) (m : gmap Z PublishedNative) : option Z :=
  fst <$> head (filter (fun x => binder_pin x.2 = a) (map_to_list m)).

Definition reserved (e : PublishedNative) : PublishedNative :=
  mkNative (binder_pin e) (publish_count e) (kernel_refs e) (pending_reservations e + 1).

Definition publish_native (a : nat) (s : Table) : Z * Table :=
  match find_pin a (published_natives s) with
  | Some id => (id, set_natives (alter reserved id (published_natives s)) s)
  | None =>
      let id := next_native_id s in
      (id, mkTable (<[id := mkNative a 0 0 0]> (published_natives s)) (id + 1) (writing s) (removing s)
                   (objects s) (lost s) (held s) (<[id := a]> (names s)))
  end.

Definition saturating_pred (n : Z) : Z := Z.max 0 (n - 1).

Definition published (e : PublishedNative) : PublishedNative :=
  mkNative (binder_pin e) (publish_count e + 1) (kernel_refs e) (saturating_pred (pending_reservations e)).
Definition unpublished (e : PublishedNative) : PublishedNative :=
  mkNative (binder_pin e) (saturating_pred (publish_count e)) (kernel_refs e) (pending_reservations e).
Definition kernel_ref (e : PublishedNative) : PublishedNative :=
  mkNative (binder_pin e) (publish_count e) (kernel_refs e + 1) (pending_reservations e).
Definition kernel_deref (e : PublishedNative) : PublishedNative :=
  mkNative (binder_pin e) (publish_count e) (saturating_pred (kernel_refs e)) (pending_reservations e).

Definition is_unused (e : PublishedNative) : bool :=
  (publish_count e =? 0) && (kernel_refs e =? 0) && (pending_reservations e =? 0).

Definition incref_publish (id : Z) (s : Table) : bool * Table :=
  match published_natives s !! id with
  | Some e => (true, set_natives (<[id := published e]> (published_natives s)) s)
  | None => (false, s)
  end.

(** The first section; the thread goes on to the removal when it found the counters zero. *)
Definition decref_publish (id : Z) (s : Table) : bool * Table :=
  match published_natives s !! id with
  | Some e =>
      let e := unpublished e in
      let s := set_natives (<[id := e]> (published_natives s)) s in
      (true, if is_unused e then set_removing (id :: removing s) s else s)
  | None => (false, s)
  end.

Definition ref_native_kernel (id : Z) (s : Table) : option nat * Table :=
  match published_natives s !! id with
  | Some e => (Some (binder_pin e), set_natives (<[id := kernel_ref e]> (published_natives s)) s)
  | None => (None, s)
  end.

Definition deref_native_kernel (id : Z) (s : Table) : option nat * Table :=
  match published_natives s !! id with
  | Some e =>
      let e := kernel_deref e in
      let s := set_natives (<[id := e]> (published_natives s)) s in
      (Some (binder_pin e), if is_unused e then set_removing (id :: removing s) s else s)
  | None => (None, s)
  end.

Definition lookup_native (id : Z) (s : Table) : option nat :=
  binder_pin <$> published_natives s !! id.

Definition remove_entry_if_zero (id : Z) (s : Table) : Table :=
  match published_natives s !! id with
  | Some e => if is_unused e then set_natives (delete id (published_natives s)) s else s
  | None => s
  end.

(** ** Threads *)

Fixpoint remove_one (id : Z) (l : list Z) : list Z :=
  match l with [] => [] | x :: l => if x =? id then l else x :: remove_one id l end.

(** A native binder object: what its [acquire] and [release] do. *)
Definition acquire_object (id : Z) (s : Table) : Table :=
  if incref_publish id s is (true, s) then set_objects (id :: objects s) s
  else set_lost (id :: lost s) s.

Inductive Action : Type :=
| Publish (a : nat)
| Acquire (id : Z)
| CloneObject (id : Z)
| Release (id : Z)
| KernelRef (id : Z)
| KernelDeref (id : Z)
| Remove (id : Z).

Definition act (x : Action) (s : Table) : option Table :=
  match x with
  | Publish a => let (id, s) := publish_native a s in Some (set_writing (id :: writing s) s)
  | Acquire id =>
      if existsb (Z.eqb id) (writing s)
      then Some (acquire_object id (set_writing (remove_one id (writing s)) s)) else None
  | CloneObject id =>
      if existsb (Z.eqb id) (objects s ++ held s) then Some (acquire_object id s) else None
  | Release id =>
      if existsb (Z.eqb id) (objects s)
      then Some (snd (decref_publish id (set_objects (remove_one id (objects s)) s))) else None
  | KernelRef id =>
      let (r, s) := ref_native_kernel id s in
      Some (match r with Some _ => set_held (id :: held s) s | None => s end)
  | KernelDeref id => Some (snd (deref_native_kernel id (set_held (remove_one id (held s)) s)))
  | Remove id =>
      if existsb (Z.eqb id) (removing s)
      then Some (remove_entry_if_zero id (set_removing (remove_one id (removing s)) s)) else None
  end.

Inductive table_reachable : Table -> Prop :=
| table_start : table_reachable table_new
| table_act x s s' : table_reachable s -> act x s = Some s' -> table_reachable s'.

(** Steps without an [acquire] of the id. *)
Inductive without_acquire (id : Z) (s : Table) : Table -> Prop :=
| wa_refl : without_acquire id s s
| wa_act x s1 s2 :
    without_acquire id s s1 -> act x s1 = Some s2 -> x <> Acquire id -> x <> CloneObject id ->
    without_acquire id s s2.

(** * The invariant *)

Definition count (id : Z) (l : list Z) : Z := tally (Z.eqb id) l.
Arguments count : simpl never.

Record table_inv (s : Table) : Prop := mkTableInv {
  ti_named : forall id e, published_natives s !! id = Some e -> names s !! id = Some (binder_pin e);
  ti_fresh : forall id a, names s !! id = Some a -> 1 <= id < next_native_id s;
  ti_pins : forall id id' e e', published_natives s !! id = Some e -> published_natives s !! id' = Some e' ->
    binder_pin e = binder_pin e' -> id = id';
  ti_counts : forall id e, published_natives s !! id = Some e ->
    publish_count e = count id (objects s) /\ kernel_refs e = count id (held s) /\
    0 <= pending_reservations e <= count id (writing s);
  ti_live : forall id, 1 <= count id (objects s) + count id (held s) -> is_Some (published_natives s !! id);
  ti_unused : forall id e, published_natives s !! id = Some e -> is_unused e = true ->
    1 <= count id (removing s) + count id (writing s);
  ti_next : 1 <= next_native_id s
}.

Lemma count_bounds id l : 0 <= count id l.
Proof. apply tally_bounds. Qed.

Lemma count_cons id x l : count id (x :: l) = (if x =? id then 1 else 0) + count id l.
Proof. unfold count. cbn. rewrite Z.eqb_sym. by destruct (x =? id). Qed.

Lemma count_elem id l : existsb (Z.eqb id) l = true -> 1 <= count id l.
Proof.
  intros (x & Hin & Hx)%existsb_exists. apply list_elem_of_In, list_elem_of_lookup in Hin as [k Ek].
  by apply (tally_pos (Z.eqb id) l k x).
Qed.

Lemma count_remove id x l :
  count x (remove_one id l) = count x l - (if (id =? x) && (1 <=? count x l) then 1 else 0).
Proof.
  induction l as [| y l IH]; cbn [remove_one]; [unfold count; cbn; by destruct (id =? x) |].
  pose proof (count_bounds x l). rewrite !count_cons.
  destruct (Z.eqb_spec y id) as [-> | Hy].
  - destruct (Z.eqb_spec id x) as [-> | Hne]; cbn [andb]; [| lia]. destruct (Z.leb_spec 1 (1 + count x l)); lia.
  - rewrite count_cons, IH. destruct (Z.eqb_spec id x) as [-> | Hne]; cbn [andb]; [| lia].
    rewrite (proj2 (Z.eqb_neq y x)) by done. rewrite !Z.add_0_l. done.
Qed.

Lemma find_pin_spec a m id : find_pin a m = Some id -> exists e, m !! id = Some e /\ binder_pin e = a.
Proof.
  unfold find_pin. destruct (filter _ (map_to_list m)) as [| [id' e] l] eqn:E; cbn; [done |].
  intros [= <-]. assert (Hin : (id', e) ∈ filter (fun x => binder_pin x.2 = a) (map_to_list m))
    by (rewrite E; apply list_elem_of_here).
  apply list_elem_of_filter in Hin as [Hp Hin]. exists e. split; [by apply elem_of_map_to_list | done].
Qed.

Lemma find_pin_none a m id e : find_pin a m = None -> m !! id = Some e -> binder_pin e <> a.
Proof.
  unfold find_pin. intros Hf Em Hp.
  assert (Hin : (id, e) ∈ filter (fun x => binder_pin x.2 = a) (map_to_list m)).
  { apply list_elem_of_filter. split; [done | by apply elem_of_map_to_list]. }
  destruct (filter _ (map_to_list m)); [by apply elem_of_nil in Hin | done].
Qed.

(** An entry is replaced by one of the same pin, and the lists change for its id alone. *)
Lemma inv_entry s s' id e e' :
  table_inv s -> published_natives s !! id = Some e -> binder_pin e' = binder_pin e ->
  published_natives s' = <[id := e']> (published_natives s) ->
  next_native_id s' = next_native_id s -> names s' = names s ->
  (forall x, x <> id -> count x (objects s') = count x (objects s) /\ count x (held s') = count x (held s) /\
     count x (writing s') = count x (writing s) /\ count x (removing s') = count x (removing s)) ->
  publish_count e' = count id (objects s') -> kernel_refs e' = count id (held s') ->
  0 <= pending_reservations e' <= count id (writing s') ->
  (is_unused e' = true -> 1 <= count id (removing s') + count id (writing s')) ->
  table_inv s'.
Proof.
  intros [H1 H2 H3 H4 H5 H6 H7] Ee Hb Em En Enm Hx Hc1 Hc2 Hc3 Hu.
  split; rewrite ?Em, ?En, ?Enm; try done.
  - intros i e0 [[<- <-] | [Hne E]]%lookup_insert_Some; [rewrite Hb; by apply H1 | by apply H1].
  - intros i i' e0 e1 [[<- <-] | [Hne E]]%lookup_insert_Some [[<- <-] | [Hne' E']]%lookup_insert_Some Hp; try done.
    + rewrite Hb in Hp. by apply (H3 id i' e e1).
    + rewrite Hb in Hp. by apply (H3 i id e0 e).
    + by apply (H3 i i' e0 e1).
  - intros i e0 [[<- <-] | [Hne E]]%lookup_insert_Some; [done |].
    destruct (Hx i ltac:(done)) as (-> & -> & -> & _). by apply H4.
  - intros i Hi. destruct (decide (i = id)) as [-> | Hne]; [rewrite lookup_insert_eq; by eexists |].
    rewrite lookup_insert_ne by done. destruct (Hx i Hne) as (E1 & E2 & _). rewrite E1, E2 in Hi. by apply H5.
  - intros i e0 [[<- <-] | [Hne E]]%lookup_insert_Some Hun; [by apply Hu |].
    destruct (Hx i ltac:(done)) as (_ & _ & -> & ->). by apply (H6 i e0).
Qed.

(** The lists change, the table does not, and no entry loses what it needs. *)
Lemma inv_lists s s' :
  table_inv s -> published_natives s' = published_natives s -> next_native_id s' = next_native_id s ->
  names s' = names s -> objects s' = objects s -> held s' = held s ->
  (forall id e, published_natives s !! id = Some e ->
     count id (writing s') = count id (writing s) /\
     (is_unused e = true -> count id (removing s') = count id (removing s))) ->
  table_inv s'.
Proof.
  intros [H1 H2 H3 H4 H5 H6 H7] E1 E2 E3 E4 E5 Hx. split; rewrite ?E1, ?E2, ?E3, ?E4, ?E5; try done.
  - intros id e Ee. destruct (Hx id e Ee) as [-> _]. by apply H4.
  - intros id e Ee Hu. destruct (Hx id e Ee) as [-> Hr]. rewrite Hr by done. by apply (H6 id e).
Qed.

Lemma inv_publish a s :
  table_inv s -> let r := publish_native a s in table_inv (set_writing (r.1 :: writing r.2) r.2).
Proof.
  intros Hi. unfold publish_native. destruct (find_pin a (published_natives s)) as [id |] eqn:Ef; cbn [fst snd].
  - destruct (find_pin_spec a _ id Ef) as (e & Ee & Hp). destruct (ti_counts s Hi id e Ee) as (C1 & C2 & C3).
    apply (inv_entry s _ id e (reserved e) Hi Ee); try done.
    + cbn. apply map_eq. intros x. destruct (decide (id = x)) as [<- | Hne].
      * by rewrite lookup_alter_eq, lookup_insert_eq, Ee.
      * by rewrite lookup_alter_ne, lookup_insert_ne.
    + intros x Hne. cbn. by rewrite count_cons, (proj2 (Z.eqb_neq id x)).
    + cbn. rewrite count_cons, Z.eqb_refl. lia.
    + intros Hu. unfold is_unused in Hu. cbn in Hu. lia.
  - destruct Hi as [H1 H2 H3 H4 H5 H6 H7].
    assert (Hn : names s !! next_native_id s = None).
    { destruct (names s !! next_native_id s) eqn:E; [| done]. specialize (H2 _ _ E). lia. }
    assert (Hm : published_natives s !! next_native_id s = None).
    { destruct (published_natives s !! next_native_id s) eqn:E; [| done]. by rewrite (H1 _ _ E) in Hn. }
    assert (H0 : count (next_native_id s) (objects s) = 0 /\ count (next_native_id s) (held s) = 0).
    { pose proof (count_bounds (next_native_id s) (objects s)). pose proof (count_bounds (next_native_id s) (held s)).
      destruct (Z.le_gt_cases 1 (count (next_native_id s) (objects s) + count (next_native_id s) (held s))) as [Hge |]; [| lia].
      destruct (H5 _ Hge) as [? ?]. congruence. }
    split; cbn; try done.
    + intros id e [[<- <-] | [Hne E]]%lookup_insert_Some; [by rewrite lookup_insert_eq |].
      rewrite lookup_insert_ne by done. by apply H1.
    + intros id x [[<- <-] | [Hne E]]%lookup_insert_Some; [lia |]. specialize (H2 id x E). lia.
    + intros id id' e e' [[<- <-] | [Hne E]]%lookup_insert_Some [[<- <-] | [Hne' E']]%lookup_insert_Some Hp; try done.
      * by destruct (find_pin_none a _ id' e' Ef E').
      * by destruct (find_pin_none a _ id e Ef E).
      * by apply (H3 id id' e e').
    + intros id e. rewrite count_cons. intros [[<- <-] | [Hne E]]%lookup_insert_Some; cbn.
      * rewrite Z.eqb_refl. pose proof (count_bounds (next_native_id s) (writing s)). lia.
      * rewrite (proj2 (Z.eqb_neq _ _)) by done. rewrite Z.add_0_l. by apply H4.
    + intros id Hid. destruct (decide (next_native_id s = id)) as [<- | Hne]; [rewrite lookup_insert_eq; by eexists |].
      rewrite lookup_insert_ne by done. by apply H5.
    + intros id e. rewrite count_cons. intros [[<- <-] | [Hne E]]%lookup_insert_Some Hu.
      * rewrite Z.eqb_refl. pose proof (count_bounds (next_native_id s) (writing s)).
        pose proof (count_bounds (next_native_id s) (removing s)). lia.
      * rewrite (proj2 (Z.eqb_neq _ _)) by done. rewrite Z.add_0_l. by apply (H6 id e).
    + lia.
Qed.

Lemma saturating_pred_pos n : 1 <= n -> saturating_pred n = n - 1.
Proof. unfold saturating_pred. lia. Qed.

(** [acquire] for an id with a writer, or for the copy of an object. *)
Lemma inv_acquire s s1 id :
  table_inv s -> published_natives s1 = published_natives s -> next_native_id s1 = next_native_id s ->
  names s1 = names s -> objects s1 = objects s -> held s1 = held s -> removing s1 = removing s ->
  (writing s1 = writing s \/ (1 <= count id (writing s) /\ writing s1 = remove_one id (writing s))) ->
  table_inv (acquire_object id s1).
Proof.
  intros Hi E1 E2 E3 E4 E5 E6 Hw. unfold acquire_object, incref_publish. rewrite E1.
  assert (Hx : forall x, x <> id -> count x (writing s1) = count x (writing s)).
  { intros x Hne. destruct Hw as [-> | [_ ->]]; [done |]. rewrite count_remove, (proj2 (Z.eqb_neq id x)) by done. cbn. lia. }
  destruct (published_natives s !! id) as [e |] eqn:Ee.
  - destruct (ti_counts s Hi id e Ee) as (C1 & C2 & C3). apply (inv_entry s _ id e (published e) Hi Ee); cbn; try done.
    + intros x Hne. rewrite E4, E5, E6, count_cons, (proj2 (Z.eqb_neq id x)), (Hx x Hne) by done. done.
    + rewrite E4, count_cons, Z.eqb_refl. lia.
    + by rewrite E5.
    + unfold saturating_pred. destruct Hw as [-> | [H1 ->]]; [lia |].
      rewrite count_remove, Z.eqb_refl. destruct (Z.leb_spec 1 (count id (writing s))); cbn; lia.
    + intros Hu. unfold is_unused in Hu. cbn in Hu. pose proof (count_bounds id (objects s)). lia.
  - apply (inv_lists s); try done. intros x e Ex. cbn. rewrite E6. split; [| done].
    apply Hx. intros ->. congruence.
Qed.

(** One reference of [id] goes: of an object or of the kernel. *)
Lemma inv_drop s s1 id e e' :
  table_inv s -> published_natives s !! id = Some e -> published_natives s1 = published_natives s ->
  next_native_id s1 = next_native_id s -> names s1 = names s -> writing s1 = writing s -> removing s1 = removing s ->
  binder_pin e' = binder_pin e -> pending_reservations e' = pending_reservations e ->
  publish_count e' = count id (objects s1) -> kernel_refs e' = count id (held s1) ->
  (forall x, x <> id -> count x (objects s1) = count x (objects s) /\ count x (held s1) = count x (held s)) ->
  let s2 := set_natives (<[id := e']> (published_natives s1)) s1 in
  table_inv (if is_unused e' then set_removing (id :: removing s2) s2 else s2).
Proof.
  intros Hi Ee E1 E2 E3 E4 E5 Hp Hr Hc1 Hc2 Hx s2. destruct (ti_counts s Hi id e Ee) as (C1 & C2 & C3).
  destruct (is_unused e') eqn:Eu; apply (inv_entry s _ id e e' Hi Ee Hp); cbn; rewrite ?E1, ?E4, ?E5; try done.
  - intros x Hne. rewrite count_cons, (proj2 (Z.eqb_neq id x)) by done. destruct (Hx x Hne). done.
  - lia.
  - intros _. rewrite count_cons, Z.eqb_refl. pose proof (count_bounds id (removing s)).
    pose proof (count_bounds id (writing s)). lia.
  - intros x Hne. destruct (Hx x Hne). done.
  - lia.
  - by rewrite Eu.
Qed.

Lemma inv_remove s id :
  table_inv s -> table_inv (remove_entry_if_zero id (set_removing (remove_one id (removing s)) s)).
Proof.
  intros Hi. unfold remove_entry_if_zero. cbn.
  assert (Hx : forall x, x <> id -> count x (remove_one id (removing s)) = count x (removing s)).
  { intros x Hne. rewrite count_remove, (proj2 (Z.eqb_neq id x)) by done. cbn. lia. }
  destruct (published_natives s !! id) as [e |] eqn:Ee.
  2: { apply (inv_lists s); try done. intros x e Ex. cbn. split; [done |]. intros _. apply Hx. congruence. }
  destruct (is_unused e) eqn:Eu.
  - destruct (ti_counts s Hi id e Ee) as (C1 & C2 & C3). destruct Hi as [H1 H2 H3 H4 H5 H6 H7]. split; cbn; try done.
    + intros x e0 [_ E]%lookup_delete_Some. by apply H1.
    + intros x y e0 e1 [_ E]%lookup_delete_Some [_ E']%lookup_delete_Some. by apply (H3 x y).
    + intros x e0 [_ E]%lookup_delete_Some. by apply H4.
    + intros x Hc. destruct (decide (id = x)) as [<- | Hne]; [| rewrite lookup_delete_ne by done; by apply H5].
      unfold is_unused in Eu. lia.
    + intros x e0 [Hne E]%lookup_delete_Some Hu. rewrite (Hx x) by done. by apply (H6 x e0).
  - apply (inv_lists s); try done. intros x e0 Ex. cbn. split; [done |]. intros Hu. apply Hx. congruence.
Qed.

Lemma inv_act x s s' : table_inv s -> act x s = Some s' -> table_inv s'.
Proof.
  intros Hi. destruct x as [a | id | id | id | id | id | id]; cbn [act]; intros E.
  - pose proof (inv_publish a s Hi) as H. destruct (publish_native a s) as [id s1]. by injection E as <-.
  - destruct (existsb (Z.eqb id) (writing s)) eqn:Ew; [| done]. injection E as <-.
    apply (inv_acquire s); try done. right. split; [by apply count_elem | done].
  - destruct (existsb (Z.eqb id) (objects s ++ held s)); [| done]. injection E as <-.
    apply (inv_acquire s); try done. by left.
  - destruct (existsb (Z.eqb id) (objects s)) eqn:Ew; [| done]. injection E as <-. apply count_elem in Ew.
    destruct (ti_live s Hi id) as [e Ee]; [pose proof (count_bounds id (held s)); lia |].
    destruct (ti_counts s Hi id e Ee) as (C1 & C2 & C3). unfold decref_publish. cbn. rewrite Ee. cbn [snd].
    apply (inv_drop s (set_objects (remove_one id (objects s)) s) id e (unpublished e) Hi Ee); cbn; try done.
    + rewrite C1, saturating_pred_pos, count_remove, Z.eqb_refl by done.
      destruct (Z.leb_spec 1 (count id (objects s))); cbn; lia.
    + intros x Hne. rewrite count_remove, (proj2 (Z.eqb_neq id x)) by done. cbn. split; [lia | done].
  - unfold ref_native_kernel in E. destruct (published_natives s !! id) as [e |] eqn:Ee; injection E as <-; [| done].
    destruct (ti_counts s Hi id e Ee) as (C1 & C2 & C3).
    apply (inv_entry s _ id e (kernel_ref e) Hi Ee); cbn; try done.
    + intros x Hne. by rewrite count_cons, (proj2 (Z.eqb_neq id x)).
    + rewrite count_cons, Z.eqb_refl. lia.
    + intros Hu. unfold is_unused in Hu. cbn in Hu. pose proof (count_bounds id (held s)). lia.
  - injection E as <-. unfold deref_native_kernel. cbn. destruct (published_natives s !! id) as [e |] eqn:Ee.
    + destruct (ti_counts s Hi id e Ee) as (C1 & C2 & C3). cbn [snd].
      apply (inv_drop s (set_held (remove_one id (held s)) s) id e (kernel_deref e) Hi Ee); cbn; try done.
      * rewrite C2, count_remove, Z.eqb_refl. unfold saturating_pred. pose proof (count_bounds id (held s)).
        destruct (Z.leb_spec 1 (count id (held s))); cbn; lia.
      * intros x Hne. rewrite count_remove, (proj2 (Z.eqb_neq id x)) by done. cbn. split; [done | lia].
    + cbn [snd]. assert (count id (held s) = 0).
      { pose proof (count_bounds id (held s)). pose proof (count_bounds id (objects s)).
        destruct (Z.le_gt_cases 1 (count id (objects s) + count id (held s))) as [Hge |]; [| lia].
        destruct (ti_live s Hi id Hge). congruence. }
      destruct Hi as [H1 H2 H3 H4 H5 H6 H7].
      assert (Hc : forall x, count x (remove_one id (held s)) = count x (held s)).
      { intros x. rewrite count_remove. destruct (Z.eqb_spec id x) as [<- |]; cbn; [| lia].
        destruct (Z.leb_spec 1 (count id (held s))); lia. }
      split; cbn; try done; intros; rewrite ?Hc in *; eauto.
  - destruct (existsb (Z.eqb id) (removing s)); [| done]. injection E as <-. by apply inv_remove.
Qed.

Lemma inv_reachable s : table_reachable s -> table_inv s.
Proof.
  induction 1 as [| x s s' _ IH E]; [| by eapply inv_act]. by split.
Qed.

Lemma names_kept x s s' id a :
  table_inv s -> act x s = Some s' -> names s !! id = Some a -> names s' !! id = Some a.
Proof.
  intros Hi E Hn. destruct x as [b | i | i | i | i | i | i]; cbn [act] in E.
  - unfold publish_native in E. destruct (find_pin b (published_natives s)); injection E as <-; [done |]. cbn.
    rewrite lookup_insert_ne; [done |]. intros <-. pose proof (ti_fresh s Hi _ _ Hn). lia.
  - case_match; [| done]. injection E as <-. unfold acquire_object, incref_publish. cbn. by destruct (published_natives s !! i).
  - case_match; [| done]. injection E as <-. unfold acquire_object, incref_publish. by destruct (published_natives s !! i).
  - case_match; [| done]. injection E as <-. unfold decref_publish. cbn. repeat case_match; done.
  - unfold ref_native_kernel in E. repeat case_match; simplify_eq; done.
  - injection E as <-. unfold deref_native_kernel. cbn. repeat case_match; done.
  - case_match; [| done]. injection E as <-. unfold remove_entry_if_zero. cbn. repeat case_match; done.
Qed.

Lemma reservation_kept x s s' id e :
  table_inv s -> act x s = Some s' -> x <> Acquire id -> x <> CloneObject id ->
  published_natives s !! id = Some e -> 1 <= pending_reservations e ->
  exists e', published_natives s' !! id = Some e' /\ binder_pin e' = binder_pin e /\ 1 <= pending_reservations e'.
Proof.
  intros Hi E Hx1 Hx2 Ee Hr.
  assert (Hins : forall (m : gmap Z PublishedNative) i e0 e1, m !! i = Some e0 -> binder_pin e1 = binder_pin e0 ->
    pending_reservations e0 <= pending_reservations e1 -> m !! id = Some e ->
    exists e', <[i := e1]> m !! id = Some e' /\ binder_pin e' = binder_pin e /\ 1 <= pending_reservations e').
  { intros m i e0 e1 E0 Hb Hp Em. destruct (decide (i = id)) as [-> | Hne].
    - exists e1. rewrite lookup_insert_eq. assert (e0 = e) as -> by congruence. split_and!; [done | done | lia].
    - exists e. by rewrite lookup_insert_ne. }
  destruct x as [b | i | i | i | i | i | i]; cbn [act] in E.
  - unfold publish_native in E. destruct (find_pin b (published_natives s)) as [i |] eqn:Ef; injection E as <-; cbn.
    + destruct (decide (i = id)) as [-> | Hne].
      * exists (reserved e). rewrite lookup_alter_eq, Ee. split_and!; [done | done | cbn; lia].
      * exists e. by rewrite lookup_alter_ne.
    + exists e. rewrite lookup_insert_ne; [done |]. intros <-.
      pose proof (ti_fresh s Hi _ _ (ti_named s Hi _ _ Ee)). lia.
  - case_match; [| done]. injection E as <-. assert (i <> id) by congruence. exists e.
    unfold acquire_object, incref_publish. cbn. destruct (published_natives s !! i); cbn; [| done].
    by rewrite lookup_insert_ne.
  - case_match; [| done]. injection E as <-. assert (i <> id) by congruence. exists e.
    unfold acquire_object, incref_publish. cbn. destruct (published_natives s !! i); cbn; [| done].
    by rewrite lookup_insert_ne.
  - case_match; [| done]. injection E as <-. unfold decref_publish. cbn.
    destruct (published_natives s !! i) as [e0 |] eqn:E0; cbn; [| by exists e].
    destruct (is_unused (unpublished e0)); cbn; by eapply (Hins _ i e0).
  - unfold ref_native_kernel in E. destruct (published_natives s !! i) as [e0 |] eqn:E0; injection E as <-; cbn;
      [by eapply (Hins _ i e0) | by exists e].
  - injection E as <-. unfold deref_native_kernel. cbn.
    destruct (published_natives s !! i) as [e0 |] eqn:E0; cbn; [| by exists e].
    destruct (is_unused (kernel_deref e0)); cbn; by eapply (Hins _ i e0).
  - case_match; [| done]. injection E as <-. unfold remove_entry_if_zero. cbn.
    destruct (published_natives s !! i) as [e0 |] eqn:E0; cbn; [| by exists e].
    destruct (is_unused e0) eqn:Eu; cbn; [| by exists e]. exists e. rewrite lookup_delete_ne; [done |].
    intros ->. assert (e0 = e) as -> by congruence. unfold is_unused in Eu. lia.
Qed.

Lemma pin_unique s id id' a :
  table_inv s -> lookup_native id s = Some a -> lookup_native id' s = Some a -> id = id'.
Proof.
  unfold lookup_native. intros Hi (e & Ee & ->)%fmap_Some (e' & Ee' & Hp)%fmap_Some.
  by apply (ti_pins s Hi id id' e e').
Qed.

Lemma published_again s id a :
  table_inv s -> lookup_native id s = Some a -> find_pin a (published_natives s) = Some id.
Proof.
  intros Hi Ha. destruct (find_pin a (published_natives s)) as [id' |] eqn:Ef.
  - destruct (find_pin_spec a _ id' Ef) as (e & Ee & Hp). f_equal. apply (pin_unique s id' id a Hi); [| done].
    unfold lookup_native. by rewrite Ee, <- Hp.
  - unfold lookup_native in Ha. apply fmap_Some in Ha as (e & Ee & ->). by destruct (find_pin_none _ _ id e Ef Ee).
Qed.

(** C20: The ids of published binders mean one binder each, under any interleaving: an id in an acquired object
    or held by the kernel is in the table, with the binder it was given to; a binder has one id at
    a time, and publishing it again gives that id; an id is never given to another binder. *)
Theorem published_ids_resolve s : table_reachable s ->
  (forall id, 1 <= count id (objects s) + count id (held s) ->
     exists a, lookup_native id s = Some a /\ names s !! id = Some a) /\
  (forall id id' a, lookup_native id s = Some a -> lookup_native id' s = Some a -> id = id') /\
  (forall id a, lookup_native id s = Some a -> (publish_native a s).1 = id) /\
  (forall x s' id a, act x s = Some s' -> names s !! id = Some a -> names s' !! id = Some a).
Proof.
  intros Hr. pose proof (inv_reachable s Hr) as Hi. split_and!.
  - intros id Hc. destruct (ti_live s Hi id Hc) as [e Ee]. exists (binder_pin e). unfold lookup_native. rewrite Ee.
    split; [done | by apply (ti_named s Hi)].
  - intros id id' a. by apply pin_unique.
  - intros id a Ha. unfold publish_native. by rewrite (published_again s id a Hi Ha).
  - intros x s' id a. by apply names_kept.
Qed.

(** The table keeps no binder for nothing: when no thread is between two steps, a binder that
    no object in a parcel and no reference of the kernel names is out of the table. *)
Theorem unused_entries_removed s id : table_reachable s ->
  writing s = [] -> removing s = [] -> count id (objects s) = 0 -> count id (held s) = 0 ->
  lookup_native id s = None.
Proof.
  intros Hr Hw Hm Ho Hh. pose proof (inv_reachable s Hr) as Hi. unfold lookup_native.
  destruct (published_natives s !! id) as [e |] eqn:Ee; [| done].
  destruct (ti_counts s Hi id e Ee) as (C1 & C2 & C3). rewrite Hw in C3. unfold count in C3. cbn in C3.
  assert (Hu : is_unused e = true) by (unfold is_unused; lia).
  pose proof (ti_unused s Hi id e Ee Hu) as H. rewrite Hw, Hm in H. unfold count in H. cbn in H. lia.
Qed.

(** A binder that is in the table when it is published stays there until the next [acquire] of its
    id, whatever references are given up meanwhile, so that this [acquire] finds it. *)
Theorem reservation_holds s s1 s2 id a :
  table_reachable s -> lookup_native id s = Some a -> act (Publish a) s = Some s1 -> without_acquire id s1 s2 ->
  lookup_native id s2 = Some a /\ (incref_publish id s2).1 = true.
Proof.
  intros Hr Ha Ep Hw. pose proof (inv_reachable s Hr) as Hi.
  assert (Hr1 : table_reachable s1) by (by eapply table_act).
  assert (H1 : exists e, published_natives s1 !! id = Some e /\ binder_pin e = a /\ 1 <= pending_reservations e).
  { cbn in Ep. unfold publish_native in Ep. rewrite (published_again s id a Hi Ha) in Ep. injection Ep as <-. cbn.
    unfold lookup_native in Ha. apply fmap_Some in Ha as (e & Ee & ->). exists (reserved e).
    rewrite lookup_alter_eq, Ee. destruct (ti_counts s Hi id e Ee) as (_ & _ & C). split_and!; [done | done | cbn; lia]. }
  assert (H2 : table_reachable s2 /\ exists e, published_natives s2 !! id = Some e /\ binder_pin e = a /\ 1 <= pending_reservations e).
  { induction Hw as [| x s3 s4 _ IH E Hx1 Hx2]; [done |]. destruct IH as (Hr3 & e & Ee & Hb & Hp).
    split; [by eapply table_act |].
    destruct (reservation_kept x s3 s4 id e (inv_reachable s3 Hr3) E Hx1 Hx2 Ee Hp) as (e' & E' & Hb' & Hp').
    exists e'. split_and!; [done | congruence | done]. }
  destruct H2 as (_ & e & Ee & Hb & _). unfold lookup_native, incref_publish. rewrite Ee. cbn. by rewrite Hb.
Qed.

(** ** Runs *)

Fixpoint acts (xs : list Action) (s : Table) : option Table :=
  match xs with [] => Some s | x :: xs => match act x s with Some s => acts xs s | None => None end end.

Lemma acts_reachable xs s s' : table_reachable s -> acts xs s = Some s' -> table_reachable s'.
Proof.
  revert s. induction xs as [| x xs IH]; cbn; intros s Hr E; [by injection E as <- |].
  destruct (act x s) as [s1 |] eqn:E1; [| done]. apply (IH s1); [by eapply table_act | done].
Qed.

Definition run_of (xs : list Action) : Table := default table_new (acts xs table_new).
Definition runs_ok (xs : list Action) : bool := match acts xs table_new with Some _ => true | None => false end.
Lemma run_of_reachable xs : runs_ok xs = true -> table_reachable (run_of xs).
Proof.
  unfold run_of, runs_ok. destruct (acts xs table_new) as [s |] eqn:E; [| done]. intros _.
  by eapply acts_reachable; [apply table_start |].
Qed.

(** Binder 5 is sent, the kernel takes its references, the parcel is dropped. *)
Definition sent : list Action :=
  [Publish 5; Acquire 1; KernelRef 1; KernelRef 1; Release 1].

Lemma published_ids_resolve_witness :
  let s := run_of sent in count 1 (held s) = 2 /\ lookup_native 1 s = Some 5%nat /\ (publish_native 5 s).1 = 1.
Proof.
  assert (Hr : table_reachable (run_of sent)) by (apply run_of_reachable; vm_compute; reflexivity).
  destruct (published_ids_resolve (run_of sent) Hr) as (H1 & _ & H3 & _).
  cbv zeta. assert (E : lookup_native 1 (run_of sent) = Some 5%nat) by (vm_compute; reflexivity).
  split; [vm_compute; reflexivity |]. split; [| apply H3, E].
  destruct (H1 1 ltac:(vm_compute; discriminate)) as (a & Ha & Hn). rewrite Ha, <- Hn. vm_compute. reflexivity.
Defined.

Lemma unused_entries_removed_witness :
  lookup_native 1 (run_of (sent ++ [KernelDeref 1; KernelDeref 1; Remove 1])) = None.
Proof.
  apply (unused_entries_removed (run_of (sent ++ [KernelDeref 1; KernelDeref 1; Remove 1])) 1);
    [apply run_of_reachable | ..]; vm_compute; reflexivity.
Defined.

(** Published again while it is being given up: the removal finds the reservation. *)
Lemma reservation_holds_witness :
  let s := run_of [Publish 5; Acquire 1; Release 1] in
  exists s1, act (Publish 5) s = Some s1 /\ exists s2, act (Remove 1) s1 = Some s2 /\ lookup_native 1 s2 = Some 5%nat.
Proof.
  set (s := run_of [Publish 5; Acquire 1; Release 1]). cbv zeta.
  set (s1 := run_of [Publish 5; Acquire 1; Release 1; Publish 5]).
  set (s2 := run_of [Publish 5; Acquire 1; Release 1; Publish 5; Remove 1]).
  assert (E1 : act (Publish 5) s = Some s1) by (vm_compute; reflexivity).
  assert (E2 : act (Remove 1) s1 = Some s2) by (vm_compute; reflexivity).
  exists s1. split; [exact E1 |]. exists s2. split; [exact E2 |].
  refine (proj1 (reservation_holds s s1 s2 1 5 _ _ E1 _)).
  - apply run_of_reachable. vm_compute. reflexivity.
  - vm_compute. reflexivity.
  - apply (wa_act 1 s1 (Remove 1) s1 s2 (wa_refl 1 s1) E2); discriminate.
Defined.

(** The first publication of a binder is not protected. Between it and its [acquire] another thread can
    publish the same binder, acquire and release it: the entry is removed, the [acquire]
    fails, and an object whose id nothing resolves has been written. *)
Theorem fresh_publication_lost : exists s,
  table_reachable s /\ lost s = [1] /\ objects s = [] /\ lookup_native 1 s = None /\ names s !! 1 = Some 5%nat.
Proof.
  exists (run_of [Publish 5; Publish 5; Acquire 1; Release 1; Remove 1; Acquire 1]).
  split; [apply run_of_reachable; vm_compute; reflexivity |]. split_and!; vm_compute; reflexivity.
Qed.
