(* ===== verification/ThreadState.v ===== *)
(** The thread that talks to the binder driver (src/rsbinder/src/thread_state.rs): the identity
    of the caller, the queue of commands to the driver, the loops that read what the driver returns,
    and the dispatch of incoming transactions.

    The driver is data of the model: a list with the outcome of every [ioctl], in order. A loop that
    asks for more than the list has is [Waiting]. What the driver returns is commands, not bytes; a
    command arrives whole. Code of the application (the handlers of
    services, death recipients, destructors) is any program over the operations a handler can make on
    its thread, calls to other processes included. *)

From Stdlib Require Import ZArith Lia Strings.Byte.
From stdpp Require Import base gmap list strings.
From S2P Require Import Prelude Errors Transport NativeTable.

(** ** The caller *)

Record TransactionState : Type := mkTransaction {
  calling_pid : Z;
  calling_sid : option string;
  calling_uid : Z;
  last_transaction_binder_flags : Z;
  work_source : Z;
  propagate_work_source : bool;
  has_explicit_identity : bool
}.

Definition UNSET_WORK_SOURCE : Z := -1.
Definition WORK_SOURCE_PROPAGATED_BIT_INDEX : Z := 32.

(** An identity token has the uid in its upper half; bit 30 of the pid is the flag. *)
Definition pack_calling_identity (has_explicit : bool) (uid pid : Z) : Z :=
  let pid_low := wrap_u 32 pid in
  let pid_low := if has_explicit then Z.lor pid_low (Z.shiftl 1 30) else Z.ldiff pid_low (Z.shiftl 1 30) in
  wrap_i 64 (Z.lor (wrap_u 64 (Z.shiftl uid 32)) pid_low).

Definition unpack_has_explicit_identity (token : Z) : bool :=
  negb (Z.land (wrap_i 32 token) (Z.shiftl 1 30) =? 0).

Definition unpack_calling_uid (token : Z) : Z := wrap_u 32 (Z.shiftr token 32).

Definition unpack_calling_pid (token : Z) : Z :=
  let encoded := wrap_i 32 token in
  if negb (Z.land encoded (wrap_i 32 (Z.shiftl 1 31)) =? 0) then Z.lor encoded (Z.shiftl 1 30)
  else Z.ldiff encoded (Z.shiftl 1 30).

(** [peer_uid_pid]: a peer without a user id never has one that is privileged. *)
Definition RPC_UNKNOWN_CALLING_UID : Z := u32_max.

Definition peer_uid_pid (peer : PeerIdentity) : Z * Z :=
  match peer with
  | Local uid pid => (uid, pid)
  | _ => (RPC_UNKNOWN_CALLING_UID, -1)
  end.

Record CallingContext : Type := mkContext { ctx_pid : Z; ctx_uid : Z; ctx_sid : option string }.

Inductive Caller : Type :=
| KernelCaller (uid pid : Z) (sid : option string)
| RpcCaller (peer : PeerIdentity).

(** ** Commands *)

(** [buffer] is the address of the transaction's buffer in the mapping of the process, [data] and
    [offsets] what is in it. *)
Record binder_transaction_data : Type := mkTr {
  target : Z;
  code : Z;
  flags : Z;
  sender_pid : Z;
  sender_euid : Z;
  buffer : Z;
  data : list byte;
  offsets : list Z
}.

Inductive Return : Type :=
| BR_ERROR (e : Z)
| BR_OK
| BR_TRANSACTION_SEC_CTX (tr : binder_transaction_data) (secctx : option string)
| BR_TRANSACTION (tr : binder_transaction_data)
| BR_REPLY (tr : binder_transaction_data)
| BR_ACQUIRE_RESULT (r : Z)
| BR_DEAD_REPLY
| BR_TRANSACTION_COMPLETE
| BR_INCREFS (id cookie : Z)
| BR_ACQUIRE (id cookie : Z)
| BR_RELEASE (id cookie : Z)
| BR_DECREFS (id cookie : Z)
| BR_ATTEMPT_ACQUIRE (id cookie : Z)
| BR_NOOP
| BR_SPAWN_LOOPER
| BR_FINISHED
| BR_DEAD_BINDER (handle : Z)
| BR_CLEAR_DEATH_NOTIFICATION_DONE (handle : Z)
| BR_FAILED_REPLY
| BR_FROZEN_REPLY
| BR_ONEWAY_SPAM_SUSPECT
| BR_TRANSACTION_PENDING_FROZEN
| BR_UNKNOWN (cmd : Z).

(** A parcel to send: its bytes and the positions of the objects. *)
Record Body : Type := mkBody { bytes : list byte; objects_at : list Z }.

Definition empty_body : Body := mkBody [] [].

(** What [write_transaction_data] puts behind the command: the bytes stay in the memory of the sender
    until the driver copies them. *)
Inductive Command : Type :=
| BC_TRANSACTION (flags handle code : Z) (b : Body)
| BC_REPLY (flags handle code : Z) (b : Body)
| BC_ACQUIRE_RESULT (r : Z)
| BC_FREE_BUFFER (buffer : Z)
| BC_INCREFS (handle : Z)
| BC_ACQUIRE (handle : Z)
| BC_RELEASE (handle : Z)
| BC_DECREFS (handle : Z)
| BC_INCREFS_DONE (id cookie : Z)
| BC_ACQUIRE_DONE (id cookie : Z)
| BC_REGISTER_LOOPER
| BC_ENTER_LOOPER
| BC_EXIT_LOOPER
| BC_REQUEST_DEATH_NOTIFICATION (handle cookie : Z)
| BC_CLEAR_DEATH_NOTIFICATION (handle cookie : Z)
| BC_DEAD_BINDER_DONE (cookie : Z).

(** How much of the write buffer an [ioctl] took. *)
Inductive Wrote : Type := WroteAll | WrotePart | WroteNothing.

Inductive Ioctl : Type :=
| Served (w : Wrote) (returns : list Return)
| Interrupted
| Failed (errno : Z).

Inductive CallRestriction : Type := CrNone | ErrorIfNotOneway | FatalIfNotOneway.
Inductive UntilResponse : Type := UntilReply | UntilTransactionComplete | UntilAcquireResult.

(** ** The state of a thread *)

Record BinderDerefs : Type := mkDerefs {
  pending_strong_derefs : list Z;
  pending_weak_derefs : list Z
}.

(** The history of a thread: the commands queued and read, the buffers of the replies that are
    parcels now, the kernel references given back, the threads asked for. *)
Record History : Type := mkHistory {
  queued : list Command;
  received : list Return;
  held_buffers : list Z;
  derefed : list Z;
  spawned : Z
}.

(** [ioctls] is the driver, [sent] what it has got; [natives] is the table of the process. *)
Record ThreadState : Type := mkThread {
  in_parcel : list Return;
  out_parcel : list Command;
  transaction : option TransactionState;
  strict_mode_policy : Z;
  is_looper : bool;
  is_flushing : bool;
  call_restriction : CallRestriction;
  RPC_CALLING : option PeerIdentity;
  BINDER_DEREFS : BinderDerefs;
  natives : Table;
  ioctls : list Ioctl;
  sent : list Command;
  history : History
}.

Definition set_io (i : list Return) (o : list Command) (l : list Ioctl) (x : list Command) (s : ThreadState)
  : ThreadState :=
  mkThread i o (transaction s) (strict_mode_policy s) (is_looper s) (is_flushing s) (call_restriction s)
           (RPC_CALLING s) (BINDER_DEREFS s) (natives s) l x (history s).
Definition set_transaction (t : option TransactionState) (s : ThreadState) : ThreadState :=
  mkThread (in_parcel s) (out_parcel s) t (strict_mode_policy s) (is_looper s) (is_flushing s) (call_restriction s)
           (RPC_CALLING s) (BINDER_DEREFS s) (natives s) (ioctls s) (sent s) (history s).
Definition set_strict_mode_policy (z : Z) (s : ThreadState) : ThreadState :=
  mkThread (in_parcel s) (out_parcel s) (transaction s) z (is_looper s) (is_flushing s) (call_restriction s)
           (RPC_CALLING s) (BINDER_DEREFS s) (natives s) (ioctls s) (sent s) (history s).
Definition set_looper (b : bool) (s : ThreadState) : ThreadState :=
  mkThread (in_parcel s) (out_parcel s) (transaction s) (strict_mode_policy s) b (is_flushing s) (call_restriction s)
           (RPC_CALLING s) (BINDER_DEREFS s) (natives s) (ioctls s) (sent s) (history s).
Definition set_flushing (b : bool) (s : ThreadState) : ThreadState :=
  mkThread (in_parcel s) (out_parcel s) (transaction s) (strict_mode_policy s) (is_looper s) b (call_restriction s)
           (RPC_CALLING s) (BINDER_DEREFS s) (natives s) (ioctls s) (sent s) (history s).
Definition set_rpc_calling (p : option PeerIdentity) (s : ThreadState) : ThreadState :=
  mkThread (in_parcel s) (out_parcel s) (transaction s) (strict_mode_policy s) (is_looper s) (is_flushing s)
           (call_restriction s) p (BINDER_DEREFS s) (natives s) (ioctls s) (sent s) (history s).
Definition set_derefs (d : BinderDerefs) (s : ThreadState) : ThreadState :=
  mkThread (in_parcel s) (out_parcel s) (transaction s) (strict_mode_policy s) (is_looper s) (is_flushing s)
           (call_restriction s) (RPC_CALLING s) d (natives s) (ioctls s) (sent s) (history s).
Definition set_table (t : Table) (s : ThreadState) : ThreadState :=
  mkThread (in_parcel s) (out_parcel s) (transaction s) (strict_mode_policy s) (is_looper s) (is_flushing s)
           (call_restriction s) (RPC_CALLING s) (BINDER_DEREFS s) t (ioctls s) (sent s) (history s).
Definition set_history (h : History) (s : ThreadState) : ThreadState :=
  mkThread (in_parcel s) (out_parcel s) (transaction s) (strict_mode_policy s) (is_looper s) (is_flushing s)
           (call_restriction s) (RPC_CALLING s) (BINDER_DEREFS s) (natives s) (ioctls s) (sent s) h.

Definition note_queued (c : Command) (h : History) : History :=
  mkHistory (queued h ++ [c]) (received h) (held_buffers h) (derefed h) (spawned h).
Definition note_received (r : Return) (h : History) : History :=
  mkHistory (queued h) (received h ++ [r]) (held_buffers h) (derefed h) (spawned h).
Definition note_held (l : list Z) (h : History) : History :=
  mkHistory (queued h) (received h) l (derefed h) (spawned h).
Definition note_derefed (id : Z) (h : History) : History :=
  mkHistory (queued h) (received h) (held_buffers h) (derefed h ++ [id]) (spawned h).
Definition note_spawned (h : History) : History :=
  mkHistory (queued h) (received h) (held_buffers h) (derefed h) (spawned h + 1).

Definition history_new : History := mkHistory [] [] [] [] 0.

(** [ThreadState::new], with the driver and the table of the process. *)
Definition thread_new (r : CallRestriction) (t : Table) (l : list Ioctl) : ThreadState :=
  mkThread [] [] None 0 false false r None (mkDerefs [] []) t l [] history_new.

(** ** The monad *)

(** Why a computation has no result: an error of the code, the driver has nothing for it, or
    the bound on the loops is used up. *)
Inductive Stop : Type :=
| Code (e : StatusCode)
| Waiting
| OutOfFuel.

Definition T (A : Type) : Type := M ThreadState Stop A.

Definition fail {A} (e : StatusCode) : T A := throw (Code e).

(** What code that catches sees: [Result], or a panic that [catch_unwind] has caught. *)
Definition attempt {A B} (m : T A) (k : outcome StatusCode A -> T B) : T B := fun s =>
  match m s with
  | (Ok a, s) => k (Ok a) s
  | (Err (Code e), s) => k (Err e) s
  | (Panic, s) => k Panic s
  | (Err w, s) => (Err w, s)
  end.

(** [?] on a [Result], and a panic that goes on. *)
Definition resume {A} (r : outcome StatusCode A) : T A :=
  match r with Ok a => ret a | Err e => fail e | Panic => panic end.

Definition enqueue (c : Command) : T unit := modify (fun s =>
  set_history (note_queued c (history s)) (set_io (in_parcel s) (out_parcel s ++ [c]) (ioctls s) (sent s) s)).

(** ** The accessors of the caller *)

Section Identity.
(** [getuid] and [getpid] of the process. *)
Context (own_uid own_pid : Z).

Definition rpc_calling (s : ThreadState) : option (Z * Z) := peer_uid_pid <$> RPC_CALLING s.

Definition calling_caller (s : ThreadState) : option Caller :=
  match RPC_CALLING s with
  | Some peer => Some (RpcCaller peer)
  | None => (fun tr => KernelCaller (calling_uid tr) (calling_pid tr) (calling_sid tr)) <$> transaction s
  end.

(** [CallingContext::default]. *)
Definition calling_context (s : ThreadState) : CallingContext :=
  match rpc_calling s with
  | Some (uid, pid) => mkContext pid uid None
  | None =>
      match transaction s with
      | Some tr => mkContext (calling_pid tr) (calling_uid tr) (calling_sid tr)
      | None => mkContext own_pid own_uid None
      end
  end.

Definition is_handling_transaction (s : ThreadState) : bool :=
  match rpc_calling s with Some _ => true | None => bool_decide (is_Some (transaction s)) end.

Definition get_calling_sid (s : ThreadState) : option string :=
  match rpc_calling s with Some _ => None | None => transaction s ≫= calling_sid end.

Definition get_calling_pid (s : ThreadState) : Z :=
  match rpc_calling s with
  | Some (_, pid) => pid
  | None => default 0 (calling_pid <$> transaction s)
  end.

Definition get_calling_uid (s : ThreadState) : Z :=
  match rpc_calling s with
  | Some (uid, _) => uid
  | None => default 0 (calling_uid <$> transaction s)
  end.

Definition get_calling_uid_or_self (s : ThreadState) : Z :=
  match rpc_calling s with
  | Some (uid, _) => uid
  | None => default own_uid (calling_uid <$> transaction s)
  end.

Definition clear_calling_identity (s : ThreadState) : Z * ThreadState :=
  match transaction s with
  | None => (0, s)
  | Some tr =>
      (pack_calling_identity (has_explicit_identity tr) (calling_uid tr) (calling_pid tr),
       set_transaction (Some (mkTransaction own_pid None own_uid (last_transaction_binder_flags tr)
                                            (work_source tr) (propagate_work_source tr) true)) s)
  end.
End Identity.

Definition restore_calling_identity (token : Z) (s : ThreadState) : ThreadState :=
  match transaction s with
  | None => s
  | Some tr =>
      set_transaction (Some (mkTransaction (unpack_calling_pid token) None (unpack_calling_uid token)
                                           (last_transaction_binder_flags tr) (work_source tr)
                                           (propagate_work_source tr) (unpack_has_explicit_identity token))) s
  end.

(** ** The work source *)

Definition set_calling_work_source_uid_without_propagation (uid : Z) (s : ThreadState) : Z * ThreadState :=
  match transaction s with
  | Some tr =>
      (Z.lor (Z.shiftl (if propagate_work_source tr then 1 else 0) WORK_SOURCE_PROPAGATED_BIT_INDEX) (work_source tr),
       set_transaction (Some (mkTransaction (calling_pid tr) (calling_sid tr) (calling_uid tr)
                                            (last_transaction_binder_flags tr) uid (propagate_work_source tr)
                                            (has_explicit_identity tr))) s)
  | None => (0, s)
  end.

Definition with_propagation (b : bool) (tr : TransactionState) : TransactionState :=
  mkTransaction (calling_pid tr) (calling_sid tr) (calling_uid tr) (last_transaction_binder_flags tr)
                (work_source tr) b (has_explicit_identity tr).

Definition set_calling_work_source_uid (uid : Z) (s : ThreadState) : Z * ThreadState :=
  let (token, s) := set_calling_work_source_uid_without_propagation uid s in
  (token, set_transaction (with_propagation true <$> transaction s) s).

Definition clear_calling_work_source (s : ThreadState) : ThreadState :=
  snd (set_calling_work_source_uid (wrap_u 32 UNSET_WORK_SOURCE) s).

Definition clear_propagate_work_source (s : ThreadState) : ThreadState :=
  set_transaction (with_propagation false <$> transaction s) s.

Definition should_propagate_work_source (s : ThreadState) : bool :=
  default false (propagate_work_source <$> transaction s).

Definition calling_work_source_uid (s : ThreadState) : Z := default 0 (work_source <$> transaction s).

(** ** Talking to the driver *)

Section Driver.
Context `{ErrnoTable}.

(** The outcome of [write_read], which is repeated while it is interrupted. *)
Fixpoint next_ioctl (l : list Ioctl) : option (Ioctl * list Ioctl) :=
  match l with
  | [] => None
  | Interrupted :: l => next_ioctl l
  | x :: l => Some (x, l)
  end.

Definition talk_with_driver (do_receive : bool) : T unit := fun s =>
  let need_read := bool_decide (in_parcel s = []) in
  let write := (negb do_receive || need_read) && negb (bool_decide (out_parcel s = [])) in
  let read := do_receive && need_read in
  if negb write && negb read then (Ok tt, s)
  else
    match next_ioctl (ioctls s) with
    | None => (Err Waiting, set_io (in_parcel s) (out_parcel s) [] (sent s) s)
    | Some (Failed errno, l) =>
        (Err (Code (status_of_errno errno)), set_io (in_parcel s) (out_parcel s) l (sent s) s)
    | Some (Interrupted, l) => (Ok tt, s)
    | Some (Served w returns, l) =>
        let received := if read then returns else in_parcel s in
        if negb write then (Ok tt, set_io received (out_parcel s) l (sent s) s)
        else
          match w with
          | WroteAll => (Ok tt, set_io received [] l (sent s ++ out_parcel s) s)
          | WrotePart => (Panic, set_io (in_parcel s) (out_parcel s) l (sent s) s)
          | WroteNothing => (Ok tt, set_io received (out_parcel s) l (sent s) s)
          end
    end.

Definition flush_commands : T unit :=
  let* _ := talk_with_driver false in
  let* s := get in
  if bool_decide (out_parcel s = []) then ret tt else talk_with_driver false.

(** The guard resets [is_flushing] however [flush_commands] ends. *)
Definition flush_if_needed : T bool :=
  let* s := get in
  if is_looper s || is_flushing s then ret false
  else
    let* _ := modify (set_flushing true) in
    attempt flush_commands (fun r => let* _ := modify (set_flushing false) in let* _ := resume r in ret true).

Definition queue_and_flush (c : Command) : T unit :=
  let* _ := enqueue c in let* _ := flush_if_needed in ret tt.

Definition inc_strong_handle (handle : Z) : T unit := queue_and_flush (BC_ACQUIRE handle).
Definition dec_strong_handle (handle : Z) : T unit := queue_and_flush (BC_RELEASE handle).
Definition inc_weak_handle (handle : Z) : T unit := queue_and_flush (BC_INCREFS handle).
Definition dec_weak_handle (handle : Z) : T unit := queue_and_flush (BC_DECREFS handle).
Definition request_death_notification (handle : Z) : T unit := enqueue (BC_REQUEST_DEATH_NOTIFICATION handle handle).
Definition clear_death_notification (handle : Z) : T unit := enqueue (BC_CLEAR_DEATH_NOTIFICATION handle handle).

Definition free_buffer (b : Z) : T unit := queue_and_flush (BC_FREE_BUFFER b).

(** [Drop for Parcel]: an error is logged. *)
Definition drop_parcel (b : Z) : T unit :=
  attempt (free_buffer b) (fun r => match r with Panic => panic | _ => ret tt end).

Definition TF_ONE_WAY : Z := 1.
Definition TF_STATUS_CODE : Z := 8.
Definition TF_ACCEPT_FDS : Z := 16.
Definition TF_CLEAR_BUF : Z := 32.

Definition is_one_way (flags : Z) : bool := negb (Z.land flags TF_ONE_WAY =? 0).

(** What [write_transaction_data] sends for a status: the parcel, or the status in its place. *)
Definition flags_for (flags status : Z) : Z :=
  if status =? status_to_i32 StOk then flags else Z.lor flags TF_STATUS_CODE.
Definition body_for (b : Body) (status : Z) : Body :=
  if status =? status_to_i32 StOk then b else mkBody (to_le 4 (wrap_u 32 status)) [].

(** The next command of [in_parcel]; [None] when there is none. *)
Definition read_command : T (option Return) := fun s =>
  match in_parcel s with
  | [] => (Ok None, s)
  | r :: l => (Ok (Some r), set_history (note_received r (history s)) (set_io l (out_parcel s) (ioctls s) (sent s) s))
  end.
End Driver.

(** ** Code of the application *)

(** A reply: a parcel over a buffer of the driver, or an empty one. *)
Record Reply : Type := mkReply { kernel_buffer : option Z; contents : Body }.

Inductive HandleOp : Type :=
| IncStrong (handle : Z)
| DecStrong (handle : Z)
| IncWeak (handle : Z)
| DecWeak (handle : Z)
| RequestDeath (handle : Z)
| ClearDeath (handle : Z).

(** What a handler does on its thread: calls, drops of the replies, questions for and changes of the
    calling identity, the header [check_interface] takes from a request, reference counts of
    handles, an RPC dispatch (a callback that arrives while it calls out over RPC). *)
Inductive Prog : Type :=
| Finish (err : option StatusCode) (reply : Body)
| Crash
| Transact (handle code flags : Z) (data : Body) (k : StatusCode + option Reply -> Prog)
| DropReply (b : Z) (k : Prog)
| AskContext (k : CallingContext -> Prog)
| ClearIdentity (k : Z -> Prog)
| RestoreIdentity (token : Z) (k : Prog)
| TakeHeader (strict_policy uid : Z) (k : Prog)
| CountHandle (op : HandleOp) (k : option StatusCode -> Prog)
| RpcDispatch (peer : PeerIdentity) (callback : Prog) (k : Prog).

Definition Handler : Type := Z -> Body -> Prog.

(** A native binder: whether a strong reference is to be had, its [Transactable], and what
    giving the reference back returns. *)
Record Native : Type := mkService {
  attempt_increase : bool;
  as_transactable : option Handler;
  decrease : outcome StatusCode unit
}.

Definition handle_op `{ErrnoTable} (op : HandleOp) : T unit :=
  match op with
  | IncStrong h => inc_strong_handle h
  | DecStrong h => dec_strong_handle h
  | IncWeak h => inc_weak_handle h
  | DecWeak h => dec_weak_handle h
  | RequestDeath h => request_death_notification h
  | ClearDeath h => clear_death_notification h
  end.

(** The part of [check_interface] that changes the thread. *)
Definition take_header (strict_policy uid : Z) (s : ThreadState) : ThreadState :=
  let last := default 0 (last_transaction_binder_flags <$> transaction s) in
  let strict_policy := if negb (Z.land last TF_ONE_WAY =? 0) then 0 else strict_policy in
  snd (set_calling_work_source_uid_without_propagation uid (set_strict_mode_policy strict_policy s)).

(** The parcel over a buffer is dropped: what a program drops it owns. *)
Definition drop_reply `{ErrnoTable} (b : Z) : T unit :=
  let* s := get in
  if existsb (Z.eqb b) (held_buffers (history s)) then
    let* _ := modify (fun s => set_history (note_held (remove_one b (held_buffers (history s))) (history s)) s) in
    drop_parcel b
  else ret tt.

(** ** Dispatch *)

Definition from_transaction_data (tr : binder_transaction_data) (secctx : option string) : TransactionState :=
  mkTransaction (sender_pid tr) secctx (sender_euid tr) (flags tr) 0 false false.

Definition table_step (x : Action) (s : ThreadState) : ThreadState :=
  match act x (natives s) with Some t => set_table t s | None => s end.

(** [ref_native_kernel(id).is_some()]. *)
Definition ref_native (id : Z) : T bool := fun s =>
  (Ok (bool_decide (is_Some (lookup_native id (natives s)))), table_step (KernelRef id) s).

Section Threads.
Context `{ErrnoTable} (own_uid own_pid : Z) (debug_assertions thread_pool_started : bool).
Context (service : nat -> Native) (context_manager : option (option Handler)).
(** [send_obituary_for_handle] with the recipients it tells, [release_obituary_pin], and the destructor of
    a native binder. *)
Context (send_obituary_for_handle release_obituary_pin : Z -> Prog) (destructor : nat -> Prog).

Section Loop.
(** [wait_for_response], which the calls below make. *)
Context (wait : UntilResponse -> T (option Reply)).

Definition transact (handle code flags : Z) (data : Body) : T (option Reply) :=
  let flags := Z.lor flags TF_ACCEPT_FDS in
  let* s := get in
  if negb (is_one_way flags) && match call_restriction s with FatalIfNotOneway => true | _ => false end
  then panic
  else
    let* _ := enqueue (BC_TRANSACTION (flags_for flags 0) handle code (body_for data 0)) in
    if negb (is_one_way flags) then wait UntilReply
    else let* _ := wait UntilTransactionComplete in ret None.

Fixpoint run_prog (p : Prog) : T (option StatusCode * Body) :=
  match p with
  | Finish err reply => ret (err, reply)
  | Crash => panic
  | Transact h c f d k =>
      attempt (transact h c f d) (fun r =>
        match r with Ok x => run_prog (k (inr x)) | Err e => run_prog (k (inl e)) | Panic => panic end)
  | DropReply b k => let* _ := drop_reply b in run_prog k
  | AskContext k => let* s := get in run_prog (k (calling_context own_uid own_pid s))
  | ClearIdentity k =>
      let* s := get in
      let (token, s) := clear_calling_identity own_uid own_pid s in
      let* _ := put s in run_prog (k token)
  | RestoreIdentity token k => let* _ := modify (restore_calling_identity token) in run_prog k
  | TakeHeader policy uid k => let* _ := modify (take_header policy uid) in run_prog k
  | CountHandle op k =>
      attempt (handle_op op) (fun r =>
        match r with Ok _ => run_prog (k None) | Err e => run_prog (k (Some e)) | Panic => panic end)
  | RpcDispatch peer callback k =>
      let* s := get in
      let previous := RPC_CALLING s in
      let* _ := modify (set_rpc_calling (Some peer)) in
      attempt (run_prog callback) (fun _ => let* _ := modify (set_rpc_calling previous) in run_prog k)
  end.

Definition dispatch_transact_caught (transactable : Handler) (code : Z) (reader : Body)
    : T (option StatusCode * Body) :=
  attempt (run_prog (transactable code reader)) (fun r =>
    match r with
    | Ok x => ret x
    | Err e => ret (Some e, empty_body)
    | Panic => ret (Some StUnknown, empty_body)
    end).

(** A [Transactable] or none: the two arms of the target. *)
Definition dispatch_to (t : option Handler) (tr : binder_transaction_data) : T (option StatusCode * Body) :=
  match t with
  | Some h => dispatch_transact_caught h (code tr) (mkBody (data tr) (offsets tr))
  | None => ret (Some StUnknownTransaction, empty_body)
  end.

Definition dispatch_target (tr : binder_transaction_data) : T (option StatusCode * Body) :=
  if negb (target tr =? 0) then
    let* s := get in
    match lookup_native (target tr) (natives s) with
    | Some a =>
        if attempt_increase (service a) then
          let* result := dispatch_to (as_transactable (service a)) tr in
          let* _ := resume (decrease (service a)) in
          ret result
        else ret (Some StUnknownTransaction, empty_body)
    | None => ret (Some StDeadObject, empty_body)
    end
  else
    match context_manager with
    | Some context => dispatch_to context tr
    | None => ret (Some StDeadObject, empty_body)
    end.

(** The reply of a call that has one, up to the driver's confirmation. *)
Definition reply_to (tr : binder_transaction_data) (err : option StatusCode) (reply : Body) : T unit :=
  if negb (is_one_way (flags tr)) then
    let fl := Z.land (flags tr) TF_CLEAR_BUF in
    let status := status_to_i32 (default StOk err) in
    let* _ := enqueue (BC_REPLY (flags_for fl status) u32_max 0 (body_for reply status)) in
    let* _ := wait UntilTransactionComplete in
    ret tt
  else ret tt.

(** The way out after the reply: what a panic has left in the queue is dropped, and the reader is. *)
Definition after_reply (tr : binder_transaction_data) (reply_result : outcome StatusCode unit) : T unit :=
  match reply_result with
  | Panic =>
      let* _ := modify (fun s => set_io (in_parcel s) [] (ioctls s) (sent s) s) in
      let* _ := drop_parcel (buffer tr) in fail StUnknown
  | _ => let* _ := drop_parcel (buffer tr) in resume reply_result
  end.

(** [BR_TRANSACTION] and [BR_TRANSACTION_SEC_CTX]. The reader is dropped on every way out. *)
Definition run_transaction (tr : binder_transaction_data) (secctx : option string) : T unit :=
  let* s := get in
  let transaction_old := transaction s in
  let* _ := modify (fun s => set_transaction (Some (from_transaction_data tr secctx))
                       (clear_propagate_work_source (clear_calling_work_source s))) in
  attempt (dispatch_target tr) (fun result =>
    match result with
    | Ok (err, reply) =>
        attempt (reply_to tr err reply) (fun reply_result =>
          let* _ := modify (set_transaction transaction_old) in after_reply tr reply_result)
    | Err e => let* _ := drop_parcel (buffer tr) in fail e
    | Panic => let* _ := drop_parcel (buffer tr) in panic
    end).

Definition drive_dead_binder_handshake (obituary queue_done pin_release : T unit) : T unit :=
  attempt obituary (fun obituary_result =>
    match obituary_result with
    | Panic => panic
    | _ =>
        let* _ := queue_done in
        attempt pin_release (fun pin_result =>
          match pin_result with
          | Panic => panic
          | _ => let* _ := resume obituary_result in resume pin_result
          end)
    end).

(** A program that returns [Result<()>]. *)
Definition run_unit (p : Prog) : T unit :=
  let* r := run_prog p in match fst r with None => ret tt | Some e => fail e end.

Definition push_strong (id : Z) (s : ThreadState) : ThreadState :=
  set_derefs (mkDerefs (pending_strong_derefs (BINDER_DEREFS s) ++ [id]) (pending_weak_derefs (BINDER_DEREFS s))) s.
Definition push_weak (id : Z) (s : ThreadState) : ThreadState :=
  set_derefs (mkDerefs (pending_strong_derefs (BINDER_DEREFS s)) (pending_weak_derefs (BINDER_DEREFS s) ++ [id])) s.

(** [BR_INCREFS], [BR_ACQUIRE]: the reference is counted and confirmed. *)
Definition take_kernel_reference (id : Z) (done : Command) : T unit :=
  let* known := ref_native id in
  if negb known && debug_assertions then panic else enqueue done.

Definition execute_command (cmd : Return) : T unit :=
  match cmd with
  | BR_ERROR e => fail (status_of_i32 e)
  | BR_OK => ret tt
  | BR_TRANSACTION_SEC_CTX tr secctx => run_transaction tr secctx
  | BR_TRANSACTION tr => run_transaction tr None
  | BR_INCREFS id cookie => take_kernel_reference id (BC_INCREFS_DONE id cookie)
  | BR_ACQUIRE id cookie => take_kernel_reference id (BC_ACQUIRE_DONE id cookie)
  | BR_RELEASE id _ => modify (push_strong id)
  | BR_DECREFS id _ => modify (push_weak id)
  | BR_ATTEMPT_ACQUIRE id _ =>
      let* success := ref_native id in enqueue (BC_ACQUIRE_RESULT (if success then 1 else 0))
  | BR_NOOP => ret tt
  | BR_SPAWN_LOOPER =>
      modify (fun s => if thread_pool_started then set_history (note_spawned (history s)) s else s)
  | BR_FINISHED => fail StTimedOut
  | BR_DEAD_BINDER handle =>
      drive_dead_binder_handshake (run_unit (send_obituary_for_handle handle)) (enqueue (BC_DEAD_BINDER_DONE handle))
                                  (run_unit (release_obituary_pin handle))
  | BR_CLEAR_DEATH_NOTIFICATION_DONE _ => ret tt
  | _ => fail StUnknown
  end.

(** The status in a reply that carries one. *)
Definition status_in (tr : binder_transaction_data) : StatusCode :=
  if 4 <=? zlen (data tr) then status_of_i32 (of_le_i 32 (take 4 (data tr))) else StBadValue.

Definition take_reply (tr : binder_transaction_data) : T (option Reply) :=
  if Z.land (flags tr) TF_STATUS_CODE =? 0 then
    let* _ := modify (fun s => set_history (note_held (buffer tr :: held_buffers (history s)) (history s)) s) in
    ret (Some (mkReply (Some (buffer tr)) (mkBody (data tr) (offsets tr))))
  else
    let* _ := free_buffer (buffer tr) in
    match status_in tr with
    | StOk => ret (Some (mkReply None empty_body))
    | status => fail status
    end.

(** One turn of the loop of [wait_for_response]. *)
Definition respond (until : UntilResponse) (cmd : Return) : T (option Reply) :=
  match cmd with
  | BR_ONEWAY_SPAM_SUSPECT | BR_TRANSACTION_COMPLETE =>
      match until with UntilTransactionComplete => ret None | _ => wait until end
  | BR_TRANSACTION_PENDING_FROZEN => ret None
  | BR_DEAD_REPLY => fail StDeadObject
  | BR_FAILED_REPLY | BR_FROZEN_REPLY => fail StFailedTransaction
  | BR_ACQUIRE_RESULT result =>
      match until with
      | UntilAcquireResult => if negb (result =? 0) then ret None else fail StInvalidOperation
      | _ => if debug_assertions then panic else wait until
      end
  | BR_REPLY tr =>
      match until with
      | UntilReply => take_reply tr
      | _ => let* _ := free_buffer (buffer tr) in wait until
      end
  | _ => let* _ := execute_command cmd in wait until
  end.

Definition wait_turn (until : UntilResponse) : T (option Reply) :=
  let* _ := talk_with_driver true in
  let* cmd := read_command in
  match cmd with None => wait until | Some cmd => respond until cmd end.
End Loop.

Fixpoint wait_for_response (fuel : nat) (until : UntilResponse) : T (option Reply) :=
  match fuel with
  | O => throw OutOfFuel
  | S n => wait_turn (wait_for_response n) until
  end.

Section Pool.
Context (fuel : nat).
Local Abbreviation wait := (wait_for_response fuel).

Definition get_and_execute_command : T unit :=
  let* _ := talk_with_driver true in
  let* cmd := read_command in
  match cmd with None => fail StNotEnoughData | Some cmd => execute_command wait cmd end.

(** [_handle_commands]: at least one command, then as long as there are some. *)
Fixpoint handle_commands (n : nat) : T unit :=
  match n with
  | O => throw OutOfFuel
  | S n =>
      let* _ := get_and_execute_command in
      let* s := get in
      if bool_decide (in_parcel s = []) then ret tt
      else let* _ := flush_commands in handle_commands n
  end.

(** [query_interface] up to the string in the reply, and [ping_binder]. *)
Definition PING_TRANSACTION : Z := 1599098439.
Definition INTERFACE_TRANSACTION : Z := 1598968902.

Definition query_interface (handle : Z) : T Reply :=
  let* reply := transact wait handle INTERFACE_TRANSACTION 0 empty_body in
  match reply with Some r => ret r | None => fail StUnexpectedNull end.

Definition ping_binder (handle : Z) : T unit :=
  let* reply := transact wait handle PING_TRANSACTION 0 empty_body in
  match reply with
  | Some r => match kernel_buffer r with Some b => drop_reply b | None => ret tt end
  | None => ret tt
  end.

(** [deref_native_kernel]: the two sections on the table, and the destructor when the entry goes. *)
Definition deref_native (id : Z) : T unit :=
  let* s := get in
  let before := lookup_native id (natives s) in
  let* _ := modify (fun s => set_history (note_derefed id (history s))
                      (table_step (Remove id) (table_step (KernelDeref id) s))) in
  let* s := get in
  match before, lookup_native id (natives s) with
  | Some a, None => let* _ := run_prog wait (destructor a) in ret tt
  | _, _ => ret tt
  end.

Fixpoint deref_all (batch : list Z) : T unit :=
  match batch with [] => ret tt | id :: batch => let* _ := deref_native id in deref_all batch end.

(** The two loops of [process_pending_derefs] as one: a batch of weak references, or one strong one
    when there are no weak ones. *)
Fixpoint process_pending_derefs (n : nat) : T unit :=
  match n with
  | O => throw OutOfFuel
  | S n =>
      let* s := get in
      let d := BINDER_DEREFS s in
      match pending_weak_derefs d, pending_strong_derefs d with
      | [], [] => ret tt
      | [], id :: strong =>
          let* _ := put (set_derefs (mkDerefs strong []) s) in
          let* _ := deref_native id in process_pending_derefs n
      | batch, strong =>
          let* _ := put (set_derefs (mkDerefs strong []) s) in
          let* _ := deref_all batch in process_pending_derefs n
      end
  end.

(** The loop ends with the error of a command. *)
Fixpoint pool_loop (n : nat) : T StatusCode :=
  match n with
  | O => throw OutOfFuel
  | S n =>
      let* s := get in
      let* _ := (if bool_decide (in_parcel s = []) then process_pending_derefs fuel else ret tt) in
      attempt get_and_execute_command (fun r =>
        match r with Ok _ => pool_loop n | Err e => ret e | Panic => panic end)
  end.

Definition join_thread_pool (is_main : bool) : T unit :=
  let* _ := enqueue (if is_main then BC_ENTER_LOOPER else BC_REGISTER_LOOPER) in
  let* _ := modify (set_looper true) in
  let* _ := pool_loop fuel in
  let* _ := enqueue BC_EXIT_LOOPER in
  let* _ := modify (set_looper false) in
  talk_with_driver false.
End Pool.
End Threads.
