(* ===== verification/ThreadSpec.v ===== *)
(** What holds of a thread that talks to the driver (ThreadState.v): identity tokens, the
    identity of the caller through nested calls, the balance of replies, buffers and kernel
    references, and the end of the loops. *)

From Stdlib Require Import ZArith Lia Strings.Byte.
From stdpp Require Import base gmap list strings.
From S2P Require Import Prelude Errors Transport NativeTable ThreadState.

(** * Identity tokens *)

Definition bit30 : Z := 1073741824.

Lemma land_bit30 x : Z.land x bit30 = if Z.testbit x 30 then bit30 else 0.
Proof.
  apply Z.bits_inj'. intros n Hn. rewrite Z.land_spec. change bit30 with (2 ^ 30).
  rewrite (Z.pow2_bits_eqb 30 n) by lia. destruct (Z.eqb_spec 30 n) as [<- | Hne].
  - rewrite andb_true_r. destruct (Z.testbit x 30); [by rewrite Z.pow2_bits_true | by rewrite Z.bits_0].
  - rewrite andb_false_r. destruct (Z.testbit x 30); [by rewrite Z.pow2_bits_false | by rewrite Z.bits_0].
Qed.

Lemma ldiff_bit30 x : Z.ldiff x bit30 = x - if Z.testbit x 30 then bit30 else 0.
Proof.
  assert (Hd : Z.ldiff x bit30 + Z.land x bit30 = x).
  { rewrite <- (Z.add_lor_land (Z.ldiff x bit30) (Z.land x bit30)).
    replace (Z.land (Z.ldiff x bit30) (Z.land x bit30)) with 0.
    - rewrite Z.add_0_r. apply Z.bits_inj'. intros n Hn. rewrite Z.lor_spec, Z.ldiff_spec, Z.land_spec.
      by destruct (Z.testbit x n), (Z.testbit bit30 n).
    - symmetry. apply Z.bits_inj'. intros n Hn. rewrite !Z.land_spec, Z.ldiff_spec, Z.bits_0.
      by destruct (Z.testbit x n), (Z.testbit bit30 n). }
  rewrite land_bit30 in Hd. lia.
Qed.

Lemma lor_bit30 x : Z.lor x bit30 = x + if Z.testbit x 30 then 0 else bit30.
Proof.
  pose proof (Z.add_lor_land x bit30) as H. rewrite land_bit30 in H. destruct (Z.testbit x 30); lia.
Qed.

Lemma testbit30 x : Z.testbit x 30 = ((x / bit30) mod 2 =? 1).
Proof.
  destruct (Z.testbit x 30) eqn:E; symmetry.
  - apply Z.eqb_eq. by apply (Z.testbit_true x 30).
  - apply Z.eqb_neq. apply (Z.testbit_false x 30) in E; [| lia]. change (2 ^ 30) with bit30 in E. lia.
Qed.

Lemma land_sign x : in_i 32 x -> (Z.land x (wrap_i 32 (Z.shiftl 1 31)) =? 0) = (0 <=? x).
Proof.
  intros Hx. unfold in_i in Hx. change (wrap_i 32 (Z.shiftl 1 31)) with (Z.lnot (Z.ones 31)).
  rewrite <- Z.ldiff_land, Z.ldiff_ones_r, Z.shiftl_mul_pow2, Z.shiftr_div_pow2 by lia.
  change (2 ^ (32 - 1)) with 2147483648 in Hx. change (2 ^ 31) with 2147483648.
  destruct (Z.leb_spec 0 x).
  - rewrite Z.div_small by lia. done.
  - apply Z.eqb_neq. pose proof (Z.div_lt_upper_bound x 2147483648 0). lia.
Qed.

(** The lower half of a token as [i32]. *)
Definition encoded_pid (has_explicit : bool) (pid : Z) : Z :=
  pid + (if 0 <=? pid then if has_explicit then bit30 else 0 else if has_explicit then 0 else - bit30).

Lemma low_half (e : bool) pid : - bit30 <= pid < bit30 ->
  let low := if e then Z.lor (wrap_u 32 pid) bit30 else Z.ldiff (wrap_u 32 pid) bit30 in
  0 <= low < 2 ^ 32 /\ wrap_i 32 low = encoded_pid e pid.
Proof.
  intros Hp low. unfold low. clear low. rewrite lor_bit30, ldiff_bit30, testbit30. unfold wrap_u, wrap_i, encoded_pid, bit30 in *.
  change (2 ^ (32 - 1)) with 2147483648. change (2 ^ 32) with 4294967296.
  destruct (Z.leb_spec 0 pid).
  - rewrite (Z.mod_small pid) by lia. rewrite (Z.div_small pid) by lia. change (0 mod 2 =? 1) with false. cbv iota.
    destruct e; (split; [lia |]); rewrite Z.mod_small by lia; lia.
  - replace (pid mod 4294967296) with (pid + 4294967296) by (apply Z.mod_unique with (-1); lia).
    replace ((pid + 4294967296) / 1073741824) with 3 by (apply Z.div_unique with (pid + 1073741824); lia).
    change (3 mod 2 =? 1) with true. cbv iota. destruct e; (split; [lia |]);
      match goal with |- ?a mod _ - _ = _ => replace (a mod 4294967296) with (a - 4294967296)
        by (apply Z.mod_unique with 1; lia) end; lia.
Qed.

Lemma token_halves uid low : in_u 32 uid -> 0 <= low < 2 ^ 32 ->
  let token := wrap_i 64 (Z.lor (wrap_u 64 (Z.shiftl uid 32)) low) in
  wrap_u 32 (Z.shiftr token 32) = uid /\ wrap_i 32 token = wrap_i 32 low.
Proof.
  intros Hu Hl token.
  assert (E : Z.lor (wrap_u 64 (Z.shiftl uid 32)) low = uid * 2 ^ 32 + low).
  { unfold wrap_u. rewrite Z.shiftl_mul_pow2 by lia. unfold in_u in Hu.
    rewrite (Z.mod_small (uid * 2 ^ 32)) by (change (2 ^ 64) with (2 ^ 32 * 2 ^ 32); nia).
    pose proof (Z.add_lor_land (uid * 2 ^ 32) low) as H.
    assert (Z.land (uid * 2 ^ 32) low = 0); [| lia].
    rewrite <- Z.shiftl_mul_pow2 by lia. apply Z.bits_inj'. intros n Hn. rewrite Z.land_spec, Z.bits_0.
    destruct (Z.lt_ge_cases n 32); [by rewrite Z.shiftl_spec_low |].
    destruct (Z.eq_dec low 0) as [-> | Hz]; [by rewrite Z.bits_0, andb_false_r |].
    rewrite (Z.bits_above_log2 low n), andb_false_r; [done | lia |].
    apply Z.log2_lt_pow2; [lia |]. apply Z.lt_le_trans with (2 ^ 32); [lia | apply Z.pow_le_mono_r; lia]. }
  unfold token. rewrite E. unfold in_u, wrap_i, wrap_u in *. rewrite Z.shiftr_div_pow2 by lia.
  change (2 ^ (64 - 1)) with 9223372036854775808. change (2 ^ 64) with 18446744073709551616.
  change (2 ^ (32 - 1)) with 2147483648. change (2 ^ 32) with 4294967296 in *.
  set (x := uid * 4294967296 + low + 9223372036854775808).
  pose proof (Z.div_mod x 18446744073709551616 ltac:(lia)) as Hx. set (q := x / 18446744073709551616) in *.
  replace (x mod 18446744073709551616 - 9223372036854775808)
    with (low + (uid - q * 4294967296) * 4294967296) by (unfold x in *; lia).
  rewrite Z.div_add, (Z.div_small low) by lia. split.
  - replace (0 + (uid - q * 4294967296)) with (uid + - q * 4294967296) by lia.
    rewrite Z.mod_add by lia. apply Z.mod_small. lia.
  - replace (low + (uid - q * 4294967296) * 4294967296 + 2147483648)
      with (low + 2147483648 + (uid - q * 4294967296) * 4294967296) by lia.
    by rewrite Z.mod_add.
Qed.

Lemma unpack_pack e uid pid : in_u 32 uid -> - bit30 <= pid < bit30 ->
  let token := pack_calling_identity e uid pid in
  unpack_calling_uid token = uid /\ unpack_calling_pid token = pid /\ unpack_has_explicit_identity token = e.
Proof.
  intros Hu Hp token. destruct (low_half e pid Hp) as [Hl He].
  destruct (token_halves uid _ Hu Hl) as [H1 H2].
  assert (Et : wrap_i 32 token = encoded_pid e pid) by (rewrite <- He; by destruct e).
  assert (Hi : in_i 32 (encoded_pid e pid)).
  { unfold encoded_pid, in_i, bit30 in *. change (2 ^ (32 - 1)) with 2147483648. destruct (0 <=? pid) eqn:E, e; lia. }
  split; [by destruct e |]. unfold unpack_calling_pid, unpack_has_explicit_identity. rewrite Et, land_sign by done.
  change (Z.shiftl 1 30) with bit30. rewrite lor_bit30, ldiff_bit30, land_bit30, testbit30.
  unfold encoded_pid, bit30 in *. destruct (Z.leb_spec 0 pid), e.
  - rewrite (proj2 (Z.leb_le 0 _)) by lia. replace ((pid + 1073741824) / 1073741824) with 1.
    + change (1 mod 2 =? 1) with true. cbn [negb]. split; [lia | done].
    + apply Z.div_unique with pid; lia.
  - rewrite (proj2 (Z.leb_le 0 _)) by lia. rewrite Z.add_0_r, Z.div_small by lia.
    change (0 mod 2 =? 1) with false. cbn [negb]. split; [lia | done].
  - rewrite (proj2 (Z.leb_gt 0 _)) by lia. replace ((pid + 0) / 1073741824) with (-1).
    + change (-1 mod 2 =? 1) with true. cbn [negb]. split; [lia | done].
    + apply Z.div_unique with (pid + 1073741824); lia.
  - rewrite (proj2 (Z.leb_gt 0 _)) by lia. replace ((pid + - (1073741824)) / 1073741824) with (-2).
    + change (-2 mod 2 =? 1) with false. cbn [negb]. split; [lia | done].
    + apply Z.div_unique with (pid + 1073741824); lia.
Qed.

(** * Runs *)

(** A computation that ended: it returned, failed or panicked. *)
Definition settled {A} (r : outcome Stop A) : bool :=
  match r with Err Waiting | Err OutOfFuel => false | _ => true end.

(** A relation between the states before and after, for ended and for other computations. *)
Definition Travel : Type := bool -> ThreadState -> ThreadState -> Prop.

Definition moves {A} (R : Travel) (m : T A) : Prop := forall s r s', m s = (r, s') -> R (settled r) s s'.

Class Path (R : Travel) : Prop := {
  path_refl s : R true s s;
  path_trans b s s1 s2 : R true s s1 -> R b s1 s2 -> R b s s2;
  path_stop s s1 : R true s s1 -> R false s s1
}.

(** [R2] after [R1] is [R]. *)
Definition link (R1 R2 R : Travel) : Prop := forall b s s1 s2, R1 true s s1 -> R2 b s1 s2 -> R b s s2.

Lemma moves_bind_link {A B} R1 R2 R (m : T A) (k : A -> T B) :
  link R1 R2 R -> (forall b s s', R1 b s s' -> R b s s') ->
  moves R1 m -> (forall a, moves R2 (k a)) -> moves R (bind m k).
Proof.
  intros Hl Hs Hm Hk s r s'. unfold bind. specialize (Hm s).
  destruct (m s) as [[a | e |] s1] eqn:E.
  - intros H. apply (Hl _ _ s1); [by apply (Hm (Ok a)) | by apply (Hk a)].
  - intros [= <- <-]. apply Hs. by apply (Hm (Err e)).
  - intros [= <- <-]. apply Hs. by apply (Hm Panic).
Qed.

Lemma moves_attempt_link {A B} R1 R2 R (m : T A) (k : outcome StatusCode A -> T B) :
  link R1 R2 R -> (forall s s', R1 false s s' -> R false s s') ->
  moves R1 m -> (forall r, moves R2 (k r)) -> moves R (attempt m k).
Proof.
  intros Hl Hs Hm Hk s r s'. unfold attempt. specialize (Hm s).
  destruct (m s) as [[a | [e | |] |] s1] eqn:E.
  - intros H. apply (Hl _ _ s1); [by apply (Hm (Ok a)) | by apply (Hk (Ok a))].
  - intros H. apply (Hl _ _ s1); [by apply (Hm (Err (Code e))) | by apply (Hk (Err e))].
  - intros [= <- <-]. apply Hs. by apply (Hm (Err Waiting)).
  - intros [= <- <-]. apply Hs. by apply (Hm (Err OutOfFuel)).
  - intros H. apply (Hl _ _ s1); [by apply (Hm Panic) | by apply (Hk Panic)].
Qed.

Section Paths.
Context (R : Travel) `{Path R}.

Lemma path_link : link R R R.
Proof. intros b s s1 s2. apply path_trans. Qed.

Lemma moves_ret {A} (a : A) : moves R (ret a : T A).
Proof. intros s r s' [= <- <-]. apply path_refl. Qed.
Lemma moves_fail {A} e : moves R (fail e : T A).
Proof. intros s r s' [= <- <-]. apply path_refl. Qed.
Lemma moves_panic {A} : moves R (panic : T A).
Proof. intros s r s' [= <- <-]. apply path_refl. Qed.
Lemma moves_get : moves R (get : T ThreadState).
Proof. intros s r s' [= <- <-]. apply path_refl. Qed.
Lemma moves_fuel {A} : moves R (throw OutOfFuel : T A).
Proof. intros s r s' [= <- <-]. apply path_stop, path_refl. Qed.
Lemma moves_resume {A} (r : outcome StatusCode A) : moves R (resume r).
Proof. destruct r; [apply moves_ret | apply moves_fail | apply moves_panic]. Qed.
Lemma moves_modify f : (forall s, R true s (f s)) -> moves R (modify f : T unit).
Proof. intros Hf s r s' [= <- <-]. apply Hf. Qed.
Lemma moves_bind {A B} (m : T A) (k : A -> T B) : moves R m -> (forall a, moves R (k a)) -> moves R (bind m k).
Proof. intros Hm Hk. by apply (moves_bind_link R R R); [apply path_link | ..]. Qed.
Lemma moves_attempt {A B} (m : T A) (k : outcome StatusCode A -> T B) :
  moves R m -> (forall r, moves R (k r)) -> moves R (attempt m k).
Proof. intros Hm Hk. by apply (moves_attempt_link R R R); [apply path_link | ..]. Qed.
End Paths.

(** Follow the structure of a computation. *)
Ltac go :=
  repeat first
    [ assumption
    | match goal with
      | |- moves _ (bind _ _) => apply moves_bind; [typeclasses eauto | | intros ?]
      | |- moves _ (attempt _ _) => apply moves_attempt; [typeclasses eauto | | intros ?]
      | |- moves _ (ret _) => apply moves_ret; typeclasses eauto
      | |- moves _ (fail _) => apply moves_fail; typeclasses eauto
      | |- moves _ panic => apply moves_panic; typeclasses eauto
      | |- moves _ get => apply moves_get; typeclasses eauto
      | |- moves _ (throw OutOfFuel) => apply moves_fuel; typeclasses eauto
      | |- moves _ (resume _) => apply moves_resume; typeclasses eauto
      | |- moves _ (if ?b then _ else _) => destruct b
      | |- moves _ (match ?x with _ => _ end) => destruct x
      end ].

(** The driver is told or asks: the four lists change. *)
Lemma talk_frame `{ErrnoTable} b s r s' :
  talk_with_driver b s = (r, s') -> exists i o l x, s' = set_io i o l x s.
Proof.
  assert (Hs : exists i o l x, s = set_io i o l x s)
    by (exists (in_parcel s), (out_parcel s), (ioctls s), (sent s); by destruct s).
  unfold talk_with_driver. cbv zeta.
  destruct (negb _ && negb _); [by intros [= <- <-] |].
  destruct (next_ioctl (ioctls s)) as [[[w rs | | e] l] |];
    [| by intros [= <- <-] | intros [= <- <-]; by do 4 eexists ..].
  destruct (negb _); [intros [= <- <-]; by do 4 eexists |].
  destruct w; intros [= <- <-]; by do 4 eexists.
Qed.

Section Flushes.
Context `{ErrnoTable} (R : Travel) `{!Path R}.
Context (moves_talk : forall b, moves R (talk_with_driver b)).
Context (moves_flushing : forall b s, R true s (set_flushing b s)).

Lemma moves_flush_commands : moves R flush_commands.
Proof using All. unfold flush_commands. go; apply moves_talk. Qed.

Lemma moves_flush_if_needed : moves R flush_if_needed.
Proof using All.
  unfold flush_if_needed. go; try apply moves_flush_commands; by apply moves_modify.
Qed.
End Flushes.

(** * The identity of the caller *)

(** What a transaction says of its caller. *)
Definition identity (t : TransactionState) : Z * Z * option string * bool :=
  (calling_uid t, calling_pid t, calling_sid t, has_explicit_identity t).

(** Nothing of the caller's identity has changed when the computation has ended. *)
Definition same_caller : Travel := fun b s s' =>
  b = true -> identity <$> transaction s' = identity <$> transaction s /\ RPC_CALLING s' = RPC_CALLING s.
Definition same_peer : Travel := fun b s s' => b = true -> RPC_CALLING s' = RPC_CALLING s.

#[export] Instance same_caller_path : Path same_caller.
Proof.
  split; unfold same_caller; [done | | done].
  intros b s s1 s2 H1 H2 Hb. destruct (H1 eq_refl), (H2 Hb). split; congruence.
Qed.
#[export] Instance same_peer_path : Path same_peer.
Proof. split; unfold same_peer; [done | | done]. intros b s s1 s2 H1 H2 Hb. rewrite (H2 Hb). by apply H1. Qed.

Lemma caller_peer {A} (m : T A) : moves same_caller m -> moves same_peer m.
Proof. intros Hm s r s' E Hb. by apply (Hm s r s' E Hb). Qed.

(** A program that neither clears nor restores the calling identity. *)
Fixpoint steady (p : Prog) : Prop :=
  match p with
  | Finish _ _ | Crash => True
  | Transact _ _ _ _ k => forall r, steady (k r)
  | DropReply _ k | TakeHeader _ _ k => steady k
  | AskContext k => forall c, steady (k c)
  | ClearIdentity _ | RestoreIdentity _ _ => False
  | CountHandle _ k => forall r, steady (k r)
  | RpcDispatch _ callback k => steady callback /\ steady k
  end.

Lemma caller_header policy uid s : same_caller true s (take_header policy uid s).
Proof.
  intros _. unfold take_header, set_calling_work_source_uid_without_propagation. cbn.
  by destruct (transaction s) eqn:E; cbn; rewrite ?E.
Qed.

Section Caller.
Context `{ErrnoTable} (own_uid own_pid : Z) (debug_assertions thread_pool_started : bool).
Context (service : nat -> Native) (context_manager : option (option Handler)).
Context (obituary release_pin : Z -> Prog).

Lemma caller_talk b : moves same_caller (talk_with_driver b).
Proof. intros s r s' E _. by destruct (talk_frame b s r s' E) as (i & o & l & x & ->). Qed.

Lemma caller_flush : moves same_caller flush_if_needed.
Proof. apply moves_flush_if_needed; [apply _ | apply caller_talk | done]. Qed.

Lemma caller_enqueue c : moves same_caller (enqueue c).
Proof. by apply moves_modify. Qed.

Lemma caller_queue c : moves same_caller (queue_and_flush c).
Proof. unfold queue_and_flush. go; [apply caller_enqueue | apply caller_flush]. Qed.

Lemma caller_drop b : moves same_caller (drop_parcel b).
Proof. unfold drop_parcel. go. apply caller_queue. Qed.

Lemma caller_drop_reply b : moves same_caller (drop_reply b).
Proof. unfold drop_reply. go; [by apply moves_modify | apply caller_drop]. Qed.

Lemma caller_handle_op op : moves same_caller (handle_op op).
Proof. destruct op; first [apply caller_queue | apply caller_enqueue]. Qed.

Lemma caller_read : moves same_caller read_command.
Proof. intros s r s'. unfold read_command. by destruct (in_parcel s); intros [= <- <-] _. Qed.

Lemma caller_ref_native id : moves same_caller (ref_native id).
Proof.
  intros s r s' [= <- <-] _. unfold table_step. by destruct (act (KernelRef id) (natives s)).
Qed.

Section Waiting.
Context (wait : UntilResponse -> T (option Reply)) (caller_wait : forall u, moves same_caller (wait u)).

Lemma caller_transact h c f d : moves same_caller (transact wait h c f d).
Proof using caller_wait. unfold transact. go; first [apply caller_enqueue | apply caller_wait]. Qed.

Lemma peer_prog p : moves same_peer (run_prog own_uid own_pid wait p).
Proof using caller_wait.
  induction p as [err reply | | h c f d k IH | b k IH | k IH | k IH | token k IH | pol u k IH | op k IH | peer cb IHc k IH];
    cbn [run_prog]; try (go; fail).
  - go; first [apply IH | apply caller_peer, caller_transact].
  - go; apply caller_peer, caller_drop_reply.
  - go; apply IH.
  - intros s r s'. unfold bind at 1, get. cbn beta iota. unfold clear_calling_identity.
    destruct (transaction s) as [t |]; cbn; intros E Hb; exact (IH _ _ _ _ E Hb).
  - go. apply moves_modify. intros s _. unfold restore_calling_identity. by destruct (transaction s).
  - go. apply moves_modify. intros s _. unfold take_header, set_calling_work_source_uid_without_propagation.
    by destruct (transaction _).
  - go; first [apply IH | apply caller_peer, caller_handle_op].
  - intros s r s'. unfold bind at 1, get. cbn beta iota. unfold bind at 1, modify at 1. cbn beta iota.
    unfold attempt. destruct (run_prog own_uid own_pid wait cb _) as [[a | [e | |] |] s1] eqn:Ec;
      try (intros [= <- <-]; intros [=]); unfold bind, modify; intros E Hb; exact (IH _ _ _ E Hb).
Qed.

(** Code that leaves the identity alone keeps it, whatever is dispatched while it calls out. *)
Lemma caller_prog p : steady p -> moves same_caller (run_prog own_uid own_pid wait p).
Proof using caller_wait.
  induction p as [err reply | | h c f d k IH | b k IH | k IH | k IH | token k IH | pol u k IH | op k IH | peer cb IHc k IH];
    cbn [run_prog steady]; intros Hs; try (by destruct Hs); try (go; fail).
  - go; first [by apply IH | apply caller_transact].
  - go; [apply caller_drop_reply | by apply IH].
  - go; by apply IH.
  - go; [apply moves_modify, caller_header | by apply IH].
  - go; first [by apply IH | apply caller_handle_op].
  - destruct Hs as [Hc Hk]. specialize (IHc Hc). specialize (IH Hk).
    intros s r s'. unfold bind at 1, get. cbn beta iota. unfold bind at 1, modify at 1. cbn beta iota.
    unfold attempt. destruct (run_prog own_uid own_pid wait cb _) as [q s1] eqn:Ec.
    specialize (IHc _ _ _ Ec).
    destruct q as [a | [e | |] |]; try (by intros [= <- <-] [=]); unfold bind, modify; intros E Hb;
      destruct (IHc eq_refl) as [Ht _]; destruct (IH _ _ _ E Hb) as [-> ->]; by split.
Qed.

Lemma peer_dispatch tr : moves same_peer (dispatch_target own_uid own_pid service context_manager wait tr).
Proof using caller_wait.
  assert (Hto : forall t, moves same_peer (dispatch_to own_uid own_pid wait t tr))
    by (intros t; unfold dispatch_to, dispatch_transact_caught; go; apply peer_prog).
  unfold dispatch_target. go; apply Hto.
Qed.

Lemma caller_reply tr err reply : moves same_caller (reply_to wait tr err reply).
Proof using caller_wait. unfold reply_to. go; first [apply caller_enqueue | apply caller_wait]. Qed.
End Waiting.
End Caller.

(** A computation that returns when it ends. *)
Definition returns {A} (m : T A) : Prop := forall s r s', m s = (r, s') -> settled r = true -> exists a, r = Ok a.

Lemma returns_ret {A} (a : A) : returns (ret a).
Proof. intros s r s' [= <- <-] _. by exists a. Qed.

Lemma returns_bind {A B} (m : T A) (k : A -> T B) : returns m -> (forall a, returns (k a)) -> returns (bind m k).
Proof.
  intros Hm Hk s r s'. unfold bind. destruct (m s) as [[a | e |] s1] eqn:E.
  - by apply Hk.
  - intros [= <- <-] Hs. by destruct (Hm _ _ _ E Hs).
  - intros [= <- <-] Hs. by destruct (Hm _ _ _ E Hs).
Qed.

Lemma returns_attempt {A B} (m : T A) (k : outcome StatusCode A -> T B) :
  (forall r, returns (k r)) -> returns (attempt m k).
Proof.
  intros Hk s r s'. unfold attempt. destruct (m s) as [[a | [e | |] |] s1]; [by apply Hk .. | | | by apply Hk];
    by intros [= <- <-].
Qed.

(** * Progress *)

(** The same driver, input and table. *)
Definition frame (s s' : ThreadState) : Prop :=
  in_parcel s' = in_parcel s /\ ioctls s' = ioctls s /\ received (history s') = received (history s) /\
  natives s' = natives s.

(** A relation that holds along every run: it holds of what the driver does, of reading, of steps of the table, and of
    all that changes none of these. *)
Class Course `{ErrnoTable} (R : Travel) : Prop := {
  course_path :: Path R;
  course_frame s s' : frame s s' -> R true s s';
  course_table x s : R true s (table_step x s);
  course_talk b : moves R (talk_with_driver b);
  course_read : moves R read_command
}.

Lemma history_table_step x s : history (table_step x s) = history s.
Proof. unfold table_step. by destruct (act x (natives s)). Qed.

Section Courses.
Context `{ErrnoTable} (R : Travel) {HR : Course R} (own_uid own_pid : Z) (debug_assertions thread_pool_started : bool).
Context (service : nat -> Native) (context_manager : option (option Handler)).
Context (obituary release_pin : Z -> Prog) (destructor : nat -> Prog).

Lemma moves_frame f : (forall s, frame s (f s)) -> moves R (modify f : T unit).
Proof using HR. intros Hf. apply moves_modify. intros s. by apply course_frame. Qed.

Lemma course_queue c : moves R (queue_and_flush c).
Proof using HR.
  unfold queue_and_flush. go; [by apply moves_frame |].
  apply moves_flush_if_needed; [apply _ | apply course_talk |]. intros b s. by apply course_frame.
Qed.

Lemma course_drop b : moves R (drop_parcel b).
Proof using HR. unfold drop_parcel. go. apply course_queue. Qed.

Lemma course_drop_reply b : moves R (drop_reply b).
Proof using HR. unfold drop_reply. go; [by apply moves_frame | apply course_drop]. Qed.

Lemma course_handle_op op : moves R (handle_op op).
Proof using HR. destruct op; first [apply course_queue | by apply moves_frame]. Qed.

Lemma course_ref_native id : moves R (ref_native id).
Proof using HR. intros s r s' [= <- <-]. apply course_table. Qed.

Section Along.
Context (wait : UntilResponse -> T (option Reply)) (course_wait : forall u, moves R (wait u)).

Lemma course_transact h c f d : moves R (transact wait h c f d).
Proof using HR course_wait. unfold transact. go; first [by apply moves_frame | apply course_wait]. Qed.

Lemma frame_header policy uid s : frame s (take_header policy uid s).
Proof. unfold take_header, set_calling_work_source_uid_without_propagation. by destruct (transaction _). Qed.

Lemma course_prog p : moves R (run_prog own_uid own_pid wait p).
Proof using HR course_wait.
  induction p as [err reply | | h c f d k IH | b k IH | k IH | k IH | token k IH | pol u k IH | op k IH | peer cb IHc k IH];
    cbn [run_prog]; try (go; fail).
  - go; first [apply IH | apply course_transact].
  - go. apply course_drop_reply.
  - go. apply IH.
  - intros s r s'. unfold bind at 1, get. cbn beta iota.
    assert (Hf : frame s (clear_calling_identity own_uid own_pid s).2)
      by (unfold clear_calling_identity; by destruct (transaction s)).
    destruct (clear_calling_identity own_uid own_pid s) as [token s1]. unfold bind, put. intros E.
    apply (path_trans _ _ s1); [by apply course_frame | by apply (IH token _ _ _ E)].
  - go. apply moves_frame. intros s. unfold restore_calling_identity. by destruct (transaction s).
  - go. apply moves_frame, frame_header.
  - go; first [apply IH | apply course_handle_op].
  - go; by apply moves_frame.
Qed.

Lemma course_run_transaction tr secctx : moves R (run_transaction own_uid own_pid service context_manager wait tr secctx).
Proof using HR course_wait.
  assert (Hto : forall t, moves R (dispatch_to own_uid own_pid wait t tr))
    by (intros t; unfold dispatch_to, dispatch_transact_caught; go; by apply course_prog).
  unfold run_transaction, dispatch_target, reply_to, after_reply.
  go; first [apply Hto | apply course_wait | apply course_drop | apply moves_frame; try done].
  intros s. unfold clear_propagate_work_source, clear_calling_work_source, set_calling_work_source_uid,
    set_calling_work_source_uid_without_propagation. by destruct (transaction s).
Qed.

Lemma course_execute cmd : moves R (execute_command own_uid own_pid debug_assertions thread_pool_started service
  context_manager obituary release_pin wait cmd).
Proof using HR course_wait.
  destruct cmd; cbn [execute_command]; try (go; fail); try apply course_run_transaction;
    unfold take_kernel_reference, drive_dead_binder_handshake, run_unit;
    go; first [apply course_ref_native | by apply course_prog | apply moves_frame; try done].
  intros s. by destruct thread_pool_started.
Qed.

Lemma course_respond u cmd : moves R (respond own_uid own_pid debug_assertions thread_pool_started service
  context_manager obituary release_pin wait u cmd).
Proof using HR course_wait.
  destruct cmd; cbn [respond]; unfold take_reply;
    go; first [apply course_execute | apply course_wait | apply course_queue | by apply moves_frame].
Qed.
End Along.

Lemma course_wait_for_response n u : moves R (wait_for_response own_uid own_pid debug_assertions thread_pool_started
  service context_manager obituary release_pin n u).
Proof using HR.
  revert u. induction n as [| n IH]; intros u; cbn [wait_for_response]; [go |].
  unfold wait_turn. go; first [apply course_talk | apply course_read | apply IH | by apply course_respond].
Qed.

Lemma course_next n : moves R (get_and_execute_command own_uid own_pid debug_assertions thread_pool_started
  service context_manager obituary release_pin n).
Proof using HR.
  unfold get_and_execute_command. go; first [apply course_talk | apply course_read | idtac].
  apply course_execute. intros u. apply course_wait_for_response.
Qed.

Lemma course_deref n id : moves R (deref_native own_uid own_pid debug_assertions thread_pool_started
  service context_manager obituary release_pin destructor n id).
Proof using HR.
  unfold deref_native. go.
  - apply moves_modify. intros s. apply (path_trans true _ (table_step (KernelDeref id) s)); [apply course_table |].
    apply (path_trans true _ (table_step (Remove id) (table_step (KernelDeref id) s))); [apply course_table |].
    apply course_frame. unfold frame. cbn. by rewrite !history_table_step.
  - apply course_prog. intros u. apply course_wait_for_response.
Qed.

Lemma course_deref_all n l : moves R (deref_all own_uid own_pid debug_assertions thread_pool_started
  service context_manager obituary release_pin destructor n l).
Proof using HR. induction l as [| id l IH]; cbn [deref_all]; go. apply course_deref. Qed.
End Courses.

(** What the driver has not yet given and the thread not yet read. *)
Definition input (x : Ioctl) : nat := match x with Served _ rs => S (length rs) | _ => 1 end.
Definition remaining (s : ThreadState) : nat := (length (in_parcel s) + sum_list_with input (ioctls s))%nat.

(** What is read is taken from what remains. *)
Definition progress : Travel := fun _ s s' =>
  exists l, received (history s') = received (history s) ++ l /\ (remaining s' + length l <= remaining s)%nat.

(** The table moves by its own steps. *)
Definition tables : Travel := fun _ s s' => table_reachable (natives s) -> table_reachable (natives s').

Lemma next_ioctl_spec l x l' : next_ioctl l = Some (x, l') ->
  x <> Interrupted /\ (sum_list_with input l' + input x <= sum_list_with input l)%nat.
Proof.
  induction l as [| y l IH]; [done |]. destruct y; cbn.
  - intros [= <- <-]. split; [done |]. cbn. lia.
  - intros E. destruct (IH E) as [H1 H2]. split; [done |]. lia.
  - intros [= <- <-]. split; [done |]. cbn. lia.
Qed.

(** [talk_with_driver] uses up a part of the driver's answers, or has nothing to do. *)
Lemma talk_remaining `{ErrnoTable} b s r s' : talk_with_driver b s = (r, s') ->
  history s' = history s /\ (remaining s' <= remaining s)%nat /\
  (b = true -> r = Ok tt -> in_parcel s = [] -> (remaining s' < remaining s)%nat) /\
  (in_parcel s <> [] -> r = Ok tt -> in_parcel s' = in_parcel s).
Proof.
  unfold talk_with_driver. cbv zeta. destruct (bool_decide_reflect (in_parcel s = [])) as [Hn | Hn]; cycle 1.
  - rewrite andb_false_r. destruct (negb _ && negb _); [intros [= <- <-]; by split_and! |].
    destruct (next_ioctl (ioctls s)) as [[x l] |] eqn:En; [| intros [= <- <-]; cbn; split_and!; try done; unfold remaining; cbn; lia].
    destruct (next_ioctl_spec _ _ _ En) as [Hx Hl]. destruct x as [w rs | | e]; [| done |].
    + destruct (negb _); [| destruct w]; intros [= <- <-]; unfold remaining; cbn; split_and!; try done; lia.
    + intros [= <- <-]; unfold remaining; cbn; split_and!; try done; lia.
  - rewrite Hn, andb_true_r. destruct (negb _ && negb _) eqn:Eb.
    { intros [= <- <-]. split_and!; try done. intros ->. by rewrite andb_false_r in Eb. }
    destruct (next_ioctl (ioctls s)) as [[x l] |] eqn:En;
      [| intros [= <- <-]; cbn; split_and!; try done; unfold remaining; rewrite Hn; cbn; lia].
    destruct (next_ioctl_spec _ _ _ En) as [Hx Hl]. destruct x as [w rs | | e]; [| done |].
    + destruct (negb _); [| destruct w]; intros [= <- <-]; unfold remaining; rewrite Hn; cbn in *;
        split_and!; try done; destruct b; cbn; lia.
    + intros [= <- <-]; unfold remaining; rewrite Hn; cbn in *; split_and!; try done; lia.
Qed.

#[export] Instance progress_course `{ErrnoTable} : Course progress.
Proof.
  split.
  - split; unfold progress.
    + intros s. exists []. rewrite app_nil_r. cbn. split; [done | lia].
    + intros b s s1 s2 (l1 & E1 & H1) (l2 & E2 & H2). exists (l1 ++ l2). rewrite E2, E1, app_assoc, length_app. split; [done | lia].
    + done.
  - intros s s' (E1 & E2 & E3 & _). exists []. unfold remaining. rewrite E1, E2, E3, app_nil_r. cbn. split; [done | lia].
  - intros x s. exists []. rewrite history_table_step, app_nil_r. split; [done |].
    unfold table_step, remaining. destruct (act _ _); cbn; lia.
  - intros b s r s' E. destruct (talk_remaining b s r s' E) as (E1 & E2 & _). exists []. rewrite E1, app_nil_r. cbn. split; [done | lia].
  - intros s r s'. unfold read_command. destruct (in_parcel s) as [| c l] eqn:Ei; intros [= <- <-].
    + exists []. rewrite app_nil_r. cbn. split; [done | lia].
    + exists [c]. unfold remaining. rewrite Ei. cbn. split; [done | lia].
Qed.

#[export] Instance tables_course `{ErrnoTable} : Course tables.
Proof.
  split.
  - split; unfold tables; [done | | done]. intros b s s1 s2 H1 H2 Hr. by apply H2, H1.
  - intros s s' (_ & _ & _ & E). unfold tables. by rewrite E.
  - intros x s Hr. unfold table_step. destruct (act x (natives s)) as [t |] eqn:E; [| done]. by apply (table_act x (natives s)).
  - intros b s r s' E. destruct (talk_frame b s r s' E) as (i & o & l & x & ->). by intros Hr.
  - intros s r s'. unfold read_command. by destruct (in_parcel s); intros [= <- <-] Hr.
Qed.

(** ** Fuel *)

(** With less than [n] to read the computation does not run out of fuel. *)
Definition fits {A} (n : nat) (m : T A) : Prop :=
  forall s s', (remaining s < n)%nat -> m s <> (Err OutOfFuel, s').

Section Fits.
Context `{ErrnoTable} (n : nat).

Lemma fits_bind {A B} (m : T A) (k : A -> T B) :
  moves progress m -> fits n m -> (forall a, fits n (k a)) -> fits n (bind m k).
Proof.
  intros Hp Hm Hk s s' Hs. unfold bind. destruct (m s) as [[a | e |] s1] eqn:E; [| | done].
  - apply (Hk a). destruct (Hp _ _ _ E) as (l & _ & Hl). lia.
  - intros [= -> ->]. by apply (Hm s s').
Qed.

Lemma fits_attempt {A B} (m : T A) (k : outcome StatusCode A -> T B) :
  moves progress m -> fits n m -> (forall r, fits n (k r)) -> fits n (attempt m k).
Proof.
  intros Hp Hm Hk s s' Hs. unfold attempt. destruct (m s) as [[a | [e | |] |] s1] eqn:E; try done;
    [| | by destruct (Hm s s1 Hs) |]; apply Hk; destruct (Hp _ _ _ E) as (l & _ & Hl); lia.
Qed.

Lemma fits_ret {A} (a : A) : fits n (ret a).
Proof. by intros s s'. Qed.
Lemma fits_fail {A} e : fits n (fail e : T A).
Proof. by intros s s'. Qed.
Lemma fits_panic {A} : fits n (panic : T A).
Proof. by intros s s'. Qed.
Lemma fits_get : fits n get.
Proof. by intros s s'. Qed.
Lemma fits_put s0 : fits n (put s0).
Proof. by intros s s'. Qed.
Lemma fits_modify f : fits n (modify f).
Proof. by intros s s'. Qed.
Lemma fits_resume {A} (r : outcome StatusCode A) : fits n (resume r).
Proof. by destruct r. Qed.
Lemma fits_talk b : fits n (talk_with_driver b).
Proof.
  intros s s' _. unfold talk_with_driver. cbv zeta. destruct (negb _ && negb _); [done |].
  destruct (next_ioctl _) as [[[w rs | | e] l] |]; try done. destruct (negb _); [done |]. by destruct w.
Qed.
Lemma fits_read : fits n read_command.
Proof. intros s s' _. unfold read_command. by destruct (in_parcel s). Qed.
Lemma fits_ref id : fits n (ref_native id).
Proof. by intros s s'. Qed.
End Fits.

Ltac fit :=
  repeat first
    [ assumption
    | match goal with
      | |- fits _ (bind get _) => apply fits_bind; [apply moves_get, _ | apply fits_get | intros ?]
      | |- fits _ (bind _ _) => apply fits_bind; [| | intros ?]
      | |- fits _ (attempt _ _) => apply fits_attempt; [| | intros ?]
      | |- fits _ (ret _) => apply fits_ret
      | |- fits _ (fail _) => apply fits_fail
      | |- fits _ panic => apply fits_panic
      | |- fits _ (put _) => apply fits_put
      | |- fits _ (modify _) => apply fits_modify
      | |- fits _ (enqueue _) => apply fits_modify
      | |- fits _ (resume _) => apply fits_resume
      | |- fits _ (talk_with_driver _) => apply fits_talk
      | |- fits _ read_command => apply fits_read
      | |- fits _ (ref_native _) => apply fits_ref
      | |- fits _ (if ?b then _ else _) => destruct b
      | |- fits _ (match ?x with _ => _ end) => destruct x
      | |- moves progress (talk_with_driver _) => apply course_talk
      | |- moves progress read_command => apply course_read
      | |- moves progress (enqueue _) => by apply (moves_frame progress)
      | |- moves progress (ref_native _) => apply (course_ref_native progress)
      | |- moves progress (drop_parcel _) => apply (course_drop progress)
      | |- moves progress (queue_and_flush _) => apply (course_queue progress)
      | |- moves progress (ret _) => apply moves_ret, _
      | |- moves progress (resume _) => apply moves_resume, _
      end ].

Section FitsRuns.
Context `{ErrnoTable} (n : nat) (own_uid own_pid : Z) (debug_assertions thread_pool_started : bool).
Context (service : nat -> Native) (context_manager : option (option Handler)).
Context (obituary release_pin : Z -> Prog).

Lemma fits_queue c : fits n (queue_and_flush c).
Proof.
  assert (Hc : moves progress flush_commands)
    by (apply moves_flush_commands; [apply _ | apply course_talk | intros b s; by apply course_frame]).
  assert (Hf : moves progress flush_if_needed)
    by (apply moves_flush_if_needed; [apply _ | apply course_talk | intros b s; by apply course_frame]).
  unfold queue_and_flush. fit. unfold flush_if_needed. fit; try (by apply (moves_frame progress)).
  unfold flush_commands. fit.
Qed.

Lemma fits_drop b : fits n (drop_parcel b).
Proof. unfold drop_parcel. fit; first [apply fits_queue | apply (course_queue progress)]. Qed.

Lemma fits_drop_reply b : fits n (drop_reply b).
Proof. unfold drop_reply. fit; [by apply (moves_frame progress) | apply fits_drop]. Qed.

Lemma fits_handle_op op : fits n (handle_op op).
Proof. destruct op; first [apply fits_queue | apply fits_modify]. Qed.

Section FitsWait.
Context (wait : UntilResponse -> T (option Reply)).
Context (course_wait : forall u, moves progress (wait u)) (fits_wait : forall u, fits n (wait u)).

Lemma fits_transact h c f d : fits n (transact wait h c f d).
Proof using course_wait fits_wait. unfold transact. fit; first [apply fits_wait | apply course_wait]. Qed.

Lemma fits_prog p : fits n (run_prog own_uid own_pid wait p).
Proof using course_wait fits_wait.
  induction p as [err reply | | h c f d k IH | b k IH | k IH | k IH | token k IH | pol u k IH | op k IH | peer cb IHc k IH];
    cbn [run_prog].
  - fit.
  - fit.
  - fit; [by apply (course_transact progress) | apply fits_transact | apply IH ..].
  - fit; [apply (course_drop_reply progress) | apply fits_drop_reply].
  - fit. apply IH.
  - intros s s' Hs. unfold bind, get. cbn beta iota.
    assert (Hf : remaining (clear_calling_identity own_uid own_pid s).2 = remaining s)
      by (unfold clear_calling_identity; by destruct (transaction s)).
    destruct (clear_calling_identity own_uid own_pid s) as [token s1]. apply (IH token). cbn in *. lia.
  - fit. apply (moves_frame progress). intros s. unfold restore_calling_identity. by destruct (transaction s).
  - fit. apply (moves_frame progress), frame_header.
  - fit; [apply (course_handle_op progress) | apply fits_handle_op | apply IH ..].
  - fit; try (by apply (moves_frame progress)). by apply (course_prog progress).
Qed.

Lemma fits_run_transaction tr secctx : fits n (run_transaction own_uid own_pid service context_manager wait tr secctx).
Proof using course_wait fits_wait.
  assert (Hc : forall t, moves progress (dispatch_to own_uid own_pid wait t tr))
    by (intros t; unfold dispatch_to, dispatch_transact_caught; go; by apply (course_prog progress)).
  assert (Hto : forall t, fits n (dispatch_to own_uid own_pid wait t tr))
    by (intros t; unfold dispatch_to, dispatch_transact_caught; fit; first [by apply (course_prog progress) | apply fits_prog]).
  unfold run_transaction. fit.
  - apply (moves_frame progress). intros s. unfold clear_propagate_work_source, clear_calling_work_source,
      set_calling_work_source_uid, set_calling_work_source_uid_without_propagation. by destruct (transaction s).
  - unfold dispatch_target. go; apply Hc.
  - unfold dispatch_target. fit; first [apply Hc | apply Hto].
  - unfold reply_to. go; [by apply (moves_frame progress) | apply course_wait].
  - unfold reply_to. fit; [apply course_wait | apply fits_wait].
  - by apply (moves_frame progress).
  - unfold after_reply. fit; first [apply fits_drop | by apply (moves_frame progress)].
  - apply fits_drop.
  - apply fits_drop.
Qed.

Lemma fits_execute cmd : fits n (execute_command own_uid own_pid debug_assertions thread_pool_started service
  context_manager obituary release_pin wait cmd).
Proof using course_wait fits_wait.
  assert (Hu : forall p, moves progress (run_unit own_uid own_pid wait p))
    by (intros p; unfold run_unit; go; by apply (course_prog progress)).
  assert (Hf : forall p, fits n (run_unit own_uid own_pid wait p))
    by (intros p; unfold run_unit; fit; [by apply (course_prog progress) | apply fits_prog]).
  destruct cmd; cbn [execute_command]; try apply fits_run_transaction;
    unfold take_kernel_reference, drive_dead_binder_handshake; fit; first [apply Hu | apply Hf].
Qed.

Lemma fits_respond u cmd : fits n (respond own_uid own_pid debug_assertions thread_pool_started service
  context_manager obituary release_pin wait u cmd).
Proof using course_wait fits_wait.
  destruct cmd; cbn [respond]; unfold take_reply; fit;
    first [apply fits_execute | by apply (course_execute progress) | apply fits_wait | apply fits_queue | apply (course_queue progress)
          | by apply (moves_frame progress)].
Qed.
End FitsWait.
End FitsRuns.

(** * The ledger *)

Fixpoint total {A} (w : A -> Z) (l : list A) : Z :=
  match l with [] => 0 | x :: l => w x + total w l end.

Lemma weights_app {A} (w : A -> Z) l1 l2 : total w (l1 ++ l2) = total w l1 + total w l2.
Proof. induction l1 as [| x l1 IH]; cbn; lia. Qed.

Lemma total_tally {A} (f : A -> bool) l : total (fun x => if f x then 1 else 0) l = tally f l.
Proof. induction l as [| x l IH]; cbn [total tally]; [done |]. rewrite IH. by destruct (f x). Qed.

Lemma weights_remove w b l : existsb (Z.eqb b) l = true -> total w (remove_one b l) = total w l - w b.
Proof.
  induction l as [| x l IH]; cbn; [done |]. destruct (Z.eqb_spec x b) as [-> | Hne].
  - lia.
  - rewrite (proj2 (Z.eqb_neq b x)) by done. cbn. intros E. rewrite IH by done. lia.
Qed.

Section Weights.
(** What a reply weighs, a buffer, a reference the kernel gives up, and one that was given back. *)
Context (rw : Z) (fw dw ew : Z -> Z).

Definition command_weight (c : Command) : Z :=
  match c with BC_REPLY _ _ _ _ => rw | BC_FREE_BUFFER b => fw b | _ => 0 end.

Definition return_weight (r : Return) : Z :=
  match r with
  | BR_TRANSACTION tr | BR_TRANSACTION_SEC_CTX tr _ => (if negb (is_one_way (flags tr)) then rw else 0) + fw (buffer tr)
  | BR_REPLY tr => fw (buffer tr)
  | BR_RELEASE id _ | BR_DECREFS id _ => dw id
  | _ => 0
  end.

(** What the thread has given against what the driver has asked for. *)
Definition ledger (s : ThreadState) : Z :=
  let h := history s in
  total command_weight (queued h) + total fw (held_buffers h) + total ew (derefed h) +
  total dw (pending_strong_derefs (BINDER_DEREFS s)) + total dw (pending_weak_derefs (BINDER_DEREFS s)) -
  total return_weight (received h).

Definition pays (w : Z) : Travel := fun b s s' => b = true -> ledger s' = ledger s + w.

#[export] Instance pays_path : Path (pays 0).
Proof.
  split; unfold pays; [lia | | done]. intros b s s1 s2 H1 H2 Hb. specialize (H1 eq_refl). specialize (H2 Hb). lia.
Qed.

Lemma pays_link w1 w2 w : w1 + w2 = w -> link (pays w1) (pays w2) (pays w).
Proof. intros <- b s s1 s2 H1 H2 Hb. specialize (H1 eq_refl). specialize (H2 Hb). lia. Qed.

Lemma pays_then {A B} w (m : T A) (k : A -> T B) :
  moves (pays w) m -> (forall a, moves (pays 0) (k a)) -> moves (pays w) (bind m k).
Proof. apply moves_bind_link; [apply pays_link; lia | done]. Qed.

Lemma pays_attempt {A B} w1 w2 w (m : T A) (k : outcome StatusCode A -> T B) :
  w1 + w2 = w -> moves (pays w1) m -> (forall r, moves (pays w2) (k r)) -> moves (pays w) (attempt m k).
Proof. intros Hw. apply moves_attempt_link; [by apply pays_link | by intros s s' ? [=]]. Qed.

Lemma pays_state {A} w (m : T A) (g : ThreadState -> ThreadState) :
  (forall s, ledger (g s) = ledger s) -> moves (pays w) m -> moves (pays w) (let* _ := modify g in m).
Proof. intros Hg Hm s r s' E Hb. rewrite <- (Hg s). by apply (Hm (g s) r s' E Hb). Qed.

Context `{ErrnoTable}.

Lemma pays_talk b : moves (pays 0) (talk_with_driver b).
Proof. intros s r s' E _. destruct (talk_frame b s r s' E) as (i & o & l & x & ->). unfold ledger. cbn. lia. Qed.

Lemma pays_flush : moves (pays 0) flush_if_needed.
Proof. apply moves_flush_if_needed; [apply _ | apply pays_talk |]. intros b s _. unfold ledger. cbn. lia. Qed.

Lemma pays_enqueue c : moves (pays (command_weight c)) (enqueue c).
Proof. intros s r s' [= <- <-] _. unfold ledger. cbn. rewrite weights_app. cbn. lia. Qed.

Lemma pays_queue c : moves (pays (command_weight c)) (queue_and_flush c).
Proof. apply pays_then; [apply pays_enqueue |]. intros _. go. apply pays_flush. Qed.

Lemma pays_drop b : moves (pays (fw b)) (drop_parcel b).
Proof. apply (pays_attempt (fw b) 0); [lia | apply (pays_queue (BC_FREE_BUFFER b)) |]. intros r. go. Qed.

Lemma pays_drop_reply b : moves (pays 0) (drop_reply b).
Proof.
  intros s r s'. unfold drop_reply. unfold bind at 1, get. cbn beta iota.
  destruct (existsb _ _) eqn:Ee; [| by apply moves_ret, pays_path].
  unfold bind, modify. intros E Hb. rewrite (pays_drop b _ _ _ E Hb). unfold ledger. cbn.
  rewrite weights_remove by done. lia.
Qed.

Lemma pays_handle_op op : moves (pays 0) (handle_op op).
Proof. destruct op; first [apply (pays_queue (BC_ACQUIRE _)) | apply (pays_queue (BC_RELEASE _)) | apply (pays_queue (BC_INCREFS _))
  | apply (pays_queue (BC_DECREFS _)) | apply (pays_enqueue (BC_REQUEST_DEATH_NOTIFICATION _ _)) | apply (pays_enqueue (BC_CLEAR_DEATH_NOTIFICATION _ _))]. Qed.

Lemma ledger_table t s : ledger (set_table t s) = ledger s.
Proof. done. Qed.

Lemma pays_ref_native id : moves (pays 0) (ref_native id).
Proof.
  intros s r s' [= <- <-] _. unfold table_step. destruct (act _ _); [rewrite ledger_table |]; lia.
Qed.

Section PaysWait.
Context (own_uid own_pid : Z) (wait : UntilResponse -> T (option Reply)) (pays_wait : forall u, moves (pays 0) (wait u)).

Lemma pays_transact h c f d : moves (pays 0) (transact wait h c f d).
Proof using pays_wait. unfold transact. go; first [apply (pays_enqueue (BC_TRANSACTION _ _ _ _)) | apply pays_wait]. Qed.

Lemma ledger_clear s : ledger (clear_calling_identity own_uid own_pid s).2 = ledger s.
Proof. unfold clear_calling_identity. by destruct (transaction s). Qed.

Lemma ledger_header policy uid s : ledger (take_header policy uid s) = ledger s.
Proof. unfold take_header, set_calling_work_source_uid_without_propagation. by destruct (transaction _). Qed.

Lemma pays_prog p : moves (pays 0) (run_prog own_uid own_pid wait p).
Proof using pays_wait.
  induction p as [err reply | | h c f d k IH | b k IH | k IH | k IH | token k IH | pol u k IH | op k IH | peer cb IHc k IH];
    cbn [run_prog]; try (go; fail).
  - go; first [apply IH | apply pays_transact].
  - go. apply pays_drop_reply.
  - go. apply IH.
  - intros s r s'. unfold bind at 1, get. cbn beta iota. pose proof (ledger_clear s) as Hc.
    destruct (clear_calling_identity own_uid own_pid s) as [token s1]. unfold bind, put. intros E Hb.
    rewrite <- Hc. by apply (IH token _ _ _ E Hb).
  - apply pays_state; [| done]. intros s. unfold restore_calling_identity. by destruct (transaction s).
  - apply pays_state; [apply ledger_header | done].
  - go; first [apply IH | apply pays_handle_op].
  - apply moves_bind; [apply _ | apply moves_get, _ |]. intros s0. apply pays_state; [done |].
    apply moves_attempt; [apply _ | done |]. intros _. by apply pays_state.
Qed.

Lemma pays_reply tr err reply :
  moves (pays (if negb (is_one_way (flags tr)) then rw else 0)) (reply_to wait tr err reply).
Proof using pays_wait.
  unfold reply_to. destruct (negb _); [| apply moves_ret, _].
  apply pays_then; [apply (pays_enqueue (BC_REPLY _ _ _ _)) |]. intros _. go. apply pays_wait.
Qed.

Lemma pays_after tr q : moves (pays (fw (buffer tr))) (after_reply tr q).
Proof.
  unfold after_reply. destruct q as [[] | e |].
  - apply pays_then; [apply pays_drop | intros _; go].
  - apply pays_then; [apply pays_drop | intros _; go].
  - apply pays_state; [done |]. apply pays_then; [apply pays_drop | intros _; go].
Qed.
End PaysWait.
End Weights.

Section Threads.
Context `{ErrnoTable} (own_uid own_pid : Z) (debug_assertions thread_pool_started : bool).
Context (service : nat -> Native) (context_manager : option (option Handler)).
Context (obituary release_pin : Z -> Prog).
(** Giving back the reference of a dispatch succeeds, as it does for every [Binder<T>]. *)
Context (decrease_ok : forall a, decrease (service a) = Ok tt).

Local Abbreviation dispatch_target := (ThreadState.dispatch_target own_uid own_pid service context_manager).
Local Abbreviation run_transaction := (ThreadState.run_transaction own_uid own_pid service context_manager).
Local Abbreviation execute_command :=
  (ThreadState.execute_command own_uid own_pid debug_assertions thread_pool_started service context_manager obituary release_pin).
Local Abbreviation respond :=
  (ThreadState.respond own_uid own_pid debug_assertions thread_pool_started service context_manager obituary release_pin).
Local Abbreviation wait_turn :=
  (ThreadState.wait_turn own_uid own_pid debug_assertions thread_pool_started service context_manager obituary release_pin).
Local Abbreviation wait_for_response :=
  (ThreadState.wait_for_response own_uid own_pid debug_assertions thread_pool_started service context_manager obituary release_pin).

Lemma dispatch_returns wait tr : returns (dispatch_target wait tr).
Proof using decrease_ok.
  assert (Hto : forall t, returns (dispatch_to own_uid own_pid wait t tr)).
  { intros [h |]; [| apply returns_ret]. apply returns_attempt. intros [[? ?] | e |]; apply returns_ret. }
  unfold ThreadState.dispatch_target. destruct (negb _).
  - apply returns_bind; [intros s r s' [= <- <-]; by eexists |]. intros s.
    destruct (lookup_native _ _) as [a |]; [| apply returns_ret].
    destruct (attempt_increase _); [| apply returns_ret]. apply returns_bind; [apply Hto |]. intros x.
    rewrite decrease_ok. apply returns_bind; [apply returns_ret | intros _; apply returns_ret].
  - destruct context_manager; [apply Hto | apply returns_ret].
Qed.

(** ** The caller through a command *)

Section CallerWaits.
Context (wait : UntilResponse -> T (option Reply)) (caller_wait : forall u, moves same_caller (wait u)).

Lemma caller_after tr q : moves same_caller (after_reply tr q).
Proof. unfold after_reply. go; first [apply caller_drop | by apply moves_modify]. Qed.

Lemma caller_run_transaction tr secctx : moves same_caller (run_transaction wait tr secctx).
Proof using caller_wait decrease_ok.
  intros s r s'. unfold ThreadState.run_transaction. unfold bind at 1, get. cbn beta iota.
  unfold bind at 1, modify at 1. cbn beta iota. set (s0 := set_transaction _ _).
  assert (E0 : RPC_CALLING s0 = RPC_CALLING s).
  { unfold s0, clear_propagate_work_source, clear_calling_work_source, set_calling_work_source_uid,
      set_calling_work_source_uid_without_propagation. by destruct (transaction s). }
  unfold attempt at 1. destruct (dispatch_target wait tr s0) as [d s1] eqn:Ed.
  pose proof (peer_dispatch own_uid own_pid service context_manager wait caller_wait tr _ _ _ Ed) as Hp.
  destruct (settled d) eqn:Hs; [| destruct d as [| [| |] |]; try done; by intros [= <- <-]].
  destruct (dispatch_returns wait tr _ _ _ Ed Hs) as [[err reply] ->]. specialize (Hp eq_refl). cbn beta iota.
  unfold attempt. destruct (reply_to wait tr err reply s1) as [q s2] eqn:Eq.
  pose proof (caller_reply wait caller_wait tr err reply _ _ _ Eq) as Hq.
  destruct q as [[] | [e | |] |]; try (by intros [= <- <-] [=]); unfold bind at 1, modify at 1; intros E Hb;
    (destruct (Hq eq_refl) as [_ Hr]; destruct (caller_after tr _ _ _ _ E Hb) as [-> ->]; split; [done | cbn; congruence]).
Qed.

Context (steady_obituary : forall h, steady (obituary h)) (steady_release : forall h, steady (release_pin h)).

Lemma caller_unit p : steady p -> moves same_caller (run_unit own_uid own_pid wait p).
Proof using caller_wait. intros Hp. unfold run_unit. go. by apply caller_prog. Qed.

Lemma caller_execute cmd : moves same_caller (execute_command wait cmd).
Proof using All.
  destruct cmd; cbn [ThreadState.execute_command]; try (go; fail); try apply caller_run_transaction;
    unfold take_kernel_reference, drive_dead_binder_handshake;
    go; first [apply caller_ref_native | apply caller_enqueue | by apply caller_unit | apply moves_modify; intros s].
  - done.
  - done.
  - by destruct thread_pool_started.
Qed.

Lemma caller_respond u cmd : moves same_caller (respond wait u cmd).
Proof using All.
  destruct cmd; cbn [ThreadState.respond]; unfold take_reply;
    go; first [apply caller_execute | apply caller_wait | apply caller_queue | by apply moves_modify].
Qed.

Lemma caller_turn u : moves same_caller (wait_turn wait u).
Proof using All.
  unfold ThreadState.wait_turn. go; first [apply caller_talk | apply caller_read | apply caller_wait | apply caller_respond].
Qed.
End CallerWaits.

(** ** The ledger through a command *)

Section PaysCommands.
Context (rw : Z) (fw dw ew : Z -> Z) (wait : UntilResponse -> T (option Reply)).
Local Abbreviation pays := (ThreadSpec.pays rw fw dw ew).
Local Abbreviation return_weight := (ThreadSpec.return_weight rw fw dw).
Context (pays_wait : forall u, moves (pays 0) (wait u)).

Lemma pays_dispatch tr : moves (pays 0) (dispatch_target wait tr).
Proof using pays_wait.
  assert (Hto : forall t, moves (pays 0) (dispatch_to own_uid own_pid wait t tr))
    by (intros t; unfold dispatch_to, dispatch_transact_caught; go; by apply pays_prog).
  unfold ThreadState.dispatch_target. go; apply Hto.
Qed.

Lemma pays_run_transaction tr secctx : moves (pays (return_weight (BR_TRANSACTION tr))) (run_transaction wait tr secctx).
Proof using pays_wait decrease_ok.
  unfold ThreadState.run_transaction. intros s r s'. unfold bind at 1, get. cbn beta iota.
  unfold bind at 1, modify at 1. cbn beta iota. set (s0 := set_transaction _ _).
  assert (E0 : ledger rw fw dw ew s0 = ledger rw fw dw ew s).
  { unfold s0, clear_propagate_work_source, clear_calling_work_source, set_calling_work_source_uid,
      set_calling_work_source_uid_without_propagation. by destruct (transaction s). }
  unfold attempt at 1. destruct (dispatch_target wait tr s0) as [d s1] eqn:Ed.
  destruct (settled d) eqn:Hs; [| destruct d as [| [| |] |]; try done; by intros [= <- <-]].
  pose proof (pays_dispatch tr _ _ _ Ed Hs) as Hp.
  destruct (dispatch_returns wait tr _ _ _ Ed Hs) as [[err reply] ->]. cbn beta iota. intros E Hb.
  rewrite <- E0. replace (ledger rw fw dw ew s0) with (ledger rw fw dw ew s1) by lia. revert E Hb. apply pays_attempt with
    (if negb (is_one_way (flags tr)) then rw else 0) (fw (buffer tr)); [done | by apply pays_reply |].
  intros q. apply pays_state; [done | apply pays_after].
Qed.

Lemma pays_unit p : moves (pays 0) (run_unit own_uid own_pid wait p).
Proof using pays_wait. unfold run_unit. go. by apply pays_prog. Qed.

Lemma pays_push_strong id : moves (pays (dw id)) (modify (push_strong id) : T unit).
Proof. intros s r s' [= <- <-] _. unfold ledger. cbn. rewrite weights_app. cbn. lia. Qed.
Lemma pays_push_weak id : moves (pays (dw id)) (modify (push_weak id) : T unit).
Proof. intros s r s' [= <- <-] _. unfold ledger. cbn. rewrite weights_app. cbn. lia. Qed.

Definition is_reply_return (r : Return) : bool := match r with BR_REPLY _ => true | _ => false end.

Lemma pays_execute cmd : is_reply_return cmd = false -> moves (pays (return_weight cmd)) (execute_command wait cmd).
Proof using pays_wait decrease_ok.
  destruct cmd; intros Hc; try done; cbn [ThreadState.execute_command ThreadSpec.return_weight];
    try (go; fail); try apply pays_run_transaction; try apply pays_push_strong; try apply pays_push_weak;
    unfold take_kernel_reference, drive_dead_binder_handshake;
    go; first [apply pays_ref_native | apply (pays_enqueue _ _ _ _ (BC_INCREFS_DONE _ _))
              | apply (pays_enqueue _ _ _ _ (BC_ACQUIRE_DONE _ _)) | apply (pays_enqueue _ _ _ _ (BC_ACQUIRE_RESULT _))
              | apply (pays_enqueue _ _ _ _ (BC_DEAD_BINDER_DONE _)) | by apply pays_unit | idtac].
  intros s r s' [= <- <-] _. unfold ledger. destruct thread_pool_started; cbn; lia.
Qed.

Lemma pays_take_reply tr : moves (pays (fw (buffer tr))) (take_reply tr).
Proof.
  unfold take_reply. destruct (_ =? 0).
  - apply pays_then; [| intros _; go]. intros s r s' [= <- <-] _. unfold ledger. cbn. lia.
  - apply pays_then; [apply (pays_queue _ _ _ _ (BC_FREE_BUFFER _)) |]. intros _. go.
Qed.

Lemma pays_respond u cmd : moves (pays (return_weight cmd)) (respond wait u cmd).
Proof using pays_wait decrease_ok.
  assert (Hx : is_reply_return cmd = false -> moves (pays (return_weight cmd)) (let* _ := execute_command wait cmd in wait u))
    by (intros Hc; apply pays_then; [by apply pays_execute | intros _; apply pays_wait]).
  destruct cmd; cbn [ThreadState.respond]; try (by apply Hx); clear Hx; cbn [ThreadSpec.return_weight];
    try (go; apply pays_wait).
  destruct u; [apply pays_take_reply | ..];
    (apply pays_then; [apply (pays_queue _ _ _ _ (BC_FREE_BUFFER _)) | intros _; apply pays_wait]).
Qed.

Lemma ledger_read r s : in_parcel s = r :: tail (in_parcel s) ->
  ledger rw fw dw ew (read_command s).2 = ledger rw fw dw ew s - return_weight r.
Proof. intros E. unfold read_command. rewrite E. unfold ledger. cbn. rewrite weights_app. cbn. lia. Qed.

Lemma pays_turn u : moves (pays 0) (wait_turn wait u).
Proof using pays_wait decrease_ok.
  unfold ThreadState.wait_turn. apply moves_bind; [apply _ | apply pays_talk |]. intros _ s r s'.
  unfold bind, read_command. destruct (in_parcel s) as [| c l] eqn:Ei; [apply pays_wait |].
  intros E Hb. rewrite (pays_respond u c _ _ _ E Hb).
  pose proof (ledger_read c s ltac:(by rewrite Ei)) as Hl. unfold read_command in Hl. rewrite Ei in Hl. cbn [snd] in Hl. lia.
Qed.
End PaysCommands.

Lemma pays_wait_for_response rw fw dw ew n u : moves (pays rw fw dw ew 0) (wait_for_response n u).
Proof using decrease_ok.
  revert u. induction n as [| n IH]; intros u; cbn [ThreadState.wait_for_response]; [go | by apply pays_turn].
Qed.

Section Callers.
Context (steady_obituary : forall h, steady (obituary h)) (steady_release : forall h, steady (release_pin h)).
Local Abbreviation run_prog n := (ThreadState.run_prog own_uid own_pid (wait_for_response n)).

Lemma caller_wait_for_response n u : moves same_caller (wait_for_response n u).
Proof using decrease_ok steady_obituary steady_release.
  revert u. induction n as [| n IH]; intros u; cbn [ThreadState.wait_for_response]; [go | by apply caller_turn].
Qed.

(** The program with its questions for the caller answered in advance: with [c], and in a callback over
    RPC with its peer. *)
Fixpoint answer (c : CallingContext) (p : Prog) : Prog :=
  match p with
  | Finish err reply => Finish err reply
  | Crash => Crash
  | Transact h code f d k => Transact h code f d (fun r => answer c (k r))
  | DropReply b k => DropReply b (answer c k)
  | AskContext k => answer c (k c)
  | ClearIdentity k => ClearIdentity (fun t => answer c (k t))
  | RestoreIdentity t k => RestoreIdentity t (answer c k)
  | TakeHeader policy uid k => TakeHeader policy uid (answer c k)
  | CountHandle op k => CountHandle op (fun r => answer c (k r))
  | RpcDispatch peer callback k =>
      RpcDispatch peer (answer (mkContext (peer_uid_pid peer).2 (peer_uid_pid peer).1 None) callback) (answer c k)
  end.

Local Abbreviation context := (calling_context own_uid own_pid).

Lemma context_same s s' : same_caller true s s' -> context s' = context s.
Proof.
  intros [Ht Hr]; [done |]. unfold calling_context, rpc_calling. rewrite Hr. destruct (RPC_CALLING s); [done |].
  cbn. by destruct (transaction s), (transaction s'); try done; cbn in Ht; injection Ht as -> -> -> _.
Qed.

Lemma attempt_ext {A B} R (m : T A) (k k' : outcome StatusCode A -> T B) s :
  moves R m -> (forall r s', R true s s' -> k r s' = k' r s') -> attempt m k s = attempt m k' s.
Proof.
  intros Hm Hk. unfold attempt. specialize (Hm s). destruct (m s) as [[a | [e | |] |] s']; try done;
    apply Hk; by specialize (Hm _ _ eq_refl).
Qed.

Lemma bind_ext {A B} R (m : T A) (k k' : A -> T B) s :
  moves R m -> (forall a s', R true s s' -> k a s' = k' a s') -> bind m k s = bind m k' s.
Proof.
  intros Hm Hk. unfold bind. specialize (Hm s). destruct (m s) as [[a | [e | |] |] s']; try done;
    apply Hk; by specialize (Hm _ _ eq_refl).
Qed.

Lemma run_answered n p s : steady p -> run_prog n p s = run_prog n (answer (context s) p) s.
Proof using decrease_ok steady_obituary steady_release.
  pose proof (caller_wait_for_response n) as Hw. revert s.
  induction p as [err reply | | h c f d k IH | b k IH | k IH | k IH | token k IH | pol u k IH | op k IH | peer cb IHc k IH];
    intros s Hs; cbn [answer ThreadState.run_prog]; cbn [steady] in Hs; try done.
  - apply (attempt_ext same_caller); [by apply caller_transact |].
    intros [x | e |] s' Hs'; [| | done]; rewrite <- (context_same _ _ Hs'); apply IH, Hs.
  - apply (bind_ext same_caller); [apply caller_drop_reply |]. intros _ s' Hs'. rewrite <- (context_same _ _ Hs'). by apply IH.
  - by apply IH.
  - apply (bind_ext same_caller); [by apply moves_modify, caller_header |].
    intros _ s' Hs'. rewrite <- (context_same _ _ Hs'). by apply IH.
  - apply (attempt_ext same_caller); [apply caller_handle_op |].
    intros [x | e |] s' Hs'; [| | done]; rewrite <- (context_same _ _ Hs'); apply IH, Hs.
  - destruct Hs as [Hc Hk]. unfold bind, get, modify. cbn beta iota.
    unfold attempt. rewrite (IHc _ Hc).
    assert (Ec : context (set_rpc_calling (Some peer) s) = mkContext (peer_uid_pid peer).2 (peer_uid_pid peer).1 None)
      by (unfold calling_context, rpc_calling; cbn; by destruct (peer_uid_pid peer)).
    rewrite Ec. destruct (run_prog n _ (set_rpc_calling (Some peer) s)) as [q s1] eqn:Eq.
    rewrite <- Ec, <- (IHc _ Hc) in Eq. pose proof (caller_prog own_uid own_pid _ Hw cb Hc _ _ _ Eq) as Hq.
    assert (Hs1 : settled q = true -> context (set_rpc_calling (RPC_CALLING s) s1) = context s).
    { intros Hb. apply context_same. intros _. by split; [apply (Hq Hb) |]. }
    destruct q as [a | [e | |] |]; try done; rewrite <- Hs1 by done; by apply IH.
Qed.

(** The handler a transaction is for. *)
Definition target_handler (tr : binder_transaction_data) (s : ThreadState) : option Handler :=
  if negb (target tr =? 0)
  then match lookup_native (target tr) (natives s) with Some a => as_transactable (service a) | None => None end
  else match context_manager with Some t => t | None => None end.

Definition answering (c : CallingContext) (h : Handler) : Handler := fun code body => answer c (h code body).
Definition answering_native (c : CallingContext) (b : Native) : Native :=
  mkService (attempt_increase b) (option_map (answering c) (as_transactable b)) (decrease b).

(** The caller of a transaction that is dispatched: its sender, as the driver reports it, or the peer of the RPC call
    whose handler the thread is running. *)
Definition dispatch_context (tr : binder_transaction_data) (sid : option string) (s : ThreadState) : CallingContext :=
  match rpc_calling s with
  | Some (uid, pid) => mkContext pid uid None
  | None => mkContext (sender_pid tr) (sender_euid tr) sid
  end.

Lemma dispatch_to_answered n t tr s :
  (forall h, t = Some h -> steady (h (code tr) (mkBody (data tr) (offsets tr)))) ->
  dispatch_to own_uid own_pid (wait_for_response n) t tr s =
  dispatch_to own_uid own_pid (wait_for_response n) (option_map (answering (context s)) t) tr s.
Proof using decrease_ok steady_obituary steady_release.
  intros Ht. destruct t as [h |]; [| done]. cbn. unfold dispatch_transact_caught, attempt, answering.
  by rewrite (run_answered n _ s (Ht h eq_refl)).
Qed.

Lemma dispatch_answered n tr s :
  (forall h, target_handler tr s = Some h -> steady (h (code tr) (mkBody (data tr) (offsets tr)))) ->
  dispatch_target (wait_for_response n) tr s =
  ThreadState.dispatch_target own_uid own_pid (fun a => answering_native (context s) (service a))
    (option_map (option_map (answering (context s))) context_manager) (wait_for_response n) tr s.
Proof using decrease_ok steady_obituary steady_release.
  unfold ThreadState.dispatch_target, target_handler. intros Hh. destruct (negb _).
  - do 2 (erewrite bind_ok by reflexivity). destruct (lookup_native _ _) as [a |]; [| done].
    cbn [attempt_increase answering_native as_transactable decrease].
    destruct (attempt_increase _); [| done]. unfold bind at 1. rewrite (dispatch_to_answered n _ tr s Hh). done.
  - pose proof (dispatch_to_answered n) as Hd. revert Hh.
    generalize (ThreadState.wait_for_response own_uid own_pid debug_assertions thread_pool_started service
                  context_manager obituary release_pin n) Hd. clear Hd.
    intros wait Hd Hh. destruct context_manager as [t |]; [by apply Hd | done].
Qed.

(** C4: The handler of a kernel transaction sees one caller from its first to its last instruction. The dispatch of a
    transaction by [run_transaction], from any state of the thread, with whatever is dispatched on it
    while the handler calls out and whatever fails or panics there, is the dispatch to a handler whose every question for
    its caller is answered in advance: by the sender the driver reported when no RPC call is being handled on the
    thread, and by the peer of that RPC call otherwise ([kernel_caller_hidden_by_rpc]). The handler does not
    clear or restore its calling identity itself ([steady]; [identity_scope_restored] has those). *)
Theorem calling_identity_stable n tr sid s :
  (forall h, target_handler tr s = Some h -> steady (h (code tr) (mkBody (data tr) (offsets tr)))) ->
  let c := dispatch_context tr sid s in
  run_transaction (wait_for_response n) tr sid s =
  ThreadState.run_transaction own_uid own_pid (fun a => answering_native c (service a))
    (option_map (option_map (answering c)) context_manager) (wait_for_response n) tr sid s.
Proof using decrease_ok steady_obituary steady_release.
  intros Hh c. unfold ThreadState.run_transaction. do 4 (erewrite bind_ok by reflexivity). set (s0 := set_transaction _ _).
  assert (E0 : context s0 = c /\ natives s0 = natives s).
  { unfold s0, c, dispatch_context, calling_context, rpc_calling, clear_propagate_work_source, clear_calling_work_source,
      set_calling_work_source_uid, set_calling_work_source_uid_without_propagation.
    destruct (transaction s), (RPC_CALLING s) as [q |] eqn:Eq; cbn; by rewrite Eq. }
  destruct E0 as [<- En]. unfold attempt at 1. rewrite dispatch_answered; [reflexivity |].
  unfold target_handler. by rewrite En.
Qed.

(** A handler that clears the calling identity calls out as its own process; after the
    call, whatever it returned and whatever was dispatched meanwhile, restoring the token gives back
    the caller's uid and pid, for pids within 31 bits; the security context does not come back. *)
Theorem identity_scope_restored n s t h c f d :
  transaction s = Some t -> RPC_CALLING s = None -> in_u 32 (calling_uid t) -> - bit30 <= calling_pid t < bit30 ->
  let (token, s1) := clear_calling_identity own_uid own_pid s in
  context s1 = mkContext own_pid own_uid None /\
  forall r s2, transact (wait_for_response n) h c f d s1 = (r, s2) -> settled r = true ->
    let s3 := restore_calling_identity token s2 in
    get_calling_uid s3 = calling_uid t /\ get_calling_pid s3 = calling_pid t /\ get_calling_sid s3 = None /\
    has_explicit_identity <$> transaction s3 = Some (has_explicit_identity t).
Proof using decrease_ok steady_obituary steady_release.
  intros Ht Hr Hu Hp. unfold clear_calling_identity. rewrite Ht. set (s1 := set_transaction _ s). split.
  - unfold calling_context, rpc_calling. cbn. by rewrite Hr.
  - intros r s2 E Hs. destruct (caller_transact _ (caller_wait_for_response n) h c f d _ _ _ E Hs) as [Hi Hc].
    destruct (transaction s2) as [t2 |] eqn:E2; [| done].
    destruct (unpack_pack (has_explicit_identity t) (calling_uid t) (calling_pid t) Hu Hp) as (U1 & U2 & U3).
    unfold restore_calling_identity, get_calling_uid, get_calling_pid, get_calling_sid, rpc_calling. rewrite E2. cbn.
    rewrite Hc. change (RPC_CALLING s1) with (RPC_CALLING s). rewrite Hr. cbn. by rewrite U1, U2, U3.
Qed.
End Callers.

(** ** The loops end *)

(** After a turn to the driver and a read there is less to read. *)
Lemma talk_shorter s s1 : talk_with_driver true s = (Ok tt, s1) ->
  (in_parcel s1 = [] -> (remaining s1 < remaining s)%nat) /\
  (forall c l, in_parcel s1 = c :: l -> (S (length l + sum_list_with input (ioctls s1)) <= remaining s)%nat).
Proof.
  intros E. destruct (talk_remaining true s _ _ E) as (_ & H2 & H3 & H4). split.
  - intros E1. destruct (in_parcel s) eqn:Es; [by apply H3 |]. rewrite (H4 ltac:(done) eq_refl) in E1. done.
  - intros c l E1. unfold remaining in H2 at 1. rewrite E1 in H2. cbn in H2. lia.
Qed.

Lemma fits_wait_for_response n u : fits n (wait_for_response n u).
Proof.
  revert u. induction n as [| n IH]; intros u s s' Hs; [lia |]. cbn [ThreadState.wait_for_response].
  unfold ThreadState.wait_turn, bind. destruct (talk_with_driver true s) as [[[] | e |] s1] eqn:Et; [| | done].
  - destruct (talk_shorter _ _ Et) as [H1 H2]. unfold read_command. destruct (in_parcel s1) as [| c l] eqn:E1.
    + apply IH. specialize (H1 eq_refl). lia.
    + assert (Hf : fits n (respond (wait_for_response n) u c))
        by (apply fits_respond; [intros w; apply (course_wait_for_response progress) | done]).
      apply Hf. unfold remaining. cbn. specialize (H2 c l eq_refl). lia.
  - intros [= -> ->]. by apply (fits_talk (S n) true s s').
Qed.

Section Pool.
Context (destructor : nat -> Prog) (fuel : nat).
Local Abbreviation next_command :=
  (get_and_execute_command own_uid own_pid debug_assertions thread_pool_started service context_manager obituary release_pin fuel).
Local Abbreviation deref_native :=
  (ThreadState.deref_native own_uid own_pid debug_assertions thread_pool_started service context_manager obituary release_pin destructor fuel).
Local Abbreviation deref_all :=
  (ThreadState.deref_all own_uid own_pid debug_assertions thread_pool_started service context_manager obituary release_pin destructor fuel).
Local Abbreviation process_pending_derefs :=
  (ThreadState.process_pending_derefs own_uid own_pid debug_assertions thread_pool_started service context_manager obituary release_pin destructor fuel).
Local Abbreviation pool_loop :=
  (ThreadState.pool_loop own_uid own_pid debug_assertions thread_pool_started service context_manager obituary release_pin destructor fuel).
Local Abbreviation join_thread_pool :=
  (ThreadState.join_thread_pool own_uid own_pid debug_assertions thread_pool_started service context_manager obituary release_pin destructor fuel).

(** The references the kernel gave up and the thread has not given back. *)
Definition pending (s : ThreadState) : nat :=
  (length (pending_strong_derefs (BINDER_DEREFS s)) + length (pending_weak_derefs (BINDER_DEREFS s)))%nat.

Local Abbreviation level := (pays 0 (fun _ => 0) (fun _ => 1) (fun _ => 0) 0).

Lemma total_const {A} (w : A -> Z) z l : (forall x, w x = z) -> total w l = z * zlen l.
Proof. intros Hw. induction l as [| x l IH]; cbn [total]; [by rewrite Z.mul_0_r |]. rewrite Hw, IH, zlen_cons. lia. Qed.

Lemma releases_read l : total (return_weight 0 (fun _ => 0) (fun _ => 1)) l <= zlen l.
Proof.
  induction l as [| r l IH]; cbn [total]; [done |]. rewrite zlen_cons.
  assert (return_weight 0 (fun _ => 0) (fun _ => 1) r <= 1); [| lia]. destruct r; cbn; try lia; by destruct (negb _).
Qed.

(** What is queued for the kernel was read from the driver. *)
Lemma level_potential {A} (m : T A) s r s' :
  moves level m -> moves progress m -> m s = (r, s') -> settled r = true ->
  (remaining s' + pending s' <= remaining s + pending s)%nat.
Proof.
  intros Hl Hp E Hs. specialize (Hl _ _ _ E Hs). destruct (Hp _ _ _ E) as (l & El & Hr).
  unfold ledger in Hl. rewrite El, weights_app in Hl. pose proof (releases_read l) as Hz.
  rewrite !(total_const (command_weight 0 (fun _ => 0)) 0) in Hl by (by intros []).
  rewrite !(total_const (fun _ : Z => 0) 0), !(total_const (fun _ : Z => 1) 1) in Hl by done.
  unfold pending, zlen in *. lia.
Qed.

Lemma level_deref id : moves level (deref_native id).
Proof using decrease_ok.
  unfold ThreadState.deref_native. go.
  - intros s r s' [= <- <-] _. unfold ledger. cbn. rewrite weights_app. cbn.
    unfold table_step. repeat (destruct (act _ _); cbn); lia.
  - apply pays_prog. intros u. apply pays_wait_for_response.
Qed.

Lemma level_deref_all l : moves level (deref_all l).
Proof using decrease_ok. induction l as [| id l IH]; cbn [ThreadState.deref_all]; go. apply level_deref. Qed.

Lemma level_next : moves level next_command.
Proof using decrease_ok.
  unfold get_and_execute_command. apply moves_bind; [apply _ | apply pays_talk |]. intros _ s r s'.
  unfold bind, read_command. destruct (in_parcel s) as [| c l] eqn:Ei; [by apply moves_fail, _ |].
  set (s1 := set_history _ _). intros E Hb.
  assert (Hc : moves (pays 0 (fun _ => 0) (fun _ => 1) (fun _ => 0) (return_weight 0 (fun _ => 0) (fun _ => 1) c))
                     (execute_command (wait_for_response fuel) c)).
  { destruct (is_reply_return c) eqn:Ec; [destruct c; try done; apply moves_fail, _ |].
    apply pays_execute; [| done]. intros u. apply pays_wait_for_response. }
  rewrite (Hc _ _ _ E Hb).
  pose proof (ledger_read 0 (fun _ => 0) (fun _ => 1) (fun _ => 0) c s ltac:(by rewrite Ei)) as Hl.
  unfold read_command in Hl. rewrite Ei in Hl. cbn [snd] in Hl. fold s1 in Hl. lia.
Qed.

Lemma fits_next : fits fuel next_command.
Proof.
  unfold get_and_execute_command. fit. apply fits_execute; intros u; [apply (course_wait_for_response progress) |].
  apply fits_wait_for_response.
Qed.

Lemma fits_deref id : fits fuel (deref_native id).
Proof.
  unfold ThreadState.deref_native. fit.
  - apply moves_modify. intros s. exists []. cbn. rewrite app_nil_r. split; [done |].
    unfold table_step, remaining. repeat (destruct (act _ _); cbn); lia.
  - apply (course_prog progress). intros u. apply (course_wait_for_response progress).
  - apply fits_prog; intros u; [apply (course_wait_for_response progress) | apply fits_wait_for_response].
Qed.

Lemma fits_deref_all l : fits fuel (deref_all l).
Proof.
  induction l as [| id l IH]; cbn [ThreadState.deref_all]; fit; [apply (course_deref progress) | apply fits_deref].
Qed.

(** A step that lowers what remains or what is pending. *)
Lemma step_lower {A} (m : T A) s a s' :
  moves level m -> moves progress m -> m s = (Ok a, s') ->
  (remaining s' <= remaining s)%nat /\ (remaining s' + pending s' <= remaining s + pending s)%nat.
Proof.
  intros Hl Hp E. split; [destruct (Hp _ _ _ E) as (l & _ & Hr); lia | by apply (level_potential m _ (Ok a))].
Qed.

Lemma drain_ends n s :
  (remaining s < fuel)%nat -> (remaining s + pending s < n)%nat ->
  match process_pending_derefs n s with
  | (Err OutOfFuel, _) => False
  | (Ok _, s') => (remaining s' <= remaining s)%nat /\ (remaining s' + pending s' <= remaining s + pending s)%nat
  | _ => True
  end.
Proof using decrease_ok.
  revert s. induction n as [| n IH]; intros s Hf Hn; [lia |]. cbn [ThreadState.process_pending_derefs].
  unfold bind at 1, get. cbn beta iota. destruct (BINDER_DEREFS s) as [strong weak] eqn:Ed.
  cbn [pending_weak_derefs pending_strong_derefs].
  assert (Hgo : forall (m : T unit) strong', moves level m -> moves progress m -> fits fuel m ->
    (length strong' < pending s)%nat ->
    let s1 := set_derefs (mkDerefs strong' []) s in
    match (let* _ := put s1 in let* _ := m in process_pending_derefs n) s with
    | (Err OutOfFuel, _) => False
    | (Ok _, s') => (remaining s' <= remaining s)%nat /\ (remaining s' + pending s' <= remaining s + pending s)%nat
    | _ => True
    end).
  { intros m strong' Hl Hp Hm Hlen s1. unfold bind, put. cbn beta iota.
    destruct (m s1) as [[[] | [e | |] |] s2] eqn:Em; try done; [| by apply (Hm s1 s2 Hf)].
    destruct (step_lower m _ _ _ Hl Hp Em) as [L1 L2].
    assert (P1 : remaining s1 = remaining s /\ pending s1 = length strong') by (unfold remaining, pending; cbn; lia).
    specialize (IH s2 ltac:(lia) ltac:(lia)).
    destruct (process_pending_derefs n s2) as [[[] | [e | |] |] s3]; try done. lia. }
  destruct weak as [| id weak]; [destruct strong as [| id strong]; [by split |] |].
  - apply Hgo; [apply level_deref | apply (course_deref progress) | apply fits_deref |].
    unfold pending. rewrite Ed. cbn. lia.
  - apply Hgo; [apply level_deref_all | apply (course_deref_all progress) | apply fits_deref_all |].
    unfold pending. rewrite Ed. cbn. lia.
Qed.

(** A command that was executed was read. *)
Lemma next_lower s s' : next_command s = (Ok tt, s') -> (remaining s' < remaining s)%nat.
Proof.
  unfold get_and_execute_command, bind. destruct (talk_with_driver true s) as [[[] | e |] s1] eqn:Et; [| done ..].
  destruct (talk_shorter _ _ Et) as [_ H2]. unfold read_command. destruct (in_parcel s1) as [| c l]; [done |].
  intros E. assert (Hc : moves progress (execute_command (wait_for_response fuel) c))
    by (apply (course_execute progress); intros u; apply (course_wait_for_response progress)).
  destruct (Hc _ _ _ E) as (k & _ & Hk). unfold remaining in Hk at 2. cbn in Hk. specialize (H2 c l eq_refl). lia.
Qed.

Lemma pool_ends n s s' :
  (remaining s < n)%nat -> (remaining s + pending s < fuel)%nat -> pool_loop n s <> (Err OutOfFuel, s').
Proof using decrease_ok.
  revert s. induction n as [| n IH]; intros s Hn Hf; [lia |]. cbn [ThreadState.pool_loop].
  unfold bind at 1, get. cbn beta iota.
  assert (Hgo : forall s1, (remaining s1 <= remaining s)%nat -> (remaining s1 + pending s1 <= remaining s + pending s)%nat ->
    attempt next_command (fun r => match r with Ok _ => pool_loop n | Err e => ret e | Panic => panic end) s1
      <> (Err OutOfFuel, s')).
  { intros s1 L1 L2. unfold attempt. destruct (next_command s1) as [[[] | [e | |] |] s2] eqn:En; try done.
    - destruct (step_lower _ _ _ _ level_next (course_next progress _ _ _ _ _ _ _ _ _) En) as [K1 K2].
      pose proof (next_lower _ _ En). apply IH; lia.
    - exfalso. apply (fits_next s1 s2); [lia | done]. }
  destruct (bool_decide _).
  - unfold bind. pose proof (drain_ends fuel s ltac:(lia) Hf) as Hd.
    destruct (process_pending_derefs fuel s) as [[[] | [e | |] |] s1]; try done.
    destruct Hd as [D1 D2]. by apply Hgo.
  - by apply Hgo.
Qed.

(** C28: The loops of a thread end or wait for the driver: with more fuel than commands and [ioctl]s are to
    come, any program of a handler with its calls and all that is dispatched meanwhile, and
    a whole life in the thread pool, with the references it gives back, run without using it up. *)
Theorem command_loops_end p is_main s :
  (remaining s + pending s < fuel)%nat ->
  (forall s', run_prog own_uid own_pid (wait_for_response fuel) p s <> (Err OutOfFuel, s')) /\
  (forall s', join_thread_pool is_main s <> (Err OutOfFuel, s')).
Proof using decrease_ok.
  intros Hs. split; intros s'.
  - assert (Hf : fits fuel (run_prog own_uid own_pid (wait_for_response fuel) p)).
    { apply fits_prog; intros u; [apply (course_wait_for_response progress) | apply fits_wait_for_response]. }
    apply Hf. lia.
  - unfold ThreadState.join_thread_pool. unfold bind at 1, enqueue at 1, modify at 1. cbn beta iota.
    unfold bind at 1, modify at 1. cbn beta iota. set (s1 := set_looper true _).
    assert (P : remaining s1 = remaining s /\ pending s1 = pending s) by done. destruct P as [P1 P2].
    unfold bind at 1. destruct (pool_loop fuel s1) as [[e | e |] s2] eqn:Ep; [| | done].
    + unfold bind, enqueue, modify. cbn beta iota. intros E.
      apply (fits_talk (S (remaining s2)) false) in E; [done |]. unfold remaining. cbn. lia.
    + intros [= -> ->]. apply (pool_ends fuel s1 s') in Ep; [done | lia | lia].
Qed.

(** ** The books *)

Definition is_twoway (r : Return) : bool :=
  match r with BR_TRANSACTION tr | BR_TRANSACTION_SEC_CTX tr _ => negb (is_one_way (flags tr)) | _ => false end.
Definition is_reply (c : Command) : bool := match c with BC_REPLY _ _ _ _ => true | _ => false end.
Definition brings (b : Z) (r : Return) : bool :=
  match r with BR_TRANSACTION tr | BR_TRANSACTION_SEC_CTX tr _ | BR_REPLY tr => b =? buffer tr | _ => false end.
Definition frees (b : Z) (c : Command) : bool := match c with BC_FREE_BUFFER x => b =? x | _ => false end.
Definition gives_up (id : Z) (r : Return) : bool :=
  match r with BR_RELEASE x _ | BR_DECREFS x _ => id =? x | _ => false end.

(** Two-way transactions not yet replied to; buffers not yet given back, nor in a parcel; references
    the kernel gave up and the thread has lost. *)
Definition unanswered (s : ThreadState) : Z :=
  tally is_twoway (received (history s)) - tally is_reply (queued (history s)).
Definition unfreed (b : Z) (s : ThreadState) : Z :=
  tally (brings b) (received (history s)) - tally (frees b) (queued (history s)) -
  tally (Z.eqb b) (held_buffers (history s)).
Definition forgotten (id : Z) (s : ThreadState) : Z :=
  tally (gives_up id) (received (history s)) - tally (Z.eqb id) (derefed (history s)) -
  tally (Z.eqb id) (pending_strong_derefs (BINDER_DEREFS s)) - tally (Z.eqb id) (pending_weak_derefs (BINDER_DEREFS s)).

Lemma total_ext {A} (w v : A -> Z) l : (forall x, w x = v x) -> total w l = total v l.
Proof. intros Hw. induction l as [| x l IH]; cbn [total]; [done |]. by rewrite Hw, IH. Qed.

Lemma total_is {A} (w : A -> Z) f l : (forall x, w x = Z.b2z (f x)) -> total w l = tally f l.
Proof. intros Hw. rewrite <- total_tally. apply total_ext. intros x. rewrite Hw. by destruct (f x). Qed.

Local Abbreviation none := (fun _ : Z => 0).
Local Abbreviation only b := (fun x : Z => Z.b2z (Z.eqb b x)).

Lemma ledger_unanswered s : ledger 1 none none none s = - unanswered s.
Proof.
  unfold ledger, unanswered. rewrite (total_is (command_weight 1 none) is_reply) by (by intros []).
  rewrite (total_is (return_weight 1 none none) is_twoway) by (intros []; cbn; try done; by destruct (negb _)).
  rewrite !(total_const none 0) by done. lia.
Qed.

Lemma ledger_unfreed b s : ledger 0 (only b) none none s = - unfreed b s.
Proof.
  unfold ledger, unfreed. rewrite (total_is (command_weight 0 (only b)) (frees b)) by (by intros []).
  rewrite (total_is (return_weight 0 (only b) none) (brings b)) by (intros []; cbn; try done; by destruct (negb _)).
  rewrite !(total_const none 0) by done. rewrite (total_is (only b) (Z.eqb b)) by done. lia.
Qed.

Lemma ledger_forgotten id s : ledger 0 none (only id) (only id) s = - forgotten id s.
Proof.
  unfold ledger, forgotten. rewrite (total_const (command_weight 0 none) 0) by (by intros []).
  rewrite (total_is (return_weight 0 none (only id)) (gives_up id)) by (intros []; cbn; try done; by destruct (negb _)).
  rewrite !(total_const none 0) by done. rewrite !(total_is (only id) (Z.eqb id)) by done. lia.
Qed.

Lemma pays_program rw fw dw ew p : moves (pays rw fw dw ew 0) (run_prog own_uid own_pid (wait_for_response fuel) p).
Proof using decrease_ok. apply pays_prog. intros u. apply pays_wait_for_response. Qed.

(** One command of the driver, from the read to the end of what it causes. *)
Lemma pays_next rw fw dw ew s r s' :
  next_command s = (r, s') -> settled r = true ->
  (fw = none \/ forall tr, received (history s') <> received (history s) ++ [BR_REPLY tr]) ->
  ledger rw fw dw ew s' = ledger rw fw dw ew s.
Proof using decrease_ok.
  unfold get_and_execute_command. unfold bind at 1. destruct (talk_with_driver true s) as [t s1] eqn:Et.
  intros E Hs Hr. assert (E1 : settled t = true -> ledger rw fw dw ew s1 = ledger rw fw dw ew s /\ history s1 = history s).
  { intros Ht. split; [| apply (talk_remaining true s t s1 Et)]. rewrite (pays_talk rw fw dw ew true _ _ _ Et Ht). lia. }
  destruct t as [[] | e |]; [| injection E as <- <-; by apply E1 ..]. destruct (E1 eq_refl) as [El Eh]. clear E1.
  unfold bind, read_command in E. destruct (in_parcel s1) as [| c l] eqn:Ei; [by injection E as <- <- |].
  pose proof (ledger_read rw fw dw ew c s1 ltac:(by rewrite Ei)) as Hl. unfold read_command in Hl. rewrite Ei in Hl.
  cbn [snd] in Hl. destruct (is_reply_return c) eqn:Ec.
  - destruct c as [| | | | tr | | | | | | | | | | | | | | | | | |]; try done. cbn in E. injection E as <- <-.
    destruct Hr as [-> | Hr]; [cbn in Hl; lia |]. destruct (Hr tr). cbn. by rewrite Eh.
  - rewrite (pays_execute rw fw dw ew (wait_for_response fuel) (pays_wait_for_response rw fw dw ew fuel) c Ec _ _ _ E Hs). lia.
Qed.

(** C9: The books of a thread balance. Every program of a handler and every command of the driver, with all
    that is dispatched on the way, succeeding, failing or panicking, leaves as many two-way
    transactions without a reply as before, and as many buffers that are neither freed nor a parcel; a reply that no call waits
    for is the one command whose buffer is not given back. *)
Theorem replies_and_buffers_balance s r s' p :
  settled r = true ->
  (run_prog own_uid own_pid (wait_for_response fuel) p s = (r, s') ->
     unanswered s' = unanswered s /\ forall b, unfreed b s' = unfreed b s) /\
  (forall q, settled q = true -> next_command s = (q, s') ->
     unanswered s' = unanswered s /\
     ((forall tr, received (history s') <> received (history s) ++ [BR_REPLY tr]) -> forall b, unfreed b s' = unfreed b s)).
Proof using decrease_ok.
  intros Hs. split.
  - intros E. split; [| intros b].
    + pose proof (pays_program 1 none none none p _ _ _ E Hs) as Hl. rewrite !ledger_unanswered in Hl. lia.
    + pose proof (pays_program 0 (only b) none none p _ _ _ E Hs) as Hl. rewrite !ledger_unfreed in Hl. lia.
  - intros q Hq E. split; [| intros Hr b].
    + pose proof (pays_next 1 none none none _ _ _ E Hq (or_introl eq_refl)) as Hl. rewrite !ledger_unanswered in Hl. lia.
    + pose proof (pays_next 0 (only b) none none _ _ _ E Hq (or_intror Hr)) as Hl. rewrite !ledger_unfreed in Hl. lia.
Qed.

Lemma deref_gives id0 id s s' : deref_native id s = (Ok tt, s') -> forgotten id0 s' = forgotten id0 s - Z.b2z (id0 =? id).
Proof using decrease_ok.
  unfold ThreadState.deref_native. unfold bind at 1, get at 1. cbn beta iota. unfold bind at 1, modify at 1. cbn beta iota.
  set (s1 := set_history _ _).
  assert (E1 : forgotten id0 s1 = forgotten id0 s - Z.b2z (id0 =? id)).
  { unfold forgotten, s1. cbn. rewrite tally_app. cbn. unfold table_step. repeat (destruct (act _ _); cbn); lia. }
  unfold bind at 1, get at 1. cbn beta iota. rewrite <- E1.
  assert (Hd : forall a, (let* _ := run_prog own_uid own_pid (wait_for_response fuel) (destructor a) in ret tt) s1 = (Ok tt, s') ->
    forgotten id0 s' = forgotten id0 s1).
  { intros a. unfold bind. destruct (run_prog _ _ _ _ s1) as [[x | e |] s2] eqn:Er; [| done ..]. intros [= ->].
    pose proof (pays_program 0 none (only id0) (only id0) _ _ _ _ Er eq_refl) as Hl. rewrite !ledger_forgotten in Hl. lia. }
  destruct (lookup_native id (natives s)) as [a |]; [| by intros [= <-]].
  destruct (lookup_native id (natives s1)); [by intros [= <-] | apply Hd].
Qed.

Lemma deref_all_gives id0 l s s' :
  deref_all l s = (Ok tt, s') -> forgotten id0 s' = forgotten id0 s - tally (Z.eqb id0) l.
Proof using decrease_ok.
  revert s. induction l as [| id l IH]; intros s; cbn [ThreadState.deref_all]; [intros [= <-]; cbn; lia |].
  intros (x & s1 & E1 & E2)%bind_inv_ok. destruct x. rewrite (IH _ E2), (deref_gives id0 id _ _ E1). cbn [tally]. lia.
Qed.

Lemma drain_gives n s s' : process_pending_derefs n s = (Ok tt, s') ->
  BINDER_DEREFS s' = mkDerefs [] [] /\ forall id, forgotten id s' = forgotten id s.
Proof using decrease_ok.
  revert s. induction n as [| n IH]; intros s; cbn [ThreadState.process_pending_derefs]; [done |].
  unfold bind at 1, get. cbn beta iota. destruct (BINDER_DEREFS s) as [strong weak] eqn:Ed.
  cbn [pending_weak_derefs pending_strong_derefs].
  destruct weak as [| id weak]; [destruct strong as [| id strong]; [by intros [= <-] |] |];
    unfold bind at 1, put; cbn beta iota; intros (x & s1 & E1 & E2)%bind_inv_ok; destruct x;
    destruct (IH _ E2) as [Hd Hf]; (split; [done |]); intros id0; rewrite Hf.
  - rewrite (deref_gives id0 id _ _ E1). unfold forgotten. cbn. rewrite Ed. cbn. lia.
  - rewrite (deref_all_gives id0 _ _ _ E1). unfold forgotten. cbn. rewrite Ed. cbn. lia.
Qed.

(** C29: The references to native binders that the kernel gives up are given back once each: no
    program and no command loses or repeats one, and when the drain of the queues returns there is none left
    that was not given back. *)
Theorem kernel_references_given_back s :
  (forall id, forgotten id s = 0) ->
  (forall p r s', run_prog own_uid own_pid (wait_for_response fuel) p s = (r, s') -> settled r = true ->
     forall id, forgotten id s' = 0) /\
  (forall r s', next_command s = (r, s') -> settled r = true -> forall id, forgotten id s' = 0) /\
  (forall n s', process_pending_derefs n s = (Ok tt, s') -> BINDER_DEREFS s' = mkDerefs [] [] /\
     forall id, tally (Z.eqb id) (derefed (history s')) = tally (gives_up id) (received (history s'))).
Proof using decrease_ok.
  intros H0. split_and!.
  - intros p r s' E Hs id. pose proof (pays_program 0 none (only id) (only id) p _ _ _ E Hs) as Hl.
    rewrite !ledger_forgotten, H0 in Hl. lia.
  - intros r s' E Hs id. pose proof (pays_next 0 none (only id) (only id) _ _ _ E Hs (or_introl eq_refl)) as Hl.
    rewrite !ledger_forgotten, H0 in Hl. lia.
  - intros n s' E. destruct (drain_gives n s s' E) as [Hd Hf]. split; [done |]. intros id. specialize (Hf id).
    rewrite H0 in Hf. unfold forgotten in Hf. rewrite Hd in Hf. cbn in Hf. lia.
Qed.
End Pool.
End Threads.

(** The table of native binders is, after every program, command and drain of the thread, a state of the table's own transition
    system. *)
Lemma thread_table_reachable `{ErrnoTable} own_uid own_pid debug started service cm obituary release_pin destructor fuel s :
  table_reachable (natives s) ->
  (forall p r s', run_prog own_uid own_pid
     (wait_for_response own_uid own_pid debug started service cm obituary release_pin fuel) p s = (r, s') ->
     table_reachable (natives s')) /\
  (forall r s', get_and_execute_command own_uid own_pid debug started service cm obituary release_pin fuel s = (r, s') ->
     table_reachable (natives s')) /\
  (forall l r s', deref_all own_uid own_pid debug started service cm obituary release_pin destructor fuel l s = (r, s') ->
     table_reachable (natives s')).
Proof.
  intros Hr. split_and!.
  - intros p r s' E. assert (Hm : moves tables (run_prog own_uid own_pid
      (wait_for_response own_uid own_pid debug started service cm obituary release_pin fuel) p))
      by (apply (course_prog tables); intros u; apply (course_wait_for_response tables)).
    by apply (Hm _ _ _ E).
  - intros r s' E. by apply (course_next tables _ _ _ _ _ _ _ _ _ _ _ _ E).
  - intros l r s' E. by apply (course_deref_all tables _ _ _ _ _ _ _ _ _ _ _ _ _ _ E).
Qed.

(** * A process *)

(** Binder 7 is published under the id 1; it answers with the uid it sees. *)
Definition tell_uid : Prog := AskContext (fun c => Finish None (mkBody (to_le 4 (ctx_uid c)) [])).
Definition sample_service (a : nat) : Native := mkService true (Some (fun _ _ => tell_uid)) (Ok tt).
Definition nothing (_ : Z) : Prog := Finish None empty_body.
Definition no_destructor (_ : nat) : Prog := Finish None empty_body.

Definition sample_table : Table :=
  match act (Publish 7) table_new with
  | Some t => match act (Acquire 1) t with Some t => t | None => t end
  | None => table_new
  end.

(** Calls of the users 3000 and 2000 to the binder, and a reply. *)
Definition outer_call : binder_transaction_data := mkTr 1 9 0 31 3000 100 [] [].
Definition nested_call : binder_transaction_data := mkTr 1 9 0 21 2000 200 [] [].
Definition some_reply : binder_transaction_data := mkTr 0 0 0 0 0 300 [] [].

(** The driver dispatches a call to the thread while it waits for its own reply. *)
Definition nested_script : list Ioctl :=
  [Served WroteAll [BR_NOOP; BR_TRANSACTION_COMPLETE; BR_TRANSACTION nested_call];
   Served WroteAll [BR_NOOP; BR_TRANSACTION_COMPLETE]; Served WroteAll [BR_REPLY some_reply]].

#[local] Existing Instance linux_errno.

Local Abbreviation sample_wait := (wait_for_response 1000 50 false true sample_service None nothing nothing).
Local Abbreviation sample_run := (run_prog 1000 50 (sample_wait 20%nat)).
Local Abbreviation sample_next := (get_and_execute_command 1000 50 false true sample_service None nothing nothing 20%nat).

Definition in_call : ThreadState :=
  set_looper true (set_transaction (Some (from_transaction_data outer_call None)) (thread_new CrNone sample_table nested_script)).

(** A handler that calls out and answers with the uid it sees then. *)
Definition call_and_tell : Prog := Transact 5 1 0 empty_body (fun _ => tell_uid).

Definition answered {A} (x : outcome Stop A * ThreadState) : option A := match x.1 with Ok a => Some a | _ => None end.

(** A binder that tells the uid it sees; for the code 10 it calls out before. *)
Definition calling_service (a : nat) : Native :=
  mkService true (Some (fun code _ => if code =? 10 then call_and_tell else tell_uid)) (Ok tt).
Definition calling_call : binder_transaction_data := mkTr 1 10 0 31 3000 100 [] [].
Definition idle_thread : ThreadState :=
  set_looper true (thread_new CrNone sample_table (nested_script ++ [Served WroteAll [BR_TRANSACTION_COMPLETE]])).

Local Abbreviation calling_wait := (wait_for_response 1000 50 false true calling_service None nothing nothing).

Lemma calling_identity_stable_witness :
  run_transaction 1000 50 calling_service None (calling_wait 20%nat) calling_call None idle_thread =
  run_transaction 1000 50 (fun a => answering_native (mkContext 31 3000 None) (calling_service a)) None
    (calling_wait 20%nat) calling_call None idle_thread /\
  sent (run_transaction 1000 50 calling_service None (calling_wait 20%nat) calling_call None idle_thread).2 =
    [BC_TRANSACTION 16 5 1 empty_body; BC_REPLY 0 u32_max 0 (mkBody (to_le 4 2000) []); BC_FREE_BUFFER 200;
     BC_REPLY 0 u32_max 0 (mkBody (to_le 4 3000) [])].
Proof.
  split; [| by vm_compute].
  apply (calling_identity_stable 1000 50 false true calling_service None nothing nothing ltac:(done) ltac:(done) ltac:(done)
           20 calling_call None idle_thread).
  vm_compute. intros h [= <-]. by intros r.
Defined.

Lemma identity_scope_restored_witness :
  let (token, s1) := clear_calling_identity 1000 50 in_call in
  let s3 := restore_calling_identity token (transact (sample_wait 20%nat) 5 1 0 empty_body s1).2 in
  calling_context 1000 50 s1 = mkContext 50 1000 None /\ get_calling_uid s3 = 3000 /\ get_calling_pid s3 = 31.
Proof.
  pose proof (identity_scope_restored 1000 50 false true sample_service None nothing nothing ltac:(done) ltac:(done) ltac:(done)
    20 in_call (from_transaction_data outer_call None) 5 1 0 empty_body eq_refl eq_refl
    ltac:(unfold in_u; cbn; lia) ltac:(unfold bit30; cbn; lia)) as H.
  destruct (clear_calling_identity 1000 50 in_call) as [token s1] eqn:Ec. cbv zeta. destruct H as [H1 H2].
  split; [exact H1 |].
  destruct (transact (sample_wait 20%nat) 5 1 0 empty_body s1) as [r s2] eqn:Et.
  assert (Hs : settled r = true).
  { change r with (r, s2).1. rewrite <- Et. change s1 with (token, s1).2. rewrite <- Ec. by vm_compute. }
  destruct (H2 r s2 eq_refl Hs) as (U & P & _). by split.
Defined.

(** The driver gives the pool a call and then ends the thread. *)
Definition pool_script : list Ioctl :=
  [Served WroteAll [BR_NOOP; BR_ACQUIRE 1 0; BR_TRANSACTION outer_call]; Interrupted;
   Served WroteAll [BR_NOOP; BR_TRANSACTION_COMPLETE; BR_RELEASE 1 0]; Served WroteAll [BR_FINISHED]; Served WroteAll []].

Definition pool_thread : ThreadState := thread_new CrNone sample_table pool_script.

Local Abbreviation sample_pool :=
  (join_thread_pool 1000 50 false true sample_service None nothing nothing no_destructor 20%nat false).

Lemma command_loops_end_witness :
  answered (sample_pool pool_thread) = Some tt /\ (forall s', sample_pool pool_thread <> (Err OutOfFuel, s')) /\
  sent (sample_pool pool_thread).2 =
    [BC_REGISTER_LOOPER; BC_ACQUIRE_DONE 1 0; BC_REPLY 0 u32_max 0 (mkBody (to_le 4 3000) []); BC_FREE_BUFFER 100; BC_EXIT_LOOPER].
Proof.
  split; [by vm_compute |]. split; [| by vm_compute].
  apply (command_loops_end 1000 50 false true sample_service None nothing nothing ltac:(done) no_destructor 20 Crash false pool_thread).
  vm_compute. lia.
Defined.

(** The call of a thread that is at the driver. *)
Definition called : ThreadState :=
  set_looper true (set_io [BR_TRANSACTION outer_call] [] [Served WroteAll [BR_TRANSACTION_COMPLETE]] [] (thread_new CrNone sample_table [])).

Lemma replies_and_buffers_balance_witness :
  let s := (sample_next called).2 in
  queued (history s) = [BC_REPLY 0 u32_max 0 (mkBody (to_le 4 3000) []); BC_FREE_BUFFER 100] /\
  unanswered s = 0 /\ unfreed 100 s = 0.
Proof.
  intros s. split; [by vm_compute |].
  destruct (replies_and_buffers_balance 1000 50 false true sample_service None nothing nothing ltac:(done) 20
              called (Ok (None, empty_body)) s (Finish None empty_body) eq_refl) as [_ H].
  destruct (H (sample_next called).1) as [H1 H2]; [by vm_compute | apply surjective_pairing |].
  split; [exact H1 |]. rewrite (H2 ltac:(intros tr; by vm_compute) 100). by vm_compute.
Defined.

(** The kernel gives up references to the binder. *)
Definition released : ThreadState :=
  set_looper true (set_io [BR_RELEASE 1 0] [] [] [] (thread_new CrNone sample_table [])).

Lemma kernel_references_given_back_witness :
  let s := (sample_next released).2 in
  pending_strong_derefs (BINDER_DEREFS s) = [1] /\ forgotten 1 s = 0.
Proof.
  intros s. split; [by vm_compute |].
  destruct (kernel_references_given_back 1000 50 false true sample_service None nothing nothing ltac:(done) no_destructor 20
              released) as (_ & H & _); [by intros id; vm_compute; destruct (id =? 1) |].
  apply (H (sample_next released).1 s); [apply surjective_pairing | by vm_compute].
Defined.

(** As [nested_script], for a thread that is not of the pool and writes when it frees the buffer. *)
Definition flushing_script : list Ioctl :=
  [Served WroteAll [BR_NOOP; BR_TRANSACTION_COMPLETE; BR_TRANSACTION nested_call];
   Served WroteAll [BR_NOOP; BR_TRANSACTION_COMPLETE]; Served WroteAll []; Served WroteAll [BR_REPLY some_reply]].

(** There is a run in which a call of the kernel that is dispatched while a handler of an RPC call waits for
    its own call is attributed to the peer of the RPC session: the binder sees the peer's uid 1234, not the
    sender's 2000. *)
Theorem kernel_caller_hidden_by_rpc : exists p s',
  p = RpcDispatch (Local 1234 42) (Transact 5 1 0 empty_body (fun _ => Finish None empty_body)) (Finish None empty_body) /\
  sample_run p (thread_new CrNone sample_table flushing_script) = (Ok (None, empty_body), s') /\
  BR_TRANSACTION nested_call ∈ received (history s') /\ sender_euid nested_call = 2000 /\
  BC_REPLY 0 u32_max 0 (mkBody (to_le 4 1234) []) ∈ sent s'.
Proof.
  do 2 eexists. split; [reflexivity |]. split; [vm_compute; reflexivity |]. vm_compute. split_and!; [set_solver | done | set_solver].
Qed.

(** The driver fails when the reply is written. *)
Definition failing_thread : ThreadState :=
  set_looper true (set_io [BR_TRANSACTION outer_call] [] [Failed 5; Served WroteAll []] [] (thread_new CrNone sample_table [])).

(** There is a run in which a reply stays queued after its command has ended with an error: the command
    holds the address of a parcel that is gone then, and the next write, here the one with which the
    thread leaves the pool, hands it to the driver. *)
Theorem reply_outlives_its_parcel : exists e s1 s2,
  sample_next failing_thread = (Err (Code e), s1) /\
  BC_REPLY 0 u32_max 0 (mkBody (to_le 4 3000) []) ∈ out_parcel s1 /\
  talk_with_driver false s1 = (Ok tt, s2) /\
  BC_REPLY 0 u32_max 0 (mkBody (to_le 4 3000) []) ∈ sent s2.
Proof.
  do 3 eexists. split; [vm_compute; reflexivity |]. split; [vm_compute; set_solver |].
  split; [vm_compute; reflexivity |]. vm_compute. set_solver.
Qed.

(** A binder of the application's own whose reference cannot be given back. *)
Definition failing_service (a : nat) : Native := mkService true (Some (fun _ _ => tell_uid)) (Err StInvalidOperation).

(** Without the hypothesis on [decrease] the state of the transaction is not restored and there is no reply. *)
Lemma failed_decrease_leaks : exists s1,
  get_and_execute_command 1000 50 false true failing_service None nothing nothing 20 called = (Err (Code StInvalidOperation), s1) /\
  transaction called = None /\ is_Some (transaction s1) /\ unanswered s1 = unanswered called + 1.
Proof. eexists. split; [vm_compute; reflexivity |]. vm_compute. split_and!; [done | by eexists | done]. Qed.

(** A handler whose request has policy 5 in its header. *)
Definition strict_service (a : nat) : Native :=
  mkService true (Some (fun _ _ => TakeHeader 5 1000 (Finish None empty_body))) (Ok tt).

(** There is a run in which a thread has set its policy to 7, waits for a reply, is given a call, and has the policy of that
    call's sender from then on. *)
Lemma policy_outlives_call : exists s',
  run_prog 1000 50 (wait_for_response 1000 50 false true strict_service None nothing nothing 20)
    (Transact 5 1 0 empty_body (fun _ => Finish None empty_body))
    (set_strict_mode_policy 7 (set_looper true (thread_new CrNone sample_table nested_script))) = (Ok (None, empty_body), s') /\
  transaction s' = None /\ strict_mode_policy s' = 5.
Proof. eexists. split; [vm_compute; reflexivity |]. by vm_compute. Qed.
