(* ===== verification/Permissions.v ===== *)
(** Permissions of the caller (src/rsbinder/src/permission_controller.rs: [check_permission] with the authority that can
    be installed) and the guard that [render_enforce_permission_check] of src/rsbinder-aidl/src/generator.rs puts
    before a method with @EnforcePermission.

    The process is any world with the state of the thread, the installed authority and the calls below; what they do is
    free, within the law that a call which returns leaves the caller of the thread as it was ([ThreadSpec] has it for
    calls through the driver). *)

From Stdlib Require Import ZArith Lia.
From stdpp Require Import base strings list.
From S2P Require Import Prelude Errors Status Transport AidlCheck Accessors HubClient ThreadState ThreadSpec.

Definition SERVICE_NAME : string := "permission".

(** * Who is asked *)

Inductive Asked : Type :=
| ToAuthority (caller : Caller)
| ToController (pid uid : Z).

Record Question : Type := mkQuestion { asked_of : Asked; permission : string; answer : bool }.

Section Check.
Context {W : Type} (thread : W -> ThreadState) (AUTHORITY : W -> option (string -> Caller -> M W Empty_set bool)).
(** [hub::default], the calls of the service manager, the cast to and the call of the permission controller. *)
Context (hub_default : M W StatusCode ServiceManager) (m : Manager W) `{Bridge} (rpc : bool) (local : string -> option ServiceMetadata).
Context (cast : nat -> outcome StatusCode nat) (checkPermission : nat -> string -> Z -> Z -> M W Status bool).

(** The questions of one guard are logged. *)
Record Desk : Type := mkDesk { process : W; asked : list Question }.

Definition on_process {E A} (c : M W E A) : M Desk E A := fun d =>
  let '(r, w) := c (process d) in (r, mkDesk w (asked d)).

Definition log (q : Question) : M Desk Empty_set bool := fun d => (Ok (answer q), mkDesk (process d) (asked d ++ [q])).

(** [permission_controller::default]. *)
Definition default_controller : M W StatusCode nat :=
  let* manager := HubClient.attempt hub_default in
  let* found := match manager with
                | inl v => HubClient.get_service m rpc local v SERVICE_NAME
                | inr _ => ret None
                end in
  match found with Some b => lift (cast b) | None => throw StNameNotFound end.

Definition check_permission (for_rpc : bool) (permission_name : string) : M Desk Empty_set bool :=
  let* d := get in
  let t := thread (process d) in
  match AUTHORITY (process d) with
  | Some authority =>
      match calling_caller t with
      | Some caller =>
          let* b := on_process (authority permission_name caller) in
          log (mkQuestion (ToAuthority caller) permission_name b)
      | None => ret false
      end
  | None =>
      if for_rpc then ret false
      else if negb (is_handling_transaction t) then ret false
      else
        let pid := wrap_i 32 (get_calling_pid t) in
        let uid := wrap_i 32 (get_calling_uid t) in
        let* pc := on_process (HubClient.attempt default_controller) in
        match pc with
        | inr _ => ret false
        | inl pc =>
            let* r := on_process (HubClient.attempt (checkPermission pc permission_name pid uid)) in
            log (mkQuestion (ToController pid uid) permission_name (match r with inl b => b | inr _ => false end))
        end
  end.

(** ** The guard *)

(** Checks joined by [&&] and by [||]. *)
Fixpoint all_of (for_rpc : bool) (ps : list string) : M Desk Empty_set bool :=
  match ps with
  | [] => ret true
  | p :: ps => let* b := check_permission for_rpc p in if b : bool then all_of for_rpc ps else ret false
  end.

Fixpoint any_of (for_rpc : bool) (ps : list string) : M Desk Empty_set bool :=
  match ps with
  | [] => ret false
  | p :: ps => let* b := check_permission for_rpc p in if b : bool then ret true else any_of for_rpc ps
  end.

Definition guard (for_rpc : bool) (expr : EnforcePermissionExpr) : M Desk Empty_set bool :=
  match expr with
  | Single p => check_permission for_rpc p
  | AllOf ps => all_of for_rpc ps
  | AnyOf ps => any_of for_rpc ps
  end.

(** The arm of a guarded method: the status that is the whole reply, or what the rest of the arm does. *)
Definition guarded_arm {A} (for_rpc : bool) (expr : EnforcePermissionExpr) (rest : M Desk StatusCode A) : M Desk StatusCode (Status + A) := fun d =>
  match guard for_rpc expr d with
  | (Ok true, d) => (let* a := rest in ret (inr a)) d
  | (Ok false, d) => (Ok (inl (status_of_exception ExSecurity)), d)
  | (Err e, d) => match e : Empty_set with end
  | (Panic, d) => (Panic, d)
  end.

(** The names of an expression; the parser refuses empty lists. *)
Definition names (expr : EnforcePermissionExpr) : list string :=
  match expr with Single p => [p] | AllOf ps | AnyOf ps => ps end.

(** ** The law of the calls *)

Definition caller_at (w : W) : option Caller := calling_caller (thread w).

Definition keeps {E A} (c : M W E A) : Prop :=
  forall w r w', c w = (r, w') -> r <> Panic -> caller_at w' = caller_at w.

Record CallerKept : Prop := mkCallerKept {
  authority_keeps : forall w f p c, AUTHORITY w = Some f -> keeps (f p c);
  default_keeps : keeps hub_default;
  lookup_keeps : forall n, keeps (sm_getService m n) /\ keeps (sm_getService2 m n) /\ keeps (legacy_get m n);
  sleep_keeps : keeps (sleep m);
  check_keeps : forall pc p pid uid, keeps (checkPermission pc p pid uid)
}.

Definition caller_pid (c : Caller) : Z := match c with KernelCaller _ pid _ => pid | RpcCaller peer => (peer_uid_pid peer).2 end.
Definition caller_uid (c : Caller) : Z := match c with KernelCaller uid _ _ => uid | RpcCaller peer => (peer_uid_pid peer).1 end.

(** A question about [c]; the controller is asked for parcels of the driver only. *)
Definition about (for_rpc : bool) (c : Caller) (q : Question) : Prop :=
  match asked_of q with
  | ToAuthority c' => c' = c
  | ToController pid uid => for_rpc = false /\ pid = wrap_i 32 (caller_pid c) /\ uid = wrap_i 32 (caller_uid c)
  end.

Definition grants (p : string) (q : Question) : bool := String.eqb (permission q) p && answer q.

(** * Lemmas *)

Lemma caller_keeps_bind {E A B} (c : M W E A) (k : A -> M W E B) : keeps c -> (forall a, keeps (k a)) -> keeps (bind c k).
Proof.
  intros Hc Hk w r w'. unfold bind. destruct (c w) as [[a | e |] w1] eqn:E1.
  - intros E2 Hr. rewrite (Hk a _ _ _ E2 Hr). by eapply Hc.
  - intros [= <- <-] _. by eapply Hc.
  - by intros [= <- <-].
Qed.

Lemma keeps_pure {E A} (o : outcome E A) : keeps (fun w => (o, w)).
Proof. by intros w r w' [= <- <-]. Qed.

Lemma keeps_attempt {E F A} (c : M W E A) : keeps c -> keeps (HubClient.attempt (F := F) c).
Proof.
  intros Hc w r w'. unfold HubClient.attempt. destruct (c w) as [[a | e |] w1] eqn:E1; intros [= <- <-]; try done; intros _; by eapply Hc.
Qed.

#[local] Hint Resolve caller_keeps_bind keeps_pure keeps_attempt : core.

Context (kept : CallerKept).

Lemma keeps_legacy n name : keeps (legacy_get_service m n name).
Proof using kept.
  destruct kept as [_ _ Hl Hs _]. destruct (Hl name) as (_ & _ & Hg).
  induction n as [| n IH]; cbn [legacy_get_service]; (apply caller_keeps_bind; [by apply keeps_attempt |]);
    intros [[b |] | e]; try apply keeps_pure; apply caller_keeps_bind; auto.
Qed.

Lemma keeps_get_service v name : keeps (HubClient.get_service m rpc local v name).
Proof using kept.
  pose proof (lookup_keeps kept name) as (H1 & H2 & _).
  destruct v; cbn [HubClient.get_service]; try apply keeps_legacy; unfold or_default; apply caller_keeps_bind; auto; intros r; apply keeps_pure.
Qed.

Lemma keeps_default : keeps default_controller.
Proof using kept.
  apply caller_keeps_bind; [apply keeps_attempt, kept |]. intros [v | e].
  - apply caller_keeps_bind; [apply keeps_get_service |]. intros [b |]; apply keeps_pure.
  - apply caller_keeps_bind; [apply keeps_pure |]. intros [b |]; apply keeps_pure.
Qed.

Lemma handling_caller s : is_handling_transaction s = true ->
  exists c, calling_caller s = Some c /\ get_calling_pid s = caller_pid c /\ get_calling_uid s = caller_uid c.
Proof.
  unfold is_handling_transaction, calling_caller, get_calling_pid, get_calling_uid, rpc_calling.
  destruct (RPC_CALLING s) as [peer |]; cbn.
  - intros _. exists (RpcCaller peer). cbn. by destruct (peer_uid_pid peer).
  - destruct (transaction s) as [tr |]; [| done]. intros _. by eexists.
Qed.

(** What one check leaves: the caller, and questions about it; a grant was asked for. *)
Definition checked (for_rpc : bool) (granted : list Question -> Prop) (d d' : Desk) (b : bool) : Prop :=
  exists new, asked d' = asked d ++ new /\ caller_at (process d') = caller_at (process d) /\
    (forall q, q ∈ new -> exists c, caller_at (process d) = Some c /\ about for_rpc c q) /\
    (b = true -> granted new).

Definition has_grant (p : string) (new : list Question) : Prop := existsb (grants p) new = true.

Lemma checked_quiet for_rpc P d : checked for_rpc P d d false.
Proof. exists []. rewrite app_nil_r. split_and!; [done | done | by intros q ?%elem_of_nil | done]. Qed.

Lemma checked_ask for_rpc w who p b d c : caller_at w = caller_at (process d) -> caller_at (process d) = Some c ->
  about for_rpc c (mkQuestion who p b) -> checked for_rpc (has_grant p) d (mkDesk w (asked d ++ [mkQuestion who p b])) b.
Proof.
  intros Ew Ec Ha. exists [mkQuestion who p b]. split_and!; [done | done | |].
  - intros q ->%list_elem_of_singleton. eauto.
  - intros ->. unfold has_grant, grants. cbn [existsb permission answer]. by rewrite String.eqb_refl.
Qed.

Lemma check_checked for_rpc p d b d' : check_permission for_rpc p d = (Ok b, d') -> checked for_rpc (has_grant p) d d' b.
Proof using kept.
  unfold check_permission, bind at 1, get. cbn beta iota zeta.
  destruct (AUTHORITY (process d)) as [f |] eqn:Ef.
  - destruct (calling_caller (thread (process d))) as [c |] eqn:Ec; [| by intros [= <- <-]; apply checked_quiet].
    unfold bind, on_process, log. destruct (f p c (process d)) as [[a | [] |] w] eqn:Ea; intros [= <- <-].
    apply (checked_ask _ _ _ _ _ _ c); [by eapply (authority_keeps kept) | done | done].
  - destruct for_rpc; [by intros [= <- <-]; apply checked_quiet |].
    destruct (is_handling_transaction _) eqn:Eh; [cbn [negb] | by intros [= <- <-]; apply checked_quiet].
    destruct (handling_caller _ Eh) as (c & Ec & -> & ->).
    unfold bind, on_process, log.
    destruct (HubClient.attempt default_controller (process d)) as [[[pc | e] | [] |] w] eqn:Ea; intros E1; try done.
    all: assert (Ew : caller_at w = caller_at (process d)) by (by eapply (keeps_attempt (F := Empty_set)); [apply keeps_default | apply Ea |]).
    + cbn [process asked] in E1. destruct (HubClient.attempt (checkPermission _ _ _ _) w) as [[r | [] |] w'] eqn:Er; [| done].
      injection E1 as <- <-. apply (checked_ask _ _ _ _ _ _ c); [| done | done]. rewrite <- Ew.
      by eapply (keeps_attempt (F := Empty_set)); [apply (check_keeps kept) | apply Er |].
    + injection E1 as <- <-. by exists []; rewrite app_nil_r; split_and!; [| | intros q ?%elem_of_nil |].
Qed.

(** ** Composition *)

Lemma checked_trans for_rpc (P Q : list Question -> Prop) (R : list Question -> Prop) d d1 d2 b b2 :
  checked for_rpc P d d1 b -> checked for_rpc Q d1 d2 b2 ->
  (forall x y, (b = true -> P x) -> (b2 = true -> Q y) -> b2 = true -> R (x ++ y)) -> checked for_rpc R d d2 b2.
Proof.
  intros (x & E1 & E2 & E3 & E4) (y & F1 & F2 & F3 & F4) HR. exists (x ++ y). split_and!.
  - by rewrite F1, E1, app_assoc.
  - by rewrite F2.
  - intros q [Hq | Hq]%elem_of_app; [auto |]. rewrite <- E2. auto.
  - auto.
Qed.

Definition met (expr : EnforcePermissionExpr) (new : list Question) : Prop :=
  enforce_condition (fun p => existsb (grants p) new) expr = true.

Lemma all_checked for_rpc ps d b d' : all_of for_rpc ps d = (Ok b, d') -> checked for_rpc (met (AllOf ps)) d d' b.
Proof using kept.
  revert d b. induction ps as [| p ps IH]; intros d b; cbn [all_of].
  - intros [= <- <-]. exists []. rewrite app_nil_r. by split_and!; [| | intros q ?%elem_of_nil |].
  - unfold bind. destruct (check_permission for_rpc p d) as [[[|] | [] |] d1] eqn:E1; intros E2; [| | done];
      apply check_checked in E1.
    + apply (checked_trans _ _ _ _ _ _ _ _ _ E1 (IH _ _ E2)). intros x y Hx Hy Hb. specialize (Hx eq_refl). specialize (Hy Hb).
      unfold met in *. cbn in *. apply andb_true_iff. split; [by rewrite existsb_app, Hx |].
      rewrite forallb_forall in Hy |- *. intros z Hz. by rewrite existsb_app, (Hy z Hz), orb_true_r.
    + injection E2 as <- <-. destruct E1 as (new & ? & ? & ? & _). by exists new.
Qed.

Lemma any_checked for_rpc ps d b d' : any_of for_rpc ps d = (Ok b, d') -> checked for_rpc (met (AnyOf ps)) d d' b.
Proof using kept.
  revert d b. induction ps as [| p ps IH]; intros d b; cbn [any_of]; [by intros [= <- <-]; apply checked_quiet |].
  unfold bind. destruct (check_permission for_rpc p d) as [[[|] | [] |] d1] eqn:E1; intros E2; [| | done]; apply check_checked in E1.
  - injection E2 as <- <-. destruct E1 as (new & ? & ? & ? & Hg). exists new. split_and!; try done. intros _.
    unfold met. cbn. by rewrite (Hg eq_refl).
  - apply (checked_trans _ _ _ _ _ _ _ _ _ E1 (IH _ _ E2)). intros x y _ Hy Hb. specialize (Hy Hb). unfold met in *. cbn in *.
    apply orb_true_iff. right. rewrite existsb_exists in Hy |- *. destruct Hy as (z & Hz & Hg).
    exists z. by rewrite existsb_app, Hg, orb_true_r.
Qed.

Lemma guard_checked for_rpc expr d b d' : guard for_rpc expr d = (Ok b, d') -> checked for_rpc (met expr) d d' b.
Proof using kept. destruct expr; cbn; [apply check_checked | apply all_checked | apply any_checked]. Qed.

(** ** Denials *)

(** Nobody to decide about: the thread handles no call, or the call came over RPC and no authority is installed. *)
Definition unknown (for_rpc : bool) (d : Desk) : Prop :=
  caller_at (process d) = None \/ AUTHORITY (process d) = None /\ for_rpc = true.

Lemma check_denied for_rpc p d : unknown for_rpc d -> check_permission for_rpc p d = (Ok false, d).
Proof.
  unfold unknown, caller_at, check_permission, bind at 1, get. cbn beta iota zeta. intros [Hc | [Ha ->]]; [| by rewrite Ha].
  rewrite Hc. destruct (AUTHORITY _); [done |]. destruct for_rpc; [done |].
  destruct (is_handling_transaction _) eqn:Eh; [| done]. destruct (handling_caller _ Eh) as (c & Ec & _). congruence.
Qed.

Lemma guard_denied for_rpc expr d : names expr <> [] -> unknown for_rpc d -> guard for_rpc expr d = (Ok false, d).
Proof.
  intros Hn Hu. pose proof (fun p => check_denied for_rpc p d Hu) as Hd. destruct expr as [p | [| p ps] | ps]; cbn [guard all_of]; [by apply Hd | done | |].
  - unfold bind. by rewrite Hd.
  - clear Hn. induction ps as [| p ps IH]; cbn [any_of]; [done |]. unfold bind. by rewrite Hd.
Qed.

(** * Theorems *)

(** C24: A method with @EnforcePermission runs only for a caller who was granted what it asks for: the guard says yes only
    if the thread handles a call and every permission that the expression needs was answered with yes about the caller
    at entry, by the installed authority, or by the permission controller and then only for calls through the driver;
    without a caller, or over RPC without an authority, it says no and asks nobody. *)
Theorem guard_admits_by_caller for_rpc expr d : names expr <> [] ->
  (unknown for_rpc d -> guard for_rpc expr d = (Ok false, d)) /\
  forall A (rest : M Desk StatusCode A) r d', guarded_arm for_rpc expr rest d = (r, d') ->
    r = Panic \/ r = Ok (inl (status_of_exception ExSecurity)) \/
    exists c d1 new, calling_caller (thread (process d)) = Some c /\ calling_caller (thread (process d1)) = Some c /\
      asked d1 = asked d ++ new /\ Forall (about for_rpc c) new /\
      enforce_condition (fun p => existsb (grants p) new) expr = true /\
      (let* a := rest in ret (inr a)) d1 = (r, d').
Proof using kept.
  intros Hn. split; [by apply guard_denied |]. intros A rest r d'. unfold guarded_arm.
  destruct (guard for_rpc expr d) as [[[|] | [] |] d1] eqn:Eg; [| intros [= <- <-]; auto | intros [= <- <-]; auto].
  intros Er. right. right. destruct (guard_checked _ _ _ _ _ Eg) as (new & E1 & E2 & E3 & E4).
  assert (exists c, caller_at (process d) = Some c) as [c Ec].
  { destruct (caller_at (process d)) eqn:Ec; [eauto |]. rewrite guard_denied in Eg; [done | done | by left]. }
  exists c, d1, new. unfold caller_at in *. split_and!; try done; [congruence | | by apply E4].
  apply Forall_forall. intros q Hq. destruct (E3 q Hq) as (c' & Hc' & Ha). by rewrite Ec in Hc'; injection Hc' as <-.
Qed.

(** Where checks answer as [o] does, the guard computes the condition of the expression. *)
Lemma guard_computes (I : Desk -> Prop) (o : string -> bool) for_rpc expr d :
  (forall p d, I d -> exists d', check_permission for_rpc p d = (Ok (o p), d') /\ I d') -> I d ->
  exists d', guard for_rpc expr d = (Ok (enforce_condition o expr), d') /\ I d'.
Proof.
  intros Hc. revert d. destruct expr as [p | ps | ps]; cbn [guard enforce_condition]; [by apply Hc | |];
    induction ps as [| p ps IH]; intros d Hd; cbn [all_of any_of forallb existsb]; try (by eexists);
    destruct (Hc p d Hd) as (d1 & E1 & H1); unfold bind; rewrite E1; destruct (o p); cbn; eauto.
Qed.

(** An authority that only decides: the guard is its decision about the caller. *)
Lemma authority_decides f for_rpc expr d c : (forall w, AUTHORITY w = Some (fun p c w => (Ok (f p c), w))) ->
  calling_caller (thread (process d)) = Some c -> exists d', guard for_rpc expr d = (Ok (enforce_condition (fun p => f p c) expr), d').
Proof.
  intros Ha Hc. destruct (guard_computes (fun d => calling_caller (thread (process d)) = Some c) (fun p => f p c) for_rpc expr d) as (d' & E & _); [| done | eauto].
  intros p e He. unfold check_permission, bind, get, on_process, log. rewrite Ha, He. by eexists.
Qed.
End Check.

(** * Calls through the driver *)

Section OverDriver.
Context `{ErrnoTable} (wait : UntilResponse -> T (option Reply)) (caller_wait : forall u, moves same_caller (wait u)).

(** The call of a proxy whose reply is decoded by [decode]; a call that never returns is none that returns. *)
Definition remote {A} (h code : Z) (data : Body) (decode : option Reply -> outcome Status A) : M ThreadState Status A := fun s =>
  match transact wait h code 0 data s with
  | (Ok r, s) => (decode r, s)
  | (Err (Code e), s) => (Err (status_of_code e), s)
  | (_, s) => (Panic, s)
  end.

Lemma same_caller_at s s' : same_caller true s s' -> calling_caller s' = calling_caller s.
Proof.
  intros [Ht Hr]; [done |]. unfold calling_caller. rewrite Hr. destruct (RPC_CALLING s); [done |].
  destruct (transaction s), (transaction s'); try done. cbn in *. by injection Ht as -> -> ->.
Qed.

(** The law of the calls, for those through the driver. *)
Lemma remote_keeps {A} h code data (decode : option Reply -> outcome Status A) : keeps (fun s => s) (remote h code data decode).
Proof using caller_wait.
  intros s r s'. unfold remote. destruct (transact wait h code 0 data s) as [q s1] eqn:Et. intros E Hr. apply same_caller_at.
  pose proof (caller_transact wait caller_wait h code 0 data _ _ _ Et) as Hq.
  destruct q as [x | [e | |] |]; injection E as E <-; try done; by rewrite <- E in Hr.
Qed.
End OverDriver.

(** * An executed run *)

(** The thread of [in_call] handles a call of user 3000; while it asks the controller, user 2000 calls in. *)

#[local] Existing Instance linux_errno.

#[local] Instance no_accessors : Bridge := {|
  Session := unit;
  Accessors.try_from _ := Err StBadType;
  getInstanceName _ := Err (status_of_code StDeadObject);
  addConnection _ := Err (status_of_code StDeadObject);
  from_preconnected_fd _ _ := Err StDeadObject;
  get_root _ := Err StDeadObject;
  into_sibinder _ _ := Err StDeadObject
|}.

Definition fixed_manager : Manager ThreadState := {|
  sm_getService _ := ret (Some 4%nat);
  sm_checkService _ := ret (Some 4%nat);
  sm_getService2 _ := throw (status_of_code StDeadObject);
  sm_checkService2 _ := throw (status_of_code StDeadObject);
  sm_addService _ _ := ret tt;
  sm_registerForNotifications _ _ := ret tt;
  sm_unregisterForNotifications _ _ := ret tt;
  sm_registerClientCallback _ _ _ := ret tt;
  sm_tryUnregisterService _ _ := ret tt;
  sm_listServices _ := ret [];
  sm_isDeclared _ := ret false;
  sm_getServiceDebugInfo := ret [];
  legacy_get _ := ret None;
  legacy_check _ := ret None;
  legacy_add _ _ := ret tt;
  legacy_list _ _ := throw StNameNotFound;
  sleep := ret tt
|}.

Local Abbreviation sample_wait := (wait_for_response 1000 50 false true sample_service None nothing nothing 20%nat).

(** "camera" for user 3000 only. *)
Definition ask_driver (pc : nat) (p : string) (pid uid : Z) : M ThreadState Status bool :=
  remote sample_wait (Z.of_nat pc) 1 empty_body (fun _ => Ok (String.eqb p "camera" && (uid =? 3000))).

Definition no_authority (s : ThreadState) : option (string -> Caller -> M ThreadState Empty_set bool) := None.

Lemma fixed_kept : CallerKept (fun s => s) no_authority (ret Android14) fixed_manager ask_driver.
Proof.
  split; try done; try (intros; by intros w r w' [= <- <-]).
  - intros n. split_and!; by intros w r w' [= <- <-].
  - intros pc p pid uid. apply remote_keeps.
    by apply (caller_wait_for_response 1000 50 false true sample_service None nothing nothing ltac:(done) ltac:(done) ltac:(done) 20).
Qed.

Local Abbreviation sample_guard := (guard (fun s => s) no_authority (ret Android14) fixed_manager true (fun _ => None) Ok ask_driver).

Definition camera : EnforcePermissionExpr := AnyOf ["camera"%string; "audio"%string].

Lemma guard_admits_by_caller_witness :
  sample_guard true camera (mkDesk in_call []) = (Ok false, mkDesk in_call []) /\
  exists c new, calling_caller in_call = Some c /\ caller_uid c = 3000 /\ Forall (about false c) new /\
    enforce_condition (fun p => existsb (grants p) new) camera = true.
Proof.
  split.
  - apply (guard_admits_by_caller (fun s => s) no_authority (ret Android14) fixed_manager true (fun _ => None) Ok ask_driver fixed_kept);
      [done | by right].
  - destruct (guard_admits_by_caller (fun s => s) no_authority (ret Android14) fixed_manager true (fun _ => None) Ok ask_driver fixed_kept
      false camera (mkDesk in_call []) ltac:(done)) as [_ H].
    destruct (H unit (ret tt) _ _ (surjective_pairing _)) as [E | [E | (c & d1 & new & E1 & _ & _ & E4 & E5 & _)]].
    + by vm_compute in E.
    + by vm_compute in E.
    + exists c, new. split_and!; try done. vm_compute in E1. by injection E1 as <-.
Defined.
