(* ===== verification/Holder.v ===== *)
(** Stability levels (src/rsbinder/src/binder.rs: [Stability], its two wire encodings) and the holder of a
    parcelable of any type (src/rsbinder/src/parcelable_holder.rs). A holder that was read keeps
    the bytes and decodes them when a type is asked for.

    The types that can be held are a parameter: a set of kinds with decidable equality (the [TypeId]s),
    each with its descriptor, default, writer and reader; the theorems ask of a kind what the codecs of
    Aidl.v have. The lock of the holder is taken for each operation, so one is a step. *)

From Stdlib Require Import ZArith Lia Strings.Byte.
From stdpp Require Import base list.
From S2P Require Import Prelude Errors Parcel ParcelSpec Parcelable Aidl.

(** ** Stability *)

Inductive Stability : Type := SLocal | SVendor | SSystem | SVintf.

Definition BINDER_WIRE_FORMAT_VERSION : Z := 1.

Definition android12_category_repr (level : Z) : Z := Z.lor (Z.shiftl level 24) BINDER_WIRE_FORMAT_VERSION.

(** [From<Stability> for i32]; [android12] on SDK 31 and 32. *)
Definition stability_to_i32 (android12 : bool) (s : Stability) : Z :=
  let level := match s with SLocal => 0 | SVendor => 3 | SSystem => 12 | SVintf => 63 end in
  if android12 then android12_category_repr level else level.

Definition stability_of_i32 (stability : Z) : outcome StatusCode Stability :=
  let level :=
    if negb (Z.land stability (Z.lnot 255) =? 0) then Z.land (Z.shiftr stability 24) 255
    else if stability =? BINDER_WIRE_FORMAT_VERSION then 0
    else stability in
  if level =? 0 then Ok SLocal
  else if level =? 3 then Ok SVendor
  else if level =? 12 then Ok SSystem
  else if level =? 63 then Ok SVintf
  else Err StBadValue.

Definition includes (android12 : bool) (self required : Stability) : bool :=
  Z.land (stability_to_i32 android12 self) (stability_to_i32 android12 required) =? stability_to_i32 android12 required.

Definition parcelable_stability_repr (s : Stability) : Z := match s with SVintf => 1 | _ => 0 end.

(** ** The holder *)

Section Holders.
Context `{PtrWidth} {K : Type} `{EqDecision K} (value : K -> Type) (descriptor : K -> list Z).
Context (kind_stability : K -> Stability) (default_of : forall k, value k).
(** [write_to_parcel] and [read_from_parcel] of the held types; the encoding of the process. *)
Context (write_kind : forall k, value k -> P unit) (read_kind : forall k, value k -> P (value k)) (android12 : bool).
(** What taking over a binder or descriptor of a copied block does. *)
Context (acquire : flat_binder_object -> outcome StatusCode unit) (dup_fd : Z -> outcome StatusCode Z).

Inductive ParcelableHolderData : Type :=
| HolderEmpty
| HolderParcelable (k : K) (parcelable : value k) (name : list Z)
| HolderParcel (p : Parcel).

Record ParcelableHolder : Type := mkHolder {
  holder_data : ParcelableHolderData;
  holder_stability : Stability
}.

Definition holder_new (s : Stability) : ParcelableHolder := mkHolder HolderEmpty s.
Definition holder_default : ParcelableHolder := holder_new SLocal.

Definition with_data (d : ParcelableHolderData) (h : ParcelableHolder) : ParcelableHolder :=
  mkHolder d (holder_stability h).

Definition reset (h : ParcelableHolder) : ParcelableHolder := with_data HolderEmpty h.

Definition set_parcelable (k : K) (p : value k) (h : ParcelableHolder) : outcome StatusCode ParcelableHolder :=
  if negb (includes android12 (kind_stability k) (holder_stability h)) then Err StBadValue
  else Ok (with_data (HolderParcelable k p (descriptor k)) h).

(** [downcast]. *)
Definition downcast (k k' : K) (v : value k) : option (value k') :=
  match decide (k = k') with left e => Some (eq_rect k value v k' e) | right _ => None end.

Definition get_parcelable (k : K) (h : ParcelableHolder) : outcome StatusCode (option (value k)) * ParcelableHolder :=
  match holder_data h with
  | HolderEmpty => (Ok None, h)
  | HolderParcelable k' v name =>
      if negb (bool_decide (name = descriptor k)) then (Err StBadValue, h)
      else match downcast k' k v with Some x => (Ok (Some x), h) | None => (Err StBadValue, h) end
  | HolderParcel parcel =>
      match de string_codec (set_pos 0 parcel) with
      | (Ok name, parcel) =>
          if negb (bool_decide (name = descriptor k)) then (Ok None, with_data (HolderParcel parcel) h)
          else
            match read_kind k (default_of k) parcel with
            | (Ok v, _) => (Ok (Some v), with_data (HolderParcelable k v name) h)
            | (Err e, parcel) => (Err e, with_data (HolderParcel parcel) h)
            | (Panic, parcel) => (Panic, with_data (HolderParcel parcel) h)
            end
      | (Err e, parcel) => (Err e, with_data (HolderParcel parcel) h)
      | (Panic, parcel) => (Panic, with_data (HolderParcel parcel) h)
      end
  end.

(** A length before what [m] writes, filled in afterwards; it does not count itself. *)
Definition with_length (m : P unit) : P unit :=
  let* length_start := data_position in
  let* _ := write_i32 0 in
  let* data_start := data_position in
  let* _ := m in
  let* end_ := data_position in
  let* _ := set_data_position length_start in
  if end_ <? data_start then panic
  else
    let* _ := write_i32 (wrap_i 32 (end_ - data_start)) in
    set_data_position end_.

Definition holder_write_to_parcel (h : ParcelableHolder) : P unit :=
  let* _ := write_i32 (parcelable_stability_repr (holder_stability h)) in
  match holder_data h with
  | HolderEmpty => write_i32 0
  | HolderParcelable k v name => with_length (let* _ := ser string_codec name in write_kind k v)
  | HolderParcel p => let* _ := write_i32 (wrap_i 32 (data_size p)) in append_all_from acquire dup_fd p
  end.

Definition holder_read_from_parcel (h : ParcelableHolder) : P ParcelableHolder :=
  let* wire_stability := read_i32 in
  if negb (parcelable_stability_repr (holder_stability h) =? wire_stability) then throw StBadValue
  else
    let* size := read_i32 in
    if size <? 0 then throw StBadValue
    else if size =? 0 then ret (with_data HolderEmpty h)
    else
      let* data_start := data_position in
      let* data_end := lift (ok_or (checked_add data_start size) StBadValue) in
      let* p := get in
      match append_from acquire dup_fd p data_start size parcel_new with
      | (Ok _, new_parcel) =>
          let* _ := set_data_position data_end in ret (with_data (HolderParcel new_parcel) h)
      | (Err e, _) => throw e
      | (Panic, _) => panic
      end.

Definition holder_serialize (h : ParcelableHolder) : P unit :=
  let* _ := write_i32 NON_NULL_PARCELABLE_FLAG in holder_write_to_parcel h.

Definition holder_deserialize_from (h : ParcelableHolder) : P ParcelableHolder :=
  let* status := read_i32 in
  if status =? NULL_PARCELABLE_FLAG then throw StUnexpectedNull
  else if status =? NON_NULL_PARCELABLE_FLAG then holder_read_from_parcel h
  else throw StUnexpectedNull.

Definition holder_deserialize : P ParcelableHolder := holder_deserialize_from holder_default.

(** * What a holder means *)

(** The block of a held value, and the block of the holder. *)
Definition block (wire_of : forall k, value k -> list byte) (d : ParcelableHolderData) : list byte :=
  match d with
  | HolderEmpty => []
  | HolderParcelable k v name => string_wire name ++ wire_of k v
  | HolderParcel p => data p
  end.

Definition holder_wire (wire_of : forall k, value k -> list byte) (h : ParcelableHolder) : list byte :=
  to_le 4 (parcelable_stability_repr (holder_stability h)) ++
  to_le 4 (zlen (block wire_of (holder_data h))) ++ block wire_of (holder_data h).

(** ** Stability levels *)

Lemma stability_roundtrip a s : stability_of_i32 (stability_to_i32 a s) = Ok s.
Proof. by destruct a, s. Qed.

Lemma includes_levels a s r : includes a s r = true <->
  match s, r with SVintf, _ | _, SLocal | SVendor, SVendor | SSystem, SSystem => True | _, _ => False end.
Proof. destruct a, s, r; vm_compute; split; done. Qed.

(** ** Blocks *)

Lemma writes_length m w : writes m w -> writes (with_length m) (to_le 4 (zlen w) ++ w).
Proof.
  intros Hm p Ha Hp. pose proof (writes_bind _ _ _ _ (writes_i32 0) Hm p Ha Hp) as Hw.
  rewrite zlen_app, zlen_to_le in *. unfold with_length, bind in *. unfold data_position.
  pose proof (writes_i32 0 p Ha Hp) as H0. rewrite zlen_to_le in H0. pose proof (zlen_nonneg w).
  revert Hw. change (Z.of_nat 4) with 4 in *. case_leb; intros Hw.
  - rewrite (proj2 (Z.leb_le _ _)) in H0 by lia. rewrite H0 in *. rewrite Hw. cbn [pos data set_pos set_data appended].
    destruct Ha as [Hb Hpos]. unfold set_data_position, modify. rewrite zlen_app, zlen_to_le. change (Z.of_nat 4) with 4.
    rewrite (proj2 (Z.ltb_ge _ _)) by lia. rewrite Hpos. unfold write_i32, write_word.
    erewrite (write_overwrite _ (data p) (to_le 4 0)); [| done.. |].
    + rewrite wrap_i_small; [| done | unfold in_i, i32_max in *; simpl; zlen_lia].
      replace (zlen (data p) + (4 + zlen w) - (zlen (data p) + 4)) with (zlen w) by lia.
      unfold appended. rewrite (zlen_app (to_le 4 (zlen w))), zlen_to_le. done.
    + simpl. rewrite zlen_app, zlen_app, zlen_to_le. lia.
  - destruct (write_i32 0 p) as [[[] | e |] q]; try done. destruct (m q) as [[[] | e |] q2]; done.
Qed.

Lemma end_position_small pos n : 0 <= pos -> 0 <= n -> pos <= i32_max -> n <= i32_max ->
  end_position pos n = if pos + n <=? i32_max then Ok (pos + n) else Err StBadValue.
Proof.
  intros H1 H2 H3 H4. unfold end_position. rewrite checked_add_small; [done |]. unfold i32_max, u32_max in *. lia.
Qed.

Lemma copied_none off n : copied_objects off n [] = [].
Proof. done. Qed.

(** Appending a block without objects. *)
Lemma writes_append_all q :
  objects q = [] -> 0 <= pos q <= zlen (data q) -> zlen (data q) <= i32_max ->
  writes (append_all_from acquire dup_fd q) (data q).
Proof.
  intros Ho Hq Hl p Ha Hp. pose proof (zlen_nonneg (data q)). pose proof (zlen_nonneg (data p)).
  unfold append_all_from, append_from, append_data. unfold data_size.
  replace (if pos q <? zlen (data q) then zlen (data q) else pos q) with (zlen (data q)) by (destruct (Z.ltb_spec (pos q) (zlen (data q))); lia).
  destruct (Z.eqb_spec (zlen (data q)) 0) as [Hz | Hz].
  { apply zlen_zero_nil in Hz. rewrite Hz, zlen_nil, Z.add_0_r, (proj2 (Z.leb_le _ _)) by done. by rewrite appended_nil. }
  rewrite (proj2 (Z.ltb_ge i32_max _)) by lia. rewrite !(proj2 (Z.ltb_ge (zlen (data q)) _)) by lia. cbn [orb].
  rewrite Ho, copied_none. destruct Ha as [Hb Hpos].
  assert (He : end_position (pos p) (zlen (data q))
             = if zlen (data p) + zlen (data q) <=? i32_max then Ok (zlen (data p) + zlen (data q)) else Err StBadValue)
    by (rewrite end_position_small by lia; by rewrite Hpos).
  destruct (Z.leb_spec (zlen (data p) + zlen (data q)) i32_max); unfold bind, data_position, lift; rewrite He; [| done].
  unfold reserve, modify, set_data_position, get. rewrite Hb, Hpos. cbn.
  rewrite zdrop_0, ztake_all by lia. rewrite splice_end, Z.sub_diag by lia.
  change (zeros 0) with (@nil byte). by rewrite app_nil_r.
Qed.

(** The parcel that a block is copied into. *)
Definition raw (bs : list byte) : Parcel := appended bs parcel_new.

Lemma raw_pos bs : set_pos (zlen bs) (raw bs) = raw bs.
Proof. done. Qed.

Lemma append_raw p pre bs post :
  objects p = [] -> data p = pre ++ bs ++ post -> 0 < zlen bs -> zlen (data p) <= i32_max ->
  append_from acquire dup_fd p (zlen pre) (zlen bs) parcel_new = (Ok tt, raw bs).
Proof.
  intros Ho Hd Hn Hl. pose proof (zlen_nonneg pre). pose proof (zlen_nonneg post).
  assert (El : zlen (data p) = zlen pre + zlen bs + zlen post) by (rewrite Hd, !zlen_app; lia).
  unfold append_from, append_data. rewrite (proj2 (Z.eqb_neq _ _)), (proj2 (Z.ltb_ge i32_max _)) by lia.
  rewrite !(proj2 (Z.ltb_ge (zlen (data p)) _)) by lia. cbn [orb]. rewrite Ho, copied_none.
  unfold bind, data_position, lift. cbn [pos parcel_new]. rewrite end_position_small by (unfold i32_max in *; lia).
  rewrite (proj2 (Z.leb_le _ _)) by lia. cbn. unfold raw, appended. cbn. repeat f_equal.
  rewrite Hd, zdrop_app_r, Z.sub_diag, zdrop_0, ztake_app_l, ztake_all by lia.
  pose proof (splice_end [] bs (zlen bs) ltac:(lia)) as Hs. rewrite zlen_nil, Z.sub_diag, app_nil_r in Hs. apply Hs.
Qed.

(** ** Writing and reading *)

Section Held.
Context (wire_of : forall k, value k -> list byte).

Definition well_held (d : ParcelableHolderData) : Prop :=
  match d with
  | HolderEmpty => True
  | HolderParcelable k v name => string_valid name /\ writes (write_kind k v) (wire_of k v)
  | HolderParcel q => objects q = [] /\ 0 <= pos q <= zlen (data q) /\ zlen (data q) <= i32_max
  end.

Lemma writes_holder h : well_held (holder_data h) -> writes (holder_write_to_parcel h) (holder_wire wire_of h).
Proof.
  intros Hw. unfold holder_write_to_parcel, holder_wire. apply writes_bind; [apply writes_i32 |].
  destruct (holder_data h) as [| k v name | q]; cbn [block].
  - rewrite app_nil_r. apply writes_i32.
  - destruct Hw as [Hn Hv]. apply writes_length. apply writes_bind; [by apply (string_writes name) | done].
  - destruct Hw as (Ho & Hp & Hl). pose proof (zlen_nonneg (data q)).
    replace (data_size q) with (zlen (data q)) by (unfold data_size; destruct (Z.ltb_spec (pos q) (zlen (data q))); lia).
    rewrite wrap_i_small; [| done | unfold in_i, i32_max in *; simpl; lia].
    apply writes_bind; [apply writes_i32 | by apply writes_append_all].
Qed.

Lemma repr_range s : in_i 32 (parcelable_stability_repr s).
Proof. destruct s; by vm_compute. Qed.

(** A block of a holder at the cursor is kept as it is. *)
Lemma read_holder h0 st bs p pre post :
  parcelable_stability_repr (holder_stability h0) = parcelable_stability_repr st -> 0 < zlen bs ->
  readable p -> nested_read_depth p <= MAX_NESTED_READ_DEPTH -> objects p = [] ->
  data p = pre ++ (to_le 4 (parcelable_stability_repr st) ++ to_le 4 (zlen bs) ++ bs) ++ post -> pos p = zlen pre ->
  holder_read_from_parcel h0 p = (Ok (with_data (HolderParcel (raw bs)) h0), set_pos (pos p + (8 + zlen bs)) p).
Proof.
  intros Hs Hb Hr Hn Ho Hd Hp. pose proof (zlen_nonneg pre). pose proof (zlen_nonneg post).
  assert (El : zlen (data p) = zlen pre + 8 + zlen bs + zlen post)
    by (rewrite Hd, !zlen_app, !zlen_to_le; change (Z.of_nat 4) with 4; lia).
  assert (Hi : in_i 32 (zlen bs)) by (destruct Hr; unfold in_i, i32_max in *; simpl; lia).
  rewrite <- !app_assoc in Hd.
  pose proof (decodes_i32 _ 0 (repr_range st) p pre _ Hr ltac:(lia) Hd Hp) as D1. rewrite zlen_to_le in D1.
  set (p1 := set_pos (pos p + Z.of_nat 4) p) in *. assert (Hr1 : readable p1) by (destruct Hr; split; [cbn; lia | done]).
  assert (Hp1 : pos p1 = zlen (pre ++ to_le 4 (parcelable_stability_repr st))) by (cbn; rewrite zlen_app, zlen_to_le; lia).
  assert (Hd1 : data p1 = (pre ++ to_le 4 (parcelable_stability_repr st)) ++ to_le 4 (zlen bs) ++ bs ++ post)
    by (cbn; by rewrite <- app_assoc).
  pose proof (decodes_i32 _ 0 Hi p1 _ _ Hr1 ltac:(cbn; lia) Hd1 Hp1) as D2. rewrite zlen_to_le in D2.
  unfold holder_read_from_parcel. rewrite (bind_ok _ _ _ _ _ D1), Hs, Z.eqb_refl. cbn [negb].
  rewrite (bind_ok _ _ _ _ _ D2), (proj2 (Z.ltb_ge _ _)), (proj2 (Z.eqb_neq _ _)) by lia.
  set (p2 := set_pos (pos p1 + Z.of_nat 4) p1). unfold bind at 1, data_position at 1. unfold bind at 1, lift.
  rewrite checked_add_small by (destruct Hr; unfold u32_max, i32_max in *; cbn; lia). cbn [ok_or].
  unfold bind at 1, get at 1.
  assert (Ep : pos p2 = zlen (pre ++ to_le 4 (parcelable_stability_repr st) ++ to_le 4 (zlen bs)))
    by (cbn; rewrite !zlen_app, !zlen_to_le; lia).
  rewrite Ep. rewrite (append_raw p2 _ bs post);
    [| done | cbn; rewrite Hd; by rewrite <- !app_assoc | done | cbn; destruct Hr; lia].
  unfold bind, set_data_position, modify, ret. cbn. unfold p2, p1. rewrite !set_pos_set_pos, !zlen_app, !zlen_to_le. do 2 f_equal. lia.
Qed.

(** ** Taking the value out *)

Lemma downcast_same k v : downcast k k v = Some v.
Proof.
  unfold downcast. destruct (decide (k = k)) as [e |]; [| done].
  by rewrite (Eqdep_dec.UIP_dec EqDecision0 e eq_refl).
Qed.

(** A copied block that has a value, at any cursor. *)
Lemma take_held k v st n depth :
  string_valid (descriptor k) -> decodes (read_kind k (default_of k)) v (wire_of k v) depth ->
  depth <= MAX_NESTED_READ_DEPTH -> zlen (string_wire (descriptor k) ++ wire_of k v) < i32_max ->
  let bs := string_wire (descriptor k) ++ wire_of k v in
  let h := mkHolder (HolderParcel (set_pos n (raw bs))) st in
  get_parcelable k h = (Ok (Some v), mkHolder (HolderParcelable k v (descriptor k)) st) /\
  (forall k', descriptor k' <> descriptor k -> exists m, 0 <= m <= zlen bs /\
     get_parcelable k' h = (Ok None, mkHolder (HolderParcel (set_pos m (raw bs))) st)).
Proof.
  intros Hs Hv Hn Hl bs h. set (q := set_pos 0 (raw bs)).
  assert (Hr : readable q) by (split; [done |]; cbn; done).
  pose proof (law_decodes (c := string_codec) (descriptor k) Hs q [] (wire_of k v) Hr ltac:(cbn; done) eq_refl eq_refl) as D1.
  cbn [wire string_format] in D1. change (pos q) with 0 in D1. rewrite Z.add_0_l in D1.
  pose proof (zlen_nonneg (string_wire (descriptor k))). pose proof (zlen_nonneg (wire_of k v)).
  set (q1 := set_pos (zlen (string_wire (descriptor k))) q) in *.
  assert (Eq : set_pos 0 (set_pos n (raw bs)) = q) by (unfold q; apply set_pos_set_pos). split.
  - unfold get_parcelable. cbn [holder_data h]. rewrite Eq, D1, bool_decide_eq_true_2 by done. cbn [negb].
    rewrite (Hv q1 (string_wire (descriptor k)) []); [done | split; [cbn; lia | done] | cbn; lia | | done].
    cbn. by rewrite app_nil_r.
  - intros k' Hk. exists (zlen (string_wire (descriptor k))). split; [unfold bs; rewrite zlen_app; lia |].
    unfold get_parcelable. cbn [holder_data h]. rewrite Eq, D1, bool_decide_eq_false_2 by (intros E; by apply Hk). cbn [negb].
    unfold q1, q. by rewrite set_pos_set_pos.
Qed.

(** Once the block is decoded, or a value was set, asking for another type is an error; the
    documentation of [get_parcelable] has [Ok(None)]. *)
Lemma decoded_mismatch k k' v st :
  descriptor k' <> descriptor k ->
  let h := mkHolder (HolderParcelable k v (descriptor k)) st in get_parcelable k' h = (Err StBadValue, h).
Proof. intros Hk h. unfold get_parcelable. cbn [holder_data h]. by rewrite bool_decide_eq_false_2 by congruence. Qed.

(** C34: A holder carries a value of any type it may hold: what it writes is read by any holder of the same
    stability as an undecoded block, which asked for the type gives back the value, once or more
    often, asked for another type first has none and keeps the block, and written again, decoded or not, gives the same bytes. *)
Theorem holder_roundtrip k v st depth :
  string_valid (descriptor k) -> writes (write_kind k v) (wire_of k v) ->
  decodes (read_kind k (default_of k)) v (wire_of k v) depth -> depth <= MAX_NESTED_READ_DEPTH ->
  zlen (string_wire (descriptor k) ++ wire_of k v) < i32_max ->
  let h := mkHolder (HolderParcelable k v (descriptor k)) st in
  let bytes := to_le 4 NON_NULL_PARCELABLE_FLAG ++ holder_wire wire_of h in
  writes (holder_serialize h) bytes /\
  forall p pre post h0, readable p -> nested_read_depth p <= MAX_NESTED_READ_DEPTH -> objects p = [] ->
    data p = pre ++ bytes ++ post -> pos p = zlen pre -> holder_stability h0 = st ->
    exists h1, holder_deserialize_from h0 p = (Ok h1, set_pos (pos p + zlen bytes) p) /\
      writes (holder_serialize h1) bytes /\
      get_parcelable k h1 = (Ok (Some v), h) /\ get_parcelable k h = (Ok (Some v), h) /\
      (forall k', descriptor k' <> descriptor k ->
         exists h2, get_parcelable k' h1 = (Ok None, h2) /\
           get_parcelable k h2 = (Ok (Some v), h) /\ writes (holder_serialize h2) bytes).
Proof.
  intros Hs Hw Hv Hn Hl h bytes. set (bs := string_wire (descriptor k) ++ wire_of k v) in *.
  assert (Hraw : forall n, 0 <= n <= zlen bs ->
    writes (holder_serialize (mkHolder (HolderParcel (set_pos n (raw bs))) st)) bytes).
  { intros n Hx. apply writes_bind; [apply writes_i32 |].
    apply (writes_holder (mkHolder (HolderParcel (set_pos n (raw bs))) st)). split_and!; [done | cbn; lia.. |]. cbn. lia. }
  split; [by apply writes_bind; [apply writes_i32 | apply (writes_holder h)] |].
  intros p pre post h0 Hr Hd Ho Ed Ep Est. unfold bytes in Ed. rewrite <- app_assoc in Ed.
  pose proof (string_wire_ok (descriptor k)) as [Hb _]. pose proof (zlen_nonneg (wire_of k v)).
  assert (Hbs : 0 < zlen bs) by (unfold bs; rewrite zlen_app; lia).
  pose proof (decodes_i32 NON_NULL_PARCELABLE_FLAG 0 ltac:(by vm_compute) p pre _ Hr ltac:(lia) Ed Ep) as D1.
  rewrite zlen_to_le in D1. change (Z.of_nat 4) with 4 in D1. pose proof (zlen_nonneg pre).
  set (p1 := set_pos (pos p + 4) p) in *.
  assert (R : holder_read_from_parcel h0 p1 = (Ok (with_data (HolderParcel (raw bs)) h0), set_pos (pos p1 + (8 + zlen bs)) p1)).
  { apply (read_holder h0 st bs p1 (pre ++ to_le 4 NON_NULL_PARCELABLE_FLAG) post); try done.
    - by rewrite Est.
    - destruct Hr. split; [cbn; lia | done].
    - change (data p1) with (data p). rewrite Ed. unfold holder_wire, h. cbn [holder_data holder_stability block].
      fold bs. by rewrite <- !app_assoc.
    - cbn [pos set_pos p1]. rewrite zlen_app, zlen_to_le. lia. }
  exists (mkHolder (HolderParcel (raw bs)) st).
  rewrite <- (raw_pos bs).
  destruct (take_held k v st (zlen bs) depth Hs Hv Hn Hl) as [G1 G2]. split_and!.
  - unfold holder_deserialize_from. rewrite (bind_ok _ _ _ _ _ D1).
    change (NON_NULL_PARCELABLE_FLAG =? NULL_PARCELABLE_FLAG) with false.
    change (NON_NULL_PARCELABLE_FLAG =? NON_NULL_PARCELABLE_FLAG) with true. cbv iota.
    rewrite R. unfold with_data. rewrite Est, raw_pos. f_equal.
    unfold p1. rewrite set_pos_set_pos. f_equal. unfold bytes, holder_wire. rewrite !zlen_app, !zlen_to_le. cbn. unfold bs. lia.
  - apply Hraw. lia.
  - done.
  - unfold get_parcelable. cbn [holder_data h]. rewrite bool_decide_eq_true_2 by done. cbn [negb]. by rewrite downcast_same.
  - intros k' Hk.
    destruct (G2 k' Hk) as (m & Hm & Em). eexists. split; [exact Em |].
    split; [apply (take_held k v st m depth Hs Hv Hn Hl) | by apply Hraw].
Qed.
End Held.
End Holders.

(** * Example: AIDL structs in a holder *)

Definition held_types (k : bool) : tys := if k then demo_types else TCons TI32 TNil.
Definition held_name (k : bool) : list Z := if k then [68; 101; 109; 111] else [73; 110; 116].
Definition held_value (k : bool) : Type := struct_val (held_types k).
Definition held_write (k : bool) : held_value k -> P unit := @write_struct ptr64 _ (@fields_of ptr64 zero_of (held_types k)).
Definition held_read (k : bool) : held_value k -> P (held_value k) := @read_struct ptr64 _ (@fields_of ptr64 zero_of (held_types k)).
Definition held_zero (k : bool) : held_value k := zeros_of (held_types k).
Definition held_wire (k : bool) (v : held_value k) : list byte := struct_body (@fields_format_of ptr64 (held_types k)) v.

Definition held_holder : ParcelableHolder held_value :=
  mkHolder held_value (HolderParcelable held_value true demo_value (held_name true)) SVintf.

Definition held_bytes : list byte :=
  to_le 4 NON_NULL_PARCELABLE_FLAG ++ holder_wire held_value held_wire held_holder.

Definition no_acquire (_ : flat_binder_object) : outcome StatusCode unit := Ok tt.
Definition no_dup (fd : Z) : outcome StatusCode Z := Ok fd.

Lemma holder_roundtrip_witness :
  let p := from_vec (held_bytes ++ [x09]) in
  exists h1,
    @holder_deserialize_from ptr64 bool held_value no_acquire no_dup (holder_new held_value SVintf) p
      = (Ok h1, set_pos (zlen held_bytes) p) /\
    fst (@get_parcelable ptr64 bool _ held_value held_name held_zero held_read false h1) = Ok None /\
    @get_parcelable ptr64 bool _ held_value held_name held_zero held_read true h1 = (Ok (Some demo_value), held_holder).
Proof.
  intros p.
  destruct (@holder_roundtrip ptr64 bool _ held_value held_name held_zero held_write held_read no_acquire no_dup held_wire
              true demo_value SVintf (struct_nest (@fields_format_of ptr64 demo_types) demo_value)) as [_ H].
  - unfold string_valid. split_and!; [| by vm_compute ..]. unfold held_name. repeat constructor; unfold scalar; lia.
  - apply writes_sized. apply writes_fields; [apply fields_laws | apply demo_valid].
  - apply struct_decodes; [apply fields_laws | apply demo_valid].
  - vm_compute. congruence.
  - vm_compute. congruence.
  - destruct (H p [] [x09] (holder_new held_value SVintf)) as (h1 & E1 & _ & E2 & _ & E3); try done.
    exists h1. split; [exact E1 |]. split; [| exact E2].
    destruct (E3 false ltac:(done)) as (h2 & E4 & _). by rewrite E4.
Defined.
