(* ===== verification/ParcelObjects.v ===== *)
(** Binders and file descriptors in parcels (src/rsbinder/src/binder_object.rs: the conversion of a
    binder, [acquire] and [release]; src/rsbinder/src/parcelable.rs: binders in kernel
    parcels; src/rsbinder/src/file_descriptor.rs; src/rsbinder/src/parcel.rs: [write_object],
    [append_from], [release_objects] and [Drop]; src/rsbinder/src/native.rs: the stability and
    flags of a native binder).

    An operation changes the parcel and the process: the table of published binders, the open
    descriptors, the native binders. One thread runs here; what other threads do to the table is
    the subject of NativeTable.v. Duplicating a descriptor and the lookup of a proxy are parameters, the
    latter modelled in ProxyCache.v; the hooks of an RPC session are Binders.v. *)

From Stdlib Require Import ZArith Lia Strings.Byte.
From stdpp Require Import base gmap list sorting.
From S2P Require Import Prelude Errors NativeTable Parcel ParcelSpec Parcelable Holder.

(** ** Native binders *)

Record BinderFeatures : Type := mkFeatures {
  set_requesting_sid : bool;
  min_sched_policy : option Z;
  min_priority : option Z;
  inherit_rt : bool
}.

Definition FLAT_BINDER_FLAG_PRIORITY_MASK : Z := 255.
Definition FLAT_BINDER_FLAG_ACCEPTS_FDS : Z := 256.
Definition FLAT_BINDER_FLAG_INHERIT_RT : Z := 2048.
Definition FLAT_BINDER_FLAG_TXN_SECURITY_CTX : Z := 4096.
Definition FLAT_BINDER_FLAG_SCHED_POLICY_SHIFT : Z := 9.
Definition FLAT_BINDER_FLAG_SCHED_POLICY_VALUE_MASK : Z := 3.

Definition flat_flags (b : BinderFeatures) : Z :=
  let f := FLAT_BINDER_FLAG_ACCEPTS_FDS in
  let f := if set_requesting_sid b then Z.lor f FLAT_BINDER_FLAG_TXN_SECURITY_CTX else f in
  let f := match min_priority b with
           | Some priority => Z.lor f (Z.land (wrap_u 32 priority) FLAT_BINDER_FLAG_PRIORITY_MASK)
           | None => f
           end in
  let f := match min_sched_policy b with
           | Some policy => Z.lor f (Z.shiftl (Z.land (wrap_u 32 policy) 3) 9)
           | None => f
           end in
  if inherit_rt b then Z.lor f FLAT_BINDER_FLAG_INHERIT_RT else f.

Definition stability_to_tag (s : Stability) : Z :=
  match s with SLocal => 0 | SVendor => 1 | SSystem => 2 | SVintf => 3 end.

(** Other tags are unreachable. *)
Definition stability_from_tag (tag : Z) : outcome StatusCode Stability :=
  if tag =? 0 then Ok SLocal else if tag =? 1 then Ok SVendor
  else if tag =? 2 then Ok SSystem else if tag =? 3 then Ok SVintf else Panic.

Record Inner : Type := mkInner { stability : Z; parceled : bool; binder_flags : Z }.

Definition new_with_stability_and_features (s : Stability) (features : BinderFeatures) : Inner :=
  mkInner (stability_to_tag s) false (flat_flags features).

Definition set_stability_guarded (level : Stability) (i : Inner) : outcome StatusCode Inner :=
  if parceled i then Err StInvalidOperation
  else Ok (mkInner (stability_to_tag level) (parceled i) (binder_flags i)).

Definition force_downgrade_to_system_stability : Inner -> outcome StatusCode Inner := set_stability_guarded SSystem.
Definition force_downgrade_to_vendor_stability : Inner -> outcome StatusCode Inner := set_stability_guarded SVendor.
Definition mark_vintf : Inner -> outcome StatusCode Inner := set_stability_guarded SVintf.
Definition set_parceled (i : Inner) : Inner := mkInner (stability i) true (binder_flags i).

(** A reference to a binder: a native one by its allocation, a proxy by its handle. *)
Inductive SIBinder : Type :=
| Native (a : nat)
| Proxy (handle : Z) (level : Stability).

(** ** The process *)

(** [inners] has the binders of the library's own type; a binder of another type has the defaults of
    the trait. [double_closes] has the descriptors that were closed when they were not open. *)
Record World : Type := mkWorld {
  natives : Table;
  inners : gmap nat Inner;
  open_fds : gset Z;
  double_closes : list Z
}.

Definition set_natives (t : Table) (w : World) : World := mkWorld t (inners w) (open_fds w) (double_closes w).
Definition set_inners (m : gmap nat Inner) (w : World) : World := mkWorld (natives w) m (open_fds w) (double_closes w).
Definition set_open (s : gset Z) (w : World) : World := mkWorld (natives w) (inners w) s (double_closes w).

(** [OwnedFd::drop]. *)
Definition close (fd : Z) (w : World) : World :=
  if decide (fd ∈ open_fds w) then set_open (open_fds w ∖ {[fd]}) w
  else mkWorld (natives w) (inners w) (open_fds w) (fd :: double_closes w).

Definition close_all (fds : list Z) (w : World) : World := fold_left (fun w fd => close fd w) fds w.

Record Ctx : Type := mkCx { world : World; parcel : Parcel }.

Abbreviation W := (M World StatusCode).
Abbreviation K := (M Ctx StatusCode).

Definition on_parcel {A} (m : P A) : K A := fun c => let (r, p) := m (parcel c) in (r, mkCx (world c) p).
Definition on_world {A} (m : W A) : K A := fun c => let (r, w) := m (world c) in (r, mkCx w (parcel c)).

(** A descriptor that is owned while [m] runs: an exit other than the end closes it. *)
Definition owning {A} (fd : Z) (m : K A) : K A := fun c =>
  match m c with
  | (Ok a, c) => (Ok a, c)
  | (r, c) => (r, mkCx (close fd (world c)) (parcel c))
  end.

Section Objects.
Context `{PtrWidth} `{ErrnoTable}.
(** The encoding of stability of the process, whether the platform has it in parcels, the build, and the setting of the process. *)
Context (android12 sdk30 debug_assertions background_scheduling_disabled : bool).
(** The stability of the proxy that the cache gives for a handle. *)
Context (strong_proxy_for_handle_stability : Z -> Stability -> outcome StatusCode Stability).
(** [fcntl(F_DUPFD_CLOEXEC)]: an errno or the new descriptor. *)
Context (fcntl_dupfd_cloexec : gset Z -> Z -> Z + Z).
(** The hooks of the session of an RPC parcel. *)
Context (rpc_write_binder : option SIBinder -> K unit) (rpc_read_binder : K (option SIBinder)).

Definition dup_fd (fd : Z) : W Z := fun w =>
  match fcntl_dupfd_cloexec (open_fds w) fd with
  | inl errno => (Err (status_of_errno errno), w)
  | inr newfd => (Ok newfd, set_open ({[newfd]} ∪ open_fds w) w)
  end.

(** ** Objects *)

(** [fresh]: the object comes from [From<&SIBinder>], not from another parcel. The proxy of a handle is looked
    up and its [increase] does nothing; so does its [decrease] below. *)
Definition acquire (fresh : bool) (obj : flat_binder_object) : W unit := fun w =>
  if fbo_type obj =? BINDER_TYPE_BINDER then
    let id := fbo_binder obj in
    if negb (id =? 0) then
      let t := if fresh then set_writing (remove_one id (writing (natives w))) (natives w) else natives w in
      let w := set_natives (acquire_object id t) w in
      if negb (fst (incref_publish id t)) && debug_assertions then (Panic, w) else (Ok tt, w)
    else (Ok tt, w)
  else if fbo_type obj =? BINDER_TYPE_HANDLE then
    match strong_proxy_for_handle_stability (flat_handle obj) SSystem with
    | Ok _ => (Ok tt, w)
    | Err e => (Err e, w)
    | Panic => (Panic, w)
    end
  else if fbo_type obj =? BINDER_TYPE_FD then (Ok tt, w)
  else (Err StInvalidOperation, w).

(** [decref_publish], and the removal when the entry is unused. *)
Definition unpublish (id : Z) (t : Table) : bool * Table :=
  let t := NativeTable.set_objects (remove_one id (NativeTable.objects t)) t in
  let (found, t) := decref_publish id t in
  (found, if existsb (Z.eqb id) (removing t) then remove_entry_if_zero id (set_removing (remove_one id (removing t)) t) else t).

(** The assertions of a debug build are about an unknown id and a count of zero. *)
Definition release (obj : flat_binder_object) : W unit := fun w =>
  if fbo_type obj =? BINDER_TYPE_BINDER then
    let id := fbo_binder obj in
    if negb (id =? 0) then
      let asserted :=
        match published_natives (natives w) !! id with Some e => publish_count e =? 0 | None => true end in
      let w := set_natives (snd (unpublish id (natives w))) w in
      if asserted && debug_assertions then (Panic, w) else (Ok tt, w)
    else (Ok tt, w)
  else if fbo_type obj =? BINDER_TYPE_HANDLE then
    match strong_proxy_for_handle_stability (flat_handle obj) SSystem with
    | Ok _ => (Ok tt, w)
    | Err e => (Err e, w)
    | Panic => (Panic, w)
    end
  else if fbo_type obj =? BINDER_TYPE_FD then
    (Ok tt, if negb (fbo_cookie obj =? 0) then close (flat_handle obj) w else w)
  else (Err StInvalidOperation, w).

Definition sched_policy_mask (policy priority : Z) : Z :=
  Z.lor (Z.land priority FLAT_BINDER_FLAG_PRIORITY_MASK)
        (Z.shiftl (Z.land policy FLAT_BINDER_FLAG_SCHED_POLICY_VALUE_MASK) FLAT_BINDER_FLAG_SCHED_POLICY_SHIFT).

Definition local_binder_flags (a : nat) (w : World) : Z := default 0 (binder_flags <$> inners w !! a).

(** The flags of a native binder: an explicit priority or policy replaces the default one. *)
Definition effective_flags (local sched_bits : Z) : Z :=
  let sched_mask := Z.lor FLAT_BINDER_FLAG_PRIORITY_MASK
                      (Z.shiftl FLAT_BINDER_FLAG_SCHED_POLICY_VALUE_MASK FLAT_BINDER_FLAG_SCHED_POLICY_SHIFT) in
  let effective_sched := if negb (Z.land local sched_mask =? 0) then Z.land local sched_mask else sched_bits in
  Z.lor (Z.ldiff local sched_mask) effective_sched.

(** [From<&SIBinder> for flat_binder_object]. *)
Definition flat_of_binder (b : SIBinder) : W flat_binder_object := fun w =>
  let sched_bits := if negb background_scheduling_disabled then sched_policy_mask 0 19 else 0 in
  match b with
  | Proxy handle _ => (Ok (new_handle handle sched_bits), w)
  | Native a =>
      let (id, t) := publish_native a (natives w) in
      (Ok (mkFlat BINDER_TYPE_BINDER (effective_flags (local_binder_flags a w) sched_bits) id 0),
       set_natives (set_writing (id :: writing t) t) w)
  end.

Definition write_object (obj : flat_binder_object) (null_meta : bool) : K unit :=
  let* p := on_parcel get in
  if is_for_rpc p then on_parcel (write_aligned_data (flat_bytes obj))
  else
    let* _ := on_parcel (write_aligned_data (flat_bytes obj)) in
    if null_meta || negb (fbo_binder obj =? 0) then
      let* _ := on_world (acquire true obj) in on_parcel (push_object (pos p))
    else ret tt.

(** ** Copies *)

Definition adopt_object (offset start_pos src : Z) : K unit :=
  let off := wrap_u ptr_bits (src - offset + start_pos) in
  let* p := on_parcel get in
  let* flat := lift (read_flat_binder (data p) off) in
  let* _ := on_world (acquire false flat) in
  let* _ :=
    (if fbo_type flat =? BINDER_TYPE_FD then
       let* newfd := on_world (dup_fd (flat_handle flat)) in
       let* d := lift (write_flat_binder (data p) off (flat_set_cookie 1 (flat_set_handle newfd flat))) in
       on_parcel (modify (set_data d))
     else ret tt) in
  on_parcel (push_object off).

Fixpoint adopt_objects (offset start_pos : Z) (srcs : list Z) : K unit :=
  match srcs with
  | [] => ret tt
  | src :: srcs => let* _ := adopt_object offset start_pos src in adopt_objects offset start_pos srcs
  end.

Definition append_from (other : Parcel) (offset size : Z) : K unit :=
  let* found := on_parcel (append_data other offset size) in
  adopt_objects offset found.1 found.2.

(** ** The end of a parcel *)

(** A position that cannot be read and an error of a release are logged. *)
Fixpoint release_each (d : list byte) (positions : list Z) : W unit :=
  match positions with
  | [] => ret tt
  | x :: positions =>
      match read_flat_binder d x with
      | Ok obj => fun w =>
          match release obj w with
          | (Panic, w) => (Panic, w)
          | (_, w) => release_each d positions w
          end
      | _ => release_each d positions
      end
  end.

Definition release_objects (p : Parcel) : W unit :=
  if is_for_rpc p then ret tt else release_each (data p) (objects p).

(** [Drop] of a parcel without a buffer of the driver, and of the descriptors its RPC fields own. *)
Definition drop_parcel (p : Parcel) : W unit :=
  let* _ := release_objects p in
  match rpc p with
  | Some r => modify (close_all (fds_out r ++ omap id (fds_in r)))
  | None => ret tt
  end.

(** ** Binders *)

Definition binder_stability (b : SIBinder) (w : World) : outcome StatusCode Stability :=
  match b with
  | Native a => match inners w !! a with Some i => stability_from_tag (stability i) | None => Ok SSystem end
  | Proxy _ level => Ok level
  end.

Definition freeze (b : SIBinder) (w : World) : World :=
  match b with Native a => set_inners (alter set_parceled a (inners w)) w | Proxy _ _ => w end.

(** [SerializeOption for SIBinder]. *)
Definition serialize_binder (this : option SIBinder) : K unit :=
  let* p := on_parcel get in
  match rpc p with
  | Some r => if ops r then rpc_write_binder this else throw StBadType
  | None =>
      match this with
      | Some binder =>
          let* obj := on_world (flat_of_binder binder) in
          let* _ := write_object obj false in
          let* _ :=
            (if sdk30 then
               let* w := on_world get in
               let* level := lift (binder_stability binder w) in
               on_parcel (write_i32 (stability_to_i32 android12 level))
             else ret tt) in
          on_world (modify (freeze binder))
      | None =>
          let* _ := write_object flat_default false in
          if sdk30 then on_parcel (write_i32 (stability_to_i32 android12 SLocal)) else ret tt
      end
  end.

(** [DeserializeOption for SIBinder]. *)
Definition deserialize_binder : K (option SIBinder) :=
  let* p := on_parcel get in
  match rpc p with
  | Some r => if ops r then rpc_read_binder else throw StBadType
  | None =>
      let* flat := on_parcel (read_object false) in
      let* wire := (if sdk30 then on_parcel read_i32 else ret (stability_to_i32 android12 SLocal)) in
      if fbo_type flat =? BINDER_TYPE_BINDER then
        let id := fbo_binder flat in
        if negb (id =? 0) then
          let* w := on_world get in
          match lookup_native id (natives w) with
          | Some a => ret (Some (Native a))
          | None => throw StDeadObject
          end
        else ret None
      else if fbo_type flat =? BINDER_TYPE_HANDLE then
        let* level := lift (stability_of_i32 wire) in
        let* level := lift (strong_proxy_for_handle_stability (flat_handle flat) level) in
        ret (Some (Proxy (flat_handle flat) level))
      else throw StBadType
  end.

(** ** File descriptors *)

Definition TYPE_NATIVE_FILE_DESCRIPTOR : Z := 2.

(** The descriptor goes to the fields of the RPC parcel; its index is in the body. *)
Definition serialize_fd_rpc (r : RpcFields) (fd : Z) : K unit :=
  match fd_mode r with
  | FdNone => throw StBadType
  | FdUnix =>
      let* dup := on_world (dup_fd fd) in
      let* idx := on_parcel (rpc_push_out_fd dup) in
      if record_fd_positions r then
        on_parcel (
          let* _ := write_i32 1 in
          let* _ := write_i32 0 in
          let* obj_pos := data_position in
          let* _ := write_i32 TYPE_NATIVE_FILE_DESCRIPTOR in
          let* _ := write_i32 idx in
          modify (rpc_record_object_position obj_pos))
      else on_parcel (let* _ := write_i32 1 in write_i32 idx)
  end.

(** [Serialize for ParcelFileDescriptor]. *)
Definition serialize_fd (fd : Z) : K unit :=
  let* p := on_parcel get in
  match rpc p with
  | Some r => serialize_fd_rpc r fd
  | None =>
      let* _ := on_parcel (write_i32 1) in
      let* dup := on_world (dup_fd fd) in
      owning dup (
        let* _ := on_parcel (write_i32 0) in
        write_object (new_with_fd dup true) true)
  end.

Definition serialize_fd_option (this : option Z) : K unit :=
  match this with Some fd => serialize_fd fd | None => on_parcel (write_i32 0) end.

Definition rpc_take (idx : Z) : P (option Z) :=
  if idx <? 0 then throw StBadValue
  else fun p =>
    match rpc_take_in_fd (Z.to_nat idx) p with
    | (Some fd, p) => (Ok (Some fd), p)
    | (None, p) => (Err StBadValue, p)
    end.

(** The body after the marker, by the profile of the session. *)
Definition deserialize_fd_rpc (r : RpcFields) : P (option Z) :=
  match fd_mode r with
  | FdNone => throw StBadType
  | FdUnix =>
      if record_fd_positions r then
        let* has_comm := read_i32 in
        if negb (has_comm =? 0) then throw StBadValue
        else
          let* at_ := data_position in
          let* p := get in
          if negb (rpc_object_position_present at_ p) then throw StBadType
          else
            let* ty := read_i32 in
            if negb (ty =? TYPE_NATIVE_FILE_DESCRIPTOR) then throw StBadType
            else let* idx := read_i32 in rpc_take idx
      else let* idx := read_i32 in rpc_take idx
  end.

(** [DeserializeOption for ParcelFileDescriptor]. *)
Definition deserialize_fd_option : K (option Z) :=
  let* p := on_parcel get in
  let* present := on_parcel read_i32 in
  if present =? 0 then ret None
  else
    match rpc p with
    | Some r => on_parcel (deserialize_fd_rpc r)
    | None =>
        let* has_comm := on_parcel read_i32 in
        let* obj := on_parcel (read_object true) in
        if negb (fbo_type obj =? BINDER_TYPE_FD) then throw StBadType
        else
          let* fd := on_world (dup_fd (flat_handle obj)) in
          let* _ :=
            (if negb (has_comm =? 0) then
               owning fd (
                 let* comm := on_parcel (read_object true) in
                 if negb (fbo_type comm =? BINDER_TYPE_FD) then throw StBadType else ret tt)
             else ret tt) in
          ret (Some fd)
    end.

Definition deserialize_fd : K Z :=
  let* r := deserialize_fd_option in
  match r with Some fd => ret fd | None => throw StUnexpectedNull end.
End Objects.

(** * Flags and stability *)

Definition sched_mask : Z := 1791.

Lemma land_disjoint a b m : Z.land (Z.lor (Z.ldiff a m) (Z.land b m)) m = Z.land b m.
Proof.
  apply Z.bits_inj'. intros n Hn. rewrite !Z.land_spec, Z.lor_spec, Z.ldiff_spec, Z.land_spec.
  by destruct (Z.testbit a n), (Z.testbit b n), (Z.testbit m n).
Qed.

Lemma ldiff_disjoint a b m : Z.ldiff (Z.lor (Z.ldiff a m) (Z.land b m)) m = Z.ldiff a m.
Proof.
  apply Z.bits_inj'. intros n Hn. rewrite !Z.ldiff_spec, Z.lor_spec, Z.ldiff_spec, Z.land_spec.
  by destruct (Z.testbit a n), (Z.testbit b n), (Z.testbit m n).
Qed.

(** The scheduling of a node comes from one source: the binder's own priority and policy when it has any, the
    default otherwise, never a mixture; the other flags are the binder's. *)
Lemma scheduling_from_one_source local priority policy :
  let sched := sched_policy_mask policy priority in
  Z.land (effective_flags local sched) sched_mask = (if Z.land local sched_mask =? 0 then sched else Z.land local sched_mask) /\
  Z.ldiff (effective_flags local sched) sched_mask = Z.ldiff local sched_mask.
Proof.
  intros sched. assert (Es : Z.land sched sched_mask = sched).
  { apply Z.bits_inj'. intros n Hn. unfold sched, sched_policy_mask, sched_mask. rewrite Z.land_spec, Z.lor_spec, Z.land_spec, Z.shiftl_spec, Z.land_spec by done.
    change 1791 with (Z.lor FLAT_BINDER_FLAG_PRIORITY_MASK (Z.shiftl FLAT_BINDER_FLAG_SCHED_POLICY_VALUE_MASK FLAT_BINDER_FLAG_SCHED_POLICY_SHIFT)).
    rewrite Z.lor_spec, Z.shiftl_spec by done.
    destruct (Z.testbit priority n), (Z.testbit policy _), (Z.testbit FLAT_BINDER_FLAG_PRIORITY_MASK n), (Z.testbit FLAT_BINDER_FLAG_SCHED_POLICY_VALUE_MASK _); done. }
  assert (Em : effective_flags local sched = Z.lor (Z.ldiff local sched_mask) (Z.land (if Z.land local sched_mask =? 0 then sched else local) sched_mask)).
  { unfold effective_flags. change (Z.lor FLAT_BINDER_FLAG_PRIORITY_MASK _) with sched_mask.
    destruct (Z.land local sched_mask =? 0); cbn [negb]; by rewrite ?Es. }
  rewrite Em, land_disjoint, ldiff_disjoint. split; [| done]. destruct (Z.land local sched_mask =? 0); [exact Es | done].
Qed.

Lemma tag_roundtrip s : stability_from_tag (stability_to_tag s) = Ok s.
Proof. by destruct s. Qed.

(** A handle in a parcel takes nothing and gives nothing back: the parcel does not keep the proxy, nor the reference
    of the process on the handle. *)
Lemma handle_objects_hold_nothing debug lookup fresh obj w : fbo_type obj = BINDER_TYPE_HANDLE ->
  snd (acquire debug lookup fresh obj w) = w /\ snd (release debug lookup obj w) = w.
Proof. intros Et. unfold acquire, release. rewrite Et. cbn. by destruct (lookup _ _). Qed.
