(* ===== verification/ParcelOwnership.v ===== *)
(** Who owns the references and descriptors in parcels: the process of ParcelObjects.v with any number of
    parcels, in any order of writes, copies, reads and drops. Every reference on a published binder is
    that of one object in one parcel, every open descriptor has one owner, and nothing is closed or released twice. *)

From Stdlib Require Import ZArith Lia Strings.Byte.
From stdpp Require Import base gmap list sorting.
From S2P Require Import Prelude Errors NativeTable Parcel ParcelSpec Parcelable Holder ParcelObjects.

(** * What a parcel owns *)

Definition flat_at (d : list byte) (x : Z) : option flat_binder_object :=
  match read_flat_binder d x with Ok f => Some f | _ => None end.

Definition object_flats (p : Parcel) : list flat_binder_object := omap (flat_at (data p)) (objects p).

(** The id of a published binder in an object, and the descriptor an object owns. *)
Definition native_id (f : flat_binder_object) : option Z :=
  if (fbo_type f =? BINDER_TYPE_BINDER) && negb (fbo_binder f =? 0) then Some (fbo_binder f) else None.
Definition owned_fd (f : flat_binder_object) : option Z :=
  if (fbo_type f =? BINDER_TYPE_FD) && negb (fbo_cookie f =? 0) then Some (flat_handle f) else None.

Definition native_ids (p : Parcel) : list Z := omap native_id (object_flats p).

Definition rpc_fds (p : Parcel) : list Z :=
  match rpc p with Some r => fds_out r ++ omap id (fds_in r) | None => [] end.
Definition owned_fds (p : Parcel) : list Z := omap owned_fd (object_flats p) ++ rpc_fds p.

(** Objects one after the other, between [lo] and [hi]. *)
Fixpoint laid (lo : Z) (l : list Z) (hi : Z) : Prop :=
  match l with [] => True | x :: l => lo <= x /\ x + FLAT_BINDER_SIZE <= hi /\ laid (x + FLAT_BINDER_SIZE) l hi end.

(** A parcel of the process itself. *)
Record parcel_ok (p : Parcel) : Prop := mkParcelOk {
  po_data : data_backing p = BVec;
  po_objects : objects_backing p = BVec;
  po_laid : laid 0 (objects p) (zlen (data p));
  po_rpc : is_for_rpc p = true -> objects p = [];
  po_size : zlen (data p) <= i32_max
}.

Definition has (fd : Z) (s : gset Z) : Z := Z.b2z (bool_decide (fd ∈ s)).

Lemma omap_cons_some {A B} (g : A -> option B) x l y : g x = Some y -> omap g (x :: l) = y :: omap g l.
Proof. intros E. cbn. by rewrite E. Qed.

Lemma omap_cons_none {A B} (g : A -> option B) x l : g x = None -> omap g (x :: l) = omap g l.
Proof. intros E. cbn. by rewrite E. Qed.

(** ** Objects in the bytes *)

Lemma laid_weaken lo lo' l hi hi' : lo' <= lo -> hi <= hi' -> laid lo l hi -> laid lo' l hi'.
Proof. revert lo lo'. induction l as [| x l IH]; intros lo lo' H1 H2; [done |]. cbn. intros (A & B & C). split_and!; [lia.. |]. by apply (IH (x + FLAT_BINDER_SIZE)). Qed.

Lemma laid_snoc lo l hi x hi' :
  laid lo l hi -> lo <= x -> hi <= x -> x + FLAT_BINDER_SIZE <= hi' -> laid lo (l ++ [x]) hi'.
Proof.
  revert lo. induction l as [| y l IH]; intros lo; cbn; [intros _ **; split_and!; [lia.. | done] |].
  intros (A & B & C) **. assert (y + FLAT_BINDER_SIZE <= x) by lia. split_and!; [lia | unfold FLAT_BINDER_SIZE in *; lia | by apply IH].
Qed.

Lemma laid_elem lo l hi x : laid lo l hi -> x ∈ l -> lo <= x /\ x + FLAT_BINDER_SIZE <= hi.
Proof.
  revert lo. induction l as [| y l IH]; intros lo Hl Hx; [by apply elem_of_nil in Hx |].
  destruct Hl as (A & B & C). apply elem_of_cons in Hx as [-> | Hx]; [lia |].
  destruct (IH _ C Hx). unfold FLAT_BINDER_SIZE in *. lia.
Qed.

Lemma zlen_flat o : zlen (flat_bytes o) = FLAT_BINDER_SIZE.
Proof. unfold flat_bytes. by rewrite !zlen_app, !zlen_to_le. Qed.

Lemma flat_at_app d e x : 0 <= x -> x + FLAT_BINDER_SIZE <= zlen d -> flat_at (d ++ e) x = flat_at d x.
Proof.
  intros H1 H2. unfold flat_at, read_flat_binder. pose proof (zlen_nonneg e).
  assert (E : get_range (d ++ e) x (x + FLAT_BINDER_SIZE) = get_range d x (x + FLAT_BINDER_SIZE)); [| by rewrite E].
  unfold FLAT_BINDER_SIZE in *. unfold get_range. rewrite zlen_app.
  rewrite !(proj2 (Z.leb_le _ _)) by lia. cbn. rewrite zdrop_app_l by lia. rewrite ztake_app_l; [done |].
  rewrite zlen_zdrop; lia.
Qed.

Lemma flat_at_skip d e x : zlen d <= x -> flat_at (d ++ e) x = flat_at e (x - zlen d).
Proof.
  intros Hx. unfold flat_at, read_flat_binder, FLAT_BINDER_SIZE. rewrite get_range_skip by lia.
  by replace (x + 24 - zlen d) with (x - zlen d + 24) by lia.
Qed.

(** The object as it is read back. *)
Definition reread (o : flat_binder_object) : flat_binder_object := flat_of_bytes (flat_bytes o).

Lemma flat_at_here d o e : flat_at (d ++ flat_bytes o ++ e) (zlen d) = Some (reread o).
Proof.
  rewrite flat_at_skip, Z.sub_diag by lia. unfold flat_at, read_flat_binder.
  rewrite get_range_here by apply zlen_flat. done.
Qed.

Lemma flat_at_patch d n bs x :
  0 <= n -> n + zlen bs <= zlen d -> 0 <= x -> x + FLAT_BINDER_SIZE <= n \/ n + zlen bs <= x ->
  flat_at (ztake n d ++ bs ++ zdrop (n + zlen bs) d) x = flat_at d x.
Proof.
  intros H1 H2 H3 Hx. pose proof (zlen_nonneg bs).
  assert (Ed : d = ztake n d ++ ztake (zlen bs) (zdrop n d) ++ zdrop (n + zlen bs) d).
  { rewrite <- (ztake_zdrop n d) at 1. f_equal. rewrite <- (ztake_zdrop (zlen bs) (zdrop n d)) at 1. by rewrite zdrop_zdrop by lia. }
  assert (L1 : zlen (ztake n d) = n) by (apply zlen_ztake; lia).
  assert (L2 : zlen (ztake (zlen bs) (zdrop n d)) = zlen bs) by (apply zlen_ztake; rewrite zlen_zdrop; lia).
  rewrite Ed at 3. destruct Hx as [Hx | Hx].
  - by rewrite !flat_at_app by lia.
  - rewrite !(app_assoc (ztake n d)). rewrite !flat_at_skip by (rewrite zlen_app; lia). by rewrite !zlen_app, L1, L2.
Qed.

(** The fields of an object that matter here survive. *)
Lemma reread_fields o : in_u 32 (fbo_type o) -> in_u 64 (fbo_binder o) -> in_u 64 (fbo_cookie o) ->
  fbo_type (reread o) = fbo_type o /\ fbo_binder (reread o) = fbo_binder o /\ fbo_cookie (reread o) = fbo_cookie o.
Proof.
  intros H1 H2 H3. unfold reread, flat_of_bytes, flat_bytes. cbn [fbo_type fbo_binder fbo_cookie].
  assert (T : forall k z (l : list byte), ztake (Z.of_nat k) (to_le k z ++ l) = to_le k z)
    by (intros; rewrite ztake_app_l, ztake_all by (rewrite zlen_to_le; lia); done).
  assert (D : forall k z n (l : list byte), Z.of_nat k <= n -> zdrop n (to_le k z ++ l) = zdrop (n - Z.of_nat k) l)
    by (intros; rewrite zdrop_app_r; rewrite zlen_to_le; done).
  split_and!.
  - change 4 with (Z.of_nat 4). rewrite T. by apply (of_le_to_le_u 4).
  - rewrite (D 4%nat), (D 4%nat), zdrop_0 by (cbn; lia). change 8 with (Z.of_nat 8). rewrite T. by apply (of_le_to_le_u 8).
  - rewrite (D 4%nat), (D 4%nat), (D 8%nat), zdrop_0 by (cbn; lia). rewrite ztake_all by (rewrite zlen_to_le; cbn; lia). by apply (of_le_to_le_u 8).
Qed.

Lemma flats_ext d d' l lo hi :
  laid lo l hi -> (forall x, lo <= x -> x + FLAT_BINDER_SIZE <= hi -> flat_at d' x = flat_at d x) ->
  omap (flat_at d') l = omap (flat_at d) l.
Proof.
  revert lo. induction l as [| x l IH]; intros lo Hl Hd; [done |]. destruct Hl as (A & B & C). cbn.
  rewrite (Hd x) by lia. rewrite (IH _ C); [done |]. intros y H1 H2. apply Hd; unfold FLAT_BINDER_SIZE in *; lia.
Qed.

Lemma flats_appended w p : parcel_ok p -> object_flats (appended w p) = object_flats p.
Proof. intros [_ _ Hl _ _]. unfold object_flats. cbn. apply (flats_ext _ _ _ 0 _ Hl). intros x H1 H2. by apply flat_at_app. Qed.

Lemma appended_ok w p : parcel_ok p -> zlen (data p) + zlen w <= i32_max -> parcel_ok (appended w p).
Proof.
  intros [H1 H2 H3 H4 H5] Hs. pose proof (zlen_nonneg w). split; cbn; try done; rewrite zlen_app; [| lia].
  by apply (laid_weaken 0 0 _ (zlen (data p))); [| lia |].
Qed.

(** The parcel after an object was appended and entered in the table. *)
Definition pushed (o : flat_binder_object) (p : Parcel) : Parcel :=
  set_objects (objects p ++ [zlen (data p)]) (appended (flat_bytes o) p).

(** ** Changes that keep the balance *)

(** [extra]: the descriptors that the application has got. *)
Record kept (extra : list Z) (w : World) (p : Parcel) (w' : World) (p' : Parcel) : Prop := mkKept {
  kp_table : table_reachable (natives w');
  kp_lost : lost (natives w') = lost (natives w);
  kp_held : held (natives w') = held (natives w);
  kp_parcel : parcel_ok p';
  kp_ids : forall id, count id (NativeTable.objects (natives w')) + count id (native_ids p)
                    = count id (NativeTable.objects (natives w)) + count id (native_ids p');
  kp_fds : forall fd, has fd (open_fds w') + count fd (owned_fds p)
                    = has fd (open_fds w) + count fd (owned_fds p') + count fd extra;
  kp_closes : double_closes w' = double_closes w;
  kp_rpc : is_for_rpc p' = is_for_rpc p
}.

Lemma count_nil id : count id [] = 0.
Proof. done. Qed.

Lemma count_app id l k : count id (l ++ k) = count id l + count id k.
Proof. apply tally_app. Qed.

Lemma kept_refl w p : table_reachable (natives w) -> parcel_ok p -> kept [] w p w p.
Proof. intros Ht Hp. split; try done. intros fd. rewrite count_nil. lia. Qed.

Lemma kept_trans e1 e2 w1 p1 w2 p2 w3 p3 :
  kept e1 w1 p1 w2 p2 -> kept e2 w2 p2 w3 p3 -> kept (e1 ++ e2) w1 p1 w3 p3.
Proof.
  intros [A1 A2 A3 A4 A5 A6 A7 A8] [B1 B2 B3 B4 B5 B6 B7 B8]. split; try congruence.
  - intros id. specialize (A5 id). specialize (B5 id). lia.
  - intros fd. specialize (A6 fd). specialize (B6 fd). rewrite count_app. lia.
Qed.

(** A change of the cursor, the hint and bytes outside the objects. *)
Lemma kept_same w p p' : table_reachable (natives w) -> parcel_ok p' ->
  object_flats p' = object_flats p -> rpc_fds p' = rpc_fds p -> is_for_rpc p' = is_for_rpc p -> kept [] w p w p'.
Proof.
  intros Ht Hp E1 E2 E3. split; try done.
  - intros id. unfold native_ids. by rewrite E1.
  - intros fd. unfold owned_fds. rewrite E1, E2, count_nil. lia.
Qed.

Lemma kept_appended bs w p : table_reachable (natives w) -> parcel_ok p -> zlen (data p) + zlen bs <= i32_max ->
  kept [] w p w (appended bs p).
Proof. intros Ht Hp Hs. apply kept_same; [done | by apply appended_ok | by apply flats_appended | done | done]. Qed.

(** An object is entered in the table, with what it owns. *)
Lemma kept_entered f off w w' p p' :
  parcel_ok p -> rpc p = None -> laid 0 (objects p) off -> 0 <= off -> off + FLAT_BINDER_SIZE <= zlen (data p') -> zlen (data p') <= i32_max ->
  rpc p' = None -> data_backing p' = BVec -> objects_backing p' = BVec -> objects p' = objects p ++ [off] ->
  (forall x, 0 <= x -> x + FLAT_BINDER_SIZE <= off -> flat_at (data p') x = flat_at (data p) x) -> flat_at (data p') off = Some f ->
  table_reachable (natives w') -> lost (natives w') = lost (natives w) -> held (natives w') = held (natives w) -> double_closes w' = double_closes w ->
  (forall id, count id (NativeTable.objects (natives w')) = count id (NativeTable.objects (natives w)) + count id (option_list (native_id f))) ->
  (forall fd, has fd (open_fds w') = has fd (open_fds w) + count fd (option_list (owned_fd f))) ->
  kept [] w p w' p'.
Proof.
  intros Hp Hr Hl Ho H1 H2 Hr' Hb1 Hb2 Eo Hd Ef Ht Hlo Hh Hc Hi Hf.
  assert (Fl : object_flats p' = object_flats p ++ [f]).
  { unfold object_flats. rewrite Eo, omap_app. cbn. rewrite Ef. f_equal. by apply (flats_ext _ _ _ 0 off). }
  split; try done.
  - split; try done; rewrite Eo; [by apply (laid_snoc 0 _ off) | unfold is_for_rpc; by rewrite Hr'].
  - intros id. unfold native_ids. rewrite Fl, omap_app, count_app, Hi. cbn. destruct (native_id f); cbn; lia.
  - intros fd. unfold owned_fds, rpc_fds. rewrite Fl, omap_app, !count_app, Hf, Hr, Hr', count_nil. cbn. destruct (owned_fd f); cbn; lia.
  - unfold is_for_rpc. by rewrite Hr, Hr'.
Qed.

Lemma kept_pushed o w w' p :
  parcel_ok p -> rpc p = None -> zlen (data p) + FLAT_BINDER_SIZE <= i32_max -> table_reachable (natives w') ->
  lost (natives w') = lost (natives w) -> held (natives w') = held (natives w) -> double_closes w' = double_closes w ->
  (forall id, count id (NativeTable.objects (natives w')) = count id (NativeTable.objects (natives w)) + count id (option_list (native_id (reread o)))) ->
  (forall fd, has fd (open_fds w') = has fd (open_fds w) + count fd (option_list (owned_fd (reread o)))) ->
  kept [] w p w' (pushed o p).
Proof.
  intros Hp Hr Hs **. pose proof Hp as [? ? ? ? ?]. pose proof (zlen_nonneg (data p)).
  apply (kept_entered (reread o) (zlen (data p))); try done; cbn; rewrite ?zlen_app, ?zlen_flat; try done.
  - intros x Hx1 Hx2. by apply flat_at_app.
  - pose proof (flat_at_here (data p) o []) as F. by rewrite app_nil_r in F.
Qed.

(** ** Writers of bytes *)

Section Plain.
Context `{PtrWidth}.

(** A writer that, however it ends, has appended some bytes. *)
Definition appends {A} (m : P A) : Prop :=
  forall p, appendable p -> zlen (data p) <= i32_max ->
  exists r bs, m p = (r, appended bs p) /\ zlen (data p) + zlen bs <= i32_max.

Lemma appends_ret {A} (r : outcome StatusCode A) : appends (lift r).
Proof. intros p Ha Hp. exists r, []. rewrite appended_nil by done. split; [done | rewrite zlen_nil; lia]. Qed.

Lemma appends_aligned bs : zlen bs <= i32_max -> appends (write_aligned_data bs).
Proof.
  intros Hb p Ha Hp. destruct (Z.leb_spec (zlen (data p) + round4 (zlen bs)) i32_max).
  - exists (Ok tt), (padded bs). rewrite zlen_padded. by rewrite write_aligned_append.
  - exists (Err StBadValue), []. rewrite appended_nil by done. rewrite write_aligned_full; [| pose proof (zlen_nonneg (data p)); destruct Ha; lia.. | destruct Ha; lia].
    split; [done | rewrite zlen_nil; lia].
Qed.

Lemma appends_bind {A B} (m : P A) (k : A -> P B) : appends m -> (forall a, appends (k a)) -> appends (bind m k).
Proof.
  intros Hm Hk p Ha Hp. destruct (Hm p Ha Hp) as (r & bs & E & Hs). unfold bind. rewrite E. destruct r as [a | e |].
  - destruct (Hk a (appended bs p)) as (r' & bs' & E' & Hs'); [by apply appended_appendable | cbn; rewrite zlen_app; lia |].
    exists r', (bs ++ bs'). rewrite E', appended_app, zlen_app. cbn in Hs'. rewrite zlen_app in Hs'. split; [done | lia].
  - by exists (Err e), bs.
  - by exists Panic, bs.
Qed.

Lemma appends_i32 v : appends (write_i32 v).
Proof. apply appends_aligned. by rewrite zlen_to_le. Qed.

Lemma appends_position : appends data_position.
Proof. intros p Ha Hp. exists (Ok (pos p)), []. rewrite appended_nil by done. split; [done | rewrite zlen_nil; lia]. Qed.
End Plain.

Create HintDb appends.
#[export] Hint Resolve appends_ret appends_bind appends_i32 appends_position : appends.

(** ** Open descriptors *)

Lemma count_one x y : count x [y] = Z.b2z (y =? x).
Proof. rewrite count_cons, count_nil. destruct (y =? x); cbn; lia. Qed.

Lemma has_opened n s fd : n ∉ s -> has fd ({[n]} ∪ s) = has fd s + count fd [n].
Proof.
  intros Hn. rewrite count_one. unfold has. destruct (Z.eqb_spec n fd) as [-> | Hne].
  - rewrite bool_decide_eq_true_2, bool_decide_eq_false_2 by set_solver. done.
  - rewrite Z.add_0_r. f_equal. apply bool_decide_ext. set_solver.
Qed.

Lemma has_closed n s fd : n ∈ s -> has fd (s ∖ {[n]}) + count fd [n] = has fd s.
Proof.
  intros Hn. rewrite count_one. unfold has. destruct (Z.eqb_spec n fd) as [-> | Hne].
  - rewrite bool_decide_eq_false_2, bool_decide_eq_true_2 by set_solver. done.
  - rewrite Z.add_0_r. f_equal. apply bool_decide_ext. set_solver.
Qed.

Lemma close_open n w fd : n ∈ open_fds w ->
  has fd (open_fds (close n w)) + count fd [n] = has fd (open_fds w) /\ double_closes (close n w) = double_closes w /\ natives (close n w) = natives w.
Proof. intros Hn. unfold close. rewrite decide_True by done. split_and!; [by apply has_closed | done..]. Qed.

Lemma opened_member n s : n ∈ ({[n]} ∪ s : gset Z).
Proof. set_solver. Qed.

(** ** Operations *)

Section Operations.
Context `{PtrWidth} `{ErrnoTable}.
Context (android12 sdk30 debug_assertions background_scheduling_disabled : bool).
Context (strong_proxy_for_handle_stability : Z -> Stability -> outcome StatusCode Stability).
Context (fcntl_dupfd_cloexec : gset Z -> Z -> Z + Z).
Context (rpc_write_binder : option SIBinder -> K unit) (rpc_read_binder : K (option SIBinder)).

Local Abbreviation acquire := (acquire debug_assertions strong_proxy_for_handle_stability).
Local Abbreviation release := (release debug_assertions strong_proxy_for_handle_stability).
Local Abbreviation write_object := (write_object debug_assertions strong_proxy_for_handle_stability).
Local Abbreviation append_from := (append_from debug_assertions strong_proxy_for_handle_stability fcntl_dupfd_cloexec).
Local Abbreviation adopt_object := (adopt_object debug_assertions strong_proxy_for_handle_stability fcntl_dupfd_cloexec).
Local Abbreviation adopt_objects := (adopt_objects debug_assertions strong_proxy_for_handle_stability fcntl_dupfd_cloexec).
Local Abbreviation dup_fd := (dup_fd fcntl_dupfd_cloexec).
Local Abbreviation drop_parcel := (drop_parcel debug_assertions strong_proxy_for_handle_stability).
Local Abbreviation release_each := (release_each debug_assertions strong_proxy_for_handle_stability).
Local Abbreviation serialize_binder := (serialize_binder android12 sdk30 debug_assertions background_scheduling_disabled strong_proxy_for_handle_stability rpc_write_binder).
Local Abbreviation serialize_fd := (serialize_fd debug_assertions strong_proxy_for_handle_stability fcntl_dupfd_cloexec).
Local Abbreviation deserialize_fd_option := (deserialize_fd_option fcntl_dupfd_cloexec).

(** A new descriptor is not open and is an [i32] that is not negative. *)
Hypothesis dup_fresh : forall s fd n, fcntl_dupfd_cloexec s fd = inr n -> (n ∉ s) /\ 0 <= n < 2 ^ 31.

(** The lookup of a proxy does not panic. *)
Hypothesis proxy_safe : forall h level, strong_proxy_for_handle_stability h level <> Panic.

(** What an operation on a parcel in writing keeps, however it ends. *)
Definition keeps_from {A} (w : World) (p : Parcel) (m : K A) : Prop := forall r c',
  m (mkCx w p) = (r, c') -> kept [] w p (world c') (parcel c') /\ appendable (parcel c').

Definition keeps {A} (m : K A) : Prop := forall w p,
  table_reachable (natives w) -> parcel_ok p -> appendable p -> keeps_from w p m.

Lemma keeps_lift {A} (r : outcome StatusCode A) : keeps (lift r).
Proof. intros w p Ht Hp Ha r' c' E. unfold lift in E. injection E as <- <-. split; [by apply kept_refl | done]. Qed.

Lemma keeps_from_then {A B} w p (m : K A) (k : A -> K B) : keeps_from w p m -> (forall a, keeps (k a)) -> keeps_from w p (bind m k).
Proof.
  intros Hm Hk r c' E. unfold bind in E. destruct (m (mkCx w p)) as [x [w1 p1]] eqn:Em.
  destruct (Hm x _ Em) as [K1 A1]. destruct x as [a | e |]; [| injection E as <- <-; done..].
  destruct (Hk a w1 p1 (kp_table _ _ _ _ _ K1) (kp_parcel _ _ _ _ _ K1) A1 r c' E) as [K2 A2].
  split; [| done]. by apply (kept_trans [] [] w p w1 p1).
Qed.

Lemma keeps_then {A B} (m : K A) (k : A -> K B) : keeps m -> (forall a, keeps (k a)) -> keeps (bind m k).
Proof. intros Hm Hk w p Ht Hp Ha. apply keeps_from_then; [by apply Hm | done]. Qed.

Lemma keeps_plain {A} (m : P A) : appends m -> keeps (on_parcel m).
Proof.
  intros Hm w p Ht Hp Ha r c' E. unfold on_parcel in E. cbn in E.
  destruct (Hm p Ha (po_size p Hp)) as (r' & bs & Em & Hs). rewrite Em in E. injection E as <- <-. cbn.
  split; [by apply kept_appended | by apply appended_appendable].
Qed.

Lemma write_object_at obj null_meta w p : parcel_ok p -> appendable p -> rpc p = None ->
  write_object obj null_meta (mkCx w p) =
  if zlen (data p) + FLAT_BINDER_SIZE <=? i32_max then
    if null_meta || negb (fbo_binder obj =? 0) then
      match acquire true obj w with
      | (Ok _, w') => (Ok tt, mkCx w' (pushed obj p))
      | (Err e, w') => (Err e, mkCx w' (appended (flat_bytes obj) p))
      | (Panic, w') => (Panic, mkCx w' (appended (flat_bytes obj) p))
      end
    else (Ok tt, mkCx w (appended (flat_bytes obj) p))
  else (Err StBadValue, mkCx w p).
Proof.
  intros Hp Ha Hr. unfold ParcelObjects.write_object, bind at 1, on_parcel at 1, get at 1. cbn [parcel world].
  replace (is_for_rpc p) with false by (unfold is_for_rpc; by rewrite Hr).
  assert (R : round4 (zlen (flat_bytes obj)) = FLAT_BINDER_SIZE) by (by rewrite zlen_flat).
  destruct (Z.leb_spec (zlen (data p) + FLAT_BINDER_SIZE) i32_max).
  - unfold bind at 1, on_parcel at 1. cbn [parcel world].
    rewrite write_aligned_append, padded_aligned by (rewrite ?R, ?zlen_flat; done).
    destruct (null_meta || negb (fbo_binder obj =? 0)); [| done].
    unfold bind, on_world, on_parcel. cbn [parcel world]. destruct (acquire true obj w) as [[[] | e |] w']; try done.
    unfold push_object. cbn. rewrite (po_objects p Hp). by rewrite (proj2 Ha).
  - unfold bind, on_parcel. cbn [parcel world]. rewrite write_aligned_full; [done | | by rewrite zlen_flat |].
    + pose proof (zlen_nonneg (data p)). destruct Ha. lia.
    + rewrite R. destruct Ha. lia.
Qed.

(** The publication of a binder and its [acquire], as the table sees them. *)
Lemma published_found a t : table_reachable t ->
  let id := fst (publish_native a t) in let t1 := snd (publish_native a t) in
  is_Some (published_natives t1 !! id) /\ 1 <= id < next_native_id t1 /\ next_native_id t1 <= next_native_id t + 1 /\
  NativeTable.objects t1 = NativeTable.objects t /\ lost t1 = lost t /\ held t1 = held t.
Proof.
  intros Hr. pose proof (inv_reachable t Hr) as Hi. unfold publish_native. destruct (find_pin a (published_natives t)) as [id |] eqn:Ef; cbn.
  - destruct (find_pin_spec a _ id Ef) as (e & Ee & _). rewrite lookup_alter_eq, Ee.
    pose proof (ti_fresh t Hi id _ (ti_named t Hi id e Ee)). split_and!; [by eexists | lia | lia | lia | done..].
  - rewrite lookup_insert_eq. pose proof (ti_next t Hi). split_and!; [by eexists | lia | lia | lia | done..].
Qed.

Lemma acquired t id : is_Some (published_natives t !! id) ->
  fst (incref_publish id t) = true /\ NativeTable.objects (acquire_object id t) = id :: NativeTable.objects t /\
  lost (acquire_object id t) = lost t /\ held (acquire_object id t) = held t.
Proof. intros [e Ee]. unfold acquire_object, incref_publish. by rewrite Ee. Qed.

(** A native binder is written, or only published. *)
Lemma publish_then_acquire a w :
  table_reachable (natives w) -> next_native_id (natives w) < 2 ^ 64 ->
  exists id fl t1, flat_of_binder background_scheduling_disabled (Native a) w
    = (Ok (mkFlat BINDER_TYPE_BINDER fl id 0), set_natives t1 w) /\
    1 <= id < 2 ^ 64 /\ table_reachable t1 /\ NativeTable.objects t1 = NativeTable.objects (natives w) /\
    lost t1 = lost (natives w) /\ held t1 = held (natives w) /\
    exists t2, acquire true (mkFlat BINDER_TYPE_BINDER fl id 0) (set_natives t1 w) = (Ok tt, set_natives t2 w) /\
      table_reachable t2 /\ NativeTable.objects t2 = id :: NativeTable.objects (natives w) /\
      lost t2 = lost (natives w) /\ held t2 = held (natives w) /\ lookup_native id t2 = Some a.
Proof.
  intros Hr Hn. pose proof (published_found a (natives w) Hr) as (F1 & F2 & F3 & F4 & F5 & F6).
  destruct (publish_native a (natives w)) as [id t0] eqn:Ep. cbn in F1, F2, F3, F4, F5, F6.
  set (t1 := set_writing (id :: writing t0) t0).
  assert (A1 : act (Publish a) (natives w) = Some t1) by (cbn [act]; by rewrite Ep).
  assert (R1 : table_reachable t1) by (by eapply table_act).
  set (t1' := set_writing (remove_one id (writing t1)) t1). set (t2 := acquire_object id t1').
  assert (A2 : act (Acquire id) t1 = Some t2) by (cbn [act]; replace (existsb (Z.eqb id) (writing t1)) with true; [reflexivity | symmetry; cbn; by rewrite Z.eqb_refl]).
  assert (R2 : table_reachable t2) by (by eapply table_act).
  destruct (acquired t1' id F1) as (G1 & G2 & G3 & G4).
  eexists id, _, t1. split; [cbn; by rewrite Ep |]. split_and!; [lia | lia | exact R1 | exact F4 | exact F5 | exact F6 |].
  exists t2. split; [| split_and!; [exact R2 | by rewrite <- F4 | by rewrite <- F5 | by rewrite <- F6 |]].
  - unfold ParcelObjects.acquire. change (fbo_type _ =? BINDER_TYPE_BINDER) with true. cbv iota. cbn [fbo_binder].
    rewrite (proj2 (Z.eqb_neq id 0)) by lia. cbn [negb natives set_natives]. fold t1'. by rewrite G1.
  - destruct F1 as [e Ee]. unfold lookup_native, t2, acquire_object, incref_publish, t1', t1. cbn. rewrite Ee. cbn.
    rewrite lookup_insert_eq. cbn. f_equal.
    pose proof (inv_reachable _ R1) as I1. unfold publish_native in Ep. destruct (find_pin a (published_natives (natives w))) as [id' |] eqn:Ef.
    + injection Ep as <- <-. cbn in Ee. destruct (find_pin_spec a _ id' Ef) as (e0 & E0 & <-). rewrite lookup_alter_eq, E0 in Ee. by injection Ee as <-.
    + injection Ep as <- <-. cbn in Ee. rewrite lookup_insert_eq in Ee. by injection Ee as <-.
Qed.

(** A change of the process that is neither of the table nor of a descriptor. *)
Lemma keeps_modify f : (forall w, natives (f w) = natives w /\ open_fds (f w) = open_fds w /\ double_closes (f w) = double_closes w) ->
  keeps (on_world (modify f)).
Proof.
  intros Hf w p Ht Hp Ha r c' E. cbn in E. injection E as <- <-. cbn. destruct (Hf w) as (E1 & E2 & E3).
  split; [| done]. split; rewrite ?E1, ?E2; try done. intros fd. rewrite count_nil. lia.
Qed.

Lemma flat_binder_fields fl id : 1 <= id < 2 ^ 64 ->
  native_id (reread (mkFlat BINDER_TYPE_BINDER fl id 0)) = Some id /\ owned_fd (reread (mkFlat BINDER_TYPE_BINDER fl id 0)) = None.
Proof.
  intros Hid. destruct (reread_fields (mkFlat BINDER_TYPE_BINDER fl id 0)) as (E1 & E2 & E3); cbn; [by vm_compute | unfold in_u; lia | by vm_compute |].
  unfold native_id, owned_fd. rewrite E1, E2, E3. cbn. by rewrite (proj2 (Z.eqb_neq id 0)) by lia.
Qed.

Lemma flat_handle_fields h fl : in_u 32 h ->
  native_id (reread (new_handle h fl)) = None /\ owned_fd (reread (new_handle h fl)) = None.
Proof.
  intros Hh. destruct (reread_fields (new_handle h fl)) as (E1 & E2 & E3); cbn; [by vm_compute | unfold in_u in *; simpl; lia | by vm_compute |].
  unfold native_id, owned_fd. by rewrite E1, E2, E3.
Qed.

(** What can be written: an id is a [u64], a handle a [u32]. *)
Definition writable (this : option SIBinder) (w : World) : Prop :=
  match this with
  | Some (Native _) => next_native_id (natives w) < 2 ^ 64
  | Some (Proxy h _) => in_u 32 h
  | None => True
  end.

Lemma keeps_flat b w p : table_reachable (natives w) -> parcel_ok p -> appendable p -> rpc p = None -> writable (Some b) w ->
  keeps_from w p (let* obj := on_world (flat_of_binder background_scheduling_disabled b) in write_object obj false).
Proof.
  intros Ht Hp Ha Hr Hb r c' E. unfold bind at 1, on_world at 1 in E. cbn [world parcel] in E. destruct b as [a | h level].
  - destruct (publish_then_acquire a w Ht Hb) as (id & fl & t1 & E1 & Hid & R1 & O1 & L1 & G1 & t2 & E2 & R2 & O2 & L2 & G2 & _).
    rewrite E1 in E. rewrite write_object_at in E by done. cbn [fbo_binder] in E. rewrite (proj2 (Z.eqb_neq id 0)), E2 in E by lia.
    destruct (flat_binder_fields fl id Hid) as [F1 F2]. cbn [orb negb] in E.
    destruct (Z.leb_spec (zlen (data p) + FLAT_BINDER_SIZE) i32_max); injection E as <- <-; cbn [world parcel]; (split; [| done || by apply appended_appendable]).
    + apply kept_pushed; try done; rewrite ?F1, ?F2; cbn; intros x.
      * rewrite O2, !count_cons, count_nil. lia.
      * rewrite count_nil. lia.
    + split; cbn; rewrite ?O1; try done. intros x. rewrite count_nil. lia.
  - destruct (flat_handle_fields h (if negb background_scheduling_disabled then sched_policy_mask 0 19 else 0) Hb) as [F1 F2].
    cbn [flat_of_binder] in E. rewrite write_object_at in E by done.
    destruct (Z.leb_spec (zlen (data p) + FLAT_BINDER_SIZE) i32_max) as [Hs |]; [| injection E as <- <-; by split; [apply kept_refl |]].
    assert (Kp : kept [] w p w (pushed (new_handle h (if negb background_scheduling_disabled then sched_policy_mask 0 19 else 0)) p)).
    { apply kept_pushed; try done; rewrite ?F1, ?F2; intros x; cbn; rewrite count_nil; lia. }
    assert (Ka : kept [] w p w (appended (flat_bytes (new_handle h (if negb background_scheduling_disabled then sched_policy_mask 0 19 else 0))) p)).
    { apply kept_appended; [done | done |]. by rewrite zlen_flat. }
    destruct (_ || _); [| injection E as <- <-; split; [done | by apply appended_appendable]].
    unfold ParcelObjects.acquire in E. change (fbo_type _ =? BINDER_TYPE_BINDER) with false in E. change (fbo_type _ =? BINDER_TYPE_HANDLE) with true in E.
    cbv iota in E. destruct (strong_proxy_for_handle_stability _ _); injection E as <- <-; cbn [world parcel]; (split; [done |]); by apply appended_appendable.
Qed.

Lemma keeps_thener this w p : table_reachable (natives w) -> parcel_ok p -> appendable p -> rpc p = None -> writable this w ->
  keeps_from w p (serialize_binder this).
Proof.
  intros Ht Hp Ha Hr Hb r c' E. unfold ParcelObjects.serialize_binder, bind at 1, on_parcel at 1, get at 1 in E. cbn [world parcel] in E.
  rewrite Hr in E. destruct this as [b |].
  - refine (keeps_from_then w p (let* obj := on_world (flat_of_binder background_scheduling_disabled b) in write_object obj false) _
              (keeps_flat b w p Ht Hp Ha Hr Hb) _ r c' _); cycle 1.
    + rewrite <- E. unfold bind. destruct (on_world _ _) as [[obj | e |] c1]; try done.
    + intros []. apply keeps_then; [| intros _; apply keeps_modify; intros w0; by destruct b].
      destruct sdk30; [| apply (keeps_lift (Ok tt))].
      apply keeps_then; [by intros w0 p0 Ht0 Hp0 Ha0 r0 c0 [= <- <-]; split; [apply kept_refl |] |].
      intros w0. apply keeps_then; [apply keeps_lift |]. intros level. apply keeps_plain, appends_i32.
  - refine (keeps_from_then w p (write_object flat_default false) _ _ _ r c' E).
    + intros r0 c0 E0. rewrite write_object_at in E0 by done. cbn in E0.
      destruct (Z.leb_spec (zlen (data p) + FLAT_BINDER_SIZE) i32_max); injection E0 as <- <-; cbn.
      * split; [apply kept_appended; [done | done | by rewrite zlen_flat] | by apply appended_appendable].
      * split; [by apply kept_refl | done].
    + intros _. destruct sdk30; [apply keeps_plain, appends_i32 | apply (keeps_lift (Ok tt))].
Qed.

(** ** Descriptors *)

Lemma flat_fd_fields n : 0 <= n < 2 ^ 31 ->
  native_id (reread (new_with_fd n true)) = None /\ owned_fd (reread (new_with_fd n true)) = Some n.
Proof.
  intros Hn. assert (En : wrap_u 32 n = n) by (apply wrap_u_small; unfold in_u; lia).
  destruct (reread_fields (new_with_fd n true)) as (E1 & E2 & E3); cbn; [by vm_compute | rewrite En; unfold in_u; lia | by vm_compute |].
  unfold native_id, owned_fd, flat_handle. rewrite E1, E2, E3. cbn. by rewrite !En.
Qed.

(** A descriptor that was duplicated for [m]: when [m] does not put it into the parcel it is closed. *)
Lemma keeps_owning n w p {A} (m : K A) :
  n ∉ open_fds w -> table_reachable (natives w) -> parcel_ok p ->
  (forall r c', m (mkCx (set_open ({[n]} ∪ open_fds w) w) p) = (r, c') -> appendable (parcel c') /\
     match r with
     | Ok _ => kept [] w p (world c') (parcel c')
     | _ => world c' = set_open ({[n]} ∪ open_fds w) w /\ kept [] w p w (parcel c')
     end) ->
  forall r c', owning n m (mkCx (set_open ({[n]} ∪ open_fds w) w) p) = (r, c') -> kept [] w p (world c') (parcel c') /\ appendable (parcel c').
Proof.
  intros Hn Ht Hp Hm r c' E. unfold owning in E. destruct (m _) as [r0 c0] eqn:Em. destruct (Hm r0 c0 eq_refl) as [Ha Hk].
  assert (Hc : world c0 = set_open ({[n]} ∪ open_fds w) w /\ kept [] w p w (parcel c0) ->
    kept [] w p (close n (world c0)) (parcel c0)).
  { intros [-> [K1 K2 K3 K4 K5 K6 K7 K8]].
    destruct (close_open n (set_open ({[n]} ∪ open_fds w) w) 0 (opened_member n _)) as (_ & C2 & C3).
    split; rewrite ?C2, ?C3; try done. intros fd. specialize (K6 fd).
    destruct (close_open n (set_open ({[n]} ∪ open_fds w) w) fd (opened_member n _)) as (C1 & _). cbn in C1. rewrite has_opened in C1 by done. lia. }
  destruct r0 as [a | e |]; injection E as <- <-; cbn; (split; [| done]); [done | by apply Hc..].
Qed.

Lemma dup_cases fd w :
  (exists e, dup_fd fd w = (Err e, w)) \/
  (exists n, dup_fd fd w = (Ok n, set_open ({[n]} ∪ open_fds w) w) /\ (n ∉ open_fds w) /\ 0 <= n < 2 ^ 31).
Proof using dup_fresh.
  unfold ParcelObjects.dup_fd. destruct (fcntl_dupfd_cloexec (open_fds w) fd) as [errno | n] eqn:E; [left; by eexists |].
  right. exists n. split; [done |]. by apply (dup_fresh (open_fds w) fd).
Qed.

(** The body of a descriptor, once it is duplicated. *)
Lemma keeps_fd_body n w p :
  n ∉ open_fds w -> 0 <= n < 2 ^ 31 -> table_reachable (natives w) -> parcel_ok p -> appendable p -> rpc p = None ->
  forall r c', (let* _ := on_parcel (write_i32 0) in write_object (new_with_fd n true) true) (mkCx (set_open ({[n]} ∪ open_fds w) w) p) = (r, c') ->
  appendable (parcel c') /\
  match r with
  | Ok _ => kept [] w p (world c') (parcel c')
  | _ => world c' = set_open ({[n]} ∪ open_fds w) w /\ kept [] w p w (parcel c')
  end.
Proof.
  intros Hn Hr Ht Hp Ha Hrpc r c' E. unfold bind, on_parcel in E. cbn [world parcel] in E.
  destruct (appends_i32 0 p Ha (po_size p Hp)) as (r1 & bs & E1 & Hs). rewrite E1 in E.
  pose proof (kept_appended bs w p Ht Hp Hs) as K1. pose proof (appended_appendable bs p Ha) as A1.
  destruct r1 as [[] | e |]; [| by injection E as <- <-..].
  pose proof (kp_parcel _ _ _ _ _ K1) as P1. rewrite write_object_at in E by done.
  destruct (flat_fd_fields n Hr) as [F1 F2].
  destruct (Z.leb_spec (zlen (data (appended bs p)) + FLAT_BINDER_SIZE) i32_max); [| by injection E as <- <-].
  change (ParcelObjects.acquire _ _ _ _ _) with (Ok tt : outcome StatusCode unit, set_open ({[n]} ∪ open_fds w) w) in E.
  cbn [orb] in E. cbv iota in E. injection E as <- <-. cbn [world parcel]. split; [by apply (appended_appendable _ (appended bs p)) |].
  apply (kept_trans [] [] w p w (appended bs p)); [done |].
  apply kept_pushed; try done; rewrite ?F1, ?F2; cbn; intros x; [rewrite count_nil; lia | by apply has_opened].
Qed.

(** A change of the RPC fields that adds a descriptor, or none. *)
Lemma kept_rpc_fields extra w w' p r0 r :
  rpc p = Some r0 -> table_reachable (natives w) -> parcel_ok p -> natives w' = natives w -> double_closes w' = double_closes w ->
  (forall fd, has fd (open_fds w') + count fd (fds_out r0 ++ omap id (fds_in r0))
            = has fd (open_fds w) + count fd (fds_out r ++ omap id (fds_in r)) + count fd extra) ->
  kept extra w p w' (set_rpc (Some r) p).
Proof.
  intros Er Ht [H1 H2 H3 H4 H5] En Ed Hf.
  assert (Ei : is_for_rpc p = true) by (unfold is_for_rpc; by rewrite Er).
  split; rewrite ?En, ?Ei; try done; [split; try done; intros _; by apply H4 |].
  intros fd. unfold owned_fds. change (object_flats (set_rpc (Some r) p)) with (object_flats p).
  change (rpc_fds (set_rpc (Some r) p)) with (fds_out r ++ omap id (fds_in r)). unfold rpc_fds. rewrite Er, !count_app.
  specialize (Hf fd). rewrite !count_app in Hf. lia.
Qed.

Lemma appendable_rpc p r : appendable (set_rpc r p) <-> appendable p.
Proof. done. Qed.

Lemma keeps_on_bind {A B} (m : P A) (k : A -> P B) : keeps (on_parcel m) -> (forall a, keeps (on_parcel (k a))) -> keeps (on_parcel (bind m k)).
Proof.
  intros Hm Hk w p Ht Hp Ha r c' E. refine (keeps_then (on_parcel m) (fun a => on_parcel (k a)) Hm Hk w p Ht Hp Ha r c' _).
  rewrite <- E. unfold on_parcel, bind. cbn. by destruct (m p) as [[a | e |] p1].
Qed.

Lemma keeps_record x : keeps (on_parcel (modify (rpc_record_object_position x))).
Proof.
  intros w p Ht Hp Ha r c' E. cbn in E. injection E as <- <-. cbn. unfold rpc_record_object_position, on_rpc.
  destruct (rpc p) as [r0 |] eqn:Er; [| split; [by apply kept_refl | done]].
  split; [| done]. apply (kept_rpc_fields [] w w p r0); try done. intros fd. rewrite count_nil. cbn. lia.
Qed.

Lemma keeps_fd_rpc r0 fd w p : table_reachable (natives w) -> parcel_ok p -> appendable p -> rpc p = Some r0 ->
  keeps_from w p (serialize_fd_rpc fcntl_dupfd_cloexec r0 fd).
Proof using dup_fresh.
  intros Ht Hp Ha Er. unfold serialize_fd_rpc. destruct (fd_mode r0); [by apply (keeps_lift (Err StBadType)) |].
  intros r c' E. refine (keeps_from_then w p (let* n := on_world (dup_fd fd) in on_parcel (rpc_push_out_fd n)) _ _ _ r c' _);
    [| | rewrite <- E; unfold bind; by destruct (on_world _ _) as [[n | e |] c1]].
  - clear r c' E. intros r c' E. unfold bind, on_world, on_parcel in E. cbn [world parcel] in E.
    destruct (dup_cases fd w) as [(e & Ed) | (n & Ed & Hn & _)]; rewrite Ed in E; [injection E as <- <-; split; [by apply kept_refl | done] |].
    unfold rpc_push_out_fd in E. cbn [parcel] in E. rewrite Er in E. cbn [push_out_fd] in E. injection E as <- <-. cbn [world parcel].
    split; [| by apply appendable_rpc]. apply (kept_rpc_fields [] w _ p r0); try done.
    intros x. cbn. rewrite has_opened, count_nil by done. rewrite !count_app. lia.
  - intros idx. destruct (record_fd_positions r0); repeat first [apply keeps_plain; apply appends_i32 || apply appends_position | apply keeps_record | apply keeps_on_bind; [| intros ?]].
Qed.

Lemma keeps_fd fd w p : table_reachable (natives w) -> parcel_ok p -> appendable p -> keeps_from w p (serialize_fd fd).
Proof using dup_fresh.
  intros Ht Hp Ha r c' E. unfold ParcelObjects.serialize_fd, bind at 1, on_parcel at 1, get at 1 in E. cbn [world parcel] in E.
  destruct (rpc p) as [r0 |] eqn:Er; [by apply (keeps_fd_rpc r0 fd w p Ht Hp Ha Er) in E |].
  unfold bind at 1, on_parcel at 1 in E. cbn [world parcel] in E.
  destruct (appends_i32 1 p Ha (po_size p Hp)) as (r1 & bs & E1 & Hs). rewrite E1 in E.
  pose proof (kept_appended bs w p Ht Hp Hs) as K1. pose proof (appended_appendable bs p Ha) as A1.
  destruct r1 as [[] | e |]; [| by injection E as <- <-..]. pose proof (kp_parcel _ _ _ _ _ K1) as P1.
  assert (Hlast : kept [] w (appended bs p) (world c') (parcel c') /\ appendable (parcel c')).
  { unfold bind at 1, on_world in E. cbn [world parcel] in E.
    destruct (dup_cases fd w) as [(e & Ed) | (n & Ed & Hn & Hr)]; rewrite Ed in E; [injection E as <- <-; split; [by apply kept_refl | done] |].
    apply (keeps_owning n w (appended bs p) _ Hn Ht P1) in E; [done |]. by apply keeps_fd_body. }
  destruct Hlast as [K2 A2]. split; [| done]. by apply (kept_trans [] [] w p w (appended bs p)).
Qed.

(** ** Copies *)

Lemma upto_last_laid offset size lo l hi : laid lo l hi -> laid lo (upto_last offset size l) (offset + size).
Proof.
  revert lo. induction l as [| x l IH]; intros lo Hl; [done |]. destruct Hl as (A & B & C). cbn [upto_last].
  specialize (IH _ C). destruct (upto_last offset size l) as [| y r].
  - unfold in_copied. destruct (_ && _) eqn:E; [| done]. cbn. lia.
  - cbn in *. unfold FLAT_BINDER_SIZE in *. destruct IH as (D1 & D2 & D3). split_and!; [lia | lia | lia | lia | done].
Qed.

Lemma copied_laid offset size lo l hi : laid lo l hi -> laid offset (copied_objects offset size l) (offset + size).
Proof.
  revert lo. induction l as [| x l IH]; intros lo Hl; [done |]. destruct Hl as (A & B & C). cbn [copied_objects].
  destruct (in_copied offset size x) eqn:E; [| by apply (IH _ C)]. unfold in_copied in E. cbn.
  split_and!; [lia | lia |]. by apply (upto_last_laid offset size _ _ hi).
Qed.

Lemma upto_last_elem offset size l x : x ∈ upto_last offset size l -> x ∈ l.
Proof.
  induction l as [| y l IH]; [done |]. cbn [upto_last]. destruct (upto_last offset size l) as [| z r] eqn:E.
  - destruct (in_copied offset size y); [| by intros ?%elem_of_nil]. intros ->%list_elem_of_singleton. by left.
  - intros [-> | Hx]%elem_of_cons; [by left | right; by apply IH].
Qed.

Lemma copied_elem offset size l x : x ∈ copied_objects offset size l -> x ∈ l.
Proof.
  induction l as [| y l IH]; [done |]. cbn [copied_objects]. destruct (in_copied offset size y); [| right; by apply IH].
  intros [-> | Hx]%elem_of_cons; [by left | right; by apply (upto_last_elem offset size)].
Qed.

(** The block that is copied has the objects of the source. *)
Lemma flat_at_block d d0 offset size src :
  0 <= offset -> offset + size <= zlen d0 -> offset <= src -> src + FLAT_BINDER_SIZE <= offset + size ->
  flat_at (d ++ ztake size (zdrop offset d0)) (src - offset + zlen d) = flat_at d0 src.
Proof.
  intros H1 H2 H3 H4. unfold FLAT_BINDER_SIZE in *. rewrite flat_at_skip by lia.
  rewrite <- (ztake_zdrop offset d0) at 2. rewrite flat_at_skip by (rewrite zlen_ztake; lia).
  rewrite zlen_ztake by lia. rewrite <- (ztake_zdrop size (zdrop offset d0)) at 2.
  rewrite flat_at_app; [| lia | rewrite zlen_ztake; unfold FLAT_BINDER_SIZE; rewrite ?zlen_zdrop; lia]. f_equal. lia.
Qed.

(** The objects of a block that was copied to the end of [p]. *)
Definition block_copied (other p : Parcel) (offset size : Z) (r : outcome StatusCode (Z * list Z)) (bs : list byte) : Prop :=
  match r with
  | Ok (start, srcs) => srcs = [] \/
      (rpc p = None /\ start = zlen (data p) /\ bs = ztake size (zdrop offset (data other)) /\
       offset + size <= zlen (data other) /\ srcs = copied_objects offset size (objects other))
  | _ => True
  end.

Lemma append_data_cases other offset size p :
  0 <= offset -> 0 <= size -> parcel_ok p -> appendable p ->
  exists r bs, append_data other offset size p = (r, appended bs p) /\ zlen (data p) + zlen bs <= i32_max /\
    block_copied other p offset size r bs.
Proof.
  intros H1 H2 Hp Ha. pose proof (po_size p Hp). pose proof (zlen_nonneg (data p)).
  assert (Hn : forall r : outcome StatusCode (Z * list Z), (forall a b, r = Ok (a, b) -> b = []) ->
    exists r' bs, (r, p) = (r', appended bs p) /\ zlen (data p) + zlen bs <= i32_max /\ block_copied other p offset size r' bs).
  { intros r Hr. exists r, []. rewrite appended_nil, zlen_nil by done. split_and!; [done | lia |].
    destruct r as [[a b] | |]; try done. left. by apply (Hr a b). }
  unfold append_data. destruct (Z.eqb_spec size 0); [apply (Hn (Ok (0, []))); by intros a b [= _ <-] |].
  destruct (Z.ltb_spec i32_max size); [by apply (Hn (Err StBadValue)) |].
  destruct (_ || _) eqn:Eo; [by apply (Hn (Err StBadValue)) |].
  unfold bind at 1, data_position at 1. unfold bind at 1, lift at 1.
  rewrite (proj2 Ha), end_position_small by lia.
  destruct (Z.leb_spec (zlen (data p) + size) i32_max); [| by apply (Hn (Err StBadValue))].
  set (bs := ztake size (zdrop offset (data other))).
  assert (Lb : zlen bs = size) by (apply zlen_ztake; rewrite zlen_zdrop; lia).
  assert (Hm : forall k : Parcel -> outcome StatusCode (Z * list Z),
    (let* _ := reserve in let* _ := modify (fun p => set_data (splice (data p) (zlen (data p)) bs size) p) in
     let* _ := set_data_position (zlen (data p) + size) in let* q := get in lift (k q)) p = (k (appended bs p), appended bs p)).
  { intros k. unfold bind, reserve, modify, set_data_position, get, lift. rewrite (proj1 Ha). cbn.
    rewrite splice_end, <- Lb, Z.sub_diag, app_nil_r by lia. unfold appended. by rewrite Lb. }
  exists (if bool_decide (copied_objects offset size (objects other) = []) || is_for_rpc p then Ok (zlen (data p), [])
          else Ok (zlen (data p), copied_objects offset size (objects other))), bs.
  split_and!; [| lia |].
  - rewrite <- (Hm (fun q => if bool_decide (copied_objects offset size (objects other) = []) || is_for_rpc q then Ok (zlen (data p), [])
                             else Ok (zlen (data p), copied_objects offset size (objects other)))).
    unfold bind, reserve, modify, set_data_position, get, lift. rewrite (proj1 Ha). cbn.
    change (is_for_rpc (set_pos _ _)) with (is_for_rpc p). change (is_for_rpc (appended bs p)) with (is_for_rpc p).
    rewrite (po_objects p Hp). by destruct (bool_decide _ || is_for_rpc p).
  - destruct (bool_decide _ || is_for_rpc p) eqn:Eb; [by left |]. right. apply orb_false_iff in Eb as [_ Eb].
    split_and!; try done; [unfold is_for_rpc in Eb; by destruct (rpc p) | lia].
Qed.

Lemma flat_at_range d x f : flat_at d x = Some f -> in_u 32 (fbo_type f) /\ in_u 64 (fbo_binder f) /\ in_u 64 (fbo_cookie f).
Proof.
  unfold flat_at, read_flat_binder. destruct (get_range d x (x + FLAT_BINDER_SIZE)) as [bs |] eqn:E; [| done]. cbn. intros [= <-].
  apply get_range_zlen in E. unfold FLAT_BINDER_SIZE in E. unfold flat_of_bytes, in_u. cbn [fbo_type fbo_binder fbo_cookie].
  assert (Hz : forall n m, 0 <= m -> 0 <= n -> m + n <= 24 -> zlen (ztake n (zdrop m bs)) = n).
  { intros n m ? ? ?. apply zlen_ztake. rewrite zlen_zdrop; lia. }
  pose proof (of_le_bound (ztake 4 bs)) as B1. pose proof (of_le_bound (ztake 8 (zdrop 8 bs))) as B2. pose proof (of_le_bound (ztake 8 (zdrop 16 bs))) as B3.
  rewrite (Hz 8 8) in B2 by lia. rewrite (Hz 8 16) in B3 by lia. rewrite zlen_ztake in B1 by lia. done.
Qed.

(** The object of a duplicated descriptor. *)
Lemma renewed_fd f n : in_u 32 (fbo_type f) -> in_u 64 (fbo_binder f) -> fbo_type f = BINDER_TYPE_FD -> 0 <= n < 2 ^ 31 ->
  let f' := flat_set_cookie 1 (flat_set_handle n f) in
  native_id (reread f') = None /\ owned_fd (reread f') = Some n.
Proof.
  intros Ht Hb Hty Hn f'. assert (En : wrap_u 32 n = n) by (apply wrap_u_small; unfold in_u; lia).
  pose proof (Z_div_mod_eq_full (fbo_binder f) (2 ^ 32)) as Hd. pose proof (Z.mod_pos_bound (fbo_binder f) (2 ^ 32) ltac:(lia)) as Hm.
  assert (Hq : 0 <= fbo_binder f / 2 ^ 32 <= 2 ^ 32 - 1) by (unfold in_u in Hb; split; [apply Z.div_pos; lia | apply Z.lt_le_pred, Z.div_lt_upper_bound; lia]).
  assert (Ef : fbo_binder f' = 2 ^ 32 * (fbo_binder f / 2 ^ 32) + n).
  { cbn. rewrite En. unfold flat_handle, wrap_u. lia. }
  assert (R2 : in_u 64 (fbo_binder f')) by (rewrite Ef; unfold in_u; lia).
  destruct (reread_fields f' Ht R2 ltac:(by vm_compute)) as (E1 & E2 & E3).
  assert (Eh : flat_handle (reread f') = n).
  { unfold flat_handle. rewrite E2, Ef. unfold wrap_u. rewrite Z.add_comm, Z.mul_comm, Z_mod_plus_full. apply Z.mod_small. lia. }
  unfold native_id, owned_fd. rewrite E1, E3, Eh. cbn. by rewrite Hty.
Qed.

Lemma acquired_copy id w : table_reachable (natives w) -> id <> 0 ->
  1 <= count id (NativeTable.objects (natives w)) + count id (held (natives w)) ->
  forall fl co, exists t, acquire false (mkFlat BINDER_TYPE_BINDER fl id co) w = (Ok tt, set_natives t w) /\ table_reachable t /\
    NativeTable.objects t = id :: NativeTable.objects (natives w) /\ lost t = lost (natives w) /\ held t = held (natives w).
Proof.
  intros Hr Hz Hc fl co. pose proof (inv_reachable _ Hr) as Hi. destruct (acquired (natives w) id (ti_live _ Hi id Hc)) as (G1 & G2 & G3 & G4).
  exists (acquire_object id (natives w)). split_and!; [| | done..].
  - unfold ParcelObjects.acquire. change (fbo_type _ =? BINDER_TYPE_BINDER) with true. cbv iota. cbn [fbo_binder].
    rewrite (proj2 (Z.eqb_neq id 0)) by done. cbn [negb]. by rewrite G1.
  - apply (table_act (CloneObject id) (natives w)); [done |]. cbn [act].
    replace (existsb (Z.eqb id) (NativeTable.objects (natives w) ++ held (natives w))) with true; [done |]. symmetry.
    apply existsb_exists. rewrite <- count_app in Hc. unfold count in Hc. apply tally_some in Hc as (x & Hx & E). exists x. split; [by apply list_elem_of_In | done].
Qed.

(** [f] names a binder that the table has. *)
Definition backed (t : Table) (f : flat_binder_object) : Prop :=
  forall id, native_id f = Some id -> 1 <= count id (NativeTable.objects t) + count id (held t).

Lemma acquire_copy f w : table_reachable (natives w) -> backed (natives w) f ->
  exists r w1, acquire false f w = (r, w1) /\
  match r with
  | Ok _ => table_reachable (natives w1) /\ lost (natives w1) = lost (natives w) /\ held (natives w1) = held (natives w) /\
      double_closes w1 = double_closes w /\ open_fds w1 = open_fds w /\
      forall id, count id (NativeTable.objects (natives w1)) = count id (NativeTable.objects (natives w)) + count id (option_list (native_id f))
  | _ => w1 = w
  end.
Proof.
  intros Hr Hb. destruct f as [ty fl id co].
  assert (Hz : forall r, acquire false (mkFlat ty fl id co) w = (r, w) -> native_id (mkFlat ty fl id co) = None -> exists r w1, acquire false (mkFlat ty fl id co) w = (r, w1) /\
    match r with Ok _ => table_reachable (natives w1) /\ lost (natives w1) = lost (natives w) /\ held (natives w1) = held (natives w) /\
      double_closes w1 = double_closes w /\ open_fds w1 = open_fds w /\
      forall i, count i (NativeTable.objects (natives w1)) = count i (NativeTable.objects (natives w)) + count i (option_list (native_id (mkFlat ty fl id co))) | _ => w1 = w end).
  { intros r E En. exists r, w. rewrite En. split; [done |]. destruct r; split_and?; try done. intros i. cbn. rewrite count_nil. lia. }
  destruct (Z.eqb_spec ty BINDER_TYPE_BINDER) as [-> | Hty].
  - destruct (Z.eqb_spec id 0) as [-> | Hid]; [by apply (Hz (Ok tt)) |].
    assert (En : native_id (mkFlat BINDER_TYPE_BINDER fl id co) = Some id) by (unfold native_id; cbn; by rewrite (proj2 (Z.eqb_neq id 0))).
    destruct (acquired_copy id w Hr Hid (Hb id En) fl co) as (t & E & R & O & L & G). exists (Ok tt), (set_natives t w).
    split_and!; try done. intros i. rewrite En. cbn. rewrite O, !count_cons, count_nil. lia.
  - assert (En : native_id (mkFlat ty fl id co) = None) by (unfold native_id; cbn; by rewrite (proj2 (Z.eqb_neq _ _) Hty)).
    unfold ParcelObjects.acquire at 1 in Hz. cbn [fbo_type] in Hz. rewrite (proj2 (Z.eqb_neq _ _) Hty) in Hz.
    destruct (ty =? BINDER_TYPE_HANDLE) eqn:E1; [| destruct (ty =? BINDER_TYPE_FD) eqn:E2].
    + destruct (strong_proxy_for_handle_stability _ _) as [x | e |]; by eapply Hz.
    + by eapply Hz.
    + by eapply Hz.
Qed.

Lemma adopt_one offset start src lo f w p :
  let off := src - offset + start in
  table_reachable (natives w) -> parcel_ok p -> appendable p -> rpc p = None ->
  laid 0 (objects p) lo -> 0 <= lo <= off -> off + FLAT_BINDER_SIZE <= zlen (data p) -> flat_at (data p) off = Some f -> backed (natives w) f ->
  forall r c', adopt_object offset start src (mkCx w p) = (r, c') ->
  kept [] w p (world c') (parcel c') /\ appendable (parcel c') /\
  match r with
  | Ok _ => objects (parcel c') = objects p ++ [off] /\ zlen (data (parcel c')) = zlen (data p) /\ rpc (parcel c') = None /\
      (forall x, off + FLAT_BINDER_SIZE <= x -> flat_at (data (parcel c')) x = flat_at (data p) x) /\
      (forall g, backed (natives w) g -> backed (natives (world c')) g)
  | _ => True
  end.
Proof using dup_fresh.
  intros off Hr Hp Ha Hrpc Hl Hlo Hoff Ef Hb r c' E. pose proof (po_size p Hp) as Hs.
  assert (Ew : wrap_u ptr_bits (src - offset + start) = off).
  { apply wrap_u_small. unfold in_u. unfold FLAT_BINDER_SIZE, i32_max in *. destruct ptr_bits_ok as [-> | ->]; lia. }
  unfold ParcelObjects.adopt_object in E. rewrite Ew in E. unfold bind at 1, on_parcel at 1, get at 1 in E. cbn [world parcel] in E.
  assert (Er : read_flat_binder (data p) off = Ok f) by (unfold flat_at in Ef; destruct (read_flat_binder (data p) off); by simplify_eq).
  unfold bind at 1, lift at 1 in E. rewrite Er in E. unfold bind at 1, on_world at 1 in E. cbn [world parcel] in E.
  destruct (acquire_copy f w Hr Hb) as (ra & w1 & Ea & Hra). rewrite Ea in E.
  destruct ra as [[] | e |]; [| subst w1; injection E as <- <-; split; [by apply kept_refl | done]..].
  destruct Hra as (T1 & L1 & G1 & D1 & O1 & C1). destruct (flat_at_range _ _ _ Ef) as (R1 & R2 & R3).
  assert (Hmore : forall w2, natives w2 = natives w1 -> forall g, backed (natives w) g -> backed (natives w2) g).
  { intros w2 -> g Hg id Eid. specialize (Hg id Eid). rewrite C1, G1. pose proof (count_bounds id (option_list (native_id f))). lia. }
  destruct (Z.eqb_spec (fbo_type f) BINDER_TYPE_FD) as [Hty | Hty].
  - unfold bind at 1 in E. unfold bind at 1, on_world at 1 in E. cbn [world parcel] in E.
    destruct (dup_cases (flat_handle f) w1) as [(e & Ed) | (n & Ed & Hn & Hnr)]; rewrite Ed in E.
    { injection E as <- <-. cbn [world parcel]. split; [| done]. destruct w as [t i o d], w1 as [t1 i1 o1 d1]. cbn in *.
      split; cbn; try done; intros x; [| rewrite O1, count_nil; lia]. rewrite C1. unfold native_id. rewrite Hty. cbn. rewrite count_nil. lia. }
    set (f' := flat_set_cookie 1 (flat_set_handle n f)) in *. destruct (renewed_fd f n R1 R2 Hty Hnr) as [F1 F2]. fold f' in F1, F2.
    assert (Lf : zlen (flat_bytes f') = FLAT_BINDER_SIZE) by apply zlen_flat.
    assert (Ewr : write_flat_binder (data p) off f' = Ok (ztake off (data p) ++ flat_bytes f' ++ zdrop (off + zlen (flat_bytes f')) (data p))).
    { unfold write_flat_binder. rewrite Lf. unfold read_flat_binder in Er. by destruct (get_range _ _ _). }
    unfold bind at 1, lift at 1 in E. rewrite Ewr in E. unfold modify, on_parcel at 1 in E. cbn [world parcel] in E.
    unfold on_parcel, push_object in E. cbn [parcel world objects_backing set_data] in E. rewrite (po_objects p Hp) in E. injection E as <- <-. cbn [world parcel].
    set (d' := ztake off (data p) ++ flat_bytes f' ++ zdrop (off + zlen (flat_bytes f')) (data p)) in *.
    assert (Ld : zlen d' = zlen (data p)) by (unfold d'; rewrite !zlen_app, Lf, zlen_ztake, zlen_zdrop by (unfold FLAT_BINDER_SIZE in *; lia); unfold FLAT_BINDER_SIZE in *; lia).
    assert (Hd : forall x, 0 <= x -> x + FLAT_BINDER_SIZE <= off \/ off + FLAT_BINDER_SIZE <= x -> flat_at d' x = flat_at (data p) x)
      by (intros x H3 H4; apply flat_at_patch; rewrite ?Lf; lia).
    split_and!; try done; [| by destruct Ha; split; cbn; [| rewrite Ld] | intros x Hx; apply Hd; [unfold FLAT_BINDER_SIZE in *; lia | by right] | by apply Hmore].
    apply (kept_entered (reread f') off); try done; cbn [data set_data set_objects world]; rewrite ?Ld; try done; try lia.
    + by apply (laid_weaken 0 0 _ lo); [| lia |].
    + apply (po_data p Hp).
    + apply (po_objects p Hp).
    + intros x H3 H4. apply Hd; [done | by left].
    + unfold d'. rewrite <- (zlen_ztake off (data p)) at 3 by (unfold FLAT_BINDER_SIZE in *; lia). apply flat_at_here.
    + intros i. rewrite F1. cbn. rewrite C1. unfold native_id. rewrite Hty. done.
    + intros x. rewrite F2. cbn. rewrite has_opened, O1 by done. done.
  - unfold bind at 1, ret at 1 in E. unfold on_parcel, push_object in E. cbn [parcel world] in E. rewrite (po_objects p Hp) in E. injection E as <- <-. cbn [world parcel].
    split_and!; try done; [| by apply Hmore].
    apply (kept_entered f off); try done; [by apply (laid_weaken 0 0 _ lo); [| lia |] | lia | apply (po_data p Hp) | apply (po_objects p Hp) | rewrite O1].
    intros x. unfold owned_fd. rewrite (proj2 (Z.eqb_neq _ _) Hty). cbn. rewrite count_nil. lia.
Qed.

Lemma keeps_adopt offset start srcs : forall lo w p,
  table_reachable (natives w) -> parcel_ok p -> appendable p -> rpc p = None -> laid 0 (objects p) lo -> 0 <= lo ->
  laid lo ((fun src => src - offset + start) <$> srcs) (zlen (data p)) ->
  (forall src, src ∈ srcs -> exists f, flat_at (data p) (src - offset + start) = Some f /\ backed (natives w) f) ->
  keeps_from w p (adopt_objects offset start srcs).
Proof using dup_fresh.
  induction srcs as [| src srcs IH]; intros lo w p Hr Hp Ha Hrpc Hl Hlo Hs Hf; [by apply (keeps_lift (Ok tt)) |].
  destruct Hs as (S1 & S2 & S3). destruct (Hf src ltac:(by left)) as (f & Ef & Hb). intros r c' E.
  cbn [ParcelObjects.adopt_objects] in E. unfold bind at 1 in E. destruct (adopt_object offset start src (mkCx w p)) as [r1 [w1 p1]] eqn:E1.
  destruct (adopt_one offset start src lo f w p Hr Hp Ha Hrpc Hl ltac:(lia) S2 Ef Hb r1 _ E1) as (K1 & A1 & H1). cbn [world parcel] in *.
  destruct r1 as [[] | e |]; [| by injection E as <- <-..]. destruct H1 as (Eo & Ez & Er & Hd & Hk).
  assert (K2 : kept [] w1 p1 (world c') (parcel c') /\ appendable (parcel c')).
  { refine (IH (src - offset + start + FLAT_BINDER_SIZE) w1 p1 (kp_table _ _ _ _ _ K1) (kp_parcel _ _ _ _ _ K1) A1 Er _ _ _ _ r c' E).
    - rewrite Eo. apply (laid_snoc 0 _ lo); [done | lia..].
    - unfold FLAT_BINDER_SIZE. lia.
    - by rewrite Ez.
    - intros s Hin. destruct (Hf s ltac:(by right)) as (g & Eg & Bg). exists g. split; [| by apply Hk]. rewrite Hd; [done |].
      apply (laid_elem _ _ _ (s - offset + start)) in S3; [lia |]. apply list_elem_of_fmap. by exists s. }
  destruct K2 as [K2 A2]. split; [| done]. by apply (kept_trans [] [] w p w1 p1).
Qed.

Lemma flat_at_some d x : 0 <= x -> x + FLAT_BINDER_SIZE <= zlen d -> is_Some (flat_at d x).
Proof.
  intros H1 H2. unfold flat_at, read_flat_binder. unfold FLAT_BINDER_SIZE in *.
  destruct (get_range d x (x + 24)) as [b |] eqn:E; [by eexists |]. unfold get_range in E.
  by rewrite !(proj2 (Z.leb_le _ _)) in E by lia.
Qed.

Lemma laid_shift lo l hi a b : laid lo l hi -> laid (lo - a + b) ((fun x => x - a + b) <$> l) (hi - a + b).
Proof.
  revert lo. induction l as [| x l IH]; intros lo; cbn; [done |]. intros (A & B & C). split_and!; [lia | lia |].
  specialize (IH _ C). by replace (x - a + b + FLAT_BINDER_SIZE) with (x + FLAT_BINDER_SIZE - a + b) by lia.
Qed.

(** What a parcel that is copied from has: objects in order that name binders the table has. *)
Definition source_ok (t : Table) (other : Parcel) : Prop :=
  laid 0 (objects other) (zlen (data other)) /\ forall f, f ∈ object_flats other -> backed t f.

Lemma keeps_append other offset size w p : 0 <= offset -> 0 <= size ->
  table_reachable (natives w) -> parcel_ok p -> appendable p -> source_ok (natives w) other ->
  keeps_from w p (append_from other offset size).
Proof using dup_fresh.
  intros H1 H2 Hr Hp Ha [Hl Hb] r c' E. unfold ParcelObjects.append_from, bind at 1, on_parcel in E. cbn [world parcel] in E.
  destruct (append_data_cases other offset size p H1 H2 Hp Ha) as (r1 & bs & E1 & Hs & Hc). rewrite E1 in E.
  pose proof (kept_appended bs w p Hr Hp Hs) as K1. pose proof (appended_appendable bs p Ha) as A1.
  destruct r1 as [[start srcs] | e |]; [| by injection E as <- <-..]. cbn [fst snd] in E.
  assert (K2 : kept [] w (appended bs p) (world c') (parcel c') /\ appendable (parcel c')).
  { destruct Hc as [-> | (Er & -> & -> & Hsz & ->)]; [injection E as <- <-; split; [apply kept_refl; [done | apply K1] | done] |].
    pose proof (zlen_nonneg (data p)). pose proof (copied_laid offset size 0 _ _ Hl) as Hcl.
    refine (keeps_adopt offset (zlen (data p)) _ (zlen (data p)) w _ Hr (kp_parcel _ _ _ _ _ K1) A1 Er (po_laid p Hp) ltac:(lia) _ _ r c' E).
    - pose proof (laid_shift _ _ _ offset (zlen (data p)) Hcl) as Hx. cbn. rewrite zlen_app, zlen_ztake by (rewrite zlen_zdrop; lia).
      replace (offset - offset + zlen (data p)) with (zlen (data p)) in Hx by lia. by replace (zlen (data p) + size) with (offset + size - offset + zlen (data p)) by lia.
    - intros src Hin. destruct (laid_elem _ _ _ src Hcl Hin). destruct (flat_at_some (data other) src ltac:(lia) ltac:(lia)) as [f Ef].
      exists f. cbn. rewrite flat_at_block by lia. split; [done |]. apply Hb. apply list_elem_of_omap. exists src.
      split; [by apply (copied_elem offset size) | done]. }
  destruct K2 as [K2 A2]. split; [| done]. by apply (kept_trans [] [] w p w (appended bs p)).
Qed.

(** ** The end of a parcel *)

(** The references [ids] and descriptors [fds] are given back. *)
Record returned (ids fds : list Z) (w w' : World) : Prop := mkReturned {
  rt_table : table_reachable (natives w');
  rt_lost : lost (natives w') = lost (natives w);
  rt_held : held (natives w') = held (natives w);
  rt_ids : forall id, count id (NativeTable.objects (natives w')) + count id ids = count id (NativeTable.objects (natives w));
  rt_fds : forall fd, has fd (open_fds w') + count fd fds = has fd (open_fds w);
  rt_closes : double_closes w' = double_closes w
}.

Lemma returned_trans i1 i2 f1 f2 w1 w2 w3 : returned i1 f1 w1 w2 -> returned i2 f2 w2 w3 -> returned (i1 ++ i2) (f1 ++ f2) w1 w3.
Proof.
  intros [A1 A2 A3 A4 A5 A6] [B1 B2 B3 B4 B5 B6]. split; try congruence; intros x; rewrite count_app;
    [specialize (A4 x); specialize (B4 x) | specialize (A5 x); specialize (B5 x)]; lia.
Qed.

Lemma unpublish_counted id t : table_reachable t -> 1 <= count id (NativeTable.objects t) ->
  (exists e, published_natives t !! id = Some e /\ (publish_count e =? 0) = false) /\
  table_reachable (snd (unpublish id t)) /\ lost (snd (unpublish id t)) = lost t /\ held (snd (unpublish id t)) = held t /\
  NativeTable.objects (snd (unpublish id t)) = remove_one id (NativeTable.objects t).
Proof.
  intros Hr Hc. pose proof (inv_reachable t Hr) as Hi.
  destruct (ti_live t Hi id) as [e Ee]; [pose proof (count_bounds id (held t)); lia |]. destruct (ti_counts t Hi id e Ee) as (C1 & _).
  split; [exists e; split; [done | apply Z.eqb_neq; lia] |].
  set (t1 := snd (decref_publish id (NativeTable.set_objects (remove_one id (NativeTable.objects t)) t))).
  assert (Hx : existsb (Z.eqb id) (NativeTable.objects t) = true).
  { unfold count in Hc. apply tally_some in Hc as (x & Hx & E). apply existsb_exists. exists x. split; [by apply list_elem_of_In | done]. }
  assert (R1 : table_reachable t1) by (apply (table_act (Release id) t); [done |]; cbn [act]; by rewrite Hx).
  assert (F1 : lost t1 = lost t /\ held t1 = held t /\ NativeTable.objects t1 = remove_one id (NativeTable.objects t)).
  { unfold t1, decref_publish. cbn. rewrite Ee. cbn. by destruct (is_unused _). }
  assert (Eg : snd (unpublish id t) = if existsb (Z.eqb id) (removing t1) then remove_entry_if_zero id (set_removing (remove_one id (removing t1)) t1) else t1).
  { unfold unpublish. fold t1. unfold t1. by destruct (decref_publish id _) as [b t2]. }
  rewrite Eg. destruct (existsb (Z.eqb id) (removing t1)) eqn:Er; [| done]. split.
  - apply (table_act (Remove id) t1); [done |]. cbn [act]. by rewrite Er.
  - unfold remove_entry_if_zero. cbn. destruct (published_natives t1 !! id) as [e1 |]; [| done]. by destruct (is_unused e1).
Qed.

Lemma release_one f w : table_reachable (natives w) ->
  (forall id, native_id f = Some id -> 1 <= count id (NativeTable.objects (natives w))) ->
  (forall fd, owned_fd f = Some fd -> fd ∈ open_fds w) ->
  exists r w', release f w = (r, w') /\ r <> Panic /\ returned (option_list (native_id f)) (option_list (owned_fd f)) w w'.
Proof using proxy_safe.
  intros Hr Hi Hf. destruct f as [ty fl id co]. unfold native_id, owned_fd in *. cbn [fbo_type fbo_binder fbo_cookie] in *.
  assert (Hz : returned [] [] w w) by (split; try done; intros x; rewrite count_nil; lia).
  unfold ParcelObjects.release. cbn [fbo_type fbo_binder fbo_cookie].
  destruct (Z.eqb_spec ty BINDER_TYPE_BINDER) as [-> | Hty]; cbn [andb] in *.
  - destruct (Z.eqb_spec id 0) as [-> | Hid]; cbn [negb] in *; [by exists (Ok tt), w |].
    destruct (unpublish_counted id (natives w) Hr (Hi id eq_refl)) as ((e & Ee & He) & R & L & G & O). rewrite Ee, He. cbn [andb].
    eexists (Ok tt), _. split; [done |]. split; [done |]. split; cbn; try done; intros x.
    + rewrite O, count_remove, count_one. destruct (Z.eqb_spec id x) as [<- |]; cbn; [| lia].
      rewrite (proj2 (Z.leb_le _ _) (Hi id eq_refl)). cbn. lia.
    + rewrite count_nil. lia.
  - destruct (Z.eqb_spec ty BINDER_TYPE_HANDLE) as [-> | Hty2].
    + destruct (strong_proxy_for_handle_stability _ _) as [l | e |] eqn:Ep; [by exists (Ok tt), w | by exists (Err e), w | by apply proxy_safe in Ep].
    + destruct (Z.eqb_spec ty BINDER_TYPE_FD) as [-> | Hty3]; cbn [andb] in *; [| by eexists _, w].
      destruct (negb (co =? 0)); [| by exists (Ok tt), w].
      pose proof (Hf _ eq_refl) as Ho. destruct (close_open _ w 0 Ho) as (_ & C2 & C3).
      eexists (Ok tt), _. split; [done |]. split; [done |]. split; rewrite ?C3, ?C2; try done; intros x; [cbn; rewrite count_nil; lia |].
      by apply close_open.
Qed.

Lemma release_all d l : forall w,
  let fl := omap (flat_at d) l in
  table_reachable (natives w) ->
  (forall id, count id (omap native_id fl) <= count id (NativeTable.objects (natives w))) ->
  (forall fd, count fd (omap owned_fd fl) <= has fd (open_fds w)) ->
  exists w', release_each d l w = (Ok tt, w') /\ returned (omap native_id fl) (omap owned_fd fl) w w'.
Proof using proxy_safe.
  induction l as [| x l IH]; intros w fl Hr Hi Hf.
  { exists w. split; [done |]. split; try done; intros y; unfold fl; cbn; rewrite count_nil; lia. }
  cbn [ParcelObjects.release_each]. unfold fl in *. clear fl.
  destruct (read_flat_binder d x) as [f | e |] eqn:Er;
    [| rewrite (omap_cons_none (flat_at d)) in * by (unfold flat_at; by rewrite Er); by apply IH..].
  rewrite (omap_cons_some (flat_at d) x l f) in * by (unfold flat_at; by rewrite Er). cbn [omap list_omap] in Hi, Hf.
  assert (Hi1 : forall id, native_id f = Some id -> 1 <= count id (NativeTable.objects (natives w))).
  { intros id E. specialize (Hi id). rewrite E, count_cons, Z.eqb_refl in Hi. pose proof (count_bounds id (omap native_id (omap (flat_at d) l))). unfold omap in *. lia. }
  assert (Hf1 : forall fd, owned_fd f = Some fd -> fd ∈ open_fds w).
  { intros fd E. specialize (Hf fd). rewrite E, count_cons, Z.eqb_refl in Hf. pose proof (count_bounds fd (omap owned_fd (omap (flat_at d) l))). unfold has in Hf.
    destruct (bool_decide_reflect (fd ∈ open_fds w)); [done |]. unfold omap in *. cbn in Hf. lia. }
  destruct (release_one f w Hr Hi1 Hf1) as (r & w1 & E1 & Hp & R1).
  destruct (IH w1 (rt_table _ _ _ _ R1)) as (w2 & E2 & R2).
  - intros id. specialize (Hi id). pose proof (rt_ids _ _ _ _ R1 id) as H1. destruct (native_id f); cbn in H1; rewrite ?count_cons, ?count_nil in *; unfold omap in *; lia.
  - intros fd. specialize (Hf fd). pose proof (rt_fds _ _ _ _ R1 fd) as H1. destruct (owned_fd f); cbn in H1; rewrite ?count_cons, ?count_nil in *; unfold omap in *; lia.
  - exists w2. rewrite E1. split; [by destruct r |]. pose proof (returned_trans _ _ _ _ _ _ _ R1 R2) as R. cbn [omap list_omap]. revert R. by destruct (native_id f), (owned_fd f).
Qed.

Lemma close_all_returns fds : forall w, table_reachable (natives w) -> (forall fd, count fd fds <= has fd (open_fds w)) ->
  returned [] fds w (close_all fds w).
Proof.
  induction fds as [| fd fds IH]; intros w Hr Hf; [split; try done; intros x; rewrite count_nil; cbn; lia |].
  assert (Ho : fd ∈ open_fds w).
  { specialize (Hf fd). rewrite count_cons, Z.eqb_refl in Hf. pose proof (count_bounds fd fds). unfold has in Hf. destruct (bool_decide_reflect (fd ∈ open_fds w)); [done |]. cbn in Hf. lia. }
  destruct (close_open fd w 0 Ho) as (_ & C2 & C3).
  assert (R1 : returned [] [fd] w (close fd w)) by (split; rewrite ?C3; try done; intros x; [rewrite count_nil; lia | by apply close_open]).
  apply (returned_trans [] [] [fd] fds w (close fd w)); [done |]. apply IH; [by rewrite C3 |].
  intros x. specialize (Hf x). pose proof (rt_fds _ _ _ _ R1 x) as H1. rewrite count_cons in Hf. rewrite count_one in H1. destruct (fd =? x); cbn in *; lia.
Qed.

Lemma drop_returns p w : table_reachable (natives w) -> parcel_ok p ->
  (forall id, count id (native_ids p) <= count id (NativeTable.objects (natives w))) ->
  (forall fd, count fd (owned_fds p) <= has fd (open_fds w)) ->
  exists w', drop_parcel p w = (Ok tt, w') /\ returned (native_ids p) (owned_fds p) w w'.
Proof using proxy_safe.
  intros Hr Hp Hi Hf. unfold ParcelObjects.drop_parcel, release_objects, bind. destruct (is_for_rpc p) eqn:Er.
  - assert (Eo : object_flats p = []) by (unfold object_flats; by rewrite (po_rpc p Hp Er)).
    unfold native_ids, owned_fds, rpc_fds in *. rewrite Eo in *. cbn [omap list_omap app] in *. unfold is_for_rpc in Er.
    destruct (rpc p) as [r |]; [| done]. eexists. split; [done |]. by apply close_all_returns.
  - assert (En : rpc p = None) by (unfold is_for_rpc in Er; by destruct (rpc p)).
    unfold owned_fds, rpc_fds in *. rewrite En, app_nil_r in *. apply (release_all (data p) (objects p) w) in Hi as (w' & E & R); [| done | done].
    exists w'. by rewrite E.
Qed.

(** ** Readers *)

Definition moves_cursor {A} (m : P A) : Prop := forall p r p', m p = (r, p') -> exists n h, p' = set_hint h (set_pos n p).

Lemma cursor_stays p : exists n h, p = set_hint h (set_pos n p).
Proof. exists (pos p), (next_object_hint p). by destruct p. Qed.

Lemma cursor_lift {A} (r : outcome StatusCode A) : moves_cursor (lift r).
Proof. intros p r' p' [= <- <-]. apply cursor_stays. Qed.

Lemma cursor_get : moves_cursor get.
Proof. intros p r' p' [= <- <-]. apply cursor_stays. Qed.

Lemma cursor_bind {A B} (m : P A) (k : A -> P B) : moves_cursor m -> (forall a, moves_cursor (k a)) -> moves_cursor (bind m k).
Proof.
  intros Hm Hk p r p' E. unfold bind in E. destruct (m p) as [x p1] eqn:Em. destruct (Hm p x p1 Em) as (n & h & ->).
  destruct x as [a | e |]; [| by injection E as <- <-; exists n, h..].
  destruct (Hk a _ r p' E) as (n' & h' & ->). by exists n', h'.
Qed.

Lemma cursor_position : moves_cursor data_position.
Proof. intros p r p' [= <- <-]. apply cursor_stays. Qed.

Lemma cursor_seek n : moves_cursor (set_data_position n).
Proof. intros p r p' [= <- <-]. exists n, (next_object_hint p). by destruct p. Qed.

Lemma cursor_hint h : moves_cursor (modify (set_hint h)).
Proof. intros p r p' [= <- <-]. exists (pos p), h. by destruct p. Qed.

Lemma cursor_avail : moves_cursor data_avail.
Proof. intros p r p'. unfold data_avail. destruct (_ <? _); intros [= <- <-]; apply cursor_stays. Qed.

Lemma cursor_slice a b : moves_cursor (slice a b).
Proof. intros p r p'. unfold slice. destruct (get_range _ _ _); intros [= <- <-]; apply cursor_stays. Qed.

Lemma cursor_if {A} (b : bool) (m n : P A) : moves_cursor m -> moves_cursor n -> moves_cursor (if b then m else n).
Proof. by destruct b. Qed.

Ltac cursor := repeat first
  [ apply cursor_if | apply cursor_position | apply cursor_seek | apply cursor_hint | apply cursor_avail | apply cursor_slice
  | apply cursor_get | apply (cursor_lift (Err _)) | apply (cursor_lift (Ok _)) | apply cursor_lift | apply cursor_bind; [| intros ?] ].

Lemma cursor_i32 : moves_cursor read_i32.
Proof. unfold read_i32, read_int, read_fixed, read_aligned_data. cursor. Qed.

Lemma cursor_object b : moves_cursor (read_object b).
Proof. unfold read_object, read_aligned_data. cursor. case_match; cursor. Qed.

Lemma kept_cursor w p n h : table_reachable (natives w) -> parcel_ok p -> kept [] w p w (set_hint h (set_pos n p)).
Proof. intros Hr [? ? ? ? ?]. by apply kept_same. Qed.

(** The application has got the descriptors [extra]. *)
Record got (extra : list Z) (w w' : World) : Prop := mkGot {
  gt_natives : natives w' = natives w;
  gt_fds : forall fd, has fd (open_fds w') = has fd (open_fds w) + count fd extra;
  gt_closes : double_closes w' = double_closes w
}.

Definition extra_of (r : outcome StatusCode (option Z)) : list Z := match r with Ok (Some fd) => [fd] | _ => [] end.

Lemma got_nothing w : got [] w w.
Proof. split; try done. intros fd. rewrite count_nil. lia. Qed.

(** A step that moves the cursor and goes on. *)
Lemma on_cursor {A B} (m : P A) (k : A -> K B) w p r c' : moves_cursor m -> (let* a := on_parcel m in k a) (mkCx w p) = (r, c') ->
  (exists a n h, fst (m p) = Ok a /\ k a (mkCx w (set_hint h (set_pos n p))) = (r, c')) \/
  ((forall a, r <> Ok a) /\ world c' = w /\ exists n h, parcel c' = set_hint h (set_pos n p)).
Proof.
  intros Hm E. unfold bind, on_parcel in E. cbn [world parcel] in E. destruct (m p) as [x p1] eqn:Em.
  destruct (Hm p x p1 Em) as (n & h & ->). destruct x as [a | e |]; [left; by exists a, n, h | right; injection E as <- <-; split_and!; [done | done | by exists n, h]..].
Qed.

Lemma extra_none r : (forall a, r <> Ok a) -> extra_of r = [].
Proof. intros Hr. destruct r as [[fd |] | |]; try done; by destruct (Hr (Some fd)). Qed.

Definition read_fd_post (p : Parcel) (w : World) (r : outcome StatusCode (option Z)) (c' : Ctx) : Prop :=
  got (extra_of r) w (world c') /\ exists n h, parcel c' = set_hint h (set_pos n p).

Lemma post_cursor p n h w r c' : read_fd_post (set_hint h (set_pos n p)) w r c' -> read_fd_post p w r c'.
Proof. intros [G (n' & h' & E)]. split; [done |]. exists n', h'. by rewrite E. Qed.

Lemma post_stop p w r c' : (forall a, r <> Ok a) -> world c' = w -> (exists n h, parcel c' = set_hint h (set_pos n p)) -> read_fd_post p w r c'.
Proof. intros Hr Hw Hp. split; [rewrite (extra_none r Hr), Hw; apply got_nothing | done]. Qed.

Lemma read_fd_kernel w p r c' : rpc p = None -> deserialize_fd_option (mkCx w p) = (r, c') -> read_fd_post p w r c'.
Proof using dup_fresh.
  intros Hr E. unfold ParcelObjects.deserialize_fd_option, bind at 1, on_parcel at 1, get at 1 in E. cbn [world parcel] in E.
  apply (on_cursor read_i32) in E as [(present & n & h & _ & E) | (? & ? & ?)]; [| by apply post_stop | apply cursor_i32].
  apply (post_cursor p n h). set (p1 := set_hint h (set_pos n p)) in *.
  destruct (present =? 0); [injection E as <- <-; split; [apply got_nothing | apply cursor_stays] |]. rewrite Hr in E.
  apply (on_cursor read_i32) in E as [(has_comm & n1 & h1 & _ & E) | (? & ? & ?)]; [| by apply post_stop | apply cursor_i32].
  apply (post_cursor p1 n1 h1). set (p2 := set_hint h1 (set_pos n1 p1)) in *.
  apply (on_cursor (read_object true)) in E as [(obj & n2 & h2 & _ & E) | (? & ? & ?)]; [| by apply post_stop | apply cursor_object].
  apply (post_cursor p2 n2 h2). set (p3 := set_hint h2 (set_pos n2 p2)) in *.
  destruct (fbo_type obj =? BINDER_TYPE_FD); [| injection E as <- <-; split; [apply got_nothing | apply cursor_stays]]. cbn [negb] in E.
  unfold bind at 1, on_world at 1 in E. cbn [world parcel] in E.
  destruct (dup_cases (flat_handle obj) w) as [(e & Ed) | (fd & Ed & Hn & _)]; rewrite Ed in E;
    [injection E as <- <-; split; [apply got_nothing | apply cursor_stays] |].
  set (w1 := set_open ({[fd]} ∪ open_fds w) w) in *.
  assert (G1 : got [fd] w w1) by (split; try done; intros x; by apply has_opened).
  destruct (has_comm =? 0); cbn [negb] in E; [injection E as <- <-; split; [done | apply cursor_stays] |].
  unfold bind at 1, owning in E. destruct (bind (on_parcel (read_object true)) _ (mkCx w1 p3)) as [r1 c1] eqn:E1.
  assert (Hc : world c1 = w1 /\ exists n h, parcel c1 = set_hint h (set_pos n p3)).
  { apply (on_cursor (read_object true)) in E1 as [(comm & n3 & h3 & _ & E1) | (? & ? & ?)]; [| done | apply cursor_object].
    destruct (negb (fbo_type comm =? BINDER_TYPE_FD)); injection E1 as <- <-; split; try done; by exists n3, h3. }
  destruct Hc as [Ew Hc].
  assert (G2 : got [] w (close fd w1)).
  { destruct (close_open fd w1 0 (opened_member fd _)) as (_ & C2 & C3). split; [by rewrite C3 | | by rewrite C2].
    intros x. destruct (close_open fd w1 x (opened_member fd _)) as (C1 & _). pose proof (gt_fds _ _ _ G1 x). rewrite count_nil. lia. }
  destruct r1 as [[] | e |]; injection E as <- <-; (split; [| done]); cbn [extra_of world]; by rewrite Ew.
Qed.

Lemma count_taken (l : list (option Z)) i fd x : l !! i = Some (Some fd) -> count x (omap id l) = count x (omap id (<[i := None]> l)) + count x [fd].
Proof.
  revert i. induction l as [| [a |] l IH]; intros [| i] E; simplify_eq/=; rewrite ?count_cons, ?count_nil; cbn; try lia.
  - rewrite (IH i E), count_cons, count_nil. lia.
  - rewrite (IH i E), count_cons, count_nil. lia.
Qed.

(** What a reader of descriptors does to a parcel of the process. *)
Definition takes (m : P (option Z)) : Prop := forall w p r p',
  table_reachable (natives w) -> parcel_ok p -> m p = (r, p') -> kept (extra_of r) w p w p'.

Lemma takes_cursor {A} (m : P A) (k : A -> P (option Z)) : moves_cursor m -> (forall a, takes (k a)) -> takes (bind m k).
Proof.
  intros Hm Hk w p r p' Ht Hp E. unfold bind in E. destruct (m p) as [x p1] eqn:Em. destruct (Hm p x p1 Em) as (n & h & ->).
  pose proof (kept_cursor w p n h Ht Hp) as K1. destruct x as [a | e |]; [| by injection E as <- <-..].
  apply (kept_trans [] (extra_of r) w p w (set_hint h (set_pos n p))); [done |]. apply (Hk a); [done | apply K1 | done].
Qed.

Lemma takes_stop (e : StatusCode) : takes (throw e).
Proof. intros w p r p' Ht Hp [= <- <-]. by apply kept_refl. Qed.

Lemma takes_index idx : takes (rpc_take idx).
Proof.
  unfold rpc_take. destruct (idx <? 0); [by apply takes_stop |]. intros w p r p' Ht Hp E. unfold rpc_take_in_fd in E.
  destruct (rpc p) as [r0 |] eqn:Er; [| injection E as <- <-; by apply kept_refl]. unfold take_in_fd in E.
  destruct (fds_in r0 !! Z.to_nat idx) as [o |] eqn:El; cycle 1.
  { injection E as <- <-. apply (kept_rpc_fields [] w w p r0); try done. intros fd. rewrite count_nil. lia. }
  destruct o as [fd |]; injection E as <- <-; cbn [extra_of].
  - apply (kept_rpc_fields [fd] w w p r0); try done. intros x. cbn [fds_out fds_in]. rewrite !count_app, (count_taken _ _ fd x El). lia.
  - apply (kept_rpc_fields [] w w p r0); try done. intros x. cbn [fds_out fds_in]. rewrite list_insert_id by done. rewrite count_nil. lia.
Qed.

Lemma takes_rpc r0 : takes (deserialize_fd_rpc r0).
Proof.
  unfold deserialize_fd_rpc. destruct (fd_mode r0); [apply takes_stop |].
  destruct (record_fd_positions r0); [| apply takes_cursor; [apply cursor_i32 | apply takes_index]].
  apply takes_cursor; [apply cursor_i32 |]. intros has_comm. destruct (negb (has_comm =? 0)); [apply takes_stop |].
  apply takes_cursor; [apply cursor_position |]. intros at_. apply takes_cursor; [apply cursor_get |]. intros p.
  destruct (negb (rpc_object_position_present at_ p)); [apply takes_stop |].
  apply takes_cursor; [apply cursor_i32 |]. intros ty. destruct (negb (ty =? TYPE_NATIVE_FILE_DESCRIPTOR)); [apply takes_stop |].
  apply takes_cursor; [apply cursor_i32 | apply takes_index].
Qed.

(** A descriptor is read from a parcel of the process. *)
Lemma read_fd_keeps w p r c' : table_reachable (natives w) -> parcel_ok p -> deserialize_fd_option (mkCx w p) = (r, c') ->
  kept (extra_of r) w p (world c') (parcel c').
Proof using dup_fresh.
  intros Ht Hp E. destruct (rpc p) as [r0 |] eqn:Er.
  - unfold ParcelObjects.deserialize_fd_option, bind at 1, on_parcel at 1, get at 1 in E. cbn [world parcel] in E. rewrite Er in E.
    apply (on_cursor read_i32) in E as [(present & n & h & _ & E) | (Hr & -> & n & h & ->)]; [| rewrite (extra_none r Hr); by apply kept_cursor | apply cursor_i32].
    pose proof (kept_cursor w p n h Ht Hp) as K1. destruct (present =? 0); [by injection E as <- <- |].
    unfold on_parcel in E. cbn [world parcel] in E. destruct (deserialize_fd_rpc r0 (set_hint h (set_pos n p))) as [r1 p1] eqn:E1. injection E as <- <-. cbn [world parcel].
    apply (kept_trans [] (extra_of r1) w p w (set_hint h (set_pos n p))); [done |]. apply (takes_rpc r0); [done | apply K1 | done].
  - destruct (read_fd_kernel w p r c' Er E) as [[G1 G2 G3] (n & h & ->)]. destruct (kept_cursor w p n h Ht Hp) as [A1 A2 A3 A4 A5 A6 A7 A8].
    split; rewrite ?G1; try done. intros fd. specialize (A6 fd). rewrite count_nil in A6. rewrite G2. lia.
Qed.

(** * Processes *)

(** The descriptors of [app_fds] have owners in the application or are in buffers of the driver. *)
Record Process : Type := mkProcess { proc : World; parcels : list Parcel; app_fds : gset Z }.

Definition with_parcel (k : nat) (c : Ctx) (s : Process) : Process :=
  mkProcess (world c) (<[k := parcel c]> (parcels s)) (app_fds s).

(** A parcel over a message of an RPC session. *)
Definition received (body : list byte) (r : RpcFields) : Parcel := set_rpc (Some r) (from_vec body).

(** A write at an earlier position, as for a length that is known in the end. *)
Definition write_back (n : Z) (bs : list byte) : P unit :=
  let* end_ := data_position in
  let* _ := set_data_position n in
  let* _ := write_aligned_data bs in
  set_data_position end_.

(** What the kernel and the pool of threads do to the table. *)
Definition of_kernel (x : Action) : bool :=
  match x with KernelRef _ | KernelDeref _ | NativeTable.Remove _ => true | _ => false end.

Inductive own_step (s : Process) : Process -> Prop :=
| os_new : own_step s (mkProcess (proc s) (parcels s ++ [parcel_new]) (app_fds s))
| os_received body r fds :
    zlen body <= i32_max -> fds_out r = [] -> fds_in r = Some <$> fds -> NoDup fds -> (forall fd, fd ∈ fds -> fd ∉ open_fds (proc s)) ->
    own_step s (mkProcess (set_open (list_to_set fds ∪ open_fds (proc s)) (proc s)) (parcels s ++ [received body r]) (app_fds s))
| os_bytes k p bs r c :
    parcels s !! k = Some p -> appendable p -> zlen bs <= i32_max ->
    on_parcel (write_aligned_data bs) (mkCx (proc s) p) = (r, c) -> own_step s (with_parcel k c s)
| os_back k p n bs r c :
    parcels s !! k = Some p -> appendable p -> 0 <= n -> n + zlen bs <= zlen (data p) -> zlen bs mod 4 = 0 ->
    (forall x, x ∈ objects p -> x + FLAT_BINDER_SIZE <= n \/ n + zlen bs <= x) ->
    on_parcel (write_back n bs) (mkCx (proc s) p) = (r, c) -> own_step s (with_parcel k c s)
| os_binder k p this r c :
    parcels s !! k = Some p -> appendable p -> rpc p = None -> writable this (proc s) ->
    serialize_binder this (mkCx (proc s) p) = (r, c) -> own_step s (with_parcel k c s)
| os_fd k p fd r c :
    parcels s !! k = Some p -> appendable p -> serialize_fd fd (mkCx (proc s) p) = (r, c) -> own_step s (with_parcel k c s)
| os_append k p other offset size r c :
    parcels s !! k = Some p -> appendable p -> 0 <= offset -> 0 <= size ->
    source_ok (natives (proc s)) other \/ (exists j, parcels s !! j = Some other) ->
    append_from other offset size (mkCx (proc s) p) = (r, c) -> own_step s (with_parcel k c s)
| os_seek k p n : parcels s !! k = Some p -> own_step s (with_parcel k (mkCx (proc s) (set_pos n p)) s)
| os_read_fd k p r c :
    parcels s !! k = Some p -> deserialize_fd_option (mkCx (proc s) p) = (r, c) ->
    own_step s (mkProcess (world c) (<[k := parcel c]> (parcels s)) (list_to_set (extra_of r) ∪ app_fds s))
| os_take_fd p r c :
    rpc p = None -> deserialize_fd_option (mkCx (proc s) p) = (r, c) ->
    own_step s (mkProcess (world c) (parcels s) (list_to_set (extra_of r) ∪ app_fds s))
| os_drop k p r w :
    parcels s !! k = Some p -> drop_parcel p (proc s) = (r, w) ->
    own_step s (mkProcess w (<[k := parcel_new]> (parcels s)) (app_fds s))
| os_kernel x t : of_kernel x = true -> act x (natives (proc s)) = Some t ->
    own_step s (mkProcess (set_natives t (proc s)) (parcels s) (app_fds s))
| os_inner m : own_step s (mkProcess (set_inners m (proc s)) (parcels s) (app_fds s))
| os_open fd : fd ∉ open_fds (proc s) ->
    own_step s (mkProcess (set_open ({[fd]} ∪ open_fds (proc s)) (proc s)) (parcels s) ({[fd]} ∪ app_fds s))
| os_close fd : fd ∈ app_fds s -> own_step s (mkProcess (close fd (proc s)) (parcels s) (app_fds s ∖ {[fd]})).

Definition process_new (fds : gset Z) : Process := mkProcess (mkWorld table_new ∅ fds []) [] fds.

Inductive own_reachable (fds : gset Z) : Process -> Prop :=
| or_start : own_reachable fds (process_new fds)
| or_step s s' : own_reachable fds s -> own_step s s' -> own_reachable fds s'.

(** ** The invariant *)

Definition all_ids (s : Process) : list Z := concat (native_ids <$> parcels s).
Definition all_fds (s : Process) : list Z := concat (owned_fds <$> parcels s).

Record own_inv (s : Process) : Prop := mkOwn {
  oi_table : table_reachable (natives (proc s));
  oi_lost : lost (natives (proc s)) = [];
  oi_parcels : Forall parcel_ok (parcels s);
  oi_ids : forall id, count id (NativeTable.objects (natives (proc s))) = count id (all_ids s);
  oi_fds : forall fd, count fd (all_fds s) + has fd (app_fds s) = has fd (open_fds (proc s));
  oi_closes : double_closes (proc s) = []
}.

Lemma count_concat_insert (f : Parcel -> list Z) l k p p' x : l !! k = Some p ->
  count x (concat (f <$> <[k := p']> l)) + count x (f p) = count x (concat (f <$> l)) + count x (f p').
Proof.
  revert k. induction l as [| q l IH]; intros [| k] E; simplify_eq/=; rewrite !count_app; [lia |]. specialize (IH k E). lia.
Qed.

Lemma count_concat_le (f : Parcel -> list Z) l k p x : l !! k = Some p -> count x (f p) <= count x (concat (f <$> l)).
Proof.
  revert k. induction l as [| q l IH]; intros [| k] E; simplify_eq/=; rewrite !count_app.
  - pose proof (count_bounds x (concat (f <$> l))). lia.
  - pose proof (count_bounds x (f q)). specialize (IH k E). lia.
Qed.

Lemma count_concat_snoc (f : Parcel -> list Z) l p x : count x (concat (f <$> l ++ [p])) = count x (concat (f <$> l)) + count x (f p).
Proof. rewrite fmap_app, concat_app, count_app. cbn. by rewrite app_nil_r. Qed.

Lemma has_bounds fd s : 0 <= has fd s <= 1.
Proof. unfold has. destruct (bool_decide _); cbn; lia. Qed.

Lemma has_extra r s fd : (forall x, count x (extra_of r) + has x s <= 1) -> has fd (list_to_set (extra_of r) ∪ s) = has fd s + count fd (extra_of r).
Proof.
  intros Hx. destruct (extra_of r) as [| n [| n' l]] eqn:E; cbn [list_to_set] in *.
  - rewrite union_empty_l_L, count_nil. lia.
  - rewrite union_empty_r_L. apply has_opened. specialize (Hx n). rewrite count_one, Z.eqb_refl in Hx.
    unfold has in Hx. destruct (bool_decide_reflect (n ∈ s)); [cbn in Hx; lia | done].
  - destruct r as [[fd0 |] | |]; by cbn in E.
Qed.

(** A change of one parcel that keeps the balance. *)
Lemma inv_kept r s k p w' p' : own_inv s -> parcels s !! k = Some p -> kept (extra_of r) (proc s) p w' p' ->
  own_inv (mkProcess w' (<[k := p']> (parcels s)) (list_to_set (extra_of r) ∪ app_fds s)).
Proof.
  intros [I1 I2 I3 I4 I5 I6] Ek [K1 K2 K3 K4 K5 K6 K7 K8].
  assert (F : forall fd, count fd (concat (owned_fds <$> <[k := p']> (parcels s))) + (has fd (app_fds s) + count fd (extra_of r)) = has fd (open_fds w')).
  { intros fd. pose proof (count_concat_insert owned_fds _ _ _ p' fd Ek) as Hc. specialize (I5 fd). specialize (K6 fd). unfold all_fds in I5. lia. }
  split; cbn; try congruence.
  - apply Forall_insert; done.
  - intros id. pose proof (count_concat_insert native_ids _ _ _ p' id Ek) as Hc. specialize (I4 id). specialize (K5 id).
    unfold all_ids in *. cbn. lia.
  - intros fd. unfold all_fds. cbn. rewrite has_extra; [by apply F |]. intros x. specialize (F x).
    pose proof (has_bounds x (open_fds w')). pose proof (count_bounds x (concat (owned_fds <$> <[k := p']> (parcels s)))). lia.
Qed.

Lemma inv_with s k p c : own_inv s -> parcels s !! k = Some p -> kept [] (proc s) p (world c) (parcel c) -> own_inv (with_parcel k c s).
Proof.
  intros Hi Ek Hk. pose proof (inv_kept (Ok None) s k p (world c) (parcel c) Hi Ek Hk) as H1. cbn in H1. by rewrite union_empty_l_L in H1.
Qed.

Lemma parcel_of s k p : own_inv s -> parcels s !! k = Some p -> parcel_ok p.
Proof. intros Hi Ek. by apply (Forall_lookup_1 _ _ _ _ (oi_parcels s Hi) Ek). Qed.

(** A parcel of the process is one to copy from. *)
Lemma own_source s j other : own_inv s -> parcels s !! j = Some other -> source_ok (natives (proc s)) other.
Proof.
  intros Hi Ej. split; [apply (po_laid other), (parcel_of s j other Hi Ej) |]. intros f Hf id Eid.
  rewrite (oi_ids s Hi). pose proof (count_concat_le native_ids _ _ _ id Ej) as Hc. pose proof (count_bounds id (held (natives (proc s)))).
  assert (1 <= count id (native_ids other)); [| unfold all_ids; lia].
  unfold native_ids. assert (Hin : id ∈ omap native_id (object_flats other)) by (apply list_elem_of_omap; by exists f).
  apply list_elem_of_lookup in Hin as [i Hl]. apply (tally_pos (Z.eqb id) _ i id Hl). apply Z.eqb_refl.
Qed.

Lemma inv_drop_parcel s k p r w : own_inv s -> parcels s !! k = Some p -> drop_parcel p (proc s) = (r, w) ->
  own_inv (mkProcess w (<[k := parcel_new]> (parcels s)) (app_fds s)).
Proof using proxy_safe.
  intros Hi Ek E. destruct (drop_returns p (proc s) (oi_table s Hi) (parcel_of s k p Hi Ek)) as (w' & E' & [R1 R2 R3 R4 R5 R6]).
  - intros id. rewrite (oi_ids s Hi). by apply (count_concat_le native_ids _ k).
  - intros fd. rewrite <- (oi_fds s Hi). pose proof (has_bounds fd (app_fds s)). pose proof (count_concat_le owned_fds _ _ _ fd Ek). unfold all_fds. lia.
  - rewrite E in E'. injection E' as -> ->. destruct Hi as [I1 I2 I3 I4 I5 I6]. split; cbn; try congruence.
    + apply Forall_insert; [done | by split].
    + intros id. pose proof (count_concat_insert native_ids _ _ _ parcel_new id Ek) as Hc. specialize (I4 id). specialize (R4 id).
      unfold all_ids in *. cbn in *. change (native_ids parcel_new) with (@nil Z) in Hc. rewrite count_nil in Hc. lia.
    + intros fd. pose proof (count_concat_insert owned_fds _ _ _ parcel_new fd Ek) as Hc. specialize (I5 fd). specialize (R5 fd).
      unfold all_fds in *. cbn in *. change (owned_fds parcel_new) with (@nil Z) in Hc. rewrite count_nil in Hc. lia.
Qed.

Lemma has_received fds s fd : NoDup fds -> (forall x, x ∈ fds -> x ∉ s) -> has fd (list_to_set fds ∪ s) = has fd s + count fd fds.
Proof.
  induction fds as [| x fds IH]; intros Hn Hs; cbn [list_to_set]; [rewrite union_empty_l_L, count_nil; lia |].
  apply NoDup_cons in Hn as [Hx Hn]. rewrite <- (assoc_L (∪)) by apply _. rewrite has_opened, IH, !count_cons, count_nil; [| done | | ].
  - lia.
  - intros y Hy. apply Hs. by right.
  - intros [Hin%elem_of_list_to_set | Hin]%elem_of_union; [done | by apply (Hs x); [left |]].
Qed.

Lemma inv_received s body r fds : own_inv s ->
  zlen body <= i32_max -> fds_out r = [] -> fds_in r = Some <$> fds -> NoDup fds -> (forall fd, fd ∈ fds -> fd ∉ open_fds (proc s)) ->
  own_inv (mkProcess (set_open (list_to_set fds ∪ open_fds (proc s)) (proc s)) (parcels s ++ [received body r]) (app_fds s)).
Proof.
  intros [I1 I2 I3 I4 I5 I6] Hb E1 E2 Hn Hs.
  assert (Ef : owned_fds (received body r) = fds).
  { unfold owned_fds, rpc_fds. cbn. rewrite E1, E2. cbn. clear. induction fds as [| x l IH]; [done |]. cbn. by rewrite IH. }
  split; cbn; try done.
  - apply Forall_app. split; [done |]. apply Forall_singleton. by split.
  - intros id. rewrite I4. unfold all_ids. cbn. by rewrite count_concat_snoc, Z.add_0_r.
  - intros fd. unfold all_fds. cbn. rewrite count_concat_snoc, Ef, has_received by done. specialize (I5 fd). unfold all_fds in I5. lia.
Qed.

Lemma write_back_at n bs p : parcel_ok p -> appendable p -> 0 <= n -> n + zlen bs <= zlen (data p) -> zlen bs mod 4 = 0 ->
  write_back n bs p = (Ok tt, set_data (ztake n (data p) ++ bs ++ zdrop (n + zlen bs) (data p)) p).
Proof.
  intros Hp Ha H1 H2 H3. pose proof (po_size p Hp). pose proof (zlen_nonneg bs).
  assert (Ed : data p = ztake n (data p) ++ ztake (zlen bs) (zdrop n (data p)) ++ zdrop (n + zlen bs) (data p)).
  { rewrite <- (ztake_zdrop n (data p)) at 1. f_equal. rewrite <- (ztake_zdrop (zlen bs) (zdrop n (data p))) at 1. by rewrite zdrop_zdrop by lia. }
  assert (L1 : zlen (ztake n (data p)) = n) by (apply zlen_ztake; lia).
  assert (L2 : zlen (ztake (zlen bs) (zdrop n (data p))) = zlen bs) by (apply zlen_ztake; rewrite zlen_zdrop; lia).
  unfold write_back, bind, data_position, set_data_position, modify.
  rewrite (write_overwrite (set_pos n p) (ztake n (data p)) (ztake (zlen bs) (zdrop n (data p))) bs (zdrop (n + zlen bs) (data p)));
    [| apply (po_data p Hp) | exact Ed | by rewrite L1 | done | done | cbn; lia]. by destruct p.
Qed.

Lemma inv_write_back s k p n bs r c : own_inv s -> parcels s !! k = Some p -> appendable p -> 0 <= n -> n + zlen bs <= zlen (data p) ->
  zlen bs mod 4 = 0 -> (forall x, x ∈ objects p -> x + FLAT_BINDER_SIZE <= n \/ n + zlen bs <= x) ->
  on_parcel (write_back n bs) (mkCx (proc s) p) = (r, c) -> own_inv (with_parcel k c s).
Proof.
  intros Hi Ek Ha H1 H2 H3 Hx E. pose proof (parcel_of s k p Hi Ek) as Hp. pose proof (zlen_nonneg bs).
  unfold on_parcel in E. cbn [world parcel] in E. rewrite write_back_at in E by done. injection E as <- <-.
  apply (inv_with s k p); [done | done |]. cbn [world parcel].
  assert (Ez : zlen (ztake n (data p) ++ bs ++ zdrop (n + zlen bs) (data p)) = zlen (data p)) by (rewrite !zlen_app, zlen_ztake, zlen_zdrop by lia; lia).
  destruct Hp as [P1 P2 P3 P4 P5]. apply kept_same; [apply (oi_table s Hi) | split; cbn; rewrite ?Ez; done | | done | done].
  unfold object_flats. cbn. apply list_omap_ext. apply Forall_Forall2_diag, Forall_forall. intros x Hin.
  destruct (laid_elem _ _ _ x P3 Hin). apply flat_at_patch; [done | done | done | by apply Hx].
Qed.

Lemma inv_kernel s x t : own_inv s -> of_kernel x = true -> act x (natives (proc s)) = Some t ->
  own_inv (mkProcess (set_natives t (proc s)) (parcels s) (app_fds s)).
Proof.
  intros [I1 I2 I3 I4 I5 I6] Hx E.
  assert (F : NativeTable.objects t = NativeTable.objects (natives (proc s)) /\ lost t = lost (natives (proc s))).
  { destruct x; try done; cbn [act] in E.
    - unfold ref_native_kernel in E. destruct (published_natives _ !! _); by injection E as <-.
    - injection E as <-. unfold deref_native_kernel. cbn. destruct (published_natives _ !! _); [| done]. cbn. by destruct (is_unused _).
    - destruct (existsb _ _); [| done]. injection E as <-. unfold remove_entry_if_zero. cbn. destruct (published_natives _ !! _); [| done]. by destruct (is_unused _). }
  destruct F as [F1 F2]. split; cbn; rewrite ?F1, ?F2; try done. by eapply table_act.
Qed.

Lemma app_open s fd : own_inv s -> fd ∈ app_fds s -> fd ∈ open_fds (proc s).
Proof.
  intros Hi Hin. pose proof (oi_fds s Hi fd) as H1. pose proof (count_bounds fd (all_fds s)). unfold has in H1.
  rewrite (bool_decide_eq_true_2 _ Hin) in H1. destruct (bool_decide_reflect (fd ∈ open_fds (proc s))); [done | cbn in H1; lia].
Qed.

Lemma inv_step s s' : own_inv s -> own_step s s' -> own_inv s'.
Proof using dup_fresh proxy_safe.
  intros Hi Hs. pose proof (oi_table s Hi) as Ht. destruct Hs as [| body r fds | k p bs r c Ek Ha Hb E | k p n bs r c | k p this r c Ek Ha Hr Hw E
    | k p fd r c Ek Ha E | k p other offset size r c Ek Ha H1 H2 Ho E | k p n Ek | k p r c Ek E | p r c Hr E | k p r w | x t | m | fd Hfd | fd Hfd].
  - destruct Hi as [I1 I2 I3 I4 I5 I6]. split; cbn; try done; [by apply Forall_app; split; [| apply Forall_singleton] | |];
      intros x; unfold all_ids, all_fds in *; cbn; rewrite count_concat_snoc, Z.add_0_r; done.
  - by apply inv_received.
  - apply (inv_with s k p); [done | done |]. apply (keeps_plain (write_aligned_data bs) (appends_aligned bs Hb) (proc s) p Ht (parcel_of s k p Hi Ek) Ha r c E).
  - by apply (inv_write_back s k p n bs r).
  - apply (inv_with s k p); [done | done |]. apply (keeps_thener this (proc s) p Ht (parcel_of s k p Hi Ek) Ha Hr Hw r c E).
  - apply (inv_with s k p); [done | done |]. apply (keeps_fd fd (proc s) p Ht (parcel_of s k p Hi Ek) Ha r c E).
  - apply (inv_with s k p); [done | done |]. apply (keeps_append other offset size (proc s) p H1 H2 Ht (parcel_of s k p Hi Ek) Ha) in E; [apply E |].
    destruct Ho as [Ho | [j Ej]]; [done | by apply (own_source s j)].
  - apply (inv_with s k p); [done | done |]. cbn. pose proof (parcel_of s k p Hi Ek) as [? ? ? ? ?]. by apply kept_same.
  - apply (inv_kept r s k p); [done | done |]. by apply read_fd_keeps; [| apply (parcel_of s k p Hi Ek) |].
  - destruct (read_fd_kernel (proc s) p r c Hr E) as [[G1 G2 G3] _]. destruct Hi as [I1 I2 I3 I4 I5 I6].
    split; cbn; rewrite ?G1; try done; [| congruence]. intros fd. rewrite G2, has_extra; [specialize (I5 fd); unfold all_fds in *; cbn; lia |].
    intros x. specialize (I5 x). specialize (G2 x). pose proof (has_bounds x (open_fds (world c))). pose proof (count_bounds x (all_fds s)). lia.
  - by apply (inv_drop_parcel s k p r).
  - by apply (inv_kernel s x).
  - by destruct Hi.
  - assert (Hn : fd ∉ app_fds s) by (intros Hin; by apply Hfd, (app_open s)).
    destruct Hi as [I1 I2 I3 I4 I5 I6]. split; cbn; try done. intros x. specialize (I5 x). unfold all_fds in *. cbn.
    rewrite !has_opened by done. lia.
  - destruct (close_open fd (proc s) 0 (app_open s fd Hi Hfd)) as (_ & C2 & C3). pose proof (fun x => close_open fd (proc s) x (app_open s fd Hi Hfd)) as C1.
    destruct Hi as [I1 I2 I3 I4 I5 I6]. split; cbn; rewrite ?C3, ?C2; try done. intros x. specialize (I5 x).
    destruct (C1 x) as (E1 & _). pose proof (has_closed fd (app_fds s) x Hfd). unfold all_fds in *. cbn. lia.
Qed.

Lemma inv_own fds s : own_reachable fds s -> own_inv s.
Proof using dup_fresh proxy_safe.
  induction 1 as [| s s' _ IH Hs]; [| by apply (inv_step s)].
  split; cbn; try done. by apply table_start.
Qed.

(** What the table counts for [id]; nothing when it has no entry. *)
Definition published_count (id : Z) (t : Table) : Z :=
  match published_natives t !! id with Some e => publish_count e | None => 0 end.

Lemma published_count_objects id t : table_inv t -> published_count id t = count id (NativeTable.objects t).
Proof.
  intros Ht. unfold published_count. destruct (published_natives t !! id) as [e |] eqn:Ee.
  - by apply (ti_counts t Ht).
  - pose proof (count_bounds id (NativeTable.objects t)). pose proof (count_bounds id (held t)).
    destruct (Z.le_gt_cases 1 (count id (NativeTable.objects t) + count id (held t))) as [Hge |]; [| lia].
    destruct (ti_live t Ht id Hge) as [e Ee']. congruence.
Qed.

(** C17: Every reference and descriptor in parcels has one owner, whatever is written, copied, read and dropped in any
    order, failed operations included: the [publish_count] the table keeps for an id is the number of objects in parcels
    that name it, and each of their ids resolves; a descriptor is open exactly when one parcel or the application owns it, and no two do; none
    is closed twice; and dropping a parcel does not panic. *)
Theorem parcels_own_what_they_name fds s : own_reachable fds s ->
  (forall id, published_count id (natives (proc s)) = count id (all_ids s)) /\
  (forall id, id ∈ all_ids s -> exists a, lookup_native id (natives (proc s)) = Some a /\ names (natives (proc s)) !! id = Some a) /\
  (forall fd, count fd (all_fds s) + has fd (app_fds s) = has fd (open_fds (proc s))) /\
  double_closes (proc s) = [] /\
  (forall k p, parcels s !! k = Some p -> exists w, drop_parcel p (proc s) = (Ok tt, w)).
Proof using dup_fresh proxy_safe.
  intros Hr. pose proof (inv_own fds s Hr) as Hi. pose proof (inv_reachable _ (oi_table s Hi)) as Ht. split_and!.
  - intros id. rewrite published_count_objects by done. apply (oi_ids s Hi).
  - intros id Hin. destruct (ti_live _ Ht id) as [e Ee].
    + rewrite (oi_ids s Hi). apply list_elem_of_lookup in Hin as [i Hl]. pose proof (tally_pos (Z.eqb id) _ i id Hl (Z.eqb_refl id)) as H1.
      pose proof (count_bounds id (held (natives (proc s)))). unfold count at 1. lia.
    + exists (binder_pin e). unfold lookup_native. rewrite Ee. split; [done | by apply (ti_named _ Ht)].
  - apply (oi_fds s Hi).
  - apply (oi_closes s Hi).
  - intros k p Ek. destruct (drop_returns p (proc s) (oi_table s Hi) (parcel_of s k p Hi Ek)) as (w & E & _); [| | by exists w].
    + intros id. rewrite (oi_ids s Hi). by apply (count_concat_le native_ids _ k).
    + intros fd. rewrite <- (oi_fds s Hi). pose proof (has_bounds fd (app_fds s)). pose proof (count_concat_le owned_fds _ _ _ fd Ek). unfold all_fds. lia.
Qed.

(** ** A binder that comes back *)

Local Abbreviation deserialize_binder := (deserialize_binder android12 sdk30 strong_proxy_for_handle_stability rpc_read_binder).

Definition later : Table -> Table -> Prop := rtc (fun t t' => exists x, act x t = Some t').

Lemma later_name t t' id a : table_reachable t -> later t t' -> names t !! id = Some a -> table_reachable t' /\ names t' !! id = Some a.
Proof.
  intros Hr Hl. induction Hl as [| t t1 t' [x E] _ IH]; [done |]. intros Hn.
  apply IH; [by eapply table_act |]. by apply (names_kept x t t1 id a (inv_reachable t Hr)).
Qed.

(** The stability behind an object. *)
Definition stability_wire (v : Z) : list byte := if sdk30 then to_le 4 v else [].

Lemma stability_range level : in_i 32 (stability_to_i32 android12 level).
Proof. destruct android12, level; by vm_compute. Qed.

Lemma binder_written a w p c' :
  table_reachable (natives w) -> parcel_ok p -> appendable p -> rpc p = None -> next_native_id (natives w) < 2 ^ 64 ->
  serialize_binder (Some (Native a)) (mkCx w p) = (Ok tt, c') ->
  exists id fl v, 1 <= id < 2 ^ 64 /\ in_i 32 v /\
    parcel c' = appended (stability_wire v) (pushed (mkFlat BINDER_TYPE_BINDER fl id 0) p) /\
    table_reachable (natives (world c')) /\ lookup_native id (natives (world c')) = Some a /\
    NativeTable.objects (natives (world c')) = id :: NativeTable.objects (natives w) /\ inners (world c') = alter set_parceled a (inners w).
Proof.
  intros Ht Hp Ha Hr Hn E. destruct (publish_then_acquire a w Ht Hn) as (id & fl & t1 & E1 & Hid & R1 & _ & _ & _ & t2 & E2 & R2 & O2 & _ & _ & Lk).
  unfold ParcelObjects.serialize_binder, bind at 1, on_parcel at 1, get at 1 in E. cbn [world parcel] in E. rewrite Hr in E.
  unfold bind at 1, on_world at 1 in E. cbn [world parcel] in E. rewrite E1 in E.
  unfold bind at 1 in E. rewrite write_object_at in E by done. cbn [fbo_binder] in E. rewrite (proj2 (Z.eqb_neq id 0)), E2 in E by lia.
  cbn [negb orb] in E. destruct (Z.leb_spec (zlen (data p) + FLAT_BINDER_SIZE) i32_max) as [Hs |]; [| done].
  set (o := mkFlat BINDER_TYPE_BINDER fl id 0) in *. exists id, fl. unfold stability_wire. destruct sdk30.
  - unfold bind at 1 in E. unfold bind at 1, on_world at 1, get at 1 in E. cbn [world parcel] in E. unfold bind at 1, lift at 1 in E.
    destruct (binder_stability (Native a) (set_natives t2 w)) as [level | |]; try done.
    unfold on_parcel in E. cbn [world parcel] in E.
    pose proof (writes_i32 (stability_to_i32 android12 level) (pushed o p)) as Hw. rewrite zlen_to_le in Hw.
    assert (Ez : zlen (data (pushed o p)) = zlen (data p) + FLAT_BINDER_SIZE) by (cbn; by rewrite zlen_app, zlen_flat).
    specialize (Hw (appended_appendable (flat_bytes o) p Ha) ltac:(lia)).
    destruct (_ <=? i32_max); [| by destruct (write_i32 _ _) as [[[] | |] ?]]. rewrite Hw in E. injection E as <-.
    exists (stability_to_i32 android12 level). split_and!; [lia | lia | apply stability_range.. | done | done | done | done | done].
  - injection E as <-. exists 0. unfold stability_wire. rewrite appended_nil by (by apply (appended_appendable (flat_bytes o) p)).
    split_and!; [lia | lia | done.. ].
Qed.

(** A parcel without room: the write fails, and the table keeps the binder although no object names it. *)
Lemma full_parcel_keeps_thener a w p : table_reachable (natives w) -> next_native_id (natives w) < 2 ^ 64 ->
  parcel_ok p -> appendable p -> rpc p = None -> i32_max < zlen (data p) + FLAT_BINDER_SIZE ->
  exists t id, serialize_binder (Some (Native a)) (mkCx w p) = (Err StBadValue, mkCx (set_natives t w) p) /\
    is_Some (published_natives t !! id) /\ NativeTable.objects t = NativeTable.objects (natives w).
Proof.
  intros Ht Hn Hp Ha Hr Hs. destruct (publish_then_acquire a w Ht Hn) as (id & fl & t1 & E1 & Hid & R1 & O1 & _ & _ & t2 & E2 & _ & _ & _ & _ & Lk).
  exists t1, id. split; [| split; [| done]].
  - unfold ParcelObjects.serialize_binder, bind at 1, on_parcel at 1, get at 1. cbn [world parcel]. rewrite Hr.
    unfold bind at 1, on_world at 1. cbn [world parcel]. rewrite E1. unfold bind at 1. rewrite write_object_at by done.
    by rewrite (proj2 (Z.leb_gt _ _)).
  - pose proof (published_found a (natives w) Ht) as (F1 & _). cbn in E1. destruct (publish_native a (natives w)) as [id' t']. by injection E1 as _ <- <-.
Qed.

(** An object of the driver's table that names a published binder is read as that binder. *)
Lemma read_binder_back a id fl v w q pre post : 1 <= id < 2 ^ 64 -> in_i 32 v -> lookup_native id (natives w) = Some a ->
  let msg := flat_bytes (mkFlat BINDER_TYPE_BINDER fl id 0) ++ stability_wire v in
  rpc q = None -> readable q -> StronglySorted Z.le (objects q) -> data q = pre ++ msg ++ post -> pos q = zlen pre -> zlen pre ∈ objects q ->
  exists q', deserialize_binder (mkCx w q) = (Ok (Some (Native a)), mkCx w q') /\ pos q' = pos q + zlen msg.
Proof.
  intros Hid Hv Ea msg Hq Hrd Hs Ed Epos Hin. set (o := mkFlat BINDER_TYPE_BINDER fl id 0) in *. unfold msg in *. rewrite <- app_assoc in Ed.
  assert (Hg : get_range (data q) (pos q) (pos q + FLAT_BINDER_SIZE) = Some (flat_bytes o)).
  { rewrite Ed, get_range_skip by (unfold FLAT_BINDER_SIZE; lia). rewrite Epos, Z.sub_diag. apply get_range_here. rewrite zlen_flat. lia. }
  assert (Hz : is_for_rpc q = false) by (unfold is_for_rpc; by rewrite Hq).
  destruct (read_object_at false q (flat_bytes o) Hz Hrd Hs Hg) as (h & Eo).
  rewrite Epos, (bool_decide_eq_true_2 _ Hin), orb_true_r, <- Epos in Eo. fold (reread o) in Eo.
  destruct (reread_fields o ltac:(by vm_compute) ltac:(unfold in_u; cbn; lia) ltac:(by vm_compute)) as (F1 & F2 & _).
  unfold ParcelObjects.deserialize_binder, bind at 1, on_parcel at 1, get at 1. cbn [world parcel]. rewrite Hq.
  unfold bind at 1, on_parcel at 1. cbn [world parcel]. rewrite Eo. set (q1 := set_hint h (set_pos (pos q + FLAT_BINDER_SIZE) q)).
  rewrite F1, F2. change (fbo_type o =? BINDER_TYPE_BINDER) with true. cbn [fbo_binder o]. rewrite (proj2 (Z.eqb_neq id 0)) by lia.
  cbv iota zeta. cbn [negb]. unfold stability_wire in *. destruct sdk30.
  - assert (Hr1 : readable q1) by (destruct Hrd; split; [cbn; unfold FLAT_BINDER_SIZE; lia | done]).
    assert (Ei : read_i32 q1 = (Ok v, set_pos (pos q1 + 4) q1)).
    { apply (read_i32_at q1 (pre ++ flat_bytes o) v post); [done | cbn; by rewrite Ed, <- app_assoc | cbn; rewrite zlen_app, zlen_flat; lia | done]. }
    exists (set_pos (pos q1 + 4) q1). unfold bind, on_parcel, on_world, get. cbn [world parcel]. rewrite Ei. cbn [world parcel]. rewrite Ea. split; [done |].
    cbn. rewrite zlen_app, zlen_flat, zlen_to_le. lia.
  - exists q1. unfold bind, on_world, get, ret. cbn [world parcel]. rewrite Ea. split; [done |]. cbn. rewrite zlen_app, zlen_flat, zlen_nil. lia.
Qed.

(** C39: A native binder that was written comes back as itself: what was appended to the parcel, delivered to the same
    process as an object of the driver's table, reads as that binder in every later state of the table of
    published binders in which an object or the kernel still names its id; the reader stops after it. The binder is
    frozen: its stability is the one that was written, and every attempt to change it fails. *)
Theorem binder_returns_home a w p c' :
  table_reachable (natives w) -> parcel_ok p -> appendable p -> rpc p = None -> next_native_id (natives w) < 2 ^ 64 ->
  serialize_binder (Some (Native a)) (mkCx w p) = (Ok tt, c') ->
  exists id msg, data (parcel c') = data p ++ msg /\ objects (parcel c') = objects p ++ [zlen (data p)] /\
    NativeTable.objects (natives (world c')) = id :: NativeTable.objects (natives w) /\
    (forall i, inners (world c') !! a = Some i ->
       (forall level, set_stability_guarded level i = Err StInvalidOperation) /\ (stability <$> inners w !! a) = Some (stability i)) /\
    forall w2 q pre post, later (natives (world c')) (natives w2) ->
      1 <= count id (NativeTable.objects (natives w2)) + count id (held (natives w2)) ->
      rpc q = None -> readable q -> StronglySorted Z.le (objects q) -> data q = pre ++ msg ++ post -> pos q = zlen pre -> zlen pre ∈ objects q ->
      exists q', deserialize_binder (mkCx w2 q) = (Ok (Some (Native a)), mkCx w2 q') /\ pos q' = pos q + zlen msg.
Proof.
  intros Ht Hp Ha Hr Hn E. destruct (binder_written a w p c' Ht Hp Ha Hr Hn E) as (id & fl & v & Hid & Hv & Ep & R & Lk & Eo & Ei).
  exists id, (flat_bytes (mkFlat BINDER_TYPE_BINDER fl id 0) ++ stability_wire v). rewrite Ep.
  cbn [data objects appended pushed set_pos set_data set_objects]. split_and!; [by rewrite <- app_assoc | done | done | |].
  - intros i Hi. rewrite Ei, lookup_alter_eq in Hi. destruct (inners w !! a) as [i0 |]; [| done]. by injection Hi as <-.
  - intros w2 q pre post Hl Hc. apply read_binder_back; [done | done |].
    assert (Hnm : names (natives (world c')) !! id = Some a).
    { unfold lookup_native in Lk. apply fmap_Some in Lk as (e & Ee & ->). by apply (ti_named _ (inv_reachable _ R)). }
    destruct (later_name _ _ id a R Hl Hnm) as [R2 N2]. destruct (ti_live _ (inv_reachable _ R2) id Hc) as [e Ee].
    unfold lookup_native. rewrite Ee. cbn. by rewrite <- (ti_named _ (inv_reachable _ R2) id e Ee).
Qed.
End Operations.

(** * Example *)

(** The lowest descriptor below a limit of 1024 that is not open. *)
Definition lowest_fd (s : gset Z) : option Z := head (filter (fun n => n ∉ s) (seqZ 0 1024)).

Definition linux_dup (s : gset Z) (fd : Z) : Z + Z :=
  if decide (fd ∈ s) then match lowest_fd s with Some n => inr n | None => inl 24 end else inl 9.

Lemma linux_dup_fresh s fd n : linux_dup s fd = inr n -> (n ∉ s) /\ 0 <= n < 2 ^ 31.
Proof.
  unfold linux_dup, lowest_fd. destruct (decide (fd ∈ s)); [| done]. destruct (filter _ (seqZ 0 1024)) as [| x l] eqn:E; [done |].
  cbn. intros [= <-]. assert (Hin : x ∈ filter (fun n => n ∉ s) (seqZ 0 1024)) by (rewrite E; left).
  apply list_elem_of_filter in Hin as [Hn Hin]. apply elem_of_seqZ in Hin. split; [done | lia].
Qed.

Definition any_proxy (h : Z) (level : Stability) : outcome StatusCode Stability := Ok level.
Definition no_write (b : option SIBinder) : K unit := throw StBadType.
Definition no_read : K (option SIBinder) := throw StBadType.

Local Abbreviation demo_step := (@own_step ptr64 linux_errno false true true false any_proxy linux_dup no_write).
Local Abbreviation demo_reachable := (@own_reachable ptr64 linux_errno false true true false any_proxy linux_dup no_write).

Definition the_parcel (k : nat) (s : Process) : Parcel := default parcel_new (parcels s !! k).
Definition on_demo (k : nat) (m : K unit) (s : Process) : Process := with_parcel k (snd (m (mkCx (proc s) (the_parcel k s)))) s.

Definition demo_fds : gset Z := {[0; 1; 2]}.
Definition demo_0 : Process := mkProcess (proc (process_new demo_fds)) [parcel_new] demo_fds.
Definition write_seven : K unit := @serialize_binder ptr64 false true true false any_proxy no_write (Some (Native 7)).
Definition write_stdout : K unit := @serialize_fd ptr64 linux_errno true any_proxy linux_dup 1.
Definition demo_1 : Process := on_demo 0 write_seven demo_0.
Definition demo_2 : Process := on_demo 0 write_stdout demo_1.
Definition demo_3 : Process := mkProcess (proc demo_2) (parcels demo_2 ++ [parcel_new]) (app_fds demo_2).
Definition copy_all (s : Process) : K unit :=
  @append_from ptr64 linux_errno true any_proxy linux_dup (the_parcel 0 s) 0 (zlen (data (the_parcel 0 s))).
Definition demo_4 : Process := on_demo 1 (copy_all demo_3) demo_3.
Definition demo_5 : Process :=
  mkProcess (snd (drop_parcel true any_proxy (the_parcel 0 demo_4) (proc demo_4))) (<[0%nat := parcel_new]> (parcels demo_4)) (app_fds demo_4).

Lemma demo_run : demo_reachable demo_fds demo_5.
Proof.
  assert (A0 : appendable (the_parcel 0 demo_0)) by (split; vm_compute; reflexivity).
  assert (A1 : appendable (the_parcel 0 demo_1)) by (split; vm_compute; reflexivity).
  assert (A3 : appendable (the_parcel 1 demo_3)) by (split; vm_compute; reflexivity).
  assert (R0 : demo_reachable demo_fds demo_0) by (eapply or_step; [apply or_start | apply os_new]).
  assert (R1 : demo_reachable demo_fds demo_1).
  { eapply or_step; [exact R0 |]. eapply (os_binder _ _ _ _ _ _ _ _ 0 (the_parcel 0 demo_0) (Some (Native 7)));
      [vm_compute; reflexivity | exact A0 | vm_compute; reflexivity | vm_compute; reflexivity | apply surjective_pairing]. }
  assert (R2 : demo_reachable demo_fds demo_2).
  { eapply or_step; [exact R1 |]. eapply (os_fd _ _ _ _ _ _ _ _ 0 (the_parcel 0 demo_1) 1); [vm_compute; reflexivity | exact A1 | apply surjective_pairing]. }
  assert (R3 : demo_reachable demo_fds demo_3) by (eapply or_step; [exact R2 | apply os_new]).
  assert (R4 : demo_reachable demo_fds demo_4).
  { eapply or_step; [exact R3 |]. eapply (os_append _ _ _ _ _ _ _ _ 1 (the_parcel 1 demo_3) (the_parcel 0 demo_3) 0 (zlen (data (the_parcel 0 demo_3))));
      [vm_compute; reflexivity | exact A3 | lia | apply zlen_nonneg | right; exists 0%nat; vm_compute; reflexivity | apply surjective_pairing]. }
  eapply or_step; [exact R4 |]. eapply (os_drop _ _ _ _ _ _ _ _ 0 (the_parcel 0 demo_4)); [vm_compute; reflexivity | apply surjective_pairing].
Qed.

(** Binder 7 and a copy of descriptor 1 are written to a parcel, which is copied to another and dropped. *)
Lemma parcels_own_what_they_name_witness :
  all_ids demo_5 = [1] /\ published_count 1 (natives (proc demo_5)) = 1 /\ lookup_native 1 (natives (proc demo_5)) = Some 7%nat /\
  all_fds demo_5 = [4] /\ open_fds (proc demo_5) = {[0; 1; 2; 4]} /\ double_closes (proc demo_5) = [] /\
  exists w, drop_parcel true any_proxy (the_parcel 1 demo_5) (proc demo_5) = (Ok tt, w).
Proof.
  destruct (@parcels_own_what_they_name ptr64 linux_errno false true true false any_proxy linux_dup no_write linux_dup_fresh
              ltac:(done) demo_fds demo_5 demo_run) as (H1 & H2 & _ & H4 & H5).
  split; [vm_compute; reflexivity |]. split; [rewrite H1; vm_compute; reflexivity |]. split; [| split; [vm_compute; reflexivity | split; [vm_compute; reflexivity |]]].
  - destruct (H2 1) as (a & Ea & _); [vm_compute; left |]. rewrite Ea. rewrite <- Ea. vm_compute. reflexivity.
  - split; [exact H4 |]. apply (H5 1%nat). vm_compute. reflexivity.
Defined.

(** Delivered back while the parcel that was sent is still there. *)
Lemma binder_returns_home_witness :
  exists q, @deserialize_binder ptr64 false true any_proxy no_read
              (mkCx (proc demo_1) (from_ipc_parts (data (the_parcel 0 demo_1)) [0])) = (Ok (Some (Native 7)), mkCx (proc demo_1) q) /\ pos q = 28.
Proof.
  destruct (@binder_returns_home ptr64 false true true false any_proxy no_write no_read 7
              (proc demo_0) parcel_new (mkCx (proc demo_1) (the_parcel 0 demo_1))) as (id & msg & E1 & E2 & E3 & _ & H).
  - apply table_start.
  - split; vm_compute; done.
  - split; vm_compute; done.
  - reflexivity.
  - vm_compute. reflexivity.
  - vm_compute. reflexivity.
  - assert (Em : msg = data (the_parcel 0 demo_1)) by (symmetry; exact E1).
    destruct (H (proc demo_1) (from_ipc_parts (data (the_parcel 0 demo_1)) [0]) [] []) as (q & Eq & Hq).
    + apply rtc_refl.
    + cbn [world] in E3. rewrite E3, count_cons, Z.eqb_refl. pose proof (count_bounds id (NativeTable.objects (natives (proc demo_0)))).
      pose proof (count_bounds id (held (natives (proc demo_1)))). lia.
    + reflexivity.
    + split; vm_compute; done.
    + repeat constructor.
    + rewrite Em. by rewrite app_nil_r.
    + reflexivity.
    + left.
    + exists q. split; [exact Eq |]. rewrite Hq, Em. vm_compute. reflexivity.
Defined.
