(* ===== verification/NativeDispatch.v ===== *)
(** What a native binder does with a request (src/rsbinder/src/native.rs: [Inner::transact],
    [rpc_transact], [on_transact] and the extension; src/rsbinder/src/thread_state.rs:
    [check_interface]), and how the proxy of a kernel binder builds one
    (src/rsbinder/src/parcel.rs: [write_interface_token]; src/rsbinder/src/proxy.rs:
    [prepare_transact], [submit_transact] and [dump]).

    The service behind the binder ([Remotable::on_transact] and [on_dump]) is any computation on the
    state of the dispatch: the two parcels, the process, and the part of the thread that the header of a
    request changes. *)

From Stdlib Require Import ZArith Lia Strings.Byte.
From stdpp Require Import base gmap list.
From S2P Require Import Prelude Errors Wire Binders Session ThreadState NativeTable Parcel ParcelSpec Parcelable Holder.
From S2P Require Import ParcelObjects ParcelOwnership.

Definition FIRST_CALL_TRANSACTION : Z := 1.
Definition LAST_CALL_TRANSACTION : Z := 16777215.
Definition DUMP_TRANSACTION : Z := b_pack_chars 95 68 77 80.
Definition SHELL_COMMAND_TRANSACTION : Z := b_pack_chars 95 67 77 68.
Definition SYSPROPS_TRANSACTION : Z := b_pack_chars 95 83 80 82.
Definition EXTENSION_TRANSACTION : Z := b_pack_chars 95 69 88 84.
Definition DEBUG_PID_TRANSACTION : Z := b_pack_chars 95 80 73 68.
Definition START_RECORDING_TRANSACTION : Z := b_pack_chars 95 83 82 68.
Definition STOP_RECORDING_TRANSACTION : Z := b_pack_chars 95 69 82 68.
Definition INTERFACE_HEADER : Z := b_pack_chars 83 89 83 84.
Definition STRICT_MODE_PENALTY_GATHER : Z := -2147483648.

(** ** The thread *)

(** The fields of a thread that the header of a request is made from and goes to. *)
Record Calling : Type := mkCalling {
  policy : Z;
  incoming : option TransactionState
}.

Definition calling_of (s : ThreadState) : Calling := mkCalling (strict_mode_policy s) (transaction s).

Definition with_work_source (uid : Z) (tr : TransactionState) : TransactionState :=
  mkTransaction (calling_pid tr) (calling_sid tr) (calling_uid tr) (last_transaction_binder_flags tr) uid
                (propagate_work_source tr) (has_explicit_identity tr).

Definition note_policy (strict_policy : Z) (c : Calling) : Calling :=
  let last := default 0 (last_transaction_binder_flags <$> incoming c) in
  mkCalling (if negb (Z.land last TF_ONE_WAY =? 0) then 0 else strict_policy) (incoming c).

Definition note_work_source (uid : Z) (c : Calling) : Calling :=
  mkCalling (policy c) (with_work_source uid <$> incoming c).

(** What a request of this thread says of its work source. *)
Definition outgoing_work_source (c : Calling) : Z :=
  if default false (propagate_work_source <$> incoming c)
  then wrap_i 32 (default 0 (work_source <$> incoming c)) else UNSET_WORK_SOURCE.

(** ** The state of a dispatch *)

Record State : Type := mkState {
  calling : Calling;
  process : World;
  extension : option SIBinder;
  reader : Parcel;
  reply : Parcel
}.

Abbreviation D := (M State StatusCode).

Definition set_calling (c : Calling) (s : State) : State := mkState c (process s) (extension s) (reader s) (reply s).
Definition set_reader (p : Parcel) (s : State) : State := mkState (calling s) (process s) (extension s) p (reply s).

Definition on_calling (f : Calling -> Calling) : D unit := modify (fun s => set_calling (f (calling s)) s).
Definition on_reader {A} (m : P A) : D A := fun s =>
  let (r, p) := m (reader s) in (r, set_reader p s).
Definition on_reply {A} (m : K A) : D A := fun s =>
  let (r, c) := m (mkCx (process s) (reply s)) in
  (r, mkState (calling s) (world c) (extension s) (reader s) (parcel c)).

Section Native.
Context `{PtrWidth} `{ErrnoTable}.
Context (android12 sdk30 debug_assertions background_scheduling_disabled : bool).
Context (strong_proxy_for_handle_stability : Z -> Stability -> outcome StatusCode Stability).
Context (fcntl_dupfd_cloexec : gset Z -> Z -> Z + Z).
Context (rpc_write_binder : option SIBinder -> K unit).

Local Abbreviation serialize_binder :=
  (ParcelObjects.serialize_binder android12 sdk30 debug_assertions background_scheduling_disabled
     strong_proxy_for_handle_stability rpc_write_binder).
Local Abbreviation write_object :=
  (ParcelObjects.write_object debug_assertions strong_proxy_for_handle_stability).

(** ** The header of a request *)

Definition write_interface_token (c : Calling) (interface : list Z) : P unit :=
  let* _ := write_i32 (Z.lor (policy c) STRICT_MODE_PENALTY_GATHER) in
  let* _ := modify update_work_source_request_header_pos in
  let* _ := write_i32 (outgoing_work_source c) in
  let* _ := (if sdk30 then write_word 4 INTERFACE_HEADER else ret tt) in
  str_serialize_option (Some interface).

Definition check_interface (descriptor : list Z) : D bool :=
  let* strict_policy := on_reader read_i32 in
  let* _ := on_calling (note_policy strict_policy) in
  let* _ := on_reader (modify update_work_source_request_header_pos) in
  let* work_source := on_reader read_i32 in
  let* _ := on_calling (note_work_source (wrap_u 32 work_source)) in
  let* expected :=
    (if sdk30 then let* header := on_reader (read_uint 4) in ret (header =? INTERFACE_HEADER) else ret true) in
  if expected : bool then
    let* parcel_interface := on_reader (de string_codec) in
    ret (bool_decide (parcel_interface = descriptor))
  else ret false.

(** ** A native binder *)

(** The descriptor of the interface, the process id, and the service. *)
Context (descriptor : list Z) (own_pid : Z).
Context (remotable_on_transact : Z -> D unit) (on_dump : Z -> list (list Z) -> D unit).

Fixpoint read_arguments (argc : nat) : P (list (list Z)) :=
  match argc with
  | O => ret []
  | S n => let* arg := de string_codec in let* rest := read_arguments n in ret (arg :: rest)
  end.

(** The codes the library answers when the service does not. *)
Definition on_transact (code : Z) : D unit :=
  if code =? INTERFACE_TRANSACTION then on_reply (on_parcel (str_serialize_option (Some descriptor)))
  else if code =? DUMP_TRANSACTION then
    let* obj := on_reader (read_object true) in
    if negb (fbo_type obj =? BINDER_TYPE_FD) then throw StBadType
    else
      let fd := flat_handle obj in
      let* argc := on_reader read_i32 in
      let* argv := on_reader (read_arguments (Z.to_nat argc)) in
      on_dump (wrap_i 32 fd) argv
  else if code =? SHELL_COMMAND_TRANSACTION then throw StInvalidOperation
  else if code =? SYSPROPS_TRANSACTION then throw StInvalidOperation
  else throw StUnknownTransaction.

(** The service, then the library. *)
Definition serve (code : Z) : D unit := fun s =>
  match remotable_on_transact code s with
  | (Err StUnknownTransaction, s) => on_transact code s
  | answer => answer
  end.

Definition write_extension : D unit := fun s => on_reply (serialize_binder (extension s)) s.

Definition rpc_transact (code : Z) : D unit :=
  if code =? PING_TRANSACTION then ret tt
  else if code =? EXTENSION_TRANSACTION then write_extension
  else if (code =? STOP_RECORDING_TRANSACTION) || (code =? START_RECORDING_TRANSACTION)
  then throw StInvalidOperation
  else if code =? DEBUG_PID_TRANSACTION then on_reply (on_parcel (write_i32 own_pid))
  else serve code.

Definition transact (code : Z) : D unit :=
  let* _ := on_reader (set_data_position 0) in
  if code =? PING_TRANSACTION then ret tt
  else if code =? EXTENSION_TRANSACTION then write_extension
  else if code =? STOP_RECORDING_TRANSACTION then throw StInvalidOperation
  else if code =? START_RECORDING_TRANSACTION then throw StInvalidOperation
  else if code =? DEBUG_PID_TRANSACTION then on_reply (on_parcel (write_i32 own_pid))
  else
    let* refused :=
      (if (FIRST_CALL_TRANSACTION <=? code) && (code <=? LAST_CALL_TRANSACTION)
       then let* matches := check_interface descriptor in ret (negb matches)
       else ret false) in
    if refused : bool then throw StBadType else serve code.

Definition get_extension : D (option SIBinder) := fun s => (Ok (extension s), s).
Definition set_extension (binder : SIBinder) : D unit :=
  modify (fun s => mkState (calling s) (process s) (Some binder) (reader s) (reply s)).

(** ** The proxy *)

Definition prepare_transact (c : Calling) (write_header : bool) (interface : list Z) : P unit :=
  if write_header then write_interface_token c interface else ret tt.

Fixpoint write_arguments (args : list (list Z)) : K unit :=
  match args with
  | [] => ret tt
  | arg :: args => let* _ := on_parcel (str_serialize_option (Some arg)) in write_arguments args
  end.

Definition submit_transact (wait : UntilResponse -> T (option Reply)) (obituary_sent : bool) (handle code : Z)
    (data : Parcel) (flags : Z) : T (option Reply) :=
  if obituary_sent then fail StDeadObject
  else ThreadState.transact wait handle code flags (mkBody (Parcel.data data) (objects data)).

(** The parcel of a dump, which owns the descriptor. *)
Definition dump_request (fd : Z) (args : list (list Z)) : K unit :=
  let* _ := write_object (new_with_fd fd true) true in
  let* _ := on_parcel (write_i32 (wrap_i 32 (zlen args))) in
  write_arguments args.
End Native.

(** * The header *)

(** [take_header] of the thread is what a request that is read to its end leaves behind. *)
Lemma calling_of_header strict_policy uid s :
  calling_of (take_header strict_policy uid s) = note_work_source uid (note_policy strict_policy (calling_of s)).
Proof.
  unfold take_header, set_calling_work_source_uid_without_propagation, calling_of, note_work_source, note_policy.
  destruct s as [? ? [tr |] ?]; cbn; by rewrite ?Z.land_0_l.
Qed.

Lemma gathered_policy x : in_i 32 x -> in_i 32 (Z.lor x STRICT_MODE_PENALTY_GATHER).
Proof.
  unfold in_i, STRICT_MODE_PENALTY_GATHER. intros Hx. change (2 ^ (32 - 1)) with 2147483648 in *.
  assert (E : Z.land x (-2147483648) = x / 2 ^ 31 * 2 ^ 31).
  { change (-2147483648) with (Z.lnot (Z.ones 31)). rewrite <- Z.ldiff_land, Z.ldiff_ones_r by lia.
    by rewrite Z.shiftr_div_pow2, Z.shiftl_mul_pow2 by lia. }
  pose proof (Z.add_lor_land x (-2147483648)) as Ha. rewrite E in Ha.
  change (2 ^ 31) with 2147483648 in *.
  pose proof (Z.div_mod x 2147483648 ltac:(lia)). pose proof (Z.mod_pos_bound x 2147483648 ltac:(lia)).
  assert (x / 2147483648 = 0 \/ x / 2147483648 = -1) by lia. lia.
Qed.

Lemma outgoing_work_source_range c : in_i 32 (outgoing_work_source c).
Proof.
  unfold outgoing_work_source. destruct (default false _); [by apply wrap_i_range |]. by unfold in_i, UNSET_WORK_SOURCE.
Qed.

Section Requests.
Context `{PtrWidth} `{ErrnoTable} (sdk30 : bool).

Definition header_wire : list byte := if sdk30 then to_le 4 INTERFACE_HEADER else [].

(** The token on the wire. *)
Definition token_wire (c : Calling) (interface : list Z) : list byte :=
  to_le 4 (Z.lor (policy c) STRICT_MODE_PENALTY_GATHER) ++
  to_le 4 (outgoing_work_source c) ++ header_wire ++ string_wire interface.

Lemma writes_header : writes (if sdk30 then write_word 4 INTERFACE_HEADER else ret tt) header_wire.
Proof. unfold header_wire. destruct sdk30; [by apply writes_word | apply writes_ret]. Qed.

Lemma token_written c interface : string_valid interface -> zlen (token_wire c interface) <= i32_max ->
  write_interface_token sdk30 c interface parcel_new
  = (Ok tt, set_request_header true 4 (appended (token_wire c interface) parcel_new)).
Proof.
  intros Hs. unfold token_wire, write_interface_token. set (h := to_le 4 (Z.lor _ _)).
  set (rest := to_le 4 (outgoing_work_source c) ++ header_wire ++ string_wire interface).
  assert (Hh : zlen h = 4) by apply zlen_to_le. rewrite zlen_app, Hh. intros Hl. pose proof (zlen_nonneg rest).
  unfold bind at 1.
  rewrite (writes_ok _ h) by first [apply writes_i32 | by repeat split | cbn; lia].
  assert (Hw : writes (let* _ := write_i32 (outgoing_work_source c) in
                       let* _ := (if sdk30 then write_word 4 INTERFACE_HEADER else ret tt) in
                       str_serialize_option (Some interface)) rest).
  { apply writes_bind; [apply writes_i32 |]. apply writes_bind; [apply writes_header | by apply string_writes]. }
  unfold bind at 1, modify at 1, update_work_source_request_header_pos. cbn [request_header_present].
  rewrite (writes_ok _ rest); [| exact Hw | by split; cbn | cbn; lia].
  unfold appended, set_request_header, set_pos, set_data. cbn. by rewrite zlen_app, Hh.
Qed.

(** ** What arrives *)

Lemma on_reader_reads {A B} (m : P A) (k : A -> D B) a w s pre post :
  decodes m a w 0 -> readable (reader s) -> nested_read_depth (reader s) = 0 ->
  data (reader s) = pre ++ w ++ post -> pos (reader s) = zlen pre ->
  bind (on_reader m) k s = k a (set_reader (set_pos (zlen pre + zlen w) (reader s)) s).
Proof.
  intros Hm Hr Hn Hd Hp. unfold bind, on_reader. rewrite (Hm (reader s) pre post); try done; [by rewrite Hp |].
  rewrite Hn. unfold MAX_NESTED_READ_DEPTH. lia.
Qed.

Lemma on_calling_step {B} f (k : unit -> D B) s : bind (on_calling f) k s = k tt (set_calling (f (calling s)) s).
Proof. done. Qed.

Lemma on_reader_step {B} f (k : unit -> D B) s : bind (on_reader (modify f)) k s = k tt (set_reader (f (reader s)) s).
Proof. done. Qed.

Lemma header_expected {B} (k : bool -> D B) s pre post :
  readable (reader s) -> nested_read_depth (reader s) = 0 ->
  data (reader s) = pre ++ header_wire ++ post -> pos (reader s) = zlen pre ->
  bind (if sdk30 then let* header := on_reader (read_uint 4) in ret (header =? INTERFACE_HEADER) else ret true) k s
  = k true (set_reader (set_pos (zlen pre + zlen header_wire) (reader s)) s).
Proof.
  unfold header_wire. intros Hr Hn Hd Hp. destruct sdk30.
  - unfold bind at 1. rewrite (on_reader_reads (read_uint 4) _ INTERFACE_HEADER (to_le 4 INTERFACE_HEADER) _ pre post); try done.
    by apply decodes_uint.
  - rewrite zlen_nil, Z.add_0_r, <- Hp, set_pos_pos. by destruct s.
Qed.

Lemma text_decodes text : string_valid text -> decodes (de string_codec) text (string_wire text) 0.
Proof. intros Ht. cbn. eapply decodes_map; [by apply string_decodes | apply decodes_ret]. Qed.

Lemma text_reads : reads (de string_codec).
Proof. apply reads_bind; [apply string_reads |]. intros [? |]; [apply reads_ret | apply reads_throw]. Qed.

(** The thread and the reader after the header of a request. *)
Definition received (c : Calling) (interface : list Z) (arrived : Parcel) (s : State) : State :=
  mkState (note_work_source (wrap_u 32 (outgoing_work_source c))
             (note_policy (Z.lor (policy c) STRICT_MODE_PENALTY_GATHER) (calling s)))
          (process s) (extension s)
          (set_pos (zlen (token_wire c interface)) (set_request_header true (zlen (data arrived)) arrived)) (reply s).

Lemma header_checked c interface descriptor w objs s :
  in_i 32 (policy c) -> string_valid interface -> zlen (token_wire c interface ++ w) < i32_max ->
  let arrived := from_ipc_parts (token_wire c interface ++ w) objs in
  check_interface sdk30 descriptor (set_reader arrived s)
  = (Ok (bool_decide (interface = descriptor)), received c interface arrived s).
Proof.
  intros Hp Hs Hl arrived. unfold arrived. unfold token_wire in *. rewrite <- !app_assoc in *.
  set (a := to_le 4 (Z.lor (policy c) _)) in *. set (b := to_le 4 (outgoing_work_source c)) in *.
  assert (Ha : zlen a = 4) by apply zlen_to_le. assert (Hb : zlen b = 4) by apply zlen_to_le.
  unfold check_interface.
  rewrite (on_reader_reads _ _ (Z.lor (policy c) STRICT_MODE_PENALTY_GATHER) a _ [] (b ++ header_wire ++ string_wire interface ++ w));
    [| by apply decodes_i32, gathered_policy | by split; cbn | done | done | done].
  rewrite on_calling_step, on_reader_step. cbn [reader set_reader set_calling].
  rewrite (on_reader_reads _ _ (outgoing_work_source c) b _ a (header_wire ++ string_wire interface ++ w));
    [| by apply decodes_i32, outgoing_work_source_range | by split; cbn; rewrite ?zlen_nil, ?Ha | done | done | by cbn; rewrite Ha].
  rewrite on_calling_step. cbn [reader set_reader set_calling calling].
  set (t := set_calling _ _).
  rewrite (header_expected _ t (a ++ b) (string_wire interface ++ w)); unfold t;
    [| by split; cbn; rewrite ?Ha, ?Hb | done | cbn; by rewrite <- !app_assoc | cbn; by rewrite zlen_app].
  rewrite (on_reader_reads _ _ interface (string_wire interface) _ (a ++ b ++ header_wire) w);
    [| by apply text_decodes | split; cbn; [rewrite zlen_app, Ha, Hb; pose proof (zlen_nonneg header_wire); lia | done] | done | cbn; by rewrite <- !app_assoc |].
  - unfold received, token_wire. fold a b. cbn. by rewrite !zlen_app, !Z.add_assoc.
  - cbn. by rewrite !zlen_app, Z.add_assoc.
Qed.
(** ** What any request can do *)

(** The header is read and noted: nothing else changes, and nothing panics. *)
Definition untouched (s s' : State) : Prop :=
  process s' = process s /\ extension s' = extension s /\ reply s' = reply s /\
  data (reader s') = data (reader s) /\ objects (reader s') = objects (reader s) /\ readable (reader s').

Definition looks {A} (m : D A) : Prop :=
  forall s, readable (reader s) -> fst (m s) <> Panic /\ untouched s (snd (m s)).

Lemma looks_ret {A} (a : A) : looks (ret a).
Proof. intros s Hs. by split; [| split_and!]. Qed.

Lemma looks_bind {A B} (m : D A) (k : A -> D B) : looks m -> (forall a, looks (k a)) -> looks (bind m k).
Proof.
  intros Hm Hk s Hs. unfold bind. destruct (Hm s Hs) as [Hp Hu].
  destruct (m s) as [[a | e |] s1]; [| by split | done]. destruct Hu as (U1 & U2 & U3 & U4 & U5 & U6).
  destruct (Hk a s1 U6) as [Hp' (V1 & V2 & V3 & V4 & V5 & V6)]. split; [done |].
  unfold untouched. cbn [snd] in *. split_and!; congruence || done.
Qed.

Lemma looks_reader {A} (m : P A) : reads m -> looks (on_reader m).
Proof.
  intros Hm s Hs. destruct (Hm _ Hs) as (Hp & n & Hn & E). unfold on_reader.
  destruct (m (reader s)) as [r q]; cbn in *. subst q. split; [done |]. split_and!; try done. by apply readable_set_pos.
Qed.

Lemma looks_mark : looks (on_reader (modify update_work_source_request_header_pos)).
Proof.
  intros s Hs. split; [done |]. unfold update_work_source_request_header_pos, on_reader, modify.
  by destruct (request_header_present _).
Qed.

Lemma looks_calling f : looks (on_calling f).
Proof. intros s Hs. by split. Qed.

Lemma check_interface_looks descriptor : looks (check_interface sdk30 descriptor).
Proof.
  unfold check_interface.
  repeat first [ apply looks_ret | apply looks_calling | apply looks_mark | apply looks_reader, reads_i32
               | apply looks_reader, reads_uint; lia | apply looks_reader, text_reads
               | apply looks_bind; [| intros ?] | case_match ].
Qed.
End Requests.

(** * Dispatch *)

Definition user_code (code : Z) : bool := (FIRST_CALL_TRANSACTION <=? code) && (code <=? LAST_CALL_TRANSACTION).

(** A code of a user is none of the library's. *)
Ltac not_control Hu :=
  let H1 := fresh in let H2 := fresh in
  pose proof Hu as [H1%Z.leb_le H2%Z.leb_le]%andb_prop;
  unfold FIRST_CALL_TRANSACTION, LAST_CALL_TRANSACTION in *;
  repeat (rewrite (proj2 (Z.eqb_neq _ _)) by (vm_compute; lia)); clear H1 H2.

Section Service.
Context `{PtrWidth} `{ErrnoTable}.
Context (android12 sdk30 debug_assertions background_scheduling_disabled : bool).
Context (strong_proxy_for_handle_stability : Z -> Stability -> outcome StatusCode Stability).
Context (rpc_write_binder : option SIBinder -> K unit).
Context (descriptor : list Z) (own_pid : Z).
Context (remotable_on_transact : Z -> D unit) (on_dump : Z -> list (list Z) -> D unit).

Local Abbreviation transact :=
  (NativeDispatch.transact android12 sdk30 debug_assertions background_scheduling_disabled
     strong_proxy_for_handle_stability rpc_write_binder descriptor own_pid remotable_on_transact on_dump).
Local Abbreviation rpc_transact :=
  (NativeDispatch.rpc_transact android12 sdk30 debug_assertions background_scheduling_disabled
     strong_proxy_for_handle_stability rpc_write_binder descriptor own_pid remotable_on_transact on_dump).
Local Abbreviation serve := (NativeDispatch.serve descriptor remotable_on_transact on_dump).

Lemma user_code_served code s : user_code code = true -> rpc_transact code s = serve code s.
Proof. intros Hu. unfold NativeDispatch.rpc_transact. by not_control Hu. Qed.

(** The dispatch of the kernel is the header and then the dispatch of RPC. *)
Lemma kernel_dispatch code s :
  transact code s
  = let s := set_reader (set_pos 0 (reader s)) s in
    if user_code code then
      bind (check_interface sdk30 descriptor)
           (fun matches => if matches : bool then rpc_transact code else throw StBadType) s
    else rpc_transact code s.
Proof.
  cbn zeta. unfold NativeDispatch.transact. unfold bind at 1, on_reader at 1. cbn [set_data_position modify].
  fold (user_code code). destruct (user_code code) eqn:Hu.
  - not_control Hu. unfold bind. destruct (check_interface sdk30 descriptor _) as [[[] | e |] s1]; try done.
    cbn. by rewrite user_code_served.
  - unfold NativeDispatch.rpc_transact.
    destruct (code =? PING_TRANSACTION), (code =? EXTENSION_TRANSACTION), (code =? STOP_RECORDING_TRANSACTION),
      (code =? START_RECORDING_TRANSACTION); done.
Qed.

(** C18: A call that a proxy prepares and the kernel delivers, with any arguments behind the token, is dispatched as a call
    over RPC whose reader stands at the arguments: the policy, with the gather bit, and the work source of the caller are
    noted on the thread (no policy for a oneway call) and the process and the reply are as they were. When the token names another interface
    the answer is [BadType] and the service does not run. *)
Theorem request_reaches_service c interface w objs code s :
  in_i 32 (policy c) -> string_valid interface -> zlen (token_wire sdk30 c interface ++ w) < i32_max ->
  user_code code = true ->
  exists request,
    prepare_transact sdk30 c true interface parcel_new = (Ok tt, request) /\
    let arrived := from_ipc_parts (data request ++ w) objs in
    transact code (set_reader arrived s)
    = if decide (interface = descriptor) then rpc_transact code (received sdk30 c interface arrived s)
      else (Err StBadType, received sdk30 c interface arrived s).
Proof.
  intros Hp Hs Hl Hc. eexists. split; [apply token_written; [done |] |].
  { rewrite zlen_app in Hl. pose proof (zlen_nonneg w). lia. }
  cbn zeta. rewrite kernel_dispatch, Hc. cbn [data set_request_header appended set_pos set_data parcel_new app].
  change (set_reader (set_pos 0 _) _) with (set_reader (from_ipc_parts (token_wire sdk30 c interface ++ w) objs) s).
  unfold bind. rewrite header_checked by done.
  destruct (decide (interface = descriptor)); [by rewrite bool_decide_eq_true_2 | by rewrite bool_decide_eq_false_2].
Qed.
End Service.

(** * Dump *)

Section Dump.
Context `{PtrWidth} `{ErrnoTable}.

Definition arguments_wire (args : list (list Z)) : list byte := concat (string_wire <$> args).

Lemma arguments_decode args : Forall string_valid args ->
  decodes (read_arguments (length args)) args (arguments_wire args) 0.
Proof.
  induction 1 as [| a l Ha Hl IH]; [apply decodes_ret |].
  cbn [length read_arguments arguments_wire fmap list_fmap concat].
  eapply decodes_bind; [by apply text_decodes |]. eapply decodes_map; [exact IH | apply decodes_ret].
Qed.

(** What [m] appends to a parcel of the kernel, leaving the process as it was. *)
Lemma on_parcel_writes {B} (m : P unit) w (k : unit -> K B) c :
  writes m w -> appendable (parcel c) -> zlen (data (parcel c)) + zlen w <= i32_max ->
  bind (ParcelObjects.on_parcel m) k c = k tt (mkCx (world c) (appended w (parcel c))).
Proof. intros Hm Ha Hl. unfold bind, ParcelObjects.on_parcel. by rewrite (writes_ok _ w). Qed.

Lemma arguments_written args c :
  Forall string_valid args -> appendable (parcel c) -> zlen (data (parcel c)) + zlen (arguments_wire args) <= i32_max ->
  write_arguments args c = (Ok tt, mkCx (world c) (appended (arguments_wire args) (parcel c))).
Proof.
  intros Hv. revert c. induction Hv as [| a l Ha Hl IH]; intros c Hp Hz.
  - destruct c. cbn in *. by rewrite appended_nil.
  - cbn [write_arguments]. change (arguments_wire (a :: l)) with (string_wire a ++ arguments_wire l) in *.
    rewrite zlen_app in Hz. pose proof (zlen_nonneg (arguments_wire l)).
    rewrite (on_parcel_writes _ (string_wire a)); [| by apply string_writes | done | lia].
    rewrite IH; cbn [parcel world]; [by rewrite appended_app | by apply appended_appendable |].
    cbn. rewrite zlen_app. lia.
Qed.

Definition dump_wire (obj : flat_binder_object) (args : list (list Z)) : list byte :=
  flat_bytes obj ++ to_le 4 (zlen args) ++ arguments_wire args.

Lemma dump_written debug_assertions lookup fd args w :
  Forall string_valid args -> zlen args <= i32_max -> zlen (dump_wire (new_with_fd fd true) args) <= i32_max ->
  dump_request debug_assertions lookup fd args (mkCx w parcel_new)
  = (Ok tt, mkCx w (set_objects [0] (appended (dump_wire (new_with_fd fd true) args) parcel_new))).
Proof.
  intros Hv Hn. unfold dump_wire, dump_request. set (obj := flat_bytes (new_with_fd fd true)).
  assert (Ho : zlen obj = 24) by apply zlen_flat. rewrite !zlen_app, zlen_to_le, Ho. intros Hl.
  pose proof (zlen_nonneg (arguments_wire args)). pose proof (zlen_nonneg args).
  assert (Ew : ParcelObjects.write_object debug_assertions lookup (new_with_fd fd true) true (mkCx w parcel_new)
               = (Ok tt, mkCx w (set_objects [0] (appended obj parcel_new)))).
  { unfold ParcelObjects.write_object. unfold bind at 1. cbn [ParcelObjects.on_parcel get parcel world is_for_rpc rpc parcel_new].
    change (is_for_rpc parcel_new) with false. cbn iota.
    rewrite (on_parcel_writes _ obj); [done | | by split | by rewrite Ho].
    unfold obj. rewrite <- (padded_aligned (flat_bytes _)) at 2 by (by rewrite zlen_flat).
    apply writes_aligned. rewrite zlen_flat. pose proof usize_max_bounds. unfold FLAT_BINDER_SIZE, u32_max in *. lia. }
  unfold bind at 1. rewrite Ew. cbn iota.
  rewrite wrap_i_small by (try done; unfold in_i, i32_max in *; simpl; lia).
  rewrite (on_parcel_writes _ (to_le 4 (zlen args))); [| apply writes_i32 | by split; cbn | cbn; rewrite zlen_to_le, Ho; lia].
  rewrite arguments_written; [| done | by split; cbn; rewrite ?zlen_app |]; cbn [data appended set_objects set_pos set_data parcel parcel_new app]; [| rewrite zlen_app, zlen_to_le, Ho; lia].
  rewrite appended_app. unfold appended, set_objects, set_pos, set_data. cbn. by rewrite !zlen_app, Z.add_0_l.
Qed.

Lemma delivered_handle fd fd' : in_i 32 fd' ->
  let obj := reread (flat_set_handle fd' (new_with_fd fd true)) in
  fbo_type obj = BINDER_TYPE_FD /\ wrap_i 32 (flat_handle obj) = fd'.
Proof.
  intros Hf obj. unfold obj.
  assert (Eb : fbo_binder (flat_set_handle fd' (new_with_fd fd true)) = wrap_u 32 fd').
  { cbn. unfold flat_handle. cbn [fbo_binder new_with_fd]. rewrite (wrap_u_small 32 (wrap_u 32 fd)) by (try done; by apply wrap_u_range). lia. }
  pose proof (wrap_u_range 32 fd' ltac:(lia)) as Hr.
  destruct (reread_fields (flat_set_handle fd' (new_with_fd fd true))) as (-> & E & _);
    [by vm_compute | rewrite Eb; unfold in_u in *; simpl in *; lia | by vm_compute |].
  split; [done |]. unfold flat_handle. rewrite E, Eb, wrap_u_small by (done || lia).
  by rewrite wrap_i_wrap_u, wrap_i_small by (done || lia).
Qed.

Lemma dump_read descriptor on_dump fd fd' args s :
  in_i 32 fd' -> Forall string_valid args -> zlen args <= i32_max ->
  let arrived := from_ipc_parts (dump_wire (flat_set_handle fd' (new_with_fd fd true)) args) [0] in
  zlen (data arrived) < i32_max ->
  exists h, on_transact descriptor on_dump DUMP_TRANSACTION (set_reader arrived s)
            = on_dump fd' args (set_reader (set_hint h (set_pos (zlen (data arrived)) arrived)) s).
Proof.
  intros Hf Hv Hn arrived. unfold arrived, dump_wire. cbn [data from_ipc_parts].
  set (obj := flat_set_handle fd' (new_with_fd fd true)). set (n := to_le 4 (zlen args)).
  assert (Ho : zlen (flat_bytes obj) = 24) by apply zlen_flat. assert (Hz : zlen n = 4) by apply zlen_to_le.
  intros Hl. pose proof (zlen_nonneg args) as Ha.
  destruct (read_object_at true (from_ipc_parts (flat_bytes obj ++ n ++ arguments_wire args) [0]) (flat_bytes obj)) as (h & Eo);
    [done | by split | repeat constructor | |].
  { cbn [data pos from_ipc_parts]. rewrite get_range_here; [done | by rewrite Ho]. }
  cbn [pos from_ipc_parts negb andb orb objects] in Eo. rewrite bool_decide_eq_true_2 in Eo by set_solver.
  fold (reread obj) in Eo. destruct (delivered_handle fd fd' Hf) as [Et Eh]. fold obj in Et, Eh.
  exists h. unfold on_transact. change (DUMP_TRANSACTION =? INTERFACE_TRANSACTION) with false. rewrite Z.eqb_refl.
  unfold bind at 1, on_reader at 1. cbn [reader set_reader]. rewrite Eo. rewrite Et, Z.eqb_refl. cbn [negb].
  rewrite (on_reader_reads _ _ (zlen args) n _ (flat_bytes obj) (arguments_wire args)); cbn [reader set_reader];
    [| apply decodes_i32; unfold in_i, i32_max in *; simpl; lia | by split | done | done | done].
  rewrite (on_reader_reads _ _ args (arguments_wire args) _ (flat_bytes obj ++ n) []); cbn [reader set_reader];
    [| replace (Z.to_nat (zlen args)) with (length args) by (unfold zlen; lia); by apply arguments_decode
     | split; [cbn [pos set_pos]; rewrite Ho, Hz; lia | done] | done | cbn; by rewrite app_nil_r, <- app_assoc | cbn; by rewrite zlen_app].
  rewrite Eh. cbn. by rewrite !zlen_app, Z.add_assoc.
Qed.
End Dump.

(** * Codes without a token *)

(** The adapter of an RPC session takes the token of an interface from every request that it does not answer itself, so a
    request for the extension, which has no body, fails before [rpc_transact] sees it. *)
Lemma extension_needs_token `{PtrWidth} ep target t in_fds s :
  txn_data t = [] -> fst (run_handler ep target t in_fds s) = Err StNotEnoughData.
Proof.
  intros Ht. unfold run_handler, consume_rpc_interface_token. rewrite Ht. set (p := incoming_parcel _ _ _ _ _).
  assert (E : read_aligned_data 4 p = (Err StNotEnoughData, p)).
  { destruct (read_aligned_cases 4 p) as [[E _] | (bs & _ & _ & Hb)]; [by split | done | | done | by vm_compute in Hb].
    pose proof usize_max_bounds. unfold u32_max in *. lia. }
  cbn. unfold string_deserialize_option, read_i32, read_int, read_fixed, bind. by rewrite E.
Qed.

(** * The service sees what the proxy sends *)

Section DumpService.
Context `{PtrWidth} `{ErrnoTable}.
Context (android12 sdk30 debug_assertions background_scheduling_disabled : bool).
Context (strong_proxy_for_handle_stability : Z -> Stability -> outcome StatusCode Stability).
Context (rpc_write_binder : option SIBinder -> K unit).
Context (descriptor : list Z) (own_pid : Z).
Context (remotable_on_transact : Z -> D unit) (on_dump : Z -> list (list Z) -> D unit).

(** A dump of a proxy reaches the service: when the kernel has put its descriptor [fd'] in the place of
    the sender's, and the service leaves the code to the library, [on_dump] gets [fd'] and the arguments that were
    written, on either dispatch, and every byte of the request has been read. The parcel of the request has one object,
    and building it changes nothing in the process. *)
Theorem dump_reaches_service fd fd' args w s :
  in_i 32 fd' -> Forall string_valid args -> zlen args <= i32_max -> zlen (dump_wire (new_with_fd fd true) args) < i32_max ->
  (forall s, remotable_on_transact DUMP_TRANSACTION s = (Err StUnknownTransaction, s)) ->
  exists request h,
    dump_request debug_assertions strong_proxy_for_handle_stability fd args (mkCx w parcel_new) = (Ok tt, mkCx w request) /\
    objects request = [0] /\
    let delivered := flat_bytes (flat_set_handle fd' (new_with_fd fd true)) ++ zdrop FLAT_BINDER_SIZE (data request) in
    let arrived := from_ipc_parts delivered (objects request) in
    transact android12 sdk30 debug_assertions background_scheduling_disabled strong_proxy_for_handle_stability
      rpc_write_binder descriptor own_pid remotable_on_transact on_dump DUMP_TRANSACTION (set_reader arrived s)
    = on_dump fd' args (set_reader (set_hint h (set_pos (zlen delivered) arrived)) s).
Proof.
  intros Hf Hv Hn Hl Hr.
  assert (Ew : zdrop FLAT_BINDER_SIZE (dump_wire (new_with_fd fd true) args) = to_le 4 (zlen args) ++ arguments_wire args).
  { unfold dump_wire. rewrite zdrop_app_r, zlen_flat, Z.sub_diag by (by rewrite zlen_flat). done. }
  assert (El : zlen (dump_wire (flat_set_handle fd' (new_with_fd fd true)) args) = zlen (dump_wire (new_with_fd fd true) args)).
  { unfold dump_wire. by rewrite !zlen_app, !zlen_flat. }
  destruct (dump_read descriptor on_dump fd fd' args s Hf Hv Hn) as (h & Eh); [cbn; by rewrite El |].
  eexists _, h. split; [apply dump_written; try done; lia |]. split; [done |].
  cbn [data objects set_objects appended set_pos set_data parcel_new app]. rewrite Ew. fold (dump_wire (flat_set_handle fd' (new_with_fd fd true)) args).
  rewrite kernel_dispatch. change (user_code DUMP_TRANSACTION) with false. cbn zeta iota.
  etransitivity; [| exact Eh].
  transitivity (serve descriptor remotable_on_transact on_dump DUMP_TRANSACTION
                  (set_reader (from_ipc_parts (dump_wire (flat_set_handle fd' (new_with_fd fd true)) args) [0]) s));
    [reflexivity |]. unfold serve. by rewrite Hr.
Qed.
End DumpService.

(** ** A service that adds one *)

Definition sample_calling : Calling := mkCalling 4 (Some (mkTransaction 30 None 2000 0 1000 true false)).
Definition sample_name : list Z := [73; 65; 100; 100].

(** Code 1 answers a number with the next one. *)
Definition adds_one (code : Z) : D unit :=
  if code =? 1 then let* n := on_reader (@read_i32 ptr64) in on_reply (on_parcel (@write_i32 ptr64 (n + 1)))
  else throw StUnknownTransaction.

(** The descriptor and the count of the arguments go to the reply. *)
Definition counts_arguments (fd : Z) (argv : list (list Z)) : D unit :=
  on_reply (let* _ := on_parcel (@write_i32 ptr64 fd) in on_parcel (@write_i32 ptr64 (zlen argv))).

Definition sample_world : World := mkWorld table_new ∅ ∅ [].
Definition sample_state : State :=
  mkState (mkCalling 0 (Some (mkTransaction 31 None 3000 0 0 false false))) sample_world None parcel_new parcel_new.

Local Abbreviation sample_transact :=
  (@transact ptr64 false true true false any_proxy no_write sample_name 50 adds_one counts_arguments).

Lemma request_reaches_service_witness : exists request,
  @prepare_transact ptr64 true sample_calling true sample_name parcel_new = (Ok tt, request) /\
  let (r, s) := sample_transact 1 (set_reader (from_ipc_parts (data request ++ to_le 4 41) []) sample_state) in
  r = Ok tt /\ data (reply s) = to_le 4 42 /\ policy (calling s) = -2147483644 /\
  (work_source <$> incoming (calling s)) = Some 1000.
Proof.
  destruct (@request_reaches_service ptr64 false true true false any_proxy no_write sample_name 50 adds_one
              counts_arguments sample_calling sample_name (to_le 4 41) [] 1 sample_state) as (request & E & H).
  - by unfold in_i.
  - split_and!; [repeat constructor; unfold scalar; lia | by vm_compute | by vm_compute].
  - by vm_compute.
  - done.
  - exists request. split; [exact E |]. cbn zeta in H. rewrite H. clear H. vm_compute in E. injection E as <-. by vm_compute.
Defined.

Lemma dump_reaches_service_witness : exists request h,
  @dump_request ptr64 true any_proxy 7 [sample_name] (mkCx sample_world parcel_new) = (Ok tt, mkCx sample_world request) /\
  let arrived := from_ipc_parts (flat_bytes (flat_set_handle 9 (new_with_fd 7 true)) ++ zdrop FLAT_BINDER_SIZE (data request)) [0] in
  sample_transact DUMP_TRANSACTION (set_reader arrived sample_state)
  = counts_arguments 9 [sample_name] (set_reader (set_hint h (set_pos 44 arrived)) sample_state).
Proof.
  destruct (@dump_reaches_service ptr64 false true true false any_proxy no_write sample_name 50 adds_one
              counts_arguments 7 9 [sample_name] sample_world sample_state) as (request & h & E & Eo & H).
  - by unfold in_i.
  - repeat constructor; [| by vm_compute..]. unfold scalar; lia.
  - by vm_compute.
  - by vm_compute.
  - done.
  - exists request, h. split; [exact E |]. cbn zeta in *. rewrite Eo in H. rewrite H. clear H. vm_compute in E. injection E as <-. by vm_compute.
Defined.
